(* ===== verification/_CoqProject ===== *)
-Q . S2P
Prelude.v
GoBytes.v
Record.v
MemTable.v
Index.v
GoFiles.v
Wal.v
WalSpec.v
Compaction.v
Log.v
LogSpec.v
LogIface.v
Retention.v
Wire.v
Payloads.v
Protocol.v
Codec.v
CodecSpec.v
Txn.v
TxnSpec.v
Partition.v
PartitionSpec.v
Assignor.v
AssignorSpec.v
StickySpec.v
Offsets.v
Group.v
GroupSpec.v
Handlers.v
HandlersSpec.v
Placement.v
PlacementSpec.v
RebalanceSpec.v
Cluster.v
ClusterSpec.v
Metadata.v
MetadataSpec.v
Consensus.v
ConsensusSpec.v
Replication.v
ReplicationSpec.v
Tenancy.v
TenancySpec.v
GoMatch.v
Resilience.v
ResilienceSpec.v
Security.v
SecuritySpec.v
GoJson.v
Schema.v
SchemaSpec.v
Topics.v
TopicsSpec.v
Broker.v
BrokerSpec.v
