(* ===== verification/Prelude.v ===== *)
(** * A verification of the StreamBus broker

    StreamBus (src/) is a distributed log in the manner of Kafka: brokers keep
    partitions as append-only logs of messages, producers write to them, alone or
    inside transactions, consumers read from offsets, alone or in groups, and a
    cluster of brokers agrees on metadata and replicates partitions.  This library
    models the broker, from the bytes of a record to the handlers of a request, and
    proves what makes its parts correct.

    ** The parts and how they interact

    - Storage engine (src/pkg/storage).  A partition's log ([logImpl], log.go)
      takes a batch of messages, gives each the next offset, serialises it (formats
      v2 and v3; v0 and v1 are read only), appends it to the write-ahead log
      ([walImpl], wal.go) and puts it under its offset into the active memtable, a
      skip list ([memTableImpl], memtable.go).  A full memtable becomes immutable;
      only the newest few are kept, compaction (compaction.go) merges them, and a
      reader that misses all of them falls back to the write-ahead log, which is a
      list of segment files with a buffered writer and a sparse index each
      (index.go).  Opening a directory scans the segments and rebuilds everything.
      The retention manager (retention.go) uses logs through the [Log] interface.
    - Transactions (src/pkg/transaction).  The coordinator keeps producers, their
      epochs and the state of each transaction, and drives a marker writer and an
      offset committer (src/pkg/broker/transaction_bridge.go) when one ends.  A
      partition (src/pkg/server/topics.go) keeps which transactions are open or
      aborted on it, so that a read-committed fetch knows where to stop and what to
      hide.
    - Wire protocol (src/pkg/protocol): frames, requests, responses and the payloads
      of coordination.
    - Consumer groups (src/pkg/consumer/group): the coordinator of memberships and
      generations, the three assignors, the storage of offsets.
    - Cluster (src/pkg/cluster): the registry of brokers, the coordinator, and the
      three strategies that place replicas; metadata (src/pkg/metadata): the
      replicated state machine, its store and the adapter that the cluster uses;
      consensus (src/pkg/consensus): the storage of raft's log and the loop that
      applies what raft commits; replication (src/pkg/replication): leader,
      follower, reconciliation, failover and the manager.
    - Tenancy (src/pkg/tenancy), security (src/pkg/security), schemas
      (src/pkg/schema), resilience (src/pkg/resilience, src/pkg/timeout).
    - Request path (src/pkg/server, src/pkg/broker/broker.go): the topic manager and
      the base handler on it; around them, from the inside out, the handlers of the
      group and transaction coordinators, of tenancy, of schemas and of security.

    ** The files

    Shared: Prelude.v (results, hint databases, tactics, list lemmas); GoBytes.v
    (Go's integers, slices, big-endian encodings, [bytes.Compare], CRC-32C,
    [sort.Search], times as nanoseconds); GoFiles.v ([*os.File] with its position and
    append mode, [bufio] with its 4096-byte buffers); GoMatch.v ([filepath.Match],
    [strings.Contains], UTF-8); GoJson.v ([json.Unmarshal], [strings] and SHA-256).

    Storage: Record.v, MemTable.v (the class [MemTableOps], its laws [MemTableLaws]
    and [skip_laws], their proof for the skip list; the source of random heights is a
    parameter), Index.v, Wal.v and WalSpec.v (the class [WalOps], its laws and their
    proof), Compaction.v, Log.v over any [WalOps] and [MemTableOps], LogSpec.v,
    LogIface.v (the class [LogOps] with the laws that clients of a log rely on, and
    their proof), Retention.v over [LogOps].

    Transactions: Txn.v and TxnSpec.v ([txn_step] is a step of the coordinator,
    [reachable] the states it gets into), Partition.v and PartitionSpec.v over
    [LogOps].

    Protocol: Wire.v, Payloads.v, Protocol.v, Codec.v, CodecSpec.v.

    Groups: Assignor.v, AssignorSpec.v, StickySpec.v, Offsets.v (the class
    [OffsetStorage] and its laws), Group.v, GroupSpec.v; Handlers.v and
    HandlersSpec.v (the handlers of both coordinators).

    Cluster: Placement.v, PlacementSpec.v, RebalanceSpec.v, Cluster.v (the classes
    [AssignmentStrategy] and [MetadataStore]), ClusterSpec.v ([StrategyLaws] and
    their proof for the three strategies), Metadata.v, MetadataSpec.v (replicas
    up to their clocks, with [Proper] instances), Consensus.v, ConsensusSpec.v,
    Replication.v (the class [StorageAdapter]), ReplicationSpec.v.

    Tenancy.v, TenancySpec.v; Resilience.v, ResilienceSpec.v; Security.v,
    SecuritySpec.v; Schema.v, SchemaSpec.v; Topics.v (the class [LogStore]: logs in
    directories) and TopicsSpec.v; Broker.v and BrokerSpec.v (the handlers around one
    another, as [initServer] builds them).

    Definitions keep the source's names; where two types have a method of the same
    name one of them has a prefix ([WAL_Read], [Log_Close]) or a module.  An operation
    that may panic returns [option]; one that returns an error returns [result] or an
    [option] of an error (nil is [None]) beside the new state.  What Go leaves open,
    the order of an unstable sort and of a range over a map, is a parameter that the
    theorems assume to be a permutation and nothing more.  Code outside src/ is a
    parameter too: raft, the JSON decoder of metadata entries, bcrypt, hashes and
    X.509 of the security package, what the operating system refuses.

    ** What is proved

    Storage.  Records are read back, and the reader is total on any bytes.  The
    memtable refines a finite map; the write-ahead log refines a list of records with
    a readable prefix, what was synced survives a crash, corruption is detected;
    compaction loses and invents nothing; the log refines a list of messages, and a
    flush or a close makes everything durable under every policy; retention deletes
    exactly what its rules say.

    Transactions.  The state machine and the invariant of all reachable states,
    agreement of markers and published offsets with the recorded outcome, the effect
    of [EndTxn] on every branch, that a retry and the expiry sweep finish what was
    begun, fencing.  A read-committed fetch returns exactly the messages that are
    decided to commit, before the first undecided one, also after a crash.

    Protocol.  Requests and responses are read back from their frames, and which
    fields a frame loses.

    Groups.  The coordinator refines an abstract group machine; a member is only
    handed what the leader of its generation stored; the assignors are valid and
    balanced, and sticky rebalancing ends within its bound; offsets make the round
    trip through requests and through transactions.

    Cluster.  Every placement has the replicas asked for on distinct available
    brokers within their limits, also when a rebalance and an assignment interleave;
    replicas of the metadata agree whatever their clocks; nodes given the same log
    apply it alike, and what consensus saved is loaded again; under one leader a
    follower that starts with a prefix of its leader's log keeps one and catches up.

    Around the request.  A tenant is never granted more than its quotas; the decision
    of the authorizer, exactly; the registry of schemas stays consistent and only
    messages that conform reach a topic; a breaker trips exactly when it should.
    A request touches only the partition it names and a restart brings all of them
    back; and a broker serves exactly the requests that its checks admit.

    Many theorems state where the code does less than its comments say, as a concrete
    run or an exact condition; among them [WalSpec.wal_reopened_append_overwrites],
    [WalSpec.wal_torn_tail_fails], [LogSpec.log_skips_unsynced],
    [TxnSpec.restart_forgets_transactions], [PartitionSpec.forged_marker_commits],
    [CodecSpec.short_payload_panics], [GroupSpec.rebalance_expires_heartbeating_member],
    [HandlersSpec.repeated_topic_commit_lost], [HandlersSpec.failed_publish_is_partial],
    [ReplicationSpec.torn_append_repeats], [RebalanceSpec.rack_aware_ends_iff],
    [ClusterSpec.rebalance_loses_assignment], [MetadataSpec.reassignment_refused],
    [ConsensusSpec.refused_entry_wedges], [ConsensusSpec.second_snapshot_blocks],
    [ReplicationSpec.new_leader_loses_committed], [TenancySpec.inactive_tenant_crashes],
    [SecuritySpec.no_entries_allow_all], [SchemaSpec.deleted_schema_unregistrable],
    [TopicsSpec.empty_topic_name_deletes_all] and [TopicsSpec.failed_creation_blocks].

    ** Bounds and fuel

    Integers that Go keeps in a fixed width are [Z] with [wraps] or [wrapu] where
    they are computed; theorems about offsets assume fewer than [2^63] messages, those
    about generations and node identifiers fewer than [2^31] steps.  Producer
    identifiers are 64 bits wide, whence the bound of [2^62] steps in
    [TxnSpec.producer_fenced]; epochs are 16 bits wide and wrap, whence its bound of
    65,535.  Quotas of throughput are at most [2^49], because the code compares rates
    as [float64].

    Loops that are not structural take fuel that is computed from the state so that
    it is enough: the size of the file for the scans of segments and of saved entries,
    the number of nodes for a skip-list level, the distance of the bounds for a binary
    search, the number of offsets for a read, twice the number of partitions for the
    moves of the sticky assignor (the source's own bound), the length of the pattern
    for [Match], twice the length of the text for JSON ([unmarshal_total]).  The
    theorems state that a result is returned, so they also show that no fuel runs
    out.  The one loop of the code that may spin, the rack-aware selection, has an
    exact condition for when it ends.

    ** What is not modelled

    Within the modelled packages: goroutine interleavings below the locks (each
    method that holds its object's lock for its whole body is one step; where the code
    releases a lock in between, the parts are steps of their own), the background
    tickers, which only decide when the modelled steps run, logging, statistics in
    floats, errors of the disk other than those that are parameters, and the part of
    an fsync that the operating system may lose: bytes handed to the operating system
    are taken to be in the file, bytes still in a [bufio.Writer] are lost in a crash.
    Handlers read the clock once.  Of configuration records only the fields that the
    modelled code reads.  Topics whose names are cleaned to one and the same directory
    share files in the code; the model does not follow that.  The markers that the
    transaction coordinator writes are followed on a partition (Partition.v), not
    through the composed request path (Broker.v).

    Left out as a whole: the JSON file behind the offset storage
    (offset_storage_file.go), the network server, raft and its transport, the
    replication links (src/pkg/replication/link), the encryption service and the audit
    sinks, the client libraries, the admin API, and the operational packages.  They
    are I/O and glue around the parts above, or floating-point statistics; the offset
    file and the links are what a next step would take up. *)

From stdpp Require Import prelude list sorting gmap strings.
From Stdlib Require Import ZArith Lia Strings.Byte.

Open Scope Z_scope.

(** ** Results of fallible operations *)

Inductive result (E A : Type) : Type :=
| Ok (a : A)
| Err (e : E).
Arguments Ok {E A} a.
Arguments Err {E A} e.

(** ** Automation *)

Create HintDb storage.
#[export] Hint Extern 1 (_ <= _) => lia : storage.
#[export] Hint Extern 1 (_ < _) => lia : storage.
#[export] Hint Extern 1 (_ ≤ _)%nat => lia : storage.
#[export] Hint Extern 1 (_ < _)%nat => lia : storage.

(** Split every boolean comparison test in the goal or the context into the
    proposition it decides. *)
Ltac zbool :=
  repeat match goal with
  | H : context [Z.ltb ?a ?b] |- _ => destruct (Z.ltb_spec a b)
  | H : context [Z.leb ?a ?b] |- _ => destruct (Z.leb_spec a b)
  | H : context [Z.eqb ?a ?b] |- _ => destruct (Z.eqb_spec a b)
  | |- context [Z.ltb ?a ?b] => destruct (Z.ltb_spec a b)
  | |- context [Z.leb ?a ?b] => destruct (Z.leb_spec a b)
  | |- context [Z.eqb ?a ?b] => destruct (Z.eqb_spec a b)
  end.

(** The length of a Go slice or string, as the [int] that [len] returns. *)
Notation zlen l := (Z.of_nat (length l)).

(** Invert one layer of a computation in the option monad that succeeded:
    a bind, a test, a match or the final result. *)
Ltac some_step :=
  match goal with
  | H : mbind _ _ = Some _ |- _ =>
      let x := fresh "x" in let E := fresh "E" in
      apply bind_Some in H as (x & E & H)
  | H : Some _ = Some _ |- _ => injection H; clear H; intros; subst
  | H : None = Some _ |- _ => discriminate H
  | H : match ?x with _ => _ end = Some _ |- _ => destruct x eqn:?
  end.
Ltac some_inv := repeat (some_step; try done).

(** ** Lists *)

Section filter.
Context {A : Type} (P : A -> Prop) `{!forall x, Decision (P x)}.

Lemma filter_none (l : list A) : (forall x, x ∈ l -> ~ P x) -> filter P l = [].
Proof.
  induction l as [|x l IH]; [done|]. intros Hx.
  rewrite filter_cons_False by (apply Hx; left). apply IH. intros y Hy. apply Hx. by right.
Qed.

Lemma filter_all (l : list A) : (forall x, x ∈ l -> P x) -> filter P l = l.
Proof.
  induction l as [|x l IH]; [done|]. intros Hx.
  rewrite filter_cons_True by (apply Hx; left). f_equal. apply IH. intros y Hy. apply Hx. by right.
Qed.

Lemma NoDup_fmap_filter {B} (f : A -> B) (l : list A) : NoDup (f <$> l) -> NoDup (f <$> filter P l).
Proof.
  induction l as [|x l IH]; [done|]. rewrite fmap_cons, NoDup_cons, filter_cons. intros [Hx Hl].
  case_decide; [|by apply IH]. rewrite fmap_cons, NoDup_cons. split; [|by apply IH].
  intros (y & Ey & [_ Hy]%list_elem_of_filter)%list_elem_of_fmap. apply Hx. rewrite Ey. by apply list_elem_of_fmap_2.
Qed.

Lemma StronglySorted_filter (R : A -> A -> Prop) (l : list A) :
  StronglySorted R l -> StronglySorted R (filter P l).
Proof.
  induction 1 as [|x l Hs IH Hf]; [constructor|].
  rewrite filter_cons. case_decide; [|done]. constructor; [done|].
  rewrite Forall_forall in Hf |- *. intros y [_ Hy]%list_elem_of_filter. by apply Hf.
Qed.
End filter.

Lemma NoDup_fmap_inj {A B} (f : A -> B) (l : list A) x y : NoDup (f <$> l) -> x ∈ l -> y ∈ l -> f x = f y -> x = y.
Proof.
  induction l as [|z l IH]; intros Hd Hx Hy E; [by apply not_elem_of_nil in Hx|].
  apply NoDup_cons in Hd as [Hn Hd].
  apply elem_of_cons in Hx as [->|Hx], Hy as [->|Hy]; [done| | |by apply IH];
    exfalso; apply Hn, list_elem_of_fmap; eauto.
Qed.

Lemma filter_agree {A} (P Q : A -> Prop) `{!forall x, Decision (P x), !forall x, Decision (Q x)} (l : list A) :
  (forall x, x ∈ l -> P x <-> Q x) -> filter P l = filter Q l.
Proof.
  induction l as [|x l IH]; intros Hag; [done|]. rewrite !filter_cons.
  rewrite (decide_ext (P x) (Q x)) by (apply Hag; left).
  rewrite IH by (intros y Hy; apply Hag; by right). done.
Qed.

(** ** Taking turns *)

(** When [n] take turns, the [i]-th has had [(j + (n - 1 - i)) / n] of the first [j]. *)
Lemma round_up_step j n i :
  (i < n)%nat ->
  ((S j + (n - 1 - i)) / n = (j + (n - 1 - i)) / n + if decide (i = j mod n) then 1 else 0)%nat.
Proof.
  intros Hi. pose proof (Nat.div_mod_eq j n) as Hj. pose proof (Nat.mod_upper_bound j n ltac:(lia)) as Hs.
  set (q := (j / n)%nat) in *. set (s := (j mod n)%nat) in *.
  assert (forall a x, (a < n -> x = n * q + a -> x / n = q)%nat) as H0 by (intros; by symmetry; eapply Nat.div_unique).
  assert (forall a x, (a < n -> x = n * S q + a -> x / n = S q)%nat) as H1 by (intros; by symmetry; eapply Nat.div_unique).
  destruct (decide (s + n - 1 - i < n)%nat) as [Ha|Ha].
  - rewrite (H0 (s + n - 1 - i)%nat (j + (n - 1 - i))%nat) by lia. case_decide.
    + rewrite (H1 0%nat) by lia. lia.
    + rewrite (H0 (S s + n - 1 - i)%nat) by lia. lia.
  - rewrite (H1 (s - 1 - i)%nat (j + (n - 1 - i))%nat) by lia. rewrite (H1 (s - i)%nat) by lia. case_decide; lia.
Qed.
