(* ===== verification/GoBytes.v ===== *)
(** * Bytes, machine integers and the Go library routines the storage engine uses

    Go's [byte] is [Byte.byte], a [[]byte] or [string] is a list of them (a
    nil slice and an empty one are the same list).  Fixed-width integers are
    [Z] with their wrap-around written out by [wrapu] and [wraps].  The file
    models what the sources use of [encoding/binary] (big-endian put and get,
    with the panic on a short slice as [None]), [bytes.Compare],
    [hash/crc32] (Castagnoli), [sort.Search] and [time.Time]. *)

From S2P Require Import Prelude.
From stdpp Require Import prelude list sorting gmap.
From Stdlib Require Import ZArith Lia Strings.Byte.

Open Scope Z_scope.

Notation byte := Byte.byte.
Notation bytes := (list Byte.byte).

(** ** Bytes *)

Definition b2Z (b : byte) : Z := Z.of_N (Byte.to_N b).

Definition Z2b (z : Z) : byte :=
  match Byte.of_N (Z.to_N (z mod 256)) with
  | Some b => b
  | None => Byte.x00
  end.

#[export] Instance byte_eq_decision : EqDecision byte := Byte.byte_eq_dec.

#[export] Instance byte_countable : Countable byte :=
  inj_countable Byte.to_N Byte.of_N Byte.of_to_N.

Lemma b2Z_range b : 0 <= b2Z b < 256.
Proof.
  unfold b2Z. pose proof (Byte.to_N_bounded b). lia.
Qed.

Lemma b2Z_Z2b z : b2Z (Z2b z) = z mod 256.
Proof.
  unfold b2Z, Z2b.
  pose proof (Z.mod_pos_bound z 256 ltac:(lia)) as Hb.
  destruct (Byte.of_N (Z.to_N (z mod 256))) as [b|] eqn:E.
  - apply Byte.to_of_N in E. rewrite E. lia.
  - apply Byte.of_N_None_iff in E. lia.
Qed.

Lemma b2Z_inj a b : b2Z a = b2Z b -> a = b.
Proof.
  unfold b2Z. intros H.
  assert (Byte.to_N a = Byte.to_N b) as HN by lia.
  apply (f_equal Byte.of_N) in HN. rewrite !Byte.of_to_N in HN. congruence.
Qed.

Lemma Z2b_b2Z b : Z2b (b2Z b) = b.
Proof.
  apply b2Z_inj. rewrite b2Z_Z2b. apply Z.mod_small, b2Z_range.
Qed.

(** ** Fixed-width integers *)

(** Conversion to an unsigned [w]-bit integer. *)
Definition wrapu (w z : Z) : Z := z mod 2 ^ w.

(** Conversion to a signed [w]-bit integer. *)
Definition wraps (w z : Z) : Z := (z + 2 ^ (w - 1)) mod 2 ^ w - 2 ^ (w - 1).

Definition in_i64 (z : Z) : Prop := - 2 ^ 63 <= z < 2 ^ 63.
Definition in_i32 (z : Z) : Prop := - 2 ^ 31 <= z < 2 ^ 31.
Definition in_i16 (z : Z) : Prop := - 2 ^ 15 <= z < 2 ^ 15.
Definition in_i8 (z : Z) : Prop := - 2 ^ 7 <= z < 2 ^ 7.
Definition in_u64 (z : Z) : Prop := 0 <= z < 2 ^ 64.
Definition in_u32 (z : Z) : Prop := 0 <= z < 2 ^ 32.
Definition in_u16 (z : Z) : Prop := 0 <= z < 2 ^ 16.
Definition in_u8 (z : Z) : Prop := 0 <= z < 2 ^ 8.

#[export] Instance in_i64_dec z : Decision (in_i64 z).
Proof. unfold in_i64. apply _. Defined.

Lemma wraps_wrapu w z : 0 < w -> - 2 ^ (w - 1) <= z < 2 ^ (w - 1) -> wraps w (wrapu w z) = z.
Proof.
  unfold wraps, wrapu. intros Hw H.
  assert (2 ^ w = 2 * 2 ^ (w - 1)) as E by (rewrite <- Z.pow_succ_r by lia; f_equal; lia).
  rewrite Z.add_mod_idemp_l by lia. rewrite Z.mod_small by lia. lia.
Qed.

Lemma wraps_range w z : 0 < w -> - 2 ^ (w - 1) <= wraps w z < 2 ^ (w - 1).
Proof.
  unfold wraps. intros Hw.
  assert (2 ^ w = 2 * 2 ^ (w - 1)) as E by (rewrite <- Z.pow_succ_r by lia; f_equal; lia).
  pose proof (Z.mod_pos_bound (z + 2 ^ (w - 1)) (2 ^ w)). lia.
Qed.

Lemma wraps_wrapu_64 z : in_i64 z -> wraps 64 (wrapu 64 z) = z.
Proof.
  unfold wraps, wrapu, in_i64. intros H.
  rewrite Z.add_mod_idemp_l by lia. rewrite Z.mod_small by lia. lia.
Qed.

Lemma wraps_wrapu_16 z : in_i16 z -> wraps 16 (wrapu 16 z) = z.
Proof.
  unfold wraps, wrapu, in_i16. intros H.
  rewrite Z.add_mod_idemp_l by lia. rewrite Z.mod_small by lia. lia.
Qed.

Lemma wraps_64_in z : in_i64 (wraps 64 z).
Proof.
  unfold wraps, in_i64.
  pose proof (Z.mod_pos_bound (z + 2 ^ (64 - 1)) (2 ^ 64) ltac:(lia)). lia.
Qed.

Lemma wraps_64_id z : in_i64 z -> wraps 64 z = z.
Proof.
  unfold wraps, in_i64. intros H. rewrite Z.mod_small by lia. lia.
Qed.

(** ** [encoding/binary.BigEndian] *)

(** The [n] bytes [PutUint16/32/64] writes. *)
Fixpoint be_enc (n : nat) (z : Z) : bytes :=
  match n with
  | O => []
  | S n' => Z2b (z / 256 ^ Z.of_nat n') :: be_enc n' z
  end.

(** The value [Uint16/32/64] reads. *)
Fixpoint be_dec (bs : bytes) : Z :=
  match bs with
  | [] => 0
  | b :: bs' => b2Z b * 256 ^ Z.of_nat (length bs') + be_dec bs'
  end.

Lemma be_enc_length n z : length (be_enc n z) = n.
Proof. induction n; simpl; congruence. Qed.

Lemma pow256_pos n : 0 < 256 ^ Z.of_nat n.
Proof. apply Z.pow_pos_nonneg; lia. Qed.

Lemma pow256_S n : 256 ^ Z.of_nat (S n) = 256 * 256 ^ Z.of_nat n.
Proof. rewrite Nat2Z.inj_succ, Z.pow_succ_r by lia. reflexivity. Qed.

Lemma be_dec_enc n z : be_dec (be_enc n z) = z mod 256 ^ Z.of_nat n.
Proof.
  induction n as [|n IH]; [by rewrite Z.mod_1_r|].
  cbn [be_enc be_dec]. rewrite be_enc_length, b2Z_Z2b, IH.
  rewrite pow256_S. pose proof (pow256_pos n).
  rewrite (Z.mul_comm 256), Z.rem_mul_r by lia. lia.
Qed.

Lemma be_dec_range bs : 0 <= be_dec bs < 256 ^ zlen bs.
Proof.
  induction bs as [|b bs IH]; [simpl; lia|].
  cbn [be_dec length]. rewrite pow256_S.
  pose proof (b2Z_range b). pose proof (pow256_pos (length bs)). nia.
Qed.

Lemma be_enc_mod n z : be_enc n (z mod 256 ^ Z.of_nat n) = be_enc n z.
Proof.
  assert (forall m, (m ≤ n)%nat ->
      be_enc m (z mod 256 ^ Z.of_nat n) = be_enc m z) as H; [|by apply H].
  induction m as [|m IH]; intros Hm; [done|]. cbn [be_enc].
  rewrite IH by lia. f_equal. apply b2Z_inj. rewrite !b2Z_Z2b.
  replace (Z.of_nat n) with (Z.of_nat m + (1 + (Z.of_nat n - Z.of_nat m - 1))) by lia.
  rewrite !Z.pow_add_r by lia. pose proof (pow256_pos m).
  set (k := 256 ^ (Z.of_nat n - Z.of_nat m - 1)).
  assert (0 < k) by (apply Z.pow_pos_nonneg; lia).
  rewrite Z.rem_mul_r by lia.
  rewrite (Z.mul_comm (256 ^ Z.of_nat m) (_ mod _)), Z.div_add by lia.
  rewrite Z.div_small by (apply Z.mod_pos_bound; lia).
  rewrite Z.add_0_l, Z.pow_1_r, Z.rem_mul_r by lia.
  rewrite (Z.mul_comm 256), Z.mod_add by lia. by rewrite Z.mod_mod by lia.
Qed.

Lemma be_enc_dec bs : be_enc (length bs) (be_dec bs) = bs.
Proof.
  induction bs as [|b bs IH]; [done|]. cbn [length be_enc be_dec].
  pose proof (be_dec_range bs). pose proof (pow256_pos (length bs)).
  f_equal.
  - apply b2Z_inj. rewrite b2Z_Z2b, Z.div_add_l, Z.div_small by lia.
    rewrite Z.add_0_r. apply Z.mod_small, b2Z_range.
  - rewrite <- (be_enc_mod _ (_ + _)), Z.add_comm, Z.mod_add by lia.
    by rewrite be_enc_mod, IH.
Qed.

Lemma be_enc_inj n x y :
  be_enc n x = be_enc n y -> x mod 256 ^ Z.of_nat n = y mod 256 ^ Z.of_nat n.
Proof. intros H. rewrite <- !be_dec_enc. by rewrite H. Qed.

(** ** Slices *)

(** [data[lo:hi]]; [None] is the run-time panic. *)
Definition slice (data : bytes) (lo hi : Z) : option bytes :=
  if (0 <=? lo) && (lo <=? hi) && (hi <=? zlen data)
  then Some (take (Z.to_nat (hi - lo)) (drop (Z.to_nat lo) data))
  else None.

(** [binary.BigEndian.UintN(data[off:])] for an [n]-byte integer; [None] is
    the run-time panic on a slice that is too short. *)
Definition get_be (n : nat) (data : bytes) (off : Z) : option Z :=
  be_dec <$> slice data off (off + Z.of_nat n).

(** [binary.BigEndian.PutUintN(buf[off:], v)]; [None] is the panic. *)
Definition put_be (n : nat) (buf : bytes) (off v : Z) : option bytes :=
  if (0 <=? off) && (off + Z.of_nat n <=? zlen buf)
  then Some (take (Z.to_nat off) buf ++ be_enc n v ++ drop (Z.to_nat off + n) buf)
  else None.

(** [copy(buf[off:], src)]: copies as much of [src] as fits; [None] is the
    panic of [buf[off:]] when [off] is past the end. *)
Definition copy_at (buf : bytes) (off : Z) (src : bytes) : option bytes :=
  if (0 <=? off) && (off <=? zlen buf)
  then let o := Z.to_nat off in
       let n := Nat.min (length src) (length buf - o) in
       Some (take o buf ++ take n src ++ drop (o + n) buf)
  else None.

Lemma slice_app pre mid post :
  slice (pre ++ mid ++ post) (zlen pre) (zlen pre + zlen mid) = Some mid.
Proof.
  unfold slice. rewrite !length_app.
  destruct (Z.leb_spec 0 (zlen pre)); [|lia].
  destruct (Z.leb_spec (zlen pre) (zlen pre + zlen mid)); [|lia].
  destruct (Z.leb_spec (zlen pre + zlen mid)
    (Z.of_nat (length pre + (length mid + length post)))); [|lia].
  simpl. f_equal.
  replace (Z.to_nat (zlen pre + zlen mid - zlen pre)) with (length mid) by lia.
  rewrite Nat2Z.id, drop_app_length. by rewrite take_app_length.
Qed.

Lemma slice_None data lo hi : zlen data < hi -> slice data lo hi = None.
Proof.
  intros H. unfold slice. destruct (Z.leb_spec hi (zlen data)); [lia|].
  by rewrite andb_false_r.
Qed.

Lemma slice_length data lo hi s : slice data lo hi = Some s -> zlen s = hi - lo.
Proof.
  unfold slice. intros H. zbool; simpl in H; simplify_eq.
  rewrite length_take, length_drop. lia.
Qed.

Lemma get_be_app n pre v post :
  get_be n (pre ++ be_enc n v ++ post) (zlen pre) = Some (v mod 256 ^ Z.of_nat n).
Proof.
  unfold get_be.
  assert (zlen pre + Z.of_nat n = zlen pre + zlen (be_enc n v)) as ->
    by (rewrite be_enc_length; lia).
  rewrite slice_app. simpl. by rewrite be_dec_enc.
Qed.

Lemma put_be_app n pre hole v :
  (n ≤ length hole)%nat ->
  put_be n (pre ++ hole) (zlen pre) v = Some ((pre ++ be_enc n v) ++ drop n hole).
Proof.
  intros H. unfold put_be. rewrite length_app.
  destruct (Z.leb_spec 0 (zlen pre)); [|lia].
  destruct (Z.leb_spec (zlen pre + Z.of_nat n)
    (Z.of_nat (length pre + length hole))); [|lia].
  simpl. f_equal. rewrite Nat2Z.id, take_app_length.
  rewrite drop_app_ge by lia.
  by replace (length pre + n - length pre)%nat with n by lia; rewrite (assoc_L (++)).
Qed.

Lemma copy_at_app pre hole src :
  (length src ≤ length hole)%nat ->
  copy_at (pre ++ hole) (zlen pre) src = Some ((pre ++ src) ++ drop (length src) hole).
Proof.
  intros H. unfold copy_at. rewrite length_app.
  destruct (Z.leb_spec 0 (zlen pre)); [|lia].
  destruct (Z.leb_spec (zlen pre) (Z.of_nat (length pre + length hole))); [|lia].
  simpl. f_equal. rewrite Nat2Z.id, take_app_length.
  replace (Nat.min _ _) with (length src) by lia.
  rewrite take_ge, drop_app_ge by lia.
  by replace (length pre + length src - length pre)%nat with (length src) by lia;
    rewrite (assoc_L (++)).
Qed.

(** ** [bytes.Compare] *)

Fixpoint bytes_compare (a b : bytes) : comparison :=
  match a, b with
  | [], [] => Eq
  | [], _ :: _ => Lt
  | _ :: _, [] => Gt
  | x :: a', y :: b' =>
      match b2Z x ?= b2Z y with
      | Eq => bytes_compare a' b'
      | c => c
      end
  end.

(** [bytes.Compare(a, b) < 0] *)
Definition bytes_ltb (a b : bytes) : bool :=
  match bytes_compare a b with Lt => true | _ => false end.

(** [bytes.Equal(a, b)] *)
Definition bytes_eqb (a b : bytes) : bool := bool_decide (a = b).

Lemma bytes_compare_Eq a b : bytes_compare a b = Eq <-> a = b.
Proof.
  revert b. induction a as [|x a IH]; intros [|y b]; simpl; try done.
  destruct (Z.compare_spec (b2Z x) (b2Z y)) as [E|E|E].
  - apply b2Z_inj in E as ->. rewrite IH. split; [by intros ->|by intros [=]].
  - split; [done|]. intros [= -> _]. lia.
  - split; [done|]. intros [= -> _]. lia.
Qed.

Lemma bytes_compare_antisym a b : bytes_compare b a = CompOpp (bytes_compare a b).
Proof.
  revert b. induction a as [|x a IH]; intros [|y b]; simpl; try done.
  rewrite (Z.compare_antisym (b2Z x)).
  destruct (b2Z x ?= b2Z y); simpl; auto.
Qed.

Lemma bytes_compare_Lt_trans a b c :
  bytes_compare a b = Lt -> bytes_compare b c = Lt -> bytes_compare a c = Lt.
Proof.
  revert b c. induction a as [|x a IH]; intros [|y b] [|z c]; simpl; try done.
  destruct (Z.compare_spec (b2Z x) (b2Z y)) as [E|E|E]; try done;
  destruct (Z.compare_spec (b2Z y) (b2Z z)) as [F|F|F]; try done;
  destruct (Z.compare_spec (b2Z x) (b2Z z)) as [G|G|G]; try lia; eauto; done.
Qed.

Lemma bytes_ltb_irrefl a : bytes_ltb a a = false.
Proof. unfold bytes_ltb. by rewrite (proj2 (bytes_compare_Eq a a) eq_refl). Qed.

Lemma bytes_ltb_trans a b c :
  bytes_ltb a b = true -> bytes_ltb b c = true -> bytes_ltb a c = true.
Proof.
  unfold bytes_ltb. intros H1 H2.
  destruct (bytes_compare a b) eqn:E1; try done.
  destruct (bytes_compare b c) eqn:E2; try done.
  by rewrite (bytes_compare_Lt_trans _ _ _ E1 E2).
Qed.

Lemma bytes_ltb_total a b :
  bytes_ltb a b = false -> a <> b -> bytes_ltb b a = true.
Proof.
  unfold bytes_ltb. rewrite (bytes_compare_antisym a b). intros H Hne.
  destruct (bytes_compare a b) eqn:E; simpl; try done.
  by apply bytes_compare_Eq in E.
Qed.

Lemma bytes_ltb_asym a b : bytes_ltb a b = true -> bytes_ltb b a = false.
Proof.
  intros H. destruct (bytes_ltb b a) eqn:E; [|done].
  pose proof (bytes_ltb_trans _ _ _ H E). by rewrite bytes_ltb_irrefl in *.
Qed.

(** Big-endian encodings of equal width are ordered as the numbers are. *)
Lemma be_enc_compare n x y :
  bytes_compare (be_enc n x) (be_enc n y)
  = (x mod 256 ^ Z.of_nat n ?= y mod 256 ^ Z.of_nat n).
Proof.
  induction n as [|n IH]; [by rewrite !Z.mod_1_r|].
  cbn [be_enc bytes_compare]. rewrite IH, !b2Z_Z2b, pow256_S.
  pose proof (pow256_pos n) as Hp.
  rewrite (Z.mul_comm 256), !Z.rem_mul_r by lia.
  pose proof (Z.mod_pos_bound x _ Hp). pose proof (Z.mod_pos_bound y _ Hp).
  destruct (Z.compare_spec ((x / 256 ^ Z.of_nat n) mod 256)
                           ((y / 256 ^ Z.of_nat n) mod 256)) as [E|E|E].
  - rewrite E. by rewrite !(Z.add_comm (_ mod 256 ^ _)), Z.add_compare_mono_l.
  - symmetry. apply Z.compare_lt_iff. nia.
  - symmetry. apply Z.compare_gt_iff. nia.
Qed.

(** ** [hash/crc32]

    The checksum of a table, which its reversed polynomial [poly] determines. *)

Definition crc_castagnoli : Z := 0x82F63B78.
Definition crc_ieee : Z := 0xEDB88320.

Definition crc_bit (poly c : Z) : Z :=
  if Z.odd c then Z.lxor (Z.shiftr c 1) poly else Z.shiftr c 1.

Definition crc_byte (poly c : Z) (b : byte) : Z :=
  Nat.iter 8 (crc_bit poly) (Z.lxor c (b2Z b)).

Definition crc32 (poly : Z) (data : bytes) : Z :=
  Z.lxor (fold_left (crc_byte poly) data 0xFFFFFFFF) 0xFFFFFFFF.

(** [crc32.Checksum(data, crc32.MakeTable(crc32.Castagnoli))] *)
Definition crc32c (data : bytes) : Z := crc32 crc_castagnoli data.

(** [crc32.ChecksumIEEE(data)] *)
Definition ChecksumIEEE (data : bytes) : Z := crc32 crc_ieee data.

(** The check values of the CRC catalogue, for the text 123456789. *)
Example crc32c_check :
  crc32c (map Z2b [0x31; 0x32; 0x33; 0x34; 0x35; 0x36; 0x37; 0x38; 0x39]) = 0xE3069283.
Proof. vm_compute. reflexivity. Qed.

Example ChecksumIEEE_check :
  ChecksumIEEE (map Z2b [0x31; 0x32; 0x33; 0x34; 0x35; 0x36; 0x37; 0x38; 0x39]) = 0xCBF43926.
Proof. vm_compute. reflexivity. Qed.

Lemma lxor_lt_pow2 a b n :
  0 <= n -> 0 <= a < 2 ^ n -> 0 <= b < 2 ^ n -> 0 <= Z.lxor a b < 2 ^ n.
Proof.
  intros Hn Ha Hb.
  assert (0 <= Z.lxor a b) as H0 by (apply Z.lxor_nonneg; lia).
  split; [done|].
  destruct (Z.eq_dec (Z.lxor a b) 0) as [->|Hne]; [lia|].
  apply Z.log2_lt_pow2; [lia|].
  destruct (Z.eq_dec n 0) as [->|]. { assert (a = 0) as -> by lia. assert (b = 0) as -> by lia. done. }
  eapply Z.le_lt_trans; [apply Z.log2_lxor; lia|].
  apply Z.max_lub_lt.
  - destruct (Z.eq_dec a 0) as [->|]; [simpl; lia|]. apply Z.log2_lt_pow2; lia.
  - destruct (Z.eq_dec b 0) as [->|]; [simpl; lia|]. apply Z.log2_lt_pow2; lia.
Qed.

Section crc_range.
Context (poly : Z) (Hpoly : 0 <= poly < 2 ^ 32).

Lemma crc_bit_range c : 0 <= c < 2 ^ 32 -> 0 <= crc_bit poly c < 2 ^ 32.
Proof using Hpoly.
  intros H. unfold crc_bit.
  assert (0 <= Z.shiftr c 1 < 2 ^ 32) as Hs.
  { rewrite Z.shiftr_div_pow2 by lia. change (2 ^ 1) with 2.
    pose proof (Z.div_pos c 2). pose proof (Z.div_le_upper_bound c 2 c). lia. }
  destruct (Z.odd c); [|done]. apply lxor_lt_pow2; [lia|done|lia].
Qed.

Lemma crc32_range data : 0 <= crc32 poly data < 2 ^ 32.
Proof using Hpoly.
  unfold crc32. apply lxor_lt_pow2; [lia| |lia].
  assert (forall c, 0 <= c < 2 ^ 32 -> 0 <= fold_left (crc_byte poly) data c < 2 ^ 32) as H.
  { induction data as [|b data IH]; intros c Hc; [done|].
    cbn [fold_left]. apply IH. unfold crc_byte.
    assert (0 <= Z.lxor c (b2Z b) < 2 ^ 32) as H0
      by (apply lxor_lt_pow2; [lia|done|pose proof (b2Z_range b); lia]).
    revert H0. generalize (Z.lxor c (b2Z b)). clear -Hpoly.
    intros z Hz. simpl. repeat apply crc_bit_range. done. }
  apply H. lia.
Qed.
End crc_range.

Lemma crc32c_range data : 0 <= crc32c data < 2 ^ 32.
Proof. apply crc32_range. unfold crc_castagnoli. lia. Qed.

Lemma ChecksumIEEE_range data : 0 <= ChecksumIEEE data < 2 ^ 32.
Proof. apply crc32_range. unfold crc_ieee. lia. Qed.

(** ** [sort.Search]

    The library's binary search on the indices [0, n).  The loop halves the
    interval, so [n] steps of fuel are always enough. *)
Fixpoint search_loop (fuel : nat) (f : Z -> bool) (i j : Z) : Z :=
  match fuel with
  | O => i
  | S fuel' =>
      if i <? j then
        let h := (i + j) / 2 in
        if f h then search_loop fuel' f i h else search_loop fuel' f (h + 1) j
      else i
  end.

Definition sort_Search (n : Z) (f : Z -> bool) : Z := search_loop (Z.to_nat n) f 0 n.

Lemma search_loop_spec fuel f n i j :
  0 <= i <= j -> j <= n -> j - i <= Z.of_nat fuel ->
  (forall k, 0 <= k < i -> f k = false) ->
  (forall k, j <= k < n -> f k = true) ->
  (forall k k', 0 <= k <= k' -> k' < n -> f k = true -> f k' = true) ->
  let r := search_loop fuel f i j in
  i <= r <= j /\ (forall k, 0 <= k < r -> f k = false)
  /\ (forall k, r <= k < n -> f k = true).
Proof.
  revert i j. induction fuel as [|fuel IH]; intros i j Hij Hjn Hf Hlo Hhi Hmono; simpl.
  { repeat split; try lia; intros; [apply Hlo | apply Hhi]; lia. }
  destruct (Z.ltb_spec i j).
  2: { repeat split; try lia; intros; [apply Hlo | apply Hhi]; lia. }
  assert (i <= (i + j) / 2 < j) as Hm
    by (split; [apply Z.div_le_lower_bound | apply Z.div_lt_upper_bound]; lia).
  destruct (f ((i + j) / 2)) eqn:E.
  - edestruct (IH i ((i + j) / 2)) as (? & ? & ?); try lia; auto.
    { intros k Hk. apply (Hmono ((i + j) / 2)); auto; lia. }
    repeat split; auto; lia.
  - edestruct (IH ((i + j) / 2 + 1) j) as (? & ? & ?); try lia; auto.
    { intros k Hk. destruct (f k) eqn:Ek; [|done].
      rewrite (Hmono k ((i + j) / 2)) in E; auto; lia. }
    repeat split; auto; lia.
Qed.

(** [sort.Search] returns the least index in [[0, n]] from which a monotone
    predicate holds. *)
Lemma sort_Search_spec n f :
  0 <= n ->
  (forall k k', 0 <= k <= k' -> k' < n -> f k = true -> f k' = true) ->
  let r := sort_Search n f in
  0 <= r <= n /\ (forall k, 0 <= k < r -> f k = false)
  /\ (forall k, r <= k < n -> f k = true).
Proof.
  intros Hn Hm. unfold sort_Search.
  apply (search_loop_spec (Z.to_nat n) f n 0 n); auto; lia.
Qed.

(** ** [time.Time]

    An instant is its number of nanoseconds since the Unix epoch; locations
    and monotonic readings play no role in the storage engine.  [zero_time] is
    Go's zero [time.Time], the first instant of year 1. *)
Definition zero_time : Z := -62135596800 * 1000000000.

(** [Time.UnixNano]: the count of nanoseconds, wrapped to [int64]. *)
Definition UnixNano (t : Z) : Z := wraps 64 t.

(** [time.Unix(0, nsec)] *)
Definition Unix0 (nsec : Z) : Z := nsec.

Definition IsZero (t : Z) : bool := t =? zero_time.

(** ** strconv *)

(** The decimal digits of [n], most significant first, with at most [fuel] of them. *)
Fixpoint digits (fuel : nat) (n : Z) : bytes :=
  match fuel with
  | O => []
  | S fuel' => (if n <? 10 then [] else digits fuel' (n / 10)) ++ [Z2b (48 + n mod 10)]
  end.

(** [FormatInt(z, 10)] of an [int64], which has at most 19 digits. *)
Definition FormatInt (z : Z) : bytes :=
  if z <? 0 then x2d :: digits 20 (- z) else digits 20 z.

Fixpoint parse_digits (s : bytes) (acc : Z) : option Z :=
  match s with
  | [] => Some acc
  | c :: s' => if (48 <=? b2Z c) && (b2Z c <=? 57) then parse_digits s' (10 * acc + (b2Z c - 48)) else None
  end.

(** [ParseInt(s, 10, bits)]; [None] is an error, of syntax or of range. *)
Definition ParseInt (bits : Z) (s : bytes) : option Z :=
  let parse neg ds :=
    match ds with
    | [] => None
    | _ =>
        n ← parse_digits ds 0;
        let v := if neg : bool then - n else n in
        if (- 2 ^ (bits - 1) <=? v) && (v <? 2 ^ (bits - 1)) then Some v else None
    end in
  match s with
  | [] => None
  | c :: s' =>
      if bool_decide (c = x2d) then parse true s'
      else if bool_decide (c = x2b) then parse false s' else parse false s
  end.

(** A number is read back from its text. *)

Lemma parse_digits_app s t acc :
  parse_digits (s ++ t) acc = n ← parse_digits s acc; parse_digits t n.
Proof.
  revert acc. induction s as [|c s IH]; intros acc; simpl; [done|]. by case_match.
Qed.

Lemma digit_value n : b2Z (Z2b (48 + n mod 10)) = 48 + n mod 10.
Proof. rewrite b2Z_Z2b. pose proof (Z.mod_pos_bound n 10). apply Z.mod_small. lia. Qed.

Lemma digit_range n : 48 <= b2Z (Z2b (48 + n mod 10)) <= 57.
Proof. rewrite digit_value. pose proof (Z.mod_pos_bound n 10). lia. Qed.

Lemma parse_digits_digits fuel : forall n, 0 <= n < 10 ^ Z.of_nat fuel ->
  parse_digits (digits fuel n) 0 = Some n.
Proof.
  induction fuel as [|fuel IH]; intros n Hn; [simpl in *; f_equal; lia|].
  rewrite Nat2Z.inj_succ, Z.pow_succ_r in Hn by lia. cbn [digits]. rewrite parse_digits_app.
  assert (parse_digits (if n <? 10 then [] else digits fuel (n / 10)) 0 = Some (n / 10)) as ->.
  { destruct (Z.ltb_spec n 10).
    - simpl. by rewrite Z.div_small by lia.
    - apply IH. split; [apply Z.div_pos; lia|]. apply Z.div_lt_upper_bound; lia. }
  cbn [mbind option_bind parse_digits]. pose proof (digit_range n) as Hd.
  destruct (Z.leb_spec 48 (b2Z (Z2b (48 + n mod 10)))); [|lia].
  destruct (Z.leb_spec (b2Z (Z2b (48 + n mod 10))) 57); [|lia]. cbn [andb]. f_equal.
  pose proof (Z.mod_pos_bound n 10). rewrite digit_value. pose proof (Z.div_mod n 10). lia.
Qed.

(** The text of a number starts with a digit. *)
Lemma digits_head fuel : forall n, 0 <= n ->
  exists c s, digits (S fuel) n = c :: s /\ 48 <= b2Z c <= 57.
Proof.
  induction fuel as [|fuel IH]; intros n Hn; cbn [digits].
  - destruct (n <? 10); eexists _, _; (split; [done|apply digit_range]).
  - destruct (n <? 10); [eexists _, _; (split; [done|apply digit_range])|].
    destruct (IH (n / 10)) as (c & s & E & Hc); [apply Z.div_pos; lia|].
    cbn [digits] in E. rewrite E. eexists _, _. split; [done|done].
Qed.

Lemma ParseInt_FormatInt bits z : 0 < bits <= 64 -> - 2 ^ (bits - 1) <= z < 2 ^ (bits - 1) ->
  ParseInt bits (FormatInt z) = Some z.
Proof.
  intros Hb Hz. assert (2 ^ (bits - 1) <= 2 ^ 63) by (apply Z.pow_le_mono_r; lia).
  change (2 ^ 63) with 9223372036854775808 in *. unfold FormatInt, ParseInt.
  assert (forall n, 0 <= n <= 9223372036854775808 -> parse_digits (digits 20 n) 0 = Some n) as Hp.
  { intros n Hn. apply parse_digits_digits. change (10 ^ Z.of_nat 20) with 100000000000000000000. lia. }
  destruct (Z.ltb_spec z 0) as [Hneg|Hpos].
  - rewrite bool_decide_true by done.
    destruct (digits_head 19 (- z)) as (c & s & E & _); [lia|]. pose proof (Hp (- z) ltac:(lia)) as Hd.
    rewrite E in *. rewrite Hd. cbn [mbind option_bind]. rewrite Z.opp_involutive.
    destruct (Z.leb_spec (- 2 ^ (bits - 1)) z); [|lia]. destruct (Z.ltb_spec z (2 ^ (bits - 1))); [done|lia].
  - destruct (digits_head 19 z) as (c & s & E & Hc); [lia|]. pose proof (Hp z ltac:(lia)) as Hd.
    rewrite E in *. rewrite bool_decide_false by (intros ->; change (b2Z x2d) with 45 in Hc; lia).
    rewrite bool_decide_false by (intros ->; change (b2Z x2b) with 43 in Hc; lia). rewrite Hd. cbn [mbind option_bind].
    destruct (Z.leb_spec (- 2 ^ (bits - 1)) z); [|lia]. destruct (Z.ltb_spec z (2 ^ (bits - 1))); [done|lia].
Qed.

(** The text of a number holds digits and at most a leading minus sign. *)
Lemma digits_no_colon fuel : forall n, x3a ∉ digits fuel n.
Proof.
  induction fuel as [|fuel IH]; intros n; cbn [digits]; [set_solver|].
  rewrite elem_of_app, list_elem_of_singleton. intros [Hd|Hd].
  - destruct (n <? 10); [set_solver|]. by apply IH in Hd.
  - pose proof (digit_range n) as Hr. rewrite <- Hd in Hr. change (b2Z x3a) with 58 in Hr. lia.
Qed.

Lemma FormatInt_no_colon z : x3a ∉ FormatInt z.
Proof.
  unfold FormatInt. destruct (z <? 0); [|apply digits_no_colon].
  rewrite elem_of_cons. intros [H|H]; [done|]. by apply digits_no_colon in H.
Qed.

Lemma FormatInt_inj a b : in_i64 a -> in_i64 b -> FormatInt a = FormatInt b -> a = b.
Proof.
  unfold in_i64. intros Ha Hb E. pose proof (ParseInt_FormatInt 64 a) as Pa.
  rewrite E, (ParseInt_FormatInt 64 b) in Pa by (simpl; lia). injection Pa; [done|simpl; lia..].
Qed.
