(* ===== verification/Record.v ===== *)
(** * The on-disk record format (pkg/storage/log.go, types.go)

    [Message] and the serializers and parsers of the four record formats: the
    two live write formats v2 and v3, written into a buffer whose size is
    computed beforehand, and the reader of v0 to v3.  A Go run-time panic (a
    slice bound) is [None].  The theorems: the writers fill their buffer
    exactly and never panic, the header order is canonical, reading back what
    was written returns the message, the v2/v3 reader never panics on any
    input, and the v0 and v1 readers recover what those formats carry. *)

From S2P Require Import Prelude GoBytes.
From stdpp Require Import prelude list sorting gmap.
From Stdlib Require Import ZArith Lia Strings.Byte.

Open Scope Z_scope.

(** ** Messages *)

(** [Message] of types.go; a Go map with no entries and a nil map are both
    the empty map. *)
Record Message := mkMessage {
  msg_Offset : Z;
  msg_Key : bytes;
  msg_Value : bytes;
  msg_Headers : gmap bytes bytes;
  msg_Timestamp : Z;
  msg_CRC : Z;
  msg_ProducerID : Z;
  msg_ProducerEpoch : Z
}.

(** The composite literal with the given fields, every other one zero. *)
Definition Message_lit (key value : bytes) (ts : Z) : Message :=
  mkMessage 0 key value ∅ ts 0 0 0.

Definition set_Offset (m : Message) (o : Z) : Message :=
  mkMessage o (msg_Key m) (msg_Value m) (msg_Headers m) (msg_Timestamp m)
    (msg_CRC m) (msg_ProducerID m) (msg_ProducerEpoch m).

Definition set_Headers (m : Message) (h : gmap bytes bytes) : Message :=
  mkMessage (msg_Offset m) (msg_Key m) (msg_Value m) h (msg_Timestamp m)
    (msg_CRC m) (msg_ProducerID m) (msg_ProducerEpoch m).

Definition set_ProducerID (m : Message) (p : Z) : Message :=
  mkMessage (msg_Offset m) (msg_Key m) (msg_Value m) (msg_Headers m) (msg_Timestamp m)
    (msg_CRC m) p (msg_ProducerEpoch m).

Definition set_ProducerEpoch (m : Message) (e : Z) : Message :=
  mkMessage (msg_Offset m) (msg_Key m) (msg_Value m) (msg_Headers m) (msg_Timestamp m)
    (msg_CRC m) (msg_ProducerID m) e.

(** The errors of the storage engine: those types.go names, and the ones of
    the [io] and [os] packages its file operations return. *)
Inductive storage_error :=
| ErrOffsetOutOfRange
| ErrLogClosed
| ErrChecksumMismatch
| ErrTransactionalRecordNeedsV3
| ErrCorruptIndex       (* fmt.Errorf("corrupt index file: ...") *)
| ErrInvalidFilename    (* fmt.Errorf("invalid segment filename: ...") *)
| ErrUnexpectedEOF      (* io.ErrUnexpectedEOF: a partial record at the end *)
| ErrEOF                (* io.EOF *)
| ErrClosed.            (* os.ErrClosed: the file was closed *)

#[export] Instance storage_error_eq_dec : EqDecision storage_error.
Proof. solve_decision. Defined.

(** [MessageFormatVersion] is an [int]; these are its named values. *)
Definition MessageFormatUnset : Z := 0.
Definition MessageFormatV2 : Z := 2.
Definition MessageFormatV3 : Z := 3.

Definition recordMagicV2 : Z := 0xFFFFFFFF.
Definition recordVersionV2 : Z := 2.
Definition recordVersionV3 : Z := 3.
Definition maxSaneKeyLen : Z := 1048576.
Definition maxRecordFieldLen : Z := 1024 * 1024 * 10.

(** ** Writing *)

(** The order of [sort.Strings]. *)
Definition bytes_le (a b : bytes) : Prop := bytes_ltb b a = false.

#[export] Instance bytes_le_dec : RelDecision bytes_le.
Proof. intros a b. unfold bytes_le. apply _. Defined.

#[export] Instance bytes_le_total : Total bytes_le.
Proof.
  intros a b. unfold bytes_le. destruct (bytes_ltb b a) eqn:E; [|by left].
  right. by apply bytes_ltb_asym.
Qed.

#[export] Instance bytes_le_trans : Transitive bytes_le.
Proof.
  intros a b c. unfold bytes_le. intros H1 H2.
  destruct (bytes_ltb c a) eqn:E; [|done].
  destruct (decide (b = c)) as [->|Hne]; [congruence|].
  pose proof (bytes_ltb_total _ _ H2 (fun e => Hne (eq_sym e))) as Hbc.
  pose proof (bytes_ltb_trans _ _ _ Hbc E). congruence.
Qed.

#[export] Instance bytes_le_antisymm : AntiSymm (=) bytes_le.
Proof.
  intros a b. unfold bytes_le. intros H1 H2. apply dec_stable. intros Hne.
  pose proof (bytes_ltb_total _ _ H1 (fun e => Hne (eq_sym e))). congruence.
Qed.

Definition sortedHeaderNames (headers : gmap bytes bytes) : list bytes :=
  merge_sort bytes_le (map_to_list headers).*1.

(** [msg.Headers[name]]: the zero value when the key is absent. *)
Definition header (m : Message) (name : bytes) : bytes :=
  default [] (msg_Headers m !! name).

Definition recordBodySize (msg : Message) (names : list bytes) : Z :=
  fold_left (fun size name => size + (4 + zlen name + 4 + zlen (header msg name)))
    names
    (8 + 4 + zlen (msg_Key msg) + 4 + zlen (msg_Value msg) + 4).

Definition putRecordLen (buf : bytes) (off n : Z) : option bytes :=
  if (n <? 0) || (maxRecordFieldLen <? n)
  then put_be 4 buf off 0
  else put_be 4 buf off (wrapu 32 n).

(** The four statements that write one length-prefixed field. *)
Definition writeField (st : bytes * Z) (v : bytes) : option (bytes * Z) :=
  let '(buf, offset) := st in
  buf ← putRecordLen buf offset (zlen v);
  buf ← copy_at buf (offset + 4) v;
  Some (buf, offset + 4 + zlen v).

Fixpoint writeHeaders (st : bytes * Z) (msg : Message) (names : list bytes)
    : option (bytes * Z) :=
  match names with
  | [] => Some st
  | name :: names' =>
      st ← writeField st name;
      st ← writeField st (header msg name);
      writeHeaders st msg names'
  end.

Definition writeRecordBody (buf : bytes) (offset : Z) (msg : Message)
    (names : list bytes) : option (bytes * Z) :=
  buf ← put_be 8 buf offset (wrapu 64 (UnixNano (msg_Timestamp msg)));
  st ← writeField (buf, offset + 8) (msg_Key msg);
  '(buf, offset) ← writeField st (msg_Value msg);
  buf ← putRecordLen buf offset (zlen names);
  writeHeaders (buf, offset + 4) msg names.

(** [make([]byte, n)] *)
Definition make_bytes (n : Z) : bytes := replicate (Z.to_nat n) x00.

(** [buf[i] = b] *)
Definition set_byte (buf : bytes) (i : Z) (b : byte) : option bytes :=
  if (0 <=? i) && (i <? zlen buf) then Some (<[Z.to_nat i := b]> buf) else None.

Definition serializeMessageV2 (msg : Message) : option bytes :=
  let names := sortedHeaderNames (msg_Headers msg) in
  let buf := make_bytes (5 + recordBodySize msg names) in
  buf ← put_be 4 buf 0 recordMagicV2;
  buf ← set_byte buf 4 (Z2b recordVersionV2);
  '(buf, _) ← writeRecordBody buf 5 msg names;
  Some buf.

Definition serializeMessageV3 (msg : Message) : option bytes :=
  let names := sortedHeaderNames (msg_Headers msg) in
  let buf := make_bytes (5 + recordBodySize msg names + 8 + 2) in
  buf ← put_be 4 buf 0 recordMagicV2;
  buf ← set_byte buf 4 (Z2b recordVersionV3);
  '(buf, offset) ← writeRecordBody buf 5 msg names;
  buf ← put_be 8 buf offset (wrapu 64 (msg_ProducerID msg));
  put_be 2 buf (offset + 8) (wrapu 16 (msg_ProducerEpoch msg)).

Definition serializeMessage (version : Z) (msg : Message) : option bytes :=
  if version =? MessageFormatV2 then serializeMessageV2 msg else serializeMessageV3 msg.

(** ** Reading *)

(** The new offset and, when the read succeeded, the value.  The offset has
    moved past the prefix when the prefix was readable but the value was not. *)
Definition readLengthPrefixed (data : bytes) (offset : Z) : option (option bytes * Z) :=
  if zlen data <? offset + 4 then Some (None, offset)
  else
    length ← get_be 4 data offset;
    let offset := offset + 4 in
    if zlen data <? offset + length then Some (None, offset)
    else
      out ← slice data offset (offset + length);
      Some (Some out, offset + length).

Fixpoint parseHeaders (n : nat) (data : bytes) (offset : Z) (headers : gmap bytes bytes)
    : option (gmap bytes bytes * Z) :=
  match n with
  | O => Some (headers, offset)
  | S n' =>
      '(name, offset) ← readLengthPrefixed data offset;
      match name with
      | None => Some (headers, offset)
      | Some name =>
          '(headerValue, offset) ← readLengthPrefixed data offset;
          match headerValue with
          | None => Some (headers, offset)
          | Some headerValue => parseHeaders n' data offset (<[name := headerValue]> headers)
          end
      end
  end.

Definition parseRecordBody (data : bytes) (offset : Z) : option (Message * Z) :=
  if zlen data <? offset + 8 then Some (Message_lit [] [] zero_time, offset)
  else
    ts ← get_be 8 data offset;
    let timestamp := Unix0 (wraps 64 ts) in
    '(key, offset) ← readLengthPrefixed data (offset + 8);
    match key with
    | None => Some (Message_lit [] [] timestamp, offset)
    | Some key =>
        '(value, offset) ← readLengthPrefixed data offset;
        match value with
        | None => Some (Message_lit key [] timestamp, offset)
        | Some value =>
            let msg := Message_lit key value timestamp in
            if zlen data <? offset + 4 then Some (msg, offset)
            else
              count ← get_be 4 data offset;
              let offset := offset + 4 in
              let remaining := zlen data - offset in
              if (remaining <? 0) || (wrapu 32 remaining / 8 <? count)
              then Some (msg, offset)
              else
                '(headers, offset) ← parseHeaders (Z.to_nat count) data offset ∅;
                if bool_decide (headers = ∅) then Some (msg, offset)
                else Some (set_Headers msg headers, offset)
        end
    end.

Definition newFormatVersion (data : bytes) : option Z :=
  if 5 <=? zlen data then
    magic ← get_be 4 data 0;
    if magic =? recordMagicV2 then get_be 1 data 4 else Some 0
  else Some 0.

Definition deserializeMessageV2 (data : bytes) : option Message :=
  '(msg, _) ← parseRecordBody data 5;
  Some msg.

Definition deserializeMessageV3 (data : bytes) : option Message :=
  '(msg, offset) ← parseRecordBody data 5;
  if zlen data <? offset + 8 then Some msg
  else
    pid ← get_be 8 data offset;
    let msg := set_ProducerID msg (wraps 64 pid) in
    let offset := offset + 8 in
    if zlen data <? offset + 2 then Some msg
    else
      epoch ← get_be 2 data offset;
      Some (set_ProducerEpoch msg (wraps 16 epoch)).

(** The part of [deserializeMessage] after the version switch: v0 and v1. *)
Definition deserializeLegacy (data : bytes) : option Message :=
  '(timestamp, offset) ←
    (if 8 <=? zlen data then
       possibleKeyLen ← get_be 4 data 0;
       if (maxSaneKeyLen <? possibleKeyLen) || (zlen data <? 8 + 4) then
         ts ← get_be 8 data 0;
         Some (Unix0 (wraps 64 ts), 8)
       else Some (zero_time, 0)
     else Some (zero_time, 0));
  keyLen ← get_be 4 data offset;
  let offset := offset + 4 in
  key ← slice data offset (offset + keyLen);
  let offset := offset + keyLen in
  valueLen ← get_be 4 data offset;
  let offset := offset + 4 in
  value ← slice data offset (offset + valueLen);
  Some (Message_lit key value timestamp).

Definition deserializeMessage (data : bytes) : option Message :=
  v ← newFormatVersion data;
  if v =? recordVersionV3 then deserializeMessageV3 data
  else if v =? recordVersionV2 then deserializeMessageV2 data
  else deserializeLegacy data.

(** [extractTimestamp] of compaction.go: the timestamp of a stored record. *)
Definition extractTimestamp (data : bytes) : option Z :=
  v ← newFormatVersion data;
  if (v =? recordVersionV2) || (v =? recordVersionV3) then
    if zlen data <? 5 + 8 then Some zero_time
    else ts ← get_be 8 data 5; Some (Unix0 (wraps 64 ts))
  else if zlen data <? 12 then Some zero_time
  else
    possibleKeyLen ← get_be 4 data 0;
    if maxSaneKeyLen <? possibleKeyLen then
      nanos ← get_be 8 data 0; Some (Unix0 (wraps 64 nanos))
    else Some zero_time.

(** [offsetToKey]: the memtable key of an offset. *)
Definition offsetToKey (offset : Z) : bytes := be_enc 8 (wrapu 64 offset).

(** ** Layout of a record *)

(** The length prefix written for a field of length [n]. *)
Definition reclen (n : Z) : Z := if maxRecordFieldLen <? n then 0 else n.

Definition field_bytes (v : bytes) : bytes := be_enc 4 (reclen (zlen v)) ++ v.

Definition header_bytes (m : Message) (name : bytes) : bytes :=
  field_bytes name ++ field_bytes (header m name).

Definition body_bytes (m : Message) (names : list bytes) : bytes :=
  be_enc 8 (UnixNano (msg_Timestamp m)) ++ field_bytes (msg_Key m)
  ++ field_bytes (msg_Value m) ++ be_enc 4 (reclen (zlen names))
  ++ concat (map (header_bytes m) names).

Definition v2_bytes (m : Message) : bytes :=
  be_enc 4 recordMagicV2 ++ [Z2b recordVersionV2]
  ++ body_bytes m (sortedHeaderNames (msg_Headers m)).

Definition v3_bytes (m : Message) : bytes :=
  be_enc 4 recordMagicV2 ++ [Z2b recordVersionV3]
  ++ body_bytes m (sortedHeaderNames (msg_Headers m))
  ++ be_enc 8 (msg_ProducerID m) ++ be_enc 2 (msg_ProducerEpoch m).

(** A message whose every length fits a record field, and whose record fits
    the 32-bit length of a log entry. *)
Definition fits (v : bytes) : Prop := zlen v <= maxRecordFieldLen.

Definition msg_wf (m : Message) : Prop :=
  fits (msg_Key m) /\ fits (msg_Value m)
  /\ Z.of_nat (size (msg_Headers m)) <= maxRecordFieldLen
  /\ map_Forall (fun name v => fits name /\ fits v) (msg_Headers m)
  /\ in_i64 (msg_ProducerID m) /\ in_i16 (msg_ProducerEpoch m)
  /\ recordBodySize m (sortedHeaderNames (msg_Headers m)) < 2 ^ 32 - 10.

(** What reading a record gives back: everything but the offset, which the
    log stamps from the position it read, and the CRC, which no format
    carries; the timestamp comes back as the instant [UnixNano] names. *)
Definition reread (m : Message) : Message :=
  mkMessage 0 (msg_Key m) (msg_Value m) (msg_Headers m) (UnixNano (msg_Timestamp m)) 0
    (msg_ProducerID m) (msg_ProducerEpoch m).

(** ** Writing fills the buffer exactly *)

Lemma field_bytes_length v : length (field_bytes v) = (4 + length v)%nat.
Proof. unfold field_bytes. by rewrite length_app, be_enc_length. Qed.

Lemma be_enc_wrapu w n z :
  w = 8 * Z.of_nat n -> be_enc n (wrapu w z) = be_enc n z.
Proof.
  intros ->. unfold wrapu. rewrite Z.pow_mul_r by lia. apply be_enc_mod.
Qed.

(** The buffer after [c] was written behind [pre] into [hole], and the write
    position. *)
Definition filled (pre hole c : bytes) : bytes := pre ++ c ++ drop (length c) hole.
Definition fpos (pre c : bytes) : Z := zlen (pre ++ c).

Lemma filled_step pre hole c d :
  filled (pre ++ c) (drop (length c) hole) d = filled pre hole (c ++ d).
Proof.
  unfold filled. by rewrite drop_drop, length_app, <- !(assoc_L (++)).
Qed.

Lemma put_be_filled n pre hole c v :
  (length c + n ≤ length hole)%nat ->
  put_be n (filled pre hole c) (fpos pre c) v = Some (filled pre hole (c ++ be_enc n v)).
Proof.
  intros H. rewrite <- filled_step. unfold filled at 1, fpos. rewrite (assoc_L (++)).
  rewrite put_be_app by (rewrite length_drop; lia).
  unfold filled. by rewrite be_enc_length, <- !(assoc_L (++)).
Qed.

Lemma copy_at_filled pre hole c v :
  (length c + length v ≤ length hole)%nat ->
  copy_at (filled pre hole c) (fpos pre c) v = Some (filled pre hole (c ++ v)).
Proof.
  intros H. rewrite <- filled_step. unfold filled at 1, fpos. rewrite (assoc_L (++)).
  rewrite copy_at_app by (rewrite length_drop; lia).
  unfold filled. by rewrite <- !(assoc_L (++)).
Qed.

Lemma fpos_app pre c d : fpos pre (c ++ d) = fpos pre c + zlen d.
Proof. unfold fpos. rewrite !length_app. lia. Qed.

Lemma fpos_enc n pre c v : fpos pre c + Z.of_nat n = fpos pre (c ++ be_enc n v).
Proof. by rewrite fpos_app, be_enc_length. Qed.

Lemma putRecordLen_filled pre hole c n :
  0 <= n -> (length c + 4 ≤ length hole)%nat ->
  putRecordLen (filled pre hole c) (fpos pre c) n
  = Some (filled pre hole (c ++ be_enc 4 (reclen n))).
Proof.
  intros Hn Hh. unfold putRecordLen, reclen.
  destruct (Z.ltb_spec n 0); [lia|]. simpl.
  destruct (maxRecordFieldLen <? n).
  - by apply put_be_filled.
  - rewrite put_be_filled by done. by rewrite be_enc_wrapu.
Qed.

Lemma writeField_filled pre hole c v :
  (length c + length (field_bytes v) ≤ length hole)%nat ->
  writeField (filled pre hole c, fpos pre c) v
  = Some (filled pre hole (c ++ field_bytes v), fpos pre (c ++ field_bytes v)).
Proof.
  rewrite field_bytes_length. intros H. unfold writeField.
  rewrite putRecordLen_filled by lia. cbn [mbind option_bind].
  assert (fpos pre c + 4 = fpos pre (c ++ be_enc 4 (reclen (zlen v)))) as ->
    by (rewrite fpos_app, be_enc_length; lia).
  rewrite copy_at_filled by (rewrite length_app, be_enc_length; lia).
  cbn [mbind option_bind]. unfold field_bytes. by rewrite (assoc_L (++)), !fpos_app.
Qed.

Lemma writeHeaders_filled pre hole c m names :
  (length c + length (concat (map (header_bytes m) names)) ≤ length hole)%nat ->
  writeHeaders (filled pre hole c, fpos pre c) m names
  = Some (filled pre hole (c ++ concat (map (header_bytes m) names)),
          fpos pre (c ++ concat (map (header_bytes m) names))).
Proof.
  revert c. induction names as [|name names IH]; intros c;
    cbn [writeHeaders map concat].
  { intros _. by rewrite app_nil_r. }
  unfold header_bytes at 1. rewrite !length_app. intros H.
  rewrite writeField_filled by lia. cbn [mbind option_bind].
  rewrite writeField_filled by (rewrite length_app; lia). cbn [mbind option_bind].
  rewrite IH by (rewrite !length_app; lia).
  unfold header_bytes. by rewrite <- !(assoc_L (++)).
Qed.

Lemma recordBodySize_bytes m names : recordBodySize m names = zlen (body_bytes m names).
Proof.
  assert (forall acc, fold_left (fun size name =>
      size + (4 + zlen name + 4 + zlen (header m name))) names acc
    = acc + zlen (concat (map (header_bytes m) names))) as H.
  { induction names as [|name names IH]; intros acc;
      cbn [fold_left map concat]; [simpl; lia|].
    rewrite IH, length_app.
    assert (length (header_bytes m name) = 8 + length name + length (header m name))%nat
      by (unfold header_bytes; rewrite length_app, !field_bytes_length; lia). lia. }
  unfold recordBodySize, body_bytes. rewrite H.
  rewrite !length_app, !field_bytes_length, !be_enc_length. lia.
Qed.

Lemma writeRecordBody_filled pre hole c m names :
  (length c + length (body_bytes m names) ≤ length hole)%nat ->
  writeRecordBody (filled pre hole c) (fpos pre c) m names
  = Some (filled pre hole (c ++ body_bytes m names), fpos pre (c ++ body_bytes m names)).
Proof.
  unfold body_bytes. rewrite !length_app, !be_enc_length. intros H.
  unfold writeRecordBody.
  rewrite put_be_filled by lia. cbn [mbind option_bind].
  rewrite be_enc_wrapu by done.
  rewrite (fpos_enc 8 pre c (UnixNano (msg_Timestamp m)) : fpos pre c + 8 = _).
  rewrite writeField_filled by (rewrite !length_app, be_enc_length; lia).
  cbn [mbind option_bind].
  rewrite writeField_filled by (rewrite !length_app, be_enc_length; lia).
  cbn [mbind option_bind].
  rewrite putRecordLen_filled by (rewrite ?length_app, ?be_enc_length; lia).
  cbn [mbind option_bind].
  rewrite (fpos_enc 4 pre _ (reclen (zlen names)) : _ + 4 = _).
  rewrite writeHeaders_filled by (rewrite !length_app, !be_enc_length; lia).
  by rewrite <- !(assoc_L (++)).
Qed.

Lemma make_bytes_length n : length (make_bytes n) = Z.to_nat n.
Proof. unfold make_bytes. apply length_replicate. Qed.

Lemma set_byte_filled pre hole c b :
  (length c < length hole)%nat ->
  set_byte (filled pre hole c) (fpos pre c) b = Some (filled pre hole (c ++ [b])).
Proof.
  intros H. rewrite <- filled_step. unfold set_byte, filled, fpos.
  rewrite (assoc_L (++)). rewrite !(length_app (pre ++ c)), length_drop.
  destruct (Z.leb_spec 0 (zlen (pre ++ c))); [|lia].
  destruct (Z.ltb_spec (zlen (pre ++ c))
    (Z.of_nat (length (pre ++ c) + (length hole - length c)))); [|lia].
  simpl. f_equal. rewrite Nat2Z.id.
  destruct (drop (length c) hole) as [|x l] eqn:E.
  { apply (f_equal length) in E. rewrite length_drop in E. simpl in E. lia. }
  by rewrite insert_app_r_alt, Nat.sub_diag by lia.
Qed.

(** A record is written into a buffer of exactly its size. *)
Lemma filled_exact c n : n = zlen c -> filled [] (make_bytes n) c = c.
Proof.
  intros ->. unfold filled. rewrite drop_ge by (rewrite make_bytes_length; lia).
  by rewrite app_nil_r.
Qed.

Lemma filled_start n : make_bytes n = filled [] (make_bytes n) [].
Proof. unfold filled. simpl. by rewrite drop_0. Qed.

Lemma write_record_prefix n m v names :
  n >= 5 + recordBodySize m names ->
  (buf ← put_be 4 (make_bytes n) 0 recordMagicV2;
   buf ← set_byte buf 4 v;
   writeRecordBody buf 5 m names)
  = let c := be_enc 4 recordMagicV2 ++ [v] ++ body_bytes m names in
    Some (filled [] (make_bytes n) c, fpos [] c).
Proof.
  rewrite recordBodySize_bytes. intros Hn. rewrite (filled_start n) at 1.
  change (put_be 4 ?b 0 ?v) with (put_be 4 b (fpos [] []) v).
  rewrite put_be_filled by (rewrite make_bytes_length; simpl; lia).
  cbn [mbind option_bind app].
  change (set_byte ?b 4 ?v) with (set_byte b (fpos [] (be_enc 4 recordMagicV2)) v).
  rewrite set_byte_filled by (rewrite make_bytes_length, be_enc_length; lia).
  cbn [mbind option_bind].
  change (writeRecordBody ?b 5 ?m ?l)
    with (writeRecordBody b (fpos [] (be_enc 4 recordMagicV2 ++ [v])) m l).
  rewrite writeRecordBody_filled
    by (rewrite make_bytes_length, length_app, be_enc_length; cbn [length]; lia).
  by rewrite <- (assoc_L (++)).
Qed.

Lemma serializeMessageV2_layout m : serializeMessageV2 m = Some (v2_bytes m).
Proof.
  unfold serializeMessageV2. set (names := sortedHeaderNames _).
  pose proof (write_record_prefix (5 + recordBodySize m names) m
    (Z2b recordVersionV2) names ltac:(lia)) as H.
  destruct (put_be _ _ _ _) as [b1|]; [|done]. cbn [mbind option_bind] in *.
  destruct (set_byte _ _ _) as [b2|]; [|done]. cbn [mbind option_bind] in *.
  rewrite H. cbn [mbind option_bind]. rewrite filled_exact; [done|].
  rewrite recordBodySize_bytes, !length_app, be_enc_length. cbn [length]. lia.
Qed.

Lemma serializeMessageV3_layout m : serializeMessageV3 m = Some (v3_bytes m).
Proof.
  unfold serializeMessageV3. set (names := sortedHeaderNames _).
  set (n := 5 + recordBodySize m names + 8 + 2).
  pose proof (write_record_prefix n m (Z2b recordVersionV3) names ltac:(lia)) as H.
  destruct (put_be 4 _ _ _) as [b1|]; [|done]. cbn [mbind option_bind] in *.
  destruct (set_byte _ _ _) as [b2|]; [|done]. cbn [mbind option_bind] in *.
  rewrite H. cbn [mbind option_bind].
  set (c := be_enc 4 recordMagicV2 ++ [Z2b recordVersionV3] ++ body_bytes m names).
  assert (length c + 10 = Z.to_nat n)%nat as Hc.
  { unfold c, n. rewrite recordBodySize_bytes, !length_app, be_enc_length. cbn [length]. lia. }
  rewrite put_be_filled by (rewrite make_bytes_length; lia). cbn [mbind option_bind].
  rewrite (fpos_enc 8 [] c (wrapu 64 (msg_ProducerID m)) : _ + 8 = _).
  rewrite put_be_filled by (rewrite make_bytes_length, length_app, be_enc_length; lia).
  rewrite filled_exact by (rewrite !length_app, !be_enc_length; lia).
  rewrite !be_enc_wrapu by done. unfold c, v3_bytes. by rewrite <- !(assoc_L (++)).
Qed.

(** ** Reading back *)

(** [rest] is what remains of [data] at [off]. *)
Definition at_pos (data : bytes) (off : Z) (rest : bytes) : Prop :=
  exists pre, data = pre ++ rest /\ off = zlen pre.

Lemma at_pos_start data : at_pos data 0 data.
Proof. by exists []. Qed.

Lemma at_pos_app data off a b : at_pos data off (a ++ b) -> at_pos data (off + zlen a) b.
Proof.
  intros (pre & -> & ->). exists (pre ++ a). by rewrite length_app, (assoc_L (++)), Nat2Z.inj_add.
Qed.

Lemma at_pos_len data off rest : at_pos data off rest -> zlen data = off + zlen rest.
Proof. intros (pre & -> & ->). rewrite length_app. lia. Qed.

Lemma at_pos_get_be n data off v rest :
  at_pos data off (be_enc n v ++ rest) ->
  get_be n data off = Some (v mod 256 ^ Z.of_nat n)
  /\ at_pos data (off + Z.of_nat n) rest.
Proof.
  intros H. split; [|rewrite <- (be_enc_length n v); by apply at_pos_app].
  destruct H as (pre & -> & ->). apply get_be_app.
Qed.

Lemma at_pos_slice data off s rest :
  at_pos data off (s ++ rest) -> slice data off (off + zlen s) = Some s.
Proof. intros (pre & -> & ->). apply slice_app. Qed.

Lemma at_pos_field data off v rest :
  fits v -> at_pos data off (field_bytes v ++ rest) ->
  readLengthPrefixed data off = Some (Some v, off + zlen (field_bytes v))
  /\ at_pos data (off + zlen (field_bytes v)) rest.
Proof.
  intros Hv H. split; [|by apply at_pos_app].
  unfold field_bytes in *. rewrite <- (assoc_L (++)) in H.
  pose proof (at_pos_len _ _ _ H) as Hl. rewrite !length_app, be_enc_length in Hl.
  apply at_pos_get_be in H as [Hg H]. change (Z.of_nat 4) with 4 in H.
  unfold readLengthPrefixed.
  destruct (Z.ltb_spec (zlen data) (off + 4)); [lia|].
  rewrite Hg. cbn [mbind option_bind].
  assert (reclen (zlen v) mod 256 ^ Z.of_nat 4 = zlen v) as ->.
  { unfold reclen, fits, maxRecordFieldLen in *.
    destruct (Z.ltb_spec (1024 * 1024 * 10) (zlen v)); [lia|].
    change (256 ^ Z.of_nat 4) with 4294967296. apply Z.mod_small. lia. }
  destruct (Z.ltb_spec (zlen data) (off + 4 + zlen v)); [lia|].
  rewrite (at_pos_slice _ _ _ _ H). cbn [mbind option_bind].
  rewrite length_app, be_enc_length. do 2 f_equal. lia.
Qed.

Definition insert_headers (m : Message) (h : gmap bytes bytes) (names : list bytes)
    : gmap bytes bytes :=
  fold_left (fun h n => <[n := header m n]> h) names h.

Lemma parseHeaders_read m names : forall data off rest h,
  Forall (fun n => fits n /\ fits (header m n)) names ->
  at_pos data off (concat (map (header_bytes m) names) ++ rest) ->
  parseHeaders (length names) data off h
  = Some (insert_headers m h names, off + zlen (concat (map (header_bytes m) names)))
  /\ at_pos data (off + zlen (concat (map (header_bytes m) names))) rest.
Proof.
  induction names as [|n names IH]; intros data off rest h Hf H.
  { cbn. rewrite Z.add_0_r. done. }
  split; [|by apply at_pos_app].
  apply Forall_cons in Hf as [[Hn Hv] Hf].
  cbn [map concat length parseHeaders] in *. rewrite length_app.
  unfold header_bytes at 1 in H. rewrite <- !(assoc_L (++)) in H.
  apply at_pos_field in H as [-> H]; [|done]. cbn [mbind option_bind].
  apply at_pos_field in H as [-> H]; [|done]. cbn [mbind option_bind].
  destruct (IH _ _ _ (<[n:=header m n]> h) Hf H) as [-> _].
  do 2 f_equal. unfold header_bytes at 2. rewrite length_app. lia.
Qed.

Lemma sortedHeaderNames_perm h : sortedHeaderNames h ≡ₚ (map_to_list h).*1.
Proof. apply merge_sort_Permutation. Qed.

Lemma sortedHeaderNames_elem h n : n ∈ sortedHeaderNames h <-> is_Some (h !! n).
Proof.
  rewrite sortedHeaderNames_perm, list_elem_of_fmap. split.
  - intros ([k v] & -> & Hin). apply elem_of_map_to_list in Hin. by exists v.
  - intros [v Hv]. exists (n, v). by rewrite elem_of_map_to_list.
Qed.

Lemma sortedHeaderNames_length h : length (sortedHeaderNames h) = size h.
Proof. by rewrite sortedHeaderNames_perm, length_fmap, length_map_to_list. Qed.

Lemma insert_headers_lookup m names h n :
  insert_headers m h names !! n
  = if decide (n ∈ names) then Some (header m n) else h !! n.
Proof.
  unfold insert_headers. revert h.
  induction names as [|k names IH]; intros h; cbn [fold_left].
  { by rewrite decide_False by set_solver. }
  rewrite IH. destruct (decide (n ∈ names)) as [?|Hn].
  - by rewrite decide_True by set_solver.
  - destruct (decide (n = k)) as [->|Hk].
    + rewrite lookup_insert_eq. by rewrite decide_True by (apply elem_of_cons; auto).
    + rewrite lookup_insert_ne by done.
      by rewrite decide_False by (rewrite elem_of_cons; tauto).
Qed.

Lemma insert_headers_sorted m :
  insert_headers m ∅ (sortedHeaderNames (msg_Headers m)) = msg_Headers m.
Proof.
  apply map_eq. intros n. rewrite insert_headers_lookup. case_decide as H.
  - apply sortedHeaderNames_elem in H as [v Hv]. unfold header. by rewrite Hv.
  - rewrite lookup_empty. destruct (msg_Headers m !! n) eqn:E; [|done].
    exfalso. apply H, sortedHeaderNames_elem. eauto.
Qed.

Lemma concat_header_length m names :
  (8 * length names ≤ length (concat (map (header_bytes m) names)))%nat.
Proof.
  induction names as [|n names IH]; cbn [map concat length]; [lia|].
  rewrite length_app. unfold header_bytes at 1.
  rewrite length_app, !field_bytes_length. lia.
Qed.

Lemma msg_wf_names m :
  msg_wf m ->
  Forall (fun n => fits n /\ fits (header m n)) (sortedHeaderNames (msg_Headers m)).
Proof.
  intros (_ & _ & _ & Hh & _). apply Forall_forall. intros n Hn.
  apply sortedHeaderNames_elem in Hn as [v Hv].
  unfold header. rewrite Hv. by apply (Hh n v).
Qed.

Lemma set_Headers_empty k v ts :
  set_Headers (Message_lit k v ts) ∅ = Message_lit k v ts.
Proof. done. Qed.

Lemma parseRecordBody_read m data off rest :
  msg_wf m -> zlen rest <= 10 ->
  at_pos data off (body_bytes m (sortedHeaderNames (msg_Headers m)) ++ rest) ->
  exists off',
    parseRecordBody data off
    = Some (mkMessage 0 (msg_Key m) (msg_Value m) (msg_Headers m)
              (UnixNano (msg_Timestamp m)) 0 0 0, off')
    /\ at_pos data off' rest.
Proof.
  intros Hwf Hrest H. pose proof (msg_wf_names m Hwf) as Hnames.
  destruct Hwf as (Hk & Hv & Hc & _ & _ & _ & Hsz).
  rewrite recordBodySize_bytes in Hsz. rewrite <- sortedHeaderNames_length in Hc.
  pose proof (insert_headers_sorted m) as Hins.
  set (names := sortedHeaderNames (msg_Headers m)) in *.
  unfold body_bytes in H, Hsz. rewrite !length_app, be_enc_length in Hsz.
  rewrite <- !(assoc_L (++)) in H.
  pose proof (at_pos_len _ _ _ H) as Hl. rewrite !length_app, !be_enc_length in Hl.
  unfold parseRecordBody. destruct (Z.ltb_spec (zlen data) (off + 8)); [lia|].
  apply at_pos_get_be in H as [-> H]. change (Z.of_nat 8) with 8 in H.
  cbn [mbind option_bind].
  apply at_pos_field in H as [-> H]; [|done]. cbn [mbind option_bind].
  apply at_pos_field in H as [-> H]; [|done]. cbn [mbind option_bind].
  set (o := off + 8 + zlen (field_bytes (msg_Key m)) + zlen (field_bytes (msg_Value m))) in *.
  destruct (Z.ltb_spec (zlen data) (o + 4)); [lia|].
  apply at_pos_get_be in H as [-> H]. change (Z.of_nat 4) with 4 in H.
  cbn [mbind option_bind].
  assert (reclen (zlen names) mod 256 ^ Z.of_nat 4 = zlen names) as ->.
  { unfold reclen, maxRecordFieldLen in *.
    destruct (Z.ltb_spec (1024 * 1024 * 10) (zlen names)); [lia|].
    change (256 ^ Z.of_nat 4) with 4294967296. apply Z.mod_small. lia. }
  pose proof (at_pos_len _ _ _ H) as Hl'. rewrite length_app in Hl'.
  pose proof (concat_header_length m names) as Hhl.
  destruct (Z.ltb_spec (zlen data - (o + 4)) 0); [lia|]. cbn [orb].
  unfold wrapu at 1. rewrite (Z.mod_small (zlen data - (o + 4))) by lia.
  destruct (Z.ltb_spec ((zlen data - (o + 4)) / 8) (zlen names)).
  { pose proof (Z.div_le_lower_bound (zlen data - (o + 4)) 8 (zlen names)). lia. }
  rewrite Nat2Z.id.
  destruct (parseHeaders_read m names data (o + 4) rest ∅ Hnames H) as [-> Hend].
  cbn [mbind option_bind]. rewrite Hins.
  assert (Unix0 (wraps 64 (UnixNano (msg_Timestamp m) mod 256 ^ Z.of_nat 8))
          = UnixNano (msg_Timestamp m)) as ->.
  { unfold Unix0. change (256 ^ Z.of_nat 8) with (2 ^ 64).
    apply wraps_wrapu_64, wraps_64_in. }
  eexists. split; [|exact Hend]. case_bool_decide as He; [|done].
  unfold Message_lit. by rewrite He.
Qed.

Lemma newFormatVersion_magic v rest :
  newFormatVersion (be_enc 4 recordMagicV2 ++ [Z2b v] ++ rest) = Some (v mod 256).
Proof.
  unfold newFormatVersion. rewrite !length_app, be_enc_length. cbn [length].
  destruct (Z.leb_spec 5 (Z.of_nat (4 + (1 + length rest)))); [|lia].
  pose proof (at_pos_start (be_enc 4 recordMagicV2 ++ [Z2b v] ++ rest)) as Ha.
  apply at_pos_get_be in Ha as [-> Ha]. cbn [mbind option_bind].
  change (recordMagicV2 mod 256 ^ Z.of_nat 4 =? recordMagicV2) with true.
  assert ([Z2b v] = be_enc 1 v) as E by (simpl; by rewrite Z.div_1_r).
  rewrite E in Ha at 2. apply at_pos_get_be in Ha as [Ha _]. done.
Qed.

(** The position right after the five bytes of magic and version. *)
Lemma at_pos_five v rest :
  at_pos (be_enc 4 recordMagicV2 ++ [Z2b v] ++ rest) 5 rest.
Proof. exists (be_enc 4 recordMagicV2 ++ [Z2b v]). by rewrite <- (assoc_L (++)). Qed.

Lemma deserialize_v3_bytes m : msg_wf m -> deserializeMessage (v3_bytes m) = Some (reread m).
Proof.
  intros Hwf.
  assert (at_pos (v3_bytes m) 5 (body_bytes m (sortedHeaderNames (msg_Headers m))
    ++ be_enc 8 (msg_ProducerID m) ++ be_enc 2 (msg_ProducerEpoch m))) as H
    by apply at_pos_five.
  assert (newFormatVersion (v3_bytes m) = Some recordVersionV3) as Hv
    by apply newFormatVersion_magic.
  unfold deserializeMessage. revert H Hv. generalize (v3_bytes m). intros data H Hv.
  rewrite Hv. cbn [mbind option_bind]. rewrite Z.eqb_refl. unfold deserializeMessageV3.
  apply parseRecordBody_read in H as (off' & -> & H);
    [|done|rewrite length_app, !be_enc_length; lia].
  cbn [mbind option_bind].
  pose proof (at_pos_len _ _ _ H) as Hl. rewrite length_app, !be_enc_length in Hl.
  destruct (Z.ltb_spec (zlen data) (off' + 8)); [lia|].
  apply at_pos_get_be in H as [-> H]. change (Z.of_nat 8) with 8 in H.
  cbn [mbind option_bind].
  destruct (Z.ltb_spec (zlen data) (off' + 8 + 2)); [lia|].
  rewrite <- (app_nil_r (be_enc 2 (msg_ProducerEpoch m))) in H.
  apply at_pos_get_be in H as [-> _]. cbn [mbind option_bind].
  destruct Hwf as (_ & _ & _ & _ & Hp64 & Hp16 & _).
  change (256 ^ Z.of_nat 8) with (2 ^ 64). change (256 ^ Z.of_nat 2) with (2 ^ 16).
  pose proof (wraps_wrapu_64 _ Hp64) as E1. pose proof (wraps_wrapu_16 _ Hp16) as E2.
  unfold wrapu in E1, E2. by rewrite E1, E2.
Qed.

Lemma deserialize_v2_bytes m :
  msg_wf m -> msg_ProducerID m = 0 -> msg_ProducerEpoch m = 0 ->
  deserializeMessage (v2_bytes m) = Some (reread m).
Proof.
  intros Hwf Hp0 He0. unfold deserializeMessage, v2_bytes. rewrite newFormatVersion_magic.
  cbn [mbind option_bind].
  change (recordVersionV2 mod 256 =? recordVersionV3) with false.
  change (recordVersionV2 mod 256 =? recordVersionV2) with true. cbn match.
  unfold deserializeMessageV2.
  rewrite <- (app_nil_r (body_bytes m (sortedHeaderNames (msg_Headers m)))).
  edestruct (parseRecordBody_read m) with (rest := @nil byte) as (off' & -> & H);
    [done|simpl; lia|apply at_pos_five|].
  cbn [mbind option_bind]. unfold reread. by rewrite Hp0, He0.
Qed.

(** ** The readers never panic on v2 and v3 data *)

Lemma slice_Some data lo hi :
  0 <= lo <= hi -> hi <= zlen data -> exists s, slice data lo hi = Some s.
Proof.
  intros H1 H2. unfold slice.
  destruct (Z.leb_spec 0 lo), (Z.leb_spec lo hi), (Z.leb_spec hi (zlen data)); try lia.
  simpl. eauto.
Qed.

Lemma get_be_Some n data off :
  0 <= off -> off + Z.of_nat n <= zlen data ->
  exists v, get_be n data off = Some v /\ 0 <= v.
Proof.
  intros H1 H2. unfold get_be.
  destruct (slice_Some data off (off + Z.of_nat n)) as [s ->]; [lia..|].
  simpl. eexists. split; [done|]. apply be_dec_range.
Qed.

Lemma readLengthPrefixed_total data off :
  0 <= off -> exists r off', readLengthPrefixed data off = Some (r, off') /\ off <= off'.
Proof.
  intros H. unfold readLengthPrefixed.
  destruct (Z.ltb_spec (zlen data) (off + 4)); [do 2 eexists; split; [done|lia]|].
  destruct (get_be_Some 4 data off) as (v & -> & Hv); [lia..|]. cbn [mbind option_bind].
  destruct (Z.ltb_spec (zlen data) (off + 4 + v)); [do 2 eexists; split; [done|lia]|].
  destruct (slice_Some data (off + 4) (off + 4 + v)) as [s ->]; [lia..|].
  cbn [mbind option_bind]. do 2 eexists; split; [done|lia].
Qed.

Lemma parseHeaders_total n : forall data off h,
  0 <= off -> exists h' off', parseHeaders n data off h = Some (h', off') /\ off <= off'.
Proof.
  induction n as [|n IH]; intros data off h H; cbn [parseHeaders].
  { do 2 eexists; split; [done|lia]. }
  destruct (readLengthPrefixed_total data off H) as (r & o1 & -> & Ho1).
  cbn [mbind option_bind]. destruct r as [name|]; [|do 2 eexists; split; [done|lia]].
  destruct (readLengthPrefixed_total data o1) as (r & o2 & -> & Ho2); [lia|].
  cbn [mbind option_bind]. destruct r as [v|]; [|do 2 eexists; split; [done|lia]].
  destruct (IH data o2 (<[name:=v]> h)) as (h' & o3 & -> & Ho3); [lia|].
  do 2 eexists; split; [done|lia].
Qed.

Lemma parseRecordBody_total data off :
  0 <= off -> exists m off', parseRecordBody data off = Some (m, off') /\ off <= off'.
Proof.
  intros H. unfold parseRecordBody.
  destruct (Z.ltb_spec (zlen data) (off + 8)); [do 2 eexists; split; [done|lia]|].
  destruct (get_be_Some 8 data off) as (ts & -> & _); [lia..|]. cbn [mbind option_bind].
  destruct (readLengthPrefixed_total data (off + 8)) as (r & o1 & -> & Ho1); [lia|].
  cbn [mbind option_bind]. destruct r as [k|]; [|do 2 eexists; split; [done|lia]].
  destruct (readLengthPrefixed_total data o1) as (r & o2 & -> & Ho2); [lia|].
  cbn [mbind option_bind]. destruct r as [v|]; [|do 2 eexists; split; [done|lia]].
  destruct (Z.ltb_spec (zlen data) (o2 + 4)); [do 2 eexists; split; [done|lia]|].
  destruct (get_be_Some 4 data o2) as (c & -> & Hc); [lia..|]. cbn [mbind option_bind].
  destruct (_ || _); [do 2 eexists; split; [done|lia]|].
  destruct (parseHeaders_total (Z.to_nat c) data (o2 + 4) ∅) as (h & o3 & -> & Ho3); [lia|].
  cbn [mbind option_bind]. destruct (bool_decide _); do 2 eexists; (split; [done|lia]).
Qed.

(** ** Theorems on the record format *)

(** [serializeMessageV2] and [serializeMessageV3] never panic, and the
    buffer whose size [recordBodySize] computes beforehand is filled exactly:
    the record is the documented layout, magic, version, timestamp, key,
    value, header count and the headers in name order, followed in v3 by the
    producer identity, with no byte left over. *)
Theorem serialize_layout (m : Message) :
  serializeMessageV2 m = Some (v2_bytes m) /\ serializeMessageV3 m = Some (v3_bytes m)
  /\ zlen (v2_bytes m) = 5 + recordBodySize m (sortedHeaderNames (msg_Headers m))
  /\ zlen (v3_bytes m) = 5 + recordBodySize m (sortedHeaderNames (msg_Headers m)) + 10.
Proof.
  split; [apply serializeMessageV2_layout|]. split; [apply serializeMessageV3_layout|].
  rewrite recordBodySize_bytes. unfold v2_bytes, v3_bytes.
  rewrite !length_app, !be_enc_length. cbn [length]. lia.
Qed.

(** Writing a message in the configured format and reading the record
    back returns the message, except for the fields the format does not carry
    (offset, CRC) and, under v2, the producer identity, which therefore has to
    be zero.  The message's fields have to fit the record's length bounds. *)
Theorem record_roundtrip (version : Z) (m : Message) :
  msg_wf m ->
  (version = MessageFormatV2 -> msg_ProducerID m = 0 /\ msg_ProducerEpoch m = 0) ->
  exists data,
    serializeMessage version m = Some data /\ deserializeMessage data = Some (reread m).
Proof.
  intros Hwf Hv. unfold serializeMessage.
  destruct (Z.eqb_spec version MessageFormatV2) as [->|].
  - rewrite serializeMessageV2_layout. destruct (Hv eq_refl).
    eauto using deserialize_v2_bytes.
  - rewrite serializeMessageV3_layout. eauto using deserialize_v3_bytes.
Qed.

(** Header names come out in strictly increasing byte order, so that equal
    header maps always produce identical bytes. *)
Lemma sortedHeaderNames_sorted h : Sorted bytes_le (sortedHeaderNames h).
Proof. apply (Sorted_merge_sort bytes_le). Qed.

(** The reader of v2 and v3 records is total: on every byte string that
    starts with the magic and one of those versions, however truncated or
    corrupt, it returns a message and never panics on a slice bound. *)
Theorem deserialize_magic_total (v : Z) (rest : bytes) :
  v = recordVersionV2 \/ v = recordVersionV3 ->
  exists m, deserializeMessage (be_enc 4 recordMagicV2 ++ [Z2b v] ++ rest) = Some m.
Proof.
  intros Hv. unfold deserializeMessage. rewrite newFormatVersion_magic.
  cbn [mbind option_bind].
  set (data := be_enc 4 recordMagicV2 ++ [Z2b v] ++ rest).
  destruct (parseRecordBody_total data 5) as (m & off & Hp & Ho); [lia|].
  destruct Hv as [->| ->].
  - change (recordVersionV2 mod 256 =? recordVersionV3) with false.
    change (recordVersionV2 mod 256 =? recordVersionV2) with true. cbn match.
    unfold deserializeMessageV2. rewrite Hp. simpl. eauto.
  - change (recordVersionV3 mod 256 =? recordVersionV3) with true. cbn match.
    unfold deserializeMessageV3. rewrite Hp. cbn [mbind option_bind].
    destruct (Z.ltb_spec (zlen data) (off + 8)); [eauto|].
    destruct (get_be_Some 8 data off) as (p & -> & _); [lia..|]. cbn [mbind option_bind].
    destruct (Z.ltb_spec (zlen data) (off + 8 + 2)); [eauto|].
    destruct (get_be_Some 2 data (off + 8)) as (e & -> & _); [lia..|]. simpl. eauto.
Qed.

Lemma get_be_len n data off v :
  get_be n data off = Some v -> 0 <= off /\ off + Z.of_nat n <= zlen data /\ 0 <= v.
Proof.
  unfold get_be, slice. intros H.
  destruct (Z.leb_spec 0 off), (Z.leb_spec off (off + Z.of_nat n)),
    (Z.leb_spec (off + Z.of_nat n) (zlen data)); simpl in H; try done.
  injection H as <-. pose proof (be_dec_range
    (take (Z.to_nat (off + Z.of_nat n - off)) (drop (Z.to_nat off) data))). lia.
Qed.

Lemma parseRecordBody_timestamp data off m off' :
  parseRecordBody data off = Some (m, off') ->
  (if zlen data <? off + 8 then Some zero_time
   else ts ← get_be 8 data off; Some (Unix0 (wraps 64 ts))) = Some (msg_Timestamp m).
Proof.
  unfold parseRecordBody. intros H.
  destruct (zlen data <? off + 8); [by injection H as <- <-|].
  destruct (get_be 8 data off) as [ts|]; [|done]. cbn [mbind option_bind] in *.
  some_inv.
Qed.

Lemma deserializeLegacy_timestamp data m :
  deserializeLegacy data = Some m ->
  (if zlen data <? 12 then Some zero_time
   else possibleKeyLen ← get_be 4 data 0;
     if maxSaneKeyLen <? possibleKeyLen then
       nanos ← get_be 8 data 0; Some (Unix0 (wraps 64 nanos))
     else Some zero_time) = Some (msg_Timestamp m).
Proof.
  unfold deserializeLegacy. intros H.
  apply bind_Some in H as ([ts off] & Hts & H).
  apply bind_Some in H as (kl & Hkl & H). apply bind_Some in H as (k & Hk & H).
  apply bind_Some in H as (vl & Hvl & H). apply bind_Some in H as (v & Hv & H).
  injection H as <-. cbn [msg_Timestamp Message_lit].
  apply get_be_len in Hkl, Hvl.
  destruct (Z.leb_spec 8 (zlen data)); [|injection Hts as <- <-; lia].
  destruct (get_be 4 data 0) as [p|]; [|done]. cbn [mbind option_bind] in *.
  destruct (Z.ltb_spec (zlen data) (8 + 4)).
  - rewrite orb_true_r in Hts. destruct (get_be 8 data 0); [|done].
    simpl in Hts. injection Hts as <- <-. lia.
  - rewrite orb_false_r in Hts. destruct (Z.ltb_spec (zlen data) 12); [lia|].
    destruct (maxSaneKeyLen <? p); [|by injection Hts as <- <-].
    destruct (get_be 8 data 0); [|done]. simpl in *. by injection Hts as <- <-.
Qed.

(** [extractTimestamp], which retention and compaction use, agrees with
    the full record reader on every record that one accepts, in all four
    formats. *)
Theorem extractTimestamp_agrees (data : bytes) (m : Message) :
  deserializeMessage data = Some m -> extractTimestamp data = Some (msg_Timestamp m).
Proof.
  unfold deserializeMessage, extractTimestamp. intros H.
  destruct (newFormatVersion data) as [v|]; [|done]. cbn [mbind option_bind] in *.
  destruct (v =? recordVersionV3).
  - rewrite orb_true_r. unfold deserializeMessageV3 in H.
    apply bind_Some in H as ([m0 off] & Hp & H).
    rewrite (parseRecordBody_timestamp _ _ _ _ Hp). some_inv.
  - rewrite orb_false_r. destruct (v =? recordVersionV2).
    + unfold deserializeMessageV2 in H. apply bind_Some in H as ([m0 off] & Hp & H).
      injection H as <-. apply (parseRecordBody_timestamp _ _ _ _ Hp).
    + by apply deserializeLegacy_timestamp.
Qed.

(** [extractTimestamp] never panics, whatever the bytes. *)
Lemma extractTimestamp_total data : exists ts, extractTimestamp data = Some ts.
Proof.
  unfold extractTimestamp.
  assert (exists v, newFormatVersion data = Some v) as [v ->].
  { unfold newFormatVersion. destruct (Z.leb_spec 5 (zlen data)); [|eauto].
    destruct (get_be_Some 4 data 0) as (p & -> & _); [lia..|]. cbn [mbind option_bind].
    destruct (p =? recordMagicV2); [|eauto].
    destruct (get_be_Some 1 data 4) as (q & -> & _); [lia..|]. eauto. }
  cbn [mbind option_bind]. destruct (_ || _).
  - destruct (Z.ltb_spec (zlen data) (5 + 8)); [eauto|].
    destruct (get_be_Some 8 data 5) as (p & -> & _); [lia..|]. simpl. eauto.
  - destruct (Z.ltb_spec (zlen data) 12); [eauto|].
    destruct (get_be_Some 4 data 0) as (p & -> & _); [lia..|]. cbn [mbind option_bind].
    destruct (maxSaneKeyLen <? p); [|eauto].
    destruct (get_be_Some 8 data 0) as (q & -> & _); [lia..|]. simpl. eauto.
Qed.

(** ** The formats that are only read *)

(** The v0 and v1 layouts of the format comment in log.go. *)
Definition v0_bytes (key value : bytes) : bytes :=
  be_enc 4 (zlen key) ++ key ++ be_enc 4 (zlen value) ++ value.
Definition v1_bytes (ts : Z) (key value : bytes) : bytes :=
  be_enc 8 ts ++ v0_bytes key value.

Lemma v0_bytes_length key value : zlen (v0_bytes key value) = 8 + zlen key + zlen value.
Proof. unfold v0_bytes. rewrite !length_app, !be_enc_length. lia. Qed.

(** Reading the key and the value of a v0 or v1 record. *)
Lemma read_legacy_fields data off key value ts :
  zlen key < 2 ^ 32 -> zlen value < 2 ^ 32 ->
  at_pos data off (v0_bytes key value) ->
  (keyLen ← get_be 4 data off;
   key ← slice data (off + 4) (off + 4 + keyLen);
   valueLen ← get_be 4 data (off + 4 + keyLen);
   value ← slice data (off + 4 + keyLen + 4) (off + 4 + keyLen + 4 + valueLen);
   Some (Message_lit key value ts)) = Some (Message_lit key value ts).
Proof.
  intros Hk Hv H. unfold v0_bytes in H.
  assert (forall z, 0 <= z < 2 ^ 32 -> z mod 256 ^ Z.of_nat 4 = z) as Hm
    by (intros z Hz; apply Z.mod_small; exact Hz).
  apply at_pos_get_be in H as [-> H]. change (Z.of_nat 4) with 4 in H.
  cbn [mbind option_bind]. rewrite Hm by lia.
  rewrite (at_pos_slice _ _ _ _ H). cbn [mbind option_bind].
  apply at_pos_app, at_pos_get_be in H as [-> H]. change (Z.of_nat 4) with 4 in H.
  cbn [mbind option_bind]. rewrite Hm by lia. rewrite <- (app_nil_r value) in H.
  rewrite (at_pos_slice _ _ _ _ H). done.
Qed.

(** The first [k] of the [n] bytes of a big-endian number are its high part. *)
Lemma be_enc_prefix n k z rest :
  0 <= z -> exists tail,
  be_enc (k + n) z ++ rest = be_enc k (z / 256 ^ Z.of_nat n) ++ tail /\ tail = be_enc n z ++ rest.
Proof.
  intros Hz. eexists. split; [|reflexivity]. rewrite (assoc_L (++)). f_equal.
  induction k as [|k IH]; [done|]. cbn [Nat.add be_enc app]. rewrite IH. f_equal.
  rewrite Z.div_div by (pose proof (pow256_pos n); pose proof (pow256_pos k); lia).
  by rewrite <- Z.pow_add_r, (Nat2Z.inj_add k n), Z.add_comm by lia.
Qed.

Lemma newFormatVersion_no_magic hi tail :
  0 <= hi < recordMagicV2 -> newFormatVersion (be_enc 4 hi ++ tail) = Some 0.
Proof.
  intros H. unfold newFormatVersion. destruct (5 <=? zlen _); [|done].
  destruct (at_pos_get_be 4 _ 0 hi tail (at_pos_start _)) as [-> _].
  cbn [mbind option_bind]. unfold recordMagicV2 in *.
  rewrite Z.mod_small by (change (256 ^ Z.of_nat 4) with 4294967296; lia).
  destruct (Z.eqb_spec hi 0xFFFFFFFF); [lia|done].
Qed.

(** A v0 record whose key is within the one-megabyte sanity bound is read
    back as its key and value with no timestamp when it is at least twelve
    bytes long; a shorter one (key and value together under four bytes) is
    taken for a v1 record by the length test and makes the reader panic. *)
Theorem read_v0 (key value : bytes) :
  zlen key <= maxSaneKeyLen -> zlen value < 2 ^ 32 ->
  deserializeMessage (v0_bytes key value)
  = if zlen key + zlen value <? 4 then None
    else Some (Message_lit key value zero_time).
Proof.
  intros Hk Hv. unfold deserializeMessage, maxSaneKeyLen in *.
  assert (newFormatVersion (v0_bytes key value) = Some 0) as ->
    by (apply newFormatVersion_no_magic; unfold recordMagicV2; lia).
  cbn [mbind option_bind]. change (0 =? recordVersionV3) with false.
  change (0 =? recordVersionV2) with false. cbn match. unfold deserializeLegacy.
  pose proof (v0_bytes_length key value) as Hl.
  destruct (Z.leb_spec 8 (zlen (v0_bytes key value))); [|lia].
  assert (get_be 4 (v0_bytes key value) 0 = Some (zlen key)) as Hg.
  { edestruct at_pos_get_be as [-> _]; [apply at_pos_start|].
    f_equal. apply Z.mod_small. change (256 ^ Z.of_nat 4) with 4294967296. lia. }
  rewrite Hg. cbn [mbind option_bind]. unfold maxSaneKeyLen.
  destruct (Z.ltb_spec 1048576 (zlen key)); [lia|]. cbn [orb].
  destruct (Z.ltb_spec (zlen (v0_bytes key value)) (8 + 4)),
    (Z.ltb_spec (zlen key + zlen value) 4); try lia.
  - destruct (get_be_Some 8 (v0_bytes key value) 0) as (ts & -> & _); [lia..|].
    cbn [mbind option_bind].
    destruct (get_be 4 (v0_bytes key value) 8) eqn:E; [|done].
    apply get_be_len in E. lia.
  - cbn [mbind option_bind]. apply read_legacy_fields; [lia..|apply at_pos_start].
Qed.

(** A v1 record is read back as its timestamp, key and value when the
    high half of its timestamp exceeds the key-length sanity bound, which it
    does for every instant from 52 days and 3 hours after the epoch on. *)
Theorem read_v1 (ts : Z) (key value : bytes) :
  (maxSaneKeyLen + 1) * 2 ^ 32 <= ts < 2 ^ 63 ->
  zlen key < 2 ^ 32 -> zlen value < 2 ^ 32 ->
  deserializeMessage (v1_bytes ts key value) = Some (Message_lit key value ts).
Proof.
  intros Hts Hk Hv. unfold maxSaneKeyLen in *.
  destruct (be_enc_prefix 4 4 ts (v0_bytes key value) ltac:(lia)) as (tail & Heq & _).
  change (256 ^ Z.of_nat 4) with (2 ^ 32) in Heq.
  pose proof (Z.div_le_lower_bound ts (2 ^ 32) 1048577 ltac:(lia) ltac:(lia)).
  pose proof (Z.div_lt_upper_bound ts (2 ^ 32) (2 ^ 31) ltac:(lia) ltac:(lia)).
  unfold deserializeMessage.
  assert (newFormatVersion (v1_bytes ts key value) = Some 0) as ->.
  { unfold v1_bytes. change 8%nat with (4 + 4)%nat. rewrite Heq.
    apply newFormatVersion_no_magic. unfold recordMagicV2. lia. }
  cbn [mbind option_bind]. change (0 =? recordVersionV3) with false.
  change (0 =? recordVersionV2) with false. cbn match.
  unfold deserializeLegacy, v1_bytes.
  set (data := be_enc 8 ts ++ v0_bytes key value).
  assert (zlen data = 16 + zlen key + zlen value) as Hl
    by (unfold data; rewrite length_app, be_enc_length; pose proof (v0_bytes_length key value); lia).
  destruct (Z.leb_spec 8 (zlen data)); [|lia].
  assert (get_be 4 data 0 = Some (ts / 2 ^ 32)) as ->.
  { unfold data. change 8%nat with (4 + 4)%nat. rewrite Heq.
    destruct (at_pos_get_be 4 _ 0 (ts / 2 ^ 32) tail (at_pos_start _)) as [-> _].
    f_equal. apply Z.mod_small. change (256 ^ Z.of_nat 4) with (2 ^ 32). lia. }
  cbn [mbind option_bind]. unfold maxSaneKeyLen.
  destruct (Z.ltb_spec 1048576 (ts / 2 ^ 32)); [|lia]. cbn [orb].
  destruct (at_pos_get_be 8 data 0 ts (v0_bytes key value) (at_pos_start _)) as [-> Hp].
  cbn [mbind option_bind].
  assert (Unix0 (wraps 64 (ts mod 256 ^ Z.of_nat 8)) = ts) as ->
    by (apply wraps_wrapu_64; unfold in_i64; lia).
  by apply read_legacy_fields.
Qed.

(** ** Witnesses *)

#[export] Instance fits_dec v : Decision (fits v).
Proof. unfold fits. apply _. Defined.

#[export] Instance in_i16_dec z : Decision (in_i16 z).
Proof. unfold in_i16. apply _. Defined.

#[export] Instance msg_wf_dec m : Decision (msg_wf m).
Proof. unfold msg_wf. apply _. Defined.

Definition sample_message : Message :=
  mkMessage 41 [x6b; x31] [x76; x61; x6c]
    (<[[x74; x72] := [x01; x02]]> {[ [x61] := [] ]})
    1700000000000000000 9 7 2.

Lemma record_roundtrip_witness :
  exists data, serializeMessage MessageFormatV3 sample_message = Some data
    /\ deserializeMessage data = Some (reread sample_message).
Proof.
  apply record_roundtrip.
  - apply (bool_decide_unpack _). vm_compute. exact I.
  - intros H. vm_compute in H. discriminate H.
Defined.

Lemma deserialize_magic_total_witness :
  exists m, deserializeMessage (be_enc 4 recordMagicV2 ++ [Z2b 3] ++ [x00; x01]) = Some m.
Proof. apply deserialize_magic_total. right. reflexivity. Defined.

Lemma extractTimestamp_agrees_witness :
  extractTimestamp (v1_bytes 1700000000000000000 [x6b] [x76])
  = Some (msg_Timestamp (Message_lit [x6b] [x76] 1700000000000000000)).
Proof. apply extractTimestamp_agrees. vm_compute. reflexivity. Defined.

Lemma read_v0_witness :
  deserializeMessage (v0_bytes [x6b] [x76; x61; x6c])
  = Some (Message_lit [x6b] [x76; x61; x6c] zero_time)
  /\ deserializeMessage (v0_bytes [x6b] [x76]) = None.
Proof.
  split; [rewrite (read_v0 [x6b] [x76; x61; x6c]) | rewrite (read_v0 [x6b] [x76])];
    reflexivity || (vm_compute; discriminate).
Defined.

Lemma read_v1_witness :
  deserializeMessage (v1_bytes 1700000000000000000 [x6b] [])
  = Some (Message_lit [x6b] [] 1700000000000000000).
Proof. apply read_v1; [split; vm_compute; (reflexivity || discriminate)|reflexivity..]. Defined.
