(* ===== verification/MemTable.v ===== *)
(** * The memtable: a skip list on the heap (pkg/storage/memtable.go)

    Nodes live in a store of locations and carry an array of forward pointers,
    as in the source, so that [Put] and [Delete] relink shared nodes.  The
    pseudo-random source that picks a node's height is a parameter: [coin k]
    is the outcome of the [k]-th test [Float64() < probability] of a freshly
    seeded source, and every theorem holds for every such sequence.

    [None] in the operations stands for a nil dereference or an index out of
    range; the theorems show that it does not happen, and that the skip list
    implements the [MemTable] interface: a finite map with ordered iteration
    and an exact size counter.  The lock that guards the structure makes each
    operation atomic; an iterator holds the read lock until it is closed. *)

From S2P Require Import Prelude GoBytes.
From stdpp Require Import prelude list sorting gmap.
From Stdlib Require Import ZArith Lia.

Open Scope Z_scope.

(** ** The [MemTable] interface of storage.go *)

(** The operations the log uses; iteration is given by the list of entries
    that [Next], [Key] and [Value] produce. *)
Class MemTableOps (T : Type) := {
  mt_new : T;
  mt_put : T -> bytes -> bytes -> option T;
  mt_get : T -> bytes -> option (option bytes);
  mt_size : T -> Z;
  mt_entries : T -> option (list (bytes * bytes))
}.

(** The byte count of a set of entries. *)
Definition entry_size (kv : bytes * bytes) : Z := zlen kv.1 + zlen kv.2.
Definition entries_size (l : list (bytes * bytes)) : Z :=
  foldr (fun kv acc => entry_size kv + acc) 0 l.

Definition key_lt (a b : bytes) : Prop := bytes_ltb a b = true.

(** What an implementation promises the log. *)
Class MemTableLaws (T : Type) `{MemTableOps T} := {
  mt_inv : T -> Prop;
  mt_view : T -> gmap bytes bytes;
  mt_new_inv : mt_inv mt_new;
  mt_new_view : mt_view mt_new = ∅;
  mt_put_ok t k v : mt_inv t ->
    exists t', mt_put t k v = Some t' /\ mt_inv t' /\ mt_view t' = <[k := v]> (mt_view t);
  mt_get_ok t k : mt_inv t -> mt_get t k = Some (mt_view t !! k);
  mt_entries_ok t : mt_inv t ->
    exists l, mt_entries t = Some l /\ StronglySorted key_lt l.*1
      /\ list_to_map l = mt_view t /\ mt_size t = entries_size l
}.

(** ** The skip list *)

Notation loc := nat (only parsing).

Record skipListNode := mkNode {
  n_key : bytes;
  n_value : bytes;
  n_forward : list (option loc)
}.

Record memTableImpl := mkMemTable {
  m_store : gmap loc skipListNode;  (* the nodes allocated so far *)
  m_next : loc;                     (* the next fresh location *)
  m_head : loc;
  m_level : nat;
  m_size : Z;
  m_rand : nat                      (* draws made from the seeded source *)
}.

Definition maxLevel : nat := 32.

Definition NewMemTable : memTableImpl :=
  mkMemTable {[ 0%nat := mkNode [] [] (replicate maxLevel None) ]} 1 0 1 0 0.

(** [x.forward[i]] *)
Definition fwd (h : gmap loc skipListNode) (x : loc) (i : nat) : option (option loc) :=
  n ← h !! x; n_forward n !! i.

(** [x.forward[i] = p] *)
Definition set_fwd (h : gmap loc skipListNode) (x : loc) (i : nat) (p : option loc)
    : option (gmap loc skipListNode) :=
  n ← h !! x;
  _ ← n_forward n !! i;
  Some (<[x := mkNode (n_key n) (n_value n) (<[i := p]> (n_forward n))]> h).

(** The inner search loop: walk level [i] while the next key is smaller. *)
Fixpoint advance (fuel : nat) (h : gmap loc skipListNode) (i : nat) (key : bytes)
    (current : loc) : option loc :=
  match fuel with
  | O => None
  | S fuel' =>
      p ← fwd h current i;
      match p with
      | None => Some current
      | Some nx =>
          n ← h !! nx;
          if bytes_ltb (n_key n) key then advance fuel' h i key nx else Some current
      end
  end.

(** The outer search loop, from level [i - 1] down to 0, recording the last
    node before [key] on each level in [update].  [Get] runs the same loop
    without recording.  Each level holds each node at most once, so the number
    of allocated nodes bounds the inner loop. *)
Fixpoint descend (i : nat) (h : gmap loc skipListNode) (key : bytes) (current : loc)
    (update : list (option loc)) : option (loc * list (option loc)) :=
  match i with
  | O => Some (current, update)
  | S i' =>
      current ← advance (S (size h)) h i' key current;
      descend i' h key current (<[i' := Some current]> update)
  end.

Section randomLevel.
Context (coin : nat -> bool).

(** [randomLevel]: one more level per successful draw; returns the level and
    the number of draws made. *)
Fixpoint randomLevel_loop (fuel level draws : nat) : nat * nat :=
  match fuel with
  | O => (level, draws)
  | S fuel' =>
      if (level <? maxLevel)%nat then
        if coin draws then randomLevel_loop fuel' (S level) (S draws)
        else (level, S draws)
      else (level, draws)
  end.

Definition randomLevel (m : memTableImpl) : nat * nat :=
  randomLevel_loop maxLevel 1 (m_rand m).

(** [for i := m.level; i < level; i++ { update[i] = m.head }] *)
Fixpoint raise_update (n i : nat) (head : loc) (update : list (option loc))
    : list (option loc) :=
  match n with
  | O => update
  | S n' => raise_update n' (S i) head (<[i := Some head]> update)
  end.

(** The linking loop of [Put], on levels [i] to [i + n - 1]. *)
Fixpoint link (n i : nat) (h : gmap loc skipListNode) (node : loc)
    (update : list (option loc)) : option (gmap loc skipListNode) :=
  match n with
  | O => Some h
  | S n' =>
      u ← mjoin (update !! i);
      p ← fwd h u i;
      h ← set_fwd h node i p;
      h ← set_fwd h u i (Some node);
      link n' (S i) h node update
  end.

Definition Put (m : memTableImpl) (key value : bytes) : option memTableImpl :=
  '(current, update) ← descend (m_level m) (m_store m) key (m_head m) (replicate maxLevel None);
  next ← fwd (m_store m) current 0;
  existing ← (match next with
              | None => Some None
              | Some c => n ← m_store m !! c;
                          Some (if bytes_eqb (n_key n) key then Some (c, n) else None)
              end);
  match existing with
  | Some (c, n) =>
      Some (mkMemTable (<[c := mkNode (n_key n) value (n_forward n)]> (m_store m))
              (m_next m) (m_head m) (m_level m)
              (m_size m + (zlen value - zlen (n_value n))) (m_rand m))
  | None =>
      let '(level, rand) := randomLevel m in
      let '(update, mlevel) :=
        if (m_level m <? level)%nat
        then (raise_update (level - m_level m) (m_level m) (m_head m) update, level)
        else (update, m_level m) in
      let node := m_next m in
      let h := <[node := mkNode key value (replicate level None)]> (m_store m) in
      h ← link level 0 h node update;
      Some (mkMemTable h (S node) (m_head m) mlevel
              (m_size m + (zlen key + zlen value)) rand)
  end.

End randomLevel.

Definition Get (m : memTableImpl) (key : bytes) : option (option bytes) :=
  '(current, _) ← descend (m_level m) (m_store m) key (m_head m) (replicate maxLevel None);
  next ← fwd (m_store m) current 0;
  match next with
  | None => Some None
  | Some c =>
      n ← m_store m !! c;
      Some (if bytes_eqb (n_key n) key then Some (n_value n) else None)
  end.

(** The unlinking loop of [Delete], on levels [i] to [i + n - 1]; it stops at
    the first level that does not point to the node. *)
Fixpoint unlink (n i : nat) (h : gmap loc skipListNode) (c : loc)
    (update : list (option loc)) : option (gmap loc skipListNode) :=
  match n with
  | O => Some h
  | S n' =>
      u ← mjoin (update !! i);
      p ← fwd h u i;
      if bool_decide (p = Some c) then
        q ← fwd h c i;
        h ← set_fwd h u i q;
        unlink n' (S i) h c update
      else Some h
  end.

(** [for m.level > 1 && m.head.forward[m.level-1] == nil { m.level-- }] *)
Fixpoint lower_level (level : nat) (h : gmap loc skipListNode) (head : loc) : option nat :=
  match level with
  | S (S l as level') =>
      p ← fwd h head level';
      match p with None => lower_level level' h head | Some _ => Some level end
  | _ => Some level
  end.

Definition Delete (m : memTableImpl) (key : bytes) : option memTableImpl :=
  '(current, update) ← descend (m_level m) (m_store m) key (m_head m) (replicate maxLevel None);
  next ← fwd (m_store m) current 0;
  match next with
  | None => Some m
  | Some c =>
      n ← m_store m !! c;
      if bytes_eqb (n_key n) key then
        h ← unlink (m_level m) 0 (m_store m) c update;
        level ← lower_level (m_level m) h (m_head m);
        Some (mkMemTable h (m_next m) (m_head m) level
                (m_size m - (zlen (n_key n) + zlen (n_value n))) (m_rand m))
      else Some m
  end.

Definition Size (m : memTableImpl) : Z := m_size m.

(** [Clear]: a fresh head node; the old nodes become unreachable. *)
Definition Clear (m : memTableImpl) : memTableImpl :=
  mkMemTable (<[m_next m := mkNode [] [] (replicate maxLevel None)]> (m_store m))
    (S (m_next m)) (m_next m) 1 0 (m_rand m).

(** *** The iterator *)

(** The iterator's position; it starts at the head node. *)
Definition Iterator (m : memTableImpl) : option loc := Some (m_head m).

Definition Next (m : memTableImpl) (it : option loc) : option (option loc * bool) :=
  match it with
  | None => Some (None, false)
  | Some x => p ← fwd (m_store m) x 0; Some (p, bool_decide (is_Some p))
  end.

Definition Iter_Key (m : memTableImpl) (it : option loc) : option bytes :=
  match it with None => Some [] | Some x => n_key <$> m_store m !! x end.

Definition Iter_Value (m : memTableImpl) (it : option loc) : option bytes :=
  match it with None => Some [] | Some x => n_value <$> m_store m !! x end.

(** [for iter.Next() { ... iter.Key() ... iter.Value() ... }] *)
Fixpoint iter_loop (fuel : nat) (m : memTableImpl) (it : option loc)
    : option (list (bytes * bytes)) :=
  match fuel with
  | O => None
  | S fuel' =>
      '(it, more) ← Next m it;
      if (more : bool) then
        k ← Iter_Key m it;
        v ← Iter_Value m it;
        rest ← iter_loop fuel' m it;
        Some ((k, v) :: rest)
      else Some []
  end.

Definition iterate (m : memTableImpl) : option (list (bytes * bytes)) :=
  iter_loop (S (size (m_store m))) m (Iterator m).

(** ** Representation

    [cell] describes a node that is linked in: its location, entry and height.
    [rep m cs] says that the forward pointers of each level [i] run through
    exactly the cells of height above [i], in key order. *)

Record cell := mkCell { c_loc : loc; c_key : bytes; c_val : bytes; c_h : nat }.

Definition cell_lt (a b : cell) : Prop := key_lt (c_key a) (c_key b).

(** The cells that reach level [i]. *)
Definition lvl (i : nat) (cs : list cell) : list cell := filter (fun c => (i < c_h c)%nat) cs.

(** The cells with a key below [k], and the others. *)
Definition lo (k : bytes) (cs : list cell) : list cell :=
  filter (fun c => bytes_ltb (c_key c) k = true) cs.
Definition hi (k : bytes) (cs : list cell) : list cell :=
  filter (fun c => bytes_ltb (c_key c) k = false) cs.

Fixpoint last_loc (a : loc) (l : list loc) : loc :=
  match l with [] => a | b :: l' => last_loc b l' end.

(** The level-[i] pointers lead from [a] through [l] ... *)
Fixpoint seg (h : gmap loc skipListNode) (i : nat) (a : loc) (l : list loc) : Prop :=
  match l with
  | [] => True
  | b :: l' => fwd h a i = Some (Some b) /\ seg h i b l'
  end.

(** ... and end there. *)
Definition chain (h : gmap loc skipListNode) (i : nat) (a : loc) (l : list loc) : Prop :=
  seg h i a l /\ fwd h (last_loc a l) i = Some None.

Definition cell_ok (h : gmap loc skipListNode) (c : cell) : Prop :=
  exists f, h !! c_loc c = Some (mkNode (c_key c) (c_val c) f) /\ length f = c_h c.

Definition entry (c : cell) : bytes * bytes := (c_key c, c_val c).

Record rep (m : memTableImpl) (cs : list cell) : Prop := {
  rep_nodup : NoDup (m_head m :: (c_loc <$> cs));
  rep_head : exists f, m_store m !! m_head m = Some (mkNode [] [] f) /\ length f = maxLevel;
  rep_cells : Forall (cell_ok (m_store m)) cs;
  rep_heights : Forall (fun c => (1 ≤ c_h c ≤ m_level m)%nat) cs;
  rep_level : (1 ≤ m_level m ≤ maxLevel)%nat;
  rep_chain : forall i, (i < maxLevel)%nat ->
    chain (m_store m) i (m_head m) (c_loc <$> lvl i cs);
  rep_sorted : StronglySorted cell_lt cs;
  rep_size : m_size m = entries_size (entry <$> cs);
  rep_fresh : forall x, (m_next m ≤ x)%nat -> m_store m !! x = None
}.

(** *** Sorted lists of cells *)

Lemma lo_nil k c cs :
  bytes_ltb (c_key c) k = false -> Forall (cell_lt c) cs -> lo k cs = [].
Proof.
  intros Hc Hf. apply filter_none. intros d Hin Hd. rewrite Forall_forall in Hf.
  pose proof (bytes_ltb_trans _ _ _ (Hf d Hin) Hd). congruence.
Qed.

Lemma lo_hi_split k cs : StronglySorted cell_lt cs -> cs = lo k cs ++ hi k cs.
Proof.
  unfold lo, hi. induction 1 as [|c cs Hs IH Hf]; [done|].
  rewrite !filter_cons. destruct (bytes_ltb (c_key c) k) eqn:E.
  - rewrite decide_True, decide_False by done. simpl. by f_equal.
  - rewrite decide_False, decide_True by done.
    pose proof (lo_nil k c cs E Hf) as Hn. unfold lo in Hn. rewrite Hn in IH |- *.
    simpl in *. by f_equal.
Qed.

Lemma lvl_lo i k cs : lo k (lvl i cs) = lvl i (lo k cs).
Proof. unfold lo, lvl. rewrite !list_filter_filter. apply list_filter_iff. intros; tauto. Qed.

Lemma lvl_hi i k cs : hi k (lvl i cs) = lvl i (hi k cs).
Proof. unfold hi, lvl. rewrite !list_filter_filter. apply list_filter_iff. intros; tauto. Qed.

Lemma lvl_sorted i cs : StronglySorted cell_lt cs -> StronglySorted cell_lt (lvl i cs).
Proof. apply StronglySorted_filter. Qed.

Lemma elem_of_lvl i cs c : c ∈ lvl i cs <-> (i < c_h c)%nat /\ c ∈ cs.
Proof. unfold lvl. by rewrite list_elem_of_filter. Qed.

Lemma lvl_nil i cs : Forall (fun c => (c_h c ≤ i)%nat) cs -> lvl i cs = [].
Proof.
  intros H. apply filter_none. intros c Hin Hc.
  rewrite Forall_forall in H. specialize (H c Hin). simpl in *. lia.
Qed.

Lemma lvl_all i cs : Forall (fun c => (i < c_h c)%nat) cs -> lvl i cs = cs.
Proof.
  intros H. apply filter_all. by apply Forall_forall.
Qed.

(** *** Chains *)

Lemma last_loc_app a l1 l2 : last_loc a (l1 ++ l2) = last_loc (last_loc a l1) l2.
Proof. revert a. induction l1; intros; simpl; auto. Qed.

Lemma last_loc_in a l : last_loc a l ∈ a :: l.
Proof.
  revert a. induction l as [|b l IH]; intros a; simpl; [left|].
  right. apply IH.
Qed.

Lemma seg_app h i a l1 l2 :
  seg h i a (l1 ++ l2) <-> seg h i a l1 /\ seg h i (last_loc a l1) l2.
Proof.
  revert a. induction l1 as [|b l1 IH]; intros a; simpl; [tauto|]. rewrite IH. tauto.
Qed.

Lemma chain_app h i a l1 l2 :
  chain h i a (l1 ++ l2) <-> seg h i a l1 /\ chain h i (last_loc a l1) l2.
Proof. unfold chain. rewrite seg_app, last_loc_app. tauto. Qed.

Lemma chain_fwd h i a l : chain h i a l -> fwd h a i = Some (head l).
Proof. destruct l as [|b l]; unfold chain; simpl; tauto. Qed.

(** A segment only depends on the pointers of its nodes but the last. *)
Lemma seg_ext h h' i a l :
  NoDup (a :: l) ->
  (forall x, x ∈ a :: l -> x <> last_loc a l -> fwd h' x i = fwd h x i) ->
  seg h i a l -> seg h' i a l.
Proof.
  revert a. induction l as [|b l IH]; intros a Hnd Hx; [done|]. simpl. intros [Ha Hs].
  apply NoDup_cons in Hnd as [Hnin Hnd]. split.
  - rewrite Hx; [done|left|]. simpl. intros E. apply Hnin. rewrite E. apply last_loc_in.
  - apply IH; [done| |done]. intros x Hxin Hxl. apply Hx; [by right|done].
Qed.

Lemma chain_ext h h' i a l :
  (forall x, x ∈ a :: l -> fwd h' x i = fwd h x i) -> chain h i a l -> chain h' i a l.
Proof.
  intros Hx [Hs He]. split; [|rewrite Hx; [done|apply last_loc_in]].
  clear He. revert a Hx Hs. induction l as [|b l IH]; intros a Hx; [done|].
  simpl. intros [Ha Hs]. split; [rewrite Hx; [done|left]|].
  apply IH; [|done]. intros x Hxin. apply Hx. by right.
Qed.

(** Splicing a node into a chain, and out of it. *)
Lemma chain_insert h h' i a l1 l2 x :
  NoDup (a :: l1) ->
  chain h i a (l1 ++ l2) ->
  fwd h' (last_loc a l1) i = Some (Some x) ->
  fwd h' x i = fwd h (last_loc a l1) i ->
  (forall y, y ∈ a :: l1 ++ l2 -> y <> last_loc a l1 -> fwd h' y i = fwd h y i) ->
  last_loc a l1 ∉ l2 ->
  chain h' i a (l1 ++ x :: l2).
Proof.
  intros Hnd Hc Hu Hx Hy Hnin. apply chain_app in Hc as [Hs Hc].
  apply chain_app. split.
  { eapply seg_ext; [done| |done]. intros y Hyin. apply Hy. set_solver. }
  destruct l2 as [|b l2].
  - destruct Hc as [_ He]. simpl in He. split; simpl; [by split|]. by rewrite Hx.
  - destruct Hc as [[Hb Hs2] He]. simpl in Hs2, He, Hb.
    assert (chain h' i b l2) as [Hs2' He'].
    { eapply chain_ext; [|split; [exact Hs2|exact He]]. intros y Hyin.
      apply Hy; [set_solver|]. intros ->. done. }
    split; simpl; [|done]. split; [done|]. split; [by rewrite Hx, Hb|done].
Qed.

Lemma chain_remove h h' i a l1 l2 x :
  NoDup (a :: l1) ->
  chain h i a (l1 ++ x :: l2) ->
  fwd h' (last_loc a l1) i = fwd h x i ->
  (forall y, y ∈ a :: l1 ++ l2 -> y <> last_loc a l1 -> fwd h' y i = fwd h y i) ->
  last_loc a l1 ∉ l2 ->
  chain h' i a (l1 ++ l2).
Proof.
  intros Hnd Hc Hu Hy Hnin. apply chain_app in Hc as [Hs [[_ Hs2] He]]. simpl in Hs2, He.
  apply chain_app. split.
  { eapply seg_ext; [done| |done]. intros y Hyin. apply Hy. set_solver. }
  destruct l2 as [|b l2]; [by split; simpl in *; [|rewrite Hu]|].
  destruct Hs2 as [Hb Hs2]. simpl in He.
  assert (chain h' i b l2) as [Hs2' He'].
  { eapply chain_ext; [|split; [exact Hs2|exact He]]. intros y Hyin.
    apply Hy; [set_solver|]. intros ->. done. }
  split; simpl; [|done]. split; [by rewrite Hu|done].
Qed.

(** *** The search *)

Lemma cell_ok_key h c : cell_ok h c -> exists n, h !! c_loc c = Some n /\ n_key n = c_key c.
Proof. intros (f & Hf & _). eauto. Qed.

Lemma advance_spec h i k l : forall fuel a,
  chain h i a (c_loc <$> l) -> Forall (cell_ok h) l -> StronglySorted cell_lt l ->
  (length l < fuel)%nat ->
  advance fuel h i k a = Some (last_loc a (c_loc <$> lo k l)).
Proof.
  induction l as [|c l IH]; intros fuel a Hc Hok Hs Hlen;
    (destruct fuel as [|fuel]; [simpl in Hlen; lia|]); cbn [advance];
    rewrite (chain_fwd _ _ _ _ Hc); cbn [mbind option_bind head fmap list_fmap]; [done|].
  apply Forall_cons in Hok as [Hc1 Hok]. apply StronglySorted_inv in Hs as [Hs Hf].
  destruct (cell_ok_key _ _ Hc1) as (n & -> & Hk). cbn [mbind option_bind]. rewrite Hk.
  unfold lo. rewrite filter_cons. destruct (bytes_ltb (c_key c) k) eqn:E.
  - rewrite decide_True by done. cbn [fmap list_fmap last_loc]. apply IH; auto.
    + destruct Hc as [[_ Hc] He]. by split.
    + simpl in Hlen. lia.
  - rewrite decide_False by done. pose proof (lo_nil k c l E Hf) as Hn.
    unfold lo in Hn. by rewrite Hn.
Qed.

(** Where the search stands on level [i] before going down from it. *)
Definition pred_loc (a : loc) (k : bytes) (i : nat) (cs : list cell) : loc :=
  last_loc a (c_loc <$> lo k (lvl i cs)).

Lemma lvl_lvl i j cs : (i ≤ j)%nat -> lvl i (lvl j cs) = lvl j cs.
Proof. intros H. apply filter_all. intros c Hc%elem_of_lvl. lia. Qed.

(** The predecessor on a level is on every lower level, where the chain goes on
    from it. *)
Lemma chain_from_pred h a k i j cs :
  StronglySorted cell_lt cs -> (i ≤ j)%nat -> chain h i a (c_loc <$> lvl i cs) ->
  exists l1 l2, lvl i cs = l1 ++ l2 /\ pred_loc a k j cs = last_loc a (c_loc <$> l1)
    /\ lo k (lvl i cs) = l1 ++ lo k l2
    /\ chain h i (pred_loc a k j cs) (c_loc <$> l2).
Proof.
  intros Hs Hij Hc. unfold pred_loc.
  destruct (last (lo k (lvl j cs))) as [c|] eqn:El.
  2: { apply last_None in El. rewrite El. exists [], (lvl i cs). simpl. auto. }
  apply last_Some in El as [l0 El].
  assert (c ∈ lo k (lvl j cs)) as Hin by (rewrite El; set_solver).
  unfold lo in Hin. apply list_elem_of_filter in Hin as [Hck Hin].
  apply elem_of_lvl in Hin as [Hh Hin].
  assert (c ∈ lvl i cs) as Hi by (apply elem_of_lvl; split; [lia|done]).
  apply list_elem_of_split in Hi as (p & q & Hpq).
  pose proof (lvl_sorted i cs Hs) as Hsi. rewrite Hpq in Hsi, Hc |- *.
  apply StronglySorted_app in Hsi as (Hpc & _ & _).
  assert (last_loc a (c_loc <$> lo k (lvl j cs)) = c_loc c) as ->
    by by rewrite El, fmap_app, last_loc_app.
  exists (p ++ [c]), q.
  split; [by rewrite <- (assoc_L (++))|].
  split; [by rewrite fmap_app, last_loc_app|]. split.
  - unfold lo. rewrite filter_app, filter_cons_True, <- (assoc_L (++)) by done.
    simpl. f_equal. apply filter_all. intros d Hd.
    apply (bytes_ltb_trans _ (c_key c)); [|done]. apply Hpc; [done|left].
  - rewrite fmap_app in Hc. apply chain_app in Hc as [_ [[_ Hq] He]]. by split.
Qed.

Lemma descend_spec h a k cs : forall j upd,
  StronglySorted cell_lt cs -> Forall (cell_ok h) cs ->
  (length cs < S (size h))%nat -> length upd = maxLevel -> (j ≤ maxLevel)%nat ->
  (forall i, (i < maxLevel)%nat -> chain h i a (c_loc <$> lvl i cs)) ->
  exists upd', descend j h k (pred_loc a k j cs) upd = Some (pred_loc a k 0 cs, upd')
    /\ length upd' = maxLevel
    /\ forall i, upd' !! i = if decide (i < j)%nat then Some (Some (pred_loc a k i cs))
                             else upd !! i.
Proof.
  induction j as [|j IH]; intros upd Hs Hok Hlen Hu Hj Hc; cbn [descend].
  { exists upd. split; [done|]. split; [done|]. intros i. by rewrite decide_False by lia. }
  destruct (chain_from_pred h a k j (S j) cs) as (l1 & l2 & Hl & Hp & Hlo & Hch);
    [done|lia|apply Hc; lia|].
  assert (Forall (cell_ok h) (lvl j cs)) as Hokj
    by (apply Forall_forall; intros c Hin%elem_of_lvl; rewrite Forall_forall in Hok;
        apply Hok; tauto).
  pose proof (lvl_sorted j cs Hs) as Hsj.
  assert (length (lvl j cs) ≤ length cs)%nat as Hlj by apply length_filter.
  rewrite Hl in Hokj, Hsj, Hlj. rewrite length_app in Hlj.
  rewrite (advance_spec h j k l2); [|done|by apply Forall_app in Hokj as []
    |by apply StronglySorted_app_1_r in Hsj|lia].
  cbn [mbind option_bind].
  assert (last_loc (pred_loc a k (S j) cs) (c_loc <$> lo k l2) = pred_loc a k j cs) as ->
    by (rewrite Hp, <- last_loc_app, <- fmap_app, <- Hlo; done).
  destruct (IH (<[j:=Some (pred_loc a k j cs)]> upd)) as (upd' & Hd & Hlu & Hupd);
    [done|done|done|by rewrite length_insert|lia|done|].
  exists upd'. split; [done|]. split; [done|]. intros i. rewrite Hupd.
  destruct (decide (i < j)%nat); [by rewrite decide_True by lia|].
  destruct (decide (i = j)) as [->|].
  - rewrite list_lookup_insert_eq, decide_True by lia. done.
  - by rewrite list_lookup_insert_ne, decide_False by lia.
Qed.

Lemma NoDup_dom_length {A} (h : gmap loc A) (l : list loc) :
  NoDup l -> (forall x, x ∈ l -> is_Some (h !! x)) -> (length l ≤ size h)%nat.
Proof.
  intros Hnd Hin. rewrite <- size_dom.
  rewrite <- (size_list_to_set (C := gset nat) l Hnd).
  apply subseteq_size. intros x Hx%elem_of_list_to_set. by apply elem_of_dom, Hin.
Qed.

Lemma entries_nodup cs : StronglySorted cell_lt cs -> NoDup (entry <$> cs).*1.
Proof.
  induction 1 as [|c l Hs IH Hf]; [constructor|].
  rewrite !fmap_cons. apply NoDup_cons. split; [|done].
  intros ([k v] & Hk & (d & Hkv & Hd)%list_elem_of_fmap)%list_elem_of_fmap.
  injection Hkv as -> ->. simpl in Hk.
  rewrite Forall_forall in Hf. specialize (Hf d Hd). unfold cell_lt, key_lt in Hf.
  by rewrite Hk, bytes_ltb_irrefl in Hf.
Qed.

Section with_rep.
Context (m : memTableImpl) (cs : list cell) (R : rep m cs).

Lemma rep_length : (length cs < S (size (m_store m)))%nat.
Proof.
  destruct R as [Hnd _ Hok _ _ _ _ _ _]. apply NoDup_cons in Hnd as [_ Hnd].
  rewrite <- (length_fmap c_loc cs). apply Nat.lt_succ_r. apply NoDup_dom_length; [done|].
  intros x (c & -> & Hc)%list_elem_of_fmap. rewrite Forall_forall in Hok.
  destruct (Hok c Hc) as (f & -> & _). eauto.
Qed.

Lemma rep_lvl0 : lvl 0 cs = cs.
Proof.
  apply lvl_all. eapply Forall_impl; [apply (rep_heights _ _ R)|]. simpl. intros; lia.
Qed.

Lemma rep_descend k :
  exists upd, descend (m_level m) (m_store m) k (m_head m) (replicate maxLevel None)
      = Some (pred_loc (m_head m) k 0 cs, upd)
    /\ length upd = maxLevel
    /\ forall i, upd !! i = if decide (i < m_level m)%nat
         then Some (Some (pred_loc (m_head m) k i cs)) else replicate maxLevel None !! i.
Proof.
  assert (pred_loc (m_head m) k (m_level m) cs = m_head m) as E.
  { unfold pred_loc. rewrite lvl_nil; [done|].
    eapply Forall_impl; [apply (rep_heights _ _ R)|]. simpl. intros; lia. }
  pose proof (descend_spec (m_store m) (m_head m) k cs (m_level m)
    (replicate maxLevel None)) as H. rewrite E in H.
  apply H; try apply R; [apply rep_length|by rewrite length_replicate].
Qed.

(** The node after the predecessor on a level is the first with a key not
    below [k]. *)
Lemma rep_pred_fwd k i :
  (i < maxLevel)%nat ->
  fwd (m_store m) (pred_loc (m_head m) k i cs) i = Some (head (c_loc <$> hi k (lvl i cs))).
Proof.
  intros Hi. pose proof (rep_chain _ _ R i Hi) as Hc.
  rewrite (lo_hi_split k (lvl i cs)), fmap_app in Hc
    by (apply lvl_sorted, R). apply chain_app in Hc as [_ Hc].
  by apply chain_fwd in Hc.
Qed.

Lemma rep_next k :
  fwd (m_store m) (pred_loc (m_head m) k 0 cs) 0 = Some (head (c_loc <$> hi k cs)).
Proof. rewrite rep_pred_fwd by (unfold maxLevel; lia). by rewrite rep_lvl0. Qed.

(** The key, if present, is at the first node not below it. *)
Lemma rep_hi_key k c l :
  hi k cs = c :: l -> c_key c <> k -> forall d, d ∈ cs -> c_key d <> k.
Proof.
  intros Hhi Hne d Hd Hk. subst k. pose proof (rep_sorted _ _ R) as Hs.
  pose proof (lo_hi_split (c_key d) cs Hs) as Hsp. rewrite Hhi in Hsp.
  rewrite Hsp in Hs, Hd.
  assert (c ∈ hi (c_key d) cs) as Hc by (rewrite Hhi; left).
  apply list_elem_of_filter in Hc as [Hc _].
  apply elem_of_app in Hd as [Hd|[->|Hd]%elem_of_cons]; [|done|].
  - apply list_elem_of_filter in Hd as [Hd _]. by rewrite bytes_ltb_irrefl in Hd.
  - apply StronglySorted_app_1_r, StronglySorted_inv in Hs as [_ Hs].
    rewrite Forall_forall in Hs. specialize (Hs d Hd). unfold cell_lt, key_lt in Hs. congruence.
Qed.

Lemma rep_hi_nil k : hi k cs = [] -> forall d, d ∈ cs -> c_key d <> k.
Proof.
  intros Hhi d Hd Hk. subst k.
  assert (d ∈ hi (c_key d) cs) as H
    by (apply list_elem_of_filter; split; [apply bytes_ltb_irrefl|done]).
  rewrite Hhi in H. by apply elem_of_nil in H.
Qed.

Lemma rep_entries_nodup : NoDup (entry <$> cs).*1.
Proof. apply entries_nodup, R. Qed.

Lemma rep_lookup c : c ∈ cs ->
  (list_to_map (entry <$> cs) : gmap bytes bytes) !! c_key c = Some (c_val c).
Proof.
  intros Hc. apply elem_of_list_to_map_1; [apply rep_entries_nodup|].
  apply list_elem_of_fmap. by exists c.
Qed.

Lemma rep_lookup_None k : (forall d, d ∈ cs -> c_key d <> k) ->
  (list_to_map (entry <$> cs) : gmap bytes bytes) !! k = None.
Proof.
  intros H. apply not_elem_of_list_to_map_1. rewrite <- list_fmap_compose.
  intros (d & -> & Hd)%list_elem_of_fmap. by apply (H d).
Qed.

(** [Get] is the lookup in the map of the linked entries. *)
Lemma Get_spec k :
  Get m k = Some ((list_to_map (entry <$> cs) : gmap bytes bytes) !! k).
Proof.
  unfold Get. destruct (rep_descend k) as (upd & -> & _). cbn [mbind option_bind].
  rewrite rep_next. cbn [mbind option_bind].
  destruct (hi k cs) as [|c l] eqn:Hhi; cbn [fmap list_fmap head].
  { by rewrite rep_lookup_None by (by apply rep_hi_nil). }
  assert (c ∈ cs) as Hc.
  { assert (c ∈ hi k cs) as H by (rewrite Hhi; left).
    by apply list_elem_of_filter in H as [_ H]. }
  pose proof (rep_cells _ _ R) as Hok. rewrite Forall_forall in Hok.
  destruct (Hok c Hc) as (f & -> & _). cbn [mbind option_bind n_key n_value].
  unfold bytes_eqb. case_bool_decide as E.
  - by rewrite <- E, rep_lookup.
  - by rewrite rep_lookup_None by (by eapply rep_hi_key).
Qed.
End with_rep.

(** *** Relinking *)

(** The part of a node that relinking leaves alone. *)
Definition shape (h : gmap loc skipListNode) (x : loc) : option (bytes * bytes * nat) :=
  (fun n => (n_key n, n_value n, length (n_forward n))) <$> h !! x.

Lemma cell_ok_shape h c :
  cell_ok h c <-> shape h (c_loc c) = Some (c_key c, c_val c, c_h c).
Proof.
  unfold cell_ok, shape. split.
  - intros (f & -> & <-). done.
  - destruct (h !! c_loc c) as [[k v f]|]; [|done]. simpl. intros [= <- <- <-]. eauto.
Qed.

Lemma shape_lookup_None h x : shape h x = None <-> h !! x = None.
Proof. unfold shape. by rewrite fmap_None. Qed.

Lemma fwd_is_Some h x i k v n :
  shape h x = Some (k, v, n) -> (i < n)%nat -> is_Some (fwd h x i).
Proof.
  unfold shape, fwd. destruct (h !! x) as [[k' v' f]|]; [|done].
  simpl. intros [= <- <- <-] Hi. by apply lookup_lt_is_Some.
Qed.

Lemma set_fwd_spec h x i p :
  is_Some (fwd h x i) ->
  exists h', set_fwd h x i p = Some h' /\ (forall y, shape h' y = shape h y)
    /\ forall y j, fwd h' y j = if decide (y = x /\ j = i) then Some p else fwd h y j.
Proof.
  unfold fwd at 1, set_fwd. intros [q Hq].
  destruct (h !! x) as [n|] eqn:Hx; [|done]. cbn [mbind option_bind] in *.
  rewrite Hq. cbn [mbind option_bind]. eexists. split; [done|]. split.
  - intros y. unfold shape. destruct (decide (x = y)) as [->|].
    + rewrite lookup_insert_eq, Hx. simpl. by rewrite length_insert.
    + by rewrite lookup_insert_ne.
  - intros y j. unfold fwd. destruct (decide (y = x)) as [->|].
    + rewrite lookup_insert_eq, Hx. cbn [mbind option_bind n_forward].
      destruct (decide (j = i)) as [->|].
      * rewrite decide_True by done. apply list_lookup_insert_eq. by apply lookup_lt_Some in Hq.
      * rewrite decide_False by tauto. by rewrite list_lookup_insert_ne.
    + rewrite lookup_insert_ne by done. by rewrite decide_False by tauto.
Qed.

Lemma link_spec (u : nat -> loc) node upd : forall n i h,
  (forall j, (i ≤ j < i + n)%nat -> upd !! j = Some (Some (u j)) /\ u j <> node
     /\ is_Some (fwd h (u j) j) /\ is_Some (fwd h node j)) ->
  exists h', link n i h node upd = Some h' /\ (forall y, shape h' y = shape h y)
    /\ forall y j, fwd h' y j =
       if decide (i ≤ j < i + n)%nat then
         if decide (y = node) then fwd h (u j) j
         else if decide (y = u j) then Some (Some node) else fwd h y j
       else fwd h y j.
Proof.
  induction n as [|n IH]; intros i h H; cbn [link].
  { exists h. split; [done|]. split; [done|]. intros. by rewrite decide_False by lia. }
  destruct (H i) as (Hu & Hne & [p Hp] & Hn); [lia|].
  rewrite Hu. cbn [mjoin option_join mbind option_bind]. rewrite Hp. cbn [mbind option_bind].
  destruct (set_fwd_spec h node i p Hn) as (h1 & -> & Hs1 & Hf1). cbn [mbind option_bind].
  destruct (set_fwd_spec h1 (u i) i (Some node)) as (h2 & -> & Hs2 & Hf2).
  { rewrite Hf1. rewrite decide_False by tauto. eauto. }
  cbn [mbind option_bind].
  destruct (IH (S i) h2) as (h' & -> & Hs' & Hf').
  { intros j Hj. destruct (H j) as (? & ? & ? & ?); [lia|].
    rewrite !Hf2, !Hf1, !decide_False by lia. auto. }
  exists h'. split; [done|]. split; [intros y; by rewrite Hs', Hs2, Hs1|].
  intros y j. rewrite Hf', !Hf2, !Hf1.
  destruct (decide (j = i)) as [->|Hji].
  - rewrite (decide_False (P := (S i ≤ i < S i + n)%nat)) by lia.
    rewrite (decide_True (P := (i ≤ i < i + S n)%nat)) by lia.
    destruct (decide (y = node)) as [->|].
    + rewrite decide_False by (intros [? _]; congruence). by rewrite decide_True by done.
    + destruct (decide (y = u i)) as [->|]; [by rewrite decide_True by done|].
      by rewrite !decide_False by tauto.
  - rewrite !(decide_False (P := _ /\ j = i)) by tauto.
    destruct (decide (S i ≤ j < S i + n)%nat) as [Hr|Hr].
    + rewrite (decide_True (P := (i ≤ j < i + S n)%nat)) by lia. done.
    + rewrite (decide_False (P := (i ≤ j < i + S n)%nat)) by lia. done.
Qed.

Lemma unlink_spec (u : nat -> loc) c ht upd : forall n i h,
  (i ≤ ht ≤ i + n)%nat ->
  (forall j, (i ≤ j < i + n)%nat -> upd !! j = Some (Some (u j)) /\ u j <> c
     /\ is_Some (fwd h (u j) j)
     /\ (fwd h (u j) j = Some (Some c) <-> (j < ht)%nat)) ->
  (forall j, (j < ht)%nat -> is_Some (fwd h c j)) ->
  exists h', unlink n i h c upd = Some h' /\ (forall y, shape h' y = shape h y)
    /\ forall y j, fwd h' y j =
       if decide ((i ≤ j < ht)%nat /\ y = u j) then fwd h c j else fwd h y j.
Proof.
  induction n as [|n IH]; intros i h Hht H Hc; cbn [unlink].
  { exists h. split; [done|]. split; [done|]. intros. by rewrite decide_False by lia. }
  destruct (H i) as (Hu & Hne & [p Hp] & Hiff); [lia|].
  rewrite Hu. cbn [mjoin option_join mbind option_bind]. rewrite Hp. cbn [mbind option_bind].
  rewrite Hp in Hiff. case_bool_decide as Epc.
  - subst p. destruct Hiff as [Hlt _]. specialize (Hlt eq_refl).
    destruct (Hc i Hlt) as [q Hq]. rewrite Hq. cbn [mbind option_bind].
    destruct (set_fwd_spec h (u i) i q) as (h1 & -> & Hs1 & Hf1); [by rewrite Hp|].
    cbn [mbind option_bind].
    destruct (IH (S i) h1) as (h' & -> & Hs' & Hf'); [lia| | |].
    { intros j Hj. rewrite Hf1, decide_False by lia. apply H. lia. }
    { intros j Hj. rewrite Hf1. case_decide; eauto. }
    exists h'. split; [done|]. split; [intros y; by rewrite Hs', Hs1|].
    intros y j. rewrite Hf', !Hf1.
    destruct (decide (j = i)) as [->|Hji].
    + rewrite (decide_False (P := (S i ≤ i < ht)%nat /\ _)) by lia.
      destruct (decide (y = u i)) as [->|].
      * rewrite !decide_True by (split; [lia|done]). by rewrite Hq.
      * by rewrite !decide_False by tauto.
    + rewrite !(decide_False (P := _ /\ j = i)) by tauto.
      destruct (decide ((S i ≤ j < ht)%nat /\ y = u j)) as [[Hr ->]|Hr].
      * by rewrite decide_True by (split; [lia|done]).
      * rewrite decide_False; [done|]. intros [Hr' ->]. apply Hr. split; [lia|done].
  - assert (ht = i) as ->.
    { destruct Hiff as [_ Hiff]. destruct (decide (i < ht)%nat) as [Hl|]; [|lia].
      specialize (Hiff Hl). congruence. }
    exists h. split; [done|]. split; [done|]. intros y j. by rewrite decide_False by lia.
Qed.

(** *** [Put] *)

Definition cells_map (cs : list cell) : gmap bytes bytes := list_to_map (entry <$> cs).

Lemma cells_map_middle l1 c l2 :
  StronglySorted cell_lt (l1 ++ c :: l2) ->
  cells_map (l1 ++ c :: l2) = <[c_key c := c_val c]> (cells_map (l1 ++ l2)).
Proof.
  intros Hs. unfold cells_map.
  rewrite (list_to_map_proper (entry <$> l1 ++ c :: l2) (entry c :: (entry <$> l1 ++ l2)));
    [done|by apply entries_nodup|].
  rewrite !fmap_app. cbn. by rewrite Permutation_middle.
Qed.

Lemma entries_size_app l1 l2 : entries_size (l1 ++ l2) = entries_size l1 + entries_size l2.
Proof. induction l1 as [|e l1 IH]; simpl; [done|]. rewrite IH. lia. Qed.

Lemma entries_size_middle l1 c l2 :
  entries_size (entry <$> l1 ++ c :: l2)
  = entries_size (entry <$> l1 ++ l2) + (zlen (c_key c) + zlen (c_val c)).
Proof.
  rewrite !fmap_app, !entries_size_app, fmap_cons. cbn [entries_size foldr].
  change (foldr _ 0 (entry <$> l2)) with (entries_size (entry <$> l2)).
  unfold entry_size. cbn. lia.
Qed.

Lemma lvl_app i l1 l2 : lvl i (l1 ++ l2) = lvl i l1 ++ lvl i l2.
Proof. apply filter_app. Qed.

Lemma lvl_cons i c l : lvl i (c :: l) = if decide (i < c_h c)%nat then c :: lvl i l else lvl i l.
Proof. unfold lvl. rewrite filter_cons. done. Qed.

(** Overwriting the value of a linked node. *)
Lemma rep_set_value m l1 c l2 v n :
  rep m (l1 ++ c :: l2) -> m_store m !! c_loc c = Some n ->
  rep (mkMemTable (<[c_loc c := mkNode (n_key n) v (n_forward n)]> (m_store m))
         (m_next m) (m_head m) (m_level m) (m_size m + (zlen v - zlen (n_value n))) (m_rand m))
      (l1 ++ mkCell (c_loc c) (c_key c) v (c_h c) :: l2).
Proof.
  intros [Hnd Hh Hok Hht Hl Hc Hs Hsz Hfr] Hn.
  set (c' := mkCell (c_loc c) (c_key c) v (c_h c)).
  set (h' := <[c_loc c := mkNode (n_key n) v (n_forward n)]> (m_store m)).
  assert (c_loc <$> l1 ++ c' :: l2 = c_loc <$> l1 ++ c :: l2) as El by by rewrite !fmap_app.
  assert (forall y j, fwd h' y j = fwd (m_store m) y j) as Hf.
  { intros y j. unfold fwd, h'. destruct (decide (c_loc c = y)) as [<-|].
    - by rewrite lookup_insert_eq, Hn.
    - by rewrite lookup_insert_ne. }
  apply Forall_app in Hok as [Hok1 [Hokc Hok2]%Forall_cons].
  assert (n = mkNode (c_key c) (c_val c) (n_forward n) /\ length (n_forward n) = c_h c)
    as [En Ehn] by (destruct Hokc as (f & Hf' & Hlen); rewrite Hn in Hf'; by injection Hf' as ->).
  assert (forall d, d ∈ l1 ++ l2 -> c_loc d <> c_loc c) as Hne.
  { apply NoDup_cons in Hnd as [_ Hnd]. rewrite fmap_app, fmap_cons in Hnd.
    rewrite <- Permutation_middle in Hnd. apply NoDup_cons in Hnd as [Hnin _].
    intros d Hd E. apply Hnin. rewrite <- E, <- fmap_app. by apply list_elem_of_fmap_2. }
  assert (forall l, (forall d, d ∈ l -> d ∈ l1 ++ l2) -> Forall (cell_ok (m_store m)) l ->
            Forall (cell_ok h') l) as Hkeep.
  { intros l Hsub. rewrite !Forall_forall. intros Hall d Hd.
    destruct (Hall d Hd) as (f & Hd1 & Hd2). exists f. split; [|done].
    unfold h'. by rewrite lookup_insert_ne by (apply not_eq_sym, Hne; auto). }
  split; simpl; try done.
  - by rewrite El.
  - destruct Hh as (f & Hh1 & Hh2). exists f. split; [|done]. unfold h'.
    rewrite lookup_insert_ne; [done|]. intros E.
    apply NoDup_cons in Hnd as [Hnd _]. apply Hnd. rewrite <- E.
    apply list_elem_of_fmap_2. set_solver.
  - apply Forall_app. split; [apply Hkeep; [set_solver|done]|].
    apply Forall_cons. split; [|apply Hkeep; [set_solver|done]].
    exists (n_forward n). split; [|done]. unfold h'. cbn.
    rewrite lookup_insert_eq. by rewrite En at 1.
  - apply Forall_app in Hht as [? [? ?]%Forall_cons]. apply Forall_app. split; [done|].
    by apply Forall_cons.
  - intros i Hi. eapply chain_ext; [intros; apply Hf|].
    specialize (Hc i Hi). rewrite lvl_app, lvl_cons in Hc |- *. cbn.
    destruct (decide (i < c_h c)%nat); by rewrite !fmap_app in *.
  - apply StronglySorted_app in Hs as (Hs0 & Hs1 & [Hs2 Hs3]%StronglySorted_inv).
    apply StronglySorted_app. split; [|split; [done|by constructor]].
    intros x y Hx [->|Hy]%elem_of_cons; [apply (Hs0 x c Hx); left|].
    apply Hs0; [done|by right].
  - rewrite Hsz, !entries_size_middle. cbn. rewrite En. cbn. lia.
  - intros x Hx. unfold h'. rewrite lookup_insert_ne; [by apply Hfr|].
    intros <-. by rewrite Hfr in Hn.
Qed.

Lemma randomLevel_range coin m : (1 ≤ (randomLevel coin m).1 ≤ maxLevel)%nat.
Proof.
  unfold randomLevel.
  assert (forall fuel l d, (1 ≤ l ≤ maxLevel)%nat ->
    (1 ≤ (randomLevel_loop coin fuel l d).1 ≤ maxLevel)%nat) as H; [|apply H; unfold maxLevel; lia].
  induction fuel as [|fuel IH]; intros l d Hl; cbn [randomLevel_loop]; [done|].
  destruct (Nat.ltb_spec l maxLevel); [|done]. destruct (coin d); [|done]. apply IH. lia.
Qed.

Lemma raise_update_lookup hd : forall n i upd j,
  (i + n ≤ length upd)%nat ->
  raise_update n i hd upd !! j
  = if decide (i ≤ j < i + n)%nat then Some (Some hd) else upd !! j.
Proof.
  induction n as [|n IH]; intros i upd j Hl; cbn [raise_update].
  { by rewrite decide_False by lia. }
  rewrite IH by (rewrite length_insert; lia).
  destruct (decide (j = i)) as [->|].
  - rewrite decide_False, decide_True by lia. apply list_lookup_insert_eq. lia.
  - destruct (decide (S i ≤ j < S i + n)%nat).
    + by rewrite decide_True by lia.
    + by rewrite (decide_False (P := (i ≤ j < i + S n)%nat)), list_lookup_insert_ne by lia.
Qed.

(** The NoDup side conditions of splicing, level by level. *)
Lemma level_nodup a (l1 l2 : list cell) i :
  NoDup (a :: (c_loc <$> l1 ++ l2)) ->
  NoDup (a :: (c_loc <$> lvl i l1)) /\
  last_loc a (c_loc <$> lvl i l1) ∉ c_loc <$> lvl i l2.
Proof.
  intros Hnd.
  assert (NoDup (a :: (c_loc <$> lvl i l1 ++ lvl i l2))) as Hi.
  { apply NoDup_cons in Hnd as [Hnin Hnd]. apply NoDup_cons. split.
    - intros (c & -> & Hc)%list_elem_of_fmap. apply Hnin, list_elem_of_fmap_2.
      rewrite <- lvl_app in Hc. by apply elem_of_lvl in Hc as [_ Hc].
    - rewrite <- lvl_app. eapply sublist_NoDup; [exact Hnd|].
      apply fmap_sublist, sublist_filter. }
  rewrite fmap_app, app_comm_cons in Hi. apply NoDup_app in Hi as (H1 & H2 & _).
  split; [done|]. apply H2, last_loc_in.
Qed.

(** Linking a fresh node between the smaller and the larger keys. *)
Lemma rep_insert m l1 l2 k v ht h' mlevel rand :
  rep m (l1 ++ l2) -> (1 ≤ ht ≤ maxLevel)%nat -> mlevel = Nat.max (m_level m) ht ->
  (forall c, c ∈ l1 -> key_lt (c_key c) k) -> (forall c, c ∈ l2 -> key_lt k (c_key c)) ->
  let node := m_next m in
  let u i := last_loc (m_head m) (c_loc <$> lvl i l1) in
  shape h' node = Some (k, v, ht) ->
  (forall y, y <> node -> shape h' y = shape (m_store m) y) ->
  (forall y j, fwd h' y j =
     if decide (j < ht)%nat then
       if decide (y = node) then fwd (m_store m) (u j) j
       else if decide (y = u j) then Some (Some node) else fwd (m_store m) y j
     else if decide (y = node) then None else fwd (m_store m) y j) ->
  rep (mkMemTable h' (S node) (m_head m) mlevel (m_size m + (zlen k + zlen v)) rand)
      (l1 ++ mkCell node k v ht :: l2).
Proof.
  intros [Hnd Hh Hok Hht Hl Hc Hs Hsz Hfr] Hb -> Hlt Hgt node u Hnode Hsh Hf.
  set (c := mkCell node k v ht).
  assert (forall x, is_Some (m_store m !! x) -> x <> node) as Hfresh.
  { intros x [n Hx] ->. by rewrite Hfr in Hx by done. }
  assert (forall d, d ∈ l1 ++ l2 -> c_loc d <> node) as Hcell.
  { intros d Hd. apply Hfresh. rewrite Forall_forall in Hok.
    destruct (Hok d Hd) as (f & -> & _). eauto. }
  assert (m_head m <> node) as Hhead by (apply Hfresh; destruct Hh as (f & -> & _); eauto).
  split; cbn [m_store m_next m_head m_level m_size].
  - rewrite fmap_app, fmap_cons, <- Permutation_middle, <- fmap_app.
    apply NoDup_cons in Hnd as [Hnd1 Hnd2]. apply NoDup_cons. split.
    + intros [E|Hin]%elem_of_cons; [by cbn in E|done].
    + apply NoDup_cons. split; [|done].
      intros (d & E & Hd)%list_elem_of_fmap. by apply (Hcell d Hd).
  - specialize (Hsh (m_head m) Hhead). destruct Hh as (f & Hh1 & Hh2).
    unfold shape in Hsh. rewrite Hh1 in Hsh. simpl in Hsh.
    destruct (h' !! m_head m) as [[k' v' f']|]; [|done]. simpl in Hsh.
    injection Hsh as -> -> E. exists f'. split; [done|]. congruence.
  - rewrite <- Permutation_middle. apply Forall_cons. split; [by apply cell_ok_shape|].
    rewrite Forall_forall in Hok |- *. intros d Hd. apply cell_ok_shape.
    rewrite Hsh by (by apply Hcell). by apply cell_ok_shape, Hok.
  - rewrite <- Permutation_middle. apply Forall_cons. split; [simpl; lia|].
    eapply Forall_impl; [exact Hht|]. simpl. intros; lia.
  - lia.
  - intros i Hi. specialize (Hc i Hi). rewrite lvl_app, fmap_app in Hc.
    destruct (level_nodup _ _ _ i Hnd) as [Hnd1 Hnd2].
    assert (forall y, y ∈ m_head m :: (c_loc <$> lvl i l1) ++ (c_loc <$> lvl i l2) ->
              y <> node) as Hyn.
    { intros y. rewrite <- fmap_app, <- lvl_app.
      intros [->|(d & -> & [_ Hd]%elem_of_lvl)%list_elem_of_fmap]%elem_of_cons;
        [done|by apply Hcell]. }
    rewrite lvl_app, lvl_cons. cbn [c_h c].
    destruct (decide (i < ht)%nat) as [Hih|Hih].
    + rewrite fmap_app, fmap_cons. eapply chain_insert; [done|exact Hc| | | |done].
      * rewrite Hf, decide_True by done. rewrite decide_False.
        -- by rewrite decide_True.
        -- apply Hyn. pose proof (last_loc_in (m_head m) (c_loc <$> lvl i l1)). set_solver.
      * rewrite Hf, !decide_True by done. done.
      * intros y Hy Hyu. rewrite Hf, decide_True by done.
        by rewrite !decide_False by auto.
    + rewrite fmap_app. eapply chain_ext; [|exact Hc]. intros y Hy.
      rewrite Hf, decide_False by done. by rewrite decide_False by auto.
  - apply StronglySorted_app in Hs as (Hs0 & Hs1 & Hs2). apply StronglySorted_app.
    split; [|split; [done|]].
    + intros x y Hx [->|Hy]%elem_of_cons; [by apply Hlt|by apply Hs0].
    + constructor; [done|]. apply Forall_forall. intros y Hy. by apply Hgt.
  - rewrite Hsz, entries_size_middle. done.
  - intros x Hx. apply shape_lookup_None. rewrite Hsh by lia.
    apply shape_lookup_None, Hfr. lia.
Qed.

Lemma pred_loc_split a k i cs :
  pred_loc a k i cs = last_loc a (c_loc <$> lvl i (lo k cs)).
Proof. unfold pred_loc. by rewrite lvl_lo. Qed.

Lemma pred_loc_alloc m cs k i :
  rep m cs -> is_Some (m_store m !! pred_loc (m_head m) k i cs).
Proof.
  intros R. unfold pred_loc.
  pose proof (last_loc_in (m_head m) (c_loc <$> lo k (lvl i cs))) as H.
  apply elem_of_cons in H as [->|(c & -> & Hc)%list_elem_of_fmap].
  - destruct (rep_head _ _ R) as (f & -> & _). eauto.
  - unfold lo in Hc. apply list_elem_of_filter in Hc as [_ [_ Hc]%elem_of_lvl].
    pose proof (rep_cells _ _ R) as Hok. rewrite Forall_forall in Hok.
    destruct (Hok c Hc) as (f & -> & _). eauto.
Qed.

Lemma hi_gt k cs c : c ∈ hi k cs -> c_key c <> k -> key_lt k (c_key c).
Proof.
  intros [H _]%list_elem_of_filter Hne. by apply bytes_ltb_total.
Qed.

(** The branch of [Put] that links a new node. *)
Lemma Put_new coin m cs k v upd :
  rep m cs -> (forall d, d ∈ cs -> c_key d <> k) ->
  length upd = maxLevel ->
  (forall i, upd !! i = if decide (i < m_level m)%nat
     then Some (Some (pred_loc (m_head m) k i cs)) else replicate maxLevel None !! i) ->
  let '(level, rand) := randomLevel coin m in
  let '(upd', mlevel) :=
    if (m_level m <? level)%nat
    then (raise_update (level - m_level m) (m_level m) (m_head m) upd, level)
    else (upd, m_level m) in
  exists h', link level 0 (<[m_next m := mkNode k v (replicate level None)]> (m_store m))
               (m_next m) upd' = Some h'
    /\ rep (mkMemTable h' (S (m_next m)) (m_head m) mlevel (m_size m + (zlen k + zlen v)) rand)
         (lo k cs ++ mkCell (m_next m) k v level :: hi k cs).
Proof.
  intros R Hk Hlu Hupd. pose proof (randomLevel_range coin m) as Hb.
  destruct (randomLevel coin m) as [ht rand]. simpl in Hb.
  pose proof (rep_level _ _ R) as Hl. set (node := m_next m).
  set (h0 := <[node := mkNode k v (replicate ht None)]> (m_store m)).
  set (u i := pred_loc (m_head m) k i cs).
  destruct (if (m_level m <? ht)%nat then _ else _) as [upd' mlevel] eqn:Eu.
  assert (mlevel = Nat.max (m_level m) ht /\
    forall i, (i < ht)%nat -> upd' !! i = Some (Some (u i))) as [Hml Hupd'].
  { destruct (Nat.ltb_spec (m_level m) ht); injection Eu as <- <-.
    2: { split; [lia|]. intros i Hi. by rewrite Hupd, decide_True by lia. }
    split; [lia|]. intros i Hi. rewrite raise_update_lookup by lia.
    case_decide as Hr; [|by rewrite Hupd, decide_True by lia].
    unfold u, pred_loc. rewrite lvl_nil; [done|].
    eapply Forall_impl; [apply (rep_heights _ _ R)|]. simpl. intros; lia. }
  assert (forall i, u i <> node) as Hun.
  { intros i E. destruct (pred_loc_alloc m cs k i R) as [n Hn]. fold (u i) in Hn.
    rewrite E, (rep_fresh _ _ R) in Hn by done. done. }
  assert (forall y j, y <> node -> fwd h0 y j = fwd (m_store m) y j) as Hf0
    by (intros y j Hy; unfold fwd, h0; by rewrite lookup_insert_ne).
  destruct (link_spec u node upd' ht 0 h0) as (h' & Hlink & Hsh & Hf).
  { intros j Hj. split; [apply Hupd'; lia|]. split; [apply Hun|]. split.
    - rewrite Hf0 by apply Hun. unfold u. rewrite (rep_pred_fwd m cs R) by lia. eauto.
    - eapply (fwd_is_Some _ _ _ k v ht); [|lia].
      unfold shape, h0. rewrite lookup_insert_eq. simpl. by rewrite length_replicate. }
  exists h'. split; [done|].
  apply rep_insert; try done.
  - by rewrite <- lo_hi_split by apply R.
  - intros c [Hc _]%list_elem_of_filter. exact Hc.
  - intros c Hc. apply (hi_gt k cs c Hc), Hk. by apply list_elem_of_filter in Hc as [_ Hc].
  - rewrite Hsh. unfold shape, h0. rewrite lookup_insert_eq. simpl. by rewrite length_replicate.
  - intros y Hy. rewrite Hsh. unfold shape, h0. by rewrite lookup_insert_ne.
  - intros y j. rewrite Hf, <- pred_loc_split. fold (u j) node.
    destruct (decide (j < ht)%nat) as [Hj|Hj].
    + rewrite decide_True by lia. rewrite Hf0 by apply Hun.
      destruct (decide (y = node)); [done|]. destruct (decide (y = u j)); [done|].
      by apply Hf0.
    + rewrite decide_False by lia. destruct (decide (y = node)) as [->|]; [|by apply Hf0].
      unfold fwd, h0. rewrite lookup_insert_eq. cbn.
      apply lookup_replicate_None. lia.
Qed.

(** [Put] inserts the entry, or replaces the value under an existing key. *)
Lemma Put_spec coin m cs k v :
  rep m cs -> exists m' cs', Put coin m k v = Some m' /\ rep m' cs'
    /\ cells_map cs' = <[k := v]> (cells_map cs).
Proof.
  intros R. unfold Put.
  destruct (rep_descend m cs R k) as (upd & -> & Hlu & Hupd). cbn [mbind option_bind].
  rewrite (rep_next m cs R). cbn [mbind option_bind].
  pose proof (lo_hi_split k cs (rep_sorted _ _ R)) as Hsplit.
  assert ((forall d, d ∈ cs -> c_key d <> k) ->
    exists m' cs', (let '(level, rand) := randomLevel coin m in
      let '(update, mlevel) := if (m_level m <? level)%nat
        then (raise_update (level - m_level m) (m_level m) (m_head m) upd, level)
        else (upd, m_level m) in
      h ← link level 0 (<[m_next m := mkNode k v (replicate level None)]> (m_store m))
            (m_next m) update;
      Some (mkMemTable h (S (m_next m)) (m_head m) mlevel
              (m_size m + (zlen k + zlen v)) rand)) = Some m'
    /\ rep m' cs' /\ cells_map cs' = <[k := v]> (cells_map cs)) as Hnew.
  { intros Hk. pose proof (Put_new coin m cs k v upd R Hk Hlu Hupd) as Hp.
    destruct (randomLevel coin m) as [ht rand].
    destruct (if (m_level m <? ht)%nat then _ else _) as [upd' mlevel].
    destruct Hp as (h' & -> & R'). cbn [mbind option_bind]. do 2 eexists.
    split; [done|]. split; [exact R'|].
    rewrite cells_map_middle by apply R'. by rewrite <- Hsplit. }
  destruct (hi k cs) as [|c l] eqn:Hhi; cbn [fmap list_fmap head].
  { apply Hnew. by apply (rep_hi_nil cs). }
  pose proof (rep_cells _ _ R) as Hok. rewrite Hsplit in Hok.
  apply Forall_app in Hok as [_ [(f & Hc & _) _]%Forall_cons].
  rewrite Hc. cbn [mbind option_bind n_key]. unfold bytes_eqb.
  case_bool_decide as Ek; [|apply Hnew; by eapply (rep_hi_key m cs R)].
  do 2 eexists. split; [done|]. rewrite Hsplit in R.
  pose proof (rep_set_value _ _ _ _ v _ R Hc) as R'. split; [exact R'|].
  rewrite Hsplit at 2. rewrite !cells_map_middle by (apply R' || apply R).
  cbn [c_key c_val]. by rewrite Ek, insert_insert_eq.
Qed.

(** *** [Delete] *)

Lemma lower_level_spec h hd level :
  (1 ≤ level)%nat -> (forall j, (j < level)%nat -> is_Some (fwd h hd j)) ->
  exists level', lower_level level h hd = Some level' /\ (1 ≤ level' ≤ level)%nat
    /\ forall j, (level' ≤ j < level)%nat -> fwd h hd j = Some None.
Proof.
  induction level as [|[|l] IH]; intros Hl Hf; [lia| |].
  { exists 1%nat. repeat split; try lia. }
  change (lower_level (S (S l)) h hd) with
    (p ← fwd h hd (S l);
     match p with None => lower_level (S l) h hd | Some _ => Some (S (S l)) end).
  destruct (Hf (S l)) as [p Hp]; [lia|]. rewrite Hp.
  cbn [mbind option_bind]. destruct p as [x|].
  - exists (S (S l)). repeat split; lia.
  - destruct IH as (l' & -> & Hr & Hn); [lia|intros; apply Hf; lia|].
    exists l'. split; [done|]. split; [lia|]. intros j Hj.
    destruct (decide (j = S l)) as [->|]; [done|]. apply Hn. lia.
Qed.

(** Cutting a node out of every level it is on. *)
Lemma rep_remove_chains m l1 c l2 h' :
  rep m (l1 ++ c :: l2) ->
  let u i := last_loc (m_head m) (c_loc <$> lvl i l1) in
  (forall y j, fwd h' y j =
     if decide ((j < c_h c)%nat /\ y = u j) then fwd (m_store m) (c_loc c) j
     else fwd (m_store m) y j) ->
  forall i, (i < maxLevel)%nat -> chain h' i (m_head m) (c_loc <$> lvl i (l1 ++ l2)).
Proof.
  intros R u Hf i Hi. pose proof (rep_chain _ _ R i Hi) as Hc.
  pose proof (rep_nodup _ _ R) as Hnd.
  destruct (level_nodup _ _ _ i Hnd) as [Hnd1 Hnd2].
  rewrite lvl_app, lvl_cons in Hc. rewrite lvl_cons in Hnd2. rewrite lvl_app, fmap_app.
  destruct (decide (i < c_h c)%nat) as [Hih|Hih].
  - rewrite fmap_app, fmap_cons in Hc. eapply chain_remove; [done|exact Hc| | |].
    + rewrite Hf, decide_True by done. done.
    + intros y Hy Hyu. rewrite Hf, decide_False by tauto. done.
    + set_solver.
  - rewrite fmap_app in Hc. eapply chain_ext; [|exact Hc].
    intros y Hy. by rewrite Hf, decide_False by tauto.
Qed.

Lemma rep_remove m l1 c l2 h' level' :
  rep m (l1 ++ c :: l2) ->
  let u i := last_loc (m_head m) (c_loc <$> lvl i l1) in
  (forall y, shape h' y = shape (m_store m) y) ->
  (forall y j, fwd h' y j =
     if decide ((j < c_h c)%nat /\ y = u j) then fwd (m_store m) (c_loc c) j
     else fwd (m_store m) y j) ->
  (1 ≤ level' ≤ m_level m)%nat ->
  (forall j, (level' ≤ j < m_level m)%nat -> fwd h' (m_head m) j = Some None) ->
  rep (mkMemTable h' (m_next m) (m_head m) level'
         (m_size m - (zlen (c_key c) + zlen (c_val c))) (m_rand m)) (l1 ++ l2).
Proof.
  intros R u Hsh Hf Hl' Htop. pose proof (rep_remove_chains m l1 c l2 h' R Hf) as Hch.
  destruct R as [Hnd Hh Hok Hht Hl Hc Hs Hsz Hfr].
  rewrite fmap_app, fmap_cons in Hnd. rewrite <- Permutation_middle in Hnd.
  rewrite <- Permutation_middle in Hok, Hht.
  apply Forall_cons in Hok as [_ Hok]. apply Forall_cons in Hht as [_ Hht].
  split; cbn [m_store m_next m_head m_level m_size]; try done.
  - rewrite fmap_app. apply NoDup_cons in Hnd as [Hn1 [Hn2 Hnd]%NoDup_cons].
    apply NoDup_cons. split; [|done]. intros Hin. apply Hn1. by right.
  - specialize (Hsh (m_head m)). destruct Hh as (f & Hh1 & Hh2). unfold shape in Hsh.
    rewrite Hh1 in Hsh. destruct (h' !! m_head m) as [[k' v' f']|]; [|done].
    simpl in Hsh. injection Hsh as -> -> E. exists f'. split; [done|]. congruence.
  - rewrite Forall_forall in Hok |- *. intros d Hd. apply cell_ok_shape. rewrite Hsh.
    by apply cell_ok_shape, Hok.
  - rewrite Forall_forall in Hht |- *. intros d Hd. destruct (Hht d Hd) as [Hd1 Hd2].
    split; [done|]. destruct (decide (c_h d ≤ level')%nat) as [|Hgt]; [done|]. exfalso.
    assert (d ∈ lvl (c_h d - 1) (l1 ++ l2)) as Hin by (apply elem_of_lvl; split; [lia|done]).
    specialize (Hch (c_h d - 1)%nat ltac:(lia)). specialize (Htop (c_h d - 1)%nat ltac:(lia)).
    rewrite (chain_fwd _ _ _ _ Hch) in Htop.
    destruct (lvl (c_h d - 1) (l1 ++ l2)); [by apply elem_of_nil in Hin|done].
  - lia.
  - apply StronglySorted_app in Hs as (Hs0 & Hs1 & [Hs2 _]%StronglySorted_inv).
    apply StronglySorted_app. split; [|done]. intros x y Hx Hy. apply Hs0; [done|by right].
  - rewrite Hsz, entries_size_middle. lia.
  - intros x Hx. apply shape_lookup_None. rewrite Hsh. by apply shape_lookup_None, Hfr.
Qed.

Lemma cells_map_delete l1 c l2 :
  StronglySorted cell_lt (l1 ++ c :: l2) ->
  cells_map (l1 ++ l2) = delete (c_key c) (cells_map (l1 ++ c :: l2)).
Proof.
  intros Hs. rewrite cells_map_middle by done. rewrite delete_insert_id; [done|].
  apply not_elem_of_list_to_map_1. pose proof (entries_nodup _ Hs) as Hnd.
  rewrite !fmap_app, !fmap_cons in Hnd. rewrite <- Permutation_middle in Hnd.
  apply NoDup_cons in Hnd as [Hnd _]. by rewrite !fmap_app.
Qed.

Lemma hi_cons_level k cs c l i :
  hi k cs = c :: l -> (i < c_h c)%nat -> head (c_loc <$> hi k (lvl i cs)) = Some (c_loc c).
Proof. intros Hhi Hi. rewrite lvl_hi, Hhi, lvl_cons. by rewrite decide_True. Qed.

Lemma hi_above_level k cs c l i :
  NoDup (c_loc <$> cs) -> StronglySorted cell_lt cs -> hi k cs = c :: l -> ~ (i < c_h c)%nat ->
  head (c_loc <$> hi k (lvl i cs)) <> Some (c_loc c).
Proof.
  intros Hnd Hs Hhi Hi. rewrite lvl_hi, Hhi, lvl_cons, decide_False by done. intros E.
  rewrite (lo_hi_split k cs Hs), Hhi, fmap_app, fmap_cons in Hnd.
  apply NoDup_app in Hnd as (_ & _ & [Hnin _]%NoDup_cons). apply Hnin.
  destruct (lvl i l) as [|d l'] eqn:El; [done|]. simpl in E. injection E as <-.
  apply list_elem_of_fmap_2. assert (d ∈ lvl i l) as Hd by (rewrite El; left).
  by apply elem_of_lvl in Hd as [_ Hd].
Qed.

(** [Delete] removes the entry under the key and leaves the others. *)
Lemma Delete_spec m cs k :
  rep m cs -> exists m' cs', Delete m k = Some m' /\ rep m' cs'
    /\ cells_map cs' = delete k (cells_map cs).
Proof.
  intros R. unfold Delete.
  destruct (rep_descend m cs R k) as (upd & -> & Hlu & Hupd). cbn [mbind option_bind].
  rewrite (rep_next m cs R). cbn [mbind option_bind].
  pose proof (lo_hi_split k cs (rep_sorted _ _ R)) as Hsplit.
  assert ((forall d, d ∈ cs -> c_key d <> k) ->
    exists m' cs', Some m = Some m' /\ rep m' cs'
      /\ cells_map cs' = delete k (cells_map cs)) as Hnone.
  { intros Hk. do 2 eexists. split; [done|]. split; [exact R|].
    rewrite delete_id; [done|]. by apply rep_lookup_None. }
  destruct (hi k cs) as [|c l] eqn:Hhi; cbn [fmap list_fmap head].
  { apply Hnone. by apply (rep_hi_nil cs). }
  pose proof (rep_cells _ _ R) as Hok. rewrite Hsplit in Hok.
  apply Forall_app in Hok as [_ [(f & Hc & Hlf) _]%Forall_cons].
  rewrite Hc. cbn [mbind option_bind n_key n_value]. unfold bytes_eqb.
  case_bool_decide as Ek; [|apply Hnone; by eapply (rep_hi_key m cs R)].
  pose proof (rep_level _ _ R) as Hl.
  pose proof (rep_heights _ _ R) as Hht. rewrite Hsplit in Hht.
  apply Forall_app in Hht as [_ [Hch _]%Forall_cons].
  pose proof (rep_nodup _ _ R) as Hnd.
  set (u i := pred_loc (m_head m) k i cs).
  destruct (unlink_spec u (c_loc c) (c_h c) upd (m_level m) 0 (m_store m))
    as (h' & -> & Hsh & Hf); [lia| | |].
  { intros j Hj. split; [by rewrite Hupd, decide_True by lia|]. unfold u.
    rewrite (rep_pred_fwd m cs R) by lia. split; [|split; [done|]].
    - rewrite pred_loc_split. rewrite Hsplit in Hnd. rewrite fmap_app, app_comm_cons in Hnd.
      apply NoDup_app in Hnd as (_ & Hnd & _). intros E. apply (Hnd (c_loc c)); [|set_solver].
      rewrite <- E. pose proof (last_loc_in (m_head m) (c_loc <$> lvl j (lo k cs))) as Hin.
      apply elem_of_cons in Hin as [->|(d & -> & [_ Hd]%elem_of_lvl)%list_elem_of_fmap];
        [left|right]. by apply list_elem_of_fmap_2.
    - split; [|intros Hjc; by erewrite hi_cons_level].
      intros [= E]. destruct (decide (j < c_h c)%nat) as [|Hn]; [done|]. exfalso.
      apply NoDup_cons in Hnd as [_ Hnd].
      by eapply (hi_above_level k cs c l j); [| apply R | | |]. }
  { intros j Hj. unfold fwd. rewrite Hc. cbn. apply lookup_lt_is_Some. lia. }
  cbn [mbind option_bind].
  destruct (lower_level_spec h' (m_head m) (m_level m)) as (lv & -> & Hlv & Htop); [lia| |].
  { intros j Hj. rewrite Hf. destruct (rep_head _ _ R) as (fh & Hh1 & Hh2).
    case_decide as Hd.
    - unfold fwd. rewrite Hc. cbn. apply lookup_lt_is_Some. lia.
    - unfold fwd. rewrite Hh1. cbn. apply lookup_lt_is_Some. lia. }
  cbn [mbind option_bind]. do 2 eexists. split; [done|]. split.
  - rewrite Hsplit in R. eapply (rep_remove m (lo k cs) c l h' lv); try done.
    intros y j. rewrite Hf. unfold u. rewrite <- pred_loc_split.
    destruct (decide ((j < c_h c)%nat /\ y = pred_loc (m_head m) k j cs)).
    + by rewrite decide_True by (split; [lia|tauto]).
    + by rewrite decide_False by (intros [? ?]; tauto).
  - rewrite Hsplit at 2. rewrite <- Ek. apply cells_map_delete.
    rewrite Ek. rewrite Hsplit in R. apply R.
Qed.

(** *** Iteration, creation and clearing *)

Lemma iter_loop_spec m cs : forall fuel a,
  chain (m_store m) 0 a (c_loc <$> cs) -> Forall (cell_ok (m_store m)) cs ->
  (length cs < fuel)%nat ->
  iter_loop fuel m (Some a) = Some (entry <$> cs).
Proof.
  induction cs as [|c cs IH]; intros fuel a Hc Hok Hlen;
    (destruct fuel as [|fuel]; [simpl in Hlen; lia|]); cbn [iter_loop Next];
    rewrite (chain_fwd _ _ _ _ Hc); cbn [mbind option_bind head fmap list_fmap].
  { done. }
  apply Forall_cons in Hok as [(f & Hf & _) Hok]. rewrite bool_decide_true by eauto.
  unfold Iter_Key, Iter_Value. rewrite Hf. cbn [fmap option_fmap option_map mbind option_bind].
  rewrite IH; [done| |done|simpl in Hlen; lia].
  destruct Hc as [[_ Hc] He]. by split.
Qed.

Lemma iterate_spec m cs : rep m cs -> iterate m = Some (entry <$> cs).
Proof.
  intros R. apply iter_loop_spec; [|apply R|by apply rep_length].
  pose proof (rep_chain _ _ R 0) as H. rewrite (rep_lvl0 m cs R) in H. apply H.
  unfold maxLevel. lia.
Qed.

(** A table whose head is a node with no successor on any level is empty. *)
Lemma rep_empty h nx hd rand :
  h !! hd = Some (mkNode [] [] (replicate maxLevel None)) ->
  (forall x, (nx ≤ x)%nat -> h !! x = None) ->
  rep (mkMemTable h nx hd 1 0 rand) [].
Proof.
  intros Hh Hfr. split; cbn; try done.
  - apply NoDup_singleton.
  - eexists. split; [exact Hh|]. by rewrite length_replicate.
  - unfold maxLevel. lia.
  - intros i Hi. split; cbn; [done|]. unfold fwd. rewrite Hh.
    by apply (lookup_replicate_2 maxLevel None i).
  - constructor.
Qed.

Lemma NewMemTable_rep : rep NewMemTable [].
Proof.
  apply rep_empty; [done|]. intros x Hx. apply lookup_singleton_ne. lia.
Qed.

Lemma Clear_rep m cs : rep m cs -> rep (Clear m) [].
Proof.
  intros R. apply rep_empty; [apply lookup_insert_eq|].
  intros x Hx. rewrite lookup_insert_ne by lia. apply R. lia.
Qed.

Lemma entries_sorted cs : StronglySorted cell_lt cs -> StronglySorted key_lt (entry <$> cs).*1.
Proof.
  induction 1 as [|c l Hs IH Hf]; rewrite ?fmap_cons; constructor; [done|].
  apply Forall_forall. intros k ([k' v'] & -> & (d & Hkv & Hd)%list_elem_of_fmap)%list_elem_of_fmap.
  injection Hkv as -> ->. rewrite Forall_forall in Hf. by apply Hf.
Qed.

(** ** The skip list implements the interface *)

Definition skip_inv (m : memTableImpl) : Prop := exists cs, rep m cs.
Definition skip_view (m : memTableImpl) : gmap bytes bytes :=
  list_to_map (default [] (iterate m)).

Lemma skip_view_rep m cs : rep m cs -> skip_view m = cells_map cs.
Proof. intros R. unfold skip_view. by rewrite (iterate_spec m cs R). Qed.

Section instance.
Context (coin : nat -> bool).

#[export] Instance skip_ops : MemTableOps memTableImpl := {
  mt_new := NewMemTable;
  mt_put := Put coin;
  mt_get := Get;
  mt_size := Size;
  mt_entries := iterate
}.

#[export] Instance skip_laws : MemTableLaws memTableImpl.
Proof.
  refine {| mt_inv := skip_inv; mt_view := skip_view |}.
  - exists []. apply NewMemTable_rep.
  - exact (skip_view_rep NewMemTable [] NewMemTable_rep).
  - intros m k v [cs R]. destruct (Put_spec coin m cs k v R) as (m' & cs' & Hp & R' & Hm).
    exists m'. split; [done|]. split; [by exists cs'|].
    by rewrite (skip_view_rep _ _ R), (skip_view_rep _ _ R').
  - intros m k [cs R]. rewrite (skip_view_rep _ _ R). by apply Get_spec.
  - intros m [cs R]. exists (entry <$> cs). rewrite (skip_view_rep _ _ R).
    split; [by apply iterate_spec|]. split; [by apply entries_sorted, R|].
    split; [done|]. apply R.
Defined.
End instance.

(** ** Theorems: every sequence of operations *)

Inductive mt_op :=
| OpPut (k v : bytes)
| OpDelete (k : bytes)
| OpClear.

Definition mt_step (coin : nat -> bool) (m : memTableImpl) (op : mt_op) : option memTableImpl :=
  match op with
  | OpPut k v => Put coin m k v
  | OpDelete k => Delete m k
  | OpClear => Some (Clear m)
  end.

(** What each operation means for a finite map. *)
Definition map_step (s : gmap bytes bytes) (op : mt_op) : gmap bytes bytes :=
  match op with
  | OpPut k v => <[k := v]> s
  | OpDelete k => delete k s
  | OpClear => ∅
  end.

Fixpoint mt_run (coin : nat -> bool) (m : memTableImpl) (ops : list mt_op)
    : option memTableImpl :=
  match ops with
  | [] => Some m
  | op :: ops' => m ← mt_step coin m op; mt_run coin m ops'
  end.

Lemma mt_step_rep coin m cs op :
  rep m cs -> exists m' cs', mt_step coin m op = Some m' /\ rep m' cs'
    /\ cells_map cs' = map_step (cells_map cs) op.
Proof.
  intros R. destruct op as [k v|k|]; cbn [mt_step map_step].
  - by apply Put_spec.
  - by apply Delete_spec.
  - do 2 eexists. split; [done|]. split; [by eapply Clear_rep|done].
Qed.

Lemma mt_run_rep coin ops : forall m cs,
  rep m cs -> exists m' cs', mt_run coin m ops = Some m' /\ rep m' cs'
    /\ cells_map cs' = fold_left map_step ops (cells_map cs).
Proof.
  induction ops as [|op ops IH]; intros m cs R; cbn [mt_run fold_left]; [eauto|].
  destruct (mt_step_rep coin m cs op R) as (m1 & cs1 & -> & R1 & <-).
  cbn [mbind option_bind]. by apply IH.
Qed.

(** C5: the skip list refines a finite map.  After any sequence of [Put],
    [Delete] and [Clear] on a new table, whatever heights the random source
    draws, no operation has dereferenced nil or indexed out of range, every
    search has terminated, and [Get] returns exactly what the same operations
    on a map would. *)
Theorem memtable_refines_map (coin : nat -> bool) (ops : list mt_op) :
  exists m, mt_run coin NewMemTable ops = Some m
    /\ forall k, Get m k = Some (fold_left map_step ops ∅ !! k).
Proof.
  destruct (mt_run_rep coin ops _ _ NewMemTable_rep) as (m & cs & Hr & R & Hm).
  exists m. split; [done|]. intros k. rewrite (Get_spec m cs R k). fold (cells_map cs).
  by rewrite Hm.
Qed.

(** After any sequence of operations the iterator visits exactly the
    table's entries, each once and in strictly increasing key order, and [Size]
    is the exact number of key and value bytes they hold. *)
Theorem memtable_iterates_sorted (coin : nat -> bool) (ops : list mt_op) :
  exists m l, mt_run coin NewMemTable ops = Some m /\ iterate m = Some l
    /\ StronglySorted key_lt l.*1
    /\ list_to_map l = fold_left map_step ops (∅ : gmap bytes bytes)
    /\ Size m = entries_size l.
Proof.
  destruct (mt_run_rep coin ops _ _ NewMemTable_rep) as (m & cs & Hr & R & Hm).
  exists m, (entry <$> cs). split; [done|]. split; [by apply iterate_spec|].
  split; [apply entries_sorted, R|]. split; [exact Hm|]. apply R.
Qed.
