(* ===== verification/Index.v ===== *)
(** * The segment index (pkg/storage/index.go)

    [indexImpl] maps offsets to file positions: an in-memory list of entries,
    looked up by the library's binary search, and a file of 16-byte entries it
    is written to and loaded from.  The file's bytes are passed to and returned
    by the operations that read or write it.  The theorems: [Lookup] finds the
    last entry at or before the offset whenever the entries are sorted, and
    loading a synced index gives the same entries back. *)

From S2P Require Import Prelude GoBytes Record.
From stdpp Require Import prelude list sorting gmap.
From Stdlib Require Import ZArith Lia.

Open Scope Z_scope.

Record indexEntry := mkIndexEntry { ie_offset : Z; ie_position : Z }.

Record indexImpl := mkIndex {
  ix_entries : list indexEntry;
  ix_dirty : bool;
  ix_open : bool          (* the file handle has not been closed *)
}.

Definition indexEntrySize : Z := 16.

(** *** Lookup *)

Definition Lookup (idx : indexImpl) (offset : Z) : result storage_error Z :=
  if zlen (ix_entries idx) =? 0 then Err ErrOffsetOutOfRange
  else
    let i := sort_Search (zlen (ix_entries idx)) (fun i =>
               match ix_entries idx !! Z.to_nat i with
               | Some e => offset <? ie_offset e
               | None => false
               end) in
    if i =? 0 then Err ErrOffsetOutOfRange
    else match ix_entries idx !! Z.to_nat (i - 1) with
         | Some e => Ok (ie_position e)
         | None => Err ErrOffsetOutOfRange  (* unreachable: see [Lookup_spec] *)
         end.

Definition Add (idx : indexImpl) (offset position : Z) : indexImpl :=
  mkIndex (ix_entries idx ++ [mkIndexEntry offset position]) true (ix_open idx).

Definition Truncate (idx : indexImpl) (beforeOffset : Z) : indexImpl :=
  mkIndex (filter (fun e => beforeOffset <= ie_offset e) (ix_entries idx)) true (ix_open idx).

(** *** The index file *)

Definition entry_bytes (e : indexEntry) : bytes :=
  be_enc 8 (wrapu 64 (ie_offset e)) ++ be_enc 8 (wrapu 64 (ie_position e)).

Definition index_bytes (entries : list indexEntry) : bytes :=
  concat (map entry_bytes entries).

(** [Sync]: rewrite the whole file when there is something to write.  Returns
    the error, the index and the file's new content. *)
Definition Sync (idx : indexImpl) (content : bytes)
    : option storage_error * indexImpl * bytes :=
  if negb (ix_dirty idx) then (None, idx, content)
  else if negb (ix_open idx) then (Some ErrClosed, idx, content)
  else (None, mkIndex (ix_entries idx) false (ix_open idx), index_bytes (ix_entries idx)).

(** [Close]: sync when dirty, then close the handle. *)
Definition Close (idx : indexImpl) (content : bytes)
    : option storage_error * indexImpl * bytes :=
  let '(err, idx, content) := if ix_dirty idx then Sync idx content else (None, idx, content) in
  match err with
  | Some e => (Some e, idx, content)
  | None =>
      if ix_open idx then (None, mkIndex (ix_entries idx) (ix_dirty idx) false, content)
      else (Some ErrClosed, idx, content)
  end.

(** The loop of [load]: [n] entries from position [pos]. *)
Fixpoint load_entries (n : nat) (content : bytes) (pos : Z) : option (list indexEntry) :=
  match n with
  | O => Some []
  | S n' =>
      offset ← get_be 8 content pos;
      position ← get_be 8 content (pos + 8);
      rest ← load_entries n' content (pos + indexEntrySize);
      Some (mkIndexEntry (wraps 64 offset) (wraps 64 position) :: rest)
  end.

Definition load (content : bytes) : result storage_error indexImpl :=
  if negb (zlen content mod indexEntrySize =? 0) then Err ErrCorruptIndex
  else match load_entries (Z.to_nat (zlen content / indexEntrySize)) content 0 with
       | Some entries => Ok (mkIndex entries false true)
       | None => Err ErrEOF                 (* unreachable: the size was checked *)
       end.

(** [NewIndex]: load the file when it exists, create an empty one otherwise. *)
Definition NewIndex (file : option bytes) : result storage_error (indexImpl * bytes) :=
  match file with
  | Some content =>
      match load content with Ok idx => Ok (idx, content) | Err e => Err e end
  | None => Ok (mkIndex [] false true, [])
  end.

Definition Index_Size (idx : indexImpl) : Z := zlen (ix_entries idx).

(** ** Lookup is the last entry at or before the offset *)

Definition offset_le (a b : indexEntry) : Prop := ie_offset a <= ie_offset b.

(** The reference: scan for the last entry whose offset is not beyond. *)
Definition lookup_ref (entries : list indexEntry) (offset : Z) : option indexEntry :=
  last (filter (fun e => ie_offset e <= offset) entries).

Lemma sorted_lookup_le entries i j a b :
  StronglySorted offset_le entries -> (i ≤ j)%nat ->
  entries !! i = Some a -> entries !! j = Some b -> ie_offset a <= ie_offset b.
Proof.
  intros Hs. revert i j. induction Hs as [|x l Hs IH Hf]; intros i j Hij Ha Hb; [done|].
  destruct i as [|i], j as [|j]; simpl in *; simplify_eq; try lia.
  - rewrite Forall_forall in Hf. apply Hf. by eapply list_elem_of_lookup_2.
  - apply (IH i j); auto; lia.
Qed.

(** A sorted list splits at the search result. *)
Lemma lookup_ref_split entries offset (r : nat) :
  (r ≤ length entries)%nat ->
  (forall i e, entries !! i = Some e -> (i < r)%nat -> ie_offset e <= offset) ->
  (forall i e, entries !! i = Some e -> (r ≤ i)%nat -> offset < ie_offset e) ->
  filter (fun e => ie_offset e <= offset) entries = take r entries.
Proof.
  intros Hr Hlo Hhi. rewrite <- (take_drop r entries) at 1. rewrite filter_app.
  rewrite filter_all, filter_none, app_nil_r; [done| |].
  - intros e [i Hi]%list_elem_of_lookup. rewrite lookup_drop in Hi.
    specialize (Hhi _ _ Hi). lia.
  - intros e [i Hi]%list_elem_of_lookup.
    assert (i < r)%nat by (apply lookup_lt_Some in Hi; rewrite length_take in Hi; lia).
    rewrite lookup_take_lt in Hi by done. by eapply Hlo.
Qed.

Lemma Lookup_spec idx offset :
  StronglySorted offset_le (ix_entries idx) ->
  Lookup idx offset = match lookup_ref (ix_entries idx) offset with
                      | Some e => Ok (ie_position e)
                      | None => Err ErrOffsetOutOfRange
                      end.
Proof.
  intros Hs. unfold Lookup, lookup_ref. set (es := ix_entries idx) in *.
  destruct (Z.eqb_spec (zlen es) 0) as [E|E].
  { destruct es; [done|simpl in E; lia]. }
  set (f := fun i => match es !! Z.to_nat i with Some e => offset <? ie_offset e | None => false end).
  destruct (sort_Search_spec (zlen es) f ltac:(lia)) as (Hr & Hlo & Hhi).
  { intros k k' Hk Hk' Hf. unfold f in *.
    destruct (lookup_lt_is_Some_2 es (Z.to_nat k')) as [b Hb]; [lia|].
    destruct (es !! Z.to_nat k) as [a|] eqn:Ha; [|done]. rewrite Hb.
    pose proof (sorted_lookup_le es (Z.to_nat k) (Z.to_nat k') a b Hs ltac:(lia) Ha Hb).
    zbool; (done || lia). }
  set (r := sort_Search (zlen es) f) in *.
  rewrite (lookup_ref_split es offset (Z.to_nat r)); [|lia| |].
  - destruct (Z.eqb_spec r 0) as [->|Hr0]; [done|].
    rewrite last_lookup, length_take, lookup_take_lt by lia.
    replace (Init.Nat.pred (Nat.min (Z.to_nat r) (length es))) with (Z.to_nat (r - 1)) by lia.
    done.
  - intros i e He Hi. specialize (Hlo (Z.of_nat i) ltac:(lia)). unfold f in Hlo.
    rewrite Nat2Z.id, He in Hlo. zbool; (done || lia).
  - intros i e He Hi. pose proof (lookup_lt_Some _ _ _ He).
    specialize (Hhi (Z.of_nat i) ltac:(lia)). unfold f in Hhi.
    rewrite Nat2Z.id, He in Hhi. zbool; (done || lia).
Qed.

(** On a sorted index the binary search of [Lookup] returns the position
    of the last entry whose offset is not beyond the one asked for, and fails
    exactly when there is none. *)
Theorem index_lookup_last_le (idx : indexImpl) (offset : Z) :
  StronglySorted offset_le (ix_entries idx) ->
  Lookup idx offset
  = match last (filter (fun e => ie_offset e <= offset) (ix_entries idx)) with
    | Some e => Ok (ie_position e)
    | None => Err ErrOffsetOutOfRange
    end.
Proof. apply Lookup_spec. Qed.

(** ** Loading what was written *)

Definition entry_ok (e : indexEntry) : Prop := in_i64 (ie_offset e) /\ in_i64 (ie_position e).

Lemma entry_bytes_length e : length (entry_bytes e) = 16%nat.
Proof. unfold entry_bytes. by rewrite length_app, !be_enc_length. Qed.

Lemma index_bytes_length es : length (index_bytes es) = (16 * length es)%nat.
Proof.
  unfold index_bytes. induction es as [|e es IH]; [done|]. cbn [map concat length].
  rewrite length_app, entry_bytes_length, IH. lia.
Qed.

Lemma load_entries_bytes es : forall content pos rest,
  Forall entry_ok es -> at_pos content pos (index_bytes es ++ rest) ->
  load_entries (length es) content pos = Some es.
Proof.
  induction es as [|e es IH]; intros content pos rest Hok H; [done|].
  apply Forall_cons in Hok as [[Ho Hp] Hok].
  unfold index_bytes in H. cbn [map concat] in H. fold (index_bytes es) in H.
  unfold entry_bytes in H. rewrite <- !(assoc_L (++)) in H. cbn [length load_entries].
  apply at_pos_get_be in H as [-> H]. change (Z.of_nat 8) with 8 in H.
  cbn [mbind option_bind].
  apply at_pos_get_be in H as [-> H]. change (Z.of_nat 8) with 8 in H.
  cbn [mbind option_bind].
  rewrite (IH content (pos + indexEntrySize) rest); [|done|].
  2: { unfold indexEntrySize. by replace (pos + 16) with (pos + 8 + 8) by lia. }
  cbn [mbind option_bind]. change (256 ^ Z.of_nat 8) with (2 ^ 64).
  assert (forall z, in_i64 z -> wraps 64 (wrapu 64 z mod 2 ^ 64) = z) as Hw.
  { intros z Hz. unfold wrapu. rewrite Z.mod_mod by lia. by apply wraps_wrapu_64. }
  rewrite !Hw by done. by destruct e.
Qed.

Lemma load_index_bytes es :
  Forall entry_ok es -> load (index_bytes es) = Ok (mkIndex es false true).
Proof.
  intros Hok. unfold load, indexEntrySize. rewrite index_bytes_length.
  replace (Z.of_nat (16 * length es)) with (zlen es * 16) by lia.
  rewrite Z.mod_mul, Z.div_mul, Nat2Z.id by lia. cbn [negb Z.eqb].
  rewrite (load_entries_bytes es _ 0 []); [done|done|].
  rewrite app_nil_r. apply at_pos_start.
Qed.

(** An index that was synced and reopened has the same entries, marked
    clean; [Sync] itself changes no entry. *)
Theorem index_sync_load (idx : indexImpl) (content : bytes) :
  ix_open idx = true -> ix_dirty idx = true -> Forall entry_ok (ix_entries idx) ->
  let '(err, idx', content') := Sync idx content in
  err = None /\ ix_entries idx' = ix_entries idx /\ ix_dirty idx' = false
  /\ NewIndex (Some content') = Ok (mkIndex (ix_entries idx) false true, content').
Proof.
  intros Ho Hd Hok. unfold Sync. rewrite Ho, Hd. cbn.
  rewrite load_index_bytes by done. done.
Qed.

(** ** Witnesses *)

Definition sample_index : indexImpl :=
  mkIndex [mkIndexEntry 10 0; mkIndexEntry 11 40; mkIndexEntry 15 95] true true.

Lemma index_lookup_last_le_witness : Lookup sample_index 14 = Ok 40.
Proof.
  rewrite index_lookup_last_le; [reflexivity|].
  repeat constructor; unfold offset_le; simpl; lia.
Defined.

Lemma index_sync_load_witness :
  let '(err, idx', content') := Sync sample_index [] in
  err = None /\ ix_entries idx' = ix_entries sample_index /\ ix_dirty idx' = false
  /\ NewIndex (Some content') = Ok (mkIndex (ix_entries sample_index) false true, content').
Proof.
  apply index_sync_load; [reflexivity..|].
  repeat constructor; unfold in_i64; simpl; lia.
Defined.
