(* ===== verification/GoFiles.v ===== *)
(** * Files and buffered I/O: what the write-ahead log uses of [os] and [bufio]

    A file's bytes are passed to and returned by the operations; a [handle] is
    an open [os.File] with its position and whether it was opened with
    [O_APPEND].  A write through an appending handle goes to the end of the
    file, through any other handle to the handle's position, where it
    overwrites.  Reads and writes of regular files transfer all the bytes there
    are; device errors are not modelled, operations on a closed handle fail.

    [bufWriter] and the reader below follow [bufio.Writer] and [bufio.Reader]
    with their default buffer of 4096 bytes: which bytes sit in the buffer, and
    where reading ahead leaves the handle's position, is part of the model. *)

From S2P Require Import Prelude GoBytes Record.
From stdpp Require Import prelude list sorting gmap.
From Stdlib Require Import ZArith Lia Strings.Byte.

Open Scope Z_scope.

(** ** [os.File] *)

Record handle := mkHandle {
  h_pos : Z;
  h_append : bool;
  h_open : bool
}.

Definition set_pos (h : handle) (p : Z) : handle := mkHandle p (h_append h) (h_open h).

(** The file after [data] is written at [pos]; a gap is filled with zeros. *)
Definition overwrite (content : bytes) (pos : nat) (data : bytes) : bytes :=
  take pos content ++ replicate (pos - length content) x00 ++ data
  ++ drop (pos + length data) content.

Definition file_Write (h : handle) (content data : bytes)
    : option storage_error * handle * bytes :=
  if negb (h_open h) then (Some ErrClosed, h, content)
  else if h_append h
  then (None, set_pos h (zlen content + zlen data), content ++ data)
  else (None, set_pos h (h_pos h + zlen data), overwrite content (Z.to_nat (h_pos h)) data).

Definition file_Seek (h : handle) (pos : Z) : option storage_error * handle :=
  if negb (h_open h) then (Some ErrClosed, h) else (None, set_pos h pos).

Definition file_Sync (h : handle) : option storage_error :=
  if h_open h then None else Some ErrClosed.

Definition file_Close (h : handle) : option storage_error * handle :=
  if h_open h then (None, mkHandle (h_pos h) (h_append h) false) else (Some ErrClosed, h).

(** Up to [n] bytes from the handle's position. *)
Definition file_Read (h : handle) (content : bytes) (n : nat) : bytes * handle :=
  let got := take n (drop (Z.to_nat (h_pos h)) content) in
  (got, set_pos h (h_pos h + zlen got)).

(** ** [bufio.Writer] *)

Definition defaultBufSize : nat := 4096.

Record bufWriter := mkBufWriter {
  bw_buf : bytes;
  bw_err : option storage_error
}.

Definition NewWriter : bufWriter := mkBufWriter [] None.

(** A writer with its file: the state [Write] and [Flush] change. *)
Definition wstate : Type := bufWriter * handle * bytes.

Definition Flush (st : wstate) : option storage_error * wstate :=
  let '(w, h, content) := st in
  match bw_err w with
  | Some e => (Some e, st)
  | None =>
      match bw_buf w with
      | [] => (None, st)
      | buf =>
          let '(err, h, content) := file_Write h content buf in
          match err with
          | Some e => (Some e, (mkBufWriter buf (Some e), h, content))
          | None => (None, (mkBufWriter [] None, h, content))
          end
      end
  end.

(** The loop of [Write]: while [p] does not fit, fill the buffer and flush it,
    or write past an empty buffer.  The second round always finds the buffer
    empty, so three rounds are enough. *)
Fixpoint Write_loop (fuel : nat) (st : wstate) (p : bytes) : wstate * bytes :=
  match fuel with
  | O => (st, p)
  | S fuel' =>
      let '(w, h, content) := st in
      if (defaultBufSize - length (bw_buf w) <? length p)%nat
         && bool_decide (bw_err w = None) then
        match bw_buf w with
        | [] =>
            let '(err, h, content) := file_Write h content p in
            match err with
            | Some e => Write_loop fuel' (mkBufWriter [] (Some e), h, content) p
            | None => Write_loop fuel' (w, h, content) []
            end
        | buf =>
            let n := (defaultBufSize - length buf)%nat in
            let '(_, st) := Flush (mkBufWriter (buf ++ take n p) (bw_err w), h, content) in
            Write_loop fuel' st (drop n p)
        end
      else (st, p)
  end.

Definition Write (st : wstate) (p : bytes) : option storage_error * wstate :=
  let '((w, h, content), p) := Write_loop 3 st p in
  match bw_err w with
  | Some e => (Some e, (w, h, content))
  | None => (None, (mkBufWriter (bw_buf w ++ p) None, h, content))
  end.

(** ** [bufio.Reader] and [io.ReadFull] *)

(** What the reader still holds, and the handle it reads from. *)
Definition rstate : Type := bytes * handle.

(** One [Read] of at most [n] (positive) bytes: [[]] means end of file. *)
Definition buf_Read (st : rstate) (content : bytes) (n : nat) : bytes * rstate :=
  let '(rbuf, h) := st in
  match rbuf with
  | [] =>
      if (defaultBufSize <=? n)%nat then
        let '(got, h) := file_Read h content n in (got, ([], h))
      else
        let '(got, h) := file_Read h content defaultBufSize in
        (take n got, (drop n got, h))
  | _ => (take n rbuf, (drop n rbuf, h))
  end.

(** [io.ReadFull] into [n] bytes: the bytes, or [io.EOF] when there were none
    and [io.ErrUnexpectedEOF] when there were some.  Each round reads at least
    one byte or stops. *)
Fixpoint ReadFull_loop (fuel : nat) (st : rstate) (content : bytes) (n : nat) (acc : bytes)
    : result storage_error bytes * rstate :=
  match n with
  | O => (Ok acc, st)
  | _ =>
      match fuel with
      | O => (Err ErrEOF, st)
      | S fuel' =>
          let '(got, st) := buf_Read st content n in
          match got with
          | [] => (Err (if bool_decide (acc = []) then ErrEOF else ErrUnexpectedEOF), st)
          | _ => ReadFull_loop fuel' st content (n - length got) (acc ++ got)
          end
      end
  end.

Definition ReadFull (st : rstate) (content : bytes) (n : nat)
    : result storage_error bytes * rstate :=
  ReadFull_loop (S n) st content n [].

(** ** The writer appends, the reader reads on *)

(** The bytes a writer on an appending file has accepted: those in the file and
    those still in its buffer. *)
Definition flat (st : wstate) : bytes := let '(w, h, content) := st in content ++ bw_buf w.

(** A writer in working order: appending, open, no error, buffer not overfull. *)
Definition wok (st : wstate) : Prop :=
  let '(w, h, content) := st in
  h_append h = true /\ h_open h = true /\ bw_err w = None
  /\ (length (bw_buf w) ≤ defaultBufSize)%nat.

(** [content'] extends [content]: nothing in the file was overwritten. *)
Definition grows (st st' : wstate) : Prop := st.2 `prefix_of` st'.2.

Lemma grows_same w h w' h' c : grows (w, h, c) (w', h', c).
Proof. unfold grows. done. Qed.

Lemma grows_app w h c w' h' d : grows (w, h, c) (w', h', c ++ d).
Proof. unfold grows. simpl. by apply prefix_app_r. Qed.

Lemma grows_trans st1 st2 st3 : grows st1 st2 -> grows st2 st3 -> grows st1 st3.
Proof. unfold grows. apply transitivity. Qed.

#[local] Hint Resolve grows_same grows_app : storage.

Lemma Flush_ok st :
  wok st -> exists st', Flush st = (None, st') /\ wok st' /\ flat st' = flat st
    /\ bw_buf st'.1.1 = [] /\ grows st st'.
Proof.
  destruct st as [[[buf err] h] content]. intros (Ha & Ho & He & Hl). simpl in *. subst err.
  destruct buf as [|b buf].
  - eexists. split; [done|]. repeat split; auto with storage.
  - unfold file_Write. rewrite Ho, Ha. simpl. eexists. split; [done|].
    simpl. rewrite app_nil_r. repeat split; auto with storage.
Qed.

Lemma Write_loop_fits fuel w h content p :
  (length (bw_buf w) + length p ≤ defaultBufSize)%nat ->
  Write_loop fuel (w, h, content) p = ((w, h, content), p).
Proof.
  intros H. destruct fuel as [|fuel]; [done|]. cbn [Write_loop].
  destruct (Nat.ltb_spec (defaultBufSize - length (bw_buf w)) (length p)); [lia|done].
Qed.

(** With an empty buffer, data that does not fit goes straight to the file. *)
Lemma Write_loop_direct fuel h content p :
  h_append h = true -> h_open h = true -> (defaultBufSize < length p)%nat ->
  Write_loop (S (S fuel)) (mkBufWriter [] None, h, content) p
  = ((mkBufWriter [] None, set_pos h (zlen content + zlen p), content ++ p), []).
Proof.
  intros Ha Ho H. cbn [Write_loop bw_buf length bw_err].
  destruct (Nat.ltb_spec (defaultBufSize - 0) (length p)); [|lia].
  rewrite bool_decide_true by done. unfold file_Write. by rewrite Ho, Ha.
Qed.

Lemma Write_ok st p :
  wok st -> exists st', Write st p = (None, st') /\ wok st' /\ flat st' = flat st ++ p
    /\ grows st st'.
Proof.
  destruct st as [[[buf err] h] content]. intros (Ha & Ho & He & Hl). simpl in *. subst err.
  unfold Write.
  destruct (Nat.ltb_spec (defaultBufSize - length buf) (length p)) as [Hp|Hp].
  2: { rewrite Write_loop_fits by (simpl; lia). simpl. eexists. split; [done|].
       simpl. rewrite length_app, (assoc_L (++)).
       repeat split; auto with storage. }
  destruct buf as [|b buf].
  { rewrite Write_loop_direct by (simpl in *; auto; lia). simpl. eexists. split; [done|].
    simpl. rewrite !app_nil_r. repeat split; auto with storage. }
  set (bb := b :: buf) in *. set (n := (defaultBufSize - length bb)%nat).
  change (Write_loop 3 (mkBufWriter bb None, h, content) p) with
    (if (defaultBufSize - length bb <? length p)%nat
         && bool_decide ((None : option storage_error) = None) then
        let '(_, st) := Flush (mkBufWriter (bb ++ take n p) None, h, content) in
        Write_loop 2 st (drop n p)
     else ((mkBufWriter bb None, h, content), p)).
  destruct (Nat.ltb_spec (defaultBufSize - length bb) (length p)); [|lia].
  rewrite bool_decide_true by done. cbn [andb].
  unfold Flush. cbn [bw_err bw_buf]. destruct (bb ++ take n p) as [|x l] eqn:Eb; [done|].
  rewrite <- Eb. unfold file_Write. rewrite Ho, Ha. simpl (negb _). cbn iota.
  set (h1 := set_pos h _). set (c1 := content ++ bb ++ take n p).
  destruct (Nat.ltb_spec defaultBufSize (length (drop n p))) as [Hd|Hd].
  - rewrite Write_loop_direct by done. cbn [bw_err]. eexists. split; [done|]. simpl.
    rewrite !app_nil_r. split; [repeat split; auto; lia|]. unfold c1.
    split; [by rewrite <- !(assoc_L (++)), take_drop|].
    rewrite <- (assoc_L (++)). apply grows_app.
  - rewrite Write_loop_fits by (simpl; lia). cbn [bw_err]. eexists. split; [done|]. simpl.
    split; [repeat split; auto; lia|]. unfold c1.
    split; [by rewrite <- !(assoc_L (++)), take_drop|]. apply grows_app.
Qed.

(** The reader stands at [lp]: what it holds are the next bytes of the file,
    and the handle is positioned behind them. *)
Definition rok (content : bytes) (st : rstate) (lp : nat) : Prop :=
  h_pos st.2 = Z.of_nat (lp + length st.1) /\ st.1 `prefix_of` drop lp content.

Lemma prefix_take_drop (l p : bytes) n :
  p `prefix_of` l -> take n p `prefix_of` l /\ drop n p `prefix_of` drop (length (take n p)) l.
Proof.
  intros [r ->]. split.
  - rewrite <- (take_drop n p) at 2. rewrite <- (assoc_L (++)). by apply prefix_app_r.
  - rewrite length_take. rewrite drop_app_le by lia.
    destruct (decide (n ≤ length p)%nat).
    + rewrite Nat.min_l by lia. by apply prefix_app_r.
    + rewrite (drop_ge p n) by lia. apply prefix_nil.
Qed.

Lemma buf_Read_spec st content n lp :
  (0 < n)%nat -> rok content st lp ->
  let '(got, st') := buf_Read st content n in
  got `prefix_of` drop lp content /\ (length got ≤ n)%nat
  /\ rok content st' (lp + length got) /\ (got = [] -> drop lp content = []).
Proof.
  intros Hn. destruct st as [rbuf h]. intros [Hp Hpre]. simpl in Hp, Hpre. unfold buf_Read.
  destruct rbuf as [|b rbuf].
  2: { destruct (prefix_take_drop _ _ n Hpre) as [H1 H2]. rewrite drop_drop in H2.
       split; [done|]. split; [rewrite length_take; lia|]. split; [split; simpl|].
       - rewrite Hp. cbn [length]. rewrite length_take, length_drop. simpl length. lia.
       - done.
       - destruct n; [lia|done]. }
  assert (Z.to_nat (h_pos h) = lp) as Hlp by (simpl in Hp; lia).
  unfold file_Read. rewrite Hlp. set (rest := drop lp content) in *.
  assert (forall k, (0 < k)%nat -> take k rest = [] -> rest = []) as Hnil
    by (intros k Hk Ht; destruct rest, k; [done..|lia|done]).
  destruct (Nat.leb_spec defaultBufSize n).
  - split; [apply prefix_take|]. split; [rewrite length_take; lia|].
    split; [|by apply Hnil]. split; simpl; [|apply prefix_nil].
    rewrite Hp. simpl. lia.
  - assert (take n (take defaultBufSize rest) = take n rest) as E
      by (rewrite take_take; f_equal; lia).
    rewrite E. split; [apply prefix_take|]. split; [rewrite length_take; lia|].
    split; [|by apply Hnil]. split; simpl.
    + rewrite Hp. simpl. rewrite length_drop, !length_take. lia.
    + rewrite <- E, <- drop_drop. apply prefix_take_drop. apply prefix_take.
Qed.

Lemma ReadFull_loop_spec content : forall fuel n st lp acc,
  (n < fuel)%nat -> rok content st lp ->
  let rest := drop lp content in
  if decide (n ≤ length rest)%nat then
    exists st', ReadFull_loop fuel st content n acc = (Ok (acc ++ take n rest), st')
      /\ rok content st' (lp + n)
  else
    exists st', ReadFull_loop fuel st content n acc
      = (Err (if bool_decide (acc ++ rest = []) then ErrEOF else ErrUnexpectedEOF), st').
Proof.
  induction fuel as [|fuel IH]; intros n st lp acc Hn Hst rest; [lia|].
  destruct n as [|n]; cbn [ReadFull_loop].
  { rewrite decide_True by lia. exists st. rewrite take_0, app_nil_r, Nat.add_0_r. done. }
  pose proof (buf_Read_spec st content (S n) lp ltac:(lia) Hst) as H.
  destruct (buf_Read st content (S n)) as [got st1]. destruct H as (Hpre & Hlen & Hst1 & Hnil).
  destruct got as [|b got].
  { rewrite decide_False by (unfold rest; rewrite Hnil by done; simpl; lia).
    exists st1. unfold rest. by rewrite Hnil, app_nil_r. }
  set (g := b :: got) in *. assert (0 < length g)%nat by (unfold g; simpl; lia).
  destruct Hpre as [tail Htail]. fold rest in Htail.
  assert (drop (lp + length g) content = tail) as Hd
    by (rewrite <- drop_drop; fold rest; rewrite Htail; apply drop_app_length).
  specialize (IH (S n - length g)%nat st1 (lp + length g)%nat (acc ++ g) ltac:(lia) Hst1).
  cbv zeta in IH. rewrite Hd in IH.
  assert (length rest = length g + length tail)%nat as Hlr by (rewrite Htail; apply length_app).
  destruct (decide (S n ≤ length rest)%nat).
  - rewrite decide_True in IH by lia. destruct IH as (st' & -> & Hst'). exists st'.
    split; [|by replace (lp + S n)%nat with (lp + length g + (S n - length g))%nat by lia].
    rewrite Htail, take_app_ge, (assoc_L (++)) by lia. done.
  - rewrite decide_False in IH by lia. destruct IH as (st' & ->). exists st'.
    by rewrite Htail, (assoc_L (++)).
Qed.

Lemma ReadFull_spec content n st lp :
  rok content st lp ->
  let rest := drop lp content in
  if decide (n ≤ length rest)%nat then
    exists st', ReadFull st content n = (Ok (take n rest), st') /\ rok content st' (lp + n)
  else
    exists st', ReadFull st content n
      = (Err (if bool_decide (rest = []) then ErrEOF else ErrUnexpectedEOF), st').
Proof.
  intros H. unfold ReadFull. apply (ReadFull_loop_spec content (S n) n st lp []); [lia|done].
Qed.

(** Reading moves a handle and changes nothing else of it. *)
Definition same_mode (h h' : handle) : Prop :=
  h_open h' = h_open h /\ h_append h' = h_append h.

#[export] Instance same_mode_preorder : PreOrder same_mode.
Proof.
  split; [by intros h|]. intros a b c [H1 H2] [H3 H4]. split; congruence.
Qed.

Lemma buf_Read_mode st content n : same_mode st.2 (buf_Read st content n).2.2.
Proof.
  destruct st as [[|b rbuf] h]; unfold buf_Read, file_Read; [|done].
  by destruct (defaultBufSize <=? n)%nat.
Qed.

Lemma ReadFull_loop_mode content : forall fuel st n acc,
  same_mode st.2 (ReadFull_loop fuel st content n acc).2.2.
Proof.
  induction fuel as [|fuel IH]; intros st [|n] acc; cbn [ReadFull_loop]; try done.
  pose proof (buf_Read_mode st content (S n)) as Hm.
  destruct (buf_Read st content (S n)) as [[|b got] st1]; [done|].
  etrans; [exact Hm|]. apply IH.
Qed.

Lemma ReadFull_mode st content n : same_mode st.2 (ReadFull st content n).2.2.
Proof. apply ReadFull_loop_mode. Qed.
