(* ===== verification/Wal.v ===== *)
(** * The write-ahead log (pkg/storage/wal.go)

    A directory of segment files named after their base offset, each with an
    index file; [walImpl] holds pointers to the open segments, of which
    [currentSegment] is one, so segments live in a store and are shared.  Each
    operation runs under the log's lock and is one step here; the fsync ticker
    calls [Sync] at arbitrary moments, which is an interleaved [WAL_Sync] step.
    [None] is a nil dereference. *)

From S2P Require Import Prelude GoBytes Record Index GoFiles.
From stdpp Require Import prelude list sorting gmap.
From Stdlib Require Import ZArith Lia Strings.Byte.

Open Scope Z_scope.

(** ** Data *)

Record walSegment := mkSegment {
  s_baseOffset : Z;
  s_nextOffset : Z;
  s_size : Z;
  s_file : handle;
  s_writer : bufWriter;
  s_index : indexImpl
}.

(** The directory: the contents of the segment files and of the index files, by
    the base offset their names carry. *)
Record walDir := mkDir {
  d_wal : gmap Z bytes;
  d_index : gmap Z bytes
}.

Inductive FsyncPolicy := FsyncAlways | FsyncInterval | FsyncNever.

#[export] Instance FsyncPolicy_eq_dec : EqDecision FsyncPolicy.
Proof. solve_decision. Defined.

Record WALConfig := mkWALConfig { c_SegmentSize : Z; c_FsyncPolicy : FsyncPolicy }.

Record walImpl := mkWal {
  w_config : WALConfig;
  w_dir : walDir;
  w_store : gmap nat walSegment;     (* the segment structs allocated so far *)
  w_fresh : nat;
  w_currentSegment : option nat;
  w_segments : list nat;
  w_nextOffset : Z;
  w_closed : bool
}.

Definition recordHeaderSize : Z := 16.

(** ** Segments *)

Definition record_header (offset : Z) (data : bytes) : bytes :=
  be_enc 4 (wrapu 32 (zlen data)) ++ be_enc 8 (wrapu 64 offset) ++ be_enc 4 (crc32c data).

(** A segment and the content of its file with the writer's state replaced. *)
Definition with_writer (s : walSegment) (st : wstate) : walSegment * bytes :=
  let '(w, h, content) := st in
  (mkSegment (s_baseOffset s) (s_nextOffset s) (s_size s) h w (s_index s), content).

Definition seg_wstate (s : walSegment) (content : bytes) : wstate :=
  (s_writer s, s_file s, content).

(** [walSegment.append]: the error, the segment and the file's content. *)
Definition seg_append (s : walSegment) (content : bytes) (offset : Z) (data : bytes)
    : option storage_error * (walSegment * bytes) :=
  let length := wrapu 32 (zlen data) in
  let position := s_size s in
  let '(err, st) := Write (seg_wstate s content) (record_header offset data) in
  match err with
  | Some e => (Some e, with_writer s st)
  | None =>
      let '(err, st) := Write st data in
      match err with
      | Some e => (Some e, with_writer s st)
      | None =>
          let '(w, h, content) := st in
          (None, (mkSegment (s_baseOffset s) (offset + 1)
                    (s_size s + wrapu 32 (recordHeaderSize + length)) h w
                    (Index.Add (s_index s) offset position), content))
      end
  end.

(** The scanning loop of [walSegment.read].  Each round consumes a record
    header, so the file's length bounds the number of rounds. *)
Fixpoint read_loop (fuel : nat) (st : rstate) (content : bytes) (offset : Z)
    : result storage_error bytes * rstate :=
  match fuel with
  | O => (Err ErrEOF, st)
  | S fuel' =>
      match ReadFull st content 16 with
      | (Err ErrEOF, st) => (Err ErrOffsetOutOfRange, st)
      | (Err e, st) => (Err e, st)
      | (Ok header, st) =>
          let length := be_dec (take 4 header) in
          let recordOffset := wraps 64 (be_dec (take 8 (drop 4 header))) in
          let crc := be_dec (drop 12 header) in
          match ReadFull st content (Z.to_nat length) with
          | (Err e, st) => (Err e, st)
          | (Ok data, st) =>
              if recordOffset =? offset then
                if crc32c data =? crc then (Ok data, st) else (Err ErrChecksumMismatch, st)
              else if offset <? recordOffset then (Err ErrOffsetOutOfRange, st)
              else read_loop fuel' st content offset
          end
      end
  end.

Definition set_file (s : walSegment) (h : handle) : walSegment :=
  mkSegment (s_baseOffset s) (s_nextOffset s) (s_size s) h (s_writer s) (s_index s).

(** [walSegment.read]: reads through the file, not through the writer's
    buffer, and leaves the shared handle where the reader stopped. *)
Definition seg_read (s : walSegment) (content : bytes) (offset : Z)
    : result storage_error bytes * walSegment :=
  if (offset <? s_baseOffset s) || (s_nextOffset s <=? offset)
  then (Err ErrOffsetOutOfRange, s)
  else
    let position := match Index.Lookup (s_index s) offset with Ok p => p | Err _ => 0 end in
    match file_Seek (s_file s) position with
    | (Some e, h) => (Err e, set_file s h)
    | (None, h) =>
        let '(r, (_, h)) := read_loop (S (length content)) ([], h) content offset in
        (r, set_file s h)
    end.

(** [walSegment.sync], with the contents of the segment and index files. *)
Definition seg_sync (s : walSegment) (content icontent : bytes)
    : option storage_error * walSegment * bytes * bytes :=
  let '(err, st) := Flush (seg_wstate s content) in
  let '(s, content) := with_writer s st in
  match err with
  | Some e => (Some e, s, content, icontent)
  | None =>
      match file_Sync (s_file s) with
      | Some e => (Some e, s, content, icontent)
      | None =>
          let '(err, idx, icontent) := Index.Sync (s_index s) icontent in
          (err, mkSegment (s_baseOffset s) (s_nextOffset s) (s_size s) (s_file s)
                  (s_writer s) idx, content, icontent)
      end
  end.

(** [walSegment.close] *)
Definition seg_close (s : walSegment) (content icontent : bytes)
    : option storage_error * walSegment * bytes * bytes :=
  let '(err, st) := Flush (seg_wstate s content) in
  let '(s, content) := with_writer s st in
  match err with
  | Some e => (Some e, s, content, icontent)
  | None =>
      let '(err, h) := file_Close (s_file s) in
      match err with
      | Some e => (Some e, set_file s h, content, icontent)
      | None =>
          let '(err, idx, icontent) := Index.Close (s_index s) icontent in
          (err, mkSegment (s_baseOffset s) (s_nextOffset s) (s_size s) h (s_writer s) idx,
           content, icontent)
      end
  end.

(** The loop of [walSegment.scan] from [position]: the next offset, the index
    and the end position, or the error of a record cut short. *)
Fixpoint scan_loop (fuel : nat) (content : bytes) (position nextOffset : Z) (idx : indexImpl)
    : result storage_error (Z * indexImpl * Z) :=
  let rest := drop (Z.to_nat position) content in
  match fuel with
  | O => Err ErrEOF
  | S fuel' =>
      if bool_decide (rest = []) then Ok (nextOffset, idx, position)
      else if zlen rest <? recordHeaderSize then Err ErrUnexpectedEOF
      else
        let length := be_dec (take 4 rest) in
        let offset := wraps 64 (be_dec (take 8 (drop 4 rest))) in
        let idx := if Index_Size idx =? 0 then Index.Add idx offset position else idx in
        if zlen rest <? recordHeaderSize + length then Err ErrEOF
        else scan_loop fuel' content (position + recordHeaderSize + length) (offset + 1) idx
  end.

(** [walSegment.scan]: reads to the end of the file, which leaves the handle
    there. *)
Definition seg_scan (s : walSegment) (content icontent : bytes)
    : result storage_error (walSegment * bytes) :=
  match scan_loop (S (length content)) content 0 (s_nextOffset s) (s_index s) with
  | Err e => Err e
  | Ok (next, idx, position) =>
      let '(err, idx, icontent) := Index.Sync idx icontent in
      match err with
      | Some e => Err e
      | None =>
          Ok (mkSegment (s_baseOffset s) next position (set_pos (s_file s) (zlen content))
                (s_writer s) idx, icontent)
      end
  end.

(** [createWALSegment]: the file is opened for appending and kept if it is
    already there. *)
Definition createWALSegment (d : walDir) (baseOffset : Z)
    : result storage_error (walSegment * walDir) :=
  let content := default [] (d_wal d !! baseOffset) in
  let d_wal' := <[baseOffset := content]> (d_wal d) in
  match NewIndex (d_index d !! baseOffset) with
  | Err e => Err e
  | Ok (idx, icontent) =>
      Ok (mkSegment baseOffset baseOffset 0 (mkHandle 0 true true) NewWriter idx,
          mkDir d_wal' (<[baseOffset := icontent]> (d_index d)))
  end.

(** [openWALSegment]: the file is opened without [O_APPEND] and scanned. *)
Definition openWALSegment (d : walDir) (baseOffset : Z)
    : result storage_error (walSegment * walDir) :=
  let content := default [] (d_wal d !! baseOffset) in
  match NewIndex (d_index d !! baseOffset) with
  | Err e => Err e
  | Ok (idx, icontent) =>
      let s := mkSegment baseOffset baseOffset 0 (mkHandle 0 false true) NewWriter idx in
      match seg_scan s content icontent with
      | Err e => Err e
      | Ok (s, icontent) => Ok (s, mkDir (d_wal d) (<[baseOffset := icontent]> (d_index d)))
      end
  end.

(** ** The log of segments *)

Definition set_dir (w : walImpl) (d : walDir) : walImpl :=
  mkWal (w_config w) d (w_store w) (w_fresh w) (w_currentSegment w) (w_segments w)
    (w_nextOffset w) (w_closed w).

(** Store back segment [l] and the contents of its files; a file that was
    removed from the directory does not come back. *)
Definition put_seg (w : walImpl) (l : nat) (s : walSegment) (content icontent : bytes)
    : walImpl :=
  mkWal (w_config w)
    (mkDir (alter (fun _ => content) (s_baseOffset s) (d_wal (w_dir w)))
           (alter (fun _ => icontent) (s_baseOffset s) (d_index (w_dir w))))
    (<[l := s]> (w_store w)) (w_fresh w) (w_currentSegment w) (w_segments w)
    (w_nextOffset w) (w_closed w).

Definition content_of (w : walImpl) (s : walSegment) : bytes :=
  default [] (d_wal (w_dir w) !! s_baseOffset s).
Definition icontent_of (w : walImpl) (s : walSegment) : bytes :=
  default [] (d_index (w_dir w) !! s_baseOffset s).

Definition sync_seg (w : walImpl) (l : nat) : option (option storage_error * walImpl) :=
  s ← w_store w !! l;
  let '(err, s, content, icontent) := seg_sync s (content_of w s) (icontent_of w s) in
  Some (err, put_seg w l s content icontent).

Definition rollSegment (w : walImpl) : option (option storage_error * walImpl) :=
  '(err, w) ← (match w_currentSegment w with
               | None => Some (None, w)
               | Some l => sync_seg w l
               end);
  match err with
  | Some e => Some (Some e, w)
  | None =>
      match createWALSegment (w_dir w) (w_nextOffset w) with
      | Err e => Some (Some e, w)
      | Ok (s, d) =>
          let l := w_fresh w in
          Some (None, mkWal (w_config w) d (<[l := s]> (w_store w)) (S l) (Some l)
                        (w_segments w ++ [l]) (w_nextOffset w) (w_closed w))
      end
  end.

(** [w.currentSegment == nil || w.currentSegment.size >= w.config.SegmentSize] *)
Definition needs_roll (w : walImpl) : option bool :=
  match w_currentSegment w with
  | None => Some true
  | Some l => s ← w_store w !! l; Some (c_SegmentSize (w_config w) <=? s_size s)
  end.

Definition set_nextOffset (w : walImpl) (o : Z) : walImpl :=
  mkWal (w_config w) (w_dir w) (w_store w) (w_fresh w) (w_currentSegment w) (w_segments w)
    o (w_closed w).

(** [Append] once the current segment is the one to write to. *)
Definition append_tail (w : walImpl) (data : bytes) : option (result storage_error Z * walImpl) :=
  l ← w_currentSegment w;
  s ← w_store w !! l;
  let offset := w_nextOffset w in
  let '(err, (s, content)) := seg_append s (content_of w s) offset data in
  let w := put_seg w l s content (icontent_of w s) in
  match err with
  | Some e => Some (Err e, w)
  | None =>
      let w := set_nextOffset w (offset + 1) in
      if bool_decide (c_FsyncPolicy (w_config w) = FsyncAlways) then
        '(err, w) ← sync_seg w l;
        match err with
        | Some e => Some (Err e, w)
        | None => Some (Ok offset, w)
        end
      else Some (Ok offset, w)
  end.

Definition WAL_Append (w : walImpl) (data : bytes)
    : option (result storage_error Z * walImpl) :=
  if w_closed w then Some (Err ErrLogClosed, w)
  else
    roll ← needs_roll w;
    '(err, w) ← (if (roll : bool) then rollSegment w else Some (None, w));
    match err with
    | Some e => Some (Err e, w)
    | None => append_tail w data
    end.

(** The binary search of [findSegment]; the interval shrinks every round. *)
Fixpoint findSegment_loop (fuel : nat) (w : walImpl) (offset left right : Z)
    : option (option nat) :=
  match fuel with
  | O => Some None
  | S fuel' =>
      if left <=? right then
        let mid := (left + right) / 2 in
        l ← w_segments w !! Z.to_nat mid;
        seg ← w_store w !! l;
        if offset <? s_baseOffset seg then findSegment_loop fuel' w offset left (mid - 1)
        else if s_nextOffset seg <=? offset
        then findSegment_loop fuel' w offset (mid + 1) right
        else Some (Some l)
      else Some None
  end.

Definition findSegment (w : walImpl) (offset : Z) : option (option nat) :=
  findSegment_loop (S (length (w_segments w))) w offset 0 (zlen (w_segments w) - 1).

Definition WAL_Read (w : walImpl) (offset : Z)
    : option (result storage_error bytes * walImpl) :=
  if w_closed w then Some (Err ErrLogClosed, w)
  else
    seg ← findSegment w offset;
    match seg with
    | None => Some (Err ErrOffsetOutOfRange, w)
    | Some l =>
        s ← w_store w !! l;
        let content := content_of w s in
        let '(r, s) := seg_read s content offset in
        Some (r, put_seg w l s content (icontent_of w s))
    end.

Definition WAL_Sync (w : walImpl) : option (option storage_error * walImpl) :=
  if w_closed w then Some (Some ErrLogClosed, w)
  else match w_currentSegment w with
       | None => Some (None, w)
       | Some l => sync_seg w l
       end.

Definition set_segments (w : walImpl) (segs : list nat) : walImpl :=
  mkWal (w_config w) (w_dir w) (w_store w) (w_fresh w) (w_currentSegment w) segs
    (w_nextOffset w) (w_closed w).

(** [seg.close()], whose error the callers ignore. *)
Definition close_seg (w : walImpl) (l : nat) : option walImpl :=
  s ← w_store w !! l;
  let '(_, s, content, icontent) := seg_close s (content_of w s) (icontent_of w s) in
  Some (put_seg w l s content icontent).

(** [os.Remove(seg.path)]: the segment file; its index file stays. *)
Definition remove_file (w : walImpl) (baseOffset : Z) : walImpl :=
  set_dir w (mkDir (delete baseOffset (d_wal (w_dir w))) (d_index (w_dir w))).

Fixpoint truncate_loop (w : walImpl) (beforeOffset : Z) (segs toKeep : list nat)
    : option (walImpl * list nat) :=
  match segs with
  | [] => Some (w, toKeep)
  | l :: segs' =>
      s ← w_store w !! l;
      if beforeOffset <=? s_baseOffset s
      then truncate_loop w beforeOffset segs' (toKeep ++ [l])
      else
        w ← close_seg w l;
        truncate_loop (remove_file w (s_baseOffset s)) beforeOffset segs' toKeep
  end.

Definition WAL_Truncate (w : walImpl) (beforeOffset : Z)
    : option (option storage_error * walImpl) :=
  if w_closed w then Some (Some ErrLogClosed, w)
  else
    '(w, toKeep) ← truncate_loop w beforeOffset (w_segments w) [];
    Some (None, set_segments w toKeep).

Definition NextOffset (w : walImpl) : Z := w_nextOffset w.

Fixpoint close_all (w : walImpl) (segs : list nat) : option walImpl :=
  match segs with
  | [] => Some w
  | l :: segs' => w ← close_seg w l; close_all w segs'
  end.

Definition WAL_Close (w : walImpl) : option walImpl :=
  if w_closed w then Some w
  else
    close_all (mkWal (w_config w) (w_dir w) (w_store w) (w_fresh w) (w_currentSegment w)
                 (w_segments w) (w_nextOffset w) true) (w_segments w).

(** The segment files in the order [filepath.Glob] lists them: by name, which
    for the zero-padded names of non-negative offsets is by offset. *)
Definition wal_files (d : walDir) : list Z := merge_sort Z.le (map_to_list (d_wal d)).*1.

Fixpoint open_all (w : walImpl) (files : list Z) : result storage_error walImpl :=
  match files with
  | [] => Ok w
  | base :: files' =>
      match openWALSegment (w_dir w) base with
      | Err e => Err e
      | Ok (s, d) =>
          let l := w_fresh w in
          open_all (mkWal (w_config w) d (<[l := s]> (w_store w)) (S l) (w_currentSegment w)
                      (w_segments w ++ [l]) (w_nextOffset w) (w_closed w)) files'
      end
  end.

Definition NewWAL (d : walDir) (config : WALConfig) : option (result storage_error walImpl) :=
  let w := mkWal config d ∅ 0 None [] 0 false in
  match wal_files d with
  | [] =>
      '(err, w) ← rollSegment w;
      Some (match err with Some e => Err e | None => Ok w end)
  | files =>
      match open_all w files with
      | Err e => Some (Err e)
      | Ok w =>
          l ← last (w_segments w);
          s ← w_store w !! l;
          Some (Ok (mkWal (w_config w) (w_dir w) (w_store w) (w_fresh w) (Some l)
                      (w_segments w) (s_nextOffset s) (w_closed w)))
      end
  end.

(** ** What a segment file holds *)

Definition record_bytes (offset : Z) (data : bytes) : bytes := record_header offset data ++ data.

(** The records [ds] with consecutive offsets from [base]. *)
Fixpoint seg_bytes (base : Z) (ds : list bytes) : bytes :=
  match ds with
  | [] => []
  | d :: ds' => record_bytes base d ++ seg_bytes (base + 1) ds'
  end.

(** A payload whose record length fits the 32-bit length field. *)
Definition data_ok (d : bytes) : Prop := zlen d < 2 ^ 32 - 16.

Lemma record_header_length o d : length (record_header o d) = 16%nat.
Proof. unfold record_header. by rewrite !length_app, !be_enc_length. Qed.

Lemma record_bytes_length o d : length (record_bytes o d) = (16 + length d)%nat.
Proof. unfold record_bytes. by rewrite length_app, record_header_length. Qed.

Lemma seg_bytes_app base ds1 ds2 :
  seg_bytes base (ds1 ++ ds2) = seg_bytes base ds1 ++ seg_bytes (base + zlen ds1) ds2.
Proof.
  revert base. induction ds1 as [|d ds1 IH]; intros base; cbn [app seg_bytes].
  { by rewrite Z.add_0_r. }
  rewrite IH, <- (assoc_L (++)). do 2 f_equal. cbn [length]. f_equal. lia.
Qed.

Lemma seg_bytes_split base ds i d :
  ds !! i = Some d ->
  seg_bytes base ds = seg_bytes base (take i ds) ++ record_bytes (base + Z.of_nat i) d
                      ++ seg_bytes (base + Z.of_nat i + 1) (drop (S i) ds).
Proof.
  intros H. rewrite <- (take_drop_middle ds i d H) at 1.
  rewrite seg_bytes_app. cbn [seg_bytes]. pose proof (lookup_lt_Some _ _ _ H).
  rewrite length_take, Nat.min_l by lia. done.
Qed.

(** The file position of record [i]. *)
Definition rec_pos (base : Z) (ds : list bytes) (i : nat) : nat :=
  length (seg_bytes base (take i ds)).

Lemma rec_pos_S base ds i d :
  ds !! i = Some d -> rec_pos base ds (S i) = (rec_pos base ds i + 16 + length d)%nat.
Proof.
  intros H. unfold rec_pos. rewrite (take_S_r _ _ _ H), seg_bytes_app, length_app.
  cbn [seg_bytes]. rewrite app_nil_r, record_bytes_length. lia.
Qed.

Lemma rec_pos_mono base ds i j :
  (i ≤ j)%nat -> (rec_pos base ds i ≤ rec_pos base ds j)%nat.
Proof.
  intros H. unfold rec_pos. replace j with (i + (j - i))%nat by lia.
  rewrite <- take_take_drop, seg_bytes_app, length_app. lia.
Qed.

Lemma rec_pos_len base ds i : (i ≤ rec_pos base ds i)%nat \/ (length ds < i)%nat.
Proof.
  destruct (decide (length ds < i)%nat); [by right|left].
  induction i as [|i IH]; [lia|].
  destruct (lookup_lt_is_Some_2 ds i) as [d Hd]; [lia|].
  rewrite (rec_pos_S _ _ _ _ Hd). lia.
Qed.

(** The fields the reader takes from a header. *)
Lemma record_header_fields o d :
  in_i64 o -> data_ok d ->
  be_dec (take 4 (record_header o d)) = zlen d
  /\ wraps 64 (be_dec (take 8 (drop 4 (record_header o d)))) = o
  /\ be_dec (drop 12 (record_header o d)) = crc32c d.
Proof.
  intros Ho Hd. unfold record_header, data_ok in *.
  set (a := be_enc 4 (wrapu 32 (zlen d))). set (b := be_enc 8 (wrapu 64 o)).
  set (c := be_enc 4 (crc32c d)).
  assert (length a = 4)%nat as La by apply be_enc_length.
  assert (length b = 8)%nat as Lb by apply be_enc_length.
  assert (take 4 (a ++ b ++ c) = a) as -> by (rewrite <- La; apply take_app_length).
  assert (drop 4 (a ++ b ++ c) = b ++ c) as Ed by (rewrite <- La; apply drop_app_length).
  rewrite Ed. assert (take 8 (b ++ c) = b) as -> by (rewrite <- Lb; apply take_app_length).
  assert (drop 12 (a ++ b ++ c) = c) as ->.
  { change 12%nat with (4 + 8)%nat. rewrite <- drop_drop, Ed, <- Lb. apply drop_app_length. }
  unfold a, b, c. rewrite !be_dec_enc. change (256 ^ Z.of_nat 4) with (2 ^ 32).
  change (256 ^ Z.of_nat 8) with (2 ^ 64). unfold wrapu.
  rewrite !Z.mod_mod by lia. split; [apply Z.mod_small; lia|].
  split; [by apply wraps_wrapu_64|]. apply Z.mod_small, crc32c_range.
Qed.

(** ** Reading a record back *)

Section read.
Context (content : bytes) (base : Z) (ds : list bytes) (buf extra : bytes).
Context (Hflat : content ++ buf = seg_bytes base ds ++ extra).
Context (Hds : Forall data_ok ds) (Hlo : 0 <= base) (Hhi : base + zlen ds < 2 ^ 63).

Lemma rest_at j d :
  ds !! j = Some d ->
  exists tail, drop (rec_pos base ds j) (content ++ buf)
    = record_bytes (base + Z.of_nat j) d ++ tail.
Proof.
  intros H. eexists. rewrite Hflat, (seg_bytes_split _ _ _ _ H).
  unfold rec_pos. rewrite <- !(assoc_L (++)). apply drop_app_length.
Qed.

(** One round of the loop on record [j] when it is all in the file. *)
Lemma read_round j d st :
  ds !! j = Some d -> (rec_pos base ds (S j) ≤ length content)%nat ->
  rok content st (rec_pos base ds j) ->
  exists st1 st2,
    ReadFull st content 16 = (Ok (record_header (base + Z.of_nat j) d), st1)
    /\ ReadFull st1 content (length d) = (Ok d, st2)
    /\ rok content st2 (rec_pos base ds (S j)).
Proof.
  intros Hd Hin Hst. destruct (rest_at j d Hd) as [tail Ht].
  rewrite (rec_pos_S _ _ _ _ Hd) in Hin |- *. set (p := rec_pos base ds j) in *.
  rewrite drop_app_le in Ht by lia. unfold record_bytes in Ht.
  set (hd := record_header (base + Z.of_nat j) d) in *.
  assert (length hd = 16)%nat as Lh by apply record_header_length.
  assert (take 16 (drop p content) = hd) as E1.
  { apply (f_equal (take 16)) in Ht. rewrite take_app_le in Ht by (rewrite length_drop; lia).
    rewrite Ht, <- (assoc_L (++)), <- Lh. apply take_app_length. }
  assert (take (length d) (drop (p + 16) content) = d) as E2.
  { apply (f_equal (drop 16)) in Ht. rewrite drop_app_le in Ht by (rewrite length_drop; lia).
    rewrite drop_drop in Ht. apply (f_equal (take (length d))) in Ht.
    rewrite take_app_le in Ht by (rewrite length_drop; lia).
    rewrite Ht, <- (assoc_L (++)), <- Lh, drop_app_length. apply take_app_length. }
  pose proof (ReadFull_spec content 16 st p Hst) as H1. cbv zeta in H1.
  rewrite decide_True in H1 by (rewrite length_drop; lia).
  destruct H1 as (st1 & H1 & Hst1). rewrite E1 in H1.
  pose proof (ReadFull_spec content (length d) st1 (p + 16) Hst1) as H2. cbv zeta in H2.
  rewrite decide_True in H2 by (rewrite length_drop; lia).
  destruct H2 as (st2 & H2 & Hst2). rewrite E2 in H2. eauto 10.
Qed.

(** From any earlier record the loop reaches record [i] and returns it. *)
Lemma read_loop_found i d : forall n j fuel st,
  ds !! i = Some d -> (rec_pos base ds (S i) ≤ length content)%nat ->
  (j + n = i)%nat -> (n < fuel)%nat -> rok content st (rec_pos base ds j) ->
  exists st', read_loop fuel st content (base + Z.of_nat i) = (Ok d, st').
Proof.
  induction n as [|n IH]; intros j fuel st Hd Hin Hj Hf Hst;
    (destruct fuel as [|fuel]; [lia|]); cbn [read_loop];
    pose proof (lookup_lt_Some _ _ _ Hd) as Hi.
  - assert (j = i) as -> by lia.
    destruct (read_round i d st Hd Hin Hst) as (st1 & st2 & -> & E2 & Hst2).
    assert (data_ok d) as Hdo by (by eapply Forall_lookup_1).
    destruct (record_header_fields (base + Z.of_nat i) d) as (-> & -> & ->);
      [unfold in_i64; lia|done|].
    rewrite Nat2Z.id, E2, Z.eqb_refl, Z.eqb_refl. eauto.
  - destruct (lookup_lt_is_Some_2 ds j) as [dj Hdj]; [lia|].
    destruct (read_round j dj st Hdj) as (st1 & st2 & -> & E2 & Hst2); [|done|].
    { pose proof (rec_pos_mono base ds (S j) (S i) ltac:(lia)). lia. }
    assert (data_ok dj) as Hdo by (by eapply Forall_lookup_1).
    destruct (record_header_fields (base + Z.of_nat j) dj) as (-> & -> & ->);
      [unfold in_i64; lia|done|].
    rewrite Nat2Z.id, E2.
    destruct (Z.eqb_spec (base + Z.of_nat j) (base + Z.of_nat i)); [lia|].
    destruct (Z.ltb_spec (base + Z.of_nat i) (base + Z.of_nat j)); [lia|].
    eapply (IH (S j)); auto; lia.
Qed.

(** A record that is not all in the file yet cannot be read: the header or the
    payload is cut short. *)
Lemma read_round_short j d st :
  ds !! j = Some d -> (length content < rec_pos base ds (S j))%nat ->
  rok content st (rec_pos base ds j) ->
  (exists e st1, ReadFull st content 16 = (Err e, st1))
  \/ exists st1 e st2, ReadFull st content 16 = (Ok (record_header (base + Z.of_nat j) d), st1)
       /\ ReadFull st1 content (length d) = (Err e, st2).
Proof.
  intros Hd Hin Hst. destruct (rest_at j d Hd) as [tail Ht].
  rewrite (rec_pos_S _ _ _ _ Hd) in Hin. set (p := rec_pos base ds j) in *.
  pose proof (ReadFull_spec content 16 st p Hst) as H1. cbv zeta in H1.
  destruct (decide (16 ≤ length (drop p content))%nat) as [H16|H16].
  2: { left. destruct H1 as (st1 & ->). eauto. }
  right. destruct H1 as (st1 & H1 & Hst1). rewrite length_drop in H16.
  assert (take 16 (drop p content) = record_header (base + Z.of_nat j) d) as E1.
  { rewrite drop_app_le in Ht by lia. unfold record_bytes in Ht.
    pose proof (record_header_length (base + Z.of_nat j) d) as Lh.
    apply (f_equal (take 16)) in Ht. rewrite take_app_le in Ht by (rewrite length_drop; lia).
    rewrite Ht, <- (assoc_L (++)). rewrite <- Lh at 1. apply take_app_length. }
  rewrite E1 in H1. exists st1.
  pose proof (ReadFull_spec content (length d) st1 (p + 16) Hst1) as H2. cbv zeta in H2.
  rewrite decide_False in H2 by (rewrite length_drop; lia).
  destruct H2 as (st2 & ->). eauto.
Qed.

Lemma read_loop_missing i d : forall n j fuel st,
  ds !! i = Some d -> (length content < rec_pos base ds (S i))%nat ->
  (j + n = i)%nat -> rok content st (rec_pos base ds j) ->
  exists e st', read_loop fuel st content (base + Z.of_nat i) = (Err e, st').
Proof.
  induction n as [|n IH]; intros j fuel st Hd Hin Hj Hst;
    (destruct fuel as [|fuel]; [simpl; eauto|]); cbn [read_loop];
    pose proof (lookup_lt_Some _ _ _ Hd) as Hi;
    (destruct (lookup_lt_is_Some_2 ds j) as [dj Hdj]; [lia|]);
    assert (data_ok dj) as Hdo by (by eapply Forall_lookup_1);
    (destruct (record_header_fields (base + Z.of_nat j) dj) as (El & Eo & _);
      [unfold in_i64; lia|done|]).
  - assert (j = i) as -> by lia.
    destruct (read_round_short i dj st Hdj) as [(e & st1 & ->)|(st1 & e & st2 & -> & E2)];
      [lia|done|destruct e; eauto|]. rewrite El, Nat2Z.id, E2. eauto.
  - destruct (decide (rec_pos base ds (S j) ≤ length content)%nat) as [Hc|Hc].
    + destruct (read_round j dj st Hdj Hc Hst) as (st1 & st2 & -> & E2 & Hst2).
      rewrite El, Eo, Nat2Z.id, E2.
      destruct (Z.eqb_spec (base + Z.of_nat j) (base + Z.of_nat i)); [lia|].
      destruct (Z.ltb_spec (base + Z.of_nat i) (base + Z.of_nat j)); [eauto|].
      apply (IH (S j)); auto; lia.
    + destruct (read_round_short j dj st Hdj) as [(e & st1 & ->)|(st1 & e & st2 & -> & E2)];
        [lia|done|destruct e; eauto|]. rewrite El, Nat2Z.id, E2. eauto.
Qed.

(** Looking for the record behind [ds], the loop skips all of [ds]. *)
Lemma read_loop_skip : forall n j fuel st,
  (rec_pos base ds (length ds) ≤ length content)%nat ->
  (j + n = length ds)%nat -> (n ≤ fuel)%nat -> rok content st (rec_pos base ds j) ->
  exists st', read_loop fuel st content (base + zlen ds)
    = read_loop (fuel - n) st' content (base + zlen ds)
    /\ rok content st' (rec_pos base ds (length ds)).
Proof.
  induction n as [|n IH]; intros j fuel st Hin Hj Hf Hst.
  - assert (j = length ds) as -> by lia. exists st. by rewrite Nat.sub_0_r.
  - destruct fuel as [|fuel]; [lia|]. cbn [read_loop Nat.sub].
    destruct (lookup_lt_is_Some_2 ds j) as [dj Hdj]; [lia|].
    pose proof (rec_pos_mono base ds (S j) (length ds) ltac:(lia)).
    destruct (read_round j dj st Hdj ltac:(lia) Hst) as (st1 & st2 & -> & E2 & Hst2).
    assert (data_ok dj) as Hdo by (by eapply Forall_lookup_1).
    destruct (record_header_fields (base + Z.of_nat j) dj) as (-> & -> & ->);
      [unfold in_i64; lia|done|].
    rewrite Nat2Z.id, E2.
    destruct (Z.eqb_spec (base + Z.of_nat j) (base + zlen ds)); [lia|].
    destruct (Z.ltb_spec (base + zlen ds) (base + Z.of_nat j)); [lia|].
    eapply (IH (S j)); auto; lia.
Qed.
End read.

Lemma flat_nil (a b c : bytes) : a ++ b = c -> a ++ b = c ++ [].
Proof. by rewrite app_nil_r. Qed.

(** Every index entry points at a record of the segment. *)
Definition idx_sound (idx : indexImpl) (base : Z) (ds : list bytes) : Prop :=
  StronglySorted offset_le (ix_entries idx)
  /\ Forall entry_ok (ix_entries idx)
  /\ forall e, e ∈ ix_entries idx -> exists i, (i < length ds)%nat
       /\ ie_offset e = base + Z.of_nat i /\ ie_position e = Z.of_nat (rec_pos base ds i).

(** The index file of a segment, when there is one, holds such entries. *)
Definition ifile_ok (f : option bytes) (base : Z) (ds : list bytes) : Prop :=
  forall c, f = Some c -> exists es, c = index_bytes es /\ idx_sound (mkIndex es false true) base ds.

(** A segment struct [s] whose file holds [content] represents the records [ds]
    from offset [base]; the last of them may still be in the writer's buffer. *)
Record seg_ok (s : walSegment) (content : bytes) (base : Z) (ds : list bytes) : Prop := {
  so_base : s_baseOffset s = base;
  so_next : s_nextOffset s = base + zlen ds;
  so_size : s_size s = zlen (seg_bytes base ds);
  so_flat : content ++ bw_buf (s_writer s) = seg_bytes base ds;
  so_err : bw_err (s_writer s) = None;
  so_open : h_open (s_file s) = true;
  so_index : idx_sound (s_index s) base ds;
  so_iopen : ix_open (s_index s) = true;
  so_data : Forall data_ok ds;
  so_lo : 0 <= base;
  so_hi : base + zlen ds < 2 ^ 63
}.

(** The index leads to a record at or before the one asked for. *)
Lemma index_position idx base ds i :
  idx_sound idx base ds -> (i < length ds)%nat ->
  exists j, (j ≤ i)%nat /\
    match Index.Lookup idx (base + Z.of_nat i) with Ok p => p | Err _ => 0 end
    = Z.of_nat (rec_pos base ds j).
Proof.
  intros (Hs & _ & Hp) Hi. rewrite Lookup_spec by done. unfold lookup_ref.
  destruct (last _) as [e|] eqn:El.
  2: { exists 0%nat. split; [lia|done]. }
  apply last_Some in El as [l El].
  assert (e ∈ filter (fun e => ie_offset e <= base + Z.of_nat i) (ix_entries idx)) as He
    by (rewrite El; set_solver).
  apply list_elem_of_filter in He as [Hle He].
  destruct (Hp e He) as (j & Hj & Ho & ->). exists j. split; [lia|done].
Qed.

Lemma read_loop_mode content offset : forall fuel st,
  same_mode st.2 (read_loop fuel st content offset).2.2.
Proof.
  induction fuel as [|fuel IH]; intros st; cbn [read_loop]; [done|].
  pose proof (ReadFull_mode st content 16) as H1.
  destruct (ReadFull st content 16) as [[hd|e] st1]; [|by destruct e].
  pose proof (ReadFull_mode st1 content (Z.to_nat (be_dec (take 4 hd)))) as H2.
  assert (same_mode st.2 st1.2) as H1' by exact H1.
  destruct (ReadFull st1 content (Z.to_nat (be_dec (take 4 hd)))) as [[data|e] st2];
    [|by etrans].
  assert (same_mode st.2 st2.2) as H2' by (by etrans).
  destruct (_ =? _); [by destruct (_ =? _)|]. destruct (_ <? _); [done|].
  by etrans; [|apply IH].
Qed.

(** Reading a record of a segment: the payload when it is all in the file, an
    error when part of it is still in the writer's buffer; only the handle's
    position changes. *)
Lemma seg_read_spec s content base ds i d :
  seg_ok s content base ds -> ds !! i = Some d ->
  exists r h', seg_read s content (base + Z.of_nat i) = (r, set_file s h')
    /\ same_mode (s_file s) h'
    /\ if decide (rec_pos base ds (S i) ≤ length content)%nat then r = Ok d
       else exists e, r = Err e.
Proof.
  intros [Hb Hn Hsz Hfl He Ho Hix Hio Hd Hlo Hhi] Hi.
  pose proof (lookup_lt_Some _ _ _ Hi) as Hlt. unfold seg_read. rewrite Hb, Hn.
  destruct (Z.ltb_spec (base + Z.of_nat i) base); [lia|].
  destruct (Z.leb_spec (base + zlen ds) (base + Z.of_nat i)); [lia|]. cbn [orb].
  destruct (index_position _ _ _ i Hix Hlt) as (j & Hj & ->).
  unfold file_Seek. rewrite Ho. cbn [negb].
  set (h0 := set_pos (s_file s) _).
  assert (rok content ([], h0) (rec_pos base ds j)) as Hst.
  { split; simpl; [by rewrite Nat.add_0_r|apply prefix_nil]. }
  pose proof (read_loop_mode content (base + Z.of_nat i) (S (length content)) ([], h0)) as Hm.
  destruct (decide (rec_pos base ds (S i) ≤ length content)%nat) as [Hc|Hc].
  - destruct (read_loop_found content base ds _ _ (flat_nil _ _ _ Hfl) Hd Hlo Hhi i d (i - j) j
      (S (length content)) ([], h0)) as (st' & E); [done|done|lia| |done|].
    { pose proof (rec_pos_len base ds (S i)). lia. }
    rewrite E in Hm |- *. destruct st' as [rb h']. by exists (Ok d), h'.
  - destruct (read_loop_missing content base ds _ _ (flat_nil _ _ _ Hfl) Hd Hlo Hhi i d (i - j) j
      (S (length content)) ([], h0)) as (e & st' & E); [done|lia|lia|done|].
    rewrite E in Hm |- *. destruct st' as [rb h']. exists (Err e), h'. eauto.
Qed.

(** ** Appending and syncing a segment *)

(** The segment's writer appends to its file. *)
Definition seg_live (s : walSegment) (content : bytes) : Prop := wok (seg_wstate s content).

Lemma rec_pos_app base ds d i :
  (i ≤ length ds)%nat -> rec_pos base (ds ++ [d]) i = rec_pos base ds i.
Proof. intros H. unfold rec_pos. by rewrite take_app_le by done. Qed.

Lemma rec_pos_full base ds : rec_pos base ds (length ds) = length (seg_bytes base ds).
Proof. unfold rec_pos. by rewrite take_ge. Qed.

Lemma idx_sound_extend idx base ds d : idx_sound idx base ds -> idx_sound idx base (ds ++ [d]).
Proof.
  intros (Hs & He & Hp). split; [done|]. split; [done|]. intros e Hin.
  destruct (Hp e Hin) as (i & Hi & Ho & Hpos). exists i. rewrite length_app.
  split; [simpl; lia|]. split; [done|]. by rewrite rec_pos_app by lia.
Qed.

Lemma ifile_ok_extend f base ds d : ifile_ok f base ds -> ifile_ok f base (ds ++ [d]).
Proof.
  intros H c Hc. destruct (H c Hc) as (es & -> & Hs). exists es.
  split; [done|]. by apply idx_sound_extend.
Qed.

Lemma idx_sound_add idx base ds d :
  0 <= base -> base + zlen ds < 2 ^ 63 -> zlen (seg_bytes base ds) < 2 ^ 63 ->
  idx_sound idx base ds ->
  idx_sound (Index.Add idx (base + zlen ds) (zlen (seg_bytes base ds))) base (ds ++ [d]).
Proof.
  intros H0 H1 H2 Hidx. pose proof (idx_sound_extend _ _ _ d Hidx) as (Hs & Hok & Hp).
  destruct Hidx as (_ & _ & Hp0). split; [|split]; simpl.
  - apply StronglySorted_app. split; [|split; [done|repeat constructor]].
    intros x1 x2 Hx1 Hx2%list_elem_of_singleton. subst x2.
    destruct (Hp0 x1 Hx1) as (i & Hi & Ho & _). unfold offset_le. simpl. lia.
  - apply Forall_app. split; [done|]. repeat constructor; unfold in_i64; simpl; lia.
  - intros e [He|He%list_elem_of_singleton]%elem_of_app; [by apply Hp|].
    subst e. exists (length ds). rewrite length_app. split; [simpl; lia|].
    split; [done|]. simpl. by rewrite rec_pos_app, rec_pos_full by lia.
Qed.

Lemma seg_append_spec s content base ds d :
  seg_ok s content base ds -> seg_live s content -> data_ok d ->
  base + zlen ds + 1 < 2 ^ 63 -> zlen (seg_bytes base ds) < 2 ^ 63 ->
  exists s' content', seg_append s content (base + zlen ds) d = (None, (s', content'))
    /\ seg_ok s' content' base (ds ++ [d]) /\ seg_live s' content'
    /\ content `prefix_of` content'.
Proof.
  intros [Hb Hn Hsz Hfl He Ho Hix Hio Hd Hlo Hhi] Hl Hdo Hmax Hpos. unfold seg_append.
  destruct (Write_ok _ (record_header (base + zlen ds) d) Hl) as (st1 & -> & Hl1 & Hf1 & Hg1).
  destruct (Write_ok _ d Hl1) as (st2 & -> & Hl2 & Hf2 & Hg2).
  destruct st2 as [[w h] content']. do 2 eexists. split; [done|].
  pose proof (grows_trans _ _ _ Hg1 Hg2) as Hg. unfold grows in Hg. simpl in Hg.
  pose proof Hl2 as (Ha2 & Ho2 & He2 & Hb2).
  rewrite Hf1 in Hf2. simpl in Hf2. rewrite Hfl in Hf2.
  split; [|done]. split; simpl; try done.
  - rewrite length_app. simpl. lia.
  - unfold data_ok, wrapu, recordHeaderSize in *. rewrite (Z.mod_small (zlen d)) by lia.
    rewrite Z.mod_small by lia. rewrite seg_bytes_app, length_app. cbn [seg_bytes].
    rewrite app_nil_r, record_bytes_length. lia.
  - rewrite Hf2, seg_bytes_app. cbn [seg_bytes]. unfold record_bytes.
    by rewrite app_nil_r, (assoc_L (++)).
  - rewrite Hsz. by apply idx_sound_add.
  - apply Forall_app. split; [done|]. by repeat constructor.
  - rewrite length_app. simpl. lia.
Qed.

(** After [sync] everything appended is in the file. *)
Lemma seg_sync_spec s content icontent base ds :
  seg_ok s content base ds -> seg_live s content \/ bw_buf (s_writer s) = [] ->
  exists s' icontent',
    seg_sync s content icontent = (None, s', seg_bytes base ds, icontent')
    /\ seg_ok s' (seg_bytes base ds) base ds /\ bw_buf (s_writer s') = []
    /\ (seg_live s content -> seg_live s' (seg_bytes base ds))
    /\ (ifile_ok (Some icontent) base ds -> ifile_ok (Some icontent') base ds).
Proof.
  intros [Hb Hn Hsz Hfl He Ho Hix Hio Hd Hlo Hhi] Hl. unfold seg_sync.
  assert (exists h', Flush (seg_wstate s content)
      = (None, (mkBufWriter [] None, h', seg_bytes base ds)) /\ h_open h' = true
      /\ (seg_live s content -> wok (mkBufWriter [] None, h', seg_bytes base ds)))
    as (h' & -> & Ho' & Hl').
  { destruct Hl as [Hl|Hl].
    - destruct (Flush_ok _ Hl) as ([[w h'] c] & -> & Hl' & Hf & Hbuf & _).
      simpl in Hbuf, Hf. destruct w as [b e]. simpl in *. subst b. rewrite app_nil_r in Hf.
      destruct Hl' as (H1 & H2 & H3 & H4). simpl in *. subst e. rewrite Hf, Hfl.
      exists h'. by repeat split.
    - destruct s as [sb sn sz sf [b e] si]. simpl in *. subst b e.
      rewrite app_nil_r in Hfl. subst content. exists sf. done. }
  simpl. unfold file_Sync. rewrite Ho'. unfold Index.Sync. rewrite Hio.
  destruct (ix_dirty (s_index s)); simpl; do 2 eexists; (split; [done|]);
    (split; [split; simpl; try done; by rewrite app_nil_r|]); (split; [done|]);
    (split; [done|]); intros Hic; [|done].
  intros c [= <-]. exists (ix_entries (s_index s)). split; [done|].
  destruct Hix as (H1 & H2 & H3). by repeat split.
Qed.

(** ** The log of segments as one list of records *)

(** Segments (base offset, records) that follow each other without a gap from
    one offset to another. *)
Inductive contiguous : Z -> list (Z * list bytes) -> Z -> Prop :=
| cont_nil b : contiguous b [] b
| cont_cons b ds segs e :
    contiguous (b + zlen ds) segs e -> contiguous b ((b, ds) :: segs) e.

Definition all_records (segs : list (Z * list bytes)) : list bytes := concat segs.*2.

Lemma contiguous_snoc b segs e ds :
  contiguous b segs e -> contiguous b (segs ++ [(e, ds)]) (e + zlen ds).
Proof. induction 1; simpl; repeat constructor; done. Qed.

Lemma all_records_cons b ds segs : all_records ((b, ds) :: segs) = ds ++ all_records segs.
Proof. done. Qed.

Lemma contiguous_length b segs e : contiguous b segs e -> e = b + zlen (all_records segs).
Proof.
  induction 1 as [|b ds segs e H IH]; [simpl; lia|].
  rewrite all_records_cons, length_app. lia.
Qed.

(** Each segment starts where an earlier one ends, or later. *)
Lemma contiguous_lookup b segs e k bk dk :
  contiguous b segs e -> segs !! k = Some (bk, dk) ->
  b <= bk /\ bk + zlen dk <= e
  /\ (forall j bj dj, segs !! j = Some (bj, dj) -> (j < k)%nat -> bj + zlen dj <= bk)
  /\ (forall j bj dj, segs !! j = Some (bj, dj) -> (k < j)%nat -> bk + zlen dk <= bj).
Proof.
  intros H. revert k bk dk.
  induction H as [b|b ds segs e H IH]; intros k bk dk Hk; [done|].
  assert (forall j bj dj, segs !! j = Some (bj, dj) -> b + zlen ds <= bj /\ bj + zlen dj <= e)
    as Hin by (intros j bj dj Hj; destruct (IH _ _ _ Hj) as (?&?&_); auto).
  assert (b + zlen ds <= e) as Hbe
    by (pose proof (contiguous_length _ _ _ H); lia).
  destruct k as [|k]; simpl in Hk.
  - injection Hk as <- <-. repeat split; try lia.
    intros [|j] bj dj Hj Hlt; [lia|]. simpl in Hj. by destruct (Hin j bj dj Hj).
  - destruct (IH _ _ _ Hk) as (H1 & H2 & H3 & H4). repeat split; try lia.
    + intros [|j] bj dj Hj Hlt; simpl in Hj; [injection Hj as <- <-; lia|].
      apply (H3 j bj dj); [done|lia].
    + intros [|j] bj dj Hj Hlt; [lia|]. simpl in Hj. apply (H4 j bj dj); [done|lia].
Qed.

(** Every offset in range is in one segment, at the record's position. *)
Lemma contiguous_find b segs e o :
  contiguous b segs e -> b <= o < e ->
  exists k bk dk i d, segs !! k = Some (bk, dk) /\ o = bk + Z.of_nat i
    /\ dk !! i = Some d /\ all_records segs !! Z.to_nat (o - b) = Some d.
Proof.
  induction 1 as [b|b ds segs e H IH]; intros Ho; [lia|].
  setoid_rewrite all_records_cons.
  destruct (decide (o < b + zlen ds)) as [Hlt|Hge].
  - destruct (lookup_lt_is_Some_2 ds (Z.to_nat (o - b))) as [d Hd]; [lia|].
    exists 0%nat, b, ds, (Z.to_nat (o - b)), d. repeat split; auto; [lia|].
    by rewrite lookup_app_l by (apply lookup_lt_Some in Hd; done).
  - destruct IH as (k & bk & dk & i & d & Hk & -> & Hd & Ha); [lia|].
    exists (S k), bk, dk, i, d. repeat split; auto.
    rewrite lookup_app_r by lia. rewrite <- Ha. f_equal. lia.
Qed.

(** The log [w] represents the closed segments [pre] (structs [ls]) followed by
    the current one (struct [l], base [b], records [ds]), from offset [start]. *)
Record wal_rep (w : walImpl) (live : bool) (start : Z) (ls : list nat)
    (pre : list (Z * list bytes)) (l : nat) (b : Z) (ds : list bytes) : Prop := {
  wr_closed : w_closed w = false;
  wr_size : 0 < c_SegmentSize (w_config w) < 2 ^ 63;
  wr_segments : w_segments w = ls ++ [l];
  wr_current : w_currentSegment w = Some l;
  wr_nodup : NoDup (ls ++ [l]);
  wr_fresh : Forall (fun x => (x < w_fresh w)%nat) (ls ++ [l]);
  wr_pre : Forall2 (fun x p => exists s,
      w_store w !! x = Some s
      /\ d_wal (w_dir w) !! p.1 = Some (seg_bytes p.1 p.2)
      /\ seg_ok s (seg_bytes p.1 p.2) p.1 p.2 /\ p.2 <> []) ls pre;
  wr_last : exists s content,
      w_store w !! l = Some s /\ d_wal (w_dir w) !! b = Some content
      /\ seg_ok s content b ds
      /\ (if live then seg_live s content else bw_buf (s_writer s) = []);
  wr_cont : contiguous start pre b;
  wr_next : w_nextOffset w = b + zlen ds;
  wr_above : forall b', b < b' ->
      d_wal (w_dir w) !! b' = None /\ d_index (w_dir w) !! b' = None;
  wr_files : forall x, is_Some (d_wal (w_dir w) !! x) -> x ∈ (pre ++ [(b, ds)]).*1;
  wr_ifiles : Forall (fun p => ifile_ok (d_index (w_dir w) !! p.1) p.1 p.2) (pre ++ [(b, ds)])
}.

Definition wal_records (pre : list (Z * list bytes)) (ds : list bytes) : list bytes :=
  all_records pre ++ ds.

Lemma wal_records_snoc pre b ds : all_records (pre ++ [(b, ds)]) = wal_records pre ds.
Proof.
  unfold all_records, wal_records. rewrite fmap_app, concat_app. simpl. by rewrite app_nil_r.
Qed.

Section with_wal.
Context (w : walImpl) (live : bool) (start : Z) (ls : list nat).
Context (pre : list (Z * list bytes)) (l : nat) (b : Z) (ds : list bytes).
Context (R : wal_rep w live start ls pre l b ds).

Lemma wal_contiguous : contiguous start (pre ++ [(b, ds)]) (w_nextOffset w).
Proof. rewrite (wr_next _ _ _ _ _ _ _ _ R). apply contiguous_snoc, R. Qed.

(** Struct [k] of the log holds segment [k]. *)
Lemma wal_seg k bk dk :
  (pre ++ [(b, ds)]) !! k = Some (bk, dk) ->
  exists x s content, w_segments w !! k = Some x /\ w_store w !! x = Some s
    /\ d_wal (w_dir w) !! bk = Some content /\ seg_ok s content bk dk.
Proof.
  intros Hk. rewrite (wr_segments _ _ _ _ _ _ _ _ R).
  pose proof (wr_pre _ _ _ _ _ _ _ _ R) as Hpre.
  pose proof (Forall2_length _ _ _ Hpre) as Hlen.
  apply lookup_app_Some in Hk as [Hk|[Hge Hk]].
  - destruct (Forall2_lookup_r _ _ _ _ _ Hpre Hk) as (x & Hx & s & Hs & Hc & Hok & _).
    exists x, s, (seg_bytes bk dk). split; [|done]. by apply lookup_app_l_Some.
  - apply list_lookup_singleton_Some in Hk as [Hk0 [= <- <-]].
    destruct (wr_last _ _ _ _ _ _ _ _ R) as (s & content & Hs & Hc & Hok & _).
    exists l, s, content. split; [|done].
    rewrite lookup_app_r by lia. by replace (k - length ls)%nat with 0%nat by lia.
Qed.

Lemma wal_segments_length : length (w_segments w) = length (pre ++ [(b, ds)]).
Proof.
  rewrite (wr_segments _ _ _ _ _ _ _ _ R), !length_app.
  by rewrite (Forall2_length _ _ _ (wr_pre _ _ _ _ _ _ _ _ R)).
Qed.

(** The binary search finds the segment that holds the offset. *)
Lemma findSegment_found o k bk dk :
  (pre ++ [(b, ds)]) !! k = Some (bk, dk) -> bk <= o < bk + zlen dk ->
  exists x, w_segments w !! k = Some x /\ findSegment w o = Some (Some x).
Proof.
  intros Hk Ho. destruct (wal_seg k bk dk Hk) as (x & s & content & Hx & Hs & Hc & Hok).
  exists x. split; [done|]. unfold findSegment.
  pose proof (lookup_lt_Some _ _ _ Hx) as Hkl.
  assert (forall fuel left right, 0 <= left -> left <= Z.of_nat k <= right ->
    right < zlen (w_segments w) -> right - left < Z.of_nat fuel ->
    findSegment_loop fuel w o left right = Some (Some x)) as H; [|apply H; lia].
  destruct (contiguous_lookup _ _ _ _ _ _ wal_contiguous Hk) as (_ & _ & Hlow & Hhigh).
  induction fuel as [|fuel IH]; intros left right Hl0 Hlk Hr Hf; [lia|].
  cbn [findSegment_loop]. destruct (Z.leb_spec left right); [|lia].
  assert (left <= (left + right) / 2 <= right) as Hm
    by (split; [apply Z.div_le_lower_bound | apply Z.div_le_upper_bound]; lia).
  set (mid := (left + right) / 2) in *.
  destruct (lookup_lt_is_Some_2 (pre ++ [(b, ds)]) (Z.to_nat mid)) as [[bm dm] Hbm].
  { rewrite <- wal_segments_length. lia. }
  destruct (wal_seg _ _ _ Hbm) as (y & sm & cm & Hy & Hsm & _ & Hokm).
  rewrite Hy. cbn [mbind option_bind]. rewrite Hsm. cbn [mbind option_bind].
  rewrite (so_base _ _ _ _ Hokm), (so_next _ _ _ _ Hokm).
  destruct (Z.ltb_spec o bm).
  - apply IH; try lia. specialize (Hlow _ _ _ Hbm).
    destruct (decide (mid <= Z.of_nat k)) as [|]; [|lia]. exfalso.
    destruct (decide (Z.to_nat mid = k)) as [E|]; [|lia].
    rewrite E, Hk in Hbm. injection Hbm as <- <-. lia.
  - destruct (Z.leb_spec (bm + zlen dm) o).
    + apply IH; try lia. specialize (Hhigh _ _ _ Hbm).
      destruct (decide (Z.of_nat k <= mid)) as [|]; [|lia]. exfalso.
      destruct (decide (Z.to_nat mid = k)) as [E|]; [|lia].
      rewrite E, Hk in Hbm. injection Hbm as <- <-. lia.
    + assert (Z.to_nat mid = k) as E.
      { destruct (Nat.lt_trichotomy (Z.to_nat mid) k) as [Hlt|[E|Hgt]]; [|done|].
        - specialize (Hlow _ _ _ Hbm Hlt). lia.
        - specialize (Hhigh _ _ _ Hbm Hgt). lia. }
      rewrite E, Hx in Hy. by injection Hy as <-.
Qed.

(** An offset outside the log is in no segment. *)
Lemma findSegment_none o :
  o < start \/ w_nextOffset w <= o -> findSegment w o = Some None.
Proof.
  intros Ho. unfold findSegment.
  assert (forall fuel left right, 0 <= left -> right < zlen (w_segments w) ->
    findSegment_loop fuel w o left right = Some None) as H; [|apply H; lia].
  induction fuel as [|fuel IH]; intros left right Hl0 Hr; [done|].
  cbn [findSegment_loop]. destruct (Z.leb_spec left right); [|done].
  assert (left <= (left + right) / 2 <= right) as Hm
    by (split; [apply Z.div_le_lower_bound | apply Z.div_le_upper_bound]; lia).
  set (mid := (left + right) / 2) in *.
  destruct (lookup_lt_is_Some_2 (pre ++ [(b, ds)]) (Z.to_nat mid)) as [[bm dm] Hbm].
  { rewrite <- wal_segments_length. lia. }
  destruct (wal_seg _ _ _ Hbm) as (y & sm & cm & Hy & Hsm & _ & Hokm).
  rewrite Hy. cbn [mbind option_bind]. rewrite Hsm. cbn [mbind option_bind].
  rewrite (so_base _ _ _ _ Hokm), (so_next _ _ _ _ Hokm).
  destruct (contiguous_lookup _ _ _ _ _ _ wal_contiguous Hbm) as (Hb1 & Hb2 & _).
  destruct (Z.ltb_spec o bm); [apply IH; lia|].
  destruct (Z.leb_spec (bm + zlen dm) o); [apply IH; lia|]. lia.
Qed.
End with_wal.

(** ** The operations preserve the representation *)

Lemma alter_const_id {K A} `{Countable K} (m : gmap K A) (i : K) (x : A) :
  m !! i = Some x \/ m !! i = None -> alter (fun _ => x) i m = m.
Proof.
  intros H1. apply map_eq. intros j. rewrite lookup_alter.
  destruct (decide (i = j)) as [<-|]; [|done]. destruct H1 as [-> | ->]; done.
Qed.

Lemma put_seg_same_dir w x s :
  w_dir (put_seg w x s (content_of w s) (icontent_of w s)) = w_dir w.
Proof.
  unfold put_seg, content_of, icontent_of. simpl.
  rewrite !alter_const_id; [by destruct (w_dir w)| |].
  - destruct (d_index _ !! _); auto.
  - destruct (d_wal _ !! _); auto.
Qed.

Lemma seg_ok_set_file s content b ds h' :
  seg_ok s content b ds -> same_mode (s_file s) h' -> seg_ok (set_file s h') content b ds.
Proof. intros [] [Ho _]. split; simpl; try done. congruence. Qed.

Lemma seg_live_set_file s content h' :
  seg_live s content -> same_mode (s_file s) h' -> seg_live (set_file s h') content.
Proof.
  intros (H1 & H2 & H3 & H4) [Ho Ha]. unfold seg_live, wok. simpl. repeat split; congruence || lia.
Qed.

(** A closed segment is not the current one. *)
Lemma pre_below start pre b i p :
  contiguous start pre b -> pre !! i = Some p -> p.2 <> [] -> p.1 < b.
Proof.
  destruct p as [bp dp]. intros Hcont Hp Hne.
  destruct (contiguous_lookup _ _ _ _ _ _ Hcont Hp) as (_ & H & _). simpl in *.
  destruct dp; [done|]. simpl in H. lia.
Qed.

(** The current segment replaced by one that holds [ds']. *)
Lemma wal_rep_set_last w live start ls pre l b ds live' s' content' ic ds' :
  wal_rep w live start ls pre l b ds ->
  seg_ok s' content' b ds' ->
  (if live' : bool then seg_live s' content' else bw_buf (s_writer s') = []) ->
  (d_index (w_dir w) !! b <> None -> ifile_ok (Some ic) b ds') ->
  wal_rep (set_nextOffset (put_seg w l s' content' ic) (b + zlen ds'))
    live' start ls pre l b ds'.
Proof.
  intros R Hok Hl Hic. destruct R as [Hc Hsz Hsg Hcur Hnd Hfr Hpre Hlast Hcont Hnext Hab Hfs Hif].
  destruct Hlast as (s & content & Hs & Hd & _).
  pose proof (so_base _ _ _ _ Hok) as Hb.
  split; simpl; try done.
  - apply Forall2_same_length_lookup. split; [by apply Forall2_length in Hpre|].
    intros i x p Hx Hp. destruct (Forall2_lookup_lr _ _ _ _ _ _ Hpre Hx Hp)
      as (sx & Hsx & Hdx & Hokx & Hne).
    assert (x <> l) as Hxl.
    { intros ->. apply NoDup_app in Hnd as (_ & Hdis & _).
      apply (Hdis l); [by eapply list_elem_of_lookup_2|set_solver]. }
    pose proof (pre_below _ _ _ _ _ Hcont Hp Hne).
    exists sx. rewrite lookup_insert_ne, lookup_alter_ne by (congruence || lia). done.
  - exists s', content'. rewrite lookup_insert_eq, Hb, lookup_alter_eq, Hd. done.
  - intros b' Hb'. rewrite Hb, !lookup_alter_ne by lia. by apply Hab.
  - intros x Hx. rewrite lookup_alter_is_Some in Hx. rewrite fmap_app in *. by apply Hfs.
  - apply Forall_app in Hif as [Hif1 Hif2]. apply Forall_app. split.
    + apply Forall_lookup. intros i p Hp. rewrite Hb, lookup_alter_ne.
      { exact (Forall_lookup_1 _ _ i p Hif1 Hp). }
      destruct (Forall2_lookup_r _ _ _ _ _ Hpre Hp) as (? & _ & ? & _ & _ & _ & Hne).
      pose proof (pre_below _ _ _ _ _ Hcont Hp Hne). lia.
    + constructor; [|constructor]. cbn. rewrite Hb, lookup_alter_eq.
      destruct (d_index (w_dir w) !! b) eqn:E; [simpl; apply Hic; congruence|by intros c].
Qed.

(** Reading a segment only moves its handle. *)
Lemma wal_rep_read w live start ls pre l b ds k x s h' :
  wal_rep w live start ls pre l b ds ->
  w_segments w !! k = Some x -> w_store w !! x = Some s -> same_mode (s_file s) h' ->
  wal_rep (put_seg w x (set_file s h') (content_of w s) (icontent_of w s))
    live start ls pre l b ds.
Proof.
  intros R Hk Hs Hm.
  pose proof (put_seg_same_dir w x (set_file s h')) as Hdir.
  change (content_of w (set_file s h')) with (content_of w s) in Hdir.
  change (icontent_of w (set_file s h')) with (icontent_of w s) in Hdir.
  destruct R as [Hc Hsz Hsg Hcur Hnd Hfr Hpre Hlast Hcont Hnext Hab Hfs Hif].
  split; try done; rewrite ?Hdir; try done; cbn [put_seg w_store].
  - eapply Forall2_impl; [exact Hpre|]. intros y p (sy & Hsy & Hdy & Hoky & Hne).
    destruct (decide (x = y)) as [<-|].
    + rewrite Hs in Hsy. injection Hsy as <-. exists (set_file s h').
      rewrite lookup_insert_eq. split; [done|]. split; [done|].
      split; [by apply seg_ok_set_file|done].
    + exists sy. by rewrite lookup_insert_ne.
  - destruct Hlast as (sl & content & Hsl & Hdl & Hokl & Hll).
    destruct (decide (x = l)) as [->|].
    + rewrite Hs in Hsl. injection Hsl as <-. exists (set_file s h'), content.
      rewrite lookup_insert_eq. split; [done|]. split; [done|].
      split; [by apply seg_ok_set_file|]. destruct live; [by apply seg_live_set_file|done].
    + exists sl, content. by rewrite lookup_insert_ne.
Qed.

Lemma set_nextOffset_id w : set_nextOffset w (w_nextOffset w) = w.
Proof. by destruct w. Qed.

(** Syncing the current segment puts all its records in the file. *)
Lemma sync_seg_rep w live start ls pre l b ds :
  wal_rep w live start ls pre l b ds ->
  exists w', sync_seg w l = Some (None, w') /\ wal_rep w' live start ls pre l b ds
    /\ d_wal (w_dir w') !! b = Some (seg_bytes b ds)
    /\ w_config w' = w_config w /\ w_fresh w' = w_fresh w
    /\ exists s, w_store w' !! l = Some s /\ bw_buf (s_writer s) = [].
Proof.
  intros R. destruct (wr_last _ _ _ _ _ _ _ _ R) as (s & content & Hs & Hd & Hok & Hl).
  unfold sync_seg. rewrite Hs. cbn [mbind option_bind].
  assert (content_of w s = content) as ->
    by (unfold content_of; by rewrite (so_base _ _ _ _ Hok), Hd).
  destruct (seg_sync_spec s content (icontent_of w s) b ds Hok) as (s' & ic & -> & Hok' & Hb' & Hl' & Hi').
  { destruct live; auto. }
  eexists. split; [done|]. split; [|split; [|split; [done|split; [done|]]]].
  - pose proof (wal_rep_set_last w live start ls pre l b ds live s' (seg_bytes b ds) ic ds R Hok')
      as R'. rewrite <- (wr_next _ _ _ _ _ _ _ _ R) in R'.
    change (w_nextOffset w) with (w_nextOffset (put_seg w l s' (seg_bytes b ds) ic)) in R'.
    rewrite set_nextOffset_id in R'. apply R'; [destruct live; auto|].
    intros Hn. apply Hi'. unfold icontent_of. rewrite (so_base _ _ _ _ Hok).
    pose proof (wr_ifiles _ _ _ _ _ _ _ _ R) as Hif. apply Forall_app in Hif as [_ Hif].
    apply Forall_cons in Hif as [Hif _]. simpl in Hif.
    destruct (d_index (w_dir w) !! b); done.
  - simpl. rewrite (so_base _ _ _ _ Hok'), lookup_alter_eq, Hd. done.
  - exists s'. simpl. by rewrite lookup_insert_eq.
Qed.

(** The segment files and the index file of a fresh segment. *)
Lemma createWALSegment_fresh d base :
  d_wal d !! base = None -> d_index d !! base = None ->
  createWALSegment d base
  = Ok (mkSegment base base 0 (mkHandle 0 true true) NewWriter (mkIndex [] false true),
        mkDir (<[base := []]> (d_wal d)) (<[base := []]> (d_index d))).
Proof. intros H1 H2. unfold createWALSegment. by rewrite H1, H2. Qed.

Lemma fresh_segment_ok base :
  0 <= base -> base < 2 ^ 63 ->
  let s := mkSegment base base 0 (mkHandle 0 true true) NewWriter (mkIndex [] false true) in
  seg_ok s [] base [] /\ seg_live s [].
Proof.
  intros Hlo Hhi s. split.
  - split; simpl; try done; try lia. split; [constructor|]. split; [constructor|intros e He; set_solver].
  - unfold seg_live, wok. simpl. repeat split; lia.
Qed.

(** Rolling syncs the current segment and starts an empty one behind it. *)
Lemma rollSegment_rep w live start ls pre l b ds :
  wal_rep w live start ls pre l b ds -> ds <> [] ->
  exists w', rollSegment w = Some (None, w')
    /\ wal_rep w' true start (ls ++ [l]) (pre ++ [(b, ds)]) (w_fresh w) (b + zlen ds) []
    /\ w_config w' = w_config w /\ d_wal (w_dir w') !! (b + zlen ds) = Some [].
Proof.
  intros R Hne.
  destruct (sync_seg_rep _ _ _ _ _ _ _ _ R) as (w1 & E1 & R1 & Hd1 & Hc1 & Hf1 & _).
  unfold rollSegment. rewrite (wr_current _ _ _ _ _ _ _ _ R), E1. cbn [mbind option_bind].
  assert (0 < zlen ds) as Hpos by (destruct ds; [done|simpl; lia]).
  rewrite (wr_next _ _ _ _ _ _ _ _ R1).
  destruct (wr_above _ _ _ _ _ _ _ _ R1 (b + zlen ds) ltac:(lia)) as [Ha1 Ha2].
  rewrite createWALSegment_fresh by done. eexists. split; [done|].
  destruct R1 as [Hc Hsz Hsg Hcur Hnd Hfr Hpre Hlast Hcont Hnext Hab Hfs Hif]. cbn.
  split; [|split; [done|by rewrite lookup_insert_eq]].
  destruct Hlast as (s & content & Hs & Hd & Hok & _).
  rewrite Hd1 in Hd. injection Hd as <-.
  pose proof (so_lo _ _ _ _ Hok). pose proof (so_hi _ _ _ _ Hok). rewrite <- Hf1.
  assert (w_fresh w1 ∉ ls ++ [l]) as Hnew
    by (rewrite Forall_forall in Hfr; intros Hin; specialize (Hfr _ Hin); lia).
  split; cbn; try done.
  - by rewrite Hsg.
  - apply NoDup_app. split; [done|]. split; [|apply NoDup_singleton].
    intros x Hx ->%list_elem_of_singleton. by apply Hnew.
  - apply Forall_app. split; [|constructor; [lia|constructor]].
    eapply Forall_impl; [exact Hfr|]. intros x Hx. simpl in *. lia.
  - apply Forall2_app.
    + apply Forall2_same_length_lookup. split; [by apply Forall2_length in Hpre|].
      intros i x p Hx Hp. destruct (Forall2_lookup_lr _ _ _ _ _ _ Hpre Hx Hp)
        as (sx & Hsx & Hdx & Hokx & Hnx).
      exists sx. rewrite lookup_insert_ne.
      2: { intros E. apply Hnew. rewrite E. apply elem_of_app. left. by eapply list_elem_of_lookup_2. }
      rewrite lookup_insert_ne; [done|]. destruct p as [bp dp].
      destruct (contiguous_lookup _ _ _ _ _ _ Hcont Hp) as (_ & Hle & _). simpl in *. lia.
    + repeat constructor. exists s. cbn. rewrite lookup_insert_ne.
      2: { intros E. apply Hnew. rewrite E. set_solver. }
      rewrite lookup_insert_ne by lia. done.
  - exists (mkSegment (b + zlen ds) (b + zlen ds) 0 (mkHandle 0 true true) NewWriter
              (mkIndex [] false true)), [].
    rewrite !lookup_insert_eq. split; [done|]. split; [done|]. apply fresh_segment_ok; lia.
  - by apply contiguous_snoc.
  - lia.
  - intros b' Hb'. rewrite !lookup_insert_ne by lia. apply Hab. lia.
  - intros x Hx. rewrite fmap_app. apply elem_of_app.
    destruct (decide (x = b + zlen ds)) as [->|]; [right; set_solver|left].
    rewrite lookup_insert_ne in Hx by done. by apply Hfs.
  - apply Forall_app. split.
    + eapply Forall_impl; [exact Hif|]. intros p Hp. cbn.
      destruct (decide (p.1 = b + zlen ds)) as [E|]; [|by rewrite lookup_insert_ne].
      rewrite E, lookup_insert_eq. intros c [= <-]. exists []. split; [done|].
      repeat constructor. set_solver.
    + repeat constructor. cbn. rewrite lookup_insert_eq. intros c [= <-]. exists [].
      split; [done|]. repeat constructor. set_solver.
Qed.

(** ** What the log promises: records with consecutive offsets, a prefix of
    them in the files *)

(** The number of records of a segment that are completely in its file. *)
Definition flushed (b : Z) (ds : list bytes) (content : bytes) (k : nat) : Prop :=
  (k ≤ length ds)%nat /\ (rec_pos b ds k ≤ length content)%nat
  /\ ((k < length ds)%nat -> (length content < rec_pos b ds (S k))%nat).

(** The log holds the records [rs] at offsets [start], [start + 1], ..., of
    which the first [n] can be read; it is [live] when its current segment was
    created by this process, so that writes go to the end of the file. *)
Definition wal_holds (w : walImpl) (live : bool) (start : Z) (rs : list bytes) (n : nat) : Prop :=
  exists ls pre l b ds content k,
    wal_rep w live start ls pre l b ds /\ d_wal (w_dir w) !! b = Some content
    /\ rs = wal_records pre ds /\ flushed b ds content k
    /\ n = (length (all_records pre) + k)%nat.

Lemma flushed_all b ds : flushed b ds (seg_bytes b ds) (length ds).
Proof. split; [done|]. rewrite rec_pos_full. split; lia. Qed.

Lemma flushed_exists b ds content : exists k, flushed b ds content k.
Proof.
  assert (forall n, (n ≤ length ds)%nat -> (exists k, flushed b ds content k)
    \/ (rec_pos b ds n ≤ length content)%nat) as H.
  { induction n as [|n IH]; intros Hn; [right; unfold rec_pos; simpl; lia|].
    destruct IH as [?|IH]; [lia|by left|].
    destruct (decide (rec_pos b ds (S n) ≤ length content)%nat); [by right|].
    left. exists n. repeat split; lia. }
  destruct (H (length ds)) as [?|H']; [done..|]. exists (length ds). repeat split; auto; lia.
Qed.

Lemma flushed_mono b ds ds' content content' k k' :
  flushed b ds content k -> flushed b (ds ++ ds') content' k' ->
  (length content ≤ length content')%nat -> (k ≤ k')%nat.
Proof.
  intros (H1 & H2 & _) (H3 & H4 & H5) Hc.
  destruct (decide (k ≤ k')%nat) as [|Hn]; [done|exfalso].
  specialize (H5 ltac:(rewrite length_app; lia)).
  pose proof (rec_pos_mono b (ds ++ ds') (S k') k ltac:(lia)) as Hm.
  assert (rec_pos b (ds ++ ds') k = rec_pos b ds k) as E
    by (unfold rec_pos; by rewrite take_app_le by done).
  lia.
Qed.

Lemma needs_roll_rep w live start ls pre l b ds :
  wal_rep w live start ls pre l b ds ->
  needs_roll w = Some (c_SegmentSize (w_config w) <=? zlen (seg_bytes b ds)).
Proof.
  intros R. destruct (wr_last _ _ _ _ _ _ _ _ R) as (s & content & Hs & Hd & Hok & _).
  unfold needs_roll. rewrite (wr_current _ _ _ _ _ _ _ _ R), Hs. cbn [mbind option_bind].
  by rewrite (so_size _ _ _ _ Hok).
Qed.

(** The part of [WAL_Append] after the roll, on a live log. *)
Lemma append_current w start ls pre l b ds content k d :
  wal_rep w true start ls pre l b ds -> d_wal (w_dir w) !! b = Some content ->
  flushed b ds content k -> data_ok d -> w_nextOffset w + 1 < 2 ^ 63 ->
  zlen (seg_bytes b ds) < 2 ^ 63 ->
  exists s s' content' ic,
    w_store w !! l = Some s /\ content_of w s = content
    /\ seg_append s content (w_nextOffset w) d = (None, (s', content'))
    /\ icontent_of w s' = ic
    /\ let w' := set_nextOffset (put_seg w l s' content' ic) (w_nextOffset w + 1) in
       wal_rep w' true start ls pre l b (ds ++ [d])
       /\ d_wal (w_dir w') !! b = Some content' /\ (length content ≤ length content')%nat.
Proof.
  intros R Hc Hk Hd Hmax Hpos. rewrite (wr_next _ _ _ _ _ _ _ _ R) in *.
  destruct (wr_last _ _ _ _ _ _ _ _ R) as (s & c & Hs & Hc' & Hok & Hl).
  rewrite Hc in Hc'. injection Hc' as <-.
  destruct (seg_append_spec s content b ds d Hok Hl Hd Hmax Hpos)
    as (s' & content' & E & Hok' & Hl' & Hpre).
  exists s, s', content', (icontent_of w s'). split; [done|].
  split; [unfold content_of; by rewrite (so_base _ _ _ _ Hok), Hc|]. split; [done|].
  split; [done|]. cbv zeta.
  replace (b + zlen ds + 1) with (b + zlen (ds ++ [d])) by (rewrite length_app; simpl; lia).
  split.
  { eapply wal_rep_set_last; [done..|]. intros Hn. unfold icontent_of.
    rewrite (so_base _ _ _ _ Hok').
    pose proof (wr_ifiles _ _ _ _ _ _ _ _ R) as Hif. apply Forall_app in Hif as [_ Hif].
    apply Forall_cons in Hif as [Hif _]. simpl in Hif.
    destruct (d_index (w_dir w) !! b); [by apply ifile_ok_extend|done]. }
  split; [simpl; by rewrite (so_base _ _ _ _ Hok'), lookup_alter_eq, Hc|].
  destruct Hpre as [r ->]. rewrite length_app. lia.
Qed.

Lemma wal_records_app pre ds d : wal_records pre (ds ++ [d]) = wal_records pre ds ++ [d].
Proof. unfold wal_records. by rewrite (assoc_L (++)). Qed.

Lemma append_tail_holds w start ls pre l b ds content k d :
  wal_rep w true start ls pre l b ds -> d_wal (w_dir w) !! b = Some content ->
  flushed b ds content k -> data_ok d -> w_nextOffset w + 1 < 2 ^ 63 ->
  zlen (seg_bytes b ds) < 2 ^ 63 ->
  exists w' n', append_tail w d = Some (Ok (w_nextOffset w), w')
    /\ wal_holds w' true start (wal_records pre ds ++ [d]) n'
    /\ (length (all_records pre) + k ≤ n')%nat /\ w_config w' = w_config w
    /\ (c_FsyncPolicy (w_config w) = FsyncAlways -> n' = S (length (wal_records pre ds))).
Proof.
  intros R Hc Hk Hd Hmax Hpos.
  destruct (append_current _ _ _ _ _ _ _ _ _ _ R Hc Hk Hd Hmax Hpos)
    as (s & s' & content' & ic & Hs & Hcs & E & Hic & R' & Hc' & Hlen).
  unfold append_tail. rewrite (wr_current _ _ _ _ _ _ _ _ R). cbn [mbind option_bind].
  rewrite Hs. cbn [mbind option_bind]. rewrite Hcs, E, Hic.
  set (w1 := set_nextOffset _ _) in *. change (w_config w1) with (w_config w).
  rewrite <- wal_records_app.
  destruct (bool_decide_reflect (c_FsyncPolicy (w_config w) = FsyncAlways)) as [Hp|Hp].
  - destruct (sync_seg_rep _ _ _ _ _ _ _ _ R') as (w2 & -> & R2 & Hd2 & Hcf & _ & _).
    cbn [mbind option_bind]. exists w2, (length (wal_records pre (ds ++ [d]))).
    split; [done|]. unfold wal_records. rewrite !length_app. split; [|split; [|split]].
    + exists ls, pre, l, b, (ds ++ [d]), (seg_bytes b (ds ++ [d])), (length (ds ++ [d])).
      rewrite length_app. pose proof (flushed_all b (ds ++ [d])) as Hf.
      rewrite length_app in Hf. done.
    + destruct Hk as (? & _). simpl. lia.
    + by rewrite Hcf.
    + simpl. lia.
  - destruct (flushed_exists b (ds ++ [d]) content') as [k' Hk'].
    exists w1, (length (all_records pre) + k')%nat. split; [done|]. split; [|split; [|done]].
    + by exists ls, pre, l, b, (ds ++ [d]), content', k'.
    + pose proof (flushed_mono _ _ _ _ _ _ _ Hk Hk' Hlen). lia.
Qed.

(** [Append] stores the record at the next offset and loses nothing that could
    be read before; under [FsyncAlways] everything can be read afterwards.  A
    reopened log becomes live when it rolls. *)
Lemma WAL_Append_holds w live start rs n d :
  wal_holds w live start rs n -> live = true \/ needs_roll w = Some true ->
  data_ok d -> start + zlen rs + 1 < 2 ^ 63 ->
  exists w' n', WAL_Append w d = Some (Ok (start + zlen rs), w')
    /\ wal_holds w' true start (rs ++ [d]) n' /\ (n ≤ n')%nat /\ w_config w' = w_config w
    /\ (c_FsyncPolicy (w_config w) = FsyncAlways -> n' = S (length rs)).
Proof.
  intros (ls & pre & l & b & ds & content & k & R & Hc & -> & Hk & ->) Hlive Hd Hmax.
  pose proof (contiguous_length _ _ _ (wal_contiguous _ _ _ _ _ _ _ _ R)) as Hn.
  rewrite wal_records_snoc in Hn. rewrite <- Hn in Hmax |- *.
  unfold WAL_Append. rewrite (wr_closed _ _ _ _ _ _ _ _ R).
  pose proof (needs_roll_rep _ _ _ _ _ _ _ _ R) as Er. rewrite Er. cbn [mbind option_bind].
  destruct (Z.leb_spec (c_SegmentSize (w_config w)) (zlen (seg_bytes b ds))) as [Hr|Hr].
  - assert (ds <> []) as Hne
      by (intros ->; pose proof (wr_size _ _ _ _ _ _ _ _ R); simpl in Hr; lia).
    destruct (rollSegment_rep _ _ _ _ _ _ _ _ R Hne) as (w1 & -> & R1 & Hcf & Hd1).
    cbn [mbind option_bind].
    assert (w_nextOffset w1 = w_nextOffset w) as Hnx
      by (rewrite (wr_next _ _ _ _ _ _ _ _ R1), (wr_next _ _ _ _ _ _ _ _ R); simpl; lia).
    destruct (append_tail_holds _ _ _ _ _ _ _ _ 0 d R1 Hd1) as (w' & n' & E & Hh & Hle & Hcf' & Hal);
      [repeat split; unfold rec_pos; simpl; lia|done|lia|simpl; lia|].
    rewrite Hnx in E. exists w', n'. split; [exact E|].
    unfold wal_records in Hh at 1. rewrite app_nil_r, wal_records_snoc in Hh.
    split; [done|]. split; [|split; [congruence|]].
    + rewrite wal_records_snoc in Hle. unfold wal_records in Hle. rewrite length_app in Hle.
      destruct Hk as (? & _). lia.
    + intros Hp. rewrite Hal by congruence. unfold wal_records at 1.
      by rewrite app_nil_r, wal_records_snoc.
  - destruct Hlive as [->|Hl]; [|rewrite Er in Hl; discriminate Hl].
    pose proof (wr_size _ _ _ _ _ _ _ _ R).
    cbn [mbind option_bind]. eapply append_tail_holds; [done..|lia].
Qed.

(** Which records can be read, in terms of the segment that holds them. *)
Lemma read_in_prefix w live start ls pre l b ds content k
  (R : wal_rep w live start ls pre l b ds) (Hc : d_wal (w_dir w) !! b = Some content)
  (Hk : flushed b ds content k) j bj dj i i' d (r : result storage_error bytes) cj :
  (pre ++ [(b, ds)]) !! j = Some (bj, dj) -> dj !! i = Some d ->
  d_wal (w_dir w) !! bj = Some cj -> bj + Z.of_nat i = start + Z.of_nat i' ->
  (if decide (rec_pos bj dj (S i) ≤ length cj)%nat then r = Ok d else exists e, r = Err e) ->
  if decide (i' < length (all_records pre) + k)%nat then r = Ok d else exists e, r = Err e.
Proof.
  intros Hj Hd Hcj Ho Hr. pose proof (lookup_lt_Some _ _ _ Hd) as Hi.
  pose proof (wr_cont _ _ _ _ _ _ _ _ R) as Hct.
  pose proof (contiguous_length _ _ _ Hct) as Hb.
  apply lookup_app_Some in Hj as [Hj|[_ Hj]].
  - destruct (contiguous_lookup _ _ _ _ _ _ Hct Hj) as (Hlo & Hhi & _).
    rewrite decide_True by lia.
    destruct (Forall2_lookup_r _ _ _ _ _ (wr_pre _ _ _ _ _ _ _ _ R) Hj) as (x & _ & s & _ & Hdx & _).
    simpl in Hdx. rewrite Hcj in Hdx. injection Hdx as ->.
    rewrite decide_True in Hr; [done|]. rewrite <- rec_pos_full. apply rec_pos_mono. lia.
  - apply list_lookup_singleton_Some in Hj as [_ [= <- <-]].
    rewrite Hc in Hcj. injection Hcj as <-. destruct Hk as (H1 & H2 & H3).
    destruct (decide (i < k)%nat) as [Hik|Hik].
    + rewrite decide_True by lia. rewrite decide_True in Hr; [done|].
      pose proof (rec_pos_mono b ds (S i) k ltac:(lia)). lia.
    + rewrite decide_False by lia. rewrite decide_False in Hr; [done|].
      pose proof (rec_pos_mono b ds (S k) (S i) ltac:(lia)). lia.
Qed.

(** [Read] of an offset of the log: the record if it is in the file, an error
    if it is still buffered; outside the log, [ErrOffsetOutOfRange]. *)
Lemma WAL_Read_holds w live start rs n o :
  wal_holds w live start rs n ->
  exists r w', WAL_Read w o = Some (r, w') /\ wal_holds w' live start rs n
    /\ w_config w' = w_config w /\ w_dir w' = w_dir w
    /\ (o < start \/ start + zlen rs <= o -> r = Err ErrOffsetOutOfRange)
    /\ (forall i d, o = start + Z.of_nat i -> rs !! i = Some d ->
          if decide (i < n)%nat then r = Ok d else exists e, r = Err e).
Proof.
  intros (ls & pre & l & b & ds & content & k & R & Hc & -> & Hk & ->).
  pose proof (wal_contiguous _ _ _ _ _ _ _ _ R) as Hct.
  pose proof (contiguous_length _ _ _ Hct) as Hn. rewrite wal_records_snoc in Hn.
  unfold WAL_Read. rewrite (wr_closed _ _ _ _ _ _ _ _ R).
  destruct (decide (o < start \/ w_nextOffset w <= o)) as [Hout|Hin].
  { rewrite (findSegment_none _ _ _ _ _ _ _ _ R) by done. cbn [mbind option_bind].
    do 2 eexists. split; [done|]. split; [by exists ls, pre, l, b, ds, content, k|].
    split; [done|]. split; [done|]. split; [done|]. intros i d -> Hi.
    apply lookup_lt_Some in Hi. lia. }
  destruct (contiguous_find _ _ _ o Hct ltac:(lia)) as (j & bj & dj & i & d & Hj & Ho & Hd & Ha).
  pose proof (lookup_lt_Some _ _ _ Hd) as Hilt.
  destruct (findSegment_found _ _ _ _ _ _ _ _ R o j bj dj Hj ltac:(lia)) as (x & Hx & ->).
  destruct (wal_seg _ _ _ _ _ _ _ _ R _ _ _ Hj) as (x' & s & cj & Hx' & Hs & Hcj & Hok).
  rewrite Hx in Hx'. injection Hx' as <-. cbn [mbind option_bind]. rewrite Hs.
  cbn [mbind option_bind].
  assert (content_of w s = cj) as Ecj by (unfold content_of; by rewrite (so_base _ _ _ _ Hok), Hcj).
  rewrite Ecj. destruct (seg_read_spec s cj bj dj i d Hok Hd) as (r & h' & Er & Hm & Hr).
  rewrite Ho, Er. change (icontent_of w (set_file s h')) with (icontent_of w s). rewrite <- Ecj.
  pose proof (put_seg_same_dir w x (set_file s h')) as Hdir.
  change (content_of w (set_file s h')) with (content_of w s) in Hdir.
  change (icontent_of w (set_file s h')) with (icontent_of w s) in Hdir.
  do 2 eexists. split; [done|]. split; [|split; [done|split; [done|split]]].
  - exists ls, pre, l, b, ds, content, k. rewrite Hdir. split; [by eapply wal_rep_read|done].
  - lia.
  - intros i' d' Hi' Hd'. rewrite wal_records_snoc in Ha.
    assert (Z.to_nat (o - start) = i') as E by lia. rewrite E, Hd' in Ha. injection Ha as ->.
    apply (read_in_prefix _ _ _ _ _ _ _ _ _ _ R Hc Hk j bj dj i i' d r cj Hj Hd Hcj); lia || done.
Qed.

(** [Sync] makes every record readable. *)
Lemma WAL_Sync_holds w live start rs n :
  wal_holds w live start rs n ->
  exists w', WAL_Sync w = Some (None, w') /\ wal_holds w' live start rs (length rs)
    /\ w_config w' = w_config w.
Proof.
  intros (ls & pre & l & b & ds & content & k & R & Hc & -> & Hk & ->).
  unfold WAL_Sync. rewrite (wr_closed _ _ _ _ _ _ _ _ R), (wr_current _ _ _ _ _ _ _ _ R).
  destruct (sync_seg_rep _ _ _ _ _ _ _ _ R) as (w' & -> & R' & Hd & Hcf & _).
  exists w'. split; [done|]. split; [|done].
  exists ls, pre, l, b, ds, (seg_bytes b ds), (length ds). split; [done|]. split; [done|].
  split; [done|]. split; [apply flushed_all|]. unfold wal_records. by rewrite length_app.
Qed.

Definition config_ok (c : WALConfig) : Prop := 0 < c_SegmentSize c < 2 ^ 63.

(** A log on an empty directory. *)
Lemma NewWAL_empty config :
  config_ok config ->
  exists w, NewWAL (mkDir ∅ ∅) config = Some (Ok w) /\ wal_holds w true 0 [] 0
    /\ w_config w = config.
Proof.
  intros Hc. eexists. split; [reflexivity|]. split; [|done].
  exists [], [], 0%nat, 0, [], [], 0%nat. split; [|repeat split; unfold rec_pos; simpl; lia].
  split; cbn; try done.
  - apply NoDup_singleton.
  - repeat constructor.
  - do 2 eexists. split; [reflexivity|]. split; [reflexivity|]. by apply fresh_segment_ok.
  - constructor.
  - intros b' Hb'. by rewrite !lookup_insert_ne by lia.
  - intros x Hx. destruct (decide (x = 0)) as [->|]; [set_solver|].
    rewrite lookup_insert_ne, lookup_empty in Hx by done. by destruct Hx.
  - repeat constructor. intros c [= <-]. exists []. split; [done|].
    repeat constructor. set_solver.
Qed.

(** ** Opening the files again *)

Lemma be_dec_header o d tail :
  in_i64 o -> data_ok d ->
  be_dec (take 4 (record_bytes o d ++ tail)) = zlen d
  /\ wraps 64 (be_dec (take 8 (drop 4 (record_bytes o d ++ tail)))) = o.
Proof.
  intros Ho Hd. destruct (record_header_fields o d Ho Hd) as (E1 & E2 & _).
  pose proof (record_header_length o d) as Lh. unfold record_bytes.
  rewrite <- (assoc_L (++)). split.
  - by rewrite take_app_le by lia.
  - rewrite drop_app_le, take_app_le by (rewrite ?length_drop; lia). done.
Qed.

Section scan.
Context (base : Z) (ds : list bytes).
Context (Hds : Forall data_ok ds) (Hlo : 0 <= base) (Hhi : base + zlen ds < 2 ^ 63).

(** The index after a scan: the first record's entry when there was none. *)
Definition scanned (idx : indexImpl) : indexImpl :=
  if (Index_Size idx =? 0) && negb (bool_decide (ds = [])) then Index.Add idx base 0 else idx.

Lemma scan_loop_spec : forall n j fuel idx,
  (j + n = length ds)%nat -> (n < fuel)%nat -> (j = 0%nat \/ Index_Size idx <> 0) ->
  scan_loop fuel (seg_bytes base ds) (Z.of_nat (rec_pos base ds j)) (base + Z.of_nat j) idx
  = Ok (base + zlen ds,
        if decide (j = 0%nat) then scanned idx else idx, zlen (seg_bytes base ds)).
Proof.
  induction n as [|n IH]; intros j fuel idx Hj Hf Hi; (destruct fuel as [|fuel]; [lia|]);
    cbn [scan_loop]; rewrite Nat2Z.id.
  - assert (j = length ds) as -> by lia. rewrite rec_pos_full, drop_all.
    rewrite bool_decide_true by done. do 3 f_equal. case_decide as Hz; [|done].
    unfold scanned. destruct ds; [|done]. simpl. by rewrite andb_false_r.
  - destruct (lookup_lt_is_Some_2 ds j) as [d Hd]; [lia|].
    assert (data_ok d) as Hdo by (by eapply Forall_lookup_1).
    destruct (rest_at (seg_bytes base ds) base ds [] [] eq_refl j d Hd) as [tail Ht].
    rewrite app_nil_r in Ht. rewrite Ht.
    destruct (be_dec_header (base + Z.of_nat j) d tail) as [E1 E2]; [unfold in_i64; lia|done|].
    pose proof (record_bytes_length (base + Z.of_nat j) d) as Lr.
    rewrite bool_decide_false by (intros E; apply (f_equal length) in E;
      rewrite length_app in E; simpl in E; lia).
    rewrite E1, E2, length_app, Lr. unfold recordHeaderSize.
    destruct (Z.ltb_spec (Z.of_nat (16 + length d + length tail)) 16); [lia|].
    destruct (Z.ltb_spec (Z.of_nat (16 + length d + length tail)) (16 + zlen d)); [lia|].
    assert (Z.of_nat (rec_pos base ds j) + 16 + zlen d = Z.of_nat (rec_pos base ds (S j))) as ->
      by (rewrite (rec_pos_S _ _ _ _ Hd); lia).
    replace (base + Z.of_nat j + 1) with (base + Z.of_nat (S j)) by lia.
    rewrite (IH (S j)) by (try lia; right; destruct (Z.eqb_spec (Index_Size idx) 0);
      unfold Index_Size, Index.Add in *; simpl; rewrite ?length_app; simpl; lia).
    do 3 f_equal. rewrite (decide_False (P := S j = 0%nat)) by lia.
    case_decide as Hz.
    + subst j. unfold scanned. rewrite bool_decide_false by (by destruct ds).
      rewrite andb_true_r, Z.add_0_r. by destruct (_ =? _).
    + destruct Hi as [|Hi]; [done|]. by destruct (Z.eqb_spec (Index_Size idx) 0).
Qed.

Lemma scanned_sound idx : idx_sound idx base ds -> idx_sound (scanned idx) base ds.
Proof.
  intros (Hs & Hok & Hp). unfold scanned.
  destruct (Z.eqb_spec (Index_Size idx) 0) as [E|E]; [|done].
  destruct (bool_decide_reflect (ds = [])) as [Ed|Ed]; [done|]. cbn [andb negb].
  unfold Index_Size in E. destruct idx as [es dirty op]. destruct es; [|simpl in E; lia].
  split; [|split]; simpl.
  - repeat constructor.
  - repeat constructor; unfold in_i64; simpl; lia.
  - intros e ->%list_elem_of_singleton. exists 0%nat. simpl.
    split; [destruct ds; [done|simpl; lia]|]. split; [lia|done].
Qed.

(** Opening a file that ends with a complete record gives back its records. *)
Lemma openWALSegment_spec d :
  d_wal d !! base = Some (seg_bytes base ds) -> ifile_ok (d_index d !! base) base ds ->
  exists s ic, openWALSegment d base = Ok (s, mkDir (d_wal d) (<[base := ic]> (d_index d)))
    /\ seg_ok s (seg_bytes base ds) base ds /\ bw_buf (s_writer s) = []
    /\ ifile_ok (Some ic) base ds.
Proof.
  intros Hc Hi. unfold openWALSegment. rewrite Hc. cbn [default id].
  assert (exists es ic, NewIndex (d_index d !! base) = Ok (mkIndex es false true, ic)
    /\ idx_sound (mkIndex es false true) base ds /\ ic = index_bytes es)
    as (es & ic & -> & Hsound & ->).
  { destruct (d_index d !! base) as [c|].
    - destruct (Hi c eq_refl) as (es & -> & Hs). exists es, (index_bytes es).
      split; [|done]. simpl. rewrite load_index_bytes; [done|]. apply Hs.
    - exists [], []. split; [done|]. split; [|done]. split; [constructor|].
      split; [constructor|]. intros e He. simpl in He. set_solver. }
  unfold seg_scan. cbn [s_nextOffset s_index s_file s_writer s_baseOffset].
  assert (length ds < S (length (seg_bytes base ds)))%nat
    by (pose proof (rec_pos_len base ds (length ds)) as H; rewrite rec_pos_full in H; lia).
  pose proof (scan_loop_spec (length ds) 0 (S (length (seg_bytes base ds)))
    (mkIndex es false true) ltac:(lia) ltac:(lia) ltac:(by left)) as E.
  change (Z.of_nat (rec_pos base ds 0)) with 0 in E. rewrite Z.add_0_r in E.
  rewrite E, decide_True by done. clear E.
  pose proof (scanned_sound _ Hsound) as Hs.
  assert (ix_open (scanned (mkIndex es false true)) = true) as Ho
    by (unfold scanned; by destruct (_ && _)).
  unfold Index.Sync. rewrite Ho. cbn [negb].
  destruct (ix_dirty (scanned (mkIndex es false true))); cbn [negb];
    (do 2 eexists; split; [done|]; split; [|split; [done|]]).
  - split; simpl; try done. by rewrite app_nil_r.
  - intros c [= <-]. eexists. split; [done|]. apply Hs.
  - split; simpl; try done. by rewrite app_nil_r.
  - intros c [= <-]. by exists es.
Qed.
End scan.

(** The files of a directory, between runs: exactly the segments [segs], each
    ending with a complete record. *)
Record dir_holds (d : walDir) (start : Z) (pre : list (Z * list bytes)) (b : Z)
    (ds : list bytes) : Prop := {
  dh_wal : Forall (fun p => d_wal d !! p.1 = Some (seg_bytes p.1 p.2)) (pre ++ [(b, ds)]);
  dh_only : forall x, is_Some (d_wal d !! x) -> x ∈ (pre ++ [(b, ds)]).*1;
  dh_ifiles : Forall (fun p => ifile_ok (d_index d !! p.1) p.1 p.2) (pre ++ [(b, ds)]);
  dh_above : forall x, b < x -> d_index d !! x = None;
  dh_cont : contiguous start pre b;
  dh_ne : Forall (fun p => p.2 <> []) pre;
  dh_data : Forall (fun p => Forall data_ok p.2) (pre ++ [(b, ds)]);
  dh_lo : 0 <= start;
  dh_hi : b + zlen ds < 2 ^ 63
}.

Lemma contiguous_sorted start pre b :
  contiguous start pre b -> Forall (fun p => p.2 <> []) pre ->
  StronglySorted Z.lt (pre.*1 ++ [b]) /\ Forall (Z.le start) (pre.*1 ++ [b]).
Proof.
  induction 1 as [b|b0 ds segs e H IH]; intros Hne.
  - simpl. split; repeat constructor. done.
  - apply Forall_cons in Hne as [H0 Hne]. destruct (IH Hne) as [Hs Hf].
    assert (0 < zlen ds) by (simpl in H0; destruct ds; [done|simpl; lia]). split.
    + simpl. constructor; [done|]. eapply Forall_impl; [exact Hf|]. simpl. lia.
    + simpl. constructor; [done|]. eapply Forall_impl; [exact Hf|]. simpl. lia.
Qed.

Lemma StronglySorted_lt_le (l : list Z) :
  StronglySorted Z.lt l -> StronglySorted Z.le l /\ NoDup l.
Proof.
  induction 1 as [|x l Hs [IH1 IH2] Hf]; [split; constructor|]. split.
  - constructor; [done|]. eapply Forall_impl; [exact Hf|]. simpl. lia.
  - constructor; [|done]. rewrite Forall_forall in Hf. intros Hx. specialize (Hf _ Hx). lia.
Qed.

Section reopen.
Context (d : walDir) (start : Z) (pre : list (Z * list bytes)) (b : Z) (ds : list bytes).
Context (D : dir_holds d start pre b ds).

Lemma dir_bases : (pre ++ [(b, ds)]).*1 = pre.*1 ++ [b].
Proof. by rewrite fmap_app. Qed.

Lemma dir_nodup : NoDup (pre ++ [(b, ds)]).*1.
Proof.
  rewrite dir_bases. apply StronglySorted_lt_le.
  destruct (contiguous_sorted _ _ _ (dh_cont _ _ _ _ _ D) (dh_ne _ _ _ _ _ D)). done.
Qed.

(** The files are listed in the order of their segments. *)
Lemma wal_files_sorted : wal_files d = (pre ++ [(b, ds)]).*1.
Proof.
  unfold wal_files. apply (StronglySorted_unique Z.le).
  - apply Sorted_StronglySorted; [intros x y z; lia|]. apply (Sorted_merge_sort Z.le).
  - rewrite dir_bases. apply StronglySorted_lt_le.
    destruct (contiguous_sorted _ _ _ (dh_cont _ _ _ _ _ D) (dh_ne _ _ _ _ _ D)). done.
  - rewrite merge_sort_Permutation. apply NoDup_Permutation; [apply NoDup_fst_map_to_list| |].
    { apply dir_nodup. }
    intros x. rewrite list_elem_of_fmap. split.
    + intros ([y c] & -> & Hy). apply elem_of_map_to_list in Hy.
      apply (dh_only _ _ _ _ _ D). eauto.
    + intros Hx. apply list_elem_of_fmap in Hx as (p & -> & Hp).
      pose proof (dh_wal _ _ _ _ _ D) as Hw. rewrite Forall_forall in Hw.
      exists (p.1, seg_bytes p.1 p.2). split; [done|]. apply elem_of_map_to_list. by apply Hw.
Qed.

Lemma dir_segment p :
  p ∈ pre ++ [(b, ds)] -> Forall data_ok p.2 /\ 0 <= p.1 /\ p.1 + zlen p.2 < 2 ^ 63.
Proof.
  intros Hp. pose proof (dh_data _ _ _ _ _ D) as Hd. rewrite Forall_forall in Hd.
  split; [by apply Hd|]. apply list_elem_of_lookup in Hp as [k Hk]. destruct p as [bk dk].
  pose proof (contiguous_snoc _ _ _ ds (dh_cont _ _ _ _ _ D)) as Hc.
  destruct (contiguous_lookup _ _ _ _ _ _ Hc Hk) as (H1 & H2 & _).
  pose proof (dh_lo _ _ _ _ _ D). pose proof (dh_hi _ _ _ _ _ D). simpl. lia.
Qed.

(** What is open after the segments [segs] have been opened. *)
Definition opened (w : walImpl) (ls : list nat) (segs : list (Z * list bytes)) : Prop :=
  Forall2 (fun x p => exists s, w_store w !! x = Some s
    /\ seg_ok s (seg_bytes p.1 p.2) p.1 p.2 /\ bw_buf (s_writer s) = []) ls segs
  /\ w_segments w = ls /\ NoDup ls /\ Forall (fun x => (x < w_fresh w)%nat) ls
  /\ d_wal (w_dir w) = d_wal d
  /\ Forall (fun p => ifile_ok (d_index (w_dir w) !! p.1) p.1 p.2) (pre ++ [(b, ds)])
  /\ (forall x, b < x -> d_index (w_dir w) !! x = None).

Lemma open_all_spec : forall rest don w ls,
  don ++ rest = pre ++ [(b, ds)] -> opened w ls don ->
  exists w' ls', open_all w rest.*1 = Ok w' /\ opened w' ls' (pre ++ [(b, ds)])
    /\ w_config w' = w_config w /\ w_closed w' = w_closed w.
Proof.
  induction rest as [|[b0 d0] rest IH]; intros don w ls Hsplit Hop.
  { rewrite app_nil_r in Hsplit. subst don. exists w, ls. done. }
  destruct Hop as (Hst & Hsg & Hnd & Hfr & Hdw & Hif & Hab).
  assert ((b0, d0) ∈ pre ++ [(b, ds)]) as Hin by (rewrite <- Hsplit; set_solver).
  destruct (dir_segment _ Hin) as (Hdat & Hlo & Hhi). simpl in Hdat, Hlo, Hhi.
  destruct (openWALSegment_spec b0 d0 Hdat Hlo Hhi (w_dir w)) as (s & ic & E & Hok & Hbuf & Hic).
  { rewrite Hdw. pose proof (dh_wal _ _ _ _ _ D) as Hw. rewrite Forall_forall in Hw.
    by apply (Hw (b0, d0)). }
  { rewrite Forall_forall in Hif. by apply (Hif (b0, d0)). }
  cbn [fmap list_fmap open_all fst]. rewrite E.
  assert (w_fresh w ∉ ls) as Hnew
    by (intros Hx; rewrite Forall_forall in Hfr; specialize (Hfr _ Hx); lia).
  match goal with |- context [open_all ?w1 _] =>
    destruct (IH (don ++ [(b0, d0)]) w1 (ls ++ [w_fresh w])) as (w' & ls' & E' & Hop' & Hc' & Hcl')
  end; [by rewrite <- (assoc_L (++))| |by exists w', ls'].
  split; [|split; [|split; [|split; [|split; [|split]]]]]; cbn.
  - apply Forall2_app.
    + apply Forall2_same_length_lookup. split; [by apply Forall2_length in Hst|].
      intros i x p Hx Hp. rewrite lookup_insert_ne.
      2: { intros Hx'. apply Hnew. rewrite Hx'. by eapply list_elem_of_lookup_2. }
      by apply (Forall2_lookup_lr _ _ _ _ _ _ Hst Hx Hp).
    + repeat constructor. exists s. by rewrite lookup_insert_eq.
  - by rewrite Hsg.
  - apply NoDup_app. split; [done|]. split; [|apply NoDup_singleton].
    intros x Hx ->%list_elem_of_singleton. done.
  - apply Forall_app. split; [|constructor; [lia|constructor]].
    eapply Forall_impl; [exact Hfr|]. intros x Hx. simpl in *. lia.
  - done.
  - rewrite Forall_forall in Hif |- *. intros p Hp.
    destruct (decide (p.1 = b0)) as [Eb|]; [|rewrite lookup_insert_ne by done; by apply Hif].
    assert (p = (b0, d0)) as ->.
    { pose proof dir_nodup as Hn.
      apply list_elem_of_lookup in Hp as [i Hi]. apply list_elem_of_lookup in Hin as [j Hj].
      assert (i = j) as ->.
      { eapply (NoDup_lookup _ i j b0); [exact dir_nodup| |]; rewrite list_lookup_fmap;
          [rewrite Hi; simpl; by rewrite Eb|by rewrite Hj]. }
      congruence. }
    cbn. by rewrite lookup_insert_eq.
  - intros x Hx. destruct (decide (x = b0)) as [->|]; [|rewrite lookup_insert_ne by done; by apply Hab].
    exfalso. destruct (contiguous_sorted _ _ _ (dh_cont _ _ _ _ _ D) (dh_ne _ _ _ _ _ D)) as [Hs _].
    apply StronglySorted_app in Hs as (Hs & _).
    apply elem_of_app in Hin as [Hin|Hin]; [|set_solver by lia].
    specialize (Hs b0 b). assert (b0 < b); [|lia]. apply Hs; [|set_solver].
    apply list_elem_of_fmap. by exists (b0, d0).
Qed.
End reopen.

(** Opening a directory gives back all its records; writes then go through a
    handle that does not append. *)
Lemma NewWAL_reopen d start pre b ds config :
  dir_holds d start pre b ds -> config_ok config ->
  exists w, NewWAL d config = Some (Ok w) /\ w_config w = config
    /\ wal_holds w false start (wal_records pre ds) (length (wal_records pre ds)).
Proof.
  intros D Hcf. set (w0 := mkWal config d ∅ 0 None [] 0 false).
  destruct (open_all_spec _ _ _ _ _ D (pre ++ [(b, ds)]) [] w0 []) as (w1 & ls1 & E & Hop & Hc & Hcl).
  { done. }
  { split; [constructor|]. split; [done|]. split; [constructor|]. split; [constructor|].
    split; [done|]. split; [apply D|]. apply D. }
  destruct Hop as (Hst & Hsg & Hnd & Hfr & Hdw & Hif & Hab).
  unfold NewWAL. fold w0. rewrite (wal_files_sorted _ _ _ _ _ D).
  apply Forall2_app_inv_r in Hst as (ls & [|l [|]] & Hpre & Hlast & ->);
    [by inversion Hlast| |by inversion Hlast as [|? ? ? ? ? Hl]; inversion Hl].
  apply Forall2_cons in Hlast as [(s & Hs & Hok & Hbuf) _]. simpl in Hok.
  assert (exists x y, (pre ++ [(b, ds)]).*1 = x :: y) as (x & y & Exy)
    by (destruct pre as [|[? ?] ?]; simpl; eauto).
  rewrite Exy, <- Exy, E. rewrite Hsg, last_snoc. cbn [mbind option_bind].
  rewrite Hs. cbn [mbind option_bind]. eexists. split; [done|]. split; [done|].
  pose proof (dh_wal _ _ _ _ _ D) as Hw. apply Forall_app in Hw as [Hw1 Hw2].
  apply Forall_cons in Hw2 as [Hw2 _]. simpl in Hw2.
  exists ls, pre, l, b, ds, (seg_bytes b ds), (length ds). cbn. split.
  - split; cbn; try done.
    + by rewrite Hc.
    + apply Forall2_same_length_lookup. split; [by apply Forall2_length in Hpre|].
      intros i z p Hz Hp. destruct (Forall2_lookup_lr _ _ _ _ _ _ Hpre Hz Hp) as (sz & H1 & H2 & _).
      exists sz. split; [done|]. rewrite Hdw.
      pose proof (dh_ne _ _ _ _ _ D) as Hne. rewrite Forall_forall in Hw1, Hne.
      apply list_elem_of_lookup_2 in Hp. auto.
    + exists s, (seg_bytes b ds). by rewrite Hdw.
    + apply D.
    + apply Hok.
    + intros b' Hb'. split; [|by apply Hab]. rewrite Hdw.
      destruct (d_wal d !! b') eqn:Eb; [exfalso|done].
      pose proof (dh_only _ _ _ _ _ D b' ltac:(eauto)) as Hin.
      destruct (contiguous_sorted _ _ _ (dh_cont _ _ _ _ _ D) (dh_ne _ _ _ _ _ D)) as [Hso _].
      rewrite fmap_app in Hin. apply elem_of_app in Hin as [Hin|Hin]; [|simpl in Hin; set_solver by lia].
      apply StronglySorted_app in Hso as (Hso & _).
      specialize (Hso b' b Hin ltac:(set_solver)). lia.
    + intros z Hz. rewrite Hdw in Hz. by apply (dh_only _ _ _ _ _ D).
  - split; [by rewrite Hdw|]. split; [done|]. split; [apply flushed_all|].
    unfold wal_records. by rewrite length_app.
Qed.

Lemma wal_rep_bounds w live start ls pre l b ds :
  wal_rep w live start ls pre l b ds ->
  Forall (fun p => p.2 <> []) pre /\ Forall (fun p => Forall data_ok p.2) (pre ++ [(b, ds)])
  /\ 0 <= start /\ b + zlen ds < 2 ^ 63.
Proof.
  intros [Hcl Hsz Hsg Hcur Hnd Hfr Hpre Hlast Hcont Hnext Hab Hfs Hif].
  destruct Hlast as (s & c & Hs & Hc' & Hok & _).
  assert (forall i p, pre !! i = Some p -> p.2 <> [] /\ Forall data_ok p.2 /\ 0 <= p.1) as Hp.
  { intros i p Hp. destruct (Forall2_lookup_r _ _ _ _ _ Hpre Hp)
      as (x & _ & sx & _ & Hd & Hokx & Hne).
    pose proof (so_data _ _ _ _ Hokx). pose proof (so_lo _ _ _ _ Hokx). done. }
  split; [|split; [|split]].
  - apply Forall_lookup. intros i p Hi. by destruct (Hp i p Hi).
  - apply Forall_app. split; [|constructor; [apply Hok|constructor]].
    apply Forall_lookup. intros i p Hi. by destruct (Hp i p Hi) as (_ & ? & _).
  - destruct pre as [|[p0 d0] pre']; inversion Hcont; subst.
    + apply Hok.
    + by destruct (Hp 0%nat _ eq_refl) as (_ & _ & ?).
  - apply Hok.
Qed.

(** A log whose records are all in the files leaves such a directory behind:
    after [Sync], and after every append under [FsyncAlways]. *)
Lemma wal_holds_dir w live start rs :
  wal_holds w live start rs (length rs) ->
  exists pre b ds, dir_holds (w_dir w) start pre b ds /\ wal_records pre ds = rs.
Proof.
  intros (ls & pre & l & b & ds & content & k & R & Hc & -> & Hk & Hn).
  exists pre, b, ds. split; [|done].
  assert (k = length ds) as ->
    by (unfold wal_records in Hn; rewrite length_app in Hn; lia).
  destruct (wal_rep_bounds _ _ _ _ _ _ _ _ R) as (Hne & Hdat & Hlo & Hhi).
  destruct R as [Hcl Hsz Hsg Hcur Hnd Hfr Hpre Hlast Hcont Hnext Hab Hfs Hif].
  destruct Hlast as (s & c & Hs & Hc' & Hok & _).
  rewrite Hc in Hc'. injection Hc' as <-.
  assert (content = seg_bytes b ds) as ->.
  { destruct Hk as (_ & Hk & _). rewrite rec_pos_full in Hk.
    rewrite <- (so_flat _ _ _ _ Hok), length_app in Hk.
    rewrite <- (so_flat _ _ _ _ Hok).
    assert (bw_buf (s_writer s) = []) as -> by (apply length_zero_iff_nil; lia).
    by rewrite app_nil_r. }
  split; try done.
  - apply Forall_app. split; [|by repeat constructor].
    apply Forall_lookup. intros i p Hi.
    by destruct (Forall2_lookup_r _ _ _ _ _ Hpre Hi) as (x & _ & sx & _ & Hd & _).
  - intros x Hx. by apply Hab.
Qed.

(** ** Closing the log *)

(** [close] writes what is buffered and the index before it closes the files. *)
Lemma seg_close_spec s content icontent base ds :
  seg_ok s content base ds -> seg_live s content \/ bw_buf (s_writer s) = [] ->
  exists s' icontent',
    seg_close s content icontent = (None, s', seg_bytes base ds, icontent')
    /\ s_baseOffset s' = base
    /\ (ifile_ok (Some icontent) base ds -> ifile_ok (Some icontent') base ds).
Proof.
  intros Hok Hl. pose proof Hok as [Hb Hn Hsz Hfl He Ho Hix Hio Hd Hlo Hhi].
  assert (exists w h', Flush (seg_wstate s content) = (None, (w, h', seg_bytes base ds))
      /\ h_open h' = true) as (w & h' & E & Ho').
  { destruct Hl as [Hl|Hl].
    - destruct (Flush_ok _ Hl) as ([[w h'] c] & -> & (_ & Ho' & _) & Hf & Hbuf & _).
      simpl in Hf, Hbuf. rewrite Hbuf, app_nil_r, Hfl in Hf. subst c. eauto.
    - destruct s as [sb sn sz sf [bf e] si]. simpl in *. subst bf e.
      rewrite app_nil_r in Hfl. subst content. eauto. }
  unfold seg_close. rewrite E. cbn [with_writer s_file s_index s_baseOffset].
  unfold file_Close. rewrite Ho'. cbn [s_index set_file].
  unfold Index.Close, Index.Sync. rewrite Hio.
  destruct (ix_dirty (s_index s)); cbn [negb ix_open]; rewrite ?Hio;
    (do 2 eexists; split; [done|]; split; [done|]); [intros _ c [= <-]|done].
  exists (ix_entries (s_index s)). split; [done|]. destruct Hix as (H1 & H2 & H3). by repeat split.
Qed.

(** The segments still to be closed, all of them, and the directory. *)
Record closing (w : walImpl) (todo : list nat) (rest segs : list (Z * list bytes)) (b : Z)
    : Prop := {
  cl_todo : Forall2 (fun x p => exists s content,
      w_store w !! x = Some s /\ d_wal (w_dir w) !! p.1 = Some content
      /\ seg_ok s content p.1 p.2
      /\ (seg_live s content \/ bw_buf (s_writer s) = [])) todo rest;
  cl_nodup : NoDup todo /\ NoDup segs.*1;
  cl_done : exists don, don ++ rest = segs
      /\ Forall (fun p => d_wal (w_dir w) !! p.1 = Some (seg_bytes p.1 p.2)) don;
  cl_only : forall x, is_Some (d_wal (w_dir w) !! x) -> x ∈ segs.*1;
  cl_ifiles : Forall (fun p => ifile_ok (d_index (w_dir w) !! p.1) p.1 p.2) segs;
  cl_above : forall x, b < x -> d_index (w_dir w) !! x = None
}.

Lemma NoDup_fst_eq {A B} (l : list (A * B)) p q :
  NoDup l.*1 -> p ∈ l -> q ∈ l -> p.1 = q.1 -> p = q.
Proof.
  intros Hn [i Hi]%list_elem_of_lookup [j Hj]%list_elem_of_lookup E.
  assert (i = j) as ->; [|congruence].
  eapply (NoDup_lookup _ i j q.1); [exact Hn| |]; rewrite list_lookup_fmap;
    [rewrite Hi; simpl; congruence|by rewrite Hj].
Qed.

Lemma close_seg_closing w x todo p rest segs b :
  closing w (x :: todo) (p :: rest) segs b ->
  exists w', close_seg w x = Some w' /\ closing w' todo rest segs b
    /\ w_closed w' = w_closed w.
Proof.
  intros [Htodo [Hnd Hnb] (don & Hsp & Hdon) Honly Hif Hab].
  apply Forall2_cons in Htodo as [(s & content & Hs & Hc & Hok & Hl) Htodo].
  apply NoDup_cons in Hnd as [Hx Hnd].
  pose proof (so_base _ _ _ _ Hok) as Hb.
  assert (p ∈ segs) as Hp by (rewrite <- Hsp; set_solver).
  unfold close_seg. rewrite Hs. cbn [mbind option_bind].
  assert (content_of w s = content) as -> by (unfold content_of; by rewrite Hb, Hc).
  destruct (seg_close_spec s content (icontent_of w s) _ _ Hok Hl) as (s' & ic & -> & Hb' & Hic).
  eexists. split; [done|]. split; [|done].
  assert (forall q, q ∈ segs -> q <> p -> q.1 <> p.1) as Hne
    by (intros q Hq Hqp E; by apply Hqp, (NoDup_fst_eq segs)).
  assert (NoDup (don ++ p :: rest)) as Hnp
    by (rewrite Hsp; by eapply (NoDup_fmap_1 fst)).
  apply NoDup_app in Hnp as (_ & Hd1 & Hd2). apply NoDup_cons in Hd2 as [Hd2 _].
  split; cbn; rewrite ?Hb'.
  - apply Forall2_same_length_lookup. split; [by apply Forall2_length in Htodo|].
    intros i y q Hy Hq. destruct (Forall2_lookup_lr _ _ _ _ _ _ Htodo Hy Hq)
      as (sq & cq & H1 & H2 & H3).
    apply list_elem_of_lookup_2 in Hy, Hq.
    exists sq, cq. rewrite lookup_insert_ne by (intros ->; done).
    rewrite lookup_alter_ne; [done|]. intros E. symmetry in E. revert E. apply Hne.
    + rewrite <- Hsp. set_solver.
    + intros ->. done.
  - done.
  - exists (don ++ [p]). split; [by rewrite <- (assoc_L (++))|]. apply Forall_app. split.
    + rewrite Forall_forall in Hdon |- *. intros q Hq. rewrite lookup_alter_ne; [by apply Hdon|].
      intros E. symmetry in E. revert E. apply Hne; [rewrite <- Hsp; set_solver|].
      intros ->. apply (Hd1 p Hq). set_solver.
    + repeat constructor. rewrite lookup_alter_eq, Hc. done.
  - intros y Hy. rewrite lookup_alter_is_Some in Hy. by apply Honly.
  - rewrite Forall_forall in Hif |- *. intros q Hq.
    destruct (decide (q = p)) as [->|Hqp].
    2: { rewrite lookup_alter_ne; [by apply Hif|]. intros E. by apply (Hne q Hq Hqp). }
    rewrite lookup_alter_eq. specialize (Hif p Hq). unfold icontent_of in Hic. rewrite Hb in Hic.
    destruct (d_index (w_dir w) !! p.1); [by apply Hic|by intros c].
  - intros y Hy. destruct (decide (y = p.1)) as [->|]; [|rewrite lookup_alter_ne by done; by apply Hab].
    rewrite lookup_alter_eq, Hab; done.
Qed.

Lemma close_all_closing : forall todo rest w segs b,
  closing w todo rest segs b ->
  exists w', close_all w todo = Some w' /\ closing w' [] [] segs b /\ w_closed w' = w_closed w.
Proof.
  induction todo as [|x todo IH]; intros rest w segs b C.
  - pose proof (cl_todo _ _ _ _ _ C) as H. inversion H. subst. by exists w.
  - pose proof (cl_todo _ _ _ _ _ C) as H. destruct rest as [|p rest]; [inversion H|].
    destruct (close_seg_closing _ _ _ _ _ _ _ C) as (w1 & E & C1 & Hcl). cbn [close_all].
    rewrite E. cbn [mbind option_bind].
    destruct (IH _ _ _ _ C1) as (w2 & -> & C2 & Hcl2). exists w2. by rewrite Hcl2.
Qed.

(** The invariant relates the structs of a log to those to be closed. *)
Lemma wal_rep_closing w live start ls pre l b ds :
  wal_rep w live start ls pre l b ds -> closing w (ls ++ [l]) (pre ++ [(b, ds)]) (pre ++ [(b, ds)]) b.
Proof.
  intros R. destruct (wal_rep_bounds _ _ _ _ _ _ _ _ R) as (Hne & _).
  destruct R as [Hc Hsz Hsg Hcur Hnd Hfr Hpre Hlast Hcont Hnext Hab Hfs Hif].
  split; try done.
  - apply Forall2_app.
    + eapply Forall2_impl; [exact Hpre|]. intros x p (s & H1 & H2 & H3 & H4).
      exists s, (seg_bytes p.1 p.2). split; [done|]. split; [done|]. split; [done|]. right.
      pose proof (so_flat _ _ _ _ H3) as Hf. apply (f_equal length) in Hf.
      rewrite length_app in Hf. apply length_zero_iff_nil. lia.
    + repeat constructor. destruct Hlast as (s & content & H1 & H2 & H3 & H4).
      exists s, content. destruct live; auto.
  - split; [done|]. rewrite fmap_app. apply StronglySorted_lt_le.
    by destruct (contiguous_sorted _ _ _ Hcont Hne).
  - by exists [].
  - intros x Hx. by apply Hab.
Qed.

(** [Close] succeeds and leaves all records in the files. *)
Lemma WAL_Close_holds w live start rs n :
  wal_holds w live start rs n ->
  exists w' pre b ds, WAL_Close w = Some w' /\ w_closed w' = true
    /\ dir_holds (w_dir w') start pre b ds /\ wal_records pre ds = rs.
Proof.
  intros (ls & pre & l & b & ds & content & k & R & _ & -> & _).
  unfold WAL_Close. rewrite (wr_closed _ _ _ _ _ _ _ _ R), (wr_segments _ _ _ _ _ _ _ _ R).
  match goal with |- context [close_all ?w0 _] =>
    destruct (close_all_closing (ls ++ [l]) (pre ++ [(b, ds)]) w0 (pre ++ [(b, ds)]) b)
      as (w' & -> & C & Hcl)
  end; [by destruct (wal_rep_closing _ _ _ _ _ _ _ _ R)|].
  exists w', pre, b, ds. split; [done|]. split; [done|]. split; [|done].
  destruct C as [_ _ (don & Hd & Hdon) Honly Hif Hab]. rewrite app_nil_r in Hd. subst don.
  destruct (wal_rep_bounds _ _ _ _ _ _ _ _ R) as (Hne & Hdat & Hlo & Hhi).
  split; try done. apply R.
Qed.
