(* ===== verification/WalSpec.v ===== *)
(** * What the write-ahead log guarantees

    The interface the partition log uses the write-ahead log through, as a class
    of operations and a class of laws, with [walImpl] as its instance; and the
    theorems on whole runs: every sequence of operations refines an abstract log
    with a readable prefix, opening the files again gives the records back, and
    what truncation, a torn file and a corrupted payload do. *)

From S2P Require Import Prelude GoBytes Record Index GoFiles Wal.
From stdpp Require Import prelude list sorting gmap.
From Stdlib Require Import ZArith Lia Strings.Byte.

Open Scope Z_scope.

(** ** The interface *)

Class WalOps (W : Type) := {
  wal_Append : W -> bytes -> option (result storage_error Z * W);
  wal_Read : W -> Z -> option (result storage_error bytes * W);
  wal_Sync : W -> option (option storage_error * W);
  wal_Truncate : W -> Z -> option (option storage_error * W);
  wal_NextOffset : W -> Z;
  wal_Close : W -> option W
}.

(** [wlog w live start rs n]: the log holds the records [rs] from offset
    [start], the first [n] of them readable; a log that is [live] accepts
    appends.  [walways] is the policy that syncs every append. *)
Class WalLaws (W : Type) `{WalOps W} := {
  wlog : W -> bool -> Z -> list bytes -> nat -> Prop;
  walways : W -> bool;
  wlog_next w live start rs n : wlog w live start rs n -> wal_NextOffset w = start + zlen rs;
  wlog_bounds w live start rs n :
    wlog w live start rs n -> 0 <= start /\ start + zlen rs < 2 ^ 63 /\ (n ≤ length rs)%nat;
  wlog_append w start rs n d :
    wlog w true start rs n -> data_ok d -> start + zlen rs + 1 < 2 ^ 63 ->
    exists w' n', wal_Append w d = Some (Ok (start + zlen rs), w')
      /\ wlog w' true start (rs ++ [d]) n' /\ (n ≤ n')%nat /\ walways w' = walways w
      /\ (walways w = true -> n' = S (length rs));
  wlog_read w live start rs n o :
    wlog w live start rs n ->
    exists r w', wal_Read w o = Some (r, w') /\ wlog w' live start rs n
      /\ walways w' = walways w
      /\ (o < start \/ start + zlen rs <= o -> r = Err ErrOffsetOutOfRange)
      /\ (forall i d, o = start + Z.of_nat i -> rs !! i = Some d ->
            if decide (i < n)%nat then r = Ok d else exists e, r = Err e);
  wlog_sync w live start rs n :
    wlog w live start rs n ->
    exists w', wal_Sync w = Some (None, w') /\ wlog w' live start rs (length rs)
      /\ walways w' = walways w;
  wlog_truncate_total w live start rs n before :
    wlog w live start rs n -> exists w', wal_Truncate w before = Some (None, w')
}.

#[export] Instance wal_ops : WalOps walImpl := {|
  wal_Append := WAL_Append;
  wal_Read := WAL_Read;
  wal_Sync := WAL_Sync;
  wal_Truncate := WAL_Truncate;
  wal_NextOffset := NextOffset;
  wal_Close := WAL_Close
|}.

Definition always (w : walImpl) : bool := bool_decide (c_FsyncPolicy (w_config w) = FsyncAlways).

Lemma wal_holds_next w live start rs n :
  wal_holds w live start rs n -> w_nextOffset w = start + zlen rs.
Proof.
  intros (ls & pre & l & b & ds & content & k & R & _ & -> & _).
  rewrite <- (wal_records_snoc pre b). apply contiguous_length, (wal_contiguous _ _ _ _ _ _ _ _ R).
Qed.

Lemma wal_holds_bounds w live start rs n :
  wal_holds w live start rs n -> 0 <= start /\ start + zlen rs < 2 ^ 63 /\ (n ≤ length rs)%nat.
Proof.
  intros Hh. rewrite <- (wal_holds_next _ _ _ _ _ Hh).
  destruct Hh as (ls & pre & l & b & ds & content & k & R & _ & -> & Hk & ->).
  destruct (wal_rep_bounds _ _ _ _ _ _ _ _ R) as (_ & _ & Hlo & Hhi).
  rewrite (wr_next _ _ _ _ _ _ _ _ R). unfold wal_records. rewrite length_app.
  destruct Hk as (Hk & _). lia.
Qed.

Lemma truncate_loop_total before : forall segs w keep,
  Forall (fun l => is_Some (w_store w !! l)) segs ->
  exists r, truncate_loop w before segs keep = Some r.
Proof.
  induction segs as [|l segs IH]; intros w keep H; cbn [truncate_loop]; [eauto|].
  apply Forall_cons in H as [[s Hs] H]. rewrite Hs. cbn [mbind option_bind].
  destruct (before <=? s_baseOffset s); [by apply IH|].
  unfold close_seg. rewrite Hs. cbn [mbind option_bind].
  destruct (seg_close _ _ _) as [[[e s'] c] ic]. cbn [mbind option_bind]. apply IH.
  eapply Forall_impl; [exact H|]. intros x Hx. simpl in *. cbn.
  destruct (decide (l = x)) as [->|]; [by rewrite lookup_insert_eq|by rewrite lookup_insert_ne].
Qed.

Lemma WAL_Truncate_total w live start rs n before :
  wal_holds w live start rs n -> exists w', WAL_Truncate w before = Some (None, w').
Proof.
  intros (ls & pre & l & b & ds & content & k & R & _).
  unfold WAL_Truncate. rewrite (wr_closed _ _ _ _ _ _ _ _ R).
  destruct (truncate_loop_total before (w_segments w) w []) as [[w' keep] ->].
  - rewrite (wr_segments _ _ _ _ _ _ _ _ R). apply Forall_app. split.
    + apply Forall_lookup. intros i x Hx.
      destruct (Forall2_lookup_l _ _ _ _ _ (wr_pre _ _ _ _ _ _ _ _ R) Hx) as (p & _ & s & Hs & _). eauto.
    + repeat constructor. destruct (wr_last _ _ _ _ _ _ _ _ R) as (s & c & Hs & _). eauto.
  - cbn. eauto.
Qed.

#[export] Program Instance wal_laws : WalLaws walImpl := {|
  wlog := wal_holds;
  walways := always
|}.
Next Obligation. apply wal_holds_next. Qed.
Next Obligation. apply wal_holds_bounds. Qed.
Next Obligation.
  intros w start rs n d Hh Hd Hmax. unfold always.
  destruct (WAL_Append_holds _ _ _ _ _ _ Hh (or_introl eq_refl) Hd Hmax)
    as (w' & n' & E & Hh' & Hle & Hc & Ha).
  exists w', n'. rewrite Hc. repeat split; auto. intros H%bool_decide_eq_true. by apply Ha.
Qed.
Next Obligation.
  intros w live start rs n o Hh. unfold always.
  destruct (WAL_Read_holds _ _ _ _ _ o Hh) as (r & w' & E & Hh' & Hc & _ & H1 & H2).
  exists r, w'. rewrite Hc. auto.
Qed.
Next Obligation.
  intros w live start rs n Hh. unfold always.
  destruct (WAL_Sync_holds _ _ _ _ _ Hh) as (w' & E & Hh' & Hc). exists w'. by rewrite Hc.
Qed.
Next Obligation. exact WAL_Truncate_total. Qed.

(** ** Runs of the log refine an abstract log *)

Inductive wal_op := OpAppend (d : bytes) | OpRead (o : Z) | OpSync.
Inductive wal_out := OutOffset (r : result storage_error Z) | OutData (r : result storage_error bytes)
  | OutDone (e : option storage_error).

Definition wal_step (w : walImpl) (op : wal_op) : option (wal_out * walImpl) :=
  match op with
  | OpAppend d => '(r, w) ← WAL_Append w d; Some (OutOffset r, w)
  | OpRead o => '(r, w) ← WAL_Read w o; Some (OutData r, w)
  | OpSync => '(e, w) ← WAL_Sync w; Some (OutDone e, w)
  end.

Fixpoint wal_run (w : walImpl) (ops : list wal_op) : option (list wal_out * walImpl) :=
  match ops with
  | [] => Some ([], w)
  | op :: ops' =>
      '(out, w) ← wal_step w op;
      '(outs, w) ← wal_run w ops';
      Some (out :: outs, w)
  end.

(** The abstract log: its records and how many of them can be read.  An append
    returns the next offset and may make more records readable, all of them
    when every append is synced; a read outside the readable prefix fails. *)
Inductive spec_step (sync_all : bool) : list bytes * nat -> wal_op -> wal_out -> list bytes * nat -> Prop :=
| spec_append rs n n' d :
    (n ≤ n' ≤ S (length rs))%nat -> (sync_all = true -> n' = S (length rs)) ->
    spec_step sync_all (rs, n) (OpAppend d) (OutOffset (Ok (zlen rs))) (rs ++ [d], n')
| spec_sync rs n : spec_step sync_all (rs, n) OpSync (OutDone None) (rs, length rs)
| spec_read rs n i d :
    rs !! i = Some d -> (i < n)%nat ->
    spec_step sync_all (rs, n) (OpRead (Z.of_nat i)) (OutData (Ok d)) (rs, n)
| spec_read_buffered rs n i e :
    (n ≤ i < length rs)%nat ->
    spec_step sync_all (rs, n) (OpRead (Z.of_nat i)) (OutData (Err e)) (rs, n)
| spec_read_outside rs n o :
    o < 0 \/ zlen rs <= o ->
    spec_step sync_all (rs, n) (OpRead o) (OutData (Err ErrOffsetOutOfRange)) (rs, n).

Inductive spec_run (sync_all : bool) : list bytes * nat -> list wal_op -> list wal_out ->
    list bytes * nat -> Prop :=
| run_nil a : spec_run sync_all a [] [] a
| run_cons a op out a1 ops outs a2 :
    spec_step sync_all a op out a1 -> spec_run sync_all a1 ops outs a2 ->
    spec_run sync_all a (op :: ops) (out :: outs) a2.

Definition op_ok (op : wal_op) : Prop :=
  match op with OpAppend d => data_ok d | _ => True end.

Lemma wal_step_spec w rs n op :
  wal_holds w true 0 rs n -> op_ok op -> zlen rs + 1 < 2 ^ 63 ->
  exists out w' rs' n', wal_step w op = Some (out, w') /\ wal_holds w' true 0 rs' n'
    /\ spec_step (always w) (rs, n) op out (rs', n') /\ always w' = always w
    /\ (length rs' ≤ S (length rs))%nat.
Proof.
  intros Hh Hop Hmax. destruct op as [d|o|]; cbn [wal_step op_ok] in *.
  - destruct (wlog_append (WalLaws := wal_laws) w 0 rs n d Hh Hop Hmax) as (w' & n' & E & Hh' & Hle & Hc & Ha).
    simpl in E. rewrite E. cbn [mbind option_bind]. exists (OutOffset (Ok (zlen rs))), w', (rs ++ [d]), n'.
    pose proof (wal_holds_bounds _ _ _ _ _ Hh') as (_ & _ & Hn). rewrite length_app in Hn |- *.
    simpl in *. split; [done|]. split; [done|]. split; [|split; [done|lia]].
    constructor; [lia|]. apply Ha.
  - destruct (wlog_read (WalLaws := wal_laws) w true 0 rs n o Hh) as (r & w' & E & Hh' & Hc & Hout & Hin).
    simpl in E. rewrite E. cbn [mbind option_bind]. exists (OutData r), w', rs, n.
    split; [done|]. split; [done|]. split; [|split; [done|lia]].
    destruct (decide (o < 0 \/ zlen rs <= o)) as [Ho|Ho].
    { rewrite (Hout Ho). by constructor. }
    destruct (lookup_lt_is_Some_2 rs (Z.to_nat o)) as [d Hd]; [lia|].
    specialize (Hin (Z.to_nat o) d ltac:(lia) Hd).
    replace o with (Z.of_nat (Z.to_nat o)) by lia. destruct (decide (Z.to_nat o < n)%nat).
    + subst r. by constructor.
    + destruct Hin as [e ->]. constructor. lia.
  - destruct (wlog_sync (WalLaws := wal_laws) w true 0 rs n Hh) as (w' & E & Hh' & Hc). simpl in E. rewrite E.
    cbn [mbind option_bind]. exists (OutDone None), w', rs, (length rs).
    split; [done|]. split; [done|]. split; [constructor|]. split; [done|lia].
Qed.

Lemma wal_run_spec : forall ops w rs n,
  wal_holds w true 0 rs n -> Forall op_ok ops -> zlen rs + zlen ops < 2 ^ 63 ->
  exists outs w' rs' n', wal_run w ops = Some (outs, w') /\ wal_holds w' true 0 rs' n'
    /\ spec_run (always w) (rs, n) ops outs (rs', n') /\ always w' = always w.
Proof.
  induction ops as [|op ops IH]; intros w rs n Hh Hok Hmax.
  { exists [], w, rs, n. repeat split; auto. constructor. }
  apply Forall_cons in Hok as [Ho Hok]. simpl in Hmax.
  destruct (wal_step_spec w rs n op Hh Ho ltac:(lia)) as (out & w1 & rs1 & n1 & E1 & Hh1 & Hs & Ha & Hl).
  destruct (IH w1 rs1 n1 Hh1 Hok ltac:(lia)) as (outs & w2 & rs2 & n2 & E2 & Hh2 & Hr & Ha2).
  cbn [wal_run]. rewrite E1. cbn [mbind option_bind]. rewrite E2. cbn [mbind option_bind].
  exists (out :: outs), w2, rs2, n2. split; [done|]. split; [done|]. split; [|congruence].
  rewrite Ha in Hr. by econstructor.
Qed.

(** C4: every sequence of appends, reads and syncs on a new write-ahead log,
    whatever the segment size and the sync policy, runs without panic and
    behaves like the abstract log: offsets are consecutive from 0, nothing that
    could be read is lost when segments roll over, everything can be read after
    a sync, and after every append when each append is synced. *)
Theorem wal_refines (config : WALConfig) (ops : list wal_op) :
  config_ok config -> Forall op_ok ops -> zlen ops < 2 ^ 63 ->
  exists w0 outs w rs n,
    NewWAL (mkDir ∅ ∅) config = Some (Ok w0) /\ wal_run w0 ops = Some (outs, w)
    /\ spec_run (bool_decide (c_FsyncPolicy config = FsyncAlways)) ([], 0%nat) ops outs (rs, n)
    /\ NextOffset w = zlen rs.
Proof.
  intros Hc Hok Hl. destruct (NewWAL_empty config Hc) as (w0 & E0 & H0 & Hcf).
  destruct (wal_run_spec ops w0 [] 0 H0 Hok ltac:(simpl; lia))
    as (outs & w & rs & n & Er & Hh & Hr & _).
  exists w0, outs, w, rs, n. split; [done|]. split; [done|]. unfold always in Hr.
  rewrite Hcf in Hr. split; [done|]. exact (wal_holds_next _ _ _ _ _ Hh).
Qed.

(** ** Restarts *)

Lemma reopened_reads d start pre b ds config :
  dir_holds d start pre b ds -> config_ok config ->
  exists w, NewWAL d config = Some (Ok w) /\ NextOffset w = start + zlen (wal_records pre ds)
    /\ forall i r, wal_records pre ds !! i = Some r ->
         exists w', WAL_Read w (start + Z.of_nat i) = Some (Ok r, w').
Proof.
  intros D Hc. destruct (NewWAL_reopen _ _ _ _ _ config D Hc) as (w & E & _ & Hh).
  exists w. split; [done|]. split; [exact (wal_holds_next _ _ _ _ _ Hh)|].
  intros i r Hi. destruct (WAL_Read_holds _ _ _ _ _ (start + Z.of_nat i) Hh)
    as (x & w' & Er & _ & _ & _ & _ & Hin).
  specialize (Hin i r eq_refl Hi). pose proof (lookup_lt_Some _ _ _ Hi).
  rewrite decide_True in Hin by done. exists w'. by rewrite Er, Hin.
Qed.

(** C10: what was synced survives a crash: after any operations and a [Sync],
    opening the files again, with any segment size, gives a log with the same
    next offset in which every record reads back at its offset. *)
Theorem wal_synced_survives (config config' : WALConfig) (ops : list wal_op) :
  config_ok config -> config_ok config' -> Forall op_ok ops -> zlen ops < 2 ^ 63 ->
  exists w0 outs w w1 w2 rs n,
    NewWAL (mkDir ∅ ∅) config = Some (Ok w0) /\ wal_run w0 ops = Some (outs, w)
    /\ spec_run (bool_decide (c_FsyncPolicy config = FsyncAlways)) ([], 0%nat) ops outs (rs, n)
    /\ WAL_Sync w = Some (None, w1) /\ NewWAL (w_dir w1) config' = Some (Ok w2)
    /\ NextOffset w2 = zlen rs
    /\ forall i d, rs !! i = Some d -> exists w3, WAL_Read w2 (Z.of_nat i) = Some (Ok d, w3).
Proof.
  intros Hc Hc' Hok Hl. destruct (NewWAL_empty config Hc) as (w0 & E0 & H0 & Hcf).
  destruct (wal_run_spec ops w0 [] 0 H0 Hok ltac:(simpl; lia))
    as (outs & w & rs & n & Er & Hh & Hr & _).
  unfold always in Hr. rewrite Hcf in Hr.
  destruct (WAL_Sync_holds _ _ _ _ _ Hh) as (w1 & Es & Hh1 & _).
  destruct (wal_holds_dir _ _ _ _ Hh1) as (pre & b & ds & D & <-).
  destruct (reopened_reads _ _ _ _ _ config' D Hc') as (w2 & E2 & Hn & Hrd).
  exists w0, outs, w, w1, w2, (wal_records pre ds), n. repeat split; auto.
Qed.

(** A clean shutdown keeps everything: [Close] writes what is still
    buffered, and opening the files again gives every record back. *)
Theorem wal_close_reopen (config config' : WALConfig) (ops : list wal_op) :
  config_ok config -> config_ok config' -> Forall op_ok ops -> zlen ops < 2 ^ 63 ->
  exists w0 outs w w1 w2 rs n,
    NewWAL (mkDir ∅ ∅) config = Some (Ok w0) /\ wal_run w0 ops = Some (outs, w)
    /\ spec_run (bool_decide (c_FsyncPolicy config = FsyncAlways)) ([], 0%nat) ops outs (rs, n)
    /\ WAL_Close w = Some w1 /\ NewWAL (w_dir w1) config' = Some (Ok w2)
    /\ NextOffset w2 = zlen rs
    /\ forall i d, rs !! i = Some d -> exists w3, WAL_Read w2 (Z.of_nat i) = Some (Ok d, w3).
Proof.
  intros Hc Hc' Hok Hl. destruct (NewWAL_empty config Hc) as (w0 & E0 & H0 & Hcf).
  destruct (wal_run_spec ops w0 [] 0 H0 Hok ltac:(simpl; lia))
    as (outs & w & rs & n & Er & Hh & Hr & _).
  unfold always in Hr. rewrite Hcf in Hr.
  destruct (WAL_Close_holds _ _ _ _ _ Hh) as (w1 & pre & b & ds & Ec & _ & D & <-).
  destruct (reopened_reads _ _ _ _ _ config' D Hc') as (w2 & E2 & Hn & Hrd).
  exists w0, outs, w, w1, w2, (wal_records pre ds), n. repeat split; auto.
Qed.

(** ** A torn file *)

Lemma scan_loop_torn base ds cut : forall n j fuel next idx,
  Forall data_ok ds -> 0 <= base -> base + zlen ds < 2 ^ 63 ->
  (j + S n = length ds)%nat ->
  (rec_pos base ds (j + n) < cut < length (seg_bytes base ds))%nat ->
  exists e, scan_loop fuel (take cut (seg_bytes base ds)) (Z.of_nat (rec_pos base ds j)) next idx
    = Err e.
Proof.
  induction n as [|n IH]; intros j fuel next idx Hds Hlo Hhi Hj Hcut;
    (destruct fuel as [|fuel]; [simpl; eauto|]); cbn [scan_loop]; rewrite Nat2Z.id, skipn_firstn_comm;
    (destruct (lookup_lt_is_Some_2 ds j) as [d Hd]; [lia|]);
    (assert (data_ok d) as Hdo by (by eapply Forall_lookup_1));
    (destruct (rest_at (seg_bytes base ds) base ds [] [] eq_refl j d Hd) as [tail Ht]);
    rewrite app_nil_r in Ht; rewrite Ht; set (p := rec_pos base ds j) in *;
    (destruct (be_dec_header (base + Z.of_nat j) d tail) as [E1 E2]; [unfold in_i64; lia|done|]);
    pose proof (record_bytes_length (base + Z.of_nat j) d) as Lr;
    set (rest := record_bytes (base + Z.of_nat j) d ++ tail) in *;
    assert (length rest = length (seg_bytes base ds) - p)%nat as Lrest
      by (rewrite <- Ht; apply length_drop);
    (assert (cut - p ≤ length rest)%nat by lia);
    pose proof (rec_pos_S base _ _ _ Hd) as Hp; fold p in Hp;
    rewrite length_take, Nat.min_l by done; unfold recordHeaderSize.
  - rewrite Nat.add_0_r in Hcut. fold p in Hcut.
    rewrite bool_decide_false by (intros E%(f_equal length); rewrite length_take in E; simpl in E; lia).
    destruct (Z.ltb_spec (Z.of_nat (cut - p)) 16); [eauto|].
    rewrite take_take, Nat.min_l, E1 by lia.
    assert (length (seg_bytes base ds) = p + 16 + length d)%nat
      by (rewrite <- rec_pos_full; replace (length ds) with (S j) by lia; done).
    destruct (Z.ltb_spec (Z.of_nat (cut - p)) (16 + zlen d)); [eauto|lia].
  - pose proof (rec_pos_mono base ds (S j) (j + S n) ltac:(lia)).
    rewrite bool_decide_false by (intros E%(f_equal length); rewrite length_take in E; simpl in E; lia).
    destruct (Z.ltb_spec (Z.of_nat (cut - p)) 16); [lia|].
    rewrite take_take, Nat.min_l, E1 by lia.
    destruct (Z.ltb_spec (Z.of_nat (cut - p)) (16 + zlen d)); [lia|].
    replace (Z.of_nat p + 16 + zlen d) with (Z.of_nat (rec_pos base ds (S j))) by lia.
    apply IH; try done; try lia. by replace (S j + n)%nat with (j + S n)%nat by lia.
Qed.

(** A segment file that ends inside its last record, as a crash during a
    write leaves it, makes opening the whole log fail: the complete records
    before the torn one become unreachable. *)
Theorem wal_torn_tail_fails (config : WALConfig) (base : Z) (ds : list bytes) (cut : nat) :
  Forall data_ok ds -> 0 <= base -> base + zlen ds < 2 ^ 63 ->
  (rec_pos base ds (length ds - 1) < cut < length (seg_bytes base ds))%nat ->
  exists e, NewWAL (mkDir {[base := take cut (seg_bytes base ds)]} ∅) config = Some (Err e).
Proof.
  intros Hds Hlo Hhi Hcut. unfold NewWAL.
  replace (wal_files _) with [base].
  2: { unfold wal_files. cbn [d_wal]. by rewrite map_to_list_singleton. }
  cbn [open_all w_dir]. unfold openWALSegment. cbn [d_wal d_index].
  rewrite lookup_singleton_eq, lookup_empty. cbn [NewIndex default id]. unfold seg_scan.
  destruct ds as [|d ds']; [simpl in Hcut; lia|]. set (ds := d :: ds') in *.
  destruct (scan_loop_torn base ds cut (length ds') 0 (S (length (take cut (seg_bytes base ds))))
    base (mkIndex [] false true) Hds Hlo Hhi) as [e E].
  { done. }
  { simpl in Hcut |- *. rewrite Nat.sub_0_r in Hcut. done. }
  change (Z.of_nat (rec_pos base ds 0)) with 0 in E.
  cbn [s_nextOffset s_index]. rewrite E. by exists e.
Qed.

(** ** A corrupted payload *)

(** Corruption of a payload is detected: when the bytes of a record in the
    file are not those that were written, and their checksum differs, reading
    the record returns [ErrChecksumMismatch] wherever the index leads, and no
    data. *)
Theorem wal_checksum_detects (s : walSegment) (base : Z) (ds : list bytes) (d d' rest : bytes) :
  Forall data_ok (ds ++ [d]) -> 0 <= base -> base + zlen ds + 1 < 2 ^ 63 ->
  s_baseOffset s = base -> base + zlen ds < s_nextOffset s -> h_open (s_file s) = true ->
  idx_sound (s_index s) base (ds ++ [d]) ->
  length d' = length d -> crc32c d' <> crc32c d ->
  (seg_read s (seg_bytes base ds ++ record_header (base + zlen ds) d ++ d' ++ rest)
     (base + zlen ds)).1 = Err ErrChecksumMismatch.
Proof.
  intros Hds Hlo Hhi Hb Hn Ho Hix Hlen Hcrc.
  apply Forall_app in Hds as [Hds Hd]. apply Forall_cons in Hd as [Hd _].
  set (hd := record_header (base + zlen ds) d).
  set (content := seg_bytes base ds ++ hd ++ d' ++ rest).
  unfold seg_read. rewrite Hb. destruct (Z.ltb_spec (base + zlen ds) base); [lia|].
  destruct (Z.leb_spec (s_nextOffset s) (base + zlen ds)); [lia|]. cbn [orb].
  destruct (index_position _ _ _ (length ds) Hix) as (j & Hj & ->);
    [rewrite length_app; simpl; lia|].
  rewrite rec_pos_app by done. unfold file_Seek. rewrite Ho. cbn [negb].
  set (h0 := set_pos (s_file s) _).
  assert (rok content ([], h0) (rec_pos base ds j)) as Hst
    by (split; simpl; [by rewrite Nat.add_0_r|apply prefix_nil]).
  pose proof (rec_pos_full base ds) as Hfull.
  pose proof (rec_pos_len base ds (length ds)) as Hpl.
  assert (length hd = 16)%nat as Lh by apply record_header_length.
  assert (length content = rec_pos base ds (length ds) + (16 + (length d' + length rest)))%nat as Lc
    by (unfold content; rewrite !length_app, Lh, Hfull; done).
  destruct (read_loop_skip content base ds [] (hd ++ d' ++ rest) (app_nil_r _) Hds Hlo ltac:(lia)
    (length ds - j) j (S (length content)) ([], h0)) as (st' & -> & Hst'); [lia..|done|].
  destruct (S (length content) - (length ds - j))%nat as [|fuel] eqn:Ef; [lia|].
  cbn [read_loop].
  assert (drop (rec_pos base ds (length ds)) content = hd ++ d' ++ rest) as Ed
    by (rewrite Hfull; apply drop_app_length).
  pose proof (ReadFull_spec content 16 st' _ Hst') as H1. cbv zeta in H1.
  rewrite Ed, decide_True in H1 by (rewrite length_app; lia). destruct H1 as (st1 & -> & Hst1).
  replace (take 16 (hd ++ d' ++ rest)) with hd by (rewrite <- Lh; by rewrite take_app_length).
  unfold hd at 1 2 3. destruct (record_header_fields (base + zlen ds) d) as (-> & -> & ->); [unfold in_i64; lia|done|].
  rewrite Nat2Z.id.
  pose proof (ReadFull_spec content (length d) st1 _ Hst1) as H2. cbv zeta in H2.
  rewrite <- drop_drop, Ed in H2. rewrite <- Lh, drop_app_length in H2.
  rewrite decide_True in H2 by (rewrite length_app; lia). destruct H2 as (st2 & -> & _).
  rewrite <- Hlen, take_app_length, Z.eqb_refl.
  destruct (Z.eqb_spec (crc32c d') (crc32c d)); [done|]. by destruct st2.
Qed.

(** ** Truncation *)

(** The base offsets of the open segments. *)
Definition seg_bases (w : walImpl) : list Z :=
  omap (fun l => s_baseOffset <$> w_store w !! l) (w_segments w).

Lemma seg_bases_rep w live start ls pre l b ds :
  wal_rep w live start ls pre l b ds -> seg_bases w = pre.*1 ++ [b].
Proof.
  intros R. unfold seg_bases. rewrite (wr_segments _ _ _ _ _ _ _ _ R), omap_app. f_equal.
  - pose proof (wr_pre _ _ _ _ _ _ _ _ R) as Hpre. clear R. induction Hpre as [|x p ls pre Hx Hp IH]; [done|].
    destruct Hx as (s & Hs & _ & Hok & _). cbn. rewrite Hs. cbn. rewrite IH.
    by rewrite (so_base _ _ _ _ Hok).
  - destruct (wr_last _ _ _ _ _ _ _ _ R) as (s & c & Hs & _ & Hok & _). cbn. rewrite Hs. cbn.
    by rewrite (so_base _ _ _ _ Hok).
Qed.

(** Segments from [beforeOffset] on are kept. *)
Lemma truncate_loop_keep w before : forall segs keep,
  Forall (fun l => exists s, w_store w !! l = Some s /\ before <= s_baseOffset s) segs ->
  truncate_loop w before segs keep = Some (w, keep ++ segs).
Proof.
  induction segs as [|l segs IH]; intros keep H; cbn [truncate_loop]; [by rewrite app_nil_r|].
  apply Forall_cons in H as [(s & Hs & Hb) H]. rewrite Hs. cbn [mbind option_bind].
  destruct (Z.leb_spec before (s_baseOffset s)); [|lia].
  rewrite IH by done. by rewrite <- (assoc_L (++)).
Qed.

(** Closing and removing the first segment leaves a log that starts behind it. *)
Lemma truncate_first w live start x ls b0 d0 pre l b ds :
  wal_rep (set_segments w (x :: ls ++ [l])) live start (x :: ls) ((b0, d0) :: pre) l b ds ->
  exists s w1, w_store w !! x = Some s /\ s_baseOffset s = b0 /\ close_seg w x = Some w1
    /\ wal_rep (set_segments (remove_file w1 b0) (ls ++ [l])) live (b0 + zlen d0) ls pre l b ds
    /\ w_config w1 = w_config w
    /\ d_wal (w_dir (remove_file w1 b0)) !! b = d_wal (w_dir w) !! b.
Proof.
  intros R. pose proof (wal_rep_closing _ _ _ _ _ _ _ _ R) as C.
  destruct (close_seg_closing _ _ _ _ _ _ _ C) as (w1' & E & C1 & _).
  destruct (wal_rep_bounds _ _ _ _ _ _ _ _ R) as (Hne & _).
  destruct R as [Hcl Hsz Hsg Hcur Hnd Hfr Hpre Hlast Hcont Hnext Hab Hfs Hif]. cbn in *.
  apply Forall2_cons in Hpre as [(s & Hs & Hd & Hok & Hn0) Hpre]. cbn in Hs, Hd, Hok.
  pose proof (so_base _ _ _ _ Hok) as Hb.
  destruct (contiguous_sorted _ _ _ Hcont Hne) as [Hso _]. simpl in Hso.
  apply StronglySorted_inv in Hso as [_ Hgt].
  assert (b0 < b) as Hb0 by (rewrite Forall_forall in Hgt; apply Hgt; set_solver).
  destruct (seg_close_spec s (seg_bytes b0 d0) (icontent_of w s) b0 d0 Hok) as (s' & ic & Ec & Hb' & Hic).
  { right. pose proof (so_flat _ _ _ _ Hok) as Hf. apply (f_equal length) in Hf.
    rewrite length_app in Hf. apply length_zero_iff_nil. lia. }
  assert (content_of w s = seg_bytes b0 d0) as Hcont0
    by (unfold content_of; by rewrite Hb, Hd).
  exists s, (put_seg w x s' (seg_bytes b0 d0) ic). split; [done|]. split; [done|].
  split; [unfold close_seg; rewrite Hs; cbn [mbind option_bind]; by rewrite Hcont0, Ec|].
  apply NoDup_cons in Hnd as [Hx Hnd]. apply Forall_cons in Hfr as [_ Hfr].
  inversion Hcont as [|? ? ? ? Hcont']; subst.
  assert (forall p, p ∈ pre ++ [(b, ds)] -> p.1 <> s_baseOffset s) as Hpb.
  { intros p Hp. rewrite Forall_forall in Hgt. apply not_eq_sym, Z.lt_neq, Hgt.
    apply elem_of_app in Hp as [Hp|Hp]; apply elem_of_app; [left|right; set_solver].
    apply list_elem_of_fmap. by exists p. }
  split; [|split; [done|]].
  2: { cbn. rewrite lookup_delete_ne, lookup_alter_ne by lia. done. }
  split; cbn; try done.
  - apply Forall2_same_length_lookup. split; [by apply Forall2_length in Hpre|].
    intros i y p Hy Hp. destruct (Forall2_lookup_lr _ _ _ _ _ _ Hpre Hy Hp)
      as (sy & Hsy & Hdy & Hrest).
    exists sy. apply list_elem_of_lookup_2 in Hy, Hp.
    specialize (Hpb p ltac:(set_solver)).
    rewrite lookup_insert_ne by (intros ->; set_solver).
    rewrite lookup_delete_ne, lookup_alter_ne by congruence. done.
  - destruct Hlast as (sl & c & Hsl & Hdl & Hrest). exists sl, c.
    rewrite lookup_insert_ne by (intros ->; set_solver).
    rewrite lookup_delete_ne, lookup_alter_ne by lia. done.
  - intros b' Hb''. rewrite lookup_delete_ne, !lookup_alter_ne by lia. by apply Hab.
  - intros y Hy. destruct (decide (y = s_baseOffset s)) as [->|].
    { rewrite lookup_delete_eq in Hy. by destruct Hy. }
    rewrite lookup_delete_ne, lookup_alter_ne in Hy by congruence.
    specialize (Hfs y Hy). set_solver.
  - apply Forall_cons in Hif as [_ Hif]. rewrite Forall_forall in Hif |- *. intros p Hp.
    rewrite lookup_alter_ne by (specialize (Hpb p Hp); congruence). by apply Hif.
Qed.

(** When the first segment is kept, all are. *)
Lemma truncate_keep_all before w live start ls pre l b ds :
  wal_rep (set_segments w (ls ++ [l])) live start ls pre l b ds ->
  Forall (fun p => before <= p.1) pre -> before <= b ->
  truncate_loop w before (ls ++ [l]) [] = Some (w, ls ++ [l]).
Proof.
  intros R Hpre Hb. apply (truncate_loop_keep w before (ls ++ [l]) []), Forall_app. split.
  - pose proof (wr_pre _ _ _ _ _ _ _ _ R) as H2. cbn in H2. clear R.
    induction H2 as [|x p ls0 pre0 (s & Hs & _ & Hok & _) H2 IH]; [constructor|].
    apply Forall_cons in Hpre as [Hp Hpre]. constructor; [|by apply IH].
    exists s. split; [done|]. by rewrite (so_base _ _ _ _ Hok).
  - repeat constructor. destruct (wr_last _ _ _ _ _ _ _ _ R) as (s & c & Hs & _ & Hok & _).
    exists s. split; [done|]. by rewrite (so_base _ _ _ _ Hok).
Qed.

Lemma truncate_loop_rep before live l b ds : forall pre ls w start,
  wal_rep (set_segments w (ls ++ [l])) live start ls pre l b ds -> before <= b ->
  exists w' ls' pre1 pre2, pre = pre1 ++ pre2
    /\ truncate_loop w before (ls ++ [l]) [] = Some (w', ls' ++ [l])
    /\ wal_rep (set_segments w' (ls' ++ [l])) live (start + zlen (all_records pre1)) ls' pre2 l b ds
    /\ Forall (fun p => p.1 < before) pre1 /\ Forall (fun p => before <= p.1) pre2
    /\ d_wal (w_dir w') !! b = d_wal (w_dir w) !! b.
Proof.
  induction pre as [|[b0 d0] pre IH]; intros ls w start R Hb.
  { exists w, ls, [], []. split; [done|]. split; [by eapply truncate_keep_all|].
    replace (start + zlen (all_records [])) with start by (unfold all_records; simpl; lia). auto. }
  pose proof (wr_pre _ _ _ _ _ _ _ _ R) as Hpre. destruct ls as [|x ls]; [inversion Hpre|].
  destruct (wal_rep_bounds _ _ _ _ _ _ _ _ R) as (Hne & _).
  pose proof (wr_cont _ _ _ _ _ _ _ _ R) as Hcont.
  destruct (contiguous_sorted _ _ _ Hcont Hne) as [Hso _]. simpl in Hso.
  apply StronglySorted_inv in Hso as [_ Hgt]. rewrite Forall_forall in Hgt.
  destruct (decide (before <= b0)) as [Hk|Hk].
  - assert (Forall (fun p => before <= p.1) ((b0, d0) :: pre)) as Hge.
    { constructor; [done|]. apply Forall_forall. intros p Hp. assert (b0 < p.1); [|lia].
      apply Hgt, elem_of_app. left. apply list_elem_of_fmap. by exists p. }
    exists w, (x :: ls), [], ((b0, d0) :: pre). split; [done|].
    split; [by eapply truncate_keep_all|].
    replace (start + zlen (all_records [])) with start by (unfold all_records; simpl; lia). auto.
  - destruct (truncate_first _ _ _ _ _ _ _ _ _ _ _ R) as (s & w1 & Hs & Hsb & Ec & R1 & Hcf & Hdb).
    destruct (IH ls (remove_file w1 b0) (b0 + zlen d0) R1 Hb)
      as (w' & ls' & pre1 & pre2 & -> & E & R' & H1 & H2 & H3).
    exists w', ls', ((b0, d0) :: pre1), pre2. split; [done|]. split; [|split; [|split; [|split]]].
    + cbn [app truncate_loop]. rewrite Hs. cbn [mbind option_bind]. rewrite Hsb.
      destruct (Z.leb_spec before b0); [lia|]. rewrite Ec. cbn [mbind option_bind]. done.
    + inversion Hcont; subst. rewrite all_records_cons, length_app.
      by replace (s_baseOffset s + Z.of_nat (length d0 + length (all_records pre1)))
        with (s_baseOffset s + zlen d0 + zlen (all_records pre1)) by lia.
    + constructor; [simpl; lia|done].
    + done.
    + congruence.
Qed.

(** Truncation before an offset that is not beyond the current segment's
    start keeps exactly the segments that start at or after it: the log then
    starts at the first kept segment, whose records and all later ones stay
    readable at their offsets. *)
Theorem wal_truncate (w : walImpl) (live : bool) (start : Z) (rs : list bytes) (n : nat)
    (before b : Z) :
  wal_holds w live start rs n -> last (seg_bases w) = Some b -> before <= b ->
  exists w' k, WAL_Truncate w before = Some (None, w')
    /\ head (filter (fun x => before <= x) (seg_bases w)) = Some (start + Z.of_nat k)
    /\ wal_holds w' live (start + Z.of_nat k) (drop k rs) (n - k)
    /\ NextOffset w' = NextOffset w.
Proof.
  intros Hh Hl Hb. pose proof (wal_holds_next _ _ _ _ _ Hh) as Hn.
  destruct Hh as (ls & pre & l & b' & ds & content & kf & R & Hc & -> & Hk & ->).
  rewrite (seg_bases_rep _ _ _ _ _ _ _ _ R) in Hl |- *. rewrite last_snoc in Hl. injection Hl as ->.
  unfold WAL_Truncate. rewrite (wr_closed _ _ _ _ _ _ _ _ R), (wr_segments _ _ _ _ _ _ _ _ R).
  assert (wal_rep (set_segments w (ls ++ [l])) live start ls pre l b ds) as R0.
  { rewrite <- (wr_segments _ _ _ _ _ _ _ _ R). by destruct w. }
  destruct (truncate_loop_rep before _ _ _ _ _ _ _ _ R0 Hb)
    as (w' & ls' & pre1 & pre2 & -> & -> & R' & H1 & H2 & H3).
  cbn [mbind option_bind]. eexists _, (length (all_records pre1)). split; [done|].
  assert (all_records (pre1 ++ pre2) = all_records pre1 ++ all_records pre2) as Ea
    by (unfold all_records; by rewrite fmap_app, concat_app).
  split; [|split].
  - rewrite fmap_app, !filter_app, filter_none; [rewrite app_nil_l|].
    2: { intros x (p & -> & Hp)%list_elem_of_fmap. rewrite Forall_forall in H1. specialize (H1 p Hp). lia. }
    rewrite (filter_all _ pre2.*1).
    2: { intros x (p & -> & Hp)%list_elem_of_fmap. rewrite Forall_forall in H2. by apply H2. }
    rewrite filter_cons_True by done. pose proof (wr_cont _ _ _ _ _ _ _ _ R') as Hct.
    destruct pre2 as [|[b2 d2] pre2]; simpl; inversion Hct; by subst.
  - exists ls', pre2, l, b, ds, content, kf. split; [done|].
    split; [cbn; by rewrite H3|]. unfold wal_records. rewrite Ea.
    split; [by rewrite <- (assoc_L (++)), drop_app_length|]. split; [done|].
    rewrite length_app. lia.
  - unfold NextOffset in *. rewrite (wr_next _ _ _ _ _ _ _ _ R').
    by rewrite (wr_next _ _ _ _ _ _ _ _ R).
Qed.

(** ** Two losses *)

(** Two records of 5000 bytes are written and the log is closed and opened
    again; record 1 is read, record 0 is read, a record is appended and synced,
    and record 1 is read once more. *)
Definition big (x : byte) : bytes := replicate 5000 x.

Definition reopen_read_append : option (result storage_error bytes * result storage_error Z
    * result storage_error bytes) :=
  match NewWAL (mkDir ∅ ∅) (mkWALConfig 100000 FsyncNever) with
  | Some (Ok w) =>
      '(_, w) ← WAL_Append w (big x01);
      '(_, w) ← WAL_Append w (big x02);
      w ← WAL_Close w;
      match NewWAL (w_dir w) (mkWALConfig 100000 FsyncNever) with
      | Some (Ok w) =>
          '(r1, w) ← WAL_Read w 1;
          '(_, w) ← WAL_Read w 0;
          '(off, w) ← WAL_Append w [x03];
          '(_, w) ← WAL_Sync w;
          '(r2, _) ← WAL_Read w 1;
          Some (r1, off, r2)
      | _ => None
      end
  | _ => None
  end.

(** A segment opened again is written at the position the last read left
    its handle, because it is opened without [O_APPEND]: here the append after
    a read of record 0 is written into the payload of record 1, which could be
    read before and fails its checksum after. *)
Theorem wal_reopened_append_overwrites :
  reopen_read_append = Some (Ok (big x02), Ok 2, Err ErrChecksumMismatch).
Proof. vm_compute. reflexivity. Qed.

Definition truncate_current : option (option storage_error * list (result storage_error bytes)
    * result storage_error Z * option storage_error * result storage_error bytes) :=
  match NewWAL (mkDir ∅ ∅) (mkWALConfig 100000 FsyncNever) with
  | Some (Ok w) =>
      '(_, w) ← WAL_Append w [x01];
      '(_, w) ← WAL_Append w [x02];
      '(_, w) ← WAL_Append w [x03];
      '(_, w) ← WAL_Sync w;
      '(e, w) ← WAL_Truncate w 1;
      '(r1, w) ← WAL_Read w 1;
      '(r2, w) ← WAL_Read w 2;
      '(off, w) ← WAL_Append w [x04];
      '(e2, w) ← WAL_Sync w;
      '(r3, _) ← WAL_Read w 3;
      Some (e, [r1; r2], off, e2, r3)
  | _ => None
  end.

(** Truncating before offset 1 inside the current segment reports success
    and deletes the whole segment, the records 1 and 2 included; a later append
    is acknowledged with offset 3 but goes to the closed segment, so that the
    next sync fails and the record can never be read. *)
Theorem wal_truncate_current_loses :
  truncate_current
  = Some (None, [Err ErrOffsetOutOfRange; Err ErrOffsetOutOfRange], Ok 3, Some ErrClosed,
          Err ErrOffsetOutOfRange).
Proof. vm_compute. reflexivity. Qed.

(** ** Witnesses *)

(** Small segments, so that every append rolls. *)
Definition small_config : WALConfig := mkWALConfig 10 FsyncNever.
Definition sample_ops : list wal_op :=
  [OpAppend [x01]; OpAppend [x02; x02]; OpRead 0; OpSync; OpAppend [x03]; OpRead 5].

Lemma wal_refines_witness :
  exists w0 outs w rs n,
    NewWAL (mkDir ∅ ∅) small_config = Some (Ok w0) /\ wal_run w0 sample_ops = Some (outs, w)
    /\ spec_run false ([], 0%nat) sample_ops outs (rs, n) /\ NextOffset w = zlen rs.
Proof.
  apply (wal_refines small_config sample_ops).
  - unfold config_ok. simpl. lia.
  - repeat constructor.
  - simpl. lia.
Defined.

Lemma wal_synced_survives_witness :
  exists w0 outs w w1 w2 rs n,
    NewWAL (mkDir ∅ ∅) small_config = Some (Ok w0) /\ wal_run w0 sample_ops = Some (outs, w)
    /\ spec_run false ([], 0%nat) sample_ops outs (rs, n)
    /\ WAL_Sync w = Some (None, w1) /\ NewWAL (w_dir w1) small_config = Some (Ok w2)
    /\ NextOffset w2 = zlen rs
    /\ forall i d, rs !! i = Some d -> exists w3, WAL_Read w2 (Z.of_nat i) = Some (Ok d, w3).
Proof.
  apply (wal_synced_survives small_config small_config sample_ops).
  - unfold config_ok. simpl. lia.
  - unfold config_ok. simpl. lia.
  - repeat constructor.
  - simpl. lia.
Defined.

Lemma wal_close_reopen_witness :
  exists w0 outs w w1 w2 rs n,
    NewWAL (mkDir ∅ ∅) small_config = Some (Ok w0) /\ wal_run w0 sample_ops = Some (outs, w)
    /\ spec_run false ([], 0%nat) sample_ops outs (rs, n)
    /\ WAL_Close w = Some w1 /\ NewWAL (w_dir w1) small_config = Some (Ok w2)
    /\ NextOffset w2 = zlen rs
    /\ forall i d, rs !! i = Some d -> exists w3, WAL_Read w2 (Z.of_nat i) = Some (Ok d, w3).
Proof.
  apply (wal_close_reopen small_config small_config sample_ops).
  - unfold config_ok. simpl. lia.
  - unfold config_ok. simpl. lia.
  - repeat constructor.
  - simpl. lia.
Defined.

Lemma wal_torn_tail_fails_witness :
  exists e, NewWAL (mkDir {[0 := take 20 (seg_bytes 0 [[x01]; [x02]])]} ∅) small_config = Some (Err e).
Proof.
  apply (wal_torn_tail_fails small_config 0 [[x01]; [x02]] 20).
  - repeat constructor.
  - lia.
  - simpl. lia.
  - vm_compute. lia.
Defined.

Definition sample_segment : walSegment :=
  mkSegment 7 9 34 (mkHandle 0 true true) NewWriter (mkIndex [mkIndexEntry 7 0] false true).

Lemma wal_checksum_detects_witness :
  (seg_read sample_segment (seg_bytes 7 [[x01]] ++ record_header 8 [x02] ++ [x03] ++ []) 8).1
  = Err ErrChecksumMismatch.
Proof.
  apply (wal_checksum_detects sample_segment 7 [[x01]] [x02] [x03] []); try reflexivity.
  - repeat constructor.
  - lia.
  - split; [repeat constructor|]. split; [repeat constructor; unfold in_i64; simpl; lia|].
    intros e ->%list_elem_of_singleton. exists 0%nat. repeat split. simpl. lia.
  - vm_compute. discriminate.
Defined.

(** A log of three segments with one record each. *)
Definition three_segments : option walImpl :=
  match NewWAL (mkDir ∅ ∅) small_config with
  | Some (Ok w) => snd <$> wal_run w [OpAppend [x01]; OpAppend [x02]; OpAppend [x03]]
  | _ => None
  end.

Lemma wal_truncate_witness :
  exists w w' k, three_segments = Some w /\ seg_bases w = [0; 1; 2]
    /\ WAL_Truncate w 1 = Some (None, w')
    /\ head (filter (fun x => 1 <= x) (seg_bases w)) = Some (0 + Z.of_nat k)
    /\ exists rs n, wal_holds w' true (0 + Z.of_nat k) (drop k rs) n /\ length rs = 3%nat.
Proof.
  destruct (NewWAL_empty small_config) as (w0 & E0 & H0 & _); [unfold config_ok; simpl; lia|].
  destruct (wal_run_spec [OpAppend [x01]; OpAppend [x02]; OpAppend [x03]] w0 [] 0 H0)
    as (outs & w & rs & n & Er & Hh & _ & _); [repeat constructor|simpl; lia|].
  assert (three_segments = Some w) as E3 by (unfold three_segments; by rewrite E0, Er).
  assert (seg_bases <$> three_segments = Some [0; 1; 2]) as Hb by (vm_compute; reflexivity).
  assert (NextOffset <$> three_segments = Some 3) as Hx by (vm_compute; reflexivity).
  rewrite E3 in Hb, Hx. injection Hb as Hb. injection Hx as Hx.
  destruct (wal_truncate w true 0 rs n 1 2 Hh) as (w' & k & H1 & H2 & H3 & _);
    [by rewrite Hb|lia|].
  exists w, w', k. split; [done|]. split; [done|]. split; [done|]. split; [done|].
  exists rs, (n - k)%nat. split; [done|].
  pose proof (wal_holds_next _ _ _ _ _ Hh) as Hn. unfold NextOffset in Hx. lia.
Defined.
