(* ===== verification/Compaction.v ===== *)
(** * Compaction of immutable memtables (pkg/storage/compaction.go)

    The three strategies group tables by level, by similar size or by time
    window and merge each group into a new table.  The definitions are generic
    in the memtable, through the interface of MemTable.v.

    [sort.Slice] is not stable and the iteration order of a Go map is not
    specified: both are parameters, [sortBySize] with the documented contract
    that it returns a sorted permutation and [mapOrder] that it returns some
    permutation of the keys.  The theorems hold for every such choice. *)

From S2P Require Import Prelude GoBytes Record MemTable.
From stdpp Require Import prelude list sorting gmap.
From Stdlib Require Import ZArith Lia Strings.Byte.

Open Scope Z_scope.

(** ** Data *)

Record CompactionResult := mkCResult {
  cr_MergedEntries : Z;
  cr_InputTables : Z;
  cr_OutputSize : Z
}.

Inductive CompactionStrategy := CompactionLeveled | CompactionSizeTiered | CompactionTimeWindow.

Record CompactionConfig := mkCConfig { cc_Strategy : CompactionStrategy; cc_SizeRatio : Z }.

Definition defaultMinSimilarTables : Z := 4.
Definition defaultTimeWindow : Z := 3600 * 1000000000.

Section compaction.
Context {T : Type} `{MT : MemTableOps T}.
Context (sortBySize : list T -> list T) (mapOrder : list Z -> list Z).

(** ** Shared helpers *)

(** The inner loop of [mergeMemTables]: put every entry of one table. *)
Fixpoint put_entries (output : T) (entries : list (bytes * bytes)) : option T :=
  match entries with
  | [] => Some output
  | (key, value) :: entries' => output ← mt_put output key value; put_entries output entries'
  end.

Fixpoint merge_into (output : T) (tables : list T) : option T :=
  match tables with
  | [] => Some output
  | t :: tables' =>
      entries ← mt_entries t;
      output ← put_entries output entries;
      merge_into output tables'
  end.

Definition mergeMemTables (tables : list T) : option T := merge_into mt_new tables.

Definition countEntries (t : T) : option Z := entries ← mt_entries t; Some (zlen entries).

(** [mergeLevelTables], [mergeBucket] and [mergeWindow]: a group that is large
    enough becomes one table, a smaller one is left as it is. *)
Definition merge_group (atLeast : Z) (tables : list T) (res : CompactionResult)
    : option (list T * CompactionResult) :=
  if zlen tables <? atLeast then Some (tables, res)
  else
    merged ← mergeMemTables tables;
    count ← countEntries merged;
    Some ([merged], mkCResult (cr_MergedEntries res + count) (cr_InputTables res)
                      (cr_OutputSize res + mt_size merged)).

Definition mergeLevelTables := merge_group 2.
Definition mergeBucket := merge_group defaultMinSimilarTables.
Definition mergeWindow := merge_group 2.

(** The loop of each strategy over its groups. *)
Fixpoint merge_groups (merge : list T -> CompactionResult -> option (list T * CompactionResult))
    (groups : list (list T)) (output : list T) (res : CompactionResult)
    : option (list T * CompactionResult) :=
  match groups with
  | [] => Some (output, res)
  | group :: groups' =>
      '(merged, res) ← merge group res;
      merge_groups merge groups' (output ++ merged) res
  end.

(** [range] over a map of groups. *)
Definition groups_of (m : gmap Z (list T)) : list (list T) :=
  omap (fun k => m !! k) (mapOrder (map_to_list m).*1).

(** [m[key] = append(m[key], t)] *)
Definition append_group (m : gmap Z (list T)) (key : Z) (t : T) : gmap Z (list T) :=
  <[key := default [] (m !! key) ++ [t]]> m.

(** ** Leveled compaction *)

(** The loop of [computeLevel]: at most ten rounds. *)
Fixpoint level_loop (fuel : nat) (size threshold sizeRatio level : Z) : Z :=
  match fuel with
  | O => level
  | S fuel' =>
      if (threshold <? size) && (level <? 10)
      then level_loop fuel' size (wraps 64 (threshold * sizeRatio)) sizeRatio (level + 1)
      else level
  end.

Definition computeLevel (size baseThreshold sizeRatio : Z) : Z :=
  if (size <=? 0) || (baseThreshold <=? 0) then 0
  else level_loop 10 size baseThreshold sizeRatio 0.

Definition assignLevels (tables : list T) (sizeRatio : Z) : option (gmap Z (list T)) :=
  let sorted := sortBySize tables in
  first ← sorted !! 0%nat;
  let baseThreshold := mt_size first in
  let baseThreshold := if baseThreshold <=? 0 then 1024 else baseThreshold in
  Some (fold_left (fun levels t =>
          append_group levels (computeLevel (mt_size t) baseThreshold sizeRatio) t) sorted ∅).

Definition leveled_compact (tables : list T) (config : CompactionConfig)
    : option (list T * CompactionResult) :=
  if zlen tables <? 2 then Some (tables, mkCResult 0 (zlen tables) 0)
  else
    let sizeRatio := if cc_SizeRatio config <=? 0 then 10 else cc_SizeRatio config in
    levels ← assignLevels tables sizeRatio;
    merge_groups mergeLevelTables (groups_of levels) [] (mkCResult 0 (zlen tables) 0).

(** ** Size-tiered compaction *)

(** One round of [groupBySize]: the buckets so far, the current one and its
    minimum size. *)
Definition bucket_step (st : list (list T) * list T * Z) (t : T) : list (list T) * list T * Z :=
  let '(buckets, currentBucket, bucketMinSize) := st in
  let size := if mt_size t <=? 0 then 1 else mt_size t in
  match currentBucket with
  | [] => (buckets, [t], size)
  | _ =>
      if size <=? wraps 64 (bucketMinSize * 2)
      then (buckets, currentBucket ++ [t], bucketMinSize)
      else (buckets ++ [currentBucket], [t], size)
  end.

Definition groupBySize (tables : list T) : list (list T) :=
  let '(buckets, currentBucket, _) := fold_left bucket_step (sortBySize tables) ([], [], 0) in
  match currentBucket with [] => buckets | _ => buckets ++ [currentBucket] end.

Definition sizeTiered_compact (tables : list T) (config : CompactionConfig)
    : option (list T * CompactionResult) :=
  if zlen tables <? 2 then Some (tables, mkCResult 0 (zlen tables) 0)
  else merge_groups mergeBucket (groupBySize tables) [] (mkCResult 0 (zlen tables) 0).

(** ** Time-window compaction *)

(** The window of a table's first entry. *)
Definition getWindowKey (t : T) (window : Z) : option Z :=
  entries ← mt_entries t;
  match entries with
  | [] => Some 0
  | (_, value) :: _ =>
      ts ← extractTimestamp value;
      if IsZero ts then Some 0
      else
        let windowNanos := if window <=? 0 then defaultTimeWindow else window in
        Some (Z.quot (UnixNano ts) windowNanos)
  end.

Fixpoint group_windows (tables : list T) (window : Z) (windows : gmap Z (list T))
    : option (gmap Z (list T)) :=
  match tables with
  | [] => Some windows
  | t :: tables' =>
      windowKey ← getWindowKey t window;
      group_windows tables' window (append_group windows windowKey t)
  end.

Definition groupByTimeWindow (tables : list T) (window : Z) : option (gmap Z (list T)) :=
  group_windows tables window ∅.

Definition timeWindow_compact (tables : list T) (config : CompactionConfig)
    : option (list T * CompactionResult) :=
  if zlen tables <? 2 then Some (tables, mkCResult 0 (zlen tables) 0)
  else
    windows ← groupByTimeWindow tables defaultTimeWindow;
    merge_groups mergeWindow (groups_of windows) [] (mkCResult 0 (zlen tables) 0).

(** [newCompactor] and the call through the interface. *)
Definition compact (tables : list T) (config : CompactionConfig)
    : option (list T * CompactionResult) :=
  match cc_Strategy config with
  | CompactionSizeTiered => sizeTiered_compact tables config
  | CompactionTimeWindow => timeWindow_compact tables config
  | CompactionLeveled => leveled_compact tables config
  end.
End compaction.

(** ** Merging keeps every entry *)

(** Some table maps [k] to [v]; no two tables disagree on a key. *)
Definition holds {T} `{MemTableLaws T} (ts : list T) (k v : bytes) : Prop :=
  exists t, t ∈ ts /\ mt_view t !! k = Some v.
Definition agree {T} `{MemTableLaws T} (ts : list T) : Prop :=
  forall k v1 v2, holds ts k v1 -> holds ts k v2 -> v1 = v2.

Section proofs.
Context {T : Type} {MT : MemTableOps T} {ML : MemTableLaws T}.
Implicit Types ts out : list T.

#[export] Instance holds_proper : Proper ((≡ₚ) ==> eq ==> eq ==> iff) (holds (T := T)).
Proof.
  intros ts ts' Hp k ? <- v ? <-. unfold holds.
  split; intros (t & Ht & Hv); exists t; (split; [|done]); by rewrite Hp in * || rewrite <- Hp.
Qed.

#[export] Instance agree_proper : Proper ((≡ₚ) ==> iff) (agree (T := T)).
Proof. intros ts ts' Hp. unfold agree. by setoid_rewrite Hp. Qed.

Lemma holds_app ts1 ts2 k v : holds (ts1 ++ ts2) k v <-> holds ts1 k v \/ holds ts2 k v.
Proof.
  unfold holds. setoid_rewrite elem_of_app. split.
  - intros (t & [Ht|Ht] & Hv); eauto.
  - intros [(t & Ht & Hv)|(t & Ht & Hv)]; eauto.
Qed.

Lemma agree_app_l ts1 ts2 : agree (ts1 ++ ts2) -> agree ts1.
Proof. intros H k v1 v2 H1 H2. apply (H k); apply holds_app; auto. Qed.

Lemma agree_app_r ts1 ts2 : agree (ts1 ++ ts2) -> agree ts2.
Proof. intros H k v1 v2 H1 H2. apply (H k); apply holds_app; auto. Qed.

Lemma put_entries_ok (l : list (bytes * bytes)) : forall t,
  mt_inv t -> NoDup l.*1 ->
  exists t', put_entries t l = Some t' /\ mt_inv t' /\ mt_view t' = list_to_map l ∪ mt_view t.
Proof.
  induction l as [|[k v] l IH]; intros t Ht Hnd; cbn [put_entries].
  { exists t. split; [done|]. split; [done|]. by rewrite list_to_map_nil, (left_id_L ∅ (∪)). }
  apply NoDup_cons in Hnd as [Hk Hnd].
  destruct (mt_put_ok t k v Ht) as (t1 & -> & Ht1 & Hv1). cbn [mbind option_bind].
  destruct (IH t1 Ht1 Hnd) as (t2 & E & Ht2 & Hv2). exists t2. split; [done|]. split; [done|].
  rewrite Hv2, Hv1. cbn. rewrite <- insert_union_r by (by apply not_elem_of_list_to_map_1).
  by rewrite insert_union_l.
Qed.

Lemma sorted_nodup (l : list bytes) : StronglySorted key_lt l -> NoDup l.
Proof.
  induction 1 as [|x l Hs IH Hf]; constructor; [|done].
  intros Hx. rewrite Forall_forall in Hf. specialize (Hf _ Hx). unfold key_lt in Hf.
  by rewrite bytes_ltb_irrefl in Hf.
Qed.

(** Later tables win over earlier ones. *)
Lemma merge_into_ok ts : forall t,
  mt_inv t -> Forall mt_inv ts ->
  exists t', merge_into t ts = Some t' /\ mt_inv t'
    /\ mt_view t' = fold_left (fun acc x => mt_view x ∪ acc) ts (mt_view t).
Proof.
  induction ts as [|x ts IH]; intros t Ht Hts; cbn [merge_into fold_left]; [by exists t|].
  apply Forall_cons in Hts as [Hx Hts].
  destruct (mt_entries_ok x Hx) as (l & -> & Hs & Hl & _). cbn [mbind option_bind].
  destruct (put_entries_ok l t Ht (sorted_nodup _ Hs)) as (t1 & -> & Ht1 & Hv1).
  cbn [mbind option_bind]. rewrite <- Hl, <- Hv1. by apply IH.
Qed.

Lemma fold_union_lookup ts : forall (m : gmap bytes bytes) k v,
  agree ts -> (forall x v', m !! k = Some v' -> x ∈ ts -> forall w, mt_view x !! k = Some w -> w = v') ->
  fold_left (fun acc x => mt_view x ∪ acc) ts m !! k = Some v
  <-> m !! k = Some v \/ holds ts k v.
Proof.
  induction ts as [|x ts IH]; intros m k v Ha Hm; cbn [fold_left].
  { split; [by left|]. intros [?|(t & Ht & _)]; [done|by apply elem_of_nil in Ht]. }
  assert (agree ts) as Ha' by (by apply (agree_app_r [x])).
  assert (forall w, holds ts k w -> holds (x :: ts) k w) as Hw
    by (intros w (t & Ht & Hv); exists t; split; [by right|done]).
  rewrite IH; [|done|].
  - rewrite lookup_union_Some_raw. split.
    + intros [[Hx|[Hx Hv]]|Hh]; [right; exists x; split; [by left|done]|by left|right; auto].
    + intros [Hv|(t & Ht & Hv)].
      * destruct (mt_view x !! k) as [w|] eqn:Ex; [|by left; right].
        left; left. f_equal. by apply (Hm x v Hv ltac:(by left)).
      * apply elem_of_cons in Ht as [->|Ht]; [by left; left|]. right. by exists t.
  - intros y v' Hy Hyt w Hyw. rewrite lookup_union_Some_raw in Hy.
    destruct Hy as [Hx|[Hx Hv]].
    + apply (Ha k); [apply Hw; by exists y|]. exists x. split; [by left|done].
    + apply (Hm y v' Hv); [by right|done].
Qed.

Lemma mergeMemTables_ok ts :
  Forall mt_inv ts ->
  exists t, mergeMemTables ts = Some t /\ mt_inv t
    /\ (agree ts -> forall k v, mt_view t !! k = Some v <-> holds ts k v).
Proof.
  intros Hts. destruct (merge_into_ok ts mt_new mt_new_inv Hts) as (t & E & Ht & Hv).
  exists t. split; [done|]. split; [done|]. intros Ha k v. rewrite Hv, mt_new_view.
  rewrite fold_union_lookup; [|done|intros x v' Hx; by rewrite lookup_empty in Hx].
  rewrite lookup_empty. split; [by intros [|]|by right].
Qed.

(** [out] holds the same entries as [ts] in at most as many tables. *)
Definition same_entries ts out : Prop :=
  Forall mt_inv out /\ (length out ≤ length ts)%nat
  /\ (agree ts -> forall k v, holds out k v <-> holds ts k v).

Lemma merge_group_ok n ts res :
  1 <= n -> Forall mt_inv ts ->
  exists out res', merge_group n ts res = Some (out, res') /\ same_entries ts out
    /\ cr_InputTables res' = cr_InputTables res.
Proof.
  intros Hn Hts. unfold merge_group. destruct (Z.ltb_spec (zlen ts) n).
  { exists ts, res. split; [done|]. split; [|done]. repeat split; auto. }
  destruct (mergeMemTables_ok ts Hts) as (t & -> & Ht & Hv). cbn [mbind option_bind].
  unfold countEntries. destruct (mt_entries_ok t Ht) as (l & -> & _). cbn [mbind option_bind].
  do 2 eexists. split; [done|]. split; [|done]. split; [by repeat constructor|].
  split; [simpl; lia|]. intros Ha k v. rewrite <- Hv by done. unfold holds.
  split; [intros (x & ->%list_elem_of_singleton & Hx); done|].
  intros Hx. exists t. split; [by left|done].
Qed.

Lemma merge_groups_ok n groups : forall out0 res,
  1 <= n -> Forall mt_inv (concat groups) ->
  exists out res', merge_groups (merge_group n) groups out0 res = Some (out0 ++ out, res')
    /\ same_entries (concat groups) out /\ cr_InputTables res' = cr_InputTables res.
Proof.
  induction groups as [|g groups IH]; intros out0 res Hn Hg; cbn [merge_groups concat].
  { exists [], res. rewrite app_nil_r. split; [done|]. split; [|done]. by repeat constructor. }
  cbn [concat] in Hg. apply Forall_app in Hg as [Hg1 Hg2].
  destruct (merge_group_ok n g res Hn Hg1) as (o1 & res1 & -> & (Hi1 & Hl1 & Ho1) & Hr1).
  cbn [mbind option_bind].
  destruct (IH (out0 ++ o1) res1 Hn Hg2) as (o2 & res2 & -> & (Hi2 & Hl2 & Ho2) & Hr2).
  exists (o1 ++ o2), res2. rewrite <- (assoc_L (++)). split; [done|].
  split; [|congruence]. split; [by apply Forall_app|].
  split; [rewrite !length_app; lia|]. intros Ha k v. rewrite !holds_app.
  rewrite Ho1 by (by eapply agree_app_l). by rewrite Ho2 by (by eapply agree_app_r).
Qed.

(** ** Grouping loses no table *)

Definition flat_groups (m : gmap Z (list T)) : list T := concat (map_to_list m).*2.

Lemma flat_groups_insert m k g : m !! k = None ->
  flat_groups (<[k := g]> m) ≡ₚ g ++ flat_groups m.
Proof. intros H. unfold flat_groups. by rewrite map_to_list_insert. Qed.

Lemma append_group_perm m k t : flat_groups (append_group m k t) ≡ₚ flat_groups m ++ [t].
Proof.
  unfold append_group. rewrite <- insert_delete_eq.
  rewrite flat_groups_insert by apply lookup_delete_eq.
  destruct (m !! k) as [g|] eqn:E; simpl.
  - rewrite <- (insert_delete_id m k g E) at 2.
    rewrite flat_groups_insert by apply lookup_delete_eq.
    rewrite <- !(assoc_L (++)). apply Permutation_app_head. by rewrite Permutation_app_comm.
  - rewrite delete_id by done. by rewrite Permutation_app_comm.
Qed.

Lemma fold_groups_perm (f : T -> Z) ts : forall m,
  flat_groups (fold_left (fun m t => append_group m (f t) t) ts m) ≡ₚ flat_groups m ++ ts.
Proof.
  induction ts as [|t ts IH]; intros m; cbn [fold_left]; [by rewrite app_nil_r|].
  rewrite IH, append_group_perm, <- (assoc_L (++)). done.
Qed.

Lemma omap_lookup_list (m : gmap Z (list T)) (l : list (Z * list T)) :
  (forall k g, (k, g) ∈ l -> m !! k = Some g) -> omap (fun k => m !! k) l.*1 = l.*2.
Proof.
  induction l as [|[k g] l IH]; intros H; [done|]. cbn.
  rewrite (H k g) by (by left). f_equal. apply IH. intros k' g' Hk. apply H. by right.
Qed.

Section with_order.
Context (sortBySize : list T -> list T) (mapOrder : list Z -> list Z).
Context (Hsort : forall ts, sortBySize ts ≡ₚ ts) (Horder : forall ks, mapOrder ks ≡ₚ ks).

Lemma groups_of_perm (m : gmap Z (list T)) : concat (groups_of mapOrder m) ≡ₚ flat_groups m.
Proof.
  unfold groups_of, flat_groups. rewrite Horder. rewrite omap_lookup_list; [done|].
  intros k g Hk. by apply elem_of_map_to_list.
Qed.

Lemma same_entries_perm ts ts' out : ts ≡ₚ ts' -> same_entries ts' out -> same_entries ts out.
Proof.
  intros Hp (H1 & H2 & H3). split; [done|]. split; [by rewrite Hp|].
  intros Ha k v. rewrite Hp in Ha |- *. by apply H3.
Qed.

Lemma leveled_ok ts config :
  Forall mt_inv ts ->
  exists out res, leveled_compact sortBySize mapOrder ts config = Some (out, res)
    /\ same_entries ts out /\ cr_InputTables res = zlen ts.
Proof.
  intros Hts. unfold leveled_compact. destruct (Z.ltb_spec (zlen ts) 2).
  { do 2 eexists. split; [done|]. split; [|done]. repeat split; auto. }
  unfold assignLevels. destruct (sortBySize ts !! 0%nat) as [t0|] eqn:E0.
  2: { apply lookup_ge_None in E0. rewrite Hsort in E0. lia. }
  cbn [mbind option_bind].
  set (f := fun t => computeLevel (mt_size t) (if mt_size t0 <=? 0 then 1024 else mt_size t0)
    (if cc_SizeRatio config <=? 0 then 10 else cc_SizeRatio config)).
  set (m := fold_left _ _ _).
  assert (concat (groups_of mapOrder m) ≡ₚ ts) as Hp.
  { rewrite groups_of_perm. etrans; [exact (fold_groups_perm f (sortBySize ts) ∅)|]. apply Hsort. }
  destruct (merge_groups_ok 2 (groups_of mapOrder m) [] (mkCResult 0 (zlen ts) 0))
    as (out & res & E & Hs & Hr); [lia|by rewrite Hp|].
  exists out, res. split; [exact E|]. split; [|done]. by eapply same_entries_perm.
Qed.

Lemma buckets_perm l : forall buckets cur mn,
  let '(bs, c, _) := fold_left bucket_step l (buckets, cur, mn) in
  concat (match c with [] => bs | _ => bs ++ [c] end) ≡ₚ
  concat (match cur with [] => buckets | _ => buckets ++ [cur] end) ++ l.
Proof.
  induction l as [|t l IH]; intros buckets cur mn; cbn [fold_left]; [by rewrite app_nil_r|].
  unfold bucket_step at 2. destruct cur as [|c0 cur].
  { specialize (IH buckets [t] (if mt_size t <=? 0 then 1 else mt_size t)).
    destruct (fold_left _ _ _) as [[bs c] z]. rewrite IH. rewrite concat_app. simpl.
    by rewrite <- (assoc_L (++)). }
  destruct (_ <=? wraps 64 (mn * 2)).
  - specialize (IH buckets ((c0 :: cur) ++ [t]) mn).
    destruct (fold_left _ _ _) as [[bs c] z]. rewrite IH. cbn [app].
    rewrite !concat_app. simpl. rewrite !app_nil_r, <- !(assoc_L (++)). cbn.
    by rewrite <- (assoc_L (++)).
  - specialize (IH (buckets ++ [c0 :: cur]) [t] (if mt_size t <=? 0 then 1 else mt_size t)).
    destruct (fold_left _ _ _) as [[bs c] z]. rewrite IH.
    rewrite !concat_app. simpl. by rewrite <- !(assoc_L (++)).
Qed.

Lemma groupBySize_perm ts : concat (groupBySize sortBySize ts) ≡ₚ ts.
Proof.
  unfold groupBySize. pose proof (buckets_perm (sortBySize ts) [] [] 0) as H.
  destruct (fold_left _ _ _) as [[bs c] z]. rewrite H. simpl. apply Hsort.
Qed.

Lemma sizeTiered_ok ts config :
  Forall mt_inv ts ->
  exists out res, sizeTiered_compact sortBySize ts config = Some (out, res)
    /\ same_entries ts out /\ cr_InputTables res = zlen ts.
Proof.
  intros Hts. unfold sizeTiered_compact. destruct (Z.ltb_spec (zlen ts) 2).
  { do 2 eexists. split; [done|]. split; [|done]. repeat split; auto. }
  pose proof (groupBySize_perm ts) as Hp.
  destruct (merge_groups_ok 4 (groupBySize sortBySize ts) [] (mkCResult 0 (zlen ts) 0))
    as (out & res & E & Hs & Hr); [lia|by rewrite Hp|].
  exists out, res. split; [exact E|]. split; [|done]. by eapply same_entries_perm.
Qed.

Lemma group_windows_ok w l : forall m,
  Forall mt_inv l ->
  exists m', group_windows l w m = Some m' /\ flat_groups m' ≡ₚ flat_groups m ++ l.
Proof.
  induction l as [|t l IH]; intros m Hl; cbn [group_windows].
  { exists m. by rewrite app_nil_r. }
  apply Forall_cons in Hl as [Ht Hl].
  assert (exists key, getWindowKey t w = Some key) as [key ->].
  { unfold getWindowKey. destruct (mt_entries_ok t Ht) as (es & -> & _).
    cbn [mbind option_bind]. destruct es as [|[k v] es]; [eauto|].
    destruct (extractTimestamp_total v) as [ts ->]. cbn [mbind option_bind].
    destruct (IsZero ts); eauto. }
  cbn [mbind option_bind]. destruct (IH (append_group m key t) Hl) as (m' & E & Hp).
  exists m'. split; [done|]. by rewrite Hp, append_group_perm, <- (assoc_L (++)).
Qed.

Lemma timeWindow_ok ts config :
  Forall mt_inv ts ->
  exists out res, timeWindow_compact mapOrder ts config = Some (out, res)
    /\ same_entries ts out /\ cr_InputTables res = zlen ts.
Proof.
  intros Hts. unfold timeWindow_compact. destruct (Z.ltb_spec (zlen ts) 2).
  { do 2 eexists. split; [done|]. split; [|done]. repeat split; auto. }
  unfold groupByTimeWindow. destruct (group_windows_ok defaultTimeWindow ts ∅ Hts) as (m & -> & Hm).
  cbn [mbind option_bind].
  assert (concat (groups_of mapOrder m) ≡ₚ ts) as Hp by (by rewrite groups_of_perm, Hm).
  destruct (merge_groups_ok 2 (groups_of mapOrder m) [] (mkCResult 0 (zlen ts) 0))
    as (out & res & E & Hs & Hr); [lia|by rewrite Hp|].
  exists out, res. split; [exact E|]. split; [|done]. by eapply same_entries_perm.
Qed.

Lemma compact_ok ts config :
  Forall mt_inv ts ->
  exists out res, compact sortBySize mapOrder ts config = Some (out, res)
    /\ same_entries ts out /\ cr_InputTables res = zlen ts.
Proof.
  intros Hts. unfold compact. destruct (cc_Strategy config);
    [by apply leveled_ok|by apply sizeTiered_ok|by apply timeWindow_ok].
Qed.
End with_order.
End proofs.

(** ** Theorems *)

(** Compaction loses and invents nothing.  For every strategy, whatever the
    unstable sort does with equal sizes and in whatever order a map is ranged
    over, compacting tables that do not disagree on a key succeeds, never
    increases their number, and a key maps to a value in the output exactly
    when it did in the input. *)
Theorem compaction_preserves_entries {T} {MT : MemTableOps T} {ML : MemTableLaws T}
    (sortBySize : list T -> list T) (mapOrder : list Z -> list Z) (ts : list T)
    (config : CompactionConfig) :
  (forall l, sortBySize l ≡ₚ l) -> (forall ks, mapOrder ks ≡ₚ ks) ->
  Forall mt_inv ts -> agree ts ->
  exists out res, compact sortBySize mapOrder ts config = Some (out, res)
    /\ Forall mt_inv out /\ (length out ≤ length ts)%nat /\ agree out
    /\ (forall k v, holds out k v <-> holds ts k v) /\ cr_InputTables res = zlen ts.
Proof.
  intros Hs Ho Hts Ha. destruct (compact_ok _ _ Hs Ho ts config Hts)
    as (out & res & E & (Hi & Hl & Hh) & Hr). specialize (Hh Ha).
  exists out, res. repeat split; auto; try apply Hh.
  intros k v1 v2 H1 H2. apply (Ha k); by apply Hh.
Qed.

(** *** Size tiers *)

Section tiers.
Context {T : Type} {MT : MemTableOps T}.

(** The size [groupBySize] counts a table with. *)
Definition tier_size (t : T) : Z := if mt_size t <=? 0 then 1 else mt_size t.

(** A bucket whose sizes are within a factor of two of the first one. *)
Definition similar (bucket : list T) : Prop :=
  exists t0, head bucket = Some t0
    /\ Forall (fun t => tier_size t0 <= tier_size t <= 2 * tier_size t0) bucket.

Definition size_le (a b : T) : Prop := mt_size a <= mt_size b.

Lemma tier_size_mono a b : size_le a b -> tier_size a <= tier_size b.
Proof. unfold size_le, tier_size. intros H. zbool; lia. Qed.

Lemma buckets_similar l : forall buckets cur t0,
  StronglySorted size_le l -> Forall (fun t => mt_size t < 2 ^ 62) (t0 :: l) ->
  head cur = Some t0 -> Forall (fun t => size_le t0 t) l ->
  Forall similar buckets -> similar cur ->
  let '(bs, c, _) := fold_left bucket_step l (buckets, cur, tier_size t0) in
  Forall similar (match c with [] => bs | _ => bs ++ [c] end).
Proof.
  induction l as [|t l IH]; intros buckets cur t0 Hs Hsz Hh Hle Hb Hc; cbn [fold_left].
  { destruct cur; [done|]. apply Forall_app. split; [done|]. by repeat constructor. }
  apply StronglySorted_inv in Hs as [Hs Hft]. apply Forall_cons in Hsz as [Ht0 Hsz].
  apply Forall_cons in Hsz as [Hszt Hsz]. apply Forall_cons in Hle as [Hle0 Hle].
  pose proof (tier_size_mono _ _ Hle0) as Hmono.
  assert (1 <= tier_size t0 < 2 ^ 62) as Hr by (unfold tier_size; zbool; lia).
  unfold bucket_step at 2. destruct cur as [|c0 cur]; [done|].
  fold (tier_size t). rewrite (wraps_64_id (tier_size t0 * 2)) by (unfold in_i64; lia).
  destruct (Z.leb_spec (tier_size t) (tier_size t0 * 2)).
  - apply IH; try done; [by constructor|].
    destruct Hc as (t1 & H1 & H2). simpl in Hh, H1. rewrite Hh in H1. injection H1 as <-.
    exists t0. split; [done|]. apply Forall_app. split; [done|]. repeat constructor; lia.
  - apply IH; try done; [by constructor|apply Forall_app; split; [done|by repeat constructor]|].
    exists t. split; [done|]. repeat constructor; [lia|].
    unfold tier_size. zbool; lia.
Qed.
End tiers.

(** The size-tiered strategy groups tables the way its comment says: the
    buckets partition the tables, none is empty, and every table in a bucket is
    at most twice as large as the smallest one, for tables below 2^62 bytes. *)
Theorem groupBySize_within_factor_two {T} {MT : MemTableOps T}
    (sortBySize : list T -> list T) (ts : list T) :
  (forall l, sortBySize l ≡ₚ l) -> (forall l, StronglySorted size_le (sortBySize l)) ->
  Forall (fun t => mt_size t < 2 ^ 62) ts ->
  concat (groupBySize sortBySize ts) ≡ₚ ts /\ Forall similar (groupBySize sortBySize ts).
Proof.
  intros Hp Hs Hsz. split.
  { unfold groupBySize. pose proof (buckets_perm (sortBySize ts) [] [] 0) as H.
    destruct (fold_left _ _ _) as [[bs c] z]. rewrite H. simpl. apply Hp. }
  unfold groupBySize. specialize (Hs ts). rewrite <- (Hp ts) in Hsz.
  destruct (sortBySize ts) as [|t l]; [constructor|].
  cbn [fold_left]. unfold bucket_step at 2. fold (tier_size t).
  apply StronglySorted_inv in Hs as [Hs Hf].
  assert (similar [t]) as Ht
    by (exists t; split; [done|]; repeat constructor; unfold tier_size; zbool; lia).
  pose proof (buckets_similar l [] [t] t Hs Hsz eq_refl Hf (Forall_nil_2 _) Ht) as H.
  by destruct (fold_left bucket_step l _) as [[bs [|c0 c]] z].
Qed.

(** *** Duplicate keys *)

(** Sorting by size with the library's stable merge sort, one of the sorts the
    contract allows. *)
#[export] Instance size_le_dec {T} `{MemTableOps T} : RelDecision (size_le (T := T)).
Proof. intros a b. unfold size_le. apply _. Defined.

#[export] Instance size_le_total {T} `{MemTableOps T} : Total (size_le (T := T)).
Proof. intros a b. unfold size_le. lia. Qed.

Definition stable_sort {T} `{MemTableOps T} (l : list T) : list T := merge_sort size_le l.

Definition no_coin : nat -> bool := fun _ => false.
#[local] Instance plain_ops : MemTableOps memTableImpl := skip_ops no_coin.
#[local] Instance plain_laws : MemTableLaws memTableImpl := skip_laws no_coin.

(** A table with one entry. *)
Definition single (k v : bytes) : memTableImpl :=
  default NewMemTable (Put no_coin NewMemTable k v).

Definition dup_tables : list memTableImpl :=
  [single [x00] [x00]; single [x07] (replicate 10 x0a); single [x07] (replicate 5 x0b)].

Definition lookup_out (k : bytes) (o : option (list memTableImpl * CompactionResult))
    : option (list (option (option bytes))) :=
  (fun p : list memTableImpl * CompactionResult => map (fun t => Get t k) p.1) <$> o.

(** When two tables disagree on a key, the value of the larger table
    survives a leveled merge and not the newer one, because tables are sorted by
    size before they are merged: here the third table is the newest and its
    value is gone.  (Log offsets are unique, so the log never produces such
    tables.) *)
Theorem merge_prefers_larger_table :
  lookup_out [x07] (compact stable_sort (fun ks => ks)
    dup_tables (mkCConfig CompactionLeveled 10))
  = Some [Some (Some (replicate 10 x0a)); Some None].
Proof. vm_compute. reflexivity. Qed.

(** ** Witnesses *)

Definition apart_tables : list memTableImpl :=
  [single [x01] [x01]; single [x02] [x02]; single [x03] (replicate 9 x03)].

Lemma single_inv k v : mt_inv (single k v).
Proof.
  destruct (mt_put_ok mt_new k v mt_new_inv) as (t & E & Hi & _).
  unfold single. simpl in E. by rewrite E.
Qed.

Lemma single_view k v :
  mt_view (single k v) = {[ k := v ]}.
Proof.
  destruct (mt_put_ok mt_new k v mt_new_inv) as (t & E & _ & Hv).
  unfold single. simpl in E. rewrite E. cbn [default id]. rewrite Hv.
  by rewrite mt_new_view.
Qed.

Lemma apart_agree : agree apart_tables.
Proof.
  intros k v1 v2 (t1 & H1 & E1) (t2 & H2 & E2). unfold apart_tables in *.
  rewrite !elem_of_cons, elem_of_nil in H1, H2.
  destruct H1 as [->|[->|[->|[]]]], H2 as [->|[->|[->|[]]]];
    rewrite single_view in E1; rewrite single_view in E2;
    apply lookup_singleton_Some in E1 as [<- <-]; apply lookup_singleton_Some in E2 as [E <-];
    congruence.
Qed.

Lemma compaction_preserves_entries_witness :
  exists out res,
    compact stable_sort (rev (A:=Z)) apart_tables (mkCConfig CompactionLeveled 10)
      = Some (out, res)
    /\ Forall mt_inv out /\ (length out ≤ 3)%nat /\ agree out
    /\ (forall k v, holds out k v <-> holds apart_tables k v) /\ cr_InputTables res = 3.
Proof.
  apply (compaction_preserves_entries stable_sort (rev (A:=Z)) apart_tables).
  - intros l. apply merge_sort_Permutation.
  - intros ks. symmetry. apply Permutation_rev.
  - repeat constructor; apply single_inv.
  - apply apart_agree.
Defined.

Lemma groupBySize_within_factor_two_witness :
  concat (groupBySize stable_sort apart_tables) ≡ₚ apart_tables
  /\ Forall similar (groupBySize stable_sort apart_tables).
Proof.
  apply (groupBySize_within_factor_two stable_sort apart_tables).
  - intros l. apply merge_sort_Permutation.
  - intros l. apply Sorted_StronglySorted; [intros a b c; unfold size_le; lia|].
    apply (Sorted_merge_sort size_le).
  - repeat constructor.
Defined.
