(* ===== verification/Log.v ===== *)
(** * The partition log (pkg/storage/log.go)

    [logImpl] puts every message into the write-ahead log and the active
    memtable; full memtables become immutable and the oldest is dropped when
    there are too many, after which its messages are read from the write-ahead
    log.  The definitions are generic in the memtable and the write-ahead log,
    through their interfaces.  Each operation holds the log's lock and is one
    step; [None] is a panic.  Reading moves file handles, so reads return the
    new state too.

    The batch codec of the log ([serializeBatch], [deserializeBatch]) is at the
    end of the definitions. *)

From S2P Require Import Prelude GoBytes Record MemTable Index GoFiles Wal WalSpec Compaction.
From stdpp Require Import prelude list sorting gmap.
From Stdlib Require Import ZArith Lia Strings.Byte.

Open Scope Z_scope.

(** ** Data *)

Record MemTableConfig := mkMTConfig { mc_MaxSize : Z; mc_NumImmutable : Z }.

Record Config := mkConfig {
  cfg_WAL : WALConfig;
  cfg_MemTable : MemTableConfig;
  cfg_Compaction : CompactionConfig;
  cfg_MessageFormatVersion : Z
}.

Record MessageBatch := mkBatch {
  b_Messages : list Message;
  b_ProducerID : Z;
  b_ProducerEpoch : Z
}.

Record logImpl (W T : Type) := mkLog {
  l_config : Config;
  l_wal : W;
  l_activeMemTable : T;
  l_immutableMemTables : list T;
  l_nextOffset : Z;
  l_highWaterMark : Z;
  l_logStartOffset : Z;
  l_flushChan : bool;          (* a token is in the channel of capacity one *)
  l_closed : bool
}.
Arguments mkLog {W T}.
Arguments l_config {W T}.
Arguments l_wal {W T}.
Arguments l_activeMemTable {W T}.
Arguments l_immutableMemTables {W T}.
Arguments l_nextOffset {W T}.
Arguments l_highWaterMark {W T}.
Arguments l_logStartOffset {W T}.
Arguments l_flushChan {W T}.
Arguments l_closed {W T}.

Section log.
Context {W T : Type} {WO : WalOps W} {MT : MemTableOps T}.
Context (sortBySize : list T -> list T) (mapOrder : list Z -> list Z).
Notation log := (logImpl W T).

Definition with_wal (l : log) (w : W) : log :=
  mkLog (l_config l) w (l_activeMemTable l) (l_immutableMemTables l) (l_nextOffset l)
    (l_highWaterMark l) (l_logStartOffset l) (l_flushChan l) (l_closed l).
Definition with_tables (l : log) (active : T) (imm : list T) : log :=
  mkLog (l_config l) (l_wal l) active imm (l_nextOffset l)
    (l_highWaterMark l) (l_logStartOffset l) (l_flushChan l) (l_closed l).
Definition with_offsets (l : log) (next hwm start : Z) : log :=
  mkLog (l_config l) (l_wal l) (l_activeMemTable l) (l_immutableMemTables l) next hwm start
    (l_flushChan l) (l_closed l).
Definition set_closed (l : log) : log :=
  mkLog (l_config l) (l_wal l) (l_activeMemTable l) (l_immutableMemTables l) (l_nextOffset l)
    (l_highWaterMark l) (l_logStartOffset l) (l_flushChan l) true.

(** ** Append *)

Definition rotateMemTable (l : log) : log :=
  let imm := l_immutableMemTables l ++ [l_activeMemTable l] in
  let imm := if mc_NumImmutable (cfg_MemTable (l_config l)) <? zlen imm then drop 1 imm else imm in
  mkLog (l_config l) (l_wal l) mt_new imm (l_nextOffset l) (l_highWaterMark l)
    (l_logStartOffset l) true (l_closed l).

(** A message of the batch with its offset and the batch's producer identity. *)
Definition stamp (msg : Message) (offset : Z) (batch : MessageBatch) : Message :=
  set_ProducerEpoch (set_ProducerID (set_Offset msg offset) (b_ProducerID batch))
    (b_ProducerEpoch batch).

(** The loop over the batch: the offsets and the stamped messages, or the
    error that stopped it.  What earlier rounds wrote stays written. *)
Fixpoint append_loop (l : log) (batch : MessageBatch) (msgs : list Message) (currentOffset : Z)
    : option (result storage_error (list Z * list Message * Z) * log) :=
  match msgs with
  | [] => Some (Ok ([], [], currentOffset), l)
  | m :: msgs' =>
      let m := stamp m currentOffset batch in
      msgData ← serializeMessage (cfg_MessageFormatVersion (l_config l)) m;
      '(r, w) ← wal_Append (l_wal l) msgData;
      let l := with_wal l w in
      match r with
      | Err e => Some (Err e, l)
      | Ok _ =>
          active ← mt_put (l_activeMemTable l) (offsetToKey (msg_Offset m)) msgData;
          let l := with_tables l active (l_immutableMemTables l) in
          '(r, l) ← append_loop l batch msgs' (currentOffset + 1);
          Some (match r with
                | Ok (offs, ms, next) => Ok (currentOffset :: offs, m :: ms, next)
                | Err e => Err e
                end, l)
      end
  end.

Definition Append (l : log) (batch : MessageBatch)
    : option (result storage_error (list Z) * log) :=
  if l_closed l then Some (Err ErrLogClosed, l)
  else if (cfg_MessageFormatVersion (l_config l) =? MessageFormatV2)
          && negb (b_ProducerID batch =? 0)
  then Some (Err ErrTransactionalRecordNeedsV3, l)
  else
    '(r, l) ← append_loop l batch (b_Messages batch) (l_nextOffset l);
    match r with
    | Err e => Some (Err e, l)
    | Ok (offsets, _, next) =>
        let l := with_offsets l next next (l_logStartOffset l) in
        let l := if mc_MaxSize (cfg_MemTable (l_config l)) <=? mt_size (l_activeMemTable l)
                 then rotateMemTable l else l in
        Some (Ok offsets, l)
    end.

(** ** Reading *)

Fixpoint get_immutable (ts : list T) (key : bytes) : option (option bytes) :=
  match ts with
  | [] => Some None
  | t :: ts' =>
      found ← mt_get t key;
      match found with
      | Some value => Some (Some value)
      | None => get_immutable ts' key
      end
  end.

(** The active memtable, then the immutable ones. *)
Definition get_memtables (l : log) (key : bytes) : option (option bytes) :=
  found ← mt_get (l_activeMemTable l) key;
  match found with
  | Some value => Some (Some value)
  | None => get_immutable (l_immutableMemTables l) key
  end.

Definition lookupOffset (l : log) (offset : Z) : option (option bytes * log) :=
  found ← get_memtables l (offsetToKey offset);
  match found with
  | Some value => Some (Some value, l)
  | None =>
      '(r, w) ← wal_Read (l_wal l) offset;
      let l := with_wal l w in
      Some (match r with Ok walData => Some walData | Err _ => None end, l)
  end.

(** The loop of [Read]; every round moves to the next offset, so the distance
    to the high water mark bounds the number of rounds.  The body looks an
    offset up the way [lookupOffset] does. *)
Fixpoint read_msgs (fuel : nat) (l : log) (maxBytes bytesRead currentOffset : Z)
    : option (list Message * log) :=
  match fuel with
  | O => Some ([], l)
  | S fuel' =>
      if (bytesRead <? maxBytes) && (currentOffset <? l_highWaterMark l) then
        '(found, l) ← lookupOffset l currentOffset;
        match found with
        | Some value =>
            msg ← deserializeMessage value;
            let msg := set_Offset msg currentOffset in
            '(msgs, l) ← read_msgs fuel' l maxBytes
              (bytesRead + (zlen (msg_Value msg) + zlen (msg_Key msg))) (currentOffset + 1);
            Some (msg :: msgs, l)
        | None => read_msgs fuel' l maxBytes bytesRead (currentOffset + 1)
        end
      else Some ([], l)
  end.

Definition Read (l : log) (offset maxBytes : Z)
    : option (result storage_error (list Message) * log) :=
  if l_closed l then Some (Err ErrLogClosed, l)
  else if offset <? l_logStartOffset l then Some (Err ErrOffsetOutOfRange, l)
  else if l_highWaterMark l <=? offset then Some (Ok [], l)
  else
    '(msgs, l) ← read_msgs (Z.to_nat (l_highWaterMark l - offset)) l maxBytes 0 offset;
    Some (Ok msgs, l).

Fixpoint range_msgs (n : nat) (l : log) (offset : Z) : option (list Message * log) :=
  match n with
  | O => Some ([], l)
  | S n' =>
      '(found, l) ← lookupOffset l offset;
      match found with
      | Some value =>
          msg ← deserializeMessage value;
          '(msgs, l) ← range_msgs n' l (offset + 1);
          Some (set_Offset msg offset :: msgs, l)
      | None => range_msgs n' l (offset + 1)
      end
  end.

Definition ReadRange (l : log) (startOffset endOffset : Z)
    : option (result storage_error (list Message) * log) :=
  if l_closed l then Some (Err ErrLogClosed, l)
  else
    '(msgs, l) ← range_msgs (Z.to_nat (endOffset - startOffset)) l startOffset;
    Some (Ok msgs, l).

Definition HighWaterMark (l : log) : Z := l_highWaterMark l.
Definition StartOffset (l : log) : Z := l_logStartOffset l.
Definition EndOffset (l : log) : Z := l_nextOffset l.

(** ** Maintenance *)

Definition Log_Flush (l : log) : option (option storage_error * log) :=
  if l_closed l then Some (Some ErrLogClosed, l)
  else '(err, w) ← wal_Sync (l_wal l); Some (err, with_wal l w).

Definition runCompaction (l : log) : option (CompactionResult * log) :=
  if zlen (l_immutableMemTables l) <? 2 then Some (mkCResult 0 0 0, l)
  else
    '(compacted, res) ← compact sortBySize mapOrder (l_immutableMemTables l)
                          (cfg_Compaction (l_config l));
    Some (res, with_tables l (l_activeMemTable l) compacted).

Definition Compact (l : log) : option (option storage_error * log) :=
  if l_closed l then Some (Some ErrLogClosed, l)
  else '(_, l) ← runCompaction l; Some (None, l).

Definition Delete (l : log) (beforeOffset : Z) : option (option storage_error * log) :=
  if l_closed l then Some (Some ErrLogClosed, l)
  else
    let l := with_offsets l (l_nextOffset l) (l_highWaterMark l) beforeOffset in
    '(err, w) ← wal_Truncate (l_wal l) beforeOffset;
    Some (err, with_wal l w).

Definition Log_Close (l : log) : option log :=
  if l_closed l then Some l
  else
    let l := set_closed l in
    w ← wal_Close (l_wal l);
    Some (with_wal l w).

(** ** Searching by timestamp *)

Definition readMessageAt (l : log) (offset : Z) : option (result storage_error Message * log) :=
  found ← get_memtables l (offsetToKey offset);
  '(value, l) ← (match found with
                 | Some value => Some (Ok value, l)
                 | None => '(r, w) ← wal_Read (l_wal l) offset; Some (r, with_wal l w)
                 end);
  match value with
  | Err e => Some (Err e, l)
  | Ok value => msg ← deserializeMessage value; Some (Ok (set_Offset msg offset), l)
  end.

(** The binary search: it stops early when an offset cannot be read.  The
    interval shrinks every round. *)
Fixpoint ts_search (fuel : nat) (l : log) (target low high res resTs : Z)
    : option (Z * Z * log) :=
  match fuel with
  | O => Some (res, resTs, l)
  | S fuel' =>
      if low <=? high then
        let mid := low + (high - low) / 2 in
        '(r, l) ← readMessageAt l mid;
        match r with
        | Err _ => Some (res, resTs, l)
        | Ok msg =>
            let ts := UnixNano (msg_Timestamp msg) in
            if target <=? ts then ts_search fuel' l target low (mid - 1) mid ts
            else ts_search fuel' l target (mid + 1) high res resTs
        end
      else Some (res, resTs, l)
  end.

Fixpoint ts_scan (n : nat) (l : log) (target offset : Z) : option (option (Z * Z) * log) :=
  match n with
  | O => Some (None, l)
  | S n' =>
      '(r, l) ← readMessageAt l offset;
      match r with
      | Err _ => ts_scan n' l target (offset + 1)
      | Ok msg =>
          let ts := UnixNano (msg_Timestamp msg) in
          if target <=? ts then Some (Some (offset, ts), l)
          else ts_scan n' l target (offset + 1)
      end
  end.

Definition FindOffsetByTimestamp (l : log) (target : Z)
    : option (result storage_error (Z * Z) * log) :=
  if l_closed l then Some (Err ErrLogClosed, l)
  else
    let startOff := l_logStartOffset l in
    let endOff := l_highWaterMark l in
    if endOff <=? startOff then Some (Ok (endOff, 0), l)
    else
      '(res, resTs, l) ← ts_search (Z.to_nat (endOff - startOff)) l target startOff (endOff - 1)
                           endOff 0;
      if (res =? endOff) && (resTs =? 0) then
        '(r, l) ← ts_scan (Z.to_nat (endOff - startOff)) l target startOff;
        Some (Ok (match r with Some p => p | None => (res, resTs) end), l)
      else Some (Ok (res, resTs), l).

(** ** Recovery *)

Definition set_active (l : log) (t : T) : log := with_tables l t (l_immutableMemTables l).

(** The loop of [recover] over the offsets to load; [break] ends it. *)
Fixpoint recover_loop (n : nat) (l : log) (offset maxMemTableSize recovered totalSize : Z)
    : option log :=
  match n with
  | O => Some l
  | S n' =>
      '(r, w) ← wal_Read (l_wal l) offset;
      let l := with_wal l w in
      match r with
      | Err _ => recover_loop n' l (offset + 1) maxMemTableSize recovered totalSize
      | Ok walData =>
          let messageSize := zlen walData in
          let full := (maxMemTableSize <=? totalSize + messageSize) && (0 <? recovered) in
          let l := if full then rotateMemTable l else l in
          if full && (mc_NumImmutable (cfg_MemTable (l_config l)) <=? zlen (l_immutableMemTables l))
          then Some l
          else
            let totalSize := if full then 0 else totalSize in
            active ← mt_put (l_activeMemTable l) (offsetToKey offset) walData;
            recover_loop n' (set_active l active) (offset + 1) maxMemTableSize (recovered + 1)
              (totalSize + messageSize)
      end
  end.

Definition recover (l : log) : option log :=
  let nextOffset := wal_NextOffset (l_wal l) in
  let l := with_offsets l nextOffset nextOffset 0 in
  if nextOffset =? 0 then Some l
  else
    let maxMemTableSize := mc_MaxSize (cfg_MemTable (l_config l)) in
    let maxMemTableSize := if maxMemTableSize =? 0 then 64 * 1024 * 1024 else maxMemTableSize in
    let estimatedCapacity := Z.quot maxMemTableSize 2048 in
    let maxToRecover := if nextOffset <? estimatedCapacity then nextOffset else estimatedCapacity in
    let startOffset := nextOffset - maxToRecover in
    let startOffset := if startOffset <? 0 then 0 else startOffset in
    recover_loop (Z.to_nat (nextOffset - startOffset)) l startOffset maxMemTableSize 0 0.

(** The log around an open write-ahead log. *)
Definition newLog (config : Config) (w : W) : option log :=
  recover (mkLog config w mt_new [] 0 0 0 false false).
End log.

(** [NewLog] on the write-ahead log's directory. *)
Definition NewLog {T} {MT : MemTableOps T} (d : walDir) (config : Config)
    : option (result storage_error (logImpl walImpl T)) :=
  r ← NewWAL d (cfg_WAL config);
  match r with
  | Err e => Some (Err e)
  | Ok w => l ← newLog config w; Some (Ok l)
  end.

(** ** The batch codec *)

Fixpoint batch_size (msgs : list Message) : Z :=
  match msgs with
  | [] => 0
  | m :: msgs' => 8 + 4 + zlen (msg_Key m) + 4 + zlen (msg_Value m) + batch_size msgs'
  end.

Fixpoint put_batch (buf : bytes) (offset : Z) (msgs : list Message) : option bytes :=
  match msgs with
  | [] => Some buf
  | m :: msgs' =>
      buf ← put_be 8 buf offset (wrapu 64 (msg_Offset m));
      let offset := offset + 8 in
      buf ← put_be 4 buf offset (wrapu 32 (zlen (msg_Key m)));
      let offset := offset + 4 in
      buf ← copy_at buf offset (msg_Key m);
      let offset := offset + zlen (msg_Key m) in
      buf ← put_be 4 buf offset (wrapu 32 (zlen (msg_Value m)));
      let offset := offset + 4 in
      buf ← copy_at buf offset (msg_Value m);
      put_batch buf (offset + zlen (msg_Value m)) msgs'
  end.

Definition serializeBatch (batch : MessageBatch) : option bytes :=
  let buf := make_bytes (4 + batch_size (b_Messages batch)) in
  buf ← put_be 4 buf 0 (wrapu 32 (zlen (b_Messages batch)));
  put_batch buf 4 (b_Messages batch).

Inductive batch_error := TooShort | UnexpectedEnd | KeyOverflow | ValueOverflow.

Fixpoint get_batch (n : nat) (data : bytes) (offset : Z)
    : option (result batch_error (list Message)) :=
  match n with
  | O => Some (Ok [])
  | S n' =>
      if zlen data <? offset + 16 then Some (Err UnexpectedEnd)
      else
        msgOffset ← get_be 8 data offset;
        let offset := offset + 8 in
        keyLen ← get_be 4 data offset;
        let offset := offset + 4 in
        if zlen data <? offset + keyLen then Some (Err KeyOverflow)
        else
          key ← slice data offset (offset + keyLen);
          let offset := offset + keyLen in
          if zlen data <? offset + 4 then Some (Err UnexpectedEnd)
          else
            valueLen ← get_be 4 data offset;
            let offset := offset + 4 in
            if zlen data <? offset + valueLen then Some (Err ValueOverflow)
            else
              value ← slice data offset (offset + valueLen);
              r ← get_batch n' data (offset + valueLen);
              Some (match r with
                    | Ok msgs => Ok (set_Offset (Message_lit key value zero_time) (wraps 64 msgOffset)
                                     :: msgs)
                    | Err e => Err e
                    end)
  end.

Definition deserializeBatch (data : bytes) : option (result batch_error MessageBatch) :=
  if zlen data <? 4 then Some (Err TooShort)
  else
    numMessages ← get_be 4 data 0;
    r ← get_batch (Z.to_nat numMessages) data 4;
    Some (match r with Ok msgs => Ok (mkBatch msgs 0 0) | Err e => Err e end).

(** ** The records of a log *)

(** The record a message is stored as. *)
Definition enc (version : Z) (m : Message) : bytes :=
  if version =? MessageFormatV2 then v2_bytes m else v3_bytes m.

Lemma serializeMessage_enc version m : serializeMessage version m = Some (enc version m).
Proof.
  unfold serializeMessage, enc. destruct (version =? MessageFormatV2);
    [apply serializeMessageV2_layout|apply serializeMessageV3_layout].
Qed.

(** A message that fits a record, in a record that fits a log entry. *)
Definition msg_ok (version : Z) (m : Message) : Prop :=
  msg_wf m /\ recordBodySize m (sortedHeaderNames (msg_Headers m)) + 31 < 2 ^ 32
  /\ (version = MessageFormatV2 -> msg_ProducerID m = 0 /\ msg_ProducerEpoch m = 0).

Lemma enc_data_ok version m : msg_ok version m -> data_ok (enc version m).
Proof.
  intros (_ & Hb & _). unfold data_ok, enc. rewrite recordBodySize_bytes in Hb.
  destruct (version =? MessageFormatV2); unfold v2_bytes, v3_bytes;
    rewrite !length_app, !be_enc_length; cbn [length]; lia.
Qed.

Lemma enc_read version m : msg_ok version m -> deserializeMessage (enc version m) = Some (reread m).
Proof.
  intros (Hwf & _ & Hv). unfold enc. destruct (Z.eqb_spec version MessageFormatV2) as [->|].
  - destruct (Hv eq_refl). by apply deserialize_v2_bytes.
  - by apply deserialize_v3_bytes.
Qed.

Lemma offsetToKey_inj a b : in_i64 a -> in_i64 b -> offsetToKey a = offsetToKey b -> a = b.
Proof.
  intros Ha Hb H. unfold offsetToKey in H. apply be_enc_inj in H.
  change (256 ^ Z.of_nat 8) with (2 ^ 64) in H. unfold wrapu in H. rewrite !Z.mod_mod in H by lia.
  rewrite <- (wraps_wrapu_64 a Ha), <- (wraps_wrapu_64 b Hb). unfold wrapu. by rewrite H.
Qed.

Section proofs.
Context {W T : Type} {WO : WalOps W} {WL : WalLaws W} {MT : MemTableOps T} {ML : MemTableLaws T}.
Notation log := (logImpl W T).
Implicit Types (l : log) (rs : list bytes).

Definition tables l : list T := l_activeMemTable l :: l_immutableMemTables l.

(** The log holds the records [rs] from offset [ws]: they are the records of
    its write-ahead log, and a memtable only holds records of the log. *)
Record log_ok l (live : bool) (ws : Z) rs (n : nat) : Prop := {
  lk_open : l_closed l = false;
  lk_wal : wlog (l_wal l) live ws rs n;
  lk_next : l_nextOffset l = ws + zlen rs;
  lk_hwm : l_highWaterMark l = ws + zlen rs;
  lk_inv : Forall mt_inv (tables l);
  lk_sound : forall k v, holds (tables l) k v ->
    exists i, k = offsetToKey (ws + Z.of_nat i) /\ rs !! i = Some v
}.

(** Every record can be read: from a memtable or from the files. *)
Definition covered l (ws : Z) rs (n : nat) : Prop :=
  forall i d, rs !! i = Some d -> (i < n)%nat \/ holds (tables l) (offsetToKey (ws + Z.of_nat i)) d.

Lemma get_immutable_ok ts k :
  Forall mt_inv ts ->
  exists r, get_immutable ts k = Some r
    /\ match r with Some v => holds ts k v | None => forall v, ~ holds ts k v end.
Proof.
  induction ts as [|t ts IH]; intros Hi; cbn [get_immutable].
  { exists None. split; [done|]. intros v (t & Ht & _). by apply elem_of_nil in Ht. }
  apply Forall_cons in Hi as [Ht Hi]. rewrite mt_get_ok by done. cbn [mbind option_bind].
  destruct (mt_view t !! k) as [v|] eqn:E.
  { exists (Some v). split; [done|]. exists t. split; [by left|done]. }
  destruct (IH Hi) as (r & -> & Hr). exists r. split; [done|]. destruct r as [v|].
  - destruct Hr as (x & Hx & Hv). exists x. split; [by right|done].
  - intros v (x & [->|Hx]%elem_of_cons & Hv); [congruence|]. apply (Hr v). by exists x.
Qed.

Lemma get_memtables_ok l k :
  Forall mt_inv (tables l) ->
  exists r, get_memtables l k = Some r
    /\ match r with Some v => holds (tables l) k v | None => forall v, ~ holds (tables l) k v end.
Proof. intros Hi. exact (get_immutable_ok (tables l) k Hi). Qed.

Lemma log_ok_with_wal l live ws rs n live' n' w :
  log_ok l live ws rs n -> wlog w live' ws rs n' -> log_ok (with_wal l w) live' ws rs n'.
Proof. intros [H1 H2 H3 H4 H5 H6] Hw. by split. Qed.

(** The keys of the log's records are distinct. *)
Lemma log_key_inj l live ws rs n i j d d' :
  log_ok l live ws rs n -> rs !! i = Some d -> rs !! j = Some d' ->
  offsetToKey (ws + Z.of_nat i) = offsetToKey (ws + Z.of_nat j) -> i = j.
Proof.
  intros L Hi%lookup_lt_Some Hj%lookup_lt_Some H.
  destruct (wlog_bounds _ _ _ _ _ (lk_wal _ _ _ _ _ L)) as (H0 & H1 & _).
  apply offsetToKey_inj in H; unfold in_i64; lia.
Qed.

(** A log changed by reading: only the write-ahead log's handles moved. *)
Definition same_tables l l' : Prop := exists w, l' = with_wal l w /\ walways w = walways (l_wal l).

Lemma same_tables_refl l : same_tables l l.
Proof. exists (l_wal l). by destruct l. Qed.

Lemma same_tables_trans l1 l2 l3 : same_tables l1 l2 -> same_tables l2 l3 -> same_tables l1 l3.
Proof. intros (w1 & -> & H1) (w2 & -> & H2). exists w2. simpl in *. split; [done|congruence]. Qed.

(** [lookupOffset] finds exactly the records of the log, when all of them can
    be read. *)
Lemma lookupOffset_ok l live ws rs n o :
  log_ok l live ws rs n -> in_i64 o ->
  exists r l', lookupOffset l o = Some (r, l') /\ log_ok l' live ws rs n /\ same_tables l l'
    /\ (forall d, r = Some d -> ws <= o /\ rs !! Z.to_nat (o - ws) = Some d)
    /\ (covered l ws rs n -> r = if decide (ws <= o) then rs !! Z.to_nat (o - ws) else None).
Proof.
  intros L Ho. unfold lookupOffset.
  destruct (wlog_bounds _ _ _ _ _ (lk_wal _ _ _ _ _ L)) as (H0 & H1 & H2).
  destruct (get_memtables_ok l (offsetToKey o) (lk_inv _ _ _ _ _ L)) as (r & -> & Hr).
  cbn [mbind option_bind]. destruct r as [v|].
  - exists (Some v), l. split; [done|]. split; [done|]. split; [apply same_tables_refl|].
    destruct (lk_sound _ _ _ _ _ L _ _ Hr) as (i & Hk & Hi).
    pose proof (lookup_lt_Some _ _ _ Hi). apply offsetToKey_inj in Hk; [|done|unfold in_i64; lia]. subst o.
    assert (Z.to_nat (ws + Z.of_nat i - ws) = i) as E by lia. rewrite E.
    split; [intros d [= <-]; split; [lia|done]|]. intros _. by rewrite decide_True by lia.
  - destruct (wlog_read _ _ _ _ _ o (lk_wal _ _ _ _ _ L)) as (rr & w' & -> & Hw & Ha & Hout & Hin).
    cbn [mbind option_bind]. do 2 eexists. split; [done|].
    split; [by eapply log_ok_with_wal|]. split; [by exists w'|].
    destruct (decide (ws <= o /\ o < ws + zlen rs)) as [Hr'|Hr'].
    2: { rewrite Hout by lia. split; [done|]. intros _. case_decide; [|done].
         symmetry. apply lookup_ge_None. lia. }
    destruct (lookup_lt_is_Some_2 rs (Z.to_nat (o - ws))) as [d Hd]; [lia|].
    specialize (Hin (Z.to_nat (o - ws)) d ltac:(lia) Hd). rewrite Hd.
    destruct (decide (Z.to_nat (o - ws) < n)%nat) as [Hn|Hn].
    + subst rr. split; [intros d' [= <-]; split; [lia|done]|]. intros _. by rewrite decide_True by lia.
    + destruct Hin as [e ->]. split; [done|]. intros Hc. exfalso.
      destruct (Hc _ _ Hd) as [|Hh]; [lia|]. apply (Hr d).
      by replace o with (ws + Z.of_nat (Z.to_nat (o - ws))) by lia.
Qed.

(** ** Append *)

(** The messages of a batch as they are written from an offset on. *)
Fixpoint stamp_all (batch : MessageBatch) (offset : Z) (msgs : list Message) : list Message :=
  match msgs with
  | [] => []
  | m :: msgs' => stamp m offset batch :: stamp_all batch (offset + 1) msgs'
  end.

Definition batch_ok (version : Z) (batch : MessageBatch) : Prop :=
  Forall (fun m => msg_ok version (stamp m 0 batch)) (b_Messages batch).

Lemma stamp_ok version m o o' batch :
  msg_ok version (stamp m o batch) -> msg_ok version (stamp m o' batch).
Proof. done. Qed.

(** A record added to the write-ahead log and the active memtable. *)
Lemma log_ok_add l live ws rs n w t d n' :
  log_ok l live ws rs n -> wlog w true ws (rs ++ [d]) n' -> mt_inv t ->
  mt_view t = <[offsetToKey (ws + zlen rs) := d]> (mt_view (l_activeMemTable l)) ->
  (n ≤ n')%nat ->
  let l' := with_offsets (with_tables (with_wal l w) t (l_immutableMemTables l))
              (ws + zlen (rs ++ [d])) (ws + zlen (rs ++ [d])) (l_logStartOffset l) in
  log_ok l' true ws (rs ++ [d]) n' /\ (covered l ws rs n -> covered l' ws (rs ++ [d]) n').
Proof.
  intros L Hw Ht Hv Hn l'. pose proof L as [H1 H2 H3 H4 H5 H6].
  destruct (wlog_bounds _ _ _ _ _ Hw) as (B0 & B1 & _). rewrite length_app in B1. simpl in B1.
  apply Forall_cons in H5 as [Hact Himm]. split.
  - split; simpl; try done; [by constructor|].
    intros k v (x & [->|Hx]%elem_of_cons & Hkv).
    + cbn in Hkv. rewrite Hv in Hkv. apply lookup_insert_Some in Hkv as [[<- <-]|[_ Hkv]].
      * exists (length rs). split; [done|]. by rewrite lookup_app_r, Nat.sub_diag.
      * destruct (H6 k v) as (i & -> & Hi); [exists (l_activeMemTable l); split; [by left|done]|].
        exists i. split; [done|]. by apply lookup_app_l_Some.
    + destruct (H6 k v) as (i & -> & Hi); [exists x; split; [by right|done]|].
      exists i. split; [done|]. by apply lookup_app_l_Some.
  - intros Hc i d' Hi. apply lookup_app_Some in Hi as [Hi|[Hge Hi]].
    + destruct (Hc i d' Hi) as [|(x & [->|Hx]%elem_of_cons & Hxv)]; [left; lia| |].
      * right. exists t. split; [by left|]. rewrite Hv, lookup_insert_ne; [done|].
        pose proof (lookup_lt_Some _ _ _ Hi). intros E.
        apply offsetToKey_inj in E; unfold in_i64; lia.
      * right. exists x. split; [by right|done].
    + apply list_lookup_singleton_Some in Hi as [Hz ->]. right. exists t. split; [by left|].
      assert (i = length rs) as -> by lia. by rewrite Hv, lookup_insert_eq.
Qed.

Lemma append_loop_ok batch msgs : forall l ws rs n,
  log_ok (with_offsets l (ws + zlen rs) (ws + zlen rs) (l_logStartOffset l)) true ws rs n ->
  Forall (fun m => msg_ok (cfg_MessageFormatVersion (l_config l)) (stamp m 0 batch)) msgs ->
  ws + zlen rs + zlen msgs < 2 ^ 63 ->
  let ms := stamp_all batch (ws + zlen rs) msgs in
  let rs' := rs ++ map (enc (cfg_MessageFormatVersion (l_config l))) ms in
  let next := ws + zlen rs + zlen msgs in
  exists l' n', append_loop l batch msgs (ws + zlen rs)
      = Some (Ok (seqZ (ws + zlen rs) (zlen msgs), ms, next), l')
    /\ log_ok (with_offsets l' next next (l_logStartOffset l')) true ws rs' n'
    /\ l_config l' = l_config l /\ l_logStartOffset l' = l_logStartOffset l
    /\ l_immutableMemTables l' = l_immutableMemTables l
    /\ (n ≤ n')%nat /\ walways (l_wal l') = walways (l_wal l)
    /\ (walways (l_wal l) = true -> n = length rs -> n' = length rs')
    /\ (covered l ws rs n -> covered l' ws rs' n').
Proof.
  induction msgs as [|m msgs IH]; intros l ws rs n L Hok Hmax; cbn [append_loop stamp_all map].
  { exists l, n. rewrite app_nil_r, Z.add_0_r. done. }
  apply Forall_cons in Hok as [Hm Hok]. rewrite serializeMessage_enc. cbn [mbind option_bind].
  set (v := cfg_MessageFormatVersion (l_config l)) in *.
  set (d := enc v (stamp m (ws + zlen rs) batch)). cbn [length] in Hmax.
  destruct (wlog_append (l_wal l) ws rs n d (lk_wal _ _ _ _ _ L)) as (w & n1 & -> & Hw & Hn1 & Ha & Hal).
  { apply enc_data_ok. exact Hm. }
  { lia. }
  cbn [mbind option_bind].
  pose proof (lk_inv _ _ _ _ _ L) as Hinv. apply Forall_cons in Hinv as [Hact _].
  destruct (mt_put_ok _ (offsetToKey (ws + zlen rs)) d Hact) as (t & Et & Ht & Hv).
  cbn [l_activeMemTable with_wal with_offsets] in Et |- *.
  change (msg_Offset (stamp m (ws + zlen rs) batch)) with (ws + zlen rs).
  rewrite Et. cbn [mbind option_bind].
  destruct (log_ok_add _ _ _ _ _ w t d n1 L Hw Ht Hv Hn1) as [L1 Hc1].
  assert (ws + zlen (rs ++ [d]) = ws + zlen rs + 1) as Hlen by (rewrite length_app; simpl; lia).
  destruct (IH (with_tables (with_wal l w) t (l_immutableMemTables l)) ws (rs ++ [d]) n1)
    as (l' & n' & E & L' & Hcf & Hst & Him & Hn' & Ha' & Hal' & Hc').
  { exact L1. }
  { exact Hok. }
  { lia. }
  rewrite Hlen in E. change (l_immutableMemTables (with_wal l w)) with (l_immutableMemTables l).
  rewrite E. cbn [mbind option_bind].
  exists l', n'. rewrite <- (assoc_L (++)) in *. rewrite Hlen in *.
  replace (ws + zlen rs + zlen (m :: msgs)) with (ws + zlen rs + 1 + zlen msgs) by (simpl; lia).
  split; [|split; [exact L'|split; [done|split; [done|split; [done|split; [lia|split]]]]]].
  - do 5 f_equal. rewrite (seqZ_cons (ws + zlen rs)) by (simpl; lia).
    f_equal. unfold Z.succ. f_equal. simpl. lia.
  - simpl in Ha'. congruence.
  - split.
    + intros Hwal _. rewrite Hal'; [done|simpl; congruence|]. rewrite (Hal Hwal), length_app. simpl. lia.
    + intros Hc. apply Hc', Hc1, Hc.
Qed.

(** Tables that hold no more than before keep the log's invariant. *)
Lemma log_ok_tables l live ws rs n active imm :
  log_ok l live ws rs n -> Forall mt_inv (active :: imm) ->
  (forall k v, holds (active :: imm) k v -> holds (tables l) k v) ->
  log_ok (with_tables l active imm) live ws rs n.
Proof. intros [H1 H2 H3 H4 H5 H6] Hi Hh. split; try done. intros k v Hk. apply H6. by apply Hh. Qed.

Lemma holds_new ts k v : holds (mt_new :: ts) k v <-> holds ts k v.
Proof.
  split.
  - intros (t & [->|Ht]%elem_of_cons & Hv); [|by exists t].
    rewrite mt_new_view, lookup_empty in Hv. done.
  - intros (t & Ht & Hv). exists t. split; [by right|done].
Qed.

(** Rotation keeps the records; it only makes some of them unavailable in the
    memtables when it drops a table. *)
Lemma rotateMemTable_ok l live ws rs n :
  log_ok l live ws rs n ->
  log_ok (rotateMemTable l) live ws rs n
  /\ (covered l ws rs n ->
      zlen (l_immutableMemTables l) < mc_NumImmutable (cfg_MemTable (l_config l)) \/ n = length rs ->
      covered (rotateMemTable l) ws rs n).
Proof.
  intros L. pose proof L as [H1 H2 H3 H4 H5 H6].
  set (imm := l_immutableMemTables l ++ [l_activeMemTable l]).
  set (imm' := if mc_NumImmutable (cfg_MemTable (l_config l)) <? zlen imm then drop 1 imm else imm).
  assert (imm ≡ₚ tables l) as Hp by (unfold imm; by rewrite Permutation_app_comm).
  assert (forall t, t ∈ imm' -> t ∈ tables l) as Hsub.
  { intros t Ht. rewrite <- Hp. unfold imm' in Ht. destruct (_ <? _); [|done].
    rewrite <- (take_drop 1 imm). apply elem_of_app. by right. }
  split.
  - assert (log_ok (with_tables l mt_new imm') live ws rs n) as [].
    { apply log_ok_tables; [done| |].
      - constructor; [apply mt_new_inv|]. rewrite Forall_forall in H5 |- *.
        intros t Ht. by apply H5, Hsub.
      - intros k v Hk. apply (proj1 (holds_new _ _ _)) in Hk as (t & Ht & Hv). exists t.
        split; [by apply Hsub|done]. }
    by split.
  - intros Hc Hdrop i d Hi. destruct (Hc i d Hi) as [|Hh]; [by left|].
    destruct Hdrop as [Hlt| ->]; [|left; by eapply lookup_lt_Some]. right.
    assert (imm' = imm) as E.
    { unfold imm'. destruct (Z.ltb_spec (mc_NumImmutable (cfg_MemTable (l_config l))) (zlen imm));
        [|done]. unfold imm in *. rewrite length_app in *. simpl in *. lia. }
    change (holds (mt_new :: imm') (offsetToKey (ws + Z.of_nat i)) d).
    apply holds_new. by rewrite E, Hp.
Qed.

(** [Append] writes the batch at the next offsets. *)
Lemma Append_ok l ws rs n batch :
  let v := cfg_MessageFormatVersion (l_config l) in
  log_ok l true ws rs n -> batch_ok v batch ->
  (v = MessageFormatV2 -> b_ProducerID batch = 0) ->
  ws + zlen rs + zlen (b_Messages batch) < 2 ^ 63 ->
  let rs' := rs ++ map (enc v) (stamp_all batch (ws + zlen rs) (b_Messages batch)) in
  exists l' n', Append l batch = Some (Ok (seqZ (ws + zlen rs) (zlen (b_Messages batch))), l')
    /\ log_ok l' true ws rs' n' /\ l_config l' = l_config l
    /\ l_logStartOffset l' = l_logStartOffset l
    /\ walways (l_wal l') = walways (l_wal l) /\ (n ≤ n')%nat
    /\ (walways (l_wal l) = true -> n = length rs -> n' = length rs').
Proof.
  intros v L Hb Hv Hmax rs'. unfold Append. rewrite (lk_open _ _ _ _ _ L).
  fold v. replace ((v =? MessageFormatV2) && negb (b_ProducerID batch =? 0)) with false.
  2: { destruct (Z.eqb_spec v MessageFormatV2) as [E|]; [|done]. by rewrite (Hv E). }
  rewrite (lk_next _ _ _ _ _ L).
  destruct (append_loop_ok batch (b_Messages batch) l ws rs n) as
    (l1 & n1 & -> & L1 & Hcf & Hst & Him & Hn & Ha & Hal & Hc).
  { rewrite <- (lk_next _ _ _ _ _ L) at 1. rewrite <- (lk_hwm _ _ _ _ _ L). by destruct l. }
  { exact Hb. }
  { done. }
  cbn [mbind option_bind]. eexists _, n1. split; [done|].
  split; [|repeat split; auto; by destruct (_ <=? _)].
  destruct (_ <=? _); [|exact L1]. by apply rotateMemTable_ok.
Qed.

(** ** Reading *)

(** A reader's view of a record at its offset. *)
Definition msg_at (ws : Z) rs (i : nat) : option Message :=
  d ← rs !! i; m ← deserializeMessage d; Some (set_Offset m (ws + Z.of_nat i)).

(** Messages until the byte budget is used up. *)
Fixpoint take_bytes (maxBytes bytesRead : Z) (ms : list Message) : list Message :=
  match ms with
  | [] => []
  | m :: ms' =>
      if bytesRead <? maxBytes
      then m :: take_bytes maxBytes (bytesRead + (zlen (msg_Value m) + zlen (msg_Key m))) ms'
      else []
  end.

(** [ms] are the messages of the records [rs] at offsets from [ws] on. *)
Definition decoded (ws : Z) rs (ms : list Message) : Prop :=
  length ms = length rs /\ forall i m, ms !! i = Some m -> msg_at ws rs i = Some m.

Lemma covered_same l l' ws rs n : same_tables l l' -> covered l ws rs n -> covered l' ws rs n.
Proof. intros (w & -> & _) Hc. exact Hc. Qed.

Lemma decoded_lookup ws rs ms i d :
  decoded ws rs ms -> rs !! i = Some d ->
  exists m, ms !! i = Some (set_Offset m (ws + Z.of_nat i)) /\ deserializeMessage d = Some m.
Proof.
  intros [Hl Hd] Hi. pose proof (lookup_lt_Some _ _ _ Hi).
  destruct (lookup_lt_is_Some_2 ms i) as [m Hm]; [lia|].
  pose proof (Hd i m Hm) as Hat. unfold msg_at in Hat. rewrite Hi in Hat. cbn [mbind option_bind] in Hat.
  destruct (deserializeMessage d) as [m'|]; [|done]. cbn [mbind option_bind] in Hat.
  injection Hat as <-. eauto.
Qed.

Lemma read_msgs_ok live ws rs n ms mx : decoded ws rs ms -> forall k i l br,
  log_ok l live ws rs n -> covered l ws rs n -> (i + k = length rs)%nat ->
  exists l', read_msgs k l mx br (ws + Z.of_nat i) = Some (take_bytes mx br (drop i ms), l')
    /\ log_ok l' live ws rs n /\ same_tables l l'.
Proof.
  intros Hdec. induction k as [|k IH]; intros i l br L Hc Hik; cbn [read_msgs].
  { exists l. destruct Hdec as [Hl _]. rewrite drop_ge by lia.
    split; [done|]. split; [done|apply same_tables_refl]. }
  destruct (lookup_lt_is_Some_2 rs i) as [d Hd]; [lia|].
  destruct (decoded_lookup _ _ _ _ _ Hdec Hd) as (m & Hm & Hde).
  rewrite (drop_S _ _ _ Hm). cbn [take_bytes]. rewrite (lk_hwm _ _ _ _ _ L).
  destruct (br <? mx); cbn [andb].
  2: { exists l. split; [done|]. split; [done|apply same_tables_refl]. }
  destruct (Z.ltb_spec (ws + Z.of_nat i) (ws + zlen rs)); [|lia].
  destruct (wlog_bounds _ _ _ _ _ (lk_wal _ _ _ _ _ L)) as (B0 & B1 & _).
  destruct (lookupOffset_ok l live ws rs n (ws + Z.of_nat i) L ltac:(unfold in_i64; lia))
    as (r & l1 & -> & L1 & Hs1 & _ & Hr). cbn [mbind option_bind].
  rewrite (Hr Hc), decide_True by lia. replace (Z.to_nat (ws + Z.of_nat i - ws)) with i by lia.
  rewrite Hd. cbn [mbind option_bind]. rewrite Hde. cbn [mbind option_bind].
  replace (ws + Z.of_nat i + 1) with (ws + Z.of_nat (S i)) by lia.
  edestruct (IH (S i) l1) as (l2 & -> & L2 & Hs2); [done|by eapply covered_same|lia|].
  cbn [mbind option_bind]. exists l2. split; [done|]. split; [done|]. by eapply same_tables_trans.
Qed.

(** [Read] returns the messages from the offset on, up to the byte budget. *)
Lemma Read_ok l live ws rs n ms o mx :
  log_ok l live ws rs n -> covered l ws rs n -> decoded ws rs ms -> ws <= l_logStartOffset l ->
  exists l', Read l o mx
    = Some (if o <? l_logStartOffset l then Err ErrOffsetOutOfRange
            else Ok (take_bytes mx 0 (drop (Z.to_nat (o - ws)) ms)), l')
    /\ log_ok l' live ws rs n /\ same_tables l l'.
Proof.
  intros L Hc Hd Hws. unfold Read. rewrite (lk_open _ _ _ _ _ L), (lk_hwm _ _ _ _ _ L).
  destruct (Z.ltb_spec o (l_logStartOffset l)).
  { exists l. split; [done|]. split; [done|apply same_tables_refl]. }
  destruct (Z.leb_spec (ws + zlen rs) o).
  { exists l. destruct Hd as [Hl _]. rewrite drop_ge by lia.
    split; [done|]. split; [done|apply same_tables_refl]. }
  destruct (read_msgs_ok live ws rs n ms mx Hd (Z.to_nat (ws + zlen rs - o)) (Z.to_nat (o - ws)) l 0)
    as (l' & E & L' & Hs); [done|done|lia|].
  replace (ws + Z.of_nat (Z.to_nat (o - ws))) with o in E by lia. rewrite E.
  cbn [mbind option_bind]. by exists l'.
Qed.

(** The messages with offsets in a range. *)
Definition in_range (lo hi : Z) (ms : list Message) : list Message :=
  filter (fun m => lo <= msg_Offset m < hi) ms.

Lemma decoded_offset ws rs ms i m :
  decoded ws rs ms -> ms !! i = Some m -> msg_Offset m = ws + Z.of_nat i.
Proof.
  intros [_ Hd] Hi. specialize (Hd i m Hi). unfold msg_at in Hd.
  destruct (rs !! i); [|done]. cbn [mbind option_bind] in Hd.
  destruct (deserializeMessage _); [|done]. cbn in Hd. by injection Hd as <-.
Qed.

(** Splitting a range at its first offset. *)
Lemma in_range_split ws rs ms o hi :
  decoded ws rs ms -> o < hi ->
  in_range o hi ms
  = match (if decide (ws <= o) then ms !! Z.to_nat (o - ws) else None) with
    | Some m => m :: in_range (o + 1) hi ms
    | None => in_range (o + 1) hi ms
    end.
Proof.
  intros Hd Ho. unfold in_range.
  assert (forall (xs : list Message) k, (forall i m, xs !! i = Some m -> msg_Offset m = k + Z.of_nat i) ->
    filter (fun m => o <= msg_Offset m < hi) xs
    = match (if decide (k <= o) then xs !! Z.to_nat (o - k) else None) with
      | Some m => m :: filter (fun m => o + 1 <= msg_Offset m < hi) xs
      | None => filter (fun m => o + 1 <= msg_Offset m < hi) xs
      end) as H.
  { induction xs as [|m xs IH]; intros k Hk; [by destruct (decide _)|].
    pose proof (Hk 0%nat m eq_refl) as Hm. simpl in Hm.
    assert (forall i m', xs !! i = Some m' -> msg_Offset m' = k + 1 + Z.of_nat i) as Hk'
      by (intros i m' Hi; rewrite (Hk (S i) m' Hi); lia).
    specialize (IH (k + 1) Hk'). destruct (decide (o = k)) as [->|Hne].
    - rewrite decide_True, Z.sub_diag by lia. cbn [lookup list_lookup Z.to_nat].
      rewrite filter_cons_True by lia. rewrite filter_cons_False by lia. f_equal.
      rewrite IH, decide_False by lia. done.
    - destruct (decide (k <= o)).
      + rewrite decide_True in IH by lia. replace (Z.to_nat (o - k)) with (S (Z.to_nat (o - (k + 1)))) by lia.
        cbn [lookup list_lookup]. rewrite (filter_cons_False _ m) by lia.
        rewrite (filter_cons_False (fun m => o + 1 <= _ < hi) m) by lia. exact IH.
      + rewrite decide_False in IH by lia.
        rewrite !filter_cons, IH. do 2 case_decide; try done; lia. }
  apply H. intros i m. by apply (decoded_offset ws rs).
Qed.

Lemma in_range_empty lo hi ms : hi <= lo -> in_range lo hi ms = [].
Proof. intros H. apply filter_none. intros m _ Hm. lia. Qed.

Lemma range_msgs_ok live ws rs n ms hi : decoded ws rs ms -> forall k l o,
  log_ok l live ws rs n -> covered l ws rs n -> hi = o + Z.of_nat k -> in_i64 o -> hi <= 2 ^ 63 ->
  exists l', range_msgs k l o = Some (in_range o hi ms, l')
    /\ log_ok l' live ws rs n /\ same_tables l l'.
Proof.
  intros Hdec. induction k as [|k IH]; intros l o L Hc Hhi Ho Hmax; cbn [range_msgs].
  { exists l. rewrite in_range_empty by lia. split; [done|]. split; [done|apply same_tables_refl]. }
  destruct (lookupOffset_ok l live ws rs n o L Ho) as (r & l1 & -> & L1 & Hs1 & _ & Hr).
  cbn [mbind option_bind]. rewrite (Hr Hc), (in_range_split _ _ _ o hi Hdec ltac:(lia)).
  assert (covered l1 ws rs n) as Hc1 by (by eapply covered_same).
  destruct (decide (Z.of_nat k = 0)) as [Hk|Hk].
  - assert (k = 0%nat) as -> by lia. cbn [range_msgs]. rewrite (in_range_empty (o + 1)) by lia.
    destruct (decide (ws <= o)); [|by exists l1].
    destruct (rs !! Z.to_nat (o - ws)) as [d|] eqn:Ed.
    + destruct (decoded_lookup _ _ _ _ _ Hdec Ed) as (m & -> & ->). cbn [mbind option_bind].
      exists l1. by replace (ws + Z.of_nat (Z.to_nat (o - ws))) with o by lia.
    + destruct Hdec as [Hl _]. rewrite (proj2 (lookup_ge_None ms _)); [by exists l1|].
      rewrite Hl. by apply lookup_ge_None.
  - destruct (IH l1 (o + 1) L1 Hc1 ltac:(lia) ltac:(unfold in_i64 in *; lia) Hmax)
      as (l2 & E2 & L2 & Hs2). pose proof (same_tables_trans _ _ _ Hs1 Hs2) as Hs.
    destruct (decide (ws <= o)); [|by exists l2].
    destruct (rs !! Z.to_nat (o - ws)) as [d|] eqn:Ed.
    + destruct (decoded_lookup _ _ _ _ _ Hdec Ed) as (m & -> & ->). cbn [mbind option_bind].
      rewrite E2. cbn [mbind option_bind]. exists l2.
      by replace (ws + Z.of_nat (Z.to_nat (o - ws))) with o by lia.
    + destruct Hdec as [Hl _]. rewrite (proj2 (lookup_ge_None ms _)); [by exists l2|].
      rewrite Hl. by apply lookup_ge_None.
Qed.

Lemma ReadRange_ok l live ws rs n ms lo hi :
  log_ok l live ws rs n -> covered l ws rs n -> decoded ws rs ms -> in_i64 lo -> in_i64 hi ->
  exists l', ReadRange l lo hi = Some (Ok (in_range lo hi ms), l')
    /\ log_ok l' live ws rs n /\ same_tables l l'.
Proof.
  intros L Hc Hd Hlo Hhi. unfold ReadRange. rewrite (lk_open _ _ _ _ _ L).
  destruct (decide (lo <= hi)).
  - destruct (range_msgs_ok live ws rs n ms hi Hd (Z.to_nat (hi - lo)) l lo L Hc) as (l' & -> & H);
      [lia|done|unfold in_i64 in *; lia|]. cbn [mbind option_bind]. by exists l'.
  - replace (Z.to_nat (hi - lo)) with 0%nat by lia. cbn [range_msgs mbind option_bind].
    exists l. rewrite in_range_empty by lia. split; [done|]. split; [done|apply same_tables_refl].
Qed.

(** ** Flush and compaction *)

Lemma Log_Flush_ok l live ws rs n :
  log_ok l live ws rs n ->
  exists l', Log_Flush l = Some (None, l') /\ log_ok l' live ws rs (length rs) /\ same_tables l l'.
Proof.
  intros L. unfold Log_Flush. rewrite (lk_open _ _ _ _ _ L).
  destruct (wlog_sync _ _ _ _ _ (lk_wal _ _ _ _ _ L)) as (w & -> & Hw & Ha).
  cbn [mbind option_bind]. eexists. split; [done|]. split; [by eapply log_ok_with_wal|].
  by exists w.
Qed.

Section with_order.
Context (sortBySize : list T -> list T) (mapOrder : list Z -> list Z).
Context (Hsort : forall ts, sortBySize ts ≡ₚ ts) (Horder : forall ks, mapOrder ks ≡ₚ ks).

(** No two memtables disagree: each offset has one record. *)
Lemma log_tables_agree l live ws rs n : log_ok l live ws rs n -> agree (tables l).
Proof.
  intros L k v1 v2 H1 H2.
  destruct (lk_sound _ _ _ _ _ L _ _ H1) as (i & -> & Hi).
  destruct (lk_sound _ _ _ _ _ L _ _ H2) as (j & Hk & Hj).
  pose proof (log_key_inj _ _ _ _ _ _ _ _ _ L Hi Hj Hk) as <-. congruence.
Qed.

Lemma Compact_ok l live ws rs n :
  log_ok l live ws rs n ->
  exists l', Compact sortBySize mapOrder l = Some (None, l') /\ log_ok l' live ws rs n
    /\ (covered l ws rs n -> covered l' ws rs n)
    /\ l_config l' = l_config l /\ l_wal l' = l_wal l /\ l_logStartOffset l' = l_logStartOffset l.
Proof.
  intros L. unfold Compact, runCompaction. rewrite (lk_open _ _ _ _ _ L).
  destruct (_ <? _); cbn [mbind option_bind]; [by exists l|].
  pose proof (lk_inv _ _ _ _ _ L) as Hinv. apply Forall_cons in Hinv as [Hact Himm].
  pose proof (log_tables_agree _ _ _ _ _ L) as Hag.
  assert (agree (l_immutableMemTables l)) as Hag' by (by apply (agree_app_r [l_activeMemTable l])).
  destruct (compact_ok sortBySize mapOrder Hsort Horder (l_immutableMemTables l)
    (cfg_Compaction (l_config l)) Himm) as (out & res & -> & (Ho & _ & Hh) & _).
  cbn [mbind option_bind]. specialize (Hh Hag').
  assert (forall k v, holds (l_activeMemTable l :: out) k v <-> holds (tables l) k v) as Heq.
  { intros k v. change (l_activeMemTable l :: out) with ([l_activeMemTable l] ++ out).
    change (tables l) with ([l_activeMemTable l] ++ l_immutableMemTables l).
    rewrite !holds_app. by rewrite Hh. }
  eexists. split; [done|]. split; [|split; [|done]].
  - apply log_ok_tables; [done|by constructor|]. intros k v. apply Heq.
  - intros Hc i d Hi. destruct (Hc i d Hi) as [|Hk]; [by left|]. right. by apply Heq.
Qed.
End with_order.

(** ** Searching by timestamp *)

Lemma readMessageAt_ok l live ws rs n ms i d :
  log_ok l live ws rs n -> covered l ws rs n -> decoded ws rs ms -> rs !! i = Some d ->
  exists m l', ms !! i = Some m /\ readMessageAt l (ws + Z.of_nat i) = Some (Ok m, l')
    /\ log_ok l' live ws rs n /\ same_tables l l'.
Proof.
  intros L Hc Hdec Hi. destruct (decoded_lookup _ _ _ _ _ Hdec Hi) as (m & Hm & Hde).
  pose proof (lookup_lt_Some _ _ _ Hi) as Hlt.
  destruct (wlog_bounds _ _ _ _ _ (lk_wal _ _ _ _ _ L)) as (B0 & B1 & _).
  destruct (lookupOffset_ok l live ws rs n (ws + Z.of_nat i) L ltac:(unfold in_i64; lia))
    as (r & l1 & E & L1 & Hs1 & _ & Hr).
  rewrite (Hr Hc), decide_True in E by lia.
  replace (Z.to_nat (ws + Z.of_nat i - ws)) with i in E by lia. rewrite Hi in E.
  exists (set_Offset m (ws + Z.of_nat i)), l1. split; [done|]. split; [|done].
  unfold lookupOffset in E. unfold readMessageAt.
  destruct (get_memtables l _) as [found|]; [|done]. cbn [mbind option_bind] in *.
  destruct found as [v|]; cbn [mbind option_bind] in *.
  - injection E as -> ->. by rewrite Hde.
  - destruct (wal_Read _ _) as [[rr w]|]; [|done]. cbn [mbind option_bind] in *.
    destruct rr as [data|e]; [|done]. injection E as -> <-. by rewrite Hde.
Qed.

(** The timestamp the search compares, of the message at an offset. *)
Definition ts_at (ws : Z) (ms : list Message) (o : Z) : Z :=
  match ms !! Z.to_nat (o - ws) with Some m => UnixNano (msg_Timestamp m) | None => 0 end.

Section find.
Context (live : bool) (ws : Z) (rs : list bytes) (n : nat) (ms : list Message).
Context (target lo hi : Z) (Hdec : decoded ws rs ms).
Context (Hlo : ws <= lo) (Hhi : hi = ws + zlen rs).
Notation ts := (ts_at ws ms).

(** Offsets below [a] are before the target, offsets from [b] on are not. *)
Definition splits (a b : Z) : Prop :=
  (forall o, lo <= o < a -> ts o < target) /\ (forall o, b <= o < hi -> target <= ts o).
Definition monotone : Prop := forall o o', lo <= o <= o' -> o' < hi -> ts o <= ts o'.

Lemma readMessageAt_in l o :
  log_ok l live ws rs n -> covered l ws rs n -> lo <= o < hi ->
  exists m l', readMessageAt l o = Some (Ok m, l') /\ ts o = UnixNano (msg_Timestamp m)
    /\ log_ok l' live ws rs n /\ same_tables l l'.
Proof.
  intros L Hc Ho. destruct (lookup_lt_is_Some_2 rs (Z.to_nat (o - ws))) as [d Hd]; [lia|].
  destruct (readMessageAt_ok _ _ _ _ _ _ _ _ L Hc Hdec Hd) as (m & l' & Hm & E & H).
  exists m, l'. replace (ws + Z.of_nat (Z.to_nat (o - ws))) with o in E by lia.
  split; [done|]. split; [|done]. unfold ts_at. by rewrite Hm.
Qed.

Lemma ts_search_ok : forall fuel l low high res resTs,
  log_ok l live ws rs n -> covered l ws rs n -> lo <= low -> high < hi -> low <= high + 1 ->
  high - low < Z.of_nat fuel ->
  exists res' ts' l', ts_search fuel l target low high res resTs = Some (res', ts', l')
    /\ log_ok l' live ws rs n /\ same_tables l l'
    /\ ((res' = res /\ ts' = resTs) \/ (lo <= res' < hi /\ ts' = ts res' /\ target <= ts'))
    /\ (monotone -> splits low (high + 1) -> res = high + 1 -> splits res' res').
Proof.
  induction fuel as [|fuel IH]; intros l low high res resTs L Hc Hl Hh Hle Hf; cbn [ts_search].
  { exists res, resTs, l. split; [done|]. split; [done|]. split; [apply same_tables_refl|].
    split; [by left|]. intros _ Hs ->. by replace low with (high + 1) in Hs by lia. }
  destruct (Z.leb_spec low high) as [Hlh|Hlh].
  2: { exists res, resTs, l. split; [done|]. split; [done|]. split; [apply same_tables_refl|].
       split; [by left|]. intros _ Hs ->. by replace low with (high + 1) in Hs by lia. }
  assert (0 <= (high - low) / 2 <= high - low) as Hd
    by (split; [apply Z.div_pos; lia|apply Z.div_le_upper_bound; lia]).
  set (mid := low + (high - low) / 2).
  destruct (readMessageAt_in l mid L Hc ltac:(lia)) as (m & l1 & -> & Hts & L1 & Hs1).
  cbn [mbind option_bind]. rewrite <- Hts.
  assert (covered l1 ws rs n) as Hc1 by (by eapply covered_same).
  destruct (Z.leb_spec target (ts mid)) as [Ht|Ht].
  - destruct (IH l1 low (mid - 1) mid (ts mid) L1 Hc1 Hl ltac:(lia) ltac:(lia) ltac:(lia))
      as (res' & ts' & l' & E & L' & Hs & Hor & Hm).
    exists res', ts', l'. split; [done|]. split; [done|].
    split; [by eapply same_tables_trans|]. split.
    + right. destruct Hor as [[-> ->]|Hor]; [repeat split; lia|done].
    + intros Hmo [Hs1' Hs2'] _. apply Hm; [done| |lia]. split; [done|].
      intros o Ho. destruct (decide (o = mid)) as [->|]; [done|].
      specialize (Hmo mid o ltac:(lia) ltac:(lia)). lia.
  - destruct (IH l1 (mid + 1) high res resTs L1 Hc1 ltac:(lia) Hh ltac:(lia) ltac:(lia))
      as (res' & ts' & l' & E & L' & Hs & Hor & Hm).
    exists res', ts', l'. split; [done|]. split; [done|].
    split; [by eapply same_tables_trans|]. split; [done|].
    intros Hmo [Hs1' Hs2'] Hres. apply Hm; [done| |done]. split; [|done].
    intros o Ho. destruct (decide (o = mid)) as [->|]; [done|].
    specialize (Hmo o mid ltac:(lia) ltac:(lia)). lia.
Qed.

Lemma ts_scan_ok : forall k l o,
  log_ok l live ws rs n -> covered l ws rs n -> lo <= o -> o + Z.of_nat k = hi ->
  exists r l', ts_scan k l target o = Some (r, l') /\ log_ok l' live ws rs n /\ same_tables l l'
    /\ match r with
       | Some (res, t) => o <= res < hi /\ t = ts res /\ target <= t
                          /\ forall o', o <= o' < res -> ts o' < target
       | None => forall o', o <= o' < hi -> ts o' < target
       end.
Proof.
  induction k as [|k IH]; intros l o L Hc Ho Hk; cbn [ts_scan].
  { exists None, l. split; [done|]. split; [done|]. split; [apply same_tables_refl|]. lia. }
  destruct (readMessageAt_in l o L Hc ltac:(lia)) as (m & l1 & -> & Hts & L1 & Hs1).
  cbn [mbind option_bind]. rewrite <- Hts.
  destruct (Z.leb_spec target (ts o)) as [Ht|Ht].
  - exists (Some (o, ts o)), l1. split; [done|]. split; [done|]. split; [done|].
    repeat split; try lia; try done.
  - destruct (IH l1 (o + 1) L1 ltac:(by eapply covered_same) ltac:(lia) ltac:(lia))
      as (r & l' & E & L' & Hs & Hr).
    exists r, l'. split; [done|]. split; [done|]. split; [by eapply same_tables_trans|].
    destruct r as [[res t]|].
    + destruct Hr as (H1 & H2 & H3 & H4). repeat split; try lia; try done.
      intros o' Ho'. destruct (decide (o' = o)) as [->|]; [done|]. apply H4. lia.
    + intros o' Ho'. destruct (decide (o' = o)) as [->|]; [done|]. apply Hr. lia.
Qed.
End find.

(** [FindOffsetByTimestamp] returns an offset whose message is not before the
    target, or the end when there is none; with timestamps in order, the first
    such offset. *)
Lemma FindOffsetByTimestamp_ok l live ws rs n ms target :
  log_ok l live ws rs n -> covered l ws rs n -> decoded ws rs ms ->
  ws <= l_logStartOffset l ->
  let lo := l_logStartOffset l in let hi := l_highWaterMark l in
  exists o t l', FindOffsetByTimestamp l target = Some (Ok (o, t), l')
    /\ log_ok l' live ws rs n /\ same_tables l l'
    /\ ((lo <= o < hi /\ t = ts_at ws ms o /\ target <= t)
        \/ (o = hi /\ t = 0 /\ forall o', lo <= o' < hi -> ts_at ws ms o' < target))
    /\ (monotone ws ms lo hi -> forall o', lo <= o' < o -> o' < hi -> ts_at ws ms o' < target).
Proof.
  intros L Hc Hdec Hlo lo hi. unfold FindOffsetByTimestamp. rewrite (lk_open _ _ _ _ _ L).
  fold lo hi. pose proof (lk_hwm _ _ _ _ _ L) as Hhw. fold hi in Hhw.
  destruct (Z.leb_spec hi lo).
  { exists hi, 0, l. split; [done|]. split; [done|]. split; [apply same_tables_refl|].
    split; [right; repeat split; lia|lia]. }
  destruct (ts_search_ok live ws rs n ms target lo hi Hdec Hlo Hhw (Z.to_nat (hi - lo)) l lo (hi - 1) hi 0)
    as (res & ts' & l1 & -> & L1 & Hs1 & Hor & Hm); [done|done|lia..|].
  cbn [mbind option_bind].
  assert (covered l1 ws rs n) as Hc1 by (by eapply covered_same).
  destruct ((res =? hi) && (ts' =? 0)) eqn:Eb.
  - apply andb_true_iff in Eb as [->%Z.eqb_eq ->%Z.eqb_eq].
    destruct (ts_scan_ok live ws rs n ms target lo hi Hdec Hlo Hhw (Z.to_nat (hi - lo)) l1 lo)
      as (r & l2 & -> & L2 & Hs2 & Hr); [done|done|lia..|].
    cbn [mbind option_bind]. pose proof (same_tables_trans _ _ _ Hs1 Hs2) as Hs.
    destruct r as [[o t]|].
    + destruct Hr as (H1 & H2 & H3 & H4). exists o, t, l2. split; [done|]. split; [done|].
      split; [done|]. split; [by left|]. intros _ o' Ho' _. by apply H4.
    + exists hi, 0, l2. split; [done|]. split; [done|]. split; [done|]. split; [by right|].
      intros _ o' Ho' Ho''. apply Hr. lia.
  - exists res, ts', l1. split; [done|]. split; [done|]. split; [done|].
    destruct Hor as [[-> ->]|Hor]; [by rewrite !Z.eqb_refl in Eb|]. split; [by left|].
    intros Hmo o' Ho' _. destruct (Hm Hmo) as [Hs _]; [|lia|by apply Hs].
    split; lia.
Qed.

(** ** Reads without the assumption that every record can be read *)

Lemma read_msgs_sublist live ws rs n ms mx : decoded ws rs ms -> forall k i l br,
  log_ok l live ws rs n -> (i + k = length rs)%nat ->
  exists out l', read_msgs k l mx br (ws + Z.of_nat i) = Some (out, l')
    /\ out `sublist_of` drop i ms /\ log_ok l' live ws rs n /\ same_tables l l'.
Proof.
  intros Hdec. induction k as [|k IH]; intros i l br L Hik; cbn [read_msgs].
  { exists [], l. split; [done|]. split; [apply sublist_nil_l|].
    split; [done|apply same_tables_refl]. }
  destruct (lookup_lt_is_Some_2 rs i) as [d Hd]; [lia|].
  destruct (decoded_lookup _ _ _ _ _ Hdec Hd) as (m & Hm & Hde). rewrite (drop_S _ _ _ Hm).
  destruct (_ && _).
  2: { exists [], l. split; [done|]. split; [apply sublist_nil_l|].
       split; [done|apply same_tables_refl]. }
  destruct (wlog_bounds _ _ _ _ _ (lk_wal _ _ _ _ _ L)) as (B0 & B1 & _).
  destruct (lookupOffset_ok l live ws rs n (ws + Z.of_nat i) L ltac:(unfold in_i64; lia))
    as (r & l1 & -> & L1 & Hs1 & Hr & _). cbn [mbind option_bind].
  replace (ws + Z.of_nat i + 1) with (ws + Z.of_nat (S i)) by lia.
  destruct r as [d'|].
  - destruct (Hr d' eq_refl) as [_ Hd']. replace (Z.to_nat (ws + Z.of_nat i - ws)) with i in Hd' by lia.
    rewrite Hd in Hd'. injection Hd' as <-. rewrite Hde. cbn [mbind option_bind].
    edestruct (IH (S i) l1) as (out & l2 & -> & Ho & L2 & Hs2); [done|lia|].
    cbn [mbind option_bind]. exists (set_Offset m (ws + Z.of_nat i) :: out), l2. split; [done|].
    split; [by constructor|]. split; [done|]. by eapply same_tables_trans.
  - edestruct (IH (S i) l1) as (out & l2 & -> & Ho & L2 & Hs2); [done|lia|].
    exists out, l2. split; [done|]. split; [by constructor|]. split; [done|].
    by eapply same_tables_trans.
Qed.

Lemma Read_sublist l live ws rs n ms o mx :
  log_ok l live ws rs n -> decoded ws rs ms -> ws <= l_logStartOffset l ->
  exists r l', Read l o mx = Some (r, l') /\ log_ok l' live ws rs n /\ same_tables l l'
    /\ if o <? l_logStartOffset l then r = Err ErrOffsetOutOfRange
       else exists out, r = Ok out /\ out `sublist_of` drop (Z.to_nat (o - ws)) ms.
Proof.
  intros L Hd Hws. unfold Read. rewrite (lk_open _ _ _ _ _ L), (lk_hwm _ _ _ _ _ L).
  destruct (Z.ltb_spec o (l_logStartOffset l)).
  { do 2 eexists. split; [done|]. split; [done|]. split; [apply same_tables_refl|done]. }
  destruct (Z.leb_spec (ws + zlen rs) o).
  { do 2 eexists. split; [done|]. split; [done|]. split; [apply same_tables_refl|].
    exists []. split; [done|apply sublist_nil_l]. }
  destruct (read_msgs_sublist live ws rs n ms mx Hd (Z.to_nat (ws + zlen rs - o)) (Z.to_nat (o - ws)) l 0)
    as (out & l' & E & Ho & L' & Hs); [done|lia|].
  replace (ws + Z.of_nat (Z.to_nat (o - ws))) with o in E by lia. rewrite E.
  cbn [mbind option_bind]. do 2 eexists. split; [done|]. split; [done|]. split; [done|]. eauto.
Qed.

Lemma range_msgs_total live ws rs n ms : decoded ws rs ms -> forall k l o,
  log_ok l live ws rs n -> in_i64 o -> o + Z.of_nat k <= 2 ^ 63 ->
  exists out l', range_msgs k l o = Some (out, l') /\ log_ok l' live ws rs n /\ same_tables l l'.
Proof.
  intros Hdec. induction k as [|k IH]; intros l o L Ho Hk; cbn [range_msgs].
  { exists [], l. split; [done|]. split; [done|apply same_tables_refl]. }
  destruct (lookupOffset_ok l live ws rs n o L Ho) as (r & l1 & -> & L1 & Hs1 & Hr & _).
  cbn [mbind option_bind].
  assert (exists out l2, range_msgs k l1 (o + 1) = Some (out, l2) /\ log_ok l2 live ws rs n
    /\ same_tables l1 l2) as (out & l2 & E & L2 & Hs2).
  { destruct k; [exists [], l1; split; [done|]; split; [done|apply same_tables_refl]|].
    apply IH; [done|unfold in_i64 in *; lia|lia]. }
  pose proof (same_tables_trans _ _ _ Hs1 Hs2) as Hs.
  destruct r as [d|]; [|by exists out, l2].
  destruct (Hr d eq_refl) as [Hw Hd].
  destruct (decoded_lookup _ _ _ _ _ Hdec Hd) as (m & _ & ->). cbn [mbind option_bind].
  rewrite E. cbn [mbind option_bind]. eauto.
Qed.

(** ** Recovery *)

Lemma log_ok_load l live ws rs n i d t :
  log_ok l live ws rs n -> rs !! i = Some d -> mt_inv t ->
  mt_view t = <[offsetToKey (ws + Z.of_nat i) := d]> (mt_view (l_activeMemTable l)) ->
  log_ok (set_active l t) live ws rs n.
Proof.
  intros L Hi Ht Hv. pose proof L as [H1 H2 H3 H4 H5 H6]. apply Forall_cons in H5 as [_ Himm].
  split; try done; [by constructor|].
  intros k v (x & [->|Hx]%elem_of_cons & Hkv).
  - cbn in Hkv. rewrite Hv in Hkv. apply lookup_insert_Some in Hkv as [[<- <-]|[_ Hkv]]; [by exists i|].
    apply H6. exists (l_activeMemTable l). split; [by left|done].
  - apply H6. exists x. split; [by right|done].
Qed.

(** What recovery leaves alone. *)
Definition same_meta l l' : Prop :=
  l_config l' = l_config l /\ l_logStartOffset l' = l_logStartOffset l
  /\ walways (l_wal l') = walways (l_wal l).

Lemma recover_loop_ok live ws rs n mx : forall k l o rec tot,
  log_ok l live ws rs n ->
  exists l', recover_loop k l o mx rec tot = Some l' /\ log_ok l' live ws rs n /\ same_meta l l'.
Proof.
  induction k as [|k IH]; intros l o rec tot L; cbn [recover_loop]; [by exists l|].
  destruct (wlog_read _ _ _ _ _ o (lk_wal _ _ _ _ _ L)) as (r & w & -> & Hw & Ha & Hout & Hin).
  cbn [mbind option_bind].
  pose proof (log_ok_with_wal _ _ _ _ _ _ _ _ L Hw) as L1.
  destruct r as [d|e].
  2: { destruct (IH (with_wal l w) (o + 1) rec tot L1) as (l' & E & L' & Hm). exists l'.
       split; [done|]. split; [done|]. destruct Hm as (H1 & H2 & H3). repeat split; try done.
       by rewrite H3. }
  destruct (decide (ws <= o < ws + zlen rs)) as [Hr|Hr].
  2: { specialize (Hout ltac:(lia)). done. }
  destruct (lookup_lt_is_Some_2 rs (Z.to_nat (o - ws))) as [d' Hd]; [lia|].
  specialize (Hin (Z.to_nat (o - ws)) d' ltac:(lia) Hd).
  assert (d' = d) as ->
    by (destruct (decide _); [congruence|destruct Hin; congruence]).
  set (full := (mx <=? tot + zlen d) && (0 <? rec)). set (l1 := if full then rotateMemTable (with_wal l w) else with_wal l w).
  assert (log_ok l1 live ws rs n) as L2
    by (unfold l1; destruct full; [by apply rotateMemTable_ok|done]).
  assert (same_meta l l1) as Hm1
    by (unfold l1, same_meta; destruct full; simpl; by rewrite Ha).
  destruct (full && (_ <=? _)); [by exists l1|].
  pose proof (lk_inv _ _ _ _ _ L2) as Hinv. apply Forall_cons in Hinv as [Hact _].
  destruct (mt_put_ok _ (offsetToKey o) d Hact) as (t & -> & Ht & Hv). cbn [mbind option_bind].
  assert (log_ok (set_active l1 t) live ws rs n) as L3.
  { eapply log_ok_load; [done|exact Hd|done|].
    by replace (ws + Z.of_nat (Z.to_nat (o - ws))) with o by lia. }
  edestruct (IH (set_active l1 t)) as (l' & -> & L' & Hm); [done|]. exists l'.
  split; [done|]. split; [done|]. destruct Hm1 as (M1 & M2 & M3), Hm as (M4 & M5 & M6).
  unfold same_meta. cbn in *. repeat split; congruence.
Qed.

(** A log opened on a write-ahead log has its records. *)
Lemma newLog_ok (config : Config) (w : W) live ws rs n :
  wlog w live ws rs n ->
  exists l, newLog config w = Some l /\ log_ok l live ws rs n /\ l_logStartOffset l = 0
    /\ l_config l = config /\ walways (l_wal l) = walways w.
Proof.
  intros Hw. unfold newLog, recover. cbn [l_wal l_config with_offsets].
  rewrite (wlog_next _ _ _ _ _ Hw).
  set (l0 := with_offsets _ _ _ _).
  assert (log_ok l0 live ws rs n) as L0.
  { split; try done; [repeat constructor; apply mt_new_inv|].
    intros k v (t & ->%list_elem_of_singleton & Hv). cbn in Hv.
    rewrite mt_new_view, lookup_empty in Hv. done. }
  destruct (_ =? 0); [by exists l0|].
  edestruct (recover_loop_ok live ws rs n) as (l' & -> & L' & H1 & H2 & H3); [exact L0|].
  exists l'. repeat split; try done; by apply L'.
Qed.
End proofs.
