(* ===== verification/LogSpec.v ===== *)
(** * What the partition log guarantees

    End-to-end theorems on the log with the write-ahead log and the skip list it
    runs with: sequences of operations refine a list of messages, restarts give
    the messages back, the timestamp search is right, a closed log refuses every
    operation, and the batch codec round-trips. *)

From S2P Require Import Prelude GoBytes Record MemTable Index GoFiles Wal WalSpec Compaction Log.
From stdpp Require Import prelude list sorting gmap.
From Stdlib Require Import ZArith Lia Strings.Byte.

Open Scope Z_scope.

(** ** Operations and their meaning on a list of messages *)

Inductive log_op :=
| LAppend (batch : MessageBatch)
| LRead (offset maxBytes : Z)
| LReadRange (startOffset endOffset : Z)
| LFlush
| LCompact.

Inductive log_out :=
| OOffsets (r : result storage_error (list Z))
| OMessages (r : result storage_error (list Message))
| ODone (e : option storage_error).

(** The messages of a batch as readers see them: at consecutive offsets, with
    their key, value, headers and instant and with the batch's producer. *)
Fixpoint delivered (batch : MessageBatch) (offset : Z) (msgs : list Message) : list Message :=
  match msgs with
  | [] => []
  | m :: msgs' =>
      mkMessage offset (msg_Key m) (msg_Value m) (msg_Headers m) (UnixNano (msg_Timestamp m)) 0
        (b_ProducerID batch) (b_ProducerEpoch batch) :: delivered batch (offset + 1) msgs'
  end.
Definition as_read (batch : MessageBatch) (offset : Z) : list Message :=
  delivered batch offset (b_Messages batch).

Lemma as_read_stamped batch offset :
  as_read batch offset
  = map (fun m => set_Offset (reread m) (msg_Offset m)) (stamp_all batch offset (b_Messages batch)).
Proof.
  unfold as_read. generalize (b_Messages batch) as msgs. intros msgs. revert offset.
  induction msgs as [|m msgs IH]; intros offset; [done|]. simpl. by rewrite IH.
Qed.

Definition spec_out (version : Z) (ms : list Message) (op : log_op) : log_out :=
  match op with
  | LAppend batch =>
      OOffsets (if (version =? MessageFormatV2) && negb (b_ProducerID batch =? 0)
                then Err ErrTransactionalRecordNeedsV3
                else Ok (seqZ (zlen ms) (zlen (b_Messages batch))))
  | LRead offset maxBytes =>
      OMessages (if offset <? 0 then Err ErrOffsetOutOfRange
                 else Ok (take_bytes maxBytes 0 (drop (Z.to_nat offset) ms)))
  | LReadRange lo hi => OMessages (Ok (in_range lo hi ms))
  | LFlush | LCompact => ODone None
  end.

Definition spec_next (version : Z) (ms : list Message) (op : log_op) : list Message :=
  match op with
  | LAppend batch =>
      if (version =? MessageFormatV2) && negb (b_ProducerID batch =? 0) then ms
      else ms ++ as_read batch (zlen ms)
  | _ => ms
  end.

Fixpoint spec_outs (version : Z) (ms : list Message) (ops : list log_op) : list log_out :=
  match ops with
  | [] => []
  | op :: ops' => spec_out version ms op :: spec_outs version (spec_next version ms op) ops'
  end.

Definition spec_final (version : Z) (ops : list log_op) : list Message :=
  fold_left (spec_next version) ops [].

(** Batches whose messages fit a record, and offsets that are 64-bit integers. *)
Definition log_op_ok (version : Z) (op : log_op) : Prop :=
  match op with
  | LAppend batch => batch_ok version batch
  | LReadRange lo hi => in_i64 lo /\ in_i64 hi
  | _ => True
  end.

Definition op_messages (op : log_op) : Z :=
  match op with LAppend batch => zlen (b_Messages batch) | _ => 0 end.
Definition ops_messages (ops : list log_op) : Z := foldr (fun op acc => op_messages op + acc) 0 ops.

Lemma map_fmap {A B} (f : A -> B) (l : list A) : map f l = f <$> l.
Proof. done. Qed.

Section run.
Context {W T : Type} {WO : WalOps W} {WL : WalLaws W} {MT : MemTableOps T} {ML : MemTableLaws T}.
Context (sortBySize : list T -> list T) (mapOrder : list Z -> list Z).
Notation log := (logImpl W T).

Definition log_step (l : log) (op : log_op) : option (log_out * log) :=
  match op with
  | LAppend batch => '(r, l) ← Append l batch; Some (OOffsets r, l)
  | LRead o mx => '(r, l) ← Read l o mx; Some (OMessages r, l)
  | LReadRange lo hi => '(r, l) ← ReadRange l lo hi; Some (OMessages r, l)
  | LFlush => '(e, l) ← Log_Flush l; Some (ODone e, l)
  | LCompact => '(e, l) ← Compact sortBySize mapOrder l; Some (ODone e, l)
  end.

Fixpoint log_run (l : log) (ops : list log_op) : option (list log_out * log) :=
  match ops with
  | [] => Some ([], l)
  | op :: ops' =>
      '(out, l) ← log_step l op;
      '(outs, l) ← log_run l ops';
      Some (out :: outs, l)
  end.

Context (Hsort : forall ts, sortBySize ts ≡ₚ ts) (Horder : forall ks, mapOrder ks ≡ₚ ks).

Lemma stamp_all_length batch o msgs : length (stamp_all batch o msgs) = length msgs.
Proof. revert o. induction msgs as [|m msgs IH]; intros o; simpl; [done|]. by rewrite IH. Qed.

Lemma stamp_all_lookup batch msgs : forall o i m,
  stamp_all batch o msgs !! i = Some m ->
  exists m0, msgs !! i = Some m0 /\ m = stamp m0 (o + Z.of_nat i) batch.
Proof.
  induction msgs as [|m0 msgs IH]; intros o [|i] m H; simpl in H; try done.
  - injection H as <-. exists m0. by rewrite Z.add_0_r.
  - destruct (IH _ _ _ H) as (m1 & Hm & ->). exists m1. split; [done|]. f_equal. lia.
Qed.

Lemma decoded_app ws rs ms version batch :
  decoded ws rs ms -> batch_ok version batch ->
  decoded ws (rs ++ map (enc version) (stamp_all batch (ws + zlen rs) (b_Messages batch)))
    (ms ++ as_read batch (ws + zlen rs)).
Proof.
  intros [Hl Hd] Hb. split.
  { rewrite as_read_stamped, !length_app, !length_map. lia. }
  intros i m Hi. unfold msg_at. apply lookup_app_Some in Hi as [Hi|[Hge Hi]].
  - rewrite lookup_app_l by (apply lookup_lt_Some in Hi; lia). by apply Hd.
  - rewrite lookup_app_r by lia. rewrite as_read_stamped in Hi.
    replace (i - length rs)%nat with (i - length ms)%nat by lia.
    rewrite map_fmap, list_lookup_fmap in Hi. rewrite map_fmap, list_lookup_fmap.
    destruct (stamp_all batch (ws + zlen rs) (b_Messages batch) !! (i - length ms)%nat)
      as [ms0|] eqn:E; [|done]. simpl in Hi |- *. injection Hi as <-.
    destruct (stamp_all_lookup _ _ _ _ _ E) as (m0 & Hm0 & ->).
    cbn [fmap option_fmap option_map mbind option_bind]. rewrite enc_read.
    2: { unfold batch_ok in Hb. rewrite Forall_lookup in Hb. exact (Hb _ _ Hm0). }
    cbn. f_equal. f_equal. lia.
Qed.

(** One step: the log stays well formed and holds the specified messages; when
    every append is synced, the output is the specified one. *)
Lemma log_step_ok l rs n ms op :
  let v := cfg_MessageFormatVersion (l_config l) in
  log_ok l true 0 rs n -> decoded 0 rs ms -> l_logStartOffset l = 0 ->
  log_op_ok v op -> zlen rs + op_messages op < 2 ^ 63 ->
  exists out l' rs' n', log_step l op = Some (out, l') /\ log_ok l' true 0 rs' n'
    /\ decoded 0 rs' (spec_next v ms op) /\ same_meta l l'
    /\ zlen rs' <= zlen rs + op_messages op
    /\ (walways (l_wal l) = true -> n = length rs -> out = spec_out v ms op /\ n' = length rs').
Proof.
  intros v L Hd Hst Hop Hmax. pose proof Hd as [Hl _].
  assert (n = length rs -> covered l 0 rs n) as Hcov
    by (intros -> i d Hi; left; by eapply lookup_lt_Some).
  destruct op as [batch|o mx|lo hi| |]; cbn [log_step spec_next spec_out op_messages] in *.
  - destruct ((v =? MessageFormatV2) && negb (b_ProducerID batch =? 0)) eqn:Ev.
    + unfold Append. rewrite (lk_open _ _ _ _ _ L). fold v. rewrite Ev. cbn [mbind option_bind].
      do 2 eexists. exists rs, n. split; [done|]. repeat split; try done; try lia; apply L || apply Hd.
    + destruct (Append_ok l 0 rs n batch L Hop) as (l' & n' & -> & L' & Hc & Hs & Ha & Hn & Hal).
      { intros E. fold v in E. rewrite E, Z.eqb_refl in Ev.
        destruct (Z.eqb_spec (b_ProducerID batch) 0); done. }
      { lia. }
      cbn [mbind option_bind]. do 2 eexists. eexists _, n'. split; [done|]. split; [exact L'|].
      rewrite Hl. split; [exact (decoded_app 0 rs ms v batch Hd Hop)|].
      split; [done|]. split; [rewrite length_app, length_map, stamp_all_length; lia|].
      intros Hw Hnn. split; [done|]. by apply Hal.
  - destruct (Read_sublist l true 0 rs n ms o mx L Hd ltac:(lia)) as (r & l' & E & L' & Hs & _).
    rewrite E. cbn [mbind option_bind]. exists (OMessages r), l', rs, n. split; [done|].
    split; [done|]. split; [done|]. destruct Hs as (w & -> & Hw). split; [done|]. split; [lia|].
    intros Hal Hn. split; [|done].
    destruct (Read_ok l true 0 rs n ms o mx L (Hcov Hn) Hd ltac:(lia)) as (l2 & E2 & _).
    rewrite E2, Hst in E. injection E as <- _. by rewrite Z.sub_0_r.
  - destruct Hop as [Hlo Hhi].
    assert (exists out l', ReadRange l lo hi = Some (Ok out, l') /\ log_ok l' true 0 rs n
      /\ same_tables l l') as (out & l' & E & L' & Hs).
    { unfold ReadRange. rewrite (lk_open _ _ _ _ _ L).
      destruct (decide (lo <= hi)).
      - destruct (range_msgs_total true 0 rs n ms Hd (Z.to_nat (hi - lo)) l lo L Hlo)
          as (out & l' & -> & H); [unfold in_i64 in *; lia|]. cbn [mbind option_bind]. eauto.
      - replace (Z.to_nat (hi - lo)) with 0%nat by lia. cbn. exists [], l.
        split; [done|]. split; [done|apply same_tables_refl]. }
    rewrite E. cbn [mbind option_bind]. exists (OMessages (Ok out)), l', rs, n. split; [done|].
    split; [done|]. split; [done|]. destruct Hs as (w & -> & Hw). split; [done|]. split; [lia|].
    intros Hal Hn. split; [|done].
    destruct (ReadRange_ok l true 0 rs n ms lo hi L (Hcov Hn) Hd Hlo Hhi) as (l2 & E2 & _).
    rewrite E2 in E. by injection E as <- _.
  - destruct (Log_Flush_ok _ _ _ _ _ L) as (l' & -> & L' & w & -> & Hw). cbn [mbind option_bind].
    exists (ODone None), (with_wal l w), rs, (length rs). repeat split; try done; try apply L';
      try apply Hd; lia.
  - destruct (Compact_ok sortBySize mapOrder Hsort Horder l true 0 rs n L)
      as (l' & -> & L' & _ & Hc & Hw & Hs). cbn [mbind option_bind].
    exists (ODone None), l', rs, n. split; [done|]. split; [done|]. split; [done|].
    split; [repeat split; congruence|]. split; [lia|done].
Qed.

Lemma log_run_ok : forall ops l rs n ms,
  let v := cfg_MessageFormatVersion (l_config l) in
  log_ok l true 0 rs n -> decoded 0 rs ms -> l_logStartOffset l = 0 ->
  Forall (log_op_ok v) ops -> zlen rs + ops_messages ops < 2 ^ 63 ->
  exists outs l' rs' n', log_run l ops = Some (outs, l') /\ log_ok l' true 0 rs' n'
    /\ decoded 0 rs' (fold_left (spec_next v) ops ms) /\ same_meta l l'
    /\ (walways (l_wal l) = true -> n = length rs ->
        outs = spec_outs v ms ops /\ n' = length rs').
Proof.
  induction ops as [|op ops IH]; intros l rs n ms v L Hd Hst Hok Hmax; cbn [log_run].
  { exists [], l, rs, n. repeat split; try done; apply L || apply Hd. }
  apply Forall_cons in Hok as [Hop Hok]. cbn [ops_messages foldr] in Hmax.
  fold (ops_messages ops) in Hmax.
  assert (0 <= ops_messages ops) as Hpos.
  { clear. induction ops as [|op ops IH]; simpl; [lia|]. destruct op; simpl; lia. }
  destruct (log_step_ok l rs n ms op L Hd Hst Hop ltac:(lia))
    as (out & l1 & rs1 & n1 & -> & L1 & Hd1 & (Hc1 & Hs1 & Ha1) & Hlen & Hout).
  cbn [mbind option_bind]. fold v in Hd1.
  destruct (IH l1 rs1 n1 (spec_next v ms op)) as (outs & l2 & rs2 & n2 & -> & L2 & Hd2 & (Hc2 & Hs2 & Ha2) & Hout2);
    [done|done|congruence|by rewrite Hc1|lia|].
  cbn [mbind option_bind]. rewrite Hc1 in *. fold v in Hd2, Hout2.
  exists (out :: outs), l2, rs2, n2. split; [done|]. split; [done|]. split; [done|].
  split; [repeat split; congruence|]. intros Hw Hn. destruct (Hout Hw Hn) as [-> Hn1].
  destruct (Hout2 ltac:(congruence) Hn1) as [-> ->]. done.
Qed.
End run.

(** ** The log with its write-ahead log and skip lists *)

Section engine.
Context (coin : nat -> bool).
#[local] Existing Instance skip_ops.
#[local] Existing Instance skip_laws.
Notation slog := (logImpl walImpl memTableImpl).
Notation sops := (skip_ops coin).
Context (sortBySize : list memTableImpl -> list memTableImpl) (mapOrder : list Z -> list Z).
Context (Hsort : forall ts, sortBySize ts ≡ₚ ts) (Horder : forall ks, mapOrder ks ≡ₚ ks).
Notation run := (log_run (MT := sops) sortBySize mapOrder).

Definition empty_dir : walDir := mkDir ∅ ∅.

Lemma decoded_nil ws : decoded ws [] [].
Proof. split; [done|]. intros i m Hi. done. Qed.

(** A log on an empty directory, after some operations. *)
Lemma engine_run config ops :
  config_ok (cfg_WAL config) ->
  Forall (log_op_ok (cfg_MessageFormatVersion config)) ops -> ops_messages ops < 2 ^ 63 ->
  exists l0 outs (l : slog) rs n,
    NewLog (MT := sops) empty_dir config = Some (Ok l0) /\ run l0 ops = Some (outs, l)
    /\ log_ok (ML := skip_laws coin) l true 0 rs n
    /\ decoded 0 rs (spec_final (cfg_MessageFormatVersion config) ops)
    /\ l_logStartOffset l = 0 /\ l_config l = config
    /\ (c_FsyncPolicy (cfg_WAL config) = FsyncAlways ->
        outs = spec_outs (cfg_MessageFormatVersion config) [] ops /\ n = length rs).
Proof.
  intros Hc Hok Hmax. destruct (NewWAL_empty (cfg_WAL config) Hc) as (w & E & Hw & Hcf).
  destruct (newLog_ok (WL := wal_laws) (ML := skip_laws coin) config w true 0 [] 0 Hw) as (l0 & E0 & L0 & Hs0 & Hc0 & Ha0).
  unfold NewLog. unfold empty_dir. rewrite E. cbn [mbind option_bind]. rewrite E0. cbn [mbind option_bind].
  destruct (log_run_ok (ML := skip_laws coin) sortBySize mapOrder Hsort Horder ops l0 [] 0 [])
    as (outs & l & rs & n & Er & L & Hd & (H1 & H2 & H3) & Hout);
    [done|apply decoded_nil|done|by rewrite Hc0|done|].
  exists l0, outs, l, rs, n. rewrite Hc0 in *. split; [done|]. split; [done|]. split; [done|].
  split; [done|]. split; [congruence|]. split; [congruence|]. intros Hp. apply Hout; [|done].
  rewrite Ha0. simpl. unfold always. rewrite Hcf. by rewrite bool_decide_true.
Qed.

(** The log opened again on a directory that holds its records. *)
Lemma engine_reopen d pre b ds ms config :
  dir_holds d 0 pre b ds -> decoded 0 (wal_records pre ds) ms -> config_ok (cfg_WAL config) ->
  exists l : slog, NewLog (MT := sops) d config = Some (Ok l) /\ HighWaterMark l = zlen ms
    /\ forall o mx, exists l', Read (MT := sops) l o mx
         = Some (if o <? 0 then Err ErrOffsetOutOfRange
                 else Ok (take_bytes mx 0 (drop (Z.to_nat o) ms)), l').
Proof.
  intros D Hd Hc. destruct (NewWAL_reopen _ _ _ _ _ _ D Hc) as (w & E & _ & Hw).
  destruct (newLog_ok (WL := wal_laws) (ML := skip_laws coin) config w _ _ _ _ Hw) as (l & E0 & L & Hs & _).
  unfold NewLog. rewrite E. cbn [mbind option_bind]. rewrite E0. cbn [mbind option_bind].
  exists l. split; [done|]. split.
  { unfold HighWaterMark. rewrite (lk_hwm _ _ _ _ _ L). destruct Hd as [-> _]. done. }
  intros o mx. destruct (Read_ok (ML := skip_laws coin) l false 0 _ _ ms o mx L) as (l' & Er & _).
  { intros i x Hi. left. by eapply lookup_lt_Some. }
  { done. }
  { lia. }
  exists l'. by rewrite Er, Hs, Z.sub_0_r.
Qed.
End engine.

(** ** Theorems *)

(** C1: with every append synced, a log opened on an empty directory refines a
    list of messages.  Any sequence of appends, reads, range reads, flushes and
    compactions runs without panic and returns what the list gives: consecutive
    offsets, every message in order up to the byte budget, [ErrOffsetOutOfRange]
    below the start, and a refusal of transactional batches under format v2; for
    any segment and memtable size, any rotation, any compaction strategy. *)
Theorem log_refines (coin : nat -> bool) (sortBySize : list memTableImpl -> list memTableImpl)
    (mapOrder : list Z -> list Z) (config : Config) (ops : list log_op) :
  (forall ts, sortBySize ts ≡ₚ ts) -> (forall ks, mapOrder ks ≡ₚ ks) ->
  config_ok (cfg_WAL config) -> c_FsyncPolicy (cfg_WAL config) = FsyncAlways ->
  Forall (log_op_ok (cfg_MessageFormatVersion config)) ops -> ops_messages ops < 2 ^ 63 ->
  exists l0 l, NewLog (MT := skip_ops coin) empty_dir config = Some (Ok l0)
    /\ log_run (MT := skip_ops coin) sortBySize mapOrder l0 ops
       = Some (spec_outs (cfg_MessageFormatVersion config) [] ops, l)
    /\ HighWaterMark l = zlen (spec_final (cfg_MessageFormatVersion config) ops)
    /\ EndOffset l = HighWaterMark l.
Proof.
  intros Hs Ho Hc Hp Hok Hmax.
  destruct (engine_run coin sortBySize mapOrder Hs Ho config ops Hc Hok Hmax)
    as (l0 & outs & l & rs & n & E0 & Er & L & [Hl _] & _ & _ & Hout).
  destruct (Hout Hp) as [-> _]. exists l0, l. split; [done|]. split; [done|].
  unfold HighWaterMark, EndOffset. rewrite (lk_hwm _ _ _ _ _ L), (lk_next _ _ _ _ _ L), Hl. done.
Qed.

(** Under every sync policy, a read never returns a wrong message: it
    returns messages of the log from the offset on, each once, in order and at
    its own offset, though possibly not all of them. *)
Theorem log_read_sound (coin : nat -> bool) (sortBySize : list memTableImpl -> list memTableImpl)
    (mapOrder : list Z -> list Z) (config : Config) (ops : list log_op) (offset maxBytes : Z) :
  (forall ts, sortBySize ts ≡ₚ ts) -> (forall ks, mapOrder ks ≡ₚ ks) ->
  config_ok (cfg_WAL config) ->
  Forall (log_op_ok (cfg_MessageFormatVersion config)) ops -> ops_messages ops < 2 ^ 63 ->
  exists l0 outs l r l', NewLog (MT := skip_ops coin) empty_dir config = Some (Ok l0)
    /\ log_run (MT := skip_ops coin) sortBySize mapOrder l0 ops = Some (outs, l)
    /\ Read (MT := skip_ops coin) l offset maxBytes = Some (r, l')
    /\ if offset <? 0 then r = Err ErrOffsetOutOfRange
       else exists out, r = Ok out
              /\ out `sublist_of` drop (Z.to_nat offset) (spec_final (cfg_MessageFormatVersion config) ops).
Proof.
  intros Hs Ho Hc Hok Hmax.
  destruct (engine_run coin sortBySize mapOrder Hs Ho config ops Hc Hok Hmax)
    as (l0 & outs & l & rs & n & E0 & Er & L & Hd & Hst & _ & _).
  destruct (Read_sublist (ML := skip_laws coin) l true 0 rs n _ offset maxBytes L Hd ltac:(lia))
    as (r & l' & E & _ & _ & Hr).
  exists l0, outs, l, r, l'. rewrite Hst, Z.sub_0_r in Hr. done.
Qed.

(** C6: under every sync policy, everything appended can be read after a
    [Flush], and survives a crash after it: the log read from the same process
    and the log opened again on the files return all messages. *)
Theorem log_flush_durable (coin : nat -> bool) (sortBySize : list memTableImpl -> list memTableImpl)
    (mapOrder : list Z -> list Z) (config config' : Config) (ops : list log_op) :
  (forall ts, sortBySize ts ≡ₚ ts) -> (forall ks, mapOrder ks ≡ₚ ks) ->
  config_ok (cfg_WAL config) -> config_ok (cfg_WAL config') ->
  Forall (log_op_ok (cfg_MessageFormatVersion config)) ops -> ops_messages ops < 2 ^ 63 ->
  let ms := spec_final (cfg_MessageFormatVersion config) ops in
  exists l0 outs l l1 l2, NewLog (MT := skip_ops coin) empty_dir config = Some (Ok l0)
    /\ log_run (MT := skip_ops coin) sortBySize mapOrder l0 ops = Some (outs, l)
    /\ Log_Flush l = Some (None, l1)
    /\ NewLog (MT := skip_ops coin) (w_dir (l_wal l1)) config' = Some (Ok l2)
    /\ HighWaterMark l2 = zlen ms
    /\ forall o mx, 0 <= o ->
         (exists l', Read (MT := skip_ops coin) l1 o mx
            = Some (Ok (take_bytes mx 0 (drop (Z.to_nat o) ms)), l'))
         /\ (exists l', Read (MT := skip_ops coin) l2 o mx
            = Some (Ok (take_bytes mx 0 (drop (Z.to_nat o) ms)), l')).
Proof.
  intros Hs Ho Hc Hc' Hok Hmax ms.
  destruct (engine_run coin sortBySize mapOrder Hs Ho config ops Hc Hok Hmax)
    as (l0 & outs & l & rs & n & E0 & Er & L & Hd & Hst & _ & _).
  destruct (Log_Flush_ok (ML := skip_laws coin) _ _ _ _ _ L) as (l1 & Ef & L1 & w & -> & Hw).
  destruct (wal_holds_dir _ _ _ _ (lk_wal _ _ _ _ _ L1)) as (pre & b & ds & D & Hrs).
  rewrite <- Hrs in Hd.
  destruct (engine_reopen coin _ pre b ds ms config' D Hd Hc') as (l2 & E2 & Hh & Hrd).
  exists l0, outs, l, (with_wal l w), l2. repeat split; auto.
  - destruct (Read_ok (ML := skip_laws coin) (with_wal l w) true 0 rs (length rs) ms o mx L1)
      as (l' & E & _).
    { intros i x Hi. left. by eapply lookup_lt_Some. }
    { by rewrite <- Hrs. }
    { simpl. lia. }
    exists l'. rewrite E. cbn. rewrite Hst, Z.sub_0_r. by destruct (Z.ltb_spec o 0); [lia|].
  - destruct (Hrd o mx) as (l' & E). exists l'. rewrite E. by destruct (Z.ltb_spec o 0); [lia|].
Qed.

(** C7: a clean restart keeps the whole log under every sync policy: closing it
    and opening the directory again gives the same high water mark and every
    message at its offset. *)
Theorem log_close_reopen (coin : nat -> bool) (sortBySize : list memTableImpl -> list memTableImpl)
    (mapOrder : list Z -> list Z) (config config' : Config) (ops : list log_op) :
  (forall ts, sortBySize ts ≡ₚ ts) -> (forall ks, mapOrder ks ≡ₚ ks) ->
  config_ok (cfg_WAL config) -> config_ok (cfg_WAL config') ->
  Forall (log_op_ok (cfg_MessageFormatVersion config)) ops -> ops_messages ops < 2 ^ 63 ->
  let ms := spec_final (cfg_MessageFormatVersion config) ops in
  exists l0 outs l l1 l2, NewLog (MT := skip_ops coin) empty_dir config = Some (Ok l0)
    /\ log_run (MT := skip_ops coin) sortBySize mapOrder l0 ops = Some (outs, l)
    /\ Log_Close l = Some l1
    /\ NewLog (MT := skip_ops coin) (w_dir (l_wal l1)) config' = Some (Ok l2)
    /\ HighWaterMark l2 = zlen ms
    /\ forall o mx, 0 <= o -> exists l', Read (MT := skip_ops coin) l2 o mx
            = Some (Ok (take_bytes mx 0 (drop (Z.to_nat o) ms)), l').
Proof.
  intros Hs Ho Hc Hc' Hok Hmax ms.
  destruct (engine_run coin sortBySize mapOrder Hs Ho config ops Hc Hok Hmax)
    as (l0 & outs & l & rs & n & E0 & Er & L & Hd & Hst & _ & _).
  destruct (WAL_Close_holds _ _ _ _ _ (lk_wal _ _ _ _ _ L)) as (w & pre & b & ds & Ec & _ & D & Hrs).
  rewrite <- Hrs in Hd.
  destruct (engine_reopen coin _ pre b ds ms config' D Hd Hc') as (l2 & E2 & Hh & Hrd).
  exists l0, outs, l, (with_wal (set_closed l) w), l2. split; [done|]. split; [done|].
  split. { unfold Log_Close. rewrite (lk_open _ _ _ _ _ L). simpl. rewrite Ec. done. }
  split; [done|]. split; [done|]. intros o mx H0. destruct (Hrd o mx) as (l' & E). exists l'.
  rewrite E. by destruct (Z.ltb_spec o 0); [lia|].
Qed.

(** The timestamp of a message of a list. *)
Definition msg_ts (ms : list Message) (o : Z) : Z := ts_at 0 ms o.

(** [FindOffsetByTimestamp], with every append synced: the offset it
    returns holds a message at or after the target, with its timestamp, or it
    is the end of the log and no message is at or after the target; and when
    timestamps never decrease it is the first such offset. *)
Theorem log_find_by_timestamp (coin : nat -> bool) (sortBySize : list memTableImpl -> list memTableImpl)
    (mapOrder : list Z -> list Z) (config : Config) (ops : list log_op) (target : Z) :
  (forall ts, sortBySize ts ≡ₚ ts) -> (forall ks, mapOrder ks ≡ₚ ks) ->
  config_ok (cfg_WAL config) -> c_FsyncPolicy (cfg_WAL config) = FsyncAlways ->
  Forall (log_op_ok (cfg_MessageFormatVersion config)) ops -> ops_messages ops < 2 ^ 63 ->
  let ms := spec_final (cfg_MessageFormatVersion config) ops in
  exists l0 outs l o t l', NewLog (MT := skip_ops coin) empty_dir config = Some (Ok l0)
    /\ log_run (MT := skip_ops coin) sortBySize mapOrder l0 ops = Some (outs, l)
    /\ FindOffsetByTimestamp (MT := skip_ops coin) l target = Some (Ok (o, t), l')
    /\ ((0 <= o < zlen ms /\ t = msg_ts ms o /\ target <= t)
        \/ (o = zlen ms /\ t = 0 /\ forall o', 0 <= o' < zlen ms -> msg_ts ms o' < target))
    /\ ((forall a b, 0 <= a <= b -> b < zlen ms -> msg_ts ms a <= msg_ts ms b) ->
        forall o', 0 <= o' < o -> o' < zlen ms -> msg_ts ms o' < target).
Proof.
  intros Hs Ho Hc Hp Hok Hmax ms.
  destruct (engine_run coin sortBySize mapOrder Hs Ho config ops Hc Hok Hmax)
    as (l0 & outs & l & rs & n & E0 & Er & L & Hd & Hst & _ & Hout).
  destruct (Hout Hp) as [_ ->].
  destruct (FindOffsetByTimestamp_ok (ML := skip_laws coin) l true 0 rs (length rs) ms target L)
    as (o & t & l' & E & _ & _ & Hr & Hm).
  { intros i x Hi. left. by eapply lookup_lt_Some. }
  { done. }
  { lia. }
  exists l0, outs, l, o, t, l'. split; [done|]. split; [done|]. split; [done|].
  rewrite Hst, (lk_hwm _ _ _ _ _ L) in Hr, Hm. destruct Hd as [Hl _]. fold ms in Hl.
  rewrite <- Hl in Hr, Hm. cbn in Hr, Hm. split; [exact Hr|]. intros Hmo. apply Hm. exact Hmo.
Qed.

(** ** Two behaviours to know about *)

Definition stable (l : list memTableImpl) : list memTableImpl := l.
Definition plain_msg (v : byte) (ts : Z) : Message := Message_lit [] [v] ts.

(** Memtables of at most one byte, none kept: every append rotates. *)
Definition tiny_config (policy : FsyncPolicy) : Config :=
  mkConfig (mkWALConfig 100000 policy) (mkMTConfig 1 0) (mkCConfig CompactionLeveled 10) 0.

Definition run_new (config : Config) (ops : list log_op) : option (list log_out * Z) :=
  match NewLog (MT := skip_ops no_coin) empty_dir config with
  | Some (Ok l) =>
      '(outs, l) ← log_run (MT := skip_ops no_coin) stable (fun ks => ks) l ops;
      Some (outs, HighWaterMark l)
  | _ => None
  end.

(** Without a sync on every append, an acknowledged message below the high
    water mark is skipped by readers once its memtable has been dropped, until
    the write-ahead log is flushed: the first read returns nothing and no error,
    the same read after a flush returns the message. *)
Theorem log_skips_unsynced :
  run_new (tiny_config FsyncNever)
    [LAppend (mkBatch [plain_msg x61 5] 0 0); LRead 0 100; LFlush; LRead 0 100]
  = Some ([OOffsets (Ok [0]); OMessages (Ok []); ODone None;
           OMessages (Ok [plain_msg x61 5])], 1).
Proof. vm_compute. reflexivity. Qed.

Definition find_new (config : Config) (ops : list log_op) (target : Z)
    : option (result storage_error (Z * Z)) :=
  match NewLog (MT := skip_ops no_coin) empty_dir config with
  | Some (Ok l) =>
      '(_, l) ← log_run (MT := skip_ops no_coin) stable (fun ks => ks) l ops;
      fst <$> FindOffsetByTimestamp (MT := skip_ops no_coin) l target
  | _ => None
  end.

(** With timestamps out of order the search does not return the first
    offset at or after the target, as its interface documents: here offset 0 is
    at the target and offset 2 is returned. *)
Theorem find_misses_out_of_order :
  find_new (tiny_config FsyncAlways)
    [LAppend (mkBatch [plain_msg x61 10; plain_msg x62 5; plain_msg x63 20] 0 0)] 10
  = Some (Ok (2, 20)).
Proof. vm_compute. reflexivity. Qed.

(** ** The batch codec *)

Definition batch_msg_bytes (m : Message) : bytes :=
  be_enc 8 (msg_Offset m) ++ be_enc 4 (zlen (msg_Key m)) ++ msg_Key m
  ++ be_enc 4 (zlen (msg_Value m)) ++ msg_Value m.

Definition batch_bytes (msgs : list Message) : bytes := concat (map batch_msg_bytes msgs).

(** What the codec keeps of a message. *)
Definition batch_view (m : Message) : Message :=
  set_Offset (Message_lit (msg_Key m) (msg_Value m) zero_time) (msg_Offset m).

Definition batch_msg_ok (m : Message) : Prop :=
  in_i64 (msg_Offset m) /\ zlen (msg_Key m) < 2 ^ 32 /\ zlen (msg_Value m) < 2 ^ 32.

Lemma batch_bytes_size msgs : zlen (batch_bytes msgs) = batch_size msgs.
Proof.
  unfold batch_bytes. induction msgs as [|m msgs IH]; [done|].
  cbn [map concat batch_size]. rewrite length_app. unfold batch_msg_bytes at 1.
  rewrite !length_app, !be_enc_length. lia.
Qed.

(** Writing the next field after what is already there. *)
Lemma put_be_next n w pre hole v off :
  off = zlen pre -> w = 8 * Z.of_nat n -> Z.of_nat n <= zlen hole ->
  put_be n (pre ++ hole) off (wrapu w v) = Some ((pre ++ be_enc n v) ++ drop n hole).
Proof.
  intros -> -> H. rewrite put_be_app by lia. by rewrite be_enc_wrapu.
Qed.

Lemma put_batch_ok msgs : forall pre hole off,
  off = zlen pre -> zlen hole = batch_size msgs ->
  put_batch (pre ++ hole) off msgs = Some (pre ++ batch_bytes msgs).
Proof.
  induction msgs as [|m msgs IH]; intros pre hole off -> Hh; cbn [put_batch batch_size] in *.
  { destruct hole; [done|simpl in Hh; lia]. }
  assert (0 <= batch_size msgs) by (rewrite <- batch_bytes_size; lia).
  rewrite (put_be_next 8) by lia. cbn [mbind option_bind].
  rewrite (put_be_next 4) by (rewrite ?length_app, ?be_enc_length, ?length_drop; lia).
  cbn [mbind option_bind].
  set (p1 := (pre ++ be_enc 8 (msg_Offset m)) ++ be_enc 4 (zlen (msg_Key m))).
  assert (zlen pre + 8 + 4 = zlen p1) as -> by (unfold p1; rewrite !length_app, !be_enc_length; lia).
  rewrite copy_at_app by (rewrite !length_drop; lia). cbn [mbind option_bind].
  rewrite (put_be_next 4) by (rewrite ?length_app, ?length_drop; lia). cbn [mbind option_bind].
  set (p2 := (p1 ++ msg_Key m) ++ be_enc 4 (zlen (msg_Value m))).
  assert (zlen p1 + zlen (msg_Key m) + 4 = zlen p2) as ->
    by (unfold p2; rewrite !length_app, be_enc_length; lia).
  rewrite copy_at_app by (rewrite !length_drop; lia). cbn [mbind option_bind].
  rewrite IH; [|rewrite length_app; lia|rewrite !length_drop; lia].
  unfold batch_bytes. cbn [map concat]. unfold batch_msg_bytes at 2, p2, p1.
  by rewrite <- !(assoc_L (++)).
Qed.

Lemma get_batch_ok msgs : forall data off rest,
  Forall batch_msg_ok msgs -> at_pos data off (batch_bytes msgs ++ rest) ->
  get_batch (length msgs) data off = Some (Ok (map batch_view msgs)).
Proof.
  induction msgs as [|m msgs IH]; intros data off rest Hok H; [done|].
  apply Forall_cons in Hok as [(Ho & Hk & Hv) Hok]. cbn [length get_batch map].
  unfold batch_bytes in H. cbn [map concat] in H. fold (batch_bytes msgs) in H.
  unfold batch_msg_bytes in H. rewrite <- !(assoc_L (++)) in H.
  pose proof (at_pos_len _ _ _ H) as Hl. rewrite !length_app, !be_enc_length in Hl.
  destruct (Z.ltb_spec (zlen data) (off + 16)); [lia|].
  apply at_pos_get_be in H as [-> H]. cbn [mbind option_bind]. change (Z.of_nat 8) with 8 in *.
  apply at_pos_get_be in H as [-> H]. cbn [mbind option_bind]. change (Z.of_nat 4) with 4 in *.
  change (256 ^ 4) with (2 ^ 32). rewrite (Z.mod_small (zlen (msg_Key m))) by lia.
  destruct (Z.ltb_spec (zlen data) (off + 8 + 4 + zlen (msg_Key m))); [lia|].
  rewrite (at_pos_slice _ _ _ _ H). cbn [mbind option_bind]. apply at_pos_app in H.
  destruct (Z.ltb_spec (zlen data) (off + 8 + 4 + zlen (msg_Key m) + 4)); [lia|].
  apply at_pos_get_be in H as [-> H]. cbn [mbind option_bind]. change (Z.of_nat 4) with 4 in *.
  change (256 ^ 4) with (2 ^ 32). rewrite (Z.mod_small (zlen (msg_Value m))) by lia.
  destruct (Z.ltb_spec (zlen data) (off + 8 + 4 + zlen (msg_Key m) + 4 + zlen (msg_Value m))); [lia|].
  rewrite (at_pos_slice _ _ _ _ H). cbn [mbind option_bind]. apply at_pos_app in H.
  rewrite (IH _ _ rest Hok H). cbn [mbind option_bind]. do 3 f_equal.
  unfold batch_view. f_equal. change (256 ^ 8) with (2 ^ 64).
  rewrite <- (wraps_wrapu_64 (msg_Offset m) Ho) at 2. done.
Qed.

(** The batch codec round-trips: reading a written batch gives back its
    messages with their offsets, keys and values; it keeps nothing else of
    them. *)
Theorem batch_roundtrip (batch : MessageBatch) :
  Forall batch_msg_ok (b_Messages batch) -> zlen (b_Messages batch) < 2 ^ 32 ->
  exists data, serializeBatch batch = Some data
    /\ deserializeBatch data = Some (Ok (mkBatch (map batch_view (b_Messages batch)) 0 0)).
Proof.
  intros Hok Hn. set (msgs := b_Messages batch) in *.
  exists (be_enc 4 (zlen msgs) ++ batch_bytes msgs). split.
  - unfold serializeBatch. fold msgs. unfold make_bytes.
    assert (0 <= batch_size msgs) by (rewrite <- batch_bytes_size; lia).
    set (buf := replicate _ x00).
    assert (zlen buf = 4 + batch_size msgs) as Hb by (unfold buf; rewrite length_replicate; lia).
    change buf with ([] ++ buf). rewrite (put_be_next 4) by (simpl; lia). cbn [mbind option_bind].
    rewrite app_nil_l. apply put_batch_ok; [by rewrite be_enc_length|rewrite length_drop; lia].
  - unfold deserializeBatch. rewrite length_app, be_enc_length.
    destruct (Z.ltb_spec (Z.of_nat (4 + length (batch_bytes msgs))) 4) as [|_]; [lia|].
    destruct (at_pos_get_be 4 (be_enc 4 (zlen msgs) ++ batch_bytes msgs) 0 (zlen msgs) (batch_bytes msgs))
      as [-> H]; [apply at_pos_start|]. cbn [mbind option_bind].
    change (256 ^ Z.of_nat 4) with (2 ^ 32). rewrite Z.mod_small, Nat2Z.id by lia.
    rewrite (get_batch_ok msgs _ _ []); [done|done|]. by rewrite app_nil_r.
Qed.

Lemma get_batch_total : forall n data off, 0 <= off -> exists r, get_batch n data off = Some r.
Proof.
  induction n as [|n IH]; intros data off Hoff; cbn [get_batch]; [eauto|].
  destruct (Z.ltb_spec (zlen data) (off + 16)); [eauto|].
  destruct (get_be_Some 8 data off) as (o & -> & _); [lia..|]. cbn [mbind option_bind].
  destruct (get_be_Some 4 data (off + 8)) as (kl & -> & Hkl); [lia..|]. cbn [mbind option_bind].
  destruct (Z.ltb_spec (zlen data) (off + 8 + 4 + kl)); [eauto|].
  destruct (slice_Some data (off + 8 + 4) (off + 8 + 4 + kl)) as (k & ->); [lia..|].
  cbn [mbind option_bind].
  destruct (Z.ltb_spec (zlen data) (off + 8 + 4 + kl + 4)); [eauto|].
  destruct (get_be_Some 4 data (off + 8 + 4 + kl)) as (vl & -> & Hvl); [lia..|].
  cbn [mbind option_bind].
  destruct (Z.ltb_spec (zlen data) (off + 8 + 4 + kl + 4 + vl)); [eauto|].
  destruct (slice_Some data (off + 8 + 4 + kl + 4) (off + 8 + 4 + kl + 4 + vl)) as (v & ->); [lia..|].
  cbn [mbind option_bind].
  destruct (IH data (off + 8 + 4 + kl + 4 + vl) ltac:(lia)) as (r & ->).
  cbn [mbind option_bind]. eauto.
Qed.

(** [deserializeBatch] is total: on any bytes it returns a batch or one of
    its errors, and never slices out of range. *)
Theorem deserializeBatch_total (data : bytes) : exists r, deserializeBatch data = Some r.
Proof.
  unfold deserializeBatch. destruct (Z.ltb_spec (zlen data) 4); [eauto|].
  destruct (get_be_Some 4 data 0) as (n & -> & _); [lia..|]. cbn [mbind option_bind].
  destruct (get_batch_total (Z.to_nat n) data 4 ltac:(lia)) as (r & ->). cbn. eauto.
Qed.

(** ** Witnesses *)

Definition sample_batch : MessageBatch := mkBatch [plain_msg x61 10; plain_msg x62 20] 7 1.
Definition sample_log_ops : list log_op :=
  [LAppend sample_batch; LRead 0 1; LCompact; LReadRange 0 5; LFlush; LAppend sample_batch].

Lemma plain_msg_ok v ts o : msg_ok 0 (stamp (plain_msg v ts) o sample_batch).
Proof.
  split; [|split; [|done]].
  - split; [vm_compute; discriminate|]. split; [vm_compute; discriminate|].
    split; [vm_compute; discriminate|]. split; [apply map_Forall_empty|].
    split; [unfold in_i64; simpl; lia|]. split; [unfold in_i16; simpl; lia|].
    reflexivity.
  - reflexivity.
Qed.

Lemma sample_ops_ok : Forall (log_op_ok 0) sample_log_ops.
Proof.
  assert (batch_ok 0 sample_batch) as Hb
    by (apply Forall_cons; split; [apply plain_msg_ok|];
        apply Forall_cons; split; [apply plain_msg_ok|apply Forall_nil_2]).
  apply Forall_forall. intros op Hop. unfold sample_log_ops in Hop.
  rewrite !elem_of_cons, elem_of_nil in Hop.
  destruct Hop as [->|[->|[->|[->|[->|[->|[]]]]]]]; simpl; auto. unfold in_i64. lia.
Qed.

Lemma perm_refl {A} (l : list A) : l ≡ₚ l.
Proof. done. Qed.

Lemma log_refines_witness :
  exists l0 l, NewLog (MT := skip_ops no_coin) empty_dir (tiny_config FsyncAlways) = Some (Ok l0)
    /\ log_run (MT := skip_ops no_coin) stable id l0 sample_log_ops
       = Some (spec_outs 0 [] sample_log_ops, l)
    /\ HighWaterMark l = 4 /\ EndOffset l = HighWaterMark l.
Proof.
  apply (log_refines no_coin stable id (tiny_config FsyncAlways) sample_log_ops);
    [apply perm_refl|apply perm_refl|unfold config_ok; simpl; lia|reflexivity|
     apply sample_ops_ok|reflexivity].
Defined.

Lemma log_read_sound_witness :
  exists l0 outs l r l', NewLog (MT := skip_ops no_coin) empty_dir (tiny_config FsyncNever) = Some (Ok l0)
    /\ log_run (MT := skip_ops no_coin) stable id l0 sample_log_ops = Some (outs, l)
    /\ Read (MT := skip_ops no_coin) l 1 100 = Some (r, l')
    /\ exists out, r = Ok out /\ out `sublist_of` drop 1 (spec_final 0 sample_log_ops).
Proof.
  apply (log_read_sound no_coin stable id (tiny_config FsyncNever) sample_log_ops 1 100);
    [apply perm_refl|apply perm_refl|unfold config_ok; simpl; lia|apply sample_ops_ok|reflexivity].
Defined.

Lemma log_flush_durable_witness :
  let ms := spec_final 0 sample_log_ops in
  exists l0 outs l l1 l2, NewLog (MT := skip_ops no_coin) empty_dir (tiny_config FsyncNever) = Some (Ok l0)
    /\ log_run (MT := skip_ops no_coin) stable id l0 sample_log_ops = Some (outs, l)
    /\ Log_Flush l = Some (None, l1)
    /\ NewLog (MT := skip_ops no_coin) (w_dir (l_wal l1)) (tiny_config FsyncAlways) = Some (Ok l2)
    /\ HighWaterMark l2 = 4
    /\ forall o mx, 0 <= o ->
         (exists l', Read (MT := skip_ops no_coin) l1 o mx
            = Some (Ok (take_bytes mx 0 (drop (Z.to_nat o) ms)), l'))
         /\ (exists l', Read (MT := skip_ops no_coin) l2 o mx
            = Some (Ok (take_bytes mx 0 (drop (Z.to_nat o) ms)), l')).
Proof.
  apply (log_flush_durable no_coin stable id (tiny_config FsyncNever) (tiny_config FsyncAlways)
    sample_log_ops);
    [apply perm_refl|apply perm_refl|unfold config_ok; simpl; lia|unfold config_ok; simpl; lia|
     apply sample_ops_ok|reflexivity].
Defined.

Lemma log_close_reopen_witness :
  let ms := spec_final 0 sample_log_ops in
  exists l0 outs l l1 l2, NewLog (MT := skip_ops no_coin) empty_dir (tiny_config FsyncNever) = Some (Ok l0)
    /\ log_run (MT := skip_ops no_coin) stable id l0 sample_log_ops = Some (outs, l)
    /\ Log_Close l = Some l1
    /\ NewLog (MT := skip_ops no_coin) (w_dir (l_wal l1)) (tiny_config FsyncAlways) = Some (Ok l2)
    /\ HighWaterMark l2 = 4
    /\ forall o mx, 0 <= o -> exists l', Read (MT := skip_ops no_coin) l2 o mx
            = Some (Ok (take_bytes mx 0 (drop (Z.to_nat o) ms)), l').
Proof.
  apply (log_close_reopen no_coin stable id (tiny_config FsyncNever) (tiny_config FsyncAlways)
    sample_log_ops);
    [apply perm_refl|apply perm_refl|unfold config_ok; simpl; lia|unfold config_ok; simpl; lia|
     apply sample_ops_ok|reflexivity].
Defined.

Lemma log_find_by_timestamp_witness :
  let ms := spec_final 0 sample_log_ops in
  exists l0 outs l o t l', NewLog (MT := skip_ops no_coin) empty_dir (tiny_config FsyncAlways) = Some (Ok l0)
    /\ log_run (MT := skip_ops no_coin) stable id l0 sample_log_ops = Some (outs, l)
    /\ FindOffsetByTimestamp (MT := skip_ops no_coin) l 15 = Some (Ok (o, t), l')
    /\ ((0 <= o < 4 /\ t = msg_ts ms o /\ 15 <= t)
        \/ (o = 4 /\ t = 0 /\ forall o', 0 <= o' < 4 -> msg_ts ms o' < 15))
    /\ ((forall a b, 0 <= a <= b -> b < 4 -> msg_ts ms a <= msg_ts ms b) ->
        forall o', 0 <= o' < o -> o' < 4 -> msg_ts ms o' < 15).
Proof.
  apply (log_find_by_timestamp no_coin stable id (tiny_config FsyncAlways) sample_log_ops 15);
    [apply perm_refl|apply perm_refl|unfold config_ok; simpl; lia|reflexivity|
     apply sample_ops_ok|reflexivity].
Defined.

Lemma batch_roundtrip_witness :
  exists data, serializeBatch sample_batch = Some data
    /\ deserializeBatch data = Some (Ok (mkBatch (map batch_view (b_Messages sample_batch)) 0 0)).
Proof.
  apply (batch_roundtrip sample_batch); [|reflexivity].
  repeat constructor; unfold in_i64; simpl; lia.
Defined.
