(* ===== verification/LogIface.v ===== *)
(** * The [Log] interface (pkg/storage/storage.go)

    The operations of a partition log that its clients use, as a class, what they
    may rely on, and the proof that [logImpl] keeps it, over any write-ahead log and
    any memtable that keep theirs. *)

From S2P Require Import Prelude GoBytes Record MemTable Index GoFiles Wal WalSpec Compaction Log LogSpec.
From stdpp Require Import prelude list sorting gmap.
From Stdlib Require Import ZArith Lia Strings.Byte.

Open Scope Z_scope.

Class LogOps (L : Type) := {
  lg_StartOffset : L -> Z;
  lg_EndOffset : L -> Z;
  lg_HighWaterMark : L -> Z;
  lg_Append : L -> MessageBatch -> option (result storage_error (list Z) * L);
  lg_Find : L -> Z -> option (result storage_error (Z * Z) * L);
  lg_Read : L -> Z -> Z -> option (result storage_error (list Message) * L);
  lg_Delete : L -> Z -> option (option storage_error * L);
  lg_Flush : L -> option (option storage_error * L)
}.

#[export] Instance log_ops {W T} {WO : WalOps W} {MT : MemTableOps T} : LogOps (logImpl W T) := {|
  lg_StartOffset := StartOffset;
  lg_EndOffset := EndOffset;
  lg_HighWaterMark := HighWaterMark;
  lg_Append := Append;
  lg_Find := FindOffsetByTimestamp;
  lg_Read := Read;
  lg_Delete := Log.Delete;
  lg_Flush := Log_Flush
|}.

(** [lview l ws start ms]: the log holds the messages [ms] at offsets from [ws]
    on, all of them readable, and starts at [start].  [lfresh] says in addition
    that it was created by this process and syncs every append, so that appends
    keep everything readable. *)
Class LogLaws (L : Type) `{LogOps L} := {
  lview : L -> Z -> Z -> list Message -> Prop;
  lview_offsets l ws st ms : lview l ws st ms ->
    lg_StartOffset l = st /\ lg_EndOffset l = ws + zlen ms /\ 0 <= ws <= st
    /\ ws + zlen ms < 2 ^ 63;
  lview_hwm l ws st ms : lview l ws st ms -> lg_HighWaterMark l = ws + zlen ms;
  lview_index l ws st ms i m : lview l ws st ms -> ms !! i = Some m ->
    msg_Offset m = ws + Z.of_nat i;
  lview_read l ws st ms o mx : lview l ws st ms -> st <= o ->
    exists l', lg_Read l o mx = Some (Ok (take_bytes mx 0 (drop (Z.to_nat (o - ws)) ms)), l')
      /\ lview l' ws st ms;
  lview_read_below l ws st ms o mx : lview l ws st ms -> o < st ->
    exists l', lg_Read l o mx = Some (Err ErrOffsetOutOfRange, l') /\ lview l' ws st ms;
  lview_find l ws st ms target : lview l ws st ms ->
    exists o t l', lg_Find l target = Some (Ok (o, t), l') /\ lview l' ws st ms
      /\ ((st <= o < ws + zlen ms /\ t = ts_at ws ms o /\ target <= t)
          \/ (o = ws + zlen ms /\ t = 0 /\ forall o', st <= o' < ws + zlen ms -> ts_at ws ms o' < target))
      /\ (monotone ws ms st (ws + zlen ms) ->
          forall o', st <= o' < o -> o' < ws + zlen ms -> ts_at ws ms o' < target);
  lview_delete l ws st ms b : lview l ws st ms ->
    exists l', lg_Delete l b = Some (None, l') /\ lg_StartOffset l' = b
      /\ lg_EndOffset l' = lg_EndOffset l;
  lfresh : L -> Z -> Z -> list Message -> Prop;
  lversion : L -> Z;
  lfresh_view l ws st ms : lfresh l ws st ms -> lview l ws st ms;
  lfresh_append l ws st ms batch : lfresh l ws st ms -> batch_ok (lversion l) batch ->
    (lversion l = MessageFormatV2 -> b_ProducerID batch = 0) ->
    ws + zlen ms + zlen (b_Messages batch) < 2 ^ 63 ->
    exists l', lg_Append l batch = Some (Ok (seqZ (ws + zlen ms) (zlen (b_Messages batch))), l')
      /\ lfresh l' ws st (ms ++ as_read batch (ws + zlen ms)) /\ lversion l' = lversion l;
  lfresh_read l ws st ms o mx r l' : lfresh l ws st ms -> lg_Read l o mx = Some (r, l') ->
    lfresh l' ws st ms /\ lversion l' = lversion l;
  lfresh_flush l ws st ms : lfresh l ws st ms ->
    exists l', lg_Flush l = Some (None, l') /\ lfresh l' ws st ms /\ lversion l' = lversion l
}.

Section instance.
Context {W T : Type} {WO : WalOps W} {WL : WalLaws W} {MT : MemTableOps T} {ML : MemTableLaws T}.

Definition log_view (l : logImpl W T) (ws st : Z) (ms : list Message) : Prop :=
  exists live rs n, log_ok l live ws rs n /\ covered l ws rs n /\ decoded ws rs ms
    /\ l_logStartOffset l = st /\ ws <= st.

Lemma log_view_same (l l' : logImpl W T) live ws rs n ms :
  log_ok l' live ws rs n -> same_tables l l' -> covered l ws rs n -> decoded ws rs ms ->
  ws <= l_logStartOffset l -> log_view l' ws (l_logStartOffset l) ms.
Proof.
  intros L' Hs Hc Hd Hws. exists live, rs, n. split; [done|].
  split; [by eapply covered_same|]. split; [done|]. by destruct Hs as (w & -> & _).
Qed.

(** Every record is in the files already, and every append is synced. *)
Definition log_fresh (l : logImpl W T) (ws st : Z) (ms : list Message) : Prop :=
  exists rs, log_ok l true ws rs (length rs) /\ decoded ws rs ms /\ l_logStartOffset l = st
    /\ ws <= st /\ walways (l_wal l) = true.

Lemma covered_all (l : logImpl W T) ws rs : covered l ws rs (length rs).
Proof. intros i d Hi. left. by eapply lookup_lt_Some. Qed.

Lemma log_fresh_same (l l' : logImpl W T) ws rs ms :
  log_ok l' true ws rs (length rs) -> same_tables l l' -> decoded ws rs ms ->
  ws <= l_logStartOffset l -> walways (l_wal l) = true ->
  log_fresh l' ws (l_logStartOffset l) ms
  /\ cfg_MessageFormatVersion (l_config l') = cfg_MessageFormatVersion (l_config l).
Proof.
  intros L' (w & -> & Hw) Hd Hws Ha. split; [|done]. exists rs. split; [done|]. split; [done|].
  split; [done|]. split; [done|]. simpl. congruence.
Qed.

#[export] Program Instance log_laws : LogLaws (logImpl W T) := {|
  lview := log_view;
  lfresh := log_fresh;
  lversion l := cfg_MessageFormatVersion (l_config l)
|}.
Next Obligation.
  intros l ws st ms (live & rs & n & L & Hc & [Hl _] & Hst & Hws). simpl.
  unfold StartOffset, EndOffset. rewrite (lk_next _ _ _ _ _ L), Hl.
  destruct (wlog_bounds _ _ _ _ _ (lk_wal _ _ _ _ _ L)) as (H0 & H1 & _). repeat split; try done; lia.
Qed.
Next Obligation.
  intros l ws st ms (live & rs & n & L & Hc & [Hl _] & Hst & Hws). simpl.
  unfold HighWaterMark. by rewrite (lk_hwm _ _ _ _ _ L), Hl.
Qed.
Next Obligation.
  intros l ws st ms i m (live & rs & n & L & Hc & Hd & _) Hi. by eapply decoded_offset.
Qed.
Next Obligation.
  intros l ws st ms o mx (live & rs & n & L & Hc & Hd & <- & Hws) Ho. simpl.
  destruct (Read_ok l live ws rs n ms o mx L Hc Hd Hws) as (l' & E & L' & Hs).
  destruct (Z.ltb_spec o (l_logStartOffset l)); [lia|]. exists l'. split; [done|].
  by eapply log_view_same.
Qed.
Next Obligation.
  intros l ws st ms o mx (live & rs & n & L & Hc & Hd & <- & Hws) Ho. simpl.
  destruct (Read_ok l live ws rs n ms o mx L Hc Hd Hws) as (l' & E & L' & Hs).
  destruct (Z.ltb_spec o (l_logStartOffset l)); [|lia]. exists l'. split; [done|].
  by eapply log_view_same.
Qed.
Next Obligation.
  intros l ws st ms target (live & rs & n & L & Hc & Hd & <- & Hws). simpl.
  destruct (FindOffsetByTimestamp_ok l live ws rs n ms target L Hc Hd Hws)
    as (o & t & l' & E & L' & Hs & H1 & H2).
  rewrite (lk_hwm _ _ _ _ _ L) in H1, H2. exists o, t, l'.
  split; [done|]. split; [by eapply log_view_same|]. rewrite (proj1 Hd). auto.
Qed.
Next Obligation.
  intros l ws st ms b (live & rs & n & L & Hc & Hd & <- & Hws). simpl.
  unfold Log.Delete. rewrite (lk_open _ _ _ _ _ L). cbn [l_wal with_offsets].
  destruct (wlog_truncate_total _ _ _ _ _ b (lk_wal _ _ _ _ _ L)) as (w' & ->). cbn. eauto.
Qed.
Next Obligation.
  intros l ws st ms (rs & L & Hd & Hst & Hws & _). exists true, rs, (length rs).
  split; [done|]. split; [apply covered_all|done].
Qed.
Next Obligation.
  intros l ws st ms batch (rs & L & Hd & <- & Hws & Ha) Hb Hv Hmax. simpl in *. pose proof Hd as [Hl _].
  destruct (Append_ok l ws rs (length rs) batch L Hb Hv) as (l' & n' & E & L' & Hc & Hs & Hw & _ & Hn);
    [lia|]. rewrite (Hn Ha eq_refl) in L'. rewrite Hl. exists l'. split; [done|]. split; [|by rewrite Hc].
  eexists. split; [exact L'|]. split; [by apply decoded_app|]. split; [done|].
  split; [done|congruence].
Qed.
Next Obligation.
  intros l ws st ms o mx r l' (rs & L & Hd & <- & Hws & Ha) E. simpl in *.
  destruct (Read_ok l true ws rs (length rs) ms o mx L (covered_all _ _ _) Hd Hws) as (l1 & E1 & L1 & Hs).
  assert (l1 = l') as -> by congruence. by eapply log_fresh_same.
Qed.
Next Obligation.
  intros l ws st ms (rs & L & Hd & <- & Hws & Ha). simpl.
  destruct (Log_Flush_ok l true ws rs (length rs) L) as (l' & E & L' & Hs). exists l'.
  split; [done|]. by eapply log_fresh_same.
Qed.
End instance.
