(* ===== verification/Retention.v ===== *)
(** * Retention (pkg/storage/retention.go)

    [RetentionManager] holds partition logs by name and deletes what is too old
    or too much.  The logs are used through the [Log] interface
    ([LogIface.LogOps]); they are shared objects, so the manager's map holds
    locations in a store of logs.  [time.Now] is an argument, [now].  The ticker
    loop ([Start], [Stop]) only decides when [enforce] runs. *)

From S2P Require Import Prelude GoBytes Record MemTable Index GoFiles Wal WalSpec Compaction Log LogSpec LogIface.
From stdpp Require Import prelude list sorting gmap.
From Stdlib Require Import ZArith Lia Strings.Byte.

Open Scope Z_scope.

(** ** Data *)

Record RetentionConfig := mkRetention { rc_RetentionMs : Z; rc_RetentionBytes : Z }.

Record RetentionStats := mkStats {
  rs_SegmentsDeleted : Z;
  rs_BytesReclaimed : Z;
  rs_PartitionsChecked : Z
}.
Definition no_stats : RetentionStats := mkStats 0 0 0.
Definition add_stats (a b : RetentionStats) : RetentionStats :=
  mkStats (rs_SegmentsDeleted a + rs_SegmentsDeleted b) (rs_BytesReclaimed a + rs_BytesReclaimed b)
    (rs_PartitionsChecked a).

Record RetentionManager := mkManager {
  rm_config : RetentionConfig;
  rm_logs : gmap bytes nat;            (* partition id to log *)
  rm_totalSegmentsDeleted : Z;
  rm_totalBytesReclaimed : Z
}.

Definition NewRetentionManager (config : RetentionConfig) : RetentionManager :=
  mkManager config ∅ 0 0.

Definition RegisterLog (rm : RetentionManager) (partitionID : bytes) (log : nat) : RetentionManager :=
  mkManager (rm_config rm) (<[partitionID := log]> (rm_logs rm)) (rm_totalSegmentsDeleted rm)
    (rm_totalBytesReclaimed rm).

Definition UnregisterLog (rm : RetentionManager) (partitionID : bytes) : RetentionManager :=
  mkManager (rm_config rm) (delete partitionID (rm_logs rm)) (rm_totalSegmentsDeleted rm)
    (rm_totalBytesReclaimed rm).

Definition Stats (rm : RetentionManager) : RetentionStats :=
  mkStats (rm_totalSegmentsDeleted rm) (rm_totalBytesReclaimed rm) 0.

(** ** Enforcement *)

Definition estimateBytes (from to : Z) : Z :=
  let count := to - from in
  if count <=? 0 then 0 else count * 256.

(** [time.Now().Add(-time.Duration(RetentionMs) * time.Millisecond).UnixNano()] *)
Definition cutoffNanos (config : RetentionConfig) (now : Z) : Z :=
  UnixNano (now + wraps 64 (wraps 64 (- rc_RetentionMs config) * 1000000)).

Section enforce.
Context {L : Type} {LO : LogOps L}.

(** [deletedCount] and the call of [Delete] both strategies end with. *)
Definition delete_up_to (log : L) (startOffset newStartOffset : Z) : option (RetentionStats * L) :=
  if newStartOffset <=? startOffset then Some (no_stats, log)
  else
    '(err, log) ← lg_Delete log newStartOffset;
    match err with
    | Some _ => Some (no_stats, log)
    | None => Some (mkStats (newStartOffset - startOffset)
                      (estimateBytes startOffset newStartOffset) 0, log)
    end.

Definition enforceTimeBased (config : RetentionConfig) (now : Z) (log : L)
    : option (RetentionStats * L) :=
  if rc_RetentionMs config <=? 0 then Some (no_stats, log)
  else
    let startOffset := lg_StartOffset log in
    let endOffset := lg_EndOffset log in
    if endOffset <=? startOffset then Some (no_stats, log)
    else
      '(r, log) ← lg_Find log (cutoffNanos config now);
      match r with
      | Err _ => Some (no_stats, log)
      | Ok (newStartOffset, _) => delete_up_to log startOffset newStartOffset
      end.

(** The sampling loop: bytes and number of the samples read. *)
Fixpoint sample_loop (n : nat) (log : L) (start step i totalSampleBytes samplesRead : Z)
    : option (Z * Z * L) :=
  match n with
  | O => Some (totalSampleBytes, samplesRead, log)
  | S n' =>
      '(r, log) ← lg_Read log (start + i * step) 1;
      match r with
      | Ok (m :: _) =>
          sample_loop n' log start step (i + 1)
            (totalSampleBytes + (zlen (msg_Key m) + zlen (msg_Value m))) (samplesRead + 1)
      | _ => sample_loop n' log start step (i + 1) totalSampleBytes samplesRead
      end
  end.

Definition estimatePartitionSize (log : L) (start end_ : Z) : option (Z * L) :=
  let messageCount := end_ - start in
  if messageCount <=? 0 then Some (0, log)
  else
    let sampleSize := if messageCount <? 10 then messageCount else 10 in
    let step := messageCount / sampleSize in
    let step := if step <? 1 then 1 else step in
    '(total, samplesRead, log) ← sample_loop (Z.to_nat sampleSize) log start step 0 0 0;
    if samplesRead =? 0 then Some (0, log)
    else Some (wraps 64 (total / samplesRead * messageCount), log).

Fixpoint reduce_loop (n : nat) (log : L) (offset excessBytes accumulated end_ : Z) : option (Z * L) :=
  match n with
  | O => Some (end_, log)
  | S n' =>
      '(r, log) ← lg_Read log offset 1;
      let accumulated := accumulated + match r with
                                       | Ok (m :: _) => zlen (msg_Key m) + zlen (msg_Value m)
                                       | _ => 64
                                       end in
      if excessBytes <=? accumulated then Some (offset + 1, log)
      else reduce_loop n' log (offset + 1) excessBytes accumulated end_
  end.

Definition findOffsetForSizeReduction (log : L) (start end_ excessBytes : Z) : option (Z * L) :=
  reduce_loop (Z.to_nat (end_ - start)) log start excessBytes 0 end_.

Definition enforceSizeBased (config : RetentionConfig) (log : L) : option (RetentionStats * L) :=
  if rc_RetentionBytes config <=? 0 then Some (no_stats, log)
  else
    let startOffset := lg_StartOffset log in
    let endOffset := lg_EndOffset log in
    if endOffset <=? startOffset then Some (no_stats, log)
    else
      '(totalSize, log) ← estimatePartitionSize log startOffset endOffset;
      if totalSize <=? rc_RetentionBytes config then Some (no_stats, log)
      else
        '(newStartOffset, log) ← findOffsetForSizeReduction log startOffset endOffset
                                   (totalSize - rc_RetentionBytes config);
        delete_up_to log startOffset newStartOffset.

Definition enforceLog (config : RetentionConfig) (now : Z) (log : L) : option (RetentionStats * L) :=
  '(timeStats, log) ← enforceTimeBased config now log;
  '(sizeStats, log) ← enforceSizeBased config log;
  Some (add_stats (add_stats no_stats timeStats) sizeStats, log).

(** The loop of [enforce] over the snapshot, in the order the map gives. *)
Fixpoint enforce_loop (config : RetentionConfig) (now : Z) (snapshot : list (bytes * nat))
    (store : gmap nat L) (stats : RetentionStats) : option (RetentionStats * gmap nat L) :=
  match snapshot with
  | [] => Some (stats, store)
  | (_, x) :: snapshot' =>
      log ← store !! x;
      '(s, log) ← enforceLog config now log;
      let stats := add_stats stats s in
      let stats := mkStats (rs_SegmentsDeleted stats) (rs_BytesReclaimed stats)
                     (rs_PartitionsChecked stats + 1) in
      enforce_loop config now snapshot' (<[x := log]> store) stats
  end.

Definition enforce (rangeOrder : list (bytes * nat) -> list (bytes * nat)) (rm : RetentionManager)
    (now : Z) (store : gmap nat L) : option (RetentionStats * RetentionManager * gmap nat L) :=
  '(stats, store) ← enforce_loop (rm_config rm) now (rangeOrder (map_to_list (rm_logs rm)))
                      store no_stats;
  Some (stats, mkManager (rm_config rm) (rm_logs rm)
                 (rm_totalSegmentsDeleted rm + rs_SegmentsDeleted stats)
                 (rm_totalBytesReclaimed rm + rs_BytesReclaimed stats), store).
End enforce.

(** ** What enforcement keeps *)

Definition msg_bytes (m : Message) : Z := zlen (msg_Key m) + zlen (msg_Value m).
Definition total_bytes (ms : list Message) : Z := foldr (fun m acc => msg_bytes m + acc) 0 ms.

Section laws.
Context {L : Type} {LO : LogOps L} {LL : LogLaws L}.
Implicit Types (log : L) (ms : list Message).

Lemma delete_up_to_ok log ws st ms new :
  lview log ws st ms ->
  exists stats log', delete_up_to log st new = Some (stats, log')
    /\ lg_StartOffset log' = Z.max st new /\ lg_EndOffset log' = lg_EndOffset log
    /\ rs_SegmentsDeleted stats = Z.max st new - st.
Proof.
  intros V. destruct (lview_offsets _ _ _ _ V) as (Hs & He & _). unfold delete_up_to.
  destruct (Z.leb_spec new st).
  - exists no_stats, log. rewrite Z.max_l by done. repeat split; simpl; lia || done.
  - destruct (lview_delete _ _ _ _ new V) as (log' & -> & H1 & H2). cbn [mbind option_bind].
    do 2 eexists. split; [done|]. rewrite Z.max_r by lia. repeat split; done.
Qed.

(** Reading at most one byte returns the message at the offset first. *)
Lemma lview_read_one log ws st ms o m :
  lview log ws st ms -> st <= o -> ms !! Z.to_nat (o - ws) = Some m ->
  exists rest log', lg_Read log o 1 = Some (Ok (m :: rest), log') /\ lview log' ws st ms.
Proof.
  intros V Ho Hm. destruct (lview_read _ _ _ _ o 1 V Ho) as (log' & E & V').
  rewrite (drop_S _ _ _ Hm) in E. cbn [take_bytes] in E. simpl in E. eauto.
Qed.

Lemma reduce_loop_ok ws st ms excess : forall n log o acc,
  lview log ws st ms -> st <= o -> ws + zlen ms = o + Z.of_nat n -> 0 < excess ->
  exists new log', reduce_loop n log o excess acc (ws + zlen ms) = Some (new, log')
    /\ lview log' ws st ms /\ o <= new <= ws + zlen ms
    /\ (forall k, 0 < k -> o + k < new ->
          acc + total_bytes (take (Z.to_nat k) (drop (Z.to_nat (o - ws)) ms)) < excess)
    /\ (excess <= acc + total_bytes (take (Z.to_nat (new - o)) (drop (Z.to_nat (o - ws)) ms))
        \/ new = ws + zlen ms).
Proof.
  induction n as [|n IH]; intros log o acc V Ho Hn Hex; cbn [reduce_loop].
  { exists (ws + zlen ms), log. split; [done|]. split; [done|]. split; [lia|].
    split; [lia|]. by right. }
  destruct (lview_offsets _ _ _ _ V) as (_ & _ & Hws & _).
  destruct (lookup_lt_is_Some_2 ms (Z.to_nat (o - ws))) as [m Hm]; [lia|].
  destruct (lview_read_one _ _ _ _ _ _ V Ho Hm) as (rest & log1 & -> & V1).
  cbn [mbind option_bind]. fold (msg_bytes m). rewrite (drop_S _ _ _ Hm).
  destruct (Z.leb_spec excess (acc + msg_bytes m)) as [Hle|Hgt].
  - exists (o + 1), log1. split; [done|]. split; [done|]. split; [lia|]. split; [lia|].
    left. replace (Z.to_nat (o + 1 - o)) with 1%nat by lia. simpl. lia.
  - destruct (IH log1 (o + 1) (acc + msg_bytes m) V1) as (new & log2 & E & V2 & Hb & Hlow & Hhigh);
      [lia|lia|done|].
    replace (Z.to_nat (o + 1 - ws)) with (S (Z.to_nat (o - ws))) in Hlow, Hhigh by lia.
    exists new, log2. split; [done|]. split; [done|]. split; [lia|]. split.
    + intros k Hk Hok. replace (Z.to_nat k) with (S (Z.to_nat (k - 1))) by lia.
      cbn [take total_bytes foldr]. fold (total_bytes (take (Z.to_nat (k - 1)) (drop (S (Z.to_nat (o - ws))) ms))).
      destruct (decide (k = 1)) as [->|]; [simpl; lia|].
      specialize (Hlow (k - 1) ltac:(lia) ltac:(lia)). lia.
    + destruct Hhigh as [Hh|Hh]; [left|by right].
      replace (Z.to_nat (new - o)) with (S (Z.to_nat (new - (o + 1)))) by lia.
      cbn [take total_bytes foldr].
      fold (total_bytes (take (Z.to_nat (new - (o + 1))) (drop (S (Z.to_nat (o - ws))) ms))). lia.
Qed.

(** Messages of one size. *)
Definition uniform (ws st : Z) ms (s : Z) : Prop :=
  forall o m, st <= o -> ms !! Z.to_nat (o - ws) = Some m -> msg_bytes m = s.

Lemma sample_loop_ok ws st ms s step : forall n log i total count,
  lview log ws st ms -> uniform ws st ms s -> 1 <= step -> 0 <= i ->
  st + (i + Z.of_nat n - 1) * step < ws + zlen ms ->
  exists log', sample_loop n log st step i total count
      = Some (total + s * Z.of_nat n, count + Z.of_nat n, log') /\ lview log' ws st ms.
Proof.
  induction n as [|n IH]; intros log i total count V Hu Hst Hi Hmax; cbn [sample_loop].
  { exists log. split; [|done]. do 3 f_equal; lia. }
  destruct (lview_offsets _ _ _ _ V) as (_ & _ & Hws & _).
  assert (st + i * step < ws + zlen ms) by nia.
  destruct (lookup_lt_is_Some_2 ms (Z.to_nat (st + i * step - ws))) as [m Hm]; [nia|].
  destruct (lview_read_one _ _ _ _ (st + i * step) m V ltac:(nia) Hm) as (rest & log1 & -> & V1).
  cbn [mbind option_bind]. fold (msg_bytes m).
  rewrite (Hu (st + i * step) m ltac:(nia) Hm).
  destruct (IH log1 (i + 1) (total + s) (count + 1) V1 Hu Hst ltac:(lia)) as (log' & E & V').
  { replace (i + 1 + Z.of_nat n - 1) with (i + Z.of_nat (S n) - 1) by lia. done. }
  exists log'. split; [|done]. rewrite E. do 3 f_equal; lia.
Qed.

Lemma estimate_uniform log ws st ms s :
  lview log ws st ms -> uniform ws st ms s -> st < ws + zlen ms ->
  exists log', estimatePartitionSize log st (ws + zlen ms)
      = Some (wraps 64 (s * (ws + zlen ms - st)), log') /\ lview log' ws st ms.
Proof.
  intros V Hu Hlt. unfold estimatePartitionSize. set (cnt := ws + zlen ms - st).
  destruct (Z.leb_spec cnt 0); [lia|].
  set (ss := if cnt <? 10 then cnt else 10).
  assert (1 <= ss <= cnt) as Hss by (unfold ss; zbool; lia).
  assert (1 <= cnt / ss /\ cnt / ss * ss <= cnt) as [Hd1 Hd2].
  { split; [apply Z.div_le_lower_bound; lia|]. pose proof (Z.mul_div_le cnt ss). lia. }
  destruct (Z.ltb_spec (cnt / ss) 1); [lia|].
  destruct (sample_loop_ok ws st ms s (cnt / ss) (Z.to_nat ss) log 0 0 0 V Hu Hd1 ltac:(lia))
    as (log' & -> & V'); [unfold cnt in *; nia|].
  cbn [mbind option_bind]. rewrite Z2Nat.id, !Z.add_0_l by lia.
  destruct (Z.eqb_spec ss 0); [lia|]. exists log'. split; [|done].
  by rewrite Z.div_mul by lia.
Qed.
End laws.

Lemma uniform_total ws st ms s k :
  uniform ws st ms s -> ws <= st -> (k ≤ length (drop (Z.to_nat (st - ws)) ms))%nat ->
  total_bytes (take k (drop (Z.to_nat (st - ws)) ms)) = s * Z.of_nat k.
Proof.
  intros Hu Hws. induction k as [|k IH]; intros Hk; [rewrite take_0; simpl; lia|].
  destruct (lookup_lt_is_Some_2 (drop (Z.to_nat (st - ws)) ms) k) as [m Hm]; [lia|].
  rewrite (take_S_r _ _ _ Hm). unfold total_bytes in *. rewrite foldr_app. simpl.
  assert (msg_bytes m = s) as ->.
  { rewrite lookup_drop in Hm. apply (Hu (st + Z.of_nat k)); [lia|].
    replace (Z.to_nat (st + Z.of_nat k - ws)) with (Z.to_nat (st - ws) + k)%nat by lia. done. }
  assert (forall l z, foldr (fun m acc => msg_bytes m + acc) z l
    = foldr (fun m acc => msg_bytes m + acc) 0 l + z) as Hz
    by (induction l as [|x l IHl]; intros z; simpl; [lia|rewrite IHl; lia]).
  rewrite Hz, IH by lia. lia.
Qed.

(** ** Theorems *)

(** Time-based retention is exact when timestamps are in order: the log
    afterwards starts at the first message that is not older than the cutoff, so
    every expired message is deleted and no other, the end of the log does not
    move, and the statistics report the number of offsets given up. *)
Theorem retention_time_exact {L} {LO : LogOps L} {LL : LogLaws L} (config : RetentionConfig)
    (now : Z) (log : L) (ws st : Z) (ms : list Message) :
  lview log ws st ms -> 0 < rc_RetentionMs config -> monotone ws ms st (ws + zlen ms) ->
  exists stats log', enforceTimeBased config now log = Some (stats, log')
    /\ st <= lg_StartOffset log' /\ lg_EndOffset log' = lg_EndOffset log
    /\ rs_SegmentsDeleted stats = lg_StartOffset log' - st
    /\ forall o, st <= o < ws + zlen ms ->
         (o < lg_StartOffset log' <-> ts_at ws ms o < cutoffNanos config now).
Proof.
  intros V Hms Hmo. destruct (lview_offsets _ _ _ _ V) as (Hs & He & _). unfold enforceTimeBased.
  destruct (Z.leb_spec (rc_RetentionMs config) 0); [lia|]. rewrite Hs, He.
  destruct (Z.leb_spec (ws + zlen ms) st).
  { exists no_stats, log. rewrite Hs. repeat split; simpl; try lia; done. }
  destruct (lview_find _ _ _ _ (cutoffNanos config now) V) as (new & t & log1 & -> & V1 & Hr & Hm).
  cbn [mbind option_bind]. specialize (Hm Hmo).
  destruct (delete_up_to_ok log1 ws st ms new V1) as (stats & log2 & -> & H1 & H2 & H3).
  destruct (lview_offsets _ _ _ _ V1) as (_ & He1 & _).
  exists stats, log2. split; [done|]. rewrite H1, H2, H3, He1. repeat split; try lia.
  - intros Ho'. apply Hm; lia.
  - intros Hts. destruct Hr as [(Hr1 & Hr2 & Hr3)|(Hr1 & _)]; [|lia].
    destruct (decide (o < new)); [lia|]. specialize (Hmo new o ltac:(lia) ltac:(lia)). lia.
Qed.

(** [findOffsetForSizeReduction] returns the least offset up to which the
    messages hold the excess bytes, or the end of the log when all of them
    together do not. *)
Theorem retention_reduction_least {L} {LO : LogOps L} {LL : LogLaws L} (log : L) (ws st : Z)
    (ms : list Message) (excess : Z) :
  lview log ws st ms -> 0 < excess -> st < ws + zlen ms ->
  exists new log', findOffsetForSizeReduction log st (ws + zlen ms) excess = Some (new, log')
    /\ st <= new <= ws + zlen ms
    /\ (forall k, 0 < k -> st + k < new ->
          total_bytes (take (Z.to_nat k) (drop (Z.to_nat (st - ws)) ms)) < excess)
    /\ (excess <= total_bytes (take (Z.to_nat (new - st)) (drop (Z.to_nat (st - ws)) ms))
        \/ new = ws + zlen ms).
Proof.
  intros V Hex Hlt. unfold findOffsetForSizeReduction.
  destruct (reduce_loop_ok ws st ms excess (Z.to_nat (ws + zlen ms - st)) log st 0 V)
    as (new & log' & E & _ & Hb & Hlow & Hhigh); [lia|lia|done|].
  exists new, log'. split; [done|]. split; [done|]. split; [|done]. intros k Hk Hn.
  specialize (Hlow k Hk Hn). lia.
Qed.

(** Size-based retention brings a partition of equally large messages under
    its limit: the sampled estimate is then exact, and what remains after the
    deletion is at most [RetentionBytes], or nothing was deleted because it
    already was. *)
Theorem retention_size_bound {L} {LO : LogOps L} {LL : LogLaws L} (config : RetentionConfig)
    (log : L) (ws st : Z) (ms : list Message) (s : Z) :
  lview log ws st ms -> 0 < rc_RetentionBytes config -> st < ws + zlen ms ->
  uniform ws st ms s -> 0 <= s -> s * (ws + zlen ms - st) < 2 ^ 63 ->
  exists stats log', enforceSizeBased config log = Some (stats, log')
    /\ st <= lg_StartOffset log' <= ws + zlen ms
    /\ s * (ws + zlen ms - lg_StartOffset log') <= rc_RetentionBytes config.
Proof.
  intros V Hrb Hlt Hu Hs0 Hmax. destruct (lview_offsets _ _ _ _ V) as (Hs & He & Hws & _).
  unfold enforceSizeBased. destruct (Z.leb_spec (rc_RetentionBytes config) 0); [lia|].
  rewrite Hs, He. destruct (Z.leb_spec (ws + zlen ms) st); [lia|].
  destruct (estimate_uniform log ws st ms s V Hu Hlt) as (log1 & -> & V1). cbn [mbind option_bind].
  rewrite wraps_64_id by (unfold in_i64; nia).
  destruct (Z.leb_spec (s * (ws + zlen ms - st)) (rc_RetentionBytes config)) as [Hle|Hgt].
  { destruct (lview_offsets _ _ _ _ V1) as (Hs1 & _). exists no_stats, log1. rewrite Hs1.
    repeat split; lia. }
  unfold findOffsetForSizeReduction.
  edestruct (reduce_loop_ok ws st ms) as (new & log2 & -> & V2 & Hb & _ & Hhigh);
    [exact V1|lia|rewrite Z2Nat.id by lia; lia| |].
  { apply Z.lt_0_sub. exact Hgt. }
  cbn [mbind option_bind].
  destruct (delete_up_to_ok log2 ws st ms new V2) as (stats & log3 & -> & H1 & H2 & _).
  exists stats, log3. split; [done|]. rewrite H1, Z.max_r by lia. split; [lia|].
  destruct Hhigh as [Hh| ->]; [|nia].
  rewrite (uniform_total ws st ms s) in Hh by (try done; try lia; rewrite length_drop; lia).
  rewrite Z2Nat.id in Hh by lia. nia.
Qed.

(** ** Witnesses *)

#[local] Instance plain_ops : MemTableOps memTableImpl := skip_ops no_coin.
#[local] Instance plain_laws : MemTableLaws memTableImpl := skip_laws no_coin.

Definition two_messages : list Message := as_read sample_batch 0.

(** A log with two messages of one byte, with timestamps 10 and 20. *)
Lemma sample_log : exists l : logImpl walImpl memTableImpl, lview l 0 0 two_messages.
Proof.
  destruct (engine_run no_coin stable id perm_refl perm_refl (tiny_config FsyncAlways)
    [LAppend sample_batch]) as (l0 & outs & l & rs & n & _ & _ & Hok & Hd & Hst & _ & Hout).
  - unfold config_ok. simpl. lia.
  - apply Forall_cons. split; [|apply Forall_nil_2].
    apply Forall_cons; split; [apply plain_msg_ok|].
    apply Forall_cons; split; [apply plain_msg_ok|apply Forall_nil_2].
  - reflexivity.
  - destruct (Hout eq_refl) as [_ ->]. exists l, true, rs, (length rs). split; [exact Hok|].
    split; [|split; [exact Hd|split; [done|lia]]].
    intros i d Hi. left. by eapply lookup_lt_Some.
Qed.

Lemma two_cases o : 0 <= o < 2 -> o = 0 \/ o = 1.
Proof. lia. Qed.

Lemma retention_time_exact_witness :
  exists (l : logImpl walImpl memTableImpl) stats l',
    enforceTimeBased (mkRetention 1 0) 1000015 l = Some (stats, l')
    /\ forall o, 0 <= o < 2 ->
         (o < lg_StartOffset l' <-> ts_at 0 two_messages o < cutoffNanos (mkRetention 1 0) 1000015).
Proof.
  destruct sample_log as [l V]. exists l.
  destruct (retention_time_exact (mkRetention 1 0) 1000015 l 0 0 two_messages V)
    as (stats & l' & E & _ & _ & _ & H).
  - simpl. lia.
  - intros a b Hab Hb. change (0 + zlen two_messages) with 2 in Hb.
    destruct (two_cases a ltac:(lia)) as [->| ->], (two_cases b ltac:(lia)) as [->| ->];
      vm_compute; discriminate || lia.
  - exists stats, l'. split; [exact E|]. exact H.
Defined.

Lemma retention_reduction_least_witness :
  exists (l : logImpl walImpl memTableImpl) new l',
    findOffsetForSizeReduction l 0 2 1 = Some (new, l') /\ 0 <= new <= 2.
Proof.
  destruct sample_log as [l V]. exists l.
  destruct (retention_reduction_least l 0 0 two_messages 1 V) as (new & l' & E & Hb & _).
  - lia.
  - reflexivity.
  - exists new, l'. split; [exact E|exact Hb].
Defined.

Lemma retention_size_bound_witness :
  exists (l : logImpl walImpl memTableImpl) stats l',
    enforceSizeBased (mkRetention 0 1) l = Some (stats, l')
    /\ 1 * (2 - lg_StartOffset l') <= 1.
Proof.
  destruct sample_log as [l V]. exists l.
  destruct (retention_size_bound (mkRetention 0 1) l 0 0 two_messages 1 V) as (stats & l' & E & _ & H).
  - simpl. lia.
  - reflexivity.
  - intros o m Ho Hm. rewrite Z.sub_0_r in Hm.
    assert (o < 2) as Hlt by (apply lookup_lt_Some in Hm; change (length two_messages) with 2%nat in Hm; lia).
    destruct (two_cases o ltac:(lia)) as [->| ->]; vm_compute in Hm; injection Hm as <-; reflexivity.
  - lia.
  - reflexivity.
  - exists stats, l'. split; [exact E|exact H].
Defined.
