(* ===== verification/Wire.v ===== *)
(** * The self-describing payloads of the wire protocol (pkg/protocol)

    [payloadWriter] and [payloadReader] of wire.go and wire_convert.go: a writer that
    measures when it has no buffer and fills one otherwise, and a reader whose first
    error sticks.  A writer operation that would panic returns [None]; a reader
    operation never panics, so a reader is a total function.  On top of them the
    payloads of coordination.go, transaction.go and find_coordinator.go, one instance of
    [Payload] each, and the dispatch of codec_coordination.go.  A byte field that
    distinguishes nil from empty is an [option bytes]; strings are bytes.

    [codec] relates an encoder, a decoder and a value: the encoder writes some bytes,
    as many as it measures, and the decoder reads the value back from them.  It is
    closed under sequencing, so the law of each payload follows the shape of its code. *)

From S2P Require Import Prelude GoBytes Record.
From stdpp Require Import prelude list sorting gmap.
From Stdlib Require Import ZArith Lia Strings.Byte.

Open Scope Z_scope.

Definition MaxMessageSize : Z := 1024 * 1024 * 10.
Definition maxArrayLen : Z := MaxMessageSize.

(** ** Writing *)

Record payloadWriter := mkW { w_buf : option bytes; w_pos : Z }.

Definition writer : Type := payloadWriter -> option payloadWriter.

Definition newSizer : payloadWriter := mkW None 0.
Definition newWriter (buf : bytes) (pos : Z) : payloadWriter := mkW (Some buf) pos.

(** Advances the position; the slice is given by where it starts in the buffer, and is
    nil in measuring mode. *)
Definition reserve (n : Z) (w : payloadWriter) : option (option Z * payloadWriter) :=
  let start := w_pos w in
  match w_buf w with
  | None => Some (None, mkW None (start + n))
  | Some buf =>
      if (0 <=? start) && (0 <=? n) && (start + n <=? zlen buf)
      then Some (Some start, mkW (Some buf) (start + n)) else None
  end.

(** [if b := w.reserve(n); b != nil { ... }] with what is done to the slice. *)
Definition fill (n : Z) (put : bytes -> Z -> option bytes) : writer := fun w =>
  '(b, w) ← reserve n w;
  match b with
  | None => Some w
  | Some start => buf ← w_buf w; buf ← put buf start; Some (mkW (Some buf) (w_pos w))
  end.

Definition writeInt8 (v : Z) : writer := fill 1 (fun buf off => put_be 1 buf off (wrapu 8 v)).
Definition writeBool (v : bool) : writer := writeInt8 (if v then 1 else 0).
Definition writeInt16 (v : Z) : writer := fill 2 (fun buf off => put_be 2 buf off (wrapu 16 v)).
Definition writeInt32 (v : Z) : writer := fill 4 (fun buf off => put_be 4 buf off (wrapu 32 v)).
Definition writeInt64 (v : Z) : writer := fill 8 (fun buf off => put_be 8 buf off (wrapu 64 v)).
Definition writeUint16 (v : Z) : writer := fill 2 (fun buf off => put_be 2 buf off v).
Definition writeErrorCode (code : Z) : writer := writeUint16 code.

Definition writeArrayLen (n : Z) : writer :=
  if (n <? 0) || (maxArrayLen <? n) then writeInt32 0 else writeInt32 n.

(** One write after another. *)
Definition then_ (e f : writer) : writer := fun w => w ← e w; f w.
Definition skip : writer := Some.

Declare Scope wire_scope.
Delimit Scope wire_scope with wire.
Notation "e ;; f" := (then_ e f) (at level 100, f at level 200, right associativity) : wire_scope.
Open Scope wire_scope.

Definition writeString (s : bytes) : writer :=
  writeArrayLen (zlen s) ;; fill (zlen s) (fun buf off => copy_at buf off s).

Definition writeBytes (data : option bytes) : writer :=
  match data with
  | None => writeInt32 (-1)
  | Some s => writeArrayLen (zlen s) ;; fill (zlen s) (fun buf off => copy_at buf off s)
  end.

(** [for _, x := range xs { e(x) }] *)
Fixpoint for_each {A} (e : A -> writer) (xs : list A) : writer :=
  match xs with
  | [] => skip
  | x :: xs => e x ;; for_each e xs
  end.

(** ** Reading *)

(** [r_err] says whether the sticky error is set; it is always [ErrMalformedPayload]. *)
Record payloadReader := mkR { r_buf : bytes; r_pos : Z; r_err : bool }.

Definition reader (A : Type) : Type := payloadReader -> A * payloadReader.

#[export] Instance reader_ret : MRet reader := fun A a r => (a, r).
#[export] Instance reader_bind : MBind reader := fun A B k d r => let '(a, r) := d r in k a r.

Definition newReader (buf : bytes) : payloadReader := mkR buf 0 false.

Definition fail_ {A} (a : A) : reader A := fun r => (a, mkR (r_buf r) (r_pos r) true).

(** The next [n] bytes, or nil. *)
Definition r_take (n : Z) : reader (option bytes) := fun r =>
  if r_err r then (None, r)
  else if (n <? 0) || (zlen (r_buf r) <? r_pos r + n) then fail_ None r
  else (slice (r_buf r) (r_pos r) (r_pos r + n), mkR (r_buf r) (r_pos r + n) (r_err r)).

(** [if r.Err() != nil { return early }] *)
Definition unless_err {A} (early : A) (k : reader A) : reader A :=
  fun r => if r_err r then (early, r) else k r.

Definition read_int (w : Z) : reader Z :=
  b ← r_take (w / 8); mret (match b with None => 0 | Some b => wraps w (be_dec b) end).

Definition readInt8 : reader Z := read_int 8.
Definition readBool : reader bool := v ← readInt8; mret (negb (v =? 0)).
Definition readInt16 : reader Z := read_int 16.
Definition readInt32 : reader Z := read_int 32.
Definition readInt64 : reader Z := read_int 64.

Definition readUint16 : reader Z :=
  b ← r_take 2; mret (match b with None => 0 | Some b => be_dec b end).
Definition readErrorCode : reader Z := readUint16.

Definition readString : reader bytes :=
  length ← readInt32;
  unless_err []
    (if length <? 0 then fail_ []
     else b ← r_take length; mret (default [] b)).

Definition readBytes : reader (option bytes) :=
  length ← readInt32;
  unless_err None
    (if length =? -1 then mret None
     else if length <? 0 then fail_ None
     else r_take length).

Definition readCount : reader Z :=
  n ← readInt32;
  unless_err 0
    (if n <? 0 then fail_ 0
     else fun r => if zlen (r_buf r) - r_pos r <? n then fail_ 0 r else (n, r)).

(** [for i := 0; i < n; i++ { ... }] that appends one element per round; a round that
    returns early, [None], ends the whole decoding. *)
Fixpoint loop {A} (n : nat) (d : reader (option A)) : reader (list A) :=
  match n with
  | O => mret []
  | S n' => x ← d; match x with None => mret [] | Some x => xs ← loop n' d; mret (x :: xs) end
  end.

(** A collection: its count, and [count] rounds of [d] unless the count is bad. *)
Definition read_list {A} (d : reader (option A)) : reader (list A) :=
  count ← readCount; unless_err [] (loop (Z.to_nat count) d).

Definition write_list {A} (e : A -> writer) (xs : list A) : writer :=
  writeArrayLen (zlen xs) ;; for_each e xs.

(** An element that is a topic and a nested collection: a bad nested count returns
    from the whole decoding. *)
Definition read_nested {A B} (mk : bytes -> list A -> B) (d : reader (option A)) : reader (option B) :=
  topic ← readString;
  count ← readCount;
  unless_err None (xs ← loop (Z.to_nat count) d; mret (Some (mk topic xs))).

Definition sortedKeys {V} (m : gmap bytes V) : list bytes := merge_sort bytes_le (map_to_list m).*1.

(** ** Encoders and decoders that agree *)

(** [e] writes exactly [bs]: it measures their length, fills a buffer that has room
    for them and panics on one that has not. *)
Record writes (e : writer) (bs : bytes) : Prop := {
  writes_measure pos : e (mkW None pos) = Some (mkW None (pos + zlen bs));
  writes_fill pre hole :
    (length bs ≤ length hole)%nat ->
    e (mkW (Some (pre ++ hole)) (zlen pre))
    = Some (mkW (Some ((pre ++ bs) ++ drop (length bs) hole)) (zlen (pre ++ bs)));
  writes_panic pre hole :
    (length hole < length bs)%nat -> e (mkW (Some (pre ++ hole)) (zlen pre)) = None
}.

(** [d] reads [v] from exactly [bs], wherever they stand in the buffer. *)
Definition reads {A} (d : reader A) (bs : bytes) (v : A) : Prop :=
  forall pre post, d (mkR (pre ++ bs ++ post) (zlen pre) false)
                   = (v, mkR (pre ++ bs ++ post) (zlen (pre ++ bs)) false).

(** [e] writes at least [lo] bytes, from which [d] reads [v] back unless there are more
    than a message may have. *)
Definition codec {A} (lo : nat) (e : writer) (d : reader A) (v : A) : Prop :=
  exists bs, (lo ≤ length bs)%nat /\ writes e bs /\ (zlen bs <= MaxMessageSize -> reads d bs v).

Lemma writes_then e f bs cs : writes e bs -> writes f cs -> writes (e ;; f) (bs ++ cs).
Proof.
  intros He Hf. split.
  - intros pos. unfold then_. rewrite (writes_measure _ _ He). simpl.
    rewrite (writes_measure _ _ Hf), length_app. do 2 f_equal. lia.
  - intros pre hole Hl. rewrite length_app in Hl. unfold then_.
    rewrite (writes_fill _ _ He) by lia. simpl.
    rewrite (writes_fill _ _ Hf) by (rewrite length_drop; lia).
    rewrite !(assoc_L (++)), drop_drop, (length_app bs cs). done.
  - intros pre hole Hl. rewrite length_app in Hl. unfold then_.
    destruct (decide (length bs ≤ length hole)%nat).
    + rewrite (writes_fill _ _ He) by lia. simpl.
      apply (writes_panic _ _ Hf). rewrite length_drop. lia.
    + rewrite (writes_panic _ _ He) by lia. done.
Qed.

Lemma writes_skip : writes skip [].
Proof.
  split; intros; unfold skip; simpl in *; [f_equal; f_equal; lia| |lia].
  by rewrite app_nil_r, drop_0.
Qed.

(** A [fill] whose action stores [bs] writes them. *)
Lemma writes_filled bs put :
  (forall pre hole, (length bs ≤ length hole)%nat ->
    put (pre ++ hole) (zlen pre) = Some ((pre ++ bs) ++ drop (length bs) hole)) ->
  writes (fill (zlen bs) put) bs.
Proof.
  intros Hp. unfold fill, reserve. split; [done| |].
  - intros pre hole Hl. cbn [w_buf w_pos]. rewrite length_app.
    destruct (Z.leb_spec 0 (zlen pre)); [|lia]. destruct (Z.leb_spec 0 (zlen bs)); [|lia].
    destruct (Z.leb_spec (zlen pre + zlen bs) (Z.of_nat (length pre + length hole))); [|lia].
    simpl. rewrite Hp by done. simpl. do 2 f_equal. rewrite length_app. lia.
  - intros pre hole Hl. cbn [w_buf w_pos]. rewrite length_app.
    destruct (Z.leb_spec (zlen pre + zlen bs) (Z.of_nat (length pre + length hole))); [lia|].
    by rewrite andb_false_r.
Qed.

Lemma writes_be n v : writes (fill (Z.of_nat n) (fun buf off => put_be n buf off v)) (be_enc n v).
Proof.
  rewrite <- (be_enc_length n v) at 1. apply writes_filled. intros pre hole Hl.
  rewrite be_enc_length in *. by apply put_be_app.
Qed.

Lemma writes_copy s : writes (fill (zlen s) (fun buf off => copy_at buf off s)) s.
Proof. apply writes_filled. intros. by apply copy_at_app. Qed.

Lemma writes_len n : 0 <= n <= maxArrayLen -> writes (writeArrayLen n) (be_enc 4 (wrapu 32 n)).
Proof.
  intros Hn. unfold writeArrayLen. destruct (Z.ltb_spec n 0); [lia|].
  destruct (Z.ltb_spec maxArrayLen n); [lia|]. apply (writes_be 4).
Qed.

(** Whatever its value, a length prefix takes four bytes. *)
Lemma writes_len_any n : exists bs, length bs = 4%nat /\ writes (writeArrayLen n) bs.
Proof.
  unfold writeArrayLen. case_match; eexists; (split; [|apply (writes_be 4)]); apply be_enc_length.
Qed.

Lemma reads_bind {A B} (d : reader A) (k : A -> reader B) bs cs a b :
  reads d bs a -> reads (k a) cs b -> reads (d ≫= k) (bs ++ cs) b.
Proof.
  intros Hd Hk pre post. unfold mbind, reader_bind.
  specialize (Hk (pre ++ bs) post). rewrite <- !(assoc_L (++)) in Hk |- *.
  rewrite Hd. rewrite <- (assoc_L (++) pre) in Hk. done.
Qed.

Lemma reads_ret {A} (a : A) : reads (mret a) [] a.
Proof. intros pre post. unfold mret, reader_ret. by rewrite app_nil_r. Qed.

Lemma reads_unless {A} (early : A) d bs a : reads d bs a -> reads (unless_err early d) bs a.
Proof. intros Hd pre post. unfold unless_err. cbn [r_err]. apply Hd. Qed.

Lemma reads_take bs : reads (r_take (zlen bs)) bs (Some bs).
Proof.
  intros pre post. unfold r_take. cbn [r_err r_buf r_pos]. rewrite slice_app.
  rewrite !length_app. destruct (Z.ltb_spec (zlen bs) 0); [lia|].
  destruct (Z.ltb_spec (Z.of_nat (length pre + (length bs + length post))) (zlen pre + zlen bs)); [lia|].
  simpl. do 2 f_equal. lia.
Qed.

Lemma reads_read_int (w : Z) (n : nat) v :
  w = 8 * Z.of_nat n -> (0 < n)%nat -> - 2 ^ (w - 1) <= v < 2 ^ (w - 1) ->
  reads (read_int w) (be_enc n (wrapu w v)) v.
Proof.
  intros Hw Hn Hv. unfold read_int. rewrite <- (app_nil_r (be_enc _ _)).
  assert (w / 8 = zlen (be_enc n (wrapu w v))) as ->.
  { rewrite be_enc_length, Hw, Z.mul_comm, Z.div_mul; lia. }
  eapply reads_bind; [apply reads_take|].
  cbn beta iota. rewrite be_dec_enc. change 256 with (2 ^ 8). rewrite <- Z.pow_mul_r, <- Hw by lia.
  unfold wrapu. rewrite Z.mod_mod by (apply Z.pow_nonzero; lia).
  change (v mod 2 ^ w) with (wrapu w v). rewrite wraps_wrapu by lia. apply reads_ret.
Qed.

Lemma reads_int32 v : in_i32 v -> reads readInt32 (be_enc 4 (wrapu 32 v)) v.
Proof. intros Hv. apply (reads_read_int 32 4); [lia|lia|exact Hv]. Qed.

(** A count and what is decoded with it, which takes up at least as many bytes. *)
Lemma reads_counted {B} n (k : Z -> reader B) cs b :
  0 <= n <= maxArrayLen -> n <= zlen cs -> reads (k n) cs b ->
  reads (readCount ≫= k) (be_enc 4 (wrapu 32 n) ++ cs) b.
Proof.
  intros Hn Hl Hk pre post. unfold readCount.
  unfold mbind, reader_bind. rewrite <- (assoc_L (++)).
  rewrite (reads_int32 n) by (unfold in_i32, maxArrayLen, MaxMessageSize in *; lia).
  unfold unless_err. cbn [r_err r_buf r_pos].
  destruct (Z.ltb_spec n 0); [lia|]. cbn [r_err r_buf r_pos].
  destruct (Z.ltb_spec (zlen (pre ++ be_enc 4 (wrapu 32 n) ++ cs ++ post)
                        - zlen (pre ++ be_enc 4 (wrapu 32 n))) n) as [Hlt|_].
  { rewrite !length_app in Hlt. lia. }
  specialize (Hk (pre ++ be_enc 4 (wrapu 32 n)) post). rewrite <- !(assoc_L (++)) in Hk. exact Hk.
Qed.

Lemma reads_loop {A} (d : reader (option A)) xs bss :
  Forall2 (fun bs x => reads d bs (Some x)) bss xs -> reads (loop (length xs) d) (concat bss) xs.
Proof.
  induction 1 as [|bs x bss xs Hx Hxs IH]; simpl; [apply reads_ret|].
  eapply reads_bind; [apply Hx|]. rewrite <- (app_nil_r (concat bss)).
  eapply reads_bind; [apply IH|]. apply reads_ret.
Qed.

(** *** Closure of [codec] *)

Lemma codec_then {A B} lo lo' e f (d : reader A) (k : A -> reader B) a b :
  codec lo e d a -> codec lo' f (k a) b -> codec (lo + lo') (e ;; f) (d ≫= k) b.
Proof.
  intros (bs & Hlo & Hw & Hr) (cs & Hlo' & Hw' & Hr'). exists (bs ++ cs).
  rewrite length_app. split; [lia|]. split; [by apply writes_then|].
  intros Hmax. eapply reads_bind; [apply Hr|apply Hr']; lia.
Qed.

(** The last field of a struct, followed by building the struct. *)
Lemma codec_last {A B} lo e (d : reader A) (f : A -> B) a :
  codec lo e d a -> codec lo e (d ≫= fun x => mret (f x)) (f a).
Proof.
  intros (bs & Hlo & Hw & Hr). exists bs. split; [done|]. split; [done|].
  intros Hmax. rewrite <- (app_nil_r bs). eapply reads_bind; [by apply Hr|apply reads_ret].
Qed.

Lemma codec_be {A} n v (d : reader A) a :
  (forall bs, bs = be_enc n v -> reads d bs a) ->
  codec n (fill (Z.of_nat n) (fun buf off => put_be n buf off v)) d a.
Proof.
  intros Hr. exists (be_enc n v). rewrite be_enc_length. split; [done|].
  split; [apply writes_be|]. intros _. by apply Hr.
Qed.

Lemma codec_int8 v : in_i8 v -> codec 1 (writeInt8 v) readInt8 v.
Proof. intros Hv. apply (codec_be 1). intros ? ->. apply (reads_read_int 8 1); [lia|lia|exact Hv]. Qed.
Lemma codec_int16 v : in_i16 v -> codec 2 (writeInt16 v) readInt16 v.
Proof. intros Hv. apply (codec_be 2). intros ? ->. apply (reads_read_int 16 2); [lia|lia|exact Hv]. Qed.
Lemma codec_int32 v : in_i32 v -> codec 4 (writeInt32 v) readInt32 v.
Proof. intros Hv. apply (codec_be 4). intros ? ->. by apply reads_int32. Qed.
Lemma codec_int64 v : in_i64 v -> codec 8 (writeInt64 v) readInt64 v.
Proof. intros Hv. apply (codec_be 8). intros ? ->. apply (reads_read_int 64 8); [lia|lia|exact Hv]. Qed.

Lemma codec_bool v : codec 1 (writeBool v) readBool v.
Proof.
  unfold writeBool, readBool.
  pose proof (codec_last 1 _ _ (fun z => negb (z =? 0)) _ (codec_int8 (if v then 1 else 0) ltac:(unfold in_i8; destruct v; lia))) as H.
  by destruct v.
Qed.

Lemma codec_error v : in_u16 v -> codec 2 (writeErrorCode v) readErrorCode v.
Proof.
  intros Hv. apply (codec_be 2). intros ? ->. unfold readErrorCode, readUint16.
  rewrite <- (app_nil_r (be_enc _ _)).
  eapply reads_bind; [apply (reads_take (be_enc 2 v))|]. cbn beta iota.
  rewrite be_dec_enc, Z.mod_small by (exact Hv). apply reads_ret.
Qed.

(** A length prefix followed by as many bytes. *)
Lemma codec_prefixed {A} s (k : Z -> reader A) a :
  (zlen s <= maxArrayLen -> reads (k (zlen s)) s a) ->
  codec 4 (writeArrayLen (zlen s) ;; fill (zlen s) (fun buf off => copy_at buf off s)) (readInt32 ≫= k) a.
Proof.
  intros Hk. destruct (writes_len_any (zlen s)) as (ls & Hls & Hw).
  destruct (decide (zlen s <= maxArrayLen)).
  - exists (be_enc 4 (wrapu 32 (zlen s)) ++ s). rewrite length_app, be_enc_length. split; [lia|].
    split; [apply writes_then; [apply writes_len; lia|apply writes_copy]|].
    intros _. eapply reads_bind; [apply reads_int32|by apply Hk].
    unfold in_i32, maxArrayLen, MaxMessageSize in *. lia.
  - exists (ls ++ s). rewrite length_app. split; [lia|].
    split; [apply writes_then; [done|apply writes_copy]|]. unfold maxArrayLen in *. lia.
Qed.

Lemma codec_string s : codec 4 (writeString s) readString s.
Proof.
  apply codec_prefixed. intros Hs. apply reads_unless. destruct (Z.ltb_spec (zlen s) 0); [lia|].
  rewrite <- (app_nil_r s) at 2. eapply reads_bind; [apply reads_take|apply reads_ret].
Qed.

Lemma codec_bytes s : codec 4 (writeBytes s) readBytes s.
Proof.
  destruct s as [s|]; simpl.
  - apply codec_prefixed. intros Hs. apply reads_unless.
    destruct (Z.eqb_spec (zlen s) (-1)); [lia|]. destruct (Z.ltb_spec (zlen s) 0); [lia|].
    apply reads_take.
  - exists (be_enc 4 (wrapu 32 (-1))). rewrite be_enc_length. split; [done|].
    split; [apply (writes_be 4)|]. intros _. rewrite <- (app_nil_r (be_enc _ _)).
    eapply reads_bind; [apply reads_int32; unfold in_i32; lia|]. apply reads_unless, reads_ret.
Qed.

Lemma codec_weaken {A} lo lo' e (d : reader A) a : codec lo e d a -> (lo' ≤ lo)%nat -> codec lo' e d a.
Proof. intros (bs & Hlo & H) Hle. exists bs. split; [lia|done]. Qed.

Lemma codec_elements {A} (e : A -> writer) (d : reader (option A)) xs :
  (forall x, x ∈ xs -> codec 1 (e x) d (Some x)) ->
  exists bs, (length xs ≤ length bs)%nat /\ writes (for_each e xs) bs
             /\ (zlen bs <= MaxMessageSize -> reads (loop (length xs) d) bs xs).
Proof.
  induction xs as [|x xs IH]; intros Hx.
  { exists []. split; [done|]. split; [apply writes_skip|]. intros _. apply reads_ret. }
  destruct (Hx x) as (bs & Hlo & Hw & Hr); [left|].
  destruct IH as (cs & Hlo' & Hw' & Hr'); [intros y Hy; apply Hx; by right|].
  exists (bs ++ cs). rewrite length_app. cbn [length]. split; [lia|]. split; [by apply writes_then|].
  intros Hmax. cbn [loop]. eapply reads_bind; [apply Hr; lia|]. cbn beta iota.
  rewrite <- (app_nil_r cs). eapply reads_bind; [apply Hr'; lia|apply reads_ret].
Qed.

Lemma codec_collection {A B} (e : A -> writer) (d : reader (option A)) xs (k : Z -> reader B) b :
  (forall x, x ∈ xs -> codec 1 (e x) d (Some x)) ->
  (forall bs, reads (loop (length xs) d) bs xs -> reads (k (zlen xs)) bs b) ->
  codec 4 (write_list e xs) (readCount ≫= k) b.
Proof.
  intros Hx Hk. destruct (codec_elements e d xs Hx) as (cs & Hlo & Hw & Hr).
  destruct (writes_len_any (zlen xs)) as (ls & Hls & Hwl).
  destruct (decide (zlen xs <= maxArrayLen)).
  - exists (be_enc 4 (wrapu 32 (zlen xs)) ++ cs). rewrite length_app, be_enc_length. split; [lia|].
    split; [apply writes_then; [apply writes_len; lia|done]|].
    intros Hmax. apply reads_counted; [lia|lia|]. apply Hk, Hr. lia.
  - exists (ls ++ cs). rewrite length_app. split; [lia|]. split; [by apply writes_then|].
    unfold maxArrayLen in *. lia.
Qed.

Lemma codec_list {A} (P : A -> Prop) (e : A -> writer) (d : reader (option A)) xs :
  (forall x, P x -> codec 1 (e x) d (Some x)) -> Forall P xs ->
  codec 4 (write_list e xs) (read_list d) xs.
Proof.
  intros Hx Hxs. rewrite Forall_forall in Hxs. eapply codec_collection; [by auto|].
  intros bs Hr. rewrite Nat2Z.id. by apply reads_unless.
Qed.

Lemma codec_nested {A B} (P : A -> Prop) (mk : bytes -> list A -> B) (e : A -> writer) (d : reader (option A)) t xs :
  (forall x, P x -> codec 1 (e x) d (Some x)) -> Forall P xs ->
  codec 1 (writeString t ;; write_list e xs) (read_nested mk d) (Some (mk t xs)).
Proof.
  intros Hx Hxs. rewrite Forall_forall in Hxs.
  eapply (codec_weaken (4 + 4)); [|lia]. eapply codec_then; [apply codec_string|].
  eapply codec_collection; [by auto|]. intros bs Hr. rewrite Nat2Z.id. apply reads_unless.
  rewrite <- (app_nil_r bs). eapply reads_bind; [done|apply reads_ret].
Qed.

(** A bare integer as an element. *)
Definition read_some {A} (d : reader A) : reader (option A) := z ← d; mret (Some z).

Lemma codec_some {A} lo e (d : reader A) a : codec lo e d a -> codec lo e (read_some d) (Some a).
Proof. apply (codec_last lo e d Some). Qed.

(** *** The values a decoder can return *)

Definition yields {A} (P : A -> Prop) (d : reader A) : Prop := forall r, P (d r).1.

Lemma yields_ret {A} (P : A -> Prop) a : P a -> yields P (mret a).
Proof. intros H r. exact H. Qed.

Lemma yields_bind {A B} (P : A -> Prop) (Q : B -> Prop) d k :
  yields P d -> (forall a, P a -> yields Q (k a)) -> yields Q (d ≫= k).
Proof.
  intros Hd Hk r. unfold mbind, reader_bind. specialize (Hd r).
  destruct (d r) as [a r']. by apply Hk.
Qed.

Lemma yields_any {A} (d : reader A) : yields (fun _ => True) d.
Proof. intros r. done. Qed.

Lemma yields_unless {A} (P : A -> Prop) early d : P early -> yields P d -> yields P (unless_err early d).
Proof. intros He Hd r. unfold unless_err. destruct (r_err r); [done|apply Hd]. Qed.

Lemma yields_int w : 0 < w -> yields (fun v => - 2 ^ (w - 1) <= v < 2 ^ (w - 1)) (read_int w).
Proof.
  intros Hw. eapply yields_bind; [apply yields_any|]. intros [b|] _; apply yields_ret.
  - by apply wraps_range.
  - pose proof (Z.pow_pos_nonneg 2 (w - 1)). lia.
Qed.

Lemma yields_int8 : yields in_i8 readInt8. Proof. by apply (yields_int 8). Qed.
Lemma yields_int16 : yields in_i16 readInt16. Proof. by apply (yields_int 16). Qed.
Lemma yields_int32 : yields in_i32 readInt32. Proof. by apply (yields_int 32). Qed.
Lemma yields_int64 : yields in_i64 readInt64. Proof. by apply (yields_int 64). Qed.

Lemma yields_error : yields in_u16 readErrorCode.
Proof.
  intros r. unfold readErrorCode, readUint16, mbind, reader_bind, r_take.
  destruct (r_err r); simpl; [unfold in_u16; lia|].
  destruct (_ <? _); simpl; [unfold in_u16; lia|].
  destruct (slice _ _ _) as [b|] eqn:E; [|simpl; unfold in_u16; lia].
  apply slice_length in E. pose proof (be_dec_range b) as Hb. simpl. unfold in_u16.
  replace (zlen b) with 2 in Hb by lia. lia.
Qed.

Lemma yields_loop {A} (P : A -> Prop) n d :
  yields (fun x => forall a, x = Some a -> P a) d -> yields (Forall P) (loop n d).
Proof.
  intros Hd. induction n as [|n IH]; simpl; [by apply yields_ret|].
  eapply yields_bind; [exact Hd|]. intros [a|] Ha; [|by apply yields_ret].
  eapply yields_bind; [exact IH|]. intros xs Hxs. apply yields_ret. constructor; auto.
Qed.

Lemma yields_list {A} (P : A -> Prop) d :
  yields (fun x => forall a, x = Some a -> P a) d -> yields (Forall P) (read_list d).
Proof.
  intros Hd. eapply yields_bind; [apply yields_any|]. intros n _.
  apply yields_unless; [done|]. by apply yields_loop.
Qed.

Lemma yields_nested {A B} (P : A -> Prop) (Q : B -> Prop) mk d :
  yields (fun x => forall a, x = Some a -> P a) d -> (forall t xs, Forall P xs -> Q (mk t xs)) ->
  yields (fun x => forall b, x = Some b -> Q b) (read_nested mk d).
Proof.
  intros Hd HQ. eapply yields_bind; [apply yields_any|]. intros t _.
  eapply yields_bind; [apply yields_any|]. intros n _. apply yields_unless; [done|].
  eapply yields_bind; [by apply yields_loop|]. intros xs Hxs. apply yields_ret.
  intros b [= <-]. by apply HQ.
Qed.

Lemma yields_some {A} (P : A -> Prop) d :
  yields P d -> yields (fun x => forall a, x = Some a -> P a) (read_some d).
Proof.
  intros Hd. eapply yields_bind; [exact Hd|]. intros a Ha. apply yields_ret. by intros ? [= <-].
Qed.

Lemma codec_elt_int32 v : in_i32 v -> codec 1 (writeInt32 v) (read_some readInt32) (Some v).
Proof. intros Hv. eapply codec_weaken; [by apply codec_some, codec_int32|lia]. Qed.

Create HintDb wire.
#[export] Hint Resolve codec_int8 codec_int16 codec_int32 codec_int64 codec_bool codec_error codec_string codec_bytes codec_elt_int32 : wire.
#[export] Hint Resolve yields_int8 yields_int16 yields_int32 yields_int64 yields_error yields_some yields_list : wire.
#[export] Hint Extern 3 (codec _ (write_list _ _) _ _) => eapply codec_list : wire.

(** Follow the fields of a struct; what is left are the ranges of the integers. *)
Ltac codec_fields :=
  lazymatch goal with
  | |- codec _ (then_ _ _) _ _ => eapply codec_then; [eauto with wire|cbn beta; codec_fields]
  | |- codec _ ?e (mbind (fun x => mret (@?f x)) ?d) _ => eapply (codec_last _ e d f); eauto with wire
  end.

(** The same for [yields]. *)
Ltac yields_fields :=
  lazymatch goal with
  | |- yields _ (readString ≫= _) => eapply yields_bind; [apply yields_any|intros ? _; cbn beta; yields_fields]
  | |- yields _ (readBytes ≫= _) => eapply yields_bind; [apply yields_any|intros ? _; cbn beta; yields_fields]
  | |- yields _ (readBool ≫= _) => eapply yields_bind; [apply yields_any|intros ? _; cbn beta; yields_fields]
  | |- yields _ (_ ≫= _) => eapply yields_bind; [solve [eauto with wire]|intros ? ?; cbn beta; yields_fields]
  | |- yields _ (mret _) => apply yields_ret
  end.
