(* ===== verification/Payloads.v ===== *)
(** * The payloads of group and transaction coordination (pkg/protocol)

    The request and response structs of coordination.go, transaction.go and
    find_coordinator.go with their [encodePayload] and [decodePayload], the two blobs that
    travel inside them (subscriptions and member assignments), and the dispatch on the
    request type of codec_coordination.go.  Records carry the source's fields behind a
    prefix.  [typed] says that every integer field holds a value of its Go type.
    [coordination_request_codec] and [coordination_response_codec] show that what is encoded
    is decoded, [payload_decode_typed] that the integers of whatever is decoded keep their
    width in the model. *)

From S2P Require Import Prelude GoBytes Record Wire.
From stdpp Require Import prelude list sorting gmap.
From Stdlib Require Import ZArith Lia Strings.Byte.

Open Scope Z_scope.
Open Scope wire_scope.

(** [payloadEncoder] and [payloadDecoder] of codec_coordination.go, for one struct. *)
Class Payload (P : Type) := {
  encodePayload : P -> writer;
  decodePayload : reader P;
  typed : P -> Prop
}.

(** What the codec relies on. *)
Class PayloadLaws (P : Type) `{Payload P} := {
  payload_codec (p : P) : typed p -> codec 0 (encodePayload p) decodePayload p;
  payload_typed : yields typed decodePayload
}.

(** ** Consumer groups (coordination.go) *)

Record GroupProtocol := mkGroupProtocol {
  gp_Name : bytes;
  gp_Metadata : option bytes
}.

Definition typed_GroupProtocol (x : GroupProtocol) : Prop := True.

Definition write_GroupProtocol (x : GroupProtocol) : writer :=
  writeString (gp_Name x) ;;
  writeBytes (gp_Metadata x).

Definition read_GroupProtocol : reader (option GroupProtocol) :=
  Name ← readString;
  Metadata ← readBytes;
  mret (Some (mkGroupProtocol Name Metadata)).

Record JoinGroupRequest := mkJoinGroupRequest {
  jgr_GroupID : bytes;
  jgr_MemberID : bytes;
  jgr_ClientID : bytes;
  jgr_ProtocolType : bytes;
  jgr_SessionTimeoutMs : Z;
  jgr_RebalanceTimeoutMs : Z;
  jgr_Protocols : list GroupProtocol
}.

Definition JoinGroupRequest_encodePayload (p : JoinGroupRequest) : writer :=
  writeString (jgr_GroupID p) ;;
  writeString (jgr_MemberID p) ;;
  writeString (jgr_ClientID p) ;;
  writeString (jgr_ProtocolType p) ;;
  writeInt32 (jgr_SessionTimeoutMs p) ;;
  writeInt32 (jgr_RebalanceTimeoutMs p) ;;
  write_list write_GroupProtocol (jgr_Protocols p).

Definition JoinGroupRequest_decodePayload : reader JoinGroupRequest :=
  GroupID ← readString;
  MemberID ← readString;
  ClientID ← readString;
  ProtocolType ← readString;
  SessionTimeoutMs ← readInt32;
  RebalanceTimeoutMs ← readInt32;
  Protocols ← read_list read_GroupProtocol;
  mret (mkJoinGroupRequest GroupID MemberID ClientID ProtocolType SessionTimeoutMs RebalanceTimeoutMs Protocols).

#[export] Instance JoinGroupRequest_payload : Payload JoinGroupRequest := {|
  encodePayload := JoinGroupRequest_encodePayload;
  decodePayload := JoinGroupRequest_decodePayload;
  typed p := in_i32 (jgr_SessionTimeoutMs p) /\ in_i32 (jgr_RebalanceTimeoutMs p) /\ Forall typed_GroupProtocol (jgr_Protocols p)
|}.

Record JoinGroupMember := mkJoinGroupMember {
  jgm_MemberID : bytes;
  jgm_Metadata : option bytes
}.

Definition typed_JoinGroupMember (x : JoinGroupMember) : Prop := True.

Definition write_JoinGroupMember (x : JoinGroupMember) : writer :=
  writeString (jgm_MemberID x) ;;
  writeBytes (jgm_Metadata x).

Definition read_JoinGroupMember : reader (option JoinGroupMember) :=
  MemberID ← readString;
  Metadata ← readBytes;
  mret (Some (mkJoinGroupMember MemberID Metadata)).

Record JoinGroupResponse := mkJoinGroupResponse {
  jgs_ErrorCode : Z;
  jgs_GenerationID : Z;
  jgs_ProtocolName : bytes;
  jgs_MemberID : bytes;
  jgs_LeaderID : bytes;
  jgs_Members : list JoinGroupMember
}.

Definition JoinGroupResponse_encodePayload (p : JoinGroupResponse) : writer :=
  writeErrorCode (jgs_ErrorCode p) ;;
  writeInt32 (jgs_GenerationID p) ;;
  writeString (jgs_ProtocolName p) ;;
  writeString (jgs_MemberID p) ;;
  writeString (jgs_LeaderID p) ;;
  write_list write_JoinGroupMember (jgs_Members p).

Definition JoinGroupResponse_decodePayload : reader JoinGroupResponse :=
  ErrorCode ← readErrorCode;
  GenerationID ← readInt32;
  ProtocolName ← readString;
  MemberID ← readString;
  LeaderID ← readString;
  Members ← read_list read_JoinGroupMember;
  mret (mkJoinGroupResponse ErrorCode GenerationID ProtocolName MemberID LeaderID Members).

#[export] Instance JoinGroupResponse_payload : Payload JoinGroupResponse := {|
  encodePayload := JoinGroupResponse_encodePayload;
  decodePayload := JoinGroupResponse_decodePayload;
  typed p := in_u16 (jgs_ErrorCode p) /\ in_i32 (jgs_GenerationID p) /\ Forall typed_JoinGroupMember (jgs_Members p)
|}.

Definition IsLeader (p : JoinGroupResponse) : bool :=
  negb (bool_decide (jgs_MemberID p = [])) && bool_decide (jgs_MemberID p = jgs_LeaderID p).

Record SyncGroupAssignment := mkSyncGroupAssignment {
  sga_MemberID : bytes;
  sga_Assignment : option bytes
}.

Definition typed_SyncGroupAssignment (x : SyncGroupAssignment) : Prop := True.

Definition write_SyncGroupAssignment (x : SyncGroupAssignment) : writer :=
  writeString (sga_MemberID x) ;;
  writeBytes (sga_Assignment x).

Definition read_SyncGroupAssignment : reader (option SyncGroupAssignment) :=
  MemberID ← readString;
  Assignment ← readBytes;
  mret (Some (mkSyncGroupAssignment MemberID Assignment)).

Record SyncGroupRequest := mkSyncGroupRequest {
  sgr_GroupID : bytes;
  sgr_GenerationID : Z;
  sgr_MemberID : bytes;
  sgr_Assignments : list SyncGroupAssignment
}.

Definition SyncGroupRequest_encodePayload (p : SyncGroupRequest) : writer :=
  writeString (sgr_GroupID p) ;;
  writeInt32 (sgr_GenerationID p) ;;
  writeString (sgr_MemberID p) ;;
  write_list write_SyncGroupAssignment (sgr_Assignments p).

Definition SyncGroupRequest_decodePayload : reader SyncGroupRequest :=
  GroupID ← readString;
  GenerationID ← readInt32;
  MemberID ← readString;
  Assignments ← read_list read_SyncGroupAssignment;
  mret (mkSyncGroupRequest GroupID GenerationID MemberID Assignments).

#[export] Instance SyncGroupRequest_payload : Payload SyncGroupRequest := {|
  encodePayload := SyncGroupRequest_encodePayload;
  decodePayload := SyncGroupRequest_decodePayload;
  typed p := in_i32 (sgr_GenerationID p) /\ Forall typed_SyncGroupAssignment (sgr_Assignments p)
|}.

Record SyncGroupResponse := mkSyncGroupResponse {
  sgs_ErrorCode : Z;
  sgs_Assignment : option bytes
}.

Definition SyncGroupResponse_encodePayload (p : SyncGroupResponse) : writer :=
  writeErrorCode (sgs_ErrorCode p) ;;
  writeBytes (sgs_Assignment p).

Definition SyncGroupResponse_decodePayload : reader SyncGroupResponse :=
  ErrorCode ← readErrorCode;
  Assignment ← readBytes;
  mret (mkSyncGroupResponse ErrorCode Assignment).

#[export] Instance SyncGroupResponse_payload : Payload SyncGroupResponse := {|
  encodePayload := SyncGroupResponse_encodePayload;
  decodePayload := SyncGroupResponse_decodePayload;
  typed p := in_u16 (sgs_ErrorCode p)
|}.

Record HeartbeatRequest := mkHeartbeatRequest {
  hbr_GroupID : bytes;
  hbr_GenerationID : Z;
  hbr_MemberID : bytes
}.

Definition HeartbeatRequest_encodePayload (p : HeartbeatRequest) : writer :=
  writeString (hbr_GroupID p) ;;
  writeInt32 (hbr_GenerationID p) ;;
  writeString (hbr_MemberID p).

Definition HeartbeatRequest_decodePayload : reader HeartbeatRequest :=
  GroupID ← readString;
  GenerationID ← readInt32;
  MemberID ← readString;
  mret (mkHeartbeatRequest GroupID GenerationID MemberID).

#[export] Instance HeartbeatRequest_payload : Payload HeartbeatRequest := {|
  encodePayload := HeartbeatRequest_encodePayload;
  decodePayload := HeartbeatRequest_decodePayload;
  typed p := in_i32 (hbr_GenerationID p)
|}.

Record HeartbeatResponse := mkHeartbeatResponse {
  hbs_ErrorCode : Z
}.

Definition HeartbeatResponse_encodePayload (p : HeartbeatResponse) : writer :=
  writeErrorCode (hbs_ErrorCode p).

Definition HeartbeatResponse_decodePayload : reader HeartbeatResponse :=
  ErrorCode ← readErrorCode;
  mret (mkHeartbeatResponse ErrorCode).

#[export] Instance HeartbeatResponse_payload : Payload HeartbeatResponse := {|
  encodePayload := HeartbeatResponse_encodePayload;
  decodePayload := HeartbeatResponse_decodePayload;
  typed p := in_u16 (hbs_ErrorCode p)
|}.

Record LeaveGroupRequest := mkLeaveGroupRequest {
  lgr_GroupID : bytes;
  lgr_MemberID : bytes
}.

Definition LeaveGroupRequest_encodePayload (p : LeaveGroupRequest) : writer :=
  writeString (lgr_GroupID p) ;;
  writeString (lgr_MemberID p).

Definition LeaveGroupRequest_decodePayload : reader LeaveGroupRequest :=
  GroupID ← readString;
  MemberID ← readString;
  mret (mkLeaveGroupRequest GroupID MemberID).

#[export] Instance LeaveGroupRequest_payload : Payload LeaveGroupRequest := {|
  encodePayload := LeaveGroupRequest_encodePayload;
  decodePayload := LeaveGroupRequest_decodePayload;
  typed p := True
|}.

Record LeaveGroupResponse := mkLeaveGroupResponse {
  lgs_ErrorCode : Z
}.

Definition LeaveGroupResponse_encodePayload (p : LeaveGroupResponse) : writer :=
  writeErrorCode (lgs_ErrorCode p).

Definition LeaveGroupResponse_decodePayload : reader LeaveGroupResponse :=
  ErrorCode ← readErrorCode;
  mret (mkLeaveGroupResponse ErrorCode).

#[export] Instance LeaveGroupResponse_payload : Payload LeaveGroupResponse := {|
  encodePayload := LeaveGroupResponse_encodePayload;
  decodePayload := LeaveGroupResponse_decodePayload;
  typed p := in_u16 (lgs_ErrorCode p)
|}.

Record OffsetCommitPartition := mkOffsetCommitPartition {
  ocp_Partition : Z;
  ocp_Offset : Z;
  ocp_Metadata : bytes
}.

Definition typed_OffsetCommitPartition (x : OffsetCommitPartition) : Prop := in_i32 (ocp_Partition x) /\ in_i64 (ocp_Offset x).

Definition write_OffsetCommitPartition (x : OffsetCommitPartition) : writer :=
  writeInt32 (ocp_Partition x) ;;
  writeInt64 (ocp_Offset x) ;;
  writeString (ocp_Metadata x).

Definition read_OffsetCommitPartition : reader (option OffsetCommitPartition) :=
  Partition ← readInt32;
  Offset ← readInt64;
  Metadata ← readString;
  mret (Some (mkOffsetCommitPartition Partition Offset Metadata)).

Record OffsetCommitTopic := mkOffsetCommitTopic {
  oct_Topic : bytes;
  oct_Partitions : list OffsetCommitPartition
}.

Definition typed_OffsetCommitTopic (x : OffsetCommitTopic) : Prop := Forall typed_OffsetCommitPartition (oct_Partitions x).

Definition write_OffsetCommitTopic (x : OffsetCommitTopic) : writer :=
  writeString (oct_Topic x) ;;
  write_list write_OffsetCommitPartition (oct_Partitions x).

Definition read_OffsetCommitTopic : reader (option OffsetCommitTopic) := read_nested mkOffsetCommitTopic read_OffsetCommitPartition.

Record OffsetCommitRequest := mkOffsetCommitRequest {
  ocr_GroupID : bytes;
  ocr_GenerationID : Z;
  ocr_MemberID : bytes;
  ocr_Topics : list OffsetCommitTopic
}.

Definition OffsetCommitRequest_encodePayload (p : OffsetCommitRequest) : writer :=
  writeString (ocr_GroupID p) ;;
  writeInt32 (ocr_GenerationID p) ;;
  writeString (ocr_MemberID p) ;;
  write_list write_OffsetCommitTopic (ocr_Topics p).

Definition OffsetCommitRequest_decodePayload : reader OffsetCommitRequest :=
  GroupID ← readString;
  GenerationID ← readInt32;
  MemberID ← readString;
  Topics ← read_list read_OffsetCommitTopic;
  mret (mkOffsetCommitRequest GroupID GenerationID MemberID Topics).

#[export] Instance OffsetCommitRequest_payload : Payload OffsetCommitRequest := {|
  encodePayload := OffsetCommitRequest_encodePayload;
  decodePayload := OffsetCommitRequest_decodePayload;
  typed p := in_i32 (ocr_GenerationID p) /\ Forall typed_OffsetCommitTopic (ocr_Topics p)
|}.

Record OffsetCommitPartitionResult := mkOffsetCommitPartitionResult {
  opr_Partition : Z;
  opr_ErrorCode : Z
}.

Definition typed_OffsetCommitPartitionResult (x : OffsetCommitPartitionResult) : Prop := in_i32 (opr_Partition x) /\ in_u16 (opr_ErrorCode x).

Definition write_OffsetCommitPartitionResult (x : OffsetCommitPartitionResult) : writer :=
  writeInt32 (opr_Partition x) ;;
  writeErrorCode (opr_ErrorCode x).

Definition read_OffsetCommitPartitionResult : reader (option OffsetCommitPartitionResult) :=
  Partition ← readInt32;
  ErrorCode ← readErrorCode;
  mret (Some (mkOffsetCommitPartitionResult Partition ErrorCode)).

Record OffsetCommitTopicResult := mkOffsetCommitTopicResult {
  otr_Topic : bytes;
  otr_Partitions : list OffsetCommitPartitionResult
}.

Definition typed_OffsetCommitTopicResult (x : OffsetCommitTopicResult) : Prop := Forall typed_OffsetCommitPartitionResult (otr_Partitions x).

Definition write_OffsetCommitTopicResult (x : OffsetCommitTopicResult) : writer :=
  writeString (otr_Topic x) ;;
  write_list write_OffsetCommitPartitionResult (otr_Partitions x).

Definition read_OffsetCommitTopicResult : reader (option OffsetCommitTopicResult) := read_nested mkOffsetCommitTopicResult read_OffsetCommitPartitionResult.

Record OffsetCommitResponse := mkOffsetCommitResponse {
  ocs_Topics : list OffsetCommitTopicResult
}.

Definition OffsetCommitResponse_encodePayload (p : OffsetCommitResponse) : writer :=
  write_list write_OffsetCommitTopicResult (ocs_Topics p).

Definition OffsetCommitResponse_decodePayload : reader OffsetCommitResponse :=
  Topics ← read_list read_OffsetCommitTopicResult;
  mret (mkOffsetCommitResponse Topics).

#[export] Instance OffsetCommitResponse_payload : Payload OffsetCommitResponse := {|
  encodePayload := OffsetCommitResponse_encodePayload;
  decodePayload := OffsetCommitResponse_decodePayload;
  typed p := Forall typed_OffsetCommitTopicResult (ocs_Topics p)
|}.

(** The first non-zero error code, 0 ([ErrNone]) if there is none. *)
Definition OffsetCommit_FirstError (topics : list OffsetCommitTopicResult) : Z :=
  default 0 (head (filter (fun c => c <> 0) (map opr_ErrorCode (topics ≫= otr_Partitions)))).

Record OffsetFetchTopic := mkOffsetFetchTopic {
  oft_Topic : bytes;
  oft_Partitions : list Z
}.

Definition typed_OffsetFetchTopic (x : OffsetFetchTopic) : Prop := Forall in_i32 (oft_Partitions x).

Definition write_OffsetFetchTopic (x : OffsetFetchTopic) : writer :=
  writeString (oft_Topic x) ;;
  write_list writeInt32 (oft_Partitions x).

Definition read_OffsetFetchTopic : reader (option OffsetFetchTopic) := read_nested mkOffsetFetchTopic (read_some readInt32).

Record OffsetFetchRequest := mkOffsetFetchRequest {
  ofr_GroupID : bytes;
  ofr_Topics : list OffsetFetchTopic
}.

Definition OffsetFetchRequest_encodePayload (p : OffsetFetchRequest) : writer :=
  writeString (ofr_GroupID p) ;;
  write_list write_OffsetFetchTopic (ofr_Topics p).

Definition OffsetFetchRequest_decodePayload : reader OffsetFetchRequest :=
  GroupID ← readString;
  Topics ← read_list read_OffsetFetchTopic;
  mret (mkOffsetFetchRequest GroupID Topics).

#[export] Instance OffsetFetchRequest_payload : Payload OffsetFetchRequest := {|
  encodePayload := OffsetFetchRequest_encodePayload;
  decodePayload := OffsetFetchRequest_decodePayload;
  typed p := Forall typed_OffsetFetchTopic (ofr_Topics p)
|}.

Record OffsetFetchPartition := mkOffsetFetchPartition {
  ofp_Partition : Z;
  ofp_Offset : Z;
  ofp_Metadata : bytes;
  ofp_ErrorCode : Z
}.

Definition typed_OffsetFetchPartition (x : OffsetFetchPartition) : Prop := in_i32 (ofp_Partition x) /\ in_i64 (ofp_Offset x) /\ in_u16 (ofp_ErrorCode x).

Definition write_OffsetFetchPartition (x : OffsetFetchPartition) : writer :=
  writeInt32 (ofp_Partition x) ;;
  writeInt64 (ofp_Offset x) ;;
  writeString (ofp_Metadata x) ;;
  writeErrorCode (ofp_ErrorCode x).

Definition read_OffsetFetchPartition : reader (option OffsetFetchPartition) :=
  Partition ← readInt32;
  Offset ← readInt64;
  Metadata ← readString;
  ErrorCode ← readErrorCode;
  mret (Some (mkOffsetFetchPartition Partition Offset Metadata ErrorCode)).

Record OffsetFetchTopicResult := mkOffsetFetchTopicResult {
  oftr_Topic : bytes;
  oftr_Partitions : list OffsetFetchPartition
}.

Definition typed_OffsetFetchTopicResult (x : OffsetFetchTopicResult) : Prop := Forall typed_OffsetFetchPartition (oftr_Partitions x).

Definition write_OffsetFetchTopicResult (x : OffsetFetchTopicResult) : writer :=
  writeString (oftr_Topic x) ;;
  write_list write_OffsetFetchPartition (oftr_Partitions x).

Definition read_OffsetFetchTopicResult : reader (option OffsetFetchTopicResult) := read_nested mkOffsetFetchTopicResult read_OffsetFetchPartition.

Record OffsetFetchResponse := mkOffsetFetchResponse {
  ofs_Topics : list OffsetFetchTopicResult
}.

Definition OffsetFetchResponse_encodePayload (p : OffsetFetchResponse) : writer :=
  write_list write_OffsetFetchTopicResult (ofs_Topics p).

Definition OffsetFetchResponse_decodePayload : reader OffsetFetchResponse :=
  Topics ← read_list read_OffsetFetchTopicResult;
  mret (mkOffsetFetchResponse Topics).

#[export] Instance OffsetFetchResponse_payload : Payload OffsetFetchResponse := {|
  encodePayload := OffsetFetchResponse_encodePayload;
  decodePayload := OffsetFetchResponse_decodePayload;
  typed p := Forall typed_OffsetFetchTopicResult (ofs_Topics p)
|}.

(** ** Transactions (transaction.go) *)

Record InitProducerIDRequest := mkInitProducerIDRequest {
  ipr_TransactionID : bytes;
  ipr_TransactionTimeoutMs : Z
}.

Definition InitProducerIDRequest_encodePayload (p : InitProducerIDRequest) : writer :=
  writeString (ipr_TransactionID p) ;;
  writeInt32 (ipr_TransactionTimeoutMs p).

Definition InitProducerIDRequest_decodePayload : reader InitProducerIDRequest :=
  TransactionID ← readString;
  TransactionTimeoutMs ← readInt32;
  mret (mkInitProducerIDRequest TransactionID TransactionTimeoutMs).

#[export] Instance InitProducerIDRequest_payload : Payload InitProducerIDRequest := {|
  encodePayload := InitProducerIDRequest_encodePayload;
  decodePayload := InitProducerIDRequest_decodePayload;
  typed p := in_i32 (ipr_TransactionTimeoutMs p)
|}.

Record InitProducerIDResponse := mkInitProducerIDResponse {
  ips_ProducerID : Z;
  ips_ProducerEpoch : Z;
  ips_ErrorCode : Z
}.

Definition InitProducerIDResponse_encodePayload (p : InitProducerIDResponse) : writer :=
  writeInt64 (ips_ProducerID p) ;;
  writeInt16 (ips_ProducerEpoch p) ;;
  writeErrorCode (ips_ErrorCode p).

Definition InitProducerIDResponse_decodePayload : reader InitProducerIDResponse :=
  ProducerID ← readInt64;
  ProducerEpoch ← readInt16;
  ErrorCode ← readErrorCode;
  mret (mkInitProducerIDResponse ProducerID ProducerEpoch ErrorCode).

#[export] Instance InitProducerIDResponse_payload : Payload InitProducerIDResponse := {|
  encodePayload := InitProducerIDResponse_encodePayload;
  decodePayload := InitProducerIDResponse_decodePayload;
  typed p := in_i64 (ips_ProducerID p) /\ in_i16 (ips_ProducerEpoch p) /\ in_u16 (ips_ErrorCode p)
|}.

Record TxnPartition := mkTxnPartition {
  tp_Topic : bytes;
  tp_Partition : Z
}.

Definition typed_TxnPartition (x : TxnPartition) : Prop := in_i32 (tp_Partition x).

Definition write_TxnPartition (x : TxnPartition) : writer :=
  writeString (tp_Topic x) ;;
  writeInt32 (tp_Partition x).

Definition read_TxnPartition : reader (option TxnPartition) :=
  Topic ← readString;
  Partition ← readInt32;
  mret (Some (mkTxnPartition Topic Partition)).

Record AddPartitionsToTxnRequest := mkAddPartitionsToTxnRequest {
  apr_TransactionID : bytes;
  apr_ProducerID : Z;
  apr_ProducerEpoch : Z;
  apr_Partitions : list TxnPartition
}.

Definition AddPartitionsToTxnRequest_encodePayload (p : AddPartitionsToTxnRequest) : writer :=
  writeString (apr_TransactionID p) ;;
  writeInt64 (apr_ProducerID p) ;;
  writeInt16 (apr_ProducerEpoch p) ;;
  write_list write_TxnPartition (apr_Partitions p).

Definition AddPartitionsToTxnRequest_decodePayload : reader AddPartitionsToTxnRequest :=
  TransactionID ← readString;
  ProducerID ← readInt64;
  ProducerEpoch ← readInt16;
  Partitions ← read_list read_TxnPartition;
  mret (mkAddPartitionsToTxnRequest TransactionID ProducerID ProducerEpoch Partitions).

#[export] Instance AddPartitionsToTxnRequest_payload : Payload AddPartitionsToTxnRequest := {|
  encodePayload := AddPartitionsToTxnRequest_encodePayload;
  decodePayload := AddPartitionsToTxnRequest_decodePayload;
  typed p := in_i64 (apr_ProducerID p) /\ in_i16 (apr_ProducerEpoch p) /\ Forall typed_TxnPartition (apr_Partitions p)
|}.

Record TxnPartitionResult := mkTxnPartitionResult {
  tpr_Topic : bytes;
  tpr_Partition : Z;
  tpr_ErrorCode : Z
}.

Definition typed_TxnPartitionResult (x : TxnPartitionResult) : Prop := in_i32 (tpr_Partition x) /\ in_u16 (tpr_ErrorCode x).

Definition write_TxnPartitionResult (x : TxnPartitionResult) : writer :=
  writeString (tpr_Topic x) ;;
  writeInt32 (tpr_Partition x) ;;
  writeErrorCode (tpr_ErrorCode x).

Definition read_TxnPartitionResult : reader (option TxnPartitionResult) :=
  Topic ← readString;
  Partition ← readInt32;
  ErrorCode ← readErrorCode;
  mret (Some (mkTxnPartitionResult Topic Partition ErrorCode)).

Record AddPartitionsToTxnResponse := mkAddPartitionsToTxnResponse {
  aps_Results : list TxnPartitionResult
}.

Definition AddPartitionsToTxnResponse_encodePayload (p : AddPartitionsToTxnResponse) : writer :=
  write_list write_TxnPartitionResult (aps_Results p).

Definition AddPartitionsToTxnResponse_decodePayload : reader AddPartitionsToTxnResponse :=
  Results ← read_list read_TxnPartitionResult;
  mret (mkAddPartitionsToTxnResponse Results).

#[export] Instance AddPartitionsToTxnResponse_payload : Payload AddPartitionsToTxnResponse := {|
  encodePayload := AddPartitionsToTxnResponse_encodePayload;
  decodePayload := AddPartitionsToTxnResponse_decodePayload;
  typed p := Forall typed_TxnPartitionResult (aps_Results p)
|}.

Definition AddPartitions_FirstError (results : list TxnPartitionResult) : Z :=
  default 0 (head (filter (fun c => c <> 0) (map tpr_ErrorCode results))).

Record AddOffsetsToTxnRequest := mkAddOffsetsToTxnRequest {
  aor_TransactionID : bytes;
  aor_ProducerID : Z;
  aor_ProducerEpoch : Z;
  aor_GroupID : bytes
}.

Definition AddOffsetsToTxnRequest_encodePayload (p : AddOffsetsToTxnRequest) : writer :=
  writeString (aor_TransactionID p) ;;
  writeInt64 (aor_ProducerID p) ;;
  writeInt16 (aor_ProducerEpoch p) ;;
  writeString (aor_GroupID p).

Definition AddOffsetsToTxnRequest_decodePayload : reader AddOffsetsToTxnRequest :=
  TransactionID ← readString;
  ProducerID ← readInt64;
  ProducerEpoch ← readInt16;
  GroupID ← readString;
  mret (mkAddOffsetsToTxnRequest TransactionID ProducerID ProducerEpoch GroupID).

#[export] Instance AddOffsetsToTxnRequest_payload : Payload AddOffsetsToTxnRequest := {|
  encodePayload := AddOffsetsToTxnRequest_encodePayload;
  decodePayload := AddOffsetsToTxnRequest_decodePayload;
  typed p := in_i64 (aor_ProducerID p) /\ in_i16 (aor_ProducerEpoch p)
|}.

Record AddOffsetsToTxnResponse := mkAddOffsetsToTxnResponse {
  aos_ErrorCode : Z
}.

Definition AddOffsetsToTxnResponse_encodePayload (p : AddOffsetsToTxnResponse) : writer :=
  writeErrorCode (aos_ErrorCode p).

Definition AddOffsetsToTxnResponse_decodePayload : reader AddOffsetsToTxnResponse :=
  ErrorCode ← readErrorCode;
  mret (mkAddOffsetsToTxnResponse ErrorCode).

#[export] Instance AddOffsetsToTxnResponse_payload : Payload AddOffsetsToTxnResponse := {|
  encodePayload := AddOffsetsToTxnResponse_encodePayload;
  decodePayload := AddOffsetsToTxnResponse_decodePayload;
  typed p := in_u16 (aos_ErrorCode p)
|}.

Record TxnOffsetCommitRequest := mkTxnOffsetCommitRequest {
  tor_TransactionID : bytes;
  tor_GroupID : bytes;
  tor_ProducerID : Z;
  tor_ProducerEpoch : Z;
  tor_Topics : list OffsetCommitTopic
}.

Definition TxnOffsetCommitRequest_encodePayload (p : TxnOffsetCommitRequest) : writer :=
  writeString (tor_TransactionID p) ;;
  writeString (tor_GroupID p) ;;
  writeInt64 (tor_ProducerID p) ;;
  writeInt16 (tor_ProducerEpoch p) ;;
  write_list write_OffsetCommitTopic (tor_Topics p).

Definition TxnOffsetCommitRequest_decodePayload : reader TxnOffsetCommitRequest :=
  TransactionID ← readString;
  GroupID ← readString;
  ProducerID ← readInt64;
  ProducerEpoch ← readInt16;
  Topics ← read_list read_OffsetCommitTopic;
  mret (mkTxnOffsetCommitRequest TransactionID GroupID ProducerID ProducerEpoch Topics).

#[export] Instance TxnOffsetCommitRequest_payload : Payload TxnOffsetCommitRequest := {|
  encodePayload := TxnOffsetCommitRequest_encodePayload;
  decodePayload := TxnOffsetCommitRequest_decodePayload;
  typed p := in_i64 (tor_ProducerID p) /\ in_i16 (tor_ProducerEpoch p) /\ Forall typed_OffsetCommitTopic (tor_Topics p)
|}.

Record TxnOffsetCommitResponse := mkTxnOffsetCommitResponse {
  tos_Topics : list OffsetCommitTopicResult
}.

Definition TxnOffsetCommitResponse_encodePayload (p : TxnOffsetCommitResponse) : writer :=
  OffsetCommitResponse_encodePayload (mkOffsetCommitResponse (tos_Topics p)).

Definition TxnOffsetCommitResponse_decodePayload : reader TxnOffsetCommitResponse :=
  inner ← OffsetCommitResponse_decodePayload;
  mret (mkTxnOffsetCommitResponse (ocs_Topics inner)).

#[export] Instance TxnOffsetCommitResponse_payload : Payload TxnOffsetCommitResponse := {|
  encodePayload := TxnOffsetCommitResponse_encodePayload;
  decodePayload := TxnOffsetCommitResponse_decodePayload;
  typed p := Forall typed_OffsetCommitTopicResult (tos_Topics p)
|}.

Record EndTxnRequest := mkEndTxnRequest {
  etr_TransactionID : bytes;
  etr_ProducerID : Z;
  etr_ProducerEpoch : Z;
  etr_Commit : bool
}.

Definition EndTxnRequest_encodePayload (p : EndTxnRequest) : writer :=
  writeString (etr_TransactionID p) ;;
  writeInt64 (etr_ProducerID p) ;;
  writeInt16 (etr_ProducerEpoch p) ;;
  writeBool (etr_Commit p).

Definition EndTxnRequest_decodePayload : reader EndTxnRequest :=
  TransactionID ← readString;
  ProducerID ← readInt64;
  ProducerEpoch ← readInt16;
  Commit ← readBool;
  mret (mkEndTxnRequest TransactionID ProducerID ProducerEpoch Commit).

#[export] Instance EndTxnRequest_payload : Payload EndTxnRequest := {|
  encodePayload := EndTxnRequest_encodePayload;
  decodePayload := EndTxnRequest_decodePayload;
  typed p := in_i64 (etr_ProducerID p) /\ in_i16 (etr_ProducerEpoch p)
|}.

Record EndTxnResponse := mkEndTxnResponse {
  ets_ErrorCode : Z
}.

Definition EndTxnResponse_encodePayload (p : EndTxnResponse) : writer :=
  writeErrorCode (ets_ErrorCode p).

Definition EndTxnResponse_decodePayload : reader EndTxnResponse :=
  ErrorCode ← readErrorCode;
  mret (mkEndTxnResponse ErrorCode).

#[export] Instance EndTxnResponse_payload : Payload EndTxnResponse := {|
  encodePayload := EndTxnResponse_encodePayload;
  decodePayload := EndTxnResponse_decodePayload;
  typed p := in_u16 (ets_ErrorCode p)
|}.

(** ** Coordinators (find_coordinator.go) *)

Record FindCoordinatorRequest := mkFindCoordinatorRequest {
  fcr_Key : bytes;
  fcr_KeyType : Z
}.

Definition FindCoordinatorRequest_encodePayload (p : FindCoordinatorRequest) : writer :=
  writeString (fcr_Key p) ;;
  writeInt8 (fcr_KeyType p).

Definition FindCoordinatorRequest_decodePayload : reader FindCoordinatorRequest :=
  Key ← readString;
  KeyType ← readInt8;
  mret (mkFindCoordinatorRequest Key KeyType).

#[export] Instance FindCoordinatorRequest_payload : Payload FindCoordinatorRequest := {|
  encodePayload := FindCoordinatorRequest_encodePayload;
  decodePayload := FindCoordinatorRequest_decodePayload;
  typed p := in_i8 (fcr_KeyType p)
|}.

Record FindCoordinatorResponse := mkFindCoordinatorResponse {
  fcs_ErrorCode : Z;
  fcs_NodeID : Z;
  fcs_Host : bytes;
  fcs_Port : Z
}.

Definition FindCoordinatorResponse_encodePayload (p : FindCoordinatorResponse) : writer :=
  writeErrorCode (fcs_ErrorCode p) ;;
  writeInt32 (fcs_NodeID p) ;;
  writeString (fcs_Host p) ;;
  writeInt32 (fcs_Port p).

Definition FindCoordinatorResponse_decodePayload : reader FindCoordinatorResponse :=
  ErrorCode ← readErrorCode;
  NodeID ← readInt32;
  Host ← readString;
  Port ← readInt32;
  mret (mkFindCoordinatorResponse ErrorCode NodeID Host Port).

#[export] Instance FindCoordinatorResponse_payload : Payload FindCoordinatorResponse := {|
  encodePayload := FindCoordinatorResponse_encodePayload;
  decodePayload := FindCoordinatorResponse_decodePayload;
  typed p := in_u16 (fcs_ErrorCode p) /\ in_i32 (fcs_NodeID p) /\ in_i32 (fcs_Port p)
|}.

(** ** The laws *)

(** An element of a collection. *)
Ltac solve_codec_elt :=
  cbn; intros Hx; destruct_and?; eapply codec_weaken; [codec_fields|simpl; lia].

Ltac solve_typed_elt := yields_fields; intros ? [= <-]; cbn; tauto.

(** A payload. *)
Ltac solve_codec :=
  intros [] Ht; cbn in Ht; destruct_and?; eapply codec_weaken; [codec_fields|simpl; lia].

Ltac solve_typed := yields_fields; cbn; tauto.

Lemma codec_GroupProtocol x : typed_GroupProtocol x -> codec 1 (write_GroupProtocol x) read_GroupProtocol (Some x).
Proof. destruct x. unfold typed_GroupProtocol, write_GroupProtocol, read_GroupProtocol. solve_codec_elt. Qed.

Lemma yields_GroupProtocol : yields (fun x => forall a, x = Some a -> typed_GroupProtocol a) read_GroupProtocol.
Proof. unfold typed_GroupProtocol, read_GroupProtocol. solve_typed_elt. Qed.

#[export] Hint Resolve codec_GroupProtocol yields_GroupProtocol : wire.

Lemma codec_JoinGroupMember x : typed_JoinGroupMember x -> codec 1 (write_JoinGroupMember x) read_JoinGroupMember (Some x).
Proof. destruct x. unfold typed_JoinGroupMember, write_JoinGroupMember, read_JoinGroupMember. solve_codec_elt. Qed.

Lemma yields_JoinGroupMember : yields (fun x => forall a, x = Some a -> typed_JoinGroupMember a) read_JoinGroupMember.
Proof. unfold typed_JoinGroupMember, read_JoinGroupMember. solve_typed_elt. Qed.

#[export] Hint Resolve codec_JoinGroupMember yields_JoinGroupMember : wire.

Lemma codec_SyncGroupAssignment x : typed_SyncGroupAssignment x -> codec 1 (write_SyncGroupAssignment x) read_SyncGroupAssignment (Some x).
Proof. destruct x. unfold typed_SyncGroupAssignment, write_SyncGroupAssignment, read_SyncGroupAssignment. solve_codec_elt. Qed.

Lemma yields_SyncGroupAssignment : yields (fun x => forall a, x = Some a -> typed_SyncGroupAssignment a) read_SyncGroupAssignment.
Proof. unfold typed_SyncGroupAssignment, read_SyncGroupAssignment. solve_typed_elt. Qed.

#[export] Hint Resolve codec_SyncGroupAssignment yields_SyncGroupAssignment : wire.

Lemma codec_OffsetCommitPartition x : typed_OffsetCommitPartition x -> codec 1 (write_OffsetCommitPartition x) read_OffsetCommitPartition (Some x).
Proof. destruct x. unfold typed_OffsetCommitPartition, write_OffsetCommitPartition, read_OffsetCommitPartition. solve_codec_elt. Qed.

Lemma yields_OffsetCommitPartition : yields (fun x => forall a, x = Some a -> typed_OffsetCommitPartition a) read_OffsetCommitPartition.
Proof. unfold typed_OffsetCommitPartition, read_OffsetCommitPartition. solve_typed_elt. Qed.

#[export] Hint Resolve codec_OffsetCommitPartition yields_OffsetCommitPartition : wire.

Lemma codec_OffsetCommitTopic x : typed_OffsetCommitTopic x -> codec 1 (write_OffsetCommitTopic x) read_OffsetCommitTopic (Some x).
Proof. destruct x. intros Hx. eapply codec_nested; eauto with wire. Qed.

Lemma yields_OffsetCommitTopic : yields (fun x => forall a, x = Some a -> typed_OffsetCommitTopic a) read_OffsetCommitTopic.
Proof. eapply yields_nested; eauto with wire. Qed.

#[export] Hint Resolve codec_OffsetCommitTopic yields_OffsetCommitTopic : wire.

Lemma codec_OffsetCommitPartitionResult x : typed_OffsetCommitPartitionResult x -> codec 1 (write_OffsetCommitPartitionResult x) read_OffsetCommitPartitionResult (Some x).
Proof. destruct x. unfold typed_OffsetCommitPartitionResult, write_OffsetCommitPartitionResult, read_OffsetCommitPartitionResult. solve_codec_elt. Qed.

Lemma yields_OffsetCommitPartitionResult : yields (fun x => forall a, x = Some a -> typed_OffsetCommitPartitionResult a) read_OffsetCommitPartitionResult.
Proof. unfold typed_OffsetCommitPartitionResult, read_OffsetCommitPartitionResult. solve_typed_elt. Qed.

#[export] Hint Resolve codec_OffsetCommitPartitionResult yields_OffsetCommitPartitionResult : wire.

Lemma codec_OffsetCommitTopicResult x : typed_OffsetCommitTopicResult x -> codec 1 (write_OffsetCommitTopicResult x) read_OffsetCommitTopicResult (Some x).
Proof. destruct x. intros Hx. eapply codec_nested; eauto with wire. Qed.

Lemma yields_OffsetCommitTopicResult : yields (fun x => forall a, x = Some a -> typed_OffsetCommitTopicResult a) read_OffsetCommitTopicResult.
Proof. eapply yields_nested; eauto with wire. Qed.

#[export] Hint Resolve codec_OffsetCommitTopicResult yields_OffsetCommitTopicResult : wire.

Lemma codec_OffsetFetchTopic x : typed_OffsetFetchTopic x -> codec 1 (write_OffsetFetchTopic x) read_OffsetFetchTopic (Some x).
Proof. destruct x. intros Hx. eapply codec_nested; eauto with wire. Qed.

Lemma yields_OffsetFetchTopic : yields (fun x => forall a, x = Some a -> typed_OffsetFetchTopic a) read_OffsetFetchTopic.
Proof. eapply yields_nested; eauto with wire. Qed.

#[export] Hint Resolve codec_OffsetFetchTopic yields_OffsetFetchTopic : wire.

Lemma codec_OffsetFetchPartition x : typed_OffsetFetchPartition x -> codec 1 (write_OffsetFetchPartition x) read_OffsetFetchPartition (Some x).
Proof. destruct x. unfold typed_OffsetFetchPartition, write_OffsetFetchPartition, read_OffsetFetchPartition. solve_codec_elt. Qed.

Lemma yields_OffsetFetchPartition : yields (fun x => forall a, x = Some a -> typed_OffsetFetchPartition a) read_OffsetFetchPartition.
Proof. unfold typed_OffsetFetchPartition, read_OffsetFetchPartition. solve_typed_elt. Qed.

#[export] Hint Resolve codec_OffsetFetchPartition yields_OffsetFetchPartition : wire.

Lemma codec_OffsetFetchTopicResult x : typed_OffsetFetchTopicResult x -> codec 1 (write_OffsetFetchTopicResult x) read_OffsetFetchTopicResult (Some x).
Proof. destruct x. intros Hx. eapply codec_nested; eauto with wire. Qed.

Lemma yields_OffsetFetchTopicResult : yields (fun x => forall a, x = Some a -> typed_OffsetFetchTopicResult a) read_OffsetFetchTopicResult.
Proof. eapply yields_nested; eauto with wire. Qed.

#[export] Hint Resolve codec_OffsetFetchTopicResult yields_OffsetFetchTopicResult : wire.

Lemma codec_TxnPartition x : typed_TxnPartition x -> codec 1 (write_TxnPartition x) read_TxnPartition (Some x).
Proof. destruct x. unfold typed_TxnPartition, write_TxnPartition, read_TxnPartition. solve_codec_elt. Qed.

Lemma yields_TxnPartition : yields (fun x => forall a, x = Some a -> typed_TxnPartition a) read_TxnPartition.
Proof. unfold typed_TxnPartition, read_TxnPartition. solve_typed_elt. Qed.

#[export] Hint Resolve codec_TxnPartition yields_TxnPartition : wire.

Lemma codec_TxnPartitionResult x : typed_TxnPartitionResult x -> codec 1 (write_TxnPartitionResult x) read_TxnPartitionResult (Some x).
Proof. destruct x. unfold typed_TxnPartitionResult, write_TxnPartitionResult, read_TxnPartitionResult. solve_codec_elt. Qed.

Lemma yields_TxnPartitionResult : yields (fun x => forall a, x = Some a -> typed_TxnPartitionResult a) read_TxnPartitionResult.
Proof. unfold typed_TxnPartitionResult, read_TxnPartitionResult. solve_typed_elt. Qed.

#[export] Hint Resolve codec_TxnPartitionResult yields_TxnPartitionResult : wire.

#[export] Instance JoinGroupRequest_laws : PayloadLaws JoinGroupRequest.
Proof.
  split; cbn; unfold JoinGroupRequest_encodePayload, JoinGroupRequest_decodePayload; [solve_codec|solve_typed].
Qed.

#[export] Instance JoinGroupResponse_laws : PayloadLaws JoinGroupResponse.
Proof.
  split; cbn; unfold JoinGroupResponse_encodePayload, JoinGroupResponse_decodePayload; [solve_codec|solve_typed].
Qed.

#[export] Instance SyncGroupRequest_laws : PayloadLaws SyncGroupRequest.
Proof.
  split; cbn; unfold SyncGroupRequest_encodePayload, SyncGroupRequest_decodePayload; [solve_codec|solve_typed].
Qed.

#[export] Instance SyncGroupResponse_laws : PayloadLaws SyncGroupResponse.
Proof.
  split; cbn; unfold SyncGroupResponse_encodePayload, SyncGroupResponse_decodePayload; [solve_codec|solve_typed].
Qed.

#[export] Instance HeartbeatRequest_laws : PayloadLaws HeartbeatRequest.
Proof.
  split; cbn; unfold HeartbeatRequest_encodePayload, HeartbeatRequest_decodePayload; [solve_codec|solve_typed].
Qed.

#[export] Instance HeartbeatResponse_laws : PayloadLaws HeartbeatResponse.
Proof.
  split; cbn; unfold HeartbeatResponse_encodePayload, HeartbeatResponse_decodePayload; [solve_codec|solve_typed].
Qed.

#[export] Instance LeaveGroupRequest_laws : PayloadLaws LeaveGroupRequest.
Proof.
  split; cbn; unfold LeaveGroupRequest_encodePayload, LeaveGroupRequest_decodePayload; [solve_codec|solve_typed].
Qed.

#[export] Instance LeaveGroupResponse_laws : PayloadLaws LeaveGroupResponse.
Proof.
  split; cbn; unfold LeaveGroupResponse_encodePayload, LeaveGroupResponse_decodePayload; [solve_codec|solve_typed].
Qed.

#[export] Instance OffsetCommitRequest_laws : PayloadLaws OffsetCommitRequest.
Proof.
  split; cbn; unfold OffsetCommitRequest_encodePayload, OffsetCommitRequest_decodePayload; [solve_codec|solve_typed].
Qed.

#[export] Instance OffsetCommitResponse_laws : PayloadLaws OffsetCommitResponse.
Proof.
  split; cbn; unfold OffsetCommitResponse_encodePayload, OffsetCommitResponse_decodePayload; [solve_codec|solve_typed].
Qed.

#[export] Instance OffsetFetchRequest_laws : PayloadLaws OffsetFetchRequest.
Proof.
  split; cbn; unfold OffsetFetchRequest_encodePayload, OffsetFetchRequest_decodePayload; [solve_codec|solve_typed].
Qed.

#[export] Instance OffsetFetchResponse_laws : PayloadLaws OffsetFetchResponse.
Proof.
  split; cbn; unfold OffsetFetchResponse_encodePayload, OffsetFetchResponse_decodePayload; [solve_codec|solve_typed].
Qed.

#[export] Instance InitProducerIDRequest_laws : PayloadLaws InitProducerIDRequest.
Proof.
  split; cbn; unfold InitProducerIDRequest_encodePayload, InitProducerIDRequest_decodePayload; [solve_codec|solve_typed].
Qed.

#[export] Instance InitProducerIDResponse_laws : PayloadLaws InitProducerIDResponse.
Proof.
  split; cbn; unfold InitProducerIDResponse_encodePayload, InitProducerIDResponse_decodePayload; [solve_codec|solve_typed].
Qed.

#[export] Instance AddPartitionsToTxnRequest_laws : PayloadLaws AddPartitionsToTxnRequest.
Proof.
  split; cbn; unfold AddPartitionsToTxnRequest_encodePayload, AddPartitionsToTxnRequest_decodePayload; [solve_codec|solve_typed].
Qed.

#[export] Instance AddPartitionsToTxnResponse_laws : PayloadLaws AddPartitionsToTxnResponse.
Proof.
  split; cbn; unfold AddPartitionsToTxnResponse_encodePayload, AddPartitionsToTxnResponse_decodePayload; [solve_codec|solve_typed].
Qed.

#[export] Instance AddOffsetsToTxnRequest_laws : PayloadLaws AddOffsetsToTxnRequest.
Proof.
  split; cbn; unfold AddOffsetsToTxnRequest_encodePayload, AddOffsetsToTxnRequest_decodePayload; [solve_codec|solve_typed].
Qed.

#[export] Instance AddOffsetsToTxnResponse_laws : PayloadLaws AddOffsetsToTxnResponse.
Proof.
  split; cbn; unfold AddOffsetsToTxnResponse_encodePayload, AddOffsetsToTxnResponse_decodePayload; [solve_codec|solve_typed].
Qed.

#[export] Instance TxnOffsetCommitRequest_laws : PayloadLaws TxnOffsetCommitRequest.
Proof.
  split; cbn; unfold TxnOffsetCommitRequest_encodePayload, TxnOffsetCommitRequest_decodePayload; [solve_codec|solve_typed].
Qed.

#[export] Instance EndTxnRequest_laws : PayloadLaws EndTxnRequest.
Proof.
  split; cbn; unfold EndTxnRequest_encodePayload, EndTxnRequest_decodePayload; [solve_codec|solve_typed].
Qed.

#[export] Instance EndTxnResponse_laws : PayloadLaws EndTxnResponse.
Proof.
  split; cbn; unfold EndTxnResponse_encodePayload, EndTxnResponse_decodePayload; [solve_codec|solve_typed].
Qed.

#[export] Instance FindCoordinatorRequest_laws : PayloadLaws FindCoordinatorRequest.
Proof.
  split; cbn; unfold FindCoordinatorRequest_encodePayload, FindCoordinatorRequest_decodePayload; [solve_codec|solve_typed].
Qed.

#[export] Instance FindCoordinatorResponse_laws : PayloadLaws FindCoordinatorResponse.
Proof.
  split; cbn; unfold FindCoordinatorResponse_encodePayload, FindCoordinatorResponse_decodePayload; [solve_codec|solve_typed].
Qed.

#[export] Instance TxnOffsetCommitResponse_laws : PayloadLaws TxnOffsetCommitResponse.
Proof.
  split; cbn; unfold TxnOffsetCommitResponse_encodePayload, TxnOffsetCommitResponse_decodePayload.
  - intros [topics] Ht.
    apply (codec_last 0 _ _ (fun inner => mkTxnOffsetCommitResponse (ocs_Topics inner)) (mkOffsetCommitResponse topics)).
    exact (payload_codec (P := OffsetCommitResponse) (mkOffsetCommitResponse topics) Ht).
  - pose proof (payload_typed (P := OffsetCommitResponse)) as Hy.
    eapply yields_bind; [exact Hy|]. intros [topics] Ht. by apply yields_ret.
Qed.

(** ** Subscriptions and assignments *)

Definition coordinationVersion : Z := 1.

(** Decoding a whole buffer; [Err tt] is [ErrMalformedPayload]. *)
Definition run_reader {A} (d : reader A) (data : bytes) : result unit A :=
  let '(a, r) := d (newReader data) in if r_err r then Err tt else Ok a.

(** Measure, allocate, write. *)
Definition encode_blob (e : writer) : option bytes :=
  sizer ← e newSizer;
  w ← e (newWriter (replicate (Z.to_nat (w_pos sizer)) x00) 0);
  w_buf w.

Record Subscription := mkSubscription { sub_Topics : list bytes; sub_UserData : option bytes }.

Definition writeSubscription (sub : Subscription) : writer :=
  writeInt16 coordinationVersion ;;
  writeArrayLen (zlen (sub_Topics sub)) ;;
  for_each writeString (sub_Topics sub) ;;
  writeBytes (sub_UserData sub).

Definition EncodeSubscription (sub : Subscription) : option bytes := encode_blob (writeSubscription sub).

Definition readSubscription : reader Subscription :=
  _version ← readInt16;
  count ← readCount;
  unless_err (mkSubscription [] None)
    (topics ← loop (Z.to_nat count) (read_some readString);
     userData ← readBytes;
     mret (mkSubscription topics userData)).

Definition DecodeSubscription (data : bytes) : result unit Subscription := run_reader readSubscription data.

Record MemberAssignment := mkMemberAssignment {
  ma_Partitions : gmap bytes (list Z);
  ma_UserData : option bytes
}.

Definition write_assigned (m : gmap bytes (list Z)) (topic : bytes) : writer :=
  writeString topic ;; write_list writeInt32 (default [] (m !! topic)).

Definition writeMemberAssignment (a : MemberAssignment) : writer :=
  writeInt16 coordinationVersion ;;
  writeArrayLen (Z.of_nat (size (ma_Partitions a))) ;;
  for_each (write_assigned (ma_Partitions a)) (sortedKeys (ma_Partitions a)) ;;
  writeBytes (ma_UserData a).

Definition EncodeMemberAssignment (a : MemberAssignment) : option bytes := encode_blob (writeMemberAssignment a).

(** [assignment.Partitions[topic] = partitions] for each topic read. *)
Definition assign_all (l : list (bytes * list Z)) : gmap bytes (list Z) :=
  fold_left (fun m '(topic, partitions) => <[topic := partitions]> m) l ∅.

Definition readMemberAssignment : reader MemberAssignment :=
  _version ← readInt16;
  topicCount ← readCount;
  unless_err (mkMemberAssignment ∅ None)
    (topics ← loop (Z.to_nat topicCount) (read_nested pair (read_some readInt32));
     userData ← readBytes;
     mret (mkMemberAssignment (assign_all topics) userData)).

Definition DecodeMemberAssignment (data : bytes) : result unit MemberAssignment :=
  run_reader readMemberAssignment data.

(** A collection with more after it. *)
Lemma codec_collection_then {A B} lo (e : A -> writer) (d : reader (option A)) xs f (k : Z -> reader B) (k' : list A -> reader B) b :
  (forall x, x ∈ xs -> codec 1 (e x) d (Some x)) -> codec lo f (k' xs) b ->
  (forall bs, reads (loop (length xs) d ≫= k') bs b -> reads (k (zlen xs)) bs b) ->
  codec 4 (writeArrayLen (zlen xs) ;; for_each e xs ;; f) (readCount ≫= k) b.
Proof.
  intros Hx (fs & _ & Hf & Hrf) Hk. destruct (codec_elements e d xs Hx) as (cs & Hlo & Hw & Hr).
  destruct (writes_len_any (zlen xs)) as (ls & Hls & Hwl).
  destruct (decide (zlen xs <= maxArrayLen)).
  - exists (be_enc 4 (wrapu 32 (zlen xs)) ++ cs ++ fs). rewrite !length_app, be_enc_length. split; [lia|].
    split; [apply writes_then; [apply writes_len; lia|by apply writes_then]|].
    intros Hmax. apply reads_counted; [lia|rewrite length_app; lia|].
    apply Hk. eapply reads_bind; [apply Hr|apply Hrf]; lia.
  - exists (ls ++ cs ++ fs). rewrite !length_app. split; [lia|]. split; [by repeat apply writes_then|].
    unfold maxArrayLen in *. lia.
Qed.

Lemma encode_blob_spec {A} lo e (d : reader A) v :
  codec lo e d v ->
  exists bs, encode_blob e = Some bs /\ (zlen bs <= MaxMessageSize -> run_reader d bs = Ok v).
Proof.
  intros (bs & _ & Hw & Hr). exists bs. unfold encode_blob, newSizer, newWriter.
  rewrite (writes_measure _ _ Hw). cbn [mbind option_bind w_pos]. rewrite Z.add_0_l, Nat2Z.id.
  pose proof (writes_fill _ _ Hw [] (replicate (length bs) x00)) as Hf. cbn [app length] in Hf. change (Z.of_nat 0) with 0 in Hf.
  rewrite Hf by (by rewrite length_replicate). simpl.
  rewrite drop_ge, app_nil_r by (by rewrite length_replicate). split; [done|].
  intros Hmax. unfold run_reader, newReader. specialize (Hr Hmax [] []). cbn [app length] in Hr. change (Z.of_nat 0) with 0 in Hr.
  rewrite app_nil_r in Hr. by rewrite Hr.
Qed.

Lemma subscription_codec sub : codec 0 (writeSubscription sub) readSubscription sub.
Proof.
  destruct sub as [topics ud]. eapply codec_weaken; [|apply le_0_n].
  eapply codec_then; [apply codec_int16; unfold in_i16, coordinationVersion; lia|]. simpl.
  eapply (codec_collection_then _ _ (read_some readString) topics _ _
            (fun topics => userData ← readBytes; mret (mkSubscription topics userData))).
  - intros t _. eapply codec_weaken; [apply codec_some, codec_string|lia].
  - apply (codec_last 4 _ _ (fun u => mkSubscription topics u) ud). apply codec_bytes.
  - intros bs Hr. rewrite Nat2Z.id. by apply reads_unless.
Qed.

(** The keys of a map in order, each once. *)
Lemma sortedKeys_perm {V} (m : gmap bytes V) : sortedKeys m ≡ₚ (map_to_list m).*1.
Proof. apply merge_sort_Permutation. Qed.

Lemma sortedKeys_length {V} (m : gmap bytes V) : length (sortedKeys m) = size m.
Proof. by rewrite sortedKeys_perm, length_fmap, length_map_to_list. Qed.

Lemma assign_all_spec (m : gmap bytes (list Z)) ks m0 :
  NoDup ks -> (forall k, m0 !! k = if bool_decide (k ∈ ks) then None else m !! k) ->
  (forall k, k ∈ ks -> is_Some (m !! k)) ->
  fold_left (fun m '(topic, partitions) => <[topic := partitions]> m)
    (map (fun k => (k, default [] (m !! k))) ks) m0 = m.
Proof.
  revert m0. induction ks as [|k ks IH]; intros m0 Hnd Hm0 Hk; simpl.
  { apply map_eq. intros k. rewrite Hm0. by rewrite bool_decide_false by set_solver. }
  apply NoDup_cons in Hnd as [Hn Hnd].
  apply IH; [done| |intros j Hj; apply Hk; by right].
  intros j. destruct (decide (j = k)) as [->|Hne].
  - rewrite lookup_insert, bool_decide_false by done.
    destruct (Hk k) as [v Hv]; [left|]. rewrite decide_True by done. by rewrite Hv.
  - rewrite lookup_insert_ne, Hm0 by done. case_bool_decide as H1; case_bool_decide as H2; try done; set_solver.
Qed.

Lemma member_assignment_codec a :
  map_Forall (fun _ => Forall in_i32) (ma_Partitions a) ->
  codec 0 (writeMemberAssignment a) readMemberAssignment a.
Proof.
  destruct a as [m ud]. simpl. intros Hm. eapply codec_weaken; [|apply le_0_n].
  eapply codec_then; [apply codec_int16; unfold in_i16, coordinationVersion; lia|]. simpl.
  set (xs := map (fun k => (k, default [] (m !! k))) (sortedKeys m)).
  assert (Z.of_nat (size m) = zlen xs) as -> by (unfold xs; rewrite length_map, sortedKeys_length; done).
  assert (for_each (write_assigned m) (sortedKeys m)
          = for_each (fun x => writeString x.1 ;; write_list writeInt32 x.2) xs) as ->.
  { unfold xs. generalize (sortedKeys m) as ks. induction ks as [|k ks IH]; simpl; [done|]. by rewrite IH. }
  assert (assign_all xs = m) as Hxs.
  { apply assign_all_spec.
    - rewrite sortedKeys_perm. apply NoDup_fst_map_to_list.
    - intros k. rewrite lookup_empty. case_bool_decide as Hin; [done|]. symmetry. apply eq_None_not_Some.
      intros [v Hv]. apply Hin. rewrite sortedKeys_perm. apply list_elem_of_fmap. exists (k, v).
      split; [done|]. by apply elem_of_map_to_list.
    - intros k. rewrite sortedKeys_perm, list_elem_of_fmap. intros ([k' v] & -> & Hv).
      apply elem_of_map_to_list in Hv. by exists v. }
  eapply (codec_collection_then _ _ (read_nested pair (read_some readInt32)) xs _ _
            (fun topics => userData ← readBytes; mret (mkMemberAssignment (assign_all topics) userData))).
  - intros [t l] Hx. apply (codec_nested in_i32); [apply codec_elt_int32|].
    apply list_elem_of_fmap in Hx as (k & [= -> ->] & _).
    destruct (m !! k) as [l'|] eqn:E; simpl; [|constructor]. by apply (Hm k).
  - rewrite Hxs. apply (codec_last 4 _ _ (fun u => mkMemberAssignment m u) ud). apply codec_bytes.
  - intros bs Hr. cbn beta. rewrite Nat2Z.id. by apply reads_unless.
Qed.

(** The two blobs that consumer groups exchange are read back as they were written:
    the topics a member subscribes to and the partitions it is assigned, with absent and
    empty user data told apart; encoding never panics, and an encoding is refused by the
    decoder only if it is larger than a message may be. *)
Theorem blob_roundtrip (sub : Subscription) (a : MemberAssignment) :
  map_Forall (fun _ => Forall in_i32) (ma_Partitions a) ->
  (exists bs, EncodeSubscription sub = Some bs
              /\ (zlen bs <= MaxMessageSize -> DecodeSubscription bs = Ok sub))
  /\ (exists bs, EncodeMemberAssignment a = Some bs
                 /\ (zlen bs <= MaxMessageSize -> DecodeMemberAssignment bs = Ok a)).
Proof.
  intros Ha. split.
  - eapply encode_blob_spec, subscription_codec.
  - eapply encode_blob_spec, member_assignment_codec, Ha.
Qed.

Lemma blob_roundtrip_witness :
  exists bs, EncodeMemberAssignment (mkMemberAssignment {[ [x74] := [0; 2] ]} None) = Some bs
             /\ DecodeMemberAssignment bs = Ok (mkMemberAssignment {[ [x74] := [0; 2] ]} None).
Proof.
  destruct (blob_roundtrip (mkSubscription [] None) (mkMemberAssignment {[ [x74] := [0; 2] ]} None)) as [_ (bs & Hbs & Hd)].
  - apply map_Forall_singleton. repeat constructor; unfold in_i32; lia.
  - exists bs. split; [exact Hbs|]. apply Hd. vm_compute in Hbs. injection Hbs as <-. vm_compute. discriminate.
Defined.

(** ** Dispatch (codec_coordination.go) *)

Definition RequestTypeJoinGroup : Z := 0x08.
Definition RequestTypeSyncGroup : Z := 0x09.
Definition RequestTypeHeartbeat : Z := 0x0A.
Definition RequestTypeLeaveGroup : Z := 0x0B.
Definition RequestTypeOffsetCommit : Z := 0x0C.
Definition RequestTypeOffsetFetch : Z := 0x0D.
Definition RequestTypeInitProducerID : Z := 0x0E.
Definition RequestTypeAddPartitionsToTxn : Z := 0x0F.
Definition RequestTypeAddOffsetsToTxn : Z := 0x10.
Definition RequestTypeEndTxn : Z := 0x11.
Definition RequestTypeTxnOffsetCommit : Z := 0x12.
Definition RequestTypeFindCoordinator : Z := 0x13.

(** The payloads that implement [payloadEncoder]. *)
Inductive coordPayload :=
| PJoinGroupRequest (p : JoinGroupRequest) | PJoinGroupResponse (p : JoinGroupResponse)
| PSyncGroupRequest (p : SyncGroupRequest) | PSyncGroupResponse (p : SyncGroupResponse)
| PHeartbeatRequest (p : HeartbeatRequest) | PHeartbeatResponse (p : HeartbeatResponse)
| PLeaveGroupRequest (p : LeaveGroupRequest) | PLeaveGroupResponse (p : LeaveGroupResponse)
| POffsetCommitRequest (p : OffsetCommitRequest) | POffsetCommitResponse (p : OffsetCommitResponse)
| POffsetFetchRequest (p : OffsetFetchRequest) | POffsetFetchResponse (p : OffsetFetchResponse)
| PInitProducerIDRequest (p : InitProducerIDRequest) | PInitProducerIDResponse (p : InitProducerIDResponse)
| PAddPartitionsToTxnRequest (p : AddPartitionsToTxnRequest) | PAddPartitionsToTxnResponse (p : AddPartitionsToTxnResponse)
| PAddOffsetsToTxnRequest (p : AddOffsetsToTxnRequest) | PAddOffsetsToTxnResponse (p : AddOffsetsToTxnResponse)
| PEndTxnRequest (p : EndTxnRequest) | PEndTxnResponse (p : EndTxnResponse)
| PTxnOffsetCommitRequest (p : TxnOffsetCommitRequest) | PTxnOffsetCommitResponse (p : TxnOffsetCommitResponse)
| PFindCoordinatorRequest (p : FindCoordinatorRequest) | PFindCoordinatorResponse (p : FindCoordinatorResponse).

(** A value of one of the payload types, as an interface. *)
Inductive some_payload := SomePayload (P : Type) (PI : Payload P) (PL : PayloadLaws P) (p : P).

Definition as_payload (p : coordPayload) : some_payload :=
  match p with
  | PJoinGroupRequest p => SomePayload _ _ _ p | PJoinGroupResponse p => SomePayload _ _ _ p
  | PSyncGroupRequest p => SomePayload _ _ _ p | PSyncGroupResponse p => SomePayload _ _ _ p
  | PHeartbeatRequest p => SomePayload _ _ _ p | PHeartbeatResponse p => SomePayload _ _ _ p
  | PLeaveGroupRequest p => SomePayload _ _ _ p | PLeaveGroupResponse p => SomePayload _ _ _ p
  | POffsetCommitRequest p => SomePayload _ _ _ p | POffsetCommitResponse p => SomePayload _ _ _ p
  | POffsetFetchRequest p => SomePayload _ _ _ p | POffsetFetchResponse p => SomePayload _ _ _ p
  | PInitProducerIDRequest p => SomePayload _ _ _ p | PInitProducerIDResponse p => SomePayload _ _ _ p
  | PAddPartitionsToTxnRequest p => SomePayload _ _ _ p | PAddPartitionsToTxnResponse p => SomePayload _ _ _ p
  | PAddOffsetsToTxnRequest p => SomePayload _ _ _ p | PAddOffsetsToTxnResponse p => SomePayload _ _ _ p
  | PEndTxnRequest p => SomePayload _ _ _ p | PEndTxnResponse p => SomePayload _ _ _ p
  | PTxnOffsetCommitRequest p => SomePayload _ _ _ p | PTxnOffsetCommitResponse p => SomePayload _ _ _ p
  | PFindCoordinatorRequest p => SomePayload _ _ _ p | PFindCoordinatorResponse p => SomePayload _ _ _ p
  end.

Definition encode_any (p : coordPayload) : writer :=
  match as_payload p with SomePayload P PI _ p => encodePayload p end.

Definition typed_any (p : coordPayload) : Prop :=
  match as_payload p with SomePayload P PI _ p => typed p end.

(** The decoder of an empty payload of a type. *)
Definition decode_as {P} `{Payload P} (mk : P -> coordPayload) : reader coordPayload :=
  p ← decodePayload; mret (mk p).

(** A [switch] on a request type. *)
Fixpoint switch {A} (cases : list (Z * A)) (t : Z) : option A :=
  match cases with
  | [] => None
  | (t', a) :: cases => if t =? t' then Some a else switch cases t
  end.

Definition newCoordinationRequest : Z -> option (reader coordPayload) := switch
  [ (RequestTypeJoinGroup, decode_as PJoinGroupRequest);
    (RequestTypeSyncGroup, decode_as PSyncGroupRequest);
    (RequestTypeHeartbeat, decode_as PHeartbeatRequest);
    (RequestTypeLeaveGroup, decode_as PLeaveGroupRequest);
    (RequestTypeOffsetCommit, decode_as POffsetCommitRequest);
    (RequestTypeOffsetFetch, decode_as POffsetFetchRequest);
    (RequestTypeInitProducerID, decode_as PInitProducerIDRequest);
    (RequestTypeAddPartitionsToTxn, decode_as PAddPartitionsToTxnRequest);
    (RequestTypeAddOffsetsToTxn, decode_as PAddOffsetsToTxnRequest);
    (RequestTypeEndTxn, decode_as PEndTxnRequest);
    (RequestTypeTxnOffsetCommit, decode_as PTxnOffsetCommitRequest);
    (RequestTypeFindCoordinator, decode_as PFindCoordinatorRequest) ].

Definition newCoordinationResponse : Z -> option (reader coordPayload) := switch
  [ (RequestTypeJoinGroup, decode_as PJoinGroupResponse);
    (RequestTypeSyncGroup, decode_as PSyncGroupResponse);
    (RequestTypeHeartbeat, decode_as PHeartbeatResponse);
    (RequestTypeLeaveGroup, decode_as PLeaveGroupResponse);
    (RequestTypeOffsetCommit, decode_as POffsetCommitResponse);
    (RequestTypeOffsetFetch, decode_as POffsetFetchResponse);
    (RequestTypeInitProducerID, decode_as PInitProducerIDResponse);
    (RequestTypeAddPartitionsToTxn, decode_as PAddPartitionsToTxnResponse);
    (RequestTypeAddOffsetsToTxn, decode_as PAddOffsetsToTxnResponse);
    (RequestTypeEndTxn, decode_as PEndTxnResponse);
    (RequestTypeTxnOffsetCommit, decode_as PTxnOffsetCommitResponse);
    (RequestTypeFindCoordinator, decode_as PFindCoordinatorResponse) ].

Definition IsCoordinationRequest (reqType : Z) : bool := bool_decide (is_Some (newCoordinationRequest reqType)).

Definition measurePayload (p : coordPayload) : option Z :=
  sizer ← encode_any p newSizer;
  let size := w_pos sizer in
  if (size <? 0) || (MaxMessageSize <? size) then Some 0 else Some size.

(** The buffer and the new offset. *)
Definition encodeSelfDescribing (buf : bytes) (offset : Z) (p : coordPayload) : option (bytes * Z) :=
  w ← encode_any p (newWriter buf offset);
  buf ← w_buf w;
  Some (buf, w_pos w).

(** [Err] is an unknown type or a malformed payload. *)
Definition decodeCoordinationRequest (buf : bytes) (reqType : Z) : result unit coordPayload :=
  match newCoordinationRequest reqType with
  | None => Err tt
  | Some d => run_reader d buf
  end.

Definition decodeCoordinationResponse (buf : bytes) (reqType : Z) : result unit coordPayload :=
  match newCoordinationResponse reqType with
  | None => Err tt
  | Some d => run_reader d buf
  end.

(** ** Requests and responses of a type *)

Definition request_type (p : coordPayload) : option Z :=
  match p with
  | PJoinGroupRequest _ => Some RequestTypeJoinGroup
  | PSyncGroupRequest _ => Some RequestTypeSyncGroup
  | PHeartbeatRequest _ => Some RequestTypeHeartbeat
  | PLeaveGroupRequest _ => Some RequestTypeLeaveGroup
  | POffsetCommitRequest _ => Some RequestTypeOffsetCommit
  | POffsetFetchRequest _ => Some RequestTypeOffsetFetch
  | PInitProducerIDRequest _ => Some RequestTypeInitProducerID
  | PAddPartitionsToTxnRequest _ => Some RequestTypeAddPartitionsToTxn
  | PAddOffsetsToTxnRequest _ => Some RequestTypeAddOffsetsToTxn
  | PEndTxnRequest _ => Some RequestTypeEndTxn
  | PTxnOffsetCommitRequest _ => Some RequestTypeTxnOffsetCommit
  | PFindCoordinatorRequest _ => Some RequestTypeFindCoordinator
  | _ => None
  end.

Definition response_type (p : coordPayload) : option Z :=
  match p with
  | PJoinGroupResponse _ => Some RequestTypeJoinGroup
  | PSyncGroupResponse _ => Some RequestTypeSyncGroup
  | PHeartbeatResponse _ => Some RequestTypeHeartbeat
  | PLeaveGroupResponse _ => Some RequestTypeLeaveGroup
  | POffsetCommitResponse _ => Some RequestTypeOffsetCommit
  | POffsetFetchResponse _ => Some RequestTypeOffsetFetch
  | PInitProducerIDResponse _ => Some RequestTypeInitProducerID
  | PAddPartitionsToTxnResponse _ => Some RequestTypeAddPartitionsToTxn
  | PAddOffsetsToTxnResponse _ => Some RequestTypeAddOffsetsToTxn
  | PEndTxnResponse _ => Some RequestTypeEndTxn
  | PTxnOffsetCommitResponse _ => Some RequestTypeTxnOffsetCommit
  | PFindCoordinatorResponse _ => Some RequestTypeFindCoordinator
  | _ => None
  end.

Lemma decode_as_codec {P} `{PayloadLaws P} (mk : P -> coordPayload) p :
  typed p -> codec 0 (encodePayload p) (decode_as mk) (mk p).
Proof. intros Hp. apply (codec_last 0 _ _ mk). by apply payload_codec. Qed.

Lemma coordination_request_codec t p :
  request_type p = Some t -> typed_any p ->
  exists d, newCoordinationRequest t = Some d /\ codec 0 (encode_any p) d p.
Proof.
  intros Ht Hp. destruct p; simplify_eq/=; eexists; (split; [reflexivity|]); by apply decode_as_codec.
Qed.

Lemma coordination_response_codec t p :
  response_type p = Some t -> typed_any p ->
  exists d, newCoordinationResponse t = Some d /\ codec 0 (encode_any p) d p.
Proof.
  intros Ht Hp. destruct p; simplify_eq/=; eexists; (split; [reflexivity|]); by apply decode_as_codec.
Qed.

Lemma switch_In {A} (cases : list (Z * A)) t a : switch cases t = Some a -> (t, a) ∈ cases.
Proof.
  induction cases as [|[t' a'] cases IH]; simpl; [done|].
  destruct (Z.eqb_spec t t') as [->|_]; [intros [= ->]; left|]. intros Hs. right. auto.
Qed.

Lemma decode_as_yields {P} `{PayloadLaws P} (mk : P -> coordPayload) (Q : coordPayload -> Prop) :
  (forall p, typed p -> Q (mk p)) -> yields Q (decode_as mk).
Proof.
  intros HQ. pose proof (payload_typed (P := P)) as Hy. eapply yields_bind; [exact Hy|].
  intros p Hp. apply yields_ret. by apply HQ.
Qed.

Lemma yields_run {A} (Q : A -> Prop) d buf a : yields Q d -> run_reader d buf = Ok a -> Q a.
Proof.
  intros Hd. unfold run_reader. specialize (Hd (newReader buf)). destruct (d _) as [a' r].
  destruct (r_err r); [done|]. by intros [= <-].
Qed.

(** Go through the cases of a [switch]. *)
Ltac switch_cases Hs :=
  apply switch_In in Hs;
  repeat (apply elem_of_cons in Hs as [Hs|Hs]; [injection Hs as -> ->|]);
  [..|by apply elem_of_nil in Hs].

(** Whatever bytes arrive, every integer of a payload that the decoder accepts, in nested
    collections too, is a value of its Go type. *)
Lemma payload_decode_typed (buf : bytes) (t : Z) (p : coordPayload) :
  (decodeCoordinationRequest buf t = Ok p -> request_type p = Some t /\ typed_any p)
  /\ (decodeCoordinationResponse buf t = Ok p -> response_type p = Some t /\ typed_any p).
Proof.
  unfold decodeCoordinationRequest, decodeCoordinationResponse. split.
  - destruct (newCoordinationRequest t) as [d|] eqn:Hs; [|done].
    apply (yields_run (fun p => request_type p = Some t /\ typed_any p)).
    switch_cases Hs; by apply decode_as_yields.
  - destruct (newCoordinationResponse t) as [d|] eqn:Hs; [|done].
    apply (yields_run (fun p => response_type p = Some t /\ typed_any p)).
    switch_cases Hs; by apply decode_as_yields.
Qed.
