(* ===== verification/Protocol.v ===== *)
(** * Requests, responses and messages of the wire protocol (pkg/protocol)

    The types of types.go, requests.go and responses.go.  Records carry the source's
    fields behind a prefix; [RequestType], [ErrorCode], [StatusCode] and
    [IsolationLevel] are integers with named values, as in the source.  The values
    whose names the storage engine uses too are in the module [Proto]. *)

From S2P Require Import Prelude GoBytes Record Wire Payloads.
From stdpp Require Import prelude list gmap.
From Stdlib Require Import ZArith Lia Strings.Byte.

Open Scope Z_scope.

Definition HeaderSize : Z := 20.

Definition OffsetLatest : Z := -1.
Definition OffsetEarliest : Z := -2.

Definition RequestTypeProduce : Z := 0x01.
Definition RequestTypeFetch : Z := 0x02.
Definition RequestTypeGetOffset : Z := 0x03.
Definition RequestTypeCreateTopic : Z := 0x04.
Definition RequestTypeDeleteTopic : Z := 0x05.
Definition RequestTypeListTopics : Z := 0x06.
Definition RequestTypeHealthCheck : Z := 0x07.

Definition StatusOK : Z := 0.
Definition StatusError : Z := 1.

Definition IsolationReadUncommitted : Z := 0.
Definition IsolationReadCommitted : Z := 1.

Module Proto.
Definition ErrNone : Z := 0.
Definition ErrUnknownRequest : Z := 1.
Definition ErrOffsetOutOfRange : Z := 3.
Definition ErrStorageError : Z := 7.
Definition ErrTopicNotFound : Z := 8.
Definition ErrTopicExists : Z := 9.
Definition ErrChecksumMismatch : Z := 10.
Definition ErrInvalidRequest : Z := 2.
Definition ErrUnknownMemberID : Z := 20.
Definition ErrInvalidSessionTimeout : Z := 21.
Definition ErrRebalanceInProgress : Z := 22.
Definition ErrUnknownConsumerGroupID : Z := 24.
Definition ErrNotCoordinator : Z := 25.
Definition ErrGroupAuthorizationFailed : Z := 27.
Definition ErrIllegalGeneration : Z := 28.
Definition ErrInvalidProducerEpoch : Z := 30.
Definition ErrInvalidTransactionState : Z := 31.
Definition ErrInvalidProducerIDMapping : Z := 32.
Definition ErrTransactionCoordinatorNotAvailable : Z := 33.
Definition ErrTransactionCoordinatorFenced : Z := 34.
Definition ErrProducerFenced : Z := 35.
Definition ErrInvalidTransactionTimeout : Z := 36.
Definition ErrConcurrentTransactions : Z := 37.
Definition ErrTransactionAborted : Z := 38.
Definition ErrInvalidPartitionList : Z := 39.
End Proto.

Record RequestHeader := mkReqHeader { rh_RequestID : Z; rh_Type : Z; rh_Version : Z; rh_Flags : Z }.
Record ResponseHeader := mkRespHeader { sh_RequestID : Z; sh_Status : Z; sh_ErrorCode : Z }.

(** [protocol.Message] *)
Record ProtoMessage := mkProto {
  pm_Offset : Z;
  pm_Key : bytes;
  pm_Value : bytes;
  pm_Headers : gmap bytes bytes;
  pm_Timestamp : Z
}.

(** ** Requests *)

Record ProduceRequest := mkProduceRequest {
  prq_Topic : bytes;
  prq_PartitionID : Z;
  prq_Messages : list ProtoMessage;
  prq_Acks : Z;
  prq_TimeoutMs : Z;
  prq_LeaderEpoch : Z;
  prq_ProducerID : Z;
  prq_ProducerEpoch : Z
}.

Record FetchRequest := mkFetchRequest {
  frq_Topic : bytes;
  frq_PartitionID : Z;
  frq_Offset : Z;
  frq_MaxBytes : Z;
  frq_IsolationLevel : Z
}.

Record GetOffsetRequest := mkGetOffsetRequest {
  grq_Topic : bytes;
  grq_PartitionID : Z;
  grq_Timestamp : Z
}.

Record CreateTopicRequest := mkCreateTopicRequest {
  crq_Topic : bytes;
  crq_NumPartitions : Z;
  crq_ReplicationFactor : Z
}.

(** The dynamic types a request's [Payload] has. *)
Inductive RequestPayload :=
| QProduce (p : ProduceRequest)
| QFetch (p : FetchRequest)
| QGetOffset (p : GetOffsetRequest)
| QCreateTopic (p : CreateTopicRequest)
| QDeleteTopic (topic : bytes)
| QListTopics
| QHealthCheck
| QCoord (p : coordPayload).

Record Request := mkRequest { rq_Header : RequestHeader; rq_Payload : RequestPayload }.

(** ** Responses *)

Record ProduceResponse := mkProduceResponse {
  prs_Topic : bytes;
  prs_PartitionID : Z;
  prs_BaseOffset : Z;
  prs_NumMessages : Z;
  prs_HighWaterMark : Z;
  prs_LeaderEpoch : Z
}.

Record FetchResponse := mkFetchResponse {
  frs_Topic : bytes;
  frs_PartitionID : Z;
  frs_HighWaterMark : Z;
  frs_Messages : list ProtoMessage;
  frs_LastStableOffset : Z;
  frs_NextOffset : Z
}.

Record GetOffsetResponse := mkGetOffsetResponse {
  grs_Topic : bytes;
  grs_PartitionID : Z;
  grs_StartOffset : Z;
  grs_EndOffset : Z;
  grs_HighWaterMark : Z;
  grs_Offset : Z;
  grs_Timestamp : Z;
  grs_LeaderEpoch : Z
}.

Record TopicInfo := mkTopicInfo { ti_Name : bytes; ti_NumPartitions : Z }.

(** [CreateTopicResponse] and [DeleteTopicResponse]: the topic, whether it was created or
    deleted, and an error code. *)
Record TopicResponse := mkTopicResponse { tr_Topic : bytes; tr_Done : bool; tr_ErrorCode : Z }.

Record HealthCheckResponse := mkHealthCheckResponse { hc_Status : bytes; hc_Uptime : Z }.
Record ErrorResponse := mkErrorResponse { er_ErrorCode : Z; er_Message : bytes }.

(** The dynamic types a response's [Payload] has; [SRaw] is the undecoded [[]byte] and
    [SNil] the nil interface. *)
Inductive ResponsePayload :=
| SProduce (p : ProduceResponse)
| SFetch (p : FetchResponse)
| SGetOffset (p : GetOffsetResponse)
| SCreateTopic (p : TopicResponse)
| SDeleteTopic (p : TopicResponse)
| SListTopics (topics : list TopicInfo)
| SHealthCheck (p : HealthCheckResponse)
| SError (p : ErrorResponse)
| SRaw (data spare : bytes)
| SCoord (p : coordPayload)
| SNil.

Record Response := mkResponse { rs_Header : ResponseHeader; rs_Payload : ResponsePayload }.
