(* ===== verification/Codec.v ===== *)
(** * The codec of the wire protocol (pkg/protocol/codec.go)

    Encoding of requests and responses into frames, and decoding.  The codec fills a
    buffer of the size it computed and reads it with plain slice expressions, so an
    operation that would run past a slice panics, which is [None]; an error that is
    returned is [Err].  A slice expression with an end may reach up to the capacity, which
    for a payload includes the checksum behind it.  The order in which Go ranges over a message's headers is a
    parameter that is only assumed to be a permutation. *)

From S2P Require Import Prelude GoBytes Record Wire Payloads Protocol.
From stdpp Require Import prelude list gmap.
From Stdlib Require Import ZArith Lia Strings.Byte.

Open Scope Z_scope.

Inductive codec_error :=
| ErrTooLarge
| ErrUnknownType
| ErrTooShort
| ErrBadChecksum
| ErrShortRead       (* io.EOF or io.ErrUnexpectedEOF *)
| ErrMalformed.

#[export] Instance codec_error_eq_dec : EqDecision codec_error.
Proof. solve_decision. Defined.

(** ** Filling a buffer *)

(** A step of an encoder: the buffer and the offset after it. *)
Definition emitter : Type := bytes -> Z -> option (bytes * Z).

Definition e_skip : emitter := fun buf offset => Some (buf, offset).

Definition e_then (e f : emitter) : emitter := fun buf offset =>
  '(buf, offset) ← e buf offset; f buf offset.

Notation "e +>+ f" := (e_then e f) (at level 60, right associativity).

Fixpoint e_each {A} (e : A -> emitter) (xs : list A) : emitter :=
  match xs with
  | [] => e_skip
  | x :: xs => e x +>+ e_each e xs
  end.

(** [binary.BigEndian.PutUintN(buf[offset:], v); offset += N/8]; for one byte it is
    [buf[offset] = v; offset++]. *)
Definition putUint (n : nat) (v : Z) : emitter := fun buf offset =>
  buf ← put_be n buf offset v; Some (buf, offset + Z.of_nat n).

Definition wireLen (n : Z) : Z := if (n <? 0) || (maxArrayLen <? n) then 0 else n.
Definition putWireLen (n : Z) : emitter := putUint 4 (wireLen n).

(** [copy(buf[offset:], s); offset += len(s)] *)
Definition putCopy (s : bytes) : emitter := fun buf offset =>
  buf ← copy_at buf offset s; Some (buf, offset + zlen s).

Definition putString (s : bytes) : emitter := putWireLen (zlen s) +>+ putCopy s.

(** ** Reading a buffer *)

(** A step of a decoder: what was read from [data] and the offset after it.  [spare] are the bytes
    of the backing array between the length and the capacity of [data]. *)
Definition parser (A : Type) : Type := bytes -> bytes -> Z -> option (A * Z).

#[export] Instance parser_ret : MRet parser := fun A a data spare offset => Some (a, offset).
#[export] Instance parser_bind : MBind parser := fun A B k p data spare offset =>
  match p data spare offset with
  | None => None
  | Some (a, offset) => k a data spare offset
  end.

(** [binary.BigEndian.UintN(data[offset:]); offset += N/8] *)
Definition getUint (n : nat) : parser Z := fun data spare offset =>
  v ← get_be n data offset; Some (v, offset + Z.of_nat n).

Definition getInt (n : nat) : parser Z := v ← getUint n; mret (wraps (8 * Z.of_nat n) v).

(** [data[offset : offset+n]; offset += n].  Go bounds the end by the capacity, so that a length
    may reach into the spare bytes. *)
Definition getSlice (n : Z) : parser bytes := fun data spare offset =>
  s ← slice (data ++ spare) offset (offset + n); Some (s, offset + n).

Definition getString : parser bytes := n ← getUint 4; getSlice n.

(** [if len(data)-offset >= n { ... }], keeping a default otherwise. *)
Definition if_remaining {A} (n : Z) (dflt : A) (p : parser A) : parser A := fun data spare offset =>
  if n <=? zlen data - offset then p data spare offset else Some (dflt, offset).

Fixpoint getMany {A} (n : nat) (p : parser A) : parser (list A) :=
  match n with
  | O => mret []
  | S n' => x ← p; xs ← getMany n' p; mret (x :: xs)
  end.

Section codec.
Context (range_map : gmap bytes bytes -> list (bytes * bytes)).

(** ** Messages *)

Definition Message_Size (m : ProtoMessage) : Z :=
  foldr (fun '(k, v) size => size + (4 + zlen k + 4 + zlen v))
    (8 + 4 + zlen (pm_Key m) + 4 + zlen (pm_Value m) + 8 + 4) (range_map (pm_Headers m)).

Definition encodeHeader (kv : bytes * bytes) : emitter := putString kv.1 +>+ putString kv.2.

Definition encodeField (s : bytes) : emitter :=
  putWireLen (zlen s) +>+ (if 0 <? zlen s then putCopy s else e_skip).

Definition encodeMessage (m : ProtoMessage) : emitter :=
  putUint 8 (wrapu 64 (pm_Offset m)) +>+
  putUint 8 (wrapu 64 (pm_Timestamp m)) +>+
  encodeField (pm_Key m) +>+
  encodeField (pm_Value m) +>+
  putWireLen (Z.of_nat (size (pm_Headers m))) +>+
  e_each encodeHeader (range_map (pm_Headers m)).

Definition decodeField : parser bytes :=
  n ← getUint 4; if 0 <? n then getSlice n else mret [].

Definition decodeHeader : parser (bytes * bytes) := k ← getString; v ← getString; mret (k, v).

Definition set_headers (l : list (bytes * bytes)) : gmap bytes bytes :=
  fold_left (fun m '(k, v) => <[k := v]> m) l ∅.

Definition decodeMessage : parser ProtoMessage :=
  offset ← getInt 8;
  timestamp ← getInt 8;
  key ← decodeField;
  value ← decodeField;
  numHeaders ← getUint 4;
  headers ← getMany (Z.to_nat numHeaders) decodeHeader;
  mret (mkProto offset key value (set_headers headers) timestamp).

(** ** Requests *)

Definition checkedPayloadSize (size : Z) : result codec_error Z :=
  if (size <? 0) || (MaxMessageSize <? size) then Err ErrTooLarge else Ok (wrapu 32 size).

Definition sum_sizes {A} (f : A -> Z) (l : list A) : Z := foldr (fun x n => f x + n) 0 l.

(** The type assertions of the source: the payload where it has the type asserted, else
    the panic. *)
Definition as_Produce (p : RequestPayload) := match p with QProduce p => Some p | _ => None end.
Definition as_Fetch (p : RequestPayload) := match p with QFetch p => Some p | _ => None end.
Definition as_GetOffset (p : RequestPayload) := match p with QGetOffset p => Some p | _ => None end.
Definition as_CreateTopic (p : RequestPayload) := match p with QCreateTopic p => Some p | _ => None end.
Definition as_DeleteTopic (p : RequestPayload) := match p with QDeleteTopic p => Some p | _ => None end.
Definition as_coord (p : RequestPayload) := match p with QCoord p => Some p | _ => None end.

Definition calculateRequestPayloadSize (req : Request) : option (result codec_error Z) :=
  let t := rh_Type (rq_Header req) in
  match as_coord (rq_Payload req), IsCoordinationRequest t with
  | Some p, true => Ok <$> measurePayload p
  | _, _ =>
    if t =? RequestTypeProduce then
      p ← as_Produce (rq_Payload req);
      let size := 4 + zlen (prq_Topic p) + 4 + 4 + sum_sizes Message_Size (prq_Messages p) + 8 + 2 in
      Some (checkedPayloadSize size)
    else if t =? RequestTypeFetch then
      p ← as_Fetch (rq_Payload req);
      Some (checkedPayloadSize (4 + zlen (frq_Topic p) + 4 + 8 + 4 + 1))
    else if t =? RequestTypeGetOffset then
      p ← as_GetOffset (rq_Payload req);
      Some (checkedPayloadSize (4 + zlen (grq_Topic p) + 4))
    else if t =? RequestTypeCreateTopic then
      p ← as_CreateTopic (rq_Payload req);
      Some (checkedPayloadSize (4 + zlen (crq_Topic p) + 4 + 2))
    else if t =? RequestTypeDeleteTopic then
      topic ← as_DeleteTopic (rq_Payload req);
      Some (checkedPayloadSize (4 + zlen topic))
    else if (t =? RequestTypeListTopics) || (t =? RequestTypeHealthCheck) then Some (Ok 0)
    else Some (Err ErrUnknownType)
  end.

Definition encodeProduce (p : ProduceRequest) : emitter :=
  putString (prq_Topic p) +>+
  putUint 4 (prq_PartitionID p) +>+
  putWireLen (zlen (prq_Messages p)) +>+
  e_each encodeMessage (prq_Messages p) +>+
  putUint 8 (wrapu 64 (prq_ProducerID p)) +>+
  putUint 2 (wrapu 16 (prq_ProducerEpoch p)).

Definition encodeFetch (p : FetchRequest) : emitter :=
  putString (frq_Topic p) +>+
  putUint 4 (frq_PartitionID p) +>+
  putUint 8 (wrapu 64 (frq_Offset p)) +>+
  putUint 4 (frq_MaxBytes p) +>+
  putUint 1 (wrapu 8 (frq_IsolationLevel p)).

Definition encodeGetOffset (p : GetOffsetRequest) : emitter :=
  putString (grq_Topic p) +>+ putUint 4 (grq_PartitionID p).

Definition encodeCreateTopic (p : CreateTopicRequest) : emitter :=
  putString (crq_Topic p) +>+ putUint 4 (crq_NumPartitions p) +>+ putUint 2 (crq_ReplicationFactor p).

(** The emitter of the payload; the outer option is a failed type assertion. *)
Definition encodeRequestPayload (req : Request) : option (result codec_error emitter) :=
  let t := rh_Type (rq_Header req) in
  match as_coord (rq_Payload req), IsCoordinationRequest t with
  | Some p, true => Some (Ok (fun buf offset => encodeSelfDescribing buf offset p))
  | _, _ =>
    if t =? RequestTypeProduce then p ← as_Produce (rq_Payload req); Some (Ok (encodeProduce p))
    else if t =? RequestTypeFetch then p ← as_Fetch (rq_Payload req); Some (Ok (encodeFetch p))
    else if t =? RequestTypeGetOffset then p ← as_GetOffset (rq_Payload req); Some (Ok (encodeGetOffset p))
    else if t =? RequestTypeCreateTopic then p ← as_CreateTopic (rq_Payload req); Some (Ok (encodeCreateTopic p))
    else if t =? RequestTypeDeleteTopic then topic ← as_DeleteTopic (rq_Payload req); Some (Ok (putString topic))
    else if (t =? RequestTypeListTopics) || (t =? RequestTypeHealthCheck) then Some (Ok e_skip)
    else Some (Err ErrUnknownType)
  end.

(** The checksum after the payload, and what is written: [buf[:offset]]. *)
Definition sealFrame (buf : bytes) (offset : Z) : option bytes :=
  body ← slice buf 4 offset;
  '(buf, offset) ← putUint 4 (ChecksumIEEE body) buf offset;
  slice buf 0 offset.

Definition EncodeRequest (req : Request) : option (result codec_error bytes) :=
  size ← calculateRequestPayloadSize req;
  match size with
  | Err e => Some (Err e)
  | Ok payloadSize =>
      let totalSize := wrapu 32 (HeaderSize + payloadSize) in
      if MaxMessageSize <? totalSize then Some (Err ErrTooLarge)
      else
        let h := rq_Header req in
        '(buf, offset) ← (putUint 4 (wrapu 32 (totalSize - 4)) +>+
                          putUint 8 (rh_RequestID h) +>+
                          putUint 1 (rh_Type h) +>+
                          putUint 1 (rh_Version h) +>+
                          putUint 2 (rh_Flags h)) (replicate (Z.to_nat totalSize) x00) 0;
        payload ← encodeRequestPayload req;
        match payload with
        | Err e => Some (Err e)
        | Ok e =>
            '(buf, offset) ← e buf offset;
            out ← sealFrame buf offset;
            Some (Ok out)
        end
  end.

(** The length, the rest of the message and its checksum, from the bytes that will
    arrive; also what arrives after the message. *)
Definition readFrame (stream : bytes) : result codec_error (bytes * bytes) :=
  if zlen stream <? 4 then Err ErrShortRead
  else
    let length := be_dec (take 4 stream) in
    let rest := drop 4 stream in
    if MaxMessageSize <? length then Err ErrTooLarge
    else if zlen rest <? length then Err ErrShortRead
    else
      let buf := take (Z.to_nat length) rest in
      if length <? 4 then Err ErrTooShort
      else
        let body := take (Z.to_nat (length - 4)) buf in
        if be_dec (drop (Z.to_nat (length - 4)) buf) =? ChecksumIEEE body
        then Ok (buf, drop (Z.to_nat length) rest) else Err ErrBadChecksum.

Definition parseProduce : parser RequestPayload :=
  topic ← getString;
  partitionID ← getUint 4;
  numMessages ← getUint 4;
  messages ← getMany (Z.to_nat numMessages) decodeMessage;
  '(producerID, producerEpoch) ←
    if_remaining 8 (0, 0)
      (producerID ← getInt 8;
       producerEpoch ← if_remaining 2 0 (getInt 2);
       mret (producerID, producerEpoch));
  mret (QProduce (mkProduceRequest topic partitionID messages 0 0 0 producerID producerEpoch)).

Definition parseFetch : parser RequestPayload :=
  topic ← getString;
  partitionID ← getUint 4;
  fetchOffset ← getInt 8;
  maxBytes ← getUint 4;
  isolationLevel ← if_remaining 1 IsolationReadUncommitted (getInt 1);
  mret (QFetch (mkFetchRequest topic partitionID fetchOffset maxBytes isolationLevel)).

Definition parseGetOffset : parser RequestPayload :=
  topic ← getString;
  partitionID ← getUint 4;
  mret (QGetOffset (mkGetOffsetRequest topic partitionID 0)).

Definition parseCreateTopic : parser RequestPayload :=
  topic ← getString;
  numPartitions ← getUint 4;
  replicationFactor ← getUint 2;
  mret (QCreateTopic (mkCreateTopicRequest topic numPartitions replicationFactor)).

Definition parseDeleteTopic : parser RequestPayload := topic ← getString; mret (QDeleteTopic topic).

Definition run_parser {A} (p : parser A) (data spare : bytes) : option A := fst <$> p data spare 0.

Definition decodeRequestPayload (buf spare : bytes) (reqType : Z) : option (result codec_error RequestPayload) :=
  if IsCoordinationRequest reqType then
    Some (match decodeCoordinationRequest buf reqType with
          | Ok p => Ok (QCoord p)
          | Err _ => Err ErrMalformed
          end)
  else if reqType =? RequestTypeProduce then Ok <$> run_parser parseProduce buf spare
  else if reqType =? RequestTypeFetch then Ok <$> run_parser parseFetch buf spare
  else if reqType =? RequestTypeGetOffset then Ok <$> run_parser parseGetOffset buf spare
  else if reqType =? RequestTypeCreateTopic then Ok <$> run_parser parseCreateTopic buf spare
  else if reqType =? RequestTypeDeleteTopic then Ok <$> run_parser parseDeleteTopic buf spare
  else if reqType =? RequestTypeListTopics then Some (Ok QListTopics)
  else if reqType =? RequestTypeHealthCheck then Some (Ok QHealthCheck)
  else Some (Err ErrUnknownType).

Definition parseRequestHeader : parser RequestHeader :=
  id ← getUint 8; t ← getUint 1; version ← getUint 1; flags ← getUint 2;
  mret (mkReqHeader id t version flags).

(** The request, and the bytes of the stream after it.  Behind the payload, the buffer holds the
    checksum. *)
Definition DecodeRequest (stream : bytes) : option (result codec_error (Request * bytes)) :=
  match readFrame stream with
  | Err e => Some (Err e)
  | Ok (buf, rest) =>
      '(h, offset) ← parseRequestHeader buf [] 0;
      data ← slice buf offset (zlen buf - 4);
      payload ← decodeRequestPayload data (drop (Z.to_nat (zlen buf - 4)) buf) (rh_Type h);
      match payload with
      | Err e => Some (Err e)
      | Ok p => Some (Ok (mkRequest h p, rest))
      end
  end.

(** ** Responses *)

Definition calculateResponsePayloadSize (resp : Response) : option (result codec_error Z) :=
  if negb (sh_Status (rs_Header resp) =? StatusOK) then
    match rs_Payload resp with
    | SError p => Some (checkedPayloadSize (4 + zlen (er_Message p)))
    | _ => None
    end
  else match rs_Payload resp with
  | SCoord p => Ok <$> measurePayload p
  | SProduce _ => Some (Ok (8 + 4 + 8))
  | SFetch p => Some (checkedPayloadSize (8 + 4 + sum_sizes Message_Size (frs_Messages p) + (8 + 8)))
  | SGetOffset p => Some (checkedPayloadSize (4 + zlen (grs_Topic p) + 4 + 8 + 8 + 8))
  | SCreateTopic p => Some (checkedPayloadSize (4 + zlen (tr_Topic p) + 1))
  | SDeleteTopic p => Some (checkedPayloadSize (4 + zlen (tr_Topic p) + 1))
  | SListTopics topics =>
      Some (checkedPayloadSize (4 + sum_sizes (fun t => 4 + zlen (ti_Name t) + 4) topics))
  | SHealthCheck p => Some (checkedPayloadSize (4 + zlen (hc_Status p) + 8))
  | SRaw data _ => Some (checkedPayloadSize (zlen data))
  | SError _ | SNil => Some (Ok 0)
  end.

Definition encodeProduceResponse (p : ProduceResponse) : emitter :=
  putUint 8 (wrapu 64 (prs_BaseOffset p)) +>+
  putUint 4 (prs_NumMessages p) +>+
  putUint 8 (wrapu 64 (prs_HighWaterMark p)).

Definition encodeFetchResponse (p : FetchResponse) : emitter :=
  putUint 8 (wrapu 64 (frs_HighWaterMark p)) +>+
  putWireLen (zlen (frs_Messages p)) +>+
  e_each encodeMessage (frs_Messages p) +>+
  putUint 8 (wrapu 64 (frs_LastStableOffset p)) +>+
  putUint 8 (wrapu 64 (frs_NextOffset p)).

Definition encodeGetOffsetResponse (p : GetOffsetResponse) : emitter :=
  putString (grs_Topic p) +>+
  putUint 4 (grs_PartitionID p) +>+
  putUint 8 (wrapu 64 (grs_StartOffset p)) +>+
  putUint 8 (wrapu 64 (grs_EndOffset p)) +>+
  putUint 8 (wrapu 64 (grs_HighWaterMark p)).

Definition encodeTopicResponse (p : TopicResponse) : emitter :=
  putString (tr_Topic p) +>+ putUint 1 (if tr_Done p then 1 else 0).

Definition encodeTopicInfo (t : TopicInfo) : emitter :=
  putString (ti_Name t) +>+ putUint 4 (ti_NumPartitions t).

Definition encodeListTopics (topics : list TopicInfo) : emitter :=
  putWireLen (zlen topics) +>+ e_each encodeTopicInfo topics.

Definition encodeHealthCheck (p : HealthCheckResponse) : emitter :=
  putString (hc_Status p) +>+ putUint 8 (wrapu 64 (hc_Uptime p)).

Definition encodeResponsePayload (resp : Response) : option emitter :=
  if negb (sh_Status (rs_Header resp) =? StatusOK) then
    match rs_Payload resp with
    | SError p => Some (putString (er_Message p))
    | _ => None
    end
  else Some (match rs_Payload resp with
  | SCoord p => fun buf offset => encodeSelfDescribing buf offset p
  | SProduce p => encodeProduceResponse p
  | SFetch p => encodeFetchResponse p
  | SGetOffset p => encodeGetOffsetResponse p
  | SCreateTopic p => encodeTopicResponse p
  | SDeleteTopic p => encodeTopicResponse p
  | SListTopics topics => encodeListTopics topics
  | SHealthCheck p => encodeHealthCheck p
  | SRaw data _ => putCopy data
  | SError _ | SNil => e_skip
  end).

Definition EncodeResponse (resp : Response) : option (result codec_error bytes) :=
  size ← calculateResponsePayloadSize resp;
  match size with
  | Err e => Some (Err e)
  | Ok payloadSize =>
      let totalSize := wrapu 32 (19 + payloadSize) in
      if MaxMessageSize <? totalSize then Some (Err ErrTooLarge)
      else
        let h := rs_Header resp in
        '(buf, offset) ← (putUint 4 (wrapu 32 (totalSize - 4)) +>+
                          putUint 8 (sh_RequestID h) +>+
                          putUint 1 (sh_Status h) +>+
                          putUint 2 (sh_ErrorCode h)) (replicate (Z.to_nat totalSize) x00) 0;
        e ← encodeResponsePayload resp;
        '(buf, offset) ← e buf offset;
        out ← sealFrame buf offset;
        Some (Ok out)
  end.

Definition parseResponseHeader : parser ResponseHeader :=
  id ← getUint 8; status ← getUint 1; code ← getUint 2; mret (mkRespHeader id status code).

(** The message of an error response; left empty where it does not fit. *)
Definition parseErrorMessage (buf : bytes) (offset : Z) : option bytes :=
  let length := zlen buf in
  if offset <? length - 4 then
    '(msgLen, offset) ← getUint 4 buf [] offset;
    if offset + msgLen <=? length - 4 then slice buf offset (offset + msgLen) else Some []
  else Some [].

Definition DecodeResponse (stream : bytes) : option (result codec_error (Response * bytes)) :=
  match readFrame stream with
  | Err e => Some (Err e)
  | Ok (buf, rest) =>
      '(h, offset) ← parseResponseHeader buf [] 0;
      if negb (sh_Status h =? StatusOK) then
        message ← parseErrorMessage buf offset;
        Some (Ok (mkResponse h (SError (mkErrorResponse (sh_ErrorCode h) message)), rest))
      else
        data ← slice buf offset (zlen buf - 4);
        Some (Ok (mkResponse h (SRaw data (drop (Z.to_nat (zlen buf - 4)) buf)), rest))
  end.

Definition parseProduceResponse : parser ResponsePayload :=
  baseOffset ← getInt 8;
  numMessages ← getUint 4;
  highWaterMark ← getInt 8;
  mret (SProduce (mkProduceResponse [] 0 baseOffset numMessages highWaterMark 0)).

Definition parseFetchResponse : parser ResponsePayload :=
  highWaterMark ← getInt 8;
  numMessages ← getUint 4;
  messages ← getMany (Z.to_nat numMessages) decodeMessage;
  '(lastStableOffset, nextOffset) ←
    if_remaining 8 (highWaterMark, -1)
      (lastStableOffset ← getInt 8;
       nextOffset ← if_remaining 8 (-1) (getInt 8);
       mret (lastStableOffset, nextOffset));
  mret (SFetch (mkFetchResponse [] 0 highWaterMark messages lastStableOffset nextOffset)).

Definition parseGetOffsetResponse : parser ResponsePayload :=
  topic ← getString;
  partitionID ← getUint 4;
  startOffset ← getInt 8;
  endOffset ← getInt 8;
  highWaterMark ← getInt 8;
  mret (SGetOffset (mkGetOffsetResponse topic partitionID startOffset endOffset highWaterMark 0 0 0)).

Definition parseTopicResponse (mk : TopicResponse -> ResponsePayload) : parser ResponsePayload :=
  topic ← getString;
  done_ ← getUint 1;
  mret (mk (mkTopicResponse topic (done_ =? 1) 0)).

Definition parseTopicInfo : parser TopicInfo :=
  name ← getString; numPartitions ← getUint 4; mret (mkTopicInfo name numPartitions).

Definition parseListTopics : parser ResponsePayload :=
  numTopics ← getUint 4;
  topics ← getMany (Z.to_nat numTopics) parseTopicInfo;
  mret (SListTopics topics).

Definition parseHealthCheck : parser ResponsePayload :=
  status ← getString; uptime ← getInt 8; mret (SHealthCheck (mkHealthCheckResponse status uptime)).

(** The decoder of a type's responses. *)
Definition responseParser : Z -> option (parser ResponsePayload) := switch
  [ (RequestTypeProduce, parseProduceResponse);
    (RequestTypeFetch, parseFetchResponse);
    (RequestTypeGetOffset, parseGetOffsetResponse);
    (RequestTypeCreateTopic, parseTopicResponse SCreateTopic);
    (RequestTypeDeleteTopic, parseTopicResponse SDeleteTopic);
    (RequestTypeListTopics, parseListTopics);
    (RequestTypeHealthCheck, parseHealthCheck) ].

(** The response with its payload decoded. *)
Definition DecodeResponsePayload (resp : Response) (reqType : Z) : option (result codec_error Response) :=
  match rs_Payload resp with
  | SRaw data spare =>
      if IsCoordinationRequest reqType then
        Some (match decodeCoordinationResponse data reqType with
              | Ok p => Ok (mkResponse (rs_Header resp) (SCoord p))
              | Err _ => Err ErrMalformed
              end)
      else match responseParser reqType with
      | Some p => payload ← run_parser p data spare; Some (Ok (mkResponse (rs_Header resp) payload))
      | None => Some (Err ErrUnknownType)
      end
  | _ => Some (Ok resp)
  end.
End codec.
