(* ===== verification/CodecSpec.v ===== *)
(** * Frames are decoded as they were encoded

    [sends] relates an emitter, a parser and a value, as [Wire.codec] does for
    self-describing payloads: the emitter fills exactly [n] bytes, and the parser reads
    the value back from them.  From its closure under sequencing follow the round trips
    of requests and of responses, including what the frame format leaves out. *)

From S2P Require Import Prelude GoBytes Record Wire Payloads Protocol Codec.
From stdpp Require Import prelude list gmap.
From Stdlib Require Import ZArith Lia Strings.Byte.

Open Scope Z_scope.

(** ** Emitters and parsers *)

Definition emits (e : emitter) (bs : bytes) : Prop :=
  forall pre hole, (length bs ≤ length hole)%nat ->
  e (pre ++ hole) (zlen pre) = Some ((pre ++ bs) ++ drop (length bs) hole, zlen (pre ++ bs)).

Definition parses {A} (p : parser A) (bs : bytes) (v : A) : Prop :=
  forall pre post spare, p (pre ++ bs ++ post) spare (zlen pre) = Some (v, zlen (pre ++ bs)).

Definition sends {A} (n : Z) (e : emitter) (p : parser A) (v : A) : Prop :=
  exists bs, zlen bs = n /\ emits e bs /\ (n <= MaxMessageSize -> parses p bs v).

Lemma emits_then e f bs cs : emits e bs -> emits f cs -> emits (e +>+ f) (bs ++ cs).
Proof.
  intros He Hf pre hole Hl. rewrite length_app in Hl. unfold e_then.
  rewrite He by lia. cbn [mbind option_bind]. rewrite Hf by (rewrite length_drop; lia).
  by rewrite !(assoc_L (++)), drop_drop, (length_app bs cs).
Qed.

Lemma emits_skip : emits e_skip [].
Proof. intros pre hole _. unfold e_skip. by rewrite app_nil_r, drop_0. Qed.

Lemma emits_uint n v : emits (putUint n v) (be_enc n v).
Proof.
  intros pre hole Hl. rewrite be_enc_length in *. unfold putUint. rewrite put_be_app by done.
  cbn [mbind option_bind]. rewrite (length_app pre), be_enc_length. do 2 f_equal. lia.
Qed.

Lemma emits_copy s : emits (putCopy s) s.
Proof.
  intros pre hole Hl. unfold putCopy. rewrite copy_at_app by done. cbn [mbind option_bind].
  rewrite (length_app pre). do 2 f_equal. lia.
Qed.

Lemma parses_bind {A B} (p : parser A) (k : A -> parser B) bs cs a b :
  parses p bs a -> parses (k a) cs b -> parses (p ≫= k) (bs ++ cs) b.
Proof.
  intros Hp Hk pre post spare. unfold mbind, parser_bind.
  specialize (Hk (pre ++ bs) post spare). rewrite <- !(assoc_L (++)) in Hk |- *.
  rewrite Hp. rewrite <- (assoc_L (++) pre) in Hk. done.
Qed.

Lemma parses_ret {A} (a : A) : parses (mret a) [] a.
Proof. intros pre post spare. unfold mret, parser_ret. by rewrite app_nil_r. Qed.

Lemma parses_uint n v : 0 <= v < 256 ^ Z.of_nat n -> parses (getUint n) (be_enc n v) v.
Proof.
  intros Hv pre post spare. unfold getUint. rewrite get_be_app, Z.mod_small by done.
  cbn [mbind option_bind]. rewrite length_app, be_enc_length. do 2 f_equal. lia.
Qed.

Lemma parses_slice s : parses (getSlice (zlen s)) s s.
Proof.
  intros pre post spare. unfold getSlice. rewrite <- !(assoc_L (++)), slice_app. cbn [mbind option_bind].
  rewrite length_app. do 2 f_equal. lia.
Qed.

Lemma parses_remaining {A} n (dflt : A) p bs a :
  parses p bs a -> n <= zlen bs -> parses (if_remaining n dflt p) bs a.
Proof.
  intros Hp Hn pre post spare. unfold if_remaining.
  destruct (Z.leb_spec n (zlen (pre ++ bs ++ post) - zlen pre)) as [_|H]; [apply Hp|].
  rewrite !length_app in H. lia.
Qed.

(** ** Closure of [sends] *)

Lemma sends_then {A B} n m e f (p : parser A) (k : A -> parser B) a b :
  sends n e p a -> sends m f (k a) b -> sends (n + m) (e +>+ f) (p ≫= k) b.
Proof.
  intros (bs & <- & He & Hp) (cs & <- & Hf & Hk). exists (bs ++ cs).
  rewrite length_app. split; [lia|]. split; [by apply emits_then|].
  intros Hmax. eapply parses_bind; [apply Hp|apply Hk]; lia.
Qed.

(** The last field, after which the struct is built. *)
Lemma sends_last {A B} n e (p : parser A) (k : A -> parser B) a b :
  sends n e p a -> k a = mret b -> sends n e (p ≫= k) b.
Proof.
  intros (bs & <- & He & Hp) Hk. exists bs. split; [done|]. split; [done|].
  intros Hmax. rewrite <- (app_nil_r bs). eapply parses_bind; [by apply Hp|]. rewrite Hk. apply parses_ret.
Qed.

Lemma sends_uint n v : 0 <= v < 256 ^ Z.of_nat n -> sends (Z.of_nat n) (putUint n v) (getUint n) v.
Proof.
  intros Hv. exists (be_enc n v). rewrite be_enc_length. split; [done|]. split; [apply emits_uint|].
  intros _. by apply parses_uint.
Qed.

Lemma sends_int (n : nat) w v :
  w = 8 * Z.of_nat n -> (0 < n)%nat -> - 2 ^ (w - 1) <= v < 2 ^ (w - 1) ->
  sends (Z.of_nat n) (putUint n (wrapu w v)) (getInt n) v.
Proof.
  intros -> Hn Hv. eapply sends_last.
  - apply sends_uint. change 256 with (2 ^ 8). rewrite <- Z.pow_mul_r by lia.
    apply Z.mod_pos_bound. apply Z.pow_pos_nonneg; lia.
  - cbn beta. rewrite wraps_wrapu; [done|lia|done].
Qed.

Lemma sends_u32 v : in_u32 v -> sends 4 (putUint 4 v) (getUint 4) v.
Proof. exact (sends_uint 4 v). Qed.
Lemma sends_u16 v : in_u16 v -> sends 2 (putUint 2 v) (getUint 2) v.
Proof. exact (sends_uint 2 v). Qed.
Lemma sends_i64 v : in_i64 v -> sends 8 (putUint 8 (wrapu 64 v)) (getInt 8) v.
Proof. intros Hv. apply (sends_int 8); [lia|lia|exact Hv]. Qed.
Lemma sends_i16 v : in_i16 v -> sends 2 (putUint 2 (wrapu 16 v)) (getInt 2) v.
Proof. intros Hv. apply (sends_int 2); [lia|lia|exact Hv]. Qed.
Lemma sends_i8 v : in_i8 v -> sends 1 (putUint 1 (wrapu 8 v)) (getInt 1) v.
Proof. intros Hv. apply (sends_int 1); [lia|lia|exact Hv]. Qed.

Lemma wireLen_id n : 0 <= n <= maxArrayLen -> wireLen n = n.
Proof.
  intros Hn. unfold wireLen. destruct (Z.ltb_spec n 0); [lia|].
  destruct (Z.ltb_spec maxArrayLen n); [lia|done].
Qed.

(** A length prefix, and at least as many bytes as it says. *)
Lemma sends_prefixed {B} len m e (k : Z -> parser B) b :
  0 <= len <= m -> sends m e (k len) b -> sends (4 + m) (putWireLen len +>+ e) (getUint 4 ≫= k) b.
Proof.
  intros Hlen (bs & <- & He & Hk). exists (be_enc 4 (wireLen len) ++ bs).
  rewrite length_app, be_enc_length. split; [lia|]. split; [apply emits_then; [apply emits_uint|done]|].
  intros Hmax. rewrite wireLen_id by (unfold maxArrayLen; lia).
  eapply parses_bind; [apply parses_uint|apply Hk; lia]. unfold MaxMessageSize in Hmax. simpl. lia.
Qed.

Lemma sends_string s : sends (4 + zlen s) (putString s) getString s.
Proof.
  apply sends_prefixed; [lia|]. exists s. split; [done|]. split; [apply emits_copy|].
  intros _. apply parses_slice.
Qed.

Lemma sends_field s : sends (4 + zlen s) (encodeField s) decodeField s.
Proof.
  apply sends_prefixed; [lia|]. destruct (Z.ltb_spec 0 (zlen s)) as [Hs|Hs].
  - exists s. split; [done|]. split; [apply emits_copy|]. intros _. apply parses_slice.
  - assert (s = []) as -> by (destruct s; [done|simpl in Hs; lia]).
    exists []. split; [done|]. split; [apply emits_skip|]. intros _. apply parses_ret.
Qed.

Lemma sum_sizes_cons {A} (f : A -> Z) x xs : sum_sizes f (x :: xs) = f x + sum_sizes f xs.
Proof. done. Qed.

Lemma sends_each {A} (f : A -> Z) (e : A -> emitter) (p : parser A) xs :
  (forall x, x ∈ xs -> 1 <= f x /\ sends (f x) (e x) p x) ->
  zlen xs <= sum_sizes f xs /\ sends (sum_sizes f xs) (e_each e xs) (getMany (length xs) p) xs.
Proof.
  induction xs as [|x xs IH]; intros Hx.
  { split; [done|]. exists []. split; [done|]. split; [apply emits_skip|]. intros _. apply parses_ret. }
  destruct IH as [Hl Hs]; [intros y Hy; apply Hx; by right|].
  destruct (Hx x) as [H1 H2]; [left|]. rewrite sum_sizes_cons. split; [simpl; lia|].
  cbn [e_each getMany length]. eapply sends_then; [exact H2|]. eapply sends_last; [exact Hs|done].
Qed.

(** A counted collection, and what follows it. *)
Lemma sends_list_then {A B} m (f : A -> Z) (e : A -> emitter) (p : parser A) xs e' (k : list A -> parser B) b :
  (forall x, x ∈ xs -> 1 <= f x /\ sends (f x) (e x) p x) -> 0 <= m -> sends m e' (k xs) b ->
  sends (4 + (sum_sizes f xs + m)) (putWireLen (zlen xs) +>+ e_each e xs +>+ e')
    (getUint 4 ≫= fun n => getMany (Z.to_nat n) p ≫= k) b.
Proof.
  intros Hx Hm Hk. destruct (sends_each f e p xs Hx) as [Hl Hs].
  apply sends_prefixed; [lia|]. rewrite Nat2Z.id. by eapply sends_then.
Qed.

Lemma sends_list {A B} (f : A -> Z) (e : A -> emitter) (p : parser A) xs (k : list A -> parser B) b :
  (forall x, x ∈ xs -> 1 <= f x /\ sends (f x) (e x) p x) -> k xs = mret b ->
  sends (4 + sum_sizes f xs) (putWireLen (zlen xs) +>+ e_each e xs)
    (getUint 4 ≫= fun n => getMany (Z.to_nat n) p ≫= k) b.
Proof.
  intros Hx Hk. destruct (sends_each f e p xs Hx) as [Hl Hs].
  apply sends_prefixed; [lia|]. rewrite Nat2Z.id. by eapply sends_last.
Qed.

Lemma sends_size {A} n m e (p : parser A) v : sends n e p v -> n = m -> sends m e p v.
Proof. by intros ? <-. Qed.

Lemma sends_remaining {A} n m (dflt : A) e p a : sends n e p a -> m <= n -> sends n e (if_remaining m dflt p) a.
Proof.
  intros (bs & <- & He & Hp) Hm. exists bs. split; [done|]. split; [done|].
  intros Hmax. apply parses_remaining; auto.
Qed.

#[export] Hint Resolve sends_u32 sends_u16 sends_i64 sends_i16 sends_i8 sends_string sends_field : wire.

(** Follow the fields of a struct; what is left are ranges of integers. *)
Ltac sends_fields :=
  lazymatch goal with
  | |- sends _ (_ +>+ _) _ _ => eapply sends_then; [solve [eauto with wire]|cbn beta; sends_fields]
  | |- sends _ _ _ _ => eapply sends_last; [solve [eauto with wire]|reflexivity]
  end.

(** ** Frames *)

Definition frame (header body : bytes) : bytes :=
  be_enc 4 (zlen header + zlen body + 4) ++ header ++ body ++ be_enc 4 (ChecksumIEEE (header ++ body)).

(** A header and a payload that fill the buffer up to the checksum make a frame. *)
Lemma seal_frame total header body :
  total = 4 + zlen header + zlen body + 4 -> total <= MaxMessageSize ->
  sealFrame ((be_enc 4 (wrapu 32 (total - 4)) ++ header ++ body) ++ replicate 4 x00)
       (zlen (be_enc 4 (wrapu 32 (total - 4)) ++ header ++ body))
  = Some (frame header body).
Proof.
  intros Ht Hmax. unfold sealFrame, frame.
  assert (wrapu 32 (total - 4) = zlen header + zlen body + 4) as ->.
  { unfold wrapu, MaxMessageSize in *. rewrite Z.mod_small; lia. }
  set (l4 := be_enc 4 (zlen header + zlen body + 4)).
  assert (length l4 = 4%nat) as Hl4 by apply be_enc_length.
  pose proof (slice_app l4 (header ++ body) (replicate 4 x00)) as Hs.
  rewrite Hl4 in Hs. change (Z.of_nat 4) with 4 in Hs.
  replace (zlen (l4 ++ header ++ body)) with (4 + zlen (header ++ body)) at 1 by (rewrite (length_app l4); lia).
  rewrite <- (assoc_L (++)), Hs. cbn [mbind option_bind]. rewrite (assoc_L (++)).
  rewrite emits_uint by (by rewrite be_enc_length, length_replicate). cbn [mbind option_bind].
  rewrite be_enc_length, drop_ge by (by rewrite length_replicate).
  set (out := (l4 ++ header ++ body) ++ be_enc 4 (ChecksumIEEE (header ++ body))).
  pose proof (slice_app [] out []) as Ho. cbn [app length] in Ho.
  change (Z.of_nat 0 + zlen out) with (0 + zlen out) in Ho. change (Z.of_nat 0) with 0 in Ho.
  rewrite Z.add_0_l in Ho. rewrite Ho. f_equal. unfold out. by rewrite <- !(assoc_L (++)).
Qed.

Lemma readFrame_frame header body rest :
  zlen header + zlen body + 4 <= MaxMessageSize ->
  readFrame (frame header body ++ rest)
  = Ok (header ++ body ++ be_enc 4 (ChecksumIEEE (header ++ body)), rest).
Proof.
  intros Hmax. unfold readFrame, frame.
  set (crc := be_enc 4 (ChecksumIEEE (header ++ body))).
  assert (length crc = 4%nat) as Hc by apply be_enc_length.
  set (l4 := be_enc 4 (zlen header + zlen body + 4)).
  assert (length l4 = 4%nat) as Hl4 by apply be_enc_length.
  rewrite <- !(assoc_L (++)).
  destruct (Z.ltb_spec (zlen (l4 ++ header ++ body ++ crc ++ rest)) 4) as [Hlt|_].
  { rewrite length_app in Hlt. lia. }
  rewrite (take_app_length' l4), (drop_app_length' l4) by done.
  assert (be_dec l4 = zlen header + zlen body + 4) as ->.
  { unfold l4. rewrite be_dec_enc, Z.mod_small; [done|]. unfold MaxMessageSize in Hmax. simpl. lia. }
  destruct (Z.ltb_spec MaxMessageSize (zlen header + zlen body + 4)); [lia|].
  assert (Z.to_nat (zlen header + zlen body + 4) = length (header ++ body ++ crc)) as En.
  { rewrite !length_app. lia. }
  destruct (Z.ltb_spec (zlen (header ++ body ++ crc ++ rest)) (zlen header + zlen body + 4)) as [Hlt|_].
  { rewrite !length_app in Hlt. lia. }
  rewrite En. replace (header ++ body ++ crc ++ rest) with ((header ++ body ++ crc) ++ rest)
    by (by rewrite <- !(assoc_L (++))).
  rewrite take_app_length, drop_app_length.
  destruct (Z.ltb_spec (zlen header + zlen body + 4) 4); [lia|].
  replace (Z.to_nat (zlen header + zlen body + 4 - 4)) with (length (header ++ body))
    by (rewrite length_app; lia).
  rewrite (assoc_L (++) header), take_app_length, drop_app_length.
  unfold crc at 1. rewrite be_dec_enc, Z.mod_small by (exact (ChecksumIEEE_range _)).
  by rewrite Z.eqb_refl.
Qed.

(** ** Messages *)

Section roundtrip.
Context (range_map : gmap bytes bytes -> list (bytes * bytes)).
Context (range_map_perm : forall m, range_map m ≡ₚ map_to_list m).

Lemma set_headers_range m : set_headers (range_map m) = m.
Proof using range_map_perm.
  assert (forall l m0, NoDup l.*1 -> (forall kv, kv ∈ l -> m0 !! kv.1 = None) ->
    fold_left (fun (m : gmap bytes bytes) '(k, v) => <[k := v]> m) l m0 = list_to_map l ∪ m0) as Hf.
  { induction l as [|[k v] l IH]; intros m0 Hnd Hn; simpl; [by rewrite (left_id_L ∅ (∪))|].
    apply NoDup_cons in Hnd as [Hk Hnd]. simpl in Hk. rewrite IH; [|done|].
    - rewrite <- insert_union_r; [apply insert_union_l|]. by apply not_elem_of_list_to_map_1.
    - intros [k' v'] Hin. simpl. rewrite lookup_insert_ne; [apply (Hn (k', v')); by right|].
      intros ->. apply Hk. apply list_elem_of_fmap. by exists (k', v'). }
  unfold set_headers. rewrite Hf.
  - rewrite (right_id_L ∅ (∪)). rewrite <- (list_to_map_to_list m) at 2.
    apply list_to_map_proper; [|apply range_map_perm].
    rewrite range_map_perm. apply NoDup_fst_map_to_list.
  - rewrite range_map_perm. apply NoDup_fst_map_to_list.
  - intros. apply lookup_empty.
Qed.

Definition typed_message (m : ProtoMessage) : Prop := in_i64 (pm_Offset m) /\ in_i64 (pm_Timestamp m).

Definition header_size (kv : bytes * bytes) : Z := 4 + zlen kv.1 + (4 + zlen kv.2).

Lemma Message_Size_sum m :
  Message_Size range_map m
  = 8 + (8 + ((4 + zlen (pm_Key m)) + ((4 + zlen (pm_Value m)) + (4 + sum_sizes header_size (range_map (pm_Headers m)))))).
Proof.
  unfold Message_Size, sum_sizes. induction (range_map (pm_Headers m)) as [|[k v] l IH]; simpl; [lia|].
  rewrite IH. unfold header_size. simpl. lia.
Qed.

Lemma sum_sizes_nonneg {A} (f : A -> Z) l : (forall x, 0 <= f x) -> 0 <= sum_sizes f l.
Proof. intros Hf. induction l as [|x l IH]; [done|]. rewrite sum_sizes_cons. specialize (Hf x). lia. Qed.

Lemma sends_message m :
  typed_message m ->
  1 <= Message_Size range_map m /\ sends (Message_Size range_map m) (encodeMessage range_map m) decodeMessage m.
Proof using range_map_perm.
  destruct m as [o key value headers ts]. intros [Ho Hts]. simpl in Ho, Hts.
  rewrite Message_Size_sum. simpl. split.
  { pose proof (sum_sizes_nonneg header_size (range_map headers)) as Hn.
    unfold header_size in Hn at 1. specialize (Hn ltac:(intros; lia)). lia. }
  unfold encodeMessage, decodeMessage. cbn [pm_Offset pm_Key pm_Value pm_Headers pm_Timestamp].
  do 4 (eapply sends_then; [eauto with wire|]; cbn beta).
  assert (Z.of_nat (size headers) = zlen (range_map headers)) as ->
    by (by rewrite range_map_perm, length_map_to_list).
  apply sends_list.
  - intros [k v] _. unfold header_size, encodeHeader, decodeHeader. simpl. split; [lia|].
    eapply sends_then; [apply sends_string|]. eapply sends_last; [apply sends_string|reflexivity].
  - by rewrite set_headers_range.
Qed.

(** ** Requests *)

(** The request's payload as it arrives: without the fields no frame carries. *)
Definition sent_request (p : RequestPayload) : RequestPayload :=
  match p with
  | QProduce p => QProduce (mkProduceRequest (prq_Topic p) (prq_PartitionID p) (prq_Messages p) 0 0 0
                              (prq_ProducerID p) (prq_ProducerEpoch p))
  | QGetOffset p => QGetOffset (mkGetOffsetRequest (grq_Topic p) (grq_PartitionID p) 0)
  | _ => p
  end.

Definition typed_request (p : RequestPayload) : Prop :=
  match p with
  | QProduce p => in_u32 (prq_PartitionID p) /\ Forall typed_message (prq_Messages p)
                  /\ in_i64 (prq_ProducerID p) /\ in_i16 (prq_ProducerEpoch p)
  | QFetch p => in_u32 (frq_PartitionID p) /\ in_i64 (frq_Offset p) /\ in_u32 (frq_MaxBytes p)
                /\ in_i8 (frq_IsolationLevel p)
  | QGetOffset p => in_u32 (grq_PartitionID p)
  | QCreateTopic p => in_u32 (crq_NumPartitions p) /\ in_u16 (crq_ReplicationFactor p)
  | QCoord p => typed_any p
  | _ => True
  end.

Definition type_of_request (p : RequestPayload) : option Z :=
  match p with
  | QProduce _ => Some RequestTypeProduce
  | QFetch _ => Some RequestTypeFetch
  | QGetOffset _ => Some RequestTypeGetOffset
  | QCreateTopic _ => Some RequestTypeCreateTopic
  | QDeleteTopic _ => Some RequestTypeDeleteTopic
  | QListTopics => Some RequestTypeListTopics
  | QHealthCheck => Some RequestTypeHealthCheck
  | QCoord p => request_type p
  end.

(** The size of the payload's encoding. *)
Definition measured (p : coordPayload) : Z :=
  match encode_any p newSizer with Some w => w_pos w | None => 0 end.

Definition request_size (p : RequestPayload) : Z :=
  match p with
  | QProduce p => 4 + zlen (prq_Topic p) + 4 + 4 + sum_sizes (Message_Size range_map) (prq_Messages p) + 8 + 2
  | QFetch p => 4 + zlen (frq_Topic p) + 4 + 8 + 4 + 1
  | QGetOffset p => 4 + zlen (grq_Topic p) + 4
  | QCreateTopic p => 4 + zlen (crq_Topic p) + 4 + 2
  | QDeleteTopic topic => 4 + zlen topic
  | QListTopics | QHealthCheck => 0
  | QCoord p => measured p
  end.

Definition is_coord (p : RequestPayload) : bool := match p with QCoord _ => true | _ => false end.

Lemma sends_run {A} n e (p : parser A) v :
  sends n e p v -> exists bs, zlen bs = n /\ emits e bs /\ (n <= MaxMessageSize -> forall spare, run_parser p bs spare = Some v).
Proof.
  intros (bs & Hn & He & Hp). exists bs. split; [done|]. split; [done|].
  intros Hmax spare. specialize (Hp Hmax [] [] spare). unfold run_parser. cbn [app length] in Hp.
  rewrite app_nil_r in Hp. change (Z.of_nat 0) with 0 in Hp. by rewrite Hp.
Qed.

Lemma parse_produce p :
  typed_request (QProduce p) ->
  sends (request_size (QProduce p)) (encodeProduce range_map p) parseProduce (sent_request (QProduce p)).
Proof using range_map_perm.
  destruct p as [topic part msgs a b c pid epoch]. intros (Hp & Hm & Hpid & Hep).
  cbn [prq_Topic prq_PartitionID prq_Messages prq_ProducerID prq_ProducerEpoch] in *.
  rewrite Forall_forall in Hm. unfold encodeProduce, parseProduce.
  cbn [request_size sent_request prq_Topic prq_PartitionID prq_Messages prq_ProducerID prq_ProducerEpoch].
  eapply sends_size.
  - do 2 (eapply sends_then; [eauto with wire|]; cbn beta).
    eapply (sends_list_then (8 + 2) (Message_Size range_map)); [intros x Hx; by apply sends_message, Hm|lia|].
    eapply (sends_last (8 + 2) _ _ _ (pid, epoch)); [|reflexivity].
    apply sends_remaining; [|lia]. eapply sends_then; [eauto with wire|]. cbn beta.
    eapply sends_last; [|reflexivity]. apply sends_remaining; [eauto with wire|lia].
  - lia.
Qed.

Lemma parse_fetch p :
  typed_request (QFetch p) -> sends (request_size (QFetch p)) (encodeFetch p) parseFetch (QFetch p).
Proof.
  destruct p as [topic part off mx iso]. simpl. intros (Hp & Ho & Hm & Hi).
  unfold encodeFetch, parseFetch. cbn [frq_Topic frq_PartitionID frq_Offset frq_MaxBytes frq_IsolationLevel].
  eapply sends_size.
  - do 4 (eapply sends_then; [eauto with wire|]; cbn beta).
    eapply sends_last; [|reflexivity]. apply (sends_remaining 1); [eauto with wire|lia].
  - lia.
Qed.

Lemma parse_getoffset p :
  typed_request (QGetOffset p) ->
  sends (request_size (QGetOffset p)) (encodeGetOffset p) parseGetOffset (sent_request (QGetOffset p)).
Proof.
  destruct p as [topic part ts]. simpl. intros Hp. unfold encodeGetOffset, parseGetOffset. simpl.
  eapply sends_size; [sends_fields|lia].
Qed.

Lemma parse_createtopic p :
  typed_request (QCreateTopic p) ->
  sends (request_size (QCreateTopic p)) (encodeCreateTopic p) parseCreateTopic (QCreateTopic p).
Proof.
  destruct p as [topic num rf]. simpl. intros [Hn Hr]. unfold encodeCreateTopic, parseCreateTopic. simpl.
  eapply sends_size; [sends_fields|lia].
Qed.

Lemma parse_deletetopic topic :
  sends (4 + zlen topic) (putString topic) parseDeleteTopic (QDeleteTopic topic).
Proof. eapply sends_last; [apply sends_string|done]. Qed.

(** What the codec does with a payload of the request's type. *)
Record encodable (req : Request) (t : Z) (bs : bytes) (e : emitter) : Prop := {
  enc_size : zlen bs = request_size (rq_Payload req);
  enc_calculated : calculateRequestPayloadSize range_map req
    = Some (if is_coord (rq_Payload req)
            then Ok (if MaxMessageSize <? request_size (rq_Payload req) then 0 else request_size (rq_Payload req))
            else checkedPayloadSize (request_size (rq_Payload req)));
  enc_emitter : encodeRequestPayload range_map req = Some (Ok e);
  enc_emits : emits e bs;
  enc_panics pre hole : is_coord (rq_Payload req) = true -> (length hole < length bs)%nat ->
    e (pre ++ hole) (zlen pre) = None;
  enc_decodes : request_size (rq_Payload req) <= MaxMessageSize ->
    forall spare, decodeRequestPayload bs spare t = Some (Ok (sent_request (rq_Payload req)))
}.

Lemma is_coordination t p : request_type p = Some t \/ response_type p = Some t -> IsCoordinationRequest t = true.
Proof. intros [H|H]; destruct p; simplify_eq/=; reflexivity. Qed.

(** A self-describing payload fills the buffer with what it measures. *)
Lemma coord_writes p d : codec 0 (encode_any p) d p ->
  exists bs, zlen bs = measured p
    /\ measurePayload p = Some (if MaxMessageSize <? measured p then 0 else measured p)
    /\ emits (fun buf offset => encodeSelfDescribing buf offset p) bs
    /\ (forall pre hole, (length hole < length bs)%nat -> encodeSelfDescribing (pre ++ hole) (zlen pre) p = None)
    /\ (measured p <= MaxMessageSize -> run_reader d bs = Ok p).
Proof.
  intros (bs & _ & Hw & Hr). exists bs.
  assert (measured p = zlen bs) as Hm.
  { unfold measured, newSizer. rewrite (writes_measure _ _ Hw). cbn [w_pos]. lia. }
  rewrite Hm. split; [done|]. split; [|split; [|split]].
  - unfold measurePayload, newSizer. rewrite (writes_measure _ _ Hw). cbn [mbind option_bind w_pos].
    rewrite Z.add_0_l. destruct (Z.ltb_spec (zlen bs) 0); [lia|].
    cbn [orb]. by destruct (MaxMessageSize <? zlen bs).
  - intros pre hole Hl. unfold encodeSelfDescribing, newWriter. by rewrite (writes_fill _ _ Hw) by done.
  - intros pre hole Hl. unfold encodeSelfDescribing, newWriter. by rewrite (writes_panic _ _ Hw) by done.
  - intros Hmax. specialize (Hr Hmax [] []). unfold run_reader, newReader. cbn [app length] in Hr.
    rewrite app_nil_r in Hr. change (Z.of_nat 0) with 0 in Hr. by rewrite Hr.
Qed.

Lemma coord_encodable h p :
  request_type p = Some (rh_Type h) -> typed_any p ->
  exists bs e, encodable (mkRequest h (QCoord p)) (rh_Type h) bs e.
Proof.
  intros Ht Hp. destruct (coordination_request_codec _ _ Ht Hp) as (d & Hd & Hc).
  destruct (coord_writes p d Hc) as (bs & Hs & Hm & He & Hn & Hr).
  pose proof (is_coordination _ _ (or_introl Ht)) as Hi.
  exists bs, (fun buf offset => encodeSelfDescribing buf offset p).
  split; cbn [rq_Payload rq_Header request_size is_coord sent_request]; auto.
  - unfold calculateRequestPayloadSize. cbn [rq_Payload rq_Header as_coord]. rewrite Hi, Hm. done.
  - unfold encodeRequestPayload. cbn [rq_Payload rq_Header as_coord]. by rewrite Hi.
  - intros Hmax spare. unfold decodeRequestPayload, decodeCoordinationRequest. rewrite Hi, Hd, (Hr Hmax). done.
Qed.

(** The same for a payload with a parser of its own. *)
Lemma plain_encodable h t p e (pr : parser RequestPayload) :
  is_coord p = false ->
  calculateRequestPayloadSize range_map (mkRequest h p) = Some (checkedPayloadSize (request_size p)) ->
  encodeRequestPayload range_map (mkRequest h p) = Some (Ok e) ->
  (forall bs spare, decodeRequestPayload bs spare t = Ok <$> run_parser pr bs spare) ->
  sends (request_size p) e pr (sent_request p) ->
  exists bs e, encodable (mkRequest h p) t bs e.
Proof.
  intros Hc Hs He Hd Hp. destruct (sends_run _ _ _ _ Hp) as (bs & Hl & Hem & Hr).
  exists bs, e. split; cbn [rq_Payload]; auto.
  - by rewrite Hs, Hc.
  - by rewrite Hc.
  - intros Hmax spare. by rewrite Hd, (Hr Hmax).
Qed.

Lemma request_encodable h p :
  type_of_request p = Some (rh_Type h) -> typed_request p ->
  exists bs e, encodable (mkRequest h p) (rh_Type h) bs e.
Proof using range_map_perm.
  destruct h as [id t v f]. cbn [rh_Type]. intros Ht Hp.
  destruct p as [p|p|p|p|topic| | |p]; cbn [type_of_request] in Ht; [injection Ht as <-..|].
  - eapply (plain_encodable _ _ _ _ parseProduce); [done..|]. by apply parse_produce.
  - eapply (plain_encodable _ _ _ _ parseFetch); [done..|]. by apply parse_fetch.
  - eapply (plain_encodable _ _ _ _ parseGetOffset); [done..|]. by apply parse_getoffset.
  - eapply (plain_encodable _ _ _ _ parseCreateTopic); [done..|]. by apply parse_createtopic.
  - eapply (plain_encodable _ _ _ _ parseDeleteTopic); [done..|]. apply parse_deletetopic.
  - eapply (plain_encodable _ _ _ _ (mret QListTopics)); [done..|].
    exists []. split; [done|]. split; [apply emits_skip|]. intros _. apply parses_ret.
  - eapply (plain_encodable _ _ _ _ (mret QHealthCheck)); [done..|].
    exists []. split; [done|]. split; [apply emits_skip|]. intros _. apply parses_ret.
  - exact (coord_encodable (mkReqHeader id t v f) p Ht Hp).
Qed.

Definition typed_header (h : RequestHeader) : Prop :=
  in_u64 (rh_RequestID h) /\ in_u8 (rh_Type h) /\ in_u8 (rh_Version h) /\ in_u16 (rh_Flags h).

Definition request_header (h : RequestHeader) : bytes :=
  be_enc 8 (rh_RequestID h) ++ be_enc 1 (rh_Type h) ++ be_enc 1 (rh_Version h) ++ be_enc 2 (rh_Flags h).

Lemma request_header_length h : length (request_header h) = 12%nat.
Proof. unfold request_header. by rewrite !length_app, !be_enc_length. Qed.

Lemma parse_request_header h : typed_header h -> parses parseRequestHeader (request_header h) h.
Proof.
  destruct h as [id t v f]. intros (Hi & Ht & Hv & Hf). cbn in Hi, Ht, Hv, Hf.
  unfold request_header, parseRequestHeader. cbn [rh_RequestID rh_Type rh_Version rh_Flags].
  do 3 (eapply parses_bind; [by apply parses_uint|]; cbn beta).
  rewrite <- (app_nil_r (be_enc 2 f)). eapply parses_bind; [by apply parses_uint|]. apply parses_ret.
Qed.

Lemma emits_from0 e bs n :
  emits e bs -> (length bs ≤ n)%nat ->
  e (replicate n x00) 0 = Some (bs ++ replicate (n - length bs) x00, zlen bs).
Proof.
  intros He Hn. pose proof (He [] (replicate n x00)) as H. cbn [app length] in H.
  rewrite length_replicate in H. rewrite drop_replicate in H. exact (H Hn).
Qed.

Lemma sent_request_header h x : emits
  (putUint 4 x +>+ putUint 8 (rh_RequestID h) +>+ putUint 1 (rh_Type h) +>+ putUint 1 (rh_Version h)
   +>+ putUint 2 (rh_Flags h)) (be_enc 4 x ++ request_header h).
Proof. unfold request_header. repeat (apply emits_then; [apply emits_uint|]). apply emits_uint. Qed.

(** The room left for the payload and the checksum, and what is made of it. *)
Lemma finish_frame total header bs e :
  emits e bs -> total = 4 + zlen header + zlen bs + 4 -> total <= MaxMessageSize ->
  ('(buf, offset) ← e ((be_enc 4 (wrapu 32 (total - 4)) ++ header)
                       ++ replicate (Z.to_nat total - length (be_enc 4 (wrapu 32 (total - 4)) ++ header)) x00)
                      (zlen (be_enc 4 (wrapu 32 (total - 4)) ++ header));
   out ← sealFrame buf offset; Some (Ok (E := codec_error) out)) = Some (Ok (frame header bs)).
Proof.
  intros He Ht Hmax. rewrite He.
  2: { rewrite length_replicate, length_app, be_enc_length. lia. }
  cbn [mbind option_bind]. rewrite drop_replicate.
  replace (Z.to_nat total - _ - length bs)%nat with 4%nat by (rewrite length_app, be_enc_length; lia).
  rewrite <- (assoc_L (++) _ header bs). rewrite seal_frame by done. done.
Qed.

Lemma wrapu_small z : 0 <= z <= MaxMessageSize -> wrapu 32 z = z.
Proof. unfold wrapu, MaxMessageSize. intros Hz. apply Z.mod_small. lia. Qed.

Lemma checked_size size : 0 <= size ->
  checkedPayloadSize size = if MaxMessageSize <? size then Err ErrTooLarge else Ok size.
Proof.
  intros Hs. unfold checkedPayloadSize. destruct (Z.ltb_spec size 0); [lia|]. cbn [orb].
  destruct (Z.ltb_spec MaxMessageSize size); [done|]. by rewrite wrapu_small by lia.
Qed.

Lemma EncodeRequest_ok req bs e :
  encodable req (rh_Type (rq_Header req)) bs e ->
  HeaderSize + request_size (rq_Payload req) <= MaxMessageSize ->
  EncodeRequest range_map req = Some (Ok (frame (request_header (rq_Header req)) bs)).
Proof.
  intros [Hs Hc He Hem _ _] Hmax. unfold EncodeRequest, HeaderSize in *. rewrite Hc. cbn [mbind option_bind].
  rewrite checked_size by lia. set (size := request_size (rq_Payload req)) in *.
  destruct (Z.ltb_spec MaxMessageSize size); [lia|].
  assert ((if is_coord (rq_Payload req) then Ok size else Ok size) = Ok (E := codec_error) size) as -> by (by destruct (is_coord _)).
  rewrite wrapu_small by lia. destruct (Z.ltb_spec MaxMessageSize (20 + size)); [lia|].
  rewrite (emits_from0 _ _ _ (sent_request_header (rq_Header req) _)).
  2: { rewrite length_app, be_enc_length, request_header_length. lia. }
  cbn [mbind option_bind]. rewrite He. cbn [mbind option_bind].
  apply finish_frame; [done|rewrite request_header_length; lia|lia].
Qed.

Lemma EncodeRequest_large req bs e :
  encodable req (rh_Type (rq_Header req)) bs e ->
  MaxMessageSize < HeaderSize + request_size (rq_Payload req) ->
  EncodeRequest range_map req
  = if is_coord (rq_Payload req) && (MaxMessageSize <? request_size (rq_Payload req)) then None else Some (Err ErrTooLarge).
Proof.
  intros [Hs Hc He Hem Hn _] Hmax. unfold EncodeRequest, HeaderSize in *. rewrite Hc. cbn [mbind option_bind].
  rewrite checked_size by lia. set (size := request_size (rq_Payload req)) in *.
  destruct (Z.ltb_spec MaxMessageSize size) as [Hbig|Hfit].
  - destruct (is_coord (rq_Payload req)) eqn:Ec; [|done]. cbn [andb].
    change (wrapu 32 (20 + 0)) with 20. cbv beta iota.
    rewrite (emits_from0 _ _ _ (sent_request_header (rq_Header req) _)).
    2: { rewrite length_app, be_enc_length, request_header_length. lia. }
    change (MaxMessageSize <? 20) with false. cbn [mbind option_bind]. rewrite He. cbn [mbind option_bind].
    rewrite Hn; [done|done|]. rewrite length_replicate, length_app, be_enc_length, request_header_length.
    unfold MaxMessageSize in *. lia.
  - rewrite andb_false_r.
    assert ((if is_coord (rq_Payload req) then Ok size else Ok size) = Ok (E := codec_error) size) as -> by (by destruct (is_coord _)).
    assert (wrapu 32 (20 + size) = 20 + size) as ->.
    { unfold wrapu, MaxMessageSize in *. apply Z.mod_small. lia. }
    destruct (Z.ltb_spec MaxMessageSize (20 + size)); [done|lia].
Qed.

(** The body of a frame behind a header that a parser accepts. *)
Lemma frame_body {A} (p : parser A) header h body crc :
  parses p header h -> length crc = 4%nat ->
  p (header ++ body ++ crc) [] 0 = Some (h, zlen header)
  /\ slice (header ++ body ++ crc) (zlen header) (zlen (header ++ body ++ crc) - 4) = Some body
  /\ drop (Z.to_nat (zlen (header ++ body ++ crc) - 4)) (header ++ body ++ crc) = crc.
Proof.
  intros Hp Hc. split; [exact (Hp [] (body ++ crc) [])|]. split.
  - rewrite <- (slice_app header body crc). f_equal. rewrite !length_app. lia.
  - rewrite (assoc_L (++)). apply drop_app_length'. rewrite !length_app. lia.
Qed.

Lemma DecodeRequest_frame h p bs e rest :
  typed_header h -> encodable (mkRequest h p) (rh_Type h) bs e ->
  HeaderSize + request_size p <= MaxMessageSize ->
  DecodeRequest (frame (request_header h) bs ++ rest) = Some (Ok (mkRequest h (sent_request p), rest)).
Proof.
  intros Hh He Hmax. pose proof (enc_size _ _ _ _ He) as Hs. cbn [rq_Payload] in Hs. unfold HeaderSize in Hmax.
  unfold DecodeRequest. rewrite readFrame_frame by (rewrite request_header_length; lia).
  destruct (frame_body parseRequestHeader (request_header h) h bs _ (parse_request_header h Hh)
              (be_enc_length 4 (ChecksumIEEE (request_header h ++ bs)))) as (-> & Hb & _).
  cbn [mbind option_bind]. rewrite Hb. cbn [mbind option_bind].
  rewrite (enc_decodes _ _ _ _ He) by (cbn [rq_Payload]; lia). done.
Qed.
End roundtrip.

(** C19: a request whose payload has the type its header names is read back from its
    frame, whatever follows it on the connection: header, topics, messages with their
    headers in any order, producer identity, and every field of the coordination payloads;
    the only fields lost are the acknowledgement level, timeout and leader epoch of a
    produce request and the timestamp of an offset request.  The frame is as long as was
    computed.  A request over the size limit is refused with an error, except that a
    coordination payload that is itself over the limit is measured as zero and panics. *)
Theorem request_roundtrip (range_map : gmap bytes bytes -> list (bytes * bytes)) (req : Request) :
  (forall m, range_map m ≡ₚ map_to_list m) ->
  typed_header (rq_Header req) -> type_of_request (rq_Payload req) = Some (rh_Type (rq_Header req)) ->
  typed_request (rq_Payload req) ->
  let size := HeaderSize + request_size range_map (rq_Payload req) in
  (size <= MaxMessageSize ->
     exists bs, EncodeRequest range_map req = Some (Ok bs) /\ zlen bs = size
       /\ forall rest, DecodeRequest (bs ++ rest)
                        = Some (Ok (mkRequest (rq_Header req) (sent_request (rq_Payload req)), rest)))
  /\ (MaxMessageSize < size ->
       EncodeRequest range_map req
       = if is_coord (rq_Payload req) && (MaxMessageSize <? request_size range_map (rq_Payload req))
         then None else Some (Err ErrTooLarge)).
Proof.
  intros Hr Hh Ht Hp size. destruct req as [h p]. cbn [rq_Header rq_Payload] in *.
  destruct (request_encodable range_map Hr h p Ht Hp) as (bs & e & He). split.
  - intros Hmax. eexists. split; [by eapply (EncodeRequest_ok _ (mkRequest h p))|]. split.
    + unfold frame, size, HeaderSize. rewrite !length_app, !be_enc_length, request_header_length.
      pose proof (enc_size _ _ _ _ _ He). cbn [rq_Payload] in *. lia.
    + intros rest. by eapply DecodeRequest_frame.
  - intros Hmax. by eapply (EncodeRequest_large _ (mkRequest h p)).
Qed.

Lemma request_roundtrip_witness :
  exists bs, EncodeRequest map_to_list (mkRequest (mkReqHeader 7 RequestTypeGetOffset 1 0)
                             (QGetOffset (mkGetOffsetRequest [x74] 3 99))) = Some (Ok bs)
    /\ DecodeRequest bs = Some (Ok (mkRequest (mkReqHeader 7 RequestTypeGetOffset 1 0)
                             (QGetOffset (mkGetOffsetRequest [x74] 3 0)), [])).
Proof.
  destruct (request_roundtrip map_to_list (mkRequest (mkReqHeader 7 RequestTypeGetOffset 1 0)
              (QGetOffset (mkGetOffsetRequest [x74] 3 99)))) as [H _].
  - reflexivity.
  - unfold typed_header, in_u64, in_u8, in_u16, RequestTypeGetOffset. cbn. lia.
  - reflexivity.
  - cbn. unfold in_u32. lia.
  - destruct H as (bs & He & _ & Hd); [vm_compute; discriminate|].
    exists bs. split; [exact He|]. specialize (Hd []). rewrite app_nil_r in Hd. exact Hd.
Defined.

(** ** Responses *)

Section responses.
Context (range_map : gmap bytes bytes -> list (bytes * bytes)).
Context (range_map_perm : forall m, range_map m ≡ₚ map_to_list m).

(** The payload of a successful response as it arrives. *)
Definition sent_response (p : ResponsePayload) : ResponsePayload :=
  match p with
  | SProduce p => SProduce (mkProduceResponse [] 0 (prs_BaseOffset p) (prs_NumMessages p) (prs_HighWaterMark p) 0)
  | SFetch p => SFetch (mkFetchResponse [] 0 (frs_HighWaterMark p) (frs_Messages p)
                          (frs_LastStableOffset p) (frs_NextOffset p))
  | SGetOffset p => SGetOffset (mkGetOffsetResponse (grs_Topic p) (grs_PartitionID p) (grs_StartOffset p)
                                  (grs_EndOffset p) (grs_HighWaterMark p) 0 0 0)
  | SCreateTopic p => SCreateTopic (mkTopicResponse (tr_Topic p) (tr_Done p) 0)
  | SDeleteTopic p => SDeleteTopic (mkTopicResponse (tr_Topic p) (tr_Done p) 0)
  | _ => p
  end.

Definition typed_response (p : ResponsePayload) : Prop :=
  match p with
  | SProduce p => in_i64 (prs_BaseOffset p) /\ in_u32 (prs_NumMessages p) /\ in_i64 (prs_HighWaterMark p)
  | SFetch p => in_i64 (frs_HighWaterMark p) /\ Forall typed_message (frs_Messages p)
                /\ in_i64 (frs_LastStableOffset p) /\ in_i64 (frs_NextOffset p)
  | SGetOffset p => in_u32 (grs_PartitionID p) /\ in_i64 (grs_StartOffset p) /\ in_i64 (grs_EndOffset p)
                    /\ in_i64 (grs_HighWaterMark p)
  | SListTopics topics => Forall (fun t => in_u32 (ti_NumPartitions t)) topics
  | SHealthCheck p => in_i64 (hc_Uptime p)
  | SCoord p => typed_any p
  | _ => True
  end.

Definition type_of_response (p : ResponsePayload) : option Z :=
  match p with
  | SProduce _ => Some RequestTypeProduce
  | SFetch _ => Some RequestTypeFetch
  | SGetOffset _ => Some RequestTypeGetOffset
  | SCreateTopic _ => Some RequestTypeCreateTopic
  | SDeleteTopic _ => Some RequestTypeDeleteTopic
  | SListTopics _ => Some RequestTypeListTopics
  | SHealthCheck _ => Some RequestTypeHealthCheck
  | SCoord p => response_type p
  | SError _ | SRaw _ _ | SNil => None
  end.

Definition response_size (p : ResponsePayload) : Z :=
  match p with
  | SProduce _ => 20
  | SFetch p => 28 + sum_sizes (Message_Size range_map) (frs_Messages p)
  | SGetOffset p => 32 + zlen (grs_Topic p)
  | SCreateTopic p | SDeleteTopic p => 5 + zlen (tr_Topic p)
  | SListTopics topics => 4 + sum_sizes (fun t => 4 + zlen (ti_Name t) + 4) topics
  | SHealthCheck p => 12 + zlen (hc_Status p)
  | SError p => 4 + zlen (er_Message p)
  | SRaw data _ => zlen data
  | SCoord p => measured p
  | SNil => 0
  end.

Ltac solve_size := cbn [frs_Messages grs_Topic tr_Topic hc_Status ti_Name]; lia.

(** A payload with its emitter and the parser of its type. *)
Lemma response_sends t p :
  type_of_response p = Some t -> typed_response p -> (forall c, p <> SCoord c) ->
  exists e pr, encodeResponsePayload range_map (mkResponse (mkRespHeader 0 StatusOK 0) p) = Some e
    /\ responseParser t = Some pr /\ sends (response_size p) e pr (sent_response p).
Proof using range_map_perm.
  intros Ht Hp Hc. destruct p as [p|p|p|p|p|topics|p|p|data|p|]; cbn in Ht; simplify_eq; try (by edestruct Hc);
    do 2 eexists; (split; [reflexivity|]); (split; [reflexivity|]).
  - destruct p as [topic part base num hwm ep]; destruct Hp as (? & ? & ?). cbn in *. unfold encodeProduceResponse, parseProduceResponse.
    cbn [prs_BaseOffset prs_NumMessages prs_HighWaterMark]. eapply sends_size; [sends_fields|solve_size].
  - destruct p as [t i hwm msgs lso next]. destruct Hp as (Hh & Hm & Hl & Hn).
    cbn [frs_HighWaterMark frs_Messages frs_LastStableOffset frs_NextOffset] in *. rewrite Forall_forall in Hm.
    unfold encodeFetchResponse, parseFetchResponse.
    cbn [frs_HighWaterMark frs_Messages frs_LastStableOffset frs_NextOffset response_size sent_response].
    eapply sends_size.
    + eapply sends_then; [eauto with wire|]. cbn beta.
      eapply (sends_list_then (8 + 8) (Message_Size range_map)); [intros x Hx; by apply sends_message, Hm|lia|].
      eapply (sends_last (8 + 8) _ _ _ (lso, next)); [|reflexivity].
      apply sends_remaining; [|lia]. eapply sends_then; [eauto with wire|]. cbn beta.
      eapply sends_last; [|reflexivity]. apply sends_remaining; [eauto with wire|lia].
    + solve_size.
  - destruct p as [topic part st en hwm o ts ep]; destruct Hp as (? & ? & ? & ?). cbn in *. unfold encodeGetOffsetResponse, parseGetOffsetResponse.
    cbn [grs_Topic grs_PartitionID grs_StartOffset grs_EndOffset grs_HighWaterMark response_size].
    eapply sends_size; [sends_fields|solve_size].
  - destruct p as [topic b c]. unfold encodeTopicResponse, parseTopicResponse.
    cbn [tr_Topic tr_Done response_size sent_response]. eapply sends_size.
    + eapply sends_then; [apply sends_string|]. cbn beta.
      eapply sends_last; [apply (sends_uint 1 (if b then 1 else 0)); destruct b; lia|]. by destruct b.
    + solve_size.
  - destruct p as [topic b c]. unfold encodeTopicResponse, parseTopicResponse.
    cbn [tr_Topic tr_Done response_size sent_response]. eapply sends_size.
    + eapply sends_then; [apply sends_string|]. cbn beta.
      eapply sends_last; [apply (sends_uint 1 (if b then 1 else 0)); destruct b; lia|]. by destruct b.
    + solve_size.
  - cbn in Hp. rewrite Forall_forall in Hp. apply (sends_list (fun t => 4 + zlen (ti_Name t) + 4)); [|done].
    intros [name n] Hx. specialize (Hp _ Hx). cbn in Hp. cbn [ti_Name]. split; [lia|].
    unfold encodeTopicInfo, parseTopicInfo. cbn [ti_Name ti_NumPartitions]. sends_fields.
  - destruct p as [status up]. cbn in Hp. unfold encodeHealthCheck, parseHealthCheck.
    cbn [hc_Status hc_Uptime response_size sent_response]. eapply sends_size.
    + eapply sends_then; [eauto with wire|]. cbn beta. sends_fields.
    + solve_size.
Qed.

Definition typed_response_header (h : ResponseHeader) : Prop :=
  in_u64 (sh_RequestID h) /\ in_u8 (sh_Status h) /\ in_u16 (sh_ErrorCode h).

Definition response_header (h : ResponseHeader) : bytes :=
  be_enc 8 (sh_RequestID h) ++ be_enc 1 (sh_Status h) ++ be_enc 2 (sh_ErrorCode h).

Lemma response_header_length h : length (response_header h) = 11%nat.
Proof. unfold response_header. by rewrite !length_app, !be_enc_length. Qed.

Lemma parse_response_header h : typed_response_header h -> parses parseResponseHeader (response_header h) h.
Proof.
  destruct h as [id s c]. intros (Hi & Hs & Hc). cbn in Hi, Hs, Hc.
  unfold response_header, parseResponseHeader. cbn [sh_RequestID sh_Status sh_ErrorCode].
  do 2 (eapply parses_bind; [by apply parses_uint|]; cbn beta).
  rewrite <- (app_nil_r (be_enc 2 c)). eapply parses_bind; [by apply parses_uint|]. apply parses_ret.
Qed.

Lemma sent_response_header h x : emits
  (putUint 4 x +>+ putUint 8 (sh_RequestID h) +>+ putUint 1 (sh_Status h) +>+ putUint 2 (sh_ErrorCode h))
  (be_enc 4 x ++ response_header h).
Proof. unfold response_header. repeat (apply emits_then; [apply emits_uint|]). apply emits_uint. Qed.

Lemma EncodeResponse_ok resp e bs :
  calculateResponsePayloadSize range_map resp = Some (Ok (zlen bs)) ->
  encodeResponsePayload range_map resp = Some e -> emits e bs -> 19 + zlen bs <= MaxMessageSize ->
  EncodeResponse range_map resp = Some (Ok (frame (response_header (rs_Header resp)) bs)).
Proof.
  intros Hs He Hem Hmax. unfold EncodeResponse. rewrite Hs. cbn [mbind option_bind].
  rewrite wrapu_small by lia. destruct (Z.ltb_spec MaxMessageSize (19 + zlen bs)); [lia|].
  rewrite (emits_from0 _ _ _ (sent_response_header (rs_Header resp) _)).
  2: { rewrite length_app, be_enc_length, response_header_length. lia. }
  cbn [mbind option_bind]. rewrite He. cbn [mbind option_bind].
  apply finish_frame; [done|rewrite response_header_length; lia|lia].
Qed.

(** The size that is computed is the size of the encoding. *)
Lemma response_calculated h p t :
  sh_Status h = StatusOK -> type_of_response p = Some t -> (forall c, p <> SCoord c) ->
  0 <= response_size p <= MaxMessageSize ->
  calculateResponsePayloadSize range_map (mkResponse h p) = Some (Ok (response_size p)).
Proof.
  intros Hh Ht Hc Hs. unfold calculateResponsePayloadSize. cbn [rs_Header rs_Payload]. rewrite Hh.
  change (negb (StatusOK =? StatusOK)) with false. cbv iota.
  assert (forall n, n = response_size p -> Some (checkedPayloadSize n) = Some (Ok (response_size p))) as H.
  { intros n ->. rewrite checked_size by lia. destruct (Z.ltb_spec MaxMessageSize (response_size p)); [lia|done]. }
  destruct p as [p|p|p|p|p|topics|p|p|data|p|]; cbn [type_of_response] in Ht; try discriminate;
    try (by edestruct Hc); try done; apply H; cbn [response_size]; lia.
Qed.

(** Where the payload's bytes stand in a successful response. *)
Lemma DecodeResponse_ok h bs rest :
  typed_response_header h -> sh_Status h = StatusOK -> 19 + zlen bs <= MaxMessageSize ->
  DecodeResponse (frame (response_header h) bs ++ rest)
  = Some (Ok (mkResponse h (SRaw bs (be_enc 4 (ChecksumIEEE (response_header h ++ bs)))), rest)).
Proof.
  intros Hh Hs Hmax. unfold DecodeResponse. rewrite readFrame_frame by (rewrite response_header_length; lia).
  destruct (frame_body parseResponseHeader (response_header h) h bs _ (parse_response_header h Hh)
              (be_enc_length 4 (ChecksumIEEE (response_header h ++ bs)))) as (-> & Hb & Hd).
  cbn [mbind option_bind]. rewrite Hs. change (negb (StatusOK =? StatusOK)) with false. cbv iota.
  by rewrite Hb, Hd.
Qed.

Lemma ok_response h p t :
  typed_response_header h -> sh_Status h = StatusOK -> type_of_response p = Some t -> typed_response p ->
  19 + response_size p <= MaxMessageSize ->
  exists bs, EncodeResponse range_map (mkResponse h p) = Some (Ok (frame (response_header h) bs))
    /\ 19 + zlen bs <= MaxMessageSize
    /\ forall spare, DecodeResponsePayload (mkResponse h (SRaw bs spare)) t = Some (Ok (mkResponse h (sent_response p))).
Proof using range_map_perm.
  intros Hh Hs Ht Hp Hmax.
  assert (forall e, encodeResponsePayload range_map (mkResponse (mkRespHeader 0 StatusOK 0) p) = Some e ->
          encodeResponsePayload range_map (mkResponse h p) = Some e) as Henc.
  { intros e. unfold encodeResponsePayload. cbn [rs_Header sh_Status]. by rewrite Hs. }
  destruct p as [p|p|p|p|p|topics|p|p|data|c|].
  10: { cbn [type_of_response typed_response response_size] in *.
    destruct (coordination_response_codec _ _ Ht Hp) as (d & Hd & Hc).
    destruct (coord_writes _ _ Hc) as (bs & Hl & Hm & He & _ & Hr). exists bs.
    destruct (Z.ltb_spec MaxMessageSize (measured c)); [lia|].
    split; [|split; [lia|]].
    - eapply (EncodeResponse_ok (mkResponse h (SCoord c))); [|by apply Henc|exact He|lia].
      unfold calculateResponsePayloadSize. cbn [rs_Header rs_Payload]. rewrite Hs, Hm, Hl. done.
    - intros spare. unfold DecodeResponsePayload, decodeCoordinationResponse. cbn [rs_Payload rs_Header].
      rewrite (is_coordination _ _ (or_intror Ht)), Hd, (Hr ltac:(lia)). done. }
  all: destruct (response_sends _ _ Ht Hp ltac:(done)) as (e & pr & He & Hpr & Hsend);
    destruct (sends_run _ _ _ _ Hsend) as (bs & Hl & Hem & Hr); exists bs;
    (split; [eapply (EncodeResponse_ok (mkResponse h _)); [|by apply Henc|done|lia]|]);
    [rewrite Hl; eapply response_calculated; [done..|lia]|].
  all: split; [lia|]; intros sp; unfold DecodeResponsePayload; cbn [rs_Payload rs_Header];
    assert (IsCoordinationRequest t = false) as -> by (cbn [type_of_response] in Ht; try discriminate; injection Ht as <-; reflexivity);
    rewrite Hpr, (Hr ltac:(lia)); done.
Qed.

Lemma error_response h er :
  typed_response_header h -> sh_Status h <> StatusOK -> 23 + zlen (er_Message er) <= MaxMessageSize ->
  exists bs, EncodeResponse range_map (mkResponse h (SError er)) = Some (Ok (frame (response_header h) bs))
    /\ forall rest, DecodeResponse (frame (response_header h) bs ++ rest)
         = Some (Ok (mkResponse h (SError (mkErrorResponse (sh_ErrorCode h) (er_Message er))), rest)).
Proof.
  intros Hh Hs Hmax. apply Z.eqb_neq in Hs.
  destruct (sends_string (er_Message er)) as (bs & Hl & Hem & Hp). exists bs. split.
  - eapply (EncodeResponse_ok (mkResponse h (SError er))); [|..|exact Hem|lia].
    + unfold calculateResponsePayloadSize. cbn [rs_Header rs_Payload]. rewrite Hs. cbn [negb].
      rewrite checked_size, Hl by lia. destruct (Z.ltb_spec MaxMessageSize (4 + zlen (er_Message er))); [lia|done].
    + unfold encodeResponsePayload. cbn [rs_Header rs_Payload]. by rewrite Hs.
  - intros rest. unfold DecodeResponse. rewrite readFrame_frame by (rewrite response_header_length; lia).
    set (crc := be_enc 4 (ChecksumIEEE (response_header h ++ bs))).
    destruct (frame_body parseResponseHeader (response_header h) h bs crc (parse_response_header h Hh)
                (be_enc_length 4 _)) as (-> & _ & _).
    cbn [mbind option_bind]. rewrite Hs. cbn [negb]. cbv iota.
    specialize (Hp ltac:(lia) (response_header h) crc []). unfold getString, mbind, parser_bind in Hp.
    assert (zlen (response_header h ++ bs ++ crc) = 15 + zlen bs) as Hlen.
    { rewrite !length_app, response_header_length. unfold crc. rewrite be_enc_length. lia. }
    unfold parseErrorMessage. rewrite Hlen. rewrite response_header_length in *.
    destruct (Z.ltb_spec (Z.of_nat 11) (15 + zlen bs - 4)); [|lia].
    destruct (getUint 4 _ _ _) as [[n o]|] eqn:Eg; [|done]. cbn [mbind option_bind].
    unfold getSlice in Hp. rewrite app_nil_r in Hp. destruct (slice _ o (o + n)) as [s|] eqn:Esl; [|done].
    cbn [mbind option_bind] in Hp. injection Hp as -> Ho.
    destruct (Z.leb_spec (o + n) (15 + zlen bs - 4)); [|lia]. done.
Qed.
End responses.

(** C20: a response is read back from its frame: for a successful response of the request's
    type, its payload after the second decoding step, without the fields no frame carries
    (topic, partition and leader epoch of produce and fetch; offset, timestamp and epoch of
    an offset query; error code of topic creation and deletion); for a failed one, the
    error code of the header and the message. *)
Theorem response_roundtrip (range_map : gmap bytes bytes -> list (bytes * bytes)) (h : ResponseHeader) :
  (forall m, range_map m ≡ₚ map_to_list m) -> typed_response_header h ->
  (forall p t, sh_Status h = StatusOK -> type_of_response p = Some t -> typed_response p ->
     19 + response_size range_map p <= MaxMessageSize ->
     exists bs r, EncodeResponse range_map (mkResponse h p) = Some (Ok bs)
       /\ (forall rest, DecodeResponse (bs ++ rest) = Some (Ok (r, rest)))
       /\ DecodeResponsePayload r t = Some (Ok (mkResponse h (sent_response p))))
  /\ (forall er, sh_Status h <> StatusOK -> 23 + zlen (er_Message er) <= MaxMessageSize ->
     exists bs, EncodeResponse range_map (mkResponse h (SError er)) = Some (Ok bs)
       /\ forall rest, DecodeResponse (bs ++ rest)
            = Some (Ok (mkResponse h (SError (mkErrorResponse (sh_ErrorCode h) (er_Message er))), rest))).
Proof.
  intros Hr Hh. split.
  - intros p t Hs Ht Hp Hmax. destruct (ok_response range_map Hr h p t Hh Hs Ht Hp Hmax) as (bs & He & Hl & Hd).
    eexists _, _. split; [exact He|]. split; [intros rest; by apply DecodeResponse_ok|apply Hd].
  - intros er Hs Hmax. destruct (error_response range_map h er Hh Hs Hmax) as (bs & He & Hd). eauto.
Qed.

Lemma response_roundtrip_witness :
  exists bs r, EncodeResponse map_to_list (mkResponse (mkRespHeader 7 StatusOK 0)
                 (SProduce (mkProduceResponse [x74] 1 5 2 7 3))) = Some (Ok bs)
    /\ DecodeResponse (bs ++ []) = Some (Ok (r, []))
    /\ DecodeResponsePayload r RequestTypeProduce
       = Some (Ok (mkResponse (mkRespHeader 7 StatusOK 0) (SProduce (mkProduceResponse [] 0 5 2 7 0)))).
Proof.
  destruct (response_roundtrip map_to_list (mkRespHeader 7 StatusOK 0)) as [H _].
  - reflexivity.
  - unfold typed_response_header, in_u64, in_u8, in_u16, StatusOK. cbn. lia.
  - destruct (H (SProduce (mkProduceResponse [x74] 1 5 2 7 3)) RequestTypeProduce) as (bs & r & He & Hd & Hp).
    + reflexivity.
    + reflexivity.
    + cbn. unfold in_i64, in_u32. lia.
    + vm_compute. discriminate.
    + exists bs, r. split; [exact He|]. split; [apply Hd|exact Hp].
Defined.

(** ** Malformed frames *)

(** What the topic of a payload is read as: a length that does not fit makes the slice expression
    panic only beyond the capacity. *)
Lemma getString_short body spare :
  zlen body < 4 \/ zlen body + zlen spare - 4 < be_dec (take 4 body) -> getString body spare 0 = None.
Proof.
  intros Hshort. unfold getString, mbind, parser_bind, getUint, get_be.
  destruct (Z.ltb_spec (zlen body) 4) as [Hs|Hs]; [by rewrite slice_None by lia|]. destruct Hshort as [?|Hlen]; [lia|].
  pose proof (slice_app [] (take 4 body) (drop 4 body)) as Hsl. cbn [app length] in Hsl.
  rewrite take_drop, length_take in Hsl. change (Z.of_nat 0) with 0 in Hsl.
  replace (0 + Z.of_nat 4) with (0 + Z.of_nat (Nat.min 4 (length body))) by lia.
  rewrite Hsl. cbn [fmap option_fmap option_map mbind option_bind]. unfold getSlice.
  rewrite slice_None by (rewrite length_app; lia). done.
Qed.

Lemma getString_offset body spare s o : getString body spare 0 = Some (s, o) -> o = 4 + be_dec (take 4 body).
Proof.
  unfold getString, mbind, parser_bind, getUint, get_be. destruct (slice body 0 (0 + Z.of_nat 4)) as [l|] eqn:Es; [|done].
  cbn [fmap option_fmap option_map mbind option_bind]. unfold getSlice. destruct (slice (body ++ spare) _ _); [|done].
  cbn [mbind option_bind]. intros [= _ <-]. f_equal. unfold slice in Es. case_match; [|done]. by injection Es as <-.
Qed.

(** The topic runs past the payload and another field follows it: reading that panics. *)
Lemma getString_then_uint {A} body spare n (k : bytes -> Z -> parser A) :
  zlen body < 4 \/ zlen body - 4 < be_dec (take 4 body) ->
  run_parser (getString ≫= fun topic => getUint n ≫= k topic) body spare = None.
Proof.
  intros Hshort. unfold run_parser, mbind, parser_bind.
  destruct (getString body spare 0) as [[topic o]|] eqn:Eg; [|done]. assert (zlen body < o) as Ho.
  { destruct (Z.ltb_spec (zlen body) 4) as [Hs|]; [by rewrite getString_short in Eg by (by left)|].
    apply getString_offset in Eg as ->. lia. }
  unfold getUint, get_be. rewrite slice_None by lia. done.
Qed.

(** The decoder of the plain requests trusts the lengths it reads: a frame with a
    correct checksum whose payload is too short for its topic, of type produce, fetch, get
    offset or create topic, makes it panic instead of returning an error, and the server does
    not recover from a panic; one of type delete topic does when the topic is too long by
    more than the four bytes of the checksum. *)
Theorem short_payload_panics (h : RequestHeader) (body rest : bytes) :
  typed_header h -> zlen body <= MaxMessageSize - 20 ->
  (RequestTypeProduce <= rh_Type h <= RequestTypeCreateTopic /\ (zlen body < 4 \/ zlen body - 4 < be_dec (take 4 body)))
  \/ (rh_Type h = RequestTypeDeleteTopic /\ (zlen body < 4 \/ zlen body < be_dec (take 4 body))) ->
  DecodeRequest (frame (request_header h) body ++ rest) = None.
Proof.
  intros Hh Hmax Hshort. unfold DecodeRequest.
  rewrite readFrame_frame by (rewrite request_header_length; unfold MaxMessageSize in *; lia).
  destruct (frame_body parseRequestHeader (request_header h) h body _ (parse_request_header h Hh)
              (be_enc_length 4 (ChecksumIEEE (request_header h ++ body)))) as (-> & Hb & Hd).
  cbn [mbind option_bind]. rewrite Hb. cbn [mbind option_bind]. rewrite Hd.
  set (crc := be_enc 4 (ChecksumIEEE (request_header h ++ body))).
  assert (decodeRequestPayload body crc (rh_Type h) = None) as ->; [|done].
  destruct Hshort as [[Ht Hs]|[-> Hs]].
  - unfold RequestTypeProduce, RequestTypeCreateTopic in Ht.
    assert (rh_Type h = 1 \/ rh_Type h = 2 \/ rh_Type h = 3 \/ rh_Type h = 4) as H by lia.
    destruct H as [->|[->|[->| ->]]].
    + change (Ok (E := codec_error) <$> run_parser parseProduce body crc = None). unfold parseProduce. by rewrite getString_then_uint.
    + change (Ok (E := codec_error) <$> run_parser parseFetch body crc = None). unfold parseFetch. by rewrite getString_then_uint.
    + change (Ok (E := codec_error) <$> run_parser parseGetOffset body crc = None). unfold parseGetOffset. by rewrite getString_then_uint.
    + change (Ok (E := codec_error) <$> run_parser parseCreateTopic body crc = None). unfold parseCreateTopic. by rewrite getString_then_uint.
  - change (Ok (E := codec_error) <$> run_parser parseDeleteTopic body crc = None).
    unfold run_parser, parseDeleteTopic, mbind, parser_bind. rewrite getString_short; [done|].
    unfold crc. rewrite be_enc_length. lia.
Qed.

(** A request to delete a topic whose length is too long by up to four bytes is not refused: the
    name is completed with bytes of the frame's checksum. *)
Lemma delete_topic_reads_checksum :
  DecodeRequest (frame (request_header (mkReqHeader 1 RequestTypeDeleteTopic 1 0)) [x00; x00; x00; x02; x61])
  = Some (Ok (mkRequest (mkReqHeader 1 RequestTypeDeleteTopic 1 0)
                (QDeleteTopic (x61 :: take 1 (be_enc 4 (ChecksumIEEE (request_header (mkReqHeader 1 RequestTypeDeleteTopic 1 0)
                                                                     ++ [x00; x00; x00; x02; x61]))))), [])).
Proof. vm_compute. reflexivity. Qed.

Lemma short_payload_panics_witness :
  DecodeRequest (frame (request_header (mkReqHeader 1 RequestTypeFetch 1 0)) [] ++ []) = None.
Proof.
  apply short_payload_panics.
  - unfold typed_header, in_u64, in_u8, in_u16, RequestTypeFetch. cbn. lia.
  - cbn. unfold MaxMessageSize. lia.
  - left. cbn. unfold RequestTypeProduce, RequestTypeFetch, RequestTypeCreateTopic. lia.
Defined.
