(* ===== verification/Txn.v ===== *)
(** * The transaction coordinator (pkg/transaction)

    [TransactionCoordinator] runs the two-phase end of a transaction: it records
    the outcome, writes a marker to every partition of the transaction, publishes
    or drops the offsets committed inside it, and completes.  Every handler holds
    the coordinator's lock and is one step here; the expiry sweep and the delayed
    clean-up are steps that may happen at any time, with the time as an argument.

    The marker writer and the offset committer are interfaces whose
    implementations live elsewhere.  What they did is part of the state: the
    markers and offsets that were accepted, in order, and a count of the calls;
    whether a call succeeds is a parameter, an arbitrary function of that count,
    so that a failed call may succeed when it is retried.  A call that failed is
    kept with what it was asked to do: an implementation may have done a part of
    it, as the broker's committer does when the offset storage fails half-way.  Identifiers and topics
    are byte strings, as Go compares them. *)

From S2P Require Import Prelude GoBytes.
From stdpp Require Import prelude list sorting gmap.
From Stdlib Require Import ZArith Lia Strings.Byte.

Open Scope Z_scope.

(** ** Data *)

Inductive TransactionState :=
| StateEmpty | StateOngoing | StatePrepareCommit | StatePrepareAbort
| StateCompleteCommit | StateCompleteAbort.

#[export] Instance TransactionState_eq_dec : EqDecision TransactionState.
Proof. solve_decision. Defined.

Inductive ErrorCode :=
| ErrorNone | ErrorInvalidProducerEpoch | ErrorInvalidTransactionState
| ErrorInvalidProducerIDMapping | ErrorTransactionCoordinatorNotAvailable
| ErrorTransactionCoordinatorFenced | ErrorProducerFenced | ErrorInvalidTransactionTimeout
| ErrorConcurrentTransactions | ErrorTransactionAborted | ErrorInvalidPartitionList.

#[export] Instance ErrorCode_eq_dec : EqDecision ErrorCode.
Proof. solve_decision. Defined.

Record PartitionMetadata := mkPartition { p_Topic : bytes; p_Partition : Z }.

#[export] Instance PartitionMetadata_eq_dec : EqDecision PartitionMetadata.
Proof. solve_decision. Defined.

Record OffsetMetadata := mkOffset { o_Offset : Z; o_Metadata : bytes }.
Definition offsets_map : Type := gmap bytes (gmap Z OffsetMetadata).

Record TransactionMetadata := mkTxn {
  t_TransactionID : bytes;
  t_ProducerID : Z;
  t_ProducerEpoch : Z;
  t_State : TransactionState;
  t_Partitions : list PartitionMetadata;
  t_TransactionTimeout : Z;
  t_StartTime : Z;
  t_LastUpdateTime : Z;
  t_GroupID : bytes;
  t_PendingOffsets : offsets_map
}.

Record ProducerMetadata := mkProducer {
  pr_ProducerID : Z;
  pr_ProducerEpoch : Z;
  pr_TransactionID : bytes;
  pr_TransactionTimeout : Z;
  pr_LastTimestamp : Z
}.

Record TransactionMarker := mkMarker {
  mk_ProducerID : Z;
  mk_ProducerEpoch : Z;
  mk_Commit : bool;
  mk_Timestamp : Z
}.
Record RecordedMarker := mkRecorded { rm_Partition : PartitionMetadata; rm_Marker : TransactionMarker }.
Record RecordedOffsetCommit := mkOffsetCommit { oc_GroupID : bytes; oc_Offsets : offsets_map }.

(** A call to the writer or to the committer, and what it was asked to do. *)
Inductive call := MarkerCall (r : RecordedMarker) | CommitCall (c : RecordedOffsetCommit).

Record TransactionLogEntry := mkEntry {
  e_TransactionID : bytes;
  e_ProducerID : Z;
  e_ProducerEpoch : Z;
  e_State : TransactionState;
  e_Partitions : list PartitionMetadata;
  e_Timestamp : Z
}.

Record CoordinatorConfig := mkCoordConfig {
  cf_DefaultTransactionTimeout : Z;
  cf_MaxTransactionTimeout : Z;
  cf_TransactionRetentionTime : Z
}.

Definition second : Z := 1000000000.

Definition DefaultCoordinatorConfig : CoordinatorConfig :=
  mkCoordConfig (60 * second) (15 * 60 * second) (24 * 3600 * second).

Record TransactionCoordinator := mkTC {
  tc_transactions : gmap bytes TransactionMetadata;
  tc_producers : gmap Z ProducerMetadata;
  tc_config : CoordinatorConfig;
  tc_nextProducerID : Z;
  tc_txnLog : option (gmap bytes TransactionLogEntry);   (* nil, or the log's entries *)
  tc_markerWriter : bool;                                (* a writer is installed *)
  tc_offsetCommitter : bool;
  tc_calls : nat;                                        (* calls made to the two *)
  tc_markers : list RecordedMarker;                      (* markers made durable *)
  tc_commits : list RecordedOffsetCommit;                (* offsets published *)
  tc_cleanups : list bytes;                              (* clean-ups that are sleeping *)
  tc_failed : list call                                  (* calls that returned an error *)
}.

Definition NewTransactionCoordinator (txnLog : option (gmap bytes TransactionLogEntry))
    (config : CoordinatorConfig) : TransactionCoordinator :=
  mkTC ∅ ∅ config 1000 txnLog false false 0 [] [] [] [].

Definition set_transactions (tc : TransactionCoordinator) (m : gmap bytes TransactionMetadata) :=
  mkTC m (tc_producers tc) (tc_config tc) (tc_nextProducerID tc) (tc_txnLog tc)
    (tc_markerWriter tc) (tc_offsetCommitter tc) (tc_calls tc) (tc_markers tc) (tc_commits tc)
    (tc_cleanups tc) (tc_failed tc).
Definition set_producers (tc : TransactionCoordinator) (m : gmap Z ProducerMetadata) (next : Z) :=
  mkTC (tc_transactions tc) m (tc_config tc) next (tc_txnLog tc)
    (tc_markerWriter tc) (tc_offsetCommitter tc) (tc_calls tc) (tc_markers tc) (tc_commits tc)
    (tc_cleanups tc) (tc_failed tc).
Definition set_log (tc : TransactionCoordinator) (log : option (gmap bytes TransactionLogEntry)) :=
  mkTC (tc_transactions tc) (tc_producers tc) (tc_config tc) (tc_nextProducerID tc) log
    (tc_markerWriter tc) (tc_offsetCommitter tc) (tc_calls tc) (tc_markers tc) (tc_commits tc)
    (tc_cleanups tc) (tc_failed tc).
Definition set_world (tc : TransactionCoordinator) (calls : nat) (markers : list RecordedMarker)
    (commits : list RecordedOffsetCommit) :=
  mkTC (tc_transactions tc) (tc_producers tc) (tc_config tc) (tc_nextProducerID tc) (tc_txnLog tc)
    (tc_markerWriter tc) (tc_offsetCommitter tc) calls markers commits (tc_cleanups tc) (tc_failed tc).
Definition fail_call (tc : TransactionCoordinator) (c : call) :=
  mkTC (tc_transactions tc) (tc_producers tc) (tc_config tc) (tc_nextProducerID tc) (tc_txnLog tc)
    (tc_markerWriter tc) (tc_offsetCommitter tc) (S (tc_calls tc)) (tc_markers tc) (tc_commits tc)
    (tc_cleanups tc) (tc_failed tc ++ [c]).
Definition set_cleanups (tc : TransactionCoordinator) (ids : list bytes) :=
  mkTC (tc_transactions tc) (tc_producers tc) (tc_config tc) (tc_nextProducerID tc) (tc_txnLog tc)
    (tc_markerWriter tc) (tc_offsetCommitter tc) (tc_calls tc) (tc_markers tc) (tc_commits tc) ids (tc_failed tc).

(** [txn], a pointer into the map, with some of its fields assigned. *)
Definition set_State (t : TransactionMetadata) (s : TransactionState) (now : Z) :=
  mkTxn (t_TransactionID t) (t_ProducerID t) (t_ProducerEpoch t) s (t_Partitions t)
    (t_TransactionTimeout t) (t_StartTime t) now (t_GroupID t) (t_PendingOffsets t).
Definition set_Partitions (t : TransactionMetadata) (ps : list PartitionMetadata) (now : Z) :=
  mkTxn (t_TransactionID t) (t_ProducerID t) (t_ProducerEpoch t) (t_State t) ps
    (t_TransactionTimeout t) (t_StartTime t) now (t_GroupID t) (t_PendingOffsets t).
Definition set_Group (t : TransactionMetadata) (g : bytes) (now : Z) :=
  mkTxn (t_TransactionID t) (t_ProducerID t) (t_ProducerEpoch t) (t_State t) (t_Partitions t)
    (t_TransactionTimeout t) (t_StartTime t) now g (t_PendingOffsets t).
Definition set_Pending (t : TransactionMetadata) (o : offsets_map) (now : Z) :=
  mkTxn (t_TransactionID t) (t_ProducerID t) (t_ProducerEpoch t) (t_State t) (t_Partitions t)
    (t_TransactionTimeout t) (t_StartTime t) now (t_GroupID t) o.

Definition put_txn (tc : TransactionCoordinator) (id : bytes) (t : TransactionMetadata) :=
  set_transactions tc (<[id := t]> (tc_transactions tc)).

Definition SetMarkerWriter (tc : TransactionCoordinator) (installed : bool) :=
  mkTC (tc_transactions tc) (tc_producers tc) (tc_config tc) (tc_nextProducerID tc) (tc_txnLog tc)
    installed (tc_offsetCommitter tc) (tc_calls tc) (tc_markers tc) (tc_commits tc)
    (tc_cleanups tc) (tc_failed tc).
Definition SetOffsetCommitter (tc : TransactionCoordinator) (installed : bool) :=
  mkTC (tc_transactions tc) (tc_producers tc) (tc_config tc) (tc_nextProducerID tc) (tc_txnLog tc)
    (tc_markerWriter tc) installed (tc_calls tc) (tc_markers tc) (tc_commits tc)
    (tc_cleanups tc) (tc_failed tc).

(** ** The transaction log (log.go) *)

Definition Log_Append (entries : gmap bytes TransactionLogEntry) (e : TransactionLogEntry) :=
  <[e_TransactionID e := e]> entries.
Definition Log_Read (entries : gmap bytes TransactionLogEntry) (id : bytes) := entries !! id.
Definition Log_ReadAll (entries : gmap bytes TransactionLogEntry) : list TransactionLogEntry :=
  (map_to_list entries).*2.
Definition Log_Delete (entries : gmap bytes TransactionLogEntry) (id : bytes) := delete id entries.
Definition Log_Count (entries : gmap bytes TransactionLogEntry) : Z := Z.of_nat (size entries).
Definition Log_Clear (entries : gmap bytes TransactionLogEntry) : gmap bytes TransactionLogEntry := ∅.

(** ** The in-memory writer and committer (markers.go)

    What a call that succeeds does to the record of the outside world. *)

Definition WriteMarker (markers : list RecordedMarker) (p : PartitionMetadata) (m : TransactionMarker) :=
  markers ++ [mkRecorded p m].
Definition CommitOffsets (commits : list RecordedOffsetCommit) (groupID : bytes) (offsets : offsets_map) :=
  commits ++ [mkOffsetCommit groupID offsets].

Definition logTransaction (tc : TransactionCoordinator) (t : TransactionMetadata) (now : Z) :=
  match tc_txnLog tc with
  | None => tc
  | Some entries =>
      set_log tc (Some (Log_Append entries
        (mkEntry (t_TransactionID t) (t_ProducerID t) (t_ProducerEpoch t) (t_State t)
           (t_Partitions t) now)))
  end.

(** ** Helpers *)

Definition IsExpired (t : TransactionMetadata) (now : Z) : bool :=
  t_TransactionTimeout t <? now - t_StartTime t.

Definition isTerminalState (s : TransactionState) : bool :=
  bool_decide (s = StateCompleteCommit) || bool_decide (s = StateCompleteAbort).

(** [validateProducer]: whether there is no error. *)
Definition validateProducer (tc : TransactionCoordinator) (producerID epoch : Z) : bool :=
  match tc_producers tc !! producerID with
  | None => false
  | Some p => pr_ProducerEpoch p =? epoch
  end.

(** The first producer of the map, in the order it is ranged over, that has the
    transactional id. *)
Definition findProducerByTransactionID (tc : TransactionCoordinator) (order : list Z -> list Z)
    (id : bytes) : option ProducerMetadata :=
  head (filter (fun p => pr_TransactionID p = id)
          (omap (fun k => tc_producers tc !! k) (order (map_to_list (tc_producers tc)).*1))).

Definition partitionExists (t : TransactionMetadata) (p : PartitionMetadata) : bool :=
  bool_decide (p ∈ t_Partitions t).

Definition errors_map : Type := gmap bytes (gmap Z ErrorCode).

Definition buildPartitionErrors (ps : list PartitionMetadata) (err : ErrorCode) : errors_map :=
  fold_left (fun errs p =>
    <[p_Topic p := <[p_Partition p := err]> (default ∅ (errs !! p_Topic p))]> errs) ps ∅.

Definition partitionsFromOffsets (offsets : offsets_map) : list PartitionMetadata :=
  flat_map (fun to : bytes * gmap Z OffsetMetadata =>
    map (fun po : Z * OffsetMetadata => mkPartition to.1 po.1) (map_to_list to.2))
    (map_to_list offsets).

(** [ordered[i].Topic < ordered[j].Topic], then the partition. *)
Definition partition_ltb (a b : PartitionMetadata) : bool :=
  if bool_decide (p_Topic a = p_Topic b) then p_Partition a <? p_Partition b
  else bytes_ltb (p_Topic a) (p_Topic b).
Definition partition_le (a b : PartitionMetadata) : Prop := partition_ltb b a = false.
#[export] Instance partition_le_dec : RelDecision partition_le.
Proof. intros a b. unfold partition_le. apply _. Defined.

(** Distinct partitions have one order only, so any sort gives this list. *)
Definition sortedPartitions (ps : list PartitionMetadata) : list PartitionMetadata :=
  merge_sort partition_le ps.

Definition endTxnStateError (t : TransactionMetadata) (commit : bool) : ErrorCode :=
  match t_State t with
  | StateOngoing => ErrorNone
  | StatePrepareCommit => if commit then ErrorNone else ErrorInvalidTransactionState
  | StatePrepareAbort => if commit then ErrorInvalidTransactionState else ErrorNone
  | _ => ErrorInvalidTransactionState
  end.

(** ** Handlers *)

Definition InitProducerID (tc : TransactionCoordinator) (order : list Z -> list Z) (id : bytes)
    (timeout now : Z) : (Z * Z * ErrorCode) * TransactionCoordinator :=
  let timeout := if timeout =? 0 then cf_DefaultTransactionTimeout (tc_config tc) else timeout in
  if cf_MaxTransactionTimeout (tc_config tc) <? timeout
  then ((0, 0, ErrorInvalidTransactionTimeout), tc)
  else
    let '(producerID, epoch, next) :=
      match findProducerByTransactionID tc order id with
      | Some p => (pr_ProducerID p, wraps 16 (pr_ProducerEpoch p + 1), tc_nextProducerID tc)
      | None => (wraps 64 (tc_nextProducerID tc + 1), 0, wraps 64 (tc_nextProducerID tc + 1))
      end in
    ((producerID, epoch, ErrorNone),
     set_producers tc (<[producerID := mkProducer producerID epoch id timeout now]> (tc_producers tc))
       next).

(** The partitions of [req] that are not in [txn] yet, added one by one. *)
Definition add_partitions (t : TransactionMetadata) (ps : list PartitionMetadata)
    : TransactionMetadata :=
  fold_left (fun t p => if partitionExists t p then t
                        else set_Partitions t (t_Partitions t ++ [p]) (t_LastUpdateTime t)) ps t.

(** The response's errors and whether the handler returned an error. *)
Definition AddPartitionsToTxn (tc : TransactionCoordinator) (id : bytes) (producerID epoch : Z)
    (ps : list PartitionMetadata) (now : Z) : (errors_map * bool) * TransactionCoordinator :=
  if negb (validateProducer tc producerID epoch) then ((∅, true), tc)
  else
    let existing := match tc_transactions tc !! id with
                    | Some t => if isTerminalState (t_State t) then None else Some t
                    | None => None
                    end in
    let finish tc t :=
      let t := add_partitions t ps in
      let t := set_Partitions t (t_Partitions t) now in
      ((∅, false), logTransaction (put_txn tc id t) t now) in
    match existing with
    | None =>
        match tc_producers tc !! producerID with
        | None => ((buildPartitionErrors ps ErrorInvalidProducerIDMapping, false), tc)
        | Some producer =>
            let t := mkTxn id producerID epoch StateOngoing [] (pr_TransactionTimeout producer)
                       now now [] ∅ in
            finish (logTransaction (put_txn tc id t) t now) t
        end
    | Some t =>
        if negb (bool_decide (t_State t = StateOngoing))
        then ((buildPartitionErrors ps ErrorInvalidTransactionState, false), tc)
        else if negb (t_ProducerID t =? producerID) || negb (t_ProducerEpoch t =? epoch)
        then ((buildPartitionErrors ps ErrorInvalidProducerIDMapping, false), tc)
        else finish tc t
    end.

Definition AddOffsetsToTxn (tc : TransactionCoordinator) (id : bytes) (producerID epoch : Z)
    (groupID : bytes) (now : Z) : ErrorCode * TransactionCoordinator :=
  if negb (validateProducer tc producerID epoch) then (ErrorProducerFenced, tc)
  else match tc_transactions tc !! id with
  | None => (ErrorInvalidTransactionState, tc)
  | Some t =>
      if negb (bool_decide (t_State t = StateOngoing)) then (ErrorInvalidTransactionState, tc)
      else if negb (bool_decide (t_GroupID t = [])) && negb (bool_decide (t_GroupID t = groupID))
      then (ErrorInvalidTransactionState, tc)
      else (ErrorNone, put_txn tc id (set_Group t groupID now))
  end.

(** [txn.PendingOffsets] with the request's offsets assigned. *)
Definition merge_offsets (pending offsets : offsets_map) : offsets_map :=
  union_with (fun old new => Some (new ∪ old)) pending offsets.

Definition TxnOffsetCommit (tc : TransactionCoordinator) (id groupID : bytes)
    (producerID epoch : Z) (offsets : offsets_map) (now : Z) : errors_map * TransactionCoordinator :=
  let fail e := (buildPartitionErrors (partitionsFromOffsets offsets) e, tc) in
  if negb (validateProducer tc producerID epoch) then fail ErrorProducerFenced
  else match tc_transactions tc !! id with
  | None => fail ErrorInvalidTransactionState
  | Some t =>
      if negb (bool_decide (t_State t = StateOngoing)) then fail ErrorInvalidTransactionState
      else if negb (t_ProducerID t =? producerID) || negb (t_ProducerEpoch t =? epoch)
      then fail ErrorInvalidProducerIDMapping
      else if bool_decide (t_GroupID t = []) || negb (bool_decide (t_GroupID t = groupID))
      then fail ErrorInvalidTransactionState
      else if negb (tc_offsetCommitter tc) then fail ErrorTransactionCoordinatorNotAvailable
      else (buildPartitionErrors (partitionsFromOffsets offsets) ErrorNone,
            put_txn tc id (set_Pending t (merge_offsets (t_PendingOffsets t) offsets) now))
  end.

(** [go tc.scheduleTransactionCleanup(id)]: a goroutine that sleeps first. *)
Definition schedule_cleanup (tc : TransactionCoordinator) (id : bytes) : TransactionCoordinator :=
  set_cleanups tc (tc_cleanups tc ++ [id]).

Section resolve.
(** Whether the [n]-th call to the marker writer or the offset committer
    succeeds. *)
Context (call_ok : nat -> bool).

(** The loop of [writeMarkers]: it stops at the first failure. *)
Fixpoint write_loop (tc : TransactionCoordinator) (ps : list PartitionMetadata)
    (m : TransactionMarker) : bool * TransactionCoordinator :=
  match ps with
  | [] => (true, tc)
  | p :: ps' =>
      if call_ok (tc_calls tc)
      then write_loop (set_world tc (S (tc_calls tc)) (WriteMarker (tc_markers tc) p m)
                         (tc_commits tc)) ps' m
      else (false, fail_call tc (MarkerCall (mkRecorded p m)))
  end.

Definition writeMarkers (tc : TransactionCoordinator) (t : TransactionMetadata) (commit : bool)
    (now : Z) : bool * TransactionCoordinator :=
  match t_Partitions t with
  | [] => (true, tc)
  | _ =>
      if negb (tc_markerWriter tc) then (false, tc)
      else write_loop tc (sortedPartitions (t_Partitions t))
             (mkMarker (t_ProducerID t) (t_ProducerEpoch t) commit (UnixNano now))
  end.

(** [resolvePendingOffsets]: success, and the transaction's pending offsets. *)
Definition resolvePendingOffsets (tc : TransactionCoordinator) (t : TransactionMetadata)
    (commit : bool) : bool * TransactionMetadata * TransactionCoordinator :=
  let dropped := set_Pending t ∅ (t_LastUpdateTime t) in
  if bool_decide (t_PendingOffsets t = ∅) then (true, t, tc)
  else if negb commit then (true, dropped, tc)
  else if negb (tc_offsetCommitter tc) then (false, t, tc)
  else if call_ok (tc_calls tc)
  then (true, dropped,
        set_world tc (S (tc_calls tc)) (tc_markers tc)
          (CommitOffsets (tc_commits tc) (t_GroupID t) (t_PendingOffsets t)))
  else (false, t, fail_call tc (CommitCall (mkOffsetCommit (t_GroupID t) (t_PendingOffsets t)))).

Definition resolvePrepared (tc : TransactionCoordinator) (id : bytes) (t : TransactionMetadata)
    (now : Z) : bool * TransactionCoordinator :=
  let commit := bool_decide (t_State t = StatePrepareCommit) in
  let '(ok, tc) := writeMarkers tc t commit now in
  if negb ok then (false, tc)
  else
    let '(ok, t, tc) := resolvePendingOffsets tc t commit in
    if negb ok then (false, tc)
    else
      let t := set_State t (if commit then StateCompleteCommit else StateCompleteAbort) now in
      (true, logTransaction (put_txn tc id t) t now).

Definition EndTxn (tc : TransactionCoordinator) (id : bytes) (producerID epoch : Z) (commit : bool)
    (now : Z) : ErrorCode * TransactionCoordinator :=
  if negb (validateProducer tc producerID epoch) then (ErrorProducerFenced, tc)
  else match tc_transactions tc !! id with
  | None => (ErrorInvalidTransactionState, tc)
  | Some t =>
      match endTxnStateError t commit with
      | ErrorNone =>
          if negb (t_ProducerID t =? producerID) || negb (t_ProducerEpoch t =? epoch)
          then (ErrorInvalidProducerIDMapping, tc)
          else
            let '(t, tc) :=
              if bool_decide (t_State t = StateOngoing) then
                let t := set_State t (if commit then StatePrepareCommit else StatePrepareAbort) now in
                (t, logTransaction (put_txn tc id t) t now)
              else (t, tc) in
            let '(ok, tc) := resolvePrepared tc id t now in
            if ok : bool then (ErrorNone, schedule_cleanup tc id)
            else (ErrorTransactionCoordinatorNotAvailable, tc)
      | e => (e, tc)
      end
  end.

(** [resolvePrepared] in the sweep, and the clean-up scheduled after it. *)
Definition sweep_resolve (tc : TransactionCoordinator) (id : bytes) (t : TransactionMetadata)
    (now : Z) : TransactionCoordinator :=
  let '(ok, tc) := resolvePrepared tc id t now in
  if ok : bool then schedule_cleanup tc id else tc.

(** One transaction of the expiry sweep. *)
Definition check_expired (tc : TransactionCoordinator) (id : bytes) (now : Z) : TransactionCoordinator :=
  match tc_transactions tc !! id with
  | None => tc
  | Some t =>
      if negb (IsExpired t now) then tc
      else match t_State t with
      | StateOngoing =>
          let t := set_State t StatePrepareAbort now in
          sweep_resolve (logTransaction (put_txn tc id t) t now) id t now
      | StatePrepareCommit | StatePrepareAbort => sweep_resolve tc id t now
      | _ => tc
      end
  end.

Definition checkExpiredTransactions (tc : TransactionCoordinator) (order : list bytes -> list bytes)
    (now : Z) : TransactionCoordinator :=
  fold_left (fun tc id => check_expired tc id now) (order (map_to_list (tc_transactions tc)).*1) tc.
End resolve.

Fixpoint list_remove (id : bytes) (ids : list bytes) : option (list bytes) :=
  match ids with
  | [] => None
  | i :: ids' => if bool_decide (i = id) then Some ids' else (i ::.) <$> list_remove id ids'
  end.

(** [scheduleTransactionCleanup], when the delay of one that sleeps is over: it
    removes whatever transaction the id names by then. *)
Definition cleanupTransaction (tc : TransactionCoordinator) (id : bytes) : TransactionCoordinator :=
  match list_remove id (tc_cleanups tc) with
  | None => tc
  | Some rest =>
      let tc := set_transactions (set_cleanups tc rest) (delete id (tc_transactions tc)) in
      match tc_txnLog tc with
      | None => tc
      | Some entries => set_log tc (Some (Log_Delete entries id))
      end
  end.

Definition GetTransactionState (tc : TransactionCoordinator) (id : bytes) : option TransactionState :=
  t_State <$> tc_transactions tc !! id.

Record CoordinatorStats := mkCStats {
  st_ActiveTransactions : Z;
  st_CompletedTransactions : Z;
  st_AbortedTransactions : Z;
  st_TotalProducers : Z
}.

Definition count_state (st : CoordinatorStats) (t : TransactionMetadata) : CoordinatorStats :=
  match t_State t with
  | StateOngoing | StatePrepareCommit | StatePrepareAbort =>
      mkCStats (st_ActiveTransactions st + 1) (st_CompletedTransactions st)
        (st_AbortedTransactions st) (st_TotalProducers st)
  | StateCompleteCommit =>
      mkCStats (st_ActiveTransactions st) (st_CompletedTransactions st + 1)
        (st_AbortedTransactions st) (st_TotalProducers st)
  | StateCompleteAbort =>
      mkCStats (st_ActiveTransactions st) (st_CompletedTransactions st)
        (st_AbortedTransactions st + 1) (st_TotalProducers st)
  | StateEmpty => st
  end.

Definition Stats (tc : TransactionCoordinator) : CoordinatorStats :=
  fold_left count_state (map_to_list (tc_transactions tc)).*2
    (mkCStats 0 0 0 (Z.of_nat (size (tc_producers tc)))).

(** ** Steps *)

Inductive txn_op :=
| OpInit (order : list Z -> list Z) (id : bytes) (timeout now : Z)
| OpAddPartitions (id : bytes) (producerID epoch : Z) (ps : list PartitionMetadata) (now : Z)
| OpAddOffsets (id : bytes) (producerID epoch : Z) (groupID : bytes) (now : Z)
| OpOffsetCommit (id groupID : bytes) (producerID epoch : Z) (offsets : offsets_map) (now : Z)
| OpEnd (id : bytes) (producerID epoch : Z) (commit : bool) (now : Z)
| OpSweep (order : list bytes -> list bytes) (now : Z)
| OpCleanup (id : bytes)
| OpSetMarkerWriter (installed : bool)
| OpSetOffsetCommitter (installed : bool).

Definition txn_step (call_ok : nat -> bool) (tc : TransactionCoordinator) (op : txn_op)
    : TransactionCoordinator :=
  match op with
  | OpInit order id timeout now => (InitProducerID tc order id timeout now).2
  | OpAddPartitions id pid e ps now => (AddPartitionsToTxn tc id pid e ps now).2
  | OpAddOffsets id pid e g now => (AddOffsetsToTxn tc id pid e g now).2
  | OpOffsetCommit id g pid e offs now => (TxnOffsetCommit tc id g pid e offs now).2
  | OpEnd id pid e c now => (EndTxn call_ok tc id pid e c now).2
  | OpSweep order now => checkExpiredTransactions call_ok tc order now
  | OpCleanup id => cleanupTransaction tc id
  | OpSetMarkerWriter b => SetMarkerWriter tc b
  | OpSetOffsetCommitter b => SetOffsetCommitter tc b
  end.

(** The orders in which the steps range over a map are orders of its keys. *)
Definition op_ok (op : txn_op) : Prop :=
  match op with
  | OpInit order _ _ _ => forall l, order l ≡ₚ l
  | OpSweep order _ => forall l, order l ≡ₚ l
  | _ => True
  end.

(** The coordinator after [n] steps. *)
Inductive reachable (call_ok : nat -> bool) : nat -> TransactionCoordinator -> Prop :=
| reach_new log config : reachable call_ok 0 (NewTransactionCoordinator log config)
| reach_step n tc op : op_ok op -> reachable call_ok n tc -> reachable call_ok (S n) (txn_step call_ok tc op).

Definition run (call_ok : nat -> bool) (tc : TransactionCoordinator) (ops : list txn_op) :=
  fold_left (txn_step call_ok) ops tc.

(** The outcome a state has recorded. *)
Definition outcome (s : TransactionState) : option bool :=
  match s with
  | StatePrepareCommit | StateCompleteCommit => Some true
  | StatePrepareAbort | StateCompleteAbort => Some false
  | _ => None
  end.

(** A transaction moves on: from ongoing to any outcome, from a prepared
    outcome to its completion; nothing else. *)
Definition advances (s s' : TransactionState) : Prop :=
  s = s'
  \/ (s = StateOngoing /\ outcome s' <> None)
  \/ (s = StatePrepareCommit /\ s' = StateCompleteCommit)
  \/ (s = StatePrepareAbort /\ s' = StateCompleteAbort).

#[export] Instance advances_preorder : PreOrder advances.
Proof.
  split; [by left|]. unfold advances. intros a b c H1 H2.
  destruct a, b, c; simpl in *; intuition (try congruence); auto.
Qed.

(** Two versions of the same transaction. *)
Record same_txn (t t' : TransactionMetadata) : Prop := {
  st_producer : t_ProducerID t' = t_ProducerID t /\ t_ProducerEpoch t' = t_ProducerEpoch t;
  st_advances : advances (t_State t) (t_State t');
  st_parts : incl (t_Partitions t) (t_Partitions t')
}.

#[export] Instance same_txn_preorder : PreOrder same_txn.
Proof.
  split.
  - intros t. split; [done|done|apply incl_refl].
  - intros a b c [[A1 A2] A3 A4] [[B1 B2] B3 B4].
    split; [split; congruence|by etrans|by eapply incl_tran].
Qed.

(** ** What the phases do *)

Lemma logTransaction_same tc t now :
  tc_transactions (logTransaction tc t now) = tc_transactions tc
  /\ tc_producers (logTransaction tc t now) = tc_producers tc
  /\ tc_nextProducerID (logTransaction tc t now) = tc_nextProducerID tc
  /\ tc_markerWriter (logTransaction tc t now) = tc_markerWriter tc
  /\ tc_offsetCommitter (logTransaction tc t now) = tc_offsetCommitter tc
  /\ tc_calls (logTransaction tc t now) = tc_calls tc
  /\ tc_markers (logTransaction tc t now) = tc_markers tc
  /\ tc_commits (logTransaction tc t now) = tc_commits tc
  /\ tc_cleanups (logTransaction tc t now) = tc_cleanups tc
  /\ tc_failed (logTransaction tc t now) = tc_failed tc.
Proof. unfold logTransaction. by destruct (tc_txnLog tc). Qed.

Lemma log_transactions tc t now : tc_transactions (logTransaction tc t now) = tc_transactions tc.
Proof. apply logTransaction_same. Qed.
Lemma log_producers tc t now : tc_producers (logTransaction tc t now) = tc_producers tc.
Proof. apply logTransaction_same. Qed.
Lemma log_next tc t now : tc_nextProducerID (logTransaction tc t now) = tc_nextProducerID tc.
Proof. apply logTransaction_same. Qed.
Lemma log_writer tc t now : tc_markerWriter (logTransaction tc t now) = tc_markerWriter tc.
Proof. apply logTransaction_same. Qed.
Lemma log_committer tc t now : tc_offsetCommitter (logTransaction tc t now) = tc_offsetCommitter tc.
Proof. apply logTransaction_same. Qed.
Lemma log_markers tc t now : tc_markers (logTransaction tc t now) = tc_markers tc.
Proof. apply logTransaction_same. Qed.
Lemma log_commits tc t now : tc_commits (logTransaction tc t now) = tc_commits tc.
Proof. apply logTransaction_same. Qed.

Lemma log_cleanups tc t now : tc_cleanups (logTransaction tc t now) = tc_cleanups tc.
Proof. apply logTransaction_same. Qed.

Lemma log_failed tc t now : tc_failed (logTransaction tc t now) = tc_failed tc.
Proof. apply logTransaction_same. Qed.

Lemma log_calls tc t now : tc_calls (logTransaction tc t now) = tc_calls tc.
Proof. apply logTransaction_same. Qed.

(** The log after an entry for [t] was appended, when there is a log. *)
Definition logged (log : option (gmap bytes TransactionLogEntry)) (t : TransactionMetadata) (now : Z) :=
  (fun entries => Log_Append entries
     (mkEntry (t_TransactionID t) (t_ProducerID t) (t_ProducerEpoch t) (t_State t)
        (t_Partitions t) now)) <$> log.

Lemma log_txnLog tc t now : tc_txnLog (logTransaction tc t now) = logged (tc_txnLog tc) t now.
Proof. unfold logTransaction. by destruct (tc_txnLog tc) eqn:E; simpl; rewrite ?E. Qed.

Create HintDb txn.
#[export] Hint Rewrite log_transactions log_producers log_next log_writer log_committer
  log_markers log_commits log_cleanups log_calls log_failed
  log_txnLog : txn.

(** Only the record of the outside world changed. *)
Definition same_core (tc tc' : TransactionCoordinator) : Prop :=
  tc_transactions tc' = tc_transactions tc /\ tc_producers tc' = tc_producers tc
  /\ tc_nextProducerID tc' = tc_nextProducerID tc
  /\ tc_markerWriter tc' = tc_markerWriter tc /\ tc_offsetCommitter tc' = tc_offsetCommitter tc
  /\ tc_cleanups tc' = tc_cleanups tc /\ (tc_calls tc <= tc_calls tc')%nat
  /\ tc_txnLog tc' = tc_txnLog tc.

(** From now on every call to the writer and to the committer succeeds. *)
Definition calls_succeed (call_ok : nat -> bool) (tc : TransactionCoordinator) : Prop :=
  forall n, (tc_calls tc <= n)%nat -> call_ok n = true.

Section phases.
Context (call_ok : nat -> bool).

#[export] Instance same_core_preorder : PreOrder same_core.
Proof.
  split; [by repeat split|].
  intros a b c (A1 & A2 & A3 & A4 & A5 & A6 & A7 & A8) (B1 & B2 & B3 & B4 & B5 & B6 & B7 & B8).
  repeat split; try congruence; lia.
Qed.

Lemma same_core_call tc ms cs : same_core tc (set_world tc (S (tc_calls tc)) ms cs).
Proof. repeat split; simpl; lia. Qed.

Lemma same_core_fail tc c : same_core tc (fail_call tc c).
Proof. repeat split; simpl; lia. Qed.

Lemma calls_succeed_mono tc tc' :
  (tc_calls tc <= tc_calls tc')%nat -> calls_succeed call_ok tc -> calls_succeed call_ok tc'.
Proof. intros Hle H n Hn. apply H. lia. Qed.

Lemma calls_succeed_now tc : calls_succeed call_ok tc -> call_ok (tc_calls tc) = true.
Proof. intros H. by apply H. Qed.

Lemma write_loop_spec m : forall ps tc,
  let '(ok, tc') := write_loop call_ok tc ps m in
  same_core tc tc' /\ tc_commits tc' = tc_commits tc
  /\ exists done_, done_ `prefix_of` ps
      /\ tc_markers tc' = tc_markers tc ++ ((fun p => mkRecorded p m) <$> done_)
      /\ (ok = true -> done_ = ps)
      /\ (calls_succeed call_ok tc -> ok = true)
      /\ (tc_failed tc' = tc_failed tc
          \/ ok = false /\ exists p, (done_ ++ [p]) `prefix_of` ps
             /\ tc_failed tc' = tc_failed tc ++ [MarkerCall (mkRecorded p m)]).
Proof.
  induction ps as [|p ps IH]; intros tc; cbn [write_loop].
  { split; [done|]. split; [done|]. exists []. rewrite app_nil_r. auto 10. }
  destruct (call_ok (tc_calls tc)) eqn:E.
  - specialize (IH (set_world tc (S (tc_calls tc)) (tc_markers tc ++ [mkRecorded p m]) (tc_commits tc))).
    destruct (write_loop _ _ _) as [ok tc'].
    destruct IH as (Hs & Hc & d & Hpre & Hm & Hok & Hall & Hf).
    split; [etrans; [apply same_core_call|exact Hs]|]. split; [exact Hc|]. exists (p :: d).
    split; [by apply prefix_cons|]. split; [rewrite Hm; simpl; by rewrite <- (assoc_L (++))|].
    split; [intros H; by rewrite (Hok H)|].
    split; [intros H; apply Hall; eapply calls_succeed_mono; [|done]; simpl; lia|].
    destruct Hf as [Hf|(Hk & q & Hq & Hf)]; [by left|]. right. split; [done|]. exists q. split; [by apply prefix_cons|done].
  - split; [apply same_core_fail|]. split; [done|]. exists []. simpl. rewrite app_nil_r.
    split; [apply prefix_nil|]. split; [done|]. split; [done|].
    split; [intros H%calls_succeed_now; congruence|]. right. split; [done|]. exists p.
    split; [apply prefix_cons, prefix_nil|done].
Qed.

(** The marker every partition of [t] gets. *)
Definition marker_of (t : TransactionMetadata) (commit : bool) (now : Z) : TransactionMarker :=
  mkMarker (t_ProducerID t) (t_ProducerEpoch t) commit (UnixNano now).

Lemma writeMarkers_spec tc t commit now :
  let '(ok, tc') := writeMarkers call_ok tc t commit now in
  same_core tc tc' /\ tc_commits tc' = tc_commits tc
  /\ exists done_, done_ `prefix_of` sortedPartitions (t_Partitions t)
      /\ tc_markers tc' = tc_markers tc ++ ((fun p => mkRecorded p (marker_of t commit now)) <$> done_)
      /\ (ok = true -> done_ = sortedPartitions (t_Partitions t))
      /\ (calls_succeed call_ok tc -> tc_markerWriter tc = true -> ok = true)
      /\ (tc_failed tc' = tc_failed tc
          \/ ok = false /\ exists p, (done_ ++ [p]) `prefix_of` sortedPartitions (t_Partitions t)
             /\ tc_failed tc' = tc_failed tc ++ [MarkerCall (mkRecorded p (marker_of t commit now))]).
Proof.
  unfold writeMarkers. destruct (t_Partitions t) as [|p ps] eqn:E.
  { split; [done|]. split; [done|]. exists []. rewrite app_nil_r. do 4 (split; [done|]). by left. }
  rewrite <- E. destruct (tc_markerWriter tc) eqn:Ew; cbn [negb].
  - pose proof (write_loop_spec (marker_of t commit now) (sortedPartitions (t_Partitions t)) tc) as H.
    unfold marker_of in H. destruct (write_loop _ _ _) as [ok tc'].
    destruct H as (Hs & Hc & d & H1 & H2 & H3 & H4 & H5). eauto 12.
  - split; [done|]. split; [done|]. exists []. rewrite app_nil_r.
    split; [apply prefix_nil|]. do 3 (split; [done|]). by left.
Qed.

(** The published offsets of a transaction that commits. *)
Definition published (t : TransactionMetadata) (commit : bool) : list RecordedOffsetCommit :=
  if commit && negb (bool_decide (t_PendingOffsets t = ∅))
  then [mkOffsetCommit (t_GroupID t) (t_PendingOffsets t)] else [].

Lemma resolvePendingOffsets_spec tc t commit :
  let '(ok, t', tc') := resolvePendingOffsets call_ok tc t commit in
  same_core tc tc' /\ tc_markers tc' = tc_markers tc
  /\ (ok = true -> tc_commits tc' = tc_commits tc ++ published t commit
        /\ t' = set_Pending t ∅ (t_LastUpdateTime t))
  /\ (ok = false -> tc_commits tc' = tc_commits tc /\ t' = t /\ commit = true)
  /\ (calls_succeed call_ok tc -> tc_offsetCommitter tc = true -> ok = true)
  /\ (tc_failed tc' = tc_failed tc \/ ok = false /\ tc_failed tc' = tc_failed tc ++ (CommitCall <$> published t commit)).
Proof.
  unfold resolvePendingOffsets, published.
  destruct (bool_decide_reflect (t_PendingOffsets t = ∅)) as [E|E].
  { rewrite andb_false_r, app_nil_r. repeat split; try done; [|by left].
    unfold set_Pending. destruct t; simpl in *. by subst. }
  destruct commit; cbn [negb andb].
  2: { rewrite app_nil_r. repeat split; try done. by left. }
  destruct (tc_offsetCommitter tc) eqn:Eo; cbn [negb]; [|repeat split; try done; by left].
  destruct (call_ok (tc_calls tc)) eqn:Ec.
  - split; [apply same_core_call|]. repeat split; try done. by left.
  - split; [apply same_core_fail|]. repeat split; try done; [|by right].
    intros H%calls_succeed_now. congruence.
Qed.

Lemma prefix_elem {A} (l k : list A) x : l `prefix_of` k -> x ∈ l -> x ∈ k.
Proof. intros [r ->] Hx. apply elem_of_app. by left. Qed.

(** [t] once it is resolved. *)
Definition completed (t : TransactionMetadata) (commit : bool) (now : Z) : TransactionMetadata :=
  set_State (set_Pending t ∅ (t_LastUpdateTime t))
    (if commit then StateCompleteCommit else StateCompleteAbort) now.

(** The calls that fail while [t] is resolved: none, the marker of the partition after those that
    were served, or, after all of them, the offsets of a commit. *)
Definition failed_call (t : TransactionMetadata) (commit : bool) (now : Z) (served : list PartitionMetadata) (f : list call) : Prop :=
  f = []
  \/ (exists p, (served ++ [p]) `prefix_of` sortedPartitions (t_Partitions t) /\ f = [MarkerCall (mkRecorded p (marker_of t commit now))])
  \/ (served = sortedPartitions (t_Partitions t) /\ f = CommitCall <$> published t commit).

(** Resolving a prepared transaction: on success every partition got its marker,
    the offsets were published exactly when it commits, and it is complete; on
    failure it is still prepared.  Only this transaction changes. *)
Lemma resolvePrepared_spec tc id t now :
  let commit := bool_decide (t_State t = StatePrepareCommit) in
  let '(ok, tc') := resolvePrepared call_ok tc id t now in
  tc_producers tc' = tc_producers tc /\ tc_nextProducerID tc' = tc_nextProducerID tc
  /\ tc_markerWriter tc' = tc_markerWriter tc /\ tc_offsetCommitter tc' = tc_offsetCommitter tc
  /\ tc_cleanups tc' = tc_cleanups tc /\ (tc_calls tc <= tc_calls tc')%nat
  /\ (exists done_, done_ `prefix_of` sortedPartitions (t_Partitions t)
      /\ tc_markers tc' = tc_markers tc ++ ((fun p => mkRecorded p (marker_of t commit now)) <$> done_)
      /\ (ok = true -> done_ = sortedPartitions (t_Partitions t))
      /\ exists f, tc_failed tc' = tc_failed tc ++ f /\ failed_call t commit now done_ f /\ (ok = true -> f = []))
  /\ (ok = true -> tc_commits tc' = tc_commits tc ++ published t commit
      /\ tc_transactions tc' = <[id := completed t commit now]> (tc_transactions tc)
      /\ tc_txnLog tc' = logged (tc_txnLog tc) (completed t commit now) now)
  /\ (ok = false -> tc_commits tc' = tc_commits tc /\ tc_transactions tc' = tc_transactions tc
      /\ tc_txnLog tc' = tc_txnLog tc)
  /\ (calls_succeed call_ok tc -> tc_markerWriter tc = true -> tc_offsetCommitter tc = true ->
      ok = true).
Proof.
  intros commit. unfold resolvePrepared. fold commit.
  pose proof (writeMarkers_spec tc t commit now) as Hw.
  destruct (writeMarkers call_ok tc t commit now) as [ok1 tc1].
  destruct Hw as ((A1 & A2 & A3 & A4 & A5 & A6 & A7 & A8) & Hc1 & d & Hd1 & Hd2 & Hd3 & Hd4 & Hf1).
  destruct ok1; cbn [negb].
  2: { do 6 (split; [done|]). split.
       { exists d. do 3 (split; [done|]).
         destruct Hf1 as [->|(_ & p & Hp & ->)]; [exists []; rewrite app_nil_r; split; [done|]; by split; [left|]|].
         eexists. split; [done|]. split; [right; left; eauto|done]. }
       split; [done|]. split; [done|].
       intros H1 H2 _. by apply Hd4. }
  pose proof (resolvePendingOffsets_spec tc1 t commit) as Hr.
  destruct (resolvePendingOffsets call_ok tc1 t commit) as [[ok2 t2] tc2].
  destruct Hr as ((B1 & B2 & B3 & B4 & B5 & B6 & B7 & B8) & Hm2 & Hy & Hn & Hall & Hf2).
  assert (tc_failed tc1 = tc_failed tc) as Hf by (by destruct Hf1 as [|[]]).
  destruct ok2; cbn [negb].
  - destruct (Hy eq_refl) as [Hcom ->]. autorewrite with txn. cbn [put_txn set_transactions
      tc_transactions tc_producers tc_nextProducerID tc_markerWriter tc_offsetCommitter tc_markers
      tc_commits tc_cleanups tc_calls tc_txnLog tc_failed].
    rewrite Hm2, Hcom, Hc1, B1, A1, B8, A8. do 5 (split; [congruence|]). split; [lia|].
    split; [|done]. exists d. do 3 (split; [by auto|]). exists [].
    rewrite app_nil_r. destruct Hf2 as [Hf2|[]]; [|done]. split; [congruence|]. by split; [left|].
  - destruct (Hn eq_refl) as (Hcom & _ & _). rewrite Hm2. do 5 (split; [congruence|]).
    split; [lia|]. split.
    { exists d. do 3 (split; [by auto|]). destruct Hf2 as [Hf2|[_ Hf2]]; rewrite Hf2, Hf.
      - exists []. rewrite app_nil_r. split; [done|]. by split; [left|].
      - eexists. split; [done|]. split; [|done]. right; right. auto. }
    split; [done|].
    split; [intros _; repeat split; congruence|].
    intros H1 H2 H3. apply Hall; [by eapply calls_succeed_mono|congruence].
Qed.
End phases.
