(* ===== verification/TxnSpec.v ===== *)
(** * What the transaction coordinator promises

    Transactions move along one state machine and never change a recorded
    outcome; the markers and offsets that leave the coordinator are those of that
    outcome; [EndTxn] and the expiry sweep complete what they start; a producer
    that was replaced is fenced.  The steps are those of [Txn.txn_step], in any
    order and with any failures of the marker writer and of the offset committer. *)

From S2P Require Import Prelude GoBytes Txn.
From stdpp Require Import prelude list sorting gmap.
From Stdlib Require Import ZArith Lia Strings.Byte.

Open Scope Z_scope.

(** ** The transaction log and the transactions *)

(** The log, when there is one, has an entry of this version of the transaction. *)
Definition describes (e : TransactionLogEntry) (t : TransactionMetadata) : Prop :=
  e_ProducerID e = t_ProducerID t /\ e_ProducerEpoch e = t_ProducerEpoch t
  /\ e_State e = t_State t /\ e_Partitions e = t_Partitions t.
Definition mirrors (log : option (gmap bytes TransactionLogEntry)) (id : bytes)
    (t : TransactionMetadata) : Prop :=
  match log with
  | None => True
  | Some entries => exists e, Log_Read entries id = Some e /\ describes e t
  end.

Lemma mirrors_logged log t now id : t_TransactionID t = id -> mirrors (logged log t now) id t.
Proof.
  intros <-. destruct log as [entries|]; [|done]. simpl. unfold Log_Read, Log_Append. simpl.
  rewrite lookup_insert_eq. by eexists.
Qed.

Lemma mirrors_logged_ne log t now id t' :
  id <> t_TransactionID t -> mirrors log id t' -> mirrors (logged log t now) id t'.
Proof.
  destruct log as [entries|]; [|done]. simpl. unfold Log_Read, Log_Append. simpl. intros Hne.
  by rewrite lookup_insert_ne by done.
Qed.

(** ** One resolution *)

(** The transaction once its outcome is recorded. *)
Definition prepared (t : TransactionMetadata) (commit : bool) (now : Z) : TransactionMetadata :=
  if bool_decide (t_State t = StateOngoing)
  then set_State t (if commit then StatePrepareCommit else StatePrepareAbort) now else t.

(** The transaction may be resolved with this outcome. *)
Definition may_end (t : TransactionMetadata) (commit : bool) : Prop :=
  t_State t = StateOngoing \/ t_State t = (if commit then StatePrepareCommit else StatePrepareAbort).

(** The coordinator resolved [t], or failed to ([ok = false]). *)
Record resolution (call_ok : nat -> bool) (tc tc' : TransactionCoordinator) (id : bytes)
    (t : TransactionMetadata) (commit : bool) (now : Z) (ok : bool) : Prop := {
  r_producers : tc_producers tc' = tc_producers tc;
  r_next : tc_nextProducerID tc' = tc_nextProducerID tc;
  r_writer : tc_markerWriter tc' = tc_markerWriter tc;
  r_committer : tc_offsetCommitter tc' = tc_offsetCommitter tc;
  r_calls : (tc_calls tc <= tc_calls tc')%nat;
  r_transactions : tc_transactions tc' =
    <[id := if ok then completed (prepared t commit now) commit now else prepared t commit now]>
      (tc_transactions tc);
  r_markers : exists ps, ps `prefix_of` sortedPartitions (t_Partitions t)
    /\ tc_markers tc' = tc_markers tc ++ ((fun p => mkRecorded p (marker_of t commit now)) <$> ps)
    /\ (ok = true -> ps = sortedPartitions (t_Partitions t))
    /\ exists f, tc_failed tc' = tc_failed tc ++ f /\ failed_call t commit now ps f /\ (ok = true -> f = []);
  r_commits : tc_commits tc' = tc_commits tc ++ (if ok then published t commit else []);
  r_cleanups : tc_cleanups tc' = tc_cleanups tc ++ (if ok then [id] else []);
  r_log : t_TransactionID t = id -> mirrors (tc_txnLog tc) id t ->
    mirrors (tc_txnLog tc') id
      (if ok then completed (prepared t commit now) commit now else prepared t commit now);
  r_log_ne : forall id' t0, id' <> t_TransactionID t -> mirrors (tc_txnLog tc) id' t0 ->
    mirrors (tc_txnLog tc') id' t0;
  r_ok : calls_succeed call_ok tc -> tc_markerWriter tc = true -> tc_offsetCommitter tc = true ->
    ok = true
}.

Section resolution.
Context (call_ok : nat -> bool).

(** The first phase, when it was not done yet. *)
Definition phase1 (tc : TransactionCoordinator) (id : bytes) (t : TransactionMetadata)
    (commit : bool) (now : Z) : TransactionCoordinator :=
  if bool_decide (t_State t = StateOngoing)
  then logTransaction (put_txn tc id (prepared t commit now)) (prepared t commit now) now else tc.

Lemma prepared_facts t commit now : may_end t commit ->
  t_TransactionID (prepared t commit now) = t_TransactionID t
  /\ bool_decide (t_State (prepared t commit now) = StatePrepareCommit) = commit
  /\ t_Partitions (prepared t commit now) = t_Partitions t
  /\ marker_of (prepared t commit now) commit now = marker_of t commit now
  /\ published (prepared t commit now) commit = published t commit
  /\ outcome (t_State (prepared t commit now)) = Some commit
  /\ isTerminalState (t_State (prepared t commit now)) = false.
Proof.
  unfold may_end, prepared, published, marker_of. intros [H|H]; rewrite H.
  - rewrite bool_decide_true by done. simpl. by destruct commit.
  - rewrite bool_decide_false by (by destruct commit). rewrite H. by destruct commit.
Qed.

Lemma phase1_facts tc id t commit now :
  tc_transactions tc !! id = Some t -> may_end t commit ->
  let tc1 := phase1 tc id t commit now in
  tc_producers tc1 = tc_producers tc /\ tc_nextProducerID tc1 = tc_nextProducerID tc
  /\ tc_markerWriter tc1 = tc_markerWriter tc /\ tc_offsetCommitter tc1 = tc_offsetCommitter tc
  /\ tc_calls tc1 = tc_calls tc /\ tc_markers tc1 = tc_markers tc /\ tc_commits tc1 = tc_commits tc
  /\ tc_failed tc1 = tc_failed tc /\ tc_cleanups tc1 = tc_cleanups tc
  /\ tc_transactions tc1 = <[id := prepared t commit now]> (tc_transactions tc)
  /\ (t_TransactionID t = id -> mirrors (tc_txnLog tc) id t ->
      mirrors (tc_txnLog tc1) id (prepared t commit now))
  /\ (forall id' t0, id' <> t_TransactionID t -> mirrors (tc_txnLog tc) id' t0 ->
      mirrors (tc_txnLog tc1) id' t0).
Proof.
  intros Ht Hm. unfold phase1. pose proof (prepared_facts t commit now Hm) as (Hid & _).
  case_bool_decide as Hs; autorewrite with txn.
  - do 10 (split; [done|]). simpl. split.
    + intros Heq _. apply mirrors_logged. congruence.
    + intros id' t0 Hne H. apply mirrors_logged_ne; [by rewrite Hid|done].
  - assert (prepared t commit now = t) as -> by (unfold prepared; by rewrite bool_decide_false).
    do 9 (split; [done|]). by rewrite insert_id.
Qed.

Lemma resolve_resolution tc id t commit now :
  tc_transactions tc !! id = Some t -> may_end t commit ->
  let '(ok, tc') := resolvePrepared call_ok (phase1 tc id t commit now) id (prepared t commit now) now in
  resolution call_ok tc (if ok then schedule_cleanup tc' id else tc') id t commit now ok.
Proof.
  intros Ht Hm.
  pose proof (phase1_facts tc id t commit now Ht Hm)
    as (P1 & P2 & P3 & P4 & P5 & P6 & P7 & P12 & P8 & P9 & P10 & P11).
  destruct (prepared_facts t commit now Hm) as (Hid & Hc & Hp & Hmk & Hpub & _).
  pose proof (resolvePrepared_spec call_ok (phase1 tc id t commit now) id (prepared t commit now) now) as H.
  rewrite Hc in H. cbv zeta in H.
  destruct (resolvePrepared _ _ _ _ _) as [ok tc'].
  destruct H as (Q1 & Q2 & Q3 & Q4 & Q5 & Q6 & (d & D1 & D2 & D3 & f & D4 & D5 & D6) & Q7 & Q8 & Q9).
  rewrite Hp in D1, D3. rewrite Hmk, P6 in D2. rewrite P12 in D4. unfold failed_call in D5. rewrite Hp, Hmk, Hpub in D5.
  assert (calls_succeed call_ok tc -> calls_succeed call_ok (phase1 tc id t commit now)) as Hcs
    by (intros X n Hn; apply X; lia).
  destruct ok.
  - destruct (Q7 eq_refl) as (X1 & X2 & X3). rewrite Hpub in X1.
    split; cbn [schedule_cleanup set_cleanups tc_producers tc_nextProducerID tc_markerWriter
      tc_offsetCommitter tc_calls tc_transactions tc_markers tc_commits tc_cleanups tc_txnLog tc_failed];
      try congruence; try lia.
    + rewrite X2, P9. by rewrite insert_insert_eq.
    + exists d. do 3 (split; [done|]). by exists f.
    + rewrite X3. intros Heq _. apply mirrors_logged. simpl. congruence.
    + rewrite X3. intros id' t0 Hne H. apply mirrors_logged_ne; [simpl; congruence|].
      by apply P11.
  - destruct (Q8 eq_refl) as (X1 & X2 & X3).
    split; rewrite ?app_nil_r; try congruence; try lia.
    + exists d. do 3 (split; [done|]). by exists f.
    + by rewrite X3.
    + by rewrite X3.
    + intros A B C. apply Q9; [by apply Hcs|congruence|congruence].
Qed.
End resolution.

(** ** Progress of the transactions *)

(** Two versions of one transaction, with what became of its offsets. *)
Definition later (t t' : TransactionMetadata) : Prop :=
  same_txn t t' /\ (t_PendingOffsets t' = ∅
                    \/ (t_PendingOffsets t' = t_PendingOffsets t /\ t_GroupID t' = t_GroupID t)).

(** A marker of the outcome that the coordinator has recorded for a transaction
    of that producer, on one of its partitions. *)
Definition justified (tc : TransactionCoordinator) (r : RecordedMarker) : Prop :=
  exists id t, tc_transactions tc !! id = Some t
    /\ outcome (t_State t) = Some (mk_Commit (rm_Marker r))
    /\ t_ProducerID t = mk_ProducerID (rm_Marker r)
    /\ t_ProducerEpoch t = mk_ProducerEpoch (rm_Marker r)
    /\ rm_Partition r ∈ t_Partitions t.

(** Offsets that a transaction held in [tc] and that is committed in [tc']. *)
Definition released (tc tc' : TransactionCoordinator) (c : RecordedOffsetCommit) : Prop :=
  exists id t t', tc_transactions tc !! id = Some t /\ tc_transactions tc' !! id = Some t'
    /\ t_State t' = StateCompleteCommit /\ t_PendingOffsets t' = ∅
    /\ isTerminalState (t_State t) = false
    /\ oc_GroupID c = t_GroupID t /\ oc_Offsets c = t_PendingOffsets t
    /\ t_PendingOffsets t <> ∅.

(** A failed call that asked for no more than the recorded outcome. *)
Definition asked (tc tc' : TransactionCoordinator) (c : call) : Prop :=
  match c with
  | MarkerCall r => justified tc' r
  | CommitCall c =>
      exists id t t', tc_transactions tc !! id = Some t /\ tc_transactions tc' !! id = Some t'
        /\ outcome (t_State t') = Some true /\ isTerminalState (t_State t) = false
        /\ oc_GroupID c = t_GroupID t /\ oc_Offsets c = t_PendingOffsets t
        /\ t_PendingOffsets t <> ∅
  end.

Record progress (tc tc' : TransactionCoordinator) : Prop := {
  g_txn : forall id, option_Forall2 later (tc_transactions tc !! id) (tc_transactions tc' !! id);
  g_markers : exists new, tc_markers tc' = tc_markers tc ++ new /\ Forall (justified tc') new;
  g_commits : exists new, tc_commits tc' = tc_commits tc ++ new /\ Forall (released tc tc') new;
  g_failed : exists new, tc_failed tc' = tc_failed tc ++ new /\ Forall (asked tc tc') new
}.

#[export] Instance later_preorder : PreOrder later.
Proof.
  split; [intros t; split; [done|by right]|].
  intros a b c [A1 A2] [B1 B2]. split; [by etrans|].
  destruct B2 as [B2|[B2 B3]]; [by left|]. rewrite B2, B3. done.
Qed.

Lemma later_outcome t t' c : later t t' -> outcome (t_State t) = Some c -> outcome (t_State t') = Some c.
Proof.
  intros [[_ Ha _] _] Hc. unfold advances in Ha.
  destruct (t_State t), (t_State t'); simpl in *; intuition congruence.
Qed.

Lemma later_terminal t t' :
  later t t' -> isTerminalState (t_State t') = false -> isTerminalState (t_State t) = false.
Proof.
  intros [[_ Ha _] _] Hc. unfold advances, isTerminalState in *.
  destruct (t_State t), (t_State t'); simpl in *; intuition congruence.
Qed.

Lemma later_committed t t' : later t t' -> t_State t = StateCompleteCommit -> t_PendingOffsets t = ∅ ->
  t_State t' = StateCompleteCommit /\ t_PendingOffsets t' = ∅.
Proof.
  intros [[_ Ha _] Hp] Hc H0. unfold advances in Ha.
  split; [intuition congruence|]. destruct Hp as [|[-> _]]; done.
Qed.

(** Progress carries a transaction along. *)
Lemma progress_later tc tc' id t :
  progress tc tc' -> tc_transactions tc !! id = Some t ->
  exists t', tc_transactions tc' !! id = Some t' /\ later t t'.
Proof.
  intros [Hg _ _ _] Ht. specialize (Hg id). rewrite Ht in Hg.
  inversion Hg as [? t' Hl Heq E|]; subst; eauto.
Qed.

Lemma justified_progress tc tc' r : progress tc tc' -> justified tc r -> justified tc' r.
Proof.
  intros Hp (id & t & Ht & Ho & H1 & H2 & H3).
  destruct (progress_later _ _ _ _ Hp Ht) as (t' & Ht' & Hl). exists id, t'.
  split; [done|]. split; [by eapply later_outcome|].
  destruct Hl as [[[E1 E2] _ Hi] _]. split; [congruence|]. split; [congruence|].
  apply list_elem_of_In. apply Hi. by apply list_elem_of_In.
Qed.

#[export] Instance progress_preorder : PreOrder progress.
Proof.
  split.
  { intros tc. split; [intros id; by destruct (_ !! id); constructor| | |]; exists [];
      by rewrite app_nil_r. }
  intros a b c Hab Hbc. pose proof Hab as [A1 (m1 & A2 & A3) (c1 & A4 & A5) (f1 & A6 & A7)].
  pose proof Hbc as [B1 (m2 & B2 & B3) (c2 & B4 & B5) (f2 & B6 & B7)]. split.
  - intros id. specialize (A1 id). specialize (B1 id).
    destruct A1 as [t t1 H1|]; inversion B1; subst; constructor. by etrans.
  - exists (m1 ++ m2). split; [by rewrite B2, A2, (assoc_L (++))|].
    apply Forall_app. split; [|done]. eapply Forall_impl; [exact A3|].
    intros r. by apply justified_progress.
  - exists (c1 ++ c2). split; [by rewrite B4, A4, (assoc_L (++))|].
    apply Forall_app. split.
    + eapply Forall_impl; [exact A5|].
      intros r (id & t & t1 & H1 & H2 & H3 & H4 & H5).
      destruct (progress_later _ _ _ _ Hbc H2) as (t2 & H6 & Hl).
      destruct (later_committed _ _ Hl H3 H4). exists id, t, t2. do 4 (split; [done|]). exact H5.
    + eapply Forall_impl; [exact B5|].
      intros r (id & t1 & t2 & H1 & H2 & H3 & H4 & H5 & H6 & H7 & H8).
      specialize (A1 id). rewrite H1 in A1. inversion A1 as [t ? Hl E1|]; subst.
      exists id, t, t2. pose proof (later_terminal _ _ Hl H5).
      destruct Hl as [_ [Hl|[Hl1 Hl2]]]; [done|].
      do 4 (split; [done|]). by rewrite <- Hl1, <- Hl2.
  - exists (f1 ++ f2). split; [by rewrite B6, A6, (assoc_L (++))|].
    apply Forall_app. split.
    + eapply Forall_impl; [exact A7|]. intros [r|r]; [by apply justified_progress|].
      intros (id & t & t1 & H1 & H2 & H3 & H4).
      destruct (progress_later _ _ _ _ Hbc H2) as (t2 & H6 & Hl).
      exists id, t, t2. split; [done|]. split; [done|]. split; [by eapply later_outcome|done].
    + eapply Forall_impl; [exact B7|]. intros [r|r]; [done|].
      intros (id & t1 & t2 & H1 & H2 & H3 & H5 & H6 & H7 & H8).
      specialize (A1 id). rewrite H1 in A1. inversion A1 as [t ? Hl E1|]; subst.
      exists id, t, t2. pose proof (later_terminal _ _ Hl H5).
      destruct Hl as [_ [Hl|[Hl1 Hl2]]]; [done|].
      do 4 (split; [done|]). by rewrite <- Hl1, <- Hl2.
Qed.

Lemma sorted_elem ps p : p ∈ sortedPartitions ps <-> p ∈ ps.
Proof. unfold sortedPartitions. by rewrite merge_sort_Permutation. Qed.

(** The version of a transaction that a resolution leaves. *)
Lemma resolved_later t commit now (ok : bool) : may_end t commit ->
  let t' := if ok then completed (prepared t commit now) commit now else prepared t commit now in
  later t t' /\ outcome (t_State t') = Some commit /\ t_Partitions t' = t_Partitions t
  /\ t_ProducerID t' = t_ProducerID t /\ t_ProducerEpoch t' = t_ProducerEpoch t
  /\ isTerminalState (t_State t') = ok.
Proof.
  intros Hm t'.
  assert (advances (t_State t) (t_State t') /\ outcome (t_State t') = Some commit
    /\ isTerminalState (t_State t') = ok) as (Ha & Ho & Hi).
  { subst t'. unfold may_end, prepared, advances in *. destruct Hm as [E|E]; rewrite E.
    - rewrite bool_decide_true by done. destruct ok, commit; simpl; auto 10.
    - rewrite bool_decide_false by (by destruct commit). destruct ok, commit; simpl; rewrite ?E; auto 10. }
  assert (t_Partitions t' = t_Partitions t /\ t_ProducerID t' = t_ProducerID t
    /\ t_ProducerEpoch t' = t_ProducerEpoch t
    /\ (t_PendingOffsets t' = ∅ \/ t_PendingOffsets t' = t_PendingOffsets t /\ t_GroupID t' = t_GroupID t))
    as (E1 & E2 & E3 & E4).
  { subst t'. unfold prepared. destruct (bool_decide _), ok; simpl; auto 10. }
  split; [|by repeat split]. split; [|done]. split; [done|done|]. rewrite E1. apply incl_refl.
Qed.

Lemma resolution_progress call_ok tc tc' id t commit now ok :
  tc_transactions tc !! id = Some t -> may_end t commit ->
  resolution call_ok tc tc' id t commit now ok -> progress tc tc'.
Proof.
  intros Ht Hm [_ _ _ _ _ Htx (ps & Hps & Hmk & _ & f & Hf & Hfc & _) Hcm _ _ _ _].
  pose proof (resolved_later t commit now ok Hm) as (Hl & Ho & Hp & Hpr & Hep & _).
  set (t' := if ok then _ else _) in *.
  assert (tc_transactions tc' !! id = Some t') as Ht' by (by rewrite Htx, lookup_insert_eq).
  assert (forall p, p ∈ t_Partitions t -> justified tc' (mkRecorded p (marker_of t commit now))) as Hj.
  { intros p Hin. exists id, t'. simpl. do 4 (split; [done|]). by rewrite Hp. }
  assert (isTerminalState (t_State t) = false) as Hnt.
  { unfold may_end, isTerminalState in *. by destruct Hm as [-> | ->]; [|destruct commit]. }
  split.
  - intros id'. rewrite Htx. destruct (decide (id' = id)) as [->|Hne].
    + rewrite lookup_insert_eq, Ht. by constructor.
    + rewrite lookup_insert_ne by done. by destruct (_ !! id'); constructor.
  - eexists. split; [exact Hmk|]. apply Forall_fmap, Forall_forall. intros p Hin.
    apply Hj, sorted_elem. by eapply prefix_elem.
  - eexists. split; [exact Hcm|]. destruct ok; [|constructor].
    unfold published. destruct commit; simpl; [|constructor].
    case_bool_decide as Hpe; [constructor|]. constructor; [|constructor].
    exists id, t, t'. do 3 (split; [done|]). split; [done|]. by repeat split.
  - exists f. split; [done|]. destruct Hfc as [->|[(p & Hpre & ->)|(_ & ->)]]; [constructor| |].
    + constructor; [|constructor]. apply Hj, sorted_elem. eapply prefix_elem; [exact Hpre|]. apply elem_of_app. right. by left.
    + unfold published. destruct commit; simpl; [|constructor].
      case_bool_decide as Hpe; [constructor|]. constructor; [|constructor]. exists id, t, t'. by repeat split.
Qed.

(** ** The handlers *)

Section handlers.
Context (call_ok : nat -> bool).

Lemma endTxnStateError_spec t commit :
  endTxnStateError t commit = ErrorNone /\ may_end t commit
  \/ endTxnStateError t commit = ErrorInvalidTransactionState /\ ~ may_end t commit.
Proof.
  unfold endTxnStateError, may_end. destruct (t_State t) eqn:E, commit; auto;
    right; split; [done|..]; intuition congruence.
Qed.

(** [EndTxn] rejects the request and changes nothing, or resolves. *)
Lemma EndTxn_cases tc id pid e commit now :
  let '(err, tc') := EndTxn call_ok tc id pid e commit now in
  (tc' = tc /\ (err = ErrorProducerFenced /\ validateProducer tc pid e = false
      \/ err = ErrorInvalidTransactionState
         /\ (forall t, tc_transactions tc !! id = Some t -> ~ may_end t commit)
      \/ err = ErrorInvalidProducerIDMapping
         /\ exists t, tc_transactions tc !! id = Some t
             /\ (t_ProducerID t, t_ProducerEpoch t) <> (pid, e)))
  \/ exists t ok, tc_transactions tc !! id = Some t /\ may_end t commit
      /\ validateProducer tc pid e = true /\ t_ProducerID t = pid /\ t_ProducerEpoch t = e
      /\ err = (if ok : bool then ErrorNone else ErrorTransactionCoordinatorNotAvailable)
      /\ resolution call_ok tc tc' id t commit now ok.
Proof.
  unfold EndTxn. destruct (validateProducer tc pid e) eqn:Ev; cbn [negb]; [|by left; auto].
  destruct (tc_transactions tc !! id) as [t|] eqn:Et.
  2: { left. split; [done|]. right; left. by split. }
  destruct (endTxnStateError_spec t commit) as [[Ee Hm]|[Ee Hm]]; rewrite Ee.
  2: { left. split; [done|]. right; left. split; [done|]. by intros ? [= <-]. }
  destruct (negb _ || negb _) eqn:Ep.
  { left. split; [done|]. right; right. split; [done|]. exists t. split; [done|].
    apply orb_true_iff in Ep as [H%negb_true_iff|H%negb_true_iff]; apply Z.eqb_neq in H;
      congruence. }
  apply orb_false_iff in Ep as [E1%negb_false_iff E2%negb_false_iff].
  apply Z.eqb_eq in E1, E2.
  pose proof (resolve_resolution call_ok tc id t commit now Et Hm) as H.
  unfold prepared, phase1, prepared in H. case_bool_decide as Hs;
    destruct (resolvePrepared _ _ _ _ _) as [ok tc'];
  destruct ok; right; eexists t, _; (split; [done|]); (split; [done|]); (split; [done|]);
    (split; [done|]); (split; [done|]); (split; [|exact H]); done.
Qed.

(** The sweep leaves a transaction alone, or resolves it with its recorded
    outcome, which is to abort when there is none. *)
Definition sweep_outcome (t : TransactionMetadata) : bool :=
  bool_decide (t_State t = StatePrepareCommit).

Definition active (t : TransactionMetadata) : bool :=
  match t_State t with
  | StateOngoing | StatePrepareCommit | StatePrepareAbort => true
  | _ => false
  end.

Lemma check_expired_cases tc id now :
  (check_expired call_ok tc id now = tc
   /\ forall t, tc_transactions tc !! id = Some t -> IsExpired t now && active t = false)
  \/ exists t ok, tc_transactions tc !! id = Some t /\ IsExpired t now = true /\ active t = true
      /\ may_end t (sweep_outcome t)
      /\ resolution call_ok tc (check_expired call_ok tc id now) id t (sweep_outcome t) now ok.
Proof.
  unfold check_expired. destruct (tc_transactions tc !! id) as [t|] eqn:Et; [|by left].
  destruct (IsExpired t now) eqn:Ex; cbn [negb].
  2: { left. split; [done|]. intros ? [= <-]. by rewrite Ex. }
  assert (may_end t (sweep_outcome t) \/ active t = false) as [Hm|Hm].
  { unfold may_end, sweep_outcome, active. destruct (t_State t); auto. }
  - right. exists t. pose proof (resolve_resolution call_ok tc id t (sweep_outcome t) now Et Hm) as H.
    revert H. unfold phase1, prepared, sweep_outcome, sweep_resolve, active.
    unfold may_end, sweep_outcome in Hm.
    destruct (t_State t) eqn:Es; simpl in *;
      try (exfalso; by destruct Hm);
      destruct (resolvePrepared _ _ _ _ _) as [ok tc']; intros H; exists ok; (do 3 (split; [done|])); (split; [unfold may_end; rewrite Es; by auto|exact H]).
  - left. split.
    + unfold active in Hm. by destruct (t_State t).
    + intros ? [= <-]. by rewrite Hm, andb_false_r.
Qed.

Lemma check_expired_progress tc id now : progress tc (check_expired call_ok tc id now).
Proof.
  destruct (check_expired_cases tc id now) as [[-> _]|(t & ok & Ht & _ & _ & Hm & Hr)]; [done|].
  by eapply resolution_progress.
Qed.

Lemma sweep_progress now : forall ids tc,
  progress tc (fold_left (fun tc id => check_expired call_ok tc id now) ids tc).
Proof.
  induction ids as [|id ids IH]; intros tc; simpl; [done|].
  etrans; [apply check_expired_progress|apply IH].
Qed.

Lemma EndTxn_progress tc id pid e commit now :
  progress tc (EndTxn call_ok tc id pid e commit now).2.
Proof.
  pose proof (EndTxn_cases tc id pid e commit now) as H.
  destruct (EndTxn _ _ _ _ _ _ _) as [err tc'].
  destruct H as [[-> _]|(t & ok & Ht & Hm & _ & _ & _ & _ & Hr)]; [done|].
  by eapply resolution_progress.
Qed.
End handlers.

(** ** Adding partitions and offsets *)

Lemma add_partitions_spec ps : forall t,
  exists parts, add_partitions t ps = set_Partitions t parts (t_LastUpdateTime t)
    /\ (forall p, p ∈ parts <-> p ∈ t_Partitions t \/ p ∈ ps)
    /\ (NoDup (t_Partitions t) -> NoDup parts).
Proof.
  induction ps as [|p ps IH]; intros t; unfold add_partitions; cbn [fold_left].
  { exists (t_Partitions t). split; [by destruct t|]. split; [|done].
    intros p. split; [auto|]. intros [?|?%elem_of_nil]; done. }
  unfold partitionExists. case_bool_decide as Hp.
  - destruct (IH t) as (parts & E & He & Hn). exists parts. split; [exact E|]. split; [|done].
    intros q. rewrite He, elem_of_cons. naive_solver.
  - set (t1 := set_Partitions t (t_Partitions t ++ [p]) (t_LastUpdateTime t)).
    destruct (IH t1) as (parts & E & He & Hn). exists parts. split; [exact E|].
    split.
    + intros q. rewrite He. subst t1. simpl. rewrite elem_of_app, elem_of_cons, elem_of_cons, elem_of_nil.
      naive_solver.
    + intros Hnd. apply Hn. subst t1. simpl. apply NoDup_app. split; [done|].
      split; [|apply NoDup_singleton]. intros q Hq ->%list_elem_of_singleton. done.
Qed.

(** What a request that changed transaction [id] left as it was. *)
Record touches (tc tc' : TransactionCoordinator) (id : bytes) (t' : TransactionMetadata) : Prop := {
  to_txn : tc_transactions tc' = <[id := t']> (tc_transactions tc);
  to_producers : tc_producers tc' = tc_producers tc;
  to_next : tc_nextProducerID tc' = tc_nextProducerID tc;
  to_markers : tc_markers tc' = tc_markers tc;
  to_commits : tc_commits tc' = tc_commits tc;
  to_failed : tc_failed tc' = tc_failed tc;
  to_cleanups : tc_cleanups tc' = tc_cleanups tc
}.

(** The partitions joined one that goes on, or a new transaction. *)
Lemma AddPartitionsToTxn_cases tc id pid e ps now :
  let '(_, tc') := AddPartitionsToTxn tc id pid e ps now in
  tc' = tc
  \/ validateProducer tc pid e = true /\ exists t parts tc1,
      touches tc tc' id (set_Partitions t parts now)
      /\ tc_txnLog tc' = logged tc1 (set_Partitions t parts now) now
      /\ (forall id' t0, id' <> t_TransactionID t -> mirrors (tc_txnLog tc) id' t0 -> mirrors tc1 id' t0)
      /\ t_State t = StateOngoing /\ t_ProducerID t = pid /\ t_ProducerEpoch t = e
      /\ (forall p, p ∈ parts <-> p ∈ t_Partitions t \/ p ∈ ps)
      /\ (NoDup (t_Partitions t) -> NoDup parts)
      /\ (tc_transactions tc !! id = Some t
          \/ (forall t0, tc_transactions tc !! id = Some t0 -> isTerminalState (t_State t0) = true)
             /\ t_TransactionID t = id /\ t_Partitions t = [] /\ t_PendingOffsets t = ∅).
Proof.
  unfold AddPartitionsToTxn.
  destruct (validateProducer tc pid e) eqn:Ev; cbn [negb]; [|by left].
  destruct (tc_transactions tc !! id) as [t|] eqn:Et; [destruct (isTerminalState (t_State t)) eqn:Ete|].
  2: { case_bool_decide as Hs; cbn [negb]; [|by left].
       destruct (negb _ || negb _) eqn:Ep; [by left|].
       apply orb_false_iff in Ep as [E1%negb_false_iff E2%negb_false_iff]. apply Z.eqb_eq in E1, E2.
       right. split; [done|]. destruct (add_partitions_spec ps t) as (parts & -> & He & Hn).
       exists t, parts, (tc_txnLog tc). split; [by split; autorewrite with txn|].
       split; [by autorewrite with txn|]. auto 10. }
  all: unfold validateProducer in Ev; destruct (tc_producers tc !! pid) as [p|]; [|by left].
  all: set (t1 := mkTxn _ _ _ _ _ _ _ _ _ _); right; split; [done|];
    destruct (add_partitions_spec ps t1) as (parts & -> & He & Hn);
    exists t1, parts, (logged (tc_txnLog tc) t1 now);
    (split; [split; autorewrite with txn; simpl; rewrite ?log_transactions; simpl;
       rewrite ?insert_insert_eq; by autorewrite with txn|]);
    (split; [by repeat (autorewrite with txn; simpl)|]);
    (split; [intros; by apply mirrors_logged_ne|]);
    do 5 (split; [done|]); right; (split; [naive_solver|done]).
Qed.

Lemma AddOffsetsToTxn_cases tc id pid e g now :
  let '(err, tc') := AddOffsetsToTxn tc id pid e g now in
  tc' = tc
  \/ validateProducer tc pid e = true /\ err = ErrorNone /\ exists t,
      tc_transactions tc !! id = Some t /\ t_State t = StateOngoing
      /\ (t_GroupID t = [] \/ t_GroupID t = g)
      /\ tc' = put_txn tc id (set_Group t g now).
Proof.
  unfold AddOffsetsToTxn. destruct (validateProducer tc pid e); cbn [negb]; [|by left].
  destruct (tc_transactions tc !! id) as [t|]; [|by left].
  case_bool_decide as Hs; cbn [negb]; [|by left].
  case_bool_decide as H1; cbn [negb andb].
  { right. eauto 10. }
  case_bool_decide as H2; cbn [negb]; [|by left]. right. eauto 10.
Qed.

Lemma TxnOffsetCommit_cases tc id g pid e offs now :
  let '(_, tc') := TxnOffsetCommit tc id g pid e offs now in
  tc' = tc
  \/ validateProducer tc pid e = true /\ exists t,
      tc_transactions tc !! id = Some t /\ t_State t = StateOngoing
      /\ t_ProducerID t = pid /\ t_ProducerEpoch t = e /\ t_GroupID t = g /\ g <> []
      /\ tc' = put_txn tc id (set_Pending t (merge_offsets (t_PendingOffsets t) offs) now).
Proof.
  unfold TxnOffsetCommit. destruct (validateProducer tc pid e); cbn [negb]; [|by left].
  destruct (tc_transactions tc !! id) as [t|]; [|by left].
  case_bool_decide as Hs; cbn [negb]; [|by left].
  destruct (negb _ || negb _) eqn:Ep; [by left|].
  apply orb_false_iff in Ep as [E1%negb_false_iff E2%negb_false_iff]. apply Z.eqb_eq in E1, E2.
  case_bool_decide as H1; cbn [negb orb]; [by left|].
  case_bool_decide as H2; cbn [negb]; [|by left].
  destruct (tc_offsetCommitter tc); cbn [negb]; [|by left].
  right. split; [done|]. exists t. repeat split; congruence.
Qed.

(** ** The invariant of the transactions *)

Record txn_good (tc : TransactionCoordinator) (id : bytes) (t : TransactionMetadata) : Prop := {
  tg_id : t_TransactionID t = id;
  tg_parts : NoDup (t_Partitions t);
  tg_state : t_State t <> StateEmpty;
  tg_done : isTerminalState (t_State t) = true -> t_PendingOffsets t = ∅ /\ id ∈ tc_cleanups tc;
  tg_group : t_PendingOffsets t <> ∅ -> t_GroupID t <> [];
  tg_log : mirrors (tc_txnLog tc) id t
}.

Definition txn_wf (tc : TransactionCoordinator) : Prop :=
  forall id t, tc_transactions tc !! id = Some t -> txn_good tc id t.

(** One transaction was replaced; the others keep what they rely on. *)
Lemma txn_wf_insert tc tc' id t' :
  txn_wf tc -> tc_transactions tc' = <[id := t']> (tc_transactions tc) ->
  (forall id', id' ∈ tc_cleanups tc -> id' ∈ tc_cleanups tc') ->
  (forall id' t0, id' <> id -> mirrors (tc_txnLog tc) id' t0 -> mirrors (tc_txnLog tc') id' t0) ->
  txn_good tc' id t' -> txn_wf tc'.
Proof.
  intros Hwf Htx Hcl Hlog Hg id' t0. rewrite Htx.
  destruct (decide (id' = id)) as [->|Hne].
  - rewrite lookup_insert_eq. by intros [= <-].
  - rewrite lookup_insert_ne by done. intros Ht. destruct (Hwf _ _ Ht). split; try done; [naive_solver|auto].
Qed.

Lemma txn_wf_resolution call_ok tc tc' id t commit now ok :
  txn_wf tc -> tc_transactions tc !! id = Some t -> may_end t commit ->
  resolution call_ok tc tc' id t commit now ok -> txn_wf tc'.
Proof.
  intros Hwf Ht Hm Hr. destruct (Hwf _ _ Ht) as [G1 G2 G3 G4 G5 G6].
  pose proof (resolved_later t commit now ok Hm) as (_ & Ho & Hp & _ & _ & Hi).
  destruct Hr. set (t' := if ok then _ else _) in *.
  assert ((t_TransactionID t' = t_TransactionID t /\ t_GroupID t' = t_GroupID t
    /\ (if ok then t_PendingOffsets t' = ∅ else t_PendingOffsets t' = t_PendingOffsets t)))
    as (E1 & E2 & E3).
  { subst t'. unfold prepared. destruct (bool_decide _), ok; done. }
  eapply txn_wf_insert; [done|done| | |].
  - rewrite r_cleanups0. intros id' H. apply elem_of_app. by left.
  - intros id' t0 Hne. apply r_log_ne0. congruence.
  - split; [congruence|by rewrite Hp| | | |auto].
    + intros Es. by rewrite Es in Ho.
    + rewrite Hi. intros ->. split; [done|]. rewrite r_cleanups0. apply elem_of_app. right. left.
    + rewrite E2. intros Hpe. apply G5. destruct ok; congruence.
Qed.

Section wf.
Context (call_ok : nat -> bool).

Lemma txn_wf_quiet tc tc' :
  txn_wf tc -> tc_transactions tc' = tc_transactions tc -> tc_cleanups tc' = tc_cleanups tc ->
  tc_txnLog tc' = tc_txnLog tc -> txn_wf tc'.
Proof.
  intros Hwf E1 E2 E3 id t. rewrite E1. intros Ht. destruct (Hwf _ _ Ht). split; rewrite ?E2, ?E3; done.
Qed.

Lemma txn_wf_EndTxn tc id pid e commit now :
  txn_wf tc -> txn_wf (EndTxn call_ok tc id pid e commit now).2.
Proof.
  intros Hwf. pose proof (EndTxn_cases call_ok tc id pid e commit now) as H.
  destruct (EndTxn _ _ _ _ _ _ _) as [err tc'].
  destruct H as [[-> _]|(t & ok & Ht & Hm & _ & _ & _ & _ & Hr)]; [done|].
  by eapply txn_wf_resolution.
Qed.

Lemma txn_wf_sweep now : forall ids tc,
  txn_wf tc -> txn_wf (fold_left (fun tc id => check_expired call_ok tc id now) ids tc).
Proof.
  induction ids as [|id ids IH]; intros tc Hwf; simpl; [done|]. apply IH.
  destruct (check_expired_cases call_ok tc id now) as [[-> _]|(t & ok & Ht & _ & _ & Hm & Hr)]; [done|].
  by eapply txn_wf_resolution.
Qed.

Lemma txn_wf_AddPartitions tc id pid e ps now :
  txn_wf tc -> txn_wf (AddPartitionsToTxn tc id pid e ps now).2.
Proof.
  intros Hwf. pose proof (AddPartitionsToTxn_cases tc id pid e ps now) as H.
  destruct (AddPartitionsToTxn _ _ _ _ _ _) as [r tc']. simpl.
  destruct H as [->|(_ & t & parts & log1 & [] & Hlog & Hne & Hs & _ & _ & _ & Hnd & Hor)]; [done|].
  assert (t_TransactionID t = id /\ NoDup (t_Partitions t)
    /\ (t_PendingOffsets t <> ∅ -> t_GroupID t <> [])) as (Hid & Hnd' & Hg).
  { destruct Hor as [Ht|(_ & -> & -> & Hp)].
    - by destruct (Hwf _ _ Ht).
    - split; [done|]. split; [constructor|done]. }
  eapply txn_wf_insert; [done|done|by rewrite to_cleanups0| |].
  - intros id' t0 Hn Hmi. rewrite Hlog. apply mirrors_logged_ne; [simpl; congruence|].
    apply Hne; [congruence|done].
  - split; simpl; [done|auto|congruence|by rewrite Hs|done|]. rewrite Hlog. by apply mirrors_logged.
Qed.

(** A request that changed neither the state nor the partitions. *)
Lemma txn_wf_update tc id t t' :
  txn_wf tc -> tc_transactions tc !! id = Some t -> t_State t = StateOngoing ->
  t_TransactionID t' = t_TransactionID t -> t_State t' = t_State t ->
  t_Partitions t' = t_Partitions t -> t_ProducerID t' = t_ProducerID t ->
  t_ProducerEpoch t' = t_ProducerEpoch t ->
  (t_PendingOffsets t' <> ∅ -> t_GroupID t' <> []) ->
  txn_wf (put_txn tc id t').
Proof.
  intros Hwf Ht Hs E1 E2 E3 E4 E5 Hg. destruct (Hwf _ _ Ht) as [G1 G2 G3 G4 G5 G6].
  eapply txn_wf_insert; [done|done|done|done|].
  split; [congruence|congruence|congruence|by rewrite E2, Hs|done|].
  simpl. unfold mirrors, describes in *. destruct (tc_txnLog tc); [|done].
  destruct G6 as (en & F0 & F1 & F2 & F3 & F4). exists en. repeat split; congruence.
Qed.

Lemma txn_wf_cleanup tc id : txn_wf tc -> txn_wf (cleanupTransaction tc id).
Proof.
  intros Hwf. unfold cleanupTransaction.
  destruct (list_remove id (tc_cleanups tc)) as [rest|] eqn:Er; [|done].
  assert (forall ids rest, list_remove id ids = Some rest ->
    forall id', id' <> id -> id' ∈ ids -> id' ∈ rest) as Hrem.
  { clear. induction ids as [|i ids IH]; intros rest H id' Hne Hin; [done|]. simpl in H.
    case_bool_decide as Hi.
    - injection H as <-. apply elem_of_cons in Hin as [->|?]; [done|done].
    - apply fmap_Some in H as (r & Hr & ->).
      apply elem_of_cons in Hin as [->|Hin]; [left|right; by eapply IH]. }
  intros id' t Ht.
  assert (id' <> id /\ tc_transactions tc !! id' = Some t) as [Hne Ht0].
  { destruct (tc_txnLog _); simpl in Ht; by apply lookup_delete_Some in Ht as [? ?]. }
  destruct (Hwf _ _ Ht0) as [G1 G2 G3 G4 G5 G6]. simpl.
  destruct (tc_txnLog tc) as [entries|] eqn:El; split; try done; simpl; rewrite ?El; try done.
  all: try (intros Hd; destruct (G4 Hd); split; [done|by eapply Hrem]).
  simpl in G6. unfold Log_Read, Log_Delete in *. by rewrite lookup_delete_ne.
Qed.

Lemma txn_wf_step tc op : txn_wf tc -> txn_wf (txn_step call_ok tc op).
Proof.
  intros Hwf. destruct op; cbn [txn_step].
  - unfold InitProducerID. case_match; [done|]. destruct (findProducerByTransactionID _ _ _); by eapply txn_wf_quiet.
  - by apply txn_wf_AddPartitions.
  - pose proof (AddOffsetsToTxn_cases tc id producerID epoch groupID now) as H.
    destruct (AddOffsetsToTxn _ _ _ _ _ _) as [r tc'].
    destruct H as [->|(_ & _ & t & Ht & Hs & Hg & ->)]; [done|]. simpl.
    eapply txn_wf_update; try done. simpl. destruct (Hwf _ _ Ht) as [_ _ _ _ G5 _].
    destruct Hg as [Hg|<-]; [|done]. intros H. by apply G5 in H.
  - pose proof (TxnOffsetCommit_cases tc id groupID producerID epoch offsets now) as H.
    destruct (TxnOffsetCommit _ _ _ _ _ _ _) as [r tc'].
    destruct H as [->|(_ & t & Ht & Hs & _ & _ & Hg & Hn & ->)]; [done|]. simpl.
    eapply txn_wf_update; try done. simpl. by rewrite Hg.
  - by apply txn_wf_EndTxn.
  - by apply txn_wf_sweep.
  - by apply txn_wf_cleanup.
  - by eapply txn_wf_quiet.
  - by eapply txn_wf_quiet.
Qed.
End wf.

(** ** The producers *)

Record producers_wf (n : nat) (tc : TransactionCoordinator) : Prop := {
  pw_next : 1000 <= tc_nextProducerID tc <= 1000 + Z.of_nat n;
  pw_id : forall k p, tc_producers tc !! k = Some p ->
    pr_ProducerID p = k /\ 1000 < k <= tc_nextProducerID tc;
  pw_unique : forall k k' p p', tc_producers tc !! k = Some p -> tc_producers tc !! k' = Some p' ->
    pr_TransactionID p = pr_TransactionID p' -> k = k'
}.

(** Whatever the order, the producer found is the one with the transactional id. *)
Lemma findProducer_spec tc order id : (forall l, order l ≡ₚ l) ->
  match findProducerByTransactionID tc order id with
  | Some p => (exists k, tc_producers tc !! k = Some p) /\ pr_TransactionID p = id
  | None => forall k p, tc_producers tc !! k = Some p -> pr_TransactionID p <> id
  end.
Proof.
  intros Ho. unfold findProducerByTransactionID.
  set (ps := omap _ _).
  assert (forall p, p ∈ ps <-> exists k, tc_producers tc !! k = Some p) as Hps.
  { intros p. subst ps. rewrite list_elem_of_omap. split.
    - intros (k & _ & Hk). eauto.
    - intros [k Hk]. exists k. split; [|done]. rewrite Ho. apply list_elem_of_fmap.
      exists (k, p). split; [done|]. by apply elem_of_map_to_list. }
  destruct (filter _ ps) as [|p l] eqn:Ef; simpl.
  - intros k p Hk Hid. assert (p ∈ filter (fun p => pr_TransactionID p = id) ps) as Hin
      by (apply list_elem_of_filter; split; [done|]; apply Hps; eauto).
    rewrite Ef in Hin. by apply elem_of_nil in Hin.
  - assert (p ∈ filter (fun p => pr_TransactionID p = id) ps) as Hin by (rewrite Ef; left).
    apply list_elem_of_filter in Hin as [? Hin%Hps]. done.
Qed.

(** What [InitProducerID] does: the epoch of the producer with that transactional
    id goes up, or a new producer gets a fresh identifier. *)
Lemma InitProducerID_cases n tc order id timeout now :
  producers_wf n tc -> Z.of_nat n < 2 ^ 62 -> (forall l, order l ≡ₚ l) ->
  let '(r, tc') := InitProducerID tc order id timeout now in
  (r = (0, 0, ErrorInvalidTransactionTimeout) /\ tc' = tc)
  \/ exists pid e to_, r = (pid, e, ErrorNone)
      /\ tc_producers tc' = <[pid := mkProducer pid e id to_ now]> (tc_producers tc)
      /\ ((exists p, tc_producers tc !! pid = Some p /\ pr_TransactionID p = id
            /\ e = wraps 16 (pr_ProducerEpoch p + 1) /\ tc_nextProducerID tc' = tc_nextProducerID tc)
          \/ (forall k p, tc_producers tc !! k = Some p -> pr_TransactionID p <> id)
             /\ pid = tc_nextProducerID tc + 1 /\ e = 0 /\ tc_nextProducerID tc' = pid).
Proof.
  intros [Hn Hi Hu] Hb Ho. unfold InitProducerID.
  set (to_ := if timeout =? 0 then _ else timeout).
  destruct (_ <? to_); [by left|].
  pose proof (findProducer_spec tc order id Ho) as Hf.
  destruct (findProducerByTransactionID tc order id) as [p|].
  - destruct Hf as [[k Hk] Hid]. destruct (Hi _ _ Hk) as [Heq _].
    right. eexists _, _, to_. split; [done|]. split; [done|]. left. exists p. by rewrite Heq.
  - rewrite wraps_64_id by (unfold in_i64; lia).
    right. eexists _, _, to_. split; [done|]. split; [done|]. by right.
Qed.

Lemma producers_wf_init n tc order id timeout now :
  producers_wf n tc -> Z.of_nat n < 2 ^ 62 -> (forall l, order l ≡ₚ l) ->
  producers_wf (S n) (InitProducerID tc order id timeout now).2.
Proof.
  intros Hwf Hb Ho. pose proof (InitProducerID_cases n tc order id timeout now Hwf Hb Ho) as H.
  destruct (InitProducerID _ _ _ _ _) as [r tc']. simpl. destruct Hwf as [Hn Hi Hu].
  destruct H as [[_ ->]|(pid & e & to_ & _ & Hp & Hc)]; [split; [lia|done|done]|].
  assert (tc_nextProducerID tc <= tc_nextProducerID tc' <= tc_nextProducerID tc + 1
    /\ 1000 < pid <= tc_nextProducerID tc'
    /\ (forall k p, tc_producers tc !! k = Some p -> pr_TransactionID p = id -> k = pid)) as (B1 & B2 & B3).
  { destruct Hc as [(p & Hk & Hid & _ & ->)|(Hno & -> & _ & ->)].
    - split; [lia|]. split; [by apply (Hi _ _ Hk)|].
      intros k q Hq Hqid. apply (Hu k pid q p); congruence.
    - split; [lia|]. split; [lia|]. intros k p Hk Hid. by apply Hno in Hk. }
  split; [lia| |]; rewrite Hp.
  - intros k p. rewrite lookup_insert_Some. intros [[<- <-]|[_ Hk]]; [done|].
    destruct (Hi _ _ Hk). split; [done|lia].
  - intros k k' p p'. rewrite !lookup_insert_Some.
    intros [[<- <-]|[Hne Hk]] [[<- <-]|[Hne' Hk']]; simpl; intros He.
    + done.
    + symmetry. by eapply B3.
    + by eapply B3.
    + by eapply Hu.
Qed.

Section producers.
Context (call_ok : nat -> bool).

Definition is_init (op : txn_op) : bool := match op with OpInit _ _ _ _ => true | _ => false end.

Lemma sweep_producers now : forall ids tc,
  let tc' := fold_left (fun tc id => check_expired call_ok tc id now) ids tc in
  tc_producers tc' = tc_producers tc /\ tc_nextProducerID tc' = tc_nextProducerID tc.
Proof.
  induction ids as [|id ids IH]; intros tc; simpl; [done|].
  destruct (IH (check_expired call_ok tc id now)) as [-> ->].
  destruct (check_expired_cases call_ok tc id now) as [[-> _]|(t & ok & _ & _ & _ & _ & [])]; done.
Qed.

(** Only [InitProducerID] changes the producers. *)
Lemma step_producers tc op : is_init op = false ->
  tc_producers (txn_step call_ok tc op) = tc_producers tc
  /\ tc_nextProducerID (txn_step call_ok tc op) = tc_nextProducerID tc.
Proof.
  intros Hop. destruct op; try done; cbn [txn_step].
  - pose proof (AddPartitionsToTxn_cases tc id producerID epoch ps now) as H.
    destruct (AddPartitionsToTxn _ _ _ _ _ _) as [r tc'].
    by destruct H as [->|(_ & t & parts & log1 & [] & _)].
  - pose proof (AddOffsetsToTxn_cases tc id producerID epoch groupID now) as H.
    destruct (AddOffsetsToTxn _ _ _ _ _ _) as [r tc']. by destruct H as [->|(_ & _ & t & _ & _ & _ & ->)].
  - pose proof (TxnOffsetCommit_cases tc id groupID producerID epoch offsets now) as H.
    destruct (TxnOffsetCommit _ _ _ _ _ _ _) as [r tc'].
    by destruct H as [->|(_ & t & _ & _ & _ & _ & _ & _ & ->)].
  - pose proof (EndTxn_cases call_ok tc id producerID epoch commit now) as H.
    destruct (EndTxn _ _ _ _ _ _ _) as [r tc'].
    by destruct H as [[-> _]|(t & ok & _ & _ & _ & _ & _ & _ & [])].
  - apply sweep_producers.
  - unfold cleanupTransaction. destruct (list_remove _ _); [|done]. by destruct (tc_txnLog _).
Qed.

Lemma producers_wf_step n tc op : op_ok op ->
  Z.of_nat n < 2 ^ 62 -> producers_wf n tc -> producers_wf (S n) (txn_step call_ok tc op).
Proof.
  intros Hop Hb Hwf. destruct (is_init op) eqn:Ei.
  - destruct op; try done. by apply producers_wf_init.
  - destruct (step_producers tc op Ei) as [E1 E2]. destruct Hwf as [Hn Hi Hu].
    split; rewrite ?E1, ?E2; [lia|done|done].
Qed.

Lemma reachable_producers_wf n tc :
  reachable call_ok n tc -> Z.of_nat n < 2 ^ 62 -> producers_wf n tc.
Proof.
  induction 1 as [log config|n tc op Hop Hr IH]; intros Hb.
  - split; simpl; [lia|by intros ? ? ?%lookup_empty_Some|by intros ? ? ? ? ?%lookup_empty_Some].
  - apply producers_wf_step; [done|lia|]. apply IH. lia.
Qed.

(** The epoch of a producer goes up by at most one in a step. *)
Lemma step_epoch n tc op k p : op_ok op -> Z.of_nat n < 2 ^ 62 -> producers_wf n tc ->
  tc_producers tc !! k = Some p ->
  exists p', tc_producers (txn_step call_ok tc op) !! k = Some p'
    /\ pr_TransactionID p' = pr_TransactionID p
    /\ (pr_ProducerEpoch p' = pr_ProducerEpoch p
        \/ pr_ProducerEpoch p' = wraps 16 (pr_ProducerEpoch p + 1)).
Proof.
  intros Hop Hb Hwf Hk. destruct (is_init op) eqn:Ei.
  2: { destruct (step_producers tc op Ei) as [-> _]. exists p. auto. }
  destruct op; try done. cbn [txn_step].
  pose proof (InitProducerID_cases n tc order id timeout now Hwf Hb Hop) as H.
  destruct (InitProducerID _ _ _ _ _) as [r tc']. simpl.
  destruct H as [[_ ->]|(pid & e & to_ & _ & Hp & Hc)]; [eauto|]. rewrite Hp.
  destruct (decide (k = pid)) as [->|Hne].
  2: { rewrite lookup_insert_ne by done. eauto. }
  rewrite lookup_insert_eq. eexists. split; [done|]. simpl.
  destruct Hc as [(q & Hq & Hid & -> & _)|(_ & -> & _)].
  - assert (q = p) as -> by congruence. auto.
  - destruct (pw_id _ _ Hwf _ _ Hk). lia.
Qed.

Lemma wraps_16_eqm z : exists q, wraps 16 z = z + 65536 * q.
Proof.
  unfold wraps. change (2 ^ (16 - 1)) with 32768. change (2 ^ 16) with 65536.
  exists (- ((z + 32768) / 65536)). pose proof (Z.div_mod (z + 32768) 65536). lia.
Qed.

(** Over a run, by at most one per step. *)
Lemma run_epoch ops : forall n tc k p, Forall op_ok ops ->
  Z.of_nat (n + length ops) < 2 ^ 62 -> producers_wf n tc -> tc_producers tc !! k = Some p ->
  exists p' j q, tc_producers (run call_ok tc ops) !! k = Some p'
    /\ pr_ProducerEpoch p' = pr_ProducerEpoch p + j + 65536 * q /\ 0 <= j <= Z.of_nat (length ops).
Proof.
  induction ops as [|op ops IH]; intros n tc k p Hops Hb Hwf Hk; cbn [run fold_left].
  { exists p, 0, 0. split; [done|]. simpl. lia. }
  inversion_clear Hops. simpl in Hb.
  destruct (step_epoch n tc op k p) as (p1 & Hp1 & _ & He); [done|lia|done|done|].
  destruct (IH (S n) (txn_step call_ok tc op) k p1) as (p' & j & q & H1 & H2 & H3); try done; [lia| |].
  { apply producers_wf_step; [done|lia|done]. }
  destruct He as [He|He].
  - exists p', j, q. simpl. split; [done|]. lia.
  - destruct (wraps_16_eqm (pr_ProducerEpoch p + 1)) as [q' Hq].
    exists p', (j + 1), (q + q'). simpl. split; [done|]. lia.
Qed.
End producers.

Lemma rejected call_ok tc pid e : validateProducer tc pid e = false ->
  forall id g ps offs commit now,
    AddPartitionsToTxn tc id pid e ps now = ((∅, true), tc)
    /\ AddOffsetsToTxn tc id pid e g now = (ErrorProducerFenced, tc)
    /\ TxnOffsetCommit tc id g pid e offs now
       = (buildPartitionErrors (partitionsFromOffsets offs) ErrorProducerFenced, tc)
    /\ EndTxn call_ok tc id pid e commit now = (ErrorProducerFenced, tc).
Proof.
  intros Hv id g ps offs commit now.
  unfold AddPartitionsToTxn, AddOffsetsToTxn, TxnOffsetCommit, EndTxn. by rewrite Hv.
Qed.

(** ** The expiry sweep *)

(** The transaction as the sweep leaves it when nothing fails. *)
Definition swept (t : TransactionMetadata) (now : Z) : TransactionMetadata :=
  if IsExpired t now && active t
  then completed (prepared t (sweep_outcome t) now) (sweep_outcome t) now else t.

(** The markers the sweep writes for a transaction. *)
Definition sweep_marked (t : TransactionMetadata) (now : Z) (ms : list RecordedMarker) : Prop :=
  IsExpired t now && active t = true ->
  forall p, p ∈ t_Partitions t -> mkRecorded p (marker_of t (sweep_outcome t) now) ∈ ms.

Section sweep.
Context (call_ok : nat -> bool).

(** Every call succeeds and both collaborators are there. *)
Definition ready (tc : TransactionCoordinator) : Prop :=
  calls_succeed call_ok tc /\ tc_markerWriter tc = true /\ tc_offsetCommitter tc = true.

Lemma ready_resolution tc tc' id t commit now ok :
  ready tc -> resolution call_ok tc tc' id t commit now ok -> ready tc' /\ ok = true.
Proof.
  intros (H1 & H2 & H3) []. split; [|auto]. split; [by eapply calls_succeed_mono|].
  by rewrite r_writer0, r_committer0.
Qed.

Lemma check_expired_ready tc id now : ready tc ->
  let tc' := check_expired call_ok tc id now in
  ready tc' /\ tc_markers tc `prefix_of` tc_markers tc'
  /\ (forall id', id' <> id -> tc_transactions tc' !! id' = tc_transactions tc !! id')
  /\ (forall t, tc_transactions tc !! id = Some t ->
      tc_transactions tc' !! id = Some (swept t now) /\ sweep_marked t now (tc_markers tc')).
Proof.
  intros Hrdy tc'. subst tc'.
  destruct (check_expired_cases call_ok tc id now) as [[-> Hno]|(t & ok & Ht & Hx & Ha & Hm & Hr)].
  - split; [done|]. split; [done|]. split; [done|]. intros t Ht. unfold swept, sweep_marked.
    by rewrite (Hno t Ht).
  - destruct (ready_resolution _ _ _ _ _ _ _ Hrdy Hr) as [Hrdy' ->]. split; [done|].
    destruct Hr. destruct r_markers0 as (ps & _ & Hmk & Hps & _). rewrite Hmk.
    split; [by exists ((fun p => mkRecorded p (marker_of t (sweep_outcome t) now)) <$> ps)|].
    rewrite r_transactions0. split; [intros id' Hne; by rewrite lookup_insert_ne|].
    intros t0 Ht0. assert (t0 = t) as -> by congruence. unfold swept, sweep_marked.
    rewrite Hx, Ha, lookup_insert_eq. split; [done|]. intros _ p Hp. apply elem_of_app. right.
    apply (list_elem_of_fmap_2 (fun p => mkRecorded p _)). rewrite (Hps eq_refl). by apply sorted_elem.
Qed.

Lemma sweep_loop now : forall ids tc, NoDup ids -> ready tc ->
  let tc' := fold_left (fun tc id => check_expired call_ok tc id now) ids tc in
  tc_markers tc `prefix_of` tc_markers tc'
  /\ (forall id, id ∉ ids -> tc_transactions tc' !! id = tc_transactions tc !! id)
  /\ (forall id t, id ∈ ids -> tc_transactions tc !! id = Some t ->
      tc_transactions tc' !! id = Some (swept t now) /\ sweep_marked t now (tc_markers tc')).
Proof.
  induction ids as [|i ids IH]; intros tc Hnd Hrdy; cbn [fold_left].
  { split; [done|]. split; [done|]. by intros ? ? ?%elem_of_nil. }
  apply NoDup_cons in Hnd as [Hi Hnd].
  destruct (check_expired_ready tc i now Hrdy) as (R1 & R2 & R3 & R4).
  destruct (IH _ Hnd R1) as (S1 & S2 & S3).
  split; [by etrans|]. split.
  - intros id [Hne Hni]%not_elem_of_cons. rewrite S2 by done. by apply R3.
  - intros id t Hin Ht. destruct (decide (id = i)) as [->|Hne].
    + destruct (R4 t Ht) as [X1 X2]. rewrite S2 by done. split; [done|].
      intros Hx p Hp. eapply prefix_elem; [exact S1|]. by apply X2.
    + apply S3; [by apply elem_of_cons in Hin as [?|?]|]. by rewrite R3.
Qed.
End sweep.

(** ** The order of the markers *)

Lemma partition_ltb_asym a b : partition_ltb a b = true -> partition_ltb b a = false.
Proof.
  unfold partition_ltb. case_bool_decide as H1.
  - rewrite bool_decide_true by done. zbool; congruence || lia.
  - rewrite bool_decide_false by congruence. apply bytes_ltb_asym.
Qed.

#[export] Instance partition_le_total : Total partition_le.
Proof.
  intros a b. unfold partition_le. destruct (partition_ltb b a) eqn:E; [|by left].
  right. by apply partition_ltb_asym.
Qed.

Lemma partition_ltb_total a b : partition_ltb a b = false -> a <> b -> partition_ltb b a = true.
Proof.
  unfold partition_ltb. case_bool_decide as H1.
  - rewrite bool_decide_true by done. intros H Hne. apply Z.ltb_ge in H. apply Z.ltb_lt.
    destruct (Z.eq_dec (p_Partition a) (p_Partition b)); [|lia].
    exfalso. apply Hne. destruct a, b; simpl in *; congruence.
  - rewrite bool_decide_false by congruence. intros H _. by apply bytes_ltb_total.
Qed.

Lemma partition_ltb_trans a b c :
  partition_ltb a b = true -> partition_ltb b c = true -> partition_ltb a c = true.
Proof.
  unfold partition_ltb. intros H1 H2. repeat case_bool_decide; try congruence.
  - apply Z.ltb_lt in H1, H2. apply Z.ltb_lt. lia.
  - pose proof (bytes_ltb_asym _ _ H1). congruence.
  - by eapply bytes_ltb_trans.
Qed.

#[export] Instance partition_le_trans : Transitive partition_le.
Proof.
  intros a b c H1 H2. unfold partition_le in *.
  destruct (partition_ltb c a) eqn:E; [|done].
  destruct (decide (b = c)) as [->|Hne]; [congruence|].
  pose proof (partition_ltb_total c b H2 (fun e => Hne (eq_sym e))) as Hbc.
  pose proof (partition_ltb_trans _ _ _ Hbc E). congruence.
Qed.

#[export] Instance partition_le_antisym : AntiSymm (=) partition_le.
Proof.
  intros a b H1 H2. unfold partition_le in *. destruct (decide (a = b)) as [|Hne]; [done|].
  pose proof (partition_ltb_total b a H1 (fun e => Hne (eq_sym e))). congruence.
Qed.

(** Any sort of a transaction's partitions gives the order of the markers. *)
Lemma sortedPartitions_unique ps ps' :
  ps' ≡ₚ ps -> StronglySorted partition_le ps' -> ps' = sortedPartitions ps.
Proof.
  intros Hp Hs. apply (StronglySorted_unique partition_le); [done| |].
  - apply (StronglySorted_merge_sort partition_le).
  - rewrite Hp. symmetry. apply merge_sort_Permutation.
Qed.

(** ** Theorems *)

Section theorems.
Context (call_ok : nat -> bool).

Lemma update_progress tc id t t' :
  tc_transactions tc !! id = Some t -> t_State t = StateOngoing -> t_State t' = StateOngoing ->
  t_ProducerID t' = t_ProducerID t -> t_ProducerEpoch t' = t_ProducerEpoch t ->
  incl (t_Partitions t) (t_Partitions t') ->
  forall id', option_Forall2 same_txn (tc_transactions tc !! id')
                (<[id := t']> (tc_transactions tc) !! id').
Proof.
  intros Ht Hs Hs' H1 H2 Hi id'. destruct (decide (id' = id)) as [->|Hne].
  - rewrite lookup_insert_eq, Ht. constructor. split; [done|by left; congruence|done].
  - rewrite lookup_insert_ne by done. by destruct (_ !! id'); constructor.
Qed.

Lemma same_txn_refl_all tc tc' : tc_transactions tc' = tc_transactions tc ->
  forall id, option_Forall2 same_txn (tc_transactions tc !! id) (tc_transactions tc' !! id).
Proof. intros -> id. by destruct (_ !! id); constructor. Qed.

Lemma progress_same tc tc' : progress tc tc' ->
  forall id, option_Forall2 same_txn (tc_transactions tc !! id) (tc_transactions tc' !! id).
Proof. intros [Hg _ _ _] id. destruct (Hg id) as [t t' [Hl _]|]; by constructor. Qed.

(** The steps that neither start nor remove a transaction. *)
Lemma step_same tc op :
  match op with OpAddPartitions _ _ _ _ _ | OpCleanup _ => False | _ => True end ->
  forall id, option_Forall2 same_txn (tc_transactions tc !! id)
               (tc_transactions (txn_step call_ok tc op) !! id).
Proof.
  destruct op; intros Hop; try done; cbn [txn_step].
  - apply same_txn_refl_all. unfold InitProducerID. case_match; [done|].
    by destruct (findProducerByTransactionID _ _ _).
  - pose proof (AddOffsetsToTxn_cases tc id producerID epoch groupID now) as H.
    destruct (AddOffsetsToTxn _ _ _ _ _ _) as [r tc'].
    destruct H as [->|(_ & _ & t & Ht & Hs & _ & ->)]; [by apply same_txn_refl_all|].
    eapply update_progress; try done. apply incl_refl.
  - pose proof (TxnOffsetCommit_cases tc id groupID producerID epoch offsets now) as H.
    destruct (TxnOffsetCommit _ _ _ _ _ _ _) as [r tc'].
    destruct H as [->|(_ & t & Ht & Hs & _ & _ & _ & _ & ->)]; [by apply same_txn_refl_all|].
    eapply update_progress; try done. apply incl_refl.
  - apply progress_same, EndTxn_progress.
  - apply progress_same, sweep_progress.
Qed.

(** The markers and offsets that leave the coordinator leave it in [EndTxn] and in
    the sweep. *)
Lemma step_effects tc op :
  let tc' := txn_step call_ok tc op in
  (exists new, tc_markers tc' = tc_markers tc ++ new /\ Forall (justified tc') new)
  /\ (exists new, tc_commits tc' = tc_commits tc ++ new /\ Forall (released tc tc') new)
  /\ (exists new, tc_failed tc' = tc_failed tc ++ new /\ Forall (asked tc tc') new).
Proof.
  pose (effects := fun tc' => (exists new, tc_markers tc' = tc_markers tc ++ new /\ Forall (justified tc') new)
    /\ (exists new, tc_commits tc' = tc_commits tc ++ new /\ Forall (released tc tc') new)
    /\ (exists new, tc_failed tc' = tc_failed tc ++ new /\ Forall (asked tc tc') new)).
  assert (forall tc', progress tc tc' -> effects tc') as Hprog by (by intros tc' []).
  assert (forall tc', tc_markers tc' = tc_markers tc -> tc_commits tc' = tc_commits tc -> tc_failed tc' = tc_failed tc -> effects tc')
    as Hquiet by (intros tc' E1 E2 E3; unfold effects; rewrite E1, E2, E3; split_and!; exists []; by rewrite app_nil_r).
  cbv zeta. fold (effects (txn_step call_ok tc op)).
  destruct op; cbn [txn_step].
  - apply Hquiet; unfold InitProducerID; (case_match; [done|]);
      by destruct (findProducerByTransactionID _ _ _).
  - pose proof (AddPartitionsToTxn_cases tc id producerID epoch ps now) as H.
    destruct (AddPartitionsToTxn _ _ _ _ _ _) as [r tc'].
    destruct H as [->|(_ & t & parts & log1 & [] & _)]; by apply Hquiet.
  - pose proof (AddOffsetsToTxn_cases tc id producerID epoch groupID now) as H.
    destruct (AddOffsetsToTxn _ _ _ _ _ _) as [r tc'].
    destruct H as [->|(_ & _ & t & _ & _ & _ & ->)]; by apply Hquiet.
  - pose proof (TxnOffsetCommit_cases tc id groupID producerID epoch offsets now) as H.
    destruct (TxnOffsetCommit _ _ _ _ _ _ _) as [r tc'].
    destruct H as [->|(_ & t & _ & _ & _ & _ & _ & _ & ->)]; by apply Hquiet.
  - apply Hprog, EndTxn_progress.
  - apply Hprog, sweep_progress.
  - apply Hquiet; unfold cleanupTransaction; (destruct (list_remove _ _); [|done]);
      by destruct (tc_txnLog _).
  - by apply Hquiet.
  - by apply Hquiet.
Qed.

Lemma list_remove_elem id : forall ids rest, list_remove id ids = Some rest -> id ∈ ids.
Proof.
  induction ids as [|i ids IH]; intros rest H; [done|]. simpl in H.
  case_bool_decide as Hi; [subst; left|]. apply fmap_Some in H as (r & Hr & _). right. by eapply IH.
Qed.

(** C2: Every step (a request, an expiry sweep or a delayed clean-up) takes each
    transaction along its state machine: it keeps its producer, epoch and
    partitions and advances from ongoing to an outcome and from a prepared outcome
    to the completion of the same outcome.  A transaction starts, or restarts when
    it had completed, only by an [AddPartitionsToTxn] request of a valid producer,
    and disappears only by its clean-up. *)
Theorem txn_state_machine tc op id :
  match tc_transactions tc !! id, tc_transactions (txn_step call_ok tc op) !! id with
  | Some t, Some t' =>
      same_txn t t'
      \/ isTerminalState (t_State t) = true /\ t_State t' = StateOngoing
         /\ exists pid e ps now, op = OpAddPartitions id pid e ps now
              /\ validateProducer tc pid e = true
  | None, Some t' =>
      t_State t' = StateOngoing
      /\ exists pid e ps now, op = OpAddPartitions id pid e ps now
           /\ validateProducer tc pid e = true
  | Some _, None => op = OpCleanup id /\ id ∈ tc_cleanups tc
  | None, None => True
  end.
Proof.
  destruct op as [| aid pid e ps now | | | | | cid | |].
  all: try (match goal with |- context [txn_step _ _ ?op] =>
      pose proof (step_same tc op I id) as Hs end;
    by destruct Hs as [t t' Hl|]; auto).
  - cbn [txn_step]. pose proof (AddPartitionsToTxn_cases tc aid pid e ps now) as H.
    destruct (AddPartitionsToTxn _ _ _ _ _ _) as [r tc'].
    destruct H as [->|(Hv & t & parts & log1 & Hto & _ & _ & Hs & _ & _ & He & _ & Hor)];
      [by destruct (_ !! id); [left|]|].
    cbn [snd]. rewrite (to_txn _ _ _ _ Hto).
    destruct (decide (id = aid)) as [->|Hne].
    2: { rewrite lookup_insert_ne by done. by destruct (_ !! id); [left|]. }
    rewrite lookup_insert_eq. destruct (tc_transactions tc !! aid) as [t0|] eqn:E0.
    2: { split; [done|]. eauto 10. }
    destruct Hor as [[= <-]|(Ht & _)].
    + left. split; [done|by left|]. intros p Hp. apply list_elem_of_In, He. left.
      by apply list_elem_of_In.
    + right. split; [by apply Ht|]. split; [done|]. eauto 10.
  - cbn [txn_step]. unfold cleanupTransaction.
    destruct (list_remove cid (tc_cleanups tc)) as [rest|] eqn:Er; [|by destruct (_ !! id); [left|]].
    assert (forall m, tc_transactions (match m with
      | Some entries => set_log (set_transactions (set_cleanups tc rest) (delete cid (tc_transactions tc)))
                          (Some (Log_Delete entries cid))
      | None => set_transactions (set_cleanups tc rest) (delete cid (tc_transactions tc)) end)
      = delete cid (tc_transactions tc)) as -> by (by intros []).
    destruct (decide (id = cid)) as [->|Hne].
    + rewrite lookup_delete_eq. destruct (_ !! cid); [|done].
      split; [done|]. by eapply list_remove_elem.
    + rewrite lookup_delete_ne by done. by destruct (_ !! id); [left|].
Qed.

(** C3: What leaves the coordinator agrees with what it recorded.  In any step and
    whatever calls fail, every marker written carries the outcome, producer and
    epoch that the coordinator has recorded after the step for a transaction with
    that partition, and offsets are published only for a transaction that the step
    takes to its commit, as its group and exactly the offsets it held.  A call that
    failed, of which the writer or the committer may have done a part, also asked
    for no more than this: such a marker, or the offsets of a transaction whose
    recorded outcome is to commit. *)
Theorem effects_match_outcome tc op :
  exists markers commits failed,
    tc_markers (txn_step call_ok tc op) = tc_markers tc ++ markers
    /\ Forall (justified (txn_step call_ok tc op)) markers
    /\ tc_commits (txn_step call_ok tc op) = tc_commits tc ++ commits
    /\ Forall (released tc (txn_step call_ok tc op)) commits
    /\ tc_failed (txn_step call_ok tc op) = tc_failed tc ++ failed
    /\ Forall (asked tc (txn_step call_ok tc op)) failed.
Proof. destruct (step_effects tc op) as [(ms & ? & ?) [(cs & ? & ?) (fs & ? & ?)]]. exists ms, cs, fs. auto 10. Qed.

(** C8: [EndTxn] on every branch.  Success means that the transaction was ongoing
    or prepared with the outcome asked for, that a marker with this outcome was
    written to each of its partitions in their sorted order, that its offsets were
    published if and only if it commits, that no call failed, and that it is
    complete.  When a marker or the offsets could not be written the outcome stays
    recorded, the first partitions have their marker, no call to publish offsets
    succeeded, and at most one call failed, which may have had a part of its effect:
    the marker of the next partition or, when all markers are written and the
    outcome is to commit, the publication of the offsets.  Any other answer changes
    nothing at all. *)
Theorem endtxn_atomic tc id pid e commit now :
  let '(err, tc') := EndTxn call_ok tc id pid e commit now in
  match err with
  | ErrorNone => exists t, tc_transactions tc !! id = Some t /\ may_end t commit
      /\ t_ProducerID t = pid /\ t_ProducerEpoch t = e /\ validateProducer tc pid e = true
      /\ tc_transactions tc' =
           <[id := completed (prepared t commit now) commit now]> (tc_transactions tc)
      /\ tc_markers tc' = tc_markers tc
           ++ ((fun p => mkRecorded p (marker_of t commit now)) <$> sortedPartitions (t_Partitions t))
      /\ tc_commits tc' = tc_commits tc ++ published t commit
      /\ tc_failed tc' = tc_failed tc
  | ErrorTransactionCoordinatorNotAvailable => exists t ps failed, tc_transactions tc !! id = Some t
      /\ may_end t commit /\ ps `prefix_of` sortedPartitions (t_Partitions t)
      /\ tc_transactions tc' = <[id := prepared t commit now]> (tc_transactions tc)
      /\ tc_markers tc' = tc_markers tc ++ ((fun p => mkRecorded p (marker_of t commit now)) <$> ps)
      /\ tc_commits tc' = tc_commits tc
      /\ tc_failed tc' = tc_failed tc ++ failed /\ failed_call t commit now ps failed
  | _ => tc' = tc
  end.
Proof.
  pose proof (EndTxn_cases call_ok tc id pid e commit now) as H.
  destruct (EndTxn _ _ _ _ _ _ _) as [err tc'].
  destruct H as [[-> [[-> _]|[[-> _]|[-> _]]]]|(t & ok & Ht & Hm & Hv & Hp & He & -> & [])]; try done.
  destruct r_markers0 as (ps & H1 & H2 & H3 & f & H4 & H5 & H6). destruct ok.
  - exists t. rewrite (H3 eq_refl) in H2. rewrite (H6 eq_refl), app_nil_r in H4. auto 10.
  - exists t, ps, f. rewrite app_nil_r in r_commits0. auto 10.
Qed.

Lemma prepared_id t commit now now' : may_end t commit ->
  prepared (prepared t commit now) commit now' = prepared t commit now.
Proof.
  intros Hm. destruct (prepared_facts t commit now Hm) as (_ & _ & _ & _ & _ & Ho & _).
  unfold prepared at 1. rewrite bool_decide_false; [done|]. intros E. by rewrite E in Ho.
Qed.

Lemma prepared_marker t commit now now' : may_end t commit ->
  marker_of (prepared t commit now) commit now' = marker_of t commit now'.
Proof. intros Hm. unfold marker_of, prepared. by destruct (bool_decide _). Qed.

(** A request for an outcome that may be had succeeds when the calls do. *)
Lemma EndTxn_ready tc id t commit now :
  ready call_ok tc -> tc_transactions tc !! id = Some t -> may_end t commit ->
  validateProducer tc (t_ProducerID t) (t_ProducerEpoch t) = true ->
  exists tc', EndTxn call_ok tc id (t_ProducerID t) (t_ProducerEpoch t) commit now = (ErrorNone, tc')
    /\ resolution call_ok tc tc' id t commit now true.
Proof.
  intros Hrdy Ht Hm Hv.
  pose proof (EndTxn_cases call_ok tc id (t_ProducerID t) (t_ProducerEpoch t) commit now) as H.
  destruct (EndTxn _ _ _ _ _ _ _) as [err tc'].
  destruct H as [[_ [[_ ?]|[[_ Hno]|(_ & t0 & Ht0 & Hne)]]]|(t0 & ok & Ht0 & _ & _ & _ & _ & -> & Hr)].
  - congruence.
  - by apply Hno in Ht.
  - congruence.
  - assert (t0 = t) as -> by congruence. destruct (ready_resolution _ _ _ _ _ _ _ _ Hrdy Hr) as [_ ->].
    by exists tc'.
Qed.

(** A request for an outcome that may not be had changes nothing. *)
Lemma EndTxn_refused tc id t pid e commit now :
  tc_transactions tc !! id = Some t -> ~ may_end t commit -> validateProducer tc pid e = true ->
  EndTxn call_ok tc id pid e commit now = (ErrorInvalidTransactionState, tc).
Proof.
  intros Ht Hm Hv. unfold EndTxn. rewrite Hv, Ht.
  by destruct (endTxnStateError_spec t commit) as [[_ ?]|[-> _]].
Qed.

Lemma prepared_may_end t commit now c :
  may_end t commit -> may_end (prepared t commit now) c <-> c = commit.
Proof.
  intros Hm. destruct (prepared_facts t commit now Hm) as (_ & _ & _ & _ & _ & Ho & Hte).
  unfold may_end. destruct (t_State (prepared t commit now)), c, commit; simpl in *; naive_solver.
Qed.

(** C9: A retry finishes what a failed [EndTxn] began.  After
    ErrorTransactionCoordinatorNotAvailable, once the writer and the committer are
    installed and their calls succeed, the same request succeeds and gives every
    partition its marker and publishes the offsets of a commit; the request for
    the opposite outcome is refused and changes nothing. *)
Theorem endtxn_retry tc id pid e commit now tc1 now' :
  EndTxn call_ok tc id pid e commit now = (ErrorTransactionCoordinatorNotAvailable, tc1) ->
  let tc2 := SetOffsetCommitter (SetMarkerWriter tc1 true) true in
  calls_succeed call_ok tc2 ->
  exists t tc3, tc_transactions tc !! id = Some t
    /\ EndTxn call_ok tc2 id pid e commit now' = (ErrorNone, tc3)
    /\ tc_transactions tc3 !! id = Some (completed (prepared t commit now) commit now')
    /\ tc_markers tc3 = tc_markers tc1
         ++ ((fun p => mkRecorded p (marker_of t commit now')) <$> sortedPartitions (t_Partitions t))
    /\ tc_commits tc3 = tc_commits tc ++ published t commit
    /\ EndTxn call_ok tc2 id pid e (negb commit) now' = (ErrorInvalidTransactionState, tc2).
Proof.
  intros Hend tc2 Hcs. pose proof (EndTxn_cases call_ok tc id pid e commit now) as H.
  rewrite Hend in H.
  destruct H as [[_ [[H _]|[[H _]|[H _]]]]|(t & ok & Ht & Hm & Hv & <- & <- & Herr & Hr)]; try done.
  destruct ok; [done|]. destruct Hr. rewrite app_nil_r in r_commits0.
  destruct (prepared_facts t commit now Hm) as (_ & _ & Hpa & _ & Hpub & _).
  pose proof (resolved_later t commit now false Hm) as (_ & _ & _ & Hpi & Hpe & _).
  cbv iota in Hpi, Hpe. set (t1 := prepared t commit now) in *.
  assert (tc_transactions tc2 !! id = Some t1) as Ht2
    by (subst tc2; simpl; by rewrite r_transactions0, lookup_insert_eq).
  assert (validateProducer tc2 (t_ProducerID t) (t_ProducerEpoch t) = true) as Hv2
    by (unfold validateProducer in *; subst tc2; simpl; by rewrite r_producers0).
  destruct (EndTxn_ready tc2 id t1 commit now') as (tc3 & E3 & []); [done|done| |congruence|].
  { by apply prepared_may_end. }
  destruct r_markers1 as (ps & _ & M1 & M2 & _). rewrite (M2 eq_refl), Hpa in M1.
  exists t, tc3. split; [done|]. split; [congruence|].
  split; [rewrite r_transactions1, lookup_insert_eq; subst t1; by rewrite prepared_id|].
  split; [rewrite M1; subst t1; by rewrite prepared_marker|].
  split; [rewrite r_commits1, Hpub; subst tc2; simpl; by rewrite r_commits0|].
  eapply EndTxn_refused; [done| |done]. intros H%(prepared_may_end t); [|done]. by destruct commit.
Qed.
End theorems.

(** The expiry sweep leaves no expired transaction open.  When the marker
    writer and the offset committer are installed and their calls succeed, after a
    sweep in any order every expired transaction is complete: aborted if no outcome
    was recorded, otherwise with the outcome that was, and each of its partitions
    has the marker; every other transaction is as before. *)
Theorem sweep_resolves call_ok tc order now :
  (forall l, order l ≡ₚ l) -> ready call_ok tc ->
  let tc' := checkExpiredTransactions call_ok tc order now in
  forall id t, tc_transactions tc !! id = Some t ->
    tc_transactions tc' !! id = Some (swept t now) /\ sweep_marked t now (tc_markers tc').
Proof.
  intros Ho Hrdy tc' id t Ht.
  destruct (sweep_loop call_ok now (order (map_to_list (tc_transactions tc)).*1) tc) as (_ & _ & H);
    [rewrite Ho; apply NoDup_fst_map_to_list|done|].
  apply H; [|done]. rewrite Ho. apply list_elem_of_fmap. exists (id, t). split; [done|].
  by apply elem_of_map_to_list.
Qed.

(** The invariant of the coordinator, in every state it reaches: a transaction
    is stored under its own id, no partition is listed twice, a completed
    transaction holds no offsets and its clean-up is scheduled, offsets are held
    only with the group they are for, and the transaction log has an entry with
    the transaction's producer, epoch, state and partitions. *)
Theorem txn_invariant call_ok n tc : reachable call_ok n tc -> txn_wf tc.
Proof.
  induction 1 as [log config|n tc op _ _ IH]; [|by apply txn_wf_step].
  intros id t Ht. simpl in Ht. by apply lookup_empty_Some in Ht.
Qed.

(** C24: Fencing.  In a state reached in fewer than [2^62] steps, a second
    [InitProducerID] for a transactional id gives its one producer the next epoch
    (of 16 bits), and from then on, for as long as fewer than 65,535 further steps
    follow, every request with the old epoch is rejected and changes nothing. *)
Theorem producer_fenced call_ok n tc order id timeout now pid p ops :
  reachable call_ok n tc -> op_ok (OpInit order id timeout now) -> Forall op_ok ops ->
  Z.of_nat (S n + length ops) < 2 ^ 62 -> Z.of_nat (length ops) < 65535 ->
  tc_producers tc !! pid = Some p -> pr_TransactionID p = id ->
  (InitProducerID tc order id timeout now).1.2 = ErrorNone ->
  let e := pr_ProducerEpoch p in
  let tc' := (InitProducerID tc order id timeout now).2 in
  let later := run call_ok tc' ops in
  (InitProducerID tc order id timeout now).1 = (pid, wraps 16 (e + 1), ErrorNone)
  /\ validateProducer tc' pid (wraps 16 (e + 1)) = true
  /\ forall id' g ps offs commit now',
      AddPartitionsToTxn later id' pid e ps now' = ((∅, true), later)
      /\ AddOffsetsToTxn later id' pid e g now' = (ErrorProducerFenced, later)
      /\ TxnOffsetCommit later id' g pid e offs now'
         = (buildPartitionErrors (partitionsFromOffsets offs) ErrorProducerFenced, later)
      /\ EndTxn call_ok later id' pid e commit now' = (ErrorProducerFenced, later).
Proof.
  intros Hr Hop Hops Hb Hlen Hp Hid Hok e tc' later.
  assert (producers_wf n tc) as Hwf by (apply (reachable_producers_wf call_ok); [done|lia]).
  pose proof (producers_wf_step call_ok n tc (OpInit order id timeout now) Hop) as Hwf'.
  cbn [txn_step] in Hwf'. fold tc' in Hwf'.
  pose proof (InitProducerID_cases n tc order id timeout now Hwf) as Hc.
  rewrite (surjective_pairing (InitProducerID tc order id timeout now)) in Hc. fold tc' in Hc.
  destruct Hc as [[Hc _]|(pid' & e' & to_ & Hc & Hpr & Hor)]; [lia|done|by rewrite Hc in Hok|].
  destruct Hor as [(q & Hq & Hqid & He & _)|(Hno & _)]; [|by apply Hno in Hp].
  assert (pid' = pid) as -> by (apply (pw_unique _ _ Hwf pid' pid q p); congruence).
  assert (q = p) as -> by congruence. rewrite Hc, He.
  split; [done|].
  split; [unfold validateProducer; rewrite Hpr, lookup_insert_eq; simpl; rewrite He; apply Z.eqb_refl|].
  apply rejected.
  destruct (run_epoch call_ok ops (S n) tc' pid (mkProducer pid e' id to_ now)) as (p' & j & m & H1 & H2 & H3);
    [done|done|apply Hwf'; [lia|done]|by rewrite Hpr, lookup_insert_eq|].
  unfold validateProducer, later. rewrite H1, H2. simpl. apply Z.eqb_neq. rewrite He. fold e.
  destruct (wraps_16_eqm (e + 1)) as [m' ->]. lia.
Qed.

(** ** Concrete runs *)

Definition sample_id : bytes := [x61].
Definition sample_group : bytes := [x67].
Definition sample_partitions : list PartitionMetadata :=
  [mkPartition [x74] 1; mkPartition [x74] 0; mkPartition [x74] 1].
Definition sample_offsets : offsets_map := {[ [x74] := {[ 0 := mkOffset 7 [] ]} ]}.

(** The first call to the marker writer fails, the others succeed. *)
Definition first_fails (n : nat) : bool := (0 <? n)%nat.

(** A producer, its transaction on two partitions, and offsets inside it. *)
Definition sample_ops : list txn_op :=
  [OpSetMarkerWriter true; OpSetOffsetCommitter true; OpInit id sample_id 0 1;
   OpAddPartitions sample_id 1001 0 sample_partitions 2;
   OpAddOffsets sample_id 1001 0 sample_group 3;
   OpOffsetCommit sample_id sample_group 1001 0 sample_offsets 4].
Definition sample_tc : TransactionCoordinator :=
  run first_fails (NewTransactionCoordinator (Some ∅) DefaultCoordinatorConfig) sample_ops.

Lemma run_reachable call_ok log config ops : Forall op_ok ops ->
  reachable call_ok (length ops) (run call_ok (NewTransactionCoordinator log config) ops).
Proof.
  intros H. induction ops as [|op ops IH] using rev_ind; [constructor|].
  apply Forall_app in H as [H1 H2]. inversion_clear H2.
  unfold run. rewrite fold_left_app, length_app, Nat.add_comm. simpl. constructor; [done|].
  by apply IH.
Qed.

Lemma txn_sample_ok : Forall op_ok sample_ops.
Proof. repeat (apply Forall_cons_2; [first [done|intros l; reflexivity]|]). apply Forall_nil_2. Qed.

Lemma endtxn_retry_witness :
  let tc1 := (EndTxn first_fails sample_tc sample_id 1001 0 true 5).2 in
  exists tc3, EndTxn first_fails (SetOffsetCommitter (SetMarkerWriter tc1 true) true)
                sample_id 1001 0 true 6 = (ErrorNone, tc3)
    /\ length (tc_markers tc3) = 2%nat.
Proof.
  intros tc1.
  assert ((EndTxn first_fails sample_tc sample_id 1001 0 true 5).1
    = ErrorTransactionCoordinatorNotAvailable) as He by (vm_compute; reflexivity).
  assert (tc_calls tc1 = 1%nat) as Hcalls by (vm_compute; reflexivity).
  destruct (endtxn_retry first_fails sample_tc sample_id 1001 0 true 5 tc1 6)
    as (t & tc3 & H1 & H2 & _ & H3 & _).
  - by rewrite (surjective_pairing (EndTxn _ _ _ _ _ _ _)), He.
  - intros n Hn. cbn [SetOffsetCommitter SetMarkerWriter tc_calls] in Hn. rewrite Hcalls in Hn.
    apply Nat.ltb_lt. lia.
  - exists tc3. split; [exact H2|]. rewrite H3.
    assert ((fun t => length (sortedPartitions (t_Partitions t))) <$> tc_transactions sample_tc !! sample_id
      = Some 2%nat) as Hlen by (vm_compute; reflexivity).
    assert (tc_markers tc1 = []) as -> by (vm_compute; reflexivity).
    rewrite H1 in Hlen. injection Hlen as Hlen. simpl. by rewrite length_fmap, Hlen.
Defined.

Lemma sweep_resolves_witness :
  tc_transactions (checkExpiredTransactions (fun _ => true) sample_tc id (100 * second)) !! sample_id
  = (fun t => swept t (100 * second)) <$> tc_transactions sample_tc !! sample_id
  /\ t_State <$> tc_transactions (checkExpiredTransactions (fun _ => true) sample_tc id (100 * second)) !! sample_id
     = Some StateCompleteAbort.
Proof.
  assert ((fun t => t_State (swept t (100 * second))) <$> tc_transactions sample_tc !! sample_id
    = Some StateCompleteAbort) as Hs by (vm_compute; reflexivity).
  destruct (tc_transactions sample_tc !! sample_id) as [t|] eqn:E; [|discriminate Hs].
  destruct (sweep_resolves (fun _ => true) sample_tc id (100 * second)) with (id := sample_id) (t := t) as [H _];
    [intros l; reflexivity|split; [done|split; reflexivity]|exact E|].
  rewrite H. split; [reflexivity|exact Hs].
Defined.

Lemma txn_invariant_witness :
  txn_wf sample_tc /\ GetTransactionState sample_tc sample_id = Some StateOngoing.
Proof.
  split; [|vm_compute; reflexivity].
  apply (txn_invariant first_fails 6). apply (run_reachable first_fails _ _ sample_ops), txn_sample_ok.
Defined.

Lemma producer_fenced_witness :
  EndTxn first_fails (InitProducerID sample_tc id sample_id 0 9).2 sample_id 1001 0 true 10
  = (ErrorProducerFenced, (InitProducerID sample_tc id sample_id 0 9).2).
Proof.
  assert ((fun p => (pr_TransactionID p, pr_ProducerEpoch p)) <$> tc_producers sample_tc !! 1001
    = Some (sample_id, 0)) as Hp by (vm_compute; reflexivity).
  destruct (tc_producers sample_tc !! 1001) as [p|] eqn:E; [|discriminate Hp].
  injection Hp as H1 H2.
  destruct (producer_fenced first_fails 6 sample_tc id sample_id 0 9 1001 p []) as (_ & _ & H).
  - apply (run_reachable first_fails _ _ sample_ops), txn_sample_ok.
  - intros l. reflexivity.
  - constructor.
  - simpl. lia.
  - simpl. lia.
  - exact E.
  - exact H1.
  - vm_compute. reflexivity.
  - rewrite H2 in H. apply (H sample_id [] [] ∅ true 10).
Defined.

(** The delayed clean-up is of an id, not of the transaction it was scheduled
    for: when the id's next transaction is ongoing as the delay ends, the clean-up
    removes that one, with no marker on its partition, and the producer's own
    [EndTxn] is then refused. *)
Theorem cleanup_removes_next_transaction :
  let tc := run (fun _ => true) (NewTransactionCoordinator None DefaultCoordinatorConfig)
    [OpSetMarkerWriter true; OpInit id sample_id 0 1;
     OpAddPartitions sample_id 1001 0 [mkPartition [x74] 0] 2; OpEnd sample_id 1001 0 true 3;
     OpAddPartitions sample_id 1001 0 [mkPartition [x75] 0] 4] in
  let tc' := cleanupTransaction tc sample_id in
  GetTransactionState tc sample_id = Some StateOngoing
  /\ GetTransactionState tc' sample_id = None
  /\ (EndTxn (fun _ => true) tc' sample_id 1001 0 true 5).1 = ErrorInvalidTransactionState
  /\ tc_markers (EndTxn (fun _ => true) tc' sample_id 1001 0 true 5).2
     = [mkRecorded (mkPartition [x74] 0) (mkMarker 1001 0 true 3)].
Proof. vm_compute. repeat split; reflexivity. Qed.

(** The transaction log is written and never read back: a coordinator created
    on the log of one that stopped, whatever the log holds, refuses to end any
    transaction, also one whose outcome the log has recorded. *)
Theorem restart_forgets_transactions call_ok log config id pid e commit now :
  let tc := NewTransactionCoordinator log config in
  EndTxn call_ok tc id pid e commit now = (ErrorProducerFenced, tc)
  /\ (forall order, checkExpiredTransactions call_ok tc order now = tc \/ order [] <> [])
  /\ GetTransactionState tc id = None.
Proof.
  split; [done|]. split; [|done]. intros order. unfold checkExpiredTransactions. simpl.
  rewrite map_to_list_empty. simpl. destruct (order []); [by left|by right].
Qed.
