(* ===== verification/Partition.v ===== *)
(** * Partitions: transaction bookkeeping, produce and fetch

    A [Partition] (pkg/server/topics.go) is a log with, in memory, the first offset
    of every transaction still open on it and the offset ranges of those that
    aborted.  From them a read-committed fetch (handler.go) knows where to stop and
    what to hide.  The marker writer (pkg/broker/transaction_bridge.go) appends the
    control records of pkg/protocol/isolation.go and updates the bookkeeping; a
    restart rebuilds it by replaying the log.  The log is used through
    [LogIface.LogOps].  Each method holds the partition's lock, so it is one step;
    [produce_on] is two, because nothing is held between its append and its
    [BeginTransaction]. *)

From S2P Require Import Prelude GoBytes Record Log LogSpec LogIface Wire Payloads Protocol Txn.
From stdpp Require Import prelude list gmap.
From Stdlib Require Import ZArith Lia Strings.Byte Strings.String.

Open Scope Z_scope.

(** ** strconv *)

Definition str (s : string) : bytes := list_byte_of_string s.

Definition FormatBool (b : bool) : bytes := if b then str "true" else str "false".

Definition ParseBool (s : bytes) : option bool :=
  if bool_decide (s ∈ map str ["1"; "t"; "T"; "true"; "TRUE"; "True"]%string) then Some true
  else if bool_decide (s ∈ map str ["0"; "f"; "F"; "false"; "FALSE"; "False"]%string) then Some false
  else None.

(** ** Control records (isolation.go) *)

Definition ControlHeaderKey : bytes := str "streambus.control".
Definition ControlTypeTxnMarker : bytes := str "txn-marker".
Definition TxnCommitHeaderKey : bytes := str "streambus.txn.commit".
Definition TxnProducerIDHeaderKey : bytes := str "streambus.txn.producer_id".
Definition TxnProducerEpochHeaderKey : bytes := str "streambus.txn.producer_epoch".

Definition IsControlRecord (headers : gmap bytes bytes) : bool :=
  match headers !! ControlHeaderKey with
  | Some value => bool_decide (value = ControlTypeTxnMarker)
  | None => false
  end.

(** [headers[key]] converted to a string: empty when it is missing. *)
Definition header_value (headers : gmap bytes bytes) (key : bytes) : bytes := default [] (headers !! key).

(** The producer, its epoch and whether it commits; [None] is [ok = false]. *)
Definition ParseTransactionMarker (headers : gmap bytes bytes) : option (Z * Z * bool) :=
  if negb (IsControlRecord headers) then None
  else
    pid ← ParseInt 64 (header_value headers TxnProducerIDHeaderKey);
    epoch ← ParseInt 16 (header_value headers TxnProducerEpochHeaderKey);
    commit ← ParseBool (header_value headers TxnCommitHeaderKey);
    Some (pid, epoch, commit).

Definition TransactionMarkerHeaders (pid epoch : Z) (commit : bool) : gmap bytes bytes :=
  <[ControlHeaderKey := ControlTypeTxnMarker]>
  (<[TxnCommitHeaderKey := FormatBool commit]>
  (<[TxnProducerIDHeaderKey := FormatInt pid]>
  (<[TxnProducerEpochHeaderKey := FormatInt epoch]> ∅))).

(** ** A partition *)

Notation producerKey := (Z * Z)%type.

Record abortedRange := mkRange { ar_producerID : Z; ar_producerEpoch : Z; ar_start : Z; ar_end : Z }.

Record Partition (L : Type) := mkPart {
  pt_log : L;
  pt_openTxns : gmap producerKey Z;
  pt_abortedTxns : list abortedRange
}.
Arguments mkPart {L}.
Arguments pt_log {L}.
Arguments pt_openTxns {L}.
Arguments pt_abortedTxns {L}.

Definition isAbortedInRanges (ranges : list abortedRange) (pid epoch offset : Z) : bool :=
  if pid =? 0 then false
  else existsb (fun r => (ar_producerID r =? pid) && (ar_producerEpoch r =? epoch)
                         && (ar_start r <=? offset) && (offset <? ar_end r)) ranges.

(** A record of the log applied to the state being rebuilt. *)
Definition replay_state : Type := gmap producerKey Z * list abortedRange.

Definition replayMarker (msg : Message) (st : replay_state) : replay_state :=
  let '(open, aborted) := st in
  match ParseTransactionMarker (msg_Headers msg) with
  | None => st
  | Some (pid, epoch, commit) =>
      (delete (pid, epoch) open,
       match open !! (pid, epoch) with
       | Some start => if negb commit then aborted ++ [mkRange pid epoch start (msg_Offset msg)]
                       else aborted
       | None => aborted
       end)
  end.

Definition replayRecord (msg : Message) (st : replay_state) : replay_state :=
  if IsControlRecord (msg_Headers msg) then replayMarker msg st
  else if msg_ProducerID msg =? 0 then st
  else
    let key := (msg_ProducerID msg, msg_ProducerEpoch msg) in
    match st.1 !! key with
    | Some _ => st
    | None => (<[key := msg_Offset msg]> st.1, st.2)
    end.

Definition rebuildReplayWindowBytes : Z := 1024 * 1024.

Section partition.
Context {L : Type} {LO : LogOps L}.

Definition with_log (p : Partition L) (l : L) : Partition L :=
  mkPart l (pt_openTxns p) (pt_abortedTxns p).

Definition BeginTransaction (p : Partition L) (pid epoch firstOffset : Z) : Partition L :=
  if pid =? 0 then p
  else match pt_openTxns p !! (pid, epoch) with
  | Some _ => p
  | None => mkPart (pt_log p) (<[(pid, epoch) := firstOffset]> (pt_openTxns p)) (pt_abortedTxns p)
  end.

Definition EndTransaction (p : Partition L) (pid epoch : Z) : Partition L :=
  mkPart (pt_log p) (delete (pid, epoch) (pt_openTxns p)) (pt_abortedTxns p).

Definition pruneAborted (p : Partition L) : Partition L :=
  mkPart (pt_log p) (pt_openTxns p)
    (filter (fun r => lg_StartOffset (pt_log p) < ar_end r) (pt_abortedTxns p)).

Definition AbortTransaction (p : Partition L) (pid epoch markerOffset : Z) : Partition L :=
  let aborted := match pt_openTxns p !! (pid, epoch) with
                 | Some start => pt_abortedTxns p ++ [mkRange pid epoch start markerOffset]
                 | None => pt_abortedTxns p
                 end in
  pruneAborted (mkPart (pt_log p) (delete (pid, epoch) (pt_openTxns p)) aborted).

Definition IsAborted (p : Partition L) (pid epoch offset : Z) : bool :=
  if pid =? 0 then false else isAbortedInRanges (pt_abortedTxns p) pid epoch offset.

Definition abortedRanges (p : Partition L) : list abortedRange * Partition L :=
  let p := pruneAborted p in (pt_abortedTxns p, p).

Definition LastStableOffset (p : Partition L) : Z * Partition L :=
  let p := pruneAborted p in
  (foldr (fun first lso => if first <? lso then first else lso)
     (lg_HighWaterMark (pt_log p)) (map_to_list (pt_openTxns p)).*2, p).

(** The windows of the replay; each moves the offset on, so the number of offsets
    is fuel enough. *)
Fixpoint rebuild_loop (fuel : nat) (l : L) (offset end_ : Z) (st : replay_state)
    : option (result storage_error replay_state * L) :=
  match fuel with
  | O => Some (Ok st, l)
  | S fuel' =>
      if offset <? end_ then
        '(r, l) ← lg_Read l offset rebuildReplayWindowBytes;
        match r with
        | Err e => Some (Err e, l)
        | Ok [] => Some (Ok st, l)
        | Ok (m :: ms) =>
            rebuild_loop fuel' l (msg_Offset (List.last (m :: ms) m) + 1) end_
              (fold_left (fun st msg => replayRecord msg st) (m :: ms) st)
        end
      else Some (Ok st, l)
  end.

Definition rebuildTransactionState (p : Partition L) : option (option storage_error * Partition L) :=
  let start := lg_StartOffset (pt_log p) in
  let end_ := lg_HighWaterMark (pt_log p) in
  if end_ <=? start then Some (None, p)
  else
    '(r, l) ← rebuild_loop (Z.to_nat (end_ - start)) (pt_log p) start end_ (∅, []);
    match r with
    | Err e => Some (Some e, with_log p l)
    | Ok (open, aborted) => Some (None, mkPart l open aborted)
    end.

(** A replay that fails leaves the state empty and the partition usable. *)
Definition newRecoveredPartition (l : L) : option (Partition L) :=
  '(_, p) ← rebuildTransactionState (mkPart l ∅ []);
  Some p.
End partition.

(** ** Produce and fetch on one partition *)

(** What a successful fetch or produce reports of the partition; the handlers add the
    topic's name and the partition's number. *)
Record fetched := mkFetch {
  fr_HighWaterMark : Z;
  fr_LastStableOffset : Z;
  fr_Messages : list ProtoMessage;
  fr_NextOffset : Z
}.

Record produced := mkProduce { pd_BaseOffset : Z; pd_NumMessages : Z; pd_HighWaterMark : Z }.

(** The message of a response. *)
Definition to_proto (m : Message) : ProtoMessage :=
  mkProto (msg_Offset m) (msg_Key m) (msg_Value m) (msg_Headers m) (UnixNano (msg_Timestamp m)).

(** The storage message of a produce request. *)
Definition of_proto (m : ProtoMessage) : Message :=
  mkMessage 0 (pm_Key m) (pm_Value m) (pm_Headers m) (Unix0 (pm_Timestamp m)) 0 0 0.

Fixpoint visibleMessages (storageMessages : list Message) (nextOffset readLimit : Z)
    (aborted : list abortedRange) : list ProtoMessage * Z :=
  match storageMessages with
  | [] => ([], nextOffset)
  | msg :: msgs =>
      let offset := msg_Offset msg in
      if readLimit <=? offset then ([], nextOffset)
      else
        let '(out, next) := visibleMessages msgs (offset + 1) readLimit aborted in
        if IsControlRecord (msg_Headers msg) then (out, next)
        else if isAbortedInRanges aborted (msg_ProducerID msg) (msg_ProducerEpoch msg) offset
        then (out, next)
        else (to_proto msg :: out, next)
  end.

Section handlers.
Context {L : Type} {LO : LogOps L}.

(** [handleProduce] on the partition it found: up to the append, and after it.
    [None] is the panic of [offsets[0]] on an empty batch. *)
Definition produce_append (p : Partition L) (pid epoch : Z) (msgs : list ProtoMessage)
    : option (result storage_error (list Z) * Partition L) :=
  '(r, l) ← lg_Append (pt_log p) (mkBatch (map of_proto msgs) pid epoch);
  Some (r, with_log p l).

Definition produce_begin (p : Partition L) (pid epoch : Z) (num : Z) (offsets : list Z)
    : option (produced * Partition L) :=
  baseOffset ← head offsets;
  let highWaterMark := lg_HighWaterMark (pt_log p) in
  Some (mkProduce baseOffset (wrapu 32 num) highWaterMark, BeginTransaction p pid epoch baseOffset).

Definition produce_on (p : Partition L) (pid epoch : Z) (msgs : list ProtoMessage)
    : option (result Z produced * Partition L) :=
  '(r, p) ← produce_append p pid epoch msgs;
  match r with
  | Err _ => Some (Err Proto.ErrStorageError, p)
  | Ok offsets =>
      '(resp, p) ← produce_begin p pid epoch (zlen msgs) offsets;
      Some (Ok resp, p)
  end.

Definition fetch_on (p : Partition L) (offset maxBytes : Z) (isolation : Z)
    : option (result Z fetched * Partition L) :=
  '(r, l) ← lg_Read (pt_log p) offset maxBytes;
  let p := with_log p l in
  match r with
  | Err ErrOffsetOutOfRange => Some (Err Proto.ErrOffsetOutOfRange, p)
  | Err _ => Some (Err Proto.ErrStorageError, p)
  | Ok storageMessages =>
      let highWaterMark := lg_HighWaterMark (pt_log p) in
      let '(lastStableOffset, p) := LastStableOffset p in
      let '(readLimit, aborted, p) :=
        if isolation =? IsolationReadCommitted
        then let '(aborted, p) := abortedRanges p in (lastStableOffset, aborted, p)
        else (highWaterMark, [], p) in
      let '(messages, nextOffset) := visibleMessages storageMessages offset readLimit aborted in
      Some (Ok (mkFetch highWaterMark lastStableOffset messages nextOffset), p)
  end.

(** [logMarkerWriter.WriteMarker] on the partition it found: whether there is no
    error. *)
Definition marker_record (marker : TransactionMarker) (now : Z) : Message :=
  mkMessage 0 [] [] (TransactionMarkerHeaders (mk_ProducerID marker) (mk_ProducerEpoch marker) (mk_Commit marker))
    (if mk_Timestamp marker =? 0 then now else Unix0 (mk_Timestamp marker)) 0 0 0.

Definition log_WriteMarker (p : Partition L) (marker : TransactionMarker) (now : Z)
    : option (bool * Partition L) :=
  '(r, l) ← lg_Append (pt_log p)
              (mkBatch [marker_record marker now] (mk_ProducerID marker) (mk_ProducerEpoch marker));
  match r with
  | Err _ => Some (false, with_log p l)
  | Ok offsets =>
      '(err, l) ← lg_Flush l;
      let p := with_log p l in
      match err with
      | Some _ => Some (false, p)
      | None =>
          if mk_Commit marker
          then Some (true, EndTransaction p (mk_ProducerID marker) (mk_ProducerEpoch marker))
          else
            off ← head offsets;
            Some (true, AbortTransaction p (mk_ProducerID marker) (mk_ProducerEpoch marker) off)
      end
  end.
End handlers.
