(* ===== verification/PartitionSpec.v ===== *)
(** * Isolation: what a read-committed fetch returns

    The truth about a record is in the log itself: a record of a transaction is
    decided by the first later marker of its producer and epoch.  The partition's
    bookkeeping is shown to be exactly what that truth gives, live and after a
    restart, and the fetch to return exactly the records decided to commit, up to
    the first one undecided. *)

From S2P Require Import Prelude GoBytes Record MemTable GoFiles Wal WalSpec Compaction Log LogSpec.
From S2P Require Import LogIface Wire Payloads Protocol Txn Partition.
From stdpp Require Import prelude list gmap.
From Stdlib Require Import ZArith Lia Strings.Byte.

Open Scope Z_scope.

(** ** The truth in the log *)

Definition key_of (m : Message) : producerKey := (msg_ProducerID m, msg_ProducerEpoch m).

(** A record of a transaction, not a control record. *)
Definition is_txn (m : Message) : bool :=
  negb (IsControlRecord (msg_Headers m)) && negb (msg_ProducerID m =? 0).

(** The outcome that the first marker for [k] in [ms] gives. *)
Fixpoint fate (k : producerKey) (ms : list Message) : option bool :=
  match ms with
  | [] => None
  | m :: ms' =>
      match ParseTransactionMarker (msg_Headers m) with
      | Some (pid, epoch, commit) => if bool_decide ((pid, epoch) = k) then Some commit else fate k ms'
      | None => fate k ms'
      end
  end.

(** The fate of the record at index [i]. *)
Definition fate_at (ms : list Message) (i : nat) (m : Message) : option bool :=
  fate (key_of m) (drop (S i) ms).

Definition indexed (ws : Z) (ms : list Message) : Prop :=
  forall i m, ms !! i = Some m -> msg_Offset m = ws + Z.of_nat i.

Definition covers (r : abortedRange) (k : producerKey) (o : Z) : Prop :=
  (ar_producerID r, ar_producerEpoch r) = k /\ ar_start r <= o < ar_end r.

(** The bookkeeping agrees with the log. *)
Record truthful (ws : Z) (ms : list Message) (st : replay_state) : Prop := {
  tr_open : forall k s, st.1 !! k = Some s ->
    exists i m, ms !! i = Some m /\ s = ws + Z.of_nat i /\ is_txn m = true /\ key_of m = k
      /\ fate k (drop (S i) ms) = None;
  tr_undecided : forall i m, ms !! i = Some m -> is_txn m = true -> fate_at ms i m = None ->
    exists s, st.1 !! key_of m = Some s /\ s <= ws + Z.of_nat i;
  tr_aborted : forall i m, ms !! i = Some m -> is_txn m = true ->
    (exists r, r ∈ st.2 /\ covers r (key_of m) (ws + Z.of_nat i)) <-> fate_at ms i m = Some false;
  tr_ranges : forall r, r ∈ st.2 -> ws <= ar_start r < ar_end r /\ ar_end r < ws + zlen ms
}.

Lemma fate_app k ms ms' :
  fate k (ms ++ ms') = match fate k ms with Some c => Some c | None => fate k ms' end.
Proof.
  induction ms as [|m ms IH]; [done|]. simpl.
  destruct (ParseTransactionMarker _) as [[[pid e] c]|]; [|done]. by case_bool_decide.
Qed.

Lemma fate_none_drop k ms i j : (i <= j)%nat -> fate k (drop i ms) = None -> fate k (drop j ms) = None.
Proof.
  intros Hle H. replace j with (i + (j - i))%nat by lia. rewrite <- drop_drop.
  rewrite <- (take_drop (j - i) (drop i ms)), fate_app in H. by destruct (fate k (take _ _)).
Qed.

(** Adding a record at the end changes the fate of the records before it only when
    it is a marker for them. *)
Lemma fate_at_snoc ms m i mi : (i < length ms)%nat ->
  fate_at (ms ++ [m]) i mi = match fate_at ms i mi with Some c => Some c | None => fate (key_of mi) [m] end.
Proof. intros Hi. unfold fate_at. rewrite drop_app_le by lia. apply fate_app. Qed.

Lemma fate_at_last ms m : fate_at (ms ++ [m]) (length ms) m = None.
Proof. unfold fate_at. rewrite drop_ge; [done|]. rewrite length_app. simpl. lia. Qed.

Lemma lookup_snoc {A} (l : list A) x i y : (l ++ [x]) !! i = Some y ->
  (l !! i = Some y /\ (i < length l)%nat) \/ (i = length l /\ y = x).
Proof.
  intros H. apply lookup_app_Some in H as [H|[Hi H]].
  - left. split; [done|]. by apply lookup_lt_Some in H.
  - right. apply list_lookup_singleton_Some in H as [? <-]. split; [lia|done].
Qed.

(** A record that decides nothing and opens nothing. *)
Lemma truthful_skip ws ms m st :
  truthful ws ms st -> is_txn m = false -> (forall k, fate k [m] = None) -> truthful ws (ms ++ [m]) st.
Proof.
  intros [A B C D] Htx Hf. split.
  - intros k s Hk. destruct (A k s Hk) as (i & mi & Hi & -> & H1 & H2 & H3).
    exists i, mi. pose proof (lookup_lt_Some _ _ _ Hi). rewrite lookup_app_l by lia.
    repeat split; try done. rewrite drop_app_le by lia. by rewrite fate_app, H3.
  - intros i mi Hi Ht Hfa. apply lookup_snoc in Hi as [[Hi Hlt]|[-> ->]]; [|congruence].
    rewrite fate_at_snoc in Hfa by lia. destruct (fate_at ms i mi) eqn:E; [done|]. by apply B.
  - intros i mi Hi Ht. apply lookup_snoc in Hi as [[Hi Hlt]|[-> ->]]; [|congruence].
    rewrite (C i mi Hi Ht), fate_at_snoc by lia. rewrite Hf. by destruct (fate_at ms i mi).
  - intros r Hr. rewrite length_app. simpl. destruct (D r Hr). lia.
Qed.

(** A record of a transaction opens it, unless it is open. *)
Lemma truthful_txn ws ms m open aborted :
  truthful ws ms (open, aborted) -> is_txn m = true -> msg_Offset m = ws + zlen ms ->
  truthful ws (ms ++ [m])
    (match open !! key_of m with Some _ => open | None => <[key_of m := msg_Offset m]> open end, aborted).
Proof.
  intros [A B C D] Htx Ho. simpl in *.
  assert (forall k, fate k [m] = None) as Hf.
  { intros k. simpl. unfold ParseTransactionMarker, is_txn in *. by destruct (IsControlRecord _). }
  assert (forall k s, (match open !! key_of m with Some _ => open | None => <[key_of m := msg_Offset m]> open end)
    !! k = Some s -> open !! k = Some s \/ (k = key_of m /\ s = msg_Offset m /\ open !! k = None)) as Hlk.
  { intros k s. destruct (open !! key_of m) eqn:E; [by left|]. rewrite lookup_insert_Some.
    intros [[<- <-]|[_ ?]]; [right|left]; done. }
  split; simpl.
  - intros k s Hk. destruct (Hlk k s Hk) as [Hk'|(-> & -> & _)].
    + destruct (A k s Hk') as (i & mi & Hi & -> & H1 & H2 & H3).
      exists i, mi. pose proof (lookup_lt_Some _ _ _ Hi). rewrite lookup_app_l by lia.
      repeat split; try done. rewrite drop_app_le by lia. by rewrite fate_app, H3.
    + exists (length ms), m. rewrite lookup_app_r, Nat.sub_diag by lia. repeat split; try done.
      rewrite drop_ge; [done|]. rewrite length_app. simpl. lia.
  - intros i mi Hi Ht Hfa. apply lookup_snoc in Hi as [[Hi Hlt]|[-> ->]].
    + rewrite fate_at_snoc in Hfa by lia. destruct (fate_at ms i mi) eqn:E; [done|].
      destruct (B i mi Hi Ht E) as (s & Hs & Hle). exists s. split; [|done].
      destruct (open !! key_of m) eqn:Eo; [done|]. rewrite lookup_insert_ne; [done|]. congruence.
    + destruct (open !! key_of m) as [s|] eqn:Eo.
      * exists s. split; [done|]. destruct (A _ _ Eo) as (j & mj & Hj & -> & _).
        apply lookup_lt_Some in Hj. lia.
      * exists (msg_Offset m). rewrite lookup_insert_eq. split; [done|lia].
  - intros i mi Hi Ht. apply lookup_snoc in Hi as [[Hi Hlt]|[-> ->]].
    + rewrite (C i mi Hi Ht), fate_at_snoc by lia. rewrite Hf. by destruct (fate_at ms i mi).
    + rewrite fate_at_last. split; [|done]. intros (r & Hr & _ & Hc). destruct (D r Hr). lia.
  - intros r Hr. rewrite length_app. simpl. destruct (D r Hr). lia.
Qed.

(** A marker closes its transaction, and remembers its range when it aborts. *)
Lemma truthful_marker ws ms m open aborted pid epoch commit :
  truthful ws ms (open, aborted) ->
  ParseTransactionMarker (msg_Headers m) = Some (pid, epoch, commit) -> msg_Offset m = ws + zlen ms ->
  truthful ws (ms ++ [m]) (replayMarker m (open, aborted)).
Proof.
  intros [A B C D] Hp Ho. unfold replayMarker. rewrite Hp. simpl in *.
  assert (is_txn m = false) as Htx.
  { unfold is_txn, ParseTransactionMarker in *. by destruct (IsControlRecord _). }
  assert (forall k, fate k [m] = if bool_decide ((pid, epoch) = k) then Some commit else None) as Hf
    by (intros k; simpl; by rewrite Hp).
  set (aborted' := match open !! (pid, epoch) with Some _ => _ | None => _ end).
  assert (forall r, r ∈ aborted' <-> r ∈ aborted \/ (exists s, open !! (pid, epoch) = Some s
    /\ commit = false /\ r = mkRange pid epoch s (msg_Offset m))) as Hab.
  { intros r. subst aborted'. destruct (open !! (pid, epoch)) as [s|]; [destruct commit; simpl|].
    - naive_solver.
    - rewrite elem_of_app, list_elem_of_singleton. naive_solver.
    - naive_solver. }
  split; simpl.
  - intros k s [Hne Hk]%lookup_delete_Some. destruct (A k s Hk) as (i & mi & Hi & -> & H1 & H2 & H3).
    exists i, mi. pose proof (lookup_lt_Some _ _ _ Hi). rewrite lookup_app_l by lia.
    repeat split; try done. rewrite drop_app_le, fate_app, H3, Hf by lia. by rewrite bool_decide_false.
  - intros i mi Hi Ht Hfa. apply lookup_snoc in Hi as [[Hi Hlt]|[-> ->]]; [|congruence].
    rewrite fate_at_snoc in Hfa by lia. destruct (fate_at ms i mi) eqn:E; [done|].
    rewrite Hf in Hfa. case_bool_decide as Hk; [done|].
    destruct (B i mi Hi Ht E) as (s & Hs & Hle). exists s. by rewrite lookup_delete_ne.
  - intros i mi Hi Ht. apply lookup_snoc in Hi as [[Hi Hlt]|[-> ->]]; [|congruence].
    rewrite fate_at_snoc, Hf by lia. pose proof (C i mi Hi Ht) as HC.
    destruct (fate_at ms i mi) as [c|] eqn:E.
    + rewrite <- HC. split; [|intros (r & Hr & Hc); exists r; rewrite Hab; auto].
      intros (r & [Hr|(s & Hs & _ & ->)]%Hab & Hc); [eauto|]. exfalso.
      destruct Hc as [Hk Hc]. simpl in Hk, Hc.
      destruct (A _ _ Hs) as (j & mj & Hj & -> & _ & _ & Hfj). unfold fate_at in E.
      rewrite <- Hk in E. rewrite (fate_none_drop _ _ (S j)) in E; [done|lia|done].
    + case_bool_decide as Hk.
      * destruct (B i mi Hi Ht E) as (s & Hs & Hle). rewrite <- Hk in Hs. split.
        -- intros (r & [Hr|(s' & _ & -> & _)]%Hab & Hc); [|done].
           exfalso. assert (None = Some false) by (apply HC; eauto). done.
        -- intros [= ->]. exists (mkRange pid epoch s (msg_Offset m)). rewrite Hab.
           split; [right; eauto|]. split; [done|]. simpl. lia.
      * split; [|done]. intros (r & [Hr|(s' & _ & _ & ->)]%Hab & Hc).
        -- apply HC. eauto.
        -- by destruct Hc.
  - intros r [Hr|(s & Hs & _ & ->)]%Hab; rewrite length_app; simpl.
    + destruct (D r Hr). lia.
    + destruct (A _ _ Hs) as (j & mj & Hj & -> & _). apply lookup_lt_Some in Hj. lia.
Qed.

Definition replay (ms : list Message) : replay_state :=
  fold_left (fun st m => replayRecord m st) ms (∅, []).

Lemma replay_truthful ws ms : indexed ws ms -> truthful ws ms (replay ms).
Proof.
  induction ms as [|m ms IH] using rev_ind; intros Hix.
  { split; simpl.
    - by intros k s ?%lookup_empty_Some.
    - by intros i m ?.
    - by intros i m ?.
    - by intros r ?%elem_of_nil. }
  assert (truthful ws ms (replay ms)) as T.
  { apply IH. intros i mi Hi. apply Hix. rewrite lookup_app_l; [done|]. by eapply lookup_lt_Some. }
  assert (msg_Offset m = ws + zlen ms) as Ho.
  { apply Hix. by rewrite lookup_app_r, Nat.sub_diag by lia. }
  unfold replay. rewrite fold_left_app. simpl. fold (replay ms).
  destruct (replay ms) as [open aborted] eqn:Er. unfold replayRecord.
  destruct (IsControlRecord (msg_Headers m)) eqn:Ec.
  - destruct (ParseTransactionMarker (msg_Headers m)) as [[[pid e] c]|] eqn:Ep.
    + by eapply truthful_marker.
    + unfold replayMarker. rewrite Ep. apply truthful_skip; [done| |].
      * unfold is_txn. by rewrite Ec.
      * intros k. simpl. by rewrite Ep.
  - destruct (Z.eqb_spec (msg_ProducerID m) 0) as [E0|E0].
    + apply truthful_skip; [done| |].
      * unfold is_txn. rewrite E0. apply andb_false_r.
      * intros k. simpl. unfold ParseTransactionMarker. by rewrite Ec.
    + assert (is_txn m = true) as Ht.
      { unfold is_txn. rewrite Ec. simpl. by apply negb_true_iff, Z.eqb_neq. }
      pose proof (truthful_txn _ _ _ _ _ T Ht Ho) as T'. revert T'. unfold key_of. simpl.
      by destruct (open !! (msg_ProducerID m, msg_ProducerEpoch m)).
Qed.

(** ** Fetching *)

Section fetch.
Context {L : Type} {LO : LogOps L} {LL : LogLaws L}.

(** The partition's log holds [ms], and its bookkeeping is their replay. *)
Definition part_rep (p : Partition L) (ws : Z) (ms : list Message) : Prop :=
  lview (pt_log p) ws ws ms /\ (pt_openTxns p, pt_abortedTxns p) = replay ms.

Lemma lview_indexed l ws st ms : lview l ws st ms -> indexed ws ms.
Proof. intros V i m Hi. by eapply lview_index. Qed.

Lemma part_rep_truthful p ws ms :
  part_rep p ws ms -> truthful ws ms (pt_openTxns p, pt_abortedTxns p).
Proof. intros [V ->]. eapply replay_truthful, lview_indexed, V. Qed.

Lemma prune_same p ws ms : part_rep p ws ms -> pruneAborted p = p.
Proof.
  intros H. pose proof (part_rep_truthful _ _ _ H) as [_ _ _ D]. destruct H as [V _].
  destruct (lview_offsets _ _ _ _ V) as (Hs & _). unfold pruneAborted.
  rewrite filter_all; [by destruct p|]. intros r Hr. destruct (D r Hr). rewrite Hs. lia.
Qed.

Lemma foldr_min_spec (hwm : Z) (l : list Z) :
  let lso := foldr (fun first lso => if first <? lso then first else lso) hwm l in
  lso <= hwm /\ (forall x, x ∈ l -> lso <= x) /\ (lso = hwm \/ lso ∈ l).
Proof.
  induction l as [|x l (H1 & H2 & H3)]; simpl.
  { split; [lia|]. split; [by intros ? ?%elem_of_nil|by left]. }
  destruct (Z.ltb_spec x (foldr (fun first lso => if first <? lso then first else lso) hwm l)).
  - split; [lia|]. split; [|right; left]. intros y [->|Hy]%elem_of_cons; [lia|].
    specialize (H2 y Hy). lia.
  - split; [lia|]. split; [|destruct H3; [by left|right; by right]].
    intros y [->|Hy]%elem_of_cons; [lia|]. by apply H2.
Qed.

(** The first offset that is not decided, or the end of the log. *)
Definition stable_offset (ws : Z) (ms : list Message) (lso : Z) : Prop :=
  ws <= lso <= ws + zlen ms
  /\ (forall i m, ms !! i = Some m -> is_txn m = true -> fate_at ms i m = None -> lso <= ws + Z.of_nat i)
  /\ (lso < ws + zlen ms -> exists i m, ms !! i = Some m /\ lso = ws + Z.of_nat i /\ is_txn m = true
        /\ fate_at ms i m = None).

Lemma LastStableOffset_spec p ws ms : part_rep p ws ms ->
  exists lso, LastStableOffset p = (lso, p) /\ stable_offset ws ms lso.
Proof.
  intros H. pose proof (part_rep_truthful _ _ _ H) as [A B _ _]. simpl in *.
  unfold LastStableOffset. rewrite (prune_same _ _ _ H). eexists. split; [done|].
  destruct H as [V _]. rewrite (lview_hwm _ _ _ _ V).
  destruct (foldr_min_spec (ws + zlen ms) (map_to_list (pt_openTxns p)).*2) as (H1 & H2 & H3).
  set (lso := foldr _ _ _) in *.
  assert (forall x, x ∈ (map_to_list (pt_openTxns p)).*2 -> exists k, pt_openTxns p !! k = Some x) as Hin.
  { intros x [[k y] [-> Hk]]%list_elem_of_fmap. exists k. by apply elem_of_map_to_list. }
  assert (lso = ws + zlen ms \/ exists i m, ms !! i = Some m /\ lso = ws + Z.of_nat i /\ is_txn m = true
    /\ fate_at ms i m = None) as Hor.
  { destruct H3 as [|Hm]; [by left|]. right. destruct (Hin _ Hm) as [k Hk].
    destruct (A k lso Hk) as (i & m & Hi & E1 & E2 & E3 & E4). exists i, m. unfold fate_at. by rewrite E3. }
  split; [|split].
  - destruct Hor as [->|(i & m & Hi & -> & _)]; [lia|]. apply lookup_lt_Some in Hi. lia.
  - intros i m Hi Ht Hf. destruct (B i m Hi Ht Hf) as (s & Hs & Hle). etrans; [|exact Hle].
    apply H2. apply list_elem_of_fmap. exists (key_of m, s). split; [done|]. by apply elem_of_map_to_list.
  - intros Hlt. destruct Hor as [|?]; [lia|done].
Qed.

(** A record that a read-committed consumer may see: of no transaction, or of one
    that was committed. *)
Definition visible (ws : Z) (ms : list Message) (m : Message) : Prop :=
  IsControlRecord (msg_Headers m) = false
  /\ (msg_ProducerID m = 0 \/ fate_at ms (Z.to_nat (msg_Offset m - ws)) m = Some true).

#[export] Instance visible_dec ws ms m : Decision (visible ws ms m).
Proof. apply _. Defined.

Lemma isAbortedInRanges_spec rs pid epoch o :
  isAbortedInRanges rs pid epoch o = true <-> pid <> 0 /\ exists r, r ∈ rs /\ covers r (pid, epoch) o.
Proof.
  unfold isAbortedInRanges. destruct (Z.eqb_spec pid 0) as [->|Hp]; [naive_solver|].
  rewrite existsb_exists. unfold covers. split.
  - intros (r & Hr & Hc). split; [done|]. exists r. rewrite list_elem_of_In. split; [done|].
    rewrite !andb_true_iff, !Z.eqb_eq, Z.leb_le, Z.ltb_lt in Hc. destruct Hc as [[[-> ->] ?] ?]. done.
  - intros (_ & r & Hr & [= <- <-] & Hc). exists r. rewrite <- list_elem_of_In. split; [done|].
    rewrite !andb_true_iff, !Z.eqb_eq, Z.leb_le, Z.ltb_lt. lia.
Qed.

(** Below the stable offset, what is hidden is exactly what is not visible. *)
Lemma hidden_below p ws ms lso i m :
  part_rep p ws ms -> stable_offset ws ms lso -> ms !! i = Some m -> ws + Z.of_nat i < lso ->
  IsControlRecord (msg_Headers m) = false ->
  isAbortedInRanges (pt_abortedTxns p) (msg_ProducerID m) (msg_ProducerEpoch m) (msg_Offset m) = false
  <-> visible ws ms m.
Proof.
  intros H (_ & Hs & _) Hi Hlt Hc. pose proof (part_rep_truthful _ _ _ H) as [_ _ C _].
  assert (msg_Offset m = ws + Z.of_nat i) as Ho by (eapply lview_index; [apply H|done]).
  rewrite <- not_true_iff_false, isAbortedInRanges_spec. unfold visible. rewrite Ho.
  replace (Z.to_nat (ws + Z.of_nat i - ws)) with i by lia.
  destruct (decide (msg_ProducerID m = 0)) as [E|E]; [naive_solver|].
  assert (is_txn m = true) as Ht.
  { unfold is_txn. rewrite Hc. simpl. by apply negb_true_iff, Z.eqb_neq. }
  specialize (C i m Hi Ht). specialize (Hs i m Hi Ht). simpl in C. unfold key_of in C. rewrite C.
  destruct (fate_at ms i m) as [[]|]; [naive_solver|naive_solver|]. specialize (Hs eq_refl). lia.
Qed.

Lemma visibleMessages_spec limit aborted : forall msgs next,
  (forall i m, msgs !! i = Some m -> msg_Offset m = next + Z.of_nat i) ->
  visibleMessages msgs next limit aborted
  = (map to_proto (filter (fun m => msg_Offset m < limit /\ IsControlRecord (msg_Headers m) = false
       /\ isAbortedInRanges aborted (msg_ProducerID m) (msg_ProducerEpoch m) (msg_Offset m) = false) msgs),
     next + zlen (filter (fun m => msg_Offset m < limit) msgs)).
Proof.
  induction msgs as [|m msgs IH]; intros next Hix; cbn [visibleMessages].
  { simpl. f_equal. lia. }
  assert (msg_Offset m = next) as Ho by (rewrite (Hix 0%nat m eq_refl); lia).
  assert (forall i m', msgs !! i = Some m' -> msg_Offset m' = next + 1 + Z.of_nat i) as Hix'
    by (intros i m' Hi; rewrite (Hix (S i) m' Hi); lia).
  destruct (Z.leb_spec limit (msg_Offset m)).
  - rewrite !filter_none; [simpl; f_equal; lia| |];
      intros x [i Hi]%list_elem_of_lookup; rewrite (Hix i x Hi); lia.
  - rewrite Ho, (IH (next + 1) Hix'), !filter_cons.
    rewrite (decide_True (P := msg_Offset m < limit)) by done. cbn [length].
    destruct (IsControlRecord (msg_Headers m)) eqn:Ec.
    { rewrite decide_False by naive_solver. f_equal. lia. }
    destruct (isAbortedInRanges aborted (msg_ProducerID m) (msg_ProducerEpoch m) next) eqn:Ea.
    + rewrite decide_False by (rewrite Ho, Ea; naive_solver). f_equal. lia.
    + rewrite decide_True by (rewrite Ho, Ea; repeat split; lia || done). simpl. f_equal. lia.
Qed.

Lemma take_bytes_prefix mx : forall ms n, take_bytes mx n ms `prefix_of` ms.
Proof.
  induction ms as [|m ms IH]; intros n; simpl; [done|].
  destruct (n <? mx); [|apply prefix_nil]. by apply prefix_cons.
Qed.

(** The messages of a read, by their index in the log. *)
Lemma window_lookup ws ms o mx i m : indexed ws ms -> ws <= o ->
  take_bytes mx 0 (drop (Z.to_nat (o - ws)) ms) !! i = Some m ->
  ms !! (Z.to_nat (o - ws) + i)%nat = Some m /\ msg_Offset m = o + Z.of_nat i.
Proof.
  intros Hix Ho Hi.
  assert (drop (Z.to_nat (o - ws)) ms !! i = Some m) as Hd
    by (eapply prefix_lookup_Some; [done|apply take_bytes_prefix]).
  rewrite lookup_drop in Hd. split; [done|]. rewrite (Hix _ _ Hd). lia.
Qed.

Lemma part_rep_log p ws ms l : part_rep p ws ms -> lview l ws ws ms -> part_rep (with_log p l) ws ms.
Proof. by intros [_ E] V. Qed.

(** What a read-committed fetch from [o] of a log that holds [ms] is to answer: of the messages
    that the read gives, exactly those before the last stable offset that are of no transaction or
    of one that committed; the last stable offset, and the next offset. *)
Definition committed_answer (ws : Z) (ms : list Message) (o mx : Z) (resp : fetched) : Prop :=
  let window := take_bytes mx 0 (drop (Z.to_nat (o - ws)) ms) in
  fr_HighWaterMark resp = ws + zlen ms
  /\ stable_offset ws ms (fr_LastStableOffset resp)
  /\ fr_Messages resp
     = map to_proto (filter (fun m => msg_Offset m < fr_LastStableOffset resp /\ visible ws ms m) window)
  /\ fr_NextOffset resp
     = o + zlen (filter (fun m => msg_Offset m < fr_LastStableOffset resp) window).

Lemma fetch_committed (p : Partition L) (ws : Z) (ms : list Message) (o mx : Z) :
  part_rep p ws ms -> ws <= o ->
  exists resp p', fetch_on p o mx IsolationReadCommitted = Some (Ok resp, p') /\ committed_answer ws ms o mx resp.
Proof.
  intros H Ho. unfold committed_answer. set (window := take_bytes _ _ _). pose proof (proj1 H) as V. pose proof (lview_indexed _ _ _ _ V) as Hix.
  unfold fetch_on.
  destruct (lview_read _ _ _ _ o mx V Ho) as (l' & -> & V'). cbn [mbind option_bind].
  pose proof (part_rep_log _ _ _ _ H V') as H'.
  destruct (LastStableOffset_spec _ _ _ H') as (lso & -> & Hs).
  unfold abortedRanges. rewrite (prune_same _ _ _ H'). fold window.
  change (IsolationReadCommitted =? IsolationReadCommitted) with true. cbv iota.
  rewrite visibleMessages_spec
    by (intros i m Hi; by destruct (window_lookup _ _ _ _ _ _ Hix Ho Hi)).
  do 2 eexists. split; [done|]. cbn [fr_HighWaterMark fr_LastStableOffset fr_Messages fr_NextOffset].
  split; [by apply (lview_hwm _ _ _ _ V')|]. split; [done|]. split; [|done]. f_equal.
  apply filter_agree. intros m [i Hi]%list_elem_of_lookup.
  destruct (window_lookup _ _ _ _ _ _ Hix Ho Hi) as [Hm Hoff].
  split.
  - intros (Hlt & Hc & Ha). split; [done|]. eapply (hidden_below _ _ _ lso); [exact H'|done|done| |done|done]. lia.
  - intros (Hlt & Hv). split; [done|]. pose proof Hv as [Hc _]. split; [done|].
    eapply (hidden_below _ _ _ lso); [exact H'|done|done|lia|done|done].
Qed.

(** Every record of a read that starts below the high water mark. *)
Lemma take_bytes_cons mx ms : 0 < mx -> ms <> [] -> take_bytes mx 0 ms <> [].
Proof. destruct ms; [done|]. simpl. intros H _. destruct (Z.ltb_spec 0 mx); [done|lia]. Qed.

Lemma replay_app ms ms' : replay (ms ++ ms') = fold_left (fun st m => replayRecord m st) ms' (replay ms).
Proof. apply fold_left_app. Qed.

Lemma last_default {A} (l : list A) d : l <> [] -> exists i, l !! i = Some (List.last l d) /\ S i = length l.
Proof.
  induction l as [|x l IH]; intros Hl; [done|]. destruct l as [|y l]; [by exists 0%nat|].
  destruct IH as (i & Hi & Hlen); [done|]. exists (S i). split; [exact Hi|]. simpl in *. lia.
Qed.

(** The windows of the replay put together are the replay of the whole log. *)
Lemma rebuild_loop_spec ws ms : forall fuel l i,
  lview l ws ws ms -> (i <= length ms)%nat -> (length ms - i <= fuel)%nat ->
  exists l', rebuild_loop fuel l (ws + Z.of_nat i) (ws + zlen ms) (replay (take i ms))
    = Some (Ok (replay ms), l') /\ lview l' ws ws ms.
Proof.
  induction fuel as [|fuel IH]; intros l i V Hi Hf; cbn [rebuild_loop].
  { rewrite take_ge by lia. eauto. }
  destruct (Z.ltb_spec (ws + Z.of_nat i) (ws + zlen ms)); [|rewrite take_ge by lia; eauto].
  destruct (lview_read _ _ _ _ (ws + Z.of_nat i) rebuildReplayWindowBytes V ltac:(lia)) as (l1 & -> & V1).
  cbn [mbind option_bind]. replace (Z.to_nat (ws + Z.of_nat i - ws)) with i by lia.
  pose proof (take_bytes_prefix rebuildReplayWindowBytes (drop i ms) 0) as [rest Hpre].
  pose proof (take_bytes_cons rebuildReplayWindowBytes (drop i ms) eq_refl) as Hne.
  set (win := take_bytes rebuildReplayWindowBytes 0 (drop i ms)) in *.
  assert (win <> []) as Hwin.
  { apply Hne. intros E. apply (f_equal length) in E. rewrite length_drop in E. simpl in E. lia. }
  assert (length win <= length ms - i)%nat as Hlen.
  { apply (f_equal length) in Hpre. rewrite length_drop, length_app in Hpre. lia. }
  assert (take (i + length win) ms = take i ms ++ win) as Htake.
  { rewrite <- (take_drop i ms) at 1. rewrite Hpre.
    rewrite take_app_ge, length_take by (rewrite length_take; lia).
    f_equal. replace (_ - _)%nat with (length win) by lia. by rewrite take_app_length. }
  clearbody win. destruct win as [|m win']; [done|]. set (win := m :: win') in *.
  destruct (last_default win m) as (j & Hj & Hjl); [done|].
  assert (ms !! (i + j)%nat = Some (List.last win m)) as Hm.
  { rewrite <- lookup_drop, Hpre. by apply lookup_app_l_Some. }
  rewrite (lview_index _ _ _ _ _ _ V Hm).
  replace (ws + Z.of_nat (i + j) + 1) with (ws + Z.of_nat (i + length win)) by lia.
  rewrite <- replay_app, <- Htake.
  apply IH; [done|lia|]. rewrite <- Hjl. lia.
Qed.

(** Recovery rebuilds the bookkeeping from the log, whole. *)
Lemma newRecoveredPartition_spec l ws ms : lview l ws ws ms ->
  exists p, newRecoveredPartition l = Some p /\ part_rep p ws ms.
Proof.
  intros V. unfold newRecoveredPartition, rebuildTransactionState. cbn [pt_log].
  destruct (lview_offsets _ _ _ _ V) as (-> & _). rewrite (lview_hwm _ _ _ _ V).
  destruct (Z.leb_spec (ws + zlen ms) ws).
  { assert (ms = []) as -> by (destruct ms; [done|simpl in *; lia]). eexists. split; [done|]. by split. }
  destruct (rebuild_loop_spec ws ms (Z.to_nat (ws + zlen ms - ws)) l 0 V) as (l' & E & V'); [lia|lia|].
  replace (ws + Z.of_nat 0) with ws in E by lia. change (replay (take 0 ms)) with ((∅, []) : replay_state) in E.
  rewrite E. cbn [mbind option_bind]. destruct (replay ms) as [open aborted] eqn:Er.
  eexists. split; [done|]. split; [done|]. by rewrite Er.
Qed.
End fetch.

(** ** Marker headers *)

Lemma marker_headers_control pid epoch commit :
  IsControlRecord (TransactionMarkerHeaders pid epoch commit) = true.
Proof. unfold IsControlRecord, TransactionMarkerHeaders. rewrite lookup_insert_eq. by apply bool_decide_true. Qed.

(** Reading the headers of a marker gives back what they were written for. *)
Lemma marker_headers_roundtrip pid epoch commit : in_i64 pid -> in_i16 epoch ->
  ParseTransactionMarker (TransactionMarkerHeaders pid epoch commit) = Some (pid, epoch, commit).
Proof.
  intros Hp He. unfold ParseTransactionMarker. rewrite marker_headers_control.
  unfold header_value, TransactionMarkerHeaders. cbn [negb].
  repeat (rewrite lookup_insert_eq || rewrite lookup_insert_ne by (intros E; vm_compute in E; discriminate E)).
  cbn [default from_option id]. rewrite !ParseInt_FormatInt by (unfold in_i64, in_i16 in *; simpl; lia).
  by destruct commit.
Qed.

(** ** The bookkeeping of a running partition *)

Inductive part_op :=
| PoProduce (pid epoch : Z) (msgs : list ProtoMessage)
| PoMarker (marker : TransactionMarker) (now : Z)
| PoFetch (offset maxBytes : Z) (isolation : Z).

Section live.
Context {L : Type} {LO : LogOps L} {LL : LogLaws L}.

Definition part_step (p : Partition L) (op : part_op) : option (Partition L) :=
  match op with
  | PoProduce pid epoch msgs => snd <$> produce_on p pid epoch msgs
  | PoMarker marker now => snd <$> log_WriteMarker p marker now
  | PoFetch offset maxBytes isolation => snd <$> fetch_on p offset maxBytes isolation
  end.

Fixpoint part_run (p : Partition L) (ops : list part_op) : option (Partition L) :=
  match ops with
  | [] => Some p
  | op :: ops' => p ← part_step p op; part_run p ops'
  end.

(** The messages a request adds to the log. *)
Definition op_batch (op : part_op) : MessageBatch :=
  match op with
  | PoProduce pid epoch msgs => mkBatch (map of_proto msgs) pid epoch
  | PoMarker marker now =>
      mkBatch [marker_record marker now] (mk_ProducerID marker) (mk_ProducerEpoch marker)
  | PoFetch _ _ _ => mkBatch [] 0 0
  end.

(** Requests whose messages fit the record format, with at least one message and no
    control header in a produce request. *)
Definition part_op_ok (version : Z) (op : part_op) : Prop :=
  batch_ok version (op_batch op)
  /\ match op with
     | PoProduce _ _ msgs => msgs <> [] /\ Forall (fun m => IsControlRecord (pm_Headers m) = false) msgs
     | PoMarker marker _ => in_i64 (mk_ProducerID marker) /\ in_i16 (mk_ProducerEpoch marker)
     | PoFetch _ _ _ => True
     end.

Definition part_fresh (p : Partition L) (ws : Z) (ms : list Message) : Prop :=
  lfresh (pt_log p) ws ws ms /\ (pt_openTxns p, pt_abortedTxns p) = replay ms.

Lemma part_fresh_rep p ws ms : part_fresh p ws ms -> part_rep p ws ms.
Proof. intros [F E]. split; [by apply lfresh_view|done]. Qed.

Lemma replayRecord_plain m st : IsControlRecord (msg_Headers m) = false ->
  replayRecord m st
  = if msg_ProducerID m =? 0 then st
    else match st.1 !! key_of m with
         | Some _ => st
         | None => (<[key_of m := msg_Offset m]> st.1, st.2)
         end.
Proof. intros H. unfold replayRecord. by rewrite H. Qed.

(** The replay of a batch of plain messages is [BeginTransaction]. *)
Lemma replay_delivered batch msgs : forall o st,
  Forall (fun m => IsControlRecord (msg_Headers m) = false) msgs -> msgs <> [] ->
  fold_left (fun st m => replayRecord m st) (delivered batch o msgs) st
  = if b_ProducerID batch =? 0 then st
    else match st.1 !! (b_ProducerID batch, b_ProducerEpoch batch) with
         | Some _ => st
         | None => (<[(b_ProducerID batch, b_ProducerEpoch batch) := o]> st.1, st.2)
         end.
Proof.
  induction msgs as [|m msgs IH]; intros o st Hc Hne; [done|]. inversion_clear Hc as [|? ? Hm Hms].
  cbn [delivered fold_left]. rewrite replayRecord_plain by exact Hm. unfold key_of.
  cbn [msg_ProducerID msg_ProducerEpoch msg_Offset].
  destruct msgs as [|m' msgs]; [done|]. rewrite IH by done.
  destruct (b_ProducerID batch =? 0); [done|].
  destruct (st.1 !! _) eqn:E; [by rewrite E|]. cbn [fst snd]. by rewrite lookup_insert_eq.
Qed.

Lemma produce_fresh p ws ms pid epoch msgs :
  part_fresh p ws ms -> lversion (pt_log p) <> MessageFormatV2 ->
  part_op_ok (lversion (pt_log p)) (PoProduce pid epoch msgs) ->
  ws + zlen ms + zlen msgs < 2 ^ 63 ->
  exists resp p', produce_on p pid epoch msgs = Some (Ok resp, p')
    /\ pd_BaseOffset resp = ws + zlen ms
    /\ part_fresh p' ws (ms ++ as_read (op_batch (PoProduce pid epoch msgs)) (ws + zlen ms))
    /\ lversion (pt_log p') = lversion (pt_log p).
Proof.
  intros [F E] Hv (Hb & Hne & Hc) Hmax. unfold produce_on, produce_append.
  destruct (lfresh_append _ _ _ _ (op_batch (PoProduce pid epoch msgs)) F Hb) as (l' & Ha & F' & Hl');
    [done|by cbn; rewrite length_map|]. cbn [op_batch] in Ha. rewrite Ha. cbn [mbind option_bind].
  cbn [b_Messages]. rewrite length_map. unfold produce_begin.
  destruct msgs as [|m msgs]; [done|].
  rewrite seqZ_cons by (simpl; lia). cbn [head mbind option_bind].
  eexists _, _. split; [done|]. split; [done|]. unfold part_fresh.
  rewrite replay_app. unfold as_read. rewrite replay_delivered; cbn [op_batch b_Messages].
  2: { rewrite Forall_map. exact Hc. }
  2: done.
  cbn [b_ProducerID b_ProducerEpoch op_batch]. rewrite <- E. unfold BeginTransaction, with_log.
  cbn [pt_log pt_openTxns pt_abortedTxns fst snd].
  destruct (pid =? 0); [done|]. by destruct (pt_openTxns p !! (pid, epoch)).
Qed.

Lemma marker_fresh p ws ms marker now :
  part_fresh p ws ms -> lversion (pt_log p) <> MessageFormatV2 ->
  part_op_ok (lversion (pt_log p)) (PoMarker marker now) -> ws + zlen ms + 1 < 2 ^ 63 ->
  exists p', log_WriteMarker p marker now = Some (true, p')
    /\ part_fresh p' ws (ms ++ as_read (op_batch (PoMarker marker now)) (ws + zlen ms))
    /\ lversion (pt_log p') = lversion (pt_log p).
Proof.
  intros [F E] Hv (Hb & Hpid & Hep) Hmax. unfold log_WriteMarker.
  destruct (lfresh_append _ _ _ _ (op_batch (PoMarker marker now)) F Hb) as (l1 & Ha & F1 & Hl1);
    [done|done|]. cbn [op_batch] in Ha. rewrite Ha. cbn [mbind option_bind b_Messages length].
  destruct (lfresh_flush _ _ _ _ F1) as (l2 & -> & F2 & Hl2). cbn [mbind option_bind].
  set (ms' := ms ++ _) in *.
  assert (replay ms' = replayMarker (mkMessage (ws + zlen ms) [] []
      (msg_Headers (marker_record marker now)) (UnixNano (msg_Timestamp (marker_record marker now))) 0
      (mk_ProducerID marker) (mk_ProducerEpoch marker)) (pt_openTxns p, pt_abortedTxns p)) as Hr.
  { subst ms'. rewrite replay_app, <- E. cbn [as_read delivered fold_left op_batch b_Messages b_ProducerID
      b_ProducerEpoch marker_record msg_Headers msg_Key msg_Value msg_Timestamp].
    unfold replayRecord. cbn [msg_Headers]. by rewrite marker_headers_control. }
  unfold replayMarker in Hr. cbn [msg_Headers marker_record msg_Offset] in Hr.
  rewrite (marker_headers_roundtrip _ _ _ Hpid Hep) in Hr.
  destruct (mk_Commit marker); cbn [negb] in Hr.
  - eexists. split; [done|]. split; [|cbn; congruence]. split; [done|]. rewrite Hr.
    cbn. by destruct (pt_openTxns p !! _).
  - rewrite seqZ_cons by lia. cbn [head mbind option_bind]. unfold AbortTransaction.
    cbn [with_log pt_log pt_openTxns pt_abortedTxns].
    set (p' := mkPart l2 _ _).
    assert (part_fresh p' ws ms') as Hf by (split; [done|]; rewrite Hr; done).
    rewrite (prune_same _ _ _ (part_fresh_rep _ _ _ Hf)). exists p'.
    split; [done|]. split; [done|cbn; congruence].
Qed.

Lemma fetch_fresh p ws ms o mx iso :
  part_fresh p ws ms ->
  exists r p', fetch_on p o mx iso = Some (r, p') /\ part_fresh p' ws ms
    /\ lversion (pt_log p') = lversion (pt_log p).
Proof.
  intros [F E]. pose proof (lfresh_view _ _ _ _ F) as V. unfold fetch_on.
  assert (exists r l', lg_Read (pt_log p) o mx = Some (r, l')) as (r & l' & Er).
  { destruct (Z.le_gt_cases ws o) as [Ho|Ho].
    - destruct (lview_read _ _ _ _ o mx V Ho) as (l' & -> & _). eauto.
    - destruct (lview_read_below _ _ _ _ o mx V Ho) as (l' & -> & _). eauto. }
  destruct (lfresh_read _ _ _ _ _ _ _ _ F Er) as [F' Hv]. rewrite Er. cbn [mbind option_bind].
  assert (part_fresh (with_log p l') ws ms) as Hf by done.
  pose proof (prune_same _ _ _ (part_fresh_rep _ _ _ Hf)) as Hpr.
  destruct r as [msgs|e].
  - unfold LastStableOffset, abortedRanges. rewrite Hpr. destruct (iso =? _); cbv beta iota zeta.
    + rewrite Hpr. destruct (visibleMessages _ _ _ _). eauto.
    + destruct (visibleMessages _ _ _ _). eauto.
  - destruct e; eauto.
Qed.

(** The log after a request. *)
Definition log_after (ws : Z) (ms : list Message) (op : part_op) : list Message :=
  ms ++ as_read (op_batch op) (ws + zlen ms).

Definition part_ops_messages (ops : list part_op) : Z :=
  foldr (fun op n => zlen (b_Messages (op_batch op)) + n) 0 ops.

Lemma as_read_length batch o : length (as_read batch o) = length (b_Messages batch).
Proof. by rewrite as_read_stamped, length_map, stamp_all_length. Qed.

Lemma part_step_fresh p ws ms op :
  part_fresh p ws ms -> lversion (pt_log p) <> MessageFormatV2 ->
  part_op_ok (lversion (pt_log p)) op -> ws + zlen ms + zlen (b_Messages (op_batch op)) < 2 ^ 63 ->
  exists p', part_step p op = Some p' /\ part_fresh p' ws (log_after ws ms op)
    /\ lversion (pt_log p') = lversion (pt_log p).
Proof.
  intros F Hv Hok Hmax. unfold log_after. destruct op as [pid e msgs|marker now|o mx iso]; cbn [part_step].
  - destruct (produce_fresh p ws ms pid e msgs F Hv Hok) as (resp & p' & -> & _ & F' & Hv');
      [simpl in Hmax; by rewrite length_map in Hmax|]. eauto.
  - destruct (marker_fresh p ws ms marker now F Hv Hok Hmax) as (p' & -> & F' & Hv'). eauto.
  - destruct (fetch_fresh p ws ms o mx iso F) as (r & p' & -> & F' & Hv').
    cbn [op_batch as_read b_Messages delivered]. rewrite app_nil_r. eauto.
Qed.

Lemma part_run_fresh ws ops : forall p ms,
  part_fresh p ws ms -> lversion (pt_log p) <> MessageFormatV2 ->
  Forall (part_op_ok (lversion (pt_log p))) ops -> ws + zlen ms + part_ops_messages ops < 2 ^ 63 ->
  exists p', part_run p ops = Some p' /\ part_fresh p' ws (fold_left (log_after ws) ops ms).
Proof.
  induction ops as [|op ops IH]; intros p ms F Hv Hok Hmax; cbn [part_run fold_left]; [eauto|].
  apply Forall_cons in Hok as [Hop Hok]. cbn [part_ops_messages foldr] in Hmax.
  fold (part_ops_messages ops) in Hmax.
  assert (0 <= part_ops_messages ops) by (clear; induction ops; simpl; lia).
  destruct (part_step_fresh p ws ms op F Hv Hop ltac:(lia)) as (p1 & -> & F1 & Hv1). cbn [mbind option_bind].
  apply IH; [done|congruence|by rewrite Hv1|]. unfold log_after. rewrite length_app, as_read_length. lia.
Qed.

(** The answer to a fetch depends on the log alone. *)
Definition response (ws : Z) (ms : list Message) (o mx : Z) (iso : Z)
    : result Z fetched :=
  if o <? ws then Err Proto.ErrOffsetOutOfRange
  else
    let hwm := ws + zlen ms in
    let lso := foldr (fun first lso => if first <? lso then first else lso) hwm
                 (map_to_list (replay ms).1).*2 in
    let '(limit, aborted) :=
      if iso =? IsolationReadCommitted then (lso, (replay ms).2) else (hwm, []) in
    let '(msgs, next) := visibleMessages (take_bytes mx 0 (drop (Z.to_nat (o - ws)) ms)) o limit aborted in
    Ok (mkFetch hwm lso msgs next).

Lemma fetch_response p ws ms o mx iso :
  part_rep p ws ms -> exists p', fetch_on p o mx iso = Some (response ws ms o mx iso, p').
Proof.
  intros H. pose proof (proj1 H) as V. unfold fetch_on, response.
  destruct (Z.ltb_spec o ws) as [Ho|Ho].
  { destruct (lview_read_below _ _ _ _ o mx V Ho) as (l' & -> & _). cbn [mbind option_bind]. eauto. }
  destruct (lview_read _ _ _ _ o mx V Ho) as (l' & -> & V'). cbn [mbind option_bind].
  pose proof (part_rep_log _ _ _ _ H V') as H'. pose proof (prune_same _ _ _ H') as Hpr.
  unfold LastStableOffset, abortedRanges. rewrite Hpr. rewrite <- (proj2 H).
  cbn [with_log pt_log pt_openTxns pt_abortedTxns fst snd]. rewrite (lview_hwm _ _ _ _ V').
  destruct (iso =? _); cbv beta iota zeta.
  1: rewrite Hpr; cbn [with_log pt_abortedTxns].
  all: destruct (visibleMessages _ _ _ _); eauto.
Qed.
End live.

(** ** Restarts of the storage engine *)

Section restart.
Context (coin : nat -> bool).
#[local] Instance mt_ops : MemTableOps memTableImpl := skip_ops coin.
#[local] Instance mt_laws : MemTableLaws memTableImpl := skip_laws coin.

(** A log on an empty directory that syncs every append. *)
Lemma NewLog_fresh config :
  config_ok (cfg_WAL config) -> c_FsyncPolicy (cfg_WAL config) = FsyncAlways ->
  exists l : logImpl walImpl memTableImpl, NewLog empty_dir config = Some (Ok l) /\ lfresh l 0 0 []
    /\ lversion l = cfg_MessageFormatVersion config.
Proof.
  intros Hc Hp. destruct (NewWAL_empty (cfg_WAL config) Hc) as (w & E & Hw & Hcf).
  destruct (newLog_ok (WL := wal_laws) config w true 0 [] 0 Hw) as (l0 & E0 & L0 & Hs0 & Hc0 & Ha0).
  unfold NewLog, empty_dir. rewrite E. cbn [mbind option_bind]. rewrite E0. cbn [mbind option_bind].
  exists l0. split; [done|]. split; [|simpl; by rewrite Hc0].
  exists []. split; [done|]. split; [apply decoded_nil|]. split; [done|]. split; [lia|].
  rewrite Ha0. simpl. unfold always. rewrite Hcf. by rewrite bool_decide_true.
Qed.

(** The files of such a log, as they are at any time, hold all of it. *)
Lemma NewLog_crash (l : logImpl walImpl memTableImpl) ms config :
  lfresh l 0 0 ms -> config_ok (cfg_WAL config) ->
  exists l' : logImpl walImpl memTableImpl,
    NewLog (w_dir (l_wal l)) config = Some (Ok l') /\ lview l' 0 0 ms.
Proof.
  intros (rs & L & Hd & _ & _ & _) Hc.
  destruct (wal_holds_dir _ _ _ _ (lk_wal _ _ _ _ _ L)) as (pre & b & ds & D & Hrs).
  destruct (NewWAL_reopen _ _ _ _ _ _ D Hc) as (w & E & _ & Hw). rewrite Hrs in Hw.
  destruct (newLog_ok (WL := wal_laws) config w _ _ _ _ Hw) as (l' & E0 & L' & Hs & _).
  unfold NewLog. rewrite E. cbn [mbind option_bind]. rewrite E0. cbn [mbind option_bind].
  exists l'. split; [done|]. exists false, rs, (length rs). split; [done|].
  split; [apply covered_all|]. split; [done|]. split; [done|lia].
Qed.
End restart.

(** A run of requests on a new partition, and the files as they are then opened in a new process:
    the bookkeeping of both partitions is what the log says. *)
Lemma run_then_crash (coin : nat -> bool) (config config' : Config) (ops : list part_op) :
  config_ok (cfg_WAL config) -> c_FsyncPolicy (cfg_WAL config) = FsyncAlways ->
  config_ok (cfg_WAL config') -> cfg_MessageFormatVersion config <> MessageFormatV2 ->
  Forall (part_op_ok (cfg_MessageFormatVersion config)) ops -> part_ops_messages ops < 2 ^ 63 ->
  exists l0 p0 p l2 p2, NewLog (MT := skip_ops coin) empty_dir config = Some (Ok l0)
    /\ newRecoveredPartition (LO := log_ops (MT := skip_ops coin)) l0 = Some p0
    /\ part_run (LO := log_ops (MT := skip_ops coin)) p0 ops = Some p
    /\ NewLog (MT := skip_ops coin) (w_dir (l_wal (pt_log p))) config' = Some (Ok l2)
    /\ newRecoveredPartition (LO := log_ops (MT := skip_ops coin)) l2 = Some p2
    /\ part_rep (LL := log_laws (ML := skip_laws coin)) p 0 (fold_left (log_after 0) ops [])
    /\ part_rep (LL := log_laws (ML := skip_laws coin)) p2 0 (fold_left (log_after 0) ops []).
Proof.
  intros Hc Hp Hc' Hv Hok Hmax.
  destruct (NewLog_fresh coin config Hc Hp) as (l0 & E0 & F0 & Hv0).
  unfold mt_ops, mt_laws in *.
  assert (newRecoveredPartition (LO := log_ops (MT := skip_ops coin)) l0 = Some (mkPart l0 ∅ [])) as Er0.
  { unfold newRecoveredPartition, rebuildTransactionState. cbn [pt_log].
    pose proof (lfresh_view (LogLaws := log_laws (ML := skip_laws coin)) _ _ _ _ F0) as V.
    destruct (lview_offsets (LogLaws := log_laws (ML := skip_laws coin)) _ _ _ _ V) as (-> & _).
    by rewrite (lview_hwm (LogLaws := log_laws (ML := skip_laws coin)) _ _ _ _ V). }
  destruct (part_run_fresh (LL := log_laws (ML := skip_laws coin)) 0 ops (mkPart l0 ∅ []) [])
    as (p & Er & F); [by split|by cbn [pt_log]; rewrite Hv0|by cbn [pt_log]; rewrite Hv0|simpl; lia|].
  destruct (NewLog_crash coin (pt_log p) _ config' (proj1 F) Hc') as (l2 & E2 & V2).
  destruct (newRecoveredPartition_spec (LL := log_laws (ML := skip_laws coin)) l2 0 _ V2) as (p2 & Ep2 & R2).
  pose proof (part_fresh_rep (LL := log_laws (ML := skip_laws coin)) _ _ _ F) as R.
  exists l0, (mkPart l0 ∅ []), p, l2, p2. by do 5 (split; [done|]).
Qed.

(** C13: Read-committed isolation.  After any sequence of produce requests, markers
    and fetches, none of which overlap, on a new partition whose log syncs every
    append and writes format v3, and again after a crash and a restart, a fetch at
    the read-committed level returns, of the messages that a read of the log gives,
    exactly those before the last stable offset that are of no transaction or of one
    whose next marker in the log commits it: nothing undecided, nothing aborted, no
    control record, and nothing committed is held back.  The last stable offset it
    reports is the first record that no marker has decided, or the end of the log;
    the next offset moves past all that was decided, hidden or not.  (A fetch between
    the append and the bookkeeping of a produce request is not covered; no produce
    request is empty or carries the control header.) *)
Theorem read_committed_exact (coin : nat -> bool) (config config' : Config) (ops : list part_op) :
  config_ok (cfg_WAL config) -> c_FsyncPolicy (cfg_WAL config) = FsyncAlways ->
  config_ok (cfg_WAL config') -> cfg_MessageFormatVersion config <> MessageFormatV2 ->
  Forall (part_op_ok (cfg_MessageFormatVersion config)) ops -> part_ops_messages ops < 2 ^ 63 ->
  exists l0 p0 p l2 p2, NewLog (MT := skip_ops coin) empty_dir config = Some (Ok l0)
    /\ newRecoveredPartition (LO := log_ops (MT := skip_ops coin)) l0 = Some p0
    /\ part_run (LO := log_ops (MT := skip_ops coin)) p0 ops = Some p
    /\ NewLog (MT := skip_ops coin) (w_dir (l_wal (pt_log p))) config' = Some (Ok l2)
    /\ newRecoveredPartition (LO := log_ops (MT := skip_ops coin)) l2 = Some p2
    /\ forall o mx q, 0 <= o -> q = p \/ q = p2 ->
         exists resp q', fetch_on (LO := log_ops (MT := skip_ops coin)) q o mx IsolationReadCommitted = Some (Ok resp, q')
           /\ committed_answer 0 (fold_left (log_after 0) ops []) o mx resp.
Proof.
  intros Hc Hp Hc' Hv Hok Hmax.
  destruct (run_then_crash coin config config' ops Hc Hp Hc' Hv Hok Hmax) as (l0 & p0 & p & l2 & p2 & H1 & H2 & H3 & H4 & H5 & R & R2).
  exists l0, p0, p, l2, p2. do 5 (split; [done|]). intros o mx q Ho [-> | ->]; by apply (fetch_committed (LL := log_laws (ML := skip_laws coin))).
Qed.

(** C14: Isolation survives a crash.  After any produce requests, markers and
    fetches on a partition whose log syncs every append and writes format v3,
    opening the files as they are in a new process and replaying them gives a
    partition that answers every fetch, at either isolation level, exactly as the
    one that was running: no open transaction is forgotten and no aborted record
    becomes visible.  (No produce request carries the control header.) *)
Theorem isolation_survives_crash (coin : nat -> bool) (config config' : Config) (ops : list part_op) :
  config_ok (cfg_WAL config) -> c_FsyncPolicy (cfg_WAL config) = FsyncAlways ->
  config_ok (cfg_WAL config') -> cfg_MessageFormatVersion config <> MessageFormatV2 ->
  Forall (part_op_ok (cfg_MessageFormatVersion config)) ops -> part_ops_messages ops < 2 ^ 63 ->
  exists l0 p0 p l2 p2, NewLog (MT := skip_ops coin) empty_dir config = Some (Ok l0)
    /\ newRecoveredPartition (LO := log_ops (MT := skip_ops coin)) l0 = Some p0
    /\ part_run (LO := log_ops (MT := skip_ops coin)) p0 ops = Some p
    /\ NewLog (MT := skip_ops coin) (w_dir (l_wal (pt_log p))) config' = Some (Ok l2)
    /\ newRecoveredPartition (LO := log_ops (MT := skip_ops coin)) l2 = Some p2
    /\ pt_openTxns p2 = pt_openTxns p /\ pt_abortedTxns p2 = pt_abortedTxns p
    /\ forall o mx iso, exists r q q2,
         fetch_on (LO := log_ops (MT := skip_ops coin)) p o mx iso = Some (r, q)
         /\ fetch_on (LO := log_ops (MT := skip_ops coin)) p2 o mx iso = Some (r, q2).
Proof.
  intros Hc Hp Hc' Hv Hok Hmax.
  destruct (run_then_crash coin config config' ops Hc Hp Hc' Hv Hok Hmax) as (l0 & p0 & p & l2 & p2 & H1 & H2 & H3 & H4 & H5 & R & R2).
  exists l0, p0, p, l2, p2. do 5 (split; [done|]).
  pose proof (eq_trans (proj2 R2) (eq_sym (proj2 R))) as [= E1 E2]. split; [done|]. split; [done|].
  intros o mx iso.
  destruct (fetch_response (LL := log_laws (ML := skip_laws coin)) p 0 _ o mx iso R) as (q & Hq).
  destruct (fetch_response (LL := log_laws (ML := skip_laws coin)) p2 0 _ o mx iso R2) as (q2 & Hq2). eauto.
Qed.

(** ** Concrete runs *)

#[local] Instance plain_ops : MemTableOps memTableImpl := skip_ops no_coin.
#[local] Instance plain_laws : MemTableLaws memTableImpl := skip_laws no_coin.

Definition storage_log : Type := logImpl walImpl memTableImpl.

(** The partition on a log opened on these files. *)
Definition open_partition (d : walDir) : option (Partition storage_log) :=
  r ← NewLog d (tiny_config FsyncAlways);
  match r with
  | Ok l => newRecoveredPartition l
  | Err _ => None
  end.

Definition wire_msg (v : byte) : ProtoMessage := mkProto 0 [] [v] ∅ 5.
Definition forged_msg : ProtoMessage := mkProto 0 [] [x78] (TransactionMarkerHeaders 7 0 true) 5.

(** The values that a read-committed fetch from the start returns. *)
Definition committed_values (p : Partition storage_log) : option (list bytes) :=
  '(r, _) ← fetch_on p 0 1000 IsolationReadCommitted;
  match r with
  | Ok resp => Some (map pm_Value (fr_Messages resp))
  | Err _ => None
  end.

(** A transactional record is visible to a read-committed fetch between the
    append and the [BeginTransaction] of the request that writes it, because no lock
    is held across the two: here the fetch in between returns the record of a
    transaction that has not ended, the same fetch after the request does not. *)
Theorem produce_fetch_race :
  (p ← open_partition empty_dir;
   '(r, p) ← produce_append p 7 0 [wire_msg x61];
   between ← committed_values p;
   match r with
   | Ok offsets =>
       '(_, p) ← produce_begin p 7 0 1 offsets;
       after ← committed_values p;
       Some (between, after)
   | Err _ => None
   end) = Some ([[x61]], []).
Proof. vm_compute. reflexivity. Qed.

(** A produce request with no messages makes the handler index the empty list
    of offsets, a run-time panic. *)
Theorem produce_empty_panics :
  (p ← open_partition empty_dir; Some (bool_decide (is_Some (produce_on p 0 0 [])))) = Some false.
Proof. vm_compute. reflexivity. Qed.

(** The control headers of a produce request are not checked, and the replay
    after a restart takes such a record for a marker: here another client's plain
    request with the headers of a commit marker makes the record of an open
    transaction visible to read-committed fetches after the restart, and not
    before. *)
Theorem forged_marker_commits :
  (p ← open_partition empty_dir;
   '(_, p) ← produce_on p 7 0 [wire_msg x61];
   '(_, p) ← produce_on p 0 0 [forged_msg];
   before ← committed_values p;
   p2 ← open_partition (w_dir (l_wal (pt_log p)));
   after ← committed_values p2;
   Some (before, after)) = Some ([], [[x61]]).
Proof. vm_compute. reflexivity. Qed.

(** ** Witnesses *)

Definition sample_part_ops : list part_op :=
  [PoProduce 7 0 [wire_msg x61; wire_msg x62]; PoProduce 0 0 [wire_msg x63];
   PoMarker (mkMarker 7 0 false 9) 9; PoProduce 8 0 [wire_msg x64]; PoFetch 0 100 IsolationReadCommitted].

Lemma sample_part_ops_ok : Forall (part_op_ok MessageFormatUnset) sample_part_ops.
Proof.
  repeat apply Forall_cons_2; try apply Forall_nil_2; (split; [|try done]).
  all: try (apply Forall_cons_2 || apply Forall_nil_2).
  all: apply (bool_decide_unpack _); vm_compute; exact I.
Qed.

Lemma isolation_survives_crash_witness :
  exists l0 p0 p, NewLog empty_dir (tiny_config FsyncAlways) = Some (Ok l0)
    /\ newRecoveredPartition l0 = Some p0 /\ part_run p0 sample_part_ops = Some p
    /\ exists p2 : Partition storage_log, pt_abortedTxns p2 = pt_abortedTxns p.
Proof.
  destruct (isolation_survives_crash no_coin (tiny_config FsyncAlways) (tiny_config FsyncNever) sample_part_ops)
    as (l0 & p0 & p & l2 & p2 & H1 & H2 & H3 & _ & _ & _ & H4 & _).
  - unfold config_ok. simpl. lia.
  - reflexivity.
  - unfold config_ok. simpl. lia.
  - discriminate.
  - exact sample_part_ops_ok.
  - reflexivity.
  - exists l0, p0, p. split; [exact H1|]. split; [exact H2|]. split; [exact H3|]. by exists p2.
Defined.

(** The log has a record of an open transaction, one of an aborted one and a plain one. *)
Lemma read_committed_exact_witness :
  exists l0 p0 p resp p', NewLog empty_dir (tiny_config FsyncAlways) = Some (Ok l0)
    /\ newRecoveredPartition l0 = Some p0 /\ part_run p0 sample_part_ops = Some p
    /\ fetch_on (p : Partition storage_log) 0 1000 IsolationReadCommitted = Some (Ok resp, p')
    /\ fr_HighWaterMark resp = 5.
Proof.
  destruct (read_committed_exact no_coin (tiny_config FsyncAlways) (tiny_config FsyncNever) sample_part_ops)
    as (l0 & p0 & p & l2 & p2 & H1 & H2 & H3 & _ & _ & Hf).
  - unfold config_ok. simpl. lia.
  - reflexivity.
  - unfold config_ok. simpl. lia.
  - discriminate.
  - exact sample_part_ops_ok.
  - reflexivity.
  - destruct (Hf 0 1000 p) as (resp & p' & E & Hh & _); [lia|by left|].
    exists l0, p0, p, resp, p'. do 4 (split; [assumption|]). rewrite Hh. vm_compute. reflexivity.
Defined.
