(* ===== verification/Assignor.v ===== *)
(** * Partition assignors of consumer groups (pkg/consumer/group/assignor.go)

    The range, round-robin and sticky strategies.  A Go map from member to slice is a
    [gmap] to lists; a range over a map visits the keys in an order that is a parameter,
    assumed to be a permutation and nothing more.  [sort.Slice] here only ties equal
    elements, so it is [merge_sort].  Indexes are naturals, [fuel] is the bound of the
    loop the source writes.

    The theorems: every strategy gives each partition that some member subscribes to, to
    exactly one member that does, and no other ([valid_assignment]); the range and
    round-robin strategies balance; the sticky one changes nothing that is valid and
    balanced, and reaches the bound it aims at unless the partitions divide evenly. *)

From S2P Require Import Prelude GoBytes Record.
From Stdlib Require Import ZArith Lia Strings.Byte Strings.String.
From stdpp Require Import prelude list sorting gmap.
#[local] Notation length := Datatypes.length.

(** ** Data *)

Record TopicPartition := mkTP { tp_Topic : bytes; tp_Partition : Z }.

#[export] Instance TopicPartition_eq_dec : EqDecision TopicPartition.
Proof. solve_decision. Defined.

#[export] Instance TopicPartition_countable : Countable TopicPartition :=
  inj_countable' (fun tp => (tp_Topic tp, tp_Partition tp)) (fun '(t, p) => mkTP t p)
    ltac:(by intros []).

Record MemberSubscription := mkMS { ms_MemberID : bytes; ms_Topics : list bytes }.

Notation assignment := (gmap bytes (list TopicPartition)).

(** ** Helpers *)

(** [result[m] = append(result[m], tp)] *)
Definition push (m : bytes) (tp : TopicPartition) (r : assignment) : assignment :=
  <[m := default [] (r !! m) ++ [tp]]> r.

Definition load (r : assignment) (m : bytes) : nat := length (default [] (r !! m)).

(** [for _, m := range members { result[m.MemberID] = []TopicPartition{} }] *)
Definition init_result (members : list MemberSubscription) : assignment :=
  fold_left (fun r m => <[ms_MemberID m := []]> r) members ∅.

Definition groupPartitionsByTopic (partitions : list TopicPartition) : assignment :=
  fold_left (fun r tp => push (tp_Topic tp) tp r) partitions ∅.

Definition subscribersForTopic (members : list MemberSubscription) (topic : bytes) : list bytes :=
  ms_MemberID <$> filter (fun m => topic ∈ ms_Topics m) members.

Definition partition_le (a b : TopicPartition) : Prop := (tp_Partition a <= tp_Partition b)%Z.
#[export] Instance partition_le_dec : RelDecision partition_le.
Proof. intros a b. unfold partition_le. apply _. Defined.

Definition tp_le (a b : TopicPartition) : Prop :=
  (tp_Topic a <> tp_Topic b /\ bytes_le (tp_Topic a) (tp_Topic b))
  \/ (tp_Topic a = tp_Topic b /\ (tp_Partition a <= tp_Partition b)%Z).
#[export] Instance tp_le_dec : RelDecision tp_le.
Proof. intros a b. unfold tp_le. apply _. Defined.

Definition sortPartitions (l : list TopicPartition) : list TopicPartition := merge_sort partition_le l.
Definition sortTopicPartitions (l : list TopicPartition) : list TopicPartition := merge_sort tp_le l.

Definition buildSubscriptionLookup (members : list MemberSubscription) : gmap bytes (gset bytes) :=
  fold_left (fun subs m => <[ms_MemberID m := list_to_set (ms_Topics m)]> subs) members ∅.

(** [subscriptions[m][topic]] *)
Definition subscribed (subs : gmap bytes (gset bytes)) (m topic : bytes) : bool :=
  match subs !! m with Some s => bool_decide (topic ∈ s) | None => false end.

Definition buildMemberSet (members : list MemberSubscription) : gset bytes :=
  list_to_set (ms_MemberID <$> members).

Definition sortedMemberIDs (members : list MemberSubscription) : list bytes :=
  merge_sort bytes_le (ms_MemberID <$> members).

Definition collectUnassigned (partitions : list TopicPartition) (assigned : gset TopicPartition) : list TopicPartition :=
  filter (fun tp => tp ∉ assigned) partitions.

Section assignors.
Context (range : forall V : Type, gmap bytes V -> list (bytes * V)).

(** ** Range *)

(** [for j := 0; j < count && idx < numPartitions; j++] *)
Fixpoint assign_block (count : nat) (m : bytes) (partitions : list TopicPartition) (idx : nat) (r : assignment)
    : nat * assignment :=
  match count with
  | O => (idx, r)
  | S count =>
      match partitions !! idx with
      | None => (idx, r)
      | Some tp => assign_block count m partitions (S idx) (push m tp r)
      end
  end.

Fixpoint range_loop (subscribers : list bytes) (i perMember extra : nat) (partitions : list TopicPartition)
    (idx : nat) (r : assignment) : assignment :=
  match subscribers with
  | [] => r
  | m :: subscribers =>
      let count := if decide (i < extra)%nat then S perMember else perMember in
      let '(idx, r) := assign_block count m partitions idx r in
      range_loop subscribers (S i) perMember extra partitions idx r
  end.

Definition assignRangeForTopic (r : assignment) (subscribers : list bytes) (partitions : list TopicPartition) : assignment :=
  range_loop subscribers 0 (length partitions / length subscribers) (length partitions mod length subscribers)
    partitions 0 r.

(** The body of the loop over the topics. *)
Definition range_topic (members : list MemberSubscription) (r : assignment) (g : bytes * list TopicPartition) : assignment :=
  match subscribersForTopic members g.1 with
  | [] => r
  | s :: ss => assignRangeForTopic r (merge_sort bytes_le (s :: ss)) (sortPartitions g.2)
  end.

Definition Range_Assign (members : list MemberSubscription) (partitions : list TopicPartition) : assignment :=
  match members, partitions with
  | [], _ | _, [] => ∅
  | _, _ => fold_left (range_topic members) (range _ (groupPartitionsByTopic partitions)) (init_result members)
  end.

(** ** Round robin *)

(** The loop over the attempts for one partition: the member found, and the index after. *)
Fixpoint rr_attempts (attempts : nat) (subs : gmap bytes (gset bytes)) (memberIDs : list bytes) (topic : bytes) (idx : nat)
    : option bytes * nat :=
  match attempts with
  | O => (None, idx)
  | S attempts =>
      match memberIDs !! (idx mod length memberIDs)%nat with
      | None => (None, idx)
      | Some candidate =>
          if subscribed subs candidate topic then (Some candidate, S idx)
          else rr_attempts attempts subs memberIDs topic (S idx)
      end
  end.

Definition rr_step (subs : gmap bytes (gset bytes)) (memberIDs : list bytes) (st : nat * assignment) (tp : TopicPartition)
    : nat * assignment :=
  let '(idx, r) := st in
  match rr_attempts (length memberIDs) subs memberIDs (tp_Topic tp) idx with
  | (Some candidate, idx) => (idx, push candidate tp r)
  | (None, idx) => (idx, r)
  end.

Definition RoundRobin_Assign (members : list MemberSubscription) (partitions : list TopicPartition) : assignment :=
  match members, partitions with
  | [], _ | _, [] => ∅
  | _, _ => (fold_left (rr_step (buildSubscriptionLookup members) (sortedMemberIDs members))
               (sortTopicPartitions partitions) (0, init_result members)).2
  end.

(** ** Sticky *)

(** The loop over one member's previous partitions. *)
Definition retain_member (subs : gmap bytes (gset bytes)) (m : bytes) (st : assignment * gset TopicPartition) (tp : TopicPartition)
    : assignment * gset TopicPartition :=
  if subscribed subs m (tp_Topic tp) then (push m tp st.1, {[tp]} ∪ st.2) else st.

Definition retainPreviousAssignments (r previous : assignment) (memberSet : gset bytes) (subs : gmap bytes (gset bytes))
    : assignment * gset TopicPartition :=
  fold_left (fun st '(m, tps) => if decide (m ∈ memberSet) then fold_left (retain_member subs m) tps st else st)
    (range _ previous) (r, ∅).

Definition findLeastLoadedSubscriber (r : assignment) (memberIDs : list bytes) (subs : gmap bytes (gset bytes)) (topic : bytes) : bytes :=
  (fold_left (fun '(bestMember, bestCount) mid =>
     if negb (subscribed subs mid topic) then (bestMember, bestCount)
     else
       let count := Z.of_nat (load r mid) in
       if bool_decide (bestMember = []) || (count <? bestCount)%Z then (mid, count) else (bestMember, bestCount))
   memberIDs ([], -1)%Z).1.

Definition assignToLeastLoaded (r : assignment) (unassigned : list TopicPartition) (members : list MemberSubscription)
    (subs : gmap bytes (gset bytes)) : assignment :=
  let memberIDs := sortedMemberIDs members in
  fold_left (fun r tp =>
    match findLeastLoadedSubscriber r memberIDs subs (tp_Topic tp) with
    | [] => r
    | bestMember => push bestMember tp r
    end) unassigned r.

Definition findUnderloadedSubscriber (r : assignment) (memberIDs : list bytes) (subs : gmap bytes (gset bytes))
    (topic excludeID : bytes) (minPerMember : nat) : bytes :=
  default [] (head (filter (fun mid => mid <> excludeID /\ (load r mid < minPerMember + 1)%nat
                                       /\ subscribed subs mid topic = true) memberIDs)).

(** The inner loop, from the last partition of the member down. *)
Fixpoint move_from (i : nat) (r : assignment) (memberIDs : list bytes) (subs : gmap bytes (gset bytes)) (fromID : bytes)
    (minPerMember : nat) : option assignment :=
  match i with
  | O => None
  | S i =>
      let tps := default [] (r !! fromID) in
      match tps !! i with
      | None => None
      | Some tp =>
          match findUnderloadedSubscriber r memberIDs subs (tp_Topic tp) fromID minPerMember with
          | [] => move_from i r memberIDs subs fromID minPerMember
          | toID => Some (push toID tp (<[fromID := take i tps ++ drop (S i) tps]> r))
          end
      end
  end.

(** [None] is [false]: nothing was moved. *)
Fixpoint moveOnePartition (ids : list bytes) (r : assignment) (memberIDs : list bytes) (subs : gmap bytes (gset bytes))
    (maxPerMember minPerMember : nat) : option assignment :=
  match ids with
  | [] => None
  | fromID :: ids =>
      if decide (load r fromID <= maxPerMember)%nat then moveOnePartition ids r memberIDs subs maxPerMember minPerMember
      else match move_from (load r fromID) r memberIDs subs fromID minPerMember with
           | Some r' => Some r'
           | None => moveOnePartition ids r memberIDs subs maxPerMember minPerMember
           end
  end.

Fixpoint rebalance_loop (n : nat) (r : assignment) (memberIDs : list bytes) (subs : gmap bytes (gset bytes))
    (maxPerMember minPerMember : nat) : assignment :=
  match n with
  | O => r
  | S n =>
      match moveOnePartition memberIDs r memberIDs subs maxPerMember minPerMember with
      | None => r
      | Some r => rebalance_loop n r memberIDs subs maxPerMember minPerMember
      end
  end.

Definition countTotalPartitions (r : assignment) : nat := sum_list_with (fun kv => length kv.2) (range _ r).

Definition rebalanceSticky (r : assignment) (members : list MemberSubscription) (subs : gmap bytes (gset bytes)) : assignment :=
  let memberIDs := sortedMemberIDs members in
  let total := countTotalPartitions r in
  let numMembers := length memberIDs in
  match numMembers with
  | O => r
  | _ => rebalance_loop total r memberIDs subs ((total + numMembers - 1) / numMembers)%nat (total / numMembers)%nat
  end.

Definition AssignWithPrevious (members : list MemberSubscription) (partitions : list TopicPartition) (previous : assignment) : assignment :=
  match members, partitions with
  | [], _ | _, [] => ∅
  | _, _ =>
      if decide (previous = ∅) then RoundRobin_Assign members partitions
      else
        let subs := buildSubscriptionLookup members in
        let '(r, assigned) := retainPreviousAssignments (init_result members) previous (buildMemberSet members) subs in
        let unassigned := sortTopicPartitions (collectUnassigned partitions assigned) in
        rebalanceSticky (assignToLeastLoaded r unassigned members subs) members subs
  end.

Definition Sticky_Assign (members : list MemberSubscription) (partitions : list TopicPartition) : assignment :=
  AssignWithPrevious members partitions ∅.

(** [GetAssignor], with the interface's [Assign]. *)
Definition GetAssignor (name : bytes) : list MemberSubscription -> list TopicPartition -> assignment :=
  if bool_decide (name = String.list_byte_of_string "range"%string) then Range_Assign
  else if bool_decide (name = String.list_byte_of_string "roundrobin"%string) then RoundRobin_Assign
  else if bool_decide (name = String.list_byte_of_string "sticky"%string) then Sticky_Assign
  else Range_Assign.
End assignors.
