(* ===== verification/AssignorSpec.v ===== *)
(** * What the partition assignors guarantee *)

From S2P Require Import Prelude GoBytes Record Assignor.
From Stdlib Require Import ZArith Lia Strings.Byte.
From stdpp Require Import prelude list sorting gmap.

(** ** Assignments as collections of partitions *)

(** All partitions of an assignment, of all members. *)
Definition flat (r : assignment) : list TopicPartition := mjoin (map_to_list r).*2.

Lemma flat_lookup r m l : r !! m = Some l -> flat r ≡ₚ l ++ flat (delete m r).
Proof.
  intros Hm. unfold flat. rewrite <- (insert_delete_id r m l Hm) at 1.
  rewrite map_to_list_insert by apply lookup_delete_eq. done.
Qed.

Lemma flat_insert r m l : flat (<[m := l]> r) ≡ₚ l ++ flat (delete m r).
Proof.
  unfold flat. rewrite <- insert_delete_eq.
  rewrite map_to_list_insert by apply lookup_delete_eq. done.
Qed.

Lemma flat_push m tp r : flat (push m tp r) ≡ₚ tp :: flat r.
Proof.
  unfold push. rewrite flat_insert. destruct (r !! m) as [l|] eqn:E; simpl.
  - rewrite (flat_lookup r m l E). rewrite <- (assoc_L (++)). simpl. by rewrite <- Permutation_middle.
  - rewrite delete_id by done. done.
Qed.

Lemma flat_empty : flat ∅ = [].
Proof. done. Qed.

Lemma elem_of_flat r tp : tp ∈ flat r <-> exists m l, r !! m = Some l /\ tp ∈ l.
Proof.
  unfold flat. rewrite list_elem_of_join. split.
  - intros (l & Htp & Hl). apply list_elem_of_fmap in Hl as ([m l'] & -> & Hm).
    apply elem_of_map_to_list in Hm. eauto.
  - intros (m & l & Hm & Htp). exists l. split; [done|]. apply list_elem_of_fmap.
    exists (m, l). split; [done|]. by apply elem_of_map_to_list.
Qed.

(** ** Members and what they subscribe to *)

Notation ids members := (ms_MemberID <$> members).

Definition subscribes (members : list MemberSubscription) (m topic : bytes) : Prop :=
  exists s, s ∈ members /\ ms_MemberID s = m /\ topic ∈ ms_Topics s.

Definition has_subscriber (members : list MemberSubscription) (tp : TopicPartition) : Prop :=
  Exists (fun s => tp_Topic tp ∈ ms_Topics s) members.

#[export] Instance has_subscriber_dec members tp : Decision (has_subscriber members tp).
Proof. unfold has_subscriber. apply _. Defined.

Lemma has_subscriber_spec members tp :
  has_subscriber members tp <-> exists m, subscribes members m (tp_Topic tp).
Proof.
  unfold has_subscriber, subscribes. rewrite Exists_exists. split.
  - intros (s & Hs & Ht). by exists (ms_MemberID s), s.
  - intros (m & s & Hs & _ & Ht). by exists s.
Qed.

Lemma subscribes_member members m topic : subscribes members m topic -> m ∈ ids members.
Proof. intros (s & Hs & <- & _). apply list_elem_of_fmap. by exists s. Qed.

(** What an assignment must be: it names members only, gives a partition to members that
    subscribe to its topic only, and each partition that has a subscriber to exactly one
    of them, as often as it is listed. *)
Record valid_assignment (members : list MemberSubscription) (partitions : list TopicPartition) (r : assignment) : Prop := {
  va_members m : is_Some (r !! m) -> m ∈ ids members;
  va_subscribed m l tp : r !! m = Some l -> tp ∈ l -> subscribes members m (tp_Topic tp);
  va_complete : flat r ≡ₚ filter (has_subscriber members) partitions
}.

(** The assignors start with an empty list for each member and append to it; [done] is
    what has been assigned so far. *)
Record partial (members : list MemberSubscription) (r : assignment) (done : list TopicPartition) : Prop := {
  pa_members m : is_Some (r !! m) <-> m ∈ ids members;
  pa_subscribed m l tp : r !! m = Some l -> tp ∈ l -> subscribes members m (tp_Topic tp);
  pa_flat : flat r ≡ₚ done
}.

Section members.
Context (members : list MemberSubscription).

Lemma partial_perm r d d' : partial members r d -> d ≡ₚ d' -> partial members r d'.
Proof. intros [H1 H2 H3] Hd. split; [done..|]. by rewrite H3. Qed.

Lemma partial_append r d m block :
  partial members r d -> m ∈ ids members -> (forall tp, tp ∈ block -> subscribes members m (tp_Topic tp)) ->
  partial members (<[m := default [] (r !! m) ++ block]> r) (block ++ d).
Proof.
  intros [H1 H2 H3] Hm Hs. split.
  - intros m'. rewrite lookup_insert_is_Some', H1. split; [by intros [<-|H]|by right].
  - intros m' l tp'. destruct (decide (m' = m)) as [->|Hne].
    + rewrite lookup_insert_eq. intros [= <-]. rewrite elem_of_app. intros [Hin|Hin]; [|by apply Hs].
      destruct (r !! m) as [l|] eqn:E; [by apply (H2 m l)|by apply not_elem_of_nil in Hin].
    + rewrite lookup_insert_ne by done. apply H2.
  - rewrite flat_insert, <- H3. destruct (r !! m) as [l|] eqn:E; simpl.
    + rewrite (flat_lookup r m l E). rewrite !(assoc_L (++)). by rewrite (Permutation_app_comm l block).
    + by rewrite delete_id.
Qed.

Lemma partial_push r d m tp :
  partial members r d -> subscribes members m (tp_Topic tp) -> partial members (push m tp r) (tp :: d).
Proof.
  intros Hp Hs. apply (partial_append r d m [tp] Hp); [by eapply subscribes_member|].
  intros tp' ->%list_elem_of_singleton. done.
Qed.

Lemma init_result_lookup m : init_result members !! m = if decide (m ∈ ids members) then Some [] else None.
Proof.
  unfold init_result. induction members as [|s l IH] using rev_ind; [done|].
  rewrite fold_left_app. simpl. rewrite fmap_app. simpl.
  destruct (decide (m = ms_MemberID s)) as [->|Hne].
  - rewrite lookup_insert_eq. rewrite decide_True; [done|]. apply elem_of_app. right. by left.
  - rewrite lookup_insert_ne, IH by done. apply decide_ext. rewrite elem_of_app, list_elem_of_singleton. naive_solver.
Qed.

Lemma partial_init : partial members (init_result members) [].
Proof.
  split.
  - intros m. rewrite init_result_lookup. case_decide; [by split; [|eexists]|]. split; [by intros []|done].
  - intros m l tp. rewrite init_result_lookup. case_decide; intros [= <-] Hin. by apply not_elem_of_nil in Hin.
  - destruct (flat (init_result members)) as [|tp l] eqn:E; [done|].
    assert (tp ∈ flat (init_result members)) as Hin by (rewrite E; left).
    apply elem_of_flat in Hin as (m & l' & Hm & Hin). rewrite init_result_lookup in Hm. case_decide; simplify_eq.
    by apply not_elem_of_nil in Hin.
Qed.

(** The lookup table answers what the list of members says. *)
Lemma lookup_subscriptions m S :
  NoDup (ids members) ->
  buildSubscriptionLookup members !! m = Some S
  <-> exists s, s ∈ members /\ ms_MemberID s = m /\ S = list_to_set (ms_Topics s).
Proof.
  unfold buildSubscriptionLookup. induction members as [|s l IH] using rev_ind; intros Hnd.
  { simpl. rewrite lookup_empty. split; [done|]. intros (s & Hs & _). by apply not_elem_of_nil in Hs. }
  rewrite fmap_app in Hnd. apply NoDup_app in Hnd as (Hnd & Hdis & _). simpl in Hdis.
  rewrite fold_left_app. simpl. destruct (decide (m = ms_MemberID s)) as [->|Hne].
  - rewrite lookup_insert_eq. split.
    + intros [= <-]. exists s. split; [apply elem_of_app; right; by left|done].
    + intros (s' & Hs' & Hid & ->). apply elem_of_app in Hs' as [Hs'|Hs'].
      * exfalso. apply (Hdis (ms_MemberID s')); [apply list_elem_of_fmap; by exists s'|]. rewrite Hid. by left.
      * by apply list_elem_of_singleton in Hs' as ->.
  - rewrite lookup_insert_ne by done. rewrite IH by done. split.
    + intros (s' & Hs' & ?). exists s'. split; [apply elem_of_app; by left|done].
    + intros (s' & Hs' & Hid & ->). apply elem_of_app in Hs' as [Hs'|Hs']; [by exists s'|].
      apply list_elem_of_singleton in Hs' as ->. done.
Qed.

Lemma subscribed_spec m topic :
  NoDup (ids members) ->
  subscribed (buildSubscriptionLookup members) m topic = true <-> subscribes members m topic.
Proof.
  intros Hnd. unfold subscribed, subscribes.
  destruct (buildSubscriptionLookup members !! m) as [S|] eqn:E.
  - rewrite bool_decide_eq_true. apply (lookup_subscriptions m S Hnd) in E as (s & Hs & Hid & ->).
    rewrite elem_of_list_to_set. split; [intros Ht; by exists s|].
    intros (s' & Hs' & Hid' & Ht). enough (s' = s) by congruence.
    apply list_elem_of_lookup in Hs as [i Hi]. apply list_elem_of_lookup in Hs' as [j Hj].
    assert (i = j) as ->; [|congruence].
    eapply (NoDup_lookup (ids members) i j m Hnd); rewrite list_lookup_fmap; [rewrite Hi|rewrite Hj]; simpl; congruence.
  - split; [done|]. intros (s & Hs & Hid & Ht).
    assert (buildSubscriptionLookup members !! m = Some (list_to_set (ms_Topics s))); [|congruence].
    apply lookup_subscriptions; eauto.
Qed.

Lemma subscribers_spec m topic : m ∈ subscribersForTopic members topic <-> subscribes members m topic.
Proof.
  unfold subscribersForTopic, subscribes. rewrite list_elem_of_fmap. split.
  - intros (s & -> & [Ht Hs]%list_elem_of_filter). by exists s.
  - intros (s & Hs & <- & Ht). exists s. split; [done|]. by apply list_elem_of_filter.
Qed.

Lemma sortedMemberIDs_perm : sortedMemberIDs members ≡ₚ ids members.
Proof. apply merge_sort_Permutation. Qed.
End members.

(** ** Range *)

Lemma assign_block_spec count m parts idx r :
  is_Some (r !! m) -> (idx <= length parts)%nat ->
  assign_block count m parts idx r
  = (Nat.min (idx + count) (length parts), <[m := default [] (r !! m) ++ take count (drop idx parts)]> r).
Proof.
  revert idx r. induction count as [|count IH]; intros idx r [l Hl] Hidx; simpl.
  - rewrite Nat.add_0_r, Nat.min_l by done. rewrite Hl. simpl. by rewrite app_nil_r, insert_id.
  - destruct (parts !! idx) as [tp|] eqn:E.
    + assert (idx < length parts)%nat by (by apply lookup_lt_Some in E).
      rewrite IH; [|unfold push; rewrite lookup_insert_eq; by eexists|lia].
      rewrite (drop_S _ _ _ E). unfold push. rewrite lookup_insert_eq, insert_insert_eq.
      replace (S idx + count)%nat with (idx + S count)%nat by lia. simpl. by rewrite <- (assoc_L (++)).
    + apply lookup_ge_None in E. rewrite drop_ge, Nat.min_r by lia.
      rewrite Hl. simpl. rewrite app_nil_r, insert_id by done. f_equal. lia.
Qed.

(** How many partitions the members from the [i]-th on take. *)
Definition block_total (k i q e : nat) : nat := k * q + (Nat.min e (i + k) - Nat.min e i).

Section range_strategy.
Context (members : list MemberSubscription).

Lemma range_loop_spec subs i q e parts idx r d :
  NoDup subs -> (idx + block_total (length subs) i q e <= length parts)%nat ->
  (forall m, m ∈ subs -> m ∈ ids members /\ forall tp, tp ∈ parts -> subscribes members m (tp_Topic tp)) ->
  partial members r d ->
  let r' := range_loop subs i q e parts idx r in
  partial members r' (take (block_total (length subs) i q e) (drop idx parts) ++ d)
  /\ (forall m, m ∈ subs -> exists block, r' !! m = Some (default [] (r !! m) ++ block)
        /\ (q <= length block <= S q)%nat /\ block ⊆ parts)
  /\ (forall m, m ∉ subs -> r' !! m = r !! m).
Proof.
  revert i idx r d. induction subs as [|m subs IH]; intros i idx r d Hnd Hlen Hsub Hp r'.
  { split; [|split; [intros m Hm; by apply not_elem_of_nil in Hm|done]].
    unfold r', block_total. simpl. by rewrite Nat.add_0_r, Nat.sub_diag. }
  apply NoDup_cons in Hnd as [Hm Hnd]. unfold r'. cbn [range_loop].
  set (c := if decide (i < e)%nat then S q else q).
  assert (block_total (length (m :: subs)) i q e = (c + block_total (length subs) (S i) q e)%nat) as Et.
  { unfold block_total, c. cbn [length]. case_decide; lia. }
  destruct (Hsub m) as [Hmi Hms]; [left|].
  rewrite assign_block_spec; [|by apply (pa_members _ _ _ Hp)|lia].
  rewrite Nat.min_l by lia. set (blk := take c (drop idx parts)).
  assert (length blk = c) as Hc by (unfold blk; rewrite length_take, length_drop; lia).
  assert (blk ⊆ parts) as Hblk.
  { intros tp Htp. unfold blk in Htp. apply elem_of_take in Htp as (j & Hj & _).
    rewrite lookup_drop in Hj. by apply list_elem_of_lookup_2 in Hj. }
  destruct (IH (S i) (idx + c)%nat (<[m := default [] (r !! m) ++ blk]> r) (blk ++ d)) as (IH1 & IH2 & IH3);
    [done|lia|intros m' Hm'; apply Hsub; by right|by apply partial_append; auto|].
  split; [|split].
  - eapply partial_perm; [exact IH1|]. rewrite Et.
    rewrite <- take_take_drop, drop_drop. fold blk. rewrite !(assoc_L (++)).
    apply Permutation_app_tail. apply Permutation_app_comm.
  - intros m' Hm'. apply elem_of_cons in Hm' as [->|Hm'].
    + rewrite IH3, lookup_insert_eq by done. exists blk. split; [done|]. split; [|done].
      unfold c in Hc. case_decide; lia.
    + destruct (IH2 m' Hm') as (block & Hb & Hl). exists block. rewrite Hb.
      rewrite lookup_insert_ne by (intros ->; done). done.
  - intros m' Hm'. apply not_elem_of_cons in Hm' as [Hne Hm']. rewrite IH3 by done. by rewrite lookup_insert_ne.
Qed.

Lemma subscribers_nodup t : NoDup (ids members) -> NoDup (subscribersForTopic members t).
Proof.
  unfold subscribersForTopic. induction members as [|s l IH]; [done|]. rewrite fmap_cons, filter_cons.
  intros [Hs Hl]%NoDup_cons. case_decide; [|by apply IH]. rewrite fmap_cons. apply NoDup_cons.
  split; [|by apply IH]. intros (s' & Heq & Hin)%list_elem_of_fmap. apply Hs. rewrite Heq.
  apply list_elem_of_fmap. exists s'. split; [done|]. by apply list_elem_of_filter in Hin as [_ Hin].
Qed.

Lemma no_subscriber t : subscribersForTopic members t = [] <-> ~ exists m, subscribes members m t.
Proof.
  split.
  - intros Hn (m & Hm). apply subscribers_spec in Hm. rewrite Hn in Hm. by apply not_elem_of_nil in Hm.
  - intros Hn. destruct (subscribersForTopic members t) as [|m l] eqn:E; [done|].
    exfalso. apply Hn. exists m. apply subscribers_spec. rewrite E. left.
Qed.

(** The partitions of a group that are assigned. *)
Definition assignable (g : bytes * list TopicPartition) : list TopicPartition :=
  match subscribersForTopic members g.1 with [] => [] | _ => g.2 end.

Lemma range_topic_spec t g r d :
  NoDup (ids members) -> (forall tp, tp ∈ g -> tp_Topic tp = t) -> partial members r d ->
  let r' := range_topic members r (t, g) in
  let q := (length g / length (subscribersForTopic members t))%nat in
  partial members r' (assignable (t, g) ++ d)
  /\ (forall m, subscribes members m t -> exists block, r' !! m = Some (default [] (r !! m) ++ block)
        /\ (q <= length block <= S q)%nat /\ block ⊆ g)
  /\ (forall m, ~ subscribes members m t -> r' !! m = r !! m).
Proof.
  intros Hnd Hg Hp r' q. unfold r', range_topic, assignable. cbn [fst snd].
  destruct (subscribersForTopic members t) as [|s0 ss] eqn:E.
  { split; [done|]. split; [|done]. intros m Hm. apply subscribers_spec in Hm. rewrite E in Hm.
    by apply not_elem_of_nil in Hm. }
  set (subs := merge_sort bytes_le (s0 :: ss)).
  assert (subs ≡ₚ subscribersForTopic members t) as Hps by (rewrite E; apply merge_sort_Permutation).
  assert (sortPartitions g ≡ₚ g) as Hpg by apply merge_sort_Permutation.
  assert (length subs <> 0%nat) as Hk by (rewrite Hps, E; done).
  assert (block_total (length subs) 0 (length (sortPartitions g) / length subs)
            (length (sortPartitions g) mod length subs) = length (sortPartitions g)) as Et.
  { unfold block_total. pose proof (Nat.div_mod_eq (length (sortPartitions g)) (length subs)).
    pose proof (Nat.mod_upper_bound (length (sortPartitions g)) (length subs) Hk). simpl. lia. }
  destruct (range_loop_spec subs 0 (length (sortPartitions g) / length subs)
              (length (sortPartitions g) mod length subs) (sortPartitions g) 0 r d) as (H1 & H2 & H3).
  - rewrite Hps. by apply subscribers_nodup.
  - by rewrite Et.
  - intros m Hm. rewrite Hps, subscribers_spec in Hm. split; [by eapply subscribes_member|].
    intros tp Htp. rewrite Hpg in Htp. by rewrite (Hg tp Htp).
  - done.
  - rewrite Et, drop_0, take_ge in H1 by done. split; [|split].
    + eapply partial_perm; [exact H1|]. by rewrite Hpg.
    + intros m Hm. destruct (H2 m) as (b & Hb & Hl & Hs); [by rewrite Hps; apply subscribers_spec|].
      exists b. split; [exact Hb|]. split; [|intros tp Htp; rewrite <- Hpg; by apply Hs].
      unfold q. rewrite <- E. rewrite <- Hps, <- Hpg. exact Hl.
    + intros m Hm. apply H3. by rewrite Hps, subscribers_spec.
Qed.

(** The number of partitions of a topic that a member has. *)
Definition topic_count (t : bytes) (r : assignment) (m : bytes) : nat :=
  length (filter (fun tp => tp_Topic tp = t) (default [] (r !! m))).

Lemma filter_topic_other t t' (l : list TopicPartition) :
  (forall tp, tp ∈ l -> tp_Topic tp = t') -> t <> t' -> filter (fun tp => tp_Topic tp = t) l = [].
Proof. intros Hl Hne. apply filter_none. intros tp Htp. rewrite (Hl tp Htp). congruence. Qed.

Lemma range_fold_spec gs r d :
  NoDup (ids members) -> NoDup gs.*1 -> (forall t g tp, (t, g) ∈ gs -> tp ∈ g -> tp_Topic tp = t) ->
  partial members r d ->
  let r' := fold_left (range_topic members) gs r in
  partial members r' (mjoin (assignable <$> gs) ++ d)
  /\ (forall t g m, (t, g) ∈ gs -> subscribes members m t ->
        let q := (length g / length (subscribersForTopic members t))%nat in
        (topic_count t r m + q <= topic_count t r' m <= topic_count t r m + S q)%nat)
  /\ (forall t m, t ∉ gs.*1 -> topic_count t r' m = topic_count t r m).
Proof.
  intros Hnd. revert r d. induction gs as [|[t0 g0] gs IH]; intros r d Hnk Hg Hp r'.
  { split; [done|]. split; [intros t g m Hin; by apply not_elem_of_nil in Hin|done]. }
  apply NoDup_cons in Hnk as [Hnt Hnk]. cbn [fst] in Hnt.
  destruct (range_topic_spec t0 g0 r d Hnd) as (T1 & T2 & T3); [intros tp Htp; eapply Hg; [left|done]|done|].
  destruct (IH (range_topic members r (t0, g0)) (assignable (t0, g0) ++ d)) as (I1 & I2 & I3);
    [done|intros t g tp Hin; apply Hg; by right|done|].
  assert (forall t m, t <> t0 -> topic_count t (range_topic members r (t0, g0)) m = topic_count t r m) as Hother.
  { intros t m Hne. unfold topic_count. destruct (decide (m ∈ subscribersForTopic members t0)) as [Hm|Hm].
    - apply subscribers_spec in Hm. destruct (T2 m Hm) as (b & -> & _ & Hb). simpl.
      rewrite filter_app, (filter_topic_other t t0 b), app_nil_r; [done| |done].
      intros tp Htp. eapply Hg; [left|by apply Hb].
    - rewrite subscribers_spec in Hm. by rewrite (T3 m Hm). }
  unfold r'. cbn [fold_left]. split; [|split].
  - eapply partial_perm; [exact I1|]. cbn [fmap list_fmap mjoin list_join].
    rewrite !(assoc_L (++)). apply Permutation_app_tail, Permutation_app_comm.
  - intros t g m Hin Hm. apply elem_of_cons in Hin as [[= -> ->]|Hin].
    + cbn zeta. rewrite I3 by done. unfold topic_count at 2 3 4.
      destruct (T2 m Hm) as (b & -> & Hl & Hb). simpl. rewrite filter_app, length_app.
      rewrite (filter_all _ b); [unfold topic_count; lia|].
      intros tp Htp. eapply Hg; [left|by apply Hb].
    + assert (t <> t0) as Hne.
      { intros ->. apply Hnt. apply list_elem_of_fmap. by exists (t0, g). }
      rewrite <- (Hother t m Hne). by apply I2.
  - intros t m Hin. apply not_elem_of_cons in Hin as [Hne Hin]. rewrite I3 by done. by apply Hother.
Qed.
End range_strategy.

(** The groups of [groupPartitionsByTopic]. *)
Lemma group_snoc l tp : groupPartitionsByTopic (l ++ [tp]) = push (tp_Topic tp) tp (groupPartitionsByTopic l).
Proof. unfold groupPartitionsByTopic. by rewrite fold_left_app. Qed.

Lemma group_lookup l t :
  groupPartitionsByTopic l !! t
  = match filter (fun tp => tp_Topic tp = t) l with [] => None | g => Some g end.
Proof.
  induction l as [|tp l IH] using rev_ind; [done|]. rewrite group_snoc, filter_app. unfold push.
  destruct (decide (tp_Topic tp = t)) as [<-|Hne].
  - rewrite lookup_insert_eq, IH. rewrite filter_cons_True by done. simpl.
    by destruct (filter (fun tp' => tp_Topic tp' = tp_Topic tp) l).
  - rewrite lookup_insert_ne by done. rewrite filter_cons_False by done. simpl. by rewrite app_nil_r.
Qed.

Lemma group_flat l : flat (groupPartitionsByTopic l) ≡ₚ l.
Proof.
  induction l as [|tp l IH] using rev_ind; [done|]. rewrite group_snoc, flat_push, IH.
  by rewrite Permutation_app_comm.
Qed.

(** ** Round robin *)

Section attempts.
Context (subs : gmap bytes (gset bytes)) (l : list bytes) (t : bytes).

Lemma rr_attempts_some a idx c idx' :
  rr_attempts a subs l t idx = (Some c, idx') -> c ∈ l /\ subscribed subs c t = true.
Proof.
  revert idx. induction a as [|a IH]; intros idx; simpl; [done|].
  destruct (l !! (idx mod length l)%nat) as [c'|] eqn:E; [|done].
  destruct (subscribed subs c' t) eqn:Es; [|apply IH]. intros [= <- <-].
  split; [by eapply list_elem_of_lookup_2|done].
Qed.

Lemma rr_attempts_none a idx idx' j c :
  rr_attempts a subs l t idx = (None, idx') -> (j < a)%nat ->
  l !! ((idx + j) mod length l)%nat = Some c -> subscribed subs c t = false.
Proof.
  revert idx j. induction a as [|a IH]; intros idx j; simpl; [lia|].
  destruct (l !! (idx mod length l)%nat) as [c'|] eqn:E.
  - destruct (subscribed subs c' t) eqn:Es; [done|]. intros Hr Hj Hc. destruct j as [|j].
    + rewrite Nat.add_0_r in Hc. congruence.
    + apply (IH (S idx) j Hr); [lia|]. by rewrite <- Nat.add_succ_comm in Hc.
  - intros _ _ Hc. destruct (decide (length l = 0%nat)) as [Hl|Hl].
    + apply nil_length_inv in Hl. by rewrite Hl in Hc.
    + apply lookup_ge_None in E. pose proof (Nat.mod_upper_bound idx (length l) Hl). lia.
Qed.

(** A round of attempts visits every member. *)
Lemma rr_attempts_total idx idx' c :
  rr_attempts (length l) subs l t idx = (None, idx') -> c ∈ l -> subscribed subs c t = false.
Proof.
  intros Hr Hc. apply list_elem_of_lookup in Hc as [p Hp].
  pose proof (lookup_lt_Some _ _ _ Hp) as Hlt.
  pose proof (Nat.mod_upper_bound idx (length l) ltac:(lia)) as Hi.
  set (i := (idx mod length l)%nat) in *.
  apply (rr_attempts_none _ _ _ ((p + (length l - i)) mod length l)%nat c Hr).
  { apply Nat.mod_upper_bound. lia. }
  rewrite Nat.Div0.add_mod_idemp_r, <- Nat.Div0.add_mod_idemp_l. fold i.
  replace (i + (p + (length l - i)))%nat with (p + 1 * length l)%nat by lia.
  rewrite Nat.Div0.mod_add, Nat.mod_small by done. done.
Qed.
End attempts.

(** Nothing to assign, or nobody to assign it to. *)
Lemma empty_valid members partitions : members = [] \/ partitions = [] -> valid_assignment members partitions ∅.
Proof.
  intros H. split.
  - intros m [? Hm]. by rewrite lookup_empty in Hm.
  - intros m l tp Hm. by rewrite lookup_empty in Hm.
  - rewrite flat_empty. destruct H as [->| ->]; [|done]. rewrite filter_none; [done|].
    intros tp _ Hh. by apply Exists_nil in Hh.
Qed.

Lemma sortTopicPartitions_perm l : sortTopicPartitions l ≡ₚ l.
Proof. apply merge_sort_Permutation. Qed.

Section strategies.
Context (range : forall V : Type, gmap bytes V -> list (bytes * V)).
Context (range_perm : forall V (m : gmap bytes V), range V m ≡ₚ map_to_list m).
Context (members : list MemberSubscription) (members_nodup : NoDup (ids members)).

Lemma assignable_filter gs :
  (forall t g tp, (t, g) ∈ gs -> tp ∈ g -> tp_Topic tp = t) ->
  mjoin (assignable members <$> gs) = filter (has_subscriber members) (mjoin gs.*2).
Proof.
  induction gs as [|[t g] gs IH]; intros Hg; [done|].
  change (assignable members (t, g) ++ mjoin (assignable members <$> gs)
          = filter (has_subscriber members) (g ++ mjoin gs.*2)).
  rewrite filter_app, <- IH by (intros t' g' tp Hin; apply Hg; by right). f_equal.
  unfold assignable. cbn [fst snd]. destruct (subscribersForTopic members t) as [|m ss] eqn:E.
  - rewrite filter_none; [done|]. intros tp Htp Hh. apply has_subscriber_spec in Hh.
    rewrite (Hg t g tp) in Hh by (done || left). apply no_subscriber in E. done.
  - rewrite filter_all; [done|]. intros tp Htp. apply has_subscriber_spec. exists m.
    rewrite (Hg t g tp) by (done || left). apply subscribers_spec. rewrite E. left.
Qed.

Lemma partial_valid partitions r d :
  partial members r d -> d ≡ₚ filter (has_subscriber members) partitions -> valid_assignment members partitions r.
Proof. intros [H1 H2 H3] Hd. split; [intros m; by rewrite H1|done|]. by rewrite H3. Qed.

Lemma range_groups partitions :
  let gs := range _ (groupPartitionsByTopic partitions) in
  NoDup gs.*1 /\ (forall t g, (t, g) ∈ gs -> g = filter (fun tp => tp_Topic tp = t) partitions)
  /\ mjoin gs.*2 ≡ₚ partitions.
Proof using range_perm.
  intros gs. assert (gs ≡ₚ map_to_list (groupPartitionsByTopic partitions)) as Hgs by apply range_perm.
  split; [rewrite Hgs; apply NoDup_fst_map_to_list|]. split.
  - intros t g Hin. rewrite Hgs in Hin. apply elem_of_map_to_list in Hin. rewrite group_lookup in Hin.
    destruct (filter _ partitions) eqn:E; by simplify_eq.
  - rewrite Hgs. apply group_flat.
Qed.

Lemma Range_Assign_eq partitions :
  members <> [] -> partitions <> [] ->
  Range_Assign range members partitions
  = fold_left (range_topic members) (range _ (groupPartitionsByTopic partitions)) (init_result members).
Proof. intros Hm Hp. unfold Range_Assign. by destruct members, partitions. Qed.

Lemma Range_Assign_spec partitions :
  members <> [] -> partitions <> [] ->
  let r := Range_Assign range members partitions in
  partial members r (filter (has_subscriber members) partitions)
  /\ forall t m, subscribes members m t ->
       let n := length (filter (fun tp => tp_Topic tp = t) partitions) in
       let k := length (subscribersForTopic members t) in
       (n / k <= topic_count t r m <= S (n / k))%nat.
Proof using range_perm members_nodup.
  intros Hm Hp r. destruct (range_groups partitions) as (Hnk & Hg & Hflat).
  assert (forall t g tp, (t, g) ∈ range _ (groupPartitionsByTopic partitions) -> tp ∈ g -> tp_Topic tp = t) as Hgt.
  { intros t g tp Hin Htp. rewrite (Hg t g Hin) in Htp. by apply list_elem_of_filter in Htp as [? _]. }
  destruct (range_fold_spec members _ _ _ members_nodup Hnk Hgt (partial_init members)) as (F1 & F2 & F3).
  rewrite <- Range_Assign_eq in F1, F2, F3 by done. fold r in F1, F2, F3. split.
  - eapply partial_perm; [exact F1|]. rewrite app_nil_r, assignable_filter by done. by rewrite Hflat.
  - intros t m Hs n k.
    assert (topic_count t (init_result members) m = 0%nat) as H0.
    { unfold topic_count. rewrite init_result_lookup. by case_decide. }
    destruct (decide (t ∈ (range _ (groupPartitionsByTopic partitions)).*1)) as [Hin|Hin].
    + apply list_elem_of_fmap in Hin as ([t' g] & -> & Hin). cbn [fst] in *. specialize (F2 _ g m Hin Hs).
      rewrite H0, (Hg _ g Hin) in F2. exact F2.
    + rewrite F3, H0 by done. split; [|lia].
      assert (n = 0%nat) as ->; [|by destruct k].
      unfold n. rewrite filter_none; [done|]. intros tp Htp Ht. apply Hin.
      apply list_elem_of_fmap. exists (t, filter (fun tp => tp_Topic tp = t) partitions). split; [done|].
      rewrite range_perm. apply elem_of_map_to_list. rewrite group_lookup.
      destruct (filter _ partitions) as [|x l] eqn:E; [|done].
      assert (tp ∈ filter (fun tp => tp_Topic tp = t) partitions) as Hx by (by apply list_elem_of_filter).
      rewrite E in Hx. by apply not_elem_of_nil in Hx.
Qed.

Lemma Range_valid partitions : valid_assignment members partitions (Range_Assign range members partitions).
Proof using range_perm members_nodup.
  destruct (decide (members = [] \/ partitions = [])) as [H|H].
  - assert (Range_Assign range members partitions = ∅) as ->; [|by apply empty_valid].
    unfold Range_Assign. destruct H as [->| ->]; [done|by destruct members].
  - apply Decidable.not_or in H as [Hm Hp]. eapply partial_valid; [by apply Range_Assign_spec|done].
Qed.

(** *** Round robin *)

Notation subs := (buildSubscriptionLookup members).
Notation sorted := (sortedMemberIDs members).

Lemma elem_of_sorted m : m ∈ sorted <-> m ∈ ids members.
Proof. by rewrite (sortedMemberIDs_perm members). Qed.

Lemma rr_fold_spec tps idx r d :
  partial members r d ->
  partial members (fold_left (rr_step subs sorted) tps (idx, r)).2 (filter (has_subscriber members) tps ++ d).
Proof using members_nodup.
  revert idx r d. induction tps as [|tp tps IH]; intros idx r d Hp; [done|]. cbn [fold_left rr_step].
  destruct (rr_attempts _ subs sorted (tp_Topic tp) idx) as [[c|] idx'] eqn:E.
  - apply rr_attempts_some in E as [_ Hs]. apply subscribed_spec in Hs; [|done].
    rewrite filter_cons_True by (apply has_subscriber_spec; by exists c).
    eapply partial_perm; [apply IH, partial_push; eassumption|]. by rewrite <- Permutation_middle.
  - rewrite filter_cons_False; [by apply IH|]. intros (m & Hm)%has_subscriber_spec.
    pose proof (subscribes_member _ _ _ Hm) as Hin%elem_of_sorted.
    apply (rr_attempts_total subs sorted (tp_Topic tp) idx idx' m E) in Hin.
    apply subscribed_spec in Hm; [|done]. congruence.
Qed.

Lemma RoundRobin_eq partitions :
  members <> [] -> partitions <> [] ->
  RoundRobin_Assign members partitions
  = (fold_left (rr_step subs sorted) (sortTopicPartitions partitions) (0%nat, init_result members)).2.
Proof. intros Hm Hp. unfold RoundRobin_Assign. by destruct members, partitions. Qed.

Lemma RoundRobin_partial partitions :
  members <> [] -> partitions <> [] ->
  partial members (RoundRobin_Assign members partitions) (filter (has_subscriber members) partitions).
Proof using members_nodup.
  intros Hm Hp. rewrite RoundRobin_eq by done.
  eapply partial_perm; [apply rr_fold_spec, partial_init|]. rewrite app_nil_r.
  by rewrite (sortTopicPartitions_perm partitions).
Qed.

Lemma RoundRobin_valid partitions : valid_assignment members partitions (RoundRobin_Assign members partitions).
Proof using members_nodup.
  destruct (decide (members = [] \/ partitions = [])) as [H|H].
  - assert (RoundRobin_Assign members partitions = ∅) as ->; [|by apply empty_valid].
    unfold RoundRobin_Assign. destruct H as [->| ->]; [done|by destruct members].
  - apply Decidable.not_or in H as [Hm Hp]. eapply partial_valid; [by apply RoundRobin_partial|done].
Qed.

Lemma load_push m tp r m' : load (push m tp r) m' = (load r m' + if decide (m' = m) then 1 else 0)%nat.
Proof.
  unfold load, push. case_decide as H; [subst m'; rewrite lookup_insert_eq|rewrite lookup_insert_ne by done; lia].
  simpl. by rewrite length_app.
Qed.

Lemma sortedMemberIDs_nodup : NoDup sorted.
Proof using members_nodup. by rewrite sortedMemberIDs_perm. Qed.

(** When every member subscribes to every topic, the [i]-th member has, after [j]
    partitions, the [j / n] rounded up or down that the turn order gives. *)
Lemma rr_fold_load tps j r :
  (forall tp m, tp ∈ tps -> m ∈ sorted -> subscribes members m (tp_Topic tp)) -> sorted <> [] ->
  (forall i m, sorted !! i = Some m -> load r m = (j + (length sorted - 1 - i)) / length sorted)%nat ->
  forall i m, sorted !! i = Some m ->
    load (fold_left (rr_step subs sorted) tps (j, r)).2 m
    = ((j + length tps + (length sorted - 1 - i)) / length sorted)%nat.
Proof using members_nodup.
  intros Hfull Hne. revert j r. induction tps as [|tp tps IH]; intros j r Hr i m Hi.
  { simpl. by rewrite Nat.add_0_r, (Hr i m Hi). }
  assert (0 < length sorted)%nat as Hn by (destruct sorted; [done|simpl; lia]).
  cbn [fold_left rr_step].
  destruct (lookup_lt_is_Some_2 sorted (j mod length sorted)) as [c Hc]; [apply Nat.mod_upper_bound; lia|].
  assert (rr_attempts (length sorted) subs sorted (tp_Topic tp) j = (Some c, S j)) as ->.
  { destruct (length sorted) eqn:En; [lia|]. cbn [rr_attempts]. rewrite En, Hc.
    assert (subscribed subs c (tp_Topic tp) = true) as ->; [|done].
    apply subscribed_spec; [done|]. apply Hfull; [left|]. by eapply list_elem_of_lookup_2. }
  rewrite (IH ltac:(intros; apply Hfull; [by right|done]) (S j)) with (i := i); [f_equal; simpl; lia| |done].
  intros i' m' Hi'. rewrite load_push, (Hr i' m' Hi').
  pose proof (lookup_lt_Some _ _ _ Hi'). rewrite round_up_step by done. f_equal.
  apply decide_ext. split; [intros ->|intros ->; congruence].
  eapply (NoDup_lookup sorted); [apply sortedMemberIDs_nodup|done..].
Qed.

Lemma RoundRobin_load partitions m :
  partitions <> [] -> (forall tp m, tp ∈ partitions -> m ∈ ids members -> subscribes members m (tp_Topic tp)) ->
  m ∈ ids members ->
  let n := length members in
  (length partitions / n <= load (RoundRobin_Assign members partitions) m <= (length partitions + n - 1) / n)%nat.
Proof using members_nodup.
  intros Hp Hfull Hm n.
  assert (members <> []) as Hmm by (intros E; rewrite E in Hm; by apply not_elem_of_nil in Hm).
  assert (length sorted = n) as Hn by (rewrite sortedMemberIDs_perm; apply length_fmap).
  rewrite RoundRobin_eq by done. apply elem_of_sorted, list_elem_of_lookup in Hm as [i Hi].
  pose proof (lookup_lt_Some _ _ _ Hi) as Hlt.
  assert (length (sortTopicPartitions partitions) = length partitions) as Hl
    by (by rewrite (sortTopicPartitions_perm partitions)).
  rewrite rr_fold_load with (i := i); [| | | |done].
  - rewrite Hl, Hn. split; apply Nat.Div0.div_le_mono; lia.
  - intros tp m' Htp Hm'%elem_of_sorted. apply Hfull; [|done].
    by rewrite (sortTopicPartitions_perm partitions) in Htp.
  - intros E. rewrite E in Hlt. simpl in Hlt. lia.
  - intros i' m' Hi'. unfold load. rewrite init_result_lookup.
    rewrite decide_True by (apply elem_of_sorted; by eapply list_elem_of_lookup_2).
    pose proof (lookup_lt_Some _ _ _ Hi'). rewrite Nat.div_small by lia. done.
Qed.
End strategies.
