(* ===== verification/StickySpec.v ===== *)
(** * The sticky assignor, and the claims about all three strategies

    The sticky strategy in four stages, each with its lemma: what is retained, what is
    given to the least loaded member, one move of a partition, and the rebalancing loop
    with the measure that its moves decrease. *)

From S2P Require Import Prelude GoBytes Record Assignor AssignorSpec.
From Stdlib Require Import ZArith Lia Strings.Byte Strings.String.
From stdpp Require Import prelude list sorting gmap.
#[local] Notation length := Datatypes.length.

(** ** Loads *)

Lemma length_mjoin {A} (ls : list (list A)) : length (mjoin ls) = sum_list_with length ls.
Proof. induction ls as [|l ls IH]; [done|]. simpl. by rewrite length_app, <- IH. Qed.

Lemma sum_list_with_fmap {A B} (g : B -> nat) (f : A -> B) l : sum_list_with g (f <$> l) = sum_list_with (fun x => g (f x)) l.
Proof. induction l as [|x l IH]; [done|]. simpl. by rewrite <- IH. Qed.

#[export] Instance sum_list_with_perm {A} (f : A -> nat) : Proper ((≡ₚ) ==> eq) (sum_list_with f).
Proof. intros l l' H. induction H; simpl; lia. Qed.

Lemma sum_at_least {A} (f : A -> nat) l k : (forall x, x ∈ l -> (k <= f x)%nat) -> (length l * k <= sum_list_with f l)%nat.
Proof.
  induction l as [|x l IH]; intros H; [simpl; lia|]. simpl.
  pose proof (H x ltac:(left)). enough (length l * k <= sum_list_with f l)%nat by lia.
  apply IH. intros y Hy. apply H. by right.
Qed.

Lemma sum_above {A} (f : A -> nat) l k x :
  (forall x, x ∈ l -> (k <= f x)%nat) -> x ∈ l -> (k < f x)%nat -> (length l * k < sum_list_with f l)%nat.
Proof.
  intros H Hx Hk. apply list_elem_of_split in Hx as (l1 & l2 & ->).
  rewrite sum_list_with_app, length_app. simpl.
  pose proof (sum_at_least f l1 k ltac:(set_solver)). pose proof (sum_at_least f l2 k ltac:(set_solver)). lia.
Qed.

Section loads.
Context (members : list MemberSubscription) (members_nodup : NoDup (ids members)).

Lemma members_to_list r d :
  partial members r d -> map_to_list r ≡ₚ (fun m => (m, default [] (r !! m))) <$> ids members.
Proof using members_nodup.
  intros [H1 _ _]. apply NoDup_Permutation.
  - apply NoDup_map_to_list.
  - apply (NoDup_fmap_1 fst). rewrite <- list_fmap_compose. by rewrite list_fmap_id.
  - intros [m l]. rewrite elem_of_map_to_list, list_elem_of_fmap. split.
    + intros Hm. exists m. rewrite Hm. split; [done|]. apply H1. by exists l.
    + intros (m' & Heq & Hin). apply H1 in Hin as [l1 Hl]. rewrite Hl in Heq. simplify_eq/=. done.
Qed.

Lemma load_total r d : partial members r d -> sum_list_with (load r) (ids members) = length d.
Proof using members_nodup.
  intros Hp. rewrite <- (pa_flat _ _ _ Hp). unfold flat. rewrite length_mjoin.
  rewrite (members_to_list r d Hp), <- list_fmap_compose. by rewrite (sum_list_with_fmap length).
Qed.

(** ** Moving one partition *)

Lemma partial_remove r d m l i tp :
  partial members r d -> r !! m = Some l -> l !! i = Some tp ->
  exists d', d ≡ₚ tp :: d' /\ partial members (<[m := take i l ++ drop (S i) l]> r) d'.
Proof.
  intros [H1 H2 H3] Hm Hi. exists ((take i l ++ drop (S i) l) ++ flat (delete m r)). split; [|split].
  - rewrite <- H3, (flat_lookup r m l Hm). rewrite <- (take_drop_middle l i tp Hi) at 1.
    by rewrite <- !(assoc_L (++)), <- app_comm_cons, <- Permutation_middle.
  - intros m'. rewrite lookup_insert_is_Some', <- H1. split; [intros [<-|?]; [by eexists|done]|by right].
  - intros m' l' tp'. destruct (decide (m' = m)) as [->|Hne].
    + rewrite lookup_insert_eq. intros [= <-] Hin. apply (H2 m l tp' Hm).
      rewrite <- (take_drop_middle l i tp Hi). set_solver.
    + rewrite lookup_insert_ne by done. apply H2.
  - by rewrite flat_insert.
Qed.

Notation subs := (buildSubscriptionLookup members).
Notation sorted := (sortedMemberIDs members).

(** What a move does: it takes one partition of an overloaded member to another
    member that subscribes to it and has at most [minPerMember]. *)
Definition moved (r r' : assignment) (from to : bytes) (minPerMember : nat) (tp : TopicPartition) : Prop :=
  from <> to /\ (load r to <= minPerMember)%nat /\ to ∈ sorted
  /\ subscribed subs to (tp_Topic tp) = true
  /\ exists l i, r !! from = Some l /\ l !! i = Some tp
       /\ r' = push to tp (<[from := take i l ++ drop (S i) l]> r).

Lemma findUnderloaded_some r t ex mn m :
  findUnderloadedSubscriber r sorted subs t ex mn = m -> m <> [] ->
  m <> ex /\ (load r m <= mn)%nat /\ subscribed subs m t = true /\ m ∈ sorted.
Proof.
  unfold findUnderloadedSubscriber. destruct (filter _ sorted) as [|m' l] eqn:E; [by intros <-|].
  simpl. intros -> _. assert (m ∈ m :: l) as Hin by left. rewrite <- E in Hin.
  apply list_elem_of_filter in Hin as [(? & ? & ?) ?]. repeat split; [done|lia|done..].
Qed.

Lemma findUnderloaded_none r t ex mn m :
  [] ∉ ids members -> findUnderloadedSubscriber r sorted subs t ex mn = [] ->
  m ∈ sorted -> m <> ex -> subscribed subs m t = true -> (mn < load r m)%nat.
Proof.
  intros Hnil. unfold findUnderloadedSubscriber. intros E Hm Hne Hs.
  destruct (decide (load r m < mn + 1)%nat) as [Hl|]; [exfalso|lia].
  assert (m ∈ filter (fun mid => mid <> ex /\ (load r mid < mn + 1)%nat /\ subscribed subs mid t = true) sorted) as Hin
    by (by apply list_elem_of_filter).
  destruct (filter _ sorted) as [|m' l] eqn:Ef; [by apply not_elem_of_nil in Hin|]. simpl in E. subst m'.
  assert ([] ∈ [] :: l) as H0 by left. rewrite <- Ef in H0. apply list_elem_of_filter in H0 as [_ H0].
  apply Hnil. by apply elem_of_sorted.
Qed.

Lemma move_from_moved i r from mn r' :
  move_from i r sorted subs from mn = Some r' -> exists to tp, moved r r' from to mn tp.
Proof.
  induction i as [|i IH]; simpl; [done|].
  destruct (default [] (r !! from) !! i) as [tp|] eqn:Ei; [|done].
  destruct (findUnderloadedSubscriber r sorted subs (tp_Topic tp) from mn) as [|b bs] eqn:Ef; [done|].
  intros [= <-]. apply findUnderloaded_some in Ef as (Hne & Hl & Hs & Hin); [|done].
  exists (b :: bs), tp. destruct (r !! from) as [l|] eqn:E; [|done].
  repeat split; [done..|]. by exists l, i.
Qed.

Lemma moveOne_moved l r mx mn r' :
  moveOnePartition l r sorted subs mx mn = Some r' ->
  exists from to tp, from ∈ l /\ (mx < load r from)%nat /\ moved r r' from to mn tp.
Proof.
  induction l as [|from l IH]; simpl; [done|]. case_decide as Hd.
  - intros (f & t & tp & ? & ?)%IH. exists f, t, tp. split; [by right|done].
  - destruct (move_from _ r sorted subs from mn) as [r1|] eqn:E.
    + intros [= <-]. apply move_from_moved in E as (to & tp & Hm). exists from, to, tp.
      split; [left|]. split; [lia|done].
    + intros (f & t & tp & ? & ?)%IH. exists f, t, tp. split; [by right|done].
Qed.

(** Nothing is moved only when each overloaded member's last partition has no taker. *)
Lemma moveOne_none l r mx mn from :
  moveOnePartition l r sorted subs mx mn = None -> from ∈ l -> (mx < load r from)%nat ->
  exists tp, tp ∈ default [] (r !! from) /\ findUnderloadedSubscriber r sorted subs (tp_Topic tp) from mn = [].
Proof.
  induction l as [|f l IH]; simpl; intros Hn Hin Hl; [by apply not_elem_of_nil in Hin|].
  apply elem_of_cons in Hin as [->|Hin].
  - rewrite decide_False in Hn by lia.
    destruct (move_from (load r f) r sorted subs f mn) as [|] eqn:E; [done|].
    unfold load in E. destruct (length (default [] (r !! f))) as [|i] eqn:Ei; [unfold load in Hl; lia|].
    cbn [move_from] in E. destruct (lookup_lt_is_Some_2 (default [] (r !! f)) i) as [tp Htp]; [lia|].
    rewrite Htp in E. exists tp. split; [by eapply list_elem_of_lookup_2|].
    by destruct (findUnderloadedSubscriber r sorted subs (tp_Topic tp) f mn).
  - apply IH; [|done..]. case_decide; [done|]. by destruct (move_from (load r f) r sorted subs f mn).
Qed.

Lemma moved_partial r r' from to mn tp d :
  partial members r d -> moved r r' from to mn tp -> partial members r' d.
Proof using members_nodup.
  intros Hp (Hne & _ & Hto & Hs & l & i & Hl & Hi & ->).
  destruct (partial_remove r d from l i tp Hp Hl Hi) as (d' & Hd & Hp').
  eapply partial_perm; [|symmetry; exact Hd]. apply partial_push; [done|]. by apply subscribed_spec.
Qed.

Lemma moved_load r r' from to mn tp m :
  moved r r' from to mn tp ->
  (load r' m + (if decide (m = from) then 1 else 0) = load r m + if decide (m = to) then 1 else 0)%nat.
Proof.
  intros (Hne & _ & _ & _ & l & i & Hl & Hi & ->). rewrite load_push.
  pose proof (lookup_lt_Some _ _ _ Hi). unfold load. destruct (decide (m = from)) as [->|Hm].
  - rewrite lookup_insert_eq, Hl. cbn [default from_option id]. rewrite length_app, length_take, length_drop.
    rewrite decide_False by done. lia.
  - rewrite lookup_insert_ne by done. lia.
Qed.

Lemma rebalance_loop_partial n r mx mn d :
  partial members r d -> partial members (rebalance_loop n r sorted subs mx mn) d.
Proof using members_nodup.
  revert r. induction n as [|n IH]; intros r Hp; simpl; [done|].
  destruct (moveOnePartition sorted r sorted subs mx mn) as [r'|] eqn:E; [|done].
  apply moveOne_moved in E as (f & t & tp & _ & _ & Hm). apply IH. by eapply moved_partial.
Qed.

Lemma rebalance_loop_done n r mx mn :
  (forall m, m ∈ sorted -> (load r m <= mx)%nat) -> rebalance_loop n r sorted subs mx mn = r.
Proof.
  intros Hl. destruct n as [|n]; [done|]. simpl.
  destruct (moveOnePartition sorted r sorted subs mx mn) as [r'|] eqn:E; [|done].
  apply moveOne_moved in E as (f & t & tp & Hf & Hlt & _). specialize (Hl f Hf). lia.
Qed.

(** ** The loop reaches its bound

    The overload is what the members have above [mx]; each move takes one away as long as
    the receiver, who had at most [mn], does not become overloaded itself. *)

Definition overload (mx : nat) (r : assignment) (l : list bytes) : nat := sum_list_with (fun m => load r m - mx)%nat l.

Lemma overload_zero mx r l : overload mx r l = 0%nat -> forall m, m ∈ l -> (load r m <= mx)%nat.
Proof.
  intros H m Hm. unfold overload in H. induction l as [|x l IH]; [by apply not_elem_of_nil in Hm|].
  simpl in H. apply elem_of_cons in Hm as [->|Hm]; [lia|]. apply IH; [lia|done].
Qed.

Lemma overload_moved r r' from to mx mn tp l :
  moved r r' from to mn tp -> (mn < mx)%nat -> (mx < load r from)%nat -> NoDup l ->
  (overload mx r' l + (if decide (from ∈ l) then 1 else 0) = overload mx r l)%nat.
Proof.
  intros Hm Hmn Hlt. pose proof Hm as (Hne & Hle & _). unfold overload.
  induction l as [|x l IH]; intros Hnd; [by rewrite decide_False by apply not_elem_of_nil|].
  apply NoDup_cons in Hnd as [Hx Hnd]. specialize (IH Hnd). simpl.
  pose proof (moved_load r r' from to mn tp x Hm) as Hmx.
  destruct (decide (x = from)) as [->|Hxf].
  - rewrite decide_False in IH by done. rewrite (decide_True (P := from ∈ from :: l)) by left.
    rewrite decide_False in Hmx by done. lia.
  - rewrite (decide_ext (from ∈ x :: l) (from ∈ l)) by (rewrite elem_of_cons; naive_solver).
    destruct (decide (x = to)) as [->|Hxt]; lia.
Qed.

Lemma rebalance_loop_bound n r d mx mn :
  partial members r d -> [] ∉ ids members ->
  (forall tp m, tp ∈ d -> m ∈ ids members -> subscribes members m (tp_Topic tp)) ->
  mx = S mn -> (length d <= length members * mx)%nat -> (overload mx r sorted <= n)%nat ->
  forall m, m ∈ sorted -> (load (rebalance_loop n r sorted subs mx mn) m <= mx)%nat.
Proof using members_nodup.
  intros Hp Hnil Hfull Hmx Htot. assert (mn < mx)%nat as Hmn by lia. revert r Hp. induction n as [|n IH]; intros r Hp Hov m Hm; simpl.
  { apply (overload_zero mx r sorted); [lia|done]. }
  destruct (moveOnePartition sorted r sorted subs mx mn) as [r'|] eqn:E.
  - apply moveOne_moved in E as (f & t & tp & Hf & Hlt & Hmv). apply IH; [by eapply moved_partial| |done].
    pose proof (overload_moved r r' f t mx mn tp sorted Hmv Hmn Hlt (sortedMemberIDs_nodup members members_nodup)) as Ho.
    rewrite decide_True in Ho by done. lia.
  - destruct (decide (load r m <= mx)%nat) as [|Hgt]; [done|exfalso].
    destruct (moveOne_none sorted r mx mn m E Hm ltac:(lia)) as (tp & Htp & Hnone).
    assert (tp ∈ d) as Hd.
    { rewrite <- (pa_flat _ _ _ Hp). apply elem_of_flat. destruct (r !! m) as [l|] eqn:El; [by eauto|].
      by apply not_elem_of_nil in Htp. }
    assert (forall x, x ∈ ids members -> (mx <= load r x)%nat) as Hall.
    { intros x Hx. destruct (decide (x = m)) as [->|Hxm]; [lia|].
      enough (mn < load r x)%nat by lia.
      apply (findUnderloaded_none r (tp_Topic tp) m mn x Hnil Hnone); [by apply elem_of_sorted|done|].
      apply subscribed_spec; [done|]. by apply Hfull. }
    pose proof (sum_above (load r) (ids members) mx m Hall ltac:(by apply elem_of_sorted) ltac:(lia)) as Hs.
    rewrite (load_total r d Hp), length_fmap in Hs. lia.
Qed.
End loads.

(** ** The least loaded subscriber *)

Lemma elem_of_snoc {A} (l : list A) x y : y ∈ l ++ [x] <-> y ∈ l \/ y = x.
Proof. by rewrite elem_of_app, list_elem_of_singleton. Qed.

Section least_loaded.
Context (r : assignment) (subs : gmap bytes (gset bytes)) (t : bytes).

Definition least_loaded (l : list bytes) (b : bytes) : Prop :=
  b ∈ l /\ subscribed subs b t = true
  /\ forall m, m ∈ l -> subscribed subs m t = true -> (load r b <= load r m)%nat.

Lemma findLeastLoaded_spec l :
  [] ∉ l ->
  let b := findLeastLoadedSubscriber r l subs t in
  (b = [] /\ forall m, m ∈ l -> subscribed subs m t = false) \/ (b <> [] /\ least_loaded l b).
Proof.
  intros Hnil b. unfold b, findLeastLoadedSubscriber. clear b.
  match goal with |- context [fold_left ?f _ _] => set (step := f) end.
  set (st := fold_left step l ([], (-1)%Z)).
  enough ((st.1 = [] /\ forall m, m ∈ l -> subscribed subs m t = false)
          \/ (st.1 <> [] /\ st.2 = Z.of_nat (load r st.1) /\ least_loaded l st.1)) as [H|(H1 & _ & H2)];
    [by left|by right|].
  unfold st. clear st. induction l as [|x l IH] using rev_ind.
  { left. split; [done|]. intros m Hm. by apply not_elem_of_nil in Hm. }
  rewrite fold_left_app. cbn [fold_left]. set (st := fold_left step l _) in *.
  destruct st as [b c]. cbn [fst snd] in IH. unfold least_loaded.
  assert (x <> []) as Hx by (intros ->; apply Hnil; set_solver).
  specialize (IH ltac:(set_solver)). unfold step. destruct (subscribed subs x t) eqn:Ex; cbn [negb].
  - right. destruct IH as [[-> IH]|(Hb & -> & Hin & Hs & Hmin)].
    + rewrite bool_decide_eq_true_2 by done. cbn [orb fst snd]. split; [done|]. split; [done|]. split; [set_solver|].
      split; [done|]. intros m [Hm|Hm]%elem_of_snoc Hms; [|by subst m].
      rewrite IH in Hms by done. done.
    + rewrite bool_decide_eq_false_2 by done. cbn [orb]. destruct (Z.ltb_spec (Z.of_nat (load r x)) (Z.of_nat (load r b))).
      * cbn [fst snd]. split; [done|]. split; [done|]. split; [set_solver|]. split; [done|].
        intros m [Hm|Hm]%elem_of_snoc Hms; [|by subst m]. specialize (Hmin m Hm Hms). lia.
      * cbn [fst snd]. split; [done|]. split; [done|]. split; [set_solver|]. split; [done|].
        intros m [Hm|Hm]%elem_of_snoc Hms; [by apply Hmin|subst m; lia].
  - destruct IH as [[-> IH]|(Hb & -> & Hin & Hs & Hmin)]; cbn [fst snd].
    + left. split; [done|]. intros m [Hm|Hm]%elem_of_snoc; [by apply IH|by subst m].
    + right. split; [done|]. split; [done|]. split; [set_solver|]. split; [done|].
      intros m [Hm|Hm]%elem_of_snoc Hms; [by apply Hmin|congruence].
Qed.
End least_loaded.

(** ** What is retained *)

Section retain.
Context (members : list MemberSubscription) (members_nodup : NoDup (ids members)).
Notation subs := (buildSubscriptionLookup members).

Definition kept_of (m : bytes) (tps : list TopicPartition) : list TopicPartition :=
  filter (fun tp => subscribed subs m (tp_Topic tp) = true) tps.

Definition kept (gs : list (bytes * list TopicPartition)) : list TopicPartition :=
  mjoin ((fun g => if decide (g.1 ∈ ids members) then kept_of g.1 g.2 else []) <$> gs).

Lemma kept_sublist gs : kept gs `sublist_of` mjoin gs.*2.
Proof.
  induction gs as [|[m tps] gs IH]; [done|].
  change (kept ((m, tps) :: gs)) with ((if decide (m ∈ ids members) then kept_of m tps else []) ++ kept gs).
  apply (sublist_app (if decide (m ∈ ids members) then kept_of m tps else []) tps); [|exact IH].
  case_decide; [apply sublist_filter|apply sublist_nil_l].
Qed.

(** The state of the fold: what has been assigned, as a list and as the set. *)
Definition retained (st : assignment * gset TopicPartition) (d : list TopicPartition) : Prop :=
  partial members st.1 d /\ forall tp, tp ∈ st.2 <-> tp ∈ d.

Lemma retain_member_spec m tps st d :
  m ∈ ids members -> retained st d ->
  let st' := fold_left (retain_member subs m) tps st in
  retained st' (kept_of m tps ++ d)
  /\ st'.1 !! m = Some (default [] (st.1 !! m) ++ kept_of m tps)
  /\ forall m', m' <> m -> st'.1 !! m' = st.1 !! m'.
Proof using members_nodup.
  intros Hm. revert st d. induction tps as [|tp tps IH]; intros st d [Hp HA] st'.
  { split; [done|]. split; [|done]. unfold st'. simpl.
    destruct (proj2 (pa_members _ _ _ Hp m) Hm) as [l Hl]. rewrite Hl. simpl. by rewrite app_nil_r. }
  unfold st', kept_of. cbn [fold_left]. rewrite filter_cons. unfold retain_member at 2 4 6.
  destruct (subscribed subs m (tp_Topic tp)) eqn:Es; [rewrite decide_True by done|rewrite decide_False by done; by apply IH].
  destruct (IH (push m tp st.1, {[tp]} ∪ st.2) (tp :: d)) as ([I1 I2] & I3 & I4).
  { split; [apply partial_push; [done|]; by apply subscribed_spec|]. intros tp'. simpl.
    rewrite elem_of_cons, <- HA. set_solver. }
  split; [split|split].
  - eapply partial_perm; [exact I1|]. by rewrite <- Permutation_middle.
  - intros tp'. rewrite I2. set_solver.
  - rewrite I3. unfold push. cbn [fst]. rewrite lookup_insert_eq. simpl. by rewrite <- (assoc_L (++)).
  - intros m' Hne. rewrite I4 by done. unfold push. cbn [fst]. by rewrite lookup_insert_ne.
Qed.

Definition retain_all (gs : list (bytes * list TopicPartition)) (st : assignment * gset TopicPartition) :=
  fold_left (fun st '(m, tps) => if decide (m ∈ buildMemberSet members) then fold_left (retain_member subs m) tps st else st) gs st.

Lemma retain_all_spec gs st d :
  NoDup gs.*1 -> retained st d ->
  let st' := retain_all gs st in
  retained st' (kept gs ++ d)
  /\ (forall m tps, (m, tps) ∈ gs -> m ∈ ids members -> st'.1 !! m = Some (default [] (st.1 !! m) ++ kept_of m tps))
  /\ forall m, m ∉ gs.*1 -> st'.1 !! m = st.1 !! m.
Proof using members_nodup.
  revert st d. induction gs as [|[m tps] gs IH]; intros st d Hnd Hr st'.
  { split; [done|]. split; [intros m tps Hin; by apply not_elem_of_nil in Hin|done]. }
  apply NoDup_cons in Hnd as [Hm Hnd]. cbn [fst] in Hm. unfold st', retain_all. cbn [fold_left].
  rewrite (decide_ext (m ∈ buildMemberSet members) (m ∈ ids members)) by apply elem_of_list_to_set.
  change (kept ((m, tps) :: gs)) with ((if decide (m ∈ ids members) then kept_of m tps else []) ++ kept gs).
  destruct (decide (m ∈ ids members)) as [Hin|Hnin].
  - destruct (retain_member_spec m tps st d Hin Hr) as (M1 & M2 & M3).
    destruct (IH _ _ Hnd M1) as ([I1 I1'] & I2 & I3). split; [split|split].
    + eapply partial_perm; [exact I1|]. rewrite !(assoc_L (++)). by rewrite (Permutation_app_comm (kept gs)).
    + intros tp. unfold retain_all in I1'. rewrite I1'. set_solver.
    + intros m' tps' [[= -> ->]|Hin']%elem_of_cons Hm'; [unfold retain_all in I3; by rewrite I3, M2|].
      unfold retain_all in I2. rewrite (I2 m' tps' Hin' Hm'), M3; [done|].
      intros ->. apply Hm. apply list_elem_of_fmap. by exists (m, tps').
    + intros m' [Hne Hm']%not_elem_of_cons. unfold retain_all in I3. by rewrite I3, M3.
  - destruct (IH _ _ Hnd Hr) as (I1 & I2 & I3). split; [done|]. split.
    + intros m' tps' [[= -> ->]|Hin']%elem_of_cons Hm'; [done|]. by apply I2.
    + intros m' [Hne Hm']%not_elem_of_cons. by apply I3.
Qed.
End retain.

(** ** The strategy *)

Lemma AssignWithPrevious_eq range members partitions previous :
  members <> [] -> partitions <> [] -> previous <> ∅ ->
  AssignWithPrevious range members partitions previous
  = (let subs := buildSubscriptionLookup members in
     let '(r, assigned) := retainPreviousAssignments range (init_result members) previous (buildMemberSet members) subs in
     rebalanceSticky range (assignToLeastLoaded r (sortTopicPartitions (collectUnassigned partitions assigned)) members subs) members subs).
Proof. intros Hm Hp Hpr. unfold AssignWithPrevious. destruct members, partitions; [done..|]. by rewrite decide_False. Qed.

Section sticky.
Context (range : forall V : Type, gmap bytes V -> list (bytes * V)).
Context (range_perm : forall V (m : gmap bytes V), range V m ≡ₚ map_to_list m).
Context (members : list MemberSubscription) (members_nodup : NoDup (ids members)) (ids_nonempty : [] ∉ ids members).
Notation subs := (buildSubscriptionLookup members).
Notation sorted := (sortedMemberIDs members).

Lemma sorted_nonempty : [] ∉ sorted.
Proof using ids_nonempty. by rewrite elem_of_sorted. Qed.

Lemma assignToLeastLoaded_partial r d tps :
  partial members r d ->
  partial members (assignToLeastLoaded r tps members subs) (filter (has_subscriber members) tps ++ d).
Proof using members_nodup ids_nonempty.
  unfold assignToLeastLoaded. revert r d. induction tps as [|tp tps IH]; intros r d Hp; [done|]. cbn [fold_left].
  destruct (findLeastLoaded_spec r subs (tp_Topic tp) sorted sorted_nonempty) as [[-> Hn]|(Hb & Hin & Hs & _)].
  - rewrite filter_cons_False; [by apply IH|]. intros (m & Hm)%has_subscriber_spec.
    pose proof (subscribes_member _ _ _ Hm) as Hin%elem_of_sorted.
    apply subscribed_spec in Hm; [|done]. rewrite (Hn m Hin) in Hm. done.
  - destruct (findLeastLoadedSubscriber r sorted subs (tp_Topic tp)) as [|b bs] eqn:E; [done|].
    apply subscribed_spec in Hs; [|done].
    rewrite filter_cons_True by (apply has_subscriber_spec; by exists (b :: bs)).
    eapply partial_perm; [by apply IH, partial_push|]. by rewrite <- Permutation_middle.
Qed.

Lemma assignToLeastLoaded_nothing r tps :
  (forall tp, tp ∈ tps -> ~ has_subscriber members tp) -> assignToLeastLoaded r tps members subs = r.
Proof using members_nodup ids_nonempty.
  unfold assignToLeastLoaded. induction tps as [|tp tps IH]; intros H; [done|]. cbn [fold_left].
  destruct (findLeastLoaded_spec r subs (tp_Topic tp) sorted sorted_nonempty) as [[-> Hn]|(Hb & Hin & Hs & _)].
  - apply IH. intros tp' Htp'. apply H. by right.
  - exfalso. apply (H tp); [left|]. apply has_subscriber_spec. eexists. by apply subscribed_spec.
Qed.

Lemma range_flat (r : assignment) : mjoin (range _ r).*2 ≡ₚ flat r.
Proof using range_perm. unfold flat. by rewrite range_perm. Qed.

Lemma countTotal r d : partial members r d -> countTotalPartitions range r = length d.
Proof using range_perm.
  intros Hp. unfold countTotalPartitions. rewrite <- (pa_flat _ _ _ Hp), <- (range_flat r).
  by rewrite length_mjoin, sum_list_with_fmap.
Qed.

Lemma retain_spec previous :
  let st := retainPreviousAssignments range (init_result members) previous (buildMemberSet members) subs in
  retained members st (kept members (range _ previous))
  /\ (forall m tps, previous !! m = Some tps -> m ∈ ids members -> st.1 !! m = Some (kept_of members m tps))
  /\ forall m, previous !! m = None -> st.1 !! m = init_result members !! m.
Proof using range_perm members_nodup.
  intros st. destruct (retain_all_spec members members_nodup (range _ previous) (init_result members, ∅) [])
    as (H1 & H2 & H3).
  - rewrite range_perm. apply NoDup_fst_map_to_list.
  - split; [apply partial_init|]. intros tp. cbn [snd].
    split; [intros H; by apply elem_of_empty in H|intros H; by apply not_elem_of_nil in H].
  - rewrite app_nil_r in H1. split; [exact H1|]. split.
    + intros m tps Hp Hm. etransitivity; [apply (H2 m tps); [by rewrite range_perm; apply elem_of_map_to_list|done]|].
      cbn [fst]. rewrite init_result_lookup, decide_True by done. done.
    + intros m Hp. apply H3. rewrite range_perm. intros ([m' l] & -> & Hin)%list_elem_of_fmap.
      apply elem_of_map_to_list in Hin. cbn [fst] in Hp. congruence.
Qed.

Lemma kept_subscribed previous tp : tp ∈ kept members (range _ previous) -> has_subscriber members tp.
Proof using range_perm members_nodup.
  intros Htp. destruct (retain_spec previous) as ([Hp _] & _ & _). rewrite <- (pa_flat _ _ _ Hp) in Htp.
  apply elem_of_flat in Htp as (m & l & Hm & Hl). apply has_subscriber_spec. exists m.
  by eapply (pa_subscribed _ _ _ Hp).
Qed.

(** What a sound previous assignment is: no partition twice, none that is gone. *)
Definition sound_previous (partitions : list TopicPartition) (previous : assignment) : Prop :=
  NoDup (flat previous) /\ flat previous ⊆ partitions.

Lemma retained_and_rest partitions previous A :
  NoDup partitions -> sound_previous partitions previous ->
  (forall tp, tp ∈ A <-> tp ∈ kept members (range _ previous)) ->
  filter (has_subscriber members) (sortTopicPartitions (collectUnassigned partitions A)) ++ kept members (range _ previous)
  ≡ₚ filter (has_subscriber members) partitions.
Proof using range_perm members_nodup.
  intros Hnd [Hfn Hfs] HA.
  assert (kept members (range _ previous) ⊆ partitions) as Hk.
  { intros tp Htp. apply Hfs. rewrite <- (range_flat previous).
    by eapply sublist_subseteq; [apply kept_sublist|]. }
  rewrite sortTopicPartitions_perm. unfold collectUnassigned. apply NoDup_Permutation.
  - apply NoDup_app. split; [by apply NoDup_filter, NoDup_filter|]. split.
    + intros tp [_ Hn]%list_elem_of_filter Hin. apply list_elem_of_filter in Hn as [Hn _]. by apply Hn, HA.
    + eapply sublist_NoDup; [|apply kept_sublist]. by rewrite range_flat.
  - by apply NoDup_filter.
  - intros tp. rewrite elem_of_app, !list_elem_of_filter, HA. split.
    + intros [(Hs & _ & Hin)|Hin]; [done|]. split; [by eapply kept_subscribed|by apply Hk].
    + intros [Hs Hin]. destruct (decide (tp ∈ kept members (range _ previous))); [by right|by left].
Qed.

Lemma rebalanceSticky_partial r d : partial members r d -> partial members (rebalanceSticky range r members subs) d.
Proof using members_nodup.
  intros Hp. unfold rebalanceSticky. destruct (length sorted); [done|]. by apply rebalance_loop_partial.
Qed.

(** The assignment before the rebalancing. *)
Lemma sticky_stages partitions previous :
  members <> [] -> partitions <> [] -> previous <> ∅ ->
  NoDup partitions -> sound_previous partitions previous ->
  exists r, AssignWithPrevious range members partitions previous = rebalanceSticky range r members subs
    /\ partial members r (filter (has_subscriber members) partitions).
Proof using range_perm members_nodup ids_nonempty.
  intros Hm Hp Hpr Hnd Hsound. rewrite AssignWithPrevious_eq by done. cbn zeta.
  destruct (retain_spec previous) as ([R1 R2] & _ & _).
  destruct (retainPreviousAssignments range (init_result members) previous (buildMemberSet members) subs) as [r A].
  cbn [fst snd] in R1, R2.
  exists (assignToLeastLoaded r (sortTopicPartitions (collectUnassigned partitions A)) members subs). split; [done|].
  eapply partial_perm; [by apply assignToLeastLoaded_partial|]. by apply retained_and_rest.
Qed.
Lemma sticky_partial partitions previous :
  members <> [] -> partitions <> [] -> NoDup partitions -> sound_previous partitions previous ->
  partial members (AssignWithPrevious range members partitions previous) (filter (has_subscriber members) partitions).
Proof using range_perm members_nodup ids_nonempty.
  intros Hm Hp Hnd Hs. destruct (decide (previous = ∅)) as [->|Hpr].
  - assert (AssignWithPrevious range members partitions ∅ = RoundRobin_Assign members partitions) as ->
      by (unfold AssignWithPrevious; destruct members, partitions; done).
    by apply RoundRobin_partial.
  - destruct (sticky_stages partitions previous) as (r & -> & Hr); [done..|]. by apply rebalanceSticky_partial.
Qed.

Lemma rebalanceSticky_done r d :
  partial members r d ->
  (forall m, m ∈ ids members -> (load r m <= (length d + length members - 1) / length members)%nat) ->
  rebalanceSticky range r members subs = r.
Proof using range_perm.
  intros Hp Hl. unfold rebalanceSticky. rewrite (countTotal r d Hp).
  assert (length sorted = length members) as Hn by (rewrite sortedMemberIDs_perm; apply length_fmap).
  destruct (length sorted) as [|n]; [done|]. apply rebalance_loop_done.
  intros m Hm%elem_of_sorted. rewrite Hn. by apply Hl.
Qed.

Lemma retain_everything previous d :
  partial members previous d ->
  (retainPreviousAssignments range (init_result members) previous (buildMemberSet members) subs).1 = previous
  /\ kept members (range _ previous) ≡ₚ d.
Proof using range_perm members_nodup.
  intros Hp. destruct (retain_spec previous) as ([R1 _] & R3 & R4).
  set (st := retainPreviousAssignments _ _ _ _ _) in *.
  assert (st.1 = previous) as E; [|split; [done|]; rewrite <- (pa_flat _ _ _ R1), E; apply Hp].
  apply map_eq. intros m. destruct (previous !! m) as [tps|] eqn:Em.
  - rewrite (R3 m tps Em); [|apply (pa_members _ _ _ Hp); by eexists]. f_equal. apply filter_all.
    intros tp Htp. apply subscribed_spec; [done|]. by eapply (pa_subscribed _ _ _ Hp).
  - rewrite (R4 m Em), init_result_lookup. rewrite decide_False; [done|].
    intros H%(pa_members _ _ _ Hp). rewrite Em in H. by destruct H.
Qed.

Lemma overload_le mx r l : (overload mx r l <= sum_list_with (load r) l)%nat.
Proof. unfold overload. clear. induction l; simpl; lia. Qed.

Lemma round_up_not_divisible a n : (a mod n <> 0 -> n <> 0 -> (a + n - 1) / n = S (a / n))%nat.
Proof.
  clear. intros Ha Hn. pose proof (Nat.div_mod_eq a n). pose proof (Nat.mod_upper_bound a n Hn).
  symmetry. apply (Nat.div_unique _ _ _ (a mod n - 1)%nat); lia.
Qed.

Lemma rebalanceSticky_bound r d m :
  partial members r d -> (forall tp m, tp ∈ d -> m ∈ ids members -> subscribes members m (tp_Topic tp)) ->
  (length d mod length members <> 0)%nat -> m ∈ ids members ->
  (load (rebalanceSticky range r members subs) m <= (length d + length members - 1) / length members)%nat.
Proof using range_perm members_nodup ids_nonempty.
  intros Hp Hfull Hmod Hm. unfold rebalanceSticky. rewrite (countTotal r d Hp).
  assert (length sorted = length members) as Hn by (rewrite sortedMemberIDs_perm; apply length_fmap).
  assert (length members <> 0%nat) as H0.
  { intros H0. apply nil_length_inv in H0. rewrite H0 in Hm. by apply not_elem_of_nil in Hm. }
  rewrite Hn. destruct (length members) as [|k] eqn:Ek; [done|]. rewrite <- Ek in *. clear k Ek.
  apply (rebalance_loop_bound members members_nodup _ _ d); [done..| | | |by apply elem_of_sorted].
  - by apply round_up_not_divisible.
  - rewrite round_up_not_divisible by done. pose proof (Nat.div_mod_eq (length d) (length members)).
    pose proof (Nat.mod_upper_bound (length d) (length members) H0). lia.
  - rewrite overload_le. rewrite sortedMemberIDs_perm. by rewrite (load_total members members_nodup r d Hp).
Qed.
End sticky.

(** ** Claims *)

(** Every strategy assigns correctly, whatever order the map iteration takes. *)
Lemma GetAssignor_valid (range : forall V : Type, gmap bytes V -> list (bytes * V)) name members partitions :
  (forall V (m : gmap bytes V), range V m ≡ₚ map_to_list m) -> NoDup (ids members) ->
  valid_assignment members partitions (GetAssignor range name members partitions).
Proof.
  intros Hr Hnd. unfold GetAssignor. repeat case_bool_decide; try by apply Range_valid.
  - by apply RoundRobin_valid.
  - unfold Sticky_Assign, AssignWithPrevious.
    destruct members as [|s ms]; [apply empty_valid; by left|].
    destruct partitions as [|tp tps]; [apply empty_valid; by right|]. by apply RoundRobin_valid.
Qed.

(** The range strategy balances each topic: of the [n] partitions of a topic with [k]
    subscribers, each subscriber has [n / k] or one more. *)
Theorem range_balanced (range : forall V : Type, gmap bytes V -> list (bytes * V)) members partitions t m :
  (forall V (m : gmap bytes V), range V m ≡ₚ map_to_list m) -> NoDup (ids members) ->
  partitions <> [] -> subscribes members m t ->
  let n := length (filter (fun tp => tp_Topic tp = t) partitions) in
  let k := length (subscribersForTopic members t) in
  (n / k <= topic_count t (Range_Assign range members partitions) m <= S (n / k))%nat.
Proof.
  intros Hr Hnd Hp Hs. apply Range_Assign_spec; [done..| |done|done].
  intros ->. destruct Hs as (s & Hs & _). by apply not_elem_of_nil in Hs.
Qed.

(** When every member subscribes to every topic, round robin gives each member the
    number of partitions divided by the number of members, rounded up or down. *)
Theorem roundrobin_balanced members partitions m :
  NoDup (ids members) -> partitions <> [] ->
  (forall tp m, tp ∈ partitions -> m ∈ ids members -> subscribes members m (tp_Topic tp)) -> m ∈ ids members ->
  let n := length members in
  (length partitions / n <= load (RoundRobin_Assign members partitions) m <= (length partitions + n - 1) / n)%nat.
Proof. intros. by apply RoundRobin_load. Qed.

(** The sticky strategy assigns correctly from any previous assignment that has no
    partition twice and none that is gone; members that left, came or changed their
    subscription are allowed. *)
Theorem sticky_valid (range : forall V : Type, gmap bytes V -> list (bytes * V)) members partitions previous :
  (forall V (m : gmap bytes V), range V m ≡ₚ map_to_list m) -> NoDup (ids members) -> [] ∉ ids members ->
  NoDup partitions -> sound_previous partitions previous ->
  valid_assignment members partitions (AssignWithPrevious range members partitions previous).
Proof.
  intros Hr Hnd Hnil Hp Hs. destruct members as [|s ms]; [apply empty_valid; by left|].
  destruct partitions as [|tp tps]; [apply empty_valid; by right|].
  eapply partial_valid; [by apply sticky_partial|done].
Qed.

(** Stickiness: a previous assignment that is still correct for the members and
    partitions and gives no member more than its share is returned unchanged. *)
Theorem sticky_stable (range : forall V : Type, gmap bytes V -> list (bytes * V)) members partitions previous :
  (forall V (m : gmap bytes V), range V m ≡ₚ map_to_list m) -> NoDup (ids members) -> [] ∉ ids members ->
  members <> [] -> partitions <> [] -> valid_assignment members partitions previous ->
  (forall m, m ∈ ids members -> is_Some (previous !! m)) ->
  (forall m, m ∈ ids members ->
     load previous m <= (length (flat previous) + length members - 1) / length members)%nat ->
  AssignWithPrevious range members partitions previous = previous.
Proof.
  intros Hr Hnd Hnil Hm Hp [V1 V2 V3] Hall Hl.
  assert (partial members previous (flat previous)) as Hpa by (split; [split; auto|exact V2|done]).
  assert (previous <> ∅) as Hne.
  { destruct members as [|s ms]; [done|]. intros ->. destruct (Hall (ms_MemberID s)); [left|].
    by rewrite lookup_empty in *. }
  rewrite AssignWithPrevious_eq by done. cbn zeta.
  destruct (retain_everything range Hr members Hnd previous _ Hpa) as [E Hk].
  destruct (retain_spec range Hr members Hnd previous) as ([_ HA] & _ & _).
  destruct (retainPreviousAssignments _ _ _ _ _) as [r A]. cbn [fst snd] in E, HA. subst r.
  rewrite assignToLeastLoaded_nothing; [by eapply rebalanceSticky_done|done..|].
  intros tp Htp Hs. rewrite sortTopicPartitions_perm in Htp. apply list_elem_of_filter in Htp as [Hn Hin].
  apply Hn, HA. rewrite Hk, V3. by apply list_elem_of_filter.
Qed.

(** C22: Rebalancing reaches its bound within the rounds the code allows: when every
    member subscribes to every topic and the partitions do not divide evenly among the
    members, no member ends with more than its share, rounded up, whatever it had before,
    provided that the previous assignment is sound: it has no partition twice and none that
    no longer exists.  (With vanished partitions the bound fails.) *)
Theorem sticky_bounded (range : forall V : Type, gmap bytes V -> list (bytes * V)) members partitions previous m :
  (forall V (m : gmap bytes V), range V m ≡ₚ map_to_list m) -> NoDup (ids members) -> [] ∉ ids members ->
  NoDup partitions -> sound_previous partitions previous ->
  (forall tp m, tp ∈ partitions -> m ∈ ids members -> subscribes members m (tp_Topic tp)) ->
  (length partitions mod length members <> 0)%nat -> m ∈ ids members ->
  (load (AssignWithPrevious range members partitions previous) m
   <= (length partitions + length members - 1) / length members)%nat.
Proof.
  intros Hr Hnd Hnil Hp Hs Hfull Hmod Hm.
  assert (members <> []) as Hmm by (intros ->; by apply not_elem_of_nil in Hm).
  assert (partitions <> []) as Hpp by (intros ->; rewrite Nat.Div0.mod_0_l in Hmod; done).
  assert (filter (has_subscriber members) partitions = partitions) as Hf.
  { apply filter_all. intros tp Htp. apply has_subscriber_spec. exists m. by apply Hfull. }
  destruct (decide (previous = ∅)) as [->|Hne].
  - replace (AssignWithPrevious range members partitions ∅) with (RoundRobin_Assign members partitions)
      by (unfold AssignWithPrevious; destruct members, partitions; done).
    by apply RoundRobin_load.
  - destruct (sticky_stages range Hr members Hnd Hnil partitions previous) as (r & -> & Hpa); [done..|].
    rewrite Hf in Hpa. by apply rebalanceSticky_bound.
Qed.

(** ** What the sticky strategy does not do *)

(** A partition that is gone stays assigned: what a member had and still subscribes
    to is retained and handed out again even when it is not among the partitions to
    assign. *)
Theorem sticky_retains_vanished (range : forall V : Type, gmap bytes V -> list (bytes * V)) members partitions previous m l tp :
  (forall V (m : gmap bytes V), range V m ≡ₚ map_to_list m) -> NoDup (ids members) -> [] ∉ ids members ->
  partitions <> [] -> previous !! m = Some l -> tp ∈ l -> subscribes members m (tp_Topic tp) ->
  tp ∈ flat (AssignWithPrevious range members partitions previous).
Proof.
  intros Hr Hnd Hnil Hp Hm Htp Hs. pose proof (subscribes_member _ _ _ Hs) as Hin.
  assert (members <> []) as Hmm by (intros ->; by apply not_elem_of_nil in Hin).
  rewrite AssignWithPrevious_eq; [|done..|intros ->; by rewrite lookup_empty in Hm]. cbn zeta.
  destruct (retain_spec range Hr members Hnd previous) as ([R1 _] & R3 & _).
  destruct (retainPreviousAssignments _ _ _ _ _) as [r A]. cbn [fst snd] in R1, R3.
  rewrite (pa_flat members _ _ (rebalanceSticky_partial range members Hnd _ _
             (assignToLeastLoaded_partial members Hnd Hnil _ _ _ R1))).
  apply elem_of_app. right. rewrite <- (pa_flat _ _ _ R1). apply elem_of_flat. exists m, (kept_of members m l).
  split; [by apply R3|]. apply list_elem_of_filter. split; [|done]. by apply subscribed_spec.
Qed.

(** *** A concrete group *)

Definition map_order (V : Type) (m : gmap bytes V) : list (bytes * V) := map_to_list m.

Lemma map_order_perm V (m : gmap bytes V) : map_order V m ≡ₚ map_to_list m.
Proof. done. Qed.

Definition t0 : bytes := String.list_byte_of_string "t"%string.
Definition id_a : bytes := String.list_byte_of_string "a"%string.
Definition id_b : bytes := String.list_byte_of_string "b"%string.
Definition id_c : bytes := String.list_byte_of_string "c"%string.
Definition group3 : list MemberSubscription := [mkMS id_c [t0]; mkMS id_a [t0]; mkMS id_b [t0]].
Definition parts (n : nat) : list TopicPartition := mkTP t0 <$> (Z.of_nat <$> seq 0 n).

Lemma group3_nodup : NoDup (ids group3).
Proof. apply (bool_decide_unpack _). vm_compute. exact I. Qed.
Lemma group3_nonempty : [] ∉ ids group3.
Proof. apply (bool_decide_unpack _). vm_compute. exact I. Qed.
Lemma parts_topic n tp : tp ∈ parts n -> tp_Topic tp = t0.
Proof. unfold parts. by intros (p & -> & _)%list_elem_of_fmap. Qed.
Lemma group3_subscribes m : m ∈ ids group3 -> subscribes group3 m t0.
Proof.
  intros (s & -> & Hs)%list_elem_of_fmap. exists s. split; [done|]. split; [done|].
  revert s Hs. apply Forall_forall. unfold group3. repeat constructor.
Qed.
Lemma group3_full n tp m : tp ∈ parts n -> m ∈ ids group3 -> subscribes group3 m (tp_Topic tp).
Proof. intros ->%parts_topic. apply group3_subscribes. Qed.

Lemma range_balanced_witness :
  (2 <= topic_count t0 (Range_Assign map_order group3 (parts 7)) id_a <= 3)%nat.
Proof.
  apply (range_balanced map_order group3 (parts 7) t0 id_a map_order_perm group3_nodup); [done|].
  apply group3_subscribes, (bool_decide_unpack _). vm_compute. exact I.
Defined.

Lemma roundrobin_balanced_witness : (2 <= load (RoundRobin_Assign group3 (parts 7)) id_b <= 3)%nat.
Proof.
  apply (roundrobin_balanced group3 (parts 7) id_b group3_nodup); [done|apply group3_full|].
  apply (bool_decide_unpack _). vm_compute. exact I.
Defined.

(** [a] has five partitions, [b] one, and a member [z] that left had one. *)
Definition uneven : assignment :=
  <[id_a := mkTP t0 <$> [0; 1; 2; 3; 4]%Z]> (<[id_b := [mkTP t0 5]]> {[String.list_byte_of_string "z"%string := [mkTP t0 6]]}).

Lemma uneven_sound : sound_previous (parts 7) uneven.
Proof. split; [apply (bool_decide_unpack _); vm_compute; exact I|]. intros tp. revert tp. apply Forall_forall, (bool_decide_unpack _). vm_compute. exact I. Qed.

Lemma sticky_valid_witness :
  valid_assignment group3 (parts 7) (AssignWithPrevious map_order group3 (parts 7) uneven).
Proof.
  apply (sticky_valid map_order); [apply map_order_perm|apply group3_nodup|apply group3_nonempty| |apply uneven_sound].
  apply (bool_decide_unpack _). vm_compute. exact I.
Defined.

Lemma sticky_bounded_witness : (load (AssignWithPrevious map_order group3 (parts 7) uneven) id_a <= 3)%nat.
Proof.
  apply (sticky_bounded map_order group3 (parts 7) uneven id_a map_order_perm group3_nodup group3_nonempty);
    [apply (bool_decide_unpack _); vm_compute; exact I|apply uneven_sound|apply group3_full|done|].
  apply (bool_decide_unpack _). vm_compute. exact I.
Defined.

Lemma sticky_stable_witness :
  AssignWithPrevious map_order group3 (parts 7) (RoundRobin_Assign group3 (parts 7)) = RoundRobin_Assign group3 (parts 7).
Proof.
  apply (sticky_stable map_order); [apply map_order_perm|apply group3_nodup|apply group3_nonempty|done|done| | |].
  - apply RoundRobin_valid, group3_nodup.
  - apply Forall_forall, (bool_decide_unpack _). vm_compute. exact I.
  - apply Forall_forall, (bool_decide_unpack _). vm_compute. exact I.
Defined.

Lemma sticky_retains_vanished_witness :
  mkTP t0 4 ∈ flat (AssignWithPrevious map_order group3 (parts 3) uneven).
Proof.
  apply (sticky_retains_vanished map_order group3 (parts 3) uneven id_a (mkTP t0 <$> [0; 1; 2; 3; 4]%Z));
    [apply map_order_perm|apply group3_nodup|apply group3_nonempty|done|reflexivity| |].
  - apply (bool_decide_unpack _). vm_compute. exact I.
  - apply group3_subscribes, (bool_decide_unpack _). vm_compute. exact I.
Defined.

(** [a] has four of six partitions, [b] two, and [c] is new. *)
Definition four_two : assignment :=
  <[id_a := mkTP t0 <$> [0; 1; 2; 3]%Z]> {[id_b := mkTP t0 <$> [4; 5]%Z]}.

(** When the partitions divide evenly the rebalancing does not reach the share: six
    partitions among three members that all subscribe end as two, three and one, since a
    member at its share is still taken for underloaded and the rounds are used up in
    moving partitions to and fro. *)
Theorem sticky_uneven_result :
  sound_previous (parts 6) four_two
  /\ (load (AssignWithPrevious map_order group3 (parts 6) four_two) <$> [id_a; id_b; id_c]) = [2; 3; 1]%nat.
Proof.
  split; [|vm_compute; reflexivity].
  split; [apply (bool_decide_unpack _); vm_compute; exact I|].
  intros tp. revert tp. apply Forall_forall, (bool_decide_unpack _). vm_compute. exact I.
Qed.
