(* ===== verification/Offsets.v ===== *)
(** * Offset storage of consumer groups (pkg/consumer/group/offset_storage.go)

    The [OffsetStorage] interface as a class with its laws, the in-memory implementation
    with the proof that it keeps them, the storage that delegates to a metadata store, and
    the offset manager.  Stored offsets are never changed in place, so the pointers of the
    source are values here. *)

From S2P Require Import Prelude GoBytes.
From stdpp Require Import prelude list gmap.
From Stdlib Require Import ZArith Lia Strings.Byte.

Open Scope Z_scope.

Record OffsetAndMetadata := mkOAM {
  om_Offset : Z;
  om_Metadata : bytes;
  om_CommitTime : Z;
  om_ExpireTime : Z;
  om_LeaderEpoch : Z
}.

Notation topic_offsets := (gmap Z OffsetAndMetadata).
Notation group_offsets := (gmap bytes topic_offsets).

Record GroupOffsets := mkGroupOffsets { go_GroupID : bytes; go_Offsets : group_offsets }.

(** [m[a][b]] on nested maps, a missing outer key being a nil map. *)
Definition lookup2 {A B V} `{Countable A, Countable B} (m : gmap A (gmap B V)) (a : A) (b : B) : option V :=
  m !! a ≫= fun inner => inner !! b.

(** The [OffsetStorage] interface; [E] is the type of its errors. *)
Class OffsetStorage (S E : Type) := {
  so_Store : S -> bytes -> bytes -> Z -> OffsetAndMetadata -> option E * S;
  so_Fetch : S -> bytes -> bytes -> Z -> result E (option OffsetAndMetadata);
  so_FetchAll : S -> bytes -> result E GroupOffsets;
  so_Delete : S -> bytes -> option E * S
}.

(** What its clients rely on: [so_at s g t p] is the offset stored there.  Storing changes
    that one offset, or nothing when it fails; deleting removes what a group has. *)
Class OffsetStorageLaws (S E : Type) `{OffsetStorage S E} := {
  so_at : S -> bytes -> bytes -> Z -> option OffsetAndMetadata;
  so_fetch s g t p : so_Fetch s g t p = Ok (so_at s g t p);
  so_fetch_all s g : exists o, so_FetchAll s g = Ok (mkGroupOffsets g o) /\ forall t p, lookup2 o t p = so_at s g t p;
  so_store s g t p o e s' : so_Store s g t p o = (e, s') ->
    (e = None -> so_at s' g t p = Some o)
    /\ (so_at s' g t p = Some o \/ so_at s' g t p = so_at s g t p)
    /\ forall g' t' p', (g', t', p') <> (g, t, p) -> so_at s' g' t' p' = so_at s g' t' p';
  so_delete s g e s' : so_Delete s g = (e, s') ->
    (e = None -> forall t p, so_at s' g t p = None)
    /\ forall g' t p, g' <> g -> so_at s' g' t p = so_at s g' t p
}.

(** ** In memory *)

Record MemoryOffsetStorage := mkMemory { mo_offsets : gmap bytes group_offsets }.

Definition NewMemoryOffsetStorage : MemoryOffsetStorage := mkMemory ∅.

Definition Memory_StoreOffset (s : MemoryOffsetStorage) (groupID topic : bytes) (partition : Z) (offset : OffsetAndMetadata)
    : option unit * MemoryOffsetStorage :=
  let g := default ∅ (mo_offsets s !! groupID) in
  let t := default ∅ (g !! topic) in
  (None, mkMemory (<[groupID := <[topic := <[partition := offset]> t]> g]> (mo_offsets s))).

Definition Memory_FetchOffset (s : MemoryOffsetStorage) (groupID topic : bytes) (partition : Z)
    : result unit (option OffsetAndMetadata) :=
  match mo_offsets s !! groupID with
  | None => Ok None
  | Some groupOffsets =>
      match groupOffsets !! topic with
      | None => Ok None
      | Some topicOffsets =>
          match topicOffsets !! partition with
          | None => Ok None
          | Some offset => Ok (Some offset)
          end
      end
  end.

(** The copy of the source has the same entries. *)
Definition Memory_FetchOffsets (s : MemoryOffsetStorage) (groupID : bytes) : result unit GroupOffsets :=
  match mo_offsets s !! groupID with
  | None => Ok (mkGroupOffsets groupID ∅)
  | Some groupOffsets => Ok (mkGroupOffsets groupID groupOffsets)
  end.

Definition Memory_DeleteOffsets (s : MemoryOffsetStorage) (groupID : bytes) : option unit * MemoryOffsetStorage :=
  (None, mkMemory (delete groupID (mo_offsets s))).

#[export] Instance memory_storage : OffsetStorage MemoryOffsetStorage unit := {|
  so_Store := Memory_StoreOffset;
  so_Fetch := Memory_FetchOffset;
  so_FetchAll := Memory_FetchOffsets;
  so_Delete := Memory_DeleteOffsets
|}.

Definition memory_at (s : MemoryOffsetStorage) (g t : bytes) (p : Z) : option OffsetAndMetadata :=
  mo_offsets s !! g ≫= fun o => lookup2 o t p.

Lemma lookup2_default {A B V} `{Countable A, Countable B} (m : gmap A (gmap B V)) a b : default ∅ (m !! a) !! b = lookup2 m a b.
Proof. unfold lookup2. destruct (m !! a); simpl; [done|]. apply lookup_empty. Qed.

Lemma lookup2_insert {A B V} `{Countable A, Countable B} (m : gmap A (gmap B V)) a b v a' b' :
  lookup2 (<[a := <[b := v]> (default ∅ (m !! a))]> m) a' b'
  = if decide ((a', b') = (a, b)) then Some v else lookup2 m a' b'.
Proof.
  unfold lookup2. destruct (decide (a' = a)) as [->|Ha].
  - rewrite lookup_insert_eq. simpl. destruct (decide (b' = b)) as [->|Hb].
    + by rewrite lookup_insert_eq, decide_True.
    + rewrite lookup_insert_ne, decide_False by congruence. apply lookup2_default.
  - rewrite lookup_insert_ne, decide_False by congruence. done.
Qed.

Lemma memory_at_store s g t p o g' t' p' :
  memory_at (Memory_StoreOffset s g t p o).2 g' t' p'
  = if decide ((g', t', p') = (g, t, p)) then Some o else memory_at s g' t' p'.
Proof.
  unfold memory_at, Memory_StoreOffset. cbn [snd mo_offsets]. destruct (decide (g' = g)) as [->|Hg].
  - rewrite lookup_insert_eq. simpl. rewrite lookup2_insert.
    rewrite (decide_ext ((t', p') = (t, p)) ((g, t', p') = (g, t, p))) by naive_solver.
    case_decide; [done|]. destruct (mo_offsets s !! g); simpl; [done|]. unfold lookup2. by rewrite lookup_empty.
  - rewrite lookup_insert_ne, decide_False by congruence. done.
Qed.

#[export] Instance memory_laws : OffsetStorageLaws MemoryOffsetStorage unit.
Proof.
  refine {| so_at := memory_at |}; cbn.
  - intros s g t p. unfold Memory_FetchOffset, memory_at, lookup2.
    destruct (mo_offsets s !! g) as [o|]; [simpl|done]. destruct (o !! t) as [i|]; [simpl|done]. by destruct (i !! p).
  - intros s g. unfold Memory_FetchOffsets, memory_at. destruct (mo_offsets s !! g) as [o|]; eexists; (split; [reflexivity|]).
    + done.
    + intros t p. unfold lookup2. by rewrite lookup_empty.
  - intros s g t p o e s' Hs. pose proof (memory_at_store s g t p o) as Hat. rewrite Hs in Hat. cbn [snd] in Hat.
    split; [|split].
    + intros _. by rewrite Hat, decide_True.
    + left. by rewrite Hat, decide_True.
    + intros g' t' p' Hne. by rewrite Hat, decide_False.
  - intros s g e s' [= <- <-]. unfold memory_at. cbn [mo_offsets]. split.
    + intros _ t p. by rewrite lookup_delete_eq.
    + intros g' t p Hne. by rewrite lookup_delete_ne.
Defined.

(** ** Over a metadata store

    The [MetadataStore] interface has the four operations under other names, and
    [PersistentOffsetStorage] passes every call on, so it keeps the laws that its store
    keeps. *)

Record PersistentOffsetStorage (M : Type) := mkPersistent { ps_store : M }.
Arguments mkPersistent {M}.
Arguments ps_store {M}.

#[export] Instance persistent_storage {M E} `{MO : OffsetStorage M E} : OffsetStorage (PersistentOffsetStorage M) E := {|
  so_Store s g t p o := let '(e, m) := so_Store (ps_store s) g t p o in (e, mkPersistent m);
  so_Fetch s := so_Fetch (ps_store s);
  so_FetchAll s := so_FetchAll (ps_store s);
  so_Delete s g := let '(e, m) := so_Delete (ps_store s) g in (e, mkPersistent m)
|}.

#[export] Instance persistent_laws {M E} `{ML : OffsetStorageLaws M E} : OffsetStorageLaws (PersistentOffsetStorage M) E.
Proof.
  refine {| so_at s := so_at (ps_store s) |}; cbn.
  - intros. apply so_fetch.
  - intros. apply so_fetch_all.
  - intros s g t p o e s'. destruct (so_Store (ps_store s) g t p o) as [e1 m] eqn:Em. intros [= <- <-].
    cbn. by eapply so_store.
  - intros s g e s'. destruct (so_Delete (ps_store s) g) as [e1 m] eqn:Em. intros [= <- <-]. cbn. by eapply so_delete.
Defined.

(** ** The offset manager *)

Section manager.
Context {S E : Type} `{OffsetStorage S E}.

Definition CommitOffset (s : S) (groupID topic : bytes) (partition offset : Z) (metadata : bytes) : option E * S :=
  so_Store s groupID topic partition (mkOAM offset metadata zero_time zero_time 0).

(** The error comes with the offset -1. *)
Definition GetOffset (s : S) (groupID topic : bytes) (partition : Z) : Z * option E :=
  match so_Fetch s groupID topic partition with
  | Err e => (-1, Some e)
  | Ok None => (-1, None)
  | Ok (Some o) => (om_Offset o, None)
  end.

Definition GetAllOffsets (s : S) (groupID : bytes) : result E (gmap bytes (gmap Z Z)) :=
  match so_FetchAll s groupID with
  | Err e => Err e
  | Ok o => Ok ((fun partitions : topic_offsets => om_Offset <$> partitions) <$> go_Offsets o)
  end.

Definition ResetOffsets (s : S) (groupID : bytes) : option E * S := so_Delete s groupID.

(** Which bound is violated, as the error says. *)
Inductive offset_bound := BelowMinimum | AboveMaximum.
Definition ValidateOffset (offset minOffset maxOffset : Z) : option offset_bound :=
  if offset <? minOffset then Some BelowMinimum
  else if maxOffset <? offset then Some AboveMaximum else None.
End manager.

(** The offset manager over any storage that keeps the interface: what was committed
    last is what [GetOffset] and [GetAllOffsets] give until it is reset, a commit touches
    no other partition, and -1 stands for no commit. *)
Theorem offset_manager_roundtrip {S E} `{OffsetStorageLaws S E} (s : S) g t p o md :
  let '(e, s1) := CommitOffset s g t p o md in
  (e = None ->
     GetOffset s1 g t p = (o, None)
     /\ (exists all, GetAllOffsets s1 g = Ok all /\ lookup2 all t p = Some o)
     /\ (let '(e', s2) := ResetOffsets s1 g in e' = None -> GetOffset s2 g t p = (-1, None)))
  /\ (forall g' t' p', (g', t', p') <> (g, t, p) -> GetOffset s1 g' t' p' = GetOffset s g' t' p').
Proof.
  destruct (CommitOffset s g t p o md) as [e s1] eqn:Ec.
  destruct (so_store _ _ _ _ _ _ _ Ec) as (Hok & _ & Hne). unfold GetOffset, GetAllOffsets. split.
  - intros He. specialize (Hok He). rewrite so_fetch, Hok. split; [done|]. split.
    + destruct (so_fetch_all s1 g) as (all & -> & Hall). eexists. split; [reflexivity|]. cbn [go_Offsets].
      unfold lookup2 in *. rewrite lookup_fmap. specialize (Hall t p). rewrite Hok in Hall.
      destruct (all !! t) as [i|]; [simpl in *|done]. by rewrite lookup_fmap, Hall.
    + destruct (ResetOffsets s1 g) as [e' s2] eqn:Er. intros ->. rewrite so_fetch.
      destruct (so_delete _ _ _ _ Er) as [Hd _]. by rewrite Hd.
  - intros g' t' p' Hn. by rewrite !so_fetch, Hne.
Qed.

Lemma offset_manager_roundtrip_witness :
  GetOffset (CommitOffset NewMemoryOffsetStorage [x67] [x74] 0 5 []).2 [x67] [x74] 0 = (5, None)
  /\ GetOffset (CommitOffset NewMemoryOffsetStorage [x67] [x74] 0 5 []).2 [x67] [x74] 1 = (-1, None).
Proof.
  pose proof (offset_manager_roundtrip NewMemoryOffsetStorage [x67] [x74] 0 5 []) as H.
  destruct (CommitOffset NewMemoryOffsetStorage [x67] [x74] 0 5 []) as [e s1] eqn:E.
  destruct H as [H1 H2]. split.
  - apply H1. by injection E as <- _.
  - rewrite H2 by congruence. reflexivity.
Defined.
