(* ===== verification/Group.v ===== *)
(** * The consumer group coordinator (pkg/consumer/group: types.go, coordinator.go, admin.go)

    Every handler holds the coordinator's lock and is one function from the state and the
    request to the state and the response, with the time as an argument; the expiry sweep
    is a step that may happen at any time, and deleting a group is two steps, since the
    source releases the lock before it deletes the offsets.  The records of requests and
    responses are those of the package, not of the wire protocol.  A range over a map is
    a parameter where its order can be observed. *)

From S2P Require Import Prelude GoBytes Record Wire Payloads Assignor Offsets.
From stdpp Require Import prelude list gmap.
From Stdlib Require Import ZArith Lia Strings.Byte.

Open Scope Z_scope.

(** ** Data (types.go) *)

Inductive GroupState :=
| GroupStateEmpty | GroupStatePreparingRebalance | GroupStateCompletingRebalance
| GroupStateStable | GroupStateDead.

#[export] Instance GroupState_eq_dec : EqDecision GroupState.
Proof. solve_decision. Defined.

Inductive MemberState := MemberStateJoining | MemberStateAwaitingSync | MemberStateStable | MemberStateLeaving.

#[export] Instance MemberState_eq_dec : EqDecision MemberState.
Proof. solve_decision. Defined.

Record MemberAssignment := mkAssignment {
  mas_Version : Z;
  mas_Partitions : gmap bytes (list Z);
  mas_UserData : option bytes
}.

Record MemberMetadata := mkMember {
  mm_MemberID : bytes;
  mm_ClientID : bytes;
  mm_ClientHost : bytes;
  mm_State : MemberState;
  mm_Subscription : list bytes;
  mm_Assignment : option MemberAssignment;
  mm_AssignmentBytes : option bytes;
  mm_ProtocolMetadata : option bytes;
  mm_LastHeartbeat : Z;
  mm_SessionTimeoutMs : Z;
  mm_RebalanceTimeoutMs : Z;
  mm_JoinTime : Z
}.

Record GroupMetadata := mkGroup {
  gm_GroupID : bytes;
  gm_State : GroupState;
  gm_ProtocolType : bytes;
  gm_ProtocolName : bytes;
  gm_LeaderID : bytes;
  gm_GenerationID : Z;
  gm_Members : gmap bytes MemberMetadata;
  gm_StateTimestamp : Z;
  gm_RebalanceTimeoutMs : Z;
  gm_SessionTimeoutMs : Z
}.

Record ProtocolMetadata := mkProtocolMetadata { pmd_Name : bytes; pmd_Metadata : option bytes }.

Record JoinGroupRequest := mkJoinRequest {
  jr_GroupID : bytes;
  jr_SessionTimeoutMs : Z;
  jr_RebalanceTimeoutMs : Z;
  jr_MemberID : bytes;
  jr_ClientID : bytes;
  jr_ProtocolType : bytes;
  jr_Protocols : list ProtocolMetadata
}.
Record JoinGroupMember := mkJoinMember { jm_MemberID : bytes; jm_Metadata : option bytes }.
Record JoinGroupResponse := mkJoinResponse {
  js_ErrorCode : Z;
  js_GenerationID : Z;
  js_ProtocolName : bytes;
  js_MemberID : bytes;
  js_LeaderID : bytes;
  js_Members : list JoinGroupMember
}.

Record MemberAssignmentData := mkAssignmentData { ad_MemberID : bytes; ad_Assignment : option bytes }.
Record SyncGroupRequest := mkSyncRequest {
  sr_GroupID : bytes;
  sr_GenerationID : Z;
  sr_MemberID : bytes;
  sr_Assignments : list MemberAssignmentData
}.
Record SyncGroupResponse := mkSyncResponse { ss_ErrorCode : Z; ss_Assignment : option bytes }.

Record HeartbeatRequest := mkHeartbeat { hr_GroupID : bytes; hr_GenerationID : Z; hr_MemberID : bytes }.
Record LeaveGroupRequest := mkLeave { lr_GroupID : bytes; lr_MemberID : bytes }.

Record OffsetCommitData := mkCommitData { cd_Offset : Z; cd_Metadata : bytes }.
Record OffsetCommitRequest := mkCommitRequest {
  cr_GroupID : bytes;
  cr_GenerationID : Z;
  cr_MemberID : bytes;
  cr_Offsets : gmap bytes (gmap Z OffsetCommitData)
}.
Record OffsetFetchRequest := mkFetchRequest { fr_GroupID : bytes; fr_Topics : gmap bytes (list Z) }.
Record OffsetFetchData := mkFetchData { fd_Offset : Z; fd_Metadata : bytes; fd_ErrorCode : Z }.

Definition ErrorCodeNone : Z := 0.
Definition ErrorCodeUnknown : Z := -1.
Definition ErrorCodeIllegalGeneration : Z := 22.
Definition ErrorCodeUnknownMemberID : Z := 25.
Definition ErrorCodeRebalanceInProgress : Z := 27.
Definition ErrorCodeInvalidSessionTimeout : Z := 26.
Definition ErrorCodeGroupIDNotFound : Z := 69.
Definition ErrorCodeGroupAuthorizationFailed : Z := 30.

Record CoordinatorConfig := mkCoordinatorConfig {
  cc_DefaultSessionTimeoutMs : Z;
  cc_DefaultRebalanceTimeoutMs : Z;
  cc_MinSessionTimeoutMs : Z;
  cc_MaxSessionTimeoutMs : Z;
  cc_HeartbeatCheckIntervalMs : Z;
  cc_OffsetRetentionMs : Z
}.

Definition DefaultCoordinatorConfig : CoordinatorConfig :=
  mkCoordinatorConfig 30000 60000 6000 300000 3000 604800000.

(** The coordinator, over the storage [S]. *)
Record GroupCoordinator (S : Type) := mkGC {
  gc_groups : gmap bytes GroupMetadata;
  gc_storage : S;
  gc_config : CoordinatorConfig
}.
Arguments mkGC {S}.
Arguments gc_groups {S}.
Arguments gc_storage {S}.
Arguments gc_config {S}.

Definition NewGroupCoordinator {S} (storage : S) (config : CoordinatorConfig) : GroupCoordinator S := mkGC ∅ storage config.

(** ** Updates of fields *)

Definition set_members (g : GroupMetadata) (ms : gmap bytes MemberMetadata) : GroupMetadata :=
  mkGroup (gm_GroupID g) (gm_State g) (gm_ProtocolType g) (gm_ProtocolName g) (gm_LeaderID g) (gm_GenerationID g)
    ms (gm_StateTimestamp g) (gm_RebalanceTimeoutMs g) (gm_SessionTimeoutMs g).
Definition set_state (g : GroupMetadata) (s : GroupState) : GroupMetadata :=
  mkGroup (gm_GroupID g) s (gm_ProtocolType g) (gm_ProtocolName g) (gm_LeaderID g) (gm_GenerationID g)
    (gm_Members g) (gm_StateTimestamp g) (gm_RebalanceTimeoutMs g) (gm_SessionTimeoutMs g).
Definition set_timestamp (g : GroupMetadata) (now : Z) : GroupMetadata :=
  mkGroup (gm_GroupID g) (gm_State g) (gm_ProtocolType g) (gm_ProtocolName g) (gm_LeaderID g) (gm_GenerationID g)
    (gm_Members g) now (gm_RebalanceTimeoutMs g) (gm_SessionTimeoutMs g).
Definition set_leader (g : GroupMetadata) (l : bytes) : GroupMetadata :=
  mkGroup (gm_GroupID g) (gm_State g) (gm_ProtocolType g) (gm_ProtocolName g) l (gm_GenerationID g)
    (gm_Members g) (gm_StateTimestamp g) (gm_RebalanceTimeoutMs g) (gm_SessionTimeoutMs g).
Definition set_protocol (g : GroupMetadata) (p : bytes) : GroupMetadata :=
  mkGroup (gm_GroupID g) (gm_State g) (gm_ProtocolType g) p (gm_LeaderID g) (gm_GenerationID g)
    (gm_Members g) (gm_StateTimestamp g) (gm_RebalanceTimeoutMs g) (gm_SessionTimeoutMs g).
(** [group.GenerationID++], on an [int32]. *)
Definition next_generation (g : GroupMetadata) : GroupMetadata :=
  mkGroup (gm_GroupID g) (gm_State g) (gm_ProtocolType g) (gm_ProtocolName g) (gm_LeaderID g)
    (wraps 32 (gm_GenerationID g + 1)) (gm_Members g) (gm_StateTimestamp g) (gm_RebalanceTimeoutMs g) (gm_SessionTimeoutMs g).

Definition set_assignment (m : MemberMetadata) (a : option MemberAssignment) (bs : option bytes) : MemberMetadata :=
  mkMember (mm_MemberID m) (mm_ClientID m) (mm_ClientHost m) (mm_State m) (mm_Subscription m) a bs
    (mm_ProtocolMetadata m) (mm_LastHeartbeat m) (mm_SessionTimeoutMs m) (mm_RebalanceTimeoutMs m) (mm_JoinTime m).
Definition set_member_state (m : MemberMetadata) (s : MemberState) : MemberMetadata :=
  mkMember (mm_MemberID m) (mm_ClientID m) (mm_ClientHost m) s (mm_Subscription m) (mm_Assignment m) (mm_AssignmentBytes m)
    (mm_ProtocolMetadata m) (mm_LastHeartbeat m) (mm_SessionTimeoutMs m) (mm_RebalanceTimeoutMs m) (mm_JoinTime m).
Definition set_heartbeat (m : MemberMetadata) (now : Z) : MemberMetadata :=
  mkMember (mm_MemberID m) (mm_ClientID m) (mm_ClientHost m) (mm_State m) (mm_Subscription m) (mm_Assignment m)
    (mm_AssignmentBytes m) (mm_ProtocolMetadata m) now (mm_SessionTimeoutMs m) (mm_RebalanceTimeoutMs m) (mm_JoinTime m).

(** ** Subscriptions and assignments of members *)

Fixpoint split_loop (data segment : bytes) : list bytes :=
  match data with
  | [] => match segment with [] => [] | _ => [segment] end
  | b :: data =>
      if bool_decide (b = x00) then match segment with [] => [] | _ => [segment] end ++ split_loop data []
      else split_loop data (segment ++ [b])
  end.
Definition splitByNull (data : bytes) : list bytes := split_loop data [].

Definition parseSubscriptionTopics (metadata : option bytes) : list bytes :=
  match default [] metadata with
  | [] => []
  | data =>
      match DecodeSubscription data with
      | Ok sub => sub_Topics sub
      | Err _ => match splitByNull data with [] => [data] | topics => topics end
      end
  end.

Definition parseAssignmentBytes (data : option bytes) : option MemberAssignment :=
  match default [] data with
  | [] => None
  | bs =>
      match DecodeMemberAssignment bs with
      | Ok decoded => Some (mkAssignment 0 (ma_Partitions decoded) (ma_UserData decoded))
      | Err _ => Some (mkAssignment 0 ∅ data)
      end
  end.

Definition clearAssignments (g : GroupMetadata) : GroupMetadata :=
  set_members g ((fun m => set_assignment m None None) <$> gm_Members g).

(** ** Handlers *)

Section coordinator.
Context {S E : Type} `{OffsetStorage S E}.
Context (range : forall V : Type, gmap bytes V -> list (bytes * V)).
Context (rangeP : forall V : Type, gmap Z V -> list (Z * V)).
Notation GC := (GroupCoordinator S).

Definition set_group (gc : GC) (groupID : bytes) (g : GroupMetadata) : GC :=
  mkGC (<[groupID := g]> (gc_groups gc)) (gc_storage gc) (gc_config gc).
Definition set_storage (gc : GC) (s : S) : GC := mkGC (gc_groups gc) s (gc_config gc).

(** The group that [getOrCreateGroup] returns; the caller puts it into the map. *)
Definition getOrCreateGroup (now : Z) (gc : GC) (groupID protocolType : bytes) : GroupMetadata :=
  match gc_groups gc !! groupID with
  | Some g => g
  | None => mkGroup groupID GroupStateEmpty protocolType [] [] 0 ∅ now
              (cc_DefaultRebalanceTimeoutMs (gc_config gc)) (cc_DefaultSessionTimeoutMs (gc_config gc))
  end.

Definition getGroup (gc : GC) (groupID : bytes) : result Z GroupMetadata :=
  match gc_groups gc !! groupID with Some g => Ok g | None => Err ErrorCodeGroupIDNotFound end.

Definition generateMemberID (now : Z) (clientID : bytes) : bytes := clientID ++ x2d :: FormatInt (UnixNano now).

Definition validateJoinRequest (gc : GC) (req : JoinGroupRequest) : option Z :=
  if (jr_SessionTimeoutMs req <? cc_MinSessionTimeoutMs (gc_config gc))
     || (cc_MaxSessionTimeoutMs (gc_config gc) <? jr_SessionTimeoutMs req)
  then Some ErrorCodeInvalidSessionTimeout else None.

(** The member that joins, with the subscription of its first protocol. *)
Definition new_member (now : Z) (req : JoinGroupRequest) (memberID : bytes) : MemberMetadata :=
  let '(sub, md) := match jr_Protocols req with
                    | [] => ([], None)
                    | p :: _ => (parseSubscriptionTopics (pmd_Metadata p), pmd_Metadata p)
                    end in
  mkMember memberID (jr_ClientID req) [] MemberStateJoining sub None None md now
    (jr_SessionTimeoutMs req) (jr_RebalanceTimeoutMs req) now.

(** The switch on the group's state. *)
Definition join_transition (now : Z) (memberID : bytes) (g : GroupMetadata) : GroupMetadata :=
  match gm_State g with
  | GroupStateEmpty =>
      set_timestamp (next_generation (set_leader (set_state g GroupStatePreparingRebalance) memberID)) now
  | GroupStateStable =>
      clearAssignments (set_timestamp (next_generation (set_state g GroupStatePreparingRebalance)) now)
  | _ => g
  end.

Definition select_protocol (g : GroupMetadata) (protocols : list ProtocolMetadata) : GroupMetadata :=
  match gm_ProtocolName g, protocols with
  | [], p :: _ => set_protocol g (pmd_Name p)
  | _, _ => g
  end.

(** The group after a member joined. *)
Definition joined (now : Z) (gc : GC) (req : JoinGroupRequest) (memberID : bytes) : GroupMetadata :=
  let g := getOrCreateGroup now gc (jr_GroupID req) (jr_ProtocolType req) in
  let g := set_members g (<[memberID := new_member now req memberID]> (gm_Members g)) in
  select_protocol (join_transition now memberID g) (jr_Protocols req).

Definition HandleJoinGroup (now : Z) (gc : GC) (req : JoinGroupRequest) : JoinGroupResponse * GC :=
  match validateJoinRequest gc req with
  | Some code => (mkJoinResponse code 0 [] [] [] [], gc)
  | None =>
      let memberID := match jr_MemberID req with [] => generateMemberID now (jr_ClientID req) | id => id end in
      let g := joined now gc req memberID in
      (mkJoinResponse ErrorCodeNone (gm_GenerationID g) (gm_ProtocolName g) memberID (gm_LeaderID g)
         (if bool_decide (memberID = gm_LeaderID g)
          then (fun '(mid, m) => mkJoinMember mid (mm_ProtocolMetadata m)) <$> range _ (gm_Members g) else []),
       set_group gc (jr_GroupID req) g)
  end.

Definition store_assignment (ms : gmap bytes MemberMetadata) (a : MemberAssignmentData) : gmap bytes MemberMetadata :=
  match ms !! ad_MemberID a with
  | Some m =>
      <[ad_MemberID a := set_member_state (set_assignment m (parseAssignmentBytes (ad_Assignment a)) (ad_Assignment a))
                           MemberStateStable]> ms
  | None => ms
  end.

(** The leader's assignments, when the request brings some. *)
Definition leader_sync (now : Z) (g : GroupMetadata) (req : SyncGroupRequest) : GroupMetadata :=
  match sr_Assignments req with
  | [] => g
  | assignments =>
      if bool_decide (sr_MemberID req = gm_LeaderID g)
      then set_timestamp (set_state (set_members g (fold_left store_assignment assignments (gm_Members g))) GroupStateStable) now
      else g
  end.

Definition HandleSyncGroup (now : Z) (gc : GC) (req : SyncGroupRequest) : SyncGroupResponse * GC :=
  match getGroup gc (sr_GroupID req) with
  | Err code => (mkSyncResponse code None, gc)
  | Ok g =>
      if negb (gm_GenerationID g =? sr_GenerationID req) then (mkSyncResponse ErrorCodeIllegalGeneration None, gc)
      else match gm_Members g !! sr_MemberID req with
           | None => (mkSyncResponse ErrorCodeUnknownMemberID None, gc)
           | Some _ =>
               let g := leader_sync now g req in
               let g := set_members g (alter (fun m => set_member_state m MemberStateStable) (sr_MemberID req) (gm_Members g)) in
               let gc := set_group gc (sr_GroupID req) g in
               match gm_Members g !! sr_MemberID req ≫= mm_AssignmentBytes with
               | None => (mkSyncResponse ErrorCodeRebalanceInProgress None, gc)
               | Some bs => (mkSyncResponse ErrorCodeNone (Some bs), gc)
               end
           end
  end.

Definition HandleHeartbeat (now : Z) (gc : GC) (req : HeartbeatRequest) : Z * GC :=
  match getGroup gc (hr_GroupID req) with
  | Err code => (code, gc)
  | Ok g =>
      if negb (gm_GenerationID g =? hr_GenerationID req) then (ErrorCodeIllegalGeneration, gc)
      else match gm_Members g !! hr_MemberID req with
           | None => (ErrorCodeUnknownMemberID, gc)
           | Some m =>
               if bool_decide (gm_State g = GroupStatePreparingRebalance) then (ErrorCodeRebalanceInProgress, gc)
               else (ErrorCodeNone,
                     set_group gc (hr_GroupID req) (set_members g (<[hr_MemberID req := set_heartbeat m now]> (gm_Members g))))
           end
  end.

(** The transition after members were removed, shared by leaving and expiry. *)
Definition removed (now : Z) (g : GroupMetadata) : GroupMetadata :=
  if bool_decide (gm_Members g = ∅) then set_state g GroupStateEmpty
  else if bool_decide (gm_State g = GroupStateStable)
  then clearAssignments (set_timestamp (next_generation (set_state g GroupStatePreparingRebalance)) now)
  else g.

Definition HandleLeaveGroup (now : Z) (gc : GC) (req : LeaveGroupRequest) : Z * GC :=
  match getGroup gc (lr_GroupID req) with
  | Err code => (code, gc)
  | Ok g => (ErrorCodeNone, set_group gc (lr_GroupID req) (removed now (set_members g (delete (lr_MemberID req) (gm_Members g)))))
  end.

(** [Time.Sub], which saturates. *)
Definition time_Sub (a b : Z) : Z := Z.max (- 2 ^ 63) (Z.min (2 ^ 63 - 1) (a - b)).

Definition expired (now : Z) (m : MemberMetadata) : bool :=
  mm_SessionTimeoutMs m * 1000000 <? time_Sub now (mm_LastHeartbeat m).

Definition expire_group (now : Z) (g : GroupMetadata) : GroupMetadata :=
  let expiredMembers := filter (fun kv => expired now kv.2 = true) (gm_Members g) in
  let kept := filter (fun kv => expired now kv.2 = false) (gm_Members g) in
  if bool_decide (expiredMembers = ∅) then set_members g kept else removed now (set_members g kept).

Definition checkExpiredMembers (now : Z) (gc : GC) : GC :=
  mkGC (expire_group now <$> gc_groups gc) (gc_storage gc) (gc_config gc).

(** ** Offsets *)

Notation errors := (gmap bytes (gmap Z Z)).

Definition error_all (code : Z) (offsets : gmap bytes (gmap Z OffsetCommitData)) : errors :=
  (fun partitions : gmap Z OffsetCommitData => (fun _ => code) <$> partitions) <$> offsets.

(** [time.Now().Add(time.Duration(ms) * time.Millisecond)], the product an [int64]. *)
Definition expire_time (now : Z) (cfg : CoordinatorConfig) : Z := now + wraps 64 (cc_OffsetRetentionMs cfg * 1000000).

Definition commit_partition (now : Z) (cfg : CoordinatorConfig) (groupID topic : bytes) (st : gmap Z Z * S) (e : Z * OffsetCommitData)
    : gmap Z Z * S :=
  let '(err, s) := so_Store st.2 groupID topic e.1
                     (mkOAM (cd_Offset e.2) (cd_Metadata e.2) now (expire_time now cfg) 0) in
  (<[e.1 := if err then ErrorCodeUnknown else ErrorCodeNone]> st.1, s).

Definition commit_topic (now : Z) (cfg : CoordinatorConfig) (groupID : bytes) (st : errors * S) (e : bytes * gmap Z OffsetCommitData)
    : errors * S :=
  let '(errs, s) := fold_left (commit_partition now cfg groupID e.1) (rangeP _ e.2) (∅, st.2) in
  (<[e.1 := errs]> st.1, s).

Definition HandleOffsetCommit (now : Z) (gc : GC) (req : OffsetCommitRequest) : errors * GC :=
  let store :=
    let '(errs, s) := fold_left (commit_topic now (gc_config gc) (cr_GroupID req)) (range _ (cr_Offsets req)) (∅, gc_storage gc) in
    (errs, set_storage gc s) in
  if 0 <=? cr_GenerationID req then
    match getGroup gc (cr_GroupID req) with
    | Err code => (error_all code (cr_Offsets req), gc)
    | Ok g =>
        match gm_Members g !! cr_MemberID req with
        | None => (error_all ErrorCodeUnknownMemberID (cr_Offsets req), gc)
        | Some _ => store
        end
    end
  else store.

Definition fetch_data (gc : GC) (groupID topic : bytes) (partition : Z) : OffsetFetchData :=
  match so_Fetch (gc_storage gc) groupID topic partition with
  | Err _ => mkFetchData 0 [] ErrorCodeUnknown
  | Ok None => mkFetchData (-1) [] ErrorCodeNone
  | Ok (Some o) => mkFetchData (om_Offset o) (om_Metadata o) ErrorCodeNone
  end.

(** A topic's entries of the response, in the order of the partitions listed. *)
Definition fetch_topic (gc : GC) (groupID topic : bytes) (partitions : list Z) : gmap Z OffsetFetchData :=
  fold_left (fun m p => <[p := fetch_data gc groupID topic p]> m) partitions ∅.

Definition HandleOffsetFetch (gc : GC) (req : OffsetFetchRequest) : result E (gmap bytes (gmap Z OffsetFetchData)) :=
  if bool_decide (fr_Topics req = ∅) then
    match so_FetchAll (gc_storage gc) (fr_GroupID req) with
    | Err e => Err e
    | Ok o => Ok ((fun partitions : topic_offsets =>
                     (fun o => mkFetchData (om_Offset o) (om_Metadata o) ErrorCodeNone) <$> partitions) <$> go_Offsets o)
    end
  else Ok (map_imap (fun topic partitions => Some (fetch_topic gc (fr_GroupID req) topic partitions)) (fr_Topics req)).

(** ** Assignment *)

Definition buildMemberSubscriptions (g : GroupMetadata) : list MemberSubscription :=
  (fun '(_, m) => mkMS (mm_MemberID m) (mm_Subscription m)) <$> range _ (gm_Members g).

Definition PerformAssignment (gc : GC) (groupID : bytes) (partitions : list TopicPartition) : result Z assignment :=
  match getGroup gc groupID with
  | Err code => Err code
  | Ok g => Ok (GetAssignor range (gm_ProtocolName g) (buildMemberSubscriptions g) partitions)
  end.

(** ** Administration (admin.go) *)

Definition ListGroups (gc : GC) : list GroupMetadata := (range _ (gc_groups gc)).*2.
Definition GetGroup (gc : GC) (groupID : bytes) : option GroupMetadata := gc_groups gc !! groupID.

Definition GetCommittedOffset (gc : GC) (groupID topic : bytes) (partition : Z) : Z * option E :=
  match so_Fetch (gc_storage gc) groupID topic partition with
  | Err e => (0, Some e)
  | Ok None => (0, None)
  | Ok (Some o) => (om_Offset o, None)
  end.

Inductive delete_error :=
| ErrGroupNotFound
| GroupNotEmptyError (groupID : bytes) (memberCount : nat)
| OffsetsNotDeleted (e : E).

(** Under the lock: unregister the group. *)
Definition delete_begin (gc : GC) (groupID : bytes) : option delete_error * GC :=
  match gc_groups gc !! groupID with
  | None => (Some ErrGroupNotFound, gc)
  | Some g =>
      if bool_decide (gm_Members g = ∅) then (None, mkGC (delete groupID (gc_groups gc)) (gc_storage gc) (gc_config gc))
      else (Some (GroupNotEmptyError groupID (size (gm_Members g))), gc)
  end.

(** After it was released: delete the offsets. *)
Definition delete_offsets (gc : GC) (groupID : bytes) : option delete_error * GC :=
  let '(err, s) := so_Delete (gc_storage gc) groupID in
  (OffsetsNotDeleted <$> err, set_storage gc s).

Definition DeleteGroup (gc : GC) (groupID : bytes) : option delete_error * GC :=
  match delete_begin gc groupID with
  | (Some e, gc) => (Some e, gc)
  | (None, gc) => delete_offsets gc groupID
  end.

(** ** Steps *)

(** What may happen to the coordinator, in any order. *)
Inductive group_op :=
| OpJoin (now : Z) (req : JoinGroupRequest)
| OpSync (now : Z) (req : SyncGroupRequest)
| OpHeartbeat (now : Z) (req : HeartbeatRequest)
| OpLeave (now : Z) (req : LeaveGroupRequest)
| OpCommit (now : Z) (req : OffsetCommitRequest)
| OpExpire (now : Z)
| OpDelete (groupID : bytes)
| OpDeleteOffsets (groupID : bytes).

Definition group_step (gc : GC) (op : group_op) : GC :=
  match op with
  | OpJoin now req => (HandleJoinGroup now gc req).2
  | OpSync now req => (HandleSyncGroup now gc req).2
  | OpHeartbeat now req => (HandleHeartbeat now gc req).2
  | OpLeave now req => (HandleLeaveGroup now gc req).2
  | OpCommit now req => (HandleOffsetCommit now gc req).2
  | OpExpire now => checkExpiredMembers now gc
  | OpDelete groupID => (delete_begin gc groupID).2
  | OpDeleteOffsets groupID => (delete_offsets gc groupID).2
  end.

Definition group_run (gc : GC) (ops : list group_op) : GC := fold_left group_step ops gc.
End coordinator.
