(* ===== verification/GroupSpec.v ===== *)
(** * What the consumer group coordinator promises

    Each group follows an abstract machine ([astep]) that keeps of a group its state, its
    generation, its leader, who is in it and what each member was given.  Every step of
    the coordinator is a step of that machine for every group ([coordinator_refines]); the
    properties of histories are proved on the machine. *)

From S2P Require Import Prelude GoBytes Record Wire Payloads Assignor AssignorSpec StickySpec Offsets Group.
From stdpp Require Import prelude list gmap.
From Stdlib Require Import ZArith Lia Strings.Byte.

Open Scope Z_scope.

(** ** The abstract machine *)

Record agroup := mkAGroup {
  ag_state : GroupState;
  ag_gen : Z;
  ag_leader : bytes;
  ag_members : gset bytes;
  ag_given : gmap bytes bytes
}.

Definition abs (g : GroupMetadata) : agroup :=
  mkAGroup (gm_State g) (gm_GenerationID g) (gm_LeaderID g) (dom (gm_Members g)) (omap mm_AssignmentBytes (gm_Members g)).

(** The member a join request is for. *)
Definition member_of (now : Z) (req : JoinGroupRequest) : bytes :=
  match jr_MemberID req with [] => generateMemberID now (jr_ClientID req) | id => id end.

(** What the members have once the assignments of a request are stored. *)
Definition give (members : gset bytes) (given : gmap bytes bytes) (a : MemberAssignmentData) : gmap bytes bytes :=
  if decide (ad_MemberID a ∈ members) then partial_alter (fun _ => ad_Assignment a) (ad_MemberID a) given else given.

Definition bump (gen : Z) : Z := wraps 32 (gen + 1).

(** One step of the group [id]; [None] is a group that is not registered. *)
Inductive astep (id : bytes) : group_op -> option agroup -> option agroup -> Prop :=
| A_stutter op a : astep id op a a
| A_first now req a :
    jr_GroupID req = id ->
    match a with None => True | Some a => ag_state a = GroupStateEmpty end ->
    astep id (OpJoin now req) a
      (Some (mkAGroup GroupStatePreparingRebalance (bump (match a with None => 0 | Some a => ag_gen a end))
               (member_of now req) {[member_of now req]} ∅))
| A_join now req a :
    jr_GroupID req = id -> ag_state a = GroupStatePreparingRebalance ->
    astep id (OpJoin now req) (Some a)
      (Some (mkAGroup GroupStatePreparingRebalance (ag_gen a) (ag_leader a) ({[member_of now req]} ∪ ag_members a) ∅))
| A_rejoin now req a :
    jr_GroupID req = id -> ag_state a = GroupStateStable ->
    astep id (OpJoin now req) (Some a)
      (Some (mkAGroup GroupStatePreparingRebalance (bump (ag_gen a)) (ag_leader a) ({[member_of now req]} ∪ ag_members a) ∅))
| A_assign now req a :
    sr_GroupID req = id -> sr_GenerationID req = ag_gen a -> sr_MemberID req = ag_leader a ->
    ag_leader a ∈ ag_members a -> sr_Assignments req <> [] ->
    astep id (OpSync now req) (Some a)
      (Some (mkAGroup GroupStateStable (ag_gen a) (ag_leader a) (ag_members a)
               (fold_left (give (ag_members a)) (sr_Assignments req) (ag_given a))))
| A_remove op a members :
    ag_state a = GroupStatePreparingRebalance -> members ⊆ ag_members a -> members <> ∅ ->
    astep id op (Some a) (Some (mkAGroup GroupStatePreparingRebalance (ag_gen a) (ag_leader a) members ∅))
| A_rebalance op a members :
    ag_state a = GroupStateStable -> members ⊆ ag_members a -> members <> ∅ ->
    astep id op (Some a) (Some (mkAGroup GroupStatePreparingRebalance (bump (ag_gen a)) (ag_leader a) members ∅))
| A_empty op a :
    astep id op (Some a) (Some (mkAGroup GroupStateEmpty (ag_gen a) (ag_leader a) ∅ ∅))
| A_delete op a : ag_state a = GroupStateEmpty -> astep id op (Some a) None.

(** The states a group can be in. *)
Definition ainv (a : agroup) : Prop :=
  (ag_state a = GroupStateEmpty /\ ag_members a = ∅ /\ ag_given a = ∅)
  \/ (ag_state a = GroupStatePreparingRebalance /\ ag_members a <> ∅ /\ ag_given a = ∅)
  \/ (ag_state a = GroupStateStable /\ ag_members a <> ∅ /\ dom (ag_given a) ⊆ ag_members a).

Lemma give_dom members given l : dom given ⊆ members -> dom (fold_left (give members) l given) ⊆ members.
Proof.
  revert given. induction l as [|a l IH]; intros given Hd; [done|]. cbn [fold_left]. apply IH.
  unfold give. case_decide as Hin; [|done]. intros k [v Hk]%elem_of_dom.
  destruct (decide (k = ad_MemberID a)) as [->|Hne]; [done|].
  rewrite lookup_partial_alter_ne in Hk by done. apply Hd. apply elem_of_dom. by eexists.
Qed.

Lemma astep_inv id op a a' :
  astep id op a a' -> (forall x, a = Some x -> ainv x) -> forall x, a' = Some x -> ainv x.
Proof.
  intros Hs Ha x Hx. destruct Hs as [op a|now req a Hid He|now req a Hid He|now req a Hid He|now req a Hid Hg Hl Hm Hne
    |op a ms He Hms Hne|op a ms He Hms Hne|op a|op a He]; simplify_eq; [by apply Ha|..]; unfold ainv; cbn.
  - right. left. split; [done|]. split; [set_solver|done].
  - right. left. split; [done|]. split; [set_solver|done].
  - right. left. split; [done|]. split; [set_solver|done].
  - right. right. split; [done|]. split; [set_solver|]. apply give_dom.
    destruct (Ha a eq_refl) as [(_ & _ & ->)|[(_ & _ & ->)|(_ & _ & ?)]]; set_solver.
  - by right; left.
  - by right; left.
  - by left.
Qed.

Lemma ainv_empty a : ainv a -> ag_state a = GroupStateEmpty -> ag_members a = ∅ /\ ag_given a = ∅.
Proof. intros [(_ & ? & ?)|[(? & _)|(? & _)]] ?; [done|congruence..]. Qed.

Lemma ainv_preparing a : ainv a -> ag_state a = GroupStatePreparingRebalance -> ag_members a <> ∅ /\ ag_given a = ∅.
Proof. intros [(? & _)|[(_ & ? & ?)|(? & _)]] ?; [congruence|done|congruence]. Qed.

Lemma ainv_states a : ainv a -> ag_state a <> GroupStateCompletingRebalance /\ ag_state a <> GroupStateDead.
Proof. intros [(? & _)|[(? & _)|(? & _)]]; split; congruence. Qed.

(** ** The coordinator follows it *)

Lemma omap_insert_eq {A B} (f : A -> option B) (m : gmap bytes A) k x :
  omap f (<[k := x]> m) = partial_alter (fun _ => f x) k (omap f m).
Proof.
  apply map_eq. intros j. rewrite lookup_omap. destruct (decide (j = k)) as [->|Hne].
  - by rewrite lookup_insert_eq, lookup_partial_alter_eq.
  - by rewrite lookup_insert_ne, lookup_partial_alter_ne, lookup_omap by done.
Qed.

Lemma omap_insert_none {A B} (f : A -> option B) (m : gmap bytes A) k x :
  f x = None -> omap f m = ∅ -> omap f (<[k := x]> m) = ∅.
Proof.
  intros Hx Hm. rewrite omap_insert_eq, Hx, Hm. apply map_eq. intros j.
  destruct (decide (j = k)) as [->|]; [by rewrite lookup_partial_alter_eq|by rewrite lookup_partial_alter_ne].
Qed.

Lemma abs_clear g : abs (clearAssignments g) = mkAGroup (gm_State g) (gm_GenerationID g) (gm_LeaderID g) (dom (gm_Members g)) ∅.
Proof.
  unfold abs, clearAssignments. cbn. f_equal; [by rewrite dom_fmap_L|].
  apply map_eq. intros k. rewrite lookup_omap, lookup_fmap, lookup_empty. by destruct (gm_Members g !! k).
Qed.

Lemma abs_select g ps : abs (select_protocol g ps) = abs g.
Proof. unfold select_protocol. by destruct (gm_ProtocolName g), ps. Qed.

Lemma store_abs ms a :
  dom (store_assignment ms a) = dom ms
  /\ omap mm_AssignmentBytes (store_assignment ms a) = give (dom ms) (omap mm_AssignmentBytes ms) a.
Proof.
  unfold store_assignment, give. destruct (ms !! ad_MemberID a) as [m|] eqn:E.
  - assert (ad_MemberID a ∈ dom ms) as Hin by (apply elem_of_dom; by eexists). split; [rewrite dom_insert_L; set_solver|].
    rewrite decide_True by done. by rewrite omap_insert_eq.
  - split; [done|]. rewrite decide_False by (by apply not_elem_of_dom). done.
Qed.

Lemma store_all_abs l ms :
  dom (fold_left store_assignment l ms) = dom ms
  /\ omap mm_AssignmentBytes (fold_left store_assignment l ms) = fold_left (give (dom ms)) l (omap mm_AssignmentBytes ms).
Proof.
  revert ms. induction l as [|a l IH]; intros ms; [done|]. cbn [fold_left].
  destruct (store_abs ms a) as [Hd Ho]. destruct (IH (store_assignment ms a)) as [-> ->]. by rewrite Hd, Ho.
Qed.

Lemma abs_alter_state g k s :
  abs (set_members g (alter (fun m => set_member_state m s) k (gm_Members g))) = abs g.
Proof.
  unfold abs. cbn. f_equal; [by rewrite dom_alter_L|].
  apply map_eq. intros j. rewrite !lookup_omap. destruct (decide (j = k)) as [->|Hne].
  - rewrite lookup_alter_eq. by destruct (gm_Members g !! k).
  - by rewrite lookup_alter_ne.
Qed.

Lemma omap_subseteq_empty {A B} (f : A -> option B) (m m' : gmap bytes A) : m' ⊆ m -> omap f m = ∅ -> omap f m' = ∅.
Proof.
  intros Hs He. apply map_eq. intros k. rewrite lookup_omap, lookup_empty.
  destruct (m' !! k) as [x|] eqn:E; [simpl|done]. eapply lookup_weaken in E; [|exact Hs].
  assert (omap f m !! k = None) as Hk by (by rewrite He, lookup_empty). rewrite lookup_omap, E in Hk. done.
Qed.

Lemma removed_astep id op now g ms :
  ms ⊆ gm_Members g -> ainv (abs g) -> astep id op (Some (abs g)) (Some (abs (removed now (set_members g ms)))).
Proof.
  intros Hs Ha. unfold removed. cbn [gm_Members gm_State set_members]. case_bool_decide as He.
  - subst ms. unfold abs at 2. cbn. rewrite dom_empty_L. apply (A_empty id op (abs g)).
  - assert (dom ms ⊆ ag_members (abs g)) as Hd by (by apply subseteq_dom).
    assert (dom ms <> ∅) as Hne by (by rewrite dom_empty_iff_L).
    case_bool_decide as Hst.
    + rewrite abs_clear. cbn. by apply (A_rebalance id op (abs g)).
    + destruct Ha as [(H1 & H2 & H3)|[(H1 & H2 & H3)|(H1 & _)]]; [set_solver| |done].
      replace (abs (set_members g ms))
        with (mkAGroup GroupStatePreparingRebalance (ag_gen (abs g)) (ag_leader (abs g)) (dom ms) ∅); [by apply A_remove|].
      unfold abs. cbn in *. rewrite H1. f_equal. symmetry. by eapply omap_subseteq_empty.
Qed.

Section refinement.
Context {S E : Type} `{OffsetStorage S E}.
Context (range : forall V : Type, gmap bytes V -> list (bytes * V)).
Context (rangeP : forall V : Type, gmap Z V -> list (Z * V)).
Notation GC := (GroupCoordinator S).

(** The abstract view of a group. *)
Definition view (gc : GC) (id : bytes) : option agroup := abs <$> gc_groups gc !! id.

Definition views_inv (gc : GC) : Prop := forall id a, view gc id = Some a -> ainv a.

Lemma view_set gc id g id' : view (set_group gc id g) id' = if decide (id' = id) then Some (abs g) else view gc id'.
Proof.
  unfold view, set_group. cbn. case_decide as Hd; [subst; by rewrite lookup_insert_eq|by rewrite lookup_insert_ne].
Qed.

(** A handler that replaces one group and nothing else. *)
Lemma set_astep gc op id g id' :
  astep id op (view gc id) (Some (abs g)) -> astep id' op (view gc id') (view (set_group gc id g) id').
Proof. intros Hs. rewrite view_set. case_decide; [by subst|constructor]. Qed.

Lemma getGroup_view gc id g : getGroup gc id = Ok g -> view gc id = Some (abs g).
Proof. unfold getGroup, view. destruct (gc_groups gc !! id); [by intros [= ->]|done]. Qed.

Lemma join_astep now gc req id :
  views_inv gc -> astep id (OpJoin now req) (view gc id) (view (HandleJoinGroup range now gc req).2 id).
Proof.
  intros Hinv. unfold HandleJoinGroup. destruct (validateJoinRequest gc req); [constructor|]. cbn [snd].
  apply set_astep. unfold joined, getOrCreateGroup, view. rewrite abs_select. fold (member_of now req).
  set (mid := member_of now req). specialize (Hinv (jr_GroupID req)). unfold view in Hinv.
  assert (mm_AssignmentBytes (new_member now req mid) = None) as Hnew by (unfold new_member; by destruct (jr_Protocols req)).
  destruct (gc_groups gc !! jr_GroupID req) as [g|] eqn:Eg; cbn [fmap option_fmap option_map] in *.
  - specialize (Hinv _ eq_refl). unfold join_transition. cbn [gm_State set_members].
    destruct (gm_State g) eqn:Es; [| |by destruct (ainv_states _ Hinv) as [? _]| |by destruct (ainv_states _ Hinv) as [_ ?]].
    + destruct (ainv_empty _ Hinv Es) as [Hm Hg]. cbn in Hm, Hg. unfold abs at 2. cbn.
      rewrite omap_insert_none, dom_insert_L, Hm, (right_id_L ∅ (∪)) by done. by apply (A_first _ now req (Some (abs g))).
    + destruct (ainv_preparing _ Hinv Es) as [_ Hg]. cbn in Hg. unfold abs at 2. cbn.
      rewrite omap_insert_none, dom_insert_L, Es by done. by apply (A_join _ now req (abs g)).
    + rewrite abs_clear. cbn. rewrite dom_insert_L. by apply (A_rejoin _ now req (abs g)).
  - unfold join_transition, abs. cbn. rewrite omap_insert_none, dom_insert_L, dom_empty_L, (right_id_L ∅ (∪)) by done.
    by apply (A_first _ now req None).
Qed.

Lemma sync_astep now gc req id : astep id (OpSync now req) (view gc id) (view (HandleSyncGroup now gc req).2 id).
Proof.
  unfold HandleSyncGroup. destruct (getGroup gc (sr_GroupID req)) as [g|] eqn:Eg; [|constructor].
  apply getGroup_view in Eg. destruct (Z.eqb_spec (gm_GenerationID g) (sr_GenerationID req)) as [Hgen|]; [|constructor].
  cbn [negb]. destruct (gm_Members g !! sr_MemberID req) as [m|] eqn:Em; [|constructor].
  set (g2 := set_members _ _). replace (match _ with Some _ => _ | None => _ end).2 with (set_group gc (sr_GroupID req) g2)
    by (by destruct (gm_Members g2 !! sr_MemberID req ≫= mm_AssignmentBytes)).
  apply set_astep. rewrite Eg. unfold g2. rewrite abs_alter_state. unfold leader_sync.
  destruct (sr_Assignments req) as [|a l] eqn:Ea; [constructor|]. rewrite <- Ea. case_bool_decide as Hl; [|constructor].
  destruct (store_all_abs (sr_Assignments req) (gm_Members g)) as [Hd Ho].
  unfold abs at 2. cbn. rewrite Hd, Ho. apply (A_assign _ now req (abs g)); try done.
  - cbn. rewrite <- Hl. apply elem_of_dom. by eexists.
  - by rewrite Ea.
Qed.

Lemma heartbeat_astep now gc req id : astep id (OpHeartbeat now req) (view gc id) (view (HandleHeartbeat now gc req).2 id).
Proof.
  unfold HandleHeartbeat. destruct (getGroup gc (hr_GroupID req)) as [g|] eqn:Eg; [|constructor].
  apply getGroup_view in Eg. destruct (Z.eqb_spec (gm_GenerationID g) (hr_GenerationID req)); [|constructor].
  cbn [negb]. destruct (gm_Members g !! hr_MemberID req) as [m|] eqn:Em; [|constructor].
  case_bool_decide; [constructor|]. cbn [snd]. apply set_astep. rewrite Eg.
  replace (abs (set_members _ _)) with (abs g); [constructor|]. unfold abs. cbn. f_equal.
  - rewrite dom_insert_lookup_L; [done|by eexists].
  - rewrite omap_insert_eq. apply map_eq. intros k. destruct (decide (k = hr_MemberID req)) as [->|Hne].
    + by rewrite lookup_partial_alter_eq, lookup_omap, Em.
    + by rewrite lookup_partial_alter_ne.
Qed.

Lemma leave_astep now gc req id :
  views_inv gc -> astep id (OpLeave now req) (view gc id) (view (HandleLeaveGroup now gc req).2 id).
Proof.
  intros Hinv. unfold HandleLeaveGroup. destruct (getGroup gc (lr_GroupID req)) as [g|] eqn:Eg; [|constructor].
  apply getGroup_view in Eg. cbn [snd]. apply set_astep. rewrite Eg. apply removed_astep; [apply delete_subseteq|].
  by apply (Hinv (lr_GroupID req)).
Qed.

Lemma expire_astep now gc id :
  views_inv gc -> astep id (OpExpire now) (view gc id) (view (checkExpiredMembers now gc) id).
Proof.
  intros Hinv. specialize (Hinv id). unfold view, checkExpiredMembers in *. cbn [gc_groups]. rewrite lookup_fmap.
  destruct (gc_groups gc !! id) as [g|]; [cbn in *|constructor]. unfold expire_group. case_bool_decide as He.
  - replace (filter _ (gm_Members g)) with (gm_Members g); [destruct g; constructor|].
    symmetry. apply map_filter_id. intros k m Hm. cbn. apply not_true_is_false. intros Ht.
    assert ((filter (fun kv => expired now kv.2 = true) (gm_Members g)) !! k = Some m) as Hk
      by (by apply map_lookup_filter_Some).
    by rewrite He, lookup_empty in Hk.
  - apply removed_astep; [apply map_filter_subseteq|]. by apply Hinv.
Qed.

Lemma commit_groups now gc req : gc_groups (HandleOffsetCommit range rangeP now gc req).2 = gc_groups gc.
Proof.
  unfold HandleOffsetCommit. destruct (fold_left _ _ _) as [errs s].
  destruct (0 <=? cr_GenerationID req); [|done]. destruct (getGroup gc (cr_GroupID req)) as [g|]; [|done].
  by destruct (gm_Members g !! cr_MemberID req).
Qed.

Lemma delete_astep gc id id' :
  views_inv gc -> astep id' (OpDelete id) (view gc id') (view (delete_begin (E := E) gc id).2 id').
Proof.
  intros Hinv. unfold delete_begin. destruct (gc_groups gc !! id) as [g|] eqn:Eg; [|constructor].
  case_bool_decide as He; [|constructor]. unfold view. cbn. destruct (decide (id' = id)) as [->|Hne].
  - rewrite lookup_delete_eq, Eg. cbn. apply A_delete.
    destruct (Hinv id (abs g)) as [(? & _)|[(_ & Hm & _)|(_ & Hm & _)]]; [unfold view; by rewrite Eg|done|..];
      cbn in Hm; rewrite He in Hm; set_solver.
  - rewrite lookup_delete_ne by done. constructor.
Qed.

Lemma step_astep gc op id :
  views_inv gc -> astep id op (view gc id) (view (group_step range rangeP gc op) id).
Proof.
  intros Hinv. destruct op; cbn [group_step].
  - by apply join_astep.
  - apply sync_astep.
  - apply heartbeat_astep.
  - by apply leave_astep.
  - unfold view. rewrite commit_groups. constructor.
  - by apply expire_astep.
  - by apply delete_astep.
  - unfold delete_offsets. destruct (so_Delete (gc_storage gc) groupID). constructor.
Qed.

Lemma step_inv gc op : views_inv gc -> views_inv (group_step range rangeP gc op).
Proof. intros Hinv id. eapply astep_inv; [by apply step_astep|by apply Hinv]. Qed.

Lemma run_inv gc ops : views_inv gc -> views_inv (group_run range rangeP gc ops).
Proof. revert gc. induction ops as [|op ops IH]; intros gc Hinv; [done|]. by apply IH, step_inv. Qed.

Lemma new_inv (s : S) cfg : views_inv (NewGroupCoordinator s cfg).
Proof. intros id a. unfold view. cbn. by rewrite lookup_empty. Qed.

Lemma run_snoc gc ops op : group_run range rangeP gc (ops ++ [op]) = group_step range rangeP (group_run range rangeP gc ops) op.
Proof. unfold group_run. by rewrite fold_left_app. Qed.
End refinement.

(** ** Where an assignment comes from *)

(** The last entry for a member among a leader's assignments. *)
Definition assigned_in (l : list MemberAssignmentData) (mid : bytes) : option (option bytes) :=
  ad_Assignment <$> last (filter (fun a => ad_MemberID a = mid) l).

Lemma give_lookup members l given mid :
  mid ∈ members ->
  fold_left (give members) l given !! mid = match assigned_in l mid with Some x => x | None => given !! mid end.
Proof.
  intros Hin. unfold assigned_in. induction l as [|a l IH] using rev_ind; [done|].
  rewrite fold_left_app, filter_app. cbn [fold_left]. unfold give at 1. destruct (decide (ad_MemberID a = mid)) as [Heq|Hne]; [subst mid|].
  - rewrite decide_True by done. rewrite lookup_partial_alter_eq, filter_cons_True by done. cbn [filter list_filter].
    by rewrite last_snoc.
  - rewrite filter_cons_False, app_nil_r by done. rewrite <- IH. case_decide; [|done]. by rewrite lookup_partial_alter_ne.
Qed.

Lemma give_lookup_other members l given mid :
  mid ∉ members -> fold_left (give members) l given !! mid = given !! mid.
Proof.
  intros Hin. revert given. induction l as [|a l IH]; intros given; [done|]. cbn [fold_left]. rewrite IH.
  unfold give. case_decide as Hd; [|done]. rewrite lookup_partial_alter_ne; [done|]. congruence.
Qed.

Lemma prefix_snoc_case {A} (p l : list A) x : p `prefix_of` l ++ [x] -> p = l ++ [x] \/ p `prefix_of` l.
Proof.
  intros [k Hk]. destruct k as [|y k _] using rev_ind; [left; by rewrite app_nil_r in Hk|right].
  rewrite (assoc_L (++)) in Hk. apply app_inj_tail in Hk as [-> _]. by exists k.
Qed.

Section history.
Context {S E : Type} `{OffsetStorage S E}.
Context (range : forall V : Type, gmap bytes V -> list (bytes * V)).
Context (rangeP : forall V : Type, gmap Z V -> list (Z * V)).
Context (s0 : S) (cfg : CoordinatorConfig).
Notation after ops := (group_run range rangeP (NewGroupCoordinator s0 cfg) ops).

(** [mid] was given [bs] by the leader's request [req], in generation [gen], and the
    group has been stable in that generation since. *)
Definition given_by (ops : list group_op) (id mid : bytes) (gen : Z) (bs : bytes) : Prop :=
  exists pre now req post, ops = pre ++ OpSync now req :: post
    /\ sr_GroupID req = id /\ sr_GenerationID req = gen /\ assigned_in (sr_Assignments req) mid = Some (Some bs)
    /\ (exists a, view (after pre) id = Some a /\ sr_MemberID req = ag_leader a /\ ag_gen a = gen)
    /\ (forall post1, post1 `prefix_of` post ->
          exists a, view (after (pre ++ OpSync now req :: post1)) id = Some a
                    /\ ag_state a = GroupStateStable /\ ag_gen a = gen).

Lemma given_by_snoc ops op id mid gen bs a :
  given_by ops id mid gen bs -> view (after (ops ++ [op])) id = Some a ->
  ag_state a = GroupStateStable -> ag_gen a = gen -> given_by (ops ++ [op]) id mid gen bs.
Proof.
  intros (pre & now & req & post & -> & H1 & H2 & H3 & H4 & H5) Hv Hs Hg.
  exists pre, now, req, (post ++ [op]). split; [by rewrite <- (assoc_L (++))|]. repeat split; [done..|].
  intros post1 Hp. apply prefix_snoc_case in Hp as [->|Hp]; [|by apply H5].
  exists a. split; [|done]. rewrite <- Hv. by rewrite <- (assoc_L (++)).
Qed.

Lemma given_history ops id a mid bs :
  view (after ops) id = Some a -> ag_given a !! mid = Some bs -> given_by ops id mid (ag_gen a) bs.
Proof.
  revert a. induction ops as [|op ops IH] using rev_ind; intros a Hv Hg.
  { unfold view in Hv. cbn in Hv. by rewrite lookup_empty in Hv. }
  assert (ainv a) as Hi by (by apply (run_inv range rangeP _ _ (new_inv s0 cfg)) in Hv).
  assert (ag_state a = GroupStateStable) as Hst.
  { destruct Hi as [(_ & _ & He)|[(_ & _ & He)|(? & _)]]; [..|done]; by rewrite He, lookup_empty in Hg. }
  pose proof (step_astep range rangeP (after ops) op id (run_inv _ _ _ _ (new_inv s0 cfg))) as Hs.
  rewrite <- run_snoc, Hv in Hs. inversion Hs; subst; try (cbn in Hg; by rewrite lookup_empty in Hg).
  - eapply given_by_snoc; [by apply IH|done..].
  - cbn in Hg, Hst. destruct (decide (mid ∈ ag_members a0)) as [Hin|Hin].
    + rewrite give_lookup in Hg by done. destruct (assigned_in (sr_Assignments req) mid) as [x|] eqn:Ex.
      * subst x. exists ops, now, req, []. repeat split; [done..|by exists a0|].
        intros post1 ->%prefix_nil_inv. by eexists.
      * eapply (given_by_snoc ops); [by apply (IH a0)|done..].
    + rewrite give_lookup_other in Hg by done. eapply (given_by_snoc ops); [by apply (IH a0)|done..].
Qed.
End history.

(** ** Well-formed records *)

Definition wf_group (id : bytes) (g : GroupMetadata) : Prop :=
  gm_GroupID g = id /\ in_i32 (gm_GenerationID g)
  /\ forall mid m, gm_Members g !! mid = Some m -> mm_MemberID m = mid /\ mid <> [].

Definition wf_coordinator {S} (gc : GroupCoordinator S) : Prop :=
  forall id g, gc_groups gc !! id = Some g -> wf_group id g.

(** Changing the members only. *)
Lemma wf_set_members id g ms :
  wf_group id g -> (forall mid m, ms !! mid = Some m -> mm_MemberID m = mid /\ mid <> []) -> wf_group id (set_members g ms).
Proof. intros (H1 & H2 & _) Hm. by split. Qed.

Lemma wf_bump z : in_i32 (bump z).
Proof. unfold bump, in_i32. apply (wraps_range 32). lia. Qed.

Lemma wf_clear id g : wf_group id g -> wf_group id (clearAssignments g).
Proof.
  intros Hwf. pose proof Hwf as (_ & _ & Hm). apply wf_set_members; [done|]. intros mid m. rewrite lookup_fmap.
  destruct (gm_Members g !! mid) as [m0|] eqn:E; [|done]. intros [= <-]. by apply Hm in E.
Qed.

Lemma wf_removed id now g ms : wf_group id g -> ms ⊆ gm_Members g -> wf_group id (removed now (set_members g ms)).
Proof.
  intros Hwf Hs. assert (wf_group id (set_members g ms)) as (H1 & H2 & H3).
  { apply wf_set_members; [done|]. intros mid m Hm. eapply lookup_weaken in Hm; [|exact Hs]. by apply Hwf in Hm. }
  unfold removed. case_bool_decide; [done|]. case_bool_decide; [|done]. apply wf_clear.
  split; [done|]. split; [apply wf_bump|done].
Qed.

Lemma wf_store id g l :
  (forall mid m, g !! mid = Some m -> mm_MemberID m = mid /\ mid <> id) ->
  forall mid m, fold_left store_assignment l g !! mid = Some m -> mm_MemberID m = mid /\ mid <> id.
Proof.
  revert g. induction l as [|a l IH]; intros g Hg; [done|]. cbn [fold_left]. apply IH.
  unfold store_assignment. destruct (g !! ad_MemberID a) as [m0|] eqn:E; [|done].
  intros mid m. destruct (decide (mid = ad_MemberID a)) as [->|Hne].
  - rewrite lookup_insert_eq. intros [= <-]. by apply Hg in E.
  - rewrite lookup_insert_ne by done. apply Hg.
Qed.

Section well_formed.
Context {S E : Type} `{OffsetStorage S E}.
Context (range : forall V : Type, gmap bytes V -> list (bytes * V)).
Context (rangeP : forall V : Type, gmap Z V -> list (Z * V)).
Notation GC := (GroupCoordinator S).

Lemma wf_set_group (gc : GC) id g : wf_coordinator gc -> wf_group id g -> wf_coordinator (set_group gc id g).
Proof.
  intros Hc Hg id' g'. unfold set_group. cbn. destruct (decide (id' = id)) as [->|Hne].
  - rewrite lookup_insert_eq. by intros [= <-].
  - rewrite lookup_insert_ne by done. apply Hc.
Qed.

Lemma getGroup_wf (gc : GC) id g : wf_coordinator gc -> getGroup gc id = Ok g -> wf_group id g.
Proof. intros Hc. unfold getGroup. destruct (gc_groups gc !! id) eqn:Eg; [|done]. intros [= <-]. by apply Hc. Qed.

Lemma member_of_nonempty now req : member_of now req <> [].
Proof. unfold member_of. destruct (jr_MemberID req); [|done]. unfold generateMemberID. by destruct (jr_ClientID req). Qed.

Lemma wf_joined now (gc : GC) req : wf_coordinator gc -> wf_group (jr_GroupID req) (joined now gc req (member_of now req)).
Proof.
  intros Hc. unfold joined. set (g0 := getOrCreateGroup _ _ _ _). set (mid := member_of now req).
  assert (wf_group (jr_GroupID req) g0) as Hg0.
  { unfold g0, getOrCreateGroup. destruct (gc_groups gc !! jr_GroupID req) as [g|] eqn:Eg; [by apply Hc|].
    split; [done|]. split; [unfold in_i32; cbn; lia|]. intros mid' m. cbn. by rewrite lookup_empty. }
  assert (wf_group (jr_GroupID req) (set_members g0 (<[mid := new_member now req mid]> (gm_Members g0)))) as Hg1.
  { apply wf_set_members; [done|]. intros mid' m. destruct (decide (mid' = mid)) as [->|Hne].
    - rewrite lookup_insert_eq. intros [= <-]. split; [|apply member_of_nonempty].
      unfold new_member. by destruct (jr_Protocols req).
    - rewrite lookup_insert_ne by done. apply Hg0. }
  set (g1 := set_members _ _) in *. destruct Hg1 as (H1 & H2 & H3).
  assert (wf_group (jr_GroupID req) (join_transition now mid g1)) as (J1 & J2 & J3).
  { unfold join_transition. destruct (gm_State g1); try done.
    - split; [done|]. split; [apply wf_bump|done].
    - apply wf_clear. split; [done|]. split; [apply wf_bump|done]. }
  unfold select_protocol. by destruct (gm_ProtocolName _), (jr_Protocols req).
Qed.

Lemma wf_step (gc : GC) op : wf_coordinator gc -> wf_coordinator (group_step range rangeP gc op).
Proof.
  intros Hc. destruct op as [now req|now req|now req|now req|now req|now|id|id]; cbn [group_step].
  - unfold HandleJoinGroup. destruct (validateJoinRequest gc req); [done|]. apply wf_set_group; [done|]. by apply wf_joined.
  - unfold HandleSyncGroup. destruct (getGroup gc (sr_GroupID req)) as [g|] eqn:Eg; [|done].
    apply getGroup_wf in Eg; [|done]. destruct (negb _); [done|]. destruct (gm_Members g !! sr_MemberID req); [|done].
    assert (wf_group (sr_GroupID req) (leader_sync now g req)) as Hl.
    { unfold leader_sync. destruct (sr_Assignments req) as [|a l]; [done|]. case_bool_decide; [|done].
      destruct Eg as (G1 & G2 & G3). split; [done|]. split; [done|]. by apply (wf_store []). }
    set (g2 := set_members _ _). assert (wf_group (sr_GroupID req) g2) as Hg2.
    { apply wf_set_members; [done|]. intros mid m1. destruct (decide (mid = sr_MemberID req)) as [->|Hne].
      - rewrite lookup_alter_eq. destruct (gm_Members _ !! _) as [m0|] eqn:E0; [|done]. intros [= <-]. by apply Hl in E0.
      - rewrite lookup_alter_ne by done. apply Hl. }
    by destruct (_ ≫= mm_AssignmentBytes); apply wf_set_group.
  - unfold HandleHeartbeat. destruct (getGroup gc (hr_GroupID req)) as [g|] eqn:Eg; [|done].
    apply getGroup_wf in Eg; [|done]. destruct (negb _); [done|]. destruct (gm_Members g !! hr_MemberID req) as [m0|] eqn:E0; [|done].
    case_bool_decide; [done|]. apply wf_set_group; [done|]. apply wf_set_members; [done|]. intros mid m.
    destruct (decide (mid = hr_MemberID req)) as [->|Hne].
    + rewrite lookup_insert_eq. intros [= <-]. by apply Eg in E0.
    + rewrite lookup_insert_ne by done. apply Eg.
  - unfold HandleLeaveGroup. destruct (getGroup gc (lr_GroupID req)) as [g|] eqn:Eg; [|done].
    apply getGroup_wf in Eg; [|done]. apply wf_set_group; [done|]. apply wf_removed; [done|apply delete_subseteq].
  - unfold wf_coordinator. by rewrite commit_groups.
  - intros id g. unfold checkExpiredMembers. cbn. rewrite lookup_fmap. destruct (gc_groups gc !! id) as [g0|] eqn:Eg; [|done].
    intros [= <-]. apply Hc in Eg. unfold expire_group. case_bool_decide.
    + apply wf_set_members; [done|]. intros mid m [Hm _]%map_lookup_filter_Some. by apply Eg in Hm.
    + apply wf_removed; [done|]. apply map_filter_subseteq.
  - unfold delete_begin. destruct (gc_groups gc !! id) as [g0|] eqn:Eg; [|done]. case_bool_decide; [|done].
    intros id' g. cbn. intros [_ Hg]%lookup_delete_Some. by apply Hc.
  - unfold delete_offsets. by destruct (so_Delete (gc_storage gc) id).
Qed.

Lemma wf_run gc ops : wf_coordinator gc -> wf_coordinator (group_run range rangeP gc ops).
Proof. revert gc. induction ops as [|op ops IH]; intros gc Hc; [done|]. by apply IH, wf_step. Qed.

Lemma wf_new (s : S) cfg : wf_coordinator (NewGroupCoordinator s cfg).
Proof. intros id g. cbn. by rewrite lookup_empty. Qed.
End well_formed.

(** ** Offsets *)

Section offsets.
Context {S E : Type} `{OffsetStorageLaws S E}.
Context (now : Z) (cfg : CoordinatorConfig) (g : bytes).

(** What a commit stores. *)
Definition stored (d : OffsetCommitData) : OffsetAndMetadata :=
  mkOAM (cd_Offset d) (cd_Metadata d) now (expire_time now cfg) 0.

(** A code that says whether the offset is stored. *)
Definition reported (s : S) (t : bytes) (p : Z) (d : OffsetCommitData) (code : option Z) : Prop :=
  (code = Some ErrorCodeNone /\ so_at s g t p = Some (stored d)) \/ code = Some ErrorCodeUnknown.

Lemma commit_partitions_spec t l errs s errs' s' :
  NoDup l.*1 -> fold_left (commit_partition now cfg g t) l (errs, s) = (errs', s') ->
  (forall p d, (p, d) ∈ l -> reported s' t p d (errs' !! p))
  /\ (forall p, p ∉ l.*1 -> errs' !! p = errs !! p /\ so_at s' g t p = so_at s g t p)
  /\ (forall g' t' p, (g', t') <> (g, t) -> so_at s' g' t' p = so_at s g' t' p).
Proof.
  revert errs s. induction l as [|[p d] l IH]; intros errs s Hnd Hf.
  { injection Hf as <- <-. split; [intros p d Hin; by apply not_elem_of_nil in Hin|done]. }
  apply NoDup_cons in Hnd as [Hp Hnd]. cbn [fold_left] in Hf. unfold commit_partition at 2 in Hf. cbn [fst snd] in Hf, Hp.
  destruct (so_Store s g t p _) as [e s1] eqn:Es. destruct (IH _ _ Hnd Hf) as (I1 & I2 & I3).
  destruct (so_store _ _ _ _ _ _ _ Es) as (S1 & _ & S3). split; [|split].
  - intros p' d' [[= -> ->]|Hin]%elem_of_cons; [|by apply I1].
    destruct (I2 p Hp) as [-> Hat]. rewrite lookup_insert_eq. unfold reported. rewrite Hat.
    destruct e; [by right|left]. split; [done|]. by apply S1.
  - intros p' [Hne Hp']%not_elem_of_cons. destruct (I2 p' Hp') as [-> ->].
    rewrite lookup_insert_ne by done. split; [done|]. apply S3. cbn in Hne. congruence.
  - intros g' t' p' Hne. rewrite I3 by done. apply S3. congruence.
Qed.

Context (rangeP : forall V : Type, gmap Z V -> list (Z * V)).
Context (rangeP_perm : forall V (m : gmap Z V), rangeP V m ≡ₚ map_to_list m).

Lemma commit_topics_spec (l : list (bytes * gmap Z OffsetCommitData)) errs s errs' s' :
  NoDup l.*1 -> fold_left (commit_topic rangeP now cfg g) l (errs, s) = (errs', s') ->
  (forall t ps p d, (t, ps) ∈ l -> ps !! p = Some d -> reported s' t p d (lookup2 errs' t p))
  /\ (forall t ps p, (t, ps) ∈ l -> ps !! p = None -> lookup2 errs' t p = None /\ so_at s' g t p = so_at s g t p)
  /\ (forall t p, t ∉ l.*1 -> lookup2 errs' t p = lookup2 errs t p /\ so_at s' g t p = so_at s g t p)
  /\ (forall g' t p, g' <> g -> so_at s' g' t p = so_at s g' t p).
Proof using rangeP_perm.
  revert errs s. induction l as [|[t ps] l IH]; intros errs s Hnd Hf.
  { injection Hf as <- <-. split; [intros t ps p d Hin; by apply not_elem_of_nil in Hin|].
    split; [intros t ps p Hin; by apply not_elem_of_nil in Hin|done]. }
  apply NoDup_cons in Hnd as [Ht Hnd]. cbn [fold_left] in Hf. unfold commit_topic at 2 in Hf. cbn [fst snd] in Hf, Ht.
  destruct (fold_left (commit_partition now cfg g t) (rangeP _ ps) (∅, s)) as [pe s1] eqn:Ep.
  destruct (commit_partitions_spec t (rangeP _ ps) _ _ _ _ ltac:(rewrite rangeP_perm; apply NoDup_fst_map_to_list) Ep) as (P1 & P2 & P3).
  destruct (IH _ _ Hnd Hf) as (I1 & I2 & I3 & I4).
  assert (forall p, lookup2 errs' t p = pe !! p /\ so_at s' g t p = so_at s1 g t p) as Ht'.
  { intros p. destruct (I3 t p Ht) as [-> ->]. unfold lookup2. by rewrite lookup_insert_eq. }
  assert (forall p, p ∉ (rangeP _ ps).*1 <-> ps !! p = None) as Hk.
  { intros p. rewrite rangeP_perm. split.
    - intros Hn. destruct (ps !! p) as [d|] eqn:E1; [|done]. exfalso. apply Hn, list_elem_of_fmap.
      exists (p, d). split; [done|]. by apply elem_of_map_to_list.
    - intros Hn ([p' d] & -> & Hin)%list_elem_of_fmap. apply elem_of_map_to_list in Hin. cbn in Hn. congruence. }
  split; [|split; [|split]].
  - intros t' ps' p d [[= -> ->]|Hin]%elem_of_cons Hp; [|by eapply I1].
    unfold reported. destruct (Ht' p) as [-> ->]. apply P1. rewrite rangeP_perm. by apply elem_of_map_to_list.
  - intros t' ps' p [[= -> ->]|Hin]%elem_of_cons Hp.
    + destruct (Ht' p) as [-> ->]. destruct (P2 p) as [-> ->]; [by apply Hk|]. by rewrite lookup_empty.
    + destruct (I2 t' ps' p Hin Hp) as [-> ->]. split; [done|]. apply P3.
      intros [= ->]. apply Ht, list_elem_of_fmap. by exists (t, ps').
  - intros t' p [Hne Ht2]%not_elem_of_cons. destruct (I3 t' p Ht2) as [-> ->].
    unfold lookup2. rewrite lookup_insert_ne by done. split; [done|]. apply P3. cbn in Hne. congruence.
  - intros g' t' p Hne. rewrite I4 by done. apply P3. congruence.
Qed.
End offsets.

(** ** Claims *)

Section claims.
Context {S E : Type} `{OS : OffsetStorage S E}.
Context (range : forall V : Type, gmap bytes V -> list (bytes * V)).
Context (rangeP : forall V : Type, gmap Z V -> list (Z * V)).
Notation GC := (GroupCoordinator S).

(** C11: The coordinator refines the abstract group machine: after any sequence of
    operations of any clients, expiry sweeps and deletions, one more operation is, for
    each group, one step of the machine; and each registered group is well formed and in
    one of three states: empty, rebalancing with nobody holding an assignment, or stable
    with members only holding one. *)
Theorem coordinator_refines (s : S) cfg ops op id :
  let gc := group_run range rangeP (NewGroupCoordinator s cfg) ops in
  astep id op (view gc id) (view (group_step range rangeP gc op) id)
  /\ match gc_groups gc !! id with Some g => wf_group id g /\ ainv (abs g) | None => True end.
Proof.
  intros gc. pose proof (run_inv range rangeP _ ops (new_inv s cfg)) as Hinv. split; [by apply step_astep|].
  pose proof (wf_run range rangeP _ ops (wf_new s cfg)) as Hwf.
  destruct (gc_groups gc !! id) as [g|] eqn:Eg; [|done]. split; [by apply Hwf|].
  apply (Hinv id). unfold view. fold gc. by rewrite Eg.
Qed.

(** C12: A member is only ever handed an assignment of its own generation: when SyncGroup
    succeeds, the bytes it returns are what the leader of the group stored for that
    member, in the generation the request names, and the group has been stable in that
    generation ever since. *)
Theorem sync_returns_leaders_assignment (s : S) cfg ops now req bs gc' :
  HandleSyncGroup now (group_run range rangeP (NewGroupCoordinator s cfg) ops) req = (mkSyncResponse ErrorCodeNone bs, gc') ->
  exists b, bs = Some b
    /\ given_by range rangeP s cfg (ops ++ [OpSync now req]) (sr_GroupID req) (sr_MemberID req) (sr_GenerationID req) b.
Proof.
  intros Hs. set (gc := group_run range rangeP (NewGroupCoordinator s cfg) ops) in *.
  pose proof (run_snoc range rangeP (NewGroupCoordinator s cfg) ops (OpSync now req)) as Hrun. fold gc in Hrun. cbn in Hrun.
  rewrite Hs in Hrun. cbn [snd] in Hrun. unfold HandleSyncGroup in Hs.
  destruct (getGroup gc (sr_GroupID req)) as [g|code] eqn:Eg.
  2:{ exfalso. unfold getGroup in Eg. destruct (gc_groups gc !! sr_GroupID req); simplify_eq. }
  destruct (Z.eqb_spec (gm_GenerationID g) (sr_GenerationID req)) as [Hgen|]; [|by simplify_eq].
  destruct (gm_Members g !! sr_MemberID req) as [m|] eqn:Em; [|by simplify_eq]. cbn [negb] in Hs.
  set (g2 := set_members _ _) in Hs. destruct (gm_Members g2 !! sr_MemberID req ≫= mm_AssignmentBytes) as [b|] eqn:Eb; [|done].
  injection Hs as <- <-.
  exists b. split; [done|]. replace (sr_GenerationID req) with (ag_gen (abs g2)).
  - apply given_history; [rewrite Hrun; by rewrite view_set, decide_True|]. unfold abs. cbn [ag_given]. by rewrite lookup_omap.
  - unfold g2. cbn. rewrite <- Hgen. unfold leader_sync. destruct (sr_Assignments req); [done|]. by case_bool_decide.
Qed.

(** What the leader syncs reaches every member: after a sync of the leader, a member
    that syncs in the same generation gets the bytes the leader's request had for it, and
    the group is stable. *)
Theorem sync_delivers (gc : GC) now req g mid bs now' :
  gc_groups gc !! sr_GroupID req = Some g -> sr_GenerationID req = gm_GenerationID g ->
  sr_MemberID req = gm_LeaderID g -> gm_LeaderID g ∈ dom (gm_Members g) -> mid ∈ dom (gm_Members g) ->
  assigned_in (sr_Assignments req) mid = Some (Some bs) ->
  let gc1 := (HandleSyncGroup now gc req).2 in
  (ag_state <$> view gc1 (sr_GroupID req)) = Some GroupStateStable
  /\ (HandleSyncGroup now' gc1 (mkSyncRequest (sr_GroupID req) (gm_GenerationID g) mid [])).1
     = mkSyncResponse ErrorCodeNone (Some bs).
Proof.
  intros Hg Hgen Hl Hlm Hm Ha gc1.
  assert (sr_Assignments req <> []) as Hne by (intros He; by rewrite He in Ha).
  set (g1 := leader_sync now g req).
  set (g2 := set_members g1 (alter (fun m => set_member_state m MemberStateStable) (sr_MemberID req) (gm_Members g1))).
  assert (gc1 = set_group gc (sr_GroupID req) g2) as ->.
  { unfold gc1, HandleSyncGroup, getGroup. rewrite Hg, Hgen, Z.eqb_refl. cbn [negb]. rewrite <- Hl in Hlm.
    apply elem_of_dom in Hlm as [m ->]. fold g1 g2. by destruct (gm_Members g2 !! sr_MemberID req ≫= mm_AssignmentBytes). }
  assert (abs g2 = mkAGroup GroupStateStable (gm_GenerationID g) (gm_LeaderID g) (dom (gm_Members g))
                     (fold_left (give (dom (gm_Members g))) (sr_Assignments req) (omap mm_AssignmentBytes (gm_Members g)))) as Habs.
  { unfold g2. rewrite abs_alter_state. unfold g1, leader_sync. destruct (sr_Assignments req) as [|a l] eqn:Ea; [done|].
    rewrite bool_decide_eq_true_2 by done. destruct (store_all_abs (a :: l) (gm_Members g)) as [Hd Ho].
    unfold abs. cbn [gm_State gm_GenerationID gm_LeaderID gm_Members set_timestamp set_state set_members]. by rewrite Hd, Ho. }
  split; [by rewrite view_set, decide_True, Habs by done|].
  unfold HandleSyncGroup, getGroup. cbn [sr_GroupID sr_GenerationID sr_MemberID sr_Assignments set_group gc_groups].
  rewrite lookup_insert_eq. replace (gm_GenerationID g2) with (gm_GenerationID g) by (by apply (f_equal ag_gen) in Habs).
  rewrite Z.eqb_refl. cbn [negb]. apply (f_equal ag_members) in Habs as Hdom. cbn in Hdom.
  assert (omap mm_AssignmentBytes (gm_Members g2) !! mid = Some bs) as Hgiven.
  { apply (f_equal ag_given) in Habs. cbn [ag_given abs] in Habs. rewrite Habs, give_lookup by done. by rewrite Ha. }
  rewrite lookup_omap in Hgiven. destruct (gm_Members g2 !! mid) as [m|] eqn:Em; [|done].
  unfold leader_sync. cbn [sr_Assignments gm_Members set_members]. rewrite lookup_alter_eq, Em. simpl in Hgiven |- *.
  by rewrite Hgiven.
Qed.

(** Generations: while a group stays registered, an operation either keeps its
    generation or starts a rebalance, which is the only way to leave the other states for
    PreparingRebalance, adds one to the generation (as an [int32]) and leaves no member
    with an assignment; a group becomes stable within a generation; and only a member that
    joins is added. *)
Theorem generation_rule (s : S) cfg ops op id a a' :
  let gc := group_run range rangeP (NewGroupCoordinator s cfg) ops in
  view gc id = Some a -> view (group_step range rangeP gc op) id = Some a' ->
  (ag_gen a' = ag_gen a /\ (ag_state a' = GroupStatePreparingRebalance -> ag_state a = GroupStatePreparingRebalance)
   \/ ag_gen a' = bump (ag_gen a) /\ ag_state a <> GroupStatePreparingRebalance
      /\ ag_state a' = GroupStatePreparingRebalance /\ ag_given a' = ∅)
  /\ (forall mid, mid ∈ ag_members a' -> mid ∉ ag_members a ->
        exists now req, op = OpJoin now req /\ jr_GroupID req = id /\ mid = member_of now req).
Proof.
  intros gc Ha Ha'. pose proof (run_inv range rangeP _ ops (new_inv s cfg)) as Hinv. fold gc in Hinv.
  pose proof (step_astep range rangeP gc op id Hinv) as Hs. rewrite Ha, Ha' in Hs.
  inversion Hs; subst; cbn in *; (split; [first [by left|by right; split; [done|split; [congruence|done]]]|]);
    intros mid Hm Hn; first [by exists now, req; repeat split; set_solver|set_solver].
Qed.

(** A member that heartbeats in time stays: after a heartbeat is answered without an
    error, an expiry sweep within the member's session timeout keeps the member in the
    group, and keeps the group as it is when that holds for all its members. *)
Theorem heartbeat_keeps_member (gc : GC) now req gc1 now' :
  HandleHeartbeat now gc req = (ErrorCodeNone, gc1) ->
  (forall g m, gc_groups gc !! hr_GroupID req = Some g -> gm_Members g !! hr_MemberID req = Some m ->
     now' - now <= mm_SessionTimeoutMs m * 1000000 /\ now' - now < 2 ^ 63 /\ 0 <= now' - now) ->
  exists g, gc_groups (checkExpiredMembers now' gc1) !! hr_GroupID req = Some g /\ is_Some (gm_Members g !! hr_MemberID req).
Proof.
  unfold HandleHeartbeat, getGroup. intros Hh Ht. destruct (gc_groups gc !! hr_GroupID req) as [g|] eqn:Eg; [|done].
  destruct (negb _); [done|]. destruct (gm_Members g !! hr_MemberID req) as [m|] eqn:Em; [|done].
  case_bool_decide; [done|]. injection Hh as <-. destruct (Ht g m eq_refl Em) as (H1 & H2 & H3).
  unfold checkExpiredMembers. cbn [gc_groups set_group]. rewrite lookup_fmap, lookup_insert_eq. cbn. eexists. split; [reflexivity|].
  set (g1 := set_members _ _). assert (gm_Members g1 !! hr_MemberID req = Some (set_heartbeat m now)) as Hm1 by apply lookup_insert_eq.
  assert (filter (fun kv => expired now' kv.2 = false) (gm_Members g1) !! hr_MemberID req = Some (set_heartbeat m now)) as Hk.
  { apply map_lookup_filter_Some. split; [done|]. unfold expired, time_Sub. cbn. apply Z.ltb_ge. lia. }
  unfold expire_group. case_bool_decide; [by eexists|]. unfold removed. cbn [gm_Members set_members gm_State].
  case_bool_decide as He; [by rewrite He, lookup_empty in Hk|]. case_bool_decide; [|by eexists].
  unfold clearAssignments. cbn [gm_Members set_members set_timestamp next_generation set_state].
  rewrite lookup_fmap, Hk. by eexists.
Qed.

(** A group whose leader is gone while it rebalances never becomes stable again: no
    leader is elected until the group has been empty, so as long as somebody is in the
    group and the old leader does not come back under its own member ID, it stays in
    PreparingRebalance whatever the members send. *)
Theorem leaderless_never_stable (gc : GC) ops id a :
  views_inv gc -> view gc id = Some a -> ag_state a = GroupStatePreparingRebalance -> ag_leader a ∉ ag_members a ->
  (forall now req, OpJoin now req ∈ ops -> jr_GroupID req = id -> member_of now req <> ag_leader a) ->
  (forall pre, pre `prefix_of` ops ->
     exists a', view (group_run range rangeP gc pre) id = Some a' /\ ag_state a' <> GroupStateEmpty) ->
  exists a', view (group_run range rangeP gc ops) id = Some a'
    /\ ag_state a' = GroupStatePreparingRebalance /\ ag_leader a' = ag_leader a /\ ag_leader a ∉ ag_members a'.
Proof.
  intros Hinv Ha Hs Hl. induction ops as [|op ops IH] using rev_ind; intros Hj Hne; [by exists a|].
  destruct IH as (a1 & H1 & H2 & H3 & H4).
  { intros now req Hin. apply Hj. apply elem_of_app. by left. }
  { intros pre Hp. apply Hne. by apply prefix_app_r. }
  destruct (Hne (ops ++ [op])) as (a2 & Ha2 & Hs2); [done|]. rewrite Ha2.
  pose proof (step_astep range rangeP _ op id (run_inv range rangeP _ ops Hinv)) as Hst.
  rewrite <- run_snoc, H1, Ha2 in Hst. exists a2. split; [done|].
  inversion Hst; subst; cbn in *; try congruence; try (split; [done|]; split; [done|]; set_solver).
Qed.

(** Heartbeats do not count during a rebalance: while its group is preparing one, a
    member's heartbeat changes nothing, so a sweep later than its session timeout removes
    it however often it sent one. *)
Theorem rebalance_expires_heartbeating_member (gc : GC) req g m now now' :
  gc_groups gc !! hr_GroupID req = Some g -> gm_State g = GroupStatePreparingRebalance ->
  gm_GenerationID g = hr_GenerationID req -> gm_Members g !! hr_MemberID req = Some m -> expired now' m = true ->
  HandleHeartbeat now gc req = (ErrorCodeRebalanceInProgress, gc)
  /\ exists g', gc_groups (checkExpiredMembers now' (HandleHeartbeat now gc req).2) !! hr_GroupID req = Some g'
      /\ gm_Members g' !! hr_MemberID req = None.
Proof.
  intros Hg Hs Hgen Hm He.
  assert (HandleHeartbeat now gc req = (ErrorCodeRebalanceInProgress, gc)) as Hh.
  { unfold HandleHeartbeat, getGroup. rewrite Hg, Hgen, Z.eqb_refl. cbn [negb]. rewrite Hm. by rewrite bool_decide_eq_true_2. }
  split; [done|]. rewrite Hh. cbn [snd]. unfold checkExpiredMembers. cbn [gc_groups]. rewrite lookup_fmap, Hg. cbn.
  eexists. split; [reflexivity|]. unfold expire_group.
  assert (filter (fun kv => expired now' kv.2 = false) (gm_Members g) !! hr_MemberID req = None) as Hk.
  { apply map_lookup_filter_None. right. intros x Hx. cbn. congruence. }
  case_bool_decide; [done|]. unfold removed. cbn [gm_Members set_members gm_State].
  case_bool_decide; [done|]. by rewrite bool_decide_eq_false_2 by congruence.
Qed.
End claims.

Section offset_claims.
Context {S E : Type} `{OL : OffsetStorageLaws S E}.
Context (range : forall V : Type, gmap bytes V -> list (bytes * V)).
Context (rangeP : forall V : Type, gmap Z V -> list (Z * V)).
Context (range_perm : forall V (m : gmap bytes V), range V m ≡ₚ map_to_list m).
Context (rangeP_perm : forall V (m : gmap Z V), rangeP V m ≡ₚ map_to_list m).
Notation GC := (GroupCoordinator S).

(** The commit is not refused: it names no generation, or a member of the group. *)
Definition commit_allowed (gc : GC) (req : OffsetCommitRequest) : Prop :=
  cr_GenerationID req < 0
  \/ exists g, gc_groups gc !! cr_GroupID req = Some g /\ is_Some (gm_Members g !! cr_MemberID req).

Lemma fetch_data_spec (gc : GC) g t p :
  fetch_data gc g t p
  = match so_at (gc_storage gc) g t p with
    | None => mkFetchData (-1) [] ErrorCodeNone
    | Some o => mkFetchData (om_Offset o) (om_Metadata o) ErrorCodeNone
    end.
Proof. unfold fetch_data. rewrite so_fetch. by destruct (so_at (gc_storage gc) g t p). Qed.

Lemma commit_spec now (gc : GC) req :
  commit_allowed gc req ->
  let '(errs, gc1) := HandleOffsetCommit range rangeP now gc req in
  (forall t p d, lookup2 (cr_Offsets req) t p = Some d ->
     reported now (gc_config gc) (cr_GroupID req) (gc_storage gc1) t p d (lookup2 errs t p))
  /\ (forall g t p, g <> cr_GroupID req \/ lookup2 (cr_Offsets req) t p = None ->
        so_at (gc_storage gc1) g t p = so_at (gc_storage gc) g t p).
Proof using range_perm rangeP_perm.
  intros Hok. unfold HandleOffsetCommit.
  destruct (fold_left _ (range _ (cr_Offsets req)) _) as [errs s] eqn:Ef.
  match goal with |- let '(_, _) := ?x in _ => replace x with (errs, set_storage gc s) end.
  2:{ destruct Hok as [Hneg|(g & Hg & m & Hm)].
      - destruct (Z.leb_spec 0 (cr_GenerationID req)); [lia|done].
      - unfold getGroup. rewrite Hg, Hm. by destruct (0 <=? cr_GenerationID req). }
  destruct (commit_topics_spec now (gc_config gc) (cr_GroupID req) rangeP rangeP_perm (range _ (cr_Offsets req)) _ _ _ _
              ltac:(rewrite range_perm; apply NoDup_fst_map_to_list) Ef) as (C1 & C2 & C3 & C4).
  assert (forall t ps, (t, ps) ∈ range _ (cr_Offsets req) <-> cr_Offsets req !! t = Some ps) as Hr.
  { intros t ps. rewrite range_perm. apply elem_of_map_to_list. }
  cbn [gc_storage set_storage]. split.
  - intros t p d Hd. unfold lookup2 at 1 in Hd. destruct (cr_Offsets req !! t) as [ps|] eqn:Et; [|done].
    eapply C1; [by apply Hr|done].
  - intros g t p Hgt. destruct (decide (g = cr_GroupID req)) as [->|Hne]; [|by apply C4].
    destruct Hgt as [?|Hn]; [done|]. unfold lookup2 in Hn. destruct (cr_Offsets req !! t) as [ps|] eqn:Et.
    + eapply C2; [by apply Hr|done].
    + apply C3. rewrite range_perm. intros ([t' ps] & -> & Hin)%list_elem_of_fmap.
      apply elem_of_map_to_list in Hin. cbn in Et. congruence.
Qed.

(** Committed offsets are fetched back: after a commit that is not refused, over any
    storage that keeps its interface, each offset of the request is reported as stored and
    is what a fetch then returns, with its metadata, or is reported as failed; every other
    partition, of this and of every other group, is fetched as before. *)
Theorem commit_then_fetch now (gc : GC) req :
  commit_allowed gc req ->
  let '(errs, gc1) := HandleOffsetCommit range rangeP now gc req in
  (forall t p d, lookup2 (cr_Offsets req) t p = Some d ->
     (lookup2 errs t p = Some ErrorCodeNone
      /\ fetch_data gc1 (cr_GroupID req) t p = mkFetchData (cd_Offset d) (cd_Metadata d) ErrorCodeNone)
     \/ lookup2 errs t p = Some ErrorCodeUnknown)
  /\ (forall g t p, g <> cr_GroupID req \/ lookup2 (cr_Offsets req) t p = None ->
        fetch_data gc1 g t p = fetch_data gc g t p).
Proof using OL range_perm rangeP_perm.
  intros Hok. pose proof (commit_spec now gc req Hok) as Hc.
  destruct (HandleOffsetCommit range rangeP now gc req) as [errs gc1]. destruct Hc as [C1 C2]. split.
  - intros t p d Hd. destruct (C1 t p d Hd) as [[H1 H2]|H1]; [left|by right]. split; [done|].
    by rewrite fetch_data_spec, H2.
  - intros g t p Hgt. by rewrite !fetch_data_spec, C2.
Qed.

(** A refused commit stores nothing: when a generation is given and the group is
    unknown or the member is not in it, every offset of the request gets the error code
    and the coordinator is unchanged. *)
Theorem commit_refused now (gc : GC) req :
  ~ commit_allowed gc req ->
  HandleOffsetCommit range rangeP now gc req
  = (error_all (if gc_groups gc !! cr_GroupID req then ErrorCodeUnknownMemberID else ErrorCodeGroupIDNotFound) (cr_Offsets req), gc).
Proof.
  intros Hno. unfold HandleOffsetCommit. destruct (fold_left _ (range _ (cr_Offsets req)) _) as [errs s].
  destruct (Z.leb_spec 0 (cr_GenerationID req)) as [Hg|Hg]; [|destruct Hno; by left]. unfold getGroup.
  destruct (gc_groups gc !! cr_GroupID req) as [g|] eqn:Eg; [|done].
  destruct (gm_Members g !! cr_MemberID req) as [m|] eqn:Em; [|done].
  destruct Hno. right. exists g. split; [done|]. by rewrite Em.
Qed.
End offset_claims.

(** Assignment of a group's partitions: for a registered group of any reachable
    coordinator, [PerformAssignment] gives each partition with a subscriber in the group
    to exactly one member that subscribes to its topic, whatever the protocol's name. *)
Theorem PerformAssignment_valid {S E} `{OffsetStorage S E} (range : forall V : Type, gmap bytes V -> list (bytes * V))
    (rangeP : forall V : Type, gmap Z V -> list (Z * V)) (s : S) cfg ops id g partitions :
  (forall V (m : gmap bytes V), range V m ≡ₚ map_to_list m) ->
  let gc := group_run range rangeP (NewGroupCoordinator s cfg) ops in
  gc_groups gc !! id = Some g ->
  exists r, PerformAssignment range gc id partitions = Ok r
    /\ valid_assignment (buildMemberSubscriptions range g) partitions r
    /\ forall m, m ∈ dom r -> m ∈ dom (gm_Members g).
Proof.
  intros Hr gc Hg. destruct (wf_run range rangeP _ ops (wf_new s cfg) id g Hg) as (_ & _ & Hm).
  assert (forall mid, mid ∈ (ms_MemberID <$> buildMemberSubscriptions range g) <-> mid ∈ dom (gm_Members g)) as Hin.
  { intros mid. unfold buildMemberSubscriptions. rewrite <- list_fmap_compose, list_elem_of_fmap, elem_of_dom. split.
    - intros ([k m] & -> & Hk). rewrite Hr in Hk. apply elem_of_map_to_list in Hk. cbn.
      destruct (Hm k m Hk) as [-> _]. by exists m.
    - intros [m Hk]. exists (mid, m). split; [cbn; symmetry; by apply Hm|]. rewrite Hr. by apply elem_of_map_to_list. }
  unfold PerformAssignment, getGroup. rewrite Hg. eexists. split; [reflexivity|].
  assert (NoDup (ms_MemberID <$> buildMemberSubscriptions range g)) as Hnd.
  { assert (ms_MemberID <$> buildMemberSubscriptions range g = (range _ (gm_Members g)).*1) as ->.
    - unfold buildMemberSubscriptions. rewrite <- list_fmap_compose. apply list_fmap_ext. intros i [k m] Hi.
      apply list_elem_of_lookup_2 in Hi. rewrite Hr in Hi. apply elem_of_map_to_list in Hi. cbn. by apply Hm.
    - rewrite Hr. apply NoDup_fst_map_to_list. }
  pose proof (GetAssignor_valid range (gm_ProtocolName g) _ partitions Hr Hnd) as Hv. split; [done|].
  intros m [l Hl]%elem_of_dom. apply Hin, (va_members _ _ _ Hv). by eexists.
Qed.

(** ** A concrete history

    [a] and [b] join, [a] assigns, [c] joins. *)

Definition map_orderP (V : Type) (m : gmap Z V) : list (Z * V) := map_to_list m.
Definition gid : bytes := [x67].
Definition join_req (mid : bytes) : JoinGroupRequest :=
  mkJoinRequest gid 10000 60000 mid [x63] [] [mkProtocolMetadata [x72] (Some t0)].
Definition sync_req (gen : Z) (mid : bytes) (l : list MemberAssignmentData) : SyncGroupRequest := mkSyncRequest gid gen mid l.
Definition assignments_ab : list MemberAssignmentData := [mkAssignmentData id_a (Some [x01]); mkAssignmentData id_b (Some [x02])].
Definition ops_ab : list group_op :=
  [OpJoin 0 (join_req id_a); OpJoin 1 (join_req id_b); OpSync 2 (sync_req 1 id_a assignments_ab)].
Definition ops_abc : list group_op := ops_ab ++ [OpJoin 3 (join_req id_c)].
Definition gc_after (ops : list group_op) : GroupCoordinator MemoryOffsetStorage :=
  group_run map_order map_orderP (NewGroupCoordinator NewMemoryOffsetStorage DefaultCoordinatorConfig) ops.

Definition commit_req (gen : Z) (mid : bytes) (o : Z) : OffsetCommitRequest :=
  mkCommitRequest gid gen mid {[t0 := {[0 := mkCommitData o []]}]}.

Definition g_after (ops : list group_op) : GroupMetadata :=
  default (mkGroup [] GroupStateDead [] [] [] 0 ∅ 0 0 0) (gc_groups (gc_after ops) !! gid).

Lemma g_after_eq ops : bool_decide (is_Some (gc_groups (gc_after ops) !! gid)) = true -> gc_groups (gc_after ops) !! gid = Some (g_after ops).
Proof. intros [g Hg]%bool_decide_eq_true. unfold g_after. by rewrite Hg. Qed.

Lemma view_nonempty (gc : GroupCoordinator MemoryOffsetStorage) id :
  match view gc id with Some a => bool_decide (ag_state a <> GroupStateEmpty) | None => false end = true ->
  exists a, view gc id = Some a /\ ag_state a <> GroupStateEmpty.
Proof. destruct (view gc id) as [a|]; [|done]. intros Ha%bool_decide_eq_true. by exists a. Qed.

Definition ops_two : list group_op := [OpJoin 0 (join_req id_a); OpJoin 1 (join_req id_b)].

(** Evaluate a closed boolean. *)
Ltac by_eval := first [vm_compute; reflexivity | apply (bool_decide_unpack _); vm_compute; exact I].

Lemma sync_returns_leaders_assignment_witness :
  given_by map_order map_orderP NewMemoryOffsetStorage DefaultCoordinatorConfig
    (ops_ab ++ [OpSync 3 (sync_req 1 id_b [])]) gid id_b 1 [x02].
Proof.
  destruct (sync_returns_leaders_assignment map_order map_orderP NewMemoryOffsetStorage DefaultCoordinatorConfig
              ops_ab 3 (sync_req 1 id_b []) (Some [x02])
              (HandleSyncGroup 3 (gc_after ops_ab) (sync_req 1 id_b [])).2 ltac:(by_eval)) as (b & Hb & Hg).
  injection Hb as <-. exact Hg.
Defined.

Lemma sync_delivers_witness :
  (HandleSyncGroup 3 (HandleSyncGroup 2 (gc_after ops_two) (sync_req 1 id_a assignments_ab)).2
     (mkSyncRequest gid (gm_GenerationID (g_after ops_two)) id_b [])).1
  = mkSyncResponse ErrorCodeNone (Some [x02]).
Proof.
  apply (sync_delivers (gc_after ops_two) 2 (sync_req 1 id_a assignments_ab) (g_after ops_two) id_b [x02] 3);
    [apply g_after_eq|..]; by_eval.
Defined.

Lemma generation_rule_witness :
  let a := abs (g_after ops_ab) in let a' := abs (g_after ops_abc) in
  ag_gen a' = ag_gen a /\ (ag_state a' = GroupStatePreparingRebalance -> ag_state a = GroupStatePreparingRebalance)
  \/ ag_gen a' = bump (ag_gen a) /\ ag_state a <> GroupStatePreparingRebalance
     /\ ag_state a' = GroupStatePreparingRebalance /\ ag_given a' = ∅.
Proof.
  apply (generation_rule map_order map_orderP NewMemoryOffsetStorage DefaultCoordinatorConfig
              ops_ab (OpJoin 3 (join_req id_c)) gid (abs (g_after ops_ab)) (abs (g_after ops_abc))); by_eval.
Defined.

Lemma heartbeat_keeps_member_witness :
  exists g, gc_groups (checkExpiredMembers 5000000000 (HandleHeartbeat 10 (gc_after ops_ab) (mkHeartbeat gid 1 id_b)).2) !! gid = Some g
    /\ is_Some (gm_Members g !! id_b).
Proof.
  apply (heartbeat_keeps_member (gc_after ops_ab) 10 (mkHeartbeat gid 1 id_b)
           (HandleHeartbeat 10 (gc_after ops_ab) (mkHeartbeat gid 1 id_b)).2 5000000000); [by_eval|].
  cbn [hr_GroupID hr_MemberID]. intros g m Hg Hm. rewrite (g_after_eq ops_ab) in Hg by by_eval.
  injection Hg as <-. assert ((mm_SessionTimeoutMs <$> gm_Members (g_after ops_ab) !! id_b) = Some 10000) as Ht by by_eval.
  rewrite Hm in Ht. injection Ht as ->. lia.
Defined.

(** [a] leaves before it assigned; [b] syncs, heartbeats and rejoins, and [c] joins. *)
Definition ops_orphan : list group_op := ops_two ++ [OpLeave 2 (mkLeave gid id_a)].
Definition ops_wait : list group_op :=
  [OpSync 3 (sync_req 1 id_b [mkAssignmentData id_b (Some [x02])]); OpHeartbeat 4 (mkHeartbeat gid 1 id_b);
   OpJoin 5 (join_req id_b); OpJoin 6 (join_req id_c)].

Lemma leaderless_never_stable_witness :
  exists a', view (group_run map_order map_orderP (gc_after ops_orphan) ops_wait) gid = Some a'
    /\ ag_state a' = GroupStatePreparingRebalance /\ ag_leader a' = ag_leader (abs (g_after ops_orphan))
    /\ ag_leader (abs (g_after ops_orphan)) ∉ ag_members a'.
Proof.
  apply (leaderless_never_stable map_order map_orderP (gc_after ops_orphan) ops_wait gid (abs (g_after ops_orphan)));
    [apply run_inv, new_inv|by_eval|by_eval|by_eval|..].
  - intros now req Hin _. unfold ops_wait in Hin.
    repeat (apply elem_of_cons in Hin as [Hin|Hin]; [try discriminate Hin; injection Hin as -> ->; by_eval|]).
    by apply not_elem_of_nil in Hin.
  - intros pre Hp. assert (exists n, (n <= 4)%nat /\ pre = take n ops_wait) as (n & Hn & ->).
    { exists (length pre). pose proof (prefix_length _ _ Hp). destruct Hp as [k ->]. by rewrite take_app_length. }
    apply view_nonempty. do 5 (destruct n as [|n]; [by_eval|]). lia.
Defined.

Lemma rebalance_expires_heartbeating_member_witness :
  exists g', gc_groups (checkExpiredMembers 20000000000 (HandleHeartbeat 19000000000 (gc_after ops_orphan) (mkHeartbeat gid 1 id_b)).2) !! gid = Some g'
    /\ gm_Members g' !! id_b = None.
Proof.
  apply (rebalance_expires_heartbeating_member (gc_after ops_orphan) (mkHeartbeat gid 1 id_b) (g_after ops_orphan)
           (new_member 1 (join_req id_b) id_b) 19000000000 20000000000); [apply g_after_eq|..]; by_eval.
Defined.

Lemma commit_then_fetch_witness :
  let '(errs, gc1) := HandleOffsetCommit map_order map_orderP 9 (gc_after ops_ab) (commit_req 1 id_b 5) in
  (lookup2 errs t0 0 = Some ErrorCodeNone /\ fetch_data gc1 gid t0 0 = mkFetchData 5 [] ErrorCodeNone)
  \/ lookup2 errs t0 0 = Some ErrorCodeUnknown.
Proof.
  pose proof (commit_then_fetch map_order map_orderP map_order_perm (fun V m => reflexivity (map_to_list m)) 9
                (gc_after ops_ab) (commit_req 1 id_b 5)) as H.
  destruct (HandleOffsetCommit map_order map_orderP 9 (gc_after ops_ab) (commit_req 1 id_b 5)) as [errs gc1].
  destruct H as [H _]; [right; exists (g_after ops_ab); split; [apply g_after_eq|]; by_eval|].
  exact (H t0 0 (mkCommitData 5 []) ltac:(by_eval)).
Defined.

Lemma commit_refused_witness :
  HandleOffsetCommit map_order map_orderP 9 (gc_after ops_ab) (commit_req 1 id_c 5)
  = (error_all (if gc_groups (gc_after ops_ab) !! gid then ErrorCodeUnknownMemberID else ErrorCodeGroupIDNotFound)
       (cr_Offsets (commit_req 1 id_c 5)), gc_after ops_ab).
Proof.
  apply (commit_refused map_order map_orderP 9 (gc_after ops_ab) (commit_req 1 id_c 5)).
  intros [Hn|(g & Hg & Hm)]; [discriminate Hn|]. cbn [cr_GroupID cr_MemberID commit_req] in Hg, Hm.
  rewrite (g_after_eq ops_ab) in Hg by by_eval. injection Hg as <-. revert Hm. by_eval.
Defined.

Lemma PerformAssignment_valid_witness :
  exists r, PerformAssignment map_order (gc_after ops_abc) gid (parts 7) = Ok r
    /\ valid_assignment (buildMemberSubscriptions map_order (g_after ops_abc)) (parts 7) r
    /\ forall m, m ∈ dom r -> m ∈ dom (gm_Members (g_after ops_abc)).
Proof.
  apply (PerformAssignment_valid map_order map_orderP NewMemoryOffsetStorage DefaultCoordinatorConfig ops_abc gid (g_after ops_abc) (parts 7)
              map_order_perm). by_eval.
Defined.

(** The generation of a commit is not compared with the group's: after [c] joined and
    the group moved to generation 2, a commit of [b] that names generation 1 is accepted
    and fetched back. *)
Theorem stale_generation_commits :
  (ag_gen <$> view (gc_after ops_abc) gid) = Some 2
  /\ (let '(errs, gc) := HandleOffsetCommit map_order map_orderP 9 (gc_after ops_abc) (commit_req 1 id_b 5) in
      lookup2 errs t0 0 = Some ErrorCodeNone /\ fetch_data gc gid t0 0 = mkFetchData 5 [] ErrorCodeNone).
Proof. vm_compute. done. Qed.

(** Deleting a group is not atomic: a group created under the same name between the
    two halves of [DeleteGroup] loses the offsets it committed, which had been
    acknowledged. *)
Theorem delete_loses_new_commit :
  let gc1 := gc_after [OpJoin 0 (join_req id_a); OpLeave 1 (mkLeave gid id_a); OpDelete gid; OpJoin 2 (join_req id_b)] in
  let '(errs, gc2) := HandleOffsetCommit map_order map_orderP 3 gc1 (commit_req 2 id_b 5) in
  lookup2 errs t0 0 = Some ErrorCodeNone
  /\ fetch_data (group_step map_order map_orderP gc2 (OpDeleteOffsets gid)) gid t0 0 = mkFetchData (-1) [] ErrorCodeNone.
Proof. vm_compute. done. Qed.
