(* ===== verification/Handlers.v ===== *)
(** * Request handlers of the coordinators (pkg/server/coordination_handler.go,
      pkg/server/transaction_handler.go, pkg/broker/transaction_bridge.go)

    The handlers that route wire requests to the group and transaction coordinators and
    build the responses, and the committer that publishes a transaction's offsets to the
    groups.  A handler wraps another one, which is a parameter with a state of its own.  The
    transaction coordinator behind [Transaction_Handle] records the markers and the offsets that
    it asks to be written, and whether each call succeeds is a parameter; the committer itself is
    [CommitOffsets], which changes the groups. *)

From S2P Require Import Prelude GoBytes Record Wire Payloads Protocol Txn Assignor Offsets Group.
From stdpp Require Import prelude list sorting gmap.
From Stdlib Require Import ZArith Lia Strings.Byte Strings.String.

Open Scope Z_scope.
#[local] Notation length := Datatypes.length.

Definition text (s : string) : bytes := String.list_byte_of_string s.

(** ** Responses *)

Definition okResponse (requestID : Z) (payload : coordPayload) : Response :=
  mkResponse (mkRespHeader requestID StatusOK 0) (SCoord payload).

Definition coordinationError (requestID code : Z) (message : bytes) : Response :=
  mkResponse (mkRespHeader requestID StatusError code) (SError (mkErrorResponse code message)).

Definition badRequest (requestID : Z) (expected : string) : Response :=
  coordinationError requestID Proto.ErrInvalidRequest
    (text "payload does not match request type: expected " ++ text expected).

(** [OffsetNoCommittedValue] of coordination.go. *)
Definition OffsetNoCommittedValue : Z := -1.

Definition groupErrorToProtocol (code : Z) : Z :=
  if code =? ErrorCodeNone then Proto.ErrNone
  else if code =? ErrorCodeIllegalGeneration then Proto.ErrIllegalGeneration
  else if code =? ErrorCodeUnknownMemberID then Proto.ErrUnknownMemberID
  else if code =? ErrorCodeRebalanceInProgress then Proto.ErrRebalanceInProgress
  else if code =? ErrorCodeInvalidSessionTimeout then Proto.ErrInvalidSessionTimeout
  else if code =? ErrorCodeGroupIDNotFound then Proto.ErrUnknownConsumerGroupID
  else if code =? ErrorCodeGroupAuthorizationFailed then Proto.ErrGroupAuthorizationFailed
  else Proto.ErrInvalidRequest.

Definition txnErrorToProtocol (code : ErrorCode) : Z :=
  match code with
  | ErrorNone => Proto.ErrNone
  | ErrorInvalidProducerEpoch => Proto.ErrInvalidProducerEpoch
  | ErrorInvalidTransactionState => Proto.ErrInvalidTransactionState
  | ErrorInvalidProducerIDMapping => Proto.ErrInvalidProducerIDMapping
  | ErrorTransactionCoordinatorNotAvailable => Proto.ErrTransactionCoordinatorNotAvailable
  | ErrorTransactionCoordinatorFenced => Proto.ErrTransactionCoordinatorFenced
  | ErrorProducerFenced => Proto.ErrProducerFenced
  | ErrorInvalidTransactionTimeout => Proto.ErrInvalidTransactionTimeout
  | ErrorConcurrentTransactions => Proto.ErrConcurrentTransactions
  | ErrorTransactionAborted => Proto.ErrTransactionAborted
  | ErrorInvalidPartitionList => Proto.ErrInvalidPartitionList
  end.

(** The nested map built from the topics of a commit: a topic listed again replaces
    what was there, and so does a partition listed again within its topic. *)
Definition offsets_of {D} (mk : OffsetCommitPartition -> D) (topics : list OffsetCommitTopic) : gmap bytes (gmap Z D) :=
  fold_left (fun m t => <[oct_Topic t := fold_left (fun pm p => <[ocp_Partition p := mk p]> pm) (oct_Partitions t) ∅]> m) topics ∅.

(** The results in the order of the request; a missing entry is the zero value. *)
Definition commit_results {C} (to_protocol : C -> Z) (zero : C) (errors : gmap bytes (gmap Z C)) (topics : list OffsetCommitTopic)
    : list OffsetCommitTopicResult :=
  (fun t => mkOffsetCommitTopicResult (oct_Topic t)
     ((fun p => mkOffsetCommitPartitionResult (ocp_Partition p)
                  (to_protocol (default zero (lookup2 errors (oct_Topic t) (ocp_Partition p))))) <$> oct_Partitions t)) <$> topics.

Definition toOffsetFetchPartition (partition : Z) (data : OffsetFetchData) : OffsetFetchPartition :=
  let offset := if (fd_ErrorCode data =? ErrorCodeNone) && (fd_Offset data <? 0) then OffsetNoCommittedValue else fd_Offset data in
  mkOffsetFetchPartition partition offset (fd_Metadata data) (groupErrorToProtocol (fd_ErrorCode data)).

Definition sortedTopicNames (offsets : gmap bytes (gmap Z OffsetFetchData)) : list bytes :=
  merge_sort bytes_le (map_to_list offsets).*1.

Definition sortedPartitionIDs (partitions : gmap Z OffsetFetchData) : list Z := merge_sort Z.le (map_to_list partitions).*1.

(** A missing entry of a Go map is the zero value. *)
Definition zero_fetch : OffsetFetchData := mkFetchData 0 [] 0.

Definition buildOffsetFetchTopics (requested : list OffsetFetchTopic) (result : gmap bytes (gmap Z OffsetFetchData))
    : list OffsetFetchTopicResult :=
  match requested with
  | [] =>
      (fun name =>
         let fetched := default ∅ (result !! name) in
         mkOffsetFetchTopicResult name
           ((fun p => toOffsetFetchPartition p (default zero_fetch (fetched !! p))) <$> sortedPartitionIDs fetched))
      <$> sortedTopicNames result
  | _ =>
      (fun t =>
         mkOffsetFetchTopicResult (oft_Topic t)
           ((fun p => toOffsetFetchPartition p (default zero_fetch (lookup2 result (oft_Topic t) p))) <$> oft_Partitions t))
      <$> requested
  end.

(** ** Consumer groups *)

Section coordination.
Context {S E B : Type} `{OffsetStorage S E}.
Context (range : forall V : Type, gmap bytes V -> list (bytes * V)).
Context (rangeP : forall V : Type, gmap Z V -> list (Z * V)).
Context (error_text : E -> bytes).
Context (base : Z -> B -> Request -> Response * B).

(** [FindCoordinator] of a locator: node, host, port and error code. *)
Notation locator := (Z -> bytes -> Z * bytes * Z * Z).

Record CoordinationHandler := mkCoordinationHandler {
  ch_baseHandler : B;
  ch_coordinator : option (GroupCoordinator S);
  ch_locator : option locator
}.

Definition set_coordinator (h : CoordinationHandler) (gc : GroupCoordinator S) : CoordinationHandler :=
  mkCoordinationHandler (ch_baseHandler h) (Some gc) (ch_locator h).

(** The part every handler shares: no coordinator, or a payload of another type. *)
Definition group_request {P} (h : CoordinationHandler) (req : Request) (expected : string)
    (cast : RequestPayload -> option P) (serve : GroupCoordinator S -> P -> Response * CoordinationHandler)
    : Response * CoordinationHandler :=
  let id := rh_RequestID (rq_Header req) in
  match ch_coordinator h with
  | None => (coordinationError id Proto.ErrNotCoordinator (text "this broker is not a consumer group coordinator"), h)
  | Some gc =>
      match cast (rq_Payload req) with
      | None => (badRequest id expected, h)
      | Some p => serve gc p
      end
  end.

Definition handleJoinGroup (now : Z) (h : CoordinationHandler) (req : Request) : Response * CoordinationHandler :=
  group_request h req "JoinGroupRequest" (fun p => match p with QCoord (PJoinGroupRequest p) => Some p | _ => None end)
    (fun gc payload =>
       let '(r, gc) := HandleJoinGroup range now gc
         (mkJoinRequest (jgr_GroupID payload) (jgr_SessionTimeoutMs payload) (jgr_RebalanceTimeoutMs payload)
            (jgr_MemberID payload) (jgr_ClientID payload) (jgr_ProtocolType payload)
            ((fun p => mkProtocolMetadata (gp_Name p) (gp_Metadata p)) <$> jgr_Protocols payload)) in
       (okResponse (rh_RequestID (rq_Header req)) (PJoinGroupResponse
          (mkJoinGroupResponse (groupErrorToProtocol (js_ErrorCode r)) (js_GenerationID r) (js_ProtocolName r)
             (js_MemberID r) (js_LeaderID r) ((fun m => mkJoinGroupMember (jm_MemberID m) (jm_Metadata m)) <$> js_Members r))),
        set_coordinator h gc)).

Definition handleSyncGroup (now : Z) (h : CoordinationHandler) (req : Request) : Response * CoordinationHandler :=
  group_request h req "SyncGroupRequest" (fun p => match p with QCoord (PSyncGroupRequest p) => Some p | _ => None end)
    (fun gc payload =>
       let '(r, gc) := HandleSyncGroup now gc
         (mkSyncRequest (sgr_GroupID payload) (sgr_GenerationID payload) (sgr_MemberID payload)
            ((fun a => mkAssignmentData (sga_MemberID a) (sga_Assignment a)) <$> sgr_Assignments payload)) in
       (okResponse (rh_RequestID (rq_Header req))
          (PSyncGroupResponse (mkSyncGroupResponse (groupErrorToProtocol (ss_ErrorCode r)) (ss_Assignment r))),
        set_coordinator h gc)).

Definition handleHeartbeat (now : Z) (h : CoordinationHandler) (req : Request) : Response * CoordinationHandler :=
  group_request h req "HeartbeatRequest" (fun p => match p with QCoord (PHeartbeatRequest p) => Some p | _ => None end)
    (fun gc payload =>
       let '(code, gc) := HandleHeartbeat now gc (mkHeartbeat (hbr_GroupID payload) (hbr_GenerationID payload) (hbr_MemberID payload)) in
       (okResponse (rh_RequestID (rq_Header req)) (PHeartbeatResponse (mkHeartbeatResponse (groupErrorToProtocol code))),
        set_coordinator h gc)).

Definition handleLeaveGroup (now : Z) (h : CoordinationHandler) (req : Request) : Response * CoordinationHandler :=
  group_request h req "LeaveGroupRequest" (fun p => match p with QCoord (PLeaveGroupRequest p) => Some p | _ => None end)
    (fun gc payload =>
       let '(code, gc) := HandleLeaveGroup now gc (mkLeave (lgr_GroupID payload) (lgr_MemberID payload)) in
       (okResponse (rh_RequestID (rq_Header req)) (PLeaveGroupResponse (mkLeaveGroupResponse (groupErrorToProtocol code))),
        set_coordinator h gc)).

Definition handleOffsetCommit (now : Z) (h : CoordinationHandler) (req : Request) : Response * CoordinationHandler :=
  group_request h req "OffsetCommitRequest" (fun p => match p with QCoord (POffsetCommitRequest p) => Some p | _ => None end)
    (fun gc payload =>
       let '(errors, gc) := HandleOffsetCommit range rangeP now gc
         (mkCommitRequest (ocr_GroupID payload) (ocr_GenerationID payload) (ocr_MemberID payload)
            (offsets_of (fun p => mkCommitData (ocp_Offset p) (ocp_Metadata p)) (ocr_Topics payload))) in
       (okResponse (rh_RequestID (rq_Header req)) (POffsetCommitResponse
          (mkOffsetCommitResponse (commit_results groupErrorToProtocol ErrorCodeNone errors (ocr_Topics payload)))),
        set_coordinator h gc)).

Definition handleOffsetFetch (h : CoordinationHandler) (req : Request) : Response * CoordinationHandler :=
  group_request h req "OffsetFetchRequest" (fun p => match p with QCoord (POffsetFetchRequest p) => Some p | _ => None end)
    (fun gc payload =>
       let topics := fold_left (fun m t => <[oft_Topic t := oft_Partitions t]> m) (ofr_Topics payload) ∅ in
       match HandleOffsetFetch gc (Group.mkFetchRequest (ofr_GroupID payload) topics) with
       | Err e => (coordinationError (rh_RequestID (rq_Header req)) Proto.ErrInvalidRequest (error_text e), h)
       | Ok result =>
           (okResponse (rh_RequestID (rq_Header req))
              (POffsetFetchResponse (mkOffsetFetchResponse (buildOffsetFetchTopics (ofr_Topics payload) result))), h)
       end).

Definition handleFindCoordinator (h : CoordinationHandler) (req : Request) : Response * CoordinationHandler :=
  let id := rh_RequestID (rq_Header req) in
  match rq_Payload req with
  | QCoord (PFindCoordinatorRequest payload) =>
      match ch_locator h with
      | None => (okResponse id (PFindCoordinatorResponse (mkFindCoordinatorResponse Proto.ErrNotCoordinator 0 [] 0)), h)
      | Some find =>
          let '(nodeID, host, port, errCode) := find (fcr_KeyType payload) (fcr_Key payload) in
          (okResponse id (PFindCoordinatorResponse (mkFindCoordinatorResponse errCode nodeID host port)), h)
      end
  | _ => (badRequest id "FindCoordinatorRequest", h)
  end.

Definition Coordination_Handle (now : Z) (h : CoordinationHandler) (req : Request) : Response * CoordinationHandler :=
  let t := rh_Type (rq_Header req) in
  if t =? RequestTypeJoinGroup then handleJoinGroup now h req
  else if t =? RequestTypeSyncGroup then handleSyncGroup now h req
  else if t =? RequestTypeHeartbeat then handleHeartbeat now h req
  else if t =? RequestTypeLeaveGroup then handleLeaveGroup now h req
  else if t =? RequestTypeOffsetCommit then handleOffsetCommit now h req
  else if t =? RequestTypeOffsetFetch then handleOffsetFetch h req
  else if t =? RequestTypeFindCoordinator then handleFindCoordinator h req
  else let '(resp, b) := base now (ch_baseHandler h) req in
       (resp, mkCoordinationHandler b (ch_coordinator h) (ch_locator h)).
End coordination.

(** ** Transactions *)

Section transactions.
Context {B : Type}.
Context (order : list Z -> list Z) (call_ok : nat -> bool).
Context (base : Z -> B -> Request -> Response * B).

Record TransactionHandler := mkTransactionHandler { th_baseHandler : B; th_coordinator : option TransactionCoordinator }.

Definition set_txn (h : TransactionHandler) (tc : TransactionCoordinator) : TransactionHandler :=
  mkTransactionHandler (th_baseHandler h) (Some tc).

Definition txn_request {P} (h : TransactionHandler) (req : Request) (expected : string)
    (cast : RequestPayload -> option P) (serve : TransactionCoordinator -> P -> Response * TransactionHandler)
    : Response * TransactionHandler :=
  let id := rh_RequestID (rq_Header req) in
  match th_coordinator h with
  | None => (coordinationError id Proto.ErrTransactionCoordinatorNotAvailable (text "this broker is not a transaction coordinator"), h)
  | Some tc =>
      match cast (rq_Payload req) with
      | None => (badRequest id expected, h)
      | Some p => serve tc p
      end
  end.

(** The message of the error of [validateProducer]. *)
Definition producer_error (tc : TransactionCoordinator) (producerID epoch : Z) : bytes :=
  match tc_producers tc !! producerID with
  | None => text "unknown producer ID: " ++ FormatInt producerID
  | Some p => text "producer epoch mismatch: expected " ++ FormatInt (pr_ProducerEpoch p) ++ text ", got " ++ FormatInt epoch
  end.

Definition handleInitProducerID (now : Z) (h : TransactionHandler) (req : Request) : Response * TransactionHandler :=
  txn_request h req "InitProducerIDRequest" (fun p => match p with QCoord (PInitProducerIDRequest p) => Some p | _ => None end)
    (fun tc payload =>
       let '((producerID, epoch, code), tc) :=
         InitProducerID tc order (ipr_TransactionID payload) (ipr_TransactionTimeoutMs payload * 1000000) now in
       (okResponse (rh_RequestID (rq_Header req))
          (PInitProducerIDResponse (mkInitProducerIDResponse producerID epoch (txnErrorToProtocol code))),
        set_txn h tc)).

Definition handleAddPartitionsToTxn (now : Z) (h : TransactionHandler) (req : Request) : Response * TransactionHandler :=
  txn_request h req "AddPartitionsToTxnRequest" (fun p => match p with QCoord (PAddPartitionsToTxnRequest p) => Some p | _ => None end)
    (fun tc payload =>
       let '((errors, failed), tc') :=
         AddPartitionsToTxn tc (apr_TransactionID payload) (apr_ProducerID payload) (apr_ProducerEpoch payload)
           ((fun p => mkPartition (Payloads.tp_Topic p) (Payloads.tp_Partition p)) <$> apr_Partitions payload) now in
       if failed : bool then
         (coordinationError (rh_RequestID (rq_Header req)) Proto.ErrInvalidRequest
            (producer_error tc (apr_ProducerID payload) (apr_ProducerEpoch payload)), set_txn h tc')
       else
         (okResponse (rh_RequestID (rq_Header req)) (PAddPartitionsToTxnResponse (mkAddPartitionsToTxnResponse
            ((fun p => mkTxnPartitionResult (Payloads.tp_Topic p) (Payloads.tp_Partition p)
                         (txnErrorToProtocol (default ErrorNone (lookup2 errors (Payloads.tp_Topic p) (Payloads.tp_Partition p)))))
             <$> apr_Partitions payload))),
          set_txn h tc')).

Definition handleAddOffsetsToTxn (now : Z) (h : TransactionHandler) (req : Request) : Response * TransactionHandler :=
  txn_request h req "AddOffsetsToTxnRequest" (fun p => match p with QCoord (PAddOffsetsToTxnRequest p) => Some p | _ => None end)
    (fun tc payload =>
       let '(code, tc) := AddOffsetsToTxn tc (aor_TransactionID payload) (aor_ProducerID payload) (aor_ProducerEpoch payload)
                            (aor_GroupID payload) now in
       (okResponse (rh_RequestID (rq_Header req)) (PAddOffsetsToTxnResponse (mkAddOffsetsToTxnResponse (txnErrorToProtocol code))),
        set_txn h tc)).

Definition handleTxnOffsetCommit (now : Z) (h : TransactionHandler) (req : Request) : Response * TransactionHandler :=
  txn_request h req "TxnOffsetCommitRequest" (fun p => match p with QCoord (PTxnOffsetCommitRequest p) => Some p | _ => None end)
    (fun tc payload =>
       let '(errors, tc) := TxnOffsetCommit tc (tor_TransactionID payload) (tor_GroupID payload)
                              (tor_ProducerID payload) (tor_ProducerEpoch payload)
                              (offsets_of (fun p => mkOffset (ocp_Offset p) (ocp_Metadata p)) (tor_Topics payload)) now in
       (okResponse (rh_RequestID (rq_Header req)) (PTxnOffsetCommitResponse (mkTxnOffsetCommitResponse
          (commit_results txnErrorToProtocol ErrorNone errors (tor_Topics payload)))),
        set_txn h tc)).

Definition handleEndTxn (now : Z) (h : TransactionHandler) (req : Request) : Response * TransactionHandler :=
  txn_request h req "EndTxnRequest" (fun p => match p with QCoord (PEndTxnRequest p) => Some p | _ => None end)
    (fun tc payload =>
       let '(code, tc) := EndTxn call_ok tc (etr_TransactionID payload) (etr_ProducerID payload) (etr_ProducerEpoch payload)
                            (etr_Commit payload) now in
       (okResponse (rh_RequestID (rq_Header req)) (PEndTxnResponse (mkEndTxnResponse (txnErrorToProtocol code))),
        set_txn h tc)).

Definition Transaction_Handle (now : Z) (h : TransactionHandler) (req : Request) : Response * TransactionHandler :=
  let t := rh_Type (rq_Header req) in
  if t =? RequestTypeInitProducerID then handleInitProducerID now h req
  else if t =? RequestTypeAddPartitionsToTxn then handleAddPartitionsToTxn now h req
  else if t =? RequestTypeAddOffsetsToTxn then handleAddOffsetsToTxn now h req
  else if t =? RequestTypeTxnOffsetCommit then handleTxnOffsetCommit now h req
  else if t =? RequestTypeEndTxn then handleEndTxn now h req
  else let '(resp, b) := base now (th_baseHandler h) req in (resp, mkTransactionHandler b (th_coordinator h)).
End transactions.

(** ** Publishing the offsets of a transaction *)

Section committer.
Context {S E : Type} `{OffsetStorage S E}.
Context (range : forall V : Type, gmap bytes V -> list (bytes * V)).
Context (rangeP : forall V : Type, gmap Z V -> list (Z * V)).

Inductive commit_failure := NoCoordinator | NoGroup | GroupCode (topic : bytes) (partition code : Z).

(** The first error code that ranging over the response meets. *)
Definition first_failure (errors : gmap bytes (gmap Z Z)) : option commit_failure :=
  head (mjoin ((fun '(t, ps) => (fun '(p, code) => GroupCode t p code) <$> filter (fun pc => pc.2 <> ErrorCodeNone) (rangeP _ ps))
                 <$> range _ errors)).

Definition CommitOffsets (now : Z) (coordinator : option (GroupCoordinator S)) (groupID : bytes) (offsets : offsets_map)
    : option commit_failure * option (GroupCoordinator S) :=
  match coordinator with
  | None => (Some NoCoordinator, None)
  | Some gc =>
      match groupID with
      | [] => (Some NoGroup, Some gc)
      | _ =>
          let converted : gmap bytes (gmap Z OffsetCommitData) :=
            (fun byPartition : gmap Z OffsetMetadata =>
               (fun o => mkCommitData (o_Offset o) (o_Metadata o)) <$> byPartition) <$> offsets in
          let '(errors, gc) := HandleOffsetCommit range rangeP now gc (mkCommitRequest groupID (-1) [] converted) in
          (first_failure errors, Some gc)
      end
  end.
End committer.
