(* ===== verification/HandlersSpec.v ===== *)
(** * What the coordinators' request handlers guarantee

    Errors stay errors, and offsets make the round trip through commit and fetch requests,
    or through a transaction, unless a request names a topic twice. *)

From S2P Require Import Prelude GoBytes Record Wire Payloads Protocol Txn Assignor Offsets Group GroupSpec Handlers StickySpec.
From stdpp Require Import prelude list sorting gmap.
From Stdlib Require Import ZArith Lia Strings.Byte Strings.String.

Open Scope Z_scope.
#[local] Notation length := Datatypes.length.

(** ** Errors *)

(** No error of a coordinator reaches a client as success: the mapping of error codes
    gives [ErrNone] for the success code only, for every code of either coordinator. *)
Theorem errors_stay_errors :
  (forall code, groupErrorToProtocol code = Proto.ErrNone <-> code = ErrorCodeNone)
  /\ (forall code, txnErrorToProtocol code = Proto.ErrNone <-> code = ErrorNone).
Proof.
  split; intros code.
  - unfold groupErrorToProtocol. split; [|by intros ->].
    repeat (match goal with |- context [?a =? ?b] => destruct (Z.eqb_spec a b) end; [done|]). done.
  - by destruct code.
Qed.

(** ** Offsets through the handlers *)

Lemma fold_insert_fresh {A K V} `{Countable K} (k : A -> K) (v : A -> V) l (m : gmap K V) j :
  j ∉ k <$> l -> fold_left (fun m x => <[k x := v x]> m) l m !! j = m !! j.
Proof.
  revert m. induction l as [|x l IH]; intros m Hj; [done|]. cbn [fold_left]. rewrite fmap_cons in Hj.
  apply not_elem_of_cons in Hj as [Hne Hj]. rewrite IH by done. by rewrite lookup_insert_ne.
Qed.

Lemma fold_insert_lookup {A K V} `{Countable K} (k : A -> K) (v : A -> V) l (m : gmap K V) x :
  NoDup (k <$> l) -> x ∈ l -> fold_left (fun m x => <[k x := v x]> m) l m !! k x = Some (v x).
Proof.
  revert m. induction l as [|y l IH]; intros m Hnd Hx; [by apply not_elem_of_nil in Hx|].
  rewrite fmap_cons in Hnd. apply NoDup_cons in Hnd as [Hy Hnd]. cbn [fold_left].
  apply elem_of_cons in Hx as [->|Hx]; [|by apply IH]. rewrite fold_insert_fresh by done. by rewrite lookup_insert_eq.
Qed.

(** A value that depends on the key only may be written twice. *)
Lemma fold_insert_same {K V} `{Countable K} (v : K -> V) l (m : gmap K V) k :
  k ∈ l -> fold_left (fun m x => <[x := v x]> m) l m !! k = Some (v k).
Proof.
  revert m. induction l as [|x l IH] using rev_ind; intros m Hk; [by apply not_elem_of_nil in Hk|].
  rewrite fold_left_app. cbn. apply elem_of_snoc in Hk. destruct (decide (k = x)) as [->|Hne].
  - by rewrite lookup_insert_eq.
  - rewrite lookup_insert_ne by done. apply IH. by destruct Hk.
Qed.

(** A request that names each topic once and each of its partitions once. *)
Definition distinct_topics (topics : list OffsetCommitTopic) : Prop :=
  NoDup (oct_Topic <$> topics) /\ Forall (fun t => NoDup (ocp_Partition <$> oct_Partitions t)) topics.

Lemma offsets_of_lookup {D} (mk : OffsetCommitPartition -> D) topics t p :
  distinct_topics topics -> t ∈ topics -> p ∈ oct_Partitions t ->
  lookup2 (offsets_of mk topics) (oct_Topic t) (ocp_Partition p) = Some (mk p).
Proof.
  intros [Hnd Hps] Ht Hp. unfold offsets_of, lookup2.
  rewrite (fold_insert_lookup oct_Topic
             (fun t => fold_left (fun pm p => <[ocp_Partition p := mk p]> pm) (oct_Partitions t) ∅)) by done.
  simpl. apply fold_insert_lookup; [|done]. rewrite Forall_forall in Hps. by apply Hps.
Qed.

Definition fetch_of (topics : list OffsetCommitTopic) : list OffsetFetchTopic :=
  (fun t => mkOffsetFetchTopic (oct_Topic t) (ocp_Partition <$> oct_Partitions t)) <$> topics.

(** The request to commit, and the one to fetch the same partitions. *)
Definition commit_request (id : Z) (payload : Payloads.OffsetCommitRequest) : Request :=
  mkRequest (mkReqHeader id RequestTypeOffsetCommit 1 0) (QCoord (POffsetCommitRequest payload)).
Definition fetch_request (id : Z) (group : bytes) (topics : list OffsetFetchTopic) : Request :=
  mkRequest (mkReqHeader id RequestTypeOffsetFetch 1 0)
    (QCoord (POffsetFetchRequest (mkOffsetFetchRequest group topics))).

Definition as_commit (payload : Payloads.OffsetCommitRequest) : Group.OffsetCommitRequest :=
  mkCommitRequest (ocr_GroupID payload) (ocr_GenerationID payload) (ocr_MemberID payload)
    (offsets_of (fun p => mkCommitData (ocp_Offset p) (ocp_Metadata p)) (ocr_Topics payload)).

Lemma buildOffsetFetchTopics_listed topics r :
  topics <> [] ->
  buildOffsetFetchTopics topics r
  = (fun t => mkOffsetFetchTopicResult (oft_Topic t)
       ((fun p => toOffsetFetchPartition p (default zero_fetch (lookup2 r (oft_Topic t) p))) <$> oft_Partitions t)) <$> topics.
Proof. by destruct topics. Qed.

Section offsets.
Context {S E B : Type} `{OL : OffsetStorageLaws S E}.
Context (range : forall V : Type, gmap bytes V -> list (bytes * V)).
Context (rangeP : forall V : Type, gmap Z V -> list (Z * V)).
Context (range_perm : forall V (m : gmap bytes V), range V m ≡ₚ map_to_list m).
Context (rangeP_perm : forall V (m : gmap Z V), rangeP V m ≡ₚ map_to_list m).
Context (error_text : E -> bytes).
Context (base : Z -> B -> Request -> Response * B).
Notation Handle := (Coordination_Handle range rangeP error_text base).

Lemma commit_handled now (h : CoordinationHandler) gc id payload :
  ch_coordinator h = Some gc ->
  Handle now h (commit_request id payload)
  = (let '(errors, gc) := HandleOffsetCommit range rangeP now gc (as_commit payload) in
     (okResponse id (POffsetCommitResponse
        (mkOffsetCommitResponse (commit_results groupErrorToProtocol ErrorCodeNone errors (ocr_Topics payload)))),
      set_coordinator h gc)).
Proof. intros Hgc. unfold Coordination_Handle. cbn. unfold handleOffsetCommit, group_request. by rewrite Hgc. Qed.

(** What a fetch of listed partitions answers. *)
Lemma fetch_handled now (h : CoordinationHandler) gc id group topics :
  ch_coordinator h = Some gc -> topics <> [] -> NoDup (oft_Topic <$> topics) ->
  Handle now h (fetch_request id group topics)
  = (okResponse id (POffsetFetchResponse (mkOffsetFetchResponse
       ((fun t => mkOffsetFetchTopicResult (oft_Topic t)
           ((fun p => toOffsetFetchPartition p (fetch_data gc group (oft_Topic t) p)) <$> oft_Partitions t)) <$> topics))), h).
Proof.
  intros Hgc Hne Hnd. unfold Coordination_Handle. cbn. unfold handleOffsetFetch, group_request. rewrite Hgc. cbn [rq_Payload fetch_request].
  cbn zeta. unfold HandleOffsetFetch. cbn [fr_Topics fr_GroupID ofr_Topics ofr_GroupID].
  set (m := fold_left _ _ _). assert (forall t, t ∈ topics -> m !! oft_Topic t = Some (oft_Partitions t)) as Hm.
  { intros t Ht. unfold m. by apply (fold_insert_lookup oft_Topic oft_Partitions). }
  rewrite bool_decide_eq_false_2.
  2:{ destruct topics as [|t l]; [done|]. intros He. specialize (Hm t ltac:(left)). by rewrite He, lookup_empty in Hm. }
  rewrite buildOffsetFetchTopics_listed by done. do 4 f_equal. apply list_fmap_ext. intros i t Ht. apply list_elem_of_lookup_2 in Ht. f_equal. apply list_fmap_ext. intros j p Hp.
  apply list_elem_of_lookup_2 in Hp. f_equal. unfold lookup2. rewrite map_lookup_imap, (Hm t Ht). simpl.
  unfold fetch_topic. by rewrite (fold_insert_same (fetch_data gc group (oft_Topic t))).
Qed.

(** A storage that stores whatever it is given, as the one in memory does. *)
Definition never_fails : Prop := forall s g t p o, (so_Store (S := S) (E := E) s g t p o).1 = None.

Lemma commit_topic_none now cfg g st e : never_fails ->
  (forall t p c, lookup2 st.1 t p = Some c -> c = ErrorCodeNone) ->
  forall t p c, lookup2 (commit_topic rangeP now cfg g st e).1 t p = Some c -> c = ErrorCodeNone.
Proof.
  intros Hok Hst t p c. unfold commit_topic.
  assert (forall l (x : gmap Z Z * S), (forall p c, x.1 !! p = Some c -> c = ErrorCodeNone) ->
    forall p c, (fold_left (commit_partition now cfg g e.1) l x).1 !! p = Some c -> c = ErrorCodeNone) as Hf.
  { induction l as [|d l IH]; intros x Hx; [done|]. cbn [fold_left]. apply IH. intros p' c'. unfold commit_partition.
    destruct (so_Store _ _ _ _ _) as [err s] eqn:Es. pose proof (Hok x.2 g e.1 d.1 (mkOAM (cd_Offset d.2) (cd_Metadata d.2) now (expire_time now cfg) 0)) as Hn.
    rewrite Es in Hn. cbn in Hn. subst err. cbn [fst]. intros [[_ <-]|[_ Hi]]%lookup_insert_Some; [done|eauto]. }
  specialize (Hf (rangeP _ e.2) (∅, st.2)). destruct (fold_left _ _ _) as [errs s]. unfold lookup2. cbn [fst] in *.
  destruct (decide (e.1 = t)) as [->|Hne].
  - rewrite lookup_insert_eq. cbn. apply Hf. intros p' c'. by rewrite lookup_empty.
  - rewrite lookup_insert_ne by done. apply Hst.
Qed.

Lemma commit_no_errors now (gc : GroupCoordinator S) req : never_fails -> commit_allowed gc req ->
  forall t p c, lookup2 (HandleOffsetCommit range rangeP now gc req).1 t p = Some c -> c = ErrorCodeNone.
Proof.
  intros Hok Hal t p c. unfold HandleOffsetCommit.
  assert (forall l (x : gmap bytes (gmap Z Z) * S), (forall t p c, lookup2 x.1 t p = Some c -> c = ErrorCodeNone) ->
    forall t p c, lookup2 (fold_left (commit_topic rangeP now (gc_config gc) (cr_GroupID req)) l x).1 t p = Some c -> c = ErrorCodeNone) as Hf.
  { induction l as [|d l IH]; intros x Hx; [done|]. cbn [fold_left]. apply IH. by apply commit_topic_none. }
  specialize (Hf (range _ (cr_Offsets req)) (∅, gc_storage gc)). destruct (fold_left _ _ _) as [errs s]. cbn [fst] in Hf.
  assert (forall t p c, lookup2 (∅ : gmap bytes (gmap Z Z)) t p = Some c -> c = ErrorCodeNone) as H0.
  { intros t' p' c'. unfold lookup2. by rewrite lookup_empty. }
  specialize (Hf H0). destruct Hal as [Hneg|(g & Hg & m & Hm)].
  - destruct (Z.leb_spec 0 (cr_GenerationID req)); [lia|]. apply Hf.
  - unfold getGroup. rewrite Hg, Hm. destruct (0 <=? cr_GenerationID req); apply Hf.
Qed.

(** C21: Offsets make the round trip over the wire.  Take a commit request that names at
    least one topic, each topic and each of its partitions once, with offsets that are not
    negative, and that the group admits (it names no generation, or comes from a member
    of the group), over any offset storage that keeps its laws.  The response has a result for each partition in the order of the
    request; a result is success or the error of the storage, and all are success when the
    storage never fails; and a request to fetch the same partitions then answers, for each one
    reported as success, exactly the offset and the metadata committed. *)
Theorem wire_commit_fetch now now' (h : CoordinationHandler) gc payload id id' :
  ch_coordinator h = Some gc -> ocr_Topics payload <> [] -> distinct_topics (ocr_Topics payload) ->
  Forall (fun t => Forall (fun p => 0 <= ocp_Offset p) (oct_Partitions t)) (ocr_Topics payload) ->
  commit_allowed gc (as_commit payload) ->
  let '(resp, h1) := Handle now h (commit_request id payload) in
  let '(resp', _) := Handle now' h1 (fetch_request id' (ocr_GroupID payload) (fetch_of (ocr_Topics payload))) in
  exists result : bytes -> OffsetCommitPartition -> Z,
    resp = okResponse id (POffsetCommitResponse (mkOffsetCommitResponse
      ((fun t => mkOffsetCommitTopicResult (oct_Topic t)
         ((fun p => mkOffsetCommitPartitionResult (ocp_Partition p) (result (oct_Topic t) p)) <$> oct_Partitions t)) <$> ocr_Topics payload)))
    /\ exists fetched : bytes -> OffsetCommitPartition -> OffsetFetchPartition,
    resp' = okResponse id' (POffsetFetchResponse (mkOffsetFetchResponse
      ((fun t => mkOffsetFetchTopicResult (oct_Topic t) (fetched (oct_Topic t) <$> oct_Partitions t)) <$> ocr_Topics payload)))
    /\ forall t p, t ∈ ocr_Topics payload -> p ∈ oct_Partitions t ->
         (result (oct_Topic t) p = Proto.ErrNone
          /\ fetched (oct_Topic t) p = mkOffsetFetchPartition (ocp_Partition p) (ocp_Offset p) (ocp_Metadata p) Proto.ErrNone)
         \/ (result (oct_Topic t) p = Proto.ErrInvalidRequest /\ ~ never_fails).
Proof using OL range_perm rangeP_perm.
  intros Hgc Hne Hd Hpos Hok. rewrite (commit_handled now h gc id payload Hgc).
  pose proof (commit_spec range rangeP range_perm rangeP_perm now gc (as_commit payload) Hok) as Hc.
  pose proof (fun Hn => commit_no_errors now gc (as_commit payload) Hn Hok) as Hnf.
  destruct (HandleOffsetCommit range rangeP now gc (as_commit payload)) as [errors gc1]. destruct Hc as [Hc _].
  rewrite (fetch_handled now' _ gc1); [|done|unfold fetch_of; by destruct (ocr_Topics payload)|].
  2:{ unfold fetch_of. rewrite <- list_fmap_compose. apply Hd. }
  exists (fun t p => groupErrorToProtocol (default ErrorCodeNone (lookup2 errors t (ocp_Partition p)))).
  split; [done|].
  exists (fun t p => toOffsetFetchPartition (ocp_Partition p) (fetch_data gc1 (ocr_GroupID payload) t (ocp_Partition p))).
  split.
  { do 4 f_equal. unfold fetch_of. rewrite <- list_fmap_compose. apply list_fmap_ext. intros i t _. cbn. f_equal.
    by rewrite <- list_fmap_compose. }
  intros t p Ht Hp.
  destruct (Hc (oct_Topic t) (ocp_Partition p) _ (offsets_of_lookup _ _ t p Hd Ht Hp)) as [[-> Hat]|He]; [left|right].
  2:{ rewrite He. split; [done|]. intros Hn. by specialize (Hnf Hn _ _ _ He). }
  cbn. split; [done|]. rewrite fetch_data_spec. cbn in Hat. rewrite Hat. unfold toOffsetFetchPartition. cbn.
  rewrite Forall_forall in Hpos. specialize (Hpos t Ht). rewrite Forall_forall in Hpos. specialize (Hpos p Hp).
  destruct (Z.ltb_spec (ocp_Offset p) 0); [lia|done].
Qed.

Lemma first_failure_none errors :
  first_failure range rangeP errors = None <-> forall t p c, lookup2 errors t p = Some c -> c = ErrorCodeNone.
Proof using range_perm rangeP_perm.
  unfold first_failure. rewrite head_None. split.
  - intros Hf t p c He. unfold lookup2 in He. destruct (errors !! t) as [i|] eqn:Et; [simpl in He|done].
    destruct (decide (c = ErrorCodeNone)) as [|Hc]; [done|].
    assert (GroupCode t p c ∈ @nil commit_failure) as Hin; [|by apply not_elem_of_nil in Hin].
    rewrite <- Hf. apply list_elem_of_join. eexists. split; [|apply list_elem_of_fmap; exists (t, i); split; [reflexivity|]].
    + cbn. apply list_elem_of_fmap. exists (p, c). split; [done|]. apply list_elem_of_filter.
      split; [done|]. rewrite rangeP_perm. by apply elem_of_map_to_list.
    + rewrite range_perm. by apply elem_of_map_to_list.
  - intros Hall. destruct (mjoin _) as [|x l] eqn:El; [done|]. exfalso. assert (x ∈ x :: l) as Hx by left. rewrite <- El in Hx.
    apply list_elem_of_join in Hx as (ys & Hx & ([t i] & -> & Ht)%list_elem_of_fmap).
    apply list_elem_of_fmap in Hx as ([p c] & _ & [Hc Hp]%list_elem_of_filter). cbn in Hc, Hp.
    rewrite rangeP_perm in Hp. rewrite range_perm in Ht. apply elem_of_map_to_list in Hp, Ht. apply Hc, (Hall t p c).
    unfold lookup2. by rewrite Ht.
Qed.

(** C23: The offsets of a transaction are published as committed.  The committer that the
    broker gives to the transaction coordinator changes no other offset of the named group and
    none of any other group, whatever it reports; when it reports no error, every offset of the
    transaction, with its metadata, is what the group then fetches; and it reports none when the
    storage never fails.  A nameless group is refused and nothing changes. *)
Theorem transaction_offsets_published now (gc : GroupCoordinator S) groupID offsets :
  let '(err, gc') := CommitOffsets range rangeP now (Some gc) groupID offsets in
  exists gc1, gc' = Some gc1
  /\ (forall g t p, g <> groupID \/ lookup2 offsets t p = None -> fetch_data gc1 g t p = fetch_data gc g t p)
  /\ if decide (groupID = []) then err = Some NoGroup /\ gc1 = gc
     else (err = None -> forall t p o, lookup2 offsets t p = Some o ->
             fetch_data gc1 groupID t p = mkFetchData (o_Offset o) (o_Metadata o) ErrorCodeNone)
          /\ (never_fails -> err = None).
Proof using OL range_perm rangeP_perm.
  unfold CommitOffsets. destruct groupID as [|b groupID]; [by exists gc|].
  set (converted := fmap _ offsets). set (req := mkCommitRequest (b :: groupID) (-1) [] converted).
  assert (commit_allowed gc req) as Hal by (by left).
  pose proof (commit_spec range rangeP range_perm rangeP_perm now gc req Hal) as Hc.
  pose proof (fun Hn => commit_no_errors now gc req Hn Hal) as Hnf.
  destruct (HandleOffsetCommit range rangeP now gc req) as [errors gc1].
  destruct Hc as [C1 C2]. cbn [cr_GroupID cr_Offsets req fst] in *.
  assert (forall t p, lookup2 converted t p = (fun o => mkCommitData (o_Offset o) (o_Metadata o)) <$> lookup2 offsets t p) as Hconv.
  { intros t p. unfold lookup2, converted, offsets_map in *. rewrite lookup_fmap. destruct (offsets !! t) as [i|]; [simpl|done]. by rewrite lookup_fmap. }
  exists gc1. split; [done|]. split.
  { intros g t p Hg. rewrite !fetch_data_spec, C2; [done|]. destruct Hg as [?|Hn]; [by left|right]. by rewrite Hconv, Hn. }
  rewrite decide_False by done. split; [|intros Hn; by apply first_failure_none, Hnf].
  intros Hf t p o Ho. destruct (C1 t p (mkCommitData (o_Offset o) (o_Metadata o))) as [[_ Hat]|He].
  - by rewrite Hconv, Ho.
  - by rewrite fetch_data_spec, Hat.
  - by apply (proj1 (first_failure_none errors) Hf) in He.
Qed.
End offsets.

(** ** What goes wrong *)

Definition null_base (now : Z) (b : unit) (req : Request) : Response * unit :=
  (mkResponse (mkRespHeader (rh_RequestID (rq_Header req)) StatusError 1) (SError (mkErrorResponse 1 [])), b).

Definition ch_with (gc : GroupCoordinator MemoryOffsetStorage) : CoordinationHandler (S := MemoryOffsetStorage) (B := unit) :=
  mkCoordinationHandler tt (Some gc) None.

Notation serve_group := (Coordination_Handle map_order map_orderP (fun _ : unit => []) null_base).

Definition new_group : GroupCoordinator MemoryOffsetStorage := NewGroupCoordinator NewMemoryOffsetStorage Group.DefaultCoordinatorConfig.

(** A commit without a generation, of partition 0 and of partition 1, topic [t] twice. *)
Definition twice : Payloads.OffsetCommitRequest :=
  mkOffsetCommitRequest gid (-1) []
    [mkOffsetCommitTopic t0 [mkOffsetCommitPartition 0 5 []]; mkOffsetCommitTopic t0 [mkOffsetCommitPartition 1 7 []]].

(** A commit request that names a topic twice loses offsets it acknowledges: the
    second entry replaces the first in the map the handler builds, the missing result
    reads as success, and the offset of the first entry was not stored. *)
Theorem repeated_topic_commit_lost :
  let '(resp, h) := serve_group 0 (ch_with new_group) (commit_request 1 twice) in
  resp = okResponse 1 (POffsetCommitResponse (mkOffsetCommitResponse
           [mkOffsetCommitTopicResult t0 [mkOffsetCommitPartitionResult 0 Proto.ErrNone];
            mkOffsetCommitTopicResult t0 [mkOffsetCommitPartitionResult 1 Proto.ErrNone]]))
  /\ (serve_group 1 h (fetch_request 2 gid [mkOffsetFetchTopic t0 [0; 1]])).1
     = okResponse 2 (POffsetFetchResponse (mkOffsetFetchResponse
         [mkOffsetFetchTopicResult t0 [mkOffsetFetchPartition 0 OffsetNoCommittedValue [] Proto.ErrNone;
                                       mkOffsetFetchPartition 1 7 [] Proto.ErrNone]])).
Proof. vm_compute. done. Qed.

(** A fetch request that names a topic twice reports offset 0 where nothing was ever
    committed: the entry that is missing from the result reads as the zero value, not as
    [OffsetNoCommittedValue]. *)
Theorem repeated_topic_fetches_zero :
  (serve_group 0 (ch_with new_group) (fetch_request 1 gid [mkOffsetFetchTopic t0 [0]; mkOffsetFetchTopic t0 [1]])).1
  = okResponse 1 (POffsetFetchResponse (mkOffsetFetchResponse
      [mkOffsetFetchTopicResult t0 [mkOffsetFetchPartition 0 0 [] Proto.ErrNone];
       mkOffsetFetchTopicResult t0 [mkOffsetFetchPartition 1 OffsetNoCommittedValue [] Proto.ErrNone]])).
Proof. vm_compute. done. Qed.

(** A storage that stores as often as its counter says. *)
Definition flaky : Type := nat * MemoryOffsetStorage.
#[local] Instance flaky_storage : OffsetStorage flaky unit := {
  so_Store s g t p o := match s.1 with
                        | O => (Some tt, s)
                        | S n => (None, (n, (Memory_StoreOffset s.2 g t p o).2))
                        end;
  so_Fetch s := Memory_FetchOffset s.2;
  so_FetchAll s g := so_FetchAll s.2 g;
  so_Delete s g := let '(e, m) := so_Delete s.2 g in (e, (s.1, m))
}.

(** The committer of the broker stores partition by partition and reports the first error when it
    is done: the offset of partition 1 is published although the call failed, and the transaction
    coordinator still has it to publish. *)
Theorem failed_publish_is_partial :
  let gc := NewGroupCoordinator ((1%nat, NewMemoryOffsetStorage) : flaky) Group.DefaultCoordinatorConfig in
  let '(err, gc') := CommitOffsets map_order map_orderP 0 (Some gc) gid {[t0 := {[0 := mkOffset 9 []; 1 := mkOffset 4 []]}]} in
  err = Some (GroupCode t0 0 ErrorCodeUnknown)
  /\ option_map (fun gc => (fetch_data gc gid t0 0, fetch_data gc gid t0 1)) gc'
     = Some (mkFetchData (-1) [] ErrorCodeNone, mkFetchData 4 [] ErrorCodeNone).
Proof. vm_compute. split; reflexivity. Qed.

(** A fenced producer is not told so when it adds partitions: whatever is wrong with
    its id or epoch, AddPartitionsToTxn answers with a transport error and the code
    [ErrInvalidRequest], while AddOffsetsToTxn, TxnOffsetCommit and EndTxn answer
    [ErrProducerFenced]. *)
Theorem fenced_add_partitions_invalid {B} (base : Z -> B -> Request -> Response * B) order call_ok now
    (h : TransactionHandler) tc id payload commit :
  th_coordinator h = Some tc -> validateProducer tc (apr_ProducerID payload) (apr_ProducerEpoch payload) = false ->
  let code p := match rs_Payload (Transaction_Handle order call_ok base now h p).1 with
                | SError e => er_ErrorCode e
                | SCoord (PEndTxnResponse e) => ets_ErrorCode e
                | SCoord (PAddOffsetsToTxnResponse e) => aos_ErrorCode e
                | _ => -1
                end in
  code (mkRequest (mkReqHeader id RequestTypeAddPartitionsToTxn 1 0) (QCoord (PAddPartitionsToTxnRequest payload)))
    = Proto.ErrInvalidRequest
  /\ code (mkRequest (mkReqHeader id RequestTypeAddOffsetsToTxn 1 0) (QCoord (PAddOffsetsToTxnRequest
             (mkAddOffsetsToTxnRequest (apr_TransactionID payload) (apr_ProducerID payload) (apr_ProducerEpoch payload) []))))
     = Proto.ErrProducerFenced
  /\ code (mkRequest (mkReqHeader id RequestTypeEndTxn 1 0) (QCoord (PEndTxnRequest
             (mkEndTxnRequest (apr_TransactionID payload) (apr_ProducerID payload) (apr_ProducerEpoch payload) commit))))
     = Proto.ErrProducerFenced.
Proof.
  intros Htc Hv code. unfold code, Transaction_Handle. cbn.
  unfold handleAddPartitionsToTxn, handleAddOffsetsToTxn, handleEndTxn, txn_request. rewrite Htc. cbn.
  unfold AddPartitionsToTxn, AddOffsetsToTxn, EndTxn. rewrite Hv. cbn. done.
Qed.

(** ** Witnesses *)

Lemma wire_commit_fetch_witness :
  let payload := mkOffsetCommitRequest gid (-1) [] [mkOffsetCommitTopic t0 [mkOffsetCommitPartition 0 5 [x6d]]] in
  let '(resp, h1) := serve_group 0 (ch_with new_group) (commit_request 1 payload) in
  (serve_group 1 h1 (fetch_request 2 gid [mkOffsetFetchTopic t0 [0]])).1
  = okResponse 2 (POffsetFetchResponse (mkOffsetFetchResponse
      [mkOffsetFetchTopicResult t0 [mkOffsetFetchPartition 0 5 [x6d] Proto.ErrNone]])).
Proof.
  pose proof (wire_commit_fetch map_order map_orderP map_order_perm (fun V m => reflexivity (map_to_list m)) (fun _ : unit => []) null_base
     0 1 (ch_with new_group) new_group (mkOffsetCommitRequest gid (-1) [] [mkOffsetCommitTopic t0 [mkOffsetCommitPartition 0 5 [x6d]]]) 1 2) as H.
  cbn zeta. destruct (serve_group 0 (ch_with new_group) _) as [resp h1] eqn:E1.
  change (fetch_of _) with [mkOffsetFetchTopic t0 [0]] in H. cbn [ocr_GroupID] in H.
  destruct (serve_group 1 h1 _) as [resp' h2]. cbn [fst].
  destruct H as (result & Hr & fetched & Hf & Hp);
    [reflexivity|done|split; [apply (bool_decide_unpack _); vm_compute; exact I|]|repeat constructor; done|by left|].
  { repeat constructor. cbn. apply not_elem_of_nil. }
  destruct (Hp (mkOffsetCommitTopic t0 [mkOffsetCommitPartition 0 5 [x6d]]) (mkOffsetCommitPartition 0 5 [x6d]))
    as [[_ He]|[_ He]]; [by left|by left|..].
  - rewrite Hf. cbn in *. by rewrite He.
  - by destruct (He (fun _ _ _ _ _ => eq_refl)).
Defined.

Lemma transaction_offsets_published_witness :
  fetch_data (default new_group (CommitOffsets map_order map_orderP 0 (Some new_group) gid {[t0 := {[3 := mkOffset 9 []]}]}).2) gid t0 3
  = mkFetchData 9 [] ErrorCodeNone.
Proof.
  pose proof (transaction_offsets_published map_order map_orderP map_order_perm (fun V m => reflexivity (map_to_list m)) 0 new_group
    gid {[t0 := {[3 := mkOffset 9 []]}]}) as H.
  destruct (CommitOffsets _ _ _ _ _ _) as [err gc']. destruct H as (gc1 & -> & _ & H).
  rewrite decide_False in H by discriminate. destruct H as [H1 H2]. cbn [snd default].
  apply (H1 (H2 (fun _ _ _ _ _ => eq_refl)) t0 3 (mkOffset 9 [])). vm_compute. reflexivity.
Defined.

Lemma fenced_add_partitions_invalid_witness :
  let h := mkTransactionHandler tt (Some (NewTransactionCoordinator None Txn.DefaultCoordinatorConfig)) in
  match rs_Payload (Transaction_Handle (fun l => l) (fun _ => true) null_base 0 h
          (mkRequest (mkReqHeader 4 RequestTypeAddPartitionsToTxn 1 0)
             (QCoord (PAddPartitionsToTxnRequest (mkAddPartitionsToTxnRequest [x74] 7 0 []))))).1 with
  | SError e => er_ErrorCode e
  | SCoord (PEndTxnResponse e) => ets_ErrorCode e
  | SCoord (PAddOffsetsToTxnResponse e) => aos_ErrorCode e
  | _ => -1
  end = Proto.ErrInvalidRequest.
Proof.
  apply (fenced_add_partitions_invalid null_base (fun l => l) (fun _ => true) 0
    (mkTransactionHandler tt (Some (NewTransactionCoordinator None Txn.DefaultCoordinatorConfig)))
    (NewTransactionCoordinator None Txn.DefaultCoordinatorConfig) 4 (mkAddPartitionsToTxnRequest [x74] 7 0 []) true); reflexivity.
Defined.
