(* ===== verification/Placement.v ===== *)
(** * Placement of partition replicas on brokers (pkg/cluster)

    assignment.go, load.go, roundrobin.go, range.go and sticky.go: the assignment of
    replicas, the limits on what a broker may hold, and the three strategies.

    An operation returns an [outcome]: a value, an error, a run-time panic, or [Spins],
    which stands for a loop that has not ended within its [fuel]; only one loop of the
    package takes fuel, the first pass of the rack-aware round robin, the others end by
    their own bound.  The orders of ranges over maps are parameters; [sort.Slice] ties
    only brokers of equal ID or partitions of equal key, so it is [merge_sort].  The
    local sets of selected brokers always hold the elements of the slice of replicas and
    are modelled by it. *)

From S2P Require Import Prelude GoBytes Record.
From Stdlib Require Import ZArith Lia Strings.Byte Strings.String.
From stdpp Require Import prelude list sorting gmap.
#[local] Notation length := Datatypes.length.
Open Scope Z_scope.

(** ** Outcomes *)

Inductive assign_error :=
| NoBrokersAvailable
| NoBrokersAfterFiltering
| ReplicaCountZero
| AtPartitionLimit
| NotEnoughBrokers
| ValidationFailed.

Inductive outcome (A : Type) : Type :=
| Returns (a : A)
| Fails (e : assign_error)
| Panics
| Spins.
Arguments Returns {A} a.
Arguments Fails {A} e.
Arguments Panics {A}.
Arguments Spins {A}.

#[export] Instance outcome_ret : MRet outcome := fun A a => Returns a.
#[export] Instance outcome_bind : MBind outcome := fun A B k m =>
  match m with Returns a => k a | Fails e => Fails e | Panics => Panics | Spins => Spins end.

Lemma bind_Returns {A B} (k : A -> outcome B) (m : outcome A) b :
  m ≫= k = Returns b -> exists a, m = Returns a /\ k a = Returns b.
Proof. destruct m; simpl; [eauto|discriminate..]. Qed.

(** Go through the list with an accumulator until an error, a panic or the end. *)
Fixpoint foldM {A S} (f : S -> A -> outcome S) (l : list A) (s : S) : outcome S :=
  match l with
  | [] => Returns s
  | x :: l => s' ← f s x; foldM f l s'
  end.

(** ** Data *)

Record PartitionInfo := mkPart { cp_Topic : bytes; cp_PartitionID : Z; cp_Replicas : Z }.
Record BrokerInfo := mkBroker { cb_ID : Z; cb_Rack : bytes; cb_Capacity : Z }.

Record AssignmentConstraints := mkConstraints {
  ac_MinInSyncReplicas : Z;
  ac_RackAware : bool;
  ac_MaxPartitionsPerBroker : Z;
  ac_ExistingLoad : gmap Z Z;
  ac_PreferredLeaders : gmap bytes Z;
  ac_ExcludedBrokers : gmap Z bool
}.

Record Assignment := mkAssignment {
  a_Partitions : gmap bytes (list Z);
  a_Leaders : gmap bytes Z;
  a_BrokerLoad : gmap Z Z;
  a_Version : Z
}.

Definition NewAssignment : Assignment := mkAssignment ∅ ∅ ∅ 0.

(** [m[k]] of a map of integers, zero when absent, and [m[k]++]. *)
Definition at0 (m : gmap Z Z) (b : Z) : Z := default 0 (m !! b).
Definition incr (m : gmap Z Z) (b : Z) : gmap Z Z := <[b := at0 m b + 1]> m.

Definition PartitionKey (topic : bytes) (partitionID : Z) : bytes := topic ++ x3a :: FormatInt partitionID.

Definition AddReplica (a : Assignment) (topic : bytes) (partitionID : Z) (replicas : list Z) : Assignment :=
  let key := PartitionKey topic partitionID in
  mkAssignment (<[key := replicas]> (a_Partitions a))
    (match replicas with [] => a_Leaders a | leader :: _ => <[key := leader]> (a_Leaders a) end)
    (fold_left incr replicas (a_BrokerLoad a)) (a_Version a).

Definition GetReplicas (a : Assignment) (topic : bytes) (partitionID : Z) : list Z :=
  default [] (a_Partitions a !! PartitionKey topic partitionID).
Definition GetLeader (a : Assignment) (topic : bytes) (partitionID : Z) : Z :=
  default 0 (a_Leaders a !! PartitionKey topic partitionID).

(** The least and the largest load; the least starts at the largest [int]. *)
Definition getLoadRange (a : Assignment) : Z * Z :=
  if decide (a_BrokerLoad a = ∅) then (0, 0)
  else map_fold (fun _ l '(mn, mx) => (Z.min l mn, Z.max l mx)) (2 ^ 63 - 1, 0) (a_BrokerLoad a).

Definition IsBalanced (a : Assignment) (maxImbalance : Z) : bool :=
  if decide (a_BrokerLoad a = ∅) then true
  else let '(mn, mx) := getLoadRange a in mx - mn <=? maxImbalance.

(** The number of replicas on each broker. *)
Definition computedLoad (ps : gmap bytes (list Z)) : gmap Z Z :=
  map_fold (fun _ replicas load => fold_left incr replicas load) ∅ ps.

Definition RecomputeBrokerLoad (a : Assignment) : Assignment :=
  mkAssignment (a_Partitions a) (a_Leaders a) (computedLoad (a_Partitions a)) (a_Version a).

Definition Validate (a : Assignment) : option assign_error :=
  if negb (bool_decide (map_Forall (fun key _ => is_Some (a_Leaders a !! key)) (a_Partitions a))) then Some ValidationFailed
  else if negb (bool_decide (map_Forall (fun key leader => leader ∈ default [] (a_Partitions a !! key)) (a_Leaders a)))
  then Some ValidationFailed
  else if negb (bool_decide (map_Forall (fun broker load => at0 (computedLoad (a_Partitions a)) broker = load) (a_BrokerLoad a)))
  then Some ValidationFailed
  else None.

(** [if err := assignment.Validate(); err != nil { return nil, err }; return assignment, nil] *)
Definition validated (a : Assignment) : outcome Assignment :=
  match Validate a with Some e => Fails e | None => Returns a end.

Definition filterExcludedBrokers (brokers : list BrokerInfo) (excluded : gmap Z bool) : list BrokerInfo :=
  if decide (excluded = ∅) then brokers
  else filter (fun b => default false (excluded !! cb_ID b) = false) brokers.

Definition broker_le (a b : BrokerInfo) : Prop := cb_ID a <= cb_ID b.
#[export] Instance broker_le_dec : RelDecision broker_le.
Proof. intros a b. unfold broker_le. apply _. Defined.

Definition load_le (load : gmap Z Z) (a b : BrokerInfo) : Prop :=
  at0 load (cb_ID a) < at0 load (cb_ID b)
  \/ (at0 load (cb_ID a) = at0 load (cb_ID b) /\ cb_ID a <= cb_ID b).
#[export] Instance load_le_dec load : RelDecision (load_le load).
Proof. intros a b. unfold load_le. apply _. Defined.

Definition sortBrokersByLoad (brokers : list BrokerInfo) (load : gmap Z Z) : list BrokerInfo :=
  merge_sort (load_le load) brokers.

(** ** Limits (load.go) *)

Definition tighterLimit (a b : Z) : Z :=
  let a := if a <? 0 then 0 else a in
  let b := if b <? 0 then 0 else b in
  if a =? 0 then b else if b =? 0 then a else if a <? b then a else b.

Record brokerLoad := mkLoad { bl_counts : gmap Z Z; bl_limits : gmap Z Z }.

Definition brokerCapacityLimits (brokers : list BrokerInfo) (constraints : AssignmentConstraints) : gmap Z Z :=
  fold_left (fun m b => <[cb_ID b := tighterLimit (ac_MaxPartitionsPerBroker constraints) (cb_Capacity b)]> m) brokers ∅.

Definition newBrokerLoad (brokers : list BrokerInfo) (constraints : AssignmentConstraints) : brokerLoad :=
  mkLoad (fold_left (fun m b => <[cb_ID b := at0 (ac_ExistingLoad constraints) (cb_ID b)]> m) brokers ∅)
    (brokerCapacityLimits brokers constraints).

Definition withinLimit (limits : gmap Z Z) (brokerID current : Z) : bool :=
  match limits !! brokerID with
  | None => true
  | Some limit => if limit <=? 0 then true else current <? limit
  end.

Definition anyLimited (limits : gmap Z Z) : bool := negb (bool_decide (map_Forall (fun _ limit => limit <= 0) limits)).

Definition limited (l : brokerLoad) : bool := anyLimited (bl_limits l).
Definition hasCapacity (l : brokerLoad) (brokerID : Z) : bool :=
  withinLimit (bl_limits l) brokerID (at0 (bl_counts l) brokerID).
Definition add (l : brokerLoad) (brokerID : Z) : brokerLoad := mkLoad (incr (bl_counts l) brokerID) (bl_limits l).
Definition addAll (l : brokerLoad) (brokerIDs : list Z) : brokerLoad := fold_left add brokerIDs l.
Definition remove (l : brokerLoad) (brokerID : Z) : brokerLoad :=
  if 0 <? at0 (bl_counts l) brokerID
  then mkLoad (<[brokerID := at0 (bl_counts l) brokerID - 1]> (bl_counts l)) (bl_limits l) else l.
Definition count (l : brokerLoad) (brokerID : Z) : Z := at0 (bl_counts l) brokerID.

(** The test at the end of every selection of replicas. *)
Definition enough (load : brokerLoad) (replicaCount : nat) (replicas : list Z) : outcome (list Z) :=
  if decide (length replicas < replicaCount)%nat
  then Fails (if limited load then AtPartitionLimit else NotEnoughBrokers)
  else Returns replicas.

(** The replica count a selection starts with: zero is an error, and a negative one
    makes [make([]int32, 0, replicaCount)] panic. *)
Definition replicaCount (partition : PartitionInfo) (brokers : list BrokerInfo) : outcome nat :=
  let n := if cp_Replicas partition >? zlen brokers then zlen brokers else cp_Replicas partition in
  if n =? 0 then Fails ReplicaCountZero else if n <? 0 then Panics else Returns (Z.to_nat n).

(** ** Racks *)

Definition rackOf (b : BrokerInfo) : bytes :=
  match cb_Rack b with [] => list_byte_of_string "default" | r => r end.

(** [rackBrokers[rack] = append(rackBrokers[rack], broker)] for every broker. *)
Definition rackBrokers (brokers : list BrokerInfo) : gmap bytes (list BrokerInfo) :=
  fold_left (fun m b => <[rackOf b := default [] (m !! rackOf b) ++ [b]]> m) brokers ∅.

Definition brokerRack (brokers : list BrokerInfo) : gmap Z bytes :=
  fold_left (fun m b => <[cb_ID b := rackOf b]> m) brokers ∅.

(** [if len(replicas) >= replicaCount { break }; if !selected && hasCapacity { append }] *)
Definition fill_step (load : brokerLoad) (replicaCount : nat) (replicas : list Z) (b : BrokerInfo) : list Z :=
  if decide (replicaCount <= length replicas)%nat then replicas
  else if bool_decide (cb_ID b ∉ replicas) && hasCapacity load (cb_ID b) then replicas ++ [cb_ID b] else replicas.

(** ** Round robin *)

(** [for len(replicas) < replicaCount && attempts < maxAttempts]: the index after it, and the replicas. *)
Fixpoint pick_loop (attempts : nat) (brokers : list BrokerInfo) (load : brokerLoad) (replicaCount : nat)
    (brokerIndex : nat) (replicas : list Z) : nat * list Z :=
  match attempts with
  | O => (brokerIndex, replicas)
  | S attempts =>
      if decide (replicaCount <= length replicas)%nat then (brokerIndex, replicas)
      else match brokers !! (brokerIndex mod length brokers)%nat with
           | None => (brokerIndex, replicas)
           | Some b => pick_loop attempts brokers load replicaCount (S brokerIndex)
                         (fill_step load replicaCount replicas b)
           end
  end.

(** The first pass: one replica per rack, from rack [rackIndex mod len(racks)] on; [None]
    when the fuel is used up. *)
Fixpoint rack_loop (fuel : nat) (rb : gmap bytes (list BrokerInfo)) (racks : list bytes) (load : brokerLoad)
    (replicaCount : nat) (rackIndex : nat) (replicas : list Z) (selectedRacks : gset bytes)
    : option (list Z) :=
  if decide (length replicas < replicaCount /\ size selectedRacks < length racks)%nat then
    match fuel with
    | O => None
    | S fuel =>
        rack ← racks !! (rackIndex mod length racks)%nat;
        if decide (rack ∈ selectedRacks)
        then rack_loop fuel rb racks load replicaCount (S rackIndex) replicas selectedRacks
        else match List.find (fun b => bool_decide (cb_ID b ∉ replicas) && hasCapacity load (cb_ID b))
                     (default [] (rb !! rack)) with
             | Some b => rack_loop fuel rb racks load replicaCount (S rackIndex) (replicas ++ [cb_ID b])
                           ({[rack]} ∪ selectedRacks)
             | None => rack_loop fuel rb racks load replicaCount (S rackIndex) replicas selectedRacks
             end
    end
  else Some replicas.

Definition sorted_racks (brokers : list BrokerInfo) : list bytes :=
  merge_sort bytes_le (map_to_list (rackBrokers brokers)).*1.

Definition rr_selectRackAwareReplicas (fuel : nat) (brokers : list BrokerInfo) (brokerIndex : nat) (replicaCount : nat)
    (load : brokerLoad) : outcome (nat * list Z) :=
  let rb := rackBrokers brokers in
  let racks := sorted_racks brokers in
  match rack_loop fuel rb racks load replicaCount (brokerIndex mod length racks) [] ∅ with
  | None => Spins
  | Some replicas =>
      let replicas := fold_left (fill_step load replicaCount) (racks ≫= fun r => default [] (rb !! r)) replicas in
      replicas ← enough load replicaCount replicas;
      Returns (S brokerIndex, replicas)
  end.

Definition rr_selectReplicas (fuel : nat) (partition : PartitionInfo) (brokers : list BrokerInfo) (brokerIndex : nat)
    (constraints : AssignmentConstraints) (load : brokerLoad) : outcome (nat * list Z) :=
  n ← replicaCount partition brokers;
  if ac_RackAware constraints then rr_selectRackAwareReplicas fuel brokers brokerIndex n load
  else
    let '(brokerIndex, replicas) := pick_loop (length brokers * 2) brokers load n brokerIndex [] in
    replicas ← enough load n replicas;
    Returns (brokerIndex, replicas).

Definition rr_step (fuel : nat) (brokers : list BrokerInfo) (constraints : AssignmentConstraints)
    (st : Assignment * nat * brokerLoad) (partition : PartitionInfo) : outcome (Assignment * nat * brokerLoad) :=
  let '(a, brokerIndex, load) := st in
  '(brokerIndex, replicas) ← rr_selectReplicas fuel partition brokers brokerIndex constraints load;
  Returns (AddReplica a (cp_Topic partition) (cp_PartitionID partition) replicas, brokerIndex, addAll load replicas).

(** What the strategies that assign from scratch begin with: the brokers that are not
    excluded, sorted by ID. *)
Definition available (brokers : list BrokerInfo) (constraints : AssignmentConstraints) : list BrokerInfo :=
  merge_sort broker_le (filterExcludedBrokers brokers (ac_ExcludedBrokers constraints)).

Definition RoundRobinStrategy_Assign (fuel : nat) (partitions : list PartitionInfo) (brokers : list BrokerInfo)
    (constraints : AssignmentConstraints) : outcome Assignment :=
  match brokers, partitions with
  | [], _ => Fails NoBrokersAvailable
  | _, [] => Returns NewAssignment
  | _, _ =>
      match available brokers constraints with
      | [] => Fails NoBrokersAfterFiltering
      | bs =>
          '(a, _, _) ← foldM (rr_step fuel bs constraints) partitions (NewAssignment, O, newBrokerLoad bs constraints);
          validated a
      end
  end.

(** ** Range *)

Definition partitionID_le (a b : PartitionInfo) : Prop := cp_PartitionID a <= cp_PartitionID b.
#[export] Instance partitionID_le_dec : RelDecision partitionID_le.
Proof. intros a b. unfold partitionID_le. apply _. Defined.

Definition groupByTopic (partitions : list PartitionInfo) : gmap bytes (list PartitionInfo) :=
  merge_sort partitionID_le <$>
    fold_left (fun m p => <[cp_Topic p := default [] (m !! cp_Topic p) ++ [p]]> m) partitions ∅.

(** [for i := 0; i < len(brokers); i++]: the distance walked is [i]. *)
Fixpoint next_loop (n : nat) (brokers : list BrokerInfo) (idx : nat) (load : brokerLoad) : option nat :=
  match n with
  | O => None
  | S n =>
      match brokers !! (idx mod length brokers)%nat with
      | Some b => if hasCapacity load (cb_ID b) then Some (idx mod length brokers)%nat
                  else next_loop n brokers (S idx) load
      | None => None
      end
  end.

(** [None] is the result -1. *)
Definition nextBrokerWithCapacity (brokers : list BrokerInfo) (start : nat) (load : brokerLoad) : option nat :=
  next_loop (length brokers) brokers start load.

Definition range_rack_step (load : brokerLoad) (racks : gmap Z bytes) (numRacks : nat) (replicaCount : nat)
    (st : list Z * gset bytes) (b : BrokerInfo) : list Z * gset bytes :=
  let '(replicas, selectedRacks) := st in
  if decide (replicaCount <= length replicas)%nat then st
  else if decide (cb_ID b ∈ replicas) then st
  else
    let rack := default [] (racks !! cb_ID b) in
    if negb (hasCapacity load (cb_ID b)) then st
    else if bool_decide (rack ∉ selectedRacks \/ size selectedRacks = numRacks)
    then (replicas ++ [cb_ID b], {[rack]} ∪ selectedRacks)
    else st.

Definition range_selectRackAwareReplicas (brokers : list BrokerInfo) (primaryBrokerIdx : nat) (replicaCount : nat)
    (load : brokerLoad) : outcome (list Z) :=
  let racks := brokerRack brokers in
  let st := match nextBrokerWithCapacity brokers primaryBrokerIdx load ≫= (brokers !!.) with
            | Some primaryBroker => ([cb_ID primaryBroker], {[default [] (racks !! cb_ID primaryBroker)]})
            | None => ([], ∅)
            end in
  let '(replicas, _) := fold_left (range_rack_step load racks (size (rackBrokers brokers)) replicaCount) brokers st in
  enough load replicaCount (fold_left (fill_step load replicaCount) brokers replicas).

Definition range_selectReplicas (partition : PartitionInfo) (brokers : list BrokerInfo) (primaryBrokerIdx : nat)
    (constraints : AssignmentConstraints) (load : brokerLoad) : outcome (list Z) :=
  n ← replicaCount partition brokers;
  if ac_RackAware constraints then range_selectRackAwareReplicas brokers primaryBrokerIdx n load
  else
    let primary := nextBrokerWithCapacity brokers primaryBrokerIdx load in
    let replicas := match primary ≫= (brokers !!.) with Some b => [cb_ID b] | None => [] end in
    let brokerIdx := match primary with Some i => S i | None => O end in
    enough load n (pick_loop (length brokers * 2) brokers load n brokerIdx replicas).2.

(** [for i := 0; i < rangeSize && partitionIndex < numPartitions; i++]; the partitions from
    [partitionIndex] on are what is left of the list. *)
Fixpoint range_block (rangeSize : nat) (topic : bytes) (brokers : list BrokerInfo) (brokerIdx : nat)
    (constraints : AssignmentConstraints) (rest : list PartitionInfo) (st : Assignment * brokerLoad)
    : outcome (list PartitionInfo * (Assignment * brokerLoad)) :=
  match rangeSize, rest with
  | S rangeSize, partition :: rest =>
      let '(a, load) := st in
      replicas ← range_selectReplicas partition brokers brokerIdx constraints load;
      range_block rangeSize topic brokers brokerIdx constraints rest
        (AddReplica a topic (cp_PartitionID partition) replicas, addAll load replicas)
  | _, _ => Returns (rest, st)
  end.

Fixpoint range_brokers (todo brokerIdx : nat) (perBroker extra : nat) (topic : bytes) (brokers : list BrokerInfo)
    (constraints : AssignmentConstraints) (rest : list PartitionInfo) (st : Assignment * brokerLoad)
    : outcome (Assignment * brokerLoad) :=
  match todo with
  | O => Returns st
  | S todo =>
      let rangeSize := if decide (brokerIdx < extra)%nat then S perBroker else perBroker in
      '(rest, st) ← range_block rangeSize topic brokers brokerIdx constraints rest st;
      range_brokers todo (S brokerIdx) perBroker extra topic brokers constraints rest st
  end.

Definition assignTopicPartitions (topic : bytes) (partitions : list PartitionInfo) (brokers : list BrokerInfo)
    (constraints : AssignmentConstraints) (st : Assignment * brokerLoad) : outcome (Assignment * brokerLoad) :=
  range_brokers (length brokers) 0 (length partitions / length brokers) (length partitions mod length brokers)
    topic brokers constraints partitions st.

Definition RangeStrategy_Assign (partitions : list PartitionInfo) (brokers : list BrokerInfo)
    (constraints : AssignmentConstraints) : outcome Assignment :=
  match brokers, partitions with
  | [], _ => Fails NoBrokersAvailable
  | _, [] => Returns NewAssignment
  | _, _ =>
      match available brokers constraints with
      | [] => Fails NoBrokersAfterFiltering
      | bs =>
          let groups := groupByTopic partitions in
          '(a, _) ← foldM (fun st topic => assignTopicPartitions topic (default [] (groups !! topic)) bs constraints st)
                      (merge_sort bytes_le (map_to_list groups).*1) (NewAssignment, newBrokerLoad bs constraints);
          validated a
      end
  end.

(** ** Keys *)

(** What is before and after the first colon. *)
Fixpoint split_colon (s : bytes) : option (bytes * bytes) :=
  match s with
  | [] => None
  | c :: s' => if bool_decide (c = x3a) then Some ([], s')
               else '(a, b) ← split_colon s'; Some (c :: a, b)
  end.

Definition parsePartitionKey (key : bytes) : bytes * Z :=
  match split_colon key with
  | None => ([], 0)
  | Some (topic, s) => match ParseInt 64 s with Some partitionID => (topic, partitionID) | None => ([], 0) end
  end.

Definition set_version (a : Assignment) (v : Z) : Assignment :=
  mkAssignment (a_Partitions a) (a_Leaders a) (a_BrokerLoad a) (wraps 64 v).

(** ** Rebalancing *)

Section rebalance.
(** The orders in which ranges over maps visit their entries. *)
Context (range_keys : forall V : Type, gmap bytes V -> list (bytes * V)).
Context (range_ids : forall V : Type, gmap Z V -> list (Z * V)).

Definition info_of (e : bytes * list Z) : PartitionInfo :=
  let '(topic, partitionID) := parsePartitionKey e.1 in mkPart topic partitionID (zlen e.2).

Definition info_le (a b : PartitionInfo) : Prop :=
  (cp_Topic a <> cp_Topic b /\ bytes_le (cp_Topic a) (cp_Topic b))
  \/ (cp_Topic a = cp_Topic b /\ cp_PartitionID a <= cp_PartitionID b).
#[export] Instance info_le_dec : RelDecision info_le.
Proof. intros a b. unfold info_le. apply _. Defined.

Definition RoundRobinStrategy_Rebalance (fuel : nat) (current : Assignment) (brokers : list BrokerInfo)
    (constraints : AssignmentConstraints) : outcome Assignment :=
  match brokers with
  | [] => Fails NoBrokersAvailable
  | _ =>
      if IsBalanced current 1 then Returns current
      else
        a ← RoundRobinStrategy_Assign fuel (merge_sort info_le (info_of <$> range_keys _ (a_Partitions current)))
              brokers constraints;
        Returns (set_version a (a_Version current + 1))
  end.

Definition RangeStrategy_Rebalance (current : Assignment) (brokers : list BrokerInfo)
    (constraints : AssignmentConstraints) : outcome Assignment :=
  match brokers with
  | [] => Fails NoBrokersAvailable
  | _ =>
      if IsBalanced current 1 then Returns current
      else
        a ← RangeStrategy_Assign (info_of <$> range_keys _ (a_Partitions current)) brokers constraints;
        Returns (set_version a (a_Version current + 1))
  end.

(** ** Sticky *)

Definition StickyStrategy_Assign (fuel : nat) (partitions : list PartitionInfo) (brokers : list BrokerInfo)
    (constraints : AssignmentConstraints) : outcome Assignment :=
  RoundRobinStrategy_Assign fuel partitions brokers constraints.

Definition broker_ids (brokers : list BrokerInfo) : gset Z := list_to_set (cb_ID <$> brokers).

Definition allBrokersMatch (a : Assignment) (brokers : list BrokerInfo) : bool :=
  bool_decide (map_Forall (fun brokerID _ => brokerID ∈ broker_ids brokers) (a_BrokerLoad a))
  && forallb (fun b => bool_decide (is_Some (a_BrokerLoad a !! cb_ID b))) brokers.

Definition findRemovedBrokers (a : Assignment) (availableBrokers : list BrokerInfo) : gset Z :=
  dom (a_BrokerLoad a) ∖ broker_ids availableBrokers.

Definition filterReplicas (replicas : list Z) (removed : gset Z) : list Z := filter (.∉ removed) replicas.

(** The body of the loop that takes removed brokers out of a partition. *)
Definition evict (removed : gset Z) (st : Assignment * gmap bytes PartitionInfo) (e : bytes * list Z)
    : Assignment * gmap bytes PartitionInfo :=
  let '(a, todo) := st in
  let '(key, replicas) := e in
  let '(topic, partitionID) := parsePartitionKey key in
  let newReplicas := filterReplicas replicas removed in
  if decide (length newReplicas = length replicas) then st
  else
    (match newReplicas with
     | leader :: _ => mkAssignment (<[key := newReplicas]> (a_Partitions a)) (<[key := leader]> (a_Leaders a))
                        (a_BrokerLoad a) (a_Version a)
     | [] => mkAssignment (delete key (a_Partitions a)) (delete key (a_Leaders a)) (a_BrokerLoad a) (a_Version a)
     end,
     <[key := mkPart topic partitionID (zlen replicas)]> todo).

(** The body of the last pass over the partitions. *)
Definition evict_final (removed : gset Z) (st : Assignment * gmap bytes PartitionInfo) (e : bytes * list Z)
    : Assignment * gmap bytes PartitionInfo :=
  let '(a, todo) := st in
  let '(key, replicas) := e in
  let filtered := filterReplicas replicas removed in
  if decide (length filtered = length replicas) then st
  else
    let '(topic, partitionID) := parsePartitionKey key in
    (mkAssignment (<[key := filtered]> (a_Partitions a))
       (match filtered with leader :: _ => <[key := leader]> (a_Leaders a) | [] => a_Leaders a end)
       (a_BrokerLoad a) (a_Version a),
     <[key := mkPart topic partitionID (zlen replicas)]> todo).

(** The body of the loop over the brokers, least loaded first. *)
Definition add_replica_step (limits : gmap Z Z) (needed : nat) (st : list Z * gmap Z Z * nat) (b : BrokerInfo)
    : list Z * gmap Z Z * nat :=
  let '(currentReplicas, load, selected) := st in
  if decide (needed <= selected)%nat then st
  else if decide (cb_ID b ∈ currentReplicas) then st
  else if negb (withinLimit limits (cb_ID b) (at0 load (cb_ID b))) then st
  else (currentReplicas ++ [cb_ID b], incr load (cb_ID b), S selected).

Definition reassign_one (limits : gmap Z Z) (brokers : list BrokerInfo) (todo : gmap bytes PartitionInfo)
    (a : Assignment) (key : bytes) : outcome Assignment :=
  let currentReplicas := default [] (a_Partitions a !! key) in
  let wanted := default 0 (cp_Replicas <$> todo !! key) in
  if wanted - zlen currentReplicas <=? 0 then Returns a
  else
    let needed := Z.to_nat (wanted - zlen currentReplicas) in
    let '(replicas, load, selected) :=
      fold_left (add_replica_step limits needed) (sortBrokersByLoad brokers (a_BrokerLoad a))
        (currentReplicas, a_BrokerLoad a, O) in
    if decide (selected < needed)%nat then Fails (if anyLimited limits then AtPartitionLimit else NotEnoughBrokers)
    else
      Returns (mkAssignment (<[key := replicas]> (a_Partitions a))
                 (match replicas with leader :: _ => <[key := leader]> (a_Leaders a) | [] => a_Leaders a end)
                 load (a_Version a)).

Definition reassignPartitions (a : Assignment) (todo : gmap bytes PartitionInfo) (brokers : list BrokerInfo)
    (constraints : AssignmentConstraints) : outcome Assignment :=
  foldM (reassign_one (brokerCapacityLimits brokers constraints) brokers todo)
    (merge_sort bytes_le (map_to_list todo).*1) a.

(** The zero value of a struct, what a map lookup of an absent key returns. *)
Definition zero_broker : BrokerInfo := mkBroker 0 [] 0.

Definition imbalance_step (brokers : list BrokerInfo) (limits : gmap Z Z)
    (st : option BrokerInfo * Z * option BrokerInfo * Z) (e : Z * Z) : option BrokerInfo * Z * option BrokerInfo * Z :=
  let '(overloaded, maxLoad, underloaded, minLoad) := st in
  let '(brokerID, load) := e in
  let broker := default zero_broker (last (filter (fun b => cb_ID b = brokerID) brokers)) in
  let '(overloaded, maxLoad) := if maxLoad <? load then (Some broker, load) else (overloaded, maxLoad) in
  if (load <? minLoad) && withinLimit limits brokerID load then (overloaded, maxLoad, Some broker, load)
  else (overloaded, maxLoad, underloaded, minLoad).

Definition findImbalancedBrokers (a : Assignment) (targetLoad : Z) (brokers : list BrokerInfo) (limits : gmap Z Z)
    : option BrokerInfo * option BrokerInfo :=
  let '(overloaded, _, underloaded, _) :=
    fold_left (imbalance_step brokers limits) (range_ids _ (a_BrokerLoad a)) (None, targetLoad, None, targetLoad) in
  (overloaded, underloaded).

(** [None] when no partition can be moved; the search goes on past an empty key. *)
Definition movePartition (a : Assignment) (fromBroker toBroker : Z) (limits : gmap Z Z) : option Assignment :=
  if negb (withinLimit limits toBroker (at0 (a_BrokerLoad a) toBroker)) then None
  else
    '(key, replicas) ← List.find (fun e => bool_decide (e.1 <> [] /\ fromBroker ∈ e.2 /\ toBroker ∉ e.2))
                         (range_keys _ (a_Partitions a));
    '(replicaIndex, _) ← list_find (eq fromBroker) replicas;
    let replicas := <[replicaIndex := toBroker]> replicas in
    let load := <[fromBroker := at0 (a_BrokerLoad a) fromBroker - 1]> (a_BrokerLoad a) in
    let leader := default 0 (a_Leaders a !! key) in
    Some (mkAssignment (<[key := replicas]> (a_Partitions a))
            (if decide (leader = fromBroker) then <[key := default 0 (head replicas)]> (a_Leaders a) else a_Leaders a)
            (incr load toBroker) (a_Version a)).

Fixpoint balance_loop (iterations : nat) (targetLoad : Z) (brokers : list BrokerInfo) (limits : gmap Z Z)
    (a : Assignment) : Assignment :=
  match iterations with
  | O => a
  | S iterations =>
      if IsBalanced a 1 then a
      else match findImbalancedBrokers a targetLoad brokers limits with
           | (Some overloaded, Some underloaded) =>
               match movePartition a (cb_ID overloaded) (cb_ID underloaded) limits with
               | Some a' => balance_loop iterations targetLoad brokers limits a'
               | None => a
               end
           | _ => a
           end
  end.

Definition balanceLoad (a : Assignment) (brokers : list BrokerInfo) (constraints : AssignmentConstraints)
    : outcome Assignment :=
  if IsBalanced a 1 then Returns a
  else match brokers with
       | [] => Fails NoBrokersAvailable
       | _ =>
           let totalPartitions := size (a_Partitions a) in
           Returns (balance_loop (totalPartitions * 2) (Z.of_nat totalPartitions / zlen brokers) brokers
                      (brokerCapacityLimits brokers constraints) a)
       end.

(** [load[broker.ID] = 0] for every broker, then one more for every replica. *)
Definition recomputed_load (brokers : list BrokerInfo) (ps : gmap bytes (list Z)) : gmap Z Z :=
  map_fold (fun _ replicas load => fold_left incr replicas load)
    (fold_left (fun m b => <[cb_ID b := 0]> m) brokers ∅) ps.

Definition with_load (a : Assignment) (load : gmap Z Z) : Assignment :=
  mkAssignment (a_Partitions a) (a_Leaders a) load (a_Version a).

Definition StickyStrategy_Rebalance (current : Assignment) (brokers : list BrokerInfo)
    (constraints : AssignmentConstraints) : outcome Assignment :=
  match brokers with
  | [] => Fails NoBrokersAvailable
  | _ =>
      match filterExcludedBrokers brokers (ac_ExcludedBrokers constraints) with
      | [] => Fails NoBrokersAfterFiltering
      | bs =>
          let a := set_version current (a_Version current + 1) in
          if IsBalanced current 1 && allBrokersMatch current bs then Returns a
          else
            let removed := findRemovedBrokers current bs in
            let '(a, todo) := fold_left (evict removed) (range_keys _ (a_Partitions a)) (a, ∅) in
            a ← reassignPartitions (with_load a (recomputed_load bs (a_Partitions a))) todo bs constraints;
            a ← balanceLoad a bs constraints;
            let '(a, todo) := fold_left (evict_final removed) (range_keys _ (a_Partitions a)) (a, ∅) in
            a ← reassignPartitions (RecomputeBrokerLoad a) todo bs constraints;
            validated (RecomputeBrokerLoad a)
      end
  end.
End rebalance.

(** ** The interface AssignmentStrategy *)

Class AssignmentStrategy := {
  strategy_Assign : list PartitionInfo -> list BrokerInfo -> AssignmentConstraints -> outcome Assignment;
  strategy_Rebalance : Assignment -> list BrokerInfo -> AssignmentConstraints -> outcome Assignment
}.

Definition RoundRobinStrategy (range_keys : forall V : Type, gmap bytes V -> list (bytes * V)) (fuel : nat) : AssignmentStrategy := {|
  strategy_Assign := RoundRobinStrategy_Assign fuel;
  strategy_Rebalance := RoundRobinStrategy_Rebalance range_keys fuel |}.
Definition RangeStrategy (range_keys : forall V : Type, gmap bytes V -> list (bytes * V)) : AssignmentStrategy := {|
  strategy_Assign := RangeStrategy_Assign;
  strategy_Rebalance := RangeStrategy_Rebalance range_keys |}.
Definition StickyStrategy (range_keys : forall V : Type, gmap bytes V -> list (bytes * V))
    (range_ids : forall V : Type, gmap Z V -> list (Z * V)) (fuel : nat) : AssignmentStrategy := {|
  strategy_Assign := StickyStrategy_Assign fuel;
  strategy_Rebalance := StickyStrategy_Rebalance range_keys range_ids |}.
