(* ===== verification/PlacementSpec.v ===== *)
(** * What the placement strategies guarantee

    For the model of Placement.v: every assignment that a strategy returns gives each
    partition the replicas it asks for, on distinct brokers that are available and below
    their limit, with the first as the leader, and counts them right ([placed]); without
    limits the strategies return; round robin keeps the loads within one of each other;
    the rack-aware selections use as many racks as they can; the sticky rebalance keeps
    all of this when brokers come and go.  Also where they do less: a rack-aware
    selection never ends when a rack is full, and a rebalance keeps removed brokers or
    merges topics whose names have a colon. *)

From S2P Require Import Prelude GoBytes Record Placement.
From Stdlib Require Import ZArith Lia Strings.Byte Strings.String.
From stdpp Require Import prelude list sorting gmap.
#[local] Notation length := Datatypes.length.
Open Scope Z_scope.

(** ** Counting replicas *)

(** How often [b] occurs in a list of replicas. *)
Fixpoint occurs (b : Z) (replicas : list Z) : Z :=
  match replicas with
  | [] => 0
  | r :: replicas => (if decide (r = b) then 1 else 0) + occurs b replicas
  end.

Lemma occurs_nonneg b l : 0 <= occurs b l.
Proof. induction l as [|r l IH]; simpl; [lia|]. case_decide; lia. Qed.

Lemma occurs_app b l k : occurs b (l ++ k) = occurs b l + occurs b k.
Proof. induction l as [|r l IH]; simpl; [done|]. lia. Qed.

Lemma occurs_not_elem b l : b ∉ l -> occurs b l = 0.
Proof.
  induction l as [|r l IH]; simpl; [done|]. rewrite not_elem_of_cons. intros [Hr Hl].
  rewrite decide_False by congruence. by rewrite IH.
Qed.

Lemma occurs_elem b l : NoDup l -> b ∈ l -> occurs b l = 1.
Proof.
  induction 1 as [|r l Hr Hl IH]; simpl; [set_solver|]. rewrite elem_of_cons. case_decide as E.
  - intros _. subst. by rewrite occurs_not_elem.
  - intros [->|H]; [done|]. by rewrite IH.
Qed.

Lemma at0_incr m b b' : at0 (incr m b) b' = at0 m b' + if decide (b = b') then 1 else 0.
Proof.
  unfold at0, incr. case_decide as E; [subst; rewrite lookup_insert_eq|rewrite lookup_insert_ne by done]; simpl; unfold at0; lia.
Qed.

Lemma at0_incr_all l : forall m b, at0 (fold_left incr l m) b = at0 m b + occurs b l.
Proof.
  induction l as [|r l IH]; intros m b; simpl; [lia|]. rewrite IH, at0_incr. lia.
Qed.

Lemma dom_incr_all l : forall m, dom (fold_left incr l m) = dom m ∪ list_to_set l.
Proof.
  induction l as [|r l IH]; intros m; simpl; [set_solver|].
  rewrite IH. unfold incr. rewrite dom_insert_L. set_solver.
Qed.

Lemma incr_comm m a b : incr (incr m a) b = incr (incr m b) a.
Proof.
  destruct (decide (a = b)) as [->|Hne]; [done|].
  unfold incr, at0. rewrite !lookup_insert_ne by done. by rewrite insert_insert_ne.
Qed.

Lemma incr_all_comm1 l : forall m a, fold_left incr l (incr m a) = incr (fold_left incr l m) a.
Proof. induction l as [|r l IH]; intros m a; simpl; [done|]. by rewrite incr_comm, IH. Qed.

Lemma incr_all_comm l : forall k m, fold_left incr l (fold_left incr k m) = fold_left incr k (fold_left incr l m).
Proof.
  induction l as [|r l IH]; intros k m; simpl; [done|]. by rewrite <- incr_all_comm1, IH.
Qed.

(** The replicas that the partitions [ps] have on broker [b]. *)
Definition replicas_on (ps : gmap bytes (list Z)) (b : Z) : Z := at0 (computedLoad ps) b.

(** The common shape of the two ways in which the code counts replicas. *)
Lemma load_from_insert m0 ps key r : ps !! key = None ->
  map_fold (fun (_ : bytes) replicas load => fold_left incr replicas load) m0 (<[key := r]> ps)
  = fold_left incr r (map_fold (fun _ replicas load => fold_left incr replicas load) m0 ps).
Proof.
  intros Hk. apply (map_fold_insert_L _ m0 key r ps); [|done]. intros. apply incr_all_comm.
Qed.

Lemma replicas_on_insert ps key r b : ps !! key = None ->
  replicas_on (<[key := r]> ps) b = replicas_on ps b + occurs b r.
Proof. intros Hk. unfold replicas_on, computedLoad. by rewrite load_from_insert, at0_incr_all. Qed.

Lemma replicas_on_delete ps key r b : ps !! key = Some r ->
  replicas_on ps b = replicas_on (delete key ps) b + occurs b r.
Proof.
  intros Hk. rewrite <- (insert_delete_id ps key r Hk) at 1.
  apply replicas_on_insert, lookup_delete_eq.
Qed.

Lemma replicas_on_replace ps key r r' b : ps !! key = Some r ->
  replicas_on (<[key := r']> ps) b = replicas_on ps b - occurs b r + occurs b r'.
Proof.
  intros Hk. rewrite <- insert_delete_eq, replicas_on_insert by apply lookup_delete_eq.
  rewrite (replicas_on_delete ps key r b Hk). lia.
Qed.

Lemma replicas_on_empty b : replicas_on ∅ b = 0.
Proof. unfold replicas_on, computedLoad. by rewrite map_fold_empty. Qed.

Lemma load_from_at0 m0 ps b :
  at0 (map_fold (fun (_ : bytes) replicas load => fold_left incr replicas load) m0 ps) b = at0 m0 b + replicas_on ps b.
Proof.
  induction ps as [|key r ps Hk IH] using map_ind.
  - rewrite map_fold_empty, replicas_on_empty. lia.
  - rewrite load_from_insert, at0_incr_all, IH, replicas_on_insert by done. lia.
Qed.

Lemma replicas_on_nonneg ps b : 0 <= replicas_on ps b.
Proof.
  induction ps as [|key r ps Hk IH] using map_ind; [by rewrite replicas_on_empty|].
  rewrite replicas_on_insert by done. pose proof (occurs_nonneg b r). lia.
Qed.

Lemma dom_load_from m0 ps b :
  b ∈ dom (map_fold (fun (_ : bytes) replicas load => fold_left incr replicas load) m0 ps)
  <-> b ∈ dom m0 \/ exists key r, ps !! key = Some r /\ b ∈ r.
Proof.
  induction ps as [|key r ps Hk IH] using map_ind.
  - rewrite map_fold_empty. split; [by left|]. intros [?|(? & ? & ? & _)]; done.
  - rewrite load_from_insert, dom_incr_all by done. rewrite elem_of_union, elem_of_list_to_set, IH. split.
    + intros [[?|(k & r' & Hk' & ?)]|?]; [by left| |].
      * right. exists k, r'. split; [|done]. by rewrite lookup_insert_ne by congruence.
      * right. exists key, r. by rewrite lookup_insert_eq.
    + intros [?|(k & r' & Hk' & ?)]; [by left; left|].
      apply lookup_insert_Some in Hk' as [[<- ->]|[_ ?]]; [by right|]. left. right. eauto.
Qed.

(** ** Keys *)

Definition key_of (p : PartitionInfo) : bytes := PartitionKey (cp_Topic p) (cp_PartitionID p).

(** The part before the last colon and the part after it are determined. *)
Lemma last_colon_inj (a a' s s' : bytes) : x3a ∉ s -> x3a ∉ s' -> a ++ x3a :: s = a' ++ x3a :: s' -> a = a' /\ s = s'.
Proof.
  revert a'. induction a as [|c a IH]; intros [|c' a'] Hs Hs' E; simpl in E.
  - by injection E.
  - injection E as <- ->. exfalso. apply Hs. set_solver.
  - injection E as -> <-. exfalso. apply Hs'. set_solver.
  - injection E as -> E. destruct (IH a' Hs Hs' E) as [-> ->]. done.
Qed.

Lemma PartitionKey_inj t p t' p' : in_i64 p -> in_i64 p' -> PartitionKey t p = PartitionKey t' p' -> t = t' /\ p = p'.
Proof.
  intros Hp Hp' E. apply last_colon_inj in E as [-> E]; [|apply FormatInt_no_colon..].
  by apply FormatInt_inj in E as ->.
Qed.

(** ** Selecting replicas *)

Section selection.
Context (brokers : list BrokerInfo) (load : brokerLoad) (n : nat).

Notation ids := (cb_ID <$> brokers).

(** What holds of the replicas while they are selected. *)
Record selecting (replicas : list Z) : Prop := {
  sel_nodup : NoDup replicas;
  sel_in id : id ∈ replicas -> id ∈ ids /\ hasCapacity load id = true;
  sel_length : (length replicas <= n)%nat
}.

(** Either there are enough, or the brokers [bs] have nothing more to give. *)
Definition exhausted (bs : list BrokerInfo) (replicas : list Z) : Prop :=
  (n <= length replicas)%nat \/ forall b, b ∈ bs -> hasCapacity load (cb_ID b) = true -> cb_ID b ∈ replicas.

Lemma selecting_nil : selecting [].
Proof. split; [constructor|set_solver|simpl; lia]. Qed.

Lemma selecting_snoc replicas b : selecting replicas -> b ∈ brokers -> (length replicas < n)%nat ->
  cb_ID b ∉ replicas -> hasCapacity load (cb_ID b) = true -> selecting (replicas ++ [cb_ID b]).
Proof.
  intros [Hnd Hin Hl] Hb Hn Hf Hc. split.
  - apply NoDup_app. split_and!; [done| |by apply NoDup_singleton]. set_solver.
  - intros id [?|Hid%list_elem_of_singleton]%elem_of_app; [by apply Hin|]. subst id.
    split; [|done]. by apply list_elem_of_fmap_2.
  - rewrite length_app. simpl. lia.
Qed.

(** A step of a filling pass keeps what was selected. *)
Lemma fill_step_spec replicas b : selecting replicas -> b ∈ brokers ->
  selecting (fill_step load n replicas b)
  /\ replicas `prefix_of` fill_step load n replicas b
  /\ exhausted [b] (fill_step load n replicas b).
Proof.
  intros Hs Hb. unfold fill_step, exhausted. case_decide as Hl; [split_and!; [done..|by left]|].
  destruct (bool_decide_reflect (cb_ID b ∉ replicas)) as [Hf|Hf]; simpl.
  - destruct (hasCapacity load (cb_ID b)) eqn:Hc.
    + split_and!; [apply selecting_snoc; [done|done|lia|done|done]|by eexists|].
      right. intros b' ->%list_elem_of_singleton _. set_solver.
    + split_and!; [done..|]. right. intros b' ->%list_elem_of_singleton. by rewrite Hc.
  - split_and!; [done..|]. right. intros b' ->%list_elem_of_singleton _. by apply dec_stable in Hf.
Qed.

Lemma exhausted_more bs replicas replicas' : exhausted bs replicas -> replicas `prefix_of` replicas' -> exhausted bs replicas'.
Proof.
  intros [H|H] Hp; [left; apply prefix_length in Hp; lia|right].
  intros b Hb Hc. destruct Hp as [k ->]. apply elem_of_app. left. by apply H.
Qed.

Lemma exhausted_sub bs bs' replicas : bs ⊆ bs' -> exhausted bs' replicas -> exhausted bs replicas.
Proof. intros Hb [H|H]; [by left|right]. intros b Hin. by apply H, Hb. Qed.

Lemma exhausted_app bs bs' replicas : exhausted bs replicas -> exhausted bs' replicas -> exhausted (bs ++ bs') replicas.
Proof.
  intros [H|H] [H'|H']; [by left..|right]. intros b [Hb|Hb]%elem_of_app; [by apply H|by apply H'].
Qed.

Lemma fill_spec bs : forall replicas, selecting replicas -> bs ⊆ brokers ->
  selecting (fold_left (fill_step load n) bs replicas)
  /\ replicas `prefix_of` fold_left (fill_step load n) bs replicas
  /\ exhausted bs (fold_left (fill_step load n) bs replicas).
Proof.
  induction bs as [|b bs IH]; intros replicas Hs Hsub; simpl.
  { split_and!; [done..|]. right. set_solver. }
  destruct (fill_step_spec replicas b Hs ltac:(set_solver)) as (H1 & H2 & H3).
  destruct (IH _ H1 ltac:(set_solver)) as (H4 & H5 & H6). split_and!; [done|by etrans|].
  apply (exhausted_app [b]); [by eapply exhausted_more|done].
Qed.

(** The loop that goes round the brokers from an index. *)
Lemma pick_loop_spec attempts : forall i replicas, selecting replicas ->
  selecting (pick_loop attempts brokers load n i replicas).2
  /\ replicas `prefix_of` (pick_loop attempts brokers load n i replicas).2
  /\ exhausted (omap (fun j => brokers !! ((i + j) mod length brokers)%nat) (seq 0 attempts))
       (pick_loop attempts brokers load n i replicas).2.
Proof.
  induction attempts as [|k IH]; intros i replicas Hs; cbn [pick_loop].
  { split_and!; [done..|]. right. set_solver. }
  case_decide as Hl; [split_and!; [done..|by left]|].
  cbn [seq omap list_omap]. rewrite Nat.add_0_r. destruct (brokers !! (i mod length brokers)%nat) as [b|] eqn:E.
  - assert (b ∈ brokers) as Hb by (by eapply list_elem_of_lookup_2).
    destruct (fill_step_spec replicas b Hs Hb) as (H1 & H2 & H3).
    destruct (IH (S i) _ H1) as (H4 & H5 & H6). split_and!; [done|by etrans|].
    apply (exhausted_app [b]); [by eapply exhausted_more|]. eapply exhausted_sub; [|exact H6].
    intros b' (j & Hj & Hb')%list_elem_of_omap. apply list_elem_of_omap. apply elem_of_seq in Hj.
    exists (j - 1)%nat. split; [apply elem_of_seq; lia|]. by replace (S i + (j - 1))%nat with (i + j)%nat by lia.
  - split_and!; [done..|]. apply lookup_ge_None in E. destruct (decide (length brokers = 0)%nat) as [E0|E0].
    + apply nil_length_inv in E0. right. intros b (j & _ & Hj)%list_elem_of_omap. by rewrite E0 in Hj.
    + pose proof (Nat.mod_upper_bound i (length brokers) E0). lia.
Qed.

(** Twice the number of brokers is enough attempts to see all of them. *)
Lemma pick_loop_all i replicas : selecting replicas ->
  exhausted brokers (pick_loop (length brokers * 2) brokers load n i replicas).2.
Proof.
  intros Hs. destruct (pick_loop_spec (length brokers * 2) i replicas Hs) as (_ & _ & [H|H]); [by left|right].
  intros b [p Hp]%list_elem_of_lookup_1 Hc. apply H; [|done]. apply lookup_lt_Some in Hp as Hl.
  set (L := length brokers) in *. pose proof (Nat.mod_upper_bound i L ltac:(lia)) as Hi.
  apply list_elem_of_omap. exists ((p + (L - i mod L)) mod L)%nat. split.
  - apply elem_of_seq. pose proof (Nat.mod_upper_bound (p + (L - i mod L)) L ltac:(lia)). lia.
  - rewrite Nat.Div0.add_mod_idemp_r, <- Nat.Div0.add_mod_idemp_l.
    replace (i mod L + (p + (L - i mod L)))%nat with (p + 1 * L)%nat by lia.
    by rewrite Nat.Div0.mod_add, Nat.mod_small.
Qed.

(** The brokers that may take one more replica. *)
Definition open_brokers : list BrokerInfo := filter (fun b => hasCapacity load (cb_ID b) = true) brokers.

(** Who has gone through all brokers fails only if fewer than [n] of them have capacity. *)
Lemma exhausted_open replicas : NoDup ids -> exhausted brokers replicas ->
  (length replicas < n)%nat -> (length open_brokers <= length replicas)%nat.
Proof.
  intros Hnd [H|H] Hl; [lia|]. rewrite <- (length_fmap cb_ID open_brokers).
  apply submseteq_length, NoDup_submseteq.
  - by apply NoDup_fmap_filter.
  - intros id (b & -> & [Hc Hb]%list_elem_of_filter)%list_elem_of_fmap. by apply H.
Qed.

Lemma enough_spec replicas out : selecting replicas -> enough load n replicas = Returns out ->
  selecting out /\ length out = n /\ out = replicas.
Proof.
  unfold enough. intros Hs. case_decide; [done|]. intros [= <-]. split_and!; [done| |done].
  pose proof (sel_length _ Hs). lia.
Qed.

Lemma enough_complete replicas : NoDup ids -> selecting replicas -> exhausted brokers replicas ->
  (n <= length open_brokers)%nat -> enough load n replicas = Returns replicas.
Proof.
  intros Hnd Hs He Hn. unfold enough. rewrite decide_False; [done|]. intros Hl.
  pose proof (exhausted_open replicas Hnd He Hl). lia.
Qed.
End selection.

(** ** Racks *)

Lemma rackBrokers_lookup bs r : default [] (rackBrokers bs !! r) = filter (fun b => rackOf b = r) bs
  /\ (is_Some (rackBrokers bs !! r) <-> exists b, b ∈ bs /\ rackOf b = r).
Proof.
  unfold rackBrokers. induction bs as [|b bs [IH1 IH2]] using rev_ind; simpl.
  { rewrite lookup_empty. split; [done|]. split; [by intros [? ?]|]. intros (? & ?%elem_of_nil & _). done. }
  rewrite fold_left_app, filter_app. simpl. destruct (decide (rackOf b = r)) as [E|E].
  - rewrite filter_cons_True by done. rewrite E, lookup_insert_eq. simpl.
    rewrite IH1. split; [done|]. split; [|by eauto]. intros _. exists b. set_solver.
  - rewrite filter_cons_False by done. rewrite lookup_insert_ne by done. rewrite app_nil_r. split; [done|].
    rewrite IH2. set_solver.
Qed.

Lemma sorted_racks_spec bs : NoDup (sorted_racks bs) /\ forall r, r ∈ sorted_racks bs <-> exists b, b ∈ bs /\ rackOf b = r.
Proof.
  unfold sorted_racks. split.
  - rewrite merge_sort_Permutation. apply NoDup_fst_map_to_list.
  - intros r. rewrite merge_sort_Permutation, <- (proj2 (rackBrokers_lookup bs r)), list_elem_of_fmap. split.
    + intros ([r' l] & -> & H%elem_of_map_to_list). by eexists.
    + intros [l H]. exists (r, l). split; [done|]. by apply elem_of_map_to_list.
Qed.

Lemma brokerRack_lookup bs b : NoDup (cb_ID <$> bs) -> b ∈ bs -> brokerRack bs !! cb_ID b = Some (rackOf b).
Proof.
  unfold brokerRack. induction bs as [|b' bs IH] using rev_ind; [set_solver|].
  rewrite fold_left_app, fmap_app, NoDup_app. simpl. intros (Hnd & Hdis & _) [Hb|Hb%list_elem_of_singleton]%elem_of_app;
    [|subst b'].
  - rewrite lookup_insert_ne; [by apply IH|]. intros E. apply (Hdis (cb_ID b)); [by apply list_elem_of_fmap_2|].
    rewrite E. by left.
  - by rewrite lookup_insert_eq.
Qed.

Section racks.
Context (brokers : list BrokerInfo) (load : brokerLoad) (n : nat).
Context (ids_nodup : NoDup (cb_ID <$> brokers)).

Notation selecting := (selecting brokers load n).
Notation racks := (sorted_racks brokers).

(** The racks of all brokers, those with a broker that may take one more replica, and
    those that some replicas are on. *)
Definition all_racks : gset bytes := list_to_set (rackOf <$> brokers).
Definition open_racks : gset bytes := list_to_set (rackOf <$> open_brokers brokers load).
Definition racks_of (replicas : list Z) : gset bytes := list_to_set (rackOf <$> filter (fun b => cb_ID b ∈ replicas) brokers).

Lemma elem_of_open_racks r : r ∈ open_racks <-> exists b, b ∈ brokers /\ hasCapacity load (cb_ID b) = true /\ rackOf b = r.
Proof using.
  unfold open_racks, open_brokers. rewrite elem_of_list_to_set, list_elem_of_fmap.
  setoid_rewrite list_elem_of_filter. naive_solver.
Qed.

Lemma elem_of_racks_of r replicas : r ∈ racks_of replicas <-> exists b, b ∈ brokers /\ cb_ID b ∈ replicas /\ rackOf b = r.
Proof using.
  unfold racks_of. rewrite elem_of_list_to_set, list_elem_of_fmap. setoid_rewrite list_elem_of_filter. naive_solver.
Qed.

Lemma racks_size : size all_racks = length racks.
Proof using.
  destruct (sorted_racks_spec brokers) as [Hnd Hin]. rewrite <- (size_list_to_set (C := gset bytes) racks Hnd).
  f_equal. apply set_eq. intros r. unfold all_racks. rewrite !elem_of_list_to_set, Hin, list_elem_of_fmap. naive_solver.
Qed.

Lemma open_racks_sub : open_racks ⊆ all_racks.
Proof using.
  intros r (b & Hb & _ & <-)%elem_of_open_racks. unfold all_racks. apply elem_of_list_to_set.
  by apply list_elem_of_fmap_2.
Qed.

Lemma racks_of_mono replicas replicas' : replicas `prefix_of` replicas' -> racks_of replicas ⊆ racks_of replicas'.
Proof using.
  clear ids_nodup. intros [k ->] r (b & Hb & Hi & Hr)%elem_of_racks_of. apply elem_of_racks_of. exists b. set_solver.
Qed.

Lemma racks_of_snoc replicas b : b ∈ brokers -> racks_of (replicas ++ [cb_ID b]) = {[rackOf b]} ∪ racks_of replicas.
Proof using ids_nodup.
  intros Hb. apply set_eq. intros r. rewrite elem_of_union, elem_of_singleton, !elem_of_racks_of. split.
  - intros (b' & Hb' & [Hi|Hi%list_elem_of_singleton]%elem_of_app & Hr); [right; by exists b'|].
    left. subst r. f_equal. clear - ids_nodup Hb Hb' Hi. induction brokers as [|c cs IH]; [set_solver|].
    rewrite fmap_cons, NoDup_cons in ids_nodup. destruct ids_nodup as [Hc Hcs].
    apply elem_of_cons in Hb as [->|Hb]; apply elem_of_cons in Hb' as [->|Hb']; [done| | |by apply IH].
    + exfalso. apply Hc. rewrite <- Hi. by apply list_elem_of_fmap_2.
    + exfalso. apply Hc. rewrite Hi. by apply list_elem_of_fmap_2.
  - intros [->|(b' & Hb' & Hi & Hr)]; [exists b; set_solver|exists b'; set_solver].
Qed.

(** What holds in the first pass: one replica in each selected rack. *)
Record one_per_rack (replicas : list Z) (sel : gset bytes) : Prop := {
  opr_sel : selecting replicas;
  opr_racks : sel = racks_of replicas;
  opr_size : size sel = length replicas;
  opr_open : sel ⊆ open_racks
}.

Lemma one_per_rack_nil : one_per_rack [] ∅.
Proof using.
  clear ids_nodup. split; [apply selecting_nil| |done|set_solver]. apply set_eq. intros r.
  rewrite elem_of_racks_of. set_solver.
Qed.

(** What the search in a rack that is not selected finds. *)
Lemma rack_find replicas sel rack : one_per_rack replicas sel -> (length replicas < n)%nat -> rack ∉ sel ->
  match List.find (fun b => bool_decide (cb_ID b ∉ replicas) && hasCapacity load (cb_ID b))
          (default [] (rackBrokers brokers !! rack)) with
  | Some b => one_per_rack (replicas ++ [cb_ID b]) ({[rack]} ∪ sel) /\ rack ∈ open_racks
  | None => rack ∉ open_racks
  end.
Proof using ids_nodup.
  intros [Hs Hr Hz Ho] Hl Hn. destruct (List.find _ _) as [b|] eqn:E.
  - apply List.find_some in E as [Hin Hb]. apply list_elem_of_In in Hin.
    rewrite (proj1 (rackBrokers_lookup brokers rack)) in Hin. apply list_elem_of_filter in Hin as [Hrb Hin].
    apply andb_prop in Hb as [Hf%bool_decide_eq_true Hc].
    assert (rack ∈ open_racks) as Hopen by (apply elem_of_open_racks; by exists b). split; [|done]. split.
    + by apply selecting_snoc.
    + by rewrite racks_of_snoc, Hrb, <- Hr.
    + rewrite size_union by set_solver. rewrite size_singleton, length_app. simpl. lia.
    + set_solver.
  - intros (b & Hb & Hc & Hrb)%elem_of_open_racks.
    assert (b ∈ default [] (rackBrokers brokers !! rack)) as Hin
      by (rewrite (proj1 (rackBrokers_lookup brokers rack)); by apply list_elem_of_filter).
    apply list_elem_of_In in Hin. apply (List.find_none _ _ E) in Hin. rewrite Hc, andb_true_r in Hin.
    apply bool_decide_eq_false in Hin. apply dec_stable in Hin. apply Hn. rewrite Hr. apply elem_of_racks_of. eauto.
Qed.

(** Within one turn over the racks the first pass has seen every one of them. *)
Lemma rack_loop_ends (start : nat) : brokers <> [] ->
  (n <= size open_racks)%nat \/ size open_racks = length racks ->
  forall k j fuel replicas sel, (j + k = length racks)%nat -> (k <= fuel)%nat -> one_per_rack replicas sel ->
  (forall i r, (i < j)%nat -> racks !! ((start + i) mod length racks)%nat = Some r -> r ∈ open_racks -> r ∈ sel) ->
  is_Some (rack_loop fuel (rackBrokers brokers) racks load n (start + j) replicas sel).
Proof using ids_nodup.
  intros Hne Hterm. assert (length racks <> 0)%nat as HL.
  { rewrite <- racks_size. intros H0%size_empty_inv. destruct (head brokers) as [b|] eqn:Hb; [|by destruct brokers].
    apply head_Some_elem_of in Hb. apply (not_elem_of_empty (C := gset bytes) (rackOf b)), H0. unfold all_racks.
    apply elem_of_list_to_set. by apply list_elem_of_fmap_2. }
  induction k as [|k IH]; intros j fuel replicas sel Hj Hf Ho Hseen.
  - assert (open_racks ⊆ sel) as Hall.
    { intros r Hr. destruct (sorted_racks_spec brokers) as [_ Hin].
      apply elem_of_open_racks in Hr as Hr'. destruct Hr' as (b & Hb & _ & Hrb).
      destruct (list_elem_of_lookup_1 racks r) as [p Hp]; [apply Hin; by exists b|].
      apply lookup_lt_Some in Hp as Hpl. pose proof (Nat.mod_upper_bound start (length racks) HL) as Hst.
      apply (Hseen ((p + (length racks - start mod length racks)) mod length racks)%nat r); [|  |done].
      - pose proof (Nat.mod_upper_bound (p + (length racks - start mod length racks)) (length racks) HL). lia.
      - rewrite Nat.Div0.add_mod_idemp_r, <- Nat.Div0.add_mod_idemp_l.
        replace (start mod length racks + (p + (length racks - start mod length racks)))%nat
          with (p + 1 * length racks)%nat by lia. by rewrite Nat.Div0.mod_add, Nat.mod_small. }
    destruct Ho as [Hs Hr Hz Hopen]. assert (sel = open_racks) as -> by set_solver.
    destruct fuel; cbn [rack_loop]; (rewrite decide_False; [by eexists|]); pose proof (subseteq_size _ _ open_racks_sub) as Hz'; rewrite racks_size in Hz'; lia.
  - destruct fuel as [|fuel]; [lia|]. cbn [rack_loop]. case_decide as Hc.
    + destruct (lookup_lt_is_Some_2 racks ((start + j) mod length racks)%nat) as [rack Hrack];
        [by apply Nat.mod_upper_bound|]. rewrite Hrack. cbn [mbind option_bind].
      rewrite <- Nat.add_succ_r.
      assert (forall sel', sel ⊆ sel' -> (rack ∈ open_racks -> rack ∈ sel') -> forall i r, (i < S j)%nat ->
                racks !! ((start + i) mod length racks)%nat = Some r -> r ∈ open_racks -> r ∈ sel') as Hnext.
      { intros sel' Hsub Hrk i r Hi Hri Hor. destruct (decide (i = j)) as [->|Hij].
        - rewrite Hrack in Hri. injection Hri as ->. by apply Hrk.
        - apply Hsub, (Hseen i r); [lia|done|done]. }
      case_decide as Hin; [apply IH; [lia|lia|done|by apply Hnext]|].
      pose proof (rack_find replicas sel rack Ho (proj1 Hc) Hin) as Hfind.
      destruct (List.find _ _) as [b|]; [destruct Hfind as [Ho' _]|].
      * apply IH; [lia|lia|done|]. apply Hnext; set_solver.
      * apply IH; [lia|lia|done|]. by apply Hnext.
    + by eexists.
Qed.

Lemma rack_loop_sound fuel : forall i replicas sel out, one_per_rack replicas sel ->
  rack_loop fuel (rackBrokers brokers) racks load n i replicas sel = Some out ->
  selecting out /\ (n `min` size open_racks <= size (racks_of out))%nat.
Proof using ids_nodup.
  assert (forall replicas sel, one_per_rack replicas sel -> ~ (length replicas < n /\ size sel < length racks)%nat ->
            selecting replicas /\ (n `min` size open_racks <= size (racks_of replicas))%nat) as Hstop.
  { intros replicas sel [Hs Hr Hz Ho] Hc. split; [done|]. rewrite <- Hr.
    pose proof (subseteq_size _ _ open_racks_sub) as Hz'. rewrite racks_size in Hz'. lia. }
  induction fuel as [|fuel IH]; intros i replicas sel out Ho; cbn [rack_loop];
    (case_decide as Hc; [|by intros [= <-]; eapply Hstop]); [done|].
  intros (rack & Hrack & H)%bind_Some. case_decide as Hin; [by eapply IH|].
  pose proof (rack_find replicas sel rack Ho (proj1 Hc) Hin) as Hfind.
  destruct (List.find _ _) as [b|]; [destruct Hfind as [Ho' _]|]; by eapply IH.
Qed.

(** When a rack is full and there are fewer open ones than replicas, the first pass does not end. *)
Lemma rack_loop_spins : (size open_racks < n)%nat -> (size open_racks < length racks)%nat ->
  forall fuel i replicas sel, one_per_rack replicas sel ->
  rack_loop fuel (rackBrokers brokers) racks load n i replicas sel = None.
Proof using ids_nodup.
  intros Hn HL. induction fuel as [|fuel IH]; intros i replicas sel Ho; cbn [rack_loop];
    pose proof (opr_size _ _ Ho) as Hz; pose proof (subseteq_size _ _ (opr_open _ _ Ho)) as Hz';
    (rewrite decide_True by (split; lia)); [done|].
  destruct (lookup_lt_is_Some_2 racks (i mod length racks)%nat) as [rack ->]; [apply Nat.mod_upper_bound; lia|].
  cbn [mbind option_bind]. case_decide as Hin; [by apply IH|].
  pose proof (rack_find replicas sel rack Ho ltac:(lia) Hin) as Hfind.
  destruct (List.find _ _) as [b|]; [destruct Hfind as [Ho' _]|]; by apply IH.
Qed.

(** The pass over the brokers in the rack-aware range selection. *)
Record spreading (bs : list BrokerInfo) (replicas : list Z) (sel : gset bytes) : Prop := {
  spr_sel : selecting replicas;
  spr_racks : sel = racks_of replicas;
  spr_size : size sel = length replicas \/ size sel = length racks;
  spr_seen b : b ∈ bs -> hasCapacity load (cb_ID b) = true -> (n <= length replicas)%nat \/ rackOf b ∈ sel
}.

Lemma numRacks : size (rackBrokers brokers) = length racks.
Proof using.
  unfold sorted_racks. rewrite merge_sort_Permutation, length_fmap. by rewrite length_map_to_list.
Qed.

Lemma range_rack_step_spec bs replicas sel b : spreading bs replicas sel -> b ∈ brokers ->
  let st := range_rack_step load (brokerRack brokers) (size (rackBrokers brokers)) n (replicas, sel) b in
  spreading (b :: bs) st.1 st.2.
Proof using ids_nodup.
  intros [Hs Hr Hz Hseen] Hb. unfold range_rack_step. rewrite (brokerRack_lookup brokers b) by done.
  rewrite numRacks. cbn [default from_option id].
  assert (forall P, P \/ (n <= length replicas)%nat \/ rackOf b ∈ sel ->
            (P -> hasCapacity load (cb_ID b) = true -> False) -> spreading (b :: bs) replicas sel) as Hstay.
  { intros P HP HnP. split; [done..|]. intros b' [->|Hb']%elem_of_cons Hc; [|by apply Hseen].
    destruct HP as [HP|HP]; [by destruct (HnP HP)|done]. }
  case_decide as Hl; [apply (Hstay False); [by right; left|done]|].
  case_decide as Hin.
  { apply (Hstay False); [|done]. right. right. rewrite Hr. apply elem_of_racks_of. eauto. }
  destruct (hasCapacity load (cb_ID b)) eqn:Hc; cbn [negb].
  2:{ apply (Hstay True); [by left|]. intros _ Hc'. done. }
  case_bool_decide as Hcond.
  2:{ apply (Hstay False); [|done]. right. right. apply dec_stable. intros Hn. apply Hcond. by left. }
  assert (spreading bs replicas sel) as Hsp by done.
  assert (racks_of (replicas ++ [cb_ID b]) ⊆ all_racks) as Hall.
  { intros r (b' & Hb' & _ & <-)%elem_of_racks_of. apply elem_of_list_to_set. by apply list_elem_of_fmap_2. }
  rewrite racks_of_snoc, <- Hr in Hall by done. apply subseteq_size in Hall. rewrite racks_size in Hall.
  cbn [fst snd]. split.
  - apply selecting_snoc; [done|done|lia|done|done].
  - by rewrite racks_of_snoc, <- Hr.
  - destruct (decide (rackOf b ∈ sel)) as [Hin'|Hin'].
    + destruct Hcond as [?|Hfull]; [done|]. right. rewrite subseteq_union_1_L by set_solver. done.
    + rewrite size_union, size_singleton in Hall |- * by set_solver. rewrite length_app. simpl. lia.
  - intros b' [->|Hb']%elem_of_cons Hc'; [right; set_solver|].
    destruct (Hseen b' Hb' Hc') as [?|?]; [lia|right; set_solver].
Qed.

Lemma range_rack_pass bs : forall seen replicas sel, bs ⊆ brokers -> spreading seen replicas sel ->
  let st := fold_left (range_rack_step load (brokerRack brokers) (size (rackBrokers brokers)) n) bs (replicas, sel) in
  spreading (rev bs ++ seen) st.1 st.2.
Proof using ids_nodup.
  induction bs as [|b bs IH]; intros seen replicas sel Hsub Hsp; [done|]. cbn [fold_left rev].
  pose proof (range_rack_step_spec seen replicas sel b Hsp ltac:(set_solver)) as H.
  destruct (range_rack_step _ _ _ _ _ _) as [replicas' sel']. rewrite <- app_assoc. simpl in *.
  apply IH; [set_solver|done].
Qed.

Lemma spreading_racks replicas sel : spreading (rev brokers) replicas sel ->
  (n `min` size open_racks <= size (racks_of replicas))%nat.
Proof using.
  intros [Hs Hr Hz Hseen]. rewrite <- Hr. pose proof (subseteq_size _ _ open_racks_sub) as Hz'.
  rewrite racks_size in Hz'. destruct (decide (n <= length replicas)%nat) as [Hl|Hl]; [lia|].
  assert (open_racks ⊆ sel) as Hsub; [|apply subseteq_size in Hsub; lia].
  intros r (b & Hb & Hc & <-)%elem_of_open_racks.
  destruct (Hseen b) as [?|?]; [by rewrite list_elem_of_In, <- in_rev, <- list_elem_of_In|done|lia|done].
Qed.
End racks.

(** ** The selections of the strategies *)

(** How many replicas a partition gets: what it asks for, but one per broker at most. *)
Definition wanted (bs : list BrokerInfo) (p : PartitionInfo) : nat := Z.to_nat (cp_Replicas p `min` zlen bs).

Lemma replicaCount_spec p bs n : replicaCount p bs = Returns n -> n = wanted bs p /\ (0 < n)%nat.
Proof.
  unfold replicaCount, wanted. rewrite Z.gtb_ltb. intros H. zbool; try done; injection H as <-; lia.
Qed.

Lemma replicaCount_returns p bs : 1 <= cp_Replicas p -> bs <> [] -> replicaCount p bs = Returns (wanted bs p).
Proof.
  intros Hp Hb. assert (0 < zlen bs) by (destruct bs; [done|simpl; lia]).
  unfold replicaCount, wanted. rewrite Z.gtb_ltb. zbool; try lia; f_equal; lia.
Qed.

(** What a selection of replicas for [p] promises. *)
Record selected (bs : list BrokerInfo) (load : brokerLoad) (rackAware : bool) (p : PartitionInfo) (replicas : list Z) : Prop := {
  selected_ok : selecting bs load (wanted bs p) replicas;
  selected_length : length replicas = wanted bs p;
  selected_nonempty : (0 < wanted bs p)%nat;
  selected_racks : rackAware = true -> (wanted bs p `min` size (open_racks bs load) <= size (racks_of bs replicas))%nat
}.

Lemma enough_selected bs load ra p replicas out : (0 < wanted bs p)%nat -> selecting bs load (wanted bs p) replicas ->
  (ra = true -> (wanted bs p `min` size (open_racks bs load) <= size (racks_of bs replicas))%nat) ->
  enough load (wanted bs p) replicas = Returns out -> selected bs load ra p out.
Proof.
  intros Hw Hs Hr (H1 & H2 & ->)%(enough_spec bs); [|done]. by split.
Qed.

Section strategies.
Context (bs : list BrokerInfo) (ids_nodup : NoDup (cb_ID <$> bs)).
Context (load : brokerLoad) (c : AssignmentConstraints).

(** All brokers, rack by rack. *)
Lemma by_racks_same b : b ∈ (sorted_racks bs ≫= fun r => default [] (rackBrokers bs !! r)) <-> b ∈ bs.
Proof.
  rewrite list_elem_of_bind. setoid_rewrite (proj1 (rackBrokers_lookup bs _)).
  setoid_rewrite list_elem_of_filter. setoid_rewrite (proj2 (sorted_racks_spec bs)). naive_solver.
Qed.

Lemma rr_selectReplicas_sound fuel p i i' replicas : rr_selectReplicas fuel p bs i c load = Returns (i', replicas) ->
  selected bs load (ac_RackAware c) p replicas.
Proof using ids_nodup.
  unfold rr_selectReplicas. intros (n & [Hn Hn0]%replicaCount_spec & H)%bind_Returns. subst n.
  destruct (ac_RackAware c).
  - unfold rr_selectRackAwareReplicas in H. destruct (rack_loop _ _ _ _ _ _ _ _) as [r|] eqn:E; [|done].
    apply rack_loop_sound in E as [Hs Hr]; [|done|apply one_per_rack_nil].
    apply bind_Returns in H as (out & H & [= _ <-]).
    destruct (fill_spec bs load (wanted bs p) (sorted_racks bs ≫= fun r => default [] (rackBrokers bs !! r)) r Hs)
      as (H1 & H2 & _); [intros b; apply by_racks_same|].
    eapply enough_selected; [done|exact H1| |exact H]. intros _.
    pose proof (subseteq_size _ _ (racks_of_mono bs _ _ H2)). lia.
  - pose proof (pick_loop_spec bs load (wanted bs p) (length bs * 2) i [] (selecting_nil _ _ _)) as (H1 & _).
    destruct (pick_loop _ _ _ _ _ _) as [j r]. apply bind_Returns in H as (out & H & [= _ <-]).
    by eapply enough_selected.
Qed.

Lemma next_loop_spec k : forall idx j, next_loop k bs idx load = Some j ->
  exists b, bs !! j = Some b /\ hasCapacity load (cb_ID b) = true.
Proof.
  induction k as [|k IH]; intros idx j; cbn [next_loop]; [done|].
  destruct (bs !! _) as [b|] eqn:E; [|done]. destruct (hasCapacity load (cb_ID b)) eqn:Hc; [|by apply IH].
  intros [= <-]. eauto.
Qed.

Lemma range_start n start : (0 < n)%nat ->
  selecting bs load n (match nextBrokerWithCapacity bs start load ≫= (bs !!.) with Some b => [cb_ID b] | None => [] end).
Proof.
  intros Hn. destruct (nextBrokerWithCapacity bs start load) as [j|] eqn:E; [|apply selecting_nil].
  apply next_loop_spec in E as (b & Hb & Hc). cbn [mbind option_bind]. rewrite Hb.
  apply (selecting_snoc bs load n []); [apply selecting_nil|by eapply list_elem_of_lookup_2|done|set_solver|done].
Qed.

Lemma range_rack_pass_spec n start : (0 < n)%nat ->
  let racks := brokerRack bs in
  let st := match nextBrokerWithCapacity bs start load ≫= (bs !!.) with
            | Some primaryBroker => ([cb_ID primaryBroker], {[default [] (racks !! cb_ID primaryBroker)]})
            | None => ([], ∅)
            end in
  let '(replicas, _) := fold_left (range_rack_step load racks (size (rackBrokers bs)) n) bs st in
  selecting bs load n replicas /\ (n `min` size (open_racks bs load) <= size (racks_of bs replicas))%nat.
Proof using ids_nodup.
  intros Hn. cbn zeta. pose proof (range_start n start Hn) as Hst.
  destruct (nextBrokerWithCapacity bs start load ≫= (bs !!.)) as [b|] eqn:E.
  - assert (b ∈ bs) as Hb.
    { apply bind_Some in E as (j & _ & Hj). by eapply list_elem_of_lookup_2. }
    rewrite (brokerRack_lookup bs b) by done. cbn [default from_option id].
    assert ({[rackOf b]} = racks_of bs [cb_ID b]) as Hr.
    { change [cb_ID b] with ([] ++ [cb_ID b]). rewrite (racks_of_snoc bs ids_nodup [] b Hb).
      assert (racks_of bs [] = ∅) as ->; [|by rewrite (right_id_L ∅ (∪))].
      apply set_eq. intros r. rewrite elem_of_racks_of. set_solver. }
    pose proof (range_rack_pass bs load n ids_nodup bs [] [cb_ID b] {[rackOf b]} (reflexivity bs)) as H.
    destruct (fold_left _ _ _) as [replicas sel]. rewrite app_nil_r in H.
    assert (spreading bs load n (rev bs) replicas sel) as Hsp
      by (apply H; split; [done|done|left; by rewrite size_singleton|set_solver]).
    split; [by destruct Hsp|by eapply spreading_racks].
  - pose proof (range_rack_pass bs load n ids_nodup bs [] [] ∅ (reflexivity bs)) as H.
    destruct (fold_left _ _ _) as [replicas sel]. rewrite app_nil_r in H.
    assert (spreading bs load n (rev bs) replicas sel) as Hsp.
    { apply H. split; [done| |by left|set_solver]. apply set_eq. intros r. rewrite elem_of_racks_of. set_solver. }
    split; [by destruct Hsp|by eapply spreading_racks].
Qed.

Lemma range_selectReplicas_sound p start replicas : range_selectReplicas p bs start c load = Returns replicas ->
  selected bs load (ac_RackAware c) p replicas.
Proof using ids_nodup.
  unfold range_selectReplicas. intros (n & [Hn Hn0]%replicaCount_spec & H)%bind_Returns. subst n.
  destruct (ac_RackAware c).
  - unfold range_selectRackAwareReplicas in H. pose proof (range_rack_pass_spec (wanted bs p) start Hn0) as Hp.
    cbn zeta in *. destruct (fold_left _ bs _) as [r sel]. destruct Hp as [Hs Hr].
    destruct (fill_spec bs load (wanted bs p) bs r Hs (reflexivity bs)) as (H1 & H2 & _).
    eapply enough_selected; [done|exact H1| |exact H]. intros _.
    pose proof (subseteq_size _ _ (racks_of_mono bs _ _ H2)). lia.
  - pose proof (range_start (wanted bs p) start Hn0) as Hst.
    pose proof (pick_loop_spec bs load (wanted bs p) (length bs * 2)
      (match nextBrokerWithCapacity bs start load with Some i => S i | None => O end) _ Hst) as (H1 & _).
    by eapply enough_selected.
Qed.

(** A selection only fails when too few brokers have capacity, save for the first pass of
    the rack-aware round robin, that may not end. *)
Lemma rr_selectReplicas_complete fuel p i : 1 <= cp_Replicas p -> bs <> [] ->
  (wanted bs p <= length (open_brokers bs load))%nat ->
  (ac_RackAware c = true -> (length (sorted_racks bs) <= fuel)%nat
     /\ ((wanted bs p <= size (open_racks bs load))%nat \/ size (open_racks bs load) = length (sorted_racks bs))) ->
  exists i' replicas, rr_selectReplicas fuel p bs i c load = Returns (i', replicas).
Proof using ids_nodup.
  intros Hp Hne Hopen Hra. unfold rr_selectReplicas. rewrite replicaCount_returns by done. cbn [mbind outcome_bind].
  destruct (ac_RackAware c).
  - destruct (Hra eq_refl) as [Hf Hterm]. unfold rr_selectRackAwareReplicas.
    destruct (rack_loop_ends bs load (wanted bs p) ids_nodup (i mod length (sorted_racks bs)) Hne Hterm
                (length (sorted_racks bs)) 0 fuel [] ∅) as [r E]; [lia|done|apply one_per_rack_nil|intros; lia|].
    rewrite Nat.add_0_r in E. rewrite E. apply rack_loop_sound in E as [Hs _]; [|done|apply one_per_rack_nil].
    destruct (fill_spec bs load (wanted bs p) (sorted_racks bs ≫= fun r => default [] (rackBrokers bs !! r)) r Hs)
      as (H1 & _ & H3); [intros b; apply by_racks_same|].
    rewrite (enough_complete bs load _ _ ids_nodup H1); [|  |done].
    + eexists _, _. done.
    + eapply exhausted_sub; [|exact H3]. intros b. apply by_racks_same.
  - pose proof (pick_loop_spec bs load (wanted bs p) (length bs * 2) i [] (selecting_nil _ _ _)) as (H1 & _).
    pose proof (pick_loop_all bs load (wanted bs p) i [] (selecting_nil _ _ _)) as H2.
    destruct (pick_loop _ _ _ _ _ _) as [j r]. simpl in H1, H2. rewrite (enough_complete bs load _ _ ids_nodup H1 H2 Hopen).
    eexists _, _. done.
Qed.

Lemma range_selectReplicas_complete p start : 1 <= cp_Replicas p -> bs <> [] ->
  (wanted bs p <= length (open_brokers bs load))%nat ->
  exists replicas, range_selectReplicas p bs start c load = Returns replicas.
Proof using ids_nodup.
  intros Hp Hne Hopen. unfold range_selectReplicas. pose proof (replicaCount_returns p bs Hp Hne) as Hrc.
  destruct (replicaCount_spec _ _ _ Hrc) as [_ Hn0]. rewrite Hrc. cbn [mbind outcome_bind].
  destruct (ac_RackAware c).
  - unfold range_selectRackAwareReplicas. pose proof (range_rack_pass_spec (wanted bs p) start Hn0) as Hp'.
    cbn zeta in *. destruct (fold_left _ bs _) as [r sel]. destruct Hp' as [Hs _].
    destruct (fill_spec bs load (wanted bs p) bs r Hs (reflexivity bs)) as (H1 & _ & H3).
    rewrite (enough_complete bs load _ _ ids_nodup H1 H3 Hopen). by eexists.
  - pose proof (range_start (wanted bs p) start Hn0) as Hst.
    set (i := match nextBrokerWithCapacity bs start load with Some i => S i | None => O end).
    pose proof (pick_loop_spec bs load (wanted bs p) (length bs * 2) i _ Hst) as (H1 & _).
    pose proof (pick_loop_all bs load (wanted bs p) i _ Hst) as H2.
    rewrite (enough_complete bs load _ _ ids_nodup H1 H2 Hopen). by eexists.
Qed.
End strategies.

(** ** The assignments of the strategies *)

Lemma bcl_lookup bs c b : NoDup (cb_ID <$> bs) -> b ∈ bs ->
  brokerCapacityLimits bs c !! cb_ID b = Some (tighterLimit (ac_MaxPartitionsPerBroker c) (cb_Capacity b)).
Proof.
  unfold brokerCapacityLimits. induction bs as [|b' bs IH] using rev_ind; [set_solver|].
  rewrite fold_left_app, fmap_app, NoDup_app. simpl. intros (Hnd & Hdis & _) [Hb|Hb%list_elem_of_singleton]%elem_of_app;
    [|subst b'; by rewrite lookup_insert_eq].
  rewrite lookup_insert_ne; [by apply IH|]. intros E. apply (Hdis (cb_ID b)); [by apply list_elem_of_fmap_2|].
  rewrite E. by left.
Qed.

Lemma existing_counts bs c id : id ∈ cb_ID <$> bs ->
  at0 (bl_counts (newBrokerLoad bs c)) id = at0 (ac_ExistingLoad c) id.
Proof.
  unfold newBrokerLoad. simpl. induction bs as [|b bs IH] using rev_ind; [set_solver|].
  rewrite fold_left_app, fmap_app, elem_of_app. simpl. intros Hid. destruct (decide (cb_ID b = id)) as [<-|Hne].
  - unfold at0 at 1. by rewrite lookup_insert_eq.
  - destruct Hid as [Hid|Hid]; [|set_solver]. rewrite <- (IH Hid). unfold at0. by rewrite lookup_insert_ne.
Qed.

Lemma addAll_spec l : forall load, bl_counts (addAll load l) = fold_left incr l (bl_counts load)
  /\ bl_limits (addAll load l) = bl_limits load.
Proof. unfold addAll. induction l as [|b l IH]; intros load; simpl; [done|]. by destruct (IH (add load b)) as [-> ->]. Qed.

Definition limit_of (c : AssignmentConstraints) (b : BrokerInfo) : Z :=
  tighterLimit (ac_MaxPartitionsPerBroker c) (cb_Capacity b).

(** No broker has a limit. *)
Definition unlimited (bs : list BrokerInfo) (c : AssignmentConstraints) : Prop := forall b, b ∈ bs -> limit_of c b <= 0.

(** The replicas of one partition are what was asked for: on distinct brokers of [bs], and
    with the rack-aware option and no limits on as many racks as possible. *)
Record good_replicas (bs : list BrokerInfo) (c : AssignmentConstraints) (p : PartitionInfo) (replicas : list Z) : Prop := {
  gr_nodup : NoDup replicas;
  gr_brokers id : id ∈ replicas -> id ∈ cb_ID <$> bs;
  gr_length : length replicas = wanted bs p;
  gr_nonempty : replicas <> [];
  gr_racks : ac_RackAware c = true -> unlimited bs c ->
    (wanted bs p `min` size (all_racks bs) <= size (racks_of bs replicas))%nat
}.

(** An assignment places the partitions on the brokers [bs]: it has exactly them, each with
    good replicas led by the first; the loads are the numbers of replicas; and no broker
    is loaded beyond its limit, or beyond what it held before if that was more. *)
Record placed (bs : list BrokerInfo) (c : AssignmentConstraints) (partitions : list PartitionInfo) (a : Assignment) : Prop := {
  pl_keys : dom (a_Partitions a) = list_to_set (key_of <$> partitions);
  pl_replicas p : p ∈ partitions -> exists replicas, a_Partitions a !! key_of p = Some replicas
    /\ good_replicas bs c p replicas /\ a_Leaders a !! key_of p = head replicas;
  pl_leaders : dom (a_Leaders a) = dom (a_Partitions a);
  pl_load : a_BrokerLoad a = computedLoad (a_Partitions a);
  pl_version : a_Version a = 0;
  pl_limit b : b ∈ bs -> 0 < limit_of c b ->
    at0 (ac_ExistingLoad c) (cb_ID b) + at0 (a_BrokerLoad a) (cb_ID b) <= at0 (ac_ExistingLoad c) (cb_ID b) `max` limit_of c b
}.

Section assign.
Context (bs : list BrokerInfo) (ids_nodup : NoDup (cb_ID <$> bs)) (c : AssignmentConstraints).

(** The tracker of the loads beside the assignment. *)
Record tracks (a : Assignment) (load : brokerLoad) : Prop := {
  tr_counts id : id ∈ cb_ID <$> bs -> at0 (bl_counts load) id = at0 (ac_ExistingLoad c) id + at0 (a_BrokerLoad a) id;
  tr_limits : bl_limits load = brokerCapacityLimits bs c
}.

Lemma placed_new : placed bs c [] NewAssignment.
Proof.
  split; simpl; [by rewrite dom_empty_L|by intros p ?%elem_of_nil|by rewrite !dom_empty_L| |done|].
  { unfold computedLoad. by rewrite map_fold_empty. }
  intros b _ _. unfold at0 at 2. rewrite lookup_empty. simpl. lia.
Qed.

Lemma tracks_new : tracks NewAssignment (newBrokerLoad bs c).
Proof.
  split; [|done]. intros id Hid. rewrite existing_counts by done. simpl. unfold at0 at 3. rewrite lookup_empty. simpl. lia.
Qed.

Lemma hasCapacity_iff a load b : tracks a load -> b ∈ bs ->
  hasCapacity load (cb_ID b) = true
  <-> limit_of c b <= 0 \/ at0 (ac_ExistingLoad c) (cb_ID b) + at0 (a_BrokerLoad a) (cb_ID b) < limit_of c b.
Proof using ids_nodup.
  intros [Hc Hl] Hb. unfold hasCapacity, withinLimit. rewrite Hl, bcl_lookup by done. fold (limit_of c b).
  rewrite Hc by (by apply list_elem_of_fmap_2). zbool; naive_solver lia.
Qed.

Lemma unlimited_open a load : tracks a load -> unlimited bs c ->
  open_brokers bs load = bs /\ open_racks bs load = all_racks bs.
Proof using ids_nodup.
  intros Ht Hu. assert (open_brokers bs load = bs) as Ho.
  { apply filter_all. intros b Hb. apply (hasCapacity_iff a); [done..|]. left. by apply Hu. }
  split; [done|]. unfold open_racks. by rewrite Ho.
Qed.

(** One partition more. *)
Lemma place_step partitions a load p replicas : placed bs c partitions a -> tracks a load ->
  key_of p ∉ key_of <$> partitions -> selected bs load (ac_RackAware c) p replicas ->
  placed bs c (partitions ++ [p]) (AddReplica a (cp_Topic p) (cp_PartitionID p) replicas)
  /\ tracks (AddReplica a (cp_Topic p) (cp_PartitionID p) replicas) (addAll load replicas).
Proof using ids_nodup.
  intros [P1 P2 P3 P4 P5 P6] Ht Hfresh [[Hnd Hin Hlen] Hlen' Hne Hracks].
  assert (a_Partitions a !! key_of p = None) as Hnone.
  { apply not_elem_of_dom. rewrite P1. by rewrite elem_of_list_to_set. }
  assert (exists l rs, replicas = l :: rs) as (l & rs & E) by (destruct replicas as [|l rs]; [simpl in *; lia|eauto]).
  unfold AddReplica. fold (key_of p). rewrite E. rewrite <- E. split; [split|split]; simpl.
  - rewrite dom_insert_L, P1, fmap_app, list_to_set_app_L. simpl. set_solver.
  - intros q [Hq|Hq%list_elem_of_singleton]%elem_of_app; [|subst q].
    + assert (key_of p <> key_of q) as Hpq by (intros Hpq; apply Hfresh; rewrite Hpq; by apply list_elem_of_fmap_2).
      destruct (P2 q Hq) as (r & H1 & H2 & H3). exists r. by rewrite !lookup_insert_ne.
    + exists replicas. rewrite !lookup_insert_eq. split; [done|]. split; [|by rewrite E]. split.
      * done.
      * intros id Hid. by apply Hin.
      * done.
      * by rewrite E.
      * intros Hra Hu. destruct (unlimited_open a load Ht Hu) as [_ <-]. by apply Hracks.
  - by rewrite !dom_insert_L, P3.
  - unfold computedLoad in *. by rewrite P4, load_from_insert.
  - done.
  - intros b Hb Hlim. rewrite at0_incr_all. pose proof (P6 b Hb Hlim) as Hold.
    destruct (decide (cb_ID b ∈ replicas)) as [Hb'|Hb'].
    + rewrite occurs_elem by done. destruct (Hin _ Hb') as [_ Hc]. apply (hasCapacity_iff a) in Hc; [|done..]. lia.
    + rewrite occurs_not_elem by done. lia.
  - intros id Hid. destruct (addAll_spec replicas load) as [-> _]. rewrite !at0_incr_all, (tr_counts _ _ Ht) by done. lia.
  - destruct (addAll_spec replicas load) as [_ ->]. by destruct Ht.
Qed.

(** An assignment built this way passes the validation. *)
Lemma placed_valid partitions a : placed bs c partitions a -> Validate a = None.
Proof using.
  intros [P1 P2 P3 P4 _ _]. unfold Validate. rewrite !bool_decide_true; [done| | |]; cbn [negb].
  - intros b load Hb. rewrite <- P4. unfold at0. by rewrite Hb.
  - intros key leader Hl. assert (key ∈ dom (a_Partitions a)) as Hk by (rewrite <- P3; by eapply elem_of_dom_2).
    rewrite P1, elem_of_list_to_set, list_elem_of_fmap in Hk. destruct Hk as (p & -> & Hp).
    destruct (P2 p Hp) as (r & -> & _ & Hh). rewrite Hl in Hh. simpl. symmetry in Hh. by apply head_Some_elem_of in Hh.
  - intros key r Hk. apply elem_of_dom. rewrite P3. by eapply elem_of_dom_2.
Qed.

Lemma foldM_app {A S} (f : S -> A -> outcome S) l k s : foldM f (l ++ k) s = s' ← foldM f l s; foldM f k s'.
Proof. revert s. induction l as [|x l IH]; intros s; simpl; [done|]. destruct (f s x); simpl; [apply IH|done..]. Qed.

Lemma fresh_key before p partitions : NoDup (key_of <$> before ++ p :: partitions) ->
  key_of p ∉ key_of <$> before /\ NoDup (key_of <$> (before ++ [p]) ++ partitions).
Proof using.
  intros H. split; [|by rewrite <- app_assoc]. rewrite fmap_app, NoDup_app in H. destruct H as (_ & H & _).
  intros Hin. apply (H _ Hin). by left.
Qed.

(** *** Round robin *)

Lemma rr_fold_sound fuel partitions : forall before a i load a' i' load',
  placed bs c before a -> tracks a load -> NoDup (key_of <$> before ++ partitions) ->
  foldM (rr_step fuel bs c) partitions (a, i, load) = Returns (a', i', load') ->
  placed bs c (before ++ partitions) a'.
Proof using ids_nodup.
  induction partitions as [|p partitions IH]; intros before a i load a' i' load' Hp Ht Hnd; cbn [foldM].
  { intros [= <- _ _]. by rewrite app_nil_r. }
  intros ([[a1 i1] load1] & H1 & H2)%bind_Returns. unfold rr_step in H1.
  apply bind_Returns in H1 as ([j replicas] & Hs & [= <- <- <-]). apply rr_selectReplicas_sound in Hs; [|done].
  apply fresh_key in Hnd as [Hfresh Hnd].
  destruct (place_step before a load p replicas Hp Ht Hfresh) as [Hp' Ht']; [done|].
  rewrite cons_middle, app_assoc. eapply IH; [done|done|done|exact H2].
Qed.

Lemma rr_fold_complete fuel partitions : bs <> [] -> unlimited bs c -> (length (sorted_racks bs) <= fuel)%nat ->
  Forall (fun p => 1 <= cp_Replicas p) partitions -> forall before a i load,
  placed bs c before a -> tracks a load -> NoDup (key_of <$> before ++ partitions) ->
  exists st, foldM (rr_step fuel bs c) partitions (a, i, load) = Returns st.
Proof using ids_nodup.
  intros Hne Hu Hf. induction 1 as [|p partitions Hp1 Hps IH]; intros before a i load Hp Ht Hnd; cbn [foldM].
  { by eexists. }
  destruct (unlimited_open a load Ht Hu) as [Ho Hr].
  assert (wanted bs p <= length bs)%nat as Hw by (unfold wanted; lia).
  destruct (rr_selectReplicas_complete bs ids_nodup load c fuel p i) as (i' & replicas & Hs); [done|done|by rewrite Ho| |].
  { intros _. split; [done|]. right. by rewrite Hr, racks_size. }
  assert (rr_step fuel bs c (a, i, load) p
          = Returns (AddReplica a (cp_Topic p) (cp_PartitionID p) replicas, i', addAll load replicas)) as ->
    by (unfold rr_step; by rewrite Hs).
  cbn [mbind outcome_bind]. apply rr_selectReplicas_sound in Hs; [|done].
  apply fresh_key in Hnd as [Hfresh Hnd].
  destruct (place_step before a load p replicas Hp Ht Hfresh) as [Hp' Ht']; [done|].
  by eapply IH.
Qed.
End assign.

(** *** Range *)

(** The groups of the partitions: every topic with its partitions, in the order of their numbers. *)
Lemma groupByTopic_spec partitions t :
  default [] (groupByTopic partitions !! t) ≡ₚ filter (fun p => cp_Topic p = t) partitions
  /\ (is_Some (groupByTopic partitions !! t) <-> exists p, p ∈ partitions /\ cp_Topic p = t).
Proof.
  unfold groupByTopic. rewrite lookup_fmap.
  set (g := fold_left _ partitions ∅).
  assert (default [] (g !! t) = filter (fun p => cp_Topic p = t) partitions
          /\ (is_Some (g !! t) <-> exists p, p ∈ partitions /\ cp_Topic p = t)) as [H1 H2].
  { subst g. clear. induction partitions as [|p ps [IH1 IH2]] using rev_ind; simpl.
    { rewrite lookup_empty. split; [done|]. split; [by intros [? ?]|]. intros (? & ?%elem_of_nil & _). done. }
    rewrite fold_left_app, filter_app. simpl. destruct (decide (cp_Topic p = t)) as [E|E].
    - rewrite filter_cons_True by done. rewrite E, lookup_insert_eq. simpl. rewrite IH1. split; [done|].
      split; [|by eauto]. intros _. exists p. set_solver.
    - rewrite filter_cons_False by done. rewrite lookup_insert_ne by done. rewrite app_nil_r. split; [done|].
      rewrite IH2. set_solver. }
  rewrite fmap_is_Some. split; [|done]. destruct (g !! t) as [l|]; simpl in *; rewrite <- H1; [|done].
  by rewrite merge_sort_Permutation.
Qed.

(** All groups, one after the other, are the partitions. *)
Lemma groups_concat partitions topics : NoDup topics -> (forall t, t ∈ topics <-> exists p, p ∈ partitions /\ cp_Topic p = t) ->
  (topics ≫= fun t => default [] (groupByTopic partitions !! t)) ≡ₚ partitions.
Proof.
  revert partitions. induction topics as [|t topics IH]; intros partitions Hnd Hin.
  - destruct partitions as [|p ps]; [done|]. assert (cp_Topic p ∈ []) as H%elem_of_nil by (apply Hin; exists p; set_solver). done.
  - apply NoDup_cons in Hnd as [Ht Hnd]. cbn [mbind list_bind]. rewrite (proj1 (groupByTopic_spec partitions t)).
    etrans; [|apply (filter_app_complement (fun p => cp_Topic p = t))]. f_equiv.
    rewrite <- (IH (filter (fun p => ~ cp_Topic p = t) partitions) Hnd).
    + assert (forall t', t' ∈ topics -> default [] (groupByTopic partitions !! t')
                ≡ₚ default [] (groupByTopic (filter (fun p => ~ cp_Topic p = t) partitions) !! t')) as Hsame.
      { intros t' Ht'. rewrite !(proj1 (groupByTopic_spec _ _)), list_filter_filter.
        erewrite list_filter_iff; [done|]. intros p. simpl. split; [|tauto]. intros ->. split; [done|]. congruence. }
      clear - Hsame. induction topics as [|t' topics IH]; [done|]. cbn [mbind list_bind]. f_equiv.
      * apply Hsame. by left.
      * apply IH. intros t'' Ht''. apply Hsame. by right.
    + intros t'. split.
      * intros Ht'. destruct (proj1 (Hin t')) as (p & Hp & <-); [by right|]. exists p. split; [|done].
        apply list_elem_of_filter. split; [|done]. congruence.
      * intros (p & [Hn Hp]%list_elem_of_filter & <-). assert (cp_Topic p ∈ t :: topics) as H by (apply Hin; eauto).
        apply elem_of_cons in H as [?|?]; [done|done].
Qed.

Section range.
Context (bs : list BrokerInfo) (ids_nodup : NoDup (cb_ID <$> bs)) (c : AssignmentConstraints).

Lemma range_block_sound topic k brokerIdx : forall rest before a load rest' a' load',
  placed bs c before a -> tracks bs c a load -> Forall (fun p => cp_Topic p = topic) rest ->
  NoDup (key_of <$> before ++ rest) ->
  range_block k topic bs brokerIdx c rest (a, load) = Returns (rest', (a', load')) ->
  rest' = drop k rest /\ placed bs c (before ++ take k rest) a' /\ tracks bs c a' load'.
Proof using ids_nodup.
  induction k as [|k IH]; intros rest before a load rest' a' load' Hp Ht Htop Hnd; cbn [range_block].
  { intros [= <- <- <-]. by rewrite app_nil_r. }
  destruct rest as [|p rest]; [intros [= <- <- <-]; by rewrite app_nil_r|].
  apply Forall_cons in Htop as [Hp1 Htop].
  intros (replicas & Hs & H)%bind_Returns. apply range_selectReplicas_sound in Hs; [|done].
  apply fresh_key in Hnd as [Hfresh Hnd]. subst topic.
  destruct (place_step bs ids_nodup c before a load p replicas Hp Ht Hfresh Hs) as [Hp' Ht'].
  destruct (IH _ _ _ _ _ _ _ Hp' Ht' Htop Hnd H) as (-> & H2 & H3).
  simpl. by rewrite cons_middle, app_assoc.
Qed.

Lemma range_brokers_sound topic per extra todo : forall brokerIdx rest before a load a' load',
  (extra <= brokerIdx + todo)%nat -> (length rest <= todo * per + (extra - brokerIdx))%nat ->
  placed bs c before a -> tracks bs c a load -> Forall (fun p => cp_Topic p = topic) rest ->
  NoDup (key_of <$> before ++ rest) ->
  range_brokers todo brokerIdx per extra topic bs c rest (a, load) = Returns (a', load') ->
  placed bs c (before ++ rest) a' /\ tracks bs c a' load'.
Proof using ids_nodup.
  induction todo as [|todo IH]; intros brokerIdx rest before a load a' load' He Hl Hp Ht Htop Hnd; cbn [range_brokers].
  { intros [= <- <-]. destruct rest; [by rewrite app_nil_r|simpl in Hl; lia]. }
  intros ([rest1 [a1 load1]] & H1 & H2)%bind_Returns.
  destruct (range_block_sound _ _ _ _ _ _ _ _ _ _ Hp Ht Htop Hnd H1) as (-> & Hp1 & Ht1).
  set (k := if decide (brokerIdx < extra)%nat then S per else per) in *.
  rewrite <- (take_drop k rest) in Hnd. rewrite <- (take_drop k rest), app_assoc.
  eapply IH; [| |exact Hp1|exact Ht1|by apply Forall_drop|by rewrite <- app_assoc|exact H2]; [lia|].
  rewrite length_drop. unfold k. case_decide; lia.
Qed.

Lemma assignTopicPartitions_sound topic parts before a load a' load' : bs <> [] ->
  placed bs c before a -> tracks bs c a load -> Forall (fun p => cp_Topic p = topic) parts ->
  NoDup (key_of <$> before ++ parts) ->
  assignTopicPartitions topic parts bs c (a, load) = Returns (a', load') ->
  placed bs c (before ++ parts) a' /\ tracks bs c a' load'.
Proof using ids_nodup.
  intros Hne Hp Ht Htop Hnd. assert (length bs <> 0)%nat as HL by (by destruct bs).
  pose proof (Nat.mod_upper_bound (length parts) (length bs) HL).
  pose proof (Nat.div_mod_eq (length parts) (length bs)).
  apply range_brokers_sound; try done; lia.
Qed.

Lemma range_block_complete topic k brokerIdx : bs <> [] -> unlimited bs c -> forall rest before a load,
  placed bs c before a -> tracks bs c a load -> Forall (fun p => cp_Topic p = topic) rest ->
  Forall (fun p => 1 <= cp_Replicas p) rest -> NoDup (key_of <$> before ++ rest) ->
  exists rest' a' load', range_block k topic bs brokerIdx c rest (a, load) = Returns (rest', (a', load')).
Proof using ids_nodup.
  intros Hne Hu. induction k as [|k IH]; intros rest before a load Hp Ht Htop Hr Hnd; cbn [range_block].
  { by eexists _, _, _. }
  destruct rest as [|p rest]; [by eexists _, _, _|].
  apply Forall_cons in Htop as [Hp1 Htop]. apply Forall_cons in Hr as [Hr1 Hr].
  destruct (unlimited_open bs ids_nodup c a load Ht Hu) as [Ho _].
  destruct (range_selectReplicas_complete bs ids_nodup load c p brokerIdx Hr1 Hne) as [replicas Hs].
  { rewrite Ho. unfold wanted. lia. }
  rewrite Hs. cbn [mbind outcome_bind]. apply range_selectReplicas_sound in Hs; [|done].
  apply fresh_key in Hnd as [Hfresh Hnd]. subst topic.
  destruct (place_step bs ids_nodup c before a load p replicas Hp Ht Hfresh Hs) as [Hp' Ht']. by eapply IH.
Qed.

Lemma range_brokers_complete topic per extra : bs <> [] -> unlimited bs c -> forall todo brokerIdx rest before a load,
  placed bs c before a -> tracks bs c a load -> Forall (fun p => cp_Topic p = topic) rest ->
  Forall (fun p => 1 <= cp_Replicas p) rest -> NoDup (key_of <$> before ++ rest) ->
  exists a' load', range_brokers todo brokerIdx per extra topic bs c rest (a, load) = Returns (a', load').
Proof using ids_nodup.
  intros Hne Hu. induction todo as [|todo IH]; intros brokerIdx rest before a load Hp Ht Htop Hr Hnd; cbn [range_brokers].
  { by eexists _, _. }
  set (k := if decide (brokerIdx < extra)%nat then S per else per).
  destruct (range_block_complete topic k brokerIdx Hne Hu rest before a load Hp Ht Htop Hr Hnd) as (rest1 & a1 & load1 & H1).
  rewrite H1. cbn [mbind outcome_bind].
  destruct (range_block_sound _ _ _ _ _ _ _ _ _ _ Hp Ht Htop Hnd H1) as (-> & Hp1 & Ht1).
  eapply IH; [exact Hp1|exact Ht1|by apply Forall_drop|by apply Forall_drop|].
  by rewrite <- app_assoc, take_drop.
Qed.
End range.

(** ** What the strategies return *)

Lemma elem_of_available b brokers c :
  b ∈ available brokers c <-> b ∈ brokers /\ default false (ac_ExcludedBrokers c !! cb_ID b) = false.
Proof.
  unfold available. rewrite merge_sort_Permutation. unfold filterExcludedBrokers. case_decide as E.
  - rewrite E, lookup_empty. simpl. naive_solver.
  - rewrite list_elem_of_filter. naive_solver.
Qed.

Lemma available_nodup brokers c : NoDup (cb_ID <$> brokers) -> NoDup (cb_ID <$> available brokers c).
Proof.
  intros H. unfold available. rewrite merge_sort_Permutation. unfold filterExcludedBrokers.
  case_decide; [done|]. by apply NoDup_fmap_filter.
Qed.

Lemma validated_placed bs c partitions a : placed bs c partitions a -> validated a = Returns a.
Proof. intros H. unfold validated. by rewrite (placed_valid bs c partitions a H). Qed.

(** In which order the partitions came does not matter. *)
#[export] Instance placed_proper bs c : Proper ((≡ₚ) ==> eq ==> iff) (placed bs c).
Proof.
  assert (forall ps ps' a, ps ≡ₚ ps' -> placed bs c ps a -> placed bs c ps' a) as H.
  { intros ps ps' a Hp [P1 P2 P3 P4 P5 P6]. split; try done.
    - rewrite P1. by rewrite Hp.
    - intros p Hin. apply P2. by rewrite Hp. }
  intros ps ps' Hp a a' <-. split; apply H; [done|by symmetry].
Qed.

(** The topics in the order in which the range strategy takes them. *)
Lemma sorted_topics partitions : let topics := merge_sort bytes_le (map_to_list (groupByTopic partitions)).*1 in
  NoDup topics /\ forall t, t ∈ topics <-> exists p, p ∈ partitions /\ cp_Topic p = t.
Proof.
  simpl. split.
  - rewrite merge_sort_Permutation. apply NoDup_fst_map_to_list.
  - intros t. rewrite merge_sort_Permutation, <- (proj2 (groupByTopic_spec partitions t)), list_elem_of_fmap. split.
    + intros ([t' l] & -> & H%elem_of_map_to_list). by eexists.
    + intros [l H]. exists (t, l). split; [done|]. by apply elem_of_map_to_list.
Qed.

Lemma group_topic partitions t : Forall (fun p => cp_Topic p = t) (default [] (groupByTopic partitions !! t)).
Proof.
  apply Forall_forall. intros p. rewrite (proj1 (groupByTopic_spec partitions t)), list_elem_of_filter. by intros [].
Qed.

Lemma range_fold_sound bs c partitions (ids_nodup : NoDup (cb_ID <$> bs)) : bs <> [] -> forall topics before a load a' load',
  placed bs c before a -> tracks bs c a load ->
  NoDup (key_of <$> before ++ (topics ≫= fun t => default [] (groupByTopic partitions !! t))) ->
  foldM (fun st topic => assignTopicPartitions topic (default [] (groupByTopic partitions !! topic)) bs c st) topics (a, load)
    = Returns (a', load') ->
  placed bs c (before ++ (topics ≫= fun t => default [] (groupByTopic partitions !! t))) a'.
Proof.
  intros Hne. induction topics as [|t topics IH]; intros before a load a' load' Hp Ht Hnd; cbn [foldM mbind list_bind].
  { intros [= <- _]. by rewrite app_nil_r. }
  cbn [mbind list_bind] in Hnd. intros ([a1 load1] & H1 & H2)%bind_Returns. rewrite app_assoc in Hnd |- *.
  destruct (assignTopicPartitions_sound bs ids_nodup c t _ before a load a1 load1 Hne Hp Ht (group_topic partitions t)) as [Hp1 Ht1];
    [|done|by eapply IH].
  rewrite fmap_app in Hnd. by apply NoDup_app in Hnd as (? & _ & _).
Qed.

Lemma range_fold_complete bs c partitions (ids_nodup : NoDup (cb_ID <$> bs)) : bs <> [] -> unlimited bs c ->
  Forall (fun p => 1 <= cp_Replicas p) partitions -> forall topics before a load,
  placed bs c before a -> tracks bs c a load ->
  NoDup (key_of <$> before ++ (topics ≫= fun t => default [] (groupByTopic partitions !! t))) ->
  exists st, foldM (fun st topic => assignTopicPartitions topic (default [] (groupByTopic partitions !! topic)) bs c st)
               topics (a, load) = Returns st.
Proof.
  intros Hne Hu Hr. induction topics as [|t topics IH]; intros before a load Hp Ht Hnd; cbn [foldM mbind list_bind].
  { by eexists. }
  cbn [mbind list_bind] in Hnd. rewrite app_assoc in Hnd.
  assert (NoDup (key_of <$> before ++ default [] (groupByTopic partitions !! t))) as Hnd1.
  { rewrite fmap_app in Hnd. by apply NoDup_app in Hnd as (? & _ & _). }
  assert (Forall (fun p => 1 <= cp_Replicas p) (default [] (groupByTopic partitions !! t))) as Hr1.
  { apply Forall_forall. intros p. rewrite (proj1 (groupByTopic_spec partitions t)), list_elem_of_filter. intros [_ Hin].
    rewrite Forall_forall in Hr. by apply Hr. }
  destruct (range_brokers_complete bs ids_nodup c t (length (default [] (groupByTopic partitions !! t)) / length bs)
     (length (default [] (groupByTopic partitions !! t)) mod length bs) Hne Hu (length bs) 0
     (default [] (groupByTopic partitions !! t)) before a load Hp Ht (group_topic partitions t) Hr1 Hnd1) as (a1 & load1 & H1).
  change (assignTopicPartitions t (default [] (groupByTopic partitions !! t)) bs c (a, load) = Returns (a1, load1)) in H1.
  cbn beta. rewrite H1. cbn [outcome_bind].
  destruct (assignTopicPartitions_sound bs ids_nodup c t _ before a load a1 load1 Hne Hp Ht (group_topic partitions t) Hnd1 H1)
    as [Hp1 Ht1]. by eapply IH.
Qed.

Lemma size_list_to_set_le (l : list bytes) : (size (list_to_set l : gset bytes) <= length l)%nat.
Proof.
  induction l as [|x l IH]; [done|]. cbn [list_to_set length]. rewrite size_union_alt, size_singleton.
  assert (size (list_to_set l ∖ {[x]} : gset bytes) <= size (list_to_set l : gset bytes))%nat; [|lia].
  apply subseteq_size. set_solver.
Qed.

(** ** Small clusters for examples *)

Definition text (s : string) := list_byte_of_string s.
Definition parts_of (topic : string) (n : Z) (rf : Z) : list PartitionInfo :=
  (fun i => mkPart (text topic) (Z.of_nat i) rf) <$> seq 0 (Z.to_nat n).
(** A decidable fact about concrete values. *)
Ltac by_decide := apply (bool_decide_unpack _); vm_compute; exact I.

#[export] Instance BrokerInfo_eq_dec : EqDecision BrokerInfo.
Proof. solve_decision. Defined.

(** Ranges over maps in the order of their representation. *)
Definition keys_order (V : Type) (m : gmap bytes V) : list (bytes * V) := map_to_list m.
Definition ids_order (V : Type) (m : gmap Z V) : list (Z * V) := map_to_list m.
Definition plain : AssignmentConstraints := mkConstraints 0 false 0 ∅ ∅ ∅.
Definition rack_plain : AssignmentConstraints := mkConstraints 0 true 0 ∅ ∅ ∅.
Definition brokers_upto (n : nat) : list BrokerInfo := (fun i => mkBroker (Z.of_nat i) [] 0) <$> seq 1 n.
Definition assigned (fuel : nat) (parts : list PartitionInfo) (n : nat) : Assignment :=
  match RoundRobinStrategy_Assign fuel parts (brokers_upto n) plain with Returns a => a | _ => NewAssignment end.

(** The strategies that assign from scratch; the sticky one does it by round robin. *)
Inductive assigns (fuel : nat) : (list PartitionInfo -> list BrokerInfo -> AssignmentConstraints -> outcome Assignment) -> Prop :=
| assigns_roundrobin : assigns fuel (RoundRobinStrategy_Assign fuel)
| assigns_range : assigns fuel RangeStrategy_Assign
| assigns_sticky : assigns fuel (StickyStrategy_Assign fuel).

Lemma rr_assign_places fuel partitions brokers c a :
  NoDup (cb_ID <$> brokers) -> NoDup (key_of <$> partitions) ->
  RoundRobinStrategy_Assign fuel partitions brokers c = Returns a -> placed (available brokers c) c partitions a.
Proof.
  intros Hids%(available_nodup brokers c) Hkeys. unfold RoundRobinStrategy_Assign.
  destruct brokers as [|b0 brokers]; [done|]. set (bs0 := b0 :: brokers) in *.
  destruct partitions as [|p0 partitions]; [intros [= <-]; apply placed_new|]. set (ps := p0 :: partitions) in *.
  destruct (available bs0 c) as [|b1 bs1] eqn:Eb; [done|]. set (bs := b1 :: bs1) in *.
  intros ([[a' i] load] & H1 & H2)%bind_Returns.
  pose proof (rr_fold_sound bs Hids c fuel ps [] NewAssignment 0 (newBrokerLoad bs c) a' i load
                (placed_new bs c) (tracks_new bs c) Hkeys H1) as Hp.
  rewrite (validated_placed _ _ _ _ Hp) in H2. by injection H2 as <-.
Qed.

Lemma range_assign_places partitions brokers c a :
  NoDup (cb_ID <$> brokers) -> NoDup (key_of <$> partitions) ->
  RangeStrategy_Assign partitions brokers c = Returns a -> placed (available brokers c) c partitions a.
Proof.
  intros Hids%(available_nodup brokers c) Hkeys. unfold RangeStrategy_Assign.
  destruct brokers as [|b0 brokers]; [done|]. set (bs0 := b0 :: brokers) in *.
  destruct partitions as [|p0 partitions]; [intros [= <-]; apply placed_new|]. set (ps := p0 :: partitions) in *.
  destruct (available bs0 c) as [|b1 bs1] eqn:Eb; [done|]. set (bs := b1 :: bs1) in *.
  intros ([a' load] & H1 & H2)%bind_Returns.
  destruct (sorted_topics ps) as [Hnd Hin]. pose proof (groups_concat ps _ Hnd Hin) as Hperm.
  pose proof (range_fold_sound bs c ps Hids ltac:(done) (merge_sort bytes_le (map_to_list (groupByTopic ps)).*1)
                [] NewAssignment (newBrokerLoad bs c) a' load (placed_new bs c) (tracks_new bs c)) as Hp.
  rewrite app_nil_l, Hperm in Hp. specialize (Hp Hkeys H1).
  rewrite (validated_placed _ _ _ _ Hp) in H2. by injection H2 as <-.
Qed.

(** C31: Every assignment that a strategy returns for partitions with distinct keys, on
    brokers with distinct IDs, has exactly these partitions; each has the replicas it asks
    for, one per broker at most, on distinct brokers that are not excluded, led by the
    first; with the rack-aware option and no limits they are on as many racks as possible;
    the recorded loads are the numbers of replicas; and no broker gets more than the
    tighter of the two limits allows, what it held before counted in. *)
Theorem assign_places fuel Assign partitions brokers c a :
  assigns fuel Assign -> NoDup (cb_ID <$> brokers) -> NoDup (key_of <$> partitions) ->
  Assign partitions brokers c = Returns a -> placed (available brokers c) c partitions a.
Proof.
  intros [] Hids Hkeys; [by apply rr_assign_places|by apply range_assign_places|by apply rr_assign_places].
Qed.

Lemma assign_places_witness : exists a, RoundRobinStrategy_Assign 2 (parts_of "t" 3 2) (brokers_upto 3) plain = Returns a
  /\ placed (available (brokers_upto 3) plain) plain (parts_of "t" 3 2) a.
Proof.
  eexists. split; [vm_compute; reflexivity|].
  apply (assign_places 2 (RoundRobinStrategy_Assign 2)); [constructor|by_decide|by_decide|vm_compute; reflexivity].
Defined.

(** Without limits the strategies return an assignment, whatever the brokers' racks, as
    long as one broker is not excluded and every partition asks for a replica.  A fuel of
    the number of racks is enough for the one loop of the round robin that has no bound
    of its own. *)
Theorem assign_returns fuel Assign partitions brokers c :
  assigns fuel Assign -> NoDup (cb_ID <$> brokers) -> NoDup (key_of <$> partitions) ->
  available brokers c <> [] -> unlimited (available brokers c) c -> Forall (fun p => 1 <= cp_Replicas p) partitions ->
  (length brokers <= fuel)%nat ->
  exists a, Assign partitions brokers c = Returns a.
Proof.
  intros HA Hids Hkeys Hav Hu Hr Hf.
  assert (length (sorted_racks (available brokers c)) <= fuel)%nat as Hracks.
  { rewrite <- racks_size. etrans; [|exact Hf]. unfold all_racks. etrans; [apply size_list_to_set_le|].
    rewrite length_fmap. unfold available. rewrite merge_sort_Permutation. unfold filterExcludedBrokers.
    case_decide; [done|apply length_filter]. }
  pose proof (available_nodup brokers c Hids) as Hids'.
  destruct (sorted_topics partitions) as [Hnd Hin]. pose proof (groups_concat partitions _ Hnd Hin) as Hperm.
  destruct (rr_fold_complete (available brokers c) Hids' c fuel partitions Hav Hu Hracks Hr [] NewAssignment 0
              (newBrokerLoad (available brokers c) c) (placed_new _ c) (tracks_new _ c) Hkeys) as [[[a i] load] Hrr].
  destruct (range_fold_complete (available brokers c) c partitions Hids' Hav Hu Hr
     (merge_sort bytes_le (map_to_list (groupByTopic partitions)).*1) [] NewAssignment
     (newBrokerLoad (available brokers c) c) (placed_new _ c) (tracks_new _ c)) as [[a' load'] Hrange].
  { by rewrite app_nil_l, Hperm. }
  assert (brokers <> []) as Hb by (intros ->; apply Hav; unfold available, filterExcludedBrokers; by case_decide).
  assert (exists a, RoundRobinStrategy_Assign fuel partitions brokers c = Returns a) as Hrr'.
  { unfold RoundRobinStrategy_Assign. destruct brokers as [|b0 brokers]; [done|]. set (bs0 := b0 :: brokers) in *.
    destruct partitions as [|p0 partitions]; [by eexists|]. destruct (available bs0 c) as [|b1 bs1] eqn:Eb; [done|].
    rewrite Hrr. cbn [mbind outcome_bind].
    rewrite (validated_placed (b1 :: bs1) c (p0 :: partitions)); [by eexists|]. eapply (rr_fold_sound (b1 :: bs1) Hids' c fuel _ []);
      [apply placed_new|apply tracks_new|exact Hkeys|exact Hrr]. }
  destruct HA; [done| |done]. unfold RangeStrategy_Assign.
  destruct brokers as [|b0 brokers]; [done|]. set (bs0 := b0 :: brokers) in *.
  destruct partitions as [|p0 partitions]; [by eexists|]. destruct (available bs0 c) as [|b1 bs1] eqn:Eb; [done|].
  rewrite Hrange. cbn [mbind outcome_bind].
  rewrite (validated_placed (b1 :: bs1) c (p0 :: partitions)); [by eexists|].
  rewrite <- Hperm. eapply (range_fold_sound (b1 :: bs1) c _ Hids' Hav _ []);
    [apply placed_new|apply tracks_new|by rewrite app_nil_l, Hperm|exact Hrange].
Qed.

Lemma assign_returns_witness : exists a, RangeStrategy_Assign (parts_of "t" 3 2) (brokers_upto 3) rack_plain = Returns a.
Proof.
  apply (assign_returns 3 RangeStrategy_Assign);
    [constructor|by_decide|by_decide|vm_compute; done| |repeat constructor; vm_compute; done|vm_compute; lia].
  refine (proj1 (Forall_forall (fun b => limit_of rack_plain b <= 0) (available (brokers_upto 3) rack_plain)) _). by_decide.
Defined.

(** ** Round robin takes turns *)

Section turns.
Context (bs : list BrokerInfo) (ids_nodup : NoDup (cb_ID <$> bs)) (bs_ne : bs <> []).
Notation L := (length bs).

(** The broker whose turn it is. *)
Definition turn (j : nat) : Z := default 0 ((cb_ID <$> bs) !! (j mod L)%nat).

Lemma turn_lookup j : exists b, bs !! (j mod L)%nat = Some b /\ turn j = cb_ID b.
Proof using ids_nodup bs_ne.
  destruct (lookup_lt_is_Some_2 bs (j mod L)%nat) as [b Hb]; [apply Nat.mod_upper_bound; by destruct bs|].
  exists b. split; [done|]. unfold turn. by rewrite list_lookup_fmap, Hb.
Qed.

Lemma turn_eq j k b : bs !! k = Some b -> turn j = cb_ID b <-> k = (j mod L)%nat.
Proof using ids_nodup bs_ne.
  intros Hk. destruct (turn_lookup j) as (b' & Hb' & ->). split.
  - intros E. apply (NoDup_lookup (cb_ID <$> bs) k (j mod L)%nat (cb_ID b) ids_nodup); rewrite list_lookup_fmap.
    + by rewrite Hk.
    + by rewrite Hb', <- E.
  - intros ->. rewrite Hk in Hb'. by injection Hb' as ->.
Qed.

Lemma turn_fresh i m : (m < L)%nat -> turn (i + m) ∈ turn <$> seq i m -> False.
Proof using ids_nodup bs_ne.
  intros Hm (k & E & Hk%elem_of_seq)%list_elem_of_fmap. destruct (turn_lookup k) as (b & Hb & Eb).
  rewrite Eb in E. apply (turn_eq (i + m) _ b Hb) in E.
  assert (exists d, (i + m = k + d /\ 0 < d < L)%nat) as (d & Hd & Hdl) by (exists (i + m - k)%nat; lia).
  rewrite Hd in E. pose proof (Nat.div_mod_eq k L) as E1. pose proof (Nat.div_mod_eq (k + d) L) as E2.
  rewrite <- E in E2. destruct (decide ((k + d) / L <= k / L)%nat); nia.
Qed.

Lemma pick_loop_turns load n i : (forall b, b ∈ bs -> hasCapacity load (cb_ID b) = true) -> (n <= L)%nat ->
  forall attempts m, (m <= n)%nat -> (n - m <= attempts)%nat ->
  pick_loop attempts bs load n (i + m) (turn <$> seq i m) = ((i + n)%nat, turn <$> seq i n).
Proof using ids_nodup bs_ne.
  intros Hcap Hn. induction attempts as [|k IH]; intros m Hm Hk; cbn [pick_loop].
  { by replace m with n by lia. }
  rewrite length_fmap, length_seq. case_decide as Hl; [by replace m with n by lia|].
  destruct (turn_lookup (i + m)) as (b & Hb & Eb). rewrite Hb. unfold fill_step. rewrite length_fmap, length_seq.
  rewrite decide_False by done. rewrite <- Eb. rewrite bool_decide_true by (intros H; by apply (turn_fresh i m) in H; [|lia]).
  rewrite Eb, Hcap by (by eapply list_elem_of_lookup_2). cbn [andb]. rewrite <- Eb.
  replace ((turn <$> seq i m) ++ [turn (i + m)]) with (turn <$> seq i (S m)) by (by rewrite seq_S, fmap_app).
  rewrite <- Nat.add_succ_r. apply IH; lia.
Qed.

(** The number of turns of the [k]-th broker among the first [j]. *)
Definition turns_of (k j : nat) : nat := ((j + (L - 1 - k)) / L)%nat.

Lemma occurs_turns k b : bs !! k = Some b -> forall m i,
  Z.of_nat (turns_of k i) + occurs (cb_ID b) (turn <$> seq i m) = Z.of_nat (turns_of k (i + m)).
Proof using ids_nodup bs_ne.
  intros Hk. apply lookup_lt_Some in Hk as Hkl. induction m as [|m IH]; intros i; [rewrite Nat.add_0_r; simpl; lia|].
  cbn [seq fmap list_fmap occurs]. rewrite <- Nat.add_succ_comm, <- IH.
  unfold turns_of. rewrite (round_up_step i L k Hkl). destruct (decide (turn i = cb_ID b)) as [E|E].
  - rewrite (decide_True (P := k = _)) by (by apply (turn_eq i k b Hk)). lia.
  - rewrite (decide_False (P := k = _)) by (intros E'; by apply E, (turn_eq i k b Hk)). lia.
Qed.

Lemma turns_of_close k k' j : (k < L)%nat -> (k' < L)%nat -> (turns_of k j <= turns_of k' j + 1)%nat.
Proof using.
  intros Hk Hk'. unfold turns_of. transitivity ((j + (L - 1 - k') + 1 * L) / L)%nat.
  - apply Nat.Div0.div_le_mono. lia.
  - by rewrite Nat.div_add by lia.
Qed.
End turns.

Lemma rr_fold_turns fuel bs c (ids_nodup : NoDup (cb_ID <$> bs)) : bs <> [] -> unlimited bs c -> ac_RackAware c = false ->
  forall partitions before a i load a' i' load',
  placed bs c before a -> tracks bs c a load -> NoDup (key_of <$> before ++ partitions) ->
  (forall k b, bs !! k = Some b -> at0 (a_BrokerLoad a) (cb_ID b) = Z.of_nat (turns_of bs k i)) ->
  foldM (rr_step fuel bs c) partitions (a, i, load) = Returns (a', i', load') ->
  forall k b, bs !! k = Some b -> at0 (a_BrokerLoad a') (cb_ID b) = Z.of_nat (turns_of bs k i').
Proof.
  intros Hne Hu Hra. induction partitions as [|p partitions IH]; intros before a i load a' i' load' Hp Ht Hnd Hload; cbn [foldM].
  { by intros [= <- <- _]. }
  intros ([[a1 i1] load1] & H1 & H2)%bind_Returns. unfold rr_step in H1.
  apply bind_Returns in H1 as ([j replicas] & Hs & [= <- <- <-]).
  pose proof (rr_selectReplicas_sound _ ids_nodup _ _ _ _ _ _ _ Hs) as Hsel.
  apply fresh_key in Hnd as [Hfresh Hnd].
  destruct (place_step bs ids_nodup c before a load p replicas Hp Ht Hfresh Hsel) as [Hp' Ht'].
  assert (replicas = turn bs <$> seq i (wanted bs p) /\ j = (i + wanted bs p)%nat) as [Er Ej].
  { unfold rr_selectReplicas in Hs. apply bind_Returns in Hs as (n & [-> _]%replicaCount_spec & Hs). rewrite Hra in Hs.
    pose proof (pick_loop_turns bs ids_nodup Hne load (wanted bs p) i) as Hpk. specialize (Hpk (fun b Hb =>
      proj2 (hasCapacity_iff bs ids_nodup c a load b Ht Hb) (or_introl (Hu b Hb))) ltac:(unfold wanted; lia) (length bs * 2)%nat 0%nat).
    rewrite Nat.add_0_r in Hpk. change (turn bs <$> seq i 0) with (@nil Z) in Hpk. rewrite Hpk in Hs by (unfold wanted; lia).
    unfold enough in Hs. rewrite decide_False in Hs by (rewrite length_fmap, length_seq; lia).
    cbn [mbind outcome_bind] in Hs. by injection Hs as <- <-. }
  eapply IH; [exact Hp'|exact Ht'|exact Hnd| |exact H2].
  intros k b Hk. cbn [AddReplica a_BrokerLoad]. rewrite at0_incr_all, (Hload k b Hk), Er, Ej.
  by apply (occurs_turns bs ids_nodup Hne).
Qed.

(** Without limits and racks, round robin (and the initial assignment of the sticky
    strategy) loads any two available brokers with numbers of replicas that differ by one
    at most, over all partitions and whatever their replication factors. *)
Theorem roundrobin_load_balanced fuel partitions brokers c a b b' :
  NoDup (cb_ID <$> brokers) -> NoDup (key_of <$> partitions) ->
  unlimited (available brokers c) c -> ac_RackAware c = false ->
  RoundRobinStrategy_Assign fuel partitions brokers c = Returns a ->
  b ∈ available brokers c -> b' ∈ available brokers c ->
  replicas_on (a_Partitions a) (cb_ID b) <= replicas_on (a_Partitions a) (cb_ID b') + 1.
Proof.
  intros Hids Hkeys Hu Hra HA Hb Hb'. unfold replicas_on.
  rewrite <- (pl_load _ _ _ _ (rr_assign_places _ _ _ _ _ Hids Hkeys HA)).
  apply (available_nodup brokers c) in Hids. unfold RoundRobinStrategy_Assign in HA.
  destruct brokers as [|b0 brokers]; [done|]. set (bs0 := b0 :: brokers) in *.
  destruct partitions as [|p0 partitions]; [injection HA as <-; simpl; unfold at0; rewrite !lookup_empty; simpl; lia|].
  destruct (available bs0 c) as [|b1 bs1] eqn:Eb; [done|]. set (bs := b1 :: bs1) in *.
  apply bind_Returns in HA as ([[a' i] load] & H1 & H2).
  assert (a' = a) as -> by (unfold validated in H2; destruct (Validate a'); [done|by injection H2]).
  apply list_elem_of_lookup_1 in Hb as [k Hk], Hb' as [k' Hk'].
  pose proof (rr_fold_turns fuel bs c Hids ltac:(done) Hu Hra _ [] NewAssignment 0 (newBrokerLoad bs c) a i load
                (placed_new bs c) (tracks_new bs c) Hkeys) as Hf.
  assert (forall j b2, bs !! j = Some b2 -> at0 (a_BrokerLoad NewAssignment) (cb_ID b2) = Z.of_nat (turns_of bs j 0)) as H0.
  { intros j b2 Hj%lookup_lt_Some. unfold at0, turns_of. rewrite Nat.div_small by lia. simpl. by rewrite lookup_empty. }
  rewrite (Hf H0 H1 k b Hk), (Hf H0 H1 k' b' Hk').
  apply lookup_lt_Some in Hk, Hk'. pose proof (turns_of_close bs k k' i Hk Hk'). lia.
Qed.

Lemma roundrobin_load_balanced_witness : exists a, RoundRobinStrategy_Assign 0 (parts_of "t" 4 2) (brokers_upto 3) plain = Returns a
  /\ replicas_on (a_Partitions a) 1 <= replicas_on (a_Partitions a) 3 + 1.
Proof.
  eexists. split; [vm_compute; reflexivity|].
  apply (roundrobin_load_balanced 0 (parts_of "t" 4 2) (brokers_upto 3) plain _ (mkBroker 1 [] 0) (mkBroker 3 [] 0));
    [by_decide|by_decide|refine (proj1 (Forall_forall (fun b => limit_of plain b <= 0) (available (brokers_upto 3) plain)) _); by_decide|reflexivity|vm_compute; reflexivity|by_decide|by_decide].
Defined.
