(* ===== verification/RebalanceSpec.v ===== *)
(** * Rebalancing replica placement

    The sticky rebalance of Placement.v, for every order in which Go may range over its
    maps: what it keeps ([rebalanced]) and when it returns; and the places where the
    strategies do less than their comments say, each as a concrete run or an exact
    condition. *)

From S2P Require Import Prelude GoBytes Record Placement PlacementSpec.
From Stdlib Require Import ZArith Lia Strings.Byte Strings.String.
From stdpp Require Import prelude list sorting gmap.
#[local] Notation length := Datatypes.length.
Open Scope Z_scope.

(** An assignment as the strategies make them: distinct replicas, the first leads, and the
    loads are the numbers of replicas. *)
Record consistent (a : Assignment) : Prop := {
  co_parts key r : a_Partitions a !! key = Some r -> NoDup r /\ r <> [] /\ a_Leaders a !! key = head r;
  co_leaders : dom (a_Leaders a) = dom (a_Partitions a);
  co_load : a_BrokerLoad a = computedLoad (a_Partitions a)
}.

Lemma placed_consistent bs c partitions a : placed bs c partitions a -> consistent a.
Proof.
  intros [P1 P2 P3 P4 _ _]. split; [|done|done]. intros key r Hk.
  assert (key ∈ dom (a_Partitions a)) as Hin by (by eapply elem_of_dom_2).
  rewrite P1, elem_of_list_to_set, list_elem_of_fmap in Hin. destruct Hin as (p & -> & Hp).
  destruct (P2 p Hp) as (r' & Hr' & [G1 _ _ G4 _] & Hh). rewrite Hk in Hr'. by injection Hr' as <-.
Qed.

(** What a rebalance keeps: the same partitions with the same numbers of replicas, now all
    on the brokers [bs], and no broker loaded beyond its limit, or beyond what it held. *)
Record rebalanced (bs : list BrokerInfo) (c : AssignmentConstraints) (current a : Assignment) : Prop := {
  re_consistent : consistent a;
  re_dom : dom (a_Partitions a) = dom (a_Partitions current);
  re_length key r r' : a_Partitions current !! key = Some r -> a_Partitions a !! key = Some r' -> length r' = length r;
  re_brokers key r : a_Partitions a !! key = Some r -> forall id, id ∈ r -> id ∈ cb_ID <$> bs;
  re_limit b : b ∈ bs -> 0 < limit_of c b ->
    replicas_on (a_Partitions a) (cb_ID b) <= replicas_on (a_Partitions current) (cb_ID b) `max` limit_of c b;
  re_version : a_Version a = wraps 64 (a_Version current + 1)
}.

(** Fewer replicas of every partition are fewer replicas on every broker. *)
Lemma replicas_on_mono b ps' : forall ps,
  (forall key r', ps' !! key = Some r' -> exists r, ps !! key = Some r /\ occurs b r' <= occurs b r) ->
  replicas_on ps' b <= replicas_on ps b.
Proof.
  induction ps' as [|key r' ps' Hk IH] using map_ind; intros ps Hle.
  { rewrite replicas_on_empty. apply replicas_on_nonneg. }
  destruct (Hle key r') as (r & Hr & Ho); [apply lookup_insert_eq|].
  rewrite replicas_on_insert by done. rewrite (replicas_on_delete ps key r b Hr).
  enough (replicas_on ps' b <= replicas_on (delete key ps) b) by lia. apply IH.
  intros key' r'' Hk'. assert (key <> key') as Hne by (intros <-; by rewrite Hk in Hk').
  rewrite lookup_delete_ne by done. apply Hle. by rewrite lookup_insert_ne.
Qed.

Lemma occurs_filter b (P : Z -> Prop) `{!forall x, Decision (P x)} l : occurs b (filter P l) <= occurs b l.
Proof.
  induction l as [|x l IH]; [done|]. rewrite filter_cons. case_decide; simpl; [lia|]. case_decide; lia.
Qed.

Section sticky.
Context (range_keys : forall V : Type, gmap bytes V -> list (bytes * V)).
Context (range_ids : forall V : Type, gmap Z V -> list (Z * V)).
Context (range_keys_perm : forall V (m : gmap bytes V), range_keys V m ≡ₚ map_to_list m).
Context (range_ids_perm : forall V (m : gmap Z V), range_ids V m ≡ₚ map_to_list m).
Context (bs : list BrokerInfo) (ids_nodup : NoDup (cb_ID <$> bs)) (bs_ne : bs <> []) (c : AssignmentConstraints).
Context (current : Assignment) (Hcur : consistent current).

Notation limits := (brokerCapacityLimits bs c).
Notation removed := (findRemovedBrokers current bs).

Lemma elem_of_broker_ids id : id ∈ broker_ids bs <-> id ∈ cb_ID <$> bs.
Proof. unfold broker_ids. by rewrite elem_of_list_to_set. Qed.

Lemma withinLimit_iff b n : b ∈ bs -> withinLimit limits (cb_ID b) n = true <-> limit_of c b <= 0 \/ n < limit_of c b.
Proof.
  intros Hb. unfold withinLimit. rewrite bcl_lookup by done. fold (limit_of c b). zbool; naive_solver lia.
Qed.

(** *** The state between the phases *)

(** The partitions are those of [current], some of them perhaps with fewer replicas for
    the moment; all replicas are on [bs]. *)
Record between (a : Assignment) : Prop := {
  bt_parts key r : a_Partitions a !! key = Some r ->
    NoDup r /\ r <> [] /\ (forall id, id ∈ r -> id ∈ cb_ID <$> bs) /\ a_Leaders a !! key = head r
    /\ exists r0, a_Partitions current !! key = Some r0 /\ (length r <= length r0)%nat;
  bt_leaders : dom (a_Leaders a) = dom (a_Partitions a);
  bt_load id : at0 (a_BrokerLoad a) id = replicas_on (a_Partitions a) id;
  bt_dom : dom (a_BrokerLoad a) = broker_ids bs;
  bt_limit b : b ∈ bs -> 0 < limit_of c b ->
    replicas_on (a_Partitions a) (cb_ID b) <= replicas_on (a_Partitions current) (cb_ID b) `max` limit_of c b;
  bt_version : a_Version a = wraps 64 (a_Version current + 1)
}.

(** A partition has all its replicas. *)
Definition whole (a : Assignment) (key : bytes) : Prop :=
  forall r0, a_Partitions current !! key = Some r0 -> exists r, a_Partitions a !! key = Some r /\ length r = length r0.

(** The recount starts from zero for every broker. *)
Lemma zeros_spec l : forall m : gmap Z Z,
  dom (fold_left (fun m b => <[cb_ID b := 0]> m) l m) = dom m ∪ broker_ids l
  /\ forall id, at0 m id = 0 -> at0 (fold_left (fun m b => <[cb_ID b := 0]> m) l m) id = 0.
Proof.
  unfold broker_ids. induction l as [|b l IH]; intros m; simpl; [split; [set_solver|done]|].
  destruct (IH (<[cb_ID b := 0]> m)) as [-> IH2]. split; [rewrite dom_insert_L; set_solver|].
  intros id Hid. apply IH2. unfold at0 in *.
  destruct (decide (cb_ID b = id)) as [<-|Hn]; [by rewrite lookup_insert_eq|by rewrite lookup_insert_ne].
Qed.

Lemma at0_recomputed ps id : at0 (recomputed_load bs ps) id = replicas_on ps id.
Proof. unfold recomputed_load. rewrite load_from_at0, (proj2 (zeros_spec bs ∅)) by done. lia. Qed.

Lemma dom_recomputed ps id : id ∈ dom (recomputed_load bs ps)
  <-> id ∈ broker_ids bs \/ exists key r, ps !! key = Some r /\ id ∈ r.
Proof. unfold recomputed_load. rewrite dom_load_from, (proj1 (zeros_spec bs ∅)), dom_empty_L. set_solver. Qed.

(** *** Taking removed brokers out *)

Definition evicted (r : list Z) : option (list Z) :=
  match filterReplicas r removed with [] => None | l => Some l end.

Lemma filter_same_length (r : list Z) : length (filterReplicas r removed) = length r -> filterReplicas r removed = r.
Proof.
  unfold filterReplicas. induction r as [|x r IH]; [done|]. rewrite filter_cons. case_decide as Hx; intros H.
  - simpl in H. injection H as H. by rewrite IH.
  - pose proof (length_filter (.∉ removed) r). simpl in H. lia.
Qed.

Lemma evict_fold l : NoDup l.*1 -> (forall key r, (key, r) ∈ l -> r <> []) -> forall a todo,
  (forall key r, (key, r) ∈ l -> a_Leaders a !! key = head r /\ a_Partitions a !! key = Some r /\ todo !! key = None) ->
  let st := fold_left (evict removed) l (a, todo) in
  (forall key r, (key, r) ∈ l -> a_Partitions st.1 !! key = evicted r /\ a_Leaders st.1 !! key = evicted r ≫= head
     /\ cp_Replicas <$> st.2 !! key = if decide (filterReplicas r removed = r) then None else Some (zlen r))
  /\ (forall key, key ∉ l.*1 -> a_Partitions st.1 !! key = a_Partitions a !! key
        /\ a_Leaders st.1 !! key = a_Leaders a !! key /\ st.2 !! key = todo !! key)
  /\ a_Version st.1 = a_Version a.
Proof.
  induction l as [|[key0 r0] l IH]; intros Hnd Hne a todo Hold; cbn [fold_left].
  { split_and!; [set_solver|done|done]. }
  rewrite fmap_cons, NoDup_cons in Hnd. destruct Hnd as [Hk0 Hnd]. simpl in Hk0.
  destruct (Hold key0 r0 ltac:(left)) as (O1 & O2 & O3). pose proof (Hne key0 r0 ltac:(left)) as Hr0.
  set (st0 := evict removed (a, todo) (key0, r0)).
  assert (a_Partitions st0.1 !! key0 = evicted r0 /\ a_Leaders st0.1 !! key0 = evicted r0 ≫= head
          /\ cp_Replicas <$> st0.2 !! key0 = (if decide (filterReplicas r0 removed = r0) then None else Some (zlen r0))
          /\ (forall key, key <> key0 -> a_Partitions st0.1 !! key = a_Partitions a !! key
                /\ a_Leaders st0.1 !! key = a_Leaders a !! key /\ st0.2 !! key = todo !! key)
          /\ a_Version st0.1 = a_Version a) as (S1 & S2 & S3 & S4 & S5).
  { unfold st0, evict, evicted. destruct (parsePartitionKey key0) as [topic pid]. case_decide as Hl.
    - pose proof (filter_same_length r0 Hl) as E. rewrite E. rewrite decide_True by done. simpl. rewrite O1, O2, O3.
      destruct r0; [done|]. done.
    - rewrite decide_False by (intros E; by rewrite E in Hl). destruct (filterReplicas r0 removed) as [|x xs]; simpl.
      + rewrite !lookup_delete_eq, lookup_insert_eq. split_and!; [done..| |done].
        intros key Hkey. by rewrite !lookup_delete_ne, lookup_insert_ne.
      + rewrite !lookup_insert_eq. split_and!; [done..| |done]. intros key Hkey. by rewrite !lookup_insert_ne. }
  assert (forall key r, (key, r) ∈ l -> key <> key0) as Hother.
  { intros key r Hin ->. apply Hk0. apply list_elem_of_fmap. by exists (key0, r). }
  destruct st0 as [a1 todo1]. simpl in S1, S2, S3, S4, S5.
  destruct (IH Hnd ltac:(intros key r Hin; apply (Hne key r); by right) a1 todo1) as (I1 & I2 & I3).
  { intros key r Hin. destruct (S4 key (Hother key r Hin)) as (-> & -> & ->). apply Hold. by right. }
  split_and!.
  - intros key r [[= -> ->]|Hin]%elem_of_cons; [|by apply I1]. destruct (I2 key0 Hk0) as (-> & -> & ->). done.
  - intros key Hkey. rewrite fmap_cons, not_elem_of_cons in Hkey. destruct Hkey as [Hn Hkey].
    destruct (I2 key Hkey) as (-> & -> & ->). by apply S4.
  - by rewrite I3.
Qed.

(** After the first loop and the recount. *)
Lemma evict_between a1 todo :
  fold_left (evict removed) (range_keys _ (a_Partitions current)) (set_version current (a_Version current + 1), ∅) = (a1, todo) ->
  between (with_load a1 (recomputed_load bs (a_Partitions a1)))
  /\ (forall key, todo !! key = None -> whole (with_load a1 (recomputed_load bs (a_Partitions a1))) key)
  /\ (forall key p, todo !! key = Some p -> exists r0, a_Partitions current !! key = Some r0 /\ cp_Replicas p = zlen r0).
Proof.
  intros E. assert (forall key r, (key, r) ∈ range_keys _ (a_Partitions current) <-> a_Partitions current !! key = Some r) as Hin.
  { intros key r. by rewrite range_keys_perm, elem_of_map_to_list. }
  pose proof (evict_fold (range_keys _ (a_Partitions current))) as H. rewrite range_keys_perm in H at 1.
  specialize (H (NoDup_fst_map_to_list _)). specialize (H ltac:(intros key r Hk%Hin; by apply (co_parts _ Hcur) in Hk as (_ & ? & _))).
  specialize (H (set_version current (a_Version current + 1)) ∅). rewrite E in H. simpl in H.
  destruct H as (H1 & H2 & H3).
  { intros key r Hk%Hin. split_and!; [by apply (co_parts _ Hcur) in Hk as (_ & _ & ?)|done|done]. }
  assert (forall key, a_Partitions current !! key = None -> a_Partitions a1 !! key = None /\ a_Leaders a1 !! key = None /\ todo !! key = None)
    as Hnone.
  { intros key Hk. destruct (H2 key) as (-> & -> & ->).
    - intros ([key' r] & E' & Hkr%Hin)%list_elem_of_fmap. simpl in E'. subst key'. by rewrite Hk in Hkr.
    - split_and!; [done| |done]. apply not_elem_of_dom. rewrite (co_leaders _ Hcur). by apply not_elem_of_dom. }
  assert (forall key r, a_Partitions a1 !! key = Some r -> exists r0, a_Partitions current !! key = Some r0
            /\ r = filterReplicas r0 removed /\ r <> [] /\ a_Leaders a1 !! key = head r) as Hsome.
  { intros key r Hk. destruct (a_Partitions current !! key) as [r0|] eqn:E0; [|by destruct (Hnone key E0) as (? & _); congruence].
    destruct (H1 key r0 ltac:(by apply Hin)) as (E1 & E2 & _). rewrite Hk in E1. rewrite E2. unfold evicted in *.
    destruct (filterReplicas r0 removed) as [|x xs] eqn:Ef; [done|]. injection E1 as ->. by exists r0. }
  assert (forall key r id, a_Partitions a1 !! key = Some r -> id ∈ r -> id ∈ cb_ID <$> bs) as Hids.
  { intros key r id (r0 & H0 & -> & _ & _)%Hsome [Hn Hid]%list_elem_of_filter.
    apply elem_of_broker_ids, dec_stable. intros Hb. apply Hn. unfold findRemovedBrokers.
    apply elem_of_difference. split; [|done]. rewrite (co_load _ Hcur). apply dom_load_from. right. eauto. }
  split_and!.
  - split; simpl.
    + intros key r Hk. destruct (Hsome key r Hk) as (r0 & Hr0 & Er & Hne & Hh). split_and!; [|done|by intros; eapply Hids|done|].
      * rewrite Er. by apply NoDup_filter, (co_parts _ Hcur key r0).
      * exists r0. split; [done|]. rewrite Er. apply length_filter.
    + apply set_eq. intros key. rewrite !elem_of_dom. destruct (a_Partitions current !! key) as [r0|] eqn:E0.
      * destruct (H1 key r0 ltac:(by apply Hin)) as (-> & -> & _). unfold evicted.
        destruct (filterReplicas r0 removed); split; try (by intros [? ?]); by eexists.
      * destruct (Hnone key E0) as (-> & -> & _). done.
    + intros id. by rewrite at0_recomputed.
    + apply set_eq. intros id. rewrite dom_recomputed. split; [|by left].
      intros [Hd|(key & r & Hk & Hid)]; [done|by eapply elem_of_broker_ids, Hids].
    + intros b Hb Hlim. assert (replicas_on (a_Partitions a1) (cb_ID b) <= replicas_on (a_Partitions current) (cb_ID b)); [|lia].
      apply replicas_on_mono. intros key r' (r0 & Hr0 & -> & _)%Hsome. exists r0. split; [done|]. apply occurs_filter.
    + by rewrite H3.
  - intros key Ht r0 Hr0. simpl. destruct (H1 key r0 ltac:(by apply Hin)) as (-> & _ & E3). rewrite Ht in E3. simpl in E3.
    case_decide as Ef; [|done]. unfold evicted. rewrite Ef. apply (co_parts _ Hcur) in Hr0 as (_ & Hne & _).
    destruct r0; [done|]. by eexists.
  - intros key p Hp. destruct (a_Partitions current !! key) as [r0|] eqn:E0; [|by destruct (Hnone key E0) as (_ & _ & ?); congruence].
    destruct (H1 key r0 ltac:(by apply Hin)) as (_ & _ & E3). rewrite Hp in E3. simpl in E3. case_decide; [done|].
    injection E3 as E3. eauto.
Qed.

(** *** Giving partitions back their replicas *)

(** While replicas are added to the [r0] of a partition. *)
Record adding (r0 : list Z) (load0 : gmap Z Z) (r : list Z) (load : gmap Z Z) (selected : nat) : Prop := {
  ad_prefix : r0 `prefix_of` r;
  ad_nodup : NoDup r;
  ad_ids id : id ∈ r -> id ∈ cb_ID <$> bs;
  ad_length : length r = (length r0 + selected)%nat;
  ad_load id : at0 load id = at0 load0 id + occurs id r - occurs id r0;
  ad_dom : dom load = broker_ids bs;
  ad_limit b : b ∈ bs -> 0 < limit_of c b -> at0 load (cb_ID b) <= at0 load0 (cb_ID b) `max` limit_of c b
}.

Lemma add_replica_spec r0 load0 needed l : l ⊆ bs -> forall r load k,
  adding r0 load0 r load k -> (k <= needed)%nat ->
  let '(r', load', k') := fold_left (add_replica_step limits needed) l (r, load, k) in
  adding r0 load0 r' load' k' /\ (k' <= needed)%nat /\ r `prefix_of` r'
  /\ (unlimited bs c -> k' = needed \/ forall b, b ∈ l -> cb_ID b ∈ r').
Proof.
  intros Hsub. induction l as [|b l IH]; intros r load k Ha Hk; cbn [fold_left].
  { split_and!; [done..|]. intros _. right. set_solver. }
  assert (b ∈ bs) as Hb by set_solver. specialize (IH ltac:(set_solver)). unfold add_replica_step at 2.
  assert (forall r' load' k', adding r0 load0 r' load' k' -> (k' <= needed)%nat -> r `prefix_of` r' ->
     (unlimited bs c -> (needed <= k)%nat \/ cb_ID b ∈ r') ->
     let '(r'', load'', k'') := fold_left (add_replica_step limits needed) l (r', load', k') in
     adding r0 load0 r'' load'' k'' /\ (k'' <= needed)%nat /\ r `prefix_of` r''
     /\ (unlimited bs c -> k'' = needed \/ forall b', b' ∈ b :: l -> cb_ID b' ∈ r'')) as Hgo.
  { intros r' load' k' Ha' Hk' Hp Hb'. specialize (IH r' load' k' Ha' Hk').
    destruct (fold_left _ _ _) as [[r'' load''] k'']. destruct IH as (I1 & I2 & I3 & I4). split_and!; [done..|by etrans|].
    intros Hu. destruct (Hb' Hu) as [Hfull|Hin].
    - left. pose proof (ad_length _ _ _ _ _ I1). pose proof (ad_length _ _ _ _ _ Ha).
      assert (r `prefix_of` r'') as Hl%prefix_length by (by etrans). lia.
    - destruct (I4 Hu) as [?|I5]; [by left|right]. intros b2 [->|?]%elem_of_cons; [|by apply I5].
      destruct I3 as [t ->]. apply elem_of_app. by left. }
  case_decide as Hn; [apply Hgo; [done..|by left]|].
  case_decide as Hin; [apply Hgo; [done..|by right]|].
  destruct (withinLimit limits (cb_ID b) (at0 load (cb_ID b))) eqn:Hw; cbn [negb].
  - apply Hgo; [|lia|by eexists|intros _; right; set_solver]. destruct Ha as [A1 A2 A3 A4 A5 A6 A7]. split.
    + etrans; [exact A1|]. by eexists.
    + apply NoDup_app. split_and!; [done|set_solver|apply NoDup_singleton].
    + intros id [?|Hid%list_elem_of_singleton]%elem_of_app; [by apply A3|]. subst id. by apply list_elem_of_fmap_2.
    + rewrite length_app, A4. simpl. lia.
    + intros id. rewrite at0_incr, A5, occurs_app. simpl. lia.
    + unfold incr. rewrite dom_insert_L, A6. assert (cb_ID b ∈ broker_ids bs); [|set_solver].
      apply elem_of_broker_ids. by apply list_elem_of_fmap_2.
    + intros b' Hb' Hlim. rewrite at0_incr. specialize (A7 b' Hb' Hlim). case_decide as E; [|lia].
      assert (limit_of c b = limit_of c b') as El.
      { pose proof (bcl_lookup bs c b ids_nodup Hb) as L1. pose proof (bcl_lookup bs c b' ids_nodup Hb') as L2.
        rewrite E, L2 in L1. unfold limit_of. by injection L1. }
      apply withinLimit_iff in Hw; [|done]. rewrite <- E in *. lia.
  - apply Hgo; [done..|]. intros Hu. assert (withinLimit limits (cb_ID b) (at0 load (cb_ID b)) = true); [|congruence].
    apply withinLimit_iff; [done|]. left. by apply Hu.
Qed.

Lemma replicas_on_upsert ps key r b :
  replicas_on (<[key := r]> ps) b = replicas_on ps b - occurs b (default [] (ps !! key)) + occurs b r.
Proof.
  destruct (ps !! key) as [r0|] eqn:E; simpl; [by apply replicas_on_replace|]. rewrite replicas_on_insert by done. lia.
Qed.

(** A partition and its leader are put back. *)
Lemma between_insert a key r load r0 : between a -> a_Partitions current !! key = Some r0 ->
  adding (default [] (a_Partitions a !! key)) (a_BrokerLoad a) r load (length r - length (default [] (a_Partitions a !! key))) ->
  length r = length r0 -> r <> [] ->
  between (mkAssignment (<[key := r]> (a_Partitions a))
             (match r with leader :: _ => <[key := leader]> (a_Leaders a) | [] => a_Leaders a end) load (a_Version a)).
Proof.
  intros [B1 B2 B3 B4 B5 B6] Hr0 [A1 A2 A3 A4 A5 A6 A7] Hl Hne. split; simpl.
  - intros key' r' Hk. destruct (decide (key = key')) as [<-|Hn].
    + rewrite lookup_insert_eq in Hk. injection Hk as <-. split_and!; [done|done|done| |exists r0; split; [done|lia]].
      destruct r as [|x r]; [done|]. by rewrite lookup_insert_eq.
    + rewrite lookup_insert_ne in Hk by done. destruct (B1 key' r' Hk) as (C1 & C2 & C3 & C4 & C5).
      split_and!; [done..| |done]. destruct r; [done|]. by rewrite lookup_insert_ne.
  - destruct r; [done|]. by rewrite !dom_insert_L, B2.
  - intros id. rewrite A5, B3, replicas_on_upsert. lia.
  - done.
  - intros b Hb Hlim. specialize (A7 b Hb Hlim). specialize (B5 b Hb Hlim).
    rewrite A5, B3 in A7. rewrite replicas_on_upsert. lia.
  - done.
Qed.

(** What [reassign_one] returns. *)
Lemma reassign_one_spec todo a key p r0 : between a -> todo !! key = Some p ->
  a_Partitions current !! key = Some r0 -> cp_Replicas p = zlen r0 ->
  (forall a', reassign_one limits bs todo a key = Returns a' ->
     between a' /\ whole a' key /\ forall key', key' <> key -> a_Partitions a' !! key' = a_Partitions a !! key')
  /\ (unlimited bs c -> (length r0 <= length bs)%nat -> exists a', reassign_one limits bs todo a key = Returns a').
Proof.
  intros Hb Hp Hr0 Hz. unfold reassign_one. rewrite Hp. cbn [fmap option_fmap option_map default from_option id]. rewrite Hz.
  set (r := default [] (a_Partitions a !! key)). destruct (co_parts _ Hcur key r0 Hr0) as (_ & Hr0ne & _).
  destruct (Z.leb_spec (zlen r0 - zlen r) 0) as [Hle|Hlt].
  - split; [|by eexists]. intros a' [= <-]. split_and!; [done| |done].
    intros r0' Hr0'. rewrite Hr0 in Hr0'. injection Hr0' as <-. unfold r in Hle. destruct (a_Partitions a !! key) as [r1|] eqn:E1.
    + exists r1. split; [done|]. destruct (bt_parts _ Hb key r1 E1) as (_ & _ & _ & _ & r0' & Hr0' & Hl).
      rewrite Hr0 in Hr0'. injection Hr0' as <-. simpl in Hle. lia.
    + destruct r0; [done|simpl in Hle; lia].
  - assert (adding r (a_BrokerLoad a) r (a_BrokerLoad a) 0) as Ha0.
    { split; try done; try lia; [| |by apply bt_dom].
      - unfold r. destruct (a_Partitions a !! key) as [r1|] eqn:E1; [|constructor]. by destruct (bt_parts _ Hb key r1 E1).
      - intros id. unfold r. destruct (a_Partitions a !! key) as [r1|] eqn:E1; [|set_solver].
        destruct (bt_parts _ Hb key r1 E1) as (_ & _ & H & _). apply H. }
    set (needed := Z.to_nat (zlen r0 - zlen r)).
    pose proof (add_replica_spec r (a_BrokerLoad a) needed (sortBrokersByLoad bs (a_BrokerLoad a))) as H.
    unfold sortBrokersByLoad in *. rewrite merge_sort_Permutation in H at 1. specialize (H (reflexivity bs) _ _ _ Ha0 ltac:(lia)).
    destruct (fold_left _ _ _) as [[r' load'] k']. destruct H as (A & Hk & Hpre & Hall).
    pose proof (ad_length _ _ _ _ _ A) as Hlen. case_decide as Hd.
    + split; [done|]. intros Hu Hbs. exfalso. destruct (Hall Hu) as [?|Hin]; [lia|].
      assert (length bs <= length r')%nat; [|unfold needed in *; lia].
      rewrite <- (length_fmap cb_ID bs). apply submseteq_length, NoDup_submseteq; [done|].
      intros id (b & -> & Hbin)%list_elem_of_fmap. apply Hin. by rewrite merge_sort_Permutation.
    + split; [|by eexists]. intros a' [= <-]. assert (length r' = length r0) as Hl by (unfold needed in *; lia).
      split_and!.
      * apply (between_insert a key r' load' r0); [done|done| |done|]; fold r.
        -- by replace (length r' - length r)%nat with k' by lia.
        -- intros ->. simpl in Hl. by destruct r0.
      * intros r0' Hr0'. rewrite Hr0 in Hr0'. injection Hr0' as <-. exists r'. simpl. by rewrite lookup_insert_eq.
      * intros key' Hn. simpl. by rewrite lookup_insert_ne.
Qed.

Lemma reassign_fold todo keys : (forall key, key ∈ keys -> exists p r0, todo !! key = Some p
    /\ a_Partitions current !! key = Some r0 /\ cp_Replicas p = zlen r0) ->
  forall a, between a -> (forall key, key ∉ keys -> whole a key) ->
  (forall a', foldM (reassign_one limits bs todo) keys a = Returns a' -> between a' /\ forall key, whole a' key)
  /\ (unlimited bs c -> (forall key r0, a_Partitions current !! key = Some r0 -> (length r0 <= length bs)%nat) ->
        exists a', foldM (reassign_one limits bs todo) keys a = Returns a').
Proof.
  induction keys as [|key keys IH]; intros Hkeys a Hb Hw; cbn [foldM].
  { split; [|by eexists]. intros a' [= <-]. split; [done|]. intros key. apply Hw. set_solver. }
  destruct (Hkeys key ltac:(left)) as (p & r0 & Hp & Hr0 & Hz).
  destruct (reassign_one_spec todo a key p r0 Hb Hp Hr0 Hz) as [H1 H2].
  assert (forall a1, reassign_one limits bs todo a key = Returns a1 -> between a1 /\ forall key', key' ∉ keys -> whole a1 key') as Hstep.
  { intros a1 E1. destruct (H1 a1 E1) as (B & W & O). split; [done|]. intros key' Hn. destruct (decide (key' = key)) as [->|Hne]; [done|].
    intros r1 Hr1. rewrite (O key' Hne). apply Hw; [set_solver|done]. }
  specialize (IH ltac:(intros key' Hin; apply Hkeys; by right)). split.
  - intros a' (a1 & E1 & E2)%bind_Returns. destruct (Hstep a1 E1) as [B W]. by apply (IH a1 B W).
  - intros Hu Hl. destruct (H2 Hu (Hl key r0 Hr0)) as [a1 E1]. rewrite E1. cbn [mbind outcome_bind].
    destruct (Hstep a1 E1) as [B W]. by apply (IH a1 B W).
Qed.

(** *** Moving replicas *)

Lemma occurs_insert (r : list Z) i from to id : r !! i = Some from ->
  occurs id (<[i := to]> r) = occurs id r - (if decide (from = id) then 1 else 0) + (if decide (to = id) then 1 else 0).
Proof.
  revert i. induction r as [|x r IH]; intros [|i] Hi; simpl in *; try done.
  - injection Hi as ->. lia.
  - rewrite (IH i Hi). lia.
Qed.

Lemma find_list_find (r : list Z) from : from ∈ r -> exists i, list_find (eq from) r = Some (i, from) /\ r !! i = Some from.
Proof.
  intros Hin. destruct (list_find_elem_of (eq from) r from Hin eq_refl) as [[i x] E].
  pose proof E as E'. apply list_find_Some in E' as (Hi & <- & _). eauto.
Qed.

(** A replica moves to a broker of [bs] that is within its limit. *)
Lemma movePartition_spec a a' from to : between a -> to ∈ bs ->
  movePartition range_keys a from (cb_ID to) limits = Some a' -> from ∈ broker_ids bs ->
  between a' /\ forall key, whole a key -> whole a' key.
Proof.
  intros [B1 B2 B3 B4 B5 B6] Hto. unfold movePartition.
  destruct (withinLimit limits (cb_ID to) (at0 (a_BrokerLoad a) (cb_ID to))) eqn:Hw; cbn [negb]; [|done].
  destruct (List.find _ _) as [[key r]|] eqn:E; [|done]. apply List.find_some in E as [Hin Hc].
  apply list_elem_of_In in Hin. rewrite range_keys_perm, elem_of_map_to_list in Hin.
  apply bool_decide_eq_true in Hc as (_ & Hfrom & Hnto). simpl in Hfrom, Hnto.
  destruct (find_list_find r from Hfrom) as (i & Ei & Hi). cbn [mbind option_bind]. rewrite Ei. cbn [option_bind].
  intros [= <-] Hfb. destruct (B1 key r Hin) as (C1 & C2 & C3 & C4 & r0 & C5 & C6).
  assert (from <> cb_ID to) as Hft by (intros ->; done).
  assert (NoDup (<[i := cb_ID to]> r)) as Hnd'.
  { apply NoDup_alt. intros j j' x Hj Hj'. apply list_lookup_insert_Some in Hj, Hj'.
    destruct Hj as [(-> & <- & _)|[Hji Hj]]; destruct Hj' as [(-> & E' & _)|[Hji' Hj']]; try done.
    - exfalso. apply Hnto. by eapply list_elem_of_lookup_2.
    - exfalso. apply Hnto. rewrite E'. by eapply list_elem_of_lookup_2.
    - by eapply NoDup_lookup. }
  assert (forall id, replicas_on (<[key := <[i := cb_ID to]> r]> (a_Partitions a)) id
            = replicas_on (a_Partitions a) id - (if decide (from = id) then 1 else 0) + (if decide (cb_ID to = id) then 1 else 0)) as Hon.
  { intros id. rewrite (replicas_on_replace _ _ _ _ _ Hin), (occurs_insert r i from _ id Hi). lia. }
  split; [split; simpl|].
  - intros key' r' Hk. destruct (decide (key = key')) as [<-|Hn].
    + rewrite lookup_insert_eq in Hk. injection Hk as <-. split_and!; [done| | | |].
      * intros E%(f_equal length). rewrite length_insert in E. by destruct r.
      * intros id [j Hj]%list_elem_of_lookup_1. apply list_lookup_insert_Some in Hj as [(-> & <- & _)|[_ Hj]].
        -- by apply list_elem_of_fmap_2.
        -- apply C3. by eapply list_elem_of_lookup_2.
      * rewrite C4. destruct r as [|x r]; [done|]. simpl. destruct i as [|i]; simpl in *.
        -- injection Hi as ->. rewrite decide_True by done. by rewrite lookup_insert_eq.
        -- rewrite decide_False; [done|]. intros ->. apply NoDup_cons in C1 as [Hx _]. apply Hx. by eapply list_elem_of_lookup_2.
      * exists r0. by rewrite length_insert.
    + rewrite lookup_insert_ne in Hk by done. destruct (B1 key' r' Hk) as (D1 & D2 & D3 & D4 & D5). split_and!; [done..| |done].
      case_decide; [by rewrite lookup_insert_ne|done].
  - rewrite dom_insert_L. assert (key ∈ dom (a_Partitions a)) by (by eapply elem_of_dom_2).
    case_decide; [rewrite dom_insert_L, B2; done|]. rewrite B2. set_solver.
  - intros id. rewrite at0_incr, Hon. unfold at0 at 1. destruct (decide (from = id)) as [<-|Hn].
    + rewrite lookup_insert_eq. simpl. rewrite B3. lia.
    + rewrite lookup_insert_ne by done. fold (at0 (a_BrokerLoad a) id). rewrite B3. lia.
  - unfold incr. rewrite !dom_insert_L, B4. assert (cb_ID to ∈ broker_ids bs); [|set_solver].
    apply elem_of_broker_ids. by apply list_elem_of_fmap_2.
  - intros b Hb Hlim. rewrite Hon. specialize (B5 b Hb Hlim). case_decide as E2; [case_decide as E3; lia|].
    case_decide as E3; [|lia]. rewrite <- E3 in *.
    assert (limit_of c to = limit_of c b) as El.
    { pose proof (bcl_lookup bs c to ids_nodup Hto) as L1. pose proof (bcl_lookup bs c b ids_nodup Hb) as L2.
      rewrite <- E3, L1 in L2. unfold limit_of. by injection L2. }
    apply withinLimit_iff in Hw; [|done]. rewrite B3 in Hw. lia.
  - done.
  - intros key' W r1 Hr1. destruct (W r1 Hr1) as (r2 & Hr2 & Hl2). simpl. destruct (decide (key = key')) as [<-|Hn].
    + rewrite Hin in Hr2. injection Hr2 as <-. eexists. rewrite lookup_insert_eq. split; [done|]. by rewrite length_insert.
    + exists r2. by rewrite lookup_insert_ne.
Qed.

(** The brokers that the search for an imbalance finds are brokers of [bs]. *)
Lemma imbalance_fold l : (forall id n, (id, n) ∈ l -> id ∈ broker_ids bs) -> forall o mx u mn,
  (forall b, o = Some b \/ u = Some b -> b ∈ bs) ->
  let '(o', _, u', _) := fold_left (imbalance_step bs limits) l (o, mx, u, mn) in
  forall b, o' = Some b \/ u' = Some b -> b ∈ bs.
Proof.
  induction l as [|[id n] l IH]; intros Hl o mx u mn Hou; cbn [fold_left]; [done|].
  specialize (IH ltac:(intros id' n' Hin; apply (Hl id' n'); by right)).
  unfold imbalance_step at 2. set (b0 := default zero_broker _).
  assert (b0 ∈ bs) as Hb0.
  { pose proof (Hl id n ltac:(left)) as Hid. apply elem_of_broker_ids, list_elem_of_fmap in Hid as (b & -> & Hb).
    unfold b0. destruct (last (filter (fun b' => cb_ID b' = cb_ID b) bs)) as [b'|] eqn:E.
    - apply last_Some_elem_of, list_elem_of_filter in E as [_ ?]. done.
    - apply last_None in E. assert (b ∈ filter (fun b' => cb_ID b' = cb_ID b) bs) as Hin by (by apply list_elem_of_filter).
      rewrite E in Hin. by apply elem_of_nil in Hin. }
  destruct (mx <? n), ((n <? mn) && withinLimit limits id n); apply IH; naive_solver.
Qed.

Lemma balance_loop_spec targetLoad k : forall a, between a ->
  let a' := balance_loop range_keys range_ids k targetLoad bs limits a in
  between a' /\ forall key, whole a key -> whole a' key.
Proof.
  induction k as [|k IH]; intros a Hb; cbn [balance_loop]; [done|].
  destruct (IsBalanced a 1); [done|]. unfold findImbalancedBrokers.
  pose proof (imbalance_fold (range_ids _ (a_BrokerLoad a))) as H.
  specialize (H ltac:(intros id n Hin; rewrite range_ids_perm, elem_of_map_to_list in Hin; rewrite <- (bt_dom _ Hb); by eapply elem_of_dom_2)).
  specialize (H None targetLoad None targetLoad ltac:(naive_solver)).
  destruct (fold_left _ _ _) as [[[o mx] u] mn]. destruct o as [over|]; [|done]. destruct u as [under|]; [|done].
  destruct (movePartition _ _ _ _ _) as [a1|] eqn:E; [|done].
  apply movePartition_spec in E as [B W]; [|done|apply H; by right|].
  - destruct (IH a1 B) as [B' W']. split; [done|]. intros key Hk. by apply W', W.
  - apply elem_of_broker_ids, list_elem_of_fmap_2, H. by left.
Qed.

Lemma balanceLoad_spec a : between a -> exists a', balanceLoad range_keys range_ids a bs c = Returns a'
  /\ between a' /\ forall key, whole a key -> whole a' key.
Proof.
  intros Hb. pose proof (balance_loop_spec (Z.of_nat (size (a_Partitions a)) / zlen bs) (size (a_Partitions a) * 2) a Hb) as H.
  unfold balanceLoad. destruct (IsBalanced a 1); [by eexists|]. by destruct bs; [|eexists].
Qed.

(** *** The last pass and the result *)

Lemma filter_kept r : (forall id, id ∈ r -> id ∈ cb_ID <$> bs) -> filterReplicas r removed = r.
Proof.
  intros H. apply filter_all. intros id Hid. unfold findRemovedBrokers. rewrite elem_of_difference.
  intros [_ Hn]. apply Hn, elem_of_broker_ids, H, Hid.
Qed.

(** Nothing is left for the last pass to take out. *)
Lemma evict_final_noop a : between a ->
  fold_left (evict_final removed) (range_keys _ (a_Partitions a)) (a, ∅) = (a, ∅).
Proof.
  intros Hb. assert (forall l, (forall key r, (key, r) ∈ l -> a_Partitions a !! key = Some r) ->
                       fold_left (evict_final removed) l (a, ∅) = (a, ∅)) as H.
  { induction l as [|[key r] l IH]; intros Hl; [done|]. cbn [fold_left]. unfold evict_final at 2.
    rewrite filter_kept, decide_True by (done || by apply (bt_parts _ Hb key r), Hl; left).
    apply IH. intros key' r' Hin. apply Hl. by right. }
  apply H. intros key r. by rewrite range_keys_perm, elem_of_map_to_list.
Qed.

Lemma between_rebalanced a : between a -> (forall key, whole a key) ->
  validated (RecomputeBrokerLoad a) = Returns (RecomputeBrokerLoad a) /\ rebalanced bs c current (RecomputeBrokerLoad a).
Proof.
  intros [B1 B2 B3 B4 B5 B6] Hw.
  assert (consistent (RecomputeBrokerLoad a)) as Hco.
  { split; [|done|done]. intros key r Hk. destruct (B1 key r Hk) as (? & ? & _ & ? & _). done. }
  split.
  - unfold validated, Validate. rewrite !bool_decide_true; [done| | |]; simpl.
    + intros b load Hb. unfold at0. by rewrite Hb.
    + intros key leader Hl. assert (key ∈ dom (a_Partitions a)) as [r Hr]%elem_of_dom by (rewrite <- B2; by eapply elem_of_dom_2).
      destruct (B1 key r Hr) as (_ & _ & _ & Hh & _). rewrite Hl in Hh. rewrite Hr. simpl. by apply head_Some_elem_of.
    + intros key r Hk. apply elem_of_dom. rewrite B2. by eapply elem_of_dom_2.
  - split; simpl; [done| | | |done|done].
    + apply set_eq. intros key. rewrite !elem_of_dom. split.
      * intros [r Hr]. destruct (B1 key r Hr) as (_ & _ & _ & _ & r0 & Hr0 & _). by eexists.
      * intros [r0 Hr0]. destruct (Hw key r0 Hr0) as (r & Hr & _). by eexists.
    + intros key r r' Hr Hr'. destruct (Hw key r Hr) as (r2 & Hr2 & Hl). rewrite Hr' in Hr2. by injection Hr2 as <-.
    + intros key r Hr. destruct (B1 key r Hr) as (_ & _ & H & _). apply H.
Qed.

(** The phases of the rebalance one after the other. *)
Lemma sticky_phases :
  let a := set_version current (a_Version current + 1) in
  let out := (let '(a, todo) := fold_left (evict removed) (range_keys _ (a_Partitions a)) (a, ∅) in
              a ← reassignPartitions (with_load a (recomputed_load bs (a_Partitions a))) todo bs c;
              a ← balanceLoad range_keys range_ids a bs c;
              let '(a, todo) := fold_left (evict_final removed) (range_keys _ (a_Partitions a)) (a, ∅) in
              a ← reassignPartitions (RecomputeBrokerLoad a) todo bs c;
              validated (RecomputeBrokerLoad a)) in
  (forall a', out = Returns a' -> rebalanced bs c current a')
  /\ (unlimited bs c -> (forall key r0, a_Partitions current !! key = Some r0 -> (length r0 <= length bs)%nat) ->
        exists a', out = Returns a').
Proof.
  cbn zeta. change (a_Partitions (set_version current (a_Version current + 1))) with (a_Partitions current).
  destruct (fold_left (evict removed) _ _) as [a1 todo] eqn:E1. destruct (evict_between a1 todo E1) as (B & W & T).
  set (a2 := with_load a1 _) in *.
  destruct (fun H => reassign_fold todo (merge_sort bytes_le (map_to_list todo).*1) H a2 B) as [R1 R2].
  { intros key. rewrite merge_sort_Permutation, list_elem_of_fmap. intros ([key' p] & -> & Hp%elem_of_map_to_list).
    destruct (T key' p Hp) as (r0 & Hr0 & Hz). by exists p, r0. }
  { intros key. rewrite merge_sort_Permutation. intros Hn. apply W, eq_None_not_Some. intros [p Hp]. apply Hn.
    apply list_elem_of_fmap. exists (key, p). split; [done|]. by apply elem_of_map_to_list. }
  assert (forall a3, between a3 -> (forall key, whole a3 key) -> exists a',
    (a ← balanceLoad range_keys range_ids a3 bs c;
     let '(a, todo) := fold_left (evict_final removed) (range_keys _ (a_Partitions a)) (a, ∅) in
     a ← reassignPartitions (RecomputeBrokerLoad a) todo bs c;
     validated (RecomputeBrokerLoad a)) = Returns a' /\ rebalanced bs c current a') as Hrest.
  { intros a3 B3 W3. assert (exists a4, balanceLoad range_keys range_ids a3 bs c = Returns a4 /\ between a4 /\ forall key, whole a4 key)
      as (a4 & E4 & B4 & W4).
    { destruct (balanceLoad_spec a3 B3) as (a4 & E4 & B4 & W4). exists a4. split_and!; [done..|]. intros key. by apply W4. }
    rewrite E4. cbn [mbind outcome_bind]. rewrite (evict_final_noop a4 B4). unfold reassignPartitions. rewrite map_to_list_empty.
    cbn [fmap list_fmap]. change (merge_sort bytes_le []) with (@nil bytes). cbn [foldM mbind outcome_bind].
    destruct (between_rebalanced a4 B4 W4) as [V4 R4]. eexists. split; [exact V4|exact R4]. }
  fold (reassignPartitions a2 todo bs c) in R1, R2. split.
  - intros a' (a3 & E3 & H3)%bind_Returns. destruct (R1 a3 E3) as [B3 W3]. destruct (Hrest a3 B3 W3) as (a4 & E4 & R4).
    cbn zeta in H3. rewrite E4 in H3. by injection H3 as <-.
  - intros Hu Hl. destruct (R2 Hu Hl) as [a3 E3]. rewrite E3. cbn [mbind outcome_bind]. destruct (R1 a3 E3) as [B3 W3].
    destruct (Hrest a3 B3 W3) as (a4 & E4 & _). by exists a4.
Qed.
End sticky.

(** Nothing to do: only the version changes. *)
Lemma sticky_early bs c current : consistent current -> allBrokersMatch current bs = true ->
  rebalanced bs c current (set_version current (a_Version current + 1)).
Proof.
  intros Hco [Hm _]%andb_prop. apply bool_decide_eq_true in Hm. split; simpl.
  - destruct Hco as [C1 C2 C3]. by split.
  - done.
  - intros key r r' H1 H2. rewrite H1 in H2. by injection H2 as ->.
  - intros key r Hr id Hid. assert (id ∈ dom (a_BrokerLoad current)) as [n Hn]%elem_of_dom.
    { rewrite (co_load _ Hco). apply dom_load_from. right. eauto. }
    apply Hm in Hn. by apply elem_of_broker_ids.
  - intros. lia.
  - done.
Qed.

Lemma excluded_nodup brokers c : NoDup (cb_ID <$> brokers) -> NoDup (cb_ID <$> filterExcludedBrokers brokers (ac_ExcludedBrokers c)).
Proof. intros H. unfold filterExcludedBrokers. case_decide; [done|]. by apply NoDup_fmap_filter. Qed.

Lemma sticky_rebalance_frame range_keys range_ids brokers c current a :
  (forall V (m : gmap bytes V), range_keys V m ≡ₚ map_to_list m) ->
  (forall V (m : gmap Z V), range_ids V m ≡ₚ map_to_list m) ->
  NoDup (cb_ID <$> brokers) -> consistent current ->
  StickyStrategy_Rebalance range_keys range_ids current brokers c = Returns a ->
  rebalanced (filterExcludedBrokers brokers (ac_ExcludedBrokers c)) c current a.
Proof.
  intros Hk Hi Hnd Hco. unfold StickyStrategy_Rebalance. destruct brokers as [|b0 brokers0]; [done|].
  set (brokers := b0 :: brokers0) in *. apply (excluded_nodup brokers c) in Hnd.
  destruct (filterExcludedBrokers brokers (ac_ExcludedBrokers c)) as [|b1 bs1]; [done|]. set (bs := b1 :: bs1) in *.
  destruct (IsBalanced current 1 && allBrokersMatch current bs) eqn:E.
  - intros [= <-]. apply andb_prop in E as [_ E]. by apply sticky_early.
  - by apply (sticky_phases range_keys range_ids Hk Hi bs Hnd ltac:(done) c current Hco).
Qed.

(** Four partitions with two replicas on two brokers. *)
Lemma keys_order_perm V (m : gmap bytes V) : keys_order V m ≡ₚ map_to_list m.
Proof. done. Qed.
Lemma ids_order_perm V (m : gmap Z V) : ids_order V m ≡ₚ map_to_list m.
Proof. done. Qed.

Lemma assigned_consistent fuel parts n : NoDup (cb_ID <$> brokers_upto n) -> NoDup (key_of <$> parts) ->
  consistent (assigned fuel parts n).
Proof.
  intros Hb Hp. unfold assigned. destruct (RoundRobinStrategy_Assign fuel parts (brokers_upto n) plain) as [a| | |] eqn:E;
    [by eapply placed_consistent, rr_assign_places|eapply (placed_consistent [] plain), placed_new..].
Qed.

(** Whatever brokers came, went, or are excluded, and in whatever order Go ranges over
    its maps: the assignment that the sticky rebalance returns has the same partitions with
    the same numbers of replicas, all on distinct brokers that are available, led by the
    first; its loads are right; no broker is loaded beyond its limit, or beyond what it
    held before; and the version is the next one. *)
Theorem sticky_rebalance_valid range_keys range_ids brokers c current a :
  (forall V (m : gmap bytes V), range_keys V m ≡ₚ map_to_list m) ->
  (forall V (m : gmap Z V), range_ids V m ≡ₚ map_to_list m) ->
  NoDup (cb_ID <$> brokers) -> consistent current ->
  StickyStrategy_Rebalance range_keys range_ids current brokers c = Returns a ->
  rebalanced (filterExcludedBrokers brokers (ac_ExcludedBrokers c)) c current a.
Proof. apply sticky_rebalance_frame. Qed.

Lemma sticky_rebalance_valid_witness : exists a,
  StickyStrategy_Rebalance keys_order ids_order (assigned 0 (parts_of "t" 4 2) 2) (brokers_upto 3) plain = Returns a
  /\ rebalanced (filterExcludedBrokers (brokers_upto 3) (ac_ExcludedBrokers plain)) plain (assigned 0 (parts_of "t" 4 2) 2) a.
Proof.
  eexists. split; [vm_compute; reflexivity|].
  apply (sticky_rebalance_valid keys_order ids_order); [exact keys_order_perm|exact ids_order_perm|by_decide| |vm_compute; reflexivity].
  apply assigned_consistent; by_decide.
Defined.

(** Without limits the sticky rebalance returns as long as there are as many available
    brokers as the largest number of replicas of a partition; its loop of moves ends after
    twice as many of them as there are partitions. *)
Theorem sticky_rebalance_returns range_keys range_ids brokers c current :
  let bs := filterExcludedBrokers brokers (ac_ExcludedBrokers c) in
  (forall V (m : gmap bytes V), range_keys V m ≡ₚ map_to_list m) ->
  (forall V (m : gmap Z V), range_ids V m ≡ₚ map_to_list m) ->
  NoDup (cb_ID <$> brokers) -> consistent current -> bs <> [] -> unlimited bs c ->
  (forall key r, a_Partitions current !! key = Some r -> (length r <= length bs)%nat) ->
  exists a, StickyStrategy_Rebalance range_keys range_ids current brokers c = Returns a.
Proof.
  intros bs0 Hk Hi Hnd Hco Hne Hu Hl. unfold StickyStrategy_Rebalance.
  apply (excluded_nodup brokers c) in Hnd. fold bs0 in Hnd |- *.
  destruct brokers as [|b0 brokers0]; [by destruct Hne; unfold bs0, filterExcludedBrokers; case_decide|].
  destruct bs0 as [|b1 bs1]; [done|]. set (bs := b1 :: bs1) in *.
  destruct (IsBalanced current 1 && allBrokersMatch current bs); [by eexists|].
  by apply (sticky_phases range_keys range_ids Hk Hi bs Hnd ltac:(done) c current Hco).
Qed.

Lemma sticky_rebalance_returns_witness : exists a,
  StickyStrategy_Rebalance keys_order ids_order (assigned 0 (parts_of "t" 4 2) 2) (brokers_upto 3) plain = Returns a.
Proof.
  apply (sticky_rebalance_returns keys_order ids_order);
    [exact keys_order_perm|exact ids_order_perm|by_decide|apply assigned_consistent; by_decide|vm_compute; done| |].
  - refine (proj1 (Forall_forall (fun b => limit_of plain b <= 0) _) _). by_decide.
  - enough (map_Forall (fun (_ : bytes) (r : list Z) => (length r <= 3)%nat) (a_Partitions (assigned 0 (parts_of "t" 4 2) 2))) as H
      by exact H. by_decide.
Defined.

(** ** Where the strategies do less *)

(** The rack-aware selection of the round robin returns (a value or an error) exactly
    when no rack is full, or the racks that are not full are as many as the replicas.
    Otherwise its first pass goes round the racks for ever: the documented error for
    brokers at their limit never comes, also where other racks have room for the
    replicas. *)
Theorem rack_aware_ends_iff brokers load n brokerIndex :
  NoDup (cb_ID <$> brokers) -> brokers <> [] ->
  (exists fuel, rr_selectRackAwareReplicas fuel brokers brokerIndex n load <> Spins)
  <-> (n <= size (open_racks brokers load))%nat \/ open_racks brokers load = all_racks brokers.
Proof.
  intros Hids Hne. assert (open_racks brokers load = all_racks brokers <-> size (open_racks brokers load) = length (sorted_racks brokers)) as Heq.
  { rewrite <- racks_size. split; [by intros ->|]. intros Hz.
    apply set_subseteq_size_eq; [apply open_racks_sub|lia]. }
  rewrite Heq. split.
  - intros [fuel H]. destruct (decide (n <= size (open_racks brokers load))%nat) as [?|Hn]; [by left|right].
    destruct (decide (size (open_racks brokers load) = length (sorted_racks brokers))) as [?|Hs]; [done|]. exfalso. apply H.
    pose proof (subseteq_size _ _ (open_racks_sub brokers load)) as Hz. rewrite racks_size in Hz.
    unfold rr_selectRackAwareReplicas. rewrite rack_loop_spins; [done|done|lia|lia|apply one_per_rack_nil].
  - intros Hterm. exists (length (sorted_racks brokers)). unfold rr_selectRackAwareReplicas.
    destruct (rack_loop_ends brokers load n Hids (brokerIndex mod length (sorted_racks brokers)) Hne Hterm
                (length (sorted_racks brokers)) 0 (length (sorted_racks brokers)) [] ∅) as [r E];
      [lia|lia|apply one_per_rack_nil|intros; lia|].
    rewrite Nat.add_0_r in E. rewrite E. unfold enough. by case_decide.
Qed.

(** Three brokers in two racks, of which broker 1 may hold one partition and does. *)
Definition two_racks : list BrokerInfo :=
  [mkBroker 1 (text "a") 1; mkBroker 2 (text "b") 0; mkBroker 3 (text "b") 0].
Definition one_full (rackAware : bool) : AssignmentConstraints := mkConstraints 0 rackAware 0 {[1 := 1]} ∅ ∅.
Lemma rack_aware_ends_iff_witness :
  (exists fuel, rr_selectRackAwareReplicas fuel two_racks 0 2 (newBrokerLoad two_racks (one_full true)) <> Spins)
  <-> (2 <= size (open_racks two_racks (newBrokerLoad two_racks (one_full true))))%nat
      \/ open_racks two_racks (newBrokerLoad two_racks (one_full true)) = all_racks two_racks.
Proof. apply rack_aware_ends_iff; [by_decide|done]. Defined.

(** Brokers 2 and 3 have room for a partition with two replicas, yet its rack-aware
    assignment never returns; without the rack-aware option it gets both. *)
Lemma rack_aware_assign_spins :
  (forall fuel, RoundRobinStrategy_Assign fuel (parts_of "t" 1 2) two_racks (one_full true) = Spins)
  /\ exists a, RoundRobinStrategy_Assign 0 (parts_of "t" 1 2) two_racks (one_full false) = Returns a
       /\ GetReplicas a (text "t") 0 = [2; 3].
Proof.
  split; [|eexists; split; vm_compute; reflexivity]. intros fuel.
  change (RoundRobinStrategy_Assign fuel (parts_of "t" 1 2) two_racks (one_full true)) with
    (match available two_racks (one_full true) with
     | [] => Fails NoBrokersAfterFiltering
     | bs => '(a, _, _) ← foldM (rr_step fuel bs (one_full true)) (parts_of "t" 1 2)
                            (NewAssignment, 0%nat, newBrokerLoad bs (one_full true));
             validated a
     end).
  assert (available two_racks (one_full true) = two_racks) as -> by (vm_compute; reflexivity).
  set (p0 := mkPart (text "t") 0 2). set (load0 := newBrokerLoad two_racks (one_full true)).
  assert (rr_selectReplicas fuel p0 two_racks 0 (one_full true) load0 = Spins) as E1.
  { unfold rr_selectReplicas. change (replicaCount p0 two_racks) with (@Returns nat 2%nat). cbn [mbind outcome_bind ac_RackAware one_full].
    unfold rr_selectRackAwareReplicas. rewrite rack_loop_spins; [done| | | |apply one_per_rack_nil].
    - apply (bool_decide_unpack _). vm_compute. exact I.
    - apply (bool_decide_unpack _). vm_compute. exact I.
    - apply (bool_decide_unpack _). vm_compute. exact I. }
  change (parts_of "t" 1 2) with [p0].
  change (('(a, _, _) ← (s ← rr_step fuel two_racks (one_full true) (NewAssignment, 0%nat, load0) p0; Returns s);
           validated a) = Spins).
  unfold rr_step. rewrite E1. done.
Qed.

(** Round robin and range skip a rebalance of an assignment that is balanced: when broker 2
    of two has gone, its replicas stay where they were. *)
Lemma rebalance_keeps_removed_broker :
  let current := assigned 0 (parts_of "t" 2 1) 2 in
  RoundRobinStrategy_Rebalance keys_order 0 current (brokers_upto 1) plain = Returns current
  /\ RangeStrategy_Rebalance keys_order current (brokers_upto 1) plain = Returns current
  /\ GetReplicas current (text "t") 1 = [2].
Proof. split_and!; vm_compute; reflexivity. Qed.

(** Round robin and range read the keys back at their first colon: a rebalance turns
    partition 0 of the topic a:b into partition 0 of the topic with the empty name. *)
Lemma rebalance_loses_colon_topic :
  let brokers := [mkBroker 1 [] 1; mkBroker 2 [] 0] in
  exists current a, RoundRobinStrategy_Assign 0 (parts_of "a:b" 1 1 ++ parts_of "t" 3 1) brokers plain = Returns current
    /\ RoundRobinStrategy_Rebalance keys_order 0 current brokers plain = Returns a
    /\ a_Partitions current !! PartitionKey (text "a:b") 0 = Some [1]
    /\ a_Partitions a !! PartitionKey (text "a:b") 0 = None
    /\ is_Some (a_Partitions a !! PartitionKey [] 0).
Proof. eexists _, _. split_and!; try (vm_compute; reflexivity). eexists. vm_compute. reflexivity. Qed.

(** The sticky rebalance aims at the number of partitions per broker, not of replicas: with
    two replicas for each of four partitions a new third broker gets one of the eight
    replicas, and the loads stay three apart. *)
Lemma sticky_stops_early :
  let current := assigned 0 (parts_of "t" 4 2) 2 in
  exists a, StickyStrategy_Rebalance keys_order ids_order current (brokers_upto 3) plain = Returns a
    /\ replicas_on (a_Partitions a) 3 = 1
    /\ (replicas_on (a_Partitions a) 1 = 4 \/ replicas_on (a_Partitions a) 2 = 4)
    /\ IsBalanced a 1 = false.
Proof. eexists. split_and!; [vm_compute; reflexivity..| |vm_compute; reflexivity]. vm_compute. by (left + right). Qed.
