(* ===== verification/Cluster.v ===== *)
(** * Broker membership and the cluster coordinator (pkg/cluster)

    broker.go, coordinator.go and the counters of heartbeat.go.  The registry keeps the
    brokers and their status; it stores them through the interface [MetadataStore], whose
    implementation (metadata.ClusterMetadataStore) is modelled in Metadata.v.  The
    coordinator assigns partitions to the active brokers through the interface
    [AssignmentStrategy] and remembers the result.

    Times are arguments.  A callback that the code starts as a goroutine is returned as an
    event.  A rebalance takes the coordinator's lock three times, so it is three steps of
    [coord_step], and the local variables of a running one are part of the state. *)

From S2P Require Import Prelude GoBytes Record Placement.
From Stdlib Require Import ZArith Lia Strings.Byte Strings.String.
From stdpp Require Import prelude list sorting gmap.
#[local] Notation length := Datatypes.length.
Open Scope Z_scope.

(** ** Brokers *)

(** The status is a string; [BrokerStatusOther] is any that is not one of the constants. *)
Inductive BrokerStatus :=
| BrokerStatusStarting
| BrokerStatusAlive
| BrokerStatusDraining
| BrokerStatusDecommissioned
| BrokerStatusFailed
| BrokerStatusOther (s : bytes).

#[export] Instance BrokerStatus_eq_dec : EqDecision BrokerStatus.
Proof. solve_decision. Defined.

Record BrokerMetadata := mkBM {
  bm_ID : Z;
  bm_Host : bytes;
  bm_Port : Z;
  bm_Rack : bytes;
  bm_Capacity : Z;
  bm_Status : BrokerStatus;
  bm_RegisteredAt : Z;
  bm_LastHeartbeat : Z;
  bm_DecommissionedAt : Z;
  bm_DiskCapacityGB : Z;
  bm_DiskUsedGB : Z;
  bm_NetworkBandwidth : Z;
  bm_Version : bytes;
  bm_Tags : gmap bytes bytes
}.

Definition set_status (b : BrokerMetadata) (s : BrokerStatus) : BrokerMetadata :=
  mkBM (bm_ID b) (bm_Host b) (bm_Port b) (bm_Rack b) (bm_Capacity b) s (bm_RegisteredAt b) (bm_LastHeartbeat b)
    (bm_DecommissionedAt b) (bm_DiskCapacityGB b) (bm_DiskUsedGB b) (bm_NetworkBandwidth b) (bm_Version b) (bm_Tags b).
Definition set_heartbeat (b : BrokerMetadata) (t : Z) : BrokerMetadata :=
  mkBM (bm_ID b) (bm_Host b) (bm_Port b) (bm_Rack b) (bm_Capacity b) (bm_Status b) (bm_RegisteredAt b) t
    (bm_DecommissionedAt b) (bm_DiskCapacityGB b) (bm_DiskUsedGB b) (bm_NetworkBandwidth b) (bm_Version b) (bm_Tags b).
Definition set_registered (b : BrokerMetadata) (t : Z) : BrokerMetadata :=
  mkBM (bm_ID b) (bm_Host b) (bm_Port b) (bm_Rack b) (bm_Capacity b) (bm_Status b) t (bm_LastHeartbeat b)
    (bm_DecommissionedAt b) (bm_DiskCapacityGB b) (bm_DiskUsedGB b) (bm_NetworkBandwidth b) (bm_Version b) (bm_Tags b).
Definition set_decommissioned (b : BrokerMetadata) (t : Z) : BrokerMetadata :=
  mkBM (bm_ID b) (bm_Host b) (bm_Port b) (bm_Rack b) (bm_Capacity b) (bm_Status b) (bm_RegisteredAt b) (bm_LastHeartbeat b)
    t (bm_DiskCapacityGB b) (bm_DiskUsedGB b) (bm_NetworkBandwidth b) (bm_Version b) (bm_Tags b).

Definition Address (b : BrokerMetadata) : bytes := bm_Host b ++ x3a :: FormatInt (bm_Port b).
Definition IsHealthy (b : BrokerMetadata) : bool :=
  bool_decide (bm_Status b = BrokerStatusAlive) || bool_decide (bm_Status b = BrokerStatusStarting).
Definition IsActive (b : BrokerMetadata) : bool := bool_decide (bm_Status b = BrokerStatusAlive).
Definition CanAcceptPartitions (b : BrokerMetadata) : bool :=
  bool_decide (bm_Status b = BrokerStatusAlive) || bool_decide (bm_Status b = BrokerStatusStarting).

(** ** The store of the broker metadata *)

Class MetadataStore (S E : Type) := {
  md_StoreBrokerMetadata : Z -> S -> BrokerMetadata -> option E * S;
  md_GetBrokerMetadata : Z -> S -> Z -> option BrokerMetadata;
  md_ListBrokers : Z -> S -> list BrokerMetadata;
  md_DeleteBroker : Z -> S -> Z -> option E * S
}.

(** ** The registry *)

Inductive registry_event := BrokerAdded (id : Z) | BrokerRemoved (id : Z) | BrokerFailed (id : Z).

Inductive registry_error (E : Type) := NotFound | NotRegistered | PersistFailed (e : E).
Arguments NotFound {E}.
Arguments NotRegistered {E}.
Arguments PersistFailed {E} e.

Section registry.
Context {S E : Type} `{!MetadataStore S E}.

Record BrokerRegistry := mkRegistry { br_brokers : gmap Z BrokerMetadata; br_store : S; br_heartbeatTimeout : Z }.

Definition NewBrokerRegistry (s : S) : BrokerRegistry := mkRegistry ∅ s (30 * 1000000000).

Definition with_brokers (br : BrokerRegistry) (m : gmap Z BrokerMetadata) : BrokerRegistry :=
  mkRegistry m (br_store br) (br_heartbeatTimeout br).

Definition RegisterBroker (now : Z) (br : BrokerRegistry) (broker : BrokerMetadata)
    : option (registry_error E) * list registry_event * BrokerRegistry :=
  let existing := br_brokers br !! bm_ID broker in
  let broker := match existing with
                | Some e => set_registered broker (bm_RegisteredAt e)
                | None => set_status (set_registered broker now) BrokerStatusStarting
                end in
  let broker := set_heartbeat broker now in
  let '(err, s) := md_StoreBrokerMetadata now (br_store br) broker in
  match err with
  | Some e => (Some (PersistFailed e), [], mkRegistry (br_brokers br) s (br_heartbeatTimeout br))
  | None => (None, match existing with Some _ => [] | None => [BrokerAdded (bm_ID broker)] end,
             mkRegistry (<[bm_ID broker := broker]> (br_brokers br)) s (br_heartbeatTimeout br))
  end.

(** The broker is marked before it is stored, and stays marked when that fails. *)
Definition DeregisterBroker (now : Z) (br : BrokerRegistry) (brokerID : Z)
    : option (registry_error E) * list registry_event * BrokerRegistry :=
  match br_brokers br !! brokerID with
  | None => (Some NotFound, [], br)
  | Some broker =>
      let broker := set_decommissioned (set_status broker BrokerStatusDecommissioned) now in
      let '(err, s) := md_StoreBrokerMetadata now (br_store br) broker in
      let br := mkRegistry (<[brokerID := broker]> (br_brokers br)) s (br_heartbeatTimeout br) in
      match err with
      | Some e => (Some (PersistFailed e), [], br)
      | None => (None, [BrokerRemoved brokerID], br)
      end
  end.

Definition RecordHeartbeat (now : Z) (br : BrokerRegistry) (brokerID : Z)
    : option (registry_error E) * BrokerRegistry :=
  match br_brokers br !! brokerID with
  | None => (Some NotRegistered, br)
  | Some broker =>
      let broker := set_heartbeat broker now in
      let broker := if bool_decide (bm_Status broker = BrokerStatusFailed \/ bm_Status broker = BrokerStatusStarting)
                    then set_status broker BrokerStatusAlive else broker in
      (None, with_brokers br (<[brokerID := broker]> (br_brokers br)))
  end.

Definition GetBroker (br : BrokerRegistry) (brokerID : Z) : result (registry_error E) BrokerMetadata :=
  match br_brokers br !! brokerID with Some b => Ok b | None => Err NotFound end.

(** The body of the loop over the brokers: the broker, and whether its failure is reported. *)
Definition check_broker (now timeout : Z) (b : BrokerMetadata) : BrokerMetadata * bool :=
  if bool_decide (bm_Status b = BrokerStatusDecommissioned) then (b, false)
  else if timeout <? now - bm_LastHeartbeat b then
    if bool_decide (bm_Status b <> BrokerStatusFailed) then (set_status b BrokerStatusFailed, true) else (b, false)
  else (b, false).

Definition GetBrokerCount (br : BrokerRegistry) : Z := Z.of_nat (size (br_brokers br)).
Definition GetActiveBrokerCount (br : BrokerRegistry) : Z :=
  Z.of_nat (size (filter (fun kv => IsActive kv.2 = true) (br_brokers br))).

Section order.
(** The order of a range over the brokers. *)
Context (range_ids : forall V : Type, gmap Z V -> list (Z * V)).

Definition Registry_ListBrokers (br : BrokerRegistry) : list BrokerMetadata := (range_ids _ (br_brokers br)).*2.
Definition ListActiveBrokers (br : BrokerRegistry) : list BrokerMetadata :=
  filter (fun b => IsActive b = true) (range_ids _ (br_brokers br)).*2.

Definition checkBrokerHealth (now : Z) (br : BrokerRegistry) : list registry_event * BrokerRegistry :=
  (BrokerFailed ∘ bm_ID <$> filter (fun b => (check_broker now (br_heartbeatTimeout br) b).2 = true) (range_ids _ (br_brokers br)).*2,
   with_brokers br ((fun b => (check_broker now (br_heartbeatTimeout br) b).1) <$> br_brokers br)).
End order.

Definition loadBrokers (now : Z) (br : BrokerRegistry) : BrokerRegistry :=
  with_brokers br (fold_left (fun m b => <[bm_ID b := b]> m) (md_ListBrokers now (br_store br)) (br_brokers br)).
End registry.
Arguments BrokerRegistry S : clear implicits.

(** ** The sender of heartbeats *)

Record HeartbeatService := mkHeartbeatService {
  hs_brokerID : Z;
  hs_successCount : Z;
  hs_failureCount : Z;
  hs_lastHeartbeatTime : Z;
  hs_lastError : bool
}.

(** [None] for the answer stands for a registry that does not answer in time. *)
Definition sendHeartbeat (now : Z) (hs : HeartbeatService) (answer : option bool) : bool * HeartbeatService :=
  match answer with
  | Some true => (true, mkHeartbeatService (hs_brokerID hs) (wraps 64 (hs_successCount hs + 1)) (hs_failureCount hs) now false)
  | _ => (false, mkHeartbeatService (hs_brokerID hs) (hs_successCount hs) (wraps 64 (hs_failureCount hs + 1))
                   (hs_lastHeartbeatTime hs) true)
  end.

(** ** The coordinator *)

(** The local variables of a rebalance that runs: the assignment and the limit it read,
    and then the brokers. *)
Record rebalance_run := mkRun { rn_current : Assignment; rn_limit : Z; rn_brokers : option (list BrokerInfo) }.

Record ClusterCoordinator := mkCoordinator {
  cc_currentAssignment : option Assignment;
  cc_partitionLimit : Z;
  cc_rebalanceThreshold : Z;
  cc_rebalancing : bool;
  cc_rebalanceCount : Z;
  cc_failedRebalances : Z;
  cc_run : option rebalance_run
}.

Definition NewClusterCoordinator : ClusterCoordinator := mkCoordinator None 0 2 false 0 0 None.

Definition with_assignment (cc : ClusterCoordinator) (a : option Assignment) : ClusterCoordinator :=
  mkCoordinator a (cc_partitionLimit cc) (cc_rebalanceThreshold cc) (cc_rebalancing cc) (cc_rebalanceCount cc)
    (cc_failedRebalances cc) (cc_run cc).

(** [for brokerID, count := range callerLoad { merged[brokerID] += count }] over a copy of the loads. *)
Definition cumulativeExistingLoad (cc : ClusterCoordinator) (callerLoad : gmap Z Z) : gmap Z Z :=
  let merged := match cc_currentAssignment cc with Some a => a_BrokerLoad a | None => ∅ end in
  map_fold (fun brokerID n m => <[brokerID := at0 m brokerID + n]> m) merged callerLoad.

Definition mergeAssignment (existing : option Assignment) (added : Assignment) : Assignment :=
  let '(ps, ls, v) := match existing with
                      | Some e => (a_Partitions e, a_Leaders e, a_Version e)
                      | None => (∅, ∅, 0)
                      end in
  RecomputeBrokerLoad (mkAssignment (a_Partitions added ∪ ps) (a_Leaders added ∪ ls) ∅ (wraps 64 (v + 1))).

Definition getActiveBrokersForAssignment (active : list BrokerMetadata) : list BrokerInfo :=
  (fun b => mkBroker (bm_ID b) (bm_Rack b) (bm_Capacity b)) <$> active.

Section coordinator.
Context `{!AssignmentStrategy}.

(** [nil] constraints are the zero value; [effective.ExistingLoad] is replaced. *)
Definition effective (cc : ClusterCoordinator) (constraints : option AssignmentConstraints) : AssignmentConstraints :=
  let c := default (mkConstraints 0 false 0 ∅ ∅ ∅) constraints in
  mkConstraints (ac_MinInSyncReplicas c) (ac_RackAware c) (ac_MaxPartitionsPerBroker c)
    (cumulativeExistingLoad cc (ac_ExistingLoad c)) (ac_PreferredLeaders c) (ac_ExcludedBrokers c).

Definition AssignPartitions (cc : ClusterCoordinator) (brokers : list BrokerInfo) (partitions : list PartitionInfo)
    (constraints : option AssignmentConstraints) : outcome (Assignment * ClusterCoordinator) :=
  match brokers with
  | [] => Fails NoBrokersAvailable
  | _ =>
      let c := effective cc constraints in
      a ← strategy_Assign partitions brokers c;
      Returns (a, mkCoordinator (Some (mergeAssignment (cc_currentAssignment cc) a)) (ac_MaxPartitionsPerBroker c)
                    (cc_rebalanceThreshold cc) (cc_rebalancing cc) (cc_rebalanceCount cc) (cc_failedRebalances cc) (cc_run cc))
  end.

Definition GetCurrentAssignment (cc : ClusterCoordinator) : option Assignment := cc_currentAssignment cc.

(** *** The steps of a rebalance *)

(** [TriggerRebalance] and [checkAndRebalance] set the flag under the lock; the second
    only when the assignment is out of balance. *)
Definition begin_rebalance (cc : ClusterCoordinator) : ClusterCoordinator :=
  mkCoordinator (cc_currentAssignment cc) (cc_partitionLimit cc) (cc_rebalanceThreshold cc) true (cc_rebalanceCount cc)
    (cc_failedRebalances cc) (cc_run cc).

Definition checkAndRebalance (cc : ClusterCoordinator) : bool :=
  match cc_currentAssignment cc with
  | None => false
  | Some a => negb (cc_rebalancing cc) && negb (IsBalanced a (cc_rebalanceThreshold cc))
  end.

(** [performRebalance], first part: the read of the assignment and the limit.  Without an
    assignment it fails, and the deferred function clears the flag. *)
Definition performRebalance_read (cc : ClusterCoordinator) : ClusterCoordinator :=
  match cc_currentAssignment cc with
  | None => mkCoordinator None (cc_partitionLimit cc) (cc_rebalanceThreshold cc) false (cc_rebalanceCount cc)
              (cc_failedRebalances cc) None
  | Some a => mkCoordinator (Some a) (cc_partitionLimit cc) (cc_rebalanceThreshold cc) (cc_rebalancing cc)
                (cc_rebalanceCount cc) (cc_failedRebalances cc) (Some (mkRun a (cc_partitionLimit cc) None))
  end.

(** A rebalance that failed. *)
Definition failed_rebalance (cc : ClusterCoordinator) : ClusterCoordinator :=
  mkCoordinator (cc_currentAssignment cc) (cc_partitionLimit cc) (cc_rebalanceThreshold cc) false (cc_rebalanceCount cc)
    (wraps 64 (cc_failedRebalances cc + 1)) None.

(** Second part: the active brokers. *)
Definition performRebalance_brokers (cc : ClusterCoordinator) (run : rebalance_run) (brokers : list BrokerInfo) : ClusterCoordinator :=
  match brokers with
  | [] => failed_rebalance cc
  | _ => mkCoordinator (cc_currentAssignment cc) (cc_partitionLimit cc) (cc_rebalanceThreshold cc) (cc_rebalancing cc)
           (cc_rebalanceCount cc) (cc_failedRebalances cc) (Some (mkRun (rn_current run) (rn_limit run) (Some brokers)))
  end.

Definition rebalance_constraints (limit : Z) : AssignmentConstraints := mkConstraints 0 true limit ∅ ∅ ∅.

(** Third part: the strategy, and the write of its result. *)
Definition performRebalance_write (cc : ClusterCoordinator) (run : rebalance_run) (brokers : list BrokerInfo) : outcome ClusterCoordinator :=
  match strategy_Rebalance (rn_current run) brokers (rebalance_constraints (rn_limit run)) with
  | Returns a => Returns (mkCoordinator (Some a) (cc_partitionLimit cc) (cc_rebalanceThreshold cc) false
                            (wraps 64 (cc_rebalanceCount cc + 1)) (cc_failedRebalances cc) None)
  | Fails _ => Returns (failed_rebalance cc)
  | Panics => Panics
  | Spins => Spins
  end.

(** ** Steps of the coordinator *)

(** What can happen next: an assignment by a caller, with the brokers that are active then,
    a rebalance that begins (by hand, after a broker event, or by the ticker), or the next
    part of the one that runs.  The brokers come from the registry, which keeps them by
    their IDs; [callers] holds of the constraints that callers pass. *)
Context (callers : AssignmentConstraints -> Prop).
Inductive coord_step (cc : ClusterCoordinator) : ClusterCoordinator -> Prop :=
| CsAssign brokers partitions constraints a cc' :
    NoDup (cb_ID <$> brokers) -> callers (default (mkConstraints 0 false 0 ∅ ∅ ∅) constraints) ->
    AssignPartitions cc brokers partitions constraints = Returns (a, cc') -> coord_step cc cc'
| CsBegin : cc_rebalancing cc = false -> coord_step cc (performRebalance_read (begin_rebalance cc))
| CsBrokers run brokers : NoDup (cb_ID <$> brokers) -> cc_run cc = Some run -> rn_brokers run = None ->
    coord_step cc (performRebalance_brokers cc run brokers)
| CsWrite run brokers cc' : cc_run cc = Some run -> rn_brokers run = Some brokers ->
    performRebalance_write cc run brokers = Returns cc' -> coord_step cc cc'.
End coordinator.
