(* ===== verification/ClusterSpec.v ===== *)
(** * What the registry and the coordinator guarantee

    The laws that the coordinator relies on ([StrategyLaws]) and their proof for the three
    strategies; that the limit on partitions per broker holds in every reachable state of
    the coordinator, whatever it assigns and however rebalances and assignments interleave;
    that such an interleaving can lose an assignment; and when the registry takes a broker
    for failed. *)

From S2P Require Import Prelude GoBytes Record Placement PlacementSpec RebalanceSpec Cluster.
From Stdlib Require Import ZArith Lia Strings.Byte Strings.String.
From stdpp Require Import prelude list sorting gmap relations.
#[local] Notation length := Datatypes.length.
Open Scope Z_scope.

(** ** Assignments from any partitions *)

Section any.
Context (bs : list BrokerInfo) (ids_nodup : NoDup (cb_ID <$> bs)) (c : AssignmentConstraints).

(** A step of any strategy: a selection is recorded under some key. *)
Inductive place1 : Assignment * brokerLoad -> Assignment * brokerLoad -> Prop :=
| Place1 a load p topic partitionID replicas : selected bs load (ac_RackAware c) p replicas ->
    place1 (a, load) (AddReplica a topic partitionID replicas, addAll load replicas).

Lemma rr_fold_places fuel partitions : forall a i load a' i' load',
  foldM (rr_step fuel bs c) partitions (a, i, load) = Returns (a', i', load') -> rtc place1 (a, load) (a', load').
Proof using ids_nodup.
  induction partitions as [|p partitions IH]; intros a i load a' i' load'; cbn [foldM]; [by intros [= <- _ <-]|].
  intros ([[a1 i1] load1] & H1 & H2)%bind_Returns. unfold rr_step in H1.
  apply bind_Returns in H1 as ([j replicas] & Hs & [= <- <- <-]). apply rr_selectReplicas_sound in Hs; [|done].
  eapply rtc_l; [by econstructor|by eapply IH].
Qed.

Lemma range_block_places topic k brokerIdx : forall rest a load rest' a' load',
  range_block k topic bs brokerIdx c rest (a, load) = Returns (rest', (a', load')) -> rtc place1 (a, load) (a', load').
Proof using ids_nodup.
  induction k as [|k IH]; intros rest a load rest' a' load'; cbn [range_block]; [by intros [= _ <- <-]|].
  destruct rest as [|p rest]; [by intros [= _ <- <-]|].
  intros (replicas & Hs & H)%bind_Returns. apply range_selectReplicas_sound in Hs; [|done].
  eapply rtc_l; [by econstructor|by eapply IH].
Qed.

Lemma range_brokers_places topic per extra todo : forall brokerIdx rest a load a' load',
  range_brokers todo brokerIdx per extra topic bs c rest (a, load) = Returns (a', load') -> rtc place1 (a, load) (a', load').
Proof using ids_nodup.
  induction todo as [|todo IH]; intros brokerIdx rest a load a' load'; cbn [range_brokers]; [by intros [= <- <-]|].
  intros ([rest1 [a1 load1]] & H1 & H2)%bind_Returns. etrans; [by eapply range_block_places|by eapply IH].
Qed.

Lemma range_fold_places groups topics : forall a load a' load',
  foldM (fun st topic => assignTopicPartitions topic (default [] ((groups : gmap bytes (list PartitionInfo)) !! topic)) bs c st)
    topics (a, load) = Returns (a', load') -> rtc place1 (a, load) (a', load').
Proof using ids_nodup.
  induction topics as [|t topics IH]; intros a load a' load'; cbn [foldM]; [by intros [= <- <-]|].
  intros ([a1 load1] & H1 & H2)%bind_Returns. etrans; [by eapply range_brokers_places|by eapply IH].
Qed.

(** What holds of an assignment that is built, also when a key comes twice: then the
    recorded loads are more than the replicas. *)
Record building (a : Assignment) : Prop := {
  bu_parts key r : a_Partitions a !! key = Some r ->
    NoDup r /\ r <> [] /\ a_Leaders a !! key = head r /\ forall id, id ∈ r -> id ∈ cb_ID <$> bs;
  bu_leaders : dom (a_Leaders a) = dom (a_Partitions a);
  bu_load id : replicas_on (a_Partitions a) id <= at0 (a_BrokerLoad a) id;
  bu_pos id n : a_BrokerLoad a !! id = Some n -> 1 <= n;
  bu_limit b : b ∈ bs -> 0 < limit_of c b ->
    at0 (ac_ExistingLoad c) (cb_ID b) + at0 (a_BrokerLoad a) (cb_ID b) <= at0 (ac_ExistingLoad c) (cb_ID b) `max` limit_of c b
}.

Lemma building_new : building NewAssignment.
Proof using.
  split; simpl.
  - intros key r H. by rewrite lookup_empty in H.
  - by rewrite !dom_empty_L.
  - intros id. rewrite replicas_on_empty. unfold at0. by rewrite lookup_empty.
  - intros id n H. by rewrite lookup_empty in H.
  - intros b _ _. unfold at0 at 2. rewrite lookup_empty. simpl. lia.
Qed.

Lemma incr_all_pos l : forall m : gmap Z Z, (forall id n, m !! id = Some n -> 1 <= n) ->
  forall id n, fold_left incr l m !! id = Some n -> 1 <= n.
Proof using.
  induction l as [|x l IH]; intros m Hm; [done|]. simpl. apply IH. intros id n. unfold incr.
  intros [[<- <-]|[_ H]]%lookup_insert_Some; [|by eapply Hm]. unfold at0. destruct (m !! x) as [v|] eqn:E; simpl; [|lia].
  pose proof (Hm x v E). lia.
Qed.

Lemma place1_building st st' : place1 st st' -> building st.1 -> tracks bs c st.1 st.2 ->
  building st'.1 /\ tracks bs c st'.1 st'.2.
Proof using ids_nodup.
  intros [a load p topic pid replicas [[Hnd Hin _] Hlen Hne _]] [B1 B2 B3 B4 B5] Ht. simpl in *.
  assert (exists l rs, replicas = l :: rs) as (l & rs & E) by (destruct replicas as [|l rs]; [simpl in *; lia|eauto]).
  unfold AddReplica. rewrite E. rewrite <- E. set (key := PartitionKey topic pid). split; split; simpl.
  - intros key' r. destruct (decide (key = key')) as [<-|Hn].
    + rewrite !lookup_insert_eq. intros [= <-]. split_and!; [done|by rewrite E|by rewrite E|]. intros id Hid. by apply Hin.
    + rewrite !lookup_insert_ne by done. apply B1.
  - by rewrite !dom_insert_L, B2.
  - intros id. rewrite at0_incr_all, replicas_on_upsert. specialize (B3 id).
    pose proof (occurs_nonneg id (default [] (a_Partitions a !! key))). lia.
  - by apply incr_all_pos.
  - intros b Hb Hlim. rewrite at0_incr_all. pose proof (B5 b Hb Hlim) as Hold.
    destruct (decide (cb_ID b ∈ replicas)) as [Hb'|Hb'].
    + rewrite occurs_elem by done. destruct (Hin _ Hb') as [_ Hc]. apply (hasCapacity_iff bs ids_nodup c a) in Hc; [|done..]. lia.
    + rewrite occurs_not_elem by done. lia.
  - intros id Hid. destruct (addAll_spec replicas load) as [-> _]. rewrite !at0_incr_all, (tr_counts _ _ _ _ Ht) by done. lia.
  - destruct (addAll_spec replicas load) as [_ ->]. by destruct Ht.
Qed.

Lemma places_building a load : rtc place1 (NewAssignment, newBrokerLoad bs c) (a, load) -> building a.
Proof using ids_nodup.
  intros H. change a with (a, load).1. remember (NewAssignment, newBrokerLoad bs c) as st0 eqn:E.
  assert (building st0.1 /\ tracks bs c st0.1 st0.2) as H0 by (subst; split; [apply building_new|apply tracks_new]).
  clear E. revert H0. induction H as [st|st st1 st2 H1 _ IH]; intros [Hb Ht]; [done|].
  apply IH. by eapply place1_building.
Qed.

(** The validation catches a key that came twice. *)
Lemma building_valid a : building a -> Validate a = None -> consistent a.
Proof using ids_nodup.
  intros [B1 B2 B3 B4 B5] HV. unfold Validate in HV.
  destruct (negb _); [done|]. destruct (negb _); [done|]. destruct (bool_decide_reflect (map_Forall
    (fun broker load => at0 (computedLoad (a_Partitions a)) broker = load) (a_BrokerLoad a))) as [Hl|]; [|done].
  split; [|done|].
  - intros key r Hk. destruct (B1 key r Hk) as (? & ? & ? & _). done.
  - apply map_eq. intros id. destruct (a_BrokerLoad a !! id) as [n|] eqn:E.
    + pose proof (Hl id n E) as Hn. simpl in Hn. specialize (B4 id n E). unfold at0 in Hn.
      destruct (computedLoad (a_Partitions a) !! id) as [m|]; simpl in Hn; [by subst|lia].
    + symmetry. apply not_elem_of_dom. unfold computedLoad. rewrite dom_load_from. intros [?|(key & r & Hk & Hid)]; [set_solver|].
      specialize (B3 id). unfold at0 in B3. rewrite E in B3. simpl in B3.
      rewrite (replicas_on_delete _ _ _ id Hk), (occurs_elem id r) in B3; [|by destruct (B1 key r Hk)|done].
      pose proof (replicas_on_nonneg (delete key (a_Partitions a)) id). lia.
Qed.
End any.

(** ** The laws of a strategy *)

(** What the coordinator relies on.  A broker that an assignment uses is one of those
    given, and its limit holds with what it held before; a rebalance adds to no other
    broker. *)
Class StrategyLaws (strat : AssignmentStrategy) := {
  assign_law partitions brokers c a : NoDup (cb_ID <$> brokers) ->
    strategy_Assign partitions brokers c = Returns a ->
    consistent a /\ forall id, 0 < replicas_on (a_Partitions a) id -> exists b, b ∈ brokers /\ cb_ID b = id
      /\ (0 < limit_of c b -> at0 (ac_ExistingLoad c) id + replicas_on (a_Partitions a) id
                               <= at0 (ac_ExistingLoad c) id `max` limit_of c b);
  rebalance_law current brokers c a : NoDup (cb_ID <$> brokers) -> ac_ExistingLoad c = ∅ -> consistent current ->
    strategy_Rebalance current brokers c = Returns a ->
    consistent a /\ forall id, replicas_on (a_Partitions current) id < replicas_on (a_Partitions a) id ->
      exists b, b ∈ brokers /\ cb_ID b = id
      /\ (0 < limit_of c b -> replicas_on (a_Partitions a) id <= replicas_on (a_Partitions current) id `max` limit_of c b)
}.

Lemma building_law brokers c a : NoDup (cb_ID <$> brokers) -> building (available brokers c) c a -> Validate a = None ->
  consistent a /\ forall id, 0 < replicas_on (a_Partitions a) id -> exists b, b ∈ brokers /\ cb_ID b = id
    /\ (0 < limit_of c b -> at0 (ac_ExistingLoad c) id + replicas_on (a_Partitions a) id
                             <= at0 (ac_ExistingLoad c) id `max` limit_of c b).
Proof.
  intros Hids%(available_nodup brokers c) Hb HV. pose proof (building_valid _ Hids _ _ Hb HV) as Hco. split; [done|].
  intros id Hpos. assert (id ∈ dom (a_BrokerLoad a)) as Hd.
  { apply elem_of_dom. rewrite (co_load _ Hco). unfold replicas_on, at0 in Hpos.
    destruct (computedLoad (a_Partitions a) !! id); [by eexists|simpl in Hpos; lia]. }
  rewrite (co_load _ Hco) in Hd. apply dom_load_from in Hd as [?|(key & r & Hk & Hid)]; [set_solver|].
  destruct (bu_parts _ _ _ Hb key r Hk) as (_ & _ & _ & Hin). apply Hin, list_elem_of_fmap in Hid as (b & -> & Hbin).
  exists b. split; [by apply elem_of_available in Hbin as [? _]|]. split; [done|]. intros Hlim.
  pose proof (bu_limit _ _ _ Hb b Hbin Hlim) as HL. rewrite (co_load _ Hco) in HL. done.
Qed.

Lemma building_empty bs c : building bs c NewAssignment /\ Validate NewAssignment = None.
Proof. split; [apply building_new|]. vm_compute. reflexivity. Qed.

Lemma rr_assign_law fuel partitions brokers c a : NoDup (cb_ID <$> brokers) ->
  RoundRobinStrategy_Assign fuel partitions brokers c = Returns a ->
  building (available brokers c) c a /\ Validate a = None.
Proof.
  intros Hids%(available_nodup brokers c). unfold RoundRobinStrategy_Assign.
  destruct brokers as [|b0 brokers]; [done|]. set (bs0 := b0 :: brokers) in *.
  destruct partitions as [|p0 partitions]; [intros [= <-]; apply building_empty|].
  destruct (available bs0 c) as [|b1 bs1] eqn:Eb; [done|]. intros ([[a' i] load] & H1 & H2)%bind_Returns.
  apply rr_fold_places in H1; [|done]. apply places_building in H1; [|done]. unfold validated in H2.
  destruct (Validate a') eqn:HV; [done|]. by injection H2 as <-.
Qed.

Lemma range_assign_law partitions brokers c a : NoDup (cb_ID <$> brokers) ->
  RangeStrategy_Assign partitions brokers c = Returns a ->
  building (available brokers c) c a /\ Validate a = None.
Proof.
  intros Hids%(available_nodup brokers c). unfold RangeStrategy_Assign.
  destruct brokers as [|b0 brokers]; [done|]. set (bs0 := b0 :: brokers) in *.
  destruct partitions as [|p0 partitions]; [intros [= <-]; apply building_empty|].
  destruct (available bs0 c) as [|b1 bs1] eqn:Eb; [done|]. intros ([a' load] & H1 & H2)%bind_Returns.
  apply range_fold_places in H1; [|done]. apply places_building in H1; [|done]. unfold validated in H2.
  destruct (Validate a') eqn:HV; [done|]. by injection H2 as <-.
Qed.

(** A rebalance that assigns from scratch satisfies the law when its assignment does. *)
Lemma scratch_law c brokers current a v : NoDup (cb_ID <$> brokers) -> ac_ExistingLoad c = ∅ ->
  building (available brokers c) c a /\ Validate a = None ->
  consistent (set_version a v) /\ forall id, replicas_on (a_Partitions current) id < replicas_on (a_Partitions a) id ->
    exists b, b ∈ brokers /\ cb_ID b = id
    /\ (0 < limit_of c b -> replicas_on (a_Partitions a) id <= replicas_on (a_Partitions current) id `max` limit_of c b).
Proof.
  intros Hids He [Hb HV]. destruct (building_law brokers c a Hids Hb HV) as [[C1 C2 C3] Hl]. split; [by split|].
  intros id Hlt. pose proof (replicas_on_nonneg (a_Partitions current) id).
  destruct (Hl id ltac:(lia)) as (b & Hbin & Hid & Hlim). exists b. split_and!; [done..|]. intros Hp. specialize (Hlim Hp).
  rewrite He in Hlim. unfold at0 in Hlim. rewrite lookup_empty in Hlim. simpl in Hlim. lia.
Qed.

#[export] Instance RoundRobin_laws range_keys fuel : StrategyLaws (RoundRobinStrategy range_keys fuel).
Proof.
  split; simpl.
  - intros partitions brokers c a Hids [Hb HV]%rr_assign_law; [|done]. by apply building_law.
  - intros current brokers c a Hids He Hco. unfold RoundRobinStrategy_Rebalance. destruct brokers as [|b0 brokers]; [done|].
    destruct (IsBalanced current 1); [intros [= <-]; split; [done|intros; lia]|].
    intros (a' & H & [= <-])%bind_Returns. apply rr_assign_law in H; [|done].
    exact (scratch_law c (b0 :: brokers) current a' _ Hids He H).
Qed.

#[export] Instance Range_laws range_keys : StrategyLaws (RangeStrategy range_keys).
Proof.
  split; simpl.
  - intros partitions brokers c a Hids [Hb HV]%range_assign_law; [|done]. by apply building_law.
  - intros current brokers c a Hids He Hco. unfold RangeStrategy_Rebalance. destruct brokers as [|b0 brokers]; [done|].
    destruct (IsBalanced current 1); [intros [= <-]; split; [done|intros; lia]|].
    intros (a' & H & [= <-])%bind_Returns. apply range_assign_law in H; [|done].
    exact (scratch_law c (b0 :: brokers) current a' _ Hids He H).
Qed.

Lemma Sticky_laws range_keys range_ids fuel :
  (forall V (m : gmap bytes V), range_keys V m ≡ₚ map_to_list m) ->
  (forall V (m : gmap Z V), range_ids V m ≡ₚ map_to_list m) ->
  StrategyLaws (StickyStrategy range_keys range_ids fuel).
Proof.
  intros Hk Hi. split; simpl.
  - intros partitions brokers c a Hids [Hb HV]%rr_assign_law; [|done]. by apply building_law.
  - intros current brokers c a Hids He Hco H.
    destruct (sticky_rebalance_frame range_keys range_ids brokers c current a Hk Hi Hids Hco H) as [R1 _ _ R4 R5 _].
    split; [done|]. intros id Hlt. assert (id ∈ dom (computedLoad (a_Partitions a))) as Hd.
    { apply elem_of_dom. pose proof (replicas_on_nonneg (a_Partitions current) id). unfold replicas_on, at0 in *.
      destruct (computedLoad (a_Partitions a) !! id); [by eexists|simpl in *; lia]. }
    apply dom_load_from in Hd as [?|(key & r & Hkey & Hid)]; [set_solver|].
    apply (R4 key r Hkey), list_elem_of_fmap in Hid as (b & -> & Hb). exists b. split_and!; [|done|by apply R5].
    unfold filterExcludedBrokers in Hb. case_decide; [done|]. by apply list_elem_of_filter in Hb as [_ ?].
Qed.

(** ** The limit of the coordinator *)

Lemma tighterLimit_le M cap : 0 < M -> 0 < tighterLimit M cap <= M.
Proof. intros HM. unfold tighterLimit. zbool; lia. Qed.

Lemma at0_insert (m : gmap Z Z) k v id : at0 (<[k := v]> m) id = if decide (k = id) then v else at0 m id.
Proof. unfold at0. case_decide as E; [subst; by rewrite lookup_insert_eq|by rewrite lookup_insert_ne]. Qed.

Lemma at0_cumulative m0 l id : at0 (map_fold (fun brokerID n m => <[brokerID := at0 m brokerID + n]> m) m0 l) id
  = at0 m0 id + at0 l id.
Proof.
  induction l as [|k n l Hk IH] using map_ind.
  { rewrite map_fold_empty. unfold at0 at 3. rewrite lookup_empty. simpl. lia. }
  rewrite (map_fold_insert_L _ m0 k n l); [|intros j1 j2 z1 z2 y Hne _ _; unfold at0; by rewrite !lookup_insert_ne, insert_insert_ne|done].
  rewrite !at0_insert. case_decide as E; [|exact IH]. subst id. rewrite IH. unfold at0 at 2. rewrite Hk. simpl. lia.
Qed.

Lemma replicas_on_union ps qs id : replicas_on (ps ∪ qs) id <= replicas_on ps id + replicas_on qs id.
Proof.
  induction ps as [|k r ps Hk IH] using map_ind.
  { rewrite (left_id_L ∅ (∪)), replicas_on_empty. lia. }
  rewrite <- insert_union_l, replicas_on_upsert, (replicas_on_insert ps) by done.
  pose proof (occurs_nonneg id (default [] ((ps ∪ qs) !! k))). lia.
Qed.

Lemma merge_consistent existing added : (forall e, existing = Some e -> consistent e) -> consistent added ->
  consistent (mergeAssignment existing added).
Proof.
  intros He [A1 A2 _]. assert (exists e, consistent e /\ mergeAssignment existing added = mergeAssignment (Some e) added) as (e & [E1 E2 _] & ->).
  { destruct existing as [e|]; [by exists e; split; [apply He|]|]. exists NewAssignment. split; [|done].
    split; simpl; [intros key r H; by rewrite lookup_empty in H|by rewrite !dom_empty_L|by vm_compute]. }
  split; simpl; [|by rewrite !dom_union_L, A2, E2|done].
  intros key r [Hk|[Hn Hk]]%lookup_union_Some_raw.
  - destruct (A1 key r Hk) as (? & ? & Hl). split_and!; [done..|]. destruct r as [|x r]; [done|]. simpl in *.
    by apply lookup_union_Some_l.
  - destruct (E1 key r Hk) as (? & ? & Hl). split_and!; [done..|]. rewrite lookup_union_r; [done|].
    apply not_elem_of_dom. rewrite A2. by apply not_elem_of_dom.
Qed.

(** What callers pass: always the same limit, and no negative loads. *)
Definition callers_limit (M : Z) (c : AssignmentConstraints) : Prop :=
  ac_MaxPartitionsPerBroker c = M /\ forall id, 0 <= at0 (ac_ExistingLoad c) id.

Section limit.
Context {strat : AssignmentStrategy} {laws : StrategyLaws strat} (M : Z) (M_pos : 0 < M).

Definition capped (a : Assignment) : Prop := consistent a /\ forall id, replicas_on (a_Partitions a) id <= M.

Record coord_inv (cc : ClusterCoordinator) : Prop := {
  ci_current a : cc_currentAssignment cc = Some a -> capped a /\ cc_partitionLimit cc = M;
  ci_run run : cc_run cc = Some run -> capped (rn_current run) /\ rn_limit run = M /\ cc_partitionLimit cc = M
    /\ forall brokers, rn_brokers run = Some brokers -> NoDup (cb_ID <$> brokers)
}.

Lemma assign_capped cc brokers partitions constraints a cc' : coord_inv cc -> NoDup (cb_ID <$> brokers) ->
  callers_limit M (default (mkConstraints 0 false 0 ∅ ∅ ∅) constraints) ->
  AssignPartitions cc brokers partitions constraints = Returns (a, cc') -> coord_inv cc'.
Proof using M_pos laws.
  intros [I1 I2] Hids [HM Hpos]. unfold AssignPartitions. destruct brokers as [|b0 brokers]; [done|].
  intros (a' & HA & [= <- <-])%bind_Returns. destruct (assign_law _ _ _ _ Hids HA) as [Hco Hl].
  split; simpl; [|by intros run (? & ? & _ & ?)%I2]. intros m [= <-]. split; [|done]. split.
  - apply merge_consistent; [|done]. intros e He. by destruct (I1 e He) as [[? _] _].
  - intros id. set (cur := match cc_currentAssignment cc with Some e => a_Partitions e | None => ∅ end).
    assert (replicas_on (a_Partitions (mergeAssignment (cc_currentAssignment cc) a')) id
            <= replicas_on (a_Partitions a') id + replicas_on cur id) as Hm.
    { unfold cur, mergeAssignment. destruct (cc_currentAssignment cc); apply replicas_on_union. }
    assert (replicas_on cur id <= M) as Hcur.
    { unfold cur. destruct (cc_currentAssignment cc) as [e|]; [|rewrite replicas_on_empty; lia].
      destruct (I1 e eq_refl) as [[_ Hle] _]. apply Hle. }
    pose proof (replicas_on_nonneg (a_Partitions a') id) as H0.
    destruct (decide (replicas_on (a_Partitions a') id = 0)) as [Hz|Hz]; [lia|].
    destruct (Hl id ltac:(lia)) as (b & _ & _ & Hlim). unfold limit_of in Hlim. simpl in Hlim. rewrite HM in Hlim.
    pose proof (tighterLimit_le M (cb_Capacity b) M_pos) as Ht. specialize (Hlim ltac:(lia)).
    unfold cumulativeExistingLoad in Hlim. rewrite at0_cumulative in Hlim. specialize (Hpos id).
    assert (at0 (match cc_currentAssignment cc with Some e => a_BrokerLoad e | None => ∅ end) id = replicas_on cur id) as Ex.
    { unfold cur. destruct (cc_currentAssignment cc) as [e|]; [|by rewrite replicas_on_empty].
      destruct (I1 e eq_refl) as [[He _] _]. by rewrite (co_load _ He). }
    rewrite Ex in Hlim. lia.
Qed.

Lemma coord_step_inv cc cc' : coord_inv cc -> coord_step (callers_limit M) cc cc' -> coord_inv cc'.
Proof using M_pos laws.
  intros Hi Hs. destruct Hs as [brokers partitions constraints a cc' Hids Hc HA|Hf|run brokers Hids Hr Hn|run brokers cc' Hr Hb HW].
  - by eapply assign_capped.
  - destruct Hi as [I1 I2]. unfold performRebalance_read, begin_rebalance. simpl. destruct (cc_currentAssignment cc) as [a|] eqn:E; [|done].
    destruct (I1 a eq_refl) as [Ha HL]. split; simpl; [by intros a' [= <-]|]. intros run [= <-]. simpl. done.
  - destruct Hi as [I1 I2]. unfold performRebalance_brokers. destruct brokers as [|b0 brokers]; [by split|].
    split; simpl; [done|]. intros run' [= <-]. simpl. destruct (I2 run Hr) as (? & ? & ? & _). split_and!; [done..|].
    by intros brokers' [= <-].
  - destruct Hi as [I1 I2]. unfold performRebalance_write in HW. destruct (I2 run Hr) as ([Hco Hcap] & HL & HP & Hids). specialize (Hids _ Hb).
    destruct (strategy_Rebalance _ _ _) as [a|e| |] eqn:E; try done; injection HW as <-; [|by split].
    destruct (rebalance_law _ _ (rebalance_constraints (rn_limit run)) _ Hids eq_refl Hco E) as [Hco' Hl].
    split; simpl; [|done]. intros a' [= <-]. split.
    + split; [done|]. intros id. specialize (Hcap id).
      destruct (decide (replicas_on (a_Partitions (rn_current run)) id < replicas_on (a_Partitions a) id)) as [Hlt|Hge]; [|lia].
      destruct (Hl id Hlt) as (b & _ & _ & Hlim). unfold limit_of in Hlim. simpl in Hlim. rewrite HL in Hlim.
      pose proof (tighterLimit_le M (cb_Capacity b) M_pos). specialize (Hlim ltac:(lia)). lia.
    + done.
Qed.
End limit.

(** What the coordinator has last reported of each partition: an assignment overrides the partitions
    it names, a rebalance that succeeds replaces all.  The steps are those of [coord_step], with
    no assignment while a rebalance runs. *)
Section reported.
Context {strat : AssignmentStrategy} {laws : StrategyLaws strat} (M : Z) (M_pos : 0 < M).

Notation placement := (gmap bytes (list Z)).

Inductive report_step (cc : ClusterCoordinator) (live : placement) : ClusterCoordinator * placement -> Prop :=
| RsAssign brokers partitions constraints a cc' :
    cc_rebalancing cc = false -> NoDup (cb_ID <$> brokers) -> callers_limit M (default (mkConstraints 0 false 0 ∅ ∅ ∅) constraints) ->
    AssignPartitions cc brokers partitions constraints = Returns (a, cc') -> report_step cc live (cc', a_Partitions a ∪ live)
| RsBegin : cc_rebalancing cc = false -> report_step cc live (performRebalance_read (begin_rebalance cc), live)
| RsBrokers run brokers : NoDup (cb_ID <$> brokers) -> cc_run cc = Some run -> rn_brokers run = None ->
    report_step cc live (performRebalance_brokers cc run brokers, live)
| RsWrite run brokers cc' : cc_run cc = Some run -> rn_brokers run = Some brokers -> performRebalance_write cc run brokers = Returns cc' ->
    report_step cc live (cc', match strategy_Rebalance (rn_current run) brokers (rebalance_constraints (rn_limit run)) with
                              | Returns a => a_Partitions a | _ => live end).

Inductive reported : ClusterCoordinator * placement -> Prop :=
| reported_new : reported (NewClusterCoordinator, ∅)
| reported_step cc live x : reported (cc, live) -> report_step cc live x -> reported x.

Definition recorded (cc : ClusterCoordinator) : placement :=
  match cc_currentAssignment cc with Some a => a_Partitions a | None => ∅ end.

Lemma report_coord cc live x : report_step cc live x -> coord_step (callers_limit M) cc x.1.
Proof. destruct 1; simpl; by econstructor. Qed.

(** What was reported is what is recorded; the invariant of the record gives the limit. *)
Lemma reported_inv x : reported x ->
  x.2 = recorded x.1 /\ (is_Some (cc_run x.1) -> cc_rebalancing x.1 = true) /\ rtc (coord_step (callers_limit M)) NewClusterCoordinator x.1.
Proof.
  induction 1 as [|cc live x _ (E & R & Hr) Hs]; [split_and!; [done|by intros [? ?]|apply rtc_refl]|]. simpl in *.
  split_and!; [| |eapply rtc_r; [exact Hr|by eapply report_coord]].
  - destruct Hs as [brokers partitions constraints a cc' Hf _ _ HA|Hf|run brokers _ _ _|run brokers cc' _ _ HW]; simpl.
    + unfold AssignPartitions in HA. destruct brokers; [done|]. apply bind_Returns in HA as (a' & _ & [= <- <-]).
      unfold recorded in *. simpl. rewrite E. by destruct (cc_currentAssignment cc).
    + rewrite E. unfold recorded, performRebalance_read, begin_rebalance. simpl. by destruct (cc_currentAssignment cc).
    + rewrite E. unfold recorded, performRebalance_brokers. by destruct brokers.
    + unfold performRebalance_write in HW. destruct (strategy_Rebalance _ _ _); try done; injection HW as <-; [done|exact E].
  - destruct Hs as [brokers partitions constraints a cc' Hf _ _ HA|Hf|run brokers _ Hrun _|run brokers cc' _ _ HW]; simpl.
    + unfold AssignPartitions in HA. destruct brokers; [done|]. apply bind_Returns in HA as (a' & _ & [= <- <-]). exact R.
    + unfold performRebalance_read, begin_rebalance. simpl. destruct (cc_currentAssignment cc); [done|]. by intros [? ?].
    + unfold performRebalance_brokers. destruct brokers; [by intros [? ?]|]. simpl. intros _. apply R. eauto.
    + unfold performRebalance_write in HW. destruct (strategy_Rebalance _ _ _); try done; injection HW as <-; by intros [? ?].
Qed.
End reported.

(** C32: The limit on partitions per broker, for callers that all pass the same positive limit
    and no negative loads.  In every state that the coordinator gets into, through assignments
    of any topics and rebalances that may interleave with them, no broker holds more replicas
    than the limit in the coordinator's record, and the recorded loads are right.  When no
    assignment is made while a rebalance runs, the same limit holds of what the coordinator has
    reported: of each partition, the replicas that the last assignment of it returned or that
    the last rebalance after it set.  (An assignment during a rebalance may be lost from the
    record, so the second part does not extend to it.)  It is proved from the laws of the
    strategy, which the round robin, range and sticky strategies satisfy. *)
Theorem partition_limit_enforced (strat : AssignmentStrategy) M : StrategyLaws strat -> 0 < M ->
  (forall cc a, rtc (coord_step (callers_limit M)) NewClusterCoordinator cc -> cc_currentAssignment cc = Some a ->
     consistent a /\ forall id, replicas_on (a_Partitions a) id <= M)
  /\ forall cc live, reported M (cc, live) -> forall id, replicas_on live id <= M.
Proof.
  intros laws HM. assert (Hall : forall cc, rtc (coord_step (callers_limit M)) NewClusterCoordinator cc -> coord_inv M cc).
  { intros cc Hr. remember NewClusterCoordinator as cc0 eqn:E. assert (coord_inv M cc0) as H0 by (subst; by split).
    clear E. revert H0. induction Hr as [cc|cc cc1 cc2 Hs _ IH]; [done|]. intros H0. apply IH. by eapply coord_step_inv. }
  split.
  - intros cc a Hr Ha. destruct (Hall cc Hr) as [I1 _]. by destruct (I1 a Ha) as [? _].
  - intros cc live Hrep id. destruct (reported_inv M _ Hrep) as (E & _ & Hr). simpl in *. subst live. unfold recorded.
    destruct (Hall cc Hr) as [I1 _]. destruct (cc_currentAssignment cc) as [a|]; [|rewrite replicas_on_empty; lia].
    destruct (I1 a eq_refl) as [[_ H] _]. apply H.
Qed.

(** A coordinator with the round-robin strategy of the broker, on two brokers. *)
Definition rr_strategy : AssignmentStrategy := RoundRobinStrategy keys_order 2.
#[local] Existing Instance rr_strategy.
Definition limit_ten : AssignmentConstraints := mkConstraints 0 false 10 ∅ ∅ ∅.
Definition coord_after (o : outcome (Assignment * ClusterCoordinator)) : ClusterCoordinator :=
  match o with Returns (_, cc) => cc | _ => NewClusterCoordinator end.
Definition coord1 : ClusterCoordinator :=
  Eval vm_compute in coord_after (AssignPartitions NewClusterCoordinator (brokers_upto 2) (parts_of "x" 2 2) (Some limit_ten)).
Definition coord2 : ClusterCoordinator :=
  Eval vm_compute in performRebalance_brokers (performRebalance_read (begin_rebalance coord1))
    (mkRun (default NewAssignment (cc_currentAssignment coord1)) 10 None) (brokers_upto 2).
Definition coord3 : ClusterCoordinator :=
  Eval vm_compute in coord_after (AssignPartitions coord2 (brokers_upto 2) (parts_of "y" 1 2) (Some limit_ten)).

Lemma two_nodup : NoDup (cb_ID <$> brokers_upto 2).
Proof. apply (bool_decide_unpack _). vm_compute. exact I. Qed.

Lemma limit_ten_callers : callers_limit 10 limit_ten.
Proof. split; [done|]. intros id. unfold at0. simpl. by rewrite lookup_empty. Qed.

Lemma coord2_reachable : rtc (coord_step (callers_limit 10)) NewClusterCoordinator coord2.
Proof.
  eapply rtc_l; [eapply (CsAssign _ _ (brokers_upto 2) (parts_of "x" 2 2) (Some limit_ten) _ coord1);
    [apply two_nodup|apply limit_ten_callers|vm_compute; reflexivity]|].
  eapply rtc_l; [apply CsBegin; reflexivity|].
  eapply rtc_l; [|apply rtc_refl].
  replace coord2 with (performRebalance_brokers (performRebalance_read (begin_rebalance coord1))
    (mkRun (default NewAssignment (cc_currentAssignment coord1)) 10 None) (brokers_upto 2)) by (vm_compute; reflexivity).
  apply (CsBrokers _ _ (mkRun (default NewAssignment (cc_currentAssignment coord1)) 10 None) (brokers_upto 2));
    [apply two_nodup|vm_compute; reflexivity|reflexivity].
Qed.

(** The first assignment of the coordinator. *)
Definition first_assignment : Assignment :=
  Eval vm_compute in match AssignPartitions NewClusterCoordinator (brokers_upto 2) (parts_of "x" 2 2) (Some limit_ten) with
                     | Returns (a, _) => a | _ => NewAssignment end.

Lemma first_assignment_made :
  AssignPartitions NewClusterCoordinator (brokers_upto 2) (parts_of "x" 2 2) (Some limit_ten) = Returns (first_assignment, coord1).
Proof. vm_compute. reflexivity. Qed.

Lemma coord1_reported : reported 10 (coord1, a_Partitions first_assignment ∪ ∅).
Proof.
  apply (reported_step 10 NewClusterCoordinator ∅); [constructor|].
  exact (RsAssign 10 NewClusterCoordinator ∅ (brokers_upto 2) (parts_of "x" 2 2) (Some limit_ten) _ _ eq_refl two_nodup limit_ten_callers first_assignment_made).
Qed.

Lemma partition_limit_enforced_witness :
  (exists a, cc_currentAssignment coord2 = Some a /\ consistent a /\ forall id, replicas_on (a_Partitions a) id <= 10)
  /\ a_Partitions first_assignment !! PartitionKey (text "x") 0 = Some [1; 2]
  /\ forall id, replicas_on (a_Partitions first_assignment ∪ ∅) id <= 10.
Proof.
  destruct (partition_limit_enforced rr_strategy 10 (RoundRobin_laws keys_order 2)) as [H1 H2]; [lia|]. split_and!.
  - eexists. split; [reflexivity|]. apply (H1 coord2); [apply coord2_reachable|reflexivity].
  - vm_compute. reflexivity.
  - exact (H2 coord1 _ coord1_reported).
Defined.

(** A rebalance reads the current assignment, and writes its result later, each under
    the lock but not in one piece: the topic y that [AssignPartitions] places and reports in
    between is gone from the coordinator's record after the rebalance. *)
Theorem rebalance_loses_assignment :
  exists a cc4, rtc (coord_step (callers_limit 10)) NewClusterCoordinator coord2
    /\ AssignPartitions coord2 (brokers_upto 2) (parts_of "y" 1 2) (Some limit_ten) = Returns (a, coord3)
    /\ coord_step (callers_limit 10) coord3 cc4
    /\ GetReplicas a (text "y") 0 = [1; 2]
    /\ exists cur, cc_currentAssignment cc4 = Some cur /\ a_Partitions cur !! PartitionKey (text "y") 0 = None.
Proof.
  eexists _, _. split_and!; [apply coord2_reachable|vm_compute; reflexivity| |vm_compute; reflexivity|].
  - eapply CsWrite; [reflexivity|reflexivity|vm_compute; reflexivity].
  - eexists. split; [reflexivity|vm_compute; reflexivity].
Qed.

(** ** The registry *)

Section registry.
Context {S E : Type} `{!MetadataStore S E}.
Context (range_ids : forall V : Type, gmap Z V -> list (Z * V)).
Context (range_ids_perm : forall V (m : gmap Z V), range_ids V m ≡ₚ map_to_list m).

(** Every broker is kept under its ID. *)
Definition keyed (br : BrokerRegistry S) : Prop := forall id b, br_brokers br !! id = Some b -> bm_ID b = id.

(** The operations of the registry. *)
Inductive registry_step (br : BrokerRegistry S) : BrokerRegistry S -> Prop :=
| RsRegister now b : registry_step br (RegisterBroker now br b).2
| RsDeregister now id : registry_step br (DeregisterBroker now br id).2
| RsHeartbeat now id : registry_step br (RecordHeartbeat (E := E) now br id).2
| RsCheck now : registry_step br (checkBrokerHealth range_ids now br).2
| RsLoad now : registry_step br (loadBrokers now br).

Lemma check_broker_id now timeout b : bm_ID (check_broker now timeout b).1 = bm_ID b
  /\ bm_LastHeartbeat (check_broker now timeout b).1 = bm_LastHeartbeat b.
Proof. unfold check_broker. by repeat case_match. Qed.

Lemma registry_keyed br br' : keyed br -> registry_step br br' -> keyed br'.
Proof.
  intros Hk [now b|now id|now id|now|now] id' b'.
  - unfold RegisterBroker. destruct (md_StoreBrokerMetadata _ _ _) as [[e|] s]; simpl; [apply Hk|].
    intros [[<- <-]|[_ H]]%lookup_insert_Some; [done|by apply Hk].
  - unfold DeregisterBroker. destruct (br_brokers br !! id) as [b|] eqn:Eb; [|apply Hk].
    destruct (md_StoreBrokerMetadata _ _ _) as [[e|] s]; simpl;
      (intros [[<- <-]|[_ H]]%lookup_insert_Some; [by apply Hk in Eb|by apply Hk]).
  - unfold RecordHeartbeat. destruct (br_brokers br !! id) as [b|] eqn:Eb; simpl; [|apply Hk].
    intros [[<- <-]|[_ H]]%lookup_insert_Some; [|by apply Hk]. apply Hk in Eb. by case_bool_decide.
  - unfold checkBrokerHealth. simpl. rewrite lookup_fmap. intros (b & H & ->)%fmap_Some.
    rewrite (proj1 (check_broker_id _ _ _)). by apply Hk.
  - unfold loadBrokers. simpl. generalize (md_ListBrokers now (br_store br)). intros l. revert Hk. unfold keyed.
    generalize (br_brokers br). induction l as [|x l IH]; intros m Hk; [apply Hk|]. simpl. apply IH.
    intros id b. intros [[<- <-]|[_ H]]%lookup_insert_Some; [done|by apply Hk].
Qed.

(** So the brokers it hands to the coordinator have distinct IDs. *)
Lemma active_nodup br : keyed br -> NoDup (cb_ID <$> getActiveBrokersForAssignment (ListActiveBrokers range_ids br)).
Proof.
  intros Hk. unfold getActiveBrokersForAssignment, ListActiveBrokers. rewrite <- list_fmap_compose.
  apply (NoDup_fmap_filter (fun b => IsActive b = true) bm_ID). rewrite range_ids_perm, <- list_fmap_compose.
  replace (bm_ID ∘ snd <$> map_to_list (br_brokers br)) with (map_to_list (br_brokers br)).*1.
  { apply NoDup_fst_map_to_list. }
  apply list_fmap_ext. intros i [id b] Hi. simpl. symmetry. apply Hk.
  apply elem_of_map_to_list. by eapply list_elem_of_lookup_2.
Qed.

(** The health check finds exactly the brokers that are silent for longer than the
    timeout: such a broker is no longer active, and its failure is reported when it was
    neither decommissioned nor failed before; every other broker keeps its status. *)
Theorem health_check_exact now br id b : keyed br -> br_brokers br !! id = Some b ->
  let '(events, br') := checkBrokerHealth range_ids now br in
  let silent := br_heartbeatTimeout br < now - bm_LastHeartbeat b in
  (exists b', br_brokers br' !! id = Some b'
     /\ (IsActive b' = true <-> IsActive b = true /\ ~ silent)
     /\ (~ silent -> b' = b) /\ (bm_Status b = BrokerStatusDecommissioned -> b' = b))
  /\ (BrokerFailed id ∈ events <-> silent /\ bm_Status b <> BrokerStatusDecommissioned /\ bm_Status b <> BrokerStatusFailed).
Proof.
  intros Hk Hb. unfold checkBrokerHealth. cbn zeta. simpl br_brokers. split.
  - eexists. rewrite lookup_fmap, Hb. split; [done|]. unfold check_broker, IsActive.
    destruct (bool_decide_reflect (bm_Status b = BrokerStatusDecommissioned)) as [Hd|Hd];
      [simpl; rewrite Hd; split_and!; [simpl; naive_solver|done|done]|].
    destruct (Z.ltb_spec (br_heartbeatTimeout br) (now - bm_LastHeartbeat b)) as [Hs|Hs].
    + destruct (bool_decide_reflect (bm_Status b <> BrokerStatusFailed)) as [Hf|Hf]; simpl;
        [split_and!; [naive_solver|done|done]|].
      apply dec_stable in Hf. rewrite Hf. simpl. split_and!; [naive_solver|done|done].
    + simpl. split_and!; [rewrite !bool_decide_eq_true; split; [intros; split; [done|lia]|tauto]|done|done].
  - rewrite list_elem_of_fmap. split.
    + intros (b' & [= ->] & [Hc Hin]%list_elem_of_filter). rewrite range_ids_perm, list_elem_of_fmap in Hin.
      destruct Hin as ([id' b2] & -> & Hb2%elem_of_map_to_list). simpl in *. pose proof (Hk _ _ Hb2) as E2. rewrite E2 in Hb.
      rewrite Hb2 in Hb. injection Hb as <-. unfold check_broker in Hc. case_bool_decide; [done|].
      destruct (Z.ltb_spec (br_heartbeatTimeout br) (now - bm_LastHeartbeat b2)); [|done].
      case_bool_decide; done.
    + intros (Hs & Hd & Hf). exists b. split; [simpl; by rewrite (Hk _ _ Hb)|]. apply list_elem_of_filter. split.
      * unfold check_broker. rewrite bool_decide_false by done. destruct (Z.ltb_spec (br_heartbeatTimeout br) (now - bm_LastHeartbeat b)); [|lia].
        by rewrite bool_decide_true.
      * rewrite range_ids_perm. apply list_elem_of_fmap. exists (id, b). split; [done|]. by apply elem_of_map_to_list.
Qed.

(** A broker that is drained, falls silent and comes back is active again: the failure
    overwrites that it takes no new partitions. *)
Lemma draining_forgotten br id b t1 t2 : keyed br -> br_brokers br !! id = Some b -> bm_Status b = BrokerStatusDraining ->
  br_heartbeatTimeout br < t1 - bm_LastHeartbeat b ->
  exists b', br_brokers (RecordHeartbeat (E := E) t2 (checkBrokerHealth range_ids t1 br).2 id).2 !! id = Some b'
    /\ IsActive b' = true.
Proof.
  intros Hk Hb Hs Ht. unfold RecordHeartbeat, checkBrokerHealth. simpl. rewrite lookup_fmap, Hb. simpl.
  assert (check_broker t1 (br_heartbeatTimeout br) b = (set_status b BrokerStatusFailed, true)) as ->.
  { unfold check_broker. rewrite Hs. simpl. by destruct (Z.ltb_spec (br_heartbeatTimeout br) (t1 - bm_LastHeartbeat b)); [|lia]. }
  simpl. rewrite lookup_insert_eq. by eexists.
Qed.
End registry.
