(* ===== verification/Metadata.v ===== *)
(** * The replicated metadata (pkg/metadata)

    types.go, fsm.go, store.go and cluster_adapter.go.  The state machine applies the
    operations that consensus commits; the store proposes them; the adapter serves the
    broker registry and the cluster coordinator.

    An operation is the decoded form of the JSON text in a log entry; the decoder
    ([encoding/json] on these types) is an argument of [Apply], as are the encoder and the
    decoder of snapshots.  A handler reads the clock several times; the model gives it one
    reading, [now].  The fields that a JSON text may set to anything are plain values of
    their Go type: an operation type other than the known ones is [UnknownOp]. *)

From S2P Require Import Prelude GoBytes Record Placement Cluster.
From Stdlib Require Import ZArith Lia Strings.Byte Strings.String.
From stdpp Require Import prelude list sorting gmap.
#[local] Notation length := Datatypes.length.
Open Scope Z_scope.

Module Meta.

(** ** Data *)

Inductive BrokerStatus :=
| BrokerStatusAlive
| BrokerStatusDead
| BrokerStatusDraining
| BrokerStatusUnreachable
| BrokerStatusOther (s : bytes).

Record BrokerResources := mkResources {
  rs_DiskTotal : Z;
  rs_DiskUsed : Z;
  rs_DiskAvailable : Z;
  rs_NetworkBandwidth : Z;
  rs_CPUCores : Z;
  rs_MemoryTotal : Z;
  rs_MemoryUsed : Z
}.

Record BrokerInfo := mkBrokerInfo {
  bi_ID : Z;
  bi_Addr : bytes;
  bi_Status : BrokerStatus;
  bi_Resources : BrokerResources;
  bi_Rack : bytes;
  bi_RegisteredAt : Z;
  bi_LastHeartbeat : Z
}.

Record TopicConfig := mkTopicConfig {
  tc_RetentionMs : Z;
  tc_RetentionBytes : Z;
  tc_SegmentMs : Z;
  tc_SegmentBytes : Z;
  tc_MinInsyncReplicas : Z;
  tc_CompressionType : bytes
}.

Definition DefaultTopicConfig : TopicConfig :=
  mkTopicConfig (7 * 24 * 60 * 60 * 1000) (-1) (7 * 24 * 60 * 60 * 1000) (1024 * 1024 * 1024) 1 (list_byte_of_string "none").

Record TopicInfo := mkTopicInfo {
  ti_Name : bytes;
  ti_NumPartitions : Z;
  ti_ReplicationFactor : Z;
  ti_Config : TopicConfig;
  ti_CreatedAt : Z;
  ti_ModifiedAt : Z
}.

Record PartitionInfo := mkPartitionInfo {
  pi_Topic : bytes;
  pi_Partition : Z;
  pi_Leader : Z;
  pi_Replicas : list Z;
  pi_ISR : list Z;
  pi_OfflineReplicas : list Z;
  pi_LeaderEpoch : Z;
  pi_CreatedAt : Z;
  pi_ModifiedAt : Z
}.

Record ClusterMetadata := mkMetadata {
  cm_Brokers : gmap Z BrokerInfo;
  cm_Topics : gmap bytes TopicInfo;
  cm_Partitions : gmap bytes PartitionInfo;
  cm_Version : Z;
  cm_LastModified : Z
}.

Definition NewClusterMetadata (now : Z) : ClusterMetadata := mkMetadata ∅ ∅ ∅ 0 now.

Definition IsAlive (now timeout : Z) (b : BrokerInfo) : bool :=
  match bi_Status b with BrokerStatusAlive => now - bi_LastHeartbeat b <? timeout | _ => false end.

Definition PartitionID (topic : bytes) (partition : Z) : bytes := topic ++ x3a :: FormatInt partition.
Definition id_of (p : PartitionInfo) : bytes := PartitionID (pi_Topic p) (pi_Partition p).
Definition IsLeader (p : PartitionInfo) (brokerID : Z) : bool := pi_Leader p =? brokerID.
Definition IsReplica (p : PartitionInfo) (brokerID : Z) : bool := bool_decide (brokerID ∈ pi_Replicas p).
Definition IsInISR (p : PartitionInfo) (brokerID : Z) : bool := bool_decide (brokerID ∈ pi_ISR p).

(** ** Operations *)

Inductive Operation :=
| RegisterBrokerOp (broker : BrokerInfo)
| UnregisterBrokerOp (brokerID : Z)
| UpdateBrokerOp (brokerID : Z) (status : BrokerStatus) (resources : BrokerResources) (heartbeat : Z)
| CreateTopicOp (name : bytes) (numPartitions replicationFactor : Z) (config : TopicConfig)
| DeleteTopicOp (name : bytes)
| UpdateTopicOp (name : bytes) (config : TopicConfig)
| CreatePartitionOp (partition : PartitionInfo)
| UpdatePartitionOp (partition : PartitionInfo)
| UpdateLeaderOp (topic : bytes) (partition : Z) (leader leaderEpoch : Z)
| UpdateISROp (topic : bytes) (partition : Z) (isr : list Z)
| UpdateReplicaListOp (topic : bytes) (partition : Z) (replicas : list Z)
| BatchCreatePartitionsOp (partitions : list PartitionInfo)
| UnknownOp (type : bytes).

Inductive fsm_error := AlreadyExists | DoesNotExist | UnknownOperation | DecodeFailed | RestoreFailed | TooFewBrokers.

(** [f.state.Version++; f.state.LastModified = time.Now()], at the end of every handler. *)
Definition touch (now : Z) (s : ClusterMetadata) : ClusterMetadata :=
  mkMetadata (cm_Brokers s) (cm_Topics s) (cm_Partitions s) (wrapu 64 (cm_Version s + 1)) now.
Definition with_brokers (s : ClusterMetadata) (m : gmap Z BrokerInfo) : ClusterMetadata :=
  mkMetadata m (cm_Topics s) (cm_Partitions s) (cm_Version s) (cm_LastModified s).
Definition with_topics (s : ClusterMetadata) (m : gmap bytes TopicInfo) : ClusterMetadata :=
  mkMetadata (cm_Brokers s) m (cm_Partitions s) (cm_Version s) (cm_LastModified s).
Definition with_partitions (s : ClusterMetadata) (m : gmap bytes PartitionInfo) : ClusterMetadata :=
  mkMetadata (cm_Brokers s) (cm_Topics s) m (cm_Version s) (cm_LastModified s).

(** ** The handlers *)

Definition applyRegisterBroker (now : Z) (s : ClusterMetadata) (broker : BrokerInfo) : option fsm_error * ClusterMetadata :=
  match cm_Brokers s !! bi_ID broker with
  | Some _ => (Some AlreadyExists, s)
  | None =>
      let b := mkBrokerInfo (bi_ID broker) (bi_Addr broker) BrokerStatusAlive (bi_Resources broker) (bi_Rack broker) now now in
      (None, touch now (with_brokers s (<[bi_ID broker := b]> (cm_Brokers s))))
  end.

Definition applyUnregisterBroker (now : Z) (s : ClusterMetadata) (brokerID : Z) : option fsm_error * ClusterMetadata :=
  match cm_Brokers s !! brokerID with
  | None => (Some DoesNotExist, s)
  | Some _ => (None, touch now (with_brokers s (delete brokerID (cm_Brokers s))))
  end.

Definition applyUpdateBroker (now : Z) (s : ClusterMetadata) (brokerID : Z) (status : BrokerStatus)
    (resources : BrokerResources) (heartbeat : Z) : option fsm_error * ClusterMetadata :=
  match cm_Brokers s !! brokerID with
  | None => (Some DoesNotExist, s)
  | Some b =>
      let b := mkBrokerInfo (bi_ID b) (bi_Addr b) status resources (bi_Rack b) (bi_RegisteredAt b) heartbeat in
      (None, touch now (with_brokers s (<[brokerID := b]> (cm_Brokers s))))
  end.

Definition applyCreateTopic (now : Z) (s : ClusterMetadata) (name : bytes) (numPartitions replicationFactor : Z)
    (config : TopicConfig) : option fsm_error * ClusterMetadata :=
  match cm_Topics s !! name with
  | Some _ => (Some AlreadyExists, s)
  | None =>
      let t := mkTopicInfo name numPartitions replicationFactor config now now in
      (None, touch now (with_topics s (<[name := t]> (cm_Topics s))))
  end.

Definition applyDeleteTopic (now : Z) (s : ClusterMetadata) (name : bytes) : option fsm_error * ClusterMetadata :=
  match cm_Topics s !! name with
  | None => (Some DoesNotExist, s)
  | Some _ =>
      let s := with_topics s (delete name (cm_Topics s)) in
      (None, touch now (with_partitions s (filter (fun kv => pi_Topic kv.2 <> name) (cm_Partitions s))))
  end.

Definition applyUpdateTopic (now : Z) (s : ClusterMetadata) (name : bytes) (config : TopicConfig) : option fsm_error * ClusterMetadata :=
  match cm_Topics s !! name with
  | None => (Some DoesNotExist, s)
  | Some t =>
      let t := mkTopicInfo (ti_Name t) (ti_NumPartitions t) (ti_ReplicationFactor t) config (ti_CreatedAt t) now in
      (None, touch now (with_topics s (<[name := t]> (cm_Topics s))))
  end.

(** A partition as it is created: local times, and the first epoch. *)
Definition created (now : Z) (p : PartitionInfo) : PartitionInfo :=
  mkPartitionInfo (pi_Topic p) (pi_Partition p) (pi_Leader p) (pi_Replicas p) (pi_ISR p) (pi_OfflineReplicas p) 1 now now.

Definition applyCreatePartition (now : Z) (s : ClusterMetadata) (partition : PartitionInfo) : option fsm_error * ClusterMetadata :=
  match cm_Partitions s !! id_of partition with
  | Some _ => (Some AlreadyExists, s)
  | None => (None, touch now (with_partitions s (<[id_of partition := created now partition]> (cm_Partitions s))))
  end.

(** All are checked before the first is created. *)
Definition applyBatchCreatePartitions (now : Z) (s : ClusterMetadata) (partitions : list PartitionInfo) : option fsm_error * ClusterMetadata :=
  if existsb (fun p => bool_decide (is_Some (cm_Partitions s !! id_of p))) partitions then (Some AlreadyExists, s)
  else (None, touch now (with_partitions s
                (fold_left (fun m p => <[id_of p := created now p]> m) partitions (cm_Partitions s)))).

Definition applyUpdatePartition (now : Z) (s : ClusterMetadata) (p : PartitionInfo) : option fsm_error * ClusterMetadata :=
  match cm_Partitions s !! id_of p with
  | None => (Some DoesNotExist, s)
  | Some _ =>
      let p' := mkPartitionInfo (pi_Topic p) (pi_Partition p) (pi_Leader p) (pi_Replicas p) (pi_ISR p) (pi_OfflineReplicas p)
                  (pi_LeaderEpoch p) (pi_CreatedAt p) now in
      (None, touch now (with_partitions s (<[id_of p := p']> (cm_Partitions s))))
  end.

Definition applyUpdateLeader (now : Z) (s : ClusterMetadata) (topic : bytes) (partition leader leaderEpoch : Z)
    : option fsm_error * ClusterMetadata :=
  match cm_Partitions s !! PartitionID topic partition with
  | None => (Some DoesNotExist, s)
  | Some p =>
      let p' := mkPartitionInfo (pi_Topic p) (pi_Partition p) leader (pi_Replicas p) (pi_ISR p) (pi_OfflineReplicas p)
                  leaderEpoch (pi_CreatedAt p) now in
      (None, touch now (with_partitions s (<[PartitionID topic partition := p']> (cm_Partitions s))))
  end.

Definition applyUpdateISR (now : Z) (s : ClusterMetadata) (topic : bytes) (partition : Z) (isr : list Z)
    : option fsm_error * ClusterMetadata :=
  match cm_Partitions s !! PartitionID topic partition with
  | None => (Some DoesNotExist, s)
  | Some p =>
      let p' := mkPartitionInfo (pi_Topic p) (pi_Partition p) (pi_Leader p) (pi_Replicas p) isr (pi_OfflineReplicas p)
                  (pi_LeaderEpoch p) (pi_CreatedAt p) now in
      (None, touch now (with_partitions s (<[PartitionID topic partition := p']> (cm_Partitions s))))
  end.

Definition applyUpdateReplicaList (now : Z) (s : ClusterMetadata) (topic : bytes) (partition : Z) (replicas : list Z)
    : option fsm_error * ClusterMetadata :=
  match cm_Partitions s !! PartitionID topic partition with
  | None => (Some DoesNotExist, s)
  | Some p =>
      let p' := mkPartitionInfo (pi_Topic p) (pi_Partition p) (pi_Leader p) replicas (pi_ISR p) (pi_OfflineReplicas p)
                  (pi_LeaderEpoch p) (pi_CreatedAt p) now in
      (None, touch now (with_partitions s (<[PartitionID topic partition := p']> (cm_Partitions s))))
  end.

(** The dispatch of [Apply], after the decoding. *)
Definition apply_op (now : Z) (s : ClusterMetadata) (op : Operation) : option fsm_error * ClusterMetadata :=
  match op with
  | RegisterBrokerOp b => applyRegisterBroker now s b
  | UnregisterBrokerOp id => applyUnregisterBroker now s id
  | UpdateBrokerOp id status resources heartbeat => applyUpdateBroker now s id status resources heartbeat
  | CreateTopicOp name n rf config => applyCreateTopic now s name n rf config
  | DeleteTopicOp name => applyDeleteTopic now s name
  | UpdateTopicOp name config => applyUpdateTopic now s name config
  | CreatePartitionOp p => applyCreatePartition now s p
  | UpdatePartitionOp p => applyUpdatePartition now s p
  | UpdateLeaderOp t p l e => applyUpdateLeader now s t p l e
  | UpdateISROp t p isr => applyUpdateISR now s t p isr
  | UpdateReplicaListOp t p rs => applyUpdateReplicaList now s t p rs
  | BatchCreatePartitionsOp ps => applyBatchCreatePartitions now s ps
  | UnknownOp _ => (Some UnknownOperation, s)
  end.

(** ** Log entries and snapshots *)

Section codec.
Context (DecodeOperation : bytes -> option Operation).
Context (marshal : ClusterMetadata -> bytes) (unmarshal : bytes -> option ClusterMetadata).

Definition Apply (now : Z) (s : ClusterMetadata) (data : bytes) : option fsm_error * ClusterMetadata :=
  match DecodeOperation data with
  | None => (Some DecodeFailed, s)
  | Some op => apply_op now s op
  end.

Definition FSM_Snapshot (s : ClusterMetadata) : bytes := marshal s.

Definition FSM_Restore (s : ClusterMetadata) (snapshot : bytes) : option fsm_error * ClusterMetadata :=
  match unmarshal snapshot with
  | None => (Some RestoreFailed, s)
  | Some s' => (None, s')
  end.
End codec.

(** ** Queries *)

Definition FSM_GetBroker (s : ClusterMetadata) (id : Z) : option BrokerInfo := cm_Brokers s !! id.
Definition FSM_GetTopic (s : ClusterMetadata) (name : bytes) : option TopicInfo := cm_Topics s !! name.
Definition FSM_GetPartition (s : ClusterMetadata) (topic : bytes) (partition : Z) : option PartitionInfo :=
  cm_Partitions s !! PartitionID topic partition.

Section queries.
(** The orders of ranges over the maps. *)
Context (range_keys : forall V : Type, gmap bytes V -> list (bytes * V)).
Context (range_ids : forall V : Type, gmap Z V -> list (Z * V)).

Definition FSM_ListBrokers (s : ClusterMetadata) : list BrokerInfo := (range_ids _ (cm_Brokers s)).*2.
Definition FSM_ListTopics (s : ClusterMetadata) : list TopicInfo := (range_keys _ (cm_Topics s)).*2.
Definition FSM_ListPartitions (s : ClusterMetadata) (topic : bytes) : list PartitionInfo :=
  filter (fun p => pi_Topic p = topic) (range_keys _ (cm_Partitions s)).*2.

(** ** The allocation of partitions *)

(** The replicas of partition [i]; [None] where an index would be out of range. *)
Definition allocate_replicas (brokers : list BrokerInfo) (i replicationFactor : nat) : option (list Z) :=
  mapM (fun j => bi_ID <$> brokers !! ((i + j) mod length brokers)%nat) (seq 0 replicationFactor).

(** [None] is a panic: a negative size, no broker to divide by, or no first replica. *)
Definition AllocatePartitions (s : ClusterMetadata) (topic : bytes) (numPartitions replicationFactor : Z)
    : option (result fsm_error (list PartitionInfo)) :=
  let brokers := FSM_ListBrokers s in
  if zlen brokers <? replicationFactor then Some (Err TooFewBrokers)
  else if numPartitions <? 0 then None
  else if (0 <? numPartitions) && (replicationFactor <? 0) then None
  else
    ps ← mapM (fun i =>
           replicas ← allocate_replicas brokers i (Z.to_nat replicationFactor);
           leader ← head replicas;
           Some (mkPartitionInfo topic (Z.of_nat i) leader replicas replicas [] 0 zero_time zero_time))
         (seq 0 (Z.to_nat numPartitions));
    Some (Ok ps).
End queries.

(** ** Proposing *)

(** What consensus answers to a proposal, and whether the context is still alive. *)
Inductive propose_answer := Accepted | ContextError | Refused.
Inductive propose_error := ContextCancelled | ProposalContextError | ProposalFailed.

(** The loop of [propose]: the answers are a function of the attempt, the context may end
    before an attempt or during the wait after it.  The second result counts the calls. *)
Fixpoint propose_loop (retries attempt : nat) (alive : nat -> bool) (answers : nat -> propose_answer) (waits : nat -> bool)
    : option propose_error * nat :=
  if negb (alive attempt) then (Some ContextCancelled, O)
  else match answers attempt with
       | Accepted => (None, 1%nat)
       | ContextError => (Some ProposalContextError, 1%nat)
       | Refused =>
           match retries with
           | O => (Some ProposalFailed, 1%nat)
           | S retries => if waits attempt
                       then let '(e, n) := propose_loop retries (S attempt) alive answers waits in (e, S n)
                       else (Some ContextCancelled, 1%nat)
           end
       end.

Definition maxRetries : nat := 10.
Definition propose := propose_loop maxRetries 0.

(** ** The store *)

Section store.
Context (alive : nat -> bool) (answers : nat -> propose_answer) (waits : nat -> bool).

(** A method of the store proposes one operation, again on every retry; the result is the
    error it returns and the operations it handed to consensus. *)
Definition submit (op : Operation) : option propose_error * list Operation :=
  let '(err, calls) := propose alive answers waits in (err, replicate calls op).

Definition Store_RegisterBroker (broker : BrokerInfo) := submit (RegisterBrokerOp broker).
Definition Store_UnregisterBroker (brokerID : Z) := submit (UnregisterBrokerOp brokerID).
Definition Store_UpdateBroker (now brokerID : Z) (status : BrokerStatus) (resources : BrokerResources) :=
  submit (UpdateBrokerOp brokerID status resources now).
Definition Store_CreateTopic (name : bytes) (numPartitions replicationFactor : Z) (config : TopicConfig) :=
  submit (CreateTopicOp name numPartitions replicationFactor config).
Definition Store_DeleteTopic (name : bytes) := submit (DeleteTopicOp name).
Definition Store_UpdateTopic (name : bytes) (config : TopicConfig) := submit (UpdateTopicOp name config).
Definition Store_CreatePartition (partition : PartitionInfo) := submit (CreatePartitionOp partition).
Definition Store_BatchCreatePartitions (partitions : list PartitionInfo) := submit (BatchCreatePartitionsOp partitions).
Definition Store_UpdatePartition (partition : PartitionInfo) := submit (UpdatePartitionOp partition).
Definition Store_UpdateLeader (topic : bytes) (partition leader leaderEpoch : Z) :=
  submit (UpdateLeaderOp topic partition leader leaderEpoch).
Definition Store_UpdateISR (topic : bytes) (partition : Z) (isr : list Z) := submit (UpdateISROp topic partition isr).
Definition Store_UpdateReplicaList (topic : bytes) (partition : Z) (replicas : list Z) :=
  submit (UpdateReplicaListOp topic partition replicas).
End store.

(** ** The adapter for the cluster package *)

Section adapter.
Context (range_keys : forall V : Type, gmap bytes V -> list (bytes * V)).
Context (range_ids : forall V : Type, gmap Z V -> list (Z * V)).
Context (alive : nat -> bool) (answers : nat -> propose_answer) (waits : nat -> bool).

Definition GB : Z := 1024 * 1024 * 1024.

Definition status_of_cluster (st : Cluster.BrokerStatus) : BrokerStatus :=
  match st with
  | Cluster.BrokerStatusStarting => BrokerStatusAlive
  | Cluster.BrokerStatusAlive => BrokerStatusAlive
  | Cluster.BrokerStatusFailed => BrokerStatusDead
  | Cluster.BrokerStatusDraining => BrokerStatusDraining
  | Cluster.BrokerStatusDecommissioned => BrokerStatusDead
  | Cluster.BrokerStatusOther _ => BrokerStatusUnreachable
  end.

Definition clusterBrokerToMetadata (b : BrokerMetadata) : BrokerInfo :=
  mkBrokerInfo (wrapu 64 (bm_ID b)) (Address b) (status_of_cluster (bm_Status b))
    (mkResources (wrapu 64 (wrapu 64 (bm_DiskCapacityGB b) * GB)) (wrapu 64 (wrapu 64 (bm_DiskUsedGB b) * GB)) 0
       (wrapu 64 (bm_NetworkBandwidth b)) 0 0 0)
    (bm_Rack b) (bm_RegisteredAt b) zero_time.

(** [strings.Split(s, ":")]. *)
Fixpoint split_all (s cur : bytes) : list bytes :=
  match s with
  | [] => [cur]
  | c :: s' => if bool_decide (c = x3a) then cur :: split_all s' [] else split_all s' (cur ++ [c])
  end.

Definition parseAddress (addr : bytes) : bytes * Z :=
  match split_all addr [] with
  | [host; p] => match ParseInt 64 p with Some port => (host, port) | None => (addr, 0) end
  | _ => (addr, 0)
  end.

Definition status_to_cluster (st : BrokerStatus) : Cluster.BrokerStatus :=
  match st with
  | BrokerStatusAlive => Cluster.BrokerStatusAlive
  | BrokerStatusDead => Cluster.BrokerStatusFailed
  | BrokerStatusDraining => Cluster.BrokerStatusDraining
  | BrokerStatusUnreachable => Cluster.BrokerStatusFailed
  | BrokerStatusOther _ => Cluster.BrokerStatusFailed
  end.

Definition metadataBrokerToCluster (now : Z) (b : BrokerInfo) : BrokerMetadata :=
  let '(host, port) := parseAddress (bi_Addr b) in
  mkBM (wraps 32 (bi_ID b)) host port (bi_Rack b) 0 (status_to_cluster (bi_Status b)) (bi_RegisteredAt b) now zero_time
    (wraps 64 (rs_DiskTotal (bi_Resources b) / GB)) (wraps 64 (rs_DiskUsed (bi_Resources b) / GB))
    (wraps 64 (rs_NetworkBandwidth (bi_Resources b))) [] ∅.

Definition StoreBrokerMetadata (now : Z) (s : ClusterMetadata) (b : BrokerMetadata) : option propose_error * list Operation :=
  let info := clusterBrokerToMetadata b in
  match FSM_GetBroker s (bi_ID info) with
  | None => Store_RegisterBroker alive answers waits info
  | Some _ => Store_UpdateBroker alive answers waits now (bi_ID info) (bi_Status info) (bi_Resources info)
  end.

Definition GetBrokerMetadata (now : Z) (s : ClusterMetadata) (brokerID : Z) : option BrokerMetadata :=
  metadataBrokerToCluster now <$> FSM_GetBroker s (wrapu 64 brokerID).
Definition adapter_ListBrokers (now : Z) (s : ClusterMetadata) : list BrokerMetadata :=
  metadataBrokerToCluster now <$> FSM_ListBrokers range_ids s.
Definition DeleteBroker (brokerID : Z) := Store_UnregisterBroker alive answers waits (wrapu 64 brokerID).

(** The index of the last colon splits the key. *)
Fixpoint split_last (s : bytes) : option (bytes * bytes) :=
  match s with
  | [] => None
  | c :: s' =>
      match split_last s' with
      | Some (a, b) => Some (c :: a, b)
      | None => if bool_decide (c = x3a) then Some ([], s') else None
      end
  end.

Definition adapter_parsePartitionKey (key : bytes) : bytes * Z :=
  match split_last key with
  | None => (key, 0)
  | Some (topic, s) => match ParseInt 64 s with Some partitionID => (topic, partitionID) | None => (key, 0) end
  end.

Definition int32ToUint64 (l : list Z) : list Z := wrapu 64 <$> l.
Definition uint64ToInt32 (l : list Z) : list Z := wraps 32 <$> l.

(** The partitions that are proposed for an assignment. *)
Definition assignment_partitions (a : Assignment) : list PartitionInfo :=
  (fun e : bytes * list Z =>
     let '(topic, partitionID) := adapter_parsePartitionKey e.1 in
     mkPartitionInfo topic partitionID (wrapu 64 (default 0 (a_Leaders a !! e.1))) (int32ToUint64 e.2) (int32ToUint64 e.2) []
       (wrapu 64 (a_Version a)) zero_time zero_time) <$> range_keys _ (a_Partitions a).

Definition StorePartitionAssignment (a : Assignment) : option propose_error * list Operation :=
  Store_BatchCreatePartitions alive answers waits (assignment_partitions a).

Definition add_partition (a : Assignment) (p : PartitionInfo) : Assignment :=
  let key := PartitionKey (pi_Topic p) (pi_Partition p) in
  mkAssignment (<[key := uint64ToInt32 (pi_Replicas p)]> (a_Partitions a))
    (<[key := wraps 32 (pi_Leader p)]> (a_Leaders a)) (a_BrokerLoad a) (a_Version a).

Definition GetPartitionAssignment (s : ClusterMetadata) (topic : bytes) : Assignment :=
  RecomputeBrokerLoad (fold_left add_partition (FSM_ListPartitions range_keys s topic) NewAssignment).
End adapter.
End Meta.
