(* ===== verification/MetadataSpec.v ===== *)
(** * What the replicated metadata guarantees

    Two replicas that apply the same log entries, at whatever times, agree up to the times
    they record ([≡] below, with [Proper] instances for the operations), also when one of
    them restores a snapshot of the other; what each operation does to the version and to
    the partitions; the allocation of replicas; and that an assignment of the cluster
    coordinator is read back as it was stored. *)

From S2P Require Import Prelude GoBytes Record Placement PlacementSpec Cluster Metadata.
From Stdlib Require Import ZArith Lia Strings.Byte Strings.String.
From stdpp Require Import prelude list sorting gmap.
#[local] Notation length := Datatypes.length.
Open Scope Z_scope.
Import Meta.

(** ** Equality up to local times *)

Definition untimed_broker (b : Meta.BrokerInfo) : Meta.BrokerInfo :=
  mkBrokerInfo (bi_ID b) (bi_Addr b) (bi_Status b) (bi_Resources b) (bi_Rack b) 0 0.
Definition untimed_topic (t : TopicInfo) : TopicInfo :=
  mkTopicInfo (ti_Name t) (ti_NumPartitions t) (ti_ReplicationFactor t) (ti_Config t) 0 0.
Definition untimed_partition (p : Meta.PartitionInfo) : Meta.PartitionInfo :=
  mkPartitionInfo (pi_Topic p) (pi_Partition p) (pi_Leader p) (pi_Replicas p) (pi_ISR p) (pi_OfflineReplicas p) (pi_LeaderEpoch p) 0 0.
Definition untimed (s : ClusterMetadata) : ClusterMetadata :=
  mkMetadata (untimed_broker <$> cm_Brokers s) (untimed_topic <$> cm_Topics s) (untimed_partition <$> cm_Partitions s) (cm_Version s) 0.

#[export] Instance metadata_equiv : Equiv ClusterMetadata := fun a b => untimed a = untimed b.
#[export] Instance metadata_equivalence : Equivalence (≡@{ClusterMetadata}).
Proof. split; [by intros a|by intros a b|intros a b c; unfold equiv, metadata_equiv; congruence]. Qed.

Lemma untimed_id p : id_of (untimed_partition p) = id_of p.
Proof. done. Qed.

Lemma fmap_idemp {K A} `{Countable K} (f : A -> A) (m : gmap K A) : (forall x, f (f x) = f x) -> f <$> (f <$> m) = f <$> m.
Proof. intros Hf. rewrite <- map_fmap_compose. apply map_fmap_ext. intros. apply Hf. Qed.

Lemma untimed_idemp s : untimed (untimed s) = untimed s.
Proof. unfold untimed. simpl. by rewrite !fmap_idemp. Qed.

Lemma untimed_batch now ps : forall m : gmap bytes Meta.PartitionInfo,
  untimed_partition <$> fold_left (fun (m : gmap bytes Meta.PartitionInfo) p => <[id_of p := created now p]> m) ps m
  = fold_left (fun (m : gmap bytes Meta.PartitionInfo) p => <[id_of p := untimed_partition (created 0 p)]> m) ps (untimed_partition <$> m).
Proof. induction ps as [|p ps IH]; intros m; [done|]. simpl. by rewrite IH, fmap_insert. Qed.

Lemma untimed_filter (name : bytes) (m : gmap bytes Meta.PartitionInfo) :
  untimed_partition <$> filter (fun kv => pi_Topic kv.2 <> name) m = filter (fun kv => pi_Topic kv.2 <> name) (untimed_partition <$> m).
Proof. by rewrite map_filter_fmap. Qed.

(** The two sides of a handler that looks an entry up. *)
Ltac untimed_cases :=
  repeat match goal with
  | |- context [(?f <$> ?m) !! ?k] => rewrite (lookup_fmap f m k)
  | |- context [?m !! ?k] => destruct (m !! k); simpl
  end;
  (split; [|done]); unfold untimed, touch, with_brokers, with_topics, with_partitions; simpl;
  rewrite ?fmap_insert, ?fmap_delete, ?untimed_filter, ?fmap_idemp by done; try done.

(** What an operation does, up to times, is determined by the state up to times. *)
Lemma apply_untimed now s op :
  untimed (apply_op now s op).2 = untimed (apply_op 0 (untimed s) op).2
  /\ (apply_op now s op).1 = (apply_op 0 (untimed s) op).1.
Proof.
  destruct op; cbn [apply_op]; try (split; [by rewrite untimed_idemp|done]).
  - unfold applyRegisterBroker. simpl. untimed_cases.
  - unfold applyUnregisterBroker. simpl. untimed_cases.
  - unfold applyUpdateBroker. simpl. untimed_cases.
  - unfold applyCreateTopic. simpl. untimed_cases.
  - unfold applyDeleteTopic. simpl. untimed_cases.
  - unfold applyUpdateTopic. simpl. untimed_cases.
  - unfold applyCreatePartition. simpl. untimed_cases.
  - unfold applyUpdatePartition. simpl. untimed_cases.
  - unfold applyUpdateLeader. simpl. untimed_cases.
  - unfold applyUpdateISR. simpl. untimed_cases.
  - unfold applyUpdateReplicaList. simpl. untimed_cases.
  - unfold applyBatchCreatePartitions. simpl.
    replace (existsb (fun p => bool_decide (is_Some ((untimed_partition <$> cm_Partitions s) !! id_of p))) partitions)
      with (existsb (fun p => bool_decide (is_Some (cm_Partitions s !! id_of p))) partitions).
    2:{ induction partitions as [|p ps IH]; [done|]. simpl. rewrite IH, lookup_fmap. f_equal. apply bool_decide_ext. by rewrite fmap_is_Some. }
    destruct (existsb _ _); simpl; [by rewrite untimed_idemp|]. split; [|done].
    unfold untimed, touch, with_partitions. simpl. by rewrite !untimed_batch, !fmap_idemp.
  - simpl. by rewrite untimed_idemp.
Qed.

(** Whatever the clocks, equivalent states stay equivalent and answer alike. *)
#[export] Instance apply_op_proper : Proper ((fun _ _ => True) ==> (≡) ==> (=) ==> prod_relation (=) (≡)) apply_op.
Proof.
  intros t t' _ s s' Hs op op' <-. destruct (apply_untimed t s op) as [H1 H2], (apply_untimed t' s' op) as [H3 H4].
  unfold equiv, metadata_equiv in *. split; unfold equiv, metadata_equiv; simpl; congruence.
Qed.

(** ** Replicas *)

Section replicas.
Context (DecodeOperation : bytes -> option Operation).
Context (marshal : ClusterMetadata -> bytes) (unmarshal : bytes -> option ClusterMetadata).

(** A replica applies the entries of the log, each at the time its own clock shows. *)
Fixpoint replay (s : ClusterMetadata) (log : list (Z * bytes)) : list (option fsm_error) * ClusterMetadata :=
  match log with
  | [] => ([], s)
  | (now, data) :: log =>
      let '(e, s) := Apply DecodeOperation now s data in
      let '(es, s) := replay s log in (e :: es, s)
  end.

#[export] Instance Apply_proper : Proper ((fun _ _ => True) ==> (≡) ==> (=) ==> prod_relation (=) (≡)) (Apply DecodeOperation).
Proof.
  intros t t' Ht s s' Hs data data' <-. unfold Apply. destruct (DecodeOperation data) as [op|]; [|by split].
  by apply apply_op_proper.
Qed.

Lemma replay_equiv log : forall log' s s', log.*2 = log'.*2 -> s ≡ s' ->
  (replay s log).1 = (replay s' log').1 /\ (replay s log).2 ≡ (replay s' log').2.
Proof.
  induction log as [|[t data] log IH]; intros [|[t' data'] log'] s s' Hl Hs; simpl in Hl; try done.
  injection Hl as <- Hl. simpl. destruct (Apply_proper t t' I s s' Hs data data eq_refl) as [He Hs'].
  destruct (Apply DecodeOperation t s data) as [e s1], (Apply DecodeOperation t' s' data) as [e' s1']. simpl in He, Hs'. subst e'.
  destruct (IH log' s1 s1' Hl Hs') as [H1 H2].
  destruct (replay s1 log) as [es s2], (replay s1' log') as [es' s2']. simpl in *. by subst.
Qed.

Lemma meta_replay_app s log1 log2 :
  replay s (log1 ++ log2) = let '(es1, s1) := replay s log1 in let '(es2, s2) := replay s1 log2 in (es1 ++ es2, s2).
Proof.
  revert s. induction log1 as [|[t data] log1 IH]; intros s; simpl; [by destruct (replay s log2)|].
  destruct (Apply DecodeOperation t s data) as [e s1]. rewrite IH. destruct (replay s1 log1) as [es1 s2].
  by destruct (replay s2 log2).
Qed.
End replicas.

(** C29: Replicas agree.  Two replicas that start alike and apply the same entries, each with
    its own clock, refuse the same operations and have the same brokers, topics,
    partitions and version; only the times they recorded may differ.  A replica that
    restores a snapshot of another and applies the rest of the log agrees too.  The JSON
    codec is assumed to read back what it wrote, up to times. *)
Theorem replicas_agree DecodeOperation marshal unmarshal s1 s2 log1 log2 log1' log2' :
  (forall s, exists s', unmarshal (marshal s) = Some s' /\ s' ≡ s) ->
  s1 ≡ s2 -> log1.*2 = log1'.*2 -> log2.*2 = log2'.*2 ->
  let '(es1, s1) := replay DecodeOperation s1 log1 in
  let '(es2, s2) := replay DecodeOperation s2 (log1' ++ log2') in
  let '(err, s3) := FSM_Restore unmarshal (NewClusterMetadata 0) (FSM_Snapshot marshal s1) in
  let '(es3, s3) := replay DecodeOperation s3 log2 in
  err = None /\ es2 = es1 ++ es3 /\ s2 ≡ s3.
Proof.
  intros Hcodec Hs H1 H2. destruct (replay_equiv DecodeOperation log1 log1' s1 s2 H1 Hs) as [He1 Hs1].
  rewrite meta_replay_app. destruct (replay DecodeOperation s1 log1) as [es1 t1], (replay DecodeOperation s2 log1') as [es1' t1'].
  simpl in *. subst es1'. unfold FSM_Restore, FSM_Snapshot. destruct (Hcodec t1) as (t2 & -> & Ht2).
  destruct (replay_equiv DecodeOperation log2' log2 t1' t2 (eq_sym H2)) as [He2 Hs2]; [by rewrite Ht2, Hs1|].
  destruct (replay DecodeOperation t1' log2') as [es2 u], (replay DecodeOperation t2 log2) as [es3 v]. simpl in *. by subst.
Qed.

(** ** The invariant of the tables *)

(** Every entry is stored under its own identity. *)
Record keyed (s : ClusterMetadata) : Prop := {
  keyed_brokers : map_Forall (fun id b => bi_ID b = id) (cm_Brokers s);
  keyed_topics : map_Forall (fun name t => ti_Name t = name) (cm_Topics s);
  keyed_partitions : map_Forall (fun id p => id_of p = id) (cm_Partitions s)
}.

Lemma keyed_batch now ps : forall m : gmap bytes Meta.PartitionInfo, map_Forall (fun id p => id_of p = id) m ->
  map_Forall (fun id p => id_of p = id) (fold_left (fun (m : gmap bytes Meta.PartitionInfo) p => <[id_of p := created now p]> m) ps m).
Proof. induction ps as [|p ps IH]; intros m Hm; [done|]. simpl. apply IH. by apply map_Forall_insert_2. Qed.

Lemma keyed_filter (name : bytes) (m : gmap bytes Meta.PartitionInfo) : map_Forall (fun id p => id_of p = id) m ->
  map_Forall (fun id p => id_of p = id) (filter (fun kv => pi_Topic kv.2 <> name) m).
Proof. intros Hm k p [Hk _]%map_lookup_filter_Some. by apply Hm. Qed.

(** Each handler looks its entry up and replaces or deletes it under the same key. *)
Lemma apply_keyed now s op : keyed s -> keyed (apply_op now s op).2.
Proof.
  intros [Hb Ht Hp]. destruct op; cbn [apply_op];
    unfold applyRegisterBroker, applyUnregisterBroker, applyUpdateBroker, applyCreateTopic, applyDeleteTopic, applyUpdateTopic,
      applyCreatePartition, applyUpdatePartition, applyUpdateLeader, applyUpdateISR, applyUpdateReplicaList, applyBatchCreatePartitions;
    repeat match goal with |- context [?m !! ?k] => destruct (m !! k) eqn:? end; try destruct (existsb _ _);
    split; simpl; try assumption; try (apply map_Forall_delete; assumption); try (apply keyed_filter; assumption);
    try (apply keyed_batch; assumption); (apply map_Forall_insert_2; [simpl; first [done|match goal with H : _ !! _ = Some _ |- _ => first [exact (Hb _ _ H)|exact (Ht _ _ H)|exact (Hp _ _ H)] end]|assumption]).
Qed.

(** An operation that is refused changes nothing; one that is not counts in the version. *)
Lemma apply_version now s op : (apply_op now s op).2 = s /\ (apply_op now s op).1 <> None
  \/ cm_Version (apply_op now s op).2 = wrapu 64 (cm_Version s + 1) /\ (apply_op now s op).1 = None.
Proof.
  destruct op; cbn [apply_op];
    unfold applyRegisterBroker, applyUnregisterBroker, applyUpdateBroker, applyCreateTopic, applyDeleteTopic, applyUpdateTopic,
      applyCreatePartition, applyUpdatePartition, applyUpdateLeader, applyUpdateISR, applyUpdateReplicaList, applyBatchCreatePartitions;
    repeat match goal with |- context [?m !! ?k] => destruct (m !! k) eqn:? end; try destruct (existsb _ _); simpl; auto.
Qed.

Definition succeeded (es : list (option fsm_error)) : Z := zlen (filter (fun e => e = None) es).

Lemma succeeded_None es : succeeded (None :: es) = 1 + succeeded es.
Proof. unfold succeeded. rewrite filter_cons_True by done. rewrite length_cons. lia. Qed.

Lemma replay_state DecodeOperation log : forall s, keyed s -> in_u64 (cm_Version s) ->
  let '(es, s') := replay DecodeOperation s log in
  keyed s' /\ cm_Version s' = wrapu 64 (cm_Version s + succeeded es).
Proof.
  induction log as [|[t data] log IH]; intros s Hk Hv; simpl.
  - split; [done|]. unfold succeeded, wrapu, in_u64 in *. simpl. rewrite Z.mod_small; lia.
  - unfold Apply. destruct (DecodeOperation data) as [op|].
    + pose proof (apply_keyed t s op Hk) as Hk'. destruct (apply_version t s op) as [[E En]|[E En]];
        destruct (apply_op t s op) as [e s1]; simpl in *; subst.
      * specialize (IH s Hk Hv). destruct (replay DecodeOperation s log) as [es s2]. destruct IH as [IH1 IH2].
        split; [done|]. by destruct e.
      * assert (Hv1 : in_u64 (cm_Version s1)) by (rewrite E; unfold wrapu, in_u64; pose proof (Z.mod_pos_bound (cm_Version s + 1) (2 ^ 64)); lia).
        specialize (IH s1 Hk' Hv1). destruct (replay DecodeOperation s1 log) as [es s2]. destruct IH as [IH1 IH2].
        split; [done|]. rewrite IH2, E. rewrite succeeded_None. unfold wrapu. rewrite Zplus_mod_idemp_l. f_equal. lia.
    + specialize (IH s Hk Hv). by destruct (replay DecodeOperation s log) as [es s2].
Qed.

(** The entries of a log that were applied. *)
Fixpoint accepted {E R} (log : list E) (es : list (option R)) : list E :=
  match log, es with
  | entry :: log, None :: es => entry :: accepted log es
  | _ :: log, Some _ :: es => accepted log es
  | _, _ => []
  end.

(** Refused entries leave no trace. *)
Lemma replay_accepted DecodeOperation log : forall s,
  let '(es, s') := replay DecodeOperation s log in
  (replay DecodeOperation s (accepted log es)).2 = s' /\ Forall (fun e => e = None) (replay DecodeOperation s (accepted log es)).1.
Proof.
  induction log as [|[t data] log IH]; intros s; simpl; [done|].
  destruct (Apply DecodeOperation t s data) as [e s1] eqn:Ea. specialize (IH s1) as IH1. destruct (replay DecodeOperation s1 log) as [es s2].
  destruct e as [e|]; simpl.
  - assert (s1 = s) as ->; [|done]. unfold Apply in Ea. destruct (DecodeOperation data) as [op|]; [|by injection Ea].
    destruct (apply_version t s op) as [[E _]|[_ E]]; rewrite Ea in E; simpl in E; congruence.
  - rewrite Ea. destruct (replay DecodeOperation s1 (accepted log es)) as [es' s3]. destruct IH1 as [IH1 IH2]. simpl in *. split; [done|]. by constructor.
Qed.

(** C30: In every state that a replica can reach, whatever the log entries are, each broker,
    topic and partition is stored under its own identity, and the version is the number of
    operations that were applied, modulo 2^64.  The entries that were refused, those that do
    not decode included, left the state exactly as it was: a replica that is given only the
    entries that were applied accepts all of them and gets into the same state. *)
Theorem metadata_invariant DecodeOperation now log :
  let '(es, s) := replay DecodeOperation (NewClusterMetadata now) log in
  keyed s /\ cm_Version s = wrapu 64 (succeeded es)
  /\ exists es', replay DecodeOperation (NewClusterMetadata now) (accepted log es) = (es', s) /\ Forall (fun e => e = None) es'.
Proof.
  pose proof (replay_state DecodeOperation log (NewClusterMetadata now)) as H. pose proof (replay_accepted DecodeOperation log (NewClusterMetadata now)) as Ha.
  destruct (replay DecodeOperation (NewClusterMetadata now) log) as [es s]. destruct H as [H1 H2]; [by split|unfold in_u64; simpl; lia|].
  split; [done|]. split; [done|]. destruct (replay DecodeOperation _ (accepted log es)) as [es' s']. destruct Ha as [<- Ha]. by exists es'.
Qed.

(** ** Topics *)

Lemma keyed_topic s topic partition p : keyed s -> FSM_GetPartition s topic partition = Some p -> pi_Topic p = topic.
Proof.
  intros Hk Hp. apply (keyed_partitions s Hk) in Hp. simpl in Hp. unfold id_of, PartitionID in Hp.
  by apply last_colon_inj in Hp as [-> _]; [|apply FormatInt_no_colon..].
Qed.

(** Deleting a topic that exists removes the topic and exactly its own partitions, and
    nothing of the other topics or of the brokers. *)
Theorem delete_topic_exact now s name : keyed s -> is_Some (FSM_GetTopic s name) ->
  let '(err, s') := applyDeleteTopic now s name in
  err = None
  /\ (forall topic, FSM_GetTopic s' topic = if decide (topic = name) then None else FSM_GetTopic s topic)
  /\ (forall topic partition, FSM_GetPartition s' topic partition
        = if decide (topic = name) then None else FSM_GetPartition s topic partition)
  /\ cm_Brokers s' = cm_Brokers s.
Proof.
  intros Hk [t Ht]. unfold applyDeleteTopic. unfold FSM_GetTopic in *. rewrite Ht. split_and!; try done.
  - intros topic. simpl. case_decide as E; [subst; apply lookup_delete_eq|by apply lookup_delete_ne].
  - intros topic partition. unfold FSM_GetPartition. simpl.
    pose proof (fun p => keyed_topic s topic partition p Hk) as Hp. unfold FSM_GetPartition in Hp.
    destruct (cm_Partitions s !! PartitionID topic partition) as [p|] eqn:E.
    + specialize (Hp p eq_refl). case_decide as En.
      * apply map_lookup_filter_None. right. intros p' E' Hn. simpl in Hn. congruence.
      * apply map_lookup_filter_Some. simpl. by rewrite Hp.
    + rewrite (proj2 (map_lookup_filter_None _ _ _)) by (by left). by case_decide.
Qed.

(** ** Partitions *)

Lemma batch_fresh ps : forall m : gmap bytes Meta.PartitionInfo,
  existsb (fun p => bool_decide (is_Some (m !! id_of p))) ps = false <-> forall p, p ∈ ps -> m !! id_of p = None.
Proof.
  intros m. rewrite <- not_true_iff_false, existsb_exists. split.
  - intros H p Hp. apply eq_None_not_Some. intros Hs. apply H. exists p. by rewrite <- list_elem_of_In, bool_decide_true.
  - intros H (p & Hp%list_elem_of_In & Hs%bool_decide_eq_true). apply H in Hp. rewrite Hp in Hs. by destruct Hs.
Qed.

Lemma batch_lookup now ps id : forall m : gmap bytes Meta.PartitionInfo, NoDup (id_of <$> ps) ->
  fold_left (fun (m : gmap bytes Meta.PartitionInfo) p => <[id_of p := created now p]> m) ps m !! id
  = match find (fun p => bool_decide (id_of p = id)) ps with Some p => Some (created now p) | None => m !! id end.
Proof.
  induction ps as [|p ps IH]; intros m Hd; simpl; [done|]. apply NoDup_cons in Hd as [Hn Hd].
  rewrite IH by done. case_bool_decide as E.
  - subst. rewrite lookup_insert_eq. destruct (find _ ps) as [q|] eqn:Eq; [|done]. apply find_some in Eq as [Hq Eq].
    apply bool_decide_eq_true in Eq. exfalso. apply Hn. apply list_elem_of_fmap. exists q. by rewrite list_elem_of_In.
  - by rewrite lookup_insert_ne.
Qed.

Lemma batch_in now ps m p : NoDup (id_of <$> ps) -> p ∈ ps ->
  fold_left (fun (m : gmap bytes Meta.PartitionInfo) p => <[id_of p := created now p]> m) ps m !! id_of p = Some (created now p).
Proof.
  intros Hd Hp. rewrite batch_lookup by done. destruct (find _ ps) as [q|] eqn:Eq.
  - apply find_some in Eq as [Hq Eq%bool_decide_eq_true]. rewrite <- list_elem_of_In in Hq.
    f_equal. f_equal. by apply (NoDup_fmap_inj id_of ps).
  - pose proof (find_none _ _ Eq p) as Hn. rewrite <- list_elem_of_In in Hn. specialize (Hn Hp). by rewrite bool_decide_true in Hn.
Qed.

Lemma batch_out now ps m id : NoDup (id_of <$> ps) -> id ∉ id_of <$> ps ->
  fold_left (fun (m : gmap bytes Meta.PartitionInfo) p => <[id_of p := created now p]> m) ps m !! id = m !! id.
Proof.
  intros Hd Hid. rewrite batch_lookup by done. destruct (find _ ps) as [q|] eqn:Eq; [|done].
  apply find_some in Eq as [Hq Eq%bool_decide_eq_true]. rewrite <- list_elem_of_In in Hq.
  exfalso. apply Hid. apply list_elem_of_fmap. by exists q.
Qed.

(** A batch of partitions is created as a whole: when one of them exists it is refused and
    nothing changes; otherwise all of them exist afterwards, in their first epoch, and no
    other partition has changed. *)
Theorem batch_create_atomic now s ps : NoDup (id_of <$> ps) ->
  let '(err, s') := applyBatchCreatePartitions now s ps in
  if decide (Forall (fun p => cm_Partitions s !! id_of p = None) ps)
  then err = None
       /\ (forall p, p ∈ ps -> cm_Partitions s' !! id_of p = Some (created now p))
       /\ (forall id, id ∉ id_of <$> ps -> cm_Partitions s' !! id = cm_Partitions s !! id)
  else err = Some AlreadyExists /\ s' = s.
Proof.
  intros Hd. unfold applyBatchCreatePartitions.
  destruct (existsb _ ps) eqn:E; case_decide as Hf; rewrite Forall_forall in Hf.
  - rewrite (proj2 (batch_fresh ps _)) in E by done. done.
  - done.
  - split_and!; [done| |].
    + intros p Hp. by apply batch_in.
    + intros id Hid. by apply batch_out.
  - exfalso. apply Hf. by apply batch_fresh.
Qed.

(** ** Allocating partitions *)

Lemma mapM_total {A B} (f : A -> option B) (g : A -> B) (l : list A) : (forall x, x ∈ l -> f x = Some (g x)) -> mapM f l = Some (g <$> l).
Proof.
  induction l as [|x l IH]; intros Hf; [done|]. simpl. rewrite (Hf x) by set_solver. simpl. rewrite IH by set_solver. done.
Qed.

(** The brokers that follow the [i]-th one, in turn. *)
Definition turn (brokers : list Meta.BrokerInfo) (i j : nat) : Z :=
  from_option bi_ID 0 (brokers !! ((i + j) mod length brokers)%nat).

Lemma allocate_turns brokers i rf : (0 < length brokers)%nat -> allocate_replicas brokers i rf = Some (turn brokers i <$> seq 0 rf).
Proof.
  intros Hn. unfold allocate_replicas. apply mapM_total. intros j _. unfold turn.
  destruct (lookup_lt_is_Some_2 brokers ((i + j) mod length brokers)%nat) as [b ->]; [|done]. apply Nat.mod_upper_bound. lia.
Qed.

Lemma turn_inj brokers i j j' : NoDup (bi_ID <$> brokers) -> (j < length brokers)%nat -> (j' < length brokers)%nat ->
  turn brokers i j = turn brokers i j' -> j = j'.
Proof.
  intros Hd Hj Hj' E. unfold turn in E.
  pose proof (Nat.mod_upper_bound (i + j) (length brokers) ltac:(lia)) as H1.
  pose proof (Nat.mod_upper_bound (i + j') (length brokers) ltac:(lia)) as H2.
  destruct (lookup_lt_is_Some_2 _ _ H1) as [b Hb], (lookup_lt_is_Some_2 _ _ H2) as [b' Hb']. rewrite Hb, Hb' in E. simpl in E.
  assert ((i + j) mod length brokers = (i + j') mod length brokers)%nat as Em.
  { eapply (NoDup_lookup _ _ _ (bi_ID b) Hd); rewrite list_lookup_fmap; [by rewrite Hb|rewrite Hb', E; done]. }
  pose proof (Nat.div_mod_eq (i + j) (length brokers)). pose proof (Nat.div_mod_eq (i + j') (length brokers)).
  assert ((i + j) / length brokers = (i + j') / length brokers)%nat; nia.
Qed.

(** With at least as many brokers as replicas are asked for, [AllocatePartitions] returns
    the partitions [0] to [n - 1], each with that many distinct registered brokers, the first
    of which leads, and all of which are in sync. *)
Theorem allocate_partitions_valid (range_ids : forall V : Type, gmap Z V -> list (Z * V)) s topic n rf :
  (forall V m, range_ids V m ≡ₚ map_to_list m) -> keyed s ->
  0 <= n -> 1 <= rf <= Z.of_nat (size (cm_Brokers s)) ->
  exists ps, AllocatePartitions range_ids s topic n rf = Some (Ok ps) /\ zlen ps = n
    /\ forall i p, ps !! i = Some p ->
         pi_Topic p = topic /\ pi_Partition p = Z.of_nat i
         /\ NoDup (pi_Replicas p) /\ zlen (pi_Replicas p) = rf
         /\ (forall id, id ∈ pi_Replicas p -> is_Some (FSM_GetBroker s id))
         /\ head (pi_Replicas p) = Some (pi_Leader p) /\ pi_ISR p = pi_Replicas p.
Proof.
  intros Hperm Hk Hn Hrf. set (brokers := FSM_ListBrokers range_ids s).
  assert (length brokers = size (cm_Brokers s)) as Hlen.
  { unfold brokers, FSM_ListBrokers. rewrite length_fmap, Hperm. apply length_map_to_list. }
  assert (bi_ID <$> brokers = (range_ids _ (cm_Brokers s)).*1) as Hids.
  { unfold brokers, FSM_ListBrokers. rewrite <- list_fmap_compose. apply list_fmap_ext. intros i [id b] Hi. simpl.
    apply (keyed_brokers s Hk). apply elem_of_map_to_list. rewrite <- Hperm. by eapply list_elem_of_lookup_2. }
  assert (NoDup (bi_ID <$> brokers)) as Hd by (rewrite Hids, Hperm; apply NoDup_fst_map_to_list).
  set (part := fun i => mkPartitionInfo topic (Z.of_nat i) (turn brokers i 0) (turn brokers i <$> seq 0 (Z.to_nat rf))
                          (turn brokers i <$> seq 0 (Z.to_nat rf)) [] 0 zero_time zero_time).
  exists (part <$> seq 0 (Z.to_nat n)). split_and!.
  - unfold AllocatePartitions. fold brokers. rewrite (proj2 (Z.ltb_ge _ _)), (proj2 (Z.ltb_ge n 0)), (proj2 (Z.ltb_ge rf 0)), andb_false_r by lia.
    rewrite (mapM_total _ part); [done|]. intros i _. rewrite allocate_turns by lia. simpl.
    unfold part. destruct (Z.to_nat rf) eqn:E; [lia|done].
  - rewrite length_fmap, length_seq. lia.
  - intros i p Hi. apply list_lookup_fmap_Some in Hi as (k & -> & [-> Hk2]%lookup_seq). rewrite Nat.add_0_l. unfold part; simpl.
    split_and!; try done.
    + apply NoDup_fmap_2_strong; [|apply NoDup_seq]. intros x y [_ Hx]%elem_of_seq [_ Hy]%elem_of_seq. apply turn_inj; [done|lia..].
    + rewrite length_fmap, length_seq. lia.
    + intros id (j & -> & _)%list_elem_of_fmap. unfold turn.
      pose proof (Nat.mod_upper_bound (i + j) (length brokers) ltac:(lia)) as H1. destruct (lookup_lt_is_Some_2 _ _ H1) as [b Hb].
      rewrite Hb. simpl. assert (bi_ID b ∈ bi_ID <$> brokers) as Hin by (apply list_elem_of_fmap_2; by eapply list_elem_of_lookup_2).
      rewrite Hids, Hperm in Hin. apply list_elem_of_fmap in Hin as ([id b'] & -> & Hin%elem_of_map_to_list). by exists b'.
    + destruct (Z.to_nat rf) eqn:E; [lia|done].
Qed.

(** ** The adapter *)

Lemma split_last_colon topic s : x3a ∉ s -> split_last (topic ++ x3a :: s) = Some (topic, s).
Proof.
  intros Hs. assert (split_last s = None) as Hn.
  { clear topic. induction s as [|c s IH]; [done|]. simpl. rewrite IH by set_solver. rewrite bool_decide_false; [done|set_solver]. }
  induction topic as [|c topic IH]; simpl; [by rewrite Hn|by rewrite IH].
Qed.

Lemma adapter_parse_key topic partition : in_i64 partition -> adapter_parsePartitionKey (PartitionKey topic partition) = (topic, partition).
Proof.
  intros Hp. unfold adapter_parsePartitionKey, PartitionKey. rewrite split_last_colon by apply FormatInt_no_colon.
  unfold in_i64 in Hp. by rewrite ParseInt_FormatInt by (simpl; lia).
Qed.

Lemma wraps32_wrapu64 z : in_i32 z -> wraps 32 (wrapu 64 z) = z.
Proof.
  intros Hz. unfold in_i32 in Hz. unfold wraps, wrapu. rewrite Z.add_mod, <- Znumtheory.Zmod_div_mod, <- Z.add_mod by (try lia; by exists (2 ^ 32)).
  rewrite Z.mod_small; lia.
Qed.

Lemma uint64ToInt32_int32ToUint64 l : Forall in_i32 l -> uint64ToInt32 (int32ToUint64 l) = l.
Proof.
  induction 1 as [|z l Hz _ IH]; [done|]. unfold uint64ToInt32, int32ToUint64 in *. rewrite !fmap_cons.
  f_equal; [by apply wraps32_wrapu64|exact IH].
Qed.

(** The assignments that the strategies make: their keys name a topic and a partition, every
    partition has a leader, and brokers are 32-bit integers. *)
Record storable (a : Assignment) : Prop := {
  storable_keys : forall key rs, a_Partitions a !! key = Some rs ->
    exists topic partition, key = PartitionKey topic partition /\ in_i64 partition;
  storable_replicas : map_Forall (fun _ rs => Forall in_i32 rs) (a_Partitions a);
  storable_leaders : forall key, is_Some (a_Partitions a !! key) -> exists l, a_Leaders a !! key = Some l /\ in_i32 l
}.

Section adapter.
Context (range_keys : forall V : Type, gmap bytes V -> list (bytes * V)).
Hypothesis range_keys_perm : forall V m, range_keys V m ≡ₚ map_to_list m.

Definition partition_of (a : Assignment) (key : bytes) (rs : list Z) : Meta.PartitionInfo :=
  let '(topic, partitionID) := adapter_parsePartitionKey key in
  mkPartitionInfo topic partitionID (wrapu 64 (default 0 (a_Leaders a !! key))) (int32ToUint64 rs) (int32ToUint64 rs) []
    (wrapu 64 (a_Version a)) zero_time zero_time.

Lemma assignment_partitions_eq a : assignment_partitions range_keys a = (fun e => partition_of a e.1 e.2) <$> range_keys _ (a_Partitions a).
Proof. done. Qed.

Lemma partition_of_id a key rs : storable a -> a_Partitions a !! key = Some rs -> id_of (partition_of a key rs) = key.
Proof. intros Ha Hk. destruct (storable_keys a Ha key rs Hk) as (topic & p & -> & Hp). unfold partition_of. by rewrite adapter_parse_key. Qed.

Lemma assignment_ids a : storable a -> id_of <$> assignment_partitions range_keys a = (range_keys _ (a_Partitions a)).*1.
Proof.
  intros Ha. rewrite assignment_partitions_eq, <- list_fmap_compose. apply list_fmap_ext. intros i [key rs] Hi. simpl.
  apply partition_of_id; [done|]. apply elem_of_map_to_list. rewrite <- range_keys_perm. by eapply list_elem_of_lookup_2.
Qed.

Lemma assignment_ids_elem a key : storable a -> key ∈ id_of <$> assignment_partitions range_keys a <-> is_Some (a_Partitions a !! key).
Proof.
  intros Ha. rewrite assignment_ids by done. rewrite range_keys_perm, list_elem_of_fmap. split.
  - intros ([k rs] & -> & Hk%elem_of_map_to_list). by exists rs.
  - intros [rs Hk%elem_of_map_to_list]. by exists (key, rs).
Qed.

Lemma listed_ids s topic : keyed s -> NoDup (id_of <$> FSM_ListPartitions range_keys s topic).
Proof.
  intros Hk. apply NoDup_fmap_filter. rewrite <- list_fmap_compose.
  replace (_ <$> _) with ((range_keys _ (cm_Partitions s)).*1); [rewrite range_keys_perm; apply NoDup_fst_map_to_list|].
  apply list_fmap_ext. intros i [k p] Hi. symmetry. apply (keyed_partitions s Hk). apply elem_of_map_to_list.
  rewrite <- range_keys_perm. by eapply list_elem_of_lookup_2.
Qed.

Lemma listed_elem s p k : cm_Partitions s !! k = Some p -> p ∈ FSM_ListPartitions range_keys s (pi_Topic p).
Proof.
  intros Hp%elem_of_map_to_list. apply list_elem_of_filter. split; [done|]. rewrite <- range_keys_perm in Hp.
  by apply (list_elem_of_fmap_2 snd) in Hp.
Qed.

Lemma added_out ps : forall a key, key ∉ id_of <$> ps ->
  a_Partitions (fold_left add_partition ps a) !! key = a_Partitions a !! key
  /\ a_Leaders (fold_left add_partition ps a) !! key = a_Leaders a !! key.
Proof.
  induction ps as [|p ps IH]; intros a key Hk; [done|]. rewrite fmap_cons, not_elem_of_cons in Hk. destruct Hk as [Hne Hk].
  simpl. destruct (IH (add_partition a p) key Hk) as [-> ->]. unfold add_partition. simpl.
  by rewrite !lookup_insert_ne.
Qed.

Lemma added_in ps p : NoDup (id_of <$> ps) -> p ∈ ps -> forall a,
  a_Partitions (fold_left add_partition ps a) !! id_of p = Some (uint64ToInt32 (pi_Replicas p))
  /\ a_Leaders (fold_left add_partition ps a) !! id_of p = Some (wraps 32 (pi_Leader p)).
Proof.
  induction ps as [|q ps IH]; intros Hd Hp a; [by apply not_elem_of_nil in Hp|]. apply NoDup_cons in Hd as [Hn Hd]. simpl.
  apply elem_of_cons in Hp as [->|Hp]; [|by apply IH].
  destruct (added_out ps (add_partition a q) (id_of q) Hn) as [-> ->]. unfold add_partition. simpl. by rewrite !lookup_insert_eq.
Qed.

(** What [GetPartitionAssignment] says of a partition in the table. *)
Lemma assignment_reads s topic partition p : keyed s -> FSM_GetPartition s topic partition = Some p ->
  a_Partitions (GetPartitionAssignment range_keys s topic) !! PartitionKey topic partition = Some (uint64ToInt32 (pi_Replicas p))
  /\ a_Leaders (GetPartitionAssignment range_keys s topic) !! PartitionKey topic partition = Some (wraps 32 (pi_Leader p)).
Proof.
  intros Hk Hp. pose proof (keyed_topic s topic partition p Hk Hp) as <-.
  pose proof (keyed_partitions s Hk _ _ Hp) as Hid. simpl in Hid. change (PartitionKey ?t ?p) with (PartitionID t p). rewrite <- Hid.
  apply added_in; [by apply listed_ids|by eapply listed_elem].
Qed.

(** Creating the partitions of an assignment none of which exists. *)
Lemma stored_lookup now s a key rs : storable a -> a_Partitions a !! key = Some rs ->
  (forall key, is_Some (a_Partitions a !! key) -> cm_Partitions s !! key = None) ->
  let '(err, s') := apply_op now s (BatchCreatePartitionsOp (assignment_partitions range_keys a)) in
  err = None /\ cm_Partitions s' !! key = Some (created now (partition_of a key rs)).
Proof.
  intros Ha Hkey Hfresh. simpl. unfold applyBatchCreatePartitions.
  rewrite (proj2 (batch_fresh _ _)).
  - split; [done|]. simpl. rewrite <- (partition_of_id a key rs Ha Hkey) at 1. apply batch_in.
    + rewrite assignment_ids by done. rewrite range_keys_perm. apply NoDup_fst_map_to_list.
    + rewrite assignment_partitions_eq. apply list_elem_of_fmap. exists (key, rs). split; [done|].
      rewrite range_keys_perm. by apply elem_of_map_to_list.
  - intros p Hp. apply Hfresh. apply assignment_ids_elem; [done|]. by apply list_elem_of_fmap_2.
Qed.
End adapter.

(** An assignment of the cluster coordinator whose partitions do not exist yet is read
    back as it was stored: once the operation that [StorePartitionAssignment] proposes is
    applied, [GetPartitionAssignment] gives each of its partitions the same replicas, in the
    same order, and the same leader. *)
Theorem assignment_roundtrip range_keys now s a topic partition :
  (forall V m, range_keys V m ≡ₚ map_to_list m) -> keyed s -> storable a ->
  (forall key, is_Some (a_Partitions a !! key) -> cm_Partitions s !! key = None) ->
  is_Some (a_Partitions a !! PartitionKey topic partition) -> in_i64 partition ->
  let '(err, s') := apply_op now s (BatchCreatePartitionsOp (assignment_partitions range_keys a)) in
  let b := GetPartitionAssignment range_keys s' topic in
  err = None
  /\ a_Partitions b !! PartitionKey topic partition = a_Partitions a !! PartitionKey topic partition
  /\ a_Leaders b !! PartitionKey topic partition = a_Leaders a !! PartitionKey topic partition.
Proof.
  intros Hperm Hk Ha Hfresh [rs Hrs] Hp. set (op := BatchCreatePartitionsOp _).
  pose proof (stored_lookup range_keys Hperm now s a _ rs Ha Hrs Hfresh) as H. fold op in H.
  pose proof (apply_keyed now s op Hk) as Hk'. destruct (apply_op now s op) as [err s']. destruct H as [-> Hl].
  destruct (assignment_reads range_keys Hperm s' topic partition _ Hk' Hl) as [H1 H2]. cbv zeta. rewrite H1, H2, Hrs.
  destruct (storable_leaders a Ha (PartitionKey topic partition) ltac:(eauto)) as (l & Hl' & Hi). rewrite Hl'.
  unfold partition_of. rewrite adapter_parse_key, Hl' by done. simpl.
  rewrite uint64ToInt32_int32ToUint64 by (by apply (storable_replicas a Ha) in Hrs). by rewrite wraps32_wrapu64.
Qed.

(** What is stored stays: [StorePartitionAssignment] proposes to create partitions, so an
    assignment that moves even one partition that exists already (what a rebalance
    produces) is refused by every replica and the table keeps the old replicas. *)
Theorem reassignment_refused range_keys now s a key :
  (forall V m, range_keys V m ≡ₚ map_to_list m) -> storable a ->
  is_Some (a_Partitions a !! key) -> is_Some (cm_Partitions s !! key) ->
  apply_op now s (BatchCreatePartitionsOp (assignment_partitions range_keys a)) = (Some AlreadyExists, s).
Proof.
  intros Hperm Ha Hkey Hs. simpl. unfold applyBatchCreatePartitions. destruct (existsb _ _) eqn:E; [done|].
  rewrite batch_fresh in E. apply (assignment_ids_elem range_keys Hperm a key Ha) in Hkey.
  apply list_elem_of_fmap in Hkey as (p & -> & Hp). apply E in Hp. rewrite Hp in Hs. by destruct Hs.
Qed.

(** ** Instances *)

(** A codec that reads back what it wrote: the types are countable, and a number is written
    bit by bit. *)
#[export] Instance Meta_BrokerStatus_eq_dec : EqDecision Meta.BrokerStatus.
Proof. solve_decision. Defined.
#[export] Instance Meta_BrokerStatus_countable : Countable Meta.BrokerStatus.
Proof.
  refine (inj_countable'
    (fun st => match st with BrokerStatusAlive => inl 0 | BrokerStatusDead => inl 1 | BrokerStatusDraining => inl 2
               | BrokerStatusUnreachable => inl 3 | BrokerStatusOther s => inr s end)
    (fun x => match x with inl 0 => BrokerStatusAlive | inl 1 => BrokerStatusDead | inl 2 => BrokerStatusDraining
              | inl _ => BrokerStatusUnreachable | inr s => BrokerStatusOther s end) _); by intros [].
Defined.
#[export] Instance BrokerResources_eq_dec : EqDecision BrokerResources.
Proof. solve_decision. Defined.
#[export] Instance BrokerResources_countable : Countable BrokerResources.
Proof.
  refine (inj_countable' (fun r => (rs_DiskTotal r, rs_DiskUsed r, rs_DiskAvailable r, rs_NetworkBandwidth r, rs_CPUCores r, rs_MemoryTotal r, rs_MemoryUsed r))
    (fun '(a, b, c, d, e, f, g) => mkResources a b c d e f g) _); by intros [].
Defined.
#[export] Instance Meta_BrokerInfo_eq_dec : EqDecision Meta.BrokerInfo.
Proof. solve_decision. Defined.
#[export] Instance Meta_BrokerInfo_countable : Countable Meta.BrokerInfo.
Proof.
  refine (inj_countable' (fun b => (bi_ID b, bi_Addr b, bi_Status b, bi_Resources b, bi_Rack b, bi_RegisteredAt b, bi_LastHeartbeat b))
    (fun '(a, b, c, d, e, f, g) => mkBrokerInfo a b c d e f g) _); by intros [].
Defined.
#[export] Instance TopicConfig_eq_dec : EqDecision TopicConfig.
Proof. solve_decision. Defined.
#[export] Instance TopicConfig_countable : Countable TopicConfig.
Proof.
  refine (inj_countable' (fun c => (tc_RetentionMs c, tc_RetentionBytes c, tc_SegmentMs c, tc_SegmentBytes c, tc_MinInsyncReplicas c, tc_CompressionType c))
    (fun '(a, b, c, d, e, f) => mkTopicConfig a b c d e f) _); by intros [].
Defined.
#[export] Instance TopicInfo_eq_dec : EqDecision TopicInfo.
Proof. solve_decision. Defined.
#[export] Instance TopicInfo_countable : Countable TopicInfo.
Proof.
  refine (inj_countable' (fun t => (ti_Name t, ti_NumPartitions t, ti_ReplicationFactor t, ti_Config t, ti_CreatedAt t, ti_ModifiedAt t))
    (fun '(a, b, c, d, e, f) => mkTopicInfo a b c d e f) _); by intros [].
Defined.
#[export] Instance Meta_PartitionInfo_eq_dec : EqDecision Meta.PartitionInfo.
Proof. solve_decision. Defined.
#[export] Instance Meta_PartitionInfo_countable : Countable Meta.PartitionInfo.
Proof.
  refine (inj_countable' (fun p => (pi_Topic p, pi_Partition p, pi_Leader p, pi_Replicas p, pi_ISR p, pi_OfflineReplicas p, pi_LeaderEpoch p, pi_CreatedAt p, pi_ModifiedAt p))
    (fun '(a, b, c, d, e, f, g, h, i) => mkPartitionInfo a b c d e f g h i) _); by intros [].
Defined.
#[export] Instance ClusterMetadata_eq_dec : EqDecision ClusterMetadata.
Proof. solve_decision. Defined.
#[export] Instance ClusterMetadata_countable : Countable ClusterMetadata.
Proof.
  refine (inj_countable' (fun s => (cm_Brokers s, cm_Topics s, cm_Partitions s, cm_Version s, cm_LastModified s))
    (fun '(a, b, c, d, e) => mkMetadata a b c d e) _); by intros [].
Defined.

Fixpoint positive_bits (p : positive) : bytes :=
  match p with xH => [] | xO p => x00 :: positive_bits p | xI p => x01 :: positive_bits p end.
Fixpoint bits_positive (l : bytes) : positive :=
  match l with [] => xH | c :: l => if bool_decide (c = x00) then xO (bits_positive l) else xI (bits_positive l) end.
Lemma bits_positive_bits p : bits_positive (positive_bits p) = p.
Proof. induction p as [p IH|p IH|]; simpl; [by rewrite IH|by rewrite IH|done]. Qed.

Definition some_marshal (s : ClusterMetadata) : bytes := positive_bits (encode s).
Definition some_unmarshal (data : bytes) : option ClusterMetadata := decode (bits_positive data).
Lemma some_codec s : exists s', some_unmarshal (some_marshal s) = Some s' /\ s' ≡ s.
Proof. exists s. unfold some_unmarshal, some_marshal. by rewrite bits_positive_bits, decode_encode. Qed.

(** A log: a broker, a topic, the topic again, a text that is no operation. *)
Definition broker7 : Meta.BrokerInfo := mkBrokerInfo 7 (text "h:9092") BrokerStatusAlive (mkResources 0 0 0 0 0 0 0) [] 0 0.
Definition some_decoder (data : bytes) : option Operation :=
  match data with
  | [x01] => Some (RegisterBrokerOp broker7)
  | [x02] => Some (CreateTopicOp (text "t") 1 1 DefaultTopicConfig)
  | _ => None
  end.

Lemma replicas_agree_witness :
  let '(es1, s1) := replay some_decoder (NewClusterMetadata 3) [(50, [x01]); (60, [x02])] in
  let '(es2, s2) := replay some_decoder (NewClusterMetadata 0) ([(5, [x01]); (6, [x02])] ++ [(7, [x02]); (8, [])]) in
  let '(err, s3) := FSM_Restore some_unmarshal (NewClusterMetadata 0) (FSM_Snapshot some_marshal s1) in
  let '(es3, s3) := replay some_decoder s3 [(70, [x02]); (80, [])] in
  err = None /\ es2 = es1 ++ es3 /\ s2 ≡ s3.
Proof.
  apply (replicas_agree some_decoder some_marshal some_unmarshal (NewClusterMetadata 3) (NewClusterMetadata 0)
    [(50, [x01]); (60, [x02])] [(70, [x02]); (80, [])] [(5, [x01]); (6, [x02])] [(7, [x02]); (8, [])]);
    [apply some_codec|reflexivity..].
Defined.

(** The times are those of each replica: asked at the same moment, one says that a broker is
    alive and another that it is not. *)
Lemma replicas_disagree_on_time :
  let s1 := (replay some_decoder (NewClusterMetadata 0) [(100, [x01])]).2 in
  let s2 := (replay some_decoder (NewClusterMetadata 0) [(500, [x01])]).2 in
  s1 ≡ s2 /\ IsAlive 550 100 <$> FSM_GetBroker s1 7 = Some false /\ IsAlive 550 100 <$> FSM_GetBroker s2 7 = Some true.
Proof. split_and!; reflexivity. Qed.

Lemma keyed_replay log : keyed (replay some_decoder (NewClusterMetadata 0) log).2.
Proof.
  pose proof (replay_state some_decoder log (NewClusterMetadata 0)) as H. destruct (replay _ _ _) as [es s].
  apply H; [by split|unfold in_u64; simpl; lia].
Qed.

Definition one_topic : ClusterMetadata := (replay some_decoder (NewClusterMetadata 0) [(5, [x01]); (6, [x02])]).2.

Lemma delete_topic_exact_witness :
  let '(err, s') := applyDeleteTopic 9 one_topic (text "t") in
  err = None
  /\ (forall topic, FSM_GetTopic s' topic = if decide (topic = text "t") then None else FSM_GetTopic one_topic topic)
  /\ (forall topic partition, FSM_GetPartition s' topic partition
        = if decide (topic = text "t") then None else FSM_GetPartition one_topic topic partition)
  /\ cm_Brokers s' = cm_Brokers one_topic.
Proof. apply (delete_topic_exact 9 one_topic (text "t")); [apply keyed_replay|by eexists]. Defined.

Definition part (n : Z) : Meta.PartitionInfo := mkPartitionInfo (text "t") n 7 [7] [7] [] 0 0 0.

Lemma batch_create_atomic_witness :
  let '(err, s') := applyBatchCreatePartitions 9 one_topic [part 0; part 1] in
  if decide (Forall (fun p => cm_Partitions one_topic !! id_of p = None) [part 0; part 1])
  then err = None
       /\ (forall p, p ∈ [part 0; part 1] -> cm_Partitions s' !! id_of p = Some (created 9 p))
       /\ (forall id, id ∉ id_of <$> [part 0; part 1] -> cm_Partitions s' !! id = cm_Partitions one_topic !! id)
  else err = Some AlreadyExists /\ s' = one_topic.
Proof. apply (batch_create_atomic 9 one_topic [part 0; part 1]). by_decide. Defined.

(** Two partitions of one batch with the same identity are not noticed: the last one wins. *)
Lemma batch_duplicate_wins :
  let p := part 0 in let q := mkPartitionInfo (text "t") 0 8 [8] [8] [] 0 0 0 in
  let '(err, s') := applyBatchCreatePartitions 9 one_topic [p; q] in
  err = None /\ FSM_GetPartition s' (text "t") 0 = Some (created 9 q).
Proof. split; reflexivity. Qed.

Lemma allocate_partitions_valid_witness : exists ps,
  AllocatePartitions ids_order one_topic (text "t") 3 1 = Some (Ok ps) /\ zlen ps = 3
  /\ forall i p, ps !! i = Some p ->
       pi_Topic p = text "t" /\ pi_Partition p = Z.of_nat i
       /\ NoDup (pi_Replicas p) /\ zlen (pi_Replicas p) = 1
       /\ (forall id, id ∈ pi_Replicas p -> is_Some (FSM_GetBroker one_topic id))
       /\ head (pi_Replicas p) = Some (pi_Leader p) /\ pi_ISR p = pi_Replicas p.
Proof.
  apply (allocate_partitions_valid ids_order one_topic (text "t") 3 1); [done|apply keyed_replay|lia|vm_compute; done].
Defined.

(** Partitions with no replica have no leader to take. *)
Lemma allocate_no_replicas_panics : AllocatePartitions ids_order one_topic (text "t") 1 0 = None.
Proof. reflexivity. Qed.

Definition one_assignment : Assignment :=
  mkAssignment {[PartitionKey (text "t") 0 := [1; -2]]} {[PartitionKey (text "t") 0 := -2]} {[1 := 1; -2 := 1]} 4.

Lemma one_assignment_storable : storable one_assignment.
Proof.
  split; simpl.
  - intros key rs [<- _]%lookup_singleton_Some. exists (text "t"), 0. split; [done|]. unfold in_i64. lia.
  - apply map_Forall_singleton. unfold in_i32. repeat constructor; lia.
  - intros key [rs [<- _]%lookup_singleton_Some]. exists (-2). rewrite lookup_singleton_eq. unfold in_i32. split; [done|lia].
Qed.

Lemma assignment_roundtrip_witness :
  let '(err, s') := apply_op 9 one_topic (BatchCreatePartitionsOp (assignment_partitions keys_order one_assignment)) in
  let b := GetPartitionAssignment keys_order s' (text "t") in
  err = None
  /\ a_Partitions b !! PartitionKey (text "t") 0 = Some [1; -2]
  /\ a_Leaders b !! PartitionKey (text "t") 0 = Some (-2).
Proof.
  apply (assignment_roundtrip keys_order 9 one_topic one_assignment (text "t") 0);
    [done|apply keyed_replay|apply one_assignment_storable|done|by eexists|unfold in_i64; lia].
Defined.

Lemma reassignment_refused_witness :
  let s := (apply_op 9 one_topic (BatchCreatePartitionsOp (assignment_partitions keys_order one_assignment))).2 in
  apply_op 10 s (BatchCreatePartitionsOp (assignment_partitions keys_order one_assignment)) = (Some AlreadyExists, s).
Proof.
  apply (reassignment_refused keys_order 10 _ one_assignment (PartitionKey (text "t") 0));
    [done|apply one_assignment_storable|by eexists|vm_compute; by eexists].
Defined.

(** ** Proposing *)

(** A method of the store hands its operation to consensus at most eleven times, and returns
    no error only when consensus took the last one. *)
Lemma propose_loop_calls retries alive answers waits : forall attempt,
  let '(err, calls) := propose_loop retries attempt alive answers waits in
  (calls <= S retries)%nat /\ (err = None -> exists k, calls = S k /\ answers (attempt + k)%nat = Accepted).
Proof.
  induction retries as [|retries IH]; intros attempt; simpl; destruct (alive attempt); simpl; try (split; [lia|done]);
    destruct (answers attempt) eqn:E; try (split; [lia|done]);
    try (split; [lia|]; intros _; exists O; by rewrite Nat.add_0_r).
  destruct (waits attempt); [|split; [lia|done]]. specialize (IH (S attempt)).
  destruct (propose_loop retries (S attempt) alive answers waits) as [e n]. destruct IH as [H1 H2]. split; [lia|].
  intros He. destruct (H2 He) as (k & -> & Hk). exists (S k). by rewrite <- Nat.add_succ_comm.
Qed.

(** That consensus took it does not mean that it was applied: a topic that exists is created
    again without an error. *)
Lemma create_existing_topic_succeeds :
  let '(err, ops) := Store_CreateTopic (fun _ => true) (fun _ => Accepted) (fun _ => true) (text "t") 1 1 DefaultTopicConfig in
  err = None /\ (apply_op 9 one_topic <$> ops) = [(Some AlreadyExists, one_topic)].
Proof. split; reflexivity. Qed.
