(* ===== verification/Consensus.v ===== *)
(** * The consensus node (pkg/consensus)

    storage.go, node.go, config.go and types.go: the storage of the log of etcd's raft in
    three files, the loop that processes what raft reports ([Ready]), and the snapshots.

    raft itself is not in the repository.  What the code relies on of it is stated where it
    is used: the encodings of its types are arguments ([Marshal] and [Unmarshal]), and after
    a [Ready] it delivers no other until [Advance] is called.

    Integers are uint64, wrapped where the code computes with them.  A write to a file is
    complete, fails before the file is created, or stops after some bytes, by an error or by
    a crash.  [None] is a panic.  A slice expression that is out of the range of a slice but
    within its capacity would not panic in Go; the model has a panic there too, which the
    theorems show does not occur while the indexes of the entries are consecutive. *)

From S2P Require Import Prelude GoBytes Record Placement Cluster Metadata.
From Stdlib Require Import ZArith Lia Strings.Byte Strings.String.
From stdpp Require Import prelude list gmap.
#[local] Notation length := Datatypes.length.
Open Scope Z_scope.

Module Consensus.

(** ** The types of raftpb *)

Inductive EntryType := EntryNormal | EntryConfChange | EntryConfChangeV2.

Record Entry := mkEntry {
  e_Term : Z;
  e_Index : Z;
  e_Type : EntryType;
  e_Data : bytes
}.

Record HardState := mkHardState {
  hs_Term : Z;
  hs_Vote : Z;
  hs_Commit : Z
}.
Definition empty_hardState : HardState := mkHardState 0 0 0.

Record ConfState := mkConfState {
  cs_Voters : list Z;
  cs_Learners : list Z;
  cs_VotersOutgoing : list Z;
  cs_LearnersNext : list Z;
  cs_AutoLeave : bool
}.
Definition empty_confState : ConfState := mkConfState [] [] [] [] false.

Record Snapshot := mkSnapshot {
  sn_Data : bytes;
  sn_ConfState : ConfState;
  sn_Index : Z;
  sn_Term : Z
}.
Definition empty_snapshot : Snapshot := mkSnapshot [] empty_confState 0 0.

Inductive ConfChangeType := ConfChangeAddNode | ConfChangeRemoveNode | ConfChangeUpdateNode | ConfChangeAddLearnerNode.
Record ConfChange := mkConfChange {
  cc_Type : ConfChangeType;
  cc_NodeID : Z;
  cc_Context : bytes
}.

(** ** Files *)

Record Dir := mkDir {
  d_hardstate : option bytes;
  d_snapshot : option bytes;
  d_entries : option bytes
}.

(** What becomes of writing a file: [StopsAfter n] leaves the first [n] bytes of the new
    contents, since both [os.Create] and [os.WriteFile] truncate the file first. *)
Inductive write := Written | CreateFails | StopsAfter (n : nat).

Definition write_file (w : write) (old : option bytes) (data : bytes) : bool * option bytes :=
  match w with
  | Written => (true, Some data)
  | CreateFails => (false, old)
  | StopsAfter n => (false, Some (take n data))
  end.

(** [binary.Write] and [binary.Read] of a little-endian uint64. *)
Definition put_u64 (z : Z) : bytes := reverse (be_enc 8 z).
Definition read_u64 (data : bytes) : option (Z * bytes) :=
  if (length data <? 8)%nat then None else Some (be_dec (reverse (take 8 data)), drop 8 data).

(** [l[lo:hi]]. *)
Definition sub_list {A} (l : list A) (lo hi : Z) : option (list A) :=
  if (0 <=? lo) && (lo <=? hi) && (hi <=? zlen l) then Some (take (Z.to_nat (hi - lo)) (drop (Z.to_nat lo) l)) else None.

(** ** The storage *)

Inductive storage_error :=
| EntriesCompacted
| EntriesOutOfRange
| EntriesOutOfOrder
| SnapshotOlder
| CompactOutOfRange
| PersistFailed
| LoadFailed.

Record DiskStorage := mkStorage {
  ds_dir : Dir;
  ds_entries : list Entry;
  ds_hardState : HardState;
  ds_confState : ConfState;
  ds_snapshot : Snapshot;
  ds_firstIndex : Z
}.

Definition with_dir (s : DiskStorage) (d : Dir) : DiskStorage :=
  mkStorage d (ds_entries s) (ds_hardState s) (ds_confState s) (ds_snapshot s) (ds_firstIndex s).
Definition with_entries (s : DiskStorage) (first : Z) (entries : list Entry) : DiskStorage :=
  mkStorage (ds_dir s) entries (ds_hardState s) (ds_confState s) (ds_snapshot s) first.
Definition with_hardState (s : DiskStorage) (h : HardState) : DiskStorage :=
  mkStorage (ds_dir s) (ds_entries s) h (ds_confState s) (ds_snapshot s) (ds_firstIndex s).
Definition with_snapshot (s : DiskStorage) (snap : Snapshot) : DiskStorage :=
  mkStorage (ds_dir s) (ds_entries s) (ds_hardState s) (sn_ConfState snap) snap (ds_firstIndex s).

Definition InitialState (s : DiskStorage) : HardState * ConfState := (ds_hardState s, ds_confState s).

Definition lastIndexLocked (s : DiskStorage) : Z :=
  match last (ds_entries s) with
  | None => wrapu 64 (ds_firstIndex s - 1)
  | Some e => e_Index e
  end.

Definition Entries (s : DiskStorage) (lo hi : Z) : option (result storage_error (list Entry)) :=
  if lo <? ds_firstIndex s then Some (Err EntriesCompacted)
  else if wrapu 64 (lastIndexLocked s + 1) <? hi then Some (Err EntriesOutOfRange)
  else match ds_entries s with
       | [] => Some (Ok [])
       | _ => Ok <$> sub_list (ds_entries s) (lo - ds_firstIndex s) (wrapu 64 (hi - ds_firstIndex s))
       end.

Definition Term (s : DiskStorage) (i : Z) : option (result storage_error Z) :=
  if i =? 0 then Some (Ok 0)
  else if i =? sn_Index (ds_snapshot s) then Some (Ok (sn_Term (ds_snapshot s)))
  else if i <? ds_firstIndex s then Some (Err EntriesCompacted)
  else if lastIndexLocked s <? i then Some (Err EntriesOutOfRange)
  else match ds_entries s with
       | [] => Some (Ok 0)
       | _ => Ok ∘ e_Term <$> ds_entries s !! Z.to_nat (i - ds_firstIndex s)
       end.

(** The generated encodings of raftpb. *)
Class RaftCodec := {
  entry_Marshal : Entry -> bytes;
  entry_Unmarshal : bytes -> option Entry;
  hardState_Marshal : HardState -> bytes;
  hardState_Unmarshal : bytes -> option HardState;
  snapshot_Marshal : Snapshot -> bytes;
  snapshot_Unmarshal : bytes -> option Snapshot;
  confChange_Unmarshal : bytes -> option ConfChange
}.

(** What they promise: to read back what they wrote. *)
Class RaftCodecLaws (codec : RaftCodec) := {
  entry_roundtrip e : entry_Unmarshal (entry_Marshal e) = Some e;
  hardState_roundtrip h : hardState_Unmarshal (hardState_Marshal h) = Some h;
  snapshot_roundtrip sp : snapshot_Unmarshal (snapshot_Marshal sp) = Some sp
}.

Section marshal.
Context `{!RaftCodec}.
(** The largest size [make] accepts, in bytes, and the size of an [Entry] in memory. *)
Context (max_alloc sizeof_Entry : Z).

(** *** Writing *)

Definition persistHardState (w : write) (s : DiskStorage) : option storage_error * DiskStorage :=
  let '(ok, f) := write_file w (d_hardstate (ds_dir s)) (hardState_Marshal (ds_hardState s)) in
  (if ok then None else Some PersistFailed, with_dir s (mkDir f (d_snapshot (ds_dir s)) (d_entries (ds_dir s)))).

Definition SaveState (w : write) (s : DiskStorage) (st : HardState) : option storage_error * DiskStorage :=
  persistHardState w (with_hardState s st).

Definition persistSnapshot (w : write) (s : DiskStorage) : option storage_error * DiskStorage :=
  let '(ok, f) := write_file w (d_snapshot (ds_dir s)) (snapshot_Marshal (ds_snapshot s)) in
  (if ok then None else Some PersistFailed, with_dir s (mkDir (d_hardstate (ds_dir s)) f (d_entries (ds_dir s)))).

(** The text of the file of entries. *)
Definition entry_record (e : Entry) : bytes := put_u64 (zlen (entry_Marshal e)) ++ entry_Marshal e.
Definition entries_file (first : Z) (entries : list Entry) : bytes :=
  put_u64 first ++ put_u64 (zlen entries) ++ concat (entry_record <$> entries).

Definition persistEntries (w : write) (s : DiskStorage) : option storage_error * DiskStorage :=
  let '(ok, f) := write_file w (d_entries (ds_dir s)) (entries_file (ds_firstIndex s) (ds_entries s)) in
  (if ok then None else Some PersistFailed, with_dir s (mkDir (d_hardstate (ds_dir s)) (d_snapshot (ds_dir s)) f)).

Definition SaveEntries (w : write) (s : DiskStorage) (entries : list Entry) : option (option storage_error * DiskStorage) :=
  match entries with
  | [] => Some (None, s)
  | e :: _ =>
      let firstNewEntry := e_Index e in
      let lastIndex := lastIndexLocked s in
      if wrapu 64 (lastIndex + 1) <? firstNewEntry then Some (Some EntriesOutOfOrder, s)
      else
        kept ← (if firstNewEntry <=? lastIndex
                then sub_list (ds_entries s) 0 (wrapu 64 (firstNewEntry - ds_firstIndex s))
                else Some (ds_entries s));
        Some (persistEntries w (with_entries s (ds_firstIndex s) (kept ++ entries)))
  end.

Definition SaveSnapshot (w : write) (s : DiskStorage) (snap : Snapshot) : option storage_error * DiskStorage :=
  if sn_Index snap <=? sn_Index (ds_snapshot s) then (Some SnapshotOlder, s)
  else
    let s := with_snapshot s snap in
    let s := if ds_firstIndex s <=? sn_Index snap
             then let compactIndex := wrapu 64 (sn_Index snap - ds_firstIndex s + 1) in
                  with_entries s (wrapu 64 (sn_Index snap + 1))
                    (if compactIndex <? zlen (ds_entries s) then drop (Z.to_nat compactIndex) (ds_entries s) else [])
             else s in
    persistSnapshot w s.

Definition Compact (w : write) (s : DiskStorage) (compactIndex : Z) : option (option storage_error * DiskStorage) :=
  if compactIndex <? ds_firstIndex s then Some (Some CompactOutOfRange, s)
  else if lastIndexLocked s <? compactIndex then Some (Some CompactOutOfRange, s)
  else
    kept ← sub_list (ds_entries s) (compactIndex - ds_firstIndex s) (zlen (ds_entries s));
    Some (persistEntries w (with_entries s compactIndex kept)).

(** *** Loading *)

(** [f.Read(data)] of a regular file: nothing at its end is an error, a short read is not,
    and what is not read stays zero. *)
Definition read_data (size : Z) (data : bytes) : option (bytes * bytes) :=
  if size =? 0 then Some ([], data)
  else match data with
       | [] => None
       | _ => let n := Z.to_nat size in Some (take n data ++ replicate (n - length data) x00, drop n data)
       end.

(** The loop of [loadEntries]; an iteration reads eight bytes or ends it, so the length of
    the file is fuel enough.  The first option is a panic. *)
Fixpoint load_loop (fuel : nat) (n : Z) (data : bytes) (acc : list Entry) : option (result storage_error (list Entry)) :=
  if n <=? 0 then Some (Ok acc)
  else match fuel with
       | O => Some (Err LoadFailed)
       | S fuel =>
           match read_u64 data with
           | None => Some (Err LoadFailed)
           | Some (size, data) =>
               if max_alloc <? size then None
               else match read_data size data with
                    | None => Some (Err LoadFailed)
                    | Some (d, data) =>
                        match entry_Unmarshal d with
                        | None => Some (Err LoadFailed)
                        | Some e => load_loop fuel (n - 1) data (acc ++ [e])
                        end
                    end
           end
       end.

Definition loadEntries (s : DiskStorage) : option (result storage_error DiskStorage) :=
  match d_entries (ds_dir s) with
  | None => Some (Ok s)
  | Some data =>
      match read_u64 data with
      | None => Some (Err LoadFailed)
      | Some (firstIndex, data) =>
          match read_u64 data with
          | None => Some (Err LoadFailed)
          | Some (numEntries, data) =>
              if max_alloc <? sizeof_Entry * numEntries then None
              else r ← load_loop (length data) numEntries data [];
                   Some match r with Ok entries => Ok (with_entries s firstIndex entries) | Err e => Err e end
          end
      end
  end.

Definition loadHardState (s : DiskStorage) : result storage_error DiskStorage :=
  match d_hardstate (ds_dir s) with
  | None => Ok s
  | Some data => match hardState_Unmarshal data with None => Err LoadFailed | Some hs => Ok (with_hardState s hs) end
  end.

Definition loadSnapshot (s : DiskStorage) : result storage_error DiskStorage :=
  match d_snapshot (ds_dir s) with
  | None => Ok s
  | Some data =>
      match snapshot_Unmarshal data with
      | None => Err LoadFailed
      | Some snap =>
          let s := with_snapshot s snap in
          Ok (if 0 <? sn_Index snap then with_entries s (wrapu 64 (sn_Index snap + 1)) (ds_entries s) else s)
      end
  end.

Definition load (s : DiskStorage) : option (result storage_error DiskStorage) :=
  match loadHardState s with
  | Err e => Some (Err e)
  | Ok s => match loadSnapshot s with Err e => Some (Err e) | Ok s => loadEntries s end
  end.

Definition fresh_storage (d : Dir) : DiskStorage := mkStorage d [] empty_hardState empty_confState empty_snapshot 1.
Definition NewDiskStorage (d : Dir) : option (result storage_error DiskStorage) := load (fresh_storage d).

(** *** The adapter that raft reads through *)

(** The loop over the sizes: the entry that exceeds the limit and those after it are left
    out. *)
Fixpoint limit_size (entry_Size : Entry -> Z) (maxSize size : Z) (entries : list Entry) : list Entry :=
  match entries with
  | [] => []
  | e :: entries' =>
      let size := wrapu 64 (size + entry_Size e) in
      if maxSize <? size then [] else e :: limit_size entry_Size maxSize size entries'
  end.

Definition adapter_Entries (entry_Size : Entry -> Z) (s : DiskStorage) (lo hi maxSize : Z) : option (result storage_error (list Entry)) :=
  r ← Entries s lo hi;
  Some match r with
       | Err e => Err e
       | Ok entries => Ok (if 0 <? maxSize then limit_size entry_Size maxSize 0 entries else entries)
       end.
End marshal.

(** ** Configuration *)

Record Peer := mkPeer { pe_ID : Z; pe_Addr : bytes }.

Record Config := mkConfig {
  cf_NodeID : Z;
  cf_Peers : list Peer;
  cf_DataDir : bytes;
  cf_TickInterval : Z;
  cf_ElectionTick : Z;
  cf_HeartbeatTick : Z;
  cf_MaxSizePerMsg : Z;
  cf_MaxInflightMsgs : Z;
  cf_SnapshotInterval : Z;
  cf_SnapshotCatchUpEntries : Z
}.

Inductive config_error :=
| NoNodeID | NoDataDir | BadTickInterval | BadElectionTick | BadHeartbeatTick | NoMaxSizePerMsg | NoMaxInflightMsgs
| NoSnapshotInterval | NoSnapshotCatchUpEntries | BadPeer.

(** [cfg.Validate()]; [None] is no error. *)
Definition Config_Validate (c : Config) : option config_error :=
  if cf_NodeID c =? 0 then Some NoNodeID
  else if bool_decide (cf_DataDir c = []) then Some NoDataDir
  else if cf_TickInterval c <=? 0 then Some BadTickInterval
  else if cf_ElectionTick c <=? cf_HeartbeatTick c then Some BadElectionTick
  else if cf_HeartbeatTick c <=? 0 then Some BadHeartbeatTick
  else if cf_MaxSizePerMsg c =? 0 then Some NoMaxSizePerMsg
  else if cf_MaxInflightMsgs c =? 0 then Some NoMaxInflightMsgs
  else if cf_SnapshotInterval c =? 0 then Some NoSnapshotInterval
  else if cf_SnapshotCatchUpEntries c =? 0 then Some NoSnapshotCatchUpEntries
  else if existsb (fun p => (pe_ID p =? 0) || bool_decide (pe_Addr p = [])) (cf_Peers c) then Some BadPeer
  else None.

(** ** The node *)

(** The interface [StateMachine]; [false] is an error.  Applying an entry is a function of the state
    and the entry; the metadata state machine also reads its clock, which MetadataSpec.v follows
    (its replicas agree up to the times they record). *)
Class StateMachine (SM : Type) := {
  sm_Apply : SM -> bytes -> bool * SM;
  sm_Snapshot : SM -> option bytes;
  sm_Restore : SM -> bytes -> bool * SM
}.

Record SoftState := mkSoftState { ss_Lead : Z; ss_RaftState : Z }.
Definition StateFollower : Z := 0.
Definition StateCandidate : Z := 1.
Definition StateLeader : Z := 2.

(** What raft reports; messages go to the transport and are not modelled. *)
Record Ready := mkReady {
  rd_SoftState : option SoftState;
  rd_HardState : HardState;
  rd_Entries : list Entry;
  rd_Snapshot : Snapshot;
  rd_CommittedEntries : list Entry;
  rd_MustSync : bool
}.

Definition IsEmptyHardState (h : HardState) : bool := (hs_Term h =? 0) && (hs_Vote h =? 0) && (hs_Commit h =? 0).
Definition IsEmptySnap (sp : Snapshot) : bool := sn_Index sp =? 0.

Inductive node_error :=
| SaveStateFailed
| SaveEntriesFailed
| ApplySnapshotFailed
| ApplyEntriesFailed
| CreateSnapshotFailed.

(** Where the goroutine [run] is: waiting for a [Ready]; waiting after it went on with the
    loop without calling [Advance]; blocked on [errorCh] (or stopping); dead by a panic. *)
Inductive phase := Waiting | Unadvanced | Blocked (e : node_error) | Panicked.

Record RaftNode (SM : Type) := mkNode {
  rn_config : Config;
  rn_storage : DiskStorage;
  rn_stateMachine : option SM;
  rn_peers : gmap Z bytes;
  rn_errorCh : list node_error;
  rn_readyCh : list Ready;
  rn_appliedIndex : Z;
  rn_snapshotIndex : Z;
  rn_lead : Z;
  rn_raftState : Z
}.
Arguments mkNode {SM}.
Arguments rn_config {SM}.
Arguments rn_storage {SM}.
Arguments rn_stateMachine {SM}.
Arguments rn_peers {SM}.
Arguments rn_errorCh {SM}.
Arguments rn_readyCh {SM}.
Arguments rn_appliedIndex {SM}.
Arguments rn_snapshotIndex {SM}.
Arguments rn_lead {SM}.
Arguments rn_raftState {SM}.

Section node.
Context `{!RaftCodec} {SM : Type} `{!StateMachine SM}.
Implicit Types n : RaftNode SM.

Definition set_storage n (s : DiskStorage) : RaftNode SM :=
  mkNode (rn_config n) s (rn_stateMachine n) (rn_peers n) (rn_errorCh n) (rn_readyCh n) (rn_appliedIndex n)
    (rn_snapshotIndex n) (rn_lead n) (rn_raftState n).
Definition set_stateMachine n (sm : option SM) : RaftNode SM :=
  mkNode (rn_config n) (rn_storage n) sm (rn_peers n) (rn_errorCh n) (rn_readyCh n) (rn_appliedIndex n)
    (rn_snapshotIndex n) (rn_lead n) (rn_raftState n).
Definition set_peers n (peers : gmap Z bytes) : RaftNode SM :=
  mkNode (rn_config n) (rn_storage n) (rn_stateMachine n) peers (rn_errorCh n) (rn_readyCh n) (rn_appliedIndex n)
    (rn_snapshotIndex n) (rn_lead n) (rn_raftState n).
Definition set_errorCh n (ch : list node_error) : RaftNode SM :=
  mkNode (rn_config n) (rn_storage n) (rn_stateMachine n) (rn_peers n) ch (rn_readyCh n) (rn_appliedIndex n)
    (rn_snapshotIndex n) (rn_lead n) (rn_raftState n).
Definition set_readyCh n (ch : list Ready) : RaftNode SM :=
  mkNode (rn_config n) (rn_storage n) (rn_stateMachine n) (rn_peers n) (rn_errorCh n) ch (rn_appliedIndex n)
    (rn_snapshotIndex n) (rn_lead n) (rn_raftState n).
Definition set_applied n (i : Z) : RaftNode SM :=
  mkNode (rn_config n) (rn_storage n) (rn_stateMachine n) (rn_peers n) (rn_errorCh n) (rn_readyCh n) i
    (rn_snapshotIndex n) (rn_lead n) (rn_raftState n).
Definition set_snapshotIndex n (i : Z) : RaftNode SM :=
  mkNode (rn_config n) (rn_storage n) (rn_stateMachine n) (rn_peers n) (rn_errorCh n) (rn_readyCh n) (rn_appliedIndex n)
    i (rn_lead n) (rn_raftState n).

(** The peers of the transport: a peer that exists is kept with its address. *)
Definition AddPeer (peers : gmap Z bytes) (nodeID : Z) (addr : bytes) : gmap Z bytes :=
  match peers !! nodeID with Some _ => peers | None => <[nodeID := addr]> peers end.
Definition RemovePeer (peers : gmap Z bytes) (nodeID : Z) : gmap Z bytes := delete nodeID peers.

Definition NewNode (config : Config) (storage : DiskStorage) (sm : option SM) : result config_error (RaftNode SM) :=
  match Config_Validate config with
  | Some e => Err e
  | None =>
      let peers := fold_left (fun ps p => if pe_ID p =? cf_NodeID config then ps else AddPeer ps (pe_ID p) (pe_Addr p)) (cf_Peers config) ∅ in
      Ok (mkNode config storage sm peers [] [] 0 0 0 StateFollower)
  end.

Definition IsLeader n : bool := rn_raftState n =? StateLeader.

Definition updateSoftState n (ss : SoftState) : RaftNode SM :=
  mkNode (rn_config n) (rn_storage n) (rn_stateMachine n) (rn_peers n) (rn_errorCh n) (rn_readyCh n) (rn_appliedIndex n)
    (rn_snapshotIndex n) (ss_Lead ss) (ss_RaftState ss).

(** One iteration of [applyCommittedEntries]; the boolean is whether it goes on. *)
Definition applyEntry n (entry : Entry) : bool * RaftNode SM :=
  if e_Index entry <=? rn_appliedIndex n then (true, n)
  else
    let '(ok, n) :=
      match e_Type entry with
      | EntryNormal =>
          match rn_stateMachine n with
          | Some sm => match e_Data entry with
                       | [] => (true, n)
                       | _ => let '(ok, sm) := sm_Apply sm (e_Data entry) in (ok, set_stateMachine n (Some sm))
                       end
          | None => (true, n)
          end
      | EntryConfChange =>
          match confChange_Unmarshal (e_Data entry) with
          | None => (false, n)
          | Some cc =>
              (true, match cc_Type cc with
                     | ConfChangeAddNode => set_peers n (AddPeer (rn_peers n) (cc_NodeID cc) (cc_Context cc))
                     | ConfChangeRemoveNode => set_peers n (RemovePeer (rn_peers n) (cc_NodeID cc))
                     | _ => n
                     end)
          end
      | EntryConfChangeV2 => (true, n)
      end in
    if ok then (true, set_applied n (e_Index entry)) else (false, n).

Fixpoint applyCommittedEntries n (entries : list Entry) : bool * RaftNode SM :=
  match entries with
  | [] => (true, n)
  | e :: entries =>
      let '(ok, n) := applyEntry n e in
      if ok then applyCommittedEntries n entries else (false, n)
  end.

(** The writes of one round: of the hard state, the entries, the received snapshot, the
    created snapshot and the compacted entries. *)
Record writes := mkWrites { w_state : write; w_entries : write; w_snap : write; w_created : write; w_compacted : write }.

Definition applySnapshot (w : write) n (snap : Snapshot) : bool * RaftNode SM :=
  let '(err, s) := SaveSnapshot w (rn_storage n) snap in
  let n := set_storage n s in
  match err with
  | Some _ => (false, n)
  | None =>
      let '(ok, n) := match rn_stateMachine n with
                      | None => (true, n)
                      | Some sm => let '(ok, sm) := sm_Restore sm (sn_Data snap) in (ok, set_stateMachine n (Some sm))
                      end in
      if ok then (true, set_snapshotIndex (set_applied n (sn_Index snap)) (sn_Index snap)) else (false, n)
  end.

Definition shouldSnapshot n : bool :=
  if cf_SnapshotInterval (rn_config n) =? 0 then false
  else cf_SnapshotInterval (rn_config n) <=? wrapu 64 (rn_appliedIndex n - rn_snapshotIndex n).

(** [None] is a panic of [Compact]. *)
Definition createSnapshot (w1 w2 : write) n : option (bool * RaftNode SM) :=
  match rn_stateMachine n with
  | None => Some (true, n)
  | Some sm =>
      match sm_Snapshot sm with
      | None => Some (false, n)
      | Some data =>
          let '(_, confState) := InitialState (rn_storage n) in
          let snap := mkSnapshot data confState (rn_appliedIndex n) 0 in
          let '(err, s) := SaveSnapshot w1 (rn_storage n) snap in
          let n := set_storage n s in
          match err with
          | Some _ => Some (false, n)
          | None =>
              let compactIndex := if cf_SnapshotCatchUpEntries (rn_config n) <? rn_appliedIndex n
                                  then rn_appliedIndex n - cf_SnapshotCatchUpEntries (rn_config n) else rn_appliedIndex n in
              '(err, s) ← Compact w2 (rn_storage n) compactIndex;
              let n := set_storage n s in
              Some match err with Some _ => (false, n) | None => (true, set_snapshotIndex n (rn_appliedIndex n)) end
          end
      end
  end.

(** [errorCh] holds one error and nothing receives from it: a second one blocks until the
    node is stopped. *)
Definition sendError n (e : node_error) (next : phase) : phase * RaftNode SM :=
  match rn_errorCh n with
  | [] => (next, set_errorCh n [e])
  | _ => (Blocked e, n)
  end.

(** The end of a round: the channel of 16 reports that nobody need read, and [Advance]. *)
Definition finish_round n (rd : Ready) : phase * RaftNode SM :=
  (Waiting, if (length (rn_readyCh n) <? 16)%nat then set_readyCh n (rn_readyCh n ++ [rd]) else n).

Definition snapshot_round (w : writes) n (rd : Ready) : phase * RaftNode SM :=
  if shouldSnapshot n then
    match createSnapshot (w_created w) (w_compacted w) n with
    | None => (Panicked, n)
    | Some (true, n) => finish_round n rd
    | Some (false, n) =>
        match sendError n CreateSnapshotFailed Waiting with
        | (Waiting, n) => finish_round n rd
        | blocked => blocked
        end
    end
  else finish_round n rd.

Definition apply_round (w : writes) n (rd : Ready) : phase * RaftNode SM :=
  let '(ok, n) := applyCommittedEntries n (rd_CommittedEntries rd) in
  if ok then snapshot_round w n rd else sendError n ApplyEntriesFailed Unadvanced.

Definition restore_round (w : writes) n (rd : Ready) : phase * RaftNode SM :=
  if IsEmptySnap (rd_Snapshot rd) then apply_round w n rd
  else let '(ok, n) := applySnapshot (w_snap w) n (rd_Snapshot rd) in
       if ok then apply_round w n rd else sendError n ApplySnapshotFailed Unadvanced.

Definition entries_round (w : writes) n (rd : Ready) : phase * RaftNode SM :=
  match rd_Entries rd with
  | [] => restore_round w n rd
  | _ => match SaveEntries (w_entries w) (rn_storage n) (rd_Entries rd) with
         | None => (Panicked, n)
         | Some (Some _, s) => sendError (set_storage n s) SaveEntriesFailed Unadvanced
         | Some (None, s) => restore_round w (set_storage n s) rd
         end
  end.

(** One round of [run], from the receipt of a [Ready]. *)
Definition handle_ready (w : writes) n (rd : Ready) : phase * RaftNode SM :=
  let n := match rd_SoftState rd with Some ss => updateSoftState n ss | None => n end in
  if IsEmptyHardState (rd_HardState rd) then entries_round w n rd
  else let '(err, s) := SaveState (w_state w) (rn_storage n) (rd_HardState rd) in
       let n := set_storage n s in
       match err with
       | Some _ => sendError n SaveStateFailed Unadvanced
       | None => entries_round w n rd
       end.

(** The steps of the goroutine: raft offers a [Ready] only to a node that waits, that is,
    one that has called [Advance] for the previous one. *)
Inductive run_step : phase * RaftNode SM -> phase * RaftNode SM -> Prop :=
| run_ready w n rd : run_step (Waiting, n) (handle_ready w n rd).
End node.

(** The metadata state machine is the state machine of a node. *)
#[export] Instance FSM_StateMachine (now : Z) (DecodeOperation : bytes -> option Meta.Operation)
    (marshal : Meta.ClusterMetadata -> bytes) (unmarshal : bytes -> option Meta.ClusterMetadata) : StateMachine Meta.ClusterMetadata := {
  sm_Apply s data := let '(e, s) := Meta.Apply DecodeOperation now s data in (match e with None => true | Some _ => false end, s);
  sm_Snapshot s := Some (Meta.FSM_Snapshot marshal s);
  sm_Restore s data := let '(e, s) := Meta.FSM_Restore unmarshal s data in (match e with None => true | Some _ => false end, s)
}.
End Consensus.
