(* ===== verification/ConsensusSpec.v ===== *)
(** * What the consensus node guarantees

    The storage keeps a log of consecutive indexes, from which new entries replace all that
    follow their first index; what it wrote is what it loads.  The node applies the committed
    entries in order, each once.  The theorems also say where it stops: at an entry that the
    state machine refuses, and at its second attempt to make a snapshot, which never
    succeeds. *)

From S2P Require Import Prelude GoBytes Record Placement PlacementSpec Cluster Metadata MetadataSpec Consensus.
From Stdlib Require Import ZArith Lia Strings.Byte Strings.String.
From stdpp Require Import prelude list gmap.
#[local] Notation length := Datatypes.length.
Open Scope Z_scope.
Import Consensus.

(** ** The log in memory *)

(** Entries with consecutive indexes from [first] on. *)
Definition consecutive (first : Z) (entries : list Entry) : Prop :=
  forall k e, entries !! k = Some e -> e_Index e = first + Z.of_nat k.

Record wf (s : DiskStorage) : Prop := {
  wf_first : 1 <= ds_firstIndex s;
  wf_bound : ds_firstIndex s + zlen (ds_entries s) < 2 ^ 64;
  wf_entries : consecutive (ds_firstIndex s) (ds_entries s);
  wf_snapshot : 0 <= sn_Index (ds_snapshot s) < ds_firstIndex s
}.

(** The log as a function of the index. *)
Definition entry_at (s : DiskStorage) (i : Z) : option Entry :=
  if i <? ds_firstIndex s then None else ds_entries s !! Z.to_nat (i - ds_firstIndex s).

Definition last_of (s : DiskStorage) : Z := ds_firstIndex s + zlen (ds_entries s) - 1.

Lemma consecutive_app first l1 l2 : consecutive first l1 -> consecutive (first + zlen l1) l2 -> consecutive first (l1 ++ l2).
Proof.
  intros H1 H2 k e [Hk|[Hlen Hk]]%lookup_app_Some; [by apply H1|]. rewrite (H2 _ _ Hk). lia.
Qed.

Lemma consecutive_take first l n : consecutive first l -> consecutive first (take n l).
Proof. intros H k e [Hk _]%lookup_take_Some. by apply H. Qed.

Lemma consecutive_drop first l n : consecutive first l -> consecutive (first + Z.of_nat n) (drop n l).
Proof. intros H k e Hk. rewrite lookup_drop in Hk. rewrite (H _ _ Hk). lia. Qed.

Lemma wrapu_64_small z : 0 <= z < 2 ^ 64 -> wrapu 64 z = z.
Proof. intros H. by apply Z.mod_small. Qed.

Lemma lastIndex_wf s : wf s -> lastIndexLocked s = last_of s.
Proof.
  intros [Hf Hb He _]. unfold lastIndexLocked, last_of. destruct (last (ds_entries s)) as [e|] eqn:E.
  - rewrite last_lookup in E. rewrite (He _ _ E). apply lookup_lt_Some in E. lia.
  - apply last_None in E. rewrite E in *. simpl in *. rewrite wrapu_64_small; lia.
Qed.

Lemma sub_list_Some {A} (l : list A) lo hi : 0 <= lo <= hi -> hi <= zlen l ->
  sub_list l lo hi = Some (take (Z.to_nat (hi - lo)) (drop (Z.to_nat lo) l)).
Proof.
  intros H1 H2. unfold sub_list. by rewrite (proj2 (Z.leb_le 0 lo)), (proj2 (Z.leb_le lo hi)), (proj2 (Z.leb_le hi (zlen l))) by lia.
Qed.

Lemma ltb_false a b : b <= a -> (a <? b) = false.
Proof. apply Z.ltb_ge. Qed.
Lemma ltb_true a b : a < b -> (a <? b) = true.
Proof. apply Z.ltb_lt. Qed.

(** Reading: the entries and terms from the first index to the last are those of the log. *)
Lemma Entries_spec s lo hi : wf s -> ds_firstIndex s <= lo <= hi -> hi <= last_of s + 1 ->
  exists l, Entries s lo hi = Some (Ok l) /\ zlen l = hi - lo
    /\ forall i, lo <= i < hi -> l !! Z.to_nat (i - lo) = entry_at s i.
Proof.
  intros Hwf Hlo Hhi. pose proof (lastIndex_wf s Hwf) as Hl. destruct Hwf as [Hf Hb He _]. unfold last_of in *.
  unfold Entries. rewrite Hl, wrapu_64_small, !ltb_false by lia. destruct (ds_entries s) as [|e0 es] eqn:E.
  - simpl in *. exists []. split; [done|]. split; [simpl; lia|]. intros. lia.
  - rewrite <- E in *. rewrite wrapu_64_small by lia. rewrite sub_list_Some by lia. eexists. split; [done|]. split.
    + rewrite length_take, length_drop. lia.
    + intros i Hi. rewrite lookup_take_lt, lookup_drop by lia. unfold entry_at. rewrite ltb_false by lia. f_equal. lia.
Qed.

Lemma Term_spec s i : wf s -> ds_firstIndex s <= i <= last_of s ->
  exists e, entry_at s i = Some e /\ Term s i = Some (Ok (e_Term e)).
Proof.
  intros Hwf Hi. pose proof (lastIndex_wf s Hwf) as Hl. destruct Hwf as [Hf Hb He Hs]. unfold last_of in *.
  destruct (lookup_lt_is_Some_2 (ds_entries s) (Z.to_nat (i - ds_firstIndex s))) as [e Hx]; [lia|]. exists e.
  unfold entry_at, Term. rewrite Hl, !ltb_false by lia. rewrite (proj2 (Z.eqb_neq i 0)), (proj2 (Z.eqb_neq i _)) by lia.
  split; [done|]. destruct (ds_entries s) as [|e0 es]; [done|]. by rewrite Hx.
Qed.

(** Outside that range they are errors. *)
Lemma Entries_errors s lo hi : wf s -> 0 <= hi < 2 ^ 64 ->
  (lo < ds_firstIndex s -> Entries s lo hi = Some (Err EntriesCompacted))
  /\ (ds_firstIndex s <= lo -> last_of s + 1 < hi -> Entries s lo hi = Some (Err EntriesOutOfRange)).
Proof.
  intros Hwf Hhi. pose proof (lastIndex_wf s Hwf) as Hl. destruct Hwf as [Hf Hb He _]. unfold last_of in *. unfold Entries. split.
  - intros Hlo. by rewrite ltb_true.
  - intros Hlo Hh. rewrite Hl, ltb_false, wrapu_64_small, ltb_true by lia. done.
Qed.

Section storage.
Context `{!RaftCodec}.

(** The outcome of a write as the caller sees it. *)
Definition write_error (w : write) : option storage_error := match w with Written => None | _ => Some PersistFailed end.

Lemma persistEntries_mem w s : exists d, persistEntries w s = (write_error w, with_dir s d).
Proof. unfold persistEntries. destruct w; simpl; eauto. Qed.
Lemma persistSnapshot_mem w s : exists d, persistSnapshot w s = (write_error w, with_dir s d).
Proof. unfold persistSnapshot. destruct w; simpl; eauto. Qed.

Lemma with_dir_same s d : wf (with_dir s d) <-> wf s.
Proof. by split; intros []; split. Qed.

(** What is kept of the old entries. *)
Lemma SaveEntries_kept w s e es : wf s -> ds_firstIndex s <= e_Index e <= last_of s + 1 ->
  exists d, SaveEntries w s (e :: es)
    = Some (write_error w, with_dir (with_entries s (ds_firstIndex s) (take (Z.to_nat (e_Index e - ds_firstIndex s)) (ds_entries s) ++ e :: es)) d).
Proof.
  intros Hwf Hi. pose proof (lastIndex_wf s Hwf) as Hl. destruct Hwf as [Hf Hb He Hs]. unfold last_of in *.
  unfold SaveEntries. rewrite Hl, wrapu_64_small, ltb_false by lia.
  destruct (Z.leb_spec (e_Index e) (ds_firstIndex s + zlen (ds_entries s) - 1)).
  - rewrite wrapu_64_small by lia. rewrite sub_list_Some by lia. simpl. rewrite drop_0, Z.sub_0_r.
    destruct (persistEntries_mem w (with_entries s (ds_firstIndex s) (take (Z.to_nat (e_Index e - ds_firstIndex s)) (ds_entries s) ++ e :: es))) as [d ->].
    by exists d.
  - simpl. rewrite take_ge by lia. destruct (persistEntries_mem w (with_entries s (ds_firstIndex s) (ds_entries s ++ e :: es))) as [d ->]. by exists d.
Qed.
End storage.

(** The storage implements a log.  New entries with consecutive indexes, that start
    within the log or right after it, are saved: they replace every entry from their first
    index on and leave the entries before it; the indexes of the log stay consecutive, and
    reading it back, by [Entries] or by [Term], gives exactly the new log.  The error is that
    of the write to disk. *)
Theorem save_entries_replaces `{!RaftCodec} w s e es :
  wf s -> consecutive (e_Index e) (e :: es) -> ds_firstIndex s <= e_Index e <= last_of s + 1 ->
  e_Index e + zlen (e :: es) < 2 ^ 64 ->
  exists s', SaveEntries w s (e :: es) = Some (write_error w, s') /\ wf s'
    /\ ds_firstIndex s' = ds_firstIndex s /\ last_of s' = e_Index e + zlen es
    /\ (forall i, entry_at s' i = if i <? e_Index e then entry_at s i else (e :: es) !! Z.to_nat (i - e_Index e))
    /\ (forall i, ds_firstIndex s <= i <= last_of s' -> exists x, entry_at s' i = Some x /\ Term s' i = Some (Ok (e_Term x)))
    /\ exists l, Entries s' (ds_firstIndex s) (last_of s' + 1) = Some (Ok l)
         /\ forall i, ds_firstIndex s <= i <= last_of s' -> l !! Z.to_nat (i - ds_firstIndex s) = entry_at s' i.
Proof.
  intros Hwf Hc Hi Hb. destruct (SaveEntries_kept w s e es Hwf Hi) as [d Hd]. set (s' := with_dir _ d) in Hd. exists s'.
  pose proof Hwf as [Hf Hbs He Hs]. unfold last_of in Hi.
  set (k := Z.to_nat (e_Index e - ds_firstIndex s)) in *.
  assert (length (take k (ds_entries s)) = k) as Hk by (rewrite length_take; lia).
  assert (ds_firstIndex s' = ds_firstIndex s) as Hf' by done.
  assert (last_of s' = e_Index e + zlen es) as Hl' by (unfold last_of; simpl; rewrite length_app, Hk; simpl; lia).
  assert (wf s') as Hwf'.
  { split; simpl; try done; [rewrite length_app, Hk; simpl in *; lia|]. apply consecutive_app; [by apply consecutive_take|].
    rewrite Hk. by replace (ds_firstIndex s + Z.of_nat k) with (e_Index e) by lia. }
  split_and!; try done.
  - intros i. unfold entry_at. rewrite Hf'. simpl. destruct (Z.ltb_spec i (ds_firstIndex s)); [by rewrite ltb_true by lia|].
    destruct (Z.ltb_spec i (e_Index e)).
    + rewrite lookup_app_l, lookup_take_lt by lia. done.
    + rewrite lookup_app_r by lia. rewrite Hk. f_equal. lia.
  - intros i Hx. apply Term_spec; [done|by rewrite Hf'].
  - destruct (Entries_spec s' (ds_firstIndex s') (last_of s' + 1)) as (l & Hl & _ & Hx); [done|simpl in *; lia|lia|].
    exists l. rewrite <- Hf'. split; [done|]. intros i Hi'. apply Hx. lia.
Qed.

Section storage_more.
Context `{!RaftCodec}.

(** A newer snapshot drops the entries it covers and keeps those after it. *)
Lemma SaveSnapshot_spec w s snap : wf s -> sn_Index (ds_snapshot s) < sn_Index snap -> sn_Index snap + 1 + zlen (ds_entries s) < 2 ^ 64 ->
  exists s', SaveSnapshot w s snap = (write_error w, s') /\ wf s' /\ ds_snapshot s' = snap
    /\ ds_firstIndex s' = Z.max (ds_firstIndex s) (sn_Index snap + 1)
    /\ last_of s' = Z.max (last_of s) (sn_Index snap)
    /\ forall i, sn_Index snap < i -> entry_at s' i = entry_at s i.
Proof.
  intros [Hf Hb He Hs] Hn Hx. unfold SaveSnapshot. rewrite (proj2 (Z.leb_gt _ _)) by lia. cbv zeta. cbn [ds_firstIndex with_snapshot ds_entries].
  destruct (Z.leb_spec (ds_firstIndex s) (sn_Index snap)) as [Hle|Hlt].
  - rewrite !wrapu_64_small by lia. set (es := if _ <? _ then _ else _).
    assert (es = drop (Z.to_nat (sn_Index snap - ds_firstIndex s + 1)) (ds_entries s)) as Hes.
    { unfold es. destruct (Z.ltb_spec (sn_Index snap - ds_firstIndex s + 1) (zlen (ds_entries s))); [done|]. by rewrite drop_ge by lia. }
    rewrite Hes. clear es Hes. set (k := Z.to_nat _).
    destruct (persistSnapshot_mem w (with_entries (with_snapshot s snap) (sn_Index snap + 1) (drop k (ds_entries s)))) as [d ->].
    eexists. split; [done|]. split_and!; simpl; try done.
    + split; simpl; [lia|rewrite length_drop; lia| |lia].
      replace (sn_Index snap + 1) with (ds_firstIndex s + Z.of_nat k) by lia. by apply consecutive_drop.
    + lia.
    + unfold last_of. simpl. rewrite length_drop. lia.
    + intros i Hi. unfold entry_at. simpl. rewrite !ltb_false by lia. rewrite lookup_drop. f_equal. lia.
  - destruct (persistSnapshot_mem w (with_snapshot s snap)) as [d ->]. eexists. split; [done|]. split_and!; simpl; try done.
    + split; simpl; try done. lia.
    + lia.
    + unfold last_of. simpl. lia.
Qed.

(** ** The file of entries *)

Lemma put_u64_length z : length (put_u64 z) = 8%nat.
Proof. unfold put_u64. by rewrite length_reverse, be_enc_length. Qed.

Lemma read_put_u64 z rest : 0 <= z < 2 ^ 64 -> read_u64 (put_u64 z ++ rest) = Some (z, rest).
Proof.
  intros Hz. unfold read_u64. rewrite (proj2 (Nat.ltb_ge _ _)) by (rewrite length_app, put_u64_length; lia).
  rewrite take_app_length', drop_app_length' by (symmetry; apply put_u64_length). unfold put_u64. rewrite reverse_involutive, be_dec_enc.
  f_equal. f_equal. by apply Z.mod_small.
Qed.

Context (max_alloc sizeof_Entry : Z) `{!RaftCodecLaws _}.

(** The entries fit in memory. *)
Definition small (entries : list Entry) : Prop :=
  sizeof_Entry * zlen entries <= max_alloc /\ Forall (fun e => zlen (entry_Marshal e) <= max_alloc) entries.

Lemma load_loop_records entries : max_alloc < 2 ^ 64 -> forall acc fuel,
  Forall (fun e => zlen (entry_Marshal e) <= max_alloc) entries ->
  (length (concat (entry_record <$> entries)) <= fuel)%nat ->
  load_loop max_alloc fuel (zlen entries) (concat (entry_record <$> entries)) acc = Some (Ok (acc ++ entries)).
Proof.
  intros Hm. induction entries as [|e entries IH]; intros acc fuel Hs Hfuel.
  - destruct fuel; simpl; by rewrite app_nil_r.
  - apply Forall_cons in Hs as [He Hs]. rewrite fmap_cons in *. cbn [concat] in *. unfold entry_record in Hfuel at 1 |- * at 1.
    rewrite !length_app, put_u64_length in Hfuel. destruct fuel as [|fuel]; [lia|]. cbn [load_loop].
    rewrite (proj2 (Z.leb_gt _ _)) by (rewrite length_cons; lia). rewrite <- !app_assoc, read_put_u64 by lia.
    rewrite ltb_false by lia. unfold read_data. destruct (Z.eqb_spec (zlen (entry_Marshal e)) 0) as [E0|E0].
    + destruct (entry_Marshal e) as [|] eqn:Em; [|simpl in E0; lia]. rewrite <- Em, entry_roundtrip. simpl app at 1. rewrite Em. simpl app at 1.
      replace (zlen (e :: entries) - 1) with (zlen entries) by (rewrite length_cons; lia). rewrite IH by (try done; lia).
      by rewrite <- app_assoc.
    + destruct (entry_Marshal e ++ concat (entry_record <$> entries)) as [|c rest] eqn:Er.
      { apply app_nil in Er as [Er _]. rewrite Er in E0. done. }
      rewrite <- Er, Nat2Z.id, take_app_length, drop_app_length.
      replace (length (entry_Marshal e) - length (entry_Marshal e ++ concat (entry_record <$> entries)))%nat with O by (rewrite length_app; lia).
      rewrite app_nil_r, entry_roundtrip. replace (zlen (e :: entries) - 1) with (zlen entries) by (rewrite length_cons; lia).
      rewrite IH by (try done; lia). by rewrite <- app_assoc.
Qed.

Lemma loadEntries_file s first entries : max_alloc < 2 ^ 64 -> 0 < sizeof_Entry -> 0 <= first < 2 ^ 64 -> small entries ->
  d_entries (ds_dir s) = Some (entries_file first entries) ->
  loadEntries max_alloc sizeof_Entry s = Some (Ok (with_entries s first entries)).
Proof.
  intros Hm Hz Hf [Hs1 Hs2] Hd. unfold loadEntries. rewrite Hd. unfold entries_file. rewrite read_put_u64 by lia.
  rewrite read_put_u64 by nia. rewrite ltb_false by lia. by rewrite load_loop_records.
Qed.

(** ** Restarting *)

(** The states that successful saves lead to from an empty directory, and whether the file of
    entries is up to date: installing a snapshot drops entries in memory only. *)
Inductive saved : bool -> DiskStorage -> Prop :=
| saved_fresh : saved true (fresh_storage (mkDir None None None))
| saved_state b s h s' : saved b s -> SaveState Written s h = (None, s') -> saved b s'
| saved_entries b s e es s' : saved b s -> SaveEntries Written s (e :: es) = Some (None, s') -> saved true s'
| saved_snapshot b s snap s' : saved b s -> SaveSnapshot Written s snap = (None, s') -> saved false s'
| saved_compact b s i s' : saved b s -> Compact Written s i = Some (None, s') -> saved true s'.

(** What the files hold. *)
Record files_ok (current : bool) (s : DiskStorage) : Prop := {
  ok_hardstate : d_hardstate (ds_dir s) = Some (hardState_Marshal (ds_hardState s))
                 \/ d_hardstate (ds_dir s) = None /\ ds_hardState s = empty_hardState;
  ok_snapshot : ds_confState s = sn_ConfState (ds_snapshot s)
                /\ (d_snapshot (ds_dir s) = Some (snapshot_Marshal (ds_snapshot s))
                    \/ d_snapshot (ds_dir s) = None /\ ds_snapshot s = empty_snapshot);
  ok_entries : current = true -> d_entries (ds_dir s) = Some (entries_file (ds_firstIndex s) (ds_entries s))
                                 \/ d_snapshot (ds_dir s) = None /\ ds_firstIndex s = 1 /\ ds_entries s = [] /\ d_entries (ds_dir s) = None
}.

Lemma saved_files b s : saved b s -> files_ok b s.
Proof.
  induction 1 as [|b s h s' _ [H1 [H2 H2'] H3] Hs|b s e es s' _ [H1 [H2 H2'] H3] Hs|b s snap s' _ [H1 [H2 H2'] H3] Hs|b s i s' _ [H1 [H2 H2'] H3] Hs].
  - split; simpl; auto.
  - unfold SaveState, persistHardState in Hs. simpl in Hs. injection Hs as <-. split; simpl; auto.
  - unfold SaveEntries in Hs. destruct (_ <? _); [done|]. apply bind_Some in Hs as (kept & _ & Hs).
    unfold persistEntries in Hs. simpl in Hs. injection Hs as <-. split; simpl; auto.
  - unfold SaveSnapshot in Hs. destruct (_ <=? _); [done|]. unfold persistSnapshot in Hs. simpl in Hs. injection Hs as <-.
    split; simpl; [|destruct (_ <=? _); simpl; auto|done]. destruct (_ <=? _); auto.
  - unfold Compact in Hs. destruct (_ <? _); [done|]. destruct (_ <? _); [done|]. apply bind_Some in Hs as (kept & _ & Hs).
    unfold persistEntries in Hs. simpl in Hs. injection Hs as <-. split; simpl; auto.
Qed.

(** Loading the files of a storage; [first] and [entries] are what the file of entries has. *)
Lemma load_files b s first entries : files_ok b s -> max_alloc < 2 ^ 64 -> 0 < sizeof_Entry -> 0 <= first < 2 ^ 64 -> small entries ->
  d_entries (ds_dir s) = Some (entries_file first entries) ->
  NewDiskStorage max_alloc sizeof_Entry (ds_dir s) = Some (Ok (with_entries s first entries)).
Proof.
  intros [H1 [H2 H3] _] Hm Hz Hf Hs He. unfold NewDiskStorage, load, loadHardState. simpl.
  destruct H1 as [->|[-> H1]]; [rewrite hardState_roundtrip|]; unfold loadSnapshot; simpl;
    destruct H3 as [->|[-> H3]]; try rewrite snapshot_roundtrip;
    (erewrite loadEntries_file; [|done..|]); try (by destruct (0 <? _));
    (f_equal; f_equal; unfold with_entries; simpl; try destruct (0 <? _); simpl; destruct s; simpl in *; by subst).
Qed.
End storage_more.

(** C28: What was saved is what a restarted node loads.  After any sequence of successful saves
    of the hard state, of entries and of snapshots, and of compactions, in which every save of a
    snapshot is followed, at once or later, by a save of entries or a compaction,
    [NewDiskStorage] on the directory gives the storage as it was.  (Between the two the file
    of entries is out of date, and a save of the hard state does not write it.)  The encodings
    of raftpb are assumed to read back what they wrote, and the log to fit in memory. *)
Theorem storage_reload `{!RaftCodec, !RaftCodecLaws _} max_alloc sizeof_Entry s :
  saved true s -> max_alloc < 2 ^ 64 -> 0 < sizeof_Entry -> 0 <= ds_firstIndex s < 2 ^ 64 -> small max_alloc sizeof_Entry (ds_entries s) ->
  NewDiskStorage max_alloc sizeof_Entry (ds_dir s) = Some (Ok s).
Proof.
  intros Hs%saved_files Hm Hz Hf Hsm. destruct (ok_entries _ _ Hs eq_refl) as [He|(E1 & E2 & E3 & E4)].
  - rewrite (load_files max_alloc sizeof_Entry _ s _ _ Hs Hm Hz Hf Hsm He). by destruct s.
  - destruct Hs as [H1 [H2 H3] _]. unfold NewDiskStorage, load, loadHardState. simpl.
    destruct H3 as [H3|[_ H3]]; [congruence|].
    destruct H1 as [->|[-> H1]]; [rewrite hardState_roundtrip|]; unfold loadSnapshot; simpl; rewrite E1; unfold loadEntries; simpl; rewrite E4;
      (f_equal; f_equal; destruct s; simpl in *; by subst).
Qed.

(** A node that restarts after it installed a snapshot gets the snapshot together with the
    log of before it: [SaveSnapshot] writes only the snapshot, and the file of entries
    overrides the first index that the snapshot implies.  When the snapshot was ahead of the
    log, as one sent to a follower that fell behind is, the last index is below the
    snapshot's. *)
Theorem snapshot_reload_stale `{!RaftCodec, !RaftCodecLaws _} max_alloc sizeof_Entry s snap s' :
  saved true s -> is_Some (d_entries (ds_dir s)) -> SaveSnapshot Written s snap = (None, s') ->
  max_alloc < 2 ^ 64 -> 0 < sizeof_Entry -> wf s -> small max_alloc sizeof_Entry (ds_entries s) ->
  exists s'', NewDiskStorage max_alloc sizeof_Entry (ds_dir s') = Some (Ok s'')
    /\ ds_snapshot s'' = snap /\ lastIndexLocked s'' = last_of s
    /\ (last_of s < sn_Index snap -> lastIndexLocked s'' < sn_Index (ds_snapshot s'')).
Proof.
  intros Hs [f He] Hsn Hm Hz Hwf Hsm. pose proof (saved_files _ _ Hs) as Hok.
  destruct (ok_entries _ _ Hok eq_refl) as [E|(_ & _ & _ & E)]; [|congruence].
  assert (saved false s') as Hs' by (by eapply saved_snapshot). apply saved_files in Hs'.
  assert (d_entries (ds_dir s') = d_entries (ds_dir s) /\ ds_snapshot s' = snap) as [E' Es].
  { unfold SaveSnapshot in Hsn. destruct (_ <=? _); [done|]. unfold persistSnapshot in Hsn. simpl in Hsn. injection Hsn as <-.
    by destruct (_ <=? _). }
  rewrite E in E'. pose proof Hwf as [Hf Hb Hc _]. exists (with_entries s' (ds_firstIndex s) (ds_entries s)).
  rewrite (load_files max_alloc sizeof_Entry _ s' (ds_firstIndex s) (ds_entries s)) by (done || lia).
  assert (lastIndexLocked (with_entries s' (ds_firstIndex s) (ds_entries s)) = last_of s) as Hl by (by rewrite <- lastIndex_wf).
  split_and!; try done. rewrite Hl. simpl. rewrite Es. done.
Qed.

Lemma loadHardState_dir `{!RaftCodec} s :
  match loadHardState s with Ok s' => ds_dir s' = ds_dir s | Err e => e = LoadFailed end.
Proof. unfold loadHardState. destruct (d_hardstate _) as [h|]; [|done]. by destruct (hardState_Unmarshal h). Qed.
Lemma loadSnapshot_dir `{!RaftCodec} s :
  match loadSnapshot s with Ok s' => ds_dir s' = ds_dir s | Err e => e = LoadFailed end.
Proof. unfold loadSnapshot. destruct (d_snapshot _) as [h|]; [|done]. destruct (snapshot_Unmarshal h); [|done]. by destruct (0 <? _). Qed.

(** A crash while the file of entries is being rewritten, before the first eight bytes are
    in it, leaves a directory that does not load, whatever it held before. *)
Lemma crash_loses_log `{!RaftCodec} max_alloc sizeof_Entry s k : (k < 8)%nat ->
  NewDiskStorage max_alloc sizeof_Entry (ds_dir (persistEntries (StopsAfter k) s).2) = Some (Err LoadFailed).
Proof.
  intros Hk. set (d := ds_dir _). unfold NewDiskStorage, load.
  pose proof (loadHardState_dir (fresh_storage d)) as D1. destruct (loadHardState (fresh_storage d)) as [s1|e]; [|by subst].
  pose proof (loadSnapshot_dir s1) as D2. destruct (loadSnapshot s1) as [s2|e]; [|by subst].
  unfold loadEntries. rewrite D2, D1. unfold d. simpl. unfold read_u64.
  rewrite (proj2 (Nat.ltb_lt _ _)); [done|]. rewrite length_take. lia.
Qed.

(** ** Applying the log *)

Section node.
Context `{!RaftCodec} {SM : Type} `{!StateMachine SM}.
Implicit Types n : RaftNode SM.

(** What a node does with an entry of the log that is new to it. *)
Definition apply_one (sm : SM) (e : Entry) : option SM :=
  match e_Type e with
  | EntryNormal => match e_Data e with
                   | [] => Some sm
                   | _ => let '(ok, sm) := sm_Apply sm (e_Data e) in if ok then Some sm else None
                   end
  | EntryConfChange => match confChange_Unmarshal (e_Data e) with Some _ => Some sm | None => None end
  | EntryConfChangeV2 => Some sm
  end.

(** The reference: the entries of the log, one after the other. *)
Definition apply_log (sm : SM) (log : list Entry) : option SM := foldl (fun r e => sm ← r; apply_one sm e) (Some sm) log.

Lemma apply_log_app sm l1 l2 : apply_log sm (l1 ++ l2) = (sm ← apply_log sm l1; apply_log sm l2).
Proof.
  unfold apply_log. rewrite foldl_app. destruct (foldl _ (Some sm) l1) as [sm'|]; [done|]. simpl. induction l2 as [|e l2 IH]; [done|exact IH].
Qed.

Lemma apply_log_one sm e : apply_log sm [e] = apply_one sm e.
Proof. done. Qed.

(** What [applyCommittedEntries] reads and changes. *)
Definition same_core n1 n2 : Prop :=
  rn_stateMachine n1 = rn_stateMachine n2 /\ rn_peers n1 = rn_peers n2 /\ rn_appliedIndex n1 = rn_appliedIndex n2.

Lemma applyEntry_core n1 n2 e : same_core n1 n2 -> (applyEntry n1 e).1 = (applyEntry n2 e).1 /\ same_core (applyEntry n1 e).2 (applyEntry n2 e).2.
Proof.
  intros (H1 & H2 & H3). unfold applyEntry. rewrite <- H1, <- H2, <- H3. unfold same_core.
  destruct (e_Index e <=? rn_appliedIndex n1); [done|].
  destruct (e_Type e).
  - destruct (rn_stateMachine n1) as [sm|] eqn:E; simpl; [|by rewrite E in *; rewrite <- H1].
    destruct (e_Data e); simpl; [by rewrite E, <- H1|]. destruct (sm_Apply sm _) as [[] sm']; simpl; done.
  - destruct (confChange_Unmarshal (e_Data e)) as [cc|]; simpl; [|done]. destruct (cc_Type cc); simpl; done.
  - done.
Qed.

Lemma applyCommitted_core es : forall n1 n2, same_core n1 n2 ->
  (applyCommittedEntries n1 es).1 = (applyCommittedEntries n2 es).1 /\ same_core (applyCommittedEntries n1 es).2 (applyCommittedEntries n2 es).2.
Proof.
  induction es as [|e es IH]; intros n1 n2 Hc; [done|]. simpl. destruct (applyEntry_core n1 n2 e Hc) as [He Hc'].
  destruct (applyEntry n1 e) as [ok1 n1'], (applyEntry n2 e) as [ok2 n2']. simpl in He, Hc'. subst ok2. destruct ok1; [by apply IH|done].
Qed.

(** The rest of the node stays as it is. *)
Definition same_rest n1 n2 : Prop :=
  rn_config n1 = rn_config n2 /\ rn_storage n1 = rn_storage n2 /\ rn_errorCh n1 = rn_errorCh n2 /\ rn_snapshotIndex n1 = rn_snapshotIndex n2.

Lemma applyEntry_rest n e : same_rest (applyEntry n e).2 n.
Proof.
  unfold applyEntry. destruct (_ <=? _); [done|]. destruct (e_Type e).
  - destruct (rn_stateMachine n) as [sm|]; [|done]. destruct (e_Data e); [done|]. by destruct (sm_Apply sm _) as [[] sm'].
  - destruct (confChange_Unmarshal (e_Data e)) as [cc|]; [|done]. by destruct (cc_Type cc).
  - done.
Qed.

Lemma applyCommitted_rest es : forall n, same_rest (applyCommittedEntries n es).2 n.
Proof.
  induction es as [|e es IH]; intros n; [done|]. simpl. pose proof (applyEntry_rest n e) as Hr. destruct (applyEntry n e) as [[] n']; [|done].
  unfold same_rest in *. destruct (IH n') as (-> & -> & -> & ->). done.
Qed.

(** A step on an entry that is new. *)
Lemma applyEntry_new n sm e : rn_stateMachine n = Some sm -> rn_appliedIndex n < e_Index e ->
  match apply_one sm e with
  | Some sm' => exists n', applyEntry n e = (true, n') /\ rn_stateMachine n' = Some sm' /\ rn_appliedIndex n' = e_Index e
  | None => exists n', applyEntry n e = (false, n') /\ rn_appliedIndex n' = rn_appliedIndex n
  end.
Proof.
  intros Hsm Hi. unfold applyEntry, apply_one. rewrite (proj2 (Z.leb_gt _ _)) by done. rewrite Hsm. destruct (e_Type e).
  - destruct (e_Data e); simpl; [eauto|]. destruct (sm_Apply sm _) as [[] sm']; simpl; eauto.
  - destruct (confChange_Unmarshal (e_Data e)) as [cc|]; simpl; [|eauto]. eexists. split; [done|]. by destruct (cc_Type cc).
  - eauto.
Qed.

(** A batch of consecutive entries that starts at most one past the last applied one: the
    entries already applied are skipped, the others applied in order. *)
Lemma applyCommitted_batch es : forall n sm first, rn_stateMachine n = Some sm -> consecutive first es ->
  first <= rn_appliedIndex n + 1 ->
  let new := drop (Z.to_nat (rn_appliedIndex n + 1 - first)) es in
  match apply_log sm new with
  | Some sm' => exists n', applyCommittedEntries n es = (true, n') /\ rn_stateMachine n' = Some sm'
                  /\ rn_appliedIndex n' = Z.max (rn_appliedIndex n) (first + zlen es - 1)
  | None => exists n', applyCommittedEntries n es = (false, n')
  end.
Proof.
  induction es as [|e es IH]; intros n sm first Hsm Hc Hf; cbv zeta.
  - rewrite drop_nil. simpl. exists n. split_and!; [done|done|simpl; lia].
  - assert (e_Index e = first) as He by (rewrite (Hc O e eq_refl); lia).
    assert (consecutive (first + 1) es) as Hc' by (intros k x Hx; rewrite (Hc (S k) x Hx); lia).
    simpl applyCommittedEntries. destruct (Z.leb_spec (e_Index e) (rn_appliedIndex n)).
    + replace (Z.to_nat (rn_appliedIndex n + 1 - first)) with (S (Z.to_nat (rn_appliedIndex n + 1 - (first + 1)))) by lia. simpl drop.
      assert (applyEntry n e = (true, n)) as -> by (unfold applyEntry; by rewrite (proj2 (Z.leb_le _ _))).
      specialize (IH n sm (first + 1) Hsm Hc' ltac:(lia)). cbv zeta in IH. destruct (apply_log sm _) as [sm'|]; [|done].
      destruct IH as (n' & -> & ? & Hx). exists n'. split_and!; [done|done|]. rewrite Hx, length_cons. lia.
    + replace (Z.to_nat (rn_appliedIndex n + 1 - first)) with O by lia. rewrite drop_0.
      pose proof (applyEntry_new n sm e Hsm ltac:(lia)) as H1. change (e :: es) with ([e] ++ es). rewrite apply_log_app, apply_log_one.
      destruct (apply_one sm e) as [sm1|]; destruct H1 as (n1 & -> & Hx); [|simpl; by exists n1].
      destruct Hx as [Hsm1 Hi1]. simpl mbind. specialize (IH n1 sm1 (first + 1) Hsm1 Hc' ltac:(lia)). cbv zeta in IH.
      replace (Z.to_nat (rn_appliedIndex n1 + 1 - (first + 1))) with O in IH by lia. rewrite drop_0 in IH.
      destruct (apply_log sm1 es) as [sm'|]; [|done]. destruct IH as (n' & -> & ? & Hx). exists n'. split_and!; [done|done|].
      rewrite Hx, Hi1, length_app. simpl length. lia.
Qed.

(** ** A round *)

Lemma createSnapshot_core w1 w2 n b n' : createSnapshot w1 w2 n = Some (b, n') ->
  same_core n' n /\ rn_config n' = rn_config n /\ rn_errorCh n' = rn_errorCh n.
Proof.
  unfold createSnapshot. destruct (rn_stateMachine n) as [sm|] eqn:E; [|by intros [= <- <-]].
  destruct (sm_Snapshot sm); [|by intros [= <- <-]]. simpl. destruct (SaveSnapshot _ _ _) as [[err|] s]; [by intros [= <- <-]|].
  intros ([[err|] s'] & _ & [= <- <-])%bind_Some; done.
Qed.

Lemma sendError_not_waiting n e ph : ph <> Waiting -> (sendError n e ph).1 <> Waiting.
Proof. intros Hp. unfold sendError. by destruct (rn_errorCh n). Qed.

Lemma snapshot_round_core w n rd n' : snapshot_round w n rd = (Waiting, n') -> same_core n' n.
Proof.
  assert (forall m, same_core (finish_round m rd).2 m) as Hfin by (intros m; unfold finish_round; simpl; by destruct (_ <? _)%nat).
  unfold snapshot_round. destruct (shouldSnapshot n).
  - destruct (createSnapshot _ _ n) as [[[] m]|] eqn:E; [| |done].
    + intros [= <-]. apply createSnapshot_core in E as [E _]. specialize (Hfin m). unfold same_core in *. simpl in *.
      destruct E as (<- & <- & <-). exact Hfin.
    + apply createSnapshot_core in E as [E _]. unfold sendError. destruct (rn_errorCh m); [|done]. intros [= <-].
      specialize (Hfin (set_errorCh m [CreateSnapshotFailed])). unfold same_core in *. destruct E as (<- & <- & <-). exact Hfin.
  - intros [= <-]. apply (Hfin n).
Qed.

(** A round without a snapshot to install that ends with [Advance] has applied all that was
    committed, and changed nothing else of what the state machine has seen. *)
Lemma apply_round_core w n rd n' : apply_round w n rd = (Waiting, n') ->
  exists m, applyCommittedEntries n (rd_CommittedEntries rd) = (true, m) /\ same_core n' m.
Proof.
  unfold apply_round. destruct (applyCommittedEntries n (rd_CommittedEntries rd)) as [[] m].
  - intros H1. exists m. split; [done|]. by eapply snapshot_round_core.
  - intros H1. exfalso. by apply (sendError_not_waiting m ApplyEntriesFailed Unadvanced); [|rewrite H1].
Qed.

(** The steps before that touch the storage and the leader only. *)
Definition same_but_storage n1 n2 : Prop :=
  same_core n1 n2 /\ rn_config n1 = rn_config n2 /\ rn_errorCh n1 = rn_errorCh n2 /\ rn_snapshotIndex n1 = rn_snapshotIndex n2.

Lemma handle_ready_reaches w n rd n' : IsEmptySnap (rd_Snapshot rd) = true -> handle_ready w n rd = (Waiting, n') ->
  exists n0, same_but_storage n0 n /\ apply_round w n0 rd = (Waiting, n').
Proof.
  intros Hs Hw.
  assert (forall m, same_but_storage m n -> entries_round w m rd = (Waiting, n') -> exists n0, same_but_storage n0 n /\ apply_round w n0 rd = (Waiting, n')) as Hent.
  { intros m Hm. unfold entries_round, restore_round. rewrite Hs. destruct (rd_Entries rd); [by exists m|].
    destruct (SaveEntries _ _ _) as [[[err|] s]|]; [|by exists (set_storage m s)|done].
    intros H1. exfalso. by apply (sendError_not_waiting (set_storage m s) SaveEntriesFailed Unadvanced); [|rewrite H1]. }
  unfold handle_ready in Hw. set (n1 := match rd_SoftState rd with Some _ => _ | None => _ end) in Hw.
  assert (same_but_storage n1 n) as Hn1 by (unfold n1; by destruct (rd_SoftState rd)).
  destruct (IsEmptyHardState _); [by apply (Hent n1)|]. destruct (SaveState _ _ _) as [[err|] s]; [|by apply (Hent (set_storage n1 s))].
  exfalso. by apply (sendError_not_waiting (set_storage n1 s) SaveStateFailed Unadvanced); [|rewrite Hw].
Qed.

Lemma handle_ready_core w n rd n' : IsEmptySnap (rd_Snapshot rd) = true -> handle_ready w n rd = (Waiting, n') ->
  exists m, applyCommittedEntries n (rd_CommittedEntries rd) = (true, m) /\ same_core n' m.
Proof.
  intros Hs Hw. destruct (handle_ready_reaches w n rd n' Hs Hw) as (n0 & [Hc _] & H0).
  apply apply_round_core in H0 as (m & H1 & H2). pose proof (applyCommitted_core (rd_CommittedEntries rd) n0 n Hc) as [E1 E2].
  rewrite H1 in E1, E2. simpl in E1, E2. destruct (applyCommittedEntries n _) as [ok m']. simpl in *. subst ok. exists m'. split; [done|].
  unfold same_core in *. destruct H2 as (-> & -> & ->). exact E2.
Qed.

(** ** Runs *)

(** raft delivers committed entries as segments of one log, from at most the entry after the
    last applied one on. *)
Definition segment (log : list Entry) (applied : Z) (es : list Entry) : Prop :=
  exists k len, es = take len (drop k log) /\ Z.of_nat k <= applied.

Inductive run (log : list Entry) (n0 : RaftNode SM) : phase -> RaftNode SM -> Prop :=
| run_start : run log n0 Waiting n0
| run_round n w rd ph n' : run log n0 Waiting n -> IsEmptySnap (rd_Snapshot rd) = true ->
    segment log (rn_appliedIndex n) (rd_CommittedEntries rd) -> handle_ready w n rd = (ph, n') -> run log n0 ph n'.

Lemma take_segment {A} (l : list A) (a k len : nat) : (k <= a <= length l)%nat ->
  take (Nat.max a (k + length (take len (drop k l)))) l = take a l ++ drop (a - k) (take len (drop k l)).
Proof.
  intros Ha. rewrite length_take, length_drop, skipn_firstn_comm, drop_drop. replace (k + (a - k))%nat with a by lia.
  rewrite take_take_drop. destruct (decide (len <= length l - k)%nat); [f_equal; lia|].
  rewrite !take_ge; [done|lia..].
Qed.

Lemma run_prefix log n0 sm0 : consecutive 1 log -> rn_stateMachine n0 = Some sm0 -> rn_appliedIndex n0 = 0 -> forall ph n, run log n0 ph n -> ph = Waiting ->
  0 <= rn_appliedIndex n <= zlen log
  /\ exists sm, rn_stateMachine n = Some sm /\ apply_log sm0 (take (Z.to_nat (rn_appliedIndex n)) log) = Some sm.
Proof.
  intros Hlog Hsm0 H0. induction 1 as [|n w rd ph n' Hr IH Hs (k & len & Hes & Hk) Hh]; intros Hph.
  - rewrite H0. split; [lia|]. exists sm0. by rewrite take_0.
  - subst ph. destruct (IH eq_refl) as [Hb (sm & Hsm & Hp)]. apply handle_ready_core in Hh as (m & Hm & Hc1 & _ & Hc3); [|done].
    assert (consecutive (Z.of_nat k + 1) (rd_CommittedEntries rd)) as Hseg.
    { rewrite Hes. apply consecutive_take. replace (Z.of_nat k + 1) with (1 + Z.of_nat k) by lia. by apply consecutive_drop. }
    pose proof (applyCommitted_batch (rd_CommittedEntries rd) n sm (Z.of_nat k + 1) Hsm Hseg ltac:(lia)) as Hx. cbv zeta in Hx.
    set (a := Z.to_nat (rn_appliedIndex n)) in *.
    replace (Z.to_nat (rn_appliedIndex n + 1 - (Z.of_nat k + 1))) with (a - k)%nat in Hx by lia.
    pose proof (take_segment log a k len ltac:(lia)) as Htake. rewrite <- Hes in Htake.
    destruct (apply_log sm (drop (a - k) _)) as [sm'|] eqn:Ea; [|destruct Hx as [m' Hm']; congruence].
    destruct Hx as (m' & Hm' & Hsm' & Hap). rewrite Hm in Hm'. injection Hm' as <-. rewrite Hc3, Hap, Hc1.
    assert (length (rd_CommittedEntries rd) <= length log - k)%nat by (rewrite Hes, length_take, length_drop; lia).
    split; [lia|]. exists sm'. split; [done|].
    replace (Z.to_nat (Z.max (rn_appliedIndex n) (Z.of_nat k + 1 + zlen (rd_CommittedEntries rd) - 1)))
      with (Nat.max a (k + length (rd_CommittedEntries rd))) by lia.
    rewrite Htake, apply_log_app, Hp. exact Ea.
Qed.
End node.

(** C27: State machine replication.  Two nodes that start with the same state machine and are
    given the committed entries of one log, in whatever batches, repeated or overlapping, and
    with whatever failures of their disks, have the same state machine whenever they have
    applied equally many entries and wait for more: that of the log applied in order, each
    entry once.  The state machine is a function of its state and the entry; one that reads a
    clock, as the metadata does, agrees up to the clock (MetadataSpec.v). *)
Theorem replicated_state_machine `{!RaftCodec} {SM : Type} `{!StateMachine SM} log (n1 n2 m1 m2 : RaftNode SM) sm0 :
  consecutive 1 log ->
  rn_stateMachine n1 = Some sm0 -> rn_stateMachine n2 = Some sm0 -> rn_appliedIndex n1 = 0 -> rn_appliedIndex n2 = 0 ->
  run log n1 Waiting m1 -> run log n2 Waiting m2 -> rn_appliedIndex m1 = rn_appliedIndex m2 ->
  exists sm, rn_stateMachine m1 = Some sm /\ rn_stateMachine m2 = Some sm
    /\ apply_log sm0 (take (Z.to_nat (rn_appliedIndex m1)) log) = Some sm.
Proof.
  intros Hlog H1 H2 Z1 Z2 R1 R2 E.
  destruct (run_prefix log n1 sm0 Hlog H1 Z1 _ _ R1 eq_refl) as [_ (s1 & -> & P1)].
  destruct (run_prefix log n2 sm0 Hlog H2 Z2 _ _ R2 eq_refl) as [_ (s2 & -> & P2)].
  rewrite <- E, P1 in P2. injection P2 as ->. eauto.
Qed.

(** A committed entry that the state machine refuses stops the node for good.  Whatever the
    writes do, the round does not end with [Advance], so raft offers no other [Ready] and
    the node makes no further step: nothing more of the log is saved or applied, here and,
    since replicas refuse the same entries, everywhere. *)
Theorem refused_entry_wedges `{!RaftCodec} {SM : Type} `{!StateMachine SM} w (n : RaftNode SM) rd :
  IsEmptySnap (rd_Snapshot rd) = true -> (applyCommittedEntries n (rd_CommittedEntries rd)).1 = false ->
  (handle_ready w n rd).1 <> Waiting /\ forall next, ~ run_step (handle_ready w n rd) next.
Proof.
  intros Hs Hf. assert ((handle_ready w n rd).1 <> Waiting) as Hn.
  { intros Hw. destruct (handle_ready w n rd) as [ph n'] eqn:E. simpl in Hw. subst ph.
    apply handle_ready_core in E as (m & Hm & _); [|done]. by rewrite Hm in Hf. }
  split; [done|]. intros next Hstep. inversion Hstep as [w' n' rd' E1 E2]. apply Hn. by rewrite <- E1.
Qed.

(** ** Snapshots *)

Section snapshots.
Context `{!RaftCodec} {SM : Type} `{!StateMachine SM}.
Implicit Types n : RaftNode SM.

(** Saving a snapshot of the applied index moves the first index past it. *)
Lemma SaveSnapshot_first w s snap s' : 0 <= sn_Index snap < 2 ^ 64 - 1 -> SaveSnapshot w s snap = (None, s') -> sn_Index snap < ds_firstIndex s'.
Proof.
  intros Hi. unfold SaveSnapshot. destruct (_ <=? _); [done|]. cbv zeta. set (s1 := if _ <=? _ then _ else _).
  destruct (persistSnapshot_mem w s1) as [d ->]. intros [= _ <-]. simpl. unfold s1. simpl.
  destruct (Z.leb_spec (ds_firstIndex s) (sn_Index snap)); simpl; [rewrite wrapu_64_small|]; lia.
Qed.

Lemma createSnapshot_fails w1 w2 n sm : rn_stateMachine n = Some sm -> 0 <= rn_appliedIndex n < 2 ^ 64 - 1 ->
  0 <= cf_SnapshotCatchUpEntries (rn_config n) ->
  exists n', createSnapshot w1 w2 n = Some (false, n') /\ rn_snapshotIndex n' = rn_snapshotIndex n.
Proof.
  intros Hsm Ha Hc. unfold createSnapshot. rewrite Hsm. destruct (sm_Snapshot sm) as [data|]; [|eauto].
  destruct (InitialState (rn_storage n)) as [hs cs]. set (snap := mkSnapshot _ _ _ _).
  destruct (SaveSnapshot w1 (rn_storage n) snap) as [[err|] s] eqn:E; [eauto|].
  apply SaveSnapshot_first in E; [|done]. simpl in E. simpl. unfold Compact.
  rewrite ltb_true by (destruct (_ <? _); lia). simpl. eauto.
Qed.

Lemma createSnapshot_term w2 n sm data b n' : rn_stateMachine n = Some sm -> sm_Snapshot sm = Some data ->
  0 <= rn_appliedIndex n < 2 ^ 64 - 1 -> 0 <= cf_SnapshotCatchUpEntries (rn_config n) ->
  sn_Index (ds_snapshot (rn_storage n)) < rn_appliedIndex n -> createSnapshot Written w2 n = Some (b, n') ->
  Term (rn_storage n') (rn_appliedIndex n) = Some (Ok 0).
Proof.
  intros Hsm Hd Ha Hc Hn. unfold createSnapshot. rewrite Hsm, Hd. destruct (InitialState (rn_storage n)) as [hs cs]. set (snap := mkSnapshot _ _ _ _).
  assert (exists s, SaveSnapshot Written (rn_storage n) snap = (None, s) /\ ds_snapshot s = snap) as (s & E & Es).
  { unfold SaveSnapshot. rewrite (proj2 (Z.leb_gt _ _)) by (simpl; lia). cbv zeta.
    match goal with |- context [persistSnapshot Written ?x] => destruct (persistSnapshot_mem Written x) as [d ->] end.
    eexists. split; [done|]. simpl. by destruct (_ <=? _). }
  rewrite E. apply SaveSnapshot_first in E; [|done]. simpl in E |- *. unfold Compact.
  rewrite ltb_true by (destruct (_ <? _); lia). simpl. intros [= _ <-]. simpl. unfold Term. rewrite Es. simpl. rewrite Z.eqb_refl.
  by destruct (_ =? _).
Qed.

(** A round that does not end in an error before it reaches the snapshot. *)
Definition wants_snapshot n : Prop :=
  exists sm, rn_stateMachine n = Some sm
  /\ 0 <= rn_snapshotIndex n /\ rn_snapshotIndex n + cf_SnapshotInterval (rn_config n) <= rn_appliedIndex n < 2 ^ 64 - 1
  /\ 0 < cf_SnapshotInterval (rn_config n) /\ 0 <= cf_SnapshotCatchUpEntries (rn_config n).

Lemma wants_should n : wants_snapshot n -> shouldSnapshot n = true.
Proof.
  intros (sm & _ & H1 & H2 & H3 & _). unfold shouldSnapshot. rewrite (proj2 (Z.eqb_neq _ _)) by lia.
  rewrite wrapu_64_small by lia. apply Z.leb_le. lia.
Qed.

Lemma snapshot_round_fails w n rd : wants_snapshot n ->
  match rn_errorCh n with
  | [] => exists n', snapshot_round w n rd = (Waiting, n') /\ wants_snapshot n' /\ rn_errorCh n' = [CreateSnapshotFailed]
  | _ => exists n', snapshot_round w n rd = (Blocked CreateSnapshotFailed, n')
  end.
Proof.
  intros Hw. pose proof (wants_should n Hw) as Hs. unfold snapshot_round. rewrite Hs.
  destruct Hw as (sm & Hsm & H1 & H2 & H3 & H4).
  destruct (createSnapshot_fails (w_created w) (w_compacted w) n sm Hsm ltac:(lia) H4) as (n' & E & Hi). rewrite E.
  apply createSnapshot_core in E as ((Es & _ & Ea) & Ec & Ee). unfold sendError. rewrite Ee.
  destruct (rn_errorCh n); [|eauto]. unfold finish_round. eexists. split; [done|]. split; [|by destruct (_ <? _)%nat].
  exists sm. destruct (_ <? _)%nat; simpl; rewrite Es, Hi, Ec, Ea; done.
Qed.

Lemma wants_same n n0 : same_but_storage n0 n -> wants_snapshot n -> wants_snapshot n0.
Proof. intros ((E1 & _ & E2) & E3 & _ & E4). unfold wants_snapshot. by rewrite E1, E2, E3, E4. Qed.

(** The indexes of what raft commits stay below the largest number. *)
Definition indexes_ok (rd : Ready) : Prop := Forall (fun e => e_Index e < 2 ^ 64 - 1) (rd_CommittedEntries rd).

Lemma applyEntry_mono n e : rn_appliedIndex n <= rn_appliedIndex (applyEntry n e).2
  /\ (rn_appliedIndex (applyEntry n e).2 = rn_appliedIndex n \/ rn_appliedIndex (applyEntry n e).2 = e_Index e)
  /\ (is_Some (rn_stateMachine n) -> is_Some (rn_stateMachine (applyEntry n e).2)).
Proof.
  unfold applyEntry. destruct (Z.leb_spec (e_Index e) (rn_appliedIndex n)); [simpl; split_and!; [lia|by left|done]|].
  destruct (e_Type e).
  - destruct (rn_stateMachine n) as [sm|] eqn:E; [destruct (e_Data e); [|destruct (sm_Apply sm _) as [[] sm']]|];
      simpl; rewrite ?E; split_and!; try lia; eauto.
  - destruct (confChange_Unmarshal _) as [cc|]; [destruct (cc_Type cc)|]; simpl; split_and!; try lia; auto.
  - simpl; split_and!; [lia|by right|done].
Qed.

Lemma applyCommitted_wants es : Forall (fun e => e_Index e < 2 ^ 64 - 1) es -> forall n m, wants_snapshot n ->
  applyCommittedEntries n es = (true, m) -> wants_snapshot m /\ rn_errorCh m = rn_errorCh n.
Proof.
  induction 1 as [|e es He _ IH]; intros n m Hw; simpl; [by intros [= <-]|].
  pose proof (applyEntry_mono n e) as (M1 & M2 & M3). pose proof (applyEntry_rest n e) as (R1 & _ & R3 & R4).
  destruct (applyEntry n e) as [[] n1]; [|done]. simpl in *. intros H1.
  assert (wants_snapshot n1) as Hw1.
  { destruct Hw as (sm & Hsm & H2 & H3 & H4 & H5). destruct (M3 ltac:(eauto)) as [sm1 Hsm1]. exists sm1. rewrite R1, R4.
    split_and!; try done; destruct M2; lia. }
  rewrite <- R3. by apply IH.
Qed.

(** A round of a node that wants a snapshot leaves the error of the attempt in the channel,
    and does not complete when one is there already. *)
Lemma handle_ready_wants w n rd n' : wants_snapshot n -> IsEmptySnap (rd_Snapshot rd) = true -> indexes_ok rd ->
  handle_ready w n rd = (Waiting, n') -> wants_snapshot n' /\ rn_errorCh n = [] /\ rn_errorCh n' <> [].
Proof.
  intros Hw Hs Hi Hh. destruct (handle_ready_reaches w n rd n' Hs Hh) as (n0 & Hn0 & H0). pose proof (wants_same _ _ Hn0 Hw) as Hw0.
  unfold apply_round in H0. destruct (applyCommittedEntries n0 _) as [[] m] eqn:Ea.
  - destruct (applyCommitted_wants _ Hi n0 m Hw0 Ea) as [Hwm Em]. pose proof (snapshot_round_fails w m rd Hwm) as Hr.
    destruct Hn0 as (_ & _ & Ee & _). rewrite <- Ee, <- Em. destruct (rn_errorCh m); destruct Hr as (n2 & Hr); [|congruence].
    destruct Hr as (Hr & Hw2 & He). rewrite Hr in H0. injection H0 as <-. rewrite He. done.
  - exfalso. by apply (sendError_not_waiting m ApplyEntriesFailed Unadvanced); [|rewrite H0].
Qed.
End snapshots.

(** [createSnapshot] never succeeds for a node with a state machine: it saves the snapshot,
    which moves the first index of the log past the applied index, and then asks to compact
    the log at or below that index, which is out of range.  The snapshot index does not
    advance, so every later round tries again.  The saved snapshot has term 0, and so has,
    from then on, the entry at the applied index when raft asks for it. *)
Theorem create_snapshot_never_succeeds `{!RaftCodec} {SM : Type} `{!StateMachine SM} w1 w2 (n : RaftNode SM) sm :
  rn_stateMachine n = Some sm -> 0 <= rn_appliedIndex n < 2 ^ 64 - 1 -> 0 <= cf_SnapshotCatchUpEntries (rn_config n) ->
  exists n', createSnapshot w1 w2 n = Some (false, n') /\ rn_snapshotIndex n' = rn_snapshotIndex n
    /\ (w1 = Written -> is_Some (sm_Snapshot sm) -> sn_Index (ds_snapshot (rn_storage n)) < rn_appliedIndex n ->
        Term (rn_storage n') (rn_appliedIndex n) = Some (Ok 0)).
Proof.
  intros Hsm Ha Hc. destruct (createSnapshot_fails w1 w2 n sm Hsm Ha Hc) as (n' & E & Hi). exists n'. split_and!; [done|done|].
  intros -> [data Hd] Hn. by apply (createSnapshot_term w2 n sm data false).
Qed.

(** A node that has applied as many entries as the snapshot interval completes at most one
    more round.  The first failed snapshot fills the channel of errors, which nothing reads;
    the next round blocks, in the attempt to report its own failure or before. *)
Theorem second_snapshot_blocks `{!RaftCodec} {SM : Type} `{!StateMachine SM} w1 w2 (n : RaftNode SM) rd1 rd2 n1 :
  wants_snapshot n -> IsEmptySnap (rd_Snapshot rd1) = true -> IsEmptySnap (rd_Snapshot rd2) = true ->
  indexes_ok rd1 -> indexes_ok rd2 -> handle_ready w1 n rd1 = (Waiting, n1) ->
  (handle_ready w2 n1 rd2).1 <> Waiting /\ forall next, ~ run_step (handle_ready w2 n1 rd2) next.
Proof.
  intros Hw Hs1 Hs2 Hi1 Hi2 H1. destruct (handle_ready_wants w1 n rd1 n1 Hw Hs1 Hi1 H1) as (Hw1 & _ & He1).
  assert ((handle_ready w2 n1 rd2).1 <> Waiting) as Hn.
  { intros H2. destruct (handle_ready w2 n1 rd2) as [ph n2] eqn:E. simpl in H2. subst ph.
    by apply (handle_ready_wants w2 n1 rd2 n2) in E as (_ & ? & _). }
  split; [done|]. intros next Hstep. inversion Hstep as [w' n' rd' E1 E2]. apply Hn. by rewrite <- E1.
Qed.

(** ** Instances *)

#[export] Instance EntryType_eq_dec : EqDecision EntryType.
Proof. solve_decision. Defined.
#[export] Instance Entry_eq_dec : EqDecision Entry.
Proof. solve_decision. Defined.
#[export] Instance Entry_countable : Countable Entry.
Proof.
  refine (inj_countable' (fun e => (e_Term e, e_Index e, match e_Type e with EntryNormal => 0 | EntryConfChange => 1 | EntryConfChangeV2 => 2 end, e_Data e))
    (fun '(t, i, k, d) => mkEntry t i (if k =? 0 then EntryNormal else if k =? 1 then EntryConfChange else EntryConfChangeV2) d) _).
  by intros [? ? [] ?].
Defined.
#[export] Instance HardState_eq_dec : EqDecision HardState.
Proof. solve_decision. Defined.
#[export] Instance HardState_countable : Countable HardState.
Proof. refine (inj_countable' (fun h => (hs_Term h, hs_Vote h, hs_Commit h)) (fun '(t, v, c) => mkHardState t v c) _); by intros []. Defined.
#[export] Instance ConfState_eq_dec : EqDecision ConfState.
Proof. solve_decision. Defined.
#[export] Instance ConfState_countable : Countable ConfState.
Proof.
  refine (inj_countable' (fun c => (cs_Voters c, cs_Learners c, cs_VotersOutgoing c, cs_LearnersNext c, cs_AutoLeave c))
    (fun '(a, b, c, d, e) => mkConfState a b c d e) _); by intros [].
Defined.
#[export] Instance Snapshot_eq_dec : EqDecision Snapshot.
Proof. solve_decision. Defined.
#[export] Instance Snapshot_countable : Countable Snapshot.
Proof.
  refine (inj_countable' (fun s => (sn_Data s, sn_ConfState s, sn_Index s, sn_Term s)) (fun '(a, b, c, d) => mkSnapshot a b c d) _); by intros [].
Defined.

(** A codec that satisfies the laws. *)
Definition to_bytes {A} `{Countable A} (a : A) : bytes := positive_bits (encode a).
Definition of_bytes {A} `{Countable A} (data : bytes) : option A := decode (bits_positive data).
Lemma of_to_bytes {A} `{Countable A} (a : A) : of_bytes (to_bytes a) = Some a.
Proof. unfold of_bytes, to_bytes. by rewrite bits_positive_bits, decode_encode. Qed.

#[local] Instance bits_codec : RaftCodec := {
  entry_Marshal := to_bytes; entry_Unmarshal := of_bytes;
  hardState_Marshal := to_bytes; hardState_Unmarshal := of_bytes;
  snapshot_Marshal := to_bytes; snapshot_Unmarshal := of_bytes;
  confChange_Unmarshal _ := None
}.
#[local] Instance bits_codec_laws : RaftCodecLaws bits_codec.
Proof. split; intros; apply of_to_bytes. Qed.

(** A state machine that keeps the commands it was given. *)
#[local] Instance journal : StateMachine (list bytes) := {
  sm_Apply sm data := (true, sm ++ [data]);
  sm_Snapshot sm := Some (concat sm);
  sm_Restore sm data := (true, [data])
}.

Definition normal (i : Z) (data : bytes) : Entry := mkEntry 1 i EntryNormal data.
Definition empty_dir : Dir := mkDir None None None.

Lemma save_entries_replaces_witness :
  exists s', SaveEntries Written (fresh_storage empty_dir) [normal 1 [x01]; normal 2 [x02]] = Some (None, s') /\ wf s' /\ last_of s' = 2.
Proof.
  destruct (save_entries_replaces Written (fresh_storage empty_dir) (normal 1 [x01]) [normal 2 [x02]]) as (s' & H1 & H2 & _ & H3 & _).
  - split; simpl; try lia. by intros k e Hk.
  - intros [|[|k]] e [= <-]; done.
  - vm_compute; split; discriminate.
  - reflexivity.
  - exists s'. split; [exact H1|]. split; [exact H2|]. rewrite H3. reflexivity.
Defined.

Definition two_entries : DiskStorage :=
  from_option snd (fresh_storage empty_dir) (SaveEntries Written (fresh_storage empty_dir) [normal 1 [x01]; normal 2 [x02]]).

Lemma two_entries_saved : saved true two_entries.
Proof. apply (saved_entries true (fresh_storage empty_dir) (normal 1 [x01]) [normal 2 [x02]]); [apply saved_fresh|reflexivity]. Qed.

Lemma two_entries_small : small 1000000 48 (ds_entries two_entries).
Proof. split; [vm_compute; discriminate|]. repeat constructor; vm_compute; discriminate. Qed.

Lemma two_entries_wf : wf two_entries.
Proof. split; simpl; try lia. intros [|[|k]] e [= <-]; done. Qed.

Lemma storage_reload_witness : NewDiskStorage 1000000 48 (ds_dir two_entries) = Some (Ok two_entries).
Proof. apply (storage_reload 1000000 48 two_entries); [apply two_entries_saved|lia|lia|simpl; lia|apply two_entries_small]. Defined.

(** The leader sends a snapshot of entry 9 to a node whose log ends at 2. *)
Definition snap9 : Snapshot := mkSnapshot [x09] empty_confState 9 1.

Lemma snapshot_reload_stale_witness :
  exists s'', NewDiskStorage 1000000 48 (ds_dir (SaveSnapshot Written two_entries snap9).2) = Some (Ok s'')
    /\ lastIndexLocked s'' = 2 /\ sn_Index (ds_snapshot s'') = 9.
Proof.
  destruct (snapshot_reload_stale 1000000 48 two_entries snap9 (SaveSnapshot Written two_entries snap9).2) as (s'' & H1 & H2 & H3 & _).
  - apply two_entries_saved.
  - by eexists.
  - reflexivity.
  - lia.
  - lia.
  - apply two_entries_wf.
  - apply two_entries_small.
  - exists s''. split; [exact H1|]. split; [rewrite H3; reflexivity|by rewrite H2].
Defined.

(** *** Nodes *)

Definition some_config (interval : Z) : Config := mkConfig 1 [] [x64] 100 15 1 1048576 256 interval 1.
Definition node_with {SM} (interval : Z) (sm : SM) : RaftNode SM :=
  mkNode (some_config interval) (fresh_storage empty_dir) (Some sm) ∅ [] [] 0 0 0 StateFollower.
Definition committed (es : list Entry) : Ready := mkReady None empty_hardState [] empty_snapshot es false.
Definition good : writes := mkWrites Written Written Written Written Written.

Definition some_log : list Entry := [normal 1 [x01]; normal 2 []; normal 3 [x03]].

(** One node gets the log at once; the other in two batches that overlap. *)
Lemma replicated_state_machine_witness :
  exists m1 m2, run some_log (node_with 100 []) Waiting m1 /\ run some_log (node_with 100 []) Waiting m2
    /\ rn_stateMachine m1 = Some [[x01]; [x03]] /\ rn_stateMachine m2 = Some [[x01]; [x03]].
Proof.
  set (n := node_with (SM := list bytes) 100 []).
  set (m1 := (handle_ready good n (committed some_log)).2).
  set (k1 := (handle_ready good n (committed (take 2 some_log))).2).
  set (m2 := (handle_ready good k1 (committed (drop 1 some_log))).2).
  assert (run some_log n Waiting m1) as R1.
  { apply (run_round _ _ n good (committed some_log)); [apply run_start|reflexivity|exists O, 3%nat; split; [reflexivity|vm_compute; discriminate]|reflexivity]. }
  assert (run some_log n Waiting m2) as R2.
  { apply (run_round _ _ k1 good (committed (drop 1 some_log))); [|reflexivity|exists 1%nat, 2%nat; split; [reflexivity|vm_compute; discriminate]|reflexivity].
    apply (run_round _ _ n good (committed (take 2 some_log))); [apply run_start|reflexivity|exists O, 2%nat; split; [reflexivity|vm_compute; discriminate]|reflexivity]. }
  destruct (replicated_state_machine some_log n n m1 m2 []) as (sm & E1 & E2 & E3); try reflexivity; [|exact R1|exact R2|].
  - intros [|[|[|i]]] e [= <-]; done.
  - exists m1, m2. split; [exact R1|]. split; [exact R2|]. rewrite E1, E2. vm_compute in E3. injection E3 as <-. done.
Defined.

(** The metadata as state machine: a topic is created twice, with the blessing of the store. *)
#[local] Instance metadata_machine : StateMachine Meta.ClusterMetadata := FSM_StateMachine 9 some_decoder some_marshal some_unmarshal.

Lemma refused_entry_wedges_witness :
  let n := node_with 100 (Meta.NewClusterMetadata 0) in
  let rd := committed [normal 1 [x02]; normal 2 [x02]] in
  (handle_ready good n rd).1 <> Waiting /\ forall next, ~ run_step (handle_ready good n rd) next.
Proof. apply (refused_entry_wedges good (node_with 100 (Meta.NewClusterMetadata 0)) (committed [normal 1 [x02]; normal 2 [x02]])); reflexivity. Defined.

(** A node that has applied the log above, with a snapshot interval of two entries. *)
Definition due : RaftNode (list bytes) := set_applied (node_with 2 [[x01]; [x03]]) 3.

Lemma due_wants : wants_snapshot due.
Proof. exists [[x01]; [x03]]. vm_compute. repeat split; discriminate. Qed.

Lemma create_snapshot_never_succeeds_witness :
  exists n', createSnapshot Written Written due = Some (false, n') /\ rn_snapshotIndex n' = 0 /\ Term (rn_storage n') 3 = Some (Ok 0).
Proof.
  destruct (create_snapshot_never_succeeds Written Written due [[x01]; [x03]]) as (n' & H1 & H2 & H3); [reflexivity|vm_compute; split; [discriminate|done]|vm_compute; discriminate|].
  exists n'. split; [exact H1|]. split; [exact H2|]. apply H3; [done|by eexists|done].
Defined.

Lemma second_snapshot_blocks_witness :
  let n1 := (handle_ready good due (committed [])).2 in
  (handle_ready good n1 (committed [])).1 <> Waiting /\ forall next, ~ run_step (handle_ready good n1 (committed [])) next.
Proof.
  apply (second_snapshot_blocks good good due (committed []) (committed []) (handle_ready good due (committed [])).2);
    [apply due_wants|reflexivity|reflexivity|constructor|constructor|reflexivity].
Defined.

(** ** Where the contract with raft is not kept *)

(** raft asks for at least one entry however small the limit is; it gets none when the first
    one is larger. *)
Lemma large_entry_withheld : adapter_Entries (fun e => 40 + zlen (e_Data e)) two_entries 1 3 41 = Some (Ok [normal 1 [x01]])
  /\ adapter_Entries (fun e => 40 + zlen (e_Data e)) two_entries 1 3 40 = Some (Ok []).
Proof. split; reflexivity. Qed.

(** After a compaction the term of the entry before the first one is not available, unless it
    is the snapshot's. *)
Lemma compact_forgets_term : exists s, Compact Written two_entries 2 = Some (None, s)
  /\ ds_firstIndex s = 2 /\ Term s 1 = Some (Err EntriesCompacted).
Proof. eexists. split; [reflexivity|]. split; reflexivity. Qed.

(** Entries that start below the first index are a panic. *)
Lemma entries_below_first_panic : exists s, Compact Written two_entries 2 = Some (None, s)
  /\ SaveEntries Written s [normal 1 [x07]] = None.
Proof. eexists. split; [reflexivity|]. reflexivity. Qed.
