(* ===== verification/Replication.v ===== *)
(** * The replication of a partition (pkg/replication)

    leader.go, follower.go, reconciliation.go, failover.go, manager.go, fetcher.go, types.go
    and config.go.  A leader serves fetches, tracks how far each replica has come and moves
    the high water mark; a follower copies the leader's log; after a change of leader the
    logs are reconciled; a coordinator elects a new leader from the in-sync replicas.

    Each method that takes the lock is one step on the state.  The storage is the interface
    [StorageAdapter], an implementation of which is an argument, as are the clock ([now]) and
    the orders of ranges over maps.  The rates that the replicators count in floats and the
    log output are left out.  [Message] and [StorageMessage] have the same fields, which the
    code copies one by one: the model has one type for both. *)

From S2P Require Import Prelude GoBytes Record Placement.
From Stdlib Require Import ZArith Lia Strings.Byte.
From stdpp Require Import prelude list gmap.
#[local] Notation length := Datatypes.length.
Open Scope Z_scope.

Module Replication.

(** ** Configuration *)

Record Config := mkConfig {
  cf_FetchMinBytes : Z;
  cf_FetchMaxBytes : Z;
  cf_FetchMaxWaitMs : Z;
  cf_FetcherInterval : Z;
  cf_ReplicaLagMaxMessages : Z;
  cf_ReplicaLagTimeMaxMs : Z;
  cf_HighWaterMarkCheckpointIntervalMs : Z;
  cf_NumFetcherThreads : Z;
  cf_MaxInflightFetches : Z;
  cf_FetchBackoffMs : Z;
  cf_ReplicaIDForFollower : Z
}.

Definition Millisecond : Z := 1000000.
Definition Second : Z := 1000 * Millisecond.

Definition DefaultConfig : Config :=
  mkConfig 1 (1024 * 1024) 500 (50 * Millisecond) 4000 10000 5000 1 1 1000 0.

(** Whether [c.Validate()] returns nil. *)
Definition Validate (c : Config) : bool :=
  (0 <=? cf_FetchMinBytes c) && (0 <? cf_FetchMaxBytes c) && (cf_FetchMinBytes c <=? cf_FetchMaxBytes c)
  && (0 <=? cf_FetchMaxWaitMs c) && (0 <? cf_FetcherInterval c) && (0 <? cf_ReplicaLagMaxMessages c)
  && (0 <? cf_ReplicaLagTimeMaxMs c) && (0 <? cf_NumFetcherThreads c) && (0 <? cf_MaxInflightFetches c).

(** ** Data *)

Record StorageMessage := mkMessage {
  sm_Offset : Z;
  sm_Key : bytes;
  sm_Value : bytes;
  sm_Timestamp : Z;
  sm_Headers : gmap bytes bytes
}.

Inductive ErrorCode :=
| ErrorNone
| ErrorNotLeader
| ErrorOffsetOutOfRange
| ErrorStaleEpoch
| ErrorPartitionNotFound
| ErrorReplicaNotInReplicas
| ErrorUnknown.

Record FetchRequest := mkFetch {
  fq_ReplicaID : Z;
  fq_Topic : bytes;
  fq_PartitionID : Z;
  fq_FetchOffset : Z;
  fq_MaxBytes : Z;
  fq_LeaderEpoch : Z;
  fq_MinBytes : Z;
  fq_MaxWaitMs : Z
}.

Record FetchResponse := mkResponse {
  fp_Topic : bytes;
  fp_PartitionID : Z;
  fp_LeaderEpoch : Z;
  fp_HighWaterMark : Z;
  fp_LogEndOffset : Z;
  fp_Messages : list StorageMessage;
  fp_ErrorCode : ErrorCode
}.

Record ReplicationState := mkReplica {
  re_ReplicaID : Z;
  re_LogEndOffset : Z;
  re_HighWaterMark : Z;
  re_LastFetchTime : Z;
  re_LastCaughtUpTime : Z;
  re_FetchLag : Z;
  re_InSync : bool
}.

Record ISRChangeNotification := mkISRChange {
  ic_Topic : bytes;
  ic_PartitionID : Z;
  ic_NewISR : gset Z;
  ic_Timestamp : Z
}.

(** The storage of a broker: [StorageReader] and [StorageWriter].  [None] and [false] are
    errors. *)
Class StorageAdapter (S : Type) := {
  ReadRange : S -> Z -> Z -> Z -> option (list StorageMessage);
  GetLogEndOffset : S -> Z -> option Z;
  GetHighWaterMark : S -> Z -> option Z;
  AppendMessages : S -> Z -> list StorageMessage -> bool * S;
  SetHighWaterMark : S -> Z -> Z -> bool * S;
  Truncate : S -> Z -> Z -> bool * S
}.

(** ** The leader *)

Record LeaderReplicator := mkLeader {
  lr_config : Config;
  lr_topic : bytes;
  lr_partitionID : Z;
  lr_leaderEpoch : Z;
  lr_replicaID : Z;
  lr_replicas : gmap Z ReplicationState;
  lr_isr : gset Z;
  lr_highWaterMark : Z;
  lr_logEndOffset : Z;
  lr_isrChangeCh : list ISRChangeNotification
}.

Definition set_replicas (lr : LeaderReplicator) (m : gmap Z ReplicationState) : LeaderReplicator :=
  mkLeader (lr_config lr) (lr_topic lr) (lr_partitionID lr) (lr_leaderEpoch lr) (lr_replicaID lr) m (lr_isr lr)
    (lr_highWaterMark lr) (lr_logEndOffset lr) (lr_isrChangeCh lr).
Definition set_isr (lr : LeaderReplicator) (isr : gset Z) : LeaderReplicator :=
  mkLeader (lr_config lr) (lr_topic lr) (lr_partitionID lr) (lr_leaderEpoch lr) (lr_replicaID lr) (lr_replicas lr) isr
    (lr_highWaterMark lr) (lr_logEndOffset lr) (lr_isrChangeCh lr).
Definition set_hw (lr : LeaderReplicator) (hw : Z) : LeaderReplicator :=
  mkLeader (lr_config lr) (lr_topic lr) (lr_partitionID lr) (lr_leaderEpoch lr) (lr_replicaID lr) (lr_replicas lr) (lr_isr lr)
    hw (lr_logEndOffset lr) (lr_isrChangeCh lr).
Definition set_isrChangeCh (lr : LeaderReplicator) (ch : list ISRChangeNotification) : LeaderReplicator :=
  mkLeader (lr_config lr) (lr_topic lr) (lr_partitionID lr) (lr_leaderEpoch lr) (lr_replicaID lr) (lr_replicas lr) (lr_isr lr)
    (lr_highWaterMark lr) (lr_logEndOffset lr) ch.

Definition new_state (now rid : Z) : ReplicationState := mkReplica rid 0 0 now now 0 true.

Definition UpdateLogEndOffset (lr : LeaderReplicator) (newLEO : Z) : LeaderReplicator :=
  mkLeader (lr_config lr) (lr_topic lr) (lr_partitionID lr) (lr_leaderEpoch lr) (lr_replicaID lr) (lr_replicas lr) (lr_isr lr)
    (lr_highWaterMark lr) newLEO (lr_isrChangeCh lr).

(** The least log end offset of the in-sync replicas, and at most the leader's. *)
Definition minLEO (lr : LeaderReplicator) : Z :=
  set_fold (fun rid m => match lr_replicas lr !! rid with
                         | Some state => if re_LogEndOffset state <? m then re_LogEndOffset state else m
                         | None => m
                         end) (lr_logEndOffset lr) (lr_isr lr).

Definition updateHighWaterMark (lr : LeaderReplicator) : LeaderReplicator :=
  if lr_highWaterMark lr <? minLEO lr then set_hw lr (minLEO lr) else lr.

(** The channel of notifications holds ten; a send to a full one blocks, with the lock held. *)
Definition isrChangeCap : nat := 10.

Definition notify (now : Z) (lr : LeaderReplicator) : option LeaderReplicator :=
  if (length (lr_isrChangeCh lr) <? isrChangeCap)%nat
  then Some (set_isrChangeCh lr (lr_isrChangeCh lr ++ [mkISRChange (lr_topic lr) (lr_partitionID lr) (lr_isr lr) now]))
  else None.

(** The lag limits, in messages and in time. *)
Definition maxLagTime (c : Config) : Z := wraps 64 (cf_ReplicaLagTimeMaxMs c * Millisecond).
Definition lags (now : Z) (lr : LeaderReplicator) (st : ReplicationState) : Z * Z :=
  (wraps 64 (lr_logEndOffset lr - re_LogEndOffset st), now - re_LastFetchTime st).

(** One iteration of [checkISRMembership]; [None] is a send that blocks. *)
Definition check_replica (now : Z) (lr : LeaderReplicator) (e : Z * ReplicationState) : option LeaderReplicator :=
  let '(rid, st) := e in
  let '(messageLag, timeLag) := lags now lr st in
  let maxLag := cf_ReplicaLagMaxMessages (lr_config lr) in
  let maxTime := maxLagTime (lr_config lr) in
  let isInISR := bool_decide (rid ∈ lr_isr lr) in
  if isInISR && ((maxLag <? messageLag) || (maxTime <? timeLag)) then
    let st' := mkReplica (re_ReplicaID st) (re_LogEndOffset st) (re_HighWaterMark st) (re_LastFetchTime st) (re_LastCaughtUpTime st) (re_FetchLag st) false in
    notify now (set_replicas (set_isr lr (lr_isr lr ∖ {[rid]})) (<[rid := st']> (lr_replicas lr)))
  else if negb isInISR && (messageLag <=? Z.quot maxLag 2) && (timeLag <=? Z.quot maxTime 2) then
    let st' := mkReplica (re_ReplicaID st) (re_LogEndOffset st) (re_HighWaterMark st) (re_LastFetchTime st) now (re_FetchLag st) true in
    notify now (set_replicas (set_isr lr (lr_isr lr ∪ {[rid]})) (<[rid := st']> (lr_replicas lr)))
  else Some lr.

Section leader.
Context {S : Type} `{!StorageAdapter S}.
Context (range_ids : forall V : Type, gmap Z V -> list (Z * V)).

Definition NewLeaderReplicator (now : Z) (config : Config) (topic : bytes) (partitionID leaderEpoch replicaID : Z)
    (replicas : list Z) (s : S) : LeaderReplicator :=
  mkLeader config topic partitionID leaderEpoch replicaID
    (fold_left (fun m rid => <[rid := new_state now rid]> m) replicas ∅) (list_to_set replicas)
    (default 0 (GetHighWaterMark s partitionID)) (default 0 (GetLogEndOffset s partitionID)) [].

Definition error_response (req : FetchRequest) (epoch hw leo : Z) (code : ErrorCode) : FetchResponse :=
  mkResponse (fq_Topic req) (fq_PartitionID req) epoch hw leo [] code.

(** Messages are added while less than [maxBytes] have been. *)
Fixpoint take_bytes (maxBytes totalBytes : Z) (ms : list StorageMessage) : list StorageMessage :=
  match ms with
  | [] => []
  | m :: ms => if maxBytes <=? totalBytes then []
               else m :: take_bytes maxBytes (totalBytes + zlen (sm_Key m) + zlen (sm_Value m)) ms
  end.

Definition HandleFetchRequest (now : Z) (s : S) (lr : LeaderReplicator) (req : FetchRequest) : FetchResponse * LeaderReplicator :=
  if negb (bool_decide (fq_Topic req = lr_topic lr) && (fq_PartitionID req =? lr_partitionID lr))
  then (error_response req 0 0 0 ErrorPartitionNotFound, lr)
  else match lr_replicas lr !! fq_ReplicaID req with
  | None => (error_response req 0 0 0 ErrorReplicaNotInReplicas, lr)
  | Some st =>
      if fq_LeaderEpoch req <? lr_leaderEpoch lr then (error_response req (lr_leaderEpoch lr) 0 0 ErrorStaleEpoch, lr)
      else
        let st' := mkReplica (re_ReplicaID st) (fq_FetchOffset req) (re_HighWaterMark st) now (re_LastCaughtUpTime st)
                     (wraps 64 (lr_logEndOffset lr - fq_FetchOffset req)) (re_InSync st) in
        let lr := set_replicas lr (<[fq_ReplicaID req := st']> (lr_replicas lr)) in
        if (fq_FetchOffset req <? 0) || (lr_logEndOffset lr <? fq_FetchOffset req)
        then (error_response req (lr_leaderEpoch lr) (lr_highWaterMark lr) (lr_logEndOffset lr) ErrorOffsetOutOfRange, lr)
        else if lr_logEndOffset lr <=? fq_FetchOffset req
        then (mkResponse (fq_Topic req) (fq_PartitionID req) (lr_leaderEpoch lr) (lr_highWaterMark lr) (lr_logEndOffset lr) [] ErrorNone, lr)
        else
          let endOffset := Z.min (wraps 64 (fq_FetchOffset req + Z.quot (fq_MaxBytes req) 1024)) (lr_logEndOffset lr) in
          match ReadRange s (lr_partitionID lr) (fq_FetchOffset req) endOffset with
          | None => (error_response req (lr_leaderEpoch lr) 0 0 ErrorUnknown, lr)
          | Some ms =>
              (mkResponse (fq_Topic req) (fq_PartitionID req) (lr_leaderEpoch lr) (lr_highWaterMark lr) (lr_logEndOffset lr)
                 (take_bytes (fq_MaxBytes req) 0 ms) ErrorNone, lr)
          end
  end.

(** The loop over the replicas, in the order of the range; [None] is a goroutine that is
    blocked with the lock held. *)
Definition checkISRMembership (now : Z) (lr : LeaderReplicator) : option LeaderReplicator :=
  fold_left (fun r e => lr ← r; check_replica now lr e) (range_ids _ (lr_replicas lr)) (Some lr).

(** One tick of [hwUpdateLoop]. *)
Definition hw_tick (now : Z) (lr : LeaderReplicator) : option LeaderReplicator :=
  checkISRMembership now (updateHighWaterMark lr).

Definition GetISR (lr : LeaderReplicator) : list Z := elements (lr_isr lr).
End leader.

(** ** The follower *)

Record FollowerReplicator := mkFollower {
  fo_config : Config;
  fo_topic : bytes;
  fo_partitionID : Z;
  fo_replicaID : Z;
  fo_leaderID : Z;
  fo_leaderEpoch : Z;
  fo_logEndOffset : Z;
  fo_highWaterMark : Z;
  fo_lastFetchTime : Z;
  fo_fetchLag : Z
}.

Section follower.
Context {S : Type} `{!StorageAdapter S}.
Implicit Types fr : FollowerReplicator.

Definition NewFollowerReplicator (config : Config) (topic : bytes) (partitionID replicaID leaderID leaderEpoch : Z) (s : S) : FollowerReplicator :=
  mkFollower config topic partitionID replicaID leaderID leaderEpoch (default 0 (GetLogEndOffset s partitionID)) 0 zero_time 0.

Definition set_epoch fr (e : Z) : FollowerReplicator :=
  mkFollower (fo_config fr) (fo_topic fr) (fo_partitionID fr) (fo_replicaID fr) (fo_leaderID fr) e (fo_logEndOffset fr)
    (fo_highWaterMark fr) (fo_lastFetchTime fr) (fo_fetchLag fr).
Definition set_leo fr (leo : Z) : FollowerReplicator :=
  mkFollower (fo_config fr) (fo_topic fr) (fo_partitionID fr) (fo_replicaID fr) (fo_leaderID fr) (fo_leaderEpoch fr) leo
    (fo_highWaterMark fr) (fo_lastFetchTime fr) (fo_fetchLag fr).
Definition set_follower_hw fr (hw : Z) : FollowerReplicator :=
  mkFollower (fo_config fr) (fo_topic fr) (fo_partitionID fr) (fo_replicaID fr) (fo_leaderID fr) (fo_leaderEpoch fr) (fo_logEndOffset fr)
    hw (fo_lastFetchTime fr) (fo_fetchLag fr).
Definition set_fetched fr (now lag : Z) : FollowerReplicator :=
  mkFollower (fo_config fr) (fo_topic fr) (fo_partitionID fr) (fo_replicaID fr) (fo_leaderID fr) (fo_leaderEpoch fr) (fo_logEndOffset fr)
    (fo_highWaterMark fr) now lag.

(** The request that [performFetch] sends. *)
Definition fetch_request fr : FetchRequest :=
  mkFetch (fo_replicaID fr) (fo_topic fr) (fo_partitionID fr) (fo_logEndOffset fr) (cf_FetchMaxBytes (fo_config fr))
    (fo_leaderEpoch fr) (cf_FetchMinBytes (fo_config fr)) (cf_FetchMaxWaitMs (fo_config fr)).

(** [false] is an error. *)
Definition handleFetchError (s : S) fr (resp : FetchResponse) : bool * S * FollowerReplicator :=
  match fp_ErrorCode resp with
  | ErrorStaleEpoch => (true, s, set_epoch fr (fp_LeaderEpoch resp))
  | ErrorOffsetOutOfRange => let '(ok, s) := Truncate s (fo_partitionID fr) 0 in (ok, s, set_leo fr 0)
  | _ => (false, s, fr)
  end.

(** The rest of [handleFetchResponse], once the epoch is in order. *)
Definition append_response (now : Z) (s : S) fr (resp : FetchResponse) : bool * S * FollowerReplicator :=
  let '(s, fr) := if fo_highWaterMark fr <? fp_HighWaterMark resp
                  then let '(_, s) := SetHighWaterMark s (fo_partitionID fr) (fp_HighWaterMark resp) in
                       (s, set_follower_hw fr (fp_HighWaterMark resp))
                  else (s, fr) in
  match last (fp_Messages resp) with
  | None => (true, s, set_fetched fr now (wraps 64 (fp_LogEndOffset resp - fo_logEndOffset fr)))
  | Some m =>
      let '(ok, s) := AppendMessages s (fo_partitionID fr) (fp_Messages resp) in
      if ok
      then let leo := wraps 64 (sm_Offset m + 1) in
           (true, s, set_fetched (set_leo fr leo) now (wraps 64 (fp_LogEndOffset resp - leo)))
      else (false, s, fr)
  end.

Definition handleFetchResponse (now : Z) (s : S) fr (resp : FetchResponse) : bool * S * FollowerReplicator :=
  match fp_ErrorCode resp with
  | ErrorNone =>
      if fo_leaderEpoch fr <? fp_LeaderEpoch resp
      then let fr := set_epoch fr (fp_LeaderEpoch resp) in
           let '(ok, s) := Truncate s (fo_partitionID fr) (fo_logEndOffset fr) in
           if ok then append_response now s fr resp else (false, s, fr)
      else append_response now s fr resp
  | _ => handleFetchError s fr resp
  end.

(** [performFetch], with the leader's answer; [None] is a failed call. *)
Definition performFetch (now : Z) (answer : FetchRequest -> option FetchResponse) (s : S) fr : bool * S * FollowerReplicator :=
  match answer (fetch_request fr) with
  | None => (false, s, fr)
  | Some resp => handleFetchResponse now s fr resp
  end.

Definition UpdateLeader fr (leaderID leaderEpoch : Z) : bool * FollowerReplicator :=
  if leaderEpoch <? fo_leaderEpoch fr then (false, fr)
  else (true, mkFollower (fo_config fr) (fo_topic fr) (fo_partitionID fr) (fo_replicaID fr) leaderID leaderEpoch (fo_logEndOffset fr)
                (fo_highWaterMark fr) (fo_lastFetchTime fr) (fo_fetchLag fr)).
End follower.

(** ** Reconciliation *)

Section reconciliation.
Context {S : Type} `{!StorageAdapter S}.

(** [ReconcileAsNewLeader] and [ReconcileAsFollower] do the same to the log: all above the
    local high water mark goes. *)
Definition ReconcileAsNewLeader (partitionID : Z) (s : S) : bool * S :=
  match GetLogEndOffset s partitionID with
  | None => (false, s)
  | Some leo =>
      match GetHighWaterMark s partitionID with
      | None => (false, s)
      | Some hw => if hw <? leo then Truncate s partitionID hw else (true, s)
      end
  end.
Definition ReconcileAsFollower (partitionID : Z) (s : S) : bool * S :=
  match GetLogEndOffset s partitionID with
  | None => (false, s)
  | Some leo =>
      match GetHighWaterMark s partitionID with
      | None => (false, s)
      | Some hw => if hw <? leo then Truncate s partitionID hw else (true, s)
      end
  end.

Definition ValidateConsistency (partitionID : Z) (s : S) : bool :=
  match GetLogEndOffset s partitionID with
  | None => false
  | Some leo =>
      match GetHighWaterMark s partitionID with
      | None => false
      | Some hw => negb (leo <? hw) && negb (leo <? 0) && negb (hw <? 0)
      end
  end.

Definition GetDivergencePoint (localLEO leaderLEO : Z) : Z := if leaderLEO <=? localLEO then -1 else localLEO.

Definition ResetToOffset (partitionID : Z) (s : S) (offset : Z) : bool * S :=
  let '(ok, s) := Truncate s partitionID offset in
  if negb ok then (false, s)
  else match GetHighWaterMark s partitionID with
       | None => (false, s)
       | Some hw => if offset <? hw then SetHighWaterMark s partitionID offset else (true, s)
       end.
End reconciliation.

(** ** Failover *)

Record FailureDetector := mkDetector { fd_lastHeartbeat : gmap Z Z; fd_failureTimeout : Z }.

(** A broker that was never heard of is taken to be alive. *)
Definition HasFailed (now : Z) (fd : FailureDetector) (brokerID : Z) : bool :=
  match fd_lastHeartbeat fd !! brokerID with
  | None => false
  | Some lastSeen => fd_failureTimeout fd <? now - lastSeen
  end.
Definition FailureDetector_RecordHeartbeat (now : Z) (fd : FailureDetector) (brokerID : Z) : FailureDetector :=
  mkDetector (<[brokerID := now]> (fd_lastHeartbeat fd)) (fd_failureTimeout fd).

Record PartitionFailoverState := mkFailoverState {
  pf_topic : bytes;
  pf_partitionID : Z;
  pf_currentLeader : Z;
  pf_leaderEpoch : Z;
  pf_replicas : list Z;
  pf_isr : list Z;
  pf_lastLeaderSeen : Z;
  pf_failoverInProgress : bool
}.

Class MetadataClient (M : Type) := {
  GetPartitionLeader : M -> bytes -> Z -> option (Z * Z);
  GetPartitionISR : M -> bytes -> Z -> option (list Z);
  GetPartitionReplicas : M -> bytes -> Z -> option (list Z);
  UpdatePartitionLeader : M -> bytes -> Z -> Z -> Z -> bool * M;
  UpdatePartitionISR : M -> bytes -> Z -> list Z -> bool * M
}.

Record FailoverMetrics := mkFailoverMetrics {
  fm_TotalFailovers : Z;
  fm_SuccessfulFailovers : Z;
  fm_FailedFailovers : Z;
  fm_AverageFailoverTime : Z;
  fm_LastFailoverTime : Z
}.

Record FailoverCoordinator := mkFailover {
  fc_brokerID : Z;
  fc_partitions : gmap bytes PartitionFailoverState;
  fc_failureDetector : FailureDetector;
  fc_metrics : FailoverMetrics
}.

Definition NewFailoverCoordinator (brokerID : Z) : FailoverCoordinator :=
  mkFailover brokerID ∅ (mkDetector ∅ (30 * Second)) (mkFailoverMetrics 0 0 0 0 zero_time).

Definition with_partitions (fc : FailoverCoordinator) (m : gmap bytes PartitionFailoverState) : FailoverCoordinator :=
  mkFailover (fc_brokerID fc) m (fc_failureDetector fc) (fc_metrics fc).

Definition recordFailoverResult (now duration : Z) (success : bool) (fc : FailoverCoordinator) : FailoverCoordinator :=
  let m := fc_metrics fc in
  let total := fm_TotalFailovers m + 1 in
  let average := if total =? 1 then duration
                 else Z.quot (wraps 64 (wraps 64 (fm_AverageFailoverTime m * (total - 1)) + duration)) total in
  mkFailover (fc_brokerID fc) (fc_partitions fc) (fc_failureDetector fc)
    (mkFailoverMetrics total (fm_SuccessfulFailovers m + if success then 1 else 0) (fm_FailedFailovers m + if success then 0 else 1) average now).

Definition electNewLeader (now : Z) (fd : FailureDetector) (state : PartitionFailoverState) : option Z :=
  head (filter (fun r => HasFailed now fd r = false) (pf_isr state)).

Section failover.
Context {M : Type} `{!MetadataClient M}.
Context (range_keys : forall V : Type, gmap bytes V -> list (bytes * V)).

Definition RegisterPartition (now : Z) (meta : M) (fc : FailoverCoordinator) (topic : bytes) (partitionID : Z) : bool * FailoverCoordinator :=
  let key := PartitionKey topic partitionID in
  match fc_partitions fc !! key with
  | Some _ => (false, fc)
  | None =>
      match ('(leader, epoch) ← GetPartitionLeader meta topic partitionID;
             isr ← GetPartitionISR meta topic partitionID;
             replicas ← GetPartitionReplicas meta topic partitionID;
             Some (mkFailoverState topic partitionID leader epoch replicas isr now false)) with
      | None => (false, fc)
      | Some state => (true, with_partitions fc (<[key := state]> (fc_partitions fc)))
      end
  end.

(** [triggerFailover] on the partition stored under [key]; [duration] is what it took. *)
Definition triggerFailover (now duration : Z) (meta : M) (fc : FailoverCoordinator) (key : bytes) (state : PartitionFailoverState)
    : bool * M * FailoverCoordinator :=
  match electNewLeader now (fc_failureDetector fc) state with
  | None => (false, meta, recordFailoverResult now duration false fc)
  | Some newLeader =>
      let newEpoch := wraps 64 (pf_leaderEpoch state + 1) in
      let '(ok, meta) := UpdatePartitionLeader meta (pf_topic state) (pf_partitionID state) newLeader newEpoch in
      if ok then
        let state' := mkFailoverState (pf_topic state) (pf_partitionID state) newLeader newEpoch (pf_replicas state) (pf_isr state) now false in
        (true, meta, recordFailoverResult now duration true (with_partitions fc (<[key := state']> (fc_partitions fc))))
      else (false, meta, recordFailoverResult now duration false fc)
  end.

(** One pass over the partitions. *)
Definition check_leader (now duration : Z) (st : M * FailoverCoordinator) (e : bytes * PartitionFailoverState) : M * FailoverCoordinator :=
  let '(meta, fc) := st in
  if pf_failoverInProgress e.2 then (meta, fc)
  else if HasFailed now (fc_failureDetector fc) (pf_currentLeader e.2)
  then let '(_, meta, fc) := triggerFailover now duration meta fc e.1 e.2 in (meta, fc)
  else (meta, fc).
Definition checkLeaderHealth (now duration : Z) (meta : M) (fc : FailoverCoordinator) : M * FailoverCoordinator :=
  fold_left (check_leader now duration) (range_keys _ (fc_partitions fc)) (meta, fc).
End failover.

(** ** The manager of a partition *)

(** What became of a call that waits for replication. *)
Inductive wait_result := Replicated | BecameFollower | ManagerStopped | WaiterExpired | TimedOut | Cancelled.

(** Waiters are named by a number, for the identity of their channels. *)
Record replicationWaiter := mkWaiter { rw_id : Z; rw_offset : Z; rw_createdAt : Z }.

Record ReplicationManager := mkManager {
  rm_leaderRep : option LeaderReplicator;
  rm_followerRep : option FollowerReplicator;
  rm_isLeader : bool;
  rm_replicationWaiters : gmap Z replicationWaiter;
  (** the channels that were closed, with the error of their waiter *)
  rm_closed : gmap Z wait_result;
  rm_nextID : Z
}.

Definition NewReplicationManager : ReplicationManager := mkManager None None false ∅ ∅ 0.

Definition set_waiters (rm : ReplicationManager) (ws : gmap Z replicationWaiter) (closed : gmap Z wait_result) : ReplicationManager :=
  mkManager (rm_leaderRep rm) (rm_followerRep rm) (rm_isLeader rm) ws closed (rm_nextID rm).

(** Closing the channels of the waiters that [P] selects, with one result. *)
Definition close_waiters (P : replicationWaiter -> Prop) `{!forall w, Decision (P w)} (r : wait_result) (rm : ReplicationManager) : ReplicationManager :=
  set_waiters rm (filter (fun kv => ~ P kv.2) (rm_replicationWaiters rm))
    (map_fold (fun _ w m => if decide (P w) then <[rw_id w := r]> m else m) (rm_closed rm) (rm_replicationWaiters rm)).

Definition leader_of (rm : ReplicationManager) : option LeaderReplicator :=
  if rm_isLeader rm then rm_leaderRep rm else None.

Definition BecomeLeader (rm : ReplicationManager) (lr : LeaderReplicator) : ReplicationManager :=
  mkManager (Some lr) None true (rm_replicationWaiters rm) (rm_closed rm) (rm_nextID rm).

Definition BecomeFollower (rm : ReplicationManager) (fr : FollowerReplicator) : ReplicationManager :=
  let rm := close_waiters (fun _ => True) BecameFollower rm in
  mkManager None (Some fr) false (rm_replicationWaiters rm) (rm_closed rm) (rm_nextID rm).

Definition Manager_HandleFetchRequest {S} `{!StorageAdapter S} (now : Z) (s : S) (rm : ReplicationManager) (req : FetchRequest)
    : FetchResponse * ReplicationManager :=
  match leader_of rm with
  | None => (error_response req 0 0 0 ErrorNotLeader, rm)
  | Some lr => let '(resp, lr) := HandleFetchRequest now s lr req in
               (resp, mkManager (Some lr) (rm_followerRep rm) (rm_isLeader rm) (rm_replicationWaiters rm) (rm_closed rm) (rm_nextID rm))
  end.

(** [WaitForISR] up to where it waits: an error, a success at once, or a waiter. *)
Inductive wait_begin := NotLeader | AlreadyReplicated | Waits (id : Z).
Definition WaitForISR_begin (now : Z) (rm : ReplicationManager) (offset : Z) : wait_begin * ReplicationManager :=
  match leader_of rm with
  | None => (NotLeader, rm)
  | Some lr =>
      if offset <? lr_highWaterMark lr then (AlreadyReplicated, rm)
      else let w := mkWaiter (rm_nextID rm) offset now in
           (Waits (rm_nextID rm), mkManager (rm_leaderRep rm) (rm_followerRep rm) (rm_isLeader rm)
              (<[offset := w]> (rm_replicationWaiters rm)) (rm_closed rm) (rm_nextID rm + 1))
  end.

(** The end of the wait by its timeout or its context: the entry of the offset is deleted. *)
Definition WaitForISR_end (rm : ReplicationManager) (offset : Z) : ReplicationManager :=
  set_waiters rm (delete offset (rm_replicationWaiters rm)) (rm_closed rm).

Definition NotifyReplication (rm : ReplicationManager) : ReplicationManager :=
  match leader_of rm with
  | None => rm
  | Some lr => close_waiters (fun w => rw_offset w < lr_highWaterMark lr) Replicated rm
  end.

Definition Manager_UpdateLogEndOffset (rm : ReplicationManager) (newLEO : Z) : bool * ReplicationManager :=
  match leader_of rm with
  | None => (false, rm)
  | Some lr => (true, mkManager (Some (UpdateLogEndOffset lr newLEO)) (rm_followerRep rm) (rm_isLeader rm)
                        (rm_replicationWaiters rm) (rm_closed rm) (rm_nextID rm))
  end.

Definition cleanupExpiredWaiters (now : Z) (rm : ReplicationManager) : ReplicationManager :=
  close_waiters (fun w => 60 * Second < now - rw_createdAt w) WaiterExpired rm.

Definition Manager_Stop (rm : ReplicationManager) : ReplicationManager := close_waiters (fun _ => True) ManagerStopped rm.

Definition Manager_GetHighWaterMark (rm : ReplicationManager) : option Z :=
  if rm_isLeader rm then lr_highWaterMark <$> rm_leaderRep rm else fo_highWaterMark <$> rm_followerRep rm.

(** ** The followers of a broker *)

Definition Fetcher := gmap bytes FollowerReplicator.

Definition AddPartition (f : Fetcher) (topic : bytes) (partitionID : Z) (fr : FollowerReplicator) : bool * Fetcher :=
  let key := PartitionKey topic partitionID in
  match f !! key with Some _ => (false, f) | None => (true, <[key := fr]> f) end.
Definition RemovePartition (f : Fetcher) (topic : bytes) (partitionID : Z) : bool * Fetcher :=
  let key := PartitionKey topic partitionID in
  match f !! key with None => (false, f) | Some _ => (true, delete key f) end.
Definition Fetcher_UpdateLeader (f : Fetcher) (topic : bytes) (partitionID leaderID leaderEpoch : Z) : bool * Fetcher :=
  let key := PartitionKey topic partitionID in
  match f !! key with
  | None => (false, f)
  | Some fr => let '(ok, fr) := UpdateLeader fr leaderID leaderEpoch in (ok, <[key := fr]> f)
  end.
Definition GetReplicationLag (f : Fetcher) (topic : bytes) (partitionID : Z) : option Z :=
  fo_fetchLag <$> f !! PartitionKey topic partitionID.
Definition GetPartitionCount (f : Fetcher) : Z := Z.of_nat (size f).
End Replication.
