(* ===== verification/ReplicationSpec.v ===== *)
(** * What replication guarantees

    The high water mark is the least log end offset of the in-sync replicas and never goes
    back; a follower's log is a prefix of its leader's and catches up with it; a new leader is
    an in-sync replica that is not known to have failed; and a call that waited for
    replication returns success only below the high water mark.  The last section has the
    traces in which a committed record is lost or logs diverge. *)

From S2P Require Import Prelude GoBytes Record Placement Replication.
From Stdlib Require Import ZArith Lia Strings.Byte.
From stdpp Require Import prelude list gmap.
#[local] Notation length := Datatypes.length.
Open Scope Z_scope.
Import Replication.

(** ** The high water mark *)

Section minimum.
Context (replicas : gmap Z ReplicationState).

Definition lower (rid m : Z) : Z :=
  match replicas !! rid with Some st => if re_LogEndOffset st <? m then re_LogEndOffset st else m | None => m end.

(** The fold over the set is the minimum. *)
Lemma set_fold_lower (b : Z) (X : gset Z) :
  set_fold lower b X <= b
  /\ (forall rid st, rid ∈ X -> replicas !! rid = Some st -> set_fold lower b X <= re_LogEndOffset st)
  /\ (set_fold lower b X = b \/ exists rid st, rid ∈ X /\ replicas !! rid = Some st /\ set_fold lower b X = re_LogEndOffset st).
Proof.
  apply (set_fold_ind_L (fun r X => r <= b
    /\ (forall rid st, rid ∈ X -> replicas !! rid = Some st -> r <= re_LogEndOffset st)
    /\ (r = b \/ exists rid st, rid ∈ X /\ replicas !! rid = Some st /\ r = re_LogEndOffset st))).
  - split_and!; [lia|set_solver|by left].
  - intros x Y r Hx (H1 & H2 & H3). unfold lower. destruct (replicas !! x) as [st|] eqn:E.
    + destruct (Z.ltb_spec (re_LogEndOffset st) r).
      * split_and!; [lia| |right; exists x, st; set_solver].
        intros rid st' [->%elem_of_singleton|Hr]%elem_of_union Hs; [simplify_eq; lia|]. specialize (H2 rid st' Hr Hs). lia.
      * split_and!; [lia| |].
        -- intros rid st' [->%elem_of_singleton|Hr]%elem_of_union Hs; [simplify_eq; lia|]. by apply (H2 rid).
        -- destruct H3 as [?|(rid & st' & ? & ? & ?)]; [by left|right; exists rid, st'; set_solver].
    + split_and!; [lia| |].
      * intros rid st' [->%elem_of_singleton|Hr]%elem_of_union Hs; [congruence|]. by apply (H2 rid).
      * destruct H3 as [?|(rid & st' & ? & ? & ?)]; [by left|right; exists rid, st'; set_solver].
Qed.
End minimum.

Lemma minLEO_eq lr : minLEO lr = set_fold (lower (lr_replicas lr)) (lr_logEndOffset lr) (lr_isr lr).
Proof. done. Qed.

(** The high water mark advances to the least log end offset among the leader and the
    in-sync replicas it knows, or stays where it is when that is lower: it never passes what
    an in-sync replica has reported, and it is as high as that allows. *)
Theorem high_water_mark_exact lr :
  let lr' := updateHighWaterMark lr in
  lr_highWaterMark lr <= lr_highWaterMark lr'
  /\ (lr_highWaterMark lr < lr_highWaterMark lr' ->
       lr_highWaterMark lr' <= lr_logEndOffset lr
       /\ forall rid st, rid ∈ lr_isr lr -> lr_replicas lr !! rid = Some st -> lr_highWaterMark lr' <= re_LogEndOffset st)
  /\ (lr_logEndOffset lr <= lr_highWaterMark lr'
      \/ exists rid st, rid ∈ lr_isr lr /\ lr_replicas lr !! rid = Some st /\ re_LogEndOffset st <= lr_highWaterMark lr').
Proof.
  cbv zeta. unfold updateHighWaterMark. rewrite minLEO_eq.
  destruct (set_fold_lower (lr_replicas lr) (lr_logEndOffset lr) (lr_isr lr)) as (H1 & H2 & H3).
  set (m := set_fold _ _ _) in *. destruct (Z.ltb_spec (lr_highWaterMark lr) m); simpl.
  - split_and!; [lia|done|]. destruct H3 as [?|(rid & st & ? & ? & ?)]; [left; lia|right; exists rid, st; split_and!; [done|done|lia]].
  - split_and!; [lia|lia|]. destruct H3 as [?|(rid & st & ? & ? & ?)]; [left; lia|right; exists rid, st; split_and!; [done|done|lia]].
Qed.

(** *** Runs of a leader *)

#[local] Arguments check_replica : simpl never.

Section leader_runs.
Context {S : Type} `{!StorageAdapter S}.
Context (range_ids : forall V : Type, gmap Z V -> list (Z * V)).

(** A fetch of some replica, an append, a tick of the loop that did not block, a reader of
    the notifications. *)
Inductive leader_step (lr : LeaderReplicator) : LeaderReplicator -> Prop :=
| step_fetch now s req : leader_step lr (HandleFetchRequest now s lr req).2
| step_append leo : lr_logEndOffset lr <= leo -> leader_step lr (UpdateLogEndOffset lr leo)
| step_hw : leader_step lr (updateHighWaterMark lr)
| step_isr now lr' : checkISRMembership range_ids now lr = Some lr' -> leader_step lr lr'
| step_read ch : leader_step lr (set_isrChangeCh lr ch).

(** What a step does not touch. *)
Definition same_offsets (lr lr' : LeaderReplicator) : Prop :=
  lr_highWaterMark lr' = lr_highWaterMark lr /\ lr_logEndOffset lr' = lr_logEndOffset lr /\ lr_replicaID lr' = lr_replicaID lr
  /\ lr_config lr' = lr_config lr.

Lemma fetch_same now s lr req : same_offsets lr (HandleFetchRequest now s lr req).2.
Proof.
  unfold HandleFetchRequest. destruct (negb _); [done|]. destruct (lr_replicas lr !! _); [|done]. destruct (_ <? _); [done|].
  cbv zeta. destruct (_ || _); [done|]. destruct (_ <=? _); [done|]. by destruct (ReadRange _ _ _ _).
Qed.

Lemma notify_same now lr lr' : notify now lr = Some lr' -> same_offsets lr lr' /\ lr_replicas lr' = lr_replicas lr /\ lr_isr lr' = lr_isr lr.
Proof. unfold notify. destruct (_ <? _)%nat; [|done]. by intros [= <-]. Qed.

Lemma check_same now lr e lr' : check_replica now lr e = Some lr' -> same_offsets lr lr'.
Proof.
  unfold check_replica. destruct e as [rid st]. destruct (lags now lr st) as [ml tl]. cbv zeta.
  destruct (_ && _); [intros [H _]%notify_same; exact H|]. destruct (_ && _ && _); [intros [H _]%notify_same; exact H|]. by intros [= <-].
Qed.

Lemma check_loop_None now l : fold_left (fun r e => lr ← r; check_replica now lr e) l None = None.
Proof. by induction l. Qed.

(** A property of one iteration holds of the loop. *)
Lemma check_loop_ind (R : LeaderReplicator -> LeaderReplicator -> Prop) now : (forall lr, R lr lr) -> (forall a b c, R a b -> R b c -> R a c) ->
  forall l, (forall lr e lr', e ∈ l -> check_replica now lr e = Some lr' -> R lr lr') ->
  forall lr lr', fold_left (fun r e => lr ← r; check_replica now lr e) l (Some lr) = Some lr' -> R lr lr'.
Proof.
  intros Hr Ht l. induction l as [|e l IH]; intros Hs lr lr'; simpl; [by intros [= <-]|].
  destruct (check_replica now lr e) as [lr1|] eqn:E; [|by rewrite check_loop_None]. intros Hl.
  apply (Ht lr lr1); [apply (Hs lr e); [left|done]|]. apply IH; [|done]. intros a x b Hx. apply Hs. by right.
Qed.

Lemma checkISR_same now lr lr' : checkISRMembership range_ids now lr = Some lr' -> same_offsets lr lr'.
Proof.
  apply (check_loop_ind same_offsets); [done| |intros; by eapply check_same].
  intros a b c (A1 & A2 & A3 & A4) (B1 & B2 & B3 & B4). unfold same_offsets. by rewrite B1, B2, B3, B4.
Qed.

Lemma step_monotone lr lr' : leader_step lr lr' -> lr_highWaterMark lr <= lr_logEndOffset lr ->
  lr_highWaterMark lr <= lr_highWaterMark lr' /\ lr_logEndOffset lr <= lr_logEndOffset lr' /\ lr_highWaterMark lr' <= lr_logEndOffset lr'.
Proof.
  intros Hs Hle. destruct Hs as [now s req|leo Hleo| |now lr' Hc|ch]; simpl; try lia.
  - destruct (fetch_same now s lr req) as (-> & -> & _). lia.
  - unfold updateHighWaterMark. rewrite minLEO_eq. destruct (set_fold_lower (lr_replicas lr) (lr_logEndOffset lr) (lr_isr lr)) as (H1 & _).
    destruct (Z.ltb_spec (lr_highWaterMark lr) (set_fold (lower (lr_replicas lr)) (lr_logEndOffset lr) (lr_isr lr))); simpl; lia.
  - apply checkISR_same in Hc as (-> & -> & _). lia.
Qed.
End leader_runs.

(** Through any sequence of fetches, appends and ticks, the high water mark of a leader
    never decreases and never passes the end of its log. *)
Theorem leader_run_monotone {S : Type} `{!StorageAdapter S} range_ids lr lr' :
  lr_highWaterMark lr <= lr_logEndOffset lr -> rtc (leader_step (S := S) range_ids) lr lr' ->
  lr_highWaterMark lr <= lr_highWaterMark lr' <= lr_logEndOffset lr'.
Proof.
  intros Hle Hr. assert (lr_highWaterMark lr <= lr_highWaterMark lr' /\ lr_highWaterMark lr' <= lr_logEndOffset lr') as [? ?]; [|done].
  induction Hr as [lr|lr lr1 lr2 Hs _ IH]; [lia|]. destruct (step_monotone range_ids lr lr1 Hs Hle) as (H1 & H2 & H3).
  specialize (IH H3). lia.
Qed.

(** *** The leader's own entry *)

Section own.
Context {S : Type} `{!StorageAdapter S}.
Context (range_ids : forall V : Type, gmap Z V -> list (Z * V)).
Hypothesis range_ids_perm : forall V m, range_ids V m ≡ₚ map_to_list m.

(** Nothing fetches in the leader's name. *)
Inductive leader_alone_step (lr : LeaderReplicator) : LeaderReplicator -> Prop :=
| alone_fetch now s req : fq_ReplicaID req <> lr_replicaID lr -> leader_alone_step lr (HandleFetchRequest (S := S) now s lr req).2
| alone_append leo : lr_logEndOffset lr <= leo -> leader_alone_step lr (UpdateLogEndOffset lr leo)
| alone_hw : leader_alone_step lr (updateHighWaterMark lr)
| alone_isr now lr' : checkISRMembership range_ids now lr = Some lr' -> lr_replicaID lr' ∈ lr_isr lr' -> leader_alone_step lr lr'
| alone_read ch : leader_alone_step lr (set_isrChangeCh lr ch).

(** The entry of the leader as [NewLeaderReplicator] made it. *)
Record own_entry (lr : LeaderReplicator) : Prop := {
  own_isr : lr_replicaID lr ∈ lr_isr lr;
  own_leo : exists st, lr_replicas lr !! lr_replicaID lr = Some st /\ re_LogEndOffset st = 0
}.

Definition keeps_leo (lr lr' : LeaderReplicator) : Prop :=
  forall rid st, lr_replicas lr !! rid = Some st -> exists st', lr_replicas lr' !! rid = Some st' /\ re_LogEndOffset st' = re_LogEndOffset st.

Lemma insert_keeps (m : gmap Z ReplicationState) rid st st' : m !! rid = Some st -> re_LogEndOffset st' = re_LogEndOffset st ->
  forall r x, m !! r = Some x -> exists x', <[rid := st']> m !! r = Some x' /\ re_LogEndOffset x' = re_LogEndOffset x.
Proof.
  intros Hm Hl r x Hx. destruct (decide (r = rid)) as [->|Hne]; [rewrite lookup_insert_eq; simplify_eq; eauto|].
  rewrite lookup_insert_ne by done. eauto.
Qed.

(** The states that the loop ranges over are those of the replicas until it changes them. *)
Lemma check_loop_keeps now l : NoDup l.*1 -> forall lr lr', (forall e, e ∈ l -> lr_replicas lr !! e.1 = Some e.2) ->
  fold_left (fun r e => lr ← r; check_replica now lr e) l (Some lr) = Some lr' -> keeps_leo lr lr'.
Proof.
  induction l as [|[rid st] l IH]; intros Hd lr lr' Hl; simpl; [intros [= <-] r x Hx; eauto|].
  apply NoDup_cons in Hd as [Hn Hd]. destruct (check_replica now lr (rid, st)) as [lr1|] eqn:E; [|by rewrite check_loop_None].
  assert (lr_replicas lr !! rid = Some st) as Hst by (apply (Hl (rid, st)); left).
  assert (exists st', lr_replicas lr1 = lr_replicas lr \/ lr_replicas lr1 = <[rid := st']> (lr_replicas lr) /\ re_LogEndOffset st' = re_LogEndOffset st)
    as (st' & Hr).
  { unfold check_replica in E. destruct (lags now lr st) as [ml tl]. cbv zeta in E.
    destruct (_ && _); [apply notify_same in E as (_ & -> & _); eexists; right; split; [done|done]|].
    destruct (_ && _ && _); [apply notify_same in E as (_ & -> & _); eexists; right; split; [done|done]|].
    injection E as <-. exists st. by left. }
  intros Hf. apply IH in Hf; [| |].
  - intros r x Hx. destruct Hr as [Hr|[Hr Hleo]].
    + rewrite <- Hr in Hx. by apply Hf.
    + destruct (insert_keeps (lr_replicas lr) rid st st' Hst Hleo r x Hx) as (x1 & Hx1 & El). rewrite <- Hr in Hx1.
      destruct (Hf r x1 Hx1) as (x2 & ? & ?). exists x2. split; [done|congruence].
  - done.
  - intros [r x] Hin. simpl. assert (r <> rid) as Hne by (intros ->; apply Hn; by apply (list_elem_of_fmap_2 fst) in Hin).
    pose proof (Hl (r, x) ltac:(by right)) as Hx. simpl in Hx. destruct Hr as [->|[-> _]]; [done|by rewrite lookup_insert_ne].
Qed.

Lemma checkISR_keeps now lr lr' : checkISRMembership range_ids now lr = Some lr' -> keeps_leo lr lr'.
Proof.
  apply check_loop_keeps.
  - rewrite range_ids_perm. apply NoDup_fst_map_to_list.
  - intros [rid st] Hin. rewrite range_ids_perm in Hin. by apply elem_of_map_to_list in Hin.
Qed.

Lemma alone_step_keeps lr lr' : own_entry lr -> 0 <= lr_highWaterMark lr -> leader_alone_step lr lr' ->
  own_entry lr' /\ lr_highWaterMark lr' = lr_highWaterMark lr.
Proof.
  intros [Hi (st & Hst & Hl)] H0. intros Hs. destruct Hs as [now s req Hne|leo Hleo| |now lr' Hc Hin|ch].
  - pose proof (fetch_same now s lr req) as (-> & _ & Hid & _). split; [|done].
    assert (lr_isr (HandleFetchRequest now s lr req).2 = lr_isr lr /\ lr_replicas (HandleFetchRequest now s lr req).2 !! lr_replicaID lr = Some st) as [E1 E2].
    { unfold HandleFetchRequest. destruct (negb _); [done|]. destruct (lr_replicas lr !! fq_ReplicaID req); [|done]. destruct (_ <? _); [done|].
      cbv zeta. destruct (_ || _); [|destruct (_ <=? _); [|destruct (ReadRange _ _ _ _)]]; simpl; (split; [done|by rewrite lookup_insert_ne]). }
    split; rewrite Hid; [by rewrite E1|eauto].
  - split; [|done]. split; simpl; eauto.
  - unfold updateHighWaterMark. rewrite minLEO_eq. destruct (set_fold_lower (lr_replicas lr) (lr_logEndOffset lr) (lr_isr lr)) as (_ & H2 & _).
    specialize (H2 _ _ Hi Hst). rewrite (proj2 (Z.ltb_ge _ _)) by lia. split; [|done]. split; eauto.
  - pose proof (checkISR_same range_ids now lr lr' Hc) as (-> & _ & Hid & _). split; [|done]. apply checkISR_keeps in Hc.
    destruct (Hc _ _ Hst) as (st' & ? & ?). split; [done|]. rewrite Hid. exists st'. split; [done|congruence].
  - split; [|done]. split; simpl; eauto.
Qed.
End own.

(** The high water mark does not move while the leader counts itself among the in-sync
    replicas, however far the followers and the leader have come: the leader's own entry keeps
    the log end offset 0 it was created with, since only fetches update entries and the leader
    does not fetch from itself.  (The entry leaves the set when the lag time has passed.) *)
Theorem leader_holds_back_hw {S : Type} `{!StorageAdapter S} range_ids lr lr' :
  (forall V m, range_ids V m ≡ₚ map_to_list m) -> own_entry lr -> 0 <= lr_highWaterMark lr ->
  rtc (leader_alone_step (S := S) range_ids) lr lr' -> lr_highWaterMark lr' = lr_highWaterMark lr.
Proof.
  intros Hp Ho H0 Hr. induction Hr as [lr|lr lr1 lr2 Hs _ IH]; [done|].
  destruct (alone_step_keeps range_ids Hp lr lr1 Ho H0 Hs) as [Ho1 E]. rewrite <- E. apply IH; [done|lia].
Qed.

(** ** A leader and a follower *)

(** What the comments of the interface promise of a storage: [contents] is the log of a
    partition, whose offsets start at 0.  Nothing is promised of an append or a truncation
    that fails. *)
Class StorageLaws (S : Type) `{!StorageAdapter S} := {
  contents : S -> Z -> list StorageMessage;
  hw_of : S -> Z -> Z;
  law_leo s p : GetLogEndOffset s p = Some (zlen (contents s p));
  law_hw s p : GetHighWaterMark s p = Some (hw_of s p);
  law_read s p a b : 0 <= a <= b -> b <= zlen (contents s p) ->
    ReadRange s p a b = Some (take (Z.to_nat (b - a)) (drop (Z.to_nat a) (contents s p)));
  law_append s p ms : (AppendMessages s p ms).1 = true -> contents (AppendMessages s p ms).2 p = contents s p ++ ms;
  law_sethw s p hw : contents (SetHighWaterMark s p hw).2 p = contents s p
                     /\ ((SetHighWaterMark s p hw).1 = true -> hw_of (SetHighWaterMark s p hw).2 p = hw);
  law_truncate s p off : (Truncate s p off).1 = true -> contents (Truncate s p off).2 p = take (Z.to_nat off) (contents s p)
}.

Definition numbered (l : list StorageMessage) : Prop := forall i m, l !! i = Some m -> sm_Offset m = Z.of_nat i.

Section pair.
Context {S : Type} `{!StorageAdapter S, !StorageLaws S}.
Context (range_ids : forall V : Type, gmap Z V -> list (Z * V)).

Record pair := mkPair { pa_leader : LeaderReplicator; pa_log : S; pa_follower : FollowerReplicator; pa_copy : S }.

(** A fetch of the follower, with the answer of the leader. *)
Definition fetch_round (now : Z) (x : pair) : pair :=
  let '(resp, lr) := HandleFetchRequest now (pa_log x) (pa_leader x) (fetch_request (pa_follower x)) in
  let '(_, s, fr) := handleFetchResponse now (pa_copy x) (pa_follower x) resp in
  mkPair lr (pa_log x) fr s.

(** The follower's storage takes the messages of the leader's answer, if it is not an error. *)
Definition stored (now : Z) (x : pair) : Prop :=
  let resp := (HandleFetchRequest now (pa_log x) (pa_leader x) (fetch_request (pa_follower x))).1 in
  fp_ErrorCode resp = ErrorNone -> (handleFetchResponse now (pa_copy x) (pa_follower x) resp).1.1 = true.

(** Time passes: the leader appends, the follower fetches, an answer gets lost, the leader
    moves its high water mark and its set of replicas. *)
Inductive pair_step (x : pair) : pair -> Prop :=
| pair_append ms s : AppendMessages (pa_log x) (lr_partitionID (pa_leader x)) ms = (true, s) ->
    numbered (contents s (lr_partitionID (pa_leader x))) -> zlen (contents s (lr_partitionID (pa_leader x))) < 2 ^ 62 ->
    pair_step x (mkPair (UpdateLogEndOffset (pa_leader x) (zlen (contents s (lr_partitionID (pa_leader x))))) s (pa_follower x) (pa_copy x))
| pair_fetch now : stored now x -> pair_step x (fetch_round now x)
| pair_lost now : pair_step x (mkPair (HandleFetchRequest now (pa_log x) (pa_leader x) (fetch_request (pa_follower x))).2 (pa_log x) (pa_follower x) (pa_copy x))
| pair_tick now lr : hw_tick range_ids now (pa_leader x) = Some lr -> pair_step x (mkPair lr (pa_log x) (pa_follower x) (pa_copy x)).

(** The copy is the beginning of the log. *)
Record mirrors (x : pair) : Prop := {
  mi_partition : fo_partitionID (pa_follower x) = lr_partitionID (pa_leader x);
  mi_epoch : fo_leaderEpoch (pa_follower x) = lr_leaderEpoch (pa_leader x);
  mi_bytes : 0 <= cf_FetchMaxBytes (fo_config (pa_follower x)) < 2 ^ 62;
  mi_numbered : numbered (contents (pa_log x) (lr_partitionID (pa_leader x)));
  mi_bound : zlen (contents (pa_log x) (lr_partitionID (pa_leader x))) < 2 ^ 62;
  mi_leader : lr_logEndOffset (pa_leader x) = zlen (contents (pa_log x) (lr_partitionID (pa_leader x)));
  mi_follower : fo_logEndOffset (pa_follower x) = zlen (contents (pa_copy x) (lr_partitionID (pa_leader x)));
  mi_prefix : contents (pa_copy x) (lr_partitionID (pa_leader x)) `prefix_of` contents (pa_log x) (lr_partitionID (pa_leader x))
}.

Lemma take_bytes_take maxBytes ms : forall total, exists k, take_bytes maxBytes total ms = take k ms
  /\ (total < maxBytes -> ms <> [] -> (0 < k)%nat).
Proof.
  induction ms as [|m ms IH]; intros total; simpl; [by exists O|]. destruct (Z.leb_spec maxBytes total).
  - exists O. split; [done|lia].
  - destruct (IH (total + zlen (sm_Key m) + zlen (sm_Value m))) as (k & -> & _). exists (Datatypes.S k). split; [done|lia].
Qed.

Lemma fetch_keeps now s lr req : same_offsets lr (HandleFetchRequest (S := S) now s lr req).2
  /\ lr_partitionID (HandleFetchRequest now s lr req).2 = lr_partitionID lr /\ lr_leaderEpoch (HandleFetchRequest now s lr req).2 = lr_leaderEpoch lr
  /\ lr_topic (HandleFetchRequest now s lr req).2 = lr_topic lr.
Proof.
  split; [apply fetch_same|]. unfold HandleFetchRequest. destruct (negb _); [done|]. destruct (lr_replicas lr !! _); [|done]. destruct (_ <? _); [done|].
  cbv zeta. destruct (_ || _); [done|]. destruct (_ <=? _); [done|]. by destruct (ReadRange _ _ _ _).
Qed.

(** What the leader answers to a follower whose log is the beginning of its own: an error that
    the follower ignores, or the next messages. *)
Lemma mirror_answer now x : mirrors x ->
  let resp := (HandleFetchRequest now (pa_log x) (pa_leader x) (fetch_request (pa_follower x))).1 in
  let L := contents (pa_log x) (lr_partitionID (pa_leader x)) in
  (fp_ErrorCode resp = ErrorPartitionNotFound \/ fp_ErrorCode resp = ErrorReplicaNotInReplicas)
  \/ fp_ErrorCode resp = ErrorNone /\ fp_LeaderEpoch resp = fo_leaderEpoch (pa_follower x)
     /\ exists k, fp_Messages resp = take k (drop (Z.to_nat (fo_logEndOffset (pa_follower x))) L)
        /\ (1024 <= cf_FetchMaxBytes (fo_config (pa_follower x)) -> fo_logEndOffset (pa_follower x) < zlen L -> (0 < k)%nat).
Proof.
  intros [Hp He Hb Hn Hl Hle Hf Hpre]. cbv zeta. set (L := contents (pa_log x) _) in *. apply prefix_length in Hpre.
  assert (0 <= fo_logEndOffset (pa_follower x) <= zlen L) as Hr by lia.
  unfold HandleFetchRequest. simpl. destruct (negb _); [by left; left|]. destruct (lr_replicas (pa_leader x) !! _); [|by left; right].
  right. rewrite He, Z.ltb_irrefl. cbv zeta. simpl. rewrite (proj2 (Z.ltb_ge _ _)), (proj2 (Z.ltb_ge _ _)) by lia. simpl.
  destruct (Z.leb_spec (lr_logEndOffset (pa_leader x)) (fo_logEndOffset (pa_follower x))).
  - simpl. split_and!; try done. exists O. split; [done|]. lia.
  - pose proof (Z.quot_pos (cf_FetchMaxBytes (fo_config (pa_follower x))) 1024 ltac:(lia) ltac:(lia)) as Hq.
    assert (Z.quot (cf_FetchMaxBytes (fo_config (pa_follower x))) 1024 < 2 ^ 62) as Hq2 by (apply Z.quot_lt_upper_bound; lia).
    rewrite wraps_64_id by (unfold in_i64; lia). rewrite law_read by (fold L; lia). simpl. split_and!; try done.
    match goal with |- context [take_bytes ?b 0 (take ?j ?l)] => destruct (take_bytes_take b (take j l) 0) as (k & -> & Hk); exists (Nat.min k j) end.
    rewrite take_take. split; [done|]. intros Hm Hlt.
    assert (1 <= Z.quot (cf_FetchMaxBytes (fo_config (pa_follower x))) 1024) by (apply Z.quot_le_lower_bound; lia).
    assert (0 < k)%nat; [|lia]. apply Hk; [lia|]. intros En. apply (f_equal length) in En. rewrite length_take, length_drop in En. simpl in En. fold L in En. lia.
Qed.

Lemma last_offset (L : list StorageMessage) n k m : numbered L -> last (take k (drop n L)) = Some m ->
  sm_Offset m + 1 = Z.of_nat n + zlen (take k (drop n L)).
Proof.
  intros Hn Hm. assert (take k (drop n L) <> []) as Hne by (intros E; by rewrite E in Hm).
  rewrite last_lookup in Hm. apply lookup_take_Some in Hm as [Hm _]. rewrite lookup_drop in Hm. rewrite (Hn _ _ Hm).
  destruct (take k (drop n L)); [done|]. simpl. lia.
Qed.

(** Appending the next messages keeps the mirror. *)
Lemma mirror_append now x resp k : mirrors x ->
  let L := contents (pa_log x) (lr_partitionID (pa_leader x)) in
  fp_ErrorCode resp = ErrorNone -> fp_LeaderEpoch resp = fo_leaderEpoch (pa_follower x) ->
  fp_Messages resp = take k (drop (Z.to_nat (fo_logEndOffset (pa_follower x))) L) ->
  let '(ok, s, fr) := handleFetchResponse now (pa_copy x) (pa_follower x) resp in
  fo_partitionID fr = fo_partitionID (pa_follower x) /\ fo_leaderEpoch fr = fo_leaderEpoch (pa_follower x)
  /\ fo_config fr = fo_config (pa_follower x) /\ fo_topic fr = fo_topic (pa_follower x) /\ fo_replicaID fr = fo_replicaID (pa_follower x)
  /\ (ok = true -> fo_logEndOffset fr = zlen (contents s (lr_partitionID (pa_leader x))))
  /\ (ok = true -> contents s (lr_partitionID (pa_leader x)) `prefix_of` L)
  /\ (ok = true -> fo_logEndOffset fr = Z.min (fo_logEndOffset (pa_follower x) + Z.of_nat k) (zlen L))
  /\ ((forall s p ms, (AppendMessages s p ms).1 = true) -> ok = true).
Proof.
  intros [Hp He Hb Hn Hl Hle Hf Hpre]. cbv zeta. set (L := contents (pa_log x) _) in *. set (p := lr_partitionID (pa_leader x)) in *.
  intros E1 E2 E3. unfold handleFetchResponse. rewrite E1, E2, Z.ltb_irrefl. unfold append_response. rewrite Hp.
  set (n := Z.to_nat (fo_logEndOffset (pa_follower x))) in *.
  assert (contents (pa_copy x) p = take n L) as Hc.
  { destruct Hpre as [r Hr]. rewrite Hr. rewrite take_app_length'; [done|lia]. }
  assert (exists s1 fr1, (if fo_highWaterMark (pa_follower x) <? fp_HighWaterMark resp
      then let '(_, s) := SetHighWaterMark (pa_copy x) p (fp_HighWaterMark resp) in (s, set_follower_hw (pa_follower x) (fp_HighWaterMark resp))
      else (pa_copy x, pa_follower x)) = (s1, fr1)
    /\ contents s1 p = take n L /\ fo_partitionID fr1 = p /\ fo_leaderEpoch fr1 = fo_leaderEpoch (pa_follower x)
    /\ fo_config fr1 = fo_config (pa_follower x) /\ fo_topic fr1 = fo_topic (pa_follower x) /\ fo_replicaID fr1 = fo_replicaID (pa_follower x)
    /\ fo_logEndOffset fr1 = fo_logEndOffset (pa_follower x)) as (s1 & fr1 & -> & C1 & P1 & P2 & P3 & P4 & P5 & P6).
  { destruct (_ <? _); [|by exists (pa_copy x), (pa_follower x)]. pose proof (law_sethw (pa_copy x) p (fp_HighWaterMark resp)) as [Hset _].
    destruct (SetHighWaterMark (pa_copy x) p (fp_HighWaterMark resp)) as [ok s]. simpl in Hset. exists s, (set_follower_hw (pa_follower x) (fp_HighWaterMark resp)).
    rewrite Hset, Hc. done. }
  assert (length (take n L) = n) as Hlen by (rewrite <- Hc; lia). pose proof (prefix_length _ _ Hpre) as Hpl.
  rewrite length_take in Hlen.
  destruct (last (fp_Messages resp)) as [m|] eqn:El.
  - rewrite P1. pose proof (law_append s1 p (fp_Messages resp)) as Ha. destruct (AppendMessages s1 p (fp_Messages resp)) as [ok s2] eqn:Eap. simpl in Ha.
    rewrite C1 in Ha. assert (take n L ++ fp_Messages resp = take (n + k) L) as Hcat by (rewrite E3; apply take_take_drop). rewrite Hcat in Ha.
    assert (wraps 64 (sm_Offset m + 1) = zlen (take (n + k) L)) as Hm.
    { rewrite E3 in El. rewrite (last_offset L n k m Hn El). rewrite length_take, length_drop, length_take, wraps_64_id by (unfold in_i64; lia). lia. }
    destruct ok; simpl.
    + specialize (Ha eq_refl). split_and!; try done; intros _; [by rewrite Hm, Ha|rewrite Ha; apply prefix_take|rewrite Hm, length_take; lia].
    + split_and!; try done. intros Hrel. pose proof (Hrel s1 p (fp_Messages resp)) as Hx. by rewrite Eap in Hx.
  - apply last_None in El. rewrite El in E3. simpl. split_and!; try done; [intros _; rewrite P6, C1, length_take; lia|intros _; rewrite C1; apply prefix_take|].
    intros _. rewrite P6. symmetry in E3. apply (f_equal length) in E3. rewrite length_take, length_drop in E3. simpl in E3. lia.
Qed.

Lemma fetch_round_mirrors now x : mirrors x -> stored now x -> mirrors (fetch_round now x)
  /\ pa_log (fetch_round now x) = pa_log x /\ lr_partitionID (pa_leader (fetch_round now x)) = lr_partitionID (pa_leader x)
  /\ fo_config (pa_follower (fetch_round now x)) = fo_config (pa_follower x) /\ fo_topic (pa_follower (fetch_round now x)) = fo_topic (pa_follower x)
  /\ fo_replicaID (pa_follower (fetch_round now x)) = fo_replicaID (pa_follower x)
  /\ lr_topic (pa_leader (fetch_round now x)) = lr_topic (pa_leader x).
Proof.
  intros Hm Hst. unfold stored in Hst. pose proof (mirror_answer now x Hm) as Ha.
  pose proof (fetch_keeps now (pa_log x) (pa_leader x) (fetch_request (pa_follower x))) as ((_ & K1 & _) & K2 & K3 & K4).
  pose proof (fun resp k => mirror_append now x resp k Hm) as Hap. cbv zeta in Ha, Hap. unfold fetch_round.
  destruct (HandleFetchRequest now (pa_log x) (pa_leader x) (fetch_request (pa_follower x))) as [resp lr]. simpl in *.
  destruct Ha as [He|(E1 & E2 & k & E3 & _)].
  - assert (handleFetchResponse now (pa_copy x) (pa_follower x) resp = (false, pa_copy x, pa_follower x)) as ->.
    { unfold handleFetchResponse, handleFetchError. by destruct He as [-> | ->]. }
    simpl. split_and!; try done. destruct Hm as [M1 M2 M3 M4 M5 M6 M7 M8]. split; simpl; rewrite ?K1, ?K2, ?K3; try done.
  - specialize (Hap resp k E1 E2 E3). specialize (Hst E1). destruct (handleFetchResponse now (pa_copy x) (pa_follower x) resp) as [[ok s] fr].
    simpl in Hst. destruct Hap as (A1 & A2 & A3 & A4 & A5 & A6 & A7 & _). specialize (A6 Hst). specialize (A7 Hst). simpl. split_and!; try done.
    destruct Hm as [M1 M2 M3 M4 M5 M6 M7 M8]. split; simpl; rewrite ?K1, ?K2, ?K3, ?A1, ?A2, ?A3; try done.
Qed.

Lemma hw_tick_keeps now lr lr' : hw_tick range_ids now lr = Some lr' ->
  lr_logEndOffset lr' = lr_logEndOffset lr /\ lr_partitionID lr' = lr_partitionID lr /\ lr_leaderEpoch lr' = lr_leaderEpoch lr.
Proof.
  unfold hw_tick. intros Hc. assert (lr_logEndOffset lr' = lr_logEndOffset (updateHighWaterMark lr) /\ lr_partitionID lr' = lr_partitionID (updateHighWaterMark lr)
    /\ lr_leaderEpoch lr' = lr_leaderEpoch (updateHighWaterMark lr)) as (-> & -> & ->).
  { revert Hc. apply (check_loop_ind (fun a b => lr_logEndOffset b = lr_logEndOffset a /\ lr_partitionID b = lr_partitionID a /\ lr_leaderEpoch b = lr_leaderEpoch a)); [done| |].
    - intros a b c (-> & -> & ->). done.
    - intros a e b _. unfold check_replica. destruct e as [rid st], (lags now a st) as [ml tl]. cbv zeta. unfold notify.
      destruct (_ && _); [destruct (_ <? _)%nat; [by intros [= <-]|done]|].
      destruct (_ && _ && _); [destruct (_ <? _)%nat; [by intros [= <-]|done]|by intros [= <-]]. }
  unfold updateHighWaterMark. by destruct (_ <? _).
Qed.

Lemma pair_step_mirrors x y : pair_step x y -> mirrors x -> mirrors y.
Proof.
  intros Hs Hm. destruct Hs as [ms s Ha Hnum Hlen|now Hst|now|now lr Ht].
  - destruct Hm as [M1 M2 M3 M4 M5 M6 M7 M8]. split; simpl; try done.
    pose proof (law_append (pa_log x) (lr_partitionID (pa_leader x)) ms) as L. rewrite Ha in L. simpl in L. rewrite (L eq_refl).
    by apply prefix_app_r.
  - by apply fetch_round_mirrors.
  - pose proof (fetch_keeps now (pa_log x) (pa_leader x) (fetch_request (pa_follower x))) as ((_ & K1 & _) & K2 & K3 & _).
    destruct Hm as [M1 M2 M3 M4 M5 M6 M7 M8]. split; simpl; rewrite ?K1, ?K2, ?K3; done.
  - apply hw_tick_keeps in Ht as (K1 & K2 & K3). destruct Hm as [M1 M2 M3 M4 M5 M6 M7 M8]. split; simpl; rewrite ?K1, ?K2, ?K3; done.
Qed.

Lemma reliable_stored now x : mirrors x -> (forall s p ms, (AppendMessages (S := S) s p ms).1 = true) -> stored now x.
Proof.
  intros Hm Hrel. unfold stored. pose proof (mirror_answer now x Hm) as Ha. cbv zeta in *.
  set (resp := (HandleFetchRequest _ _ _ _).1) in *. intros He. destruct Ha as [[Ha|Ha]|(E1 & E2 & k & E3 & _)]; [congruence..|].
  pose proof (mirror_append now x resp k Hm E1 E2 E3) as Hap. destruct (handleFetchResponse _ _ _ _) as [[ok s] fr]. by apply Hap.
Qed.

(** Several fetches, at the given times. *)
Definition fetch_rounds (ts : list Z) (x : pair) : pair := fold_left (fun x now => fetch_round now x) ts x.

(** The follower is one of the leader's replicas of the same topic. *)
Definition known (x : pair) : Prop :=
  fo_topic (pa_follower x) = lr_topic (pa_leader x) /\ is_Some (lr_replicas (pa_leader x) !! fo_replicaID (pa_follower x)).

Lemma fetch_replicas now s lr req rid : is_Some (lr_replicas lr !! rid) -> is_Some (lr_replicas (HandleFetchRequest (S := S) now s lr req).2 !! rid).
Proof.
  intros Hs. assert (forall st, is_Some (<[fq_ReplicaID req := st]> (lr_replicas lr) !! rid)) as Hi by (intros; apply lookup_insert_is_Some'; by right).
  unfold HandleFetchRequest. destruct (negb _); [done|]. destruct (lr_replicas lr !! fq_ReplicaID req); [|done]. destruct (_ <? _); [done|].
  cbv zeta. destruct (_ || _); [apply Hi|]. destruct (_ <=? _); [apply Hi|]. destruct (ReadRange _ _ _ _); apply Hi.
Qed.

(** A round with a storage that does not fail brings the follower at least one message
    further. *)
Lemma fetch_round_progress now x : mirrors x -> known x -> 1024 <= cf_FetchMaxBytes (fo_config (pa_follower x)) ->
  (forall s p ms, (AppendMessages (S := S) s p ms).1 = true) ->
  Z.min (fo_logEndOffset (pa_follower x) + 1) (lr_logEndOffset (pa_leader x)) <= fo_logEndOffset (pa_follower (fetch_round now x))
  /\ known (fetch_round now x).
Proof.
  intros Hm [Ht Hk] Hb Hrel. pose proof (mirror_answer now x Hm) as Ha. pose proof (fun resp k => mirror_append now x resp k Hm) as Hap.
  pose proof (fetch_replicas now (pa_log x) (pa_leader x) (fetch_request (pa_follower x)) (fo_replicaID (pa_follower x)) Hk) as Hr.
  pose proof (fetch_keeps now (pa_log x) (pa_leader x) (fetch_request (pa_follower x))) as (_ & _ & _ & K4).
  cbv zeta in Ha, Hap.
  assert (fp_ErrorCode (HandleFetchRequest now (pa_log x) (pa_leader x) (fetch_request (pa_follower x))).1 <> ErrorPartitionNotFound
    /\ fp_ErrorCode (HandleFetchRequest now (pa_log x) (pa_leader x) (fetch_request (pa_follower x))).1 <> ErrorReplicaNotInReplicas) as [N1 N2].
  { unfold HandleFetchRequest. simpl. rewrite bool_decide_true, (mi_partition x Hm), Z.eqb_refl by done. simpl.
    destruct Hk as [st ->]. destruct (_ <? _); [done|]. cbv zeta. destruct (_ || _); [done|]. destruct (_ <=? _); [done|]. by destruct (ReadRange _ _ _ _). }
  unfold fetch_round. destruct (HandleFetchRequest now (pa_log x) (pa_leader x) (fetch_request (pa_follower x))) as [resp lr]. simpl in *.
  destruct Ha as [[He|He]|(E1 & E2 & k & E3 & Hpos)]; [done..|]. specialize (Hap resp k E1 E2 E3).
  destruct (handleFetchResponse now (pa_copy x) (pa_follower x) resp) as [[ok s] fr].
  destruct Hap as (A1 & A2 & A3 & A4 & A5 & A6 & A7 & A8 & A9). simpl. rewrite (A9 Hrel) in A8. specialize (A8 eq_refl). split.
  - rewrite A8, (mi_leader x Hm). destruct (decide (fo_logEndOffset (pa_follower x) < zlen (contents (pa_log x) (lr_partitionID (pa_leader x))))) as [Hlt|Hge].
    + specialize (Hpos Hb Hlt). lia.
    + lia.
  - split; simpl; [by rewrite A4, K4|by rewrite A5].
Qed.

Lemma fetch_rounds_catch_up ts : forall x, mirrors x -> known x -> 1024 <= cf_FetchMaxBytes (fo_config (pa_follower x)) ->
  (forall s p ms, (AppendMessages (S := S) s p ms).1 = true) ->
  mirrors (fetch_rounds ts x) /\ pa_log (fetch_rounds ts x) = pa_log x /\ lr_partitionID (pa_leader (fetch_rounds ts x)) = lr_partitionID (pa_leader x)
  /\ Z.min (fo_logEndOffset (pa_follower x) + zlen ts) (lr_logEndOffset (pa_leader x)) <= fo_logEndOffset (pa_follower (fetch_rounds ts x)).
Proof.
  induction ts as [|now ts IH]; intros x Hm Hk Hb Hrel; [split_and!; simpl; done || lia|]. simpl.
  destruct (fetch_round_progress now x Hm Hk Hb Hrel) as [Hp Hk']. destruct (fetch_round_mirrors now x Hm (reliable_stored now x Hm Hrel)) as (Hm' & El & Ep & Ec & _).
  destruct (IH (fetch_round now x) Hm' Hk' ltac:(by rewrite Ec) Hrel) as (H1 & H2 & H3 & H4). rewrite El in H2. rewrite Ep in H3. split_and!; [done|done|done|].
  rewrite (mi_leader _ Hm'), El, Ep in H4. rewrite (mi_leader x Hm) in *. simpl in *. lia.
Qed.
End pair.

(** C25: Under one leader a follower's log stays the beginning of the leader's.  Take a follower
    in the epoch of its leader whose log is a prefix of the leader's, as an empty one is, with
    its log end offset right.  Whatever the leader then appends, however often the follower
    fetches, loses the answers or is answered with an error, its log is at every moment a prefix
    of the leader's, of the length it believes: no message is skipped, repeated or reordered.
    This holds while the leader does not change and the follower's storage takes what it is
    given; after a change of leader or a half-stored batch it need not. *)
Theorem follower_mirrors_leader {S : Type} `{!StorageAdapter S, !StorageLaws S} range_ids (x y : pair (S := S)) :
  mirrors x -> rtc (pair_step range_ids) x y ->
  contents (pa_copy y) (lr_partitionID (pa_leader y)) `prefix_of` contents (pa_log y) (lr_partitionID (pa_leader y))
  /\ fo_logEndOffset (pa_follower y) = zlen (contents (pa_copy y) (lr_partitionID (pa_leader y))).
Proof.
  intros Hm Hr. assert (mirrors y) as [M1 M2 M3 M4 M5 M6 M7 M8]; [|done].
  induction Hr as [x|x x1 y Hs _ IH]; [done|]. apply IH. by eapply pair_step_mirrors.
Qed.

(** C26: A follower catches up.  Take a follower in the epoch of its leader, which is one of the
    leader's replicas and whose log is a prefix of the leader's.  When the leader's log rests
    and the follower's storage does not fail, as many fetches as the follower is behind make
    the logs equal, if a fetch may return 1024 bytes. *)
Theorem follower_catches_up {S : Type} `{!StorageAdapter S, !StorageLaws S} (x : pair (S := S)) ts :
  mirrors x -> known x -> 1024 <= cf_FetchMaxBytes (fo_config (pa_follower x)) ->
  (forall s p ms, (AppendMessages (S := S) s p ms).1 = true) ->
  lr_logEndOffset (pa_leader x) <= fo_logEndOffset (pa_follower x) + zlen ts ->
  contents (pa_copy (fetch_rounds ts x)) (lr_partitionID (pa_leader x)) = contents (pa_log x) (lr_partitionID (pa_leader x)).
Proof.
  intros Hm Hk Hb Hrel Hts. destruct (fetch_rounds_catch_up ts x Hm Hk Hb Hrel) as (Hm' & El & Ep & Hl).
  pose proof (mi_prefix _ Hm') as Hp. pose proof (mi_follower _ Hm') as Hf. rewrite Ep, El in Hp. rewrite Ep in Hf. rewrite (mi_leader x Hm) in *.
  apply (prefix_length_eq _ _ Hp). lia.
Qed.

(** ** Failover *)

Lemma filter_first {A} (P : A -> Prop) `{!forall x, Decision (P x)} l x rest : filter P l = x :: rest ->
  exists a b, l = a ++ x :: b /\ P x /\ Forall (fun y => ~ P y) a.
Proof.
  induction l as [|y l IH]; [done|]. rewrite filter_cons. case_decide as Hd; intros Ef.
  - injection Ef as -> _. by exists [], l.
  - destruct (IH Ef) as (a & b & -> & Hx & Ha). exists (y :: a), b. by repeat constructor.
Qed.

(** A failover that succeeds makes leader the first in-sync replica that is not known to
    have failed (all before it in the set have), in a new epoch, in the metadata and in the
    coordinator's own record alike; one that does not succeed, for want of such a replica or
    because the metadata refused, changes nothing but the count of failures. *)
Theorem failover_elects_alive_isr {M : Type} `{!MetadataClient M} now d (meta : M) fc key state :
  in_i64 (pf_leaderEpoch state + 1) ->
  let failed := HasFailed now (fc_failureDetector fc) in
  let '(ok, meta', fc') := triggerFailover now d meta fc key state in
  if ok
  then exists before l after, pf_isr state = before ++ l :: after
         /\ failed l = false /\ Forall (fun r => failed r = true) before
         /\ UpdatePartitionLeader meta (pf_topic state) (pf_partitionID state) l (pf_leaderEpoch state + 1) = (true, meta')
         /\ exists st, fc_partitions fc' !! key = Some st /\ pf_currentLeader st = l /\ pf_leaderEpoch st = pf_leaderEpoch state + 1
  else fc_partitions fc' = fc_partitions fc /\ fm_FailedFailovers (fc_metrics fc') = fm_FailedFailovers (fc_metrics fc) + 1.
Proof.
  intros He failed. unfold triggerFailover, electNewLeader. fold failed.
  destruct (filter (fun r => failed r = false) (pf_isr state)) as [|l alive] eqn:Ef; simpl; [done|].
  rewrite wraps_64_id by done. destruct (UpdatePartitionLeader meta _ _ l _) as [[] meta'] eqn:Eu; simpl; [|done].
  destruct (filter_first _ _ _ _ Ef) as (a & b & Hab & Hl & Ha). exists a, l, b. split_and!; try done.
  - eapply Forall_impl; [exact Ha|]. intros r Hr. by apply not_false_is_true.
  - eexists. rewrite lookup_insert_eq. done.
Qed.

(** ** Waiting for replication *)

Lemma close_waiters_spec (P : replicationWaiter -> Prop) `{!forall w, Decision (P w)} r rm id res :
  rm_closed (close_waiters P r rm) !! id = Some res ->
  rm_closed rm !! id = Some res \/ res = r /\ exists off w, rm_replicationWaiters rm !! off = Some w /\ P w /\ rw_id w = id.
Proof.
  unfold close_waiters, set_waiters. simpl.
  apply (map_fold_weak_ind (fun m ws => m !! id = Some res -> rm_closed rm !! id = Some res
    \/ res = r /\ exists off w, ws !! off = Some w /\ P w /\ rw_id w = id)); [by left|].
  intros off w ws m Hn IH Hm. assert (m !! id = Some res -> rm_closed rm !! id = Some res
    \/ res = r /\ exists off' w', <[off := w]> ws !! off' = Some w' /\ P w' /\ rw_id w' = id) as Hold.
  { intros Hx. destruct (IH Hx) as [?|(-> & off' & w' & ? & ?)]; [by left|]. right. split; [done|]. exists off', w'. split; [|done].
    rewrite lookup_insert_ne; [done|congruence]. }
  case_decide as Hp; [|by apply Hold]. destruct (decide (rw_id w = id)) as [Ei|Ei].
  - rewrite Ei, lookup_insert_eq in Hm. injection Hm as <-. right. split; [done|]. exists off, w. by rewrite lookup_insert_eq.
  - rewrite lookup_insert_ne in Hm by done. by apply Hold.
Qed.

(** Whoever waits for an offset to be replicated is told that it is only when the offset is
    below the high water mark: at once, or by a notification. *)
Theorem wait_success_below_hw now rm offset lr : leader_of rm = Some lr ->
  ((WaitForISR_begin now rm offset).1 = AlreadyReplicated -> offset < lr_highWaterMark lr)
  /\ (forall id, rm_closed rm !! id = None -> rm_closed (NotifyReplication rm) !! id = Some Replicated ->
       exists off w, rm_replicationWaiters rm !! off = Some w /\ rw_id w = id /\ rw_offset w < lr_highWaterMark lr).
Proof.
  intros Hl. unfold WaitForISR_begin, NotifyReplication. rewrite Hl. split.
  - destruct (Z.ltb_spec offset (lr_highWaterMark lr)); [done|]. done.
  - intros id Hn Hc. apply close_waiters_spec in Hc as [Hc|(_ & off & w & H1 & H2 & H3)]; [congruence|]. eauto.
Qed.

(** ** A storage *)

Record plain := mkPlain { pl_log : list StorageMessage; pl_hw : Z }.
#[export] Instance plain_adapter : StorageAdapter plain := {
  ReadRange s _ a b := Some (take (Z.to_nat (b - a)) (drop (Z.to_nat a) (pl_log s)));
  GetLogEndOffset s _ := Some (zlen (pl_log s));
  GetHighWaterMark s _ := Some (pl_hw s);
  AppendMessages s _ ms := (true, mkPlain (pl_log s ++ ms) (pl_hw s));
  SetHighWaterMark s _ hw := (true, mkPlain (pl_log s) hw);
  Truncate s _ off := (true, mkPlain (take (Z.to_nat off) (pl_log s)) (pl_hw s))
}.
#[export] Instance plain_storage_laws : StorageLaws plain.
Proof. by refine {| contents s _ := pl_log s; hw_of s _ := pl_hw s |}. Defined.

Definition msg (off : Z) (b : byte) : StorageMessage := mkMessage off [] [b] 0 ∅.
Definition msgs (n : nat) : list StorageMessage := (fun i => msg (Z.of_nat i) x61) <$> seq 0 n.
Definition ids_list (V : Type) (m : gmap Z V) : list (Z * V) := map_to_list m.

Lemma msgs_numbered n : numbered (msgs n).
Proof. intros i m Hi. apply list_lookup_fmap_Some in Hi as (j & -> & [-> _]%lookup_seq). simpl. lia. Qed.

(** A leader with id 1 of [n] messages, and what follower 2 and its storage are. *)
Definition leader_of_n (n : nat) (replicas : list Z) (now : Z) : LeaderReplicator :=
  NewLeaderReplicator now DefaultConfig [x74] 0 1 1 replicas (mkPlain (msgs n) 0).
Definition follower_2 (s : plain) (epoch : Z) : FollowerReplicator := NewFollowerReplicator DefaultConfig [x74] 0 2 1 epoch s.
Definition pair_of (n k : nat) : pair :=
  mkPair (leader_of_n n [1; 2] 0) (mkPlain (msgs n) 0) (follower_2 (mkPlain (msgs k) 0) 1) (mkPlain (msgs k) 0).

Lemma pair_of_mirrors : mirrors (pair_of 3 1).
Proof.
  split; try reflexivity; try (vm_compute; split; discriminate || done); [apply msgs_numbered|]. simpl. by exists [msg 1 x61; msg 2 x61].
Qed.

Lemma leader_run_monotone_witness :
  let lr := leader_of_n 10 [2] 0 in
  let req := mkFetch 2 [x74] 0 7 1048576 1 1 500 in
  let lr' := updateHighWaterMark (HandleFetchRequest 5 (mkPlain (msgs 10) 0) lr req).2 in
  lr_highWaterMark lr' = 7 /\ lr_highWaterMark lr <= lr_highWaterMark lr' <= lr_logEndOffset lr'.
Proof.
  split; [reflexivity|]. apply (leader_run_monotone (S := plain) ids_list); [vm_compute; discriminate|].
  eapply rtc_l; [apply (step_fetch ids_list _ 5 (mkPlain (msgs 10) 0) (mkFetch 2 [x74] 0 7 1048576 1 1 500))|].
  eapply rtc_l; [apply (step_hw (S := plain))|apply rtc_refl].
Defined.

Lemma leader_holds_back_hw_witness :
  let lr := leader_of_n 10 [1; 2] 0 in
  let lr' := updateHighWaterMark (HandleFetchRequest 5 (mkPlain (msgs 10) 0) lr (mkFetch 2 [x74] 0 10 1048576 1 1 500)).2 in
  lr_highWaterMark lr' = 0.
Proof.
  apply (leader_holds_back_hw (S := plain) ids_list (leader_of_n 10 [1; 2] 0)); [done| |vm_compute; discriminate|].
  - split; [vm_compute; set_solver|]. eexists. split; reflexivity.
  - eapply rtc_l; [apply (alone_fetch ids_list _ 5 (mkPlain (msgs 10) 0) (mkFetch 2 [x74] 0 10 1048576 1 1 500)); discriminate|].
    eapply rtc_l; [apply (alone_hw (S := plain))|apply rtc_refl].
Defined.

Lemma follower_mirrors_leader_witness :
  let y := fetch_round 6 (pair_of 3 1) in
  pl_log (pa_copy y) `prefix_of` pl_log (pa_log y) /\ fo_logEndOffset (pa_follower y) = zlen (pl_log (pa_copy y)).
Proof.
  assert (rtc (pair_step ids_list) (pair_of 3 1) (fetch_round 6 (pair_of 3 1))) as Hr by (eapply rtc_l; [apply (pair_fetch ids_list _ 6); intros _; vm_compute; reflexivity|apply rtc_refl]).
  exact (follower_mirrors_leader ids_list (pair_of 3 1) (fetch_round 6 (pair_of 3 1)) pair_of_mirrors Hr).
Defined.

Lemma follower_catches_up_witness : pl_log (pa_copy (fetch_rounds [5; 6] (pair_of 3 1))) = msgs 3.
Proof.
  assert (known (pair_of 3 1)) as Hk by (split; [reflexivity|by eexists]).
  refine (follower_catches_up (pair_of 3 1) [5; 6] pair_of_mirrors Hk _ _ _); [vm_compute; discriminate|done|vm_compute; discriminate].
Defined.

(** Metadata that takes every change of leader. *)
Record meta_table := mkMetaTable { mt_leader : Z * Z; mt_isr : list Z }.
#[local] Instance meta_table_client : MetadataClient meta_table := {
  GetPartitionLeader m _ _ := Some (mt_leader m);
  GetPartitionISR m _ _ := Some (mt_isr m);
  GetPartitionReplicas m _ _ := Some [1; 2; 3];
  UpdatePartitionLeader m _ _ l e := (true, mkMetaTable (l, e) (mt_isr m));
  UpdatePartitionISR m _ _ isr := (true, mkMetaTable (mt_leader m) isr)
}.

(** Leader 1 was last heard of a minute ago, follower 2 just now. *)
Definition failing : FailoverCoordinator :=
  mkFailover 9 ∅ (mkDetector {[1 := 0; 2 := 60 * Second]} (30 * Second)) (mkFailoverMetrics 0 0 0 0 zero_time).
Definition watched : FailoverCoordinator := (RegisterPartition 0 (mkMetaTable (1, 4) [1; 2; 3]) failing [x74] 0).2.
Definition watched_state : PartitionFailoverState := mkFailoverState [x74] 0 1 4 [1; 2; 3] [1; 2; 3] 0 false.

Lemma failover_elects_alive_isr_witness :
  let r := triggerFailover (60 * Second) 1 (mkMetaTable (1, 4) [1; 2; 3]) watched (PartitionKey [x74] 0) watched_state in
  r.1.1 = true /\ mt_leader r.1.2 = (2, 5)
  /\ exists before l after, [1; 2; 3] = before ++ l :: after /\ HasFailed (60 * Second) (fc_failureDetector watched) l = false.
Proof.
  pose proof (failover_elects_alive_isr (60 * Second) 1 (mkMetaTable (1, 4) [1; 2; 3]) watched (PartitionKey [x74] 0) watched_state) as H.
  cbv zeta. split; [reflexivity|]. split; [reflexivity|].
  assert (in_i64 (pf_leaderEpoch watched_state + 1)) as Hi by (unfold in_i64; simpl; lia). specialize (H Hi). cbv zeta in H.
  destruct (triggerFailover _ _ _ _ _ _) as [[[] m'] fc'] eqn:E; [|vm_compute in E; discriminate].
  destruct H as (before & l & after & H1 & H2 & _). by exists before, l, after.
Defined.

Definition managing (hw : Z) : ReplicationManager := BecomeLeader NewReplicationManager (set_hw (leader_of_n 10 [2] 0) hw).

Lemma wait_success_below_hw_witness :
  let rm := (WaitForISR_begin 1 (managing 0) 5).2 in
  let rm' := mkManager (Some (set_hw (leader_of_n 10 [2] 0) 6)) None true (rm_replicationWaiters rm) (rm_closed rm) (rm_nextID rm) in
  rm_closed (NotifyReplication rm') !! 0 = Some Replicated
  /\ exists off w, rm_replicationWaiters rm' !! off = Some w /\ rw_id w = 0 /\ rw_offset w < 6.
Proof.
  cbv zeta. set (rm' := mkManager _ _ _ _ _ _). split; [reflexivity|].
  apply (proj2 (wait_success_below_hw 2 rm' 5 (set_hw (leader_of_n 10 [2] 0) 6) eq_refl) 0); reflexivity.
Defined.

(** ** Where a committed record is lost or logs diverge *)

(** A replica that had fallen out of the in-sync set is back in it as soon as it lags by less
    than half the limit, also when it lacks records below the high water mark. *)
Lemma isr_member_behind_hw :
  let lr0 := leader_of_n 10 [1; 2; 3] 0 in
  let s := mkPlain (msgs 10) 0 in
  let fetch now rid off lr := (HandleFetchRequest now s lr (mkFetch rid [x74] 0 off 1048576 1 1 500)).2 in
  exists lr1 lr2 lr3,
    hw_tick ids_list (11 * Second) (fetch (10 * Second) 3 10 lr0) = Some lr1
    /\ hw_tick ids_list (12 * Second) lr1 = Some lr2 /\ lr_highWaterMark lr2 = 10
    /\ hw_tick ids_list (14 * Second) (fetch (13 * Second) 2 1 lr2) = Some lr3
    /\ 2 ∈ lr_isr lr3 /\ re_LogEndOffset <$> lr_replicas lr3 !! 2 = Some 1 /\ lr_highWaterMark lr3 = 10.
Proof. do 3 eexists. repeat (split; [vm_compute; reflexivity|]). vm_compute; reflexivity. Qed.

(** A follower whose log is longer than the leader's is told so and empties its log; the
    leader has meanwhile counted the offset it asked for, and moves the high water mark. *)
Lemma out_of_range_fetch_counts :
  let lr := leader_of_n 10 [2] 0 in
  let sf := mkPlain (msgs 15) 0 in
  let '(resp, lr1) := HandleFetchRequest 5 (mkPlain (msgs 10) 0) lr (fetch_request (follower_2 sf 1)) in
  let '(_, sf1, _) := handleFetchResponse 5 sf (follower_2 sf 1) resp in
  fp_ErrorCode resp = ErrorOffsetOutOfRange /\ pl_log sf1 = [] /\ lr_highWaterMark (updateHighWaterMark lr1) = 10.
Proof. vm_compute. done. Qed.

(** After a change of leader a follower keeps what the old leader had given it: it truncates
    its log at its own end.  Here the second record differs from the new leader's, for good. *)
Lemma divergent_suffix_survives :
  let sl := mkPlain [msg 0 x61; msg 1 x62; msg 2 x63] 0 in
  let sf := mkPlain [msg 0 x61; msg 1 x78] 0 in
  let lr := NewLeaderReplicator 0 DefaultConfig [x74] 0 2 1 [2] sl in
  let y := fetch_rounds [5; 6; 7] (mkPair lr sl (follower_2 sf 1) sf) in
  pl_log (pa_copy y) = [msg 0 x61; msg 1 x78; msg 2 x63].
Proof. vm_compute. done. Qed.

(** A storage whose next append fails after the first message. *)
Record torn := mkTorn { to_log : list StorageMessage; to_fails : bool }.
#[local] Instance torn_adapter : StorageAdapter torn := {
  ReadRange s _ a b := Some (take (Z.to_nat (b - a)) (drop (Z.to_nat a) (to_log s)));
  GetLogEndOffset s _ := Some (zlen (to_log s));
  GetHighWaterMark s _ := Some 0;
  AppendMessages s _ ms := if to_fails s then (false, mkTorn (to_log s ++ take 1 ms) false) else (true, mkTorn (to_log s ++ ms) false);
  SetHighWaterMark s _ hw := (true, s);
  Truncate s _ off := (true, mkTorn (take (Z.to_nat off) (to_log s)) (to_fails s))
}.

(** A follower does not look at what a failed append left: it fetches from the same offset and
    appends the same messages again, so the first of them is in its log twice. *)
Lemma torn_append_repeats :
  let sl := mkTorn (msgs 2) false in
  let sf := mkTorn [] true in
  let lr := NewLeaderReplicator 0 DefaultConfig [x74] 0 1 1 [2] sl in
  let y := fetch_rounds [5; 6] (mkPair lr sl (NewFollowerReplicator DefaultConfig [x74] 0 2 1 1 sf) sf) in
  to_log (pa_copy y) = [msg 0 x61; msg 0 x61; msg 1 x61].
Proof. vm_compute. done. Qed.

(** The leader has committed record 0 (its only in-sync follower has it), but the follower
    learns the high water mark with its next fetch only: made leader before that, it deletes
    the record. *)
Lemma new_leader_loses_committed :
  let x := fetch_rounds [1; 2] (mkPair (leader_of_n 1 [2] 0) (mkPlain (msgs 1) 0) (follower_2 (mkPlain [] 0) 1) (mkPlain [] 0)) in
  lr_highWaterMark (updateHighWaterMark (pa_leader x)) = 1
  /\ pl_log (pa_copy x) = msgs 1
  /\ pl_log (ReconcileAsNewLeader 0 (pa_copy x)).2 = [].
Proof. vm_compute. done. Qed.

(** A valid configuration with a fetch size below 1024 bytes never replicates anything. *)
Lemma small_fetch_never_progresses :
  let c := mkConfig 1 1000 500 1 4000 10000 5000 1 1 1000 0 in
  let fr := NewFollowerReplicator c [x74] 0 2 1 1 (mkPlain [] 0) in
  let x := mkPair (leader_of_n 3 [2] 0) (mkPlain (msgs 3) 0) fr (mkPlain [] 0) in
  Validate c = true /\ pl_log (pa_copy (fetch_round 1 x)) = [] /\ fo_logEndOffset (pa_follower (fetch_round 1 x)) = 0.
Proof. vm_compute. done. Qed.

(** Nothing reads the notifications: the eleventh change of the in-sync set blocks the leader
    with its lock held. *)
Lemma eleventh_isr_change_blocks :
  let lr := set_isrChangeCh (leader_of_n 10 [2] 0) (replicate 10 (mkISRChange [x74] 0 ∅ 0)) in
  checkISRMembership ids_list (11 * Second) lr = None.
Proof. vm_compute. done. Qed.

(** Two calls that wait for the same offset: the second takes the place of the first, which is
    not told when the offset is replicated; its timeout then removes the entry, whoever's it is. *)
Lemma second_waiter_orphans_first :
  let rm1 := (WaitForISR_begin 1 (managing 0) 5).2 in
  let rm2 := (WaitForISR_begin 2 rm1 5).2 in
  let rm3 := mkManager (Some (set_hw (leader_of_n 10 [2] 0) 6)) None true (rm_replicationWaiters rm2) (rm_closed rm2) (rm_nextID rm2) in
  (WaitForISR_begin 1 (managing 0) 5).1 = Waits 0 /\ (WaitForISR_begin 2 rm1 5).1 = Waits 1
  /\ rm_closed (NotifyReplication rm3) !! 1 = Some Replicated /\ rm_closed (NotifyReplication rm3) !! 0 = None
  /\ rm_replicationWaiters (WaitForISR_end rm2 5) !! 5 = None.
Proof. vm_compute. done. Qed.

(** The in-sync set is read once, when a partition is registered: a replica that has left it
    since is elected. *)
Lemma stale_isr_elected :
  let meta := (UpdatePartitionISR (mkMetaTable (1, 4) [1; 2; 3]) [x74] 0 [1; 3]).2 in
  let r := triggerFailover (60 * Second) 1 meta watched (PartitionKey [x74] 0) watched_state in
  mt_isr r.1.2 = [1; 3] /\ mt_leader r.1.2 = (2, 5).
Proof. vm_compute. done. Qed.
