(* ===== verification/Tenancy.v ===== *)
(** * Tenants, quotas and the tenancy handler (pkg/tenancy, pkg/server/tenancy_handler.go)

    The store of tenants, the tracker of what a tenant uses with its sliding windows of
    throughput, the manager that combines them, the record of which tenant created which
    topic, the accounting of storage (broker.go) and the request handler that enforces
    quotas before it hands a request to the handler it wraps.

    One reading of the clock per operation.  Quotas are never modified in place, so a
    pointer to them is their value.  Where a method takes a lock twice, the parts are
    definitions of their own and the method is their composition; TenancySpec.v also lets the two
    parts of adding a connection interleave ([connection_step]). *)

From S2P Require Import Prelude GoBytes Record Wire Payloads Protocol Handlers.
From stdpp Require Import prelude list sorting gmap.
From Stdlib Require Import ZArith Lia Strings.Byte Strings.String.

Open Scope Z_scope.
#[local] Notation length := Datatypes.length.

Module Tenancy.

(** ** Durations and floats *)

Definition Millisecond : Z := 1000000.
Definition Second : Z := 1000 * Millisecond.

(** [t.Sub(u)], which saturates at the limits of [time.Duration]. *)
Definition Sub (t u : Z) : Z := Z.max (- 2 ^ 63) (Z.min (2 ^ 63 - 1) (t - u)).

(** [float64(x)] of an [int64]: [x] rounded to 53 significant bits, ties to even. *)
Definition float64_of_int64 (x : Z) : Z :=
  let a := Z.abs x in
  if a <? 2 ^ 53 then x
  else
    let e := Z.log2 a - 52 in
    let q := Z.shiftr a e in
    let r := a - Z.shiftl q e in
    let q := if (2 ^ e <? 2 * r) || ((2 * r =? 2 ^ e) && Z.odd q) then q + 1 else q in
    Z.sgn x * Z.shiftl q e.

(** ** Tenants (tenant.go) *)

Notation TenantID := bytes (only parsing).

Inductive TenantStatus := TenantStatusActive | TenantStatusSuspended | TenantStatusDeleted.
#[export] Instance TenantStatus_eq_dec : EqDecision TenantStatus.
Proof. solve_decision. Defined.

Record Quotas := mkQuotas {
  MaxBytesPerSecond : Z;
  MaxMessagesPerSecond : Z;
  MaxStorageBytes : Z;
  MaxTopics : Z;
  MaxPartitions : Z;
  MaxConnections : Z;
  MaxProducers : Z;
  MaxConsumers : Z;
  MaxConsumerGroups : Z;
  MaxRequestsPerSecond : Z;
  MaxRetentionHours : Z
}.

Definition DefaultQuotas : Quotas :=
  mkQuotas (10 * 1024 * 1024) 10000 (100 * 1024 * 1024 * 1024) 100 1000 1000 500 500 50 10000 168.

Definition UnlimitedQuotas : Quotas := mkQuotas (-1) (-1) (-1) (-1) (-1) (-1) (-1) (-1) (-1) (-1) (-1).

Record Tenant := mkTenant {
  tn_ID : TenantID;
  tn_Name : bytes;
  tn_Description : bytes;
  tn_CreatedAt : Z;
  tn_UpdatedAt : Z;
  tn_Quotas : Quotas;
  tn_Metadata : gmap bytes bytes;
  tn_Status : TenantStatus
}.

Record QuotaError := mkQuotaError {
  qe_TenantID : TenantID;
  qe_QuotaType : bytes;
  qe_Current : Z;
  qe_Limit : Z;
  qe_Message : bytes
}.

Definition QuotaError_Error (e : QuotaError) : bytes :=
  text "quota exceeded for tenant " ++ qe_TenantID e ++ text ": " ++ qe_Message e
    ++ text " (current: " ++ FormatInt (qe_Current e) ++ text ", limit: " ++ FormatInt (qe_Limit e) ++ text ")".

Inductive tenancy_error :=
| TenantExists | TenantNotFound | TenantNotActive | TrackerNotFound
| QuotaExceeded (e : QuotaError).

Notation TenantStore := (gmap TenantID Tenant).

Definition store_CreateTenant (now : Z) (s : TenantStore) (id : TenantID) (name : bytes) (quotas : option Quotas)
    : result tenancy_error Tenant * TenantStore :=
  match s !! id with
  | Some _ => (Err TenantExists, s)
  | None =>
      let tenant := mkTenant id name [] now now (default DefaultQuotas quotas) ∅ TenantStatusActive in
      (Ok tenant, <[id := tenant]> s)
  end.

Definition store_GetTenant (s : TenantStore) (id : TenantID) : result tenancy_error Tenant :=
  match s !! id with Some t => Ok t | None => Err TenantNotFound end.

Definition store_UpdateTenant (now : Z) (s : TenantStore) (id : TenantID) (name : bytes) (quotas : option Quotas)
    : option tenancy_error * TenantStore :=
  match s !! id with
  | None => (Some TenantNotFound, s)
  | Some t =>
      let name := match name with [] => tn_Name t | _ => name end in
      (None, <[id := mkTenant (tn_ID t) name (tn_Description t) (tn_CreatedAt t) now (default (tn_Quotas t) quotas)
                       (tn_Metadata t) (tn_Status t)]> s)
  end.

Definition store_DeleteTenant (s : TenantStore) (id : TenantID) : option tenancy_error * TenantStore :=
  match s !! id with
  | None => (Some TenantNotFound, s)
  | Some _ => (None, delete id s)
  end.

Definition set_status (now : Z) (s : TenantStore) (id : TenantID) (status : TenantStatus) : option tenancy_error * TenantStore :=
  match s !! id with
  | None => (Some TenantNotFound, s)
  | Some t =>
      (None, <[id := mkTenant (tn_ID t) (tn_Name t) (tn_Description t) (tn_CreatedAt t) now (tn_Quotas t)
                       (tn_Metadata t) status]> s)
  end.

Definition store_SuspendTenant (now : Z) (s : TenantStore) (id : TenantID) : option tenancy_error * TenantStore :=
  set_status now s id TenantStatusSuspended.

Definition store_ActivateTenant (now : Z) (s : TenantStore) (id : TenantID) : option tenancy_error * TenantStore :=
  set_status now s id TenantStatusActive.

Definition Tenant_IsActive (t : Tenant) : bool := bool_decide (tn_Status t = TenantStatusActive).

(** ** Rate windows (quota_tracker.go) *)

(** A ring of buckets.  Within an operation the index of the current bucket is in range, as
    the specification shows; a read out of range would panic. *)
Record RateWindow := mkWindow {
  win_windowSize : Z;
  win_bucketSize : Z;
  win_buckets : list Z;
  win_bucketTimes : list Z;
  win_currentIdx : nat
}.

Definition NewRateWindow (windowSize bucketSize : Z) : RateWindow :=
  let numBuckets := Z.to_nat (Z.max 1 (Z.quot windowSize bucketSize)) in
  mkWindow windowSize bucketSize (replicate numBuckets 0) (replicate numBuckets zero_time) 0.

Definition bucket (w : RateWindow) (i : nat) : Z := default 0 (win_buckets w !! i).
Definition bucketTime (w : RateWindow) (i : nat) : Z := default zero_time (win_bucketTimes w !! i).

(** The move to the next bucket when the current one is old enough. *)
Definition rotate (now : Z) (w : RateWindow) : RateWindow :=
  if win_bucketSize w <=? Sub now (bucketTime w (win_currentIdx w)) then
    let i := ((win_currentIdx w + 1) mod length (win_buckets w))%nat in
    mkWindow (win_windowSize w) (win_bucketSize w) (<[i := 0]> (win_buckets w)) (<[i := now]> (win_bucketTimes w)) i
  else w.

Definition RateWindow_Add (now : Z) (w : RateWindow) (value : Z) : RateWindow :=
  let w := rotate now w in
  let i := win_currentIdx w in
  mkWindow (win_windowSize w) (win_bucketSize w) (<[i := wraps 64 (bucket w i + value)]> (win_buckets w)) (win_bucketTimes w) i.

(** The sum of the buckets that began within the window. *)
Definition window_total (now : Z) (w : RateWindow) : Z :=
  fold_left (fun total (e : Z * Z) => if Sub now e.2 <=? win_windowSize w then wraps 64 (total + e.1) else total)
    (combine (win_buckets w) (win_bucketTimes w)) 0.

(** [int64(w.Rate())] for a window of one second, which all windows of the program are: the
    division by [windowSize.Seconds()] is one by 1.0, which is exact. *)
Definition Rate (now : Z) (w : RateWindow) : Z := wraps 64 (float64_of_int64 (window_total now w)).

(** ** The quota tracker *)

Record QuotaTracker := mkTracker {
  qt_tenantID : TenantID;
  qt_quotas : Quotas;
  qt_currentConnections : Z;
  qt_currentProducers : Z;
  qt_currentConsumers : Z;
  qt_currentTopics : Z;
  qt_currentPartitions : Z;
  qt_currentConsumerGroups : Z;
  qt_currentStorageBytes : Z;
  qt_bytesWindow : RateWindow;
  qt_messagesWindow : RateWindow;
  qt_requestsWindow : RateWindow
}.

Definition new_window : RateWindow := NewRateWindow (1 * Second) (100 * Millisecond).

Definition NewQuotaTracker (tenantID : TenantID) (quotas : Quotas) : QuotaTracker :=
  mkTracker tenantID quotas 0 0 0 0 0 0 0 new_window new_window new_window.

Definition with_quotas (qt : QuotaTracker) (q : Quotas) : QuotaTracker :=
  mkTracker (qt_tenantID qt) q (qt_currentConnections qt) (qt_currentProducers qt) (qt_currentConsumers qt) (qt_currentTopics qt)
    (qt_currentPartitions qt) (qt_currentConsumerGroups qt) (qt_currentStorageBytes qt) (qt_bytesWindow qt) (qt_messagesWindow qt)
    (qt_requestsWindow qt).
Definition with_connections (qt : QuotaTracker) (n : Z) : QuotaTracker :=
  mkTracker (qt_tenantID qt) (qt_quotas qt) n (qt_currentProducers qt) (qt_currentConsumers qt) (qt_currentTopics qt)
    (qt_currentPartitions qt) (qt_currentConsumerGroups qt) (qt_currentStorageBytes qt) (qt_bytesWindow qt) (qt_messagesWindow qt)
    (qt_requestsWindow qt).
Definition with_producers (qt : QuotaTracker) (n : Z) : QuotaTracker :=
  mkTracker (qt_tenantID qt) (qt_quotas qt) (qt_currentConnections qt) n (qt_currentConsumers qt) (qt_currentTopics qt)
    (qt_currentPartitions qt) (qt_currentConsumerGroups qt) (qt_currentStorageBytes qt) (qt_bytesWindow qt) (qt_messagesWindow qt)
    (qt_requestsWindow qt).
Definition with_topics (qt : QuotaTracker) (topics partitions : Z) : QuotaTracker :=
  mkTracker (qt_tenantID qt) (qt_quotas qt) (qt_currentConnections qt) (qt_currentProducers qt) (qt_currentConsumers qt) topics
    partitions (qt_currentConsumerGroups qt) (qt_currentStorageBytes qt) (qt_bytesWindow qt) (qt_messagesWindow qt)
    (qt_requestsWindow qt).
Definition with_storage (qt : QuotaTracker) (n : Z) : QuotaTracker :=
  mkTracker (qt_tenantID qt) (qt_quotas qt) (qt_currentConnections qt) (qt_currentProducers qt) (qt_currentConsumers qt) (qt_currentTopics qt)
    (qt_currentPartitions qt) (qt_currentConsumerGroups qt) n (qt_bytesWindow qt) (qt_messagesWindow qt) (qt_requestsWindow qt).
Definition with_windows (qt : QuotaTracker) (b m : RateWindow) : QuotaTracker :=
  mkTracker (qt_tenantID qt) (qt_quotas qt) (qt_currentConnections qt) (qt_currentProducers qt) (qt_currentConsumers qt) (qt_currentTopics qt)
    (qt_currentPartitions qt) (qt_currentConsumerGroups qt) (qt_currentStorageBytes qt) b m (qt_requestsWindow qt).

Definition quota_error (qt : QuotaTracker) (type message : string) (current limit : Z) : option QuotaError :=
  Some (mkQuotaError (qt_tenantID qt) (text type) current limit (text message)).

Definition CheckThroughput (now : Z) (qt : QuotaTracker) (bytes messages : Z) : option QuotaError :=
  let q := qt_quotas qt in
  let byteRate := Rate now (qt_bytesWindow qt) in
  let messageRate := Rate now (qt_messagesWindow qt) in
  if (0 <=? MaxBytesPerSecond q) && (MaxBytesPerSecond q <? wraps 64 (byteRate + bytes)) then
    quota_error qt "bytes_per_second" "bytes per second quota exceeded" byteRate (MaxBytesPerSecond q)
  else if (0 <=? MaxMessagesPerSecond q) && (MaxMessagesPerSecond q <? wraps 64 (messageRate + messages)) then
    quota_error qt "messages_per_second" "messages per second quota exceeded" messageRate (MaxMessagesPerSecond q)
  else None.

Definition RecordThroughput (now : Z) (qt : QuotaTracker) (bytes messages : Z) : QuotaTracker :=
  with_windows qt (RateWindow_Add now (qt_bytesWindow qt) bytes) (RateWindow_Add now (qt_messagesWindow qt) messages).

Definition CheckConnection (qt : QuotaTracker) : option QuotaError :=
  let q := qt_quotas qt in
  if (0 <=? MaxConnections q) && (MaxConnections q <=? qt_currentConnections qt) then
    quota_error qt "connections" "max connections quota exceeded" (qt_currentConnections qt) (MaxConnections q)
  else None.

(** The second part of [AddConnection], under a lock of its own. *)
Definition count_connection (qt : QuotaTracker) : QuotaTracker :=
  with_connections qt (wraps 64 (qt_currentConnections qt + 1)).

Definition AddConnection (qt : QuotaTracker) : option QuotaError * QuotaTracker :=
  match CheckConnection qt with
  | Some e => (Some e, qt)
  | None => (None, count_connection qt)
  end.

Definition RemoveConnection (qt : QuotaTracker) : QuotaTracker :=
  if 0 <? qt_currentConnections qt then with_connections qt (qt_currentConnections qt - 1) else qt.

Definition CheckProducer (qt : QuotaTracker) : option QuotaError :=
  let q := qt_quotas qt in
  if (0 <=? MaxProducers q) && (MaxProducers q <=? qt_currentProducers qt) then
    quota_error qt "producers" "max producers quota exceeded" (qt_currentProducers qt) (MaxProducers q)
  else None.

Definition AddProducer (qt : QuotaTracker) : option QuotaError * QuotaTracker :=
  match CheckProducer qt with
  | Some e => (Some e, qt)
  | None => (None, with_producers qt (wraps 64 (qt_currentProducers qt + 1)))
  end.

Definition RemoveProducer (qt : QuotaTracker) : QuotaTracker :=
  if 0 <? qt_currentProducers qt then with_producers qt (qt_currentProducers qt - 1) else qt.

Definition CheckStorage (qt : QuotaTracker) (additionalBytes : Z) : option QuotaError :=
  let q := qt_quotas qt in
  if (0 <=? MaxStorageBytes q) && (MaxStorageBytes q <? wraps 64 (qt_currentStorageBytes qt + additionalBytes)) then
    quota_error qt "storage" "max storage quota exceeded" (qt_currentStorageBytes qt) (MaxStorageBytes q)
  else None.

Definition UpdateStorage (qt : QuotaTracker) (bytes : Z) : QuotaTracker :=
  with_storage qt (if bytes <? 0 then 0 else bytes).

Definition CheckTopic (qt : QuotaTracker) : option QuotaError :=
  let q := qt_quotas qt in
  if (0 <=? MaxTopics q) && (MaxTopics q <=? qt_currentTopics qt) then
    quota_error qt "topics" "max topics quota exceeded" (qt_currentTopics qt) (MaxTopics q)
  else None.

Definition AddTopic (qt : QuotaTracker) (partitions : Z) : option QuotaError * QuotaTracker :=
  let q := qt_quotas qt in
  match CheckTopic qt with
  | Some e => (Some e, qt)
  | None =>
      if (0 <=? MaxPartitions q) && (MaxPartitions q <? wraps 64 (qt_currentPartitions qt + partitions)) then
        (quota_error qt "partitions" "max partitions quota exceeded" (qt_currentPartitions qt) (MaxPartitions q), qt)
      else (None, with_topics qt (wraps 64 (qt_currentTopics qt + 1)) (wraps 64 (qt_currentPartitions qt + partitions)))
  end.

Definition RemoveTopic (qt : QuotaTracker) (partitions : Z) : QuotaTracker :=
  let topics := if 0 <? qt_currentTopics qt then qt_currentTopics qt - 1 else qt_currentTopics qt in
  let left_ := wraps 64 (qt_currentPartitions qt - partitions) in
  with_topics qt topics (if left_ <? 0 then 0 else left_).

Record Usage := mkUsage {
  us_TenantID : TenantID;
  us_Connections : Z;
  us_Producers : Z;
  us_Consumers : Z;
  us_Topics : Z;
  us_Partitions : Z;
  us_ConsumerGroups : Z;
  us_StorageBytes : Z;
  us_BytesPerSecond : Z;
  us_MessagesPerSecond : Z;
  us_RequestsPerSecond : Z
}.

Definition tracker_GetUsage (now : Z) (qt : QuotaTracker) : Usage :=
  mkUsage (qt_tenantID qt) (qt_currentConnections qt) (qt_currentProducers qt) (qt_currentConsumers qt) (qt_currentTopics qt)
    (qt_currentPartitions qt) (qt_currentConsumerGroups qt) (qt_currentStorageBytes qt) (Rate now (qt_bytesWindow qt))
    (Rate now (qt_messagesWindow qt)) (Rate now (qt_requestsWindow qt)).

(** ** The manager (manager.go, topic_ownership.go) *)

Record Manager := mkManager {
  mg_store : TenantStore;
  mg_trackers : gmap TenantID QuotaTracker;
  mg_topicOwners : gmap bytes TenantID
}.

Definition NewManager : Manager := mkManager ∅ ∅ ∅.

Definition with_store (m : Manager) (s : TenantStore) : Manager := mkManager s (mg_trackers m) (mg_topicOwners m).
Definition with_tracker (m : Manager) (id : TenantID) (qt : QuotaTracker) : Manager :=
  mkManager (mg_store m) (<[id := qt]> (mg_trackers m)) (mg_topicOwners m).
Definition with_owners (m : Manager) (owners : gmap bytes TenantID) : Manager :=
  mkManager (mg_store m) (mg_trackers m) owners.

(** The tracker of a tenant is made after the tenant, under another lock. *)
Definition track_tenant (m : Manager) (tenant : Tenant) : Manager :=
  with_tracker m (tn_ID tenant) (NewQuotaTracker (tn_ID tenant) (tn_Quotas tenant)).

Definition CreateTenant (now : Z) (m : Manager) (id : TenantID) (name : bytes) (quotas : option Quotas)
    : result tenancy_error Tenant * Manager :=
  let '(r, s) := store_CreateTenant now (mg_store m) id name quotas in
  match r with
  | Err e => (Err e, m)
  | Ok tenant => (Ok tenant, track_tenant (with_store m s) tenant)
  end.

Definition UpdateTenant (now : Z) (m : Manager) (id : TenantID) (name : bytes) (quotas : option Quotas)
    : option tenancy_error * Manager :=
  let '(err, s) := store_UpdateTenant now (mg_store m) id name quotas in
  match err with
  | Some e => (Some e, m)
  | None =>
      let m := with_store m s in
      (None, match quotas with
             | None => m
             | Some q => match mg_trackers m !! id with Some qt => with_tracker m id (with_quotas qt q) | None => m end
             end)
  end.

(** The removal of the tracker, under a lock of its own. *)
Definition untrack_tenant (m : Manager) (id : TenantID) : Manager :=
  mkManager (mg_store m) (delete id (mg_trackers m)) (mg_topicOwners m).

Definition DeleteTenant (m : Manager) (id : TenantID) : option tenancy_error * Manager :=
  let '(err, s) := store_DeleteTenant (mg_store m) id in
  match err with
  | Some e => (Some e, m)
  | None => (None, untrack_tenant (with_store m s) id)
  end.

Definition SuspendTenant (now : Z) (m : Manager) (id : TenantID) : option tenancy_error * Manager :=
  let '(err, s) := store_SuspendTenant now (mg_store m) id in (err, with_store m s).
Definition ActivateTenant (now : Z) (m : Manager) (id : TenantID) : option tenancy_error * Manager :=
  let '(err, s) := store_ActivateTenant now (mg_store m) id in (err, with_store m s).

Definition GetTracker (m : Manager) (id : TenantID) : result tenancy_error QuotaTracker :=
  match mg_trackers m !! id with Some qt => Ok qt | None => Err TrackerNotFound end.

Definition CheckTenantActive (m : Manager) (id : TenantID) : option tenancy_error :=
  match store_GetTenant (mg_store m) id with
  | Err e => Some e
  | Ok t => if Tenant_IsActive t then None else Some TenantNotActive
  end.

(** What every [Enforce] method begins with: the tenant is active and has a tracker, on which
    the rest works. *)
Definition enforce (m : Manager) (id : TenantID) (use : QuotaTracker -> option QuotaError * QuotaTracker)
    : option tenancy_error * Manager :=
  match CheckTenantActive m id with
  | Some e => (Some e, m)
  | None =>
      match GetTracker m id with
      | Err e => (Some e, m)
      | Ok tracker =>
          let '(err, tracker) := use tracker in
          (QuotaExceeded <$> err, with_tracker m id tracker)
      end
  end.

Definition use_throughput (now bytes messages : Z) (qt : QuotaTracker) : option QuotaError * QuotaTracker :=
  match CheckThroughput now qt bytes messages with
  | Some e => (Some e, qt)
  | None => (None, RecordThroughput now qt bytes messages)
  end.

Definition EnforceProduceQuota (now : Z) (m : Manager) (id : TenantID) (bytes messages : Z) : option tenancy_error * Manager :=
  enforce m id (use_throughput now bytes messages).
Definition EnforceConsumeQuota (now : Z) (m : Manager) (id : TenantID) (bytes messages : Z) : option tenancy_error * Manager :=
  enforce m id (use_throughput now bytes messages).
Definition EnforceConnectionQuota (m : Manager) (id : TenantID) : option tenancy_error * Manager := enforce m id AddConnection.
Definition EnforceTopicQuota (m : Manager) (id : TenantID) (partitions : Z) : option tenancy_error * Manager :=
  enforce m id (fun qt => AddTopic qt partitions).
Definition EnforceStorageQuota (m : Manager) (id : TenantID) (bytes : Z) : option tenancy_error * Manager :=
  enforce m id (fun qt => (CheckStorage qt bytes, qt)).

Definition release (m : Manager) (id : TenantID) (f : QuotaTracker -> QuotaTracker) : option tenancy_error * Manager :=
  match GetTracker m id with
  | Err e => (Some e, m)
  | Ok tracker => (None, with_tracker m id (f tracker))
  end.

Definition ReleaseConnection (m : Manager) (id : TenantID) : Manager := (release m id RemoveConnection).2.
Definition ReleaseTopic (m : Manager) (id : TenantID) (partitions : Z) : Manager :=
  (release m id (fun qt => RemoveTopic qt partitions)).2.
Definition UpdateStorageUsage (m : Manager) (id : TenantID) (bytes : Z) : option tenancy_error * Manager :=
  release m id (fun qt => UpdateStorage qt bytes).

Definition GetUsage (now : Z) (m : Manager) (id : TenantID) : result tenancy_error Usage :=
  match GetTracker m id with Err e => Err e | Ok tracker => Ok (tracker_GetUsage now tracker) end.
Definition GetAllUsage (now : Z) (m : Manager) : gmap TenantID Usage := tracker_GetUsage now <$> mg_trackers m.

Definition RegisterTopic (m : Manager) (id : TenantID) (topic : bytes) : Manager :=
  match topic with [] => m | _ => with_owners m (<[topic := id]> (mg_topicOwners m)) end.
Definition UnregisterTopic (m : Manager) (topic : bytes) : Manager := with_owners m (delete topic (mg_topicOwners m)).
Definition TenantForTopic (m : Manager) (topic : bytes) : option TenantID := mg_topicOwners m !! topic.
Definition TopicsFor (m : Manager) (id : TenantID) : list bytes :=
  merge_sort bytes_le (filter (fun e : bytes * TenantID => e.2 = id) (map_to_list (mg_topicOwners m))).*1.

(** ** Storage accounting (broker.go) *)

(** [updateTenantStorageUsage]: the bytes of each topic on disk are those of its owner. *)
Definition attribute_topic (owners : gmap bytes TenantID) (topic : bytes) (size : Z) (acc : gmap TenantID Z * Z) : gmap TenantID Z * Z :=
  match owners !! topic with
  | None => (acc.1, wraps 64 (acc.2 + size))
  | Some owner => (<[owner := wraps 64 (default 0 (acc.1 !! owner) + size)]> acc.1, acc.2)
  end.

Definition attribute_usage (owners : gmap bytes TenantID) (usageByTopic : gmap bytes Z) : gmap TenantID Z * Z :=
  map_fold (attribute_topic owners) (∅, 0) usageByTopic.

(** Every tenant of the store is updated; one without a tracker is logged and skipped. *)
Definition updateTenantStorageUsage (m : Manager) (usageByTopic : gmap bytes Z) : Manager :=
  let usageByTenant := (attribute_usage (mg_topicOwners m) usageByTopic).1 in
  foldr (fun id m => (UpdateStorageUsage m id (default 0 (usageByTenant !! id))).2) m (map_to_list (mg_store m)).*1.

(** ** The handler (tenancy_handler.go) *)

Definition quotaErrorCode : Z := 1000 + 100.

Section handler.
Context {B : Type}.
(** The wrapped handler; [None] is a nil response. *)
Context (base : Z -> B -> Request -> option Response * B).

Record TenancyHandler := mkTenancyHandler {
  th_baseHandler : B;
  th_tenancyManager : option Manager;
  th_enabled : bool;
  th_quotaViolations : Z;
  th_requestsHandled : Z
}.

Definition NewTenancyHandler (b : B) (m : option Manager) (enabled : bool) : TenancyHandler := mkTenancyHandler b m enabled 0 0.

Definition extractTenantID (req : Request) : TenantID :=
  match rq_Payload req with
  | QProduce p =>
      match prq_Messages p with
      | msg :: _ => match pm_Headers msg !! text "tenant_id" with Some id => id | None => text "default" end
      | [] => text "default"
      end
  | _ => text "default"
  end.

Definition enforceProduceQuota (now : Z) (m : Manager) (id : TenantID) (req : Request) : option (option tenancy_error * Manager) :=
  match rq_Payload req with
  | QProduce p =>
      let totalBytes := fold_left (fun total msg => wraps 64 (total + (zlen (pm_Key msg) + zlen (pm_Value msg)))) (prq_Messages p) 0 in
      Some (EnforceProduceQuota now m id totalBytes (zlen (prq_Messages p)))
  | _ => None
  end.

Definition enforceFetchQuota (now : Z) (m : Manager) (id : TenantID) (req : Request) : option (option tenancy_error * Manager) :=
  match rq_Payload req with
  | QFetch p =>
      let estimatedBytes := frq_MaxBytes p in
      Some (EnforceConsumeQuota now m id estimatedBytes (Z.quot estimatedBytes 1024))
  | _ => None
  end.

Definition enforceTopicQuota (m : Manager) (id : TenantID) (req : Request) : option (option tenancy_error * Manager) :=
  match rq_Payload req with
  | QCreateTopic p => Some (EnforceTopicQuota m id (crq_NumPartitions p))
  | _ => None
  end.

Definition enforceQuotas (now : Z) (m : Manager) (id : TenantID) (req : Request) : option (option tenancy_error * Manager) :=
  let t := rh_Type (rq_Header req) in
  if t =? RequestTypeProduce then enforceProduceQuota now m id req
  else if t =? RequestTypeFetch then enforceFetchQuota now m id req
  else if t =? RequestTypeCreateTopic then enforceTopicQuota m id req
  else Some (None, m).

Definition quotaExceededResponse (requestID : Z) (err : tenancy_error) : Response :=
  match err with
  | QuotaExceeded e => mkResponse (mkRespHeader requestID StatusError quotaErrorCode) (SError (mkErrorResponse quotaErrorCode (QuotaError_Error e)))
  | _ => mkResponse (mkRespHeader requestID StatusError Proto.ErrInvalidRequest) SNil
  end.

Definition recordTopicOwnership (m : Manager) (id : TenantID) (resp : option Response) : Manager :=
  match resp with
  | None => m
  | Some resp =>
      if negb (sh_Status (rs_Header resp) =? StatusOK) then m
      else match rs_Payload resp with
      | SCreateTopic p => if tr_Done p then RegisterTopic m id (tr_Topic p) else m
      | SDeleteTopic p => if tr_Done p then UnregisterTopic m (tr_Topic p) else m
      | _ => m
      end
  end.

(** [Handle]; [None] is a panic of a type assertion. *)
Definition Tenancy_Handle (now : Z) (h : TenancyHandler) (req : Request) : option (option Response * TenancyHandler) :=
  let handled := wraps 64 (th_requestsHandled h + 1) in
  match th_enabled h, th_tenancyManager h with
  | true, Some m =>
      let id := extractTenantID req in
      '(err, m) ← enforceQuotas now m id req;
      match err with
      | Some e =>
          Some (Some (quotaExceededResponse (rh_RequestID (rq_Header req)) e),
                mkTenancyHandler (th_baseHandler h) (Some m) true (wraps 64 (th_quotaViolations h + 1)) handled)
      | None =>
          let '(resp, b) := base now (th_baseHandler h) req in
          Some (resp, mkTenancyHandler b (Some (recordTopicOwnership m id resp)) true (th_quotaViolations h) handled)
      end
  | enabled, m =>
      let '(resp, b) := base now (th_baseHandler h) req in
      Some (resp, mkTenancyHandler b m enabled (th_quotaViolations h) handled)
  end.
End handler.
Arguments TenancyHandler : clear implicits.
Arguments mkTenancyHandler {B}.
Arguments th_baseHandler {B}.
Arguments th_tenancyManager {B}.
Arguments th_enabled {B}.
Arguments th_quotaViolations {B}.
Arguments th_requestsHandled {B}.

End Tenancy.
