(* ===== verification/TenancySpec.v ===== *)
(** * What the tenancy component guarantees

    The throughput that a tenant is granted within any 900 milliseconds is at most its quota
    for a second; connections, topics and partitions stay within theirs when operations do
    not interleave, and the exact excess when they do; tenants do not affect each other.
    Then where the handler does less: it does not survive a request of a tenant that is not
    active, never gives back the quota of a topic, and charges all topics to one tenant. *)

From S2P Require Import Prelude GoBytes Record Wire Payloads Protocol Codec Handlers Tenancy.
From stdpp Require Import prelude list sorting gmap relations.
From Stdlib Require Import ZArith Lia Strings.Byte Strings.String.

Open Scope Z_scope.
#[local] Notation length := Datatypes.length.
Import Tenancy.

(** ** Rate windows *)

(** The amounts of a history of additions (time and amount) that [P] selects. *)
Definition amount (P : Z -> bool) (h : list (Z * Z)) : Z :=
  foldr (fun e n => (if P e.1 then e.2 else 0) + n) 0 h.

(** The sum of the buckets that began after [c]. *)
Definition since (c : Z) (w : RateWindow) : Z :=
  foldr (fun (e : Z * Z) n => (if c <? e.2 then e.1 else 0) + n) 0 (combine (win_buckets w) (win_bucketTimes w)).

(** The bucket that is [k] rotations old. *)
Definition back (w : RateWindow) (k : nat) : nat :=
  if decide (k <= win_currentIdx w)%nat then (win_currentIdx w - k)%nat
  else (win_currentIdx w + length (win_buckets w) - k)%nat.

Lemma amount_nonneg P h : Forall (fun e => 0 <= e.2) h -> 0 <= amount P h.
Proof. induction 1 as [|e h He _ IH]; simpl; [done|]. destruct (P e.1); lia. Qed.

Lemma amount_mono P Q h : Forall (fun e => 0 <= e.2) h -> (forall e, e ∈ h -> P e.1 = true -> Q e.1 = true) ->
  amount P h <= amount Q h.
Proof.
  induction 1 as [|e h He _ IH]; intros Hpq; [done|]. simpl.
  assert (amount P h <= amount Q h) by (apply IH; intros; apply Hpq; [by right|done]).
  specialize (Hpq e ltac:(left)). destruct (P e.1), (Q e.1); lia.
Qed.

(** A bucket's contribution to [since] changes with the bucket. *)
Lemma since_insert c bs ts i b t b' t' : bs !! i = Some b -> ts !! i = Some t ->
  foldr (fun (e : Z * Z) n => (if c <? e.2 then e.1 else 0) + n) 0 (combine (<[i := b']> bs) (<[i := t']> ts))
  = foldr (fun (e : Z * Z) n => (if c <? e.2 then e.1 else 0) + n) 0 (combine bs ts)
    - (if c <? t then b else 0) + (if c <? t' then b' else 0).
Proof.
  revert ts i. induction bs as [|x bs IH]; intros [|y ts] [|i] Hb Ht; simplify_eq; simpl in *; [simplify_eq; lia|].
  rewrite (IH _ _ Hb Ht). lia.
Qed.

(** A window that has had the additions [h], the last at or before [now], none of which is of
    more than what [limit] leaves. *)
Record window_ok (limit : Z) (h : list (Z * Z)) (now : Z) (w : RateWindow) : Prop := {
  wo_size : 0 < win_bucketSize w /\ win_windowSize w = Z.of_nat (length (win_buckets w)) * win_bucketSize w
    /\ win_windowSize w < 2 ^ 62;
  wo_times : length (win_bucketTimes w) = length (win_buckets w);
  wo_idx : (win_currentIdx w < length (win_buckets w))%nat;
  wo_bounds : Forall (fun b => 0 <= b <= limit) (win_buckets w);
  wo_fits : Z.of_nat (length (win_buckets w)) * limit < 2 ^ 53;
  wo_now : bucketTime w (win_currentIdx w) <= now /\ zero_time + win_windowSize w <= now;
  wo_spaced : forall k, (k < length (win_buckets w))%nat ->
    bucketTime w (back w k) <= bucketTime w (win_currentIdx w) - Z.of_nat k * win_bucketSize w \/ bucketTime w (back w k) = zero_time;
  wo_hist : Forall (fun e => 0 <= e.2 /\ e.1 <= now) h;
  wo_counted : forall c, bucketTime w (win_currentIdx w) - win_windowSize w <= c -> zero_time <= c ->
    amount (fun t => c + win_bucketSize w <=? t) h <= since c w
}.

Lemma window_ok_later limit h now now' w : now <= now' -> window_ok limit h now w -> window_ok limit h now' w.
Proof.
  intros Hn [Hs Ht Hi Hb Hf Hw Hsp Hh Hc]. split; try done; [lia|].
  eapply Forall_impl; [exact Hh|]. simpl. lia.
Qed.

Lemma bucket_lookup w i : length (win_bucketTimes w) = length (win_buckets w) -> (i < length (win_buckets w))%nat ->
  win_buckets w !! i = Some (bucket w i) /\ win_bucketTimes w !! i = Some (bucketTime w i).
Proof.
  intros Hl Hi. unfold bucket, bucketTime.
  destruct (lookup_lt_is_Some_2 (win_buckets w) i) as [? ->]; [done|].
  destruct (lookup_lt_is_Some_2 (win_bucketTimes w) i) as [? ->]; [by rewrite Hl|]. done.
Qed.

Lemma Sub_ge b t u : 0 < b < 2 ^ 63 -> (b <=? Sub t u) = (b <=? t - u).
Proof. intros H. unfold Sub. destruct (Z.leb_spec b (t - u)); [apply Z.leb_le|apply Z.leb_gt]; lia. Qed.

Lemma Sub_le b t u : 0 <= b < 2 ^ 63 - 1 -> (Sub t u <=? b) = (t - u <=? b).
Proof. intros H. unfold Sub. destruct (Z.leb_spec (t - u) b); [apply Z.leb_le|apply Z.leb_gt]; lia. Qed.

(** After a rotation the next bucket is the current one, empty, and every other bucket is one
    rotation older. *)
Lemma rotate_ok limit h now w : window_ok limit h now w ->
  window_ok limit h now (rotate now w) /\ now - bucketTime (rotate now w) (win_currentIdx (rotate now w)) < win_bucketSize w
  /\ win_bucketSize (rotate now w) = win_bucketSize w /\ win_windowSize (rotate now w) = win_windowSize w
  /\ length (win_buckets (rotate now w)) = length (win_buckets w).
Proof.
  intros Hok. pose proof Hok as [(Hs1 & Hs2 & Hs3) Ht Hi Hb Hf [Hw1 Hw2] Hsp Hh Hc]. unfold rotate.
  assert (win_bucketSize w <= win_windowSize w) as Hbw by nia.
  rewrite Sub_ge by lia. destruct (Z.leb_spec (win_bucketSize w) (now - bucketTime w (win_currentIdx w))) as [Hr|Hr]; [|done].
  set (n := length (win_buckets w)) in *.
  set (j := ((win_currentIdx w + 1) mod n)%nat).
  assert (j = if decide (win_currentIdx w + 1 = n)%nat then 0%nat else (win_currentIdx w + 1)%nat) as Hj.
  { unfold j. case_decide as E; [rewrite E; apply Nat.Div0.mod_same|apply Nat.mod_small; lia]. }
  assert (j < n)%nat as Hjn by (rewrite Hj; case_decide; lia).
  assert (back w (n - 1) = j) as Hbj by (unfold back; fold n; rewrite Hj; repeat case_decide; lia).
  set (w' := mkWindow _ _ _ _ _).
  assert (length (win_buckets w') = n) as Hn' by (simpl; apply length_insert).
  assert (bucketTime w' j = now) as Hcur.
  { unfold bucketTime. simpl. rewrite list_lookup_insert_eq; [done|]. rewrite Ht. done. }
  assert (bucketTime w j <= now - win_windowSize w) as Hold.
  { destruct (Hsp (n - 1)%nat ltac:(lia)) as [H|H]; rewrite Hbj in H; [nia|lia]. }
  split; [|split; [change (win_currentIdx w') with j; rewrite Hcur; lia|done]]. split.
  - change (win_bucketSize w') with (win_bucketSize w). change (win_windowSize w') with (win_windowSize w). rewrite Hn'. done.
  - rewrite Hn'. simpl. rewrite length_insert. done.
  - rewrite Hn'. done.
  - apply Forall_insert; [done|]. fold n in Hf. split; [lia|].
    rewrite Forall_forall in Hb. destruct (bucket_lookup w j Ht Hjn) as [E _].
    specialize (Hb _ (list_elem_of_lookup_2 _ _ _ E)). lia.
  - rewrite Hn'. done.
  - change (win_currentIdx w') with j. rewrite Hcur. done.
  - intros k Hk. rewrite Hn' in Hk. change (win_currentIdx w') with j. rewrite Hcur. destruct k as [|k].
    + left. assert (back w' 0 = j) as -> by (unfold back; rewrite decide_True by lia; apply Nat.sub_0_r). rewrite Hcur. lia.
    + assert (back w' (S k) = back w k /\ back w k <> j) as [-> Hne].
      { unfold back. rewrite Hn'. fold n. change (win_currentIdx w') with j. revert Hj. case_decide; intros Hj; repeat case_decide; lia. }
      assert (bucketTime w' (back w k) = bucketTime w (back w k)) as ->.
      { unfold bucketTime. simpl. by rewrite list_lookup_insert_ne by done. }
      destruct (Hsp k ltac:(lia)) as [H|H]; [left|by right]. change (win_bucketSize w') with (win_bucketSize w). lia.
  - done.
  - change (win_currentIdx w') with j. rewrite Hcur. intros c Hc1 Hc2.
    change (win_bucketSize w') with (win_bucketSize w). change (win_windowSize w') with (win_windowSize w) in Hc1.
    specialize (Hc c ltac:(lia) Hc2). destruct (bucket_lookup w j Ht Hjn) as [E1 E2].
    unfold since, w'. cbn [win_buckets win_bucketTimes]. rewrite (since_insert c _ _ _ _ _ 0 now E1 E2).
    fold (since c w). destruct (Z.ltb_spec c (bucketTime w j)); [lia|]. destruct (c <? now); lia.
Qed.

Lemma Add_ok limit h now w v : window_ok limit h now w -> 0 <= v ->
  bucket (rotate now w) (win_currentIdx (rotate now w)) + v <= limit ->
  window_ok limit ((now, v) :: h) now (RateWindow_Add now w v).
Proof.
  intros Hok Hv Hlim. destruct (rotate_ok _ _ _ _ Hok) as (Hr & Hrec & Hbs & Hws & Hn). unfold RateWindow_Add.
  set (r := rotate now w) in *. pose proof Hr as [(Hs1 & Hs2 & Hs3) Ht Hi Hb Hf [Hw1 Hw2] Hsp Hh Hc].
  set (i := win_currentIdx r) in *. destruct (bucket_lookup r i Ht Hi) as [E1 E2].
  assert (0 <= bucket r i <= limit) as Hbi.
  { rewrite Forall_forall in Hb. by specialize (Hb _ (list_elem_of_lookup_2 _ _ _ E1)). }
  assert (limit < 2 ^ 53) as Hl53 by nia.
  assert (wraps 64 (bucket r i + v) = bucket r i + v) as Hwr by (apply wraps_64_id; unfold in_i64; lia). rewrite Hwr.
  split; cbn [win_windowSize win_bucketSize win_buckets win_bucketTimes win_currentIdx]; rewrite ?length_insert; try done.
  - apply Forall_insert; [done|]. lia.
  - intros k Hk. specialize (Hsp k Hk).
    assert (back (mkWindow (win_windowSize r) (win_bucketSize r) (<[i:=bucket r i + v]> (win_buckets r)) (win_bucketTimes r) i) k = back r k) as ->.
    { unfold back. cbn [win_currentIdx win_buckets]. by rewrite length_insert. }
    exact Hsp.
  - constructor; [simpl; lia|done].
  - intros c Hc1 Hc2. specialize (Hc c Hc1 Hc2). cbn [amount foldr fst snd].
    unfold since. cbn [win_buckets win_bucketTimes].
    rewrite <- (list_insert_id (win_bucketTimes r) i (bucketTime r i)) by done.
    rewrite (since_insert c _ _ _ _ _ (bucket r i + v) (bucketTime r i) E1 E2). fold (since c r).
    assert (bucketTime (mkWindow (win_windowSize r) (win_bucketSize r) (<[i:=bucket r i + v]> (win_buckets r)) (win_bucketTimes r) i) i
            = bucketTime r i) as Ebt by done.
    fold (amount (fun t => c + win_bucketSize r <=? t) h).
    destruct (Z.leb_spec (c + win_bucketSize r) now), (Z.ltb_spec c (bucketTime r i)); lia.
Qed.

(** The buckets that [Rate] counts. *)
Definition counted (now : Z) (w : RateWindow) : Z :=
  foldr (fun (e : Z * Z) n => (if now - e.2 <=? win_windowSize w then e.1 else 0) + n) 0 (combine (win_buckets w) (win_bucketTimes w)).

Lemma fold_total size limit now (l : list (Z * Z)) acc : 0 <= size < 2 ^ 62 ->
  Forall (fun e => 0 <= e.1 <= limit) l -> 0 <= acc -> acc + Z.of_nat (length l) * limit < 2 ^ 53 ->
  let total := foldr (fun (e : Z * Z) n => (if now - e.2 <=? size then e.1 else 0) + n) 0 l in
  0 <= total <= Z.of_nat (length l) * limit
  /\ fold_left (fun total (e : Z * Z) => if Sub now e.2 <=? size then wraps 64 (total + e.1) else total) l acc = acc + total.
Proof.
  intros Hs Hl. revert acc. induction Hl as [|[b t] l [Hb1 Hb2] Hl IH]; intros acc Ha Hacc total; simpl in *; [subst total; lia|].
  rewrite Sub_le by lia. subst total. destruct (Z.leb_spec (now - t) size).
  - rewrite wraps_64_id by (unfold in_i64; nia). destruct (IH (acc + b)) as [IH1 IH2]; [lia|nia|]. rewrite IH2. split; [nia|lia].
  - destruct (IH acc) as [IH1 IH2]; [lia|nia|]. rewrite IH2. split; [nia|lia].
Qed.

Lemma counted_bounds limit h now w : window_ok limit h now w ->
  0 <= counted now w < 2 ^ 53 /\ Rate now w = counted now w.
Proof.
  intros [(Hs1 & Hs2 & Hs3) Ht Hi Hb Hf Hw Hsp Hh Hc].
  destruct (fold_total (win_windowSize w) limit now (combine (win_buckets w) (win_bucketTimes w)) 0) as [H1 H2]; [nia| |lia| |].
  - apply Forall_forall. intros [b t] Hin%list_elem_of_In. apply (proj1 (Forall_forall _ _) Hb b), list_elem_of_In. by eapply in_combine_l.
  - rewrite length_combine, Ht, Nat.min_id. lia.
  - rewrite length_combine, Ht, Nat.min_id in H1. fold (counted now w) in H1, H2.
    unfold Rate, window_total. rewrite H2, Z.add_0_l. split; [lia|].
    unfold float64_of_int64. rewrite Z.abs_eq by lia. destruct (Z.ltb_spec (counted now w) (2 ^ 53)); [|lia].
    apply wraps_64_id. unfold in_i64. lia.
Qed.

Lemma counted_since limit h now w : window_ok limit h now w -> since (now - win_windowSize w) w <= counted now w.
Proof.
  intros [_ Ht _ Hb _ _ _ _ _]. unfold since, counted. revert Hb Ht.
  generalize (win_windowSize w) as size, (win_bucketTimes w) as ts. induction (win_buckets w) as [|b bs IH]; intros size [|t ts] Hb Ht; try done.
  apply Forall_cons in Hb as [Hb1 Hb]. simpl in *. specialize (IH size ts Hb ltac:(lia)).
  destruct (Z.ltb_spec (now - size) t), (Z.leb_spec (now - t) size); lia.
Qed.

Lemma counted_bucket now w i : Forall (fun b => 0 <= b) (win_buckets w) -> length (win_bucketTimes w) = length (win_buckets w) ->
  (i < length (win_buckets w))%nat -> now - bucketTime w i <= win_windowSize w -> bucket w i <= counted now w.
Proof.
  intros Hb Ht Hi Hn. destruct (bucket_lookup w i Ht Hi) as [E1 E2]. unfold counted. revert Hb E1 E2 Hn.
  generalize (bucketTime w i) as t, (bucket w i) as b. revert i Hi.
  assert (forall size bs ts, Forall (fun b => 0 <= b) bs ->
    0 <= foldr (fun (e : Z * Z) n => (if now - e.2 <=? size then e.1 else 0) + n) 0 (combine bs ts)) as Hpos.
  { intros size bs. induction bs as [|b bs IH]; intros [|t ts] Hbs; simpl; try lia.
    apply Forall_cons in Hbs as [? ?]. specialize (IH ts ltac:(done)). case_match; lia. }
  clear Ht. generalize (win_windowSize w) as size, (win_bucketTimes w) as ts. induction (win_buckets w) as [|b0 bs IH]; intros size ts i Hi t b Hb E1 E2 Hn; [done|].
  destruct ts as [|t0 ts]; [done|]. apply Forall_cons in Hb as [Hb0 Hb]. destruct i as [|i]; simpl in *.
  - simplify_eq. destruct (Z.leb_spec (now - t) size); [|lia]. specialize (Hpos size bs ts Hb). lia.
  - specialize (IH size ts i ltac:(lia) t b Hb E1 E2 Hn). destruct (now - t0 <=? size); lia.
Qed.

(** An addition that [Rate] leaves room for. *)
Lemma admitted_ok limit h now w v : window_ok limit h now w -> 0 <= v -> Rate now w + v <= limit ->
  window_ok limit ((now, v) :: h) now (RateWindow_Add now w v)
  /\ amount (fun t => now - (win_windowSize w - win_bucketSize w) <=? t) h + v <= limit.
Proof.
  intros Hok Hv Hr. destruct (counted_bounds _ _ _ _ Hok) as [Hc Er]. rewrite Er in Hr.
  pose proof Hok as [(Hs1 & Hs2 & Hs3) Ht Hi Hb Hf [Hw1 Hw2] Hsp Hh Hcd]. split.
  - apply Add_ok; [done|done|]. unfold rotate. assert (win_bucketSize w <= win_windowSize w) as Hbw by nia. rewrite Sub_ge by lia.
    destruct (Z.leb_spec (win_bucketSize w) (now - bucketTime w (win_currentIdx w))) as [Hro|Hro].
    + unfold bucket. cbn [win_buckets win_currentIdx].
      rewrite list_lookup_insert_eq by (apply Nat.mod_upper_bound; lia). simpl. lia.
    + assert (bucket w (win_currentIdx w) <= counted now w); [|lia].
      apply counted_bucket; [|done|done|lia]. eapply Forall_impl; [exact Hb|]. simpl. lia.
  - specialize (Hcd (now - win_windowSize w) ltac:(lia) ltac:(lia)). pose proof (counted_since _ _ _ _ Hok).
    replace (now - (win_windowSize w - win_bucketSize w)) with (now - win_windowSize w + win_bucketSize w) by lia. lia.
Qed.

(** What is granted between [s] and [s + d], both included. *)
Definition granted_in (s d : Z) (h : list (Z * Z)) : Z := amount (fun t => (s <=? t) && (t <=? s + d)) h.

(** The additions are within the limit in every span of [d]. *)
Definition spans_ok (d limit : Z) (h : list (Z * Z)) : Prop := forall s, granted_in s d h <= limit.

Lemma spans_admitted d limit h now v : 0 <= limit -> spans_ok d limit h -> Forall (fun e => 0 <= e.2 /\ e.1 <= now) h -> 0 <= v ->
  amount (fun t => now - d <=? t) h + v <= limit -> spans_ok d limit ((now, v) :: h).
Proof.
  intros Hl Hs Hh Hv Ha s. unfold granted_in. simpl. fold (granted_in s d h).
  destruct ((s <=? now) && (now <=? s + d)) eqn:E; [|specialize (Hs s); lia].
  apply andb_prop in E as [E1%Z.leb_le E2%Z.leb_le].
  assert (granted_in s d h <= amount (fun t => now - d <=? t) h); [|lia].
  apply amount_mono; [eapply Forall_impl; [exact Hh|]; simpl; lia|].
  intros e _ [? ?]%andb_prop. apply Z.leb_le. lia.
Qed.

(** ** Runs of the manager *)

Inductive manager_op :=
| Produce (id : TenantID) (bytes messages : Z) | Consume (id : TenantID) (bytes messages : Z)
| Connect (id : TenantID) | Disconnect (id : TenantID)
| AddedTopic (id : TenantID) (partitions : Z) | RemovedTopic (id : TenantID) (partitions : Z)
| CheckedStorage (id : TenantID) (bytes : Z) | StoredBytes (id : TenantID) (bytes : Z)
| Created (id : TenantID) (name : bytes) (q : option Quotas) | Updated (id : TenantID) (name : bytes) (q : option Quotas)
| Deleted (id : TenantID) | Suspended (id : TenantID) | Activated (id : TenantID)
| Registered (id : TenantID) (topic : bytes) | Unregistered (topic : bytes).

Definition manager_step (now : Z) (m : Manager) (op : manager_op) : option tenancy_error * Manager :=
  match op with
  | Produce id b n => EnforceProduceQuota now m id b n
  | Consume id b n => EnforceConsumeQuota now m id b n
  | Connect id => EnforceConnectionQuota m id
  | Disconnect id => (None, ReleaseConnection m id)
  | AddedTopic id n => EnforceTopicQuota m id n
  | RemovedTopic id n => (None, ReleaseTopic m id n)
  | CheckedStorage id b => EnforceStorageQuota m id b
  | StoredBytes id b => UpdateStorageUsage m id b
  | Created id name q => let '(r, m) := CreateTenant now m id name q in (match r with Ok _ => None | Err e => Some e end, m)
  | Updated id name q => UpdateTenant now m id name q
  | Deleted id => DeleteTenant m id
  | Suspended id => SuspendTenant now m id
  | Activated id => ActivateTenant now m id
  | Registered id topic => (None, RegisterTopic m id topic)
  | Unregistered topic => (None, UnregisterTopic m topic)
  end.

(** The operations in the order of time, each with what it returned. *)
Fixpoint manager_run (m : Manager) (ops : list (Z * manager_op)) : list (Z * manager_op * option tenancy_error) * Manager :=
  match ops with
  | [] => ([], m)
  | (now, op) :: ops =>
      let '(err, m) := manager_step now m op in
      let '(trace, m) := manager_run m ops in
      ((now, op, err) :: trace, m)
  end.

(** What a run granted to a tenant: the time, bytes and messages of its successful requests. *)
Definition grant_of (id : TenantID) (e : Z * manager_op * option tenancy_error) : list (Z * (Z * Z)) :=
  match e with
  | (now, Produce id' b n, None) | (now, Consume id' b n, None) => if decide (id' = id) then [(now, (b, n))] else []
  | _ => []
  end.
Definition granted (id : TenantID) (trace : list (Z * manager_op * option tenancy_error)) : list (Z * (Z * Z)) := trace ≫= grant_of id.

(** The tenant whose tracker an operation may change. *)
Definition subject (op : manager_op) : option TenantID :=
  match op with
  | Produce id _ _ | Consume id _ _ | Connect id | Disconnect id | AddedTopic id _ | RemovedTopic id _ | CheckedStorage id _
  | StoredBytes id _ | Created id _ _ | Updated id _ _ | Deleted id | Suspended id | Activated id => Some id
  | Registered _ _ | Unregistered _ => None
  end.

(** Operations that make, replace or reconfigure the tenant. *)
Definition reconfigures (op : manager_op) (id : TenantID) : bool :=
  match op with Created id' _ _ | Updated id' _ _ | Deleted id' => bool_decide (id' = id) | _ => false end.

Lemma enforce_other m id id' f : id <> id' ->
  mg_trackers (enforce m id f).2 !! id' = mg_trackers m !! id' /\ mg_store (enforce m id f).2 = mg_store m.
Proof.
  intros Hne. unfold enforce. destruct (CheckTenantActive m id); [done|]. destruct (GetTracker m id); [|done].
  destruct (f _) as [err qt]. simpl. by rewrite lookup_insert_ne.
Qed.

Lemma release_other m id id' f : id <> id' ->
  mg_trackers (release m id f).2 !! id' = mg_trackers m !! id' /\ mg_store (release m id f).2 = mg_store m.
Proof. intros Hne. unfold release. destruct (GetTracker m id); [|done]. simpl. by rewrite lookup_insert_ne. Qed.

(** Isolation: an operation on behalf of one tenant leaves every other tenant's record and
    usage as they are. *)
Lemma tenants_isolated now m op id : subject op <> Some id ->
  mg_trackers (manager_step now m op).2 !! id = mg_trackers m !! id
  /\ mg_store (manager_step now m op).2 !! id = mg_store m !! id.
Proof.
  intros Hs. destruct op as [id' b n|id' b n|id'|id'|id' n|id' n|id' b|id' b|id' name q|id' name q|id'|id'|id'|id' topic|topic];
    cbn [subject manager_step] in *; try (assert (id' <> id) as Hne by congruence);
    unfold EnforceProduceQuota, EnforceConsumeQuota, EnforceConnectionQuota, EnforceTopicQuota, EnforceStorageQuota,
      ReleaseConnection, ReleaseTopic, UpdateStorageUsage;
    try match goal with
    | |- context [enforce m id' ?f] => destruct (enforce_other m id' id f Hne) as [Et Es]; by rewrite Es
    | |- context [release m id' ?f] => destruct (release_other m id' id f Hne) as [Et Es]; cbn [snd]; by rewrite Es
    end.
  - unfold CreateTenant, store_CreateTenant. destruct (mg_store m !! id'); simpl; [done|]. split; by rewrite lookup_insert_ne.
  - unfold UpdateTenant, store_UpdateTenant. destruct (mg_store m !! id'); simpl; [|done].
    destruct q; simpl; [destruct (mg_trackers m !! id')|]; simpl; split; try done; by rewrite lookup_insert_ne.
  - unfold DeleteTenant, store_DeleteTenant. destruct (mg_store m !! id'); simpl; [|done]. split; by rewrite lookup_delete_ne.
  - unfold SuspendTenant, store_SuspendTenant, set_status. destruct (mg_store m !! id'); simpl; [|done]. by rewrite lookup_insert_ne.
  - unfold ActivateTenant, store_ActivateTenant, set_status. destruct (mg_store m !! id'); simpl; [|done]. by rewrite lookup_insert_ne.
  - unfold RegisterTopic. by destruct topic.
  - done.
Qed.

(** What an operation does to the tracker of its own tenant, when it does not reconfigure it. *)
Inductive tracker_step (now : Z) (qt : QuotaTracker) : manager_op -> option tenancy_error -> QuotaTracker -> Prop :=
| ts_produce id b n : CheckThroughput now qt b n = None -> tracker_step now qt (Produce id b n) None (RecordThroughput now qt b n)
| ts_consume id b n : CheckThroughput now qt b n = None -> tracker_step now qt (Consume id b n) None (RecordThroughput now qt b n)
| ts_connect id : CheckConnection qt = None -> tracker_step now qt (Connect id) None (count_connection qt)
| ts_disconnect id : tracker_step now qt (Disconnect id) None (RemoveConnection qt)
| ts_topic id n qt' : AddTopic qt n = (None, qt') -> tracker_step now qt (AddedTopic id n) None qt'
| ts_release id n : tracker_step now qt (RemovedTopic id n) None (RemoveTopic qt n)
| ts_stored id b : tracker_step now qt (StoredBytes id b) None (UpdateStorage qt b)
| ts_same op : (forall id b n, op <> Produce id b n) -> (forall id b n, op <> Consume id b n) -> tracker_step now qt op None qt
| ts_refused op e : tracker_step now qt op (Some e) qt.

Lemma enforce_tracker m id f qt : mg_trackers m !! id = Some qt ->
  (exists e, (enforce m id f) = (Some e, m)) \/ mg_trackers (enforce m id f).2 !! id = Some (f qt).2 /\ (enforce m id f).1 = QuotaExceeded <$> (f qt).1.
Proof.
  intros Hq. unfold enforce, GetTracker. rewrite Hq. destruct (CheckTenantActive m id); [left; by eexists|].
  right. destruct (f qt). simpl. by rewrite lookup_insert_eq.
Qed.

Lemma release_tracker m id f qt : mg_trackers m !! id = Some qt ->
  release m id f = (None, with_tracker m id (f qt)).
Proof. intros Hq. unfold release, GetTracker. by rewrite Hq. Qed.

Lemma own_step now m op id qt : mg_trackers m !! id = Some qt -> subject op = Some id -> reconfigures op id = false ->
  exists qt', mg_trackers (manager_step now m op).2 !! id = Some qt' /\ tracker_step now qt op (manager_step now m op).1 qt'.
Proof.
  intros Hq Hs Hr. destruct op as [id' b n|id' b n|id'|id'|id' n|id' n|id' b|id' b|id' name q|id' name q|id'|id'|id'|id' topic|topic];
    cbn [subject reconfigures manager_step] in *; simplify_eq; try (by rewrite bool_decide_eq_false in Hr);
    unfold EnforceProduceQuota, EnforceConsumeQuota, EnforceConnectionQuota, EnforceTopicQuota, EnforceStorageQuota,
      ReleaseConnection, ReleaseTopic, UpdateStorageUsage;
    try match goal with
    | |- context [enforce m id ?f] =>
        destruct (enforce_tracker m id f qt Hq) as [[e ->]|[Et Er]]; [exists qt; split; [done|apply ts_refused]|]; rewrite Er, Et; clear Et Er
    | |- context [release m id ?f] => rewrite (release_tracker m id f qt Hq); simpl; eexists; rewrite lookup_insert_eq; split; [done|by constructor]
    end.
  - unfold use_throughput. destruct (CheckThroughput now qt b n) eqn:E; simpl; eexists; (split; [done|]); [apply ts_refused|by apply ts_produce].
  - unfold use_throughput. destruct (CheckThroughput now qt b n) eqn:E; simpl; eexists; (split; [done|]); [apply ts_refused|by apply ts_consume].
  - unfold AddConnection. destruct (CheckConnection qt) eqn:E; simpl; eexists; (split; [done|]); [apply ts_refused|by apply ts_connect].
  - destruct (AddTopic qt n) as [[e|] qt'] eqn:E; simpl; eexists; (split; [done|]); [|by apply ts_topic].
    assert (qt' = qt) as ->; [|apply ts_refused]. unfold AddTopic in E. repeat case_match; by simplify_eq.
  - simpl. exists qt. split; [done|]. destruct (CheckStorage qt b); [apply ts_refused|by apply ts_same].
  - unfold SuspendTenant, store_SuspendTenant, set_status. exists qt. destruct (mg_store m !! id); simpl; (split; [done|]); [by apply ts_same|apply ts_refused].
  - unfold ActivateTenant, store_ActivateTenant, set_status. exists qt. destruct (mg_store m !! id); simpl; (split; [done|]); [by apply ts_same|apply ts_refused].
Qed.

(** ** Quotas are respected *)

Definition bytes_of (h : list (Z * (Z * Z))) : list (Z * Z) := (fun e => (e.1, e.2.1)) <$> h.
Definition messages_of (h : list (Z * (Z * Z))) : list (Z * Z) := (fun e => (e.1, e.2.2)) <$> h.

(** The span in which the quota of a second is kept: a second less one bucket. *)
Definition kept_span : Z := 900 * Millisecond.

Definition rate_limit (limit : Z) : Prop := 0 <= limit <= 2 ^ 49.

(** One window of a tracker, with the additions so far. *)
Definition window_within (limit now : Z) (h : list (Z * Z)) (w : RateWindow) : Prop :=
  rate_limit limit -> window_ok limit h now w /\ spans_ok kept_span limit h
    /\ win_windowSize w = Second /\ win_bucketSize w = 100 * Millisecond.

Definition count_within (limit n : Z) : Prop := 0 <= limit < 2 ^ 62 -> 0 <= n <= limit.

(** A tracker with quotas [q] whose tenant was granted [h]. *)
Record within (q : Quotas) (now : Z) (h : list (Z * (Z * Z))) (qt : QuotaTracker) : Prop := {
  wi_quotas : qt_quotas qt = q;
  wi_bytes : window_within (MaxBytesPerSecond q) now (bytes_of h) (qt_bytesWindow qt);
  wi_messages : window_within (MaxMessagesPerSecond q) now (messages_of h) (qt_messagesWindow qt);
  wi_connections : count_within (MaxConnections q) (qt_currentConnections qt);
  wi_topics : count_within (MaxTopics q) (qt_currentTopics qt);
  wi_partitions : count_within (MaxPartitions q) (qt_currentPartitions qt)
}.

(** Amounts that are not negative and far from overflow. *)
Definition sane (op : manager_op) : Prop :=
  match op with
  | Produce _ b n | Consume _ b n => 0 <= b < 2 ^ 62 /\ 0 <= n < 2 ^ 62
  | AddedTopic _ n | RemovedTopic _ n => 0 <= n < 2 ^ 62
  | _ => True
  end.

Lemma window_within_later limit now now' h w : now <= now' -> window_within limit now h w -> window_within limit now' h w.
Proof. intros Hn Hw Hl. destruct (Hw Hl) as (? & ? & ?). split; [by eapply window_ok_later|done]. Qed.

Lemma within_later q now now' h qt : now <= now' -> within q now h qt -> within q now' h qt.
Proof. intros Hn [? ? ? ? ? ?]. split; try done; by eapply window_within_later. Qed.

Lemma window_admits limit now h w v : window_within limit now h w -> 0 <= v < 2 ^ 62 ->
  (0 <=? limit) && (limit <? wraps 64 (Rate now w + v)) = false -> window_within limit now ((now, v) :: h) (RateWindow_Add now w v).
Proof.
  intros Hw Hv Hc Hl. destruct (Hw Hl) as (Hok & Hs & Es & Eb). unfold rate_limit in Hl.
  destruct (counted_bounds _ _ _ _ Hok) as [Hb Er].
  rewrite wraps_64_id in Hc by (unfold in_i64; lia). apply andb_false_iff in Hc as [Hc%Z.leb_gt|Hc%Z.ltb_ge]; [lia|].
  destruct (admitted_ok limit h now w v Hok ltac:(lia) Hc) as [Hok' Ha]. rewrite Es, Eb in Ha.
  split; [done|]. split.
  - apply spans_admitted; [lia|done|by destruct Hok|lia|]. unfold kept_span, Second in *.
    replace (now - (1000 * Millisecond - 100 * Millisecond)) with (now - 900 * Millisecond) in Ha by lia. done.
  - destruct (rotate_ok _ _ _ _ Hok) as (_ & _ & Ebr & Ewr & _). cbn [RateWindow_Add win_windowSize win_bucketSize].
    by rewrite Ebr, Ewr.
Qed.

Lemma throughput_within q now h qt b n : within q now h qt -> 0 <= b < 2 ^ 62 -> 0 <= n < 2 ^ 62 ->
  CheckThroughput now qt b n = None -> within q now ((now, (b, n)) :: h) (RecordThroughput now qt b n).
Proof.
  intros [Eq Hb Hm Hcn Ht Hp] Hb0 Hn0 Hc. unfold CheckThroughput in Hc. rewrite Eq in Hc.
  destruct ((0 <=? MaxBytesPerSecond q) && _) eqn:E1; [done|]. destruct ((0 <=? MaxMessagesPerSecond q) && _) eqn:E2; [done|].
  split; try done; by apply window_admits.
Qed.

Lemma step_within q now h qt op err qt' : within q now h qt -> sane op -> tracker_step now qt op err qt' ->
  exists g, within q now (g ++ h) qt' /\ forall id, subject op = Some id -> reverse g = grant_of id (now, op, err).
Proof.
  intros Hw Hs Hstep. pose proof Hw as [Eq Hb Hm Hcn Ht Hp]. destruct Hstep as [id b n Hc|id b n Hc|id Hc|id|id n qt' Ha|id n|id b|op Hn1 Hn2|op e].
  - exists [(now, (b, n))]. destruct Hs. split; [by apply throughput_within|]. intros ? [= ->]. simpl. by rewrite decide_True.
  - exists [(now, (b, n))]. destruct Hs. split; [by apply throughput_within|]. intros ? [= ->]. simpl. by rewrite decide_True.
  - exists []. split; [|done]. split; try done. intros Hl. specialize (Hcn Hl). unfold CheckConnection in Hc. rewrite Eq in Hc. simpl.
    destruct ((0 <=? MaxConnections q) && _) eqn:E; [done|]. apply andb_false_iff in E as [E%Z.leb_gt|E%Z.leb_gt]; [lia|].
    rewrite wraps_64_id by (unfold in_i64; lia). lia.
  - exists []. split; [|done]. unfold RemoveConnection. destruct (Z.ltb_spec 0 (qt_currentConnections qt)); [|done].
    split; try done. intros Hl. specialize (Hcn Hl). simpl. lia.
  - exists []. split; [|done]. simpl in Hs. unfold AddTopic, CheckTopic in Ha. rewrite Eq in Ha.
    destruct ((0 <=? MaxTopics q) && _) eqn:E1; [done|]. destruct ((0 <=? MaxPartitions q) && _) eqn:E2; [done|]. injection Ha as <-.
    split; try done; intros Hl; simpl.
    + specialize (Ht Hl). apply andb_false_iff in E1 as [E1%Z.leb_gt|E1%Z.leb_gt]; [lia|]. rewrite wraps_64_id by (unfold in_i64; lia). lia.
    + specialize (Hp Hl). rewrite wraps_64_id in E2 |- * by (unfold in_i64; lia).
      apply andb_false_iff in E2 as [E2%Z.leb_gt|E2%Z.ltb_ge]; lia.
  - exists []. split; [|done]. simpl in Hs. split; try done; intros Hl; simpl.
    + specialize (Ht Hl). case_match; lia.
    + specialize (Hp Hl). rewrite wraps_64_id by (unfold in_i64; lia). case_match; lia.
  - exists []. split; [|done]. by split.
  - exists []. split; [done|]. intros id Hid. destruct op; try done; [by edestruct Hn1|by edestruct Hn2].
  - exists []. split; [done|]. intros id Hid. by destruct op.
Qed.

Lemma granted_other id now op err : subject op <> Some id -> grant_of id (now, op, err) = [].
Proof. intros Hs. destruct op, err; simpl in *; try done; rewrite decide_False; congruence. Qed.

Lemma run_within q id m ops now h qt :
  mg_trackers m !! id = Some qt -> within q now h qt -> StronglySorted Z.le (now :: ops.*1) -> Forall sane ops.*2 ->
  Forall (fun op => reconfigures op id = false) ops.*2 ->
  let '(trace, m') := manager_run m ops in
  exists now' qt', mg_trackers m' !! id = Some qt' /\ within q now' (reverse (granted id trace) ++ h) qt'.
Proof.
  revert m now h qt. induction ops as [|[t op] ops IH]; intros m now h qt Hq Hw Hs Hsn Hr; simpl in *.
  - exists now, qt. done.
  - apply Forall_cons in Hsn as [Hsn1 Hsn], Hr as [Hr1 Hr]. inversion_clear Hs as [|? ? Hs' Hf]. apply Forall_cons in Hf as [Hle Hf].
    apply (within_later _ now t) in Hw; [|done].
    assert (exists qt' g, mg_trackers (manager_step t m op).2 !! id = Some qt' /\ within q t (g ++ h) qt'
              /\ reverse g = grant_of id (t, op, (manager_step t m op).1)) as (qt' & g & Hq' & Hw' & Hg).
    { destruct (decide (subject op = Some id)) as [Hsub|Hsub].
      - destruct (own_step t m op id qt Hq Hsub Hr1) as (qt' & Hq' & Hst).
        destruct (step_within _ _ _ _ _ _ _ Hw Hsn1 Hst) as (g & Hwg & Hg). exists qt', g. split; [done|]. split; [done|by apply Hg].
      - exists qt, []. destruct (tenants_isolated t m op id Hsub) as [-> _]. split; [done|]. split; [done|]. by rewrite granted_other. }
    destruct (manager_step t m op) as [err m1] eqn:Em. cbn [fst snd] in *.
    specialize (IH m1 t (g ++ h) qt' Hq' Hw' Hs' Hsn Hr). destruct (manager_run m1 ops) as [trace m2].
    destruct IH as (now' & qt2 & Hq2 & Hw2). exists now', qt2. split; [done|]. unfold granted in *. cbn [mbind list_bind].
    rewrite reverse_app. rewrite <- Hg, reverse_involutive, <- app_assoc. done.
Qed.

Lemma fresh_window limit now : rate_limit limit -> zero_time + Second <= now ->
  window_ok limit [] now new_window /\ spans_ok kept_span limit [].
Proof.
  intros Hl Hn. split; [|intros s; unfold granted_in; simpl; unfold rate_limit in Hl; lia].
  unfold rate_limit in Hl.
  assert (length (win_buckets new_window) = 10%nat) as Hlen by done.
  assert (forall i, bucketTime new_window i = zero_time) as Hz.
  { intros i. unfold bucketTime. change (win_bucketTimes new_window) with (replicate 10 zero_time).
    destruct (replicate 10 zero_time !! i) eqn:E; [|done]. by apply lookup_replicate in E as [-> _]. }
  split; rewrite ?Hlen, ?Hz.
  - done.
  - done.
  - apply Nat.lt_0_succ.
  - change (win_buckets new_window) with (replicate 10 0). apply Forall_replicate. lia.
  - lia.
  - change (win_windowSize new_window) with Second. unfold Second, Millisecond in *. lia.
  - intros k _. right. apply Hz.
  - done.
  - intros c _ Hc. unfold since. change (win_buckets new_window) with (replicate 10 0).
    change (win_bucketTimes new_window) with (replicate 10 zero_time). cbn. destruct (c <? zero_time); lia.
Qed.

Lemma fresh_within id q now : zero_time + Second <= now -> within q now [] (NewQuotaTracker id q).
Proof.
  intros Hn. split; try done; try (intros Hl; simpl; lia).
  all: intros Hl; destruct (fresh_window _ now Hl Hn); by split_and!.
Qed.

Lemma amount_reverse P h : amount P (reverse h) = amount P h.
Proof.
  assert (forall a b, amount P (a ++ b) = amount P a + amount P b) as Happ.
  { intros a b. unfold amount. induction a as [|e a IH]; simpl; [done|]. rewrite IH. lia. }
  induction h as [|e h IH]; [done|]. rewrite reverse_cons, Happ, IH. simpl. lia.
Qed.

(** C33: A tenant's quotas hold. Whatever the other tenants do, and whatever sequence of requests,
    connections, topics and suspensions of its own follows the creation of a tenant: the bytes
    (and messages) that it is granted within any 900 milliseconds are at most what it may use
    in a second, and its connections, topics and partitions are at most what it may have. *)
Theorem quotas_respected t0 m0 id name q tenant m ops :
  CreateTenant t0 m0 id name (Some q) = (Ok tenant, m) ->
  zero_time + Second <= t0 -> StronglySorted Z.le (t0 :: ops.*1) -> Forall sane ops.*2 ->
  Forall (fun op => reconfigures op id = false) ops.*2 ->
  let '(trace, m') := manager_run m ops in
  let h := granted id trace in
  (rate_limit (MaxBytesPerSecond q) -> forall s, granted_in s kept_span (bytes_of h) <= MaxBytesPerSecond q)
  /\ (rate_limit (MaxMessagesPerSecond q) -> forall s, granted_in s kept_span (messages_of h) <= MaxMessagesPerSecond q)
  /\ exists qt, mg_trackers m' !! id = Some qt
      /\ count_within (MaxConnections q) (qt_currentConnections qt)
      /\ count_within (MaxTopics q) (qt_currentTopics qt)
      /\ count_within (MaxPartitions q) (qt_currentPartitions qt).
Proof.
  intros Hc Ht Hs Hsn Hr. unfold CreateTenant, store_CreateTenant in Hc. destruct (mg_store m0 !! id); [done|]. injection Hc as <- <-.
  set (m := track_tenant _ _). assert (mg_trackers m !! id = Some (NewQuotaTracker id q)) as Hq by apply lookup_insert_eq.
  pose proof (run_within q id m ops t0 [] _ Hq (fresh_within id q t0 Ht) Hs Hsn Hr) as Hrun.
  destruct (manager_run m ops) as [trace m']. destruct Hrun as (now' & qt & Hq' & [_ Hb Hm Hcn Htp Hp]). rewrite app_nil_r in *.
  unfold window_within, bytes_of, messages_of in *. rewrite fmap_reverse in *.
  split; [|split; [|by exists qt]]; intros Hl s.
  - destruct (Hb Hl) as (_ & H & _). specialize (H s). unfold granted_in in *. by rewrite amount_reverse in H.
  - destruct (Hm Hl) as (_ & H & _). specialize (H s). unfold granted_in in *. by rewrite amount_reverse in H.
Qed.

Definition base_time : Z := 1700000000 * Second.
Definition small_quotas : Quotas := mkQuotas 1000 10 (-1) 2 8 1 (-1) (-1) (-1) (-1) (-1).
Definition acme : TenantID := text "acme".

Lemma quotas_respected_witness :
  exists tenant m, CreateTenant base_time NewManager acme [] (Some small_quotas) = (Ok tenant, m)
  /\ let ops := [(base_time, Produce acme 600 3); (base_time + Second, Consume acme 400 9); (base_time + Second, Connect acme)] in
     let '(trace, m') := manager_run m ops in
     let h := granted acme trace in
     messages_of h = [(base_time, 3)] /\ forall s, granted_in s kept_span (messages_of h) <= 10.
Proof.
  do 2 eexists. split; [vm_compute; reflexivity|]. intros ops.
  epose proof (quotas_respected base_time NewManager acme [] small_quotas _ _ ops) as H.
  specialize (H ltac:(vm_compute; reflexivity) ltac:(vm_compute; discriminate)). cbv zeta in H.
  assert (StronglySorted Z.le (base_time :: ops.*1)) as Hs.
  { repeat constructor; vm_compute; discriminate. }
  assert (Forall sane ops.*2) as Hsane.
  { repeat constructor; vm_compute; (reflexivity || discriminate). }
  specialize (H Hs Hsane ltac:(by repeat constructor)).
  destruct (manager_run _ ops) as [trace m'] eqn:E. destruct H as (_ & H & _).
  split; [|apply H; unfold rate_limit; simpl; lia].
  vm_compute in E. injection E as <- _. vm_compute. reflexivity.
Defined.

(** A second, however, can see almost twice the quota: the additions late in a bucket are
    forgotten together with its first one. *)
Lemma second_exceeds_quota :
  let q := small_quotas in
  let '(_, m) := CreateTenant base_time NewManager acme [] (Some q) in
  let '(trace, _) := manager_run m [(base_time, Produce acme 1 1); (base_time + 99 * Millisecond, Produce acme 999 1);
                                    (base_time + Second + 1, Produce acme 1000 1)] in
  MaxBytesPerSecond q = 1000 /\ granted_in (base_time + 99 * Millisecond) (Second - 98 * Millisecond) (bytes_of (granted acme trace)) = 1999.
Proof. vm_compute. done. Qed.

(** ** Connections that are added at the same time *)

(** [AddConnection] checks under one lock and counts under another.  A state is a tracker with
    the number of callers in between; at most [k] of them are. *)
Inductive connection_step (k : nat) : QuotaTracker * nat -> QuotaTracker * nat -> Prop :=
| cs_check qt p : CheckConnection qt = None -> (S p <= k)%nat -> connection_step k (qt, p) (qt, S p)
| cs_count qt p : connection_step k (qt, S p) (count_connection qt, p)
| cs_remove qt p : connection_step k (qt, p) (RemoveConnection qt, p).

Lemma connection_inv k q qt p qt' p' : 0 <= MaxConnections q -> MaxConnections q + Z.of_nat k < 2 ^ 63 -> (1 <= k)%nat ->
  qt_quotas qt = q /\ 0 <= qt_currentConnections qt /\ qt_currentConnections qt + Z.of_nat p <= MaxConnections q + Z.of_nat k - 1 ->
  connection_step k (qt, p) (qt', p') ->
  qt_quotas qt' = q /\ 0 <= qt_currentConnections qt' /\ qt_currentConnections qt' + Z.of_nat p' <= MaxConnections q + Z.of_nat k - 1.
Proof.
  intros Hq Hk Hk1 (Eq & H0 & H1) Hs. inversion Hs as [qt1 p1 Hc Hp|qt1 p1|qt1 p1]; subst qt1; subst.
  - unfold CheckConnection in Hc. destruct ((0 <=? _) && _) eqn:E; [done|]. split; [done|].
    apply andb_false_iff in E as [E%Z.leb_gt|E%Z.leb_gt]; lia.
  - split; [done|]. simpl. rewrite wraps_64_id by (unfold in_i64; lia). lia.
  - unfold RemoveConnection. destruct (Z.ltb_spec 0 (qt_currentConnections qt)); [|done]. split; [done|]. simpl. lia.
Qed.

Lemma count_many k q qt n : (1 <= k)%nat -> qt_quotas qt = q -> 0 <= qt_currentConnections qt ->
  qt_currentConnections qt + Z.of_nat n <= MaxConnections q -> MaxConnections q < 2 ^ 63 ->
  exists qt', rtc (connection_step k) (qt, 0%nat) (qt', 0%nat) /\ qt_quotas qt' = q
    /\ qt_currentConnections qt' = qt_currentConnections qt + Z.of_nat n.
Proof.
  intros Hk. revert qt. induction n as [|n IH]; intros qt Eq H0 Hn Hm.
  - exists qt. split; [done|]. split; [done|lia].
  - destruct (IH (count_connection qt)) as (qt' & Hr & Eq' & Ec); simpl in *; rewrite ?wraps_64_id in * by (unfold in_i64; lia);
      [done|lia|lia|done|].
    exists qt'. split; [|split; [done|lia]].
    eapply rtc_l; [apply cs_check; [|lia]|]. 2: eapply rtc_l; [apply cs_count|done].
    unfold CheckConnection. rewrite Eq. replace (MaxConnections q <=? qt_currentConnections qt) with false by lia. by rewrite andb_false_r.
Qed.

Lemma check_many k qt p n : CheckConnection qt = None -> (p + n <= k)%nat ->
  rtc (connection_step k) (qt, p) (qt, (p + n)%nat).
Proof.
  intros Hc. revert p. induction n as [|n IH]; intros p Hp; [by rewrite Nat.add_0_r|].
  eapply rtc_l; [apply cs_check; [done|lia]|]. replace (p + S n)%nat with (S p + n)%nat by lia. apply IH. lia.
Qed.

Lemma finish_many k qt p : 0 <= qt_currentConnections qt -> qt_currentConnections qt + Z.of_nat p < 2 ^ 63 ->
  exists qt', rtc (connection_step k) (qt, p) (qt', 0%nat) /\ qt_currentConnections qt' = qt_currentConnections qt + Z.of_nat p.
Proof.
  revert qt. induction p as [|p IH]; intros qt H0 Hp; [exists qt; split; [done|lia]|].
  destruct (IH (count_connection qt)) as (qt' & Hr & Ec); simpl in *; rewrite ?wraps_64_id in * by (unfold in_i64; lia); [lia|lia|].
  exists qt'. split; [|lia]. eapply rtc_l; [apply cs_count|done].
Qed.

(** The limit of connections under concurrency, exactly: when at most [k] callers are inside
    [AddConnection] at a time, a tracker never counts more than [k - 1] connections above the
    limit, and there is a run in which it counts that many. It is kept when calls do not
    overlap. *)
Theorem connection_limit_exact id q k : 1 <= MaxConnections q -> (1 <= k)%nat -> MaxConnections q + Z.of_nat k < 2 ^ 63 ->
  (forall qt p, rtc (connection_step k) (NewQuotaTracker id q, 0%nat) (qt, p) ->
     qt_currentConnections qt <= MaxConnections q + Z.of_nat k - 1)
  /\ exists qt, rtc (connection_step k) (NewQuotaTracker id q, 0%nat) (qt, 0%nat)
       /\ qt_currentConnections qt = MaxConnections q + Z.of_nat k - 1.
Proof.
  intros Hq Hk Hlt. split.
  - intros qt p Hr.
    assert (forall x y, rtc (connection_step k) x y ->
      qt_quotas x.1 = q /\ 0 <= qt_currentConnections x.1 /\ qt_currentConnections x.1 + Z.of_nat x.2 <= MaxConnections q + Z.of_nat k - 1 ->
      qt_quotas y.1 = q /\ 0 <= qt_currentConnections y.1 /\ qt_currentConnections y.1 + Z.of_nat y.2 <= MaxConnections q + Z.of_nat k - 1) as Hinv.
    { induction 1 as [|[] [] ? Hs _ IH]; [done|]. intros Hi. apply IH. by eapply connection_inv; [..|exact Hi|exact Hs]; try done; lia. }
    apply Hinv in Hr; simpl in *; [lia|]. split; [done|]. lia.
  - destruct (count_many k q (NewQuotaTracker id q) (Z.to_nat (MaxConnections q - 1))) as (qt & Hr & Eq & Ec); simpl in *; [done|done|lia..|].
    assert (CheckConnection qt = None) as Hc.
    { unfold CheckConnection. rewrite Eq. replace (MaxConnections q <=? qt_currentConnections qt) with false by lia. by rewrite andb_false_r. }
    destruct (finish_many k qt k) as (qt' & Hr' & Ec'); [lia..|]. exists qt'. split; [|lia].
    etrans; [exact Hr|]. etrans; [apply (check_many k qt 0 k Hc); lia|done].
Qed.

Lemma connection_limit_exact_witness :
  exists qt, rtc (connection_step 2) (NewQuotaTracker acme small_quotas, 0%nat) (qt, 0%nat) /\ qt_currentConnections qt = 2.
Proof. apply (connection_limit_exact acme small_quotas 2); simpl; lia. Defined.

(** ** Tenants and their trackers *)

(** Every tenant has a tracker with its quotas, and there are no others. *)
Definition tracked (m : Manager) : Prop :=
  forall id, match mg_store m !! id, mg_trackers m !! id with
             | Some t, Some qt => tn_ID t = id /\ qt_tenantID qt = id /\ qt_quotas qt = tn_Quotas t
             | None, None => True
             | _, _ => False
             end.

Lemma tracker_step_identity now qt op err qt' : tracker_step now qt op err qt' ->
  qt_tenantID qt' = qt_tenantID qt /\ qt_quotas qt' = qt_quotas qt.
Proof.
  destruct 1 as [| | |id|id n qt' Ha| | | |]; try done.
  - unfold RemoveConnection. by case_match.
  - unfold AddTopic in Ha. repeat case_match; by simplify_eq.
Qed.

Lemma enforce_store m id f : mg_store (enforce m id f).2 = mg_store m.
Proof. unfold enforce. destruct (CheckTenantActive m id); [done|]. destruct (GetTracker m id); [|done]. by destruct (f _). Qed.

Lemma release_store m id f : mg_store (release m id f).2 = mg_store m.
Proof. unfold release. by destruct (GetTracker m id). Qed.

(** Suspensions change the status only, and what does not reconfigure a tenant changes nothing. *)
Lemma own_store now m op id t : mg_store m !! id = Some t -> reconfigures op id = false ->
  exists t', mg_store (manager_step now m op).2 !! id = Some t' /\ tn_ID t' = tn_ID t /\ tn_Quotas t' = tn_Quotas t.
Proof.
  intros Ht Hr. destruct (decide (subject op = Some id)) as [Hs|Hs].
  2: { destruct (tenants_isolated now m op id Hs) as [_ ->]. by exists t. }
  destruct op; cbn [subject reconfigures manager_step] in *; simplify_eq; try (by rewrite bool_decide_eq_false in Hr);
    unfold EnforceProduceQuota, EnforceConsumeQuota, EnforceConnectionQuota, EnforceTopicQuota, EnforceStorageQuota,
      ReleaseConnection, ReleaseTopic, UpdateStorageUsage; cbn [snd]; rewrite ?enforce_store, ?release_store; try (by exists t).
  - unfold SuspendTenant, store_SuspendTenant, set_status. rewrite Ht. simpl. rewrite lookup_insert_eq. by eexists.
  - unfold ActivateTenant, store_ActivateTenant, set_status. rewrite Ht. simpl. rewrite lookup_insert_eq. by eexists.
Qed.

Lemma own_none now m op id : tracked m -> mg_store m !! id = None -> reconfigures op id = false ->
  mg_store (manager_step now m op).2 !! id = None /\ mg_trackers (manager_step now m op).2 !! id = None.
Proof.
  intros Hm Hn Hr. pose proof (Hm id) as Hid. rewrite Hn in Hid. destruct (mg_trackers m !! id) eqn:Et; [done|].
  destruct (decide (subject op = Some id)) as [Hs|Hs].
  2: { destruct (tenants_isolated now m op id Hs) as [-> ->]. done. }
  assert (CheckTenantActive m id = Some TenantNotFound) as Hc by (unfold CheckTenantActive, store_GetTenant; by rewrite Hn).
  assert (GetTracker m id = Err TrackerNotFound) as Hg by (unfold GetTracker; by rewrite Et).
  destruct op; cbn [subject reconfigures manager_step] in *; simplify_eq; try (by rewrite bool_decide_eq_false in Hr);
    unfold EnforceProduceQuota, EnforceConsumeQuota, EnforceConnectionQuota, EnforceTopicQuota, EnforceStorageQuota,
      ReleaseConnection, ReleaseTopic, UpdateStorageUsage, enforce, release, SuspendTenant, ActivateTenant,
      store_SuspendTenant, store_ActivateTenant, set_status; rewrite ?Hc, ?Hg, ?Hn; done.
Qed.

(** In every state that operations one after the other lead to, every tenant has a tracker
    and every tracker a tenant, with the same quotas: an update reaches both, a deletion
    removes both. *)
Theorem tenants_tracked ops : tracked (manager_run NewManager ops).2.
Proof.
  assert (tracked NewManager) as H0 by done. revert H0. generalize NewManager.
  induction ops as [|[now op] ops IH]; intros m Hm; [done|]. simpl. destruct (manager_step now m op) as [err m'] eqn:E.
  specialize (IH m'). destruct (manager_run m' ops) as [trace m2]. apply IH. clear IH.
  assert (m' = (manager_step now m op).2) as -> by (by rewrite E). intros id. specialize (Hm id) as Hid.
  destruct (reconfigures op id) eqn:Hr.
  - destruct op as [| | | | | | | |id' name q|id' name q|id'| | | |]; try done; simpl in Hr; apply bool_decide_eq_true in Hr as ->; cbn [manager_step].
    + unfold CreateTenant, store_CreateTenant. destruct (mg_store m !! id) eqn:Es; simpl; [by rewrite ?Es|]. by rewrite !lookup_insert_eq.
    + unfold UpdateTenant, store_UpdateTenant. destruct (mg_store m !! id) as [t|] eqn:Es; simpl; [|by rewrite ?Es].
      destruct (mg_trackers m !! id) as [qt|] eqn:Et; [|done]. destruct q; simpl; rewrite ?Et; simpl; rewrite ?lookup_insert_eq, ?Et; naive_solver.
    + unfold DeleteTenant, store_DeleteTenant. destruct (mg_store m !! id) eqn:Es; simpl; [|by rewrite ?Es]. by rewrite !lookup_delete_eq.
  - destruct (mg_store m !! id) as [t|] eqn:Es.
    + destruct (mg_trackers m !! id) as [qt|] eqn:Et; [|done]. destruct Hid as (H1 & H2 & H3).
      destruct (own_store now m op id t Es Hr) as (t' & -> & -> & ->). destruct (decide (subject op = Some id)) as [Hs|Hs].
      * destruct (own_step now m op id qt Et Hs Hr) as (qt' & -> & Hst). apply tracker_step_identity in Hst as [-> ->]. done.
      * destruct (tenants_isolated now m op id Hs) as [-> _]. by rewrite Et.
    + destruct (own_none now m op id Hm Es Hr) as [-> ->]. done.
Qed.

(** A tenant that is created while it is being deleted is left without a tracker, and every
    request of it is refused. *)
Lemma concurrent_delete_untracks :
  let m := (CreateTenant base_time NewManager acme [] None).2 in
  let m := with_store m (store_DeleteTenant (mg_store m) acme).2 in
  let '(r, m) := CreateTenant base_time m acme [] None in
  let m := untrack_tenant m acme in
  (exists t, r = Ok t) /\ CheckTenantActive m acme = None /\ (EnforceProduceQuota base_time m acme 1 1).1 = Some TrackerNotFound.
Proof. vm_compute. split; [by eexists|done]. Qed.

(** ** The handler *)

Section handler.
Context {B : Type} (base : Z -> B -> Request -> option Response * B).
Context (range_map : gmap bytes bytes -> list (bytes * bytes)).

(** C34: A request of a tenant that is unknown or not active takes the connection down. The
    handler answers with an error status and no payload, and the encoder of responses asserts
    that an error has an [ErrorResponse]: it panics, and nothing recovers. The tenant is what
    the client writes into a header of its first message. *)
Theorem inactive_tenant_crashes now (h : TenancyHandler B) m req p msg msgs id :
  th_enabled h = true -> th_tenancyManager h = Some m ->
  rh_Type (rq_Header req) = RequestTypeProduce -> rq_Payload req = QProduce p ->
  prq_Messages p = msg :: msgs -> pm_Headers msg !! text "tenant_id" = Some id -> is_Some (CheckTenantActive m id) ->
  exists resp h', Tenancy_Handle base now h req = Some (Some resp, h') /\ EncodeResponse range_map resp = None.
Proof.
  intros He Hm Ht Hp Hms Hid [e Ha]. unfold Tenancy_Handle. rewrite He, Hm. unfold enforceQuotas. rewrite Ht.
  change (RequestTypeProduce =? RequestTypeProduce) with true. cbn [andb]. cbv iota.
  unfold extractTenantID, enforceProduceQuota. rewrite Hp, Hms, Hid. cbn [mbind option_bind].
  unfold EnforceProduceQuota, enforce. rewrite Ha. do 2 eexists. split; [reflexivity|].
  assert (e = TenantNotFound \/ e = TenantNotActive) as [-> | ->].
  { unfold CheckTenantActive, store_GetTenant in Ha. repeat case_match; simplify_eq; auto. }
  all: reflexivity.
Qed.

(** One request, at any time. *)
Definition handler_step (h h' : TenancyHandler B) : Prop := exists now req resp, Tenancy_Handle base now h req = Some (resp, h').

(** The default tenant is active and has used up its topics. *)
Definition topics_full (m : Manager) : Prop :=
  CheckTenantActive m (text "default") = None
  /\ exists qt, mg_trackers m !! text "default" = Some qt /\ 0 <= MaxTopics (qt_quotas qt) <= qt_currentTopics qt.

Lemma enforce_full m id f : topics_full m ->
  (forall qt, qt_quotas (f qt).2 = qt_quotas qt /\ (0 <= MaxTopics (qt_quotas qt) <= qt_currentTopics qt -> qt_currentTopics (f qt).2 = qt_currentTopics qt)) ->
  topics_full (enforce m id f).2.
Proof.
  intros [Ha (qt & Hq & Hl)] Hf. split.
  - unfold CheckTenantActive in *. by rewrite enforce_store.
  - destruct (decide (id = text "default")) as [->|Hne].
    + destruct (enforce_tracker m (text "default") f qt Hq) as [[e ->]|[Ht _]]; [by exists qt|]. eexists. split; [exact Ht|].
      destruct (Hf qt) as [-> ->]; done.
    + destruct (enforce_other m id (text "default") f Hne) as [Ht _]. exists qt. split; [|done]. etrans; [exact Ht|done].
Qed.

Lemma AddTopic_full qt n : 0 <= MaxTopics (qt_quotas qt) <= qt_currentTopics qt -> exists e, AddTopic qt n = (Some e, qt).
Proof.
  intros Hl. unfold AddTopic, CheckTopic, quota_error. replace (0 <=? MaxTopics (qt_quotas qt)) with true by lia.
  replace (MaxTopics (qt_quotas qt) <=? qt_currentTopics qt) with true by lia. simpl. by eexists.
Qed.

Lemma enforceQuotas_full now m req err m' : topics_full m -> enforceQuotas now m (extractTenantID req) req = Some (err, m') -> topics_full m'.
Proof.
  intros Hm. unfold enforceQuotas, enforceProduceQuota, enforceFetchQuota, enforceTopicQuota.
  assert (forall id b n, topics_full (enforce m id (use_throughput now b n)).2) as Hu.
  { intros id b n. apply enforce_full; [done|]. intros qt. unfold use_throughput. by destruct (CheckThroughput now qt b n). }
  repeat case_match; intros [= E]; unfold EnforceProduceQuota, EnforceConsumeQuota, EnforceTopicQuota in *; subst; try done;
    replace m' with (err, m').2 by done; rewrite <- E; try apply Hu; [].
  apply enforce_full; [done|]. intros qt. split.
  - unfold AddTopic. by repeat case_match.
  - intros Hl. by destruct (AddTopic_full qt (crq_NumPartitions p) Hl) as [e ->].
Qed.

Lemma record_full m id resp : topics_full m -> topics_full (recordTopicOwnership m id resp).
Proof. intros Hm. unfold recordTopicOwnership, RegisterTopic. by repeat case_match. Qed.

(** A state of a handler whose default tenant has used up its topics. *)
Definition handler_full (h : TenancyHandler B) : Prop :=
  th_enabled h = true /\ exists m, th_tenancyManager h = Some m /\ topics_full m.

Lemma handler_step_full h h' : handler_full h -> handler_step h h' -> handler_full h'.
Proof.
  intros [He (m & Hm & Hf)] (now & req & resp & Hs). unfold Tenancy_Handle in Hs. rewrite He, Hm in Hs.
  destruct (enforceQuotas now m (extractTenantID req) req) as [[err m']|] eqn:E; [|done]. cbn [mbind option_bind] in Hs.
  apply enforceQuotas_full in E; [|done]. destruct err; [injection Hs as <- <-; split; [done|by eexists]|].
  destruct (base now (th_baseHandler h) req) as [r b]. injection Hs as <- <-. split; [done|]. eexists. split; [done|]. by apply record_full.
Qed.

(** C35: The quota of topics is used up for good. Once the default tenant, whom every creation is
    charged to, has created as many topics as it may have, no sequence of requests makes room,
    deletions included: every later creation is refused before it reaches the wrapped handler. *)
Theorem topic_quota_never_released h h' now req p :
  handler_full h -> rtc handler_step h h' ->
  rh_Type (rq_Header req) = RequestTypeCreateTopic -> rq_Payload req = QCreateTopic p ->
  exists resp h'', Tenancy_Handle base now h' req = Some (Some resp, h'')
    /\ sh_Status (rs_Header resp) = StatusError /\ sh_ErrorCode (rs_Header resp) = quotaErrorCode
    /\ th_baseHandler h'' = th_baseHandler h'.
Proof.
  intros Hf Hr Ht Hp. assert (handler_full h') as [He (m & Hm & Ha & qt & Hq & Hl)].
  { induction Hr as [|x y z Hs _ IH]; [done|]. apply IH. by eapply handler_step_full. }
  unfold Tenancy_Handle. rewrite He, Hm. unfold enforceQuotas. rewrite Ht.
  change (RequestTypeCreateTopic =? RequestTypeProduce) with false. change (RequestTypeCreateTopic =? RequestTypeFetch) with false.
  change (RequestTypeCreateTopic =? RequestTypeCreateTopic) with true. cbv iota.
  unfold extractTenantID, enforceTopicQuota. rewrite Hp. cbn [mbind option_bind].
  unfold EnforceTopicQuota, enforce, GetTracker. rewrite Ha, Hq.
  destruct (AddTopic_full qt (crq_NumPartitions p) Hl) as [e ->]. do 2 eexists. done.
Qed.

(** ** Who owns a topic *)

Definition owned_by_default (h : TenancyHandler B) : Prop :=
  forall m topic id, th_tenancyManager h = Some m -> TenantForTopic m topic = Some id -> id = text "default".

Lemma enforceQuotas_owners now m id req err m' : enforceQuotas now m id req = Some (err, m') -> mg_topicOwners m' = mg_topicOwners m.
Proof.
  assert (forall f, mg_topicOwners (enforce m id f).2 = mg_topicOwners m) as He.
  { intros f. unfold enforce. destruct (CheckTenantActive m id); [done|]. destruct (GetTracker m id); [|done]. by destruct (f _). }
  unfold enforceQuotas, enforceProduceQuota, enforceFetchQuota, enforceTopicQuota, EnforceProduceQuota, EnforceConsumeQuota, EnforceTopicQuota.
  repeat case_match; intros [= E]; subst; try done; replace m' with (err, m').2 by done; rewrite <- E; apply He.
Qed.

(** Only answers that create or delete a topic change owners, and the answers are those of
    requests that have no messages, hence no tenant, when the wrapped handler answers a request
    to produce with an answer of another type. *)
Definition answers_typed : Prop := forall now b req p, rq_Payload req = QProduce p ->
  match (base now b req).1 with Some r => match rs_Payload r with SCreateTopic _ => False | _ => True end | None => True end.

Lemma handler_step_owners h h' : answers_typed -> owned_by_default h -> handler_step h h' -> owned_by_default h'.
Proof.
  intros Hty Ho (now & req & resp & Hs). unfold Tenancy_Handle in Hs.
  destruct (th_enabled h) eqn:Een, (th_tenancyManager h) as [m|] eqn:Em;
    try (destruct (base now (th_baseHandler h) req); injection Hs as <- <-; intros m1; simpl; intros topic id Hm1; by apply (Ho m1); rewrite Em).
  destruct (enforceQuotas now m (extractTenantID req) req) as [[err m']|] eqn:E; [|done]. cbn [mbind option_bind] in Hs.
  apply enforceQuotas_owners in E.
  assert (forall topic id, TenantForTopic m' topic = Some id -> id = text "default") as Hm'.
  { intros topic id. unfold TenantForTopic. rewrite E. by apply Ho. }
  destruct err; [injection Hs as <- <-; intros m1 topic id [= <-]; apply Hm'|].
  specialize (Hty now (th_baseHandler h) req). destruct (base now (th_baseHandler h) req) as [r b]. injection Hs as <- <-.
  intros m1 topic id [= <-]. unfold recordTopicOwnership, RegisterTopic, UnregisterTopic, TenantForTopic in *.
  destruct r as [r|]; [|apply Hm']. destruct (negb _); [apply Hm'|]. destruct (rs_Payload r) as [| | |t|t| | | | | |] eqn:Er; try apply Hm'.
  - destruct (tr_Done t); [|apply Hm']. destruct (tr_Topic t) as [|c topic'] eqn:Et; [apply Hm'|]. simpl.
    intros [[_ <-]|[_ Hl]]%lookup_insert_Some; [|by eapply Hm'].
    unfold extractTenantID. destruct (rq_Payload req) eqn:Ep; try done. specialize (Hty p eq_refl). simpl in Hty. by rewrite Er in Hty.
  - destruct (tr_Done t); [|apply Hm']. simpl. intros [_ Hl]%lookup_delete_Some. by eapply Hm'.
Qed.
End handler.

(** ** Storage *)

(** The bytes of the topics that [P] selects. *)
Definition bytes_where (P : bytes -> bool) (usage : gmap bytes Z) : Z := map_fold (fun topic size n => (if P topic then size else 0) + n) 0 usage.

Lemma bytes_where_insert P usage topic size : usage !! topic = None ->
  bytes_where P (<[topic := size]> usage) = (if P topic then size else 0) + bytes_where P usage.
Proof. intros Hn. unfold bytes_where. rewrite map_fold_insert_L; [done| |done]. intros. lia. Qed.

Lemma bytes_where_mono P Q usage : map_Forall (fun _ size => 0 <= size) usage -> (forall topic, P topic = true -> Q topic = true) ->
  0 <= bytes_where P usage <= bytes_where Q usage.
Proof.
  intros Hu Hpq. revert Hu. induction usage as [|topic size usage Hn IH] using map_ind; intros Hu; [done|].
  apply map_Forall_insert in Hu as [Hs Hu]; [|done]. rewrite !bytes_where_insert by done. specialize (IH Hu). specialize (Hpq topic).
  destruct (P topic), (Q topic); lia.
Qed.

Definition owner_is (owners : gmap bytes TenantID) (o : option TenantID) (topic : bytes) : bool := bool_decide (owners !! topic = o).

Lemma attribute_usage_spec owners usage : map_Forall (fun _ size => 0 <= size) usage -> bytes_where (fun _ => true) usage < 2 ^ 63 ->
  (forall id, default 0 ((attribute_usage owners usage).1 !! id) = bytes_where (owner_is owners (Some id)) usage)
  /\ (attribute_usage owners usage).2 = bytes_where (owner_is owners None) usage.
Proof.
  unfold attribute_usage. apply (map_fold_weak_ind (fun r usage => map_Forall (fun _ size => 0 <= size) usage ->
    bytes_where (fun _ => true) usage < 2 ^ 63 ->
    (forall id, default 0 (r.1 !! id) = bytes_where (owner_is owners (Some id)) usage) /\ r.2 = bytes_where (owner_is owners None) usage)).
  { intros _ _. split; [|done]. intros id. done. }
  intros topic size m [by_tenant rest] Hn IH Hu Ht. apply map_Forall_insert in Hu as [Hs Hu]; [|done].
  rewrite bytes_where_insert in Ht by done. destruct IH as [IH1 IH2]; [done|lia|]. simpl in IH1, IH2.
  assert (forall o, 0 <= bytes_where (owner_is owners o) m <= bytes_where (fun _ => true) m) as Hb.
  { intros o. by apply bytes_where_mono. }
  unfold attribute_topic. simpl. assert (forall o, owner_is owners o topic = bool_decide (owners !! topic = o)) as Hown by done.
  destruct (owners !! topic) as [owner|] eqn:Eo; simpl.
  - rewrite IH1, wraps_64_id by (specialize (Hb (Some owner)); unfold in_i64; lia). split; [intros id|]; rewrite bytes_where_insert, Hown by done.
    + destruct (decide (owner = id)) as [->|Hne].
      * rewrite lookup_insert_eq, bool_decide_true by done. simpl. lia.
      * rewrite lookup_insert_ne, bool_decide_false by congruence. rewrite IH1. lia.
    + rewrite bool_decide_false by done. lia.
  - split; [intros id|]; rewrite bytes_where_insert, Hown by done.
    + rewrite bool_decide_false by done. rewrite IH1. lia.
    + rewrite bool_decide_true by done. rewrite IH2, wraps_64_id by (specialize (Hb None); unfold in_i64; lia). lia.
Qed.

Lemma update_storage_fold (usage : TenantID -> Z) ids m id qt : NoDup ids -> mg_trackers m !! id = Some qt ->
  mg_trackers (foldr (fun id m => (UpdateStorageUsage m id (usage id)).2) m ids) !! id
  = Some (if decide (id ∈ ids) then UpdateStorage qt (usage id) else qt).
Proof.
  intros Hnd Hq. induction Hnd as [|id' ids Hni Hnd IH]; simpl; [done|].
  unfold UpdateStorageUsage at 1. set (m' := foldr _ m ids) in *. destruct (decide (id' = id)) as [->|Hne].
  - rewrite decide_False in IH by done. rewrite (release_tracker m' id _ qt IH). simpl. rewrite lookup_insert_eq, decide_True; [done|left].
  - destruct (release_other m' id' id (fun qt => UpdateStorage qt (usage id')) Hne) as [-> _]. rewrite IH.
    assert (id ∈ ids <-> id ∈ id' :: ids) by (rewrite elem_of_cons; naive_solver). repeat case_decide; naive_solver.
Qed.

(** The storage of a tenant is that of its topics: after the periodic update, every tenant is
    charged for exactly the bytes on disk of the topics whose owner it is, as long as their
    total is an [int64]. *)
Lemma storage_attributed m usage id t qt :
  mg_store m !! id = Some t -> mg_trackers m !! id = Some qt ->
  map_Forall (fun _ size => 0 <= size) usage -> bytes_where (fun _ => true) usage < 2 ^ 63 ->
  exists qt', mg_trackers (updateTenantStorageUsage m usage) !! id = Some qt'
    /\ qt_currentStorageBytes qt' = bytes_where (owner_is (mg_topicOwners m) (Some id)) usage.
Proof.
  intros Ht Hq Hu Hs. unfold updateTenantStorageUsage. destruct (attribute_usage_spec (mg_topicOwners m) usage Hu Hs) as [Ha _].
  eexists. split.
  - apply (update_storage_fold (fun id => default 0 ((attribute_usage (mg_topicOwners m) usage).1 !! id))); [apply NoDup_fst_map_to_list|exact Hq].
  - rewrite decide_True by (apply list_elem_of_fmap; exists (id, t); split; [done|by apply elem_of_map_to_list]).
    simpl. rewrite Ha. assert (0 <= bytes_where (owner_is (mg_topicOwners m) (Some id)) usage) by (by apply (bytes_where_mono _ (fun _ => true))).
    destruct (Z.ltb_spec (bytes_where (owner_is (mg_topicOwners m) (Some id)) usage) 0); lia.
Qed.

(** Storage is never charged to the tenants that use it. The periodic update charges every
    tenant for exactly the topics it owns, but through the handler the owner is always the
    default tenant: whatever requests were made, by whichever tenants, any other tenant is
    charged for no storage at all. *)
Theorem storage_never_charged {B} (base : Z -> B -> Request -> option Response * B) b m0 h m usage id t qt :
  answers_typed base -> mg_topicOwners m0 = ∅ ->
  rtc (handler_step base) (NewTenancyHandler b (Some m0) true) h -> th_tenancyManager h = Some m ->
  mg_store m !! id = Some t -> mg_trackers m !! id = Some qt -> id <> text "default" ->
  map_Forall (fun _ size => 0 <= size) usage -> bytes_where (fun _ => true) usage < 2 ^ 63 ->
  exists qt', mg_trackers (updateTenantStorageUsage m usage) !! id = Some qt' /\ qt_currentStorageBytes qt' = 0.
Proof.
  intros Hty H0 Hr Hm Ht Hq Hid Hu Hs.
  assert (owned_by_default h) as Ho.
  { assert (owned_by_default (NewTenancyHandler b (Some m0) true)) as Hi.
    { intros m1 topic id1 [= <-]. unfold TenantForTopic. by rewrite H0, lookup_empty. }
    induction Hr as [|x y z Hst _ IH]; [done|]. apply IH; [done|]. by eapply handler_step_owners. }
  destruct (storage_attributed m usage id t qt Ht Hq Hu Hs) as (qt' & Hq' & Hc). exists qt'. split; [done|]. rewrite Hc.
  assert (0 <= bytes_where (owner_is (mg_topicOwners m) (Some id)) usage <= bytes_where (fun _ => false) usage) as Hz.
  { apply bytes_where_mono; [done|]. intros topic Hb%bool_decide_eq_true. by apply (Ho m) in Hb. }
  assert (bytes_where (fun _ => false) usage = 0) as Hf; [|lia].
  clear. induction usage as [|topic size usage Hn IH] using map_ind; [done|]. rewrite bytes_where_insert by done. lia.
Qed.

(** ** Witnesses *)

(** A base handler that creates and deletes topics as it is told. *)
Definition obliging (now : Z) (b : unit) (req : Request) : option Response * unit :=
  (Some (mkResponse (mkRespHeader (rh_RequestID (rq_Header req)) StatusOK 0)
     (match rq_Payload req with
      | QCreateTopic p => SCreateTopic (mkTopicResponse (crq_Topic p) true 0)
      | QDeleteTopic topic => SDeleteTopic (mkTopicResponse topic true 0)
      | _ => SNil
      end)), b).

Definition request (type : Z) (p : RequestPayload) : Request := mkRequest (mkReqHeader 7 type 1 0) p.
Definition create_request (topic : string) : Request := request RequestTypeCreateTopic (QCreateTopic (mkCreateTopicRequest (text topic) 1 1)).
Definition delete_request (topic : string) : Request := request RequestTypeDeleteTopic (QDeleteTopic (text topic)).
Definition produce_as (tenant : string) : Request :=
  request RequestTypeProduce
    (QProduce (mkProduceRequest (text "t") 0 [mkProto 0 [] [] {[text "tenant_id" := text tenant]} 0] 1 1000 0 0 0)).

(** Two tenants; the default one may have a single topic. *)
Definition two_tenants : Manager :=
  let q := mkQuotas (-1) (-1) (-1) 1 (-1) (-1) (-1) (-1) (-1) (-1) (-1) in
  (CreateTenant base_time (CreateTenant base_time NewManager (text "default") [] (Some q)).2 acme [] None).2.

Definition serving : TenancyHandler unit := NewTenancyHandler tt (Some two_tenants) true.

Lemma inactive_tenant_crashes_witness :
  exists resp h', Tenancy_Handle obliging base_time serving (produce_as "nobody") = Some (Some resp, h')
    /\ EncodeResponse map_to_list resp = None.
Proof.
  eapply (inactive_tenant_crashes obliging map_to_list base_time serving two_tenants); try reflexivity. by eexists.
Defined.

(** The topic that used up the quota has been deleted, and no other exists. *)
Definition after_delete : option (TenancyHandler unit) :=
  '(_, h) ← Tenancy_Handle obliging base_time serving (create_request "a");
  '(_, h) ← Tenancy_Handle obliging base_time h (delete_request "a");
  Some h.

Lemma topic_quota_never_released_witness :
  exists h, after_delete = Some h /\ (mg_topicOwners <$> th_tenancyManager h) = Some ∅
  /\ exists resp h', Tenancy_Handle obliging base_time h (create_request "b") = Some (Some resp, h')
       /\ sh_Status (rs_Header resp) = StatusError.
Proof.
  destruct (Tenancy_Handle obliging base_time serving (create_request "a")) as [[r1 h1]|] eqn:E1; [|vm_compute in E1; discriminate].
  destruct (Tenancy_Handle obliging base_time h1 (delete_request "a")) as [[r2 h2]|] eqn:E2; [|vm_compute in E1; simplify_eq; vm_compute in E2; discriminate].
  exists h2. split; [unfold after_delete; rewrite E1; cbn [mbind option_bind]; by rewrite E2|].
  assert (handler_full h1) as Hf.
  { vm_compute in E1. injection E1 as _ <-. split; [done|]. eexists. split; [done|]. split; [vm_compute; reflexivity|].
    eexists. split; [vm_compute; reflexivity|]. vm_compute. split; discriminate. }
  split.
  - vm_compute in E1. injection E1 as _ <-. vm_compute in E2. injection E2 as _ <-. vm_compute. reflexivity.
  - destruct (topic_quota_never_released obliging h1 h2 base_time (create_request "b") (mkCreateTopicRequest (text "b") 1 1)) as (resp & h' & H1 & H2 & _);
      [done| |done|done|by exists resp, h'].
    apply rtc_once. exists base_time, (delete_request "a"), r2. exact E2.
Defined.

Lemma storage_never_charged_witness :
  let usage := {[text "t" := 500]} : gmap bytes Z in
  exists qt', mg_trackers (updateTenantStorageUsage two_tenants usage) !! acme = Some qt' /\ qt_currentStorageBytes qt' = 0.
Proof.
  intros usage. eapply (storage_never_charged obliging tt two_tenants serving two_tenants usage acme); try reflexivity.
  - intros now b req p Hp. unfold obliging. simpl. by rewrite Hp.
  - discriminate.
  - intros topic size [_ <-]%lookup_singleton_Some. lia.
Defined.
