(* ===== verification/GoMatch.v ===== *)
(** * Go's [filepath.Match], [strings.Contains] and UTF-8 decoding

    What access control entries are compared with (pkg/security/acl.go).  [filepath.Match] is
    translated chunk by chunk as the Standard Library of Go has it on Unix; a malformed pattern
    is [None]. *)

From S2P Require Import Prelude GoBytes.
From stdpp Require Import prelude list.
From Stdlib Require Import ZArith Lia Strings.Byte.

Open Scope Z_scope.
#[local] Notation length := Datatypes.length.

(** ** strings *)

Fixpoint HasPrefix (s p : bytes) {struct p} : bool :=
  match p, s with
  | [], _ => true
  | x :: p, y :: s => bool_decide (x = y) && HasPrefix s p
  | _ :: _, [] => false
  end.

Definition TrimPrefix (s p : bytes) : bytes := if HasPrefix s p then drop (length p) s else s.

Fixpoint Contains (s sub : bytes) : bool :=
  HasPrefix s sub || match s with [] => false | _ :: s => Contains s sub end.

(** ** utf8.DecodeRuneInString *)

Definition RuneError : Z := 65533.

Definition in_range (lo hi : Z) (b : byte) : bool := (lo <=? b2Z b) && (b2Z b <=? hi).

(** The rune at the beginning of a string that is not empty, and its width; a byte that does
    not begin a valid encoding is [RuneError] of width one. *)
Definition DecodeRune (s : bytes) : Z * nat :=
  match s with
  | [] => (RuneError, 0%nat)
  | b0 :: s =>
      let c0 := b2Z b0 in
      if c0 <? 128 then (c0, 1%nat)
      else if in_range 194 223 b0 then
        match s with
        | b1 :: _ => if in_range 128 191 b1 then (Z.land c0 31 * 64 + Z.land (b2Z b1) 63, 2%nat) else (RuneError, 1%nat)
        | [] => (RuneError, 1%nat)
        end
      else if in_range 224 239 b0 then
        let lo := if c0 =? 224 then 160 else 128 in
        let hi := if c0 =? 237 then 159 else 191 in
        match s with
        | b1 :: b2 :: _ =>
            if in_range lo hi b1 && in_range 128 191 b2
            then (Z.land c0 15 * 4096 + Z.land (b2Z b1) 63 * 64 + Z.land (b2Z b2) 63, 3%nat) else (RuneError, 1%nat)
        | _ => (RuneError, 1%nat)
        end
      else if in_range 240 244 b0 then
        let lo := if c0 =? 240 then 144 else 128 in
        let hi := if c0 =? 244 then 143 else 191 in
        match s with
        | b1 :: b2 :: b3 :: _ =>
            if in_range lo hi b1 && in_range 128 191 b2 && in_range 128 191 b3
            then (Z.land c0 7 * 262144 + Z.land (b2Z b1) 63 * 4096 + Z.land (b2Z b2) 63 * 64 + Z.land (b2Z b3) 63, 4%nat)
            else (RuneError, 1%nat)
        | _ => (RuneError, 1%nat)
        end
      else (RuneError, 1%nat)
  end.

(** ** filepath.Match *)

(** The bytes [*], [?], [\[], []], [\\], [-], [^] and [/]. *)
Definition star_b : byte := x2a.
Definition any_b : byte := x3f.
Definition open_b : byte := x5b.
Definition close_b : byte := x5d.
Definition esc_b : byte := x5c.
Definition dash_b : byte := x2d.
Definition caret_b : byte := x5e.
Definition sep_b : byte := x2f.

Fixpoint skip_stars (p : bytes) : bool * bytes :=
  match p with
  | c :: p' => if decide (c = star_b) then (true, (skip_stars p').2) else (false, p)
  | [] => (false, [])
  end.

(** The chunk up to the next star that is not in a class; an escaped byte is skipped. *)
Fixpoint chunk_loop (p : bytes) (inrange escaped : bool) : bytes * bytes :=
  match p with
  | [] => ([], [])
  | c :: p' =>
      let go r e := let '(chunk, rest) := chunk_loop p' r e in (c :: chunk, rest) in
      if escaped then go inrange false
      else if decide (c = esc_b) then go inrange true
      else if decide (c = open_b) then go true false
      else if decide (c = close_b) then go false false
      else if decide (c = star_b) then (if inrange then go inrange false else ([], p))
      else go inrange false
  end.

Definition scanChunk (p : bytes) : bool * bytes * bytes :=
  let '(star, p) := skip_stars p in
  let '(chunk, rest) := chunk_loop p false false in
  (star, chunk, rest).

Definition getEsc (chunk : bytes) : option (Z * bytes) :=
  match chunk with
  | [] => None
  | c :: chunk' =>
      if decide (c = dash_b) then None
      else if decide (c = close_b) then None
      else
        let chunk := if decide (c = esc_b) then chunk' else chunk in
        match chunk with
        | [] => None
        | _ =>
            let '(r, n) := DecodeRune chunk in
            if (r =? RuneError) && (n =? 1)%nat then None
            else match drop n chunk with [] => None | nchunk => Some (r, nchunk) end
        end
  end.

(** The ranges of a class, up to its closing bracket: whether [r] is in one, and the rest. *)
Fixpoint class_loop (fuel : nat) (chunk : bytes) (r : Z) (matched : bool) (nrange : nat) : option (bool * bytes) :=
  match fuel with
  | O => None
  | S fuel =>
      match chunk, nrange with
      | c :: chunk', S _ => if decide (c = close_b) then Some (matched, chunk') else class_range fuel chunk r matched nrange
      | _, _ => class_range fuel chunk r matched nrange
      end
  end
with class_range (fuel : nat) (chunk : bytes) (r : Z) (matched : bool) (nrange : nat) : option (bool * bytes) :=
  match fuel with
  | O => None
  | S fuel =>
      '(lo, chunk) ← getEsc chunk;
      '(hi, chunk) ← match chunk with
                     | c :: chunk' => if decide (c = dash_b) then getEsc chunk' else Some (lo, chunk)
                     | [] => Some (lo, chunk)
                     end;
      class_loop fuel chunk r (matched || (lo <=? r) && (r <=? hi)) (S nrange)
  end.

(** [Some None] is no match, [Some (Some rest)] what is left of the name. *)
Fixpoint matchChunk (fuel : nat) (chunk s : bytes) (failed : bool) : option (option bytes) :=
  match fuel with
  | O => None
  | S fuel =>
      match chunk with
      | [] => Some (if failed then None else Some s)
      | c :: chunk' =>
          let failed := failed || match s with [] => true | _ => false end in
          if decide (c = open_b) then
            let '(r, n) := if failed then (0, 0%nat) else DecodeRune s in
            let '(negated, chunk) :=
              match chunk' with
              | c :: chunk'' => if decide (c = caret_b) then (true, chunk'') else (false, chunk')
              | [] => (false, chunk')
              end in
            '(matched, chunk) ← class_loop (2 * length chunk + 2) chunk r false 0;
            matchChunk fuel chunk (drop n s) (failed || bool_decide (matched = negated))
          else if decide (c = any_b) then
            let failed := failed || match s with c :: _ => bool_decide (c = sep_b) | [] => true end in
            matchChunk fuel chunk' (if failed then s else drop (DecodeRune s).2 s) failed
          else
            let lit chunk :=
              match chunk with
              | [] => None
              | c :: chunk' =>
                  match s with
                  | x :: s' => if failed then matchChunk fuel chunk' s failed else matchChunk fuel chunk' s' (bool_decide (c <> x))
                  | [] => matchChunk fuel chunk' s failed
                  end
              end in
            if decide (c = esc_b) then lit chunk' else lit chunk
      end
  end.

Definition match_chunk (chunk s : bytes) : option (option bytes) := matchChunk (S (length chunk)) chunk s false.

(** The positions after a star: the chunk is tried after each further byte of the name that is
    not a separator.  [last] is whether nothing follows the chunk. *)
Fixpoint star_loop (chunk name : bytes) (last : bool) : option (option bytes) :=
  match name with
  | [] => Some None
  | c :: name =>
      if decide (c = sep_b) then Some None
      else match match_chunk chunk name with
           | None => None
           | Some (Some t) => if last && negb (bool_decide (t = [])) then star_loop chunk name last else Some (Some t)
           | Some None => star_loop chunk name last
           end
  end.

(** Malformed patterns are no match, so the check of the remaining pattern does not matter. *)
Fixpoint Match_loop (fuel : nat) (pattern name : bytes) : bool :=
  match fuel with
  | O => false
  | S fuel =>
      match pattern with
      | [] => bool_decide (name = [])
      | _ =>
          let '(star, chunk, rest) := scanChunk pattern in
          let last := bool_decide (rest = []) in
          match star, chunk with
          | true, [] => negb (existsb (fun c => bool_decide (c = sep_b)) name)
          | _, _ =>
              let retry := if star then match star_loop chunk name last with Some (Some t) => Match_loop fuel rest t | _ => false end else false in
              match match_chunk chunk name with
              | None => false
              | Some (Some t) => if bool_decide (t = []) || negb last then Match_loop fuel rest t else retry
              | Some None => retry
              end
          end
      end
  end.

(** [matched, _ := filepath.Match(pattern, name)] *)
Definition filepath_Match (pattern name : bytes) : bool := Match_loop (S (length pattern)) pattern name.

(** ** What the pattern forms mean *)

Definition plain (c : byte) : Prop := c <> star_b /\ c <> any_b /\ c <> open_b /\ c <> close_b /\ c <> esc_b.

Lemma HasPrefix_spec s p : HasPrefix s p = true <-> exists t, s = p ++ t.
Proof.
  revert s. induction p as [|x p IH]; intros s; simpl; [split; [by exists s|done]|]. destruct s as [|y s].
  - split; [done|]. by intros [t ?].
  - rewrite andb_true_iff, bool_decide_eq_true, IH. split.
    + intros [-> [t ->]]. by exists t.
    + intros [t [= -> ->]]. split; [done|]. by exists t.
Qed.

Lemma Contains_spec s sub : Contains s sub = true <-> exists a b, s = a ++ sub ++ b.
Proof.
  assert (forall s, HasPrefix s sub = true -> exists a b, s = a ++ sub ++ b) as Hp.
  { intros s' [t ->]%HasPrefix_spec. by exists [], t. }
  induction s as [|c s IH]; simpl.
  - rewrite orb_false_r. split; [apply Hp|]. intros (a & b & E). symmetry in E. apply app_eq_nil in E as [-> E].
    apply HasPrefix_spec. exists b. by rewrite E.
  - rewrite orb_true_iff, IH. split.
    + intros [H|(a & b & ->)]; [by apply Hp|]. by exists (c :: a), b.
    + intros ([|x a] & b & E); simpl in E.
      * left. apply HasPrefix_spec. by exists b.
      * injection E as -> ->. right. by exists a, b.
Qed.

Lemma scan_plain p rest : Forall plain p -> (rest = [] \/ exists r, rest = star_b :: r) ->
  chunk_loop (p ++ rest) false false = (p, rest).
Proof.
  intros Hp Hr. induction Hp as [|c p (H1 & H2 & H3 & H4 & H5) Hp IH]; simpl.
  - destruct Hr as [->|[r ->]]; [done|]. reflexivity.
  - rewrite !decide_False by done. by rewrite IH.
Qed.

Lemma matchChunk_failed fuel chunk s : Forall plain chunk -> (length chunk < fuel)%nat -> matchChunk fuel chunk s true = Some None.
Proof.
  revert fuel. induction chunk as [|c chunk IH]; intros [|fuel] Hc Hf; simpl in *; try lia; [done|].
  apply Forall_cons in Hc as [(H1 & H2 & H3 & H4 & H5) Hc]. rewrite !decide_False by done. destruct s; apply IH; (done || lia).
Qed.

Lemma matchChunk_plain fuel chunk s : Forall plain chunk -> (length chunk < fuel)%nat ->
  matchChunk fuel chunk s false = Some (if HasPrefix s chunk then Some (drop (length chunk) s) else None).
Proof.
  revert fuel s. induction chunk as [|c chunk IH]; intros [|fuel] s Hc Hf; simpl in *; try lia; [by rewrite drop_0|].
  apply Forall_cons in Hc as [(H1 & H2 & H3 & H4 & H5) Hc]. rewrite !decide_False by done. destruct s as [|x s]; simpl.
  - rewrite matchChunk_failed by (done || lia). done.
  - destruct (decide (c = x)) as [->|Hne].
    + rewrite bool_decide_false by (intros H; by apply H). rewrite bool_decide_true by done. by rewrite IH by (done || lia).
    + rewrite bool_decide_true by done. rewrite bool_decide_false by done. simpl. apply matchChunk_failed; (done || lia).
Qed.

Lemma skip_stars_plain p rest : Forall plain p -> p <> [] -> skip_stars (p ++ rest) = (false, p ++ rest).
Proof. intros Hp Hn. destruct Hp as [|c p (H1 & _) Hp]; [done|]. simpl. by rewrite decide_False. Qed.

(** A pattern without special characters matches only itself. *)
Lemma Match_literal p name : Forall plain p -> filepath_Match p name = bool_decide (name = p).
Proof.
  intros Hp. destruct (decide (p = [])) as [->|Hne]; [by apply bool_decide_ext|]. unfold filepath_Match.
  destruct p as [|c p'] eqn:E; [done|]. rewrite <- E in *. assert (scanChunk p = (false, p, [])) as Hs.
  { unfold scanChunk. rewrite <- (app_nil_r p), skip_stars_plain, scan_plain by (done || by left). by rewrite app_nil_r. }
  cbn [Match_loop]. rewrite E at 1. rewrite Hs. rewrite bool_decide_true by done. unfold match_chunk. rewrite matchChunk_plain by (done || lia).
  destruct (HasPrefix name p) eqn:Eh.
  - apply HasPrefix_spec in Eh as [t ->]. rewrite drop_app_length. destruct t as [|x t]; simpl.
    + rewrite app_nil_r, bool_decide_true by done. subst p. simpl. done.
    + symmetry. apply bool_decide_eq_false. intros Ha. apply (f_equal length) in Ha. rewrite length_app in Ha. simpl in Ha. lia.
  - symmetry. apply bool_decide_eq_false. intros ->. assert (HasPrefix p p = true) as Ht; [|congruence].
    apply HasPrefix_spec. exists []. by rewrite app_nil_r.
Qed.

(** A literal prefix followed by a star matches the names that begin with it and have no
    separator after it. *)
Lemma Match_prefix_star p name : Forall plain p ->
  filepath_Match (p ++ [star_b]) name = HasPrefix name p && negb (existsb (fun c => bool_decide (c = sep_b)) (drop (length p) name)).
Proof.
  intros Hp. destruct (decide (p = [])) as [->|Hne].
  - simpl. rewrite drop_0. reflexivity.
  - unfold filepath_Match. assert (scanChunk (p ++ [star_b]) = (false, p, [star_b])) as Hs.
    { unfold scanChunk. rewrite skip_stars_plain, scan_plain by (done || by right; exists []). done. }
    rewrite length_app. cbn [length]. rewrite Nat.add_1_r. cbn [Match_loop]. destruct (p ++ [star_b]) as [|x y] eqn:E; [by destruct p|].
    rewrite Hs. rewrite bool_decide_false by done. cbn [negb]. unfold match_chunk. rewrite matchChunk_plain by (done || lia).
    destruct (HasPrefix name p); simpl; [|done]. rewrite orb_true_r. destruct p; [done|]. simpl. reflexivity.
Qed.
