(* ===== verification/Resilience.v ===== *)
(** * Circuit breakers and timeouts (pkg/resilience, pkg/consensus/backoff.go, pkg/timeout)

    The circuit breaker of the resilience package, whose [Call] is two steps under the lock
    with the protected function in between, the smaller one of the raft transport, and the
    timeout configurations with their checks.  State-change callbacks run in a goroutine of
    their own and are the list of changes that were announced. *)

From S2P Require Import Prelude GoBytes.
From stdpp Require Import prelude list.
From Stdlib Require Import ZArith Lia.

Open Scope Z_scope.
#[local] Notation length := Datatypes.length.

Module Resilience.

Definition Millisecond : Z := 1000000.
Definition Second : Z := 1000 * Millisecond.

(** ** The circuit breaker (circuitbreaker.go) *)

Inductive State := StateClosed | StateOpen | StateHalfOpen.
#[export] Instance State_eq_dec : EqDecision State.
Proof. solve_decision. Defined.

Record Config := mkConfig {
  cf_MaxFailures : Z;
  cf_Timeout : Z;
  cf_MaxRequestsHalfOpen : Z
}.

Definition DefaultConfig : Config := mkConfig 5 (30 * Second) 3.

Record CircuitBreaker := mkBreaker {
  cb_config : Config;
  cb_state : State;
  cb_totalRequests : Z;
  cb_totalSuccesses : Z;
  cb_totalFailures : Z;
  cb_consecutiveSuccesses : Z;
  cb_consecutiveFailures : Z;
  cb_lastStateChange : Z;
  cb_lastFailure : Z;
  cb_openUntil : Z;
  (** the calls of [OnStateChange], newest first *)
  cb_announced : list (State * State)
}.

Inductive breaker_error := ErrCircuitOpen | ErrContextDone.

Definition New (now : Z) (config : option Config) : CircuitBreaker :=
  mkBreaker (default DefaultConfig config) StateClosed 0 0 0 0 0 now zero_time zero_time [].

Definition setState (now : Z) (cb : CircuitBreaker) (newState : State) : CircuitBreaker :=
  if decide (cb_state cb = newState) then cb
  else
    let closing := bool_decide (newState = StateClosed) in
    mkBreaker (cb_config cb) newState (cb_totalRequests cb) (cb_totalSuccesses cb) (cb_totalFailures cb)
      (if closing then 0 else cb_consecutiveSuccesses cb) (if closing then 0 else cb_consecutiveFailures cb)
      now (cb_lastFailure cb) (cb_openUntil cb) ((cb_state cb, newState) :: cb_announced cb).

Definition set_openUntil (cb : CircuitBreaker) (t : Z) : CircuitBreaker :=
  mkBreaker (cb_config cb) (cb_state cb) (cb_totalRequests cb) (cb_totalSuccesses cb) (cb_totalFailures cb)
    (cb_consecutiveSuccesses cb) (cb_consecutiveFailures cb) (cb_lastStateChange cb) (cb_lastFailure cb) t (cb_announced cb).

Definition count_request (cb : CircuitBreaker) : CircuitBreaker :=
  mkBreaker (cb_config cb) (cb_state cb) (wrapu 64 (cb_totalRequests cb + 1)) (cb_totalSuccesses cb) (cb_totalFailures cb)
    (cb_consecutiveSuccesses cb) (cb_consecutiveFailures cb) (cb_lastStateChange cb) (cb_lastFailure cb) (cb_openUntil cb) (cb_announced cb).

Definition beforeCall (now : Z) (cb : CircuitBreaker) : option breaker_error * CircuitBreaker :=
  let cb := count_request cb in
  match cb_state cb with
  | StateClosed => (None, cb)
  | StateOpen => if cb_openUntil cb <? now then (None, setState now cb StateHalfOpen) else (Some ErrCircuitOpen, cb)
  | StateHalfOpen => (None, cb)
  end.

Definition onSuccess (now : Z) (cb : CircuitBreaker) : CircuitBreaker :=
  let cb := mkBreaker (cb_config cb) (cb_state cb) (cb_totalRequests cb) (wrapu 64 (cb_totalSuccesses cb + 1)) (cb_totalFailures cb)
    (wrapu 32 (cb_consecutiveSuccesses cb + 1)) 0 (cb_lastStateChange cb) (cb_lastFailure cb) (cb_openUntil cb) (cb_announced cb) in
  match cb_state cb with
  | StateClosed => cb
  | StateHalfOpen =>
      if cf_MaxRequestsHalfOpen (cb_config cb) <=? cb_consecutiveSuccesses cb then setState now cb StateClosed else cb
  | StateOpen => cb
  end.

Definition onFailure (now : Z) (cb : CircuitBreaker) : CircuitBreaker :=
  let cb := mkBreaker (cb_config cb) (cb_state cb) (cb_totalRequests cb) (cb_totalSuccesses cb) (wrapu 64 (cb_totalFailures cb + 1))
    0 (wrapu 32 (cb_consecutiveFailures cb + 1)) (cb_lastStateChange cb) now (cb_openUntil cb) (cb_announced cb) in
  let until := now + cf_Timeout (cb_config cb) in
  match cb_state cb with
  | StateClosed =>
      if cf_MaxFailures (cb_config cb) <=? cb_consecutiveFailures cb then set_openUntil (setState now cb StateOpen) until else cb
  | StateHalfOpen => set_openUntil (setState now cb StateOpen) until
  | StateOpen => set_openUntil cb until
  end.

(** [ok] is whether the protected function returned nil. *)
Definition afterCall (now : Z) (cb : CircuitBreaker) (ok : bool) : CircuitBreaker :=
  if ok then onSuccess now cb else onFailure now cb.

(** A call that nothing interleaves with: [None] when the function ran, and its error
    otherwise.  [done] is whether the caller's context had ended. *)
Definition Call (now : Z) (done : bool) (cb : CircuitBreaker) (ok : bool) : option breaker_error * CircuitBreaker :=
  if done then (Some ErrContextDone, cb)
  else match beforeCall now cb with
       | (Some e, cb) => (Some e, cb)
       | (None, cb) => (None, afterCall now cb ok)
       end.

Definition Reset (now : Z) (cb : CircuitBreaker) : CircuitBreaker :=
  mkBreaker (cb_config cb) StateClosed 0 0 0 0 0 now zero_time zero_time
    (if decide (cb_state cb = StateClosed) then cb_announced cb else (cb_state cb, StateClosed) :: cb_announced cb).

(** ** The circuit breaker of the raft transport (consensus/backoff.go) *)

Record RaftBreaker := mkRaftBreaker {
  rb_maxFailures : Z;
  rb_resetTimeout : Z;
  rb_failureCount : Z;
  rb_lastFailureTime : Z;
  rb_state : State
}.

Definition NewCircuitBreaker : RaftBreaker := mkRaftBreaker 5 (30 * Second) 0 zero_time StateClosed.

(** [t.Sub(u)], which saturates at the limits of [time.Duration]. *)
Definition time_Sub (t u : Z) : Z := Z.max (- 2 ^ 63) (Z.min (2 ^ 63 - 1) (t - u)).

Definition raft_Call (now : Z) (cb : RaftBreaker) : bool * RaftBreaker :=
  match rb_state cb with
  | StateClosed => (true, cb)
  | StateOpen =>
      if rb_resetTimeout cb <? time_Sub now (rb_lastFailureTime cb)
      then (true, mkRaftBreaker (rb_maxFailures cb) (rb_resetTimeout cb) (rb_failureCount cb) (rb_lastFailureTime cb) StateHalfOpen)
      else (false, cb)
  | StateHalfOpen => (true, cb)
  end.

Definition RecordSuccess (cb : RaftBreaker) : RaftBreaker :=
  mkRaftBreaker (rb_maxFailures cb) (rb_resetTimeout cb) 0 (rb_lastFailureTime cb) StateClosed.

Definition RecordFailure (now : Z) (cb : RaftBreaker) : RaftBreaker :=
  let n := wraps 64 (rb_failureCount cb + 1) in
  mkRaftBreaker (rb_maxFailures cb) (rb_resetTimeout cb) n now (if rb_maxFailures cb <=? n then StateOpen else rb_state cb).

Definition IsOpen (now : Z) (cb : RaftBreaker) : bool :=
  bool_decide (rb_state cb = StateOpen) && (time_Sub now (rb_lastFailureTime cb) <? rb_resetTimeout cb).

(** ** Timeouts (timeout.go) *)

Record TimeoutConfig := mkTimeouts {
  RaftProposal : Z; RaftElection : Z; RaftHeartbeat : Z; RaftSnapshot : Z;
  MetadataUpdate : Z; MetadataSync : Z;
  RebalanceTimeout : Z; BrokerHeartbeat : Z; LeaderElection : Z;
  HealthCheck : Z; ReadinessCheck : Z;
  ConnectionTimeout : Z; RequestTimeout : Z; IdleTimeout : Z;
  GracefulShutdown : Z; ForceShutdown : Z
}.

Definition DefaultTimeouts : TimeoutConfig :=
  mkTimeouts (5 * Second) (10 * Second) (1 * Second) (30 * Second) (3 * Second) (10 * Second) (30 * Second) (2 * Second) (15 * Second)
    (2 * Second) (3 * Second) (10 * Second) (30 * Second) (60 * Second) (30 * Second) (5 * Second).
Definition ProductionTimeouts : TimeoutConfig :=
  mkTimeouts (10 * Second) (15 * Second) (1 * Second) (60 * Second) (5 * Second) (15 * Second) (60 * Second) (3 * Second) (20 * Second)
    (3 * Second) (5 * Second) (15 * Second) (60 * Second) (120 * Second) (60 * Second) (10 * Second).
Definition TestTimeouts : TimeoutConfig :=
  mkTimeouts (1 * Second) (2 * Second) (200 * Millisecond) (5 * Second) (1 * Second) (2 * Second) (5 * Second) (500 * Millisecond) (3 * Second)
    (500 * Millisecond) (1 * Second) (2 * Second) (5 * Second) (10 * Second) (5 * Second) (1 * Second).

Inductive timeout_error := BadRaftProposal | BadRaftElection | BadRaftHeartbeat | BadHealthCheck | BadGracefulShutdown.

Definition Timeouts_Validate (c : TimeoutConfig) : option timeout_error :=
  if RaftProposal c <=? 0 then Some BadRaftProposal
  else if RaftElection c <=? RaftHeartbeat c then Some BadRaftElection
  else if RaftHeartbeat c <=? 0 then Some BadRaftHeartbeat
  else if HealthCheck c <=? 0 then Some BadHealthCheck
  else if GracefulShutdown c <=? 0 then Some BadGracefulShutdown
  else None.

(** The manager of timeouts is its configuration. *)
Definition NewTimeoutManager (config : option TimeoutConfig) : result timeout_error TimeoutConfig :=
  let config := default DefaultTimeouts config in
  match Timeouts_Validate config with Some e => Err e | None => Ok config end.

Definition UpdateConfig (m config : TimeoutConfig) : option timeout_error * TimeoutConfig :=
  match Timeouts_Validate config with Some e => (Some e, m) | None => (None, config) end.

(** [ExecuteWithRetry] from attempt [i] on, with [n] retries left: what became of each attempt
    is a function of its number.  The result, and the pauses between attempts, whose doubling
    is in 64 bits. *)
Inductive attempt := Succeeded | Failed | FailedParentDone | FailedParentEndsWaiting.
Inductive retry_result := RetryDone | RetryFailed | RetryParentDone.

Definition backoff (i : nat) : Z := wraps 64 (wraps 64 (2 ^ Z.of_nat i) * 100 * Millisecond).

Fixpoint ExecuteWithRetry (attempts : nat -> attempt) (i n : nat) : retry_result * list Z :=
  match attempts i with
  | Succeeded => (RetryDone, [])
  | FailedParentDone => (RetryFailed, [])
  | Failed =>
      match n with
      | O => (RetryFailed, [])
      | S n => let '(r, pauses) := ExecuteWithRetry attempts (S i) n in (r, backoff i :: pauses)
      end
  | FailedParentEndsWaiting => match n with O => (RetryFailed, []) | S _ => (RetryParentDone, [backoff i]) end
  end.

End Resilience.
