(* ===== verification/ResilienceSpec.v ===== *)
(** * What the circuit breakers guarantee

    When a breaker opens, exactly, that it lets nothing through while it is open, whatever
    calls are still running, and that it closes again; and what the half-open state does not
    do.  The timeout presets are valid. *)

From S2P Require Import Prelude GoBytes Resilience.
From stdpp Require Import prelude list relations.
From Stdlib Require Import ZArith Lia.

Open Scope Z_scope.
#[local] Notation length := Datatypes.length.
Import Resilience.

(** ** When a breaker opens *)

(** Calls one after the other: the time and the outcome of each. *)
Definition run_calls (cb : CircuitBreaker) (l : list (Z * bool)) : CircuitBreaker :=
  fold_left (fun cb e => (Call e.1 false cb e.2).2) l cb.

(** A run of [n] failures. *)
Definition has_run (n : nat) (l : list bool) : Prop := exists a b, l = a ++ replicate n false ++ b.

(** The failures at the end. *)
Fixpoint trailing (l : list bool) : nat :=
  match l with
  | [] => O
  | ok :: l => if decide (trailing l = length l) then (if ok then length l else S (length l)) else trailing l
  end.

Lemma trailing_le l : (trailing l <= length l)%nat.
Proof. induction l as [|[] l IH]; simpl; [done| |]; case_decide; lia. Qed.

Lemma trailing_snoc l ok : trailing (l ++ [ok]) = if ok then 0%nat else S (trailing l).
Proof.
  induction l as [|x l IH]; simpl; [by destruct ok|]. rewrite length_app, IH. pose proof (trailing_le l).
  destruct ok; simpl.
  - rewrite decide_False; [done|]. lia.
  - destruct (decide (trailing l = length l)) as [E|E].
    + rewrite decide_True by lia. destruct x; lia.
    + rewrite decide_False by lia. done.
Qed.

Lemma trailing_suffix l n : (n <= trailing l)%nat -> exists a, l = a ++ replicate n false.
Proof.
  revert n. induction l as [|ok l IH] using rev_ind; intros n Hn.
  - simpl in Hn. assert (n = 0%nat) as -> by lia. by exists [].
  - rewrite trailing_snoc in Hn. destruct n as [|n]; [exists (l ++ [ok]); by rewrite app_nil_r|]. destruct ok; [lia|].
    destruct (IH n ltac:(lia)) as [a ->]. exists a. rewrite <- app_assoc. f_equal. by rewrite replicate_S_end.
Qed.

Lemma suffix_trailing a n : (n <= trailing (a ++ replicate n false))%nat.
Proof.
  induction n as [|n IH]; [lia|]. rewrite replicate_S_end, app_assoc, trailing_snoc. lia.
Qed.

Lemma has_run_prefix n l : has_run n l <-> exists k, (n <= trailing (take k l))%nat.
Proof.
  split.
  - intros (a & b & ->). exists (length (a ++ replicate n false)). rewrite app_assoc, take_app_length. apply suffix_trailing.
  - intros [k Hk]. destruct (trailing_suffix _ _ Hk) as [a Ha]. exists a, (drop k l). by rewrite app_assoc, <- Ha, take_drop.
Qed.

(** A closed breaker counts the failures at the end. *)
Lemma closed_counts cfg now l : 0 < cf_MaxFailures cfg < 2 ^ 32 ->
  (forall k, (trailing (take k l.*2) < Z.to_nat (cf_MaxFailures cfg))%nat) ->
  let cb := run_calls (New now (Some cfg)) l in
  cb_config cb = cfg /\ cb_state cb = StateClosed /\ cb_consecutiveFailures cb = Z.of_nat (trailing l.*2).
Proof.
  intros Hm. induction l as [|[t ok] l IH] using rev_ind; intros Hk cb; [done|].
  assert (forall k, (trailing (take k l.*2) < Z.to_nat (cf_MaxFailures cfg))%nat) as Hk'.
  { intros k. specialize (Hk (k `min` length l)%nat). rewrite fmap_app, take_app_le in Hk by (rewrite length_fmap; lia).
    rewrite <- (take_take l.*2 k (length l)), (take_ge l.*2 (length l)) in Hk by (rewrite length_fmap; lia). done. }
  destruct (IH Hk') as (Hc & Hs & Hf). unfold cb, run_calls. rewrite fold_left_app. fold (run_calls (New now (Some cfg)) l).
  set (c := run_calls _ l) in *. cbn [fold_left fst snd]. rewrite fmap_app. cbn [fmap list_fmap snd]. rewrite trailing_snoc.
  specialize (Hk (length (l ++ [(t, ok)]))%nat). rewrite take_ge, fmap_app in Hk by (by rewrite length_fmap).
  cbn [fmap list_fmap snd] in Hk. rewrite trailing_snoc in Hk.
  unfold Call, beforeCall. change (cb_state (count_request c)) with (cb_state c). rewrite Hs. cbn [snd].
  destruct ok; cbn [afterCall].
  - unfold onSuccess. cbn [cb_state cb_config count_request]. rewrite Hs. done.
  - unfold onFailure. cbn [cb_state cb_config count_request cb_consecutiveFailures]. rewrite Hs, Hc, Hf.
    unfold wrapu. rewrite Z.mod_small by lia. destruct (Z.leb_spec (cf_MaxFailures cfg) (Z.of_nat (trailing l.*2) + 1)); [lia|].
    cbn. split; [done|]. split; [done|lia].
Qed.

(** C36: When a breaker opens, exactly: through any sequence of calls it stays closed as long as
    there is no run of [MaxFailures] failures, with no success in between, and it is open, for
    [Timeout], right after the call that completes the first such run. *)
Theorem breaker_trips_exactly cfg now l : 0 < cf_MaxFailures cfg < 2 ^ 32 ->
  (~ has_run (Z.to_nat (cf_MaxFailures cfg)) l.*2 -> cb_state (run_calls (New now (Some cfg)) l) = StateClosed)
  /\ forall t, ~ has_run (Z.to_nat (cf_MaxFailures cfg)) l.*2 -> has_run (Z.to_nat (cf_MaxFailures cfg)) (l.*2 ++ [false]) ->
       let cb := run_calls (New now (Some cfg)) (l ++ [(t, false)]) in
       cb_state cb = StateOpen /\ cb_openUntil cb = t + cf_Timeout cfg.
Proof.
  intros Hm. assert (~ has_run (Z.to_nat (cf_MaxFailures cfg)) l.*2 ->
    forall k, (trailing (take k l.*2) < Z.to_nat (cf_MaxFailures cfg))%nat) as Hno.
  { intros Hn k. destruct (decide (trailing (take k l.*2) < Z.to_nat (cf_MaxFailures cfg))%nat); [done|].
    destruct Hn. apply has_run_prefix. exists k. lia. }
  split; [intros Hn; by destruct (closed_counts cfg now l Hm (Hno Hn)) as (_ & ? & _)|].
  intros t Hn Hr. destruct (closed_counts cfg now l Hm (Hno Hn)) as (Hc & Hs & Hf). unfold run_calls. rewrite fold_left_app.
  fold (run_calls (New now (Some cfg)) l). set (c := run_calls _ l) in *. cbn [fold_left fst snd].
  apply has_run_prefix in Hr as [k Hk].
  assert (Z.of_nat (trailing l.*2) + 1 >= cf_MaxFailures cfg) as Hge.
  { destruct (decide (k <= length l)%nat).
    - rewrite take_app_le in Hk by (by rewrite length_fmap). specialize (Hno Hn k). lia.
    - rewrite take_ge, trailing_snoc in Hk by (rewrite length_app, length_fmap; simpl; lia). lia. }
  pose proof (Hno Hn (length l)) as Hb. rewrite take_ge in Hb by (by rewrite length_fmap).
  unfold Call, beforeCall. change (cb_state (count_request c)) with (cb_state c). rewrite Hs. cbn [snd afterCall].
  unfold onFailure. cbn [cb_state cb_config count_request cb_consecutiveFailures]. rewrite Hs, Hc, Hf.
  unfold wrapu. rewrite Z.mod_small by lia. destruct (Z.leb_spec (cf_MaxFailures cfg) (Z.of_nat (trailing l.*2) + 1)); [|lia].
  unfold setState. cbn [cb_state]. rewrite decide_False by done. done.
Qed.

(** ** While it is open *)

(** [Call] takes the lock twice, so that calls overlap: an event is the beginning of a call or
    the end of one. *)
Inductive event := Begin | End (ok : bool).

Definition event_step (now : Z) (cb : CircuitBreaker) (e : event) : option breaker_error * CircuitBreaker :=
  match e with Begin => beforeCall now cb | End ok => (None, afterCall now cb ok) end.

Fixpoint run_events (cb : CircuitBreaker) (l : list (Z * event)) : list (event * option breaker_error) * CircuitBreaker :=
  match l with
  | [] => ([], cb)
  | (now, e) :: l =>
      let '(err, cb) := event_step now cb e in
      let '(trace, cb) := run_events cb l in
      ((e, err) :: trace, cb)
  end.

(** An open breaker lets nothing through: whatever calls that began before are still running,
    and however they end, every call that begins before the timeout has passed is rejected, and
    the breaker is still open at its end. *)
Theorem open_rejects cb t l : cb_state cb = StateOpen -> cb_openUntil cb = t + cf_Timeout (cb_config cb) ->
  Forall (fun e => t <= e.1 <= t + cf_Timeout (cb_config cb)) l ->
  let '(trace, cb') := run_events cb l in
  (forall err, (Begin, err) ∈ trace -> err = Some ErrCircuitOpen)
  /\ cb_state cb' = StateOpen /\ t + cf_Timeout (cb_config cb) <= cb_openUntil cb'.
Proof.
  intros Hs Hu. assert (t + cf_Timeout (cb_config cb) <= cb_openUntil cb) as Hle by lia. clear Hu. remember (cb_config cb) as cfg eqn:Hc.
  symmetry in Hc. revert cb Hs Hle Hc. induction l as [|[now e] l IH]; intros cb Hs Hle Hc Hl; simpl.
  - split; [|done]. intros err Hin. by apply elem_of_nil in Hin.
  - apply Forall_cons in Hl as [Hn Hl]. cbn [fst] in Hn.
    assert (exists err cb', event_step now cb e = (err, cb') /\ (e = Begin -> err = Some ErrCircuitOpen)
      /\ cb_state cb' = StateOpen /\ t + cf_Timeout cfg <= cb_openUntil cb' /\ cb_config cb' = cfg) as (err & cb' & -> & He & Hs' & Hle' & Hc').
    { destruct e as [|[]]; simpl.
      - unfold beforeCall. change (cb_state (count_request cb)) with (cb_state cb). rewrite Hs.
        change (cb_openUntil (count_request cb)) with (cb_openUntil cb). destruct (Z.ltb_spec (cb_openUntil cb) now); [lia|]. by do 2 eexists.
      - unfold onSuccess. cbn [cb_state]. rewrite Hs. by do 2 eexists.
      - unfold onFailure. cbn [cb_state cb_config]. rewrite Hs, Hc. do 2 eexists. do 3 (split; [done|]). simpl. split; [lia|done]. }
    specialize (IH cb' Hs' Hle' Hc' Hl). destruct (run_events cb' l) as [trace cb2]. destruct IH as (IH1 & IH2 & IH3).
    split; [|done]. intros err' [[= <- <-]|Hin]%elem_of_cons; [by apply He|by apply IH1].
Qed.

(** ** How it closes *)

Lemma half_open_successes cb l : cb_state cb = StateHalfOpen -> 0 <= cb_consecutiveSuccesses cb ->
  cb_consecutiveSuccesses cb + zlen l < cf_MaxRequestsHalfOpen (cb_config cb) < 2 ^ 32 ->
  let cb' := run_calls cb ((fun t => (t, true)) <$> l) in
  cb_state cb' = StateHalfOpen /\ cb_config cb' = cb_config cb /\ cb_consecutiveSuccesses cb' = cb_consecutiveSuccesses cb + zlen l.
Proof.
  revert cb. induction l as [|t l IH]; intros cb Hs H0 Hl; simpl in *; [split; [done|]; split; [done|lia]|].
  unfold Call, beforeCall. change (cb_state (count_request cb)) with (cb_state cb). rewrite Hs. cbn [snd afterCall].
  unfold onSuccess. cbn [cb_state cb_config count_request cb_consecutiveSuccesses]. rewrite Hs.
  assert (wrapu 32 (cb_consecutiveSuccesses cb + 1) = cb_consecutiveSuccesses cb + 1) as -> by (apply Z.mod_small; lia).
  destruct (Z.leb_spec (cf_MaxRequestsHalfOpen (cb_config cb)) (cb_consecutiveSuccesses cb + 1)); [lia|].
  destruct (IH (mkBreaker (cb_config cb) StateHalfOpen (wrapu 64 (cb_totalRequests cb + 1)) (wrapu 64 (cb_totalSuccesses cb + 1)) (cb_totalFailures cb)
    (cb_consecutiveSuccesses cb + 1) 0 (cb_lastStateChange cb) (cb_lastFailure cb) (cb_openUntil cb) (cb_announced cb))) as (IH1 & IH2 & IH3);
    cbn [cb_state cb_config cb_consecutiveSuccesses] in *; [done|lia|lia|].
  split; [done|]. split; [done|]. etrans; [exact IH3|lia].
Qed.

(** A breaker recovers: after the timeout of an open breaker, as many successful calls as the
    configuration asks for close it; one less does not, and a failure before that opens it for
    another timeout. *)
Theorem breaker_recovers cb t ts t' :
  cb_state cb = StateOpen -> cb_consecutiveSuccesses cb = 0 -> cb_openUntil cb < t ->
  1 + zlen ts < cf_MaxRequestsHalfOpen (cb_config cb) < 2 ^ 32 ->
  let cb' := run_calls cb ((fun t => (t, true)) <$> t :: ts) in
  cb_state cb' = StateHalfOpen
  /\ (2 + zlen ts = cf_MaxRequestsHalfOpen (cb_config cb) -> cb_state (run_calls cb' [(t', true)]) = StateClosed)
  /\ cb_state (run_calls cb' [(t', false)]) = StateOpen
  /\ cb_openUntil (run_calls cb' [(t', false)]) = t' + cf_Timeout (cb_config cb).
Proof.
  intros Hs H0 Hu Hm. cbn [fmap list_fmap run_calls fold_left fst snd].
  assert (exists cb1, (Call t false cb true).2 = cb1 /\ cb_state cb1 = StateHalfOpen /\ cb_config cb1 = cb_config cb /\ cb_consecutiveSuccesses cb1 = 1)
    as (cb1 & -> & Hs1 & Hc1 & Hn1).
  { eexists. split; [done|]. unfold Call, beforeCall. change (cb_state (count_request cb)) with (cb_state cb). rewrite Hs.
    change (cb_openUntil (count_request cb)) with (cb_openUntil cb). destruct (Z.ltb_spec (cb_openUntil cb) t); [|lia].
    cbn [snd afterCall]. unfold onSuccess, setState. change (cb_state (count_request cb)) with (cb_state cb). rewrite decide_False by (by rewrite Hs).
    cbn [cb_state cb_config cb_consecutiveSuccesses count_request]. rewrite bool_decide_false by done.
    rewrite H0. change (wrapu 32 (0 + 1)) with 1. destruct (Z.leb_spec (cf_MaxRequestsHalfOpen (cb_config cb)) 1); [lia|]. done. }
  destruct (half_open_successes cb1 ts) as (Hs2 & Hc2 & Hn2); [done|lia|rewrite Hc1; lia|].
  unfold run_calls in Hs2, Hc2, Hn2. set (cb2 := fold_left _ _ _) in *. split; [done|]. unfold run_calls. cbn [fold_left fst snd].
  unfold Call, beforeCall. change (cb_state (count_request cb2)) with (cb_state cb2). rewrite Hs2. cbn [snd afterCall]. split.
  - intros Hl. unfold onSuccess. cbn [cb_state cb_config cb_consecutiveSuccesses count_request]. rewrite Hs2, Hc2, Hc1, Hn2, Hn1.
    unfold wrapu. rewrite Z.mod_small by lia. destruct (Z.leb_spec (cf_MaxRequestsHalfOpen (cb_config cb)) (1 + zlen ts + 1)); [|lia].
    unfold setState. by rewrite decide_False.
  - unfold onFailure, setState. cbn [cb_state cb_config count_request]. rewrite Hs2, Hc2, Hc1, decide_False by done. done.
Qed.

(** ** What the half-open state does not do *)

(** It does not limit the calls it lets through. *)
Lemma half_open_unlimited cb l : cb_state cb = StateHalfOpen ->
  Forall (fun e => e.2 = None) (run_events cb ((fun t => (t, Begin)) <$> l)).1.
Proof.
  revert cb. induction l as [|t l IH]; intros cb Hs; simpl; [done|]. unfold beforeCall.
  change (cb_state (count_request cb)) with (cb_state cb). rewrite Hs. specialize (IH (count_request cb) Hs).
  destruct (run_events (count_request cb) _) as [trace cb']. by constructor.
Qed.

(** Successes of calls that began before the breaker opened count when it is half open: three
    of them, and the first call after the timeout closes it. *)
Lemma stale_successes_close :
  let cb := New 0 (Some (mkConfig 1 10 3)) in
  let '(trace, cb) := run_events cb [(0, Begin); (0, Begin); (0, Begin); (0, Begin); (1, End false); (2, End true); (2, End true); (2, End true);
                                     (12, Begin); (13, End true)] in
  cf_MaxRequestsHalfOpen (cb_config cb) = 3 /\ cb_state cb = StateClosed /\ cb_announced cb
    = [(StateHalfOpen, StateClosed); (StateOpen, StateHalfOpen); (StateClosed, StateOpen)].
Proof. vm_compute. by repeat split. Qed.

(** ** The breaker of the raft transport *)

Definition raft_failures (cb : RaftBreaker) (ts : list Z) : RaftBreaker := fold_left (fun cb t => RecordFailure t cb) ts cb.

Lemma raft_failures_count ts cb : 0 <= rb_failureCount cb -> rb_failureCount cb + zlen ts < 2 ^ 63 ->
  let cb' := raft_failures cb ts in
  rb_failureCount cb' = rb_failureCount cb + zlen ts /\ rb_maxFailures cb' = rb_maxFailures cb /\ rb_resetTimeout cb' = rb_resetTimeout cb
  /\ (rb_state cb = StateClosed -> rb_failureCount cb < rb_maxFailures cb ->
       rb_state cb' = if rb_maxFailures cb <=? rb_failureCount cb + zlen ts then StateOpen else StateClosed)
  /\ (rb_state cb = StateOpen -> rb_state cb' = StateOpen).
Proof.
  revert cb. induction ts as [|t ts IH]; intros cb H0 Hl; simpl in *.
  - split; [lia|]. do 2 (split; [done|]). split; [|done]. intros Hc Hlt. rewrite Z.add_0_r. replace (rb_maxFailures cb <=? rb_failureCount cb) with false; [exact Hc|]. symmetry. apply Z.leb_gt. lia.
  - assert (wraps 64 (rb_failureCount cb + 1) = rb_failureCount cb + 1) as Hw by (apply wraps_64_id; unfold in_i64; lia).
    unfold RecordFailure. rewrite Hw. set (n := rb_failureCount cb + 1). set (cb1 := mkRaftBreaker _ _ n t _).
    destruct (IH cb1) as (I1 & I2 & I3 & I4 & I5); simpl in *; [lia|lia|].
    split; [lia|]. split; [done|]. split; [done|]. split.
    + intros Hc Hlt. destruct (Z.leb_spec (rb_maxFailures cb) n) as [Hn|Hn].
      * rewrite I5 by done. destruct (Z.leb_spec (rb_maxFailures cb) (rb_failureCount cb + Z.of_nat (S (length ts)))); [done|lia].
      * rewrite I4 by (done || lia). by replace (n + zlen ts) with (rb_failureCount cb + Z.of_nat (S (length ts))) by lia.
    + intros Ho. apply I5. by destruct (rb_maxFailures cb <=? n).
Qed.

(** The transport's breaker refuses calls for thirty seconds after the last of five or more
    failures with no success in between. *)
Lemma raft_breaker_opens t ts now : (4 <= length ts)%nat -> zlen ts < 2 ^ 62 -> now - t <= 30 * Second ->
  let cb := raft_failures NewCircuitBreaker (ts ++ [t]) in
  raft_Call now cb = (false, cb).
Proof.
  intros Hl Hb Hn cb. destruct (raft_failures_count (ts ++ [t]) NewCircuitBreaker) as (_ & _ & Hr & Hs & _); simpl;
    [lia|rewrite length_app; simpl; lia|].
  specialize (Hs eq_refl ltac:(simpl; lia)). fold cb in Hr, Hs. unfold raft_Call. rewrite Hs, Hr. simpl.
  rewrite length_app. simpl. destruct (Z.leb_spec 5 (0 + Z.of_nat (length ts + 1))); [|lia].
  assert (rb_lastFailureTime cb = t) as -> by (unfold cb, raft_failures; by rewrite fold_left_app).
  unfold time_Sub. destruct (Z.ltb_spec (30 * Second) (Z.max (- 2 ^ 63) (Z.min (2 ^ 63 - 1) (now - t)))); [|done]. unfold Second, Millisecond in *. lia.
Qed.

(** ** Timeouts *)

Lemma presets_valid : Forall (fun c => Timeouts_Validate c = None) [DefaultTimeouts; ProductionTimeouts; TestTimeouts].
Proof. by repeat constructor. Qed.

(** A manager's configuration is valid at all times: an invalid one is refused and the old one
    stays. *)
Lemma managed_valid m config : Timeouts_Validate m = None -> Timeouts_Validate (UpdateConfig m config).2 = None.
Proof. intros Hm. unfold UpdateConfig. by destruct (Timeouts_Validate config) eqn:E. Qed.

(** Retries: success means that an attempt within the limit succeeded after failures only, and
    there are as many pauses as failures before it. *)
Lemma retry_succeeds_iff attempts i n :
  (ExecuteWithRetry attempts i n).1 = RetryDone
  <-> exists k, (k <= n)%nat /\ attempts (i + k)%nat = Succeeded /\ forall j, (j < k)%nat -> attempts (i + j)%nat = Failed.
Proof.
  revert i. induction n as [|n IH]; intros i; simpl.
  - split.
    + destruct (attempts i) eqn:E; simpl; try done. intros _. exists 0%nat. rewrite Nat.add_0_r. split; [lia|]. split; [done|lia].
    + intros (k & Hk & Hs & _). assert (k = 0%nat) as -> by lia. rewrite Nat.add_0_r in Hs. by rewrite Hs.
  - specialize (IH (S i)). destruct (ExecuteWithRetry attempts (S i) n) as [r pauses]. simpl in IH. destruct (attempts i) eqn:E; simpl.
    + split; [|done]. intros _. exists 0%nat. rewrite Nat.add_0_r. split; [lia|]. split; [done|lia].
    + rewrite IH. split.
      * intros (k & Hk & Hs & Hf). exists (S k). rewrite <- plus_n_Sm. split; [lia|]. split; [done|]. intros [|j] Hj; [by rewrite Nat.add_0_r|].
        rewrite <- plus_n_Sm. apply Hf. lia.
      * intros ([|k] & Hk & Hs & Hf); [rewrite Nat.add_0_r in Hs; congruence|]. rewrite <- plus_n_Sm in Hs. exists k. split; [lia|]. split; [done|].
        intros j Hj. specialize (Hf (S j) ltac:(lia)). by rewrite <- plus_n_Sm in Hf.
    + split; [done|]. intros ([|k] & Hk & Hs & Hf); [rewrite Nat.add_0_r in Hs; congruence|]. specialize (Hf 0%nat ltac:(lia)). rewrite Nat.add_0_r in Hf. congruence.
    + split; [done|]. intros ([|k] & Hk & Hs & Hf); [rewrite Nat.add_0_r in Hs; congruence|]. specialize (Hf 0%nat ltac:(lia)). rewrite Nat.add_0_r in Hf. congruence.
Qed.

(** ** Witnesses *)

Definition outcomes : list (Z * bool) := [(1, false); (2, true); (3, false)].

Lemma breaker_trips_exactly_witness :
  cb_state (run_calls (New 0 (Some (mkConfig 2 10 3))) outcomes) = StateClosed
  /\ cb_state (run_calls (New 0 (Some (mkConfig 2 10 3))) (outcomes ++ [(4, false)])) = StateOpen.
Proof.
  assert (~ has_run 2 outcomes.*2) as Hn.
  { intros (a & b & E). destruct a as [|x [|y [|z a]]]; simpl in E; try discriminate. destruct a; discriminate. }
  destruct (breaker_trips_exactly (mkConfig 2 10 3) 0 outcomes) as [H1 H2]; [simpl; lia|]. split; [by apply H1|].
  apply (H2 4 Hn). by exists [false; true], [].
Defined.

Lemma open_rejects_witness :
  let cb := run_calls (New 0 (Some (mkConfig 1 10 3))) [(1, false)] in
  (run_events cb [(5, Begin); (6, End true); (11, Begin)]).1 = [(Begin, Some ErrCircuitOpen); (End true, None); (Begin, Some ErrCircuitOpen)]
  /\ cb_state (run_events cb [(5, Begin); (6, End true); (11, Begin)]).2 = StateOpen.
Proof.
  intros cb. pose proof (open_rejects cb 1 [(5, Begin); (6, End true); (11, Begin)] eq_refl eq_refl) as H.
  assert (Forall (fun e => 1 <= e.1 <= 1 + cf_Timeout (cb_config cb)) [(5, Begin); (6, End true); (11, Begin)]) as Hf
    by (repeat constructor; simpl; lia).
  specialize (H Hf). split; [reflexivity|]. destruct (run_events cb _). apply H.
Defined.

Lemma breaker_recovers_witness :
  let cb := run_calls (New 0 (Some (mkConfig 1 10 3))) [(1, false)] in
  cb_state (run_calls (run_calls cb [(12, true); (13, true)]) [(14, true)]) = StateClosed
  /\ cb_state (run_calls (run_calls cb [(12, true); (13, true)]) [(14, false)]) = StateOpen.
Proof.
  intros cb. destruct (breaker_recovers cb 12 [13] 14) as (_ & H1 & H2 & _); [reflexivity|reflexivity|reflexivity|simpl; lia|].
  split; [apply H1; reflexivity|exact H2].
Defined.
