(* ===== verification/Security.v ===== *)
(** * Authentication, access control and the security handler (pkg/security,
      pkg/server/security_handler.go)

    Principals, access control entries and the authorizer, the SASL, API key and TLS
    authenticators, the manager with its audit trail, and the handler that authorizes a
    request before it hands it on.  The hash functions, bcrypt and the X.509 parser are
    parameters.  Types that Go defines as strings are strings.  The encryption service and the
    sinks of audit events are not modelled. *)

From S2P Require Import Prelude GoBytes GoMatch Record Wire Payloads Protocol Handlers.
From stdpp Require Import prelude list gmap.
From Stdlib Require Import ZArith Lia Strings.Byte Strings.String.

Open Scope Z_scope.
#[local] Notation length := Datatypes.length.

Module Security.

(** ** Types (types.go) *)

Record Principal := mkPrincipal {
  pr_ID : bytes;
  pr_Type : bytes;
  pr_AuthMethod : bytes;
  pr_Attributes : gmap bytes bytes;
  pr_AuthTime : Z;
  pr_ExpiresAt : option Z;
  pr_ClientIP : bytes;
  pr_ClientCertCN : bytes
}.

Definition PrincipalTypeUser : bytes := text "USER".
Definition PrincipalTypeService : bytes := text "SERVICE".
Definition PrincipalTypeAnonymous : bytes := text "ANONYMOUS".
Definition PrincipalTypeSystemInternal : bytes := text "SYSTEM_INTERNAL".

Definition AuthMethodMTLS : bytes := text "MTLS".
Definition AuthMethodSASLPlain : bytes := text "SASL_PLAIN".
Definition AuthMethodSASLSCRAM256 : bytes := text "SASL_SCRAM_SHA256".
Definition AuthMethodSASLSCRAM512 : bytes := text "SASL_SCRAM_SHA512".
Definition AuthMethodAPIKey : bytes := text "API_KEY".

Definition ActionTopicCreate : bytes := text "TOPIC_CREATE".
Definition ActionTopicDelete : bytes := text "TOPIC_DELETE".
Definition ActionTopicDescribe : bytes := text "TOPIC_DESCRIBE".
Definition ActionTopicWrite : bytes := text "TOPIC_WRITE".
Definition ActionTopicRead : bytes := text "TOPIC_READ".
Definition ActionGroupRead : bytes := text "GROUP_READ".
Definition ActionClusterDescribe : bytes := text "CLUSTER_DESCRIBE".
Definition ActionClusterAction : bytes := text "CLUSTER_ACTION".

Definition ResourceTypeTopic : bytes := text "TOPIC".
Definition ResourceTypeConsumerGroup : bytes := text "GROUP".
Definition ResourceTypeCluster : bytes := text "CLUSTER".

Definition PatternTypeLiteral : bytes := text "LITERAL".
Definition PatternTypePrefix : bytes := text "PREFIX".
Definition PatternTypeWildcard : bytes := text "WILDCARD".

Definition PermissionAllow : bytes := text "ALLOW".
Definition PermissionDeny : bytes := text "DENY".

Record Resource := mkResource { rsc_Type : bytes; rsc_Name : bytes; rsc_PatternType : bytes }.

Record ACLEntry := mkACL {
  acl_ID : bytes;
  acl_Principal : bytes;
  acl_ResourceType : bytes;
  acl_ResourceName : bytes;
  acl_PatternType : bytes;
  acl_Action : bytes;
  acl_Permission : bytes;
  acl_CreatedAt : Z;
  acl_CreatedBy : bytes
}.

Definition IsSuperUser (p : Principal) (superUsers : list bytes) : bool := existsb (fun su => bool_decide (pr_ID p = su)) superUsers.

Definition HasGroup (p : Principal) (group : bytes) : bool :=
  match pr_Attributes p !! text "groups" with
  | None => false
  | Some groups => Contains groups group
  end.

Definition Principal_IsExpired (now : Z) (p : Principal) : bool :=
  match pr_ExpiresAt p with None => false | Some t => t <? now end.

(** ** Access control entries (acl.go) *)

Record ACLConfig := mkACLConfig { ac_AuthzEnabled : bool; ac_SuperUsers : list bytes }.

Record ACLAuthorizer := mkAuthorizer { au_entries : gmap bytes ACLEntry; au_config : ACLConfig }.

Definition NewACLAuthorizer (config : ACLConfig) : ACLAuthorizer := mkAuthorizer ∅ config.

Definition matchesPrincipal (p : Principal) (pattern : bytes) : bool :=
  if bool_decide (pattern = text "*") then true
  else if bool_decide (pattern = pr_ID p) then true
  else if HasPrefix pattern (text "group:") then HasGroup p (TrimPrefix pattern (text "group:"))
  else if HasPrefix pattern (text "type:") then bool_decide (pr_Type p = TrimPrefix pattern (text "type:"))
  else false.

Definition matchesResourceName (name pattern patternType : bytes) : bool :=
  if bool_decide (patternType = PatternTypeLiteral) then bool_decide (name = pattern)
  else if bool_decide (patternType = PatternTypePrefix) then HasPrefix name pattern
  else if bool_decide (patternType = PatternTypeWildcard) then filepath_Match pattern name
  else false.

Definition matchesEntry (p : Principal) (action : bytes) (resource : Resource) (entry : ACLEntry) : bool :=
  if negb (matchesPrincipal p (acl_Principal entry)) then false
  else if bool_decide (acl_ResourceType entry <> rsc_Type resource) then false
  else if bool_decide (acl_Action entry <> action) then false
  else matchesResourceName (rsc_Name resource) (acl_ResourceName entry) (acl_PatternType entry).

Section ranges.
(** The order of Go's range over the map of entries. *)
Context (range : forall V : Type, gmap bytes V -> list (bytes * V)).

Definition ACL_Authorize (a : ACLAuthorizer) (p : Principal) (action : bytes) (resource : Resource) : bool :=
  let has permission :=
    existsb (fun e : bytes * ACLEntry => matchesEntry p action resource e.2 && bool_decide (acl_Permission e.2 = permission)) (range _ (au_entries a)) in
  if negb (ac_AuthzEnabled (au_config a)) then true
  else if IsSuperUser p (ac_SuperUsers (au_config a)) then true
  else if bool_decide (pr_Type p = PrincipalTypeSystemInternal) then true
  else if has PermissionDeny then false
  else if has PermissionAllow then true
  else false.

Definition FindACLs (a : ACLAuthorizer) (resourceType resourceName action : bytes) : list ACLEntry :=
  filter (fun e => (bool_decide (acl_ResourceType e = resourceType) && bool_decide (acl_Action e = action)
                    && matchesResourceName resourceName (acl_ResourceName e) (acl_PatternType e)) = true) (range _ (au_entries a)).*2.
End ranges.

Definition generateACLID (now : Z) : bytes := text "acl-" ++ FormatInt (UnixNano now).

(** The defaults that [AddACL] fills in; the entry that the caller holds is changed too. *)
Definition with_defaults (now : Z) (entry : ACLEntry) : ACLEntry :=
  mkACL (match acl_ID entry with [] => generateACLID now | id => id end) (acl_Principal entry) (acl_ResourceType entry)
    (acl_ResourceName entry) (acl_PatternType entry) (acl_Action entry) (acl_Permission entry)
    (if IsZero (acl_CreatedAt entry) then now else acl_CreatedAt entry) (acl_CreatedBy entry).

Definition ACL_AddACL (now : Z) (a : ACLAuthorizer) (entry : ACLEntry) : ACLAuthorizer :=
  let entry := with_defaults now entry in
  mkAuthorizer (<[acl_ID entry := entry]> (au_entries a)) (au_config a).

Inductive acl_error := ACLNotFound | AuthzNotEnabled.

Definition ACL_RemoveACL (a : ACLAuthorizer) (id : bytes) : option acl_error * ACLAuthorizer :=
  match au_entries a !! id with
  | None => (Some ACLNotFound, a)
  | Some _ => (None, mkAuthorizer (delete id (au_entries a)) (au_config a))
  end.

Definition GetACL (a : ACLAuthorizer) (id : bytes) : option ACLEntry := au_entries a !! id.
Definition ACL_HasACLEntries (a : ACLAuthorizer) : bool := bool_decide (au_entries a <> ∅).
Definition ClearACLs (a : ACLAuthorizer) : ACLAuthorizer := mkAuthorizer ∅ (au_config a).

(** The builder, with the time at which [Build] runs. *)
Definition built (now : Z) (principal resourceType resourceName patternType action permission createdBy : bytes) : ACLEntry :=
  mkACL (generateACLID now) principal resourceType resourceName
    (match patternType with [] => PatternTypeLiteral | t => t end) action permission now createdBy.

(** [DefaultACLs], with the clock at each of the three calls of [Build]. *)
Definition DefaultACLs (t1 t2 t3 : Z) : list ACLEntry :=
  let default_acl now resourceType action :=
    built now (text "*") resourceType (text "*") PatternTypeWildcard action PermissionAllow (text "system") in
  [ default_acl t1 ResourceTypeTopic ActionTopicRead;
    default_acl t2 ResourceTypeTopic ActionTopicDescribe;
    default_acl t3 ResourceTypeConsumerGroup ActionGroupRead ].

(** ** Authenticators (sasl.go, tls.go) *)

Record User := mkUser {
  us_Username : bytes;
  us_PasswordHash : bytes;
  us_Salt : bytes;
  us_Iterations : Z;
  us_Groups : list bytes;
  us_Attributes : gmap bytes bytes;
  us_Enabled : bool;
  us_CreatedAt : Z;
  us_UpdatedAt : Z
}.

Record APIKey := mkAPIKey {
  ak_Key : bytes;
  ak_Secret : bytes;
  ak_PrincipalID : bytes;
  ak_Type : bytes;
  ak_Groups : list bytes;
  ak_Attributes : gmap bytes bytes;
  ak_ExpiresAt : option Z;
  ak_CreatedAt : Z;
  ak_Enabled : bool
}.

(** What the TLS authenticator reads of a certificate. *)
Record Certificate := mkCert {
  ce_CommonName : bytes;
  ce_Subject : bytes;
  ce_Issuer : bytes;
  ce_DNSNames : list bytes;
  ce_NotBefore : Z;
  ce_NotAfter : Z
}.

Inductive Credentials :=
| SASLCredentials (username password mechanism : bytes)
| APIKeyCredentials (key secret : bytes)
| TLSCredentials (chain : option (list bytes)).

Inductive auth_error :=
| WrongCredentials | MechanismNotAllowed | UserNotFound | UserDisabled | UnsupportedMechanism | InvalidPassword
| NotConfiguredForSCRAM | InvalidAPIKey | APIKeyDisabled | APIKeyExpired | InvalidAPISecret
| NoCertificate | InvalidCertificate | UnparsableCertificate | NameNotAllowed
| AuthDisabled | MethodNotSupported | HashFailed | SASLNotEnabled | APIKeysNotEnabled.

Inductive hash_alg := SHA256 | SHA512.
Definition hash_size (h : hash_alg) : Z := match h with SHA256 => 32 | SHA512 => 64 end.

(** [fmt.Sprintf("%v", groups)] *)
Fixpoint join_space (l : list bytes) : bytes :=
  match l with [] => [] | [x] => x | x :: l => x ++ text " " ++ join_space l end.
Definition format_list (l : list bytes) : bytes := text "[" ++ join_space l ++ text "]".

Definition with_groups (attributes : gmap bytes bytes) (groups : list bytes) : gmap bytes bytes :=
  match groups with [] => attributes | _ => <[text "groups" := format_list groups]> attributes end.

Section crypto.
Context (bcrypt_compare : bytes -> bytes -> bool).
(** The random salt of bcrypt is an argument; long passwords are refused. *)
Context (bcrypt_generate : bytes -> bytes -> option bytes).
Context (pbkdf2 : hash_alg -> bytes -> bytes -> Z -> Z -> bytes).
Context (hmac : hash_alg -> bytes -> bytes -> bytes).
Context (hash : hash_alg -> bytes -> bytes).
Context (ParseCertificate : bytes -> option Certificate).

Definition storedKey (h : hash_alg) (password salt : bytes) (iterations : Z) : bytes :=
  let saltedPassword := pbkdf2 h password salt iterations (hash_size h) in
  let clientKey := hmac h saltedPassword (text "Client Key") in
  hash h clientKey.

Definition authenticatePlain (password : bytes) (user : User) : option auth_error :=
  if bcrypt_compare (us_PasswordHash user) password then None else Some InvalidPassword.

Definition authenticateSCRAM (password : bytes) (user : User) (h : hash_alg) : option auth_error :=
  if bool_decide (us_Salt user = []) || (us_Iterations user =? 0) then Some NotConfiguredForSCRAM
  else if bool_decide (storedKey h password (us_Salt user) (us_Iterations user) = us_PasswordHash user) then None
  else Some InvalidPassword.

Definition check_password (mechanism password : bytes) (user : User) : option auth_error :=
  if bool_decide (mechanism = AuthMethodSASLPlain) then authenticatePlain password user
  else if bool_decide (mechanism = AuthMethodSASLSCRAM256) then authenticateSCRAM password user SHA256
  else if bool_decide (mechanism = AuthMethodSASLSCRAM512) then authenticateSCRAM password user SHA512
  else Some UnsupportedMechanism.

Record SASLConfig := mkSASL { sc_Enabled : bool; sc_Mechanisms : list bytes; sc_Users : gmap bytes User }.

Definition isMechanismAllowed (c : SASLConfig) (mechanism : bytes) : bool := existsb (fun m => bool_decide (m = mechanism)) (sc_Mechanisms c).

Definition SASL_Authenticate (now : Z) (c : SASLConfig) (credentials : Credentials) : result auth_error Principal :=
  match credentials with
  | SASLCredentials username password mechanism =>
      if negb (isMechanismAllowed c mechanism) then Err MechanismNotAllowed
      else match sc_Users c !! username with
      | None => Err UserNotFound
      | Some user =>
          if negb (us_Enabled user) then Err UserDisabled
          else match check_password mechanism password user with
          | Some e => Err e
          | None =>
              Ok (mkPrincipal (us_Username user) PrincipalTypeUser mechanism (with_groups (us_Attributes user) (us_Groups user)) now None [] [])
          end
      end
  | _ => Err WrongCredentials
  end.

(** [salt] is what the random source returns. *)
Definition createSCRAMUser (user : User) (password salt : bytes) (h : hash_alg) (iterations : Z) : User :=
  mkUser (us_Username user) (storedKey h password salt iterations) salt iterations (us_Groups user) (us_Attributes user) (us_Enabled user)
    (us_CreatedAt user) (us_UpdatedAt user).

Definition CreateUser (now : Z) (salt username password authMethod : bytes) (groups : list bytes) : result auth_error User :=
  let user := mkUser username [] [] 0 groups ∅ true now now in
  if bool_decide (authMethod = AuthMethodSASLPlain) then
    match bcrypt_generate salt password with
    | None => Err HashFailed
    | Some h => Ok (mkUser username h [] 0 groups ∅ true now now)
    end
  else if bool_decide (authMethod = AuthMethodSASLSCRAM256) then Ok (createSCRAMUser user password salt SHA256 4096)
  else if bool_decide (authMethod = AuthMethodSASLSCRAM512) then Ok (createSCRAMUser user password salt SHA512 4096)
  else Err UnsupportedMechanism.

Definition AddAPIKey (keys : gmap bytes APIKey) (key : APIKey) : gmap bytes APIKey := <[ak_Key key := key]> keys.

Definition APIKey_Authenticate (now : Z) (keys : gmap bytes APIKey) (credentials : Credentials) : result auth_error Principal :=
  match credentials with
  | APIKeyCredentials k secret =>
      match keys !! k with
      | None => Err InvalidAPIKey
      | Some key =>
          if negb (ak_Enabled key) then Err APIKeyDisabled
          else if (match ak_ExpiresAt key with Some t => t <? now | None => false end) then Err APIKeyExpired
          else if bool_decide (ak_Secret key <> secret) then Err InvalidAPISecret
          else Ok (mkPrincipal (ak_PrincipalID key) (ak_Type key) AuthMethodAPIKey (with_groups (ak_Attributes key) (ak_Groups key)) now
                     (ak_ExpiresAt key) [] [])
      end
  | _ => Err WrongCredentials
  end.

Definition ValidateClientCert (allowedClientCNs : list bytes) (cert : Certificate) : option auth_error :=
  match allowedClientCNs with
  | [] => None
  | cns => if existsb (fun cn => bool_decide (ce_CommonName cert = cn)) cns then None else Some NameNotAllowed
  end.

Definition TLS_Authenticate (allowedClientCNs : list bytes) (credentials : Credentials) : result auth_error Principal :=
  match credentials with
  | TLSCredentials None => Err NoCertificate
  | TLSCredentials (Some []) => Err InvalidCertificate
  | TLSCredentials (Some (der :: _)) =>
      match ParseCertificate der with
      | None => Err UnparsableCertificate
      | Some cert =>
          match ValidateClientCert allowedClientCNs cert with
          | Some e => Err e
          | None =>
              let attributes := <[text "cert_issuer" := ce_Issuer cert]> (<[text "cert_subject" := ce_Subject cert]> ∅) in
              let attributes := match ce_DNSNames cert with [] => attributes | names => <[text "cert_dns_names" := format_list names]> attributes end in
              Ok (mkPrincipal (ce_CommonName cert) PrincipalTypeService AuthMethodMTLS attributes (ce_NotBefore cert) (Some (ce_NotAfter cert)) []
                    (ce_CommonName cert))
          end
      end
  | _ => Err WrongCredentials
  end.

(** ** The manager (manager.go) *)

Inductive AuditResult := AuditResultSuccess | AuditResultFailure | AuditResultDenied.

(** An audit event; its time, address and metadata are left to the sink. *)
Record AuditEvent := mkAudit { ae_Principal : Principal; ae_Action : bytes; ae_Resource : Resource; ae_Result : AuditResult }.

Inductive authenticator := TLSAuthenticator | SASLAuthenticator | APIKeyAuthenticator.

Record Manager := mkManager {
  sm_AllowAnonymous : bool;
  sm_authEnabled : bool;
  sm_authenticators : gmap bytes authenticator;
  sm_allowedClientCNs : list bytes;
  sm_sasl : option SASLConfig;
  sm_apiKeys : gmap bytes APIKey;
  sm_authzEnabled : bool;
  (** nil when authorization is disabled *)
  sm_authorizer : option ACLAuthorizer;
  sm_auditEnabled : bool;
  (** the audit trail, newest first *)
  sm_audit : list AuditEvent
}.

Record SecurityConfig := mkSecurityConfig {
  cf_TLSEnabled : bool;
  cf_RequireClientCert : bool;
  cf_AllowedClientCNs : list bytes;
  cf_SASL : option SASLConfig;
  cf_AuthzEnabled : bool;
  cf_SuperUsers : list bytes;
  cf_AllowAnonymous : bool;
  cf_AuditEnabled : bool;
  cf_APIKeyEnabled : bool;
  cf_UseDefaultACLs : bool
}.

Definition DefaultSecurityConfig : SecurityConfig := mkSecurityConfig false false [] None false [] true false false false.

Definition initializeAuthenticators (c : SecurityConfig) : gmap bytes authenticator :=
  let m := if cf_TLSEnabled c && cf_RequireClientCert c then {[AuthMethodMTLS := TLSAuthenticator]} else ∅ in
  let m := match cf_SASL c with
           | Some s => if sc_Enabled s then fold_left (fun m mech => <[mech := SASLAuthenticator]> m) (sc_Mechanisms s) m else m
           | None => m
           end in
  if cf_APIKeyEnabled c then <[AuthMethodAPIKey := APIKeyAuthenticator]> m else m.

(** [t1], [t2] and [t3] are the clock while the default entries are built. *)
Definition NewManager (now t1 t2 t3 : Z) (config : option SecurityConfig) : Manager :=
  let c := default DefaultSecurityConfig config in
  let sasl_enabled := match cf_SASL c with Some s => sc_Enabled s | None => false end in
  let authorizer :=
    if cf_AuthzEnabled c then
      let a := NewACLAuthorizer (mkACLConfig (cf_AuthzEnabled c) (cf_SuperUsers c)) in
      Some (if cf_UseDefaultACLs c then fold_left (ACL_AddACL now) (DefaultACLs t1 t2 t3) a else a)
    else None in
  mkManager (cf_AllowAnonymous c) (cf_TLSEnabled c || sasl_enabled || cf_APIKeyEnabled c) (initializeAuthenticators c) (cf_AllowedClientCNs c)
    (cf_SASL c) ∅ (cf_AuthzEnabled c) authorizer (cf_AuditEnabled c) [].

Definition with_audit (m : Manager) (l : list AuditEvent) : Manager :=
  mkManager (sm_AllowAnonymous m) (sm_authEnabled m) (sm_authenticators m) (sm_allowedClientCNs m) (sm_sasl m) (sm_apiKeys m)
    (sm_authzEnabled m) (sm_authorizer m) (sm_auditEnabled m) l.
Definition with_authorizer (m : Manager) (a : ACLAuthorizer) : Manager :=
  mkManager (sm_AllowAnonymous m) (sm_authEnabled m) (sm_authenticators m) (sm_allowedClientCNs m) (sm_sasl m) (sm_apiKeys m)
    (sm_authzEnabled m) (Some a) (sm_auditEnabled m) (sm_audit m).
Definition with_sasl (m : Manager) (c : SASLConfig) : Manager :=
  mkManager (sm_AllowAnonymous m) (sm_authEnabled m) (sm_authenticators m) (sm_allowedClientCNs m) (Some c) (sm_apiKeys m)
    (sm_authzEnabled m) (sm_authorizer m) (sm_auditEnabled m) (sm_audit m).
Definition with_apiKeys (m : Manager) (keys : gmap bytes APIKey) : Manager :=
  mkManager (sm_AllowAnonymous m) (sm_authEnabled m) (sm_authenticators m) (sm_allowedClientCNs m) (sm_sasl m) keys
    (sm_authzEnabled m) (sm_authorizer m) (sm_auditEnabled m) (sm_audit m).

Definition audit (m : Manager) (e : AuditEvent) : Manager := if sm_auditEnabled m then with_audit m (e :: sm_audit m) else m.

Definition anonymous : Principal := mkPrincipal (text "anonymous") PrincipalTypeAnonymous [] ∅ zero_time None [] [].
Definition unknown (method : bytes) : Principal := mkPrincipal (text "unknown") PrincipalTypeAnonymous method ∅ zero_time None [] [].
Definition auth_resource : Resource := mkResource (text "AUTH") (text "authentication") [].

Definition Authenticate (now : Z) (m : Manager) (method : bytes) (credentials : Credentials) : result auth_error Principal * Manager :=
  if negb (sm_authEnabled m) then
    (if sm_AllowAnonymous m then Ok anonymous else Err AuthDisabled, m)
  else match sm_authenticators m !! method with
  | None => (Err MethodNotSupported, m)
  | Some a =>
      let r := match a with
               | TLSAuthenticator => TLS_Authenticate (sm_allowedClientCNs m) credentials
               | SASLAuthenticator => SASL_Authenticate now (default (mkSASL false [] ∅) (sm_sasl m)) credentials
               | APIKeyAuthenticator => APIKey_Authenticate now (sm_apiKeys m) credentials
               end in
      match r with
      | Err e => (Err e, audit m (mkAudit (unknown method) (text "AUTHENTICATE") auth_resource AuditResultFailure))
      | Ok p => (Ok p, audit m (mkAudit p (text "AUTHENTICATE") auth_resource AuditResultSuccess))
      end
  end.

Definition AddUser (now : Z) (m : Manager) (salt username password authMethod : bytes) (groups : list bytes) : option auth_error * Manager :=
  match sm_sasl m with
  | None => (Some SASLNotEnabled, m)
  | Some c =>
      if negb (sc_Enabled c) then (Some SASLNotEnabled, m)
      else match CreateUser now salt username password authMethod groups with
      | Err e => (Some e, m)
      | Ok user => (None, with_sasl m (mkSASL (sc_Enabled c) (sc_Mechanisms c) (<[username := user]> (sc_Users c))))
      end
  end.

Definition Manager_AddAPIKey (m : Manager) (key : APIKey) : option auth_error * Manager :=
  match sm_authenticators m !! AuthMethodAPIKey with
  | Some APIKeyAuthenticator => (None, with_apiKeys m (AddAPIKey (sm_apiKeys m) key))
  | _ => (Some APIKeysNotEnabled, m)
  end.
End crypto.

Section authorization.
Context (range : forall V : Type, gmap bytes V -> list (bytes * V)).

(** [Authorize]; [None] is the use of a nil authorizer, which cannot be with authorization
    enabled. *)
Definition Authorize (m : Manager) (p : Principal) (action : bytes) (resource : Resource) : option (bool * Manager) :=
  if negb (sm_authzEnabled m) then Some (true, m)
  else
    a ← sm_authorizer m;
    let allowed := ACL_Authorize range a p action resource in
    Some (allowed, audit m (mkAudit p action resource (if allowed then AuditResultSuccess else AuditResultDenied))).

Definition Manager_AddACL (now : Z) (m : Manager) (entry : ACLEntry) : option acl_error * Manager :=
  match sm_authzEnabled m, sm_authorizer m with
  | true, Some a => (None, with_authorizer m (ACL_AddACL now a entry))
  | _, _ => (Some AuthzNotEnabled, m)
  end.

Definition Manager_RemoveACL (m : Manager) (id : bytes) : option acl_error * Manager :=
  match sm_authzEnabled m, sm_authorizer m with
  | true, Some a => let '(err, a) := ACL_RemoveACL a id in (err, with_authorizer m a)
  | _, _ => (Some AuthzNotEnabled, m)
  end.

Definition HasACLEntries (m : Manager) : bool :=
  sm_authzEnabled m && match sm_authorizer m with Some a => ACL_HasACLEntries a | None => false end.

(** ** The handler (security_handler.go) *)

Context {B : Type}.
(** The wrapped handler; [None] is a nil response. *)
Context (base : Z -> B -> Request -> option Response * B).

Record SecurityHandler := mkSecurityHandler {
  sh_baseHandler : B;
  sh_securityManager : option Manager;
  sh_enabled : bool;
  sh_authFailures : Z;
  sh_authzDenials : Z;
  sh_requestsHandled : Z
}.

Definition NewSecurityHandler (b : B) (m : option Manager) (enabled : bool) : SecurityHandler := mkSecurityHandler b m enabled 0 0 0.

(** Authentication enabled or not, every request is one of the anonymous principal. *)
Definition authenticate (m : Manager) (req : Request) : Principal := if sm_authEnabled m then anonymous else anonymous.

Definition topic_resource (topic : bytes) : Resource := mkResource ResourceTypeTopic topic PatternTypeLiteral.
Definition cluster_resource : Resource := mkResource ResourceTypeCluster (text "cluster") PatternTypeLiteral.

(** [None] is a payload that is not of the type of the header: a panic. *)
Definition getActionAndResource (req : Request) : option (bytes * Resource) :=
  let t := rh_Type (rq_Header req) in
  if t =? RequestTypeProduce then
    match rq_Payload req with QProduce p => Some (ActionTopicWrite, topic_resource (prq_Topic p)) | _ => None end
  else if t =? RequestTypeFetch then
    match rq_Payload req with QFetch p => Some (ActionTopicRead, topic_resource (frq_Topic p)) | _ => None end
  else if t =? RequestTypeGetOffset then
    match rq_Payload req with QGetOffset p => Some (ActionTopicDescribe, topic_resource (grq_Topic p)) | _ => None end
  else if t =? RequestTypeCreateTopic then
    match rq_Payload req with QCreateTopic p => Some (ActionTopicCreate, topic_resource (crq_Topic p)) | _ => None end
  else if t =? RequestTypeDeleteTopic then
    match rq_Payload req with QDeleteTopic topic => Some (ActionTopicDelete, topic_resource topic) | _ => None end
  else if t =? RequestTypeListTopics then Some (ActionClusterDescribe, cluster_resource)
  else if t =? RequestTypeHealthCheck then Some (ActionClusterDescribe, cluster_resource)
  else Some (ActionClusterAction, cluster_resource).

Definition ErrAuthorizationFailed : Z := 41.

Definition authorizationDeniedResponse (requestID : Z) (p : Principal) (action : bytes) (resource : Resource) : Response :=
  mkResponse (mkRespHeader requestID StatusError ErrAuthorizationFailed)
    (SError (mkErrorResponse ErrAuthorizationFailed
       (text "Access denied: principal '" ++ pr_ID p ++ text "' is not authorized to perform '" ++ action ++ text "' on resource '"
          ++ rsc_Name resource ++ text "'"))).

(** The denial, if any, with the audit trail of the decision. *)
Definition checkAuthorization (m : Manager) (req : Request) (p : Principal) (action : bytes) (resource : Resource) : option (option Response * Manager) :=
  if negb (HasACLEntries m) then Some (None, m)
  else
    match Authorize m p action resource with
    | None => None
    | Some (true, m) => Some (None, m)
    | Some (false, m) =>
        Some (Some (authorizationDeniedResponse (rh_RequestID (rq_Header req)) p action resource),
              audit m (mkAudit p action resource AuditResultFailure))
    end.

Definition Security_Handle (now : Z) (h : SecurityHandler) (req : Request) : option (option Response * SecurityHandler) :=
  let handled := wraps 64 (sh_requestsHandled h + 1) in
  match sh_enabled h, sh_securityManager h with
  | true, Some m =>
      let p := authenticate m req in
      '(action, resource) ← getActionAndResource req;
      '(denied, m) ← checkAuthorization m req p action resource;
      match denied with
      | Some resp =>
          Some (Some resp, mkSecurityHandler (sh_baseHandler h) (Some m) true (sh_authFailures h) (wraps 64 (sh_authzDenials h + 1)) handled)
      | None =>
          let m := audit m (mkAudit p action resource AuditResultSuccess) in
          let '(resp, b) := base now (sh_baseHandler h) req in
          Some (resp, mkSecurityHandler b (Some m) true (sh_authFailures h) (sh_authzDenials h) handled)
      end
  | enabled, m =>
      let '(resp, b) := base now (sh_baseHandler h) req in
      Some (resp, mkSecurityHandler b m enabled (sh_authFailures h) (sh_authzDenials h) handled)
  end.
End authorization.
Arguments SecurityHandler : clear implicits.
Arguments mkSecurityHandler {B}.
Arguments sh_baseHandler {B}.
Arguments sh_securityManager {B}.
Arguments sh_enabled {B}.
Arguments sh_authFailures {B}.
Arguments sh_authzDenials {B}.
Arguments sh_requestsHandled {B}.

End Security.
