(* ===== verification/SecuritySpec.v ===== *)
(** * What access control guarantees

    The decision of the authorizer, exactly, and that the handler enforces it; that a user who
    was added can authenticate; and where the handler does less than its configuration says. *)

From S2P Require Import Prelude GoBytes GoMatch Record Wire Payloads Protocol Handlers Security.
From stdpp Require Import prelude list gmap relations.
From Stdlib Require Import ZArith Lia Strings.Byte Strings.String.

Open Scope Z_scope.
#[local] Notation length := Datatypes.length.
Import Security.

(** ** The decision *)

(** Who an entry is about: everyone, the principal of that ID, the principals whose groups
    attribute holds the name of the group anywhere in it, or those of a type. *)
Inductive names_principal (p : Principal) : bytes -> Prop :=
| NpAll : names_principal p (text "*")
| NpID : names_principal p (pr_ID p)
| NpGroup group groups before after : pr_Attributes p !! text "groups" = Some groups -> groups = before ++ group ++ after ->
    names_principal p (text "group:" ++ group)
| NpType : names_principal p (text "type:" ++ pr_Type p).

(** Which names a pattern of a kind is about: the name itself, its extensions, or what
    [filepath.Match] says. *)
Inductive names_resource (pattern : bytes) : bytes -> bytes -> Prop :=
| NrLiteral : names_resource pattern PatternTypeLiteral pattern
| NrPrefix rest : names_resource pattern PatternTypePrefix (pattern ++ rest)
| NrWildcard name : filepath_Match pattern name = true -> names_resource pattern PatternTypeWildcard name.

(** An entry of the table that is about the principal, the action and the resource has the
    permission. *)
Definition applies (a : ACLAuthorizer) (p : Principal) (action : bytes) (resource : Resource) (permission : bytes) : Prop :=
  exists id e, au_entries a !! id = Some e /\ acl_Permission e = permission
    /\ names_principal p (acl_Principal e) /\ acl_Action e = action
    /\ acl_ResourceType e = rsc_Type resource /\ names_resource (acl_ResourceName e) (acl_PatternType e) (rsc_Name resource).

(** Who is not subject to the entries. *)
Definition exempt (a : ACLAuthorizer) (p : Principal) : Prop :=
  ac_AuthzEnabled (au_config a) = false \/ pr_ID p ∈ ac_SuperUsers (au_config a) \/ pr_Type p = PrincipalTypeSystemInternal.

Lemma HasGroup_spec p group : HasGroup p group = true
  <-> exists groups before after, pr_Attributes p !! text "groups" = Some groups /\ groups = before ++ group ++ after.
Proof.
  unfold HasGroup. destruct (pr_Attributes p !! text "groups") as [groups|]; [|naive_solver]. rewrite Contains_spec. naive_solver.
Qed.

Lemma TrimPrefix_app p t : TrimPrefix (p ++ t) p = t.
Proof. unfold TrimPrefix. rewrite (proj2 (HasPrefix_spec _ _)) by eauto. apply drop_app_length. Qed.

Lemma matchesPrincipal_spec p pattern : matchesPrincipal p pattern = true <-> names_principal p pattern.
Proof.
  unfold matchesPrincipal. destruct (bool_decide_reflect (pattern = text "*")) as [->|E1]; [by split; [constructor|]|].
  destruct (bool_decide_reflect (pattern = pr_ID p)) as [->|E2]; [by split; [constructor|]|].
  destruct (HasPrefix pattern (text "group:")) eqn:Eg.
  - apply HasPrefix_spec in Eg as [g ->]. rewrite TrimPrefix_app, HasGroup_spec. split.
    + intros (gs & b & c & H1 & H2). by eapply NpGroup.
    + inversion 1; try done. by eauto.
  - destruct (HasPrefix pattern (text "type:")) eqn:Et.
    + apply HasPrefix_spec in Et as [g ->]. rewrite TrimPrefix_app, bool_decide_eq_true. split; [intros <-; constructor|].
      inversion 1; done.
    + split; [done|]. intros Hn. destruct Hn; try done.
      all: by rewrite (proj2 (HasPrefix_spec _ _)) in * by eauto.
Qed.

Lemma matchesResourceName_spec name pattern kind : matchesResourceName name pattern kind = true <-> names_resource pattern kind name.
Proof.
  unfold matchesResourceName.
  destruct (bool_decide_reflect (kind = PatternTypeLiteral)) as [->|H1].
  { rewrite bool_decide_eq_true. split; [intros ->; constructor|by inversion 1]. }
  destruct (bool_decide_reflect (kind = PatternTypePrefix)) as [->|H2].
  { rewrite HasPrefix_spec. split; [intros [t ->]; constructor|inversion 1; eauto]. }
  destruct (bool_decide_reflect (kind = PatternTypeWildcard)) as [->|H3]; (split; [try done; by constructor|by inversion 1]).
Qed.

Lemma matchesEntry_spec p action resource e : matchesEntry p action resource e = true
  <-> names_principal p (acl_Principal e) /\ acl_Action e = action
      /\ acl_ResourceType e = rsc_Type resource /\ names_resource (acl_ResourceName e) (acl_PatternType e) (rsc_Name resource).
Proof.
  unfold matchesEntry. rewrite <- matchesPrincipal_spec, <- matchesResourceName_spec.
  destruct (matchesPrincipal p (acl_Principal e)); simpl; [|naive_solver]. repeat case_bool_decide; naive_solver.
Qed.

Section decision.
Context (range : forall V : Type, gmap bytes V -> list (bytes * V)).
Context (range_perm : forall V (m : gmap bytes V), range V m ≡ₚ map_to_list m).

Lemma existsb_applies a p action resource permission :
  existsb (fun e : bytes * ACLEntry => matchesEntry p action resource e.2 && bool_decide (acl_Permission e.2 = permission)) (range _ (au_entries a)) = true
  <-> applies a p action resource permission.
Proof using range_perm.
  rewrite existsb_exists. split.
  - intros ([id e] & Hin & [Hm%matchesEntry_spec Hp%bool_decide_eq_true]%andb_prop). exists id, e. split; [|done].
    apply elem_of_map_to_list. by rewrite <- range_perm, list_elem_of_In.
  - intros (id & e & Hl & Hp & Hm%matchesEntry_spec). exists (id, e). split.
    + apply list_elem_of_In. rewrite range_perm. by apply elem_of_map_to_list.
    + simpl. by rewrite Hm, bool_decide_true.
Qed.

Lemma IsSuperUser_spec p l : IsSuperUser p l = true <-> pr_ID p ∈ l.
Proof.
  unfold IsSuperUser. rewrite existsb_exists, list_elem_of_In. split.
  - intros (x & Hx & ->%bool_decide_eq_true). done.
  - intros Hx. exists (pr_ID p). by rewrite bool_decide_true.
Qed.

Lemma authorize_iff a p action resource :
  ACL_Authorize range a p action resource = true
  <-> exempt a p \/ (applies a p action resource PermissionAllow /\ ~ applies a p action resource PermissionDeny).
Proof using range_perm.
  unfold ACL_Authorize, exempt. rewrite <- !existsb_applies, <- IsSuperUser_spec.
  destruct (ac_AuthzEnabled (au_config a)); simpl; [|naive_solver].
  destruct (IsSuperUser p _); [naive_solver|]. case_bool_decide; [naive_solver|].
  destruct (existsb _ _); [|destruct (existsb _ _)]; naive_solver.
Qed.

(** C37: The decision of the authorizer, exactly, whatever the order in which Go ranges over the
    entries: a principal may act if it is exempt (authorization is off, or it is a super user
    or internal), or if an entry that applies allows it and none denies it.  Denials take
    precedence, and without an entry the answer is no.  An entry applies when it is about the
    principal (everyone, its ID, a group whose name occurs in its groups attribute, or its
    type), names the action and the type of the resource, and its pattern is about the name: a
    literal is the name, a prefix begins it, and a wildcard matches it as Go's filepath.Match
    says. *)
Theorem authorize_exact a p action resource :
  ACL_Authorize range a p action resource = true
  <-> exempt a p \/ (applies a p action resource PermissionAllow /\ ~ applies a p action resource PermissionDeny).
Proof using range_perm. apply authorize_iff. Qed.

(** Adding an entry and removing it again restores every decision. *)
Lemma add_remove_acl now a e : au_entries a !! acl_ID (with_defaults now e) = None ->
  ACL_RemoveACL (ACL_AddACL now a e) (acl_ID (with_defaults now e)) = (None, a).
Proof.
  intros Hn. unfold ACL_RemoveACL, ACL_AddACL. cbn [au_entries au_config]. rewrite lookup_insert_eq, delete_insert_id by done. by destruct a.
Qed.

(** ** The handler *)

Context {B : Type} (base : Z -> B -> Request -> option Response * B).

(** The handler enforces the entries. With authorization enabled and at least one entry, a
    request reaches the wrapped handler exactly when the authorizer lets the anonymous
    principal do what the request asks for; otherwise it is answered with an authorization
    error that names it, and the wrapped handler is left alone. *)
Theorem security_handler_enforces now (h : SecurityHandler B) m a req action resource :
  sh_enabled h = true -> sh_securityManager h = Some m -> sm_authzEnabled m = true -> sm_authorizer m = Some a ->
  au_entries a <> ∅ -> getActionAndResource req = Some (action, resource) ->
  exists resp h', Security_Handle range base now h req = Some (resp, h')
    /\ if ACL_Authorize range a anonymous action resource
       then (resp, sh_baseHandler h') = base now (sh_baseHandler h) req /\ sh_authzDenials h' = sh_authzDenials h
       else (exists e, resp = Some (mkResponse (mkRespHeader (rh_RequestID (rq_Header req)) StatusError ErrAuthorizationFailed) (SError e)))
            /\ sh_baseHandler h' = sh_baseHandler h /\ sh_authzDenials h' = wraps 64 (sh_authzDenials h + 1).
Proof.
  intros He Hm Hz Ha Hne Hr. unfold Security_Handle. rewrite He, Hm, Hr. cbn [mbind option_bind].
  unfold checkAuthorization, HasACLEntries, ACL_HasACLEntries. rewrite Hz, Ha, bool_decide_true by done. cbn [negb andb].
  assert (authenticate m req = anonymous) as -> by (unfold authenticate; by destruct (sm_authEnabled m)).
  unfold Authorize. rewrite Hz, Ha. cbn [negb mbind option_bind].
  destruct (ACL_Authorize range a anonymous action resource); cbn [mbind option_bind].
  - destruct (base now (sh_baseHandler h) req) as [resp b]. by do 2 eexists.
  - do 2 eexists. split; [done|]. split; [by eexists|done].
Qed.

(** A state of the handler with authorization enabled and no entries. *)
Definition no_entries (h : SecurityHandler B) : Prop :=
  sh_enabled h = true /\ exists m a, sh_securityManager h = Some m /\ sm_authzEnabled m = true /\ sm_authorizer m = Some a /\ au_entries a = ∅.

(** Without entries everything is allowed, although authorization is enabled and the
    authorizer denies by default: a request of any type reaches the wrapped handler, before
    the first entry is added and after the last one is removed. *)
Theorem no_entries_allow_all now (h : SecurityHandler B) req action resource :
  no_entries h -> getActionAndResource req = Some (action, resource) ->
  exists h', Security_Handle range base now h req = Some ((base now (sh_baseHandler h) req).1, h')
    /\ sh_baseHandler h' = (base now (sh_baseHandler h) req).2 /\ no_entries h'
    /\ forall m a, sh_securityManager h = Some m -> sm_authorizer m = Some a -> ~ exempt a anonymous ->
         ACL_Authorize range a anonymous action resource = false.
Proof using range_perm.
  intros [He (m & a & Hm & Hz & Ha & Hn)] Hr. unfold Security_Handle. rewrite He, Hm, Hr. cbn [mbind option_bind].
  unfold checkAuthorization, HasACLEntries, ACL_HasACLEntries. rewrite Hz, Ha, bool_decide_false by (intros H; by apply H). cbn [negb andb mbind option_bind].
  destruct (base now (sh_baseHandler h) req) as [resp b]. eexists. split; [done|]. split; [done|]. split.
  - split; [done|]. unfold audit. destruct (sm_auditEnabled m); by do 2 eexists.
  - intros m' a' [= <-] Ha' Hex. rewrite Ha in Ha'. injection Ha' as <-. apply not_true_is_false.
    rewrite authorize_iff. intros [?|[(id & e & Hl & _) _]]; [done|]. by rewrite Hn, lookup_empty in Hl.
Qed.

(** The requests of the coordinators, and every type that is not listed, need only the one
    cluster action: entries for groups and transactions are never looked at. *)
Lemma coordination_needs_cluster_action req : IsCoordinationRequest (rh_Type (rq_Header req)) = true ->
  getActionAndResource req = Some (ActionClusterAction, cluster_resource).
Proof.
  unfold IsCoordinationRequest, getActionAndResource. intros Ht.
  repeat match goal with |- context [?x =? ?y] => destruct (Z.eqb_spec x y) as [E|_]; [by rewrite E in Ht|] end. done.
Qed.
End decision.

(** ** Authentication *)

Section authentication.
Context (bcrypt_compare : bytes -> bytes -> bool) (bcrypt_generate : bytes -> bytes -> option bytes).
Context (pbkdf2 : hash_alg -> bytes -> bytes -> Z -> Z -> bytes) (hmac : hash_alg -> bytes -> bytes -> bytes) (hash : hash_alg -> bytes -> bytes).
Context (ParseCertificate : bytes -> option Certificate).
#[local] Notation passes := (check_password bcrypt_compare pbkdf2 hmac hash).
#[local] Notation create_user := (CreateUser bcrypt_generate pbkdf2 hmac hash).
#[local] Notation add_user := (AddUser bcrypt_generate pbkdf2 hmac hash).
#[local] Notation authenticated := (Authenticate bcrypt_compare pbkdf2 hmac hash ParseCertificate).

(** What bcrypt documents: a hash compares with the password it was made from. *)
Context (bcrypt_law : forall salt password h, bcrypt_generate salt password = Some h -> bcrypt_compare h password = true).

Lemma created_user now salt username password mech groups user : salt <> [] ->
  create_user now salt username password mech groups = Ok user ->
  us_Username user = username /\ us_Enabled user = true /\ us_Groups user = groups /\ us_Attributes user = ∅
  /\ passes mech password user = None.
Proof using bcrypt_law.
  intros Hs. unfold CreateUser, check_password.
  repeat (case_bool_decide; [subst mech|]); try done.
  - destruct (bcrypt_generate salt password) as [h|] eqn:E; [|done]. intros [= <-]. do 4 (split; [done|]).
    unfold authenticatePlain. cbn [us_PasswordHash]. by rewrite (bcrypt_law _ _ _ E).
  - intros [= <-]. do 4 (split; [done|]). unfold authenticateSCRAM. cbn [us_Salt us_Iterations us_PasswordHash createSCRAMUser].
    rewrite bool_decide_false, bool_decide_true by done. done.
  - intros [= <-]. do 4 (split; [done|]). unfold authenticateSCRAM. cbn [us_Salt us_Iterations us_PasswordHash createSCRAMUser].
    rewrite bool_decide_false, bool_decide_true by done. done.
Qed.

(** A user who was added can authenticate: with the mechanism and password he was added with,
    at any time, he becomes the principal of his name with his groups; users with other names
    authenticate as before. The mechanism has to be one that the configuration allows. *)
Theorem added_user_authenticates now now' m c salt username password mech groups m' :
  salt <> [] -> sm_authEnabled m = true -> sm_sasl m = Some c -> mech ∈ sc_Mechanisms c ->
  sm_authenticators m !! mech = Some SASLAuthenticator ->
  add_user now m salt username password mech groups = (None, m') ->
  (exists p, (authenticated now' m' mech (SASLCredentials username password mech)).1 = Ok p
     /\ pr_ID p = username /\ pr_Type p = PrincipalTypeUser
     /\ pr_Attributes p !! text "groups" = match groups with [] => None | _ => Some (format_list groups) end)
  /\ forall username' password', username' <> username ->
       (authenticated now' m' mech (SASLCredentials username' password' mech)).1
       = (authenticated now' m mech (SASLCredentials username' password' mech)).1.
Proof using bcrypt_law.
  intros Hs He Hc Hm Ha Hadd. unfold AddUser in Hadd. rewrite Hc in Hadd. destruct (sc_Enabled c) eqn:Een; [|done]. simpl in Hadd.
  destruct (create_user now salt username password mech groups) as [user|] eqn:Ec; [|done]. injection Hadd as <-.
  destruct (created_user _ _ _ _ _ _ _ Hs Ec) as (Hu & Hen & Hg & Hat & Hp).
  assert (forall c', sc_Mechanisms c' = sc_Mechanisms c -> isMechanismAllowed c' mech = true) as Hallow.
  { intros c' Hc'. unfold isMechanismAllowed. rewrite Hc'. apply existsb_exists. exists mech. split; [by apply list_elem_of_In|]. by rewrite bool_decide_true. }
  unfold Authenticate. cbn [sm_authEnabled with_sasl sm_authenticators sm_sasl from_option]. rewrite He, Ha, Hc. cbn [negb from_option id].
  unfold SASL_Authenticate. rewrite !Hallow by done. cbn [negb sc_Users]. rewrite lookup_insert_eq, Hen. cbn [negb]. rewrite Hp. split.
  - eexists. split; [reflexivity|]. cbn [pr_ID pr_Type pr_Attributes]. rewrite Hu, Hat, Hg. split; [done|]. split; [done|].
    unfold with_groups. destruct groups; [done|]. by rewrite lookup_insert_eq.
  - intros username' password' Hne. rewrite lookup_insert_ne by done. simpl. destruct (sc_Users c !! username') as [user'|]; [|done].
    destruct (us_Enabled user'); [|done]. cbn [negb]. by destruct (passes mech password' user').
Qed.

(** Nobody else becomes a SASL principal: a successful authentication is that of an enabled
    user whose password was checked, with a mechanism that is allowed. *)
Lemma sasl_sound now c credentials p : SASL_Authenticate bcrypt_compare pbkdf2 hmac hash now c credentials = Ok p ->
  exists username password mech user, credentials = SASLCredentials username password mech /\ mech ∈ sc_Mechanisms c
    /\ sc_Users c !! username = Some user /\ us_Enabled user = true /\ passes mech password user = None /\ pr_ID p = us_Username user.
Proof.
  unfold SASL_Authenticate. destruct credentials as [username password mech| |]; try done.
  destruct (isMechanismAllowed c mech) eqn:Em; [|done]. destruct (sc_Users c !! username) as [user|] eqn:Eu; [|done].
  destruct (us_Enabled user) eqn:Ee; [|done]. destruct (passes mech password user) eqn:Ep; [done|]. simpl. intros [= <-].
  exists username, password, mech, user. split; [done|]. split; [|done].
  unfold isMechanismAllowed in Em. apply existsb_exists in Em as (x & Hx & ->%bool_decide_eq_true). by apply list_elem_of_In.
Qed.
End authentication.

(** ** Where it is less than it says *)

(** Groups are compared as substrings: a member of [superadmin] is let in by an entry for
    the group [admin]. *)
Lemma group_by_substring :
  let p := mkPrincipal (text "eve") PrincipalTypeUser [] {[text "groups" := format_list [text "superadmins-readonly"]]} 0 None [] [] in
  matchesPrincipal p (text "group:admin") = true.
Proof. vm_compute. reflexivity. Qed.

(** Entries get their identity from the clock: of default entries that are built within one
    nanosecond only the last is kept. *)
Lemma default_acls_collide t : size (au_entries (fold_left (ACL_AddACL t) (DefaultACLs t t t) (NewACLAuthorizer (mkACLConfig true [])))) = 1%nat.
Proof.
  unfold DefaultACLs, built. destruct (generateACLID t) as [|x y] eqn:E; [discriminate E|].
  cbn [fold_left]. unfold ACL_AddACL. cbn [with_defaults acl_ID au_entries au_config NewACLAuthorizer].
  rewrite !insert_insert_eq, insert_empty. apply map_size_singleton.
Qed.

(** A principal whose authentication has expired is authorized all the same. *)
Lemma expired_authorized :
  let p := mkPrincipal (text "app") PrincipalTypeService [] ∅ 0 (Some 5) [] [] in
  let a := ACL_AddACL 1 (NewACLAuthorizer (mkACLConfig true []))
             (mkACL (text "1") (text "app") ResourceTypeTopic (text "t") PatternTypeLiteral ActionTopicRead PermissionAllow 1 []) in
  Principal_IsExpired 6 p = true /\ ACL_Authorize (fun V m => map_to_list m) a p ActionTopicRead (topic_resource (text "t")) = true.
Proof. vm_compute. done. Qed.

(** ** Witnesses *)

Definition map_order (V : Type) (m : gmap bytes V) : list (bytes * V) := map_to_list m.

Lemma entry_order_perm V (m : gmap bytes V) : map_order V m ≡ₚ map_to_list m.
Proof. done. Qed.

(** Anyone may read the topics that begin with [public-], but not [public-secret]. *)
Definition two_entries : ACLAuthorizer :=
  ACL_AddACL 2 (ACL_AddACL 1 (NewACLAuthorizer (mkACLConfig true []))
    (mkACL (text "1") (text "*") ResourceTypeTopic (text "public-*") PatternTypeWildcard ActionTopicRead PermissionAllow 1 []))
    (mkACL (text "2") (text "anonymous") ResourceTypeTopic (text "public-secret") PatternTypeLiteral ActionTopicRead PermissionDeny 1 []).

Lemma authorize_exact_witness :
  applies two_entries anonymous ActionTopicRead (topic_resource (text "public-news")) PermissionAllow
  /\ ACL_Authorize map_order two_entries anonymous ActionTopicRead (topic_resource (text "public-secret")) = false.
Proof.
  split.
  - destruct (authorize_exact map_order entry_order_perm two_entries anonymous ActionTopicRead (topic_resource (text "public-news"))) as [H _].
    destruct H as [[H|[H|H]]|[H _]]; [vm_compute; reflexivity|vm_compute in H; discriminate|by apply elem_of_nil in H|vm_compute in H; discriminate|exact H].
  - vm_compute. reflexivity.
Defined.

Definition guarded (a : ACLAuthorizer) : SecurityHandler unit :=
  NewSecurityHandler tt (Some (mkManager true false ∅ [] None ∅ true (Some a) true [])) true.

Definition answer_all (now : Z) (b : unit) (req : Request) : option Response * unit :=
  (Some (mkResponse (mkRespHeader (rh_RequestID (rq_Header req)) StatusOK 0) SNil), b).

Definition fetch_of (topic : string) : Request :=
  mkRequest (mkReqHeader 9 RequestTypeFetch 1 0) (QFetch (mkFetchRequest (text topic) 0 0 1024 0)).

Lemma security_handler_enforces_witness :
  exists resp h', Security_Handle map_order answer_all 5 (guarded two_entries) (fetch_of "public-secret") = Some (resp, h')
    /\ (exists e, resp = Some (mkResponse (mkRespHeader 9 StatusError ErrAuthorizationFailed) (SError e))).
Proof.
  destruct (security_handler_enforces map_order answer_all 5 (guarded two_entries) _ two_entries (fetch_of "public-secret")
    ActionTopicRead (topic_resource (text "public-secret")) eq_refl eq_refl eq_refl eq_refl) as (resp & h' & H1 & H2); [done|reflexivity|].
  exists resp, h'. split; [exact H1|].
  assert (ACL_Authorize map_order two_entries anonymous ActionTopicRead (topic_resource (text "public-secret")) = false) as E by (vm_compute; reflexivity).
  rewrite E in H2. apply H2.
Defined.

Lemma no_entries_allow_all_witness :
  exists h', Security_Handle map_order answer_all 5 (guarded (NewACLAuthorizer (mkACLConfig true []))) (fetch_of "any")
    = Some ((answer_all 5 tt (fetch_of "any")).1, h').
Proof.
  destruct (no_entries_allow_all map_order entry_order_perm answer_all 5 (guarded (NewACLAuthorizer (mkACLConfig true []))) (fetch_of "any")
    ActionTopicRead (topic_resource (text "any"))) as (h' & H & _); [|reflexivity|by exists h'].
  split; [done|]. by do 2 eexists.
Defined.

(** A toy bcrypt and toy hashes. *)
Definition toy_manager : Manager :=
  NewManager 0 0 0 0 (Some (mkSecurityConfig false false [] (Some (mkSASL true [AuthMethodSASLSCRAM256; AuthMethodSASLPlain] ∅)) false [] false false false false)).

Lemma added_user_authenticates_witness :
  let compare h p := bool_decide (h = p) in
  let generate (salt p : bytes) := Some p in
  let pbkdf2 (h : hash_alg) (p salt : bytes) (i n : Z) := p ++ salt in
  let hmac (h : hash_alg) (k m : bytes) := k ++ m in
  let hash (h : hash_alg) (b : bytes) := b in
  exists m' p, AddUser generate pbkdf2 hmac hash 1 toy_manager [x01] (text "ann") (text "secret") AuthMethodSASLSCRAM256 [text "dev"] = (None, m')
    /\ (Authenticate compare pbkdf2 hmac hash (fun _ => None) 2 m' AuthMethodSASLSCRAM256
          (SASLCredentials (text "ann") (text "secret") AuthMethodSASLSCRAM256)).1 = Ok p
    /\ pr_ID p = text "ann".
Proof.
  intros compare generate pbkdf2 hmac hash.
  destruct (AddUser generate pbkdf2 hmac hash 1 toy_manager [x01] (text "ann") (text "secret") AuthMethodSASLSCRAM256 [text "dev"]) as [err m'] eqn:E.
  assert (err = None) as -> by (vm_compute in E; congruence).
  assert (forall salt password h, generate salt password = Some h -> compare h password = true) as Hlaw.
  { intros salt password h [= <-]. by apply bool_decide_true. }
  edestruct (added_user_authenticates compare generate pbkdf2 hmac hash (fun _ => None) Hlaw 1 2 toy_manager) as [(p & H1 & H2 & _) _];
    [| | | | |exact E|].
  - done.
  - reflexivity.
  - reflexivity.
  - simpl. left.
  - reflexivity.
  - exists m', p. split; [done|]. split; [exact H1|exact H2].
Defined.
