(* ===== verification/GoJson.v ===== *)
(** * What the schema registry uses of Go's [encoding/json], [strings] and [crypto/sha256]

    [json.Unmarshal] into [interface{}], [map[string]interface{}] and [json.Number] as a parser
    of bytes, [strings.TrimSpace] and [strings.Split], and SHA-256.  A value of type
    [interface{}] is a [json]; an object is the list of its members, one per name.  The parser
    distinguishes a text that is refused from a lack of fuel, and [unmarshal_total] shows that
    the fuel it is given is always enough. *)

From S2P Require Import Prelude GoBytes GoMatch.
From stdpp Require Import prelude list.
From Stdlib Require Import ZArith Lia Strings.Byte Strings.String.

Open Scope Z_scope.
#[local] Notation length := Datatypes.length.

(** ** Values *)

Inductive json :=
| JNull
| JBool (b : bool)
| JNumber (literal : bytes)
| JString (s : bytes)
| JArray (elements : list json)
| JObject (members : list (bytes * json)).

(** A map from strings: [member] is Go's [m\[k\]] with the comma-ok form. *)
Notation object := (list (bytes * json)).

Fixpoint member (m : object) (k : bytes) : option json :=
  match m with
  | [] => None
  | (k', v) :: m => if bool_decide (k' = k) then Some v else member m k
  end.

(** [m\[k\] = v]. *)
Fixpoint set_member (m : object) (k : bytes) (v : json) : object :=
  match m with
  | [] => [(k, v)]
  | (k', v') :: m => if bool_decide (k' = k) then (k, v) :: m else (k', v') :: set_member m k v
  end.

(** ** Numbers *)

(** What follows the byte at the beginning. *)
Definition peel (c : byte) (s : bytes) : option bytes :=
  match s with b :: s => if bool_decide (b = c) then Some s else None | [] => None end.

Definition is_digit (b : byte) : bool := in_range 48 57 b.

(** The longest prefix of digits and the rest. *)
Fixpoint digits_prefix (s : bytes) : bytes * bytes :=
  match s with
  | b :: s' => if is_digit b then let '(ds, rest) := digits_prefix s' in (b :: ds, rest) else ([], s)
  | [] => ([], [])
  end.

Definition some_digits (s : bytes) : option (bytes * bytes) :=
  match digits_prefix s with ([], _) => None | r => Some r end.

Definition number_sign (s : bytes) : bytes := default s (peel x2d s).

(** No leading zeros: a zero is the whole integer part. *)
Definition number_int (s : bytes) : option (bytes * bytes) :=
  match peel x30 s with Some s => Some ([x30], s) | None => some_digits s end.

Definition number_frac (s : bytes) : option (bytes * bytes) :=
  match peel x2e s with Some s => some_digits s | None => Some ([], s) end.

(** The sign and the digits of the exponent. *)
Definition exponent (s : bytes) : option ((bool * bytes) * bytes) :=
  match peel x2d s with
  | Some s => '(ds, rest) ← some_digits s; Some ((true, ds), rest)
  | None => '(ds, rest) ← some_digits (default s (peel x2b s)); Some ((false, ds), rest)
  end.

Definition number_exp (s : bytes) : option ((bool * bytes) * bytes) :=
  match peel x65 s, peel x45 s with
  | Some s, _ | None, Some s => exponent s
  | None, None => Some ((false, []), s)
  end.

Definition decimal (ds : bytes) : Z := fold_left (fun n b => n * 10 + (b2Z b - 48)) ds 0.

(** The digits after leading zeros. *)
Fixpoint without_zeros (ds : bytes) : bytes :=
  match ds with
  | b :: ds' => if bool_decide (b = x30) then without_zeros ds' else ds
  | [] => []
  end.

(** Whether [strconv.ParseFloat] finds a [float64] for the literal with these parts: it rounds to
    even, so the values from [2^1024 - 2^970] on are out of range; small values are zero. *)
Definition float_in_range (int frac : bytes) (exp : bool * bytes) : bool :=
  let mantissa := decimal (int ++ frac) in
  let e := (if exp.1 then - decimal exp.2 else decimal exp.2) - zlen frac in
  if mantissa =? 0 then true
  else
    let places := zlen (without_zeros (int ++ frac)) + e in
    if places <=? 308 then true
    else if 309 <? places then false
    else
      let bound := 2 ^ 1024 - 2 ^ 970 in
      if 0 <=? e then mantissa * 10 ^ e <? bound else mantissa <? bound * 10 ^ (- e).

(** ** Strings *)

Inductive scan_state := Plain | Escaped | Hex (digits : nat).

Definition is_hex (b : byte) : bool := in_range 48 57 b || in_range 97 102 b || in_range 65 70 b.

Definition is_escape (b : byte) : bool :=
  existsb (fun e => bool_decide (e = b)) [x62; x66; x6e; x72; x74; x5c; x2f; x22].

(** The characters up to the closing quote, still escaped, and what follows the quote. *)
Fixpoint scan_string (st : scan_state) (s : bytes) : option (bytes * bytes) :=
  match s with
  | [] => None
  | b :: s =>
      let go st := '(raw, rest) ← scan_string st s; Some (b :: raw, rest) in
      match st with
      | Plain => if bool_decide (b = x22) then Some ([], s) else if bool_decide (b = x5c) then go Escaped
                 else if b2Z b <? 32 then None else go Plain
      | Escaped => if bool_decide (b = x75) then go (Hex 4) else if is_escape b then go Plain else None
      | Hex 0 => None
      | Hex 1 => if is_hex b then go Plain else None
      | Hex (S n) => if is_hex b then go (Hex n) else None
      end
  end.

Definition hex_value (b : byte) : Z :=
  if in_range 48 57 b then b2Z b - 48 else if in_range 97 102 b then b2Z b - 87 else b2Z b - 55.

Definition hex4 (a b c d : byte) : Z :=
  ((hex_value a * 16 + hex_value b) * 16 + hex_value c) * 16 + hex_value d.

(** [utf8.AppendRune]. *)
Definition encode_rune (r : Z) : bytes :=
  if r <? 128 then [Z2b r]
  else if r <? 2048 then [Z2b (192 + Z.shiftr r 6); Z2b (128 + Z.land r 63)]
  else if r <? 65536 then [Z2b (224 + Z.shiftr r 12); Z2b (128 + Z.land (Z.shiftr r 6) 63); Z2b (128 + Z.land r 63)]
  else [Z2b (240 + Z.shiftr r 18); Z2b (128 + Z.land (Z.shiftr r 12) 63); Z2b (128 + Z.land (Z.shiftr r 6) 63); Z2b (128 + Z.land r 63)].

Definition is_surrogate (r : Z) : bool := (55296 <=? r) && (r <? 57344).

(** [utf16.DecodeRune]: the rune of a pair of surrogates. *)
Definition surrogate_pair (r1 r2 : Z) : option Z :=
  if (55296 <=? r1) && (r1 <? 56320) && ((56320 <=? r2) && (r2 <? 57344))
  then Some (Z.shiftl (r1 - 55296) 10 + (r2 - 56320) + 65536) else None.

Definition unescape (b : byte) : byte :=
  match b with x62 => x08 | x66 => x0c | x6e => x0a | x72 => x0d | x74 => x09 | b => b end.

(** [unquoteBytes] on what [scan_string] let pass; the first [copy] bytes belong to a character
    that was checked already.  Bytes that are not UTF-8 become the replacement character. *)
Fixpoint unquote (copy : nat) (s : bytes) : bytes :=
  match copy, s with
  | _, [] => []
  | S copy, b :: s => b :: unquote copy s
  | O, x5c :: x75 :: a :: b :: c :: d :: s =>
      let r := hex4 a b c d in
      if is_surrogate r then
        match s with
        | x5c :: x75 :: a' :: b' :: c' :: d' :: s' =>
            match surrogate_pair r (hex4 a' b' c' d') with
            | Some r => encode_rune r ++ unquote 0 s'
            | None => encode_rune RuneError ++ unquote 0 s
            end
        | _ => encode_rune RuneError ++ unquote 0 s
        end
      else encode_rune r ++ unquote 0 s
  | O, x5c :: b :: s => unescape b :: unquote 0 s
  | O, b :: s' =>
      if b2Z b <? 128 then b :: unquote 0 s'
      else
        let '(r, width) := DecodeRune (b :: s') in
        if (r =? RuneError) && bool_decide (width = 1%nat) then encode_rune RuneError ++ unquote 0 s'
        else b :: unquote (width - 1) s'
  end.

(** ** The parser *)

Fixpoint skip_space (s : bytes) : bytes :=
  match s with
  | b :: s' => if existsb (fun e => bool_decide (e = b)) [x20; x09; x0d; x0a] then skip_space s' else s
  | [] => []
  end.

Inductive parsed (A : Type) :=
| Parsed (a : A) (rest : bytes)
| Refused
| OutOfFuel.
Arguments Parsed {A} a rest.
Arguments Refused {A}.
Arguments OutOfFuel {A}.

Definition and_then {A B} (r : parsed A) (f : A -> bytes -> parsed B) : parsed B :=
  match r with Parsed a rest => f a rest | Refused => Refused | OutOfFuel => OutOfFuel end.

Definition of_option {A} (r : option (A * bytes)) : parsed A :=
  match r with Some (a, rest) => Parsed a rest | None => Refused end.

Definition expect (word : bytes) (v : json) (s : bytes) : parsed json :=
  if HasPrefix s word then Parsed v (drop (length word) s) else Refused.

Definition maxNestingDepth : nat := Z.to_nat 10000.

Section parser.
(** Whether number literals must fit a [float64]: so for [interface{}], not for [json.Number]. *)
Context (floats : bool).

Definition parse_number (s : bytes) : parsed json :=
  and_then (of_option (number_int (number_sign s))) (fun int s2 =>
  and_then (of_option (number_frac s2)) (fun frac s3 =>
  and_then (of_option (number_exp s3)) (fun exp s4 =>
    if floats && negb (float_in_range int frac exp) then Refused
    else Parsed (JNumber (take (length s - length s4) s)) s4))).

Definition parse_string (s : bytes) : parsed bytes :=
  match peel x22 s with
  | Some s => and_then (of_option (scan_string Plain s)) (fun raw rest => Parsed (unquote 0 raw) rest)
  | None => Refused
  end.

(** A value that is not an array or an object. *)
Definition parse_scalar (b : byte) (s : bytes) : parsed json :=
  if bool_decide (b = x22) then and_then (parse_string s) (fun str rest => Parsed (JString str) rest)
  else if bool_decide (b = x74) then expect (String.list_byte_of_string "true") (JBool true) s
  else if bool_decide (b = x66) then expect (String.list_byte_of_string "false") (JBool false) s
  else if bool_decide (b = x6e) then expect (String.list_byte_of_string "null") JNull s
  else parse_number s.

(** A value, the elements of an array after its bracket and the members of an object after its
    brace; [depth] counts the arrays and objects around it. *)
Fixpoint parse_value (fuel depth : nat) (s : bytes) {struct fuel} : parsed json :=
  match fuel with
  | O => OutOfFuel
  | S fuel =>
      match skip_space s with
      | [] => Refused
      | b :: s =>
          if bool_decide (b = x7b) then
            if bool_decide (maxNestingDepth <= depth)%nat then Refused
            else
              match peel x7d (skip_space s) with
              | Some s => Parsed (JObject []) s
              | None => and_then (parse_members fuel (S depth) [] s) (fun m rest => Parsed (JObject m) rest)
              end
          else if bool_decide (b = x5b) then
            if bool_decide (maxNestingDepth <= depth)%nat then Refused
            else
              match peel x5d (skip_space s) with
              | Some s => Parsed (JArray []) s
              | None => and_then (parse_elements fuel (S depth) s) (fun l rest => Parsed (JArray l) rest)
              end
          else parse_scalar b (b :: s)
      end
  end
with parse_elements (fuel depth : nat) (s : bytes) {struct fuel} : parsed (list json) :=
  match fuel with
  | O => OutOfFuel
  | S fuel =>
      and_then (parse_value fuel depth s) (fun v s =>
        match peel x2c (skip_space s), peel x5d (skip_space s) with
        | Some s, _ => and_then (parse_elements fuel depth s) (fun l rest => Parsed (v :: l) rest)
        | None, Some s => Parsed [v] s
        | None, None => Refused
        end)
  end
with parse_members (fuel depth : nat) (m : object) (s : bytes) {struct fuel} : parsed object :=
  match fuel with
  | O => OutOfFuel
  | S fuel =>
      and_then (parse_string (skip_space s)) (fun k s =>
        match peel x3a (skip_space s) with
        | Some s =>
            and_then (parse_value fuel depth s) (fun v s =>
              match peel x2c (skip_space s), peel x7d (skip_space s) with
              | Some s, _ => parse_members fuel depth (set_member m k v) s
              | None, Some s => Parsed (set_member m k v) s
              | None, None => Refused
              end)
        | None => Refused
        end)
  end.

Definition parse (data : bytes) : parsed json :=
  and_then (parse_value (2 * length data + 1) 0 data) (fun v rest =>
    match skip_space rest with [] => Parsed v [] | _ => Refused end).
End parser.

(** ** json.Unmarshal *)

(** Into an [interface{}]. *)
Definition Unmarshal (data : bytes) : option json :=
  match parse true data with Parsed v _ => Some v | _ => None end.

(** Into a [map\[string\]interface{}], where [null] leaves the map nil. *)
Definition Unmarshal_map (data : bytes) : option object :=
  match Unmarshal data with
  | Some (JObject m) => Some m
  | Some JNull => Some []
  | _ => None
  end.

(** [isValidNumber]: the whole string is a number of the grammar. *)
Definition isValidNumber (s : bytes) : bool :=
  match parse_number false s with Parsed _ [] => true | _ => false end.

(** Into a [json.Number]: a number, [null], or a string that holds a number. *)
Definition Unmarshal_Number (data : bytes) : bool :=
  match parse false data with
  | Parsed (JNumber _) _ => true
  | Parsed JNull _ => true
  | Parsed (JString s) _ => isValidNumber s
  | _ => false
  end.

(** ** strings *)

(** The encodings of the characters that [unicode.IsSpace] accepts. *)
Definition space_encodings : list bytes :=
  [[x09]; [x0a]; [x0b]; [x0c]; [x0d]; [x20]; [xc2; x85]; [xc2; xa0]; [xe1; x9a; x80]; [xe2; x80; x80]; [xe2; x80; x81];
   [xe2; x80; x82]; [xe2; x80; x83]; [xe2; x80; x84]; [xe2; x80; x85]; [xe2; x80; x86]; [xe2; x80; x87]; [xe2; x80; x88];
   [xe2; x80; x89]; [xe2; x80; x8a]; [xe2; x80; xa8]; [xe2; x80; xa9]; [xe2; x80; xaf]; [xe2; x81; x9f]; [xe3; x80; x80]].

Fixpoint trim_left (fuel : nat) (spaces : list bytes) (s : bytes) : bytes :=
  match fuel, find (HasPrefix s) spaces with
  | S fuel, Some e => trim_left fuel spaces (drop (length e) s)
  | _, _ => s
  end.

Definition TrimSpace (s : bytes) : bytes :=
  let s := trim_left (length s) space_encodings s in
  rev (trim_left (length s) (@rev byte <$> space_encodings) (rev s)).

(** [strings.Split] at a separator of one byte. *)
Fixpoint Split (s : bytes) (sep : byte) : list bytes :=
  match s with
  | [] => [[]]
  | b :: s =>
      if bool_decide (b = sep) then [] :: Split s sep
      else match Split s sep with l :: ls => (b :: l) :: ls | [] => [[b]] end
  end.

(** ** crypto/sha256 *)

Definition w32 (z : Z) : Z := Z.land z (Z.ones 32).
Definition rotr (x n : Z) : Z := Z.lor (Z.shiftr x n) (w32 (Z.shiftl x (32 - n))).

(** The first primes; the largest integer whose cube is at most [n]. *)
Definition primes : list Z := List.filter (fun n => forallb (fun d => negb (n mod d =? 0)) (seqZ 2 (n - 2))) (seqZ 2 310).
Definition cube_root (n : Z) : Z :=
  fold_left (fun r bit => let c := r + 2 ^ bit in if c * c * c <=? n then c else r) (rev (seqZ 0 36)) 0.

(** The constants of the algorithm: the first 32 bits of the fractional parts of the square roots of
    the first 8 primes, and of the cube roots of the first 64. *)
Definition sha_h : list Z := Eval vm_compute in map (fun p => w32 (Z.sqrt (p * 2 ^ 64))) (take 8 primes).
Definition sha_k : list Z := Eval vm_compute in map (fun p => w32 (cube_root (p * 2 ^ 96))) primes.

(** The message, a one bit, zeros and the length in bits, a multiple of 64 bytes. *)
Definition sha_pad (m : bytes) : bytes :=
  m ++ [x80] ++ replicate (Z.to_nat ((55 - zlen m) mod 64)) x00 ++ be_enc 8 (8 * zlen m).

Fixpoint words (s : bytes) : list Z :=
  match s with a :: b :: c :: d :: s => be_dec [a; b; c; d] :: words s | _ => [] end.

(** The schedule: [n] more words after those of the block, the newest first. *)
Fixpoint schedule (n : nat) (w : list Z) : list Z :=
  match n with
  | O => w
  | S n =>
      let at_ i := nth i w 0 in
      let s0 := Z.lxor (Z.lxor (rotr (at_ 14%nat) 7) (rotr (at_ 14%nat) 18)) (Z.shiftr (at_ 14%nat) 3) in
      let s1 := Z.lxor (Z.lxor (rotr (at_ 1%nat) 17) (rotr (at_ 1%nat) 19)) (Z.shiftr (at_ 1%nat) 10) in
      schedule n (w32 (at_ 15%nat + s0 + at_ 6%nat + s1) :: w)
  end.

Definition sha_round (st : list Z) (kw : Z * Z) : list Z :=
  match st with
  | [a; b; c; d; e; f; g; h] =>
      let s1 := Z.lxor (Z.lxor (rotr e 6) (rotr e 11)) (rotr e 25) in
      let ch := Z.lxor (Z.land e f) (Z.land (Z.lxor e (Z.ones 32)) g) in
      let t1 := h + s1 + ch + kw.1 + kw.2 in
      let s0 := Z.lxor (Z.lxor (rotr a 2) (rotr a 13)) (rotr a 22) in
      let maj := Z.lxor (Z.lxor (Z.land a b) (Z.land a c)) (Z.land b c) in
      [w32 (t1 + s0 + maj); a; b; c; w32 (d + t1); e; f; g]
  | st => st
  end.

Definition sha_block (st : list Z) (block : list Z) : list Z :=
  let st' := fold_left sha_round (combine sha_k (rev (schedule 48 (rev block)))) st in
  (fun p => w32 (p.1 + p.2)) <$> combine st st'.

Fixpoint sha_blocks (n : nat) (st ws : list Z) : list Z :=
  match n with O => st | S n => sha_blocks n (sha_block st (take 16 ws)) (drop 16 ws) end.

Definition Sum256 (m : bytes) : bytes :=
  let ws := words (sha_pad m) in
  flat_map (be_enc 4) (sha_blocks (length ws / 16) sha_h ws).

(** [hex.EncodeToString]. *)
Definition hex_digit (n : Z) : byte := Z2b (if n <? 10 then 48 + n else 87 + n).
Definition EncodeToString (s : bytes) : bytes := flat_map (fun b => [hex_digit (b2Z b / 16); hex_digit (b2Z b mod 16)]) s.

(** ** The fuel is enough *)

(** A parse that does not lack fuel and leaves fewer than [n] bytes. *)
Definition leaves {A} (r : parsed A) (n : nat) : Prop :=
  match r with Parsed _ rest => (length rest < n)%nat | Refused => True | OutOfFuel => False end.

Lemma leaves_mono {A} (r : parsed A) n n' : leaves r n -> (n <= n')%nat -> leaves r n'.
Proof. destruct r; simpl; lia || done. Qed.

Lemma leaves_then {A B} (r : parsed A) (f : A -> bytes -> parsed B) n n' :
  leaves r n -> (forall a rest, (length rest < n)%nat -> leaves (f a rest) n') -> leaves (and_then r f) n'.
Proof. destruct r; simpl; auto. Qed.

Lemma leaves_option {A} (r : option (A * bytes)) n :
  (forall a rest, r = Some (a, rest) -> (length rest < n)%nat) -> leaves (of_option r) n.
Proof. destruct r as [[a rest] |]; simpl; eauto. Qed.

Lemma peel_length c s s' : peel c s = Some s' -> (length s = S (length s'))%nat.
Proof. destruct s; simpl; [done |]. case_bool_decide; naive_solver. Qed.

Lemma skip_space_length s : (length (skip_space s) <= length s)%nat.
Proof. induction s; simpl; [done |]. repeat case_match; simpl; lia. Qed.

Lemma digits_prefix_length s ds rest : digits_prefix s = (ds, rest) -> (length ds + length rest = length s)%nat.
Proof.
  revert ds rest. induction s as [| b s IH]; intros ds rest; simpl; [naive_solver |].
  destruct (is_digit b); [| naive_solver]. destruct (digits_prefix s) as [ds' rest'].
  specialize (IH _ _ eq_refl). intros [= <- <-]. simpl. lia.
Qed.

Lemma some_digits_length s ds rest : some_digits s = Some (ds, rest) -> (length rest < length s)%nat.
Proof.
  unfold some_digits. destruct (digits_prefix s) as [[| d ds'] r] eqn:E; [done |]. intros [= <- <-].
  apply digits_prefix_length in E. simpl in E. lia.
Qed.

Lemma default_peel_length c s : (length (default s (peel c s)) <= length s)%nat.
Proof. destruct (peel c s) eqn:E; simpl; [apply peel_length in E |]; lia. Qed.

Lemma parse_number_leaves floats s : leaves (parse_number floats s) (length s).
Proof.
  pose proof (default_peel_length x2d s) as Hs. unfold parse_number, number_sign.
  apply leaves_then with (length s); [apply leaves_option |].
  { intros int rest. unfold number_int. destruct (peel x30 _) eqn:E.
    - intros [= <- <-]. apply peel_length in E. lia.
    - intros H%some_digits_length. lia. }
  intros int s2 H2. apply leaves_then with (length s); [apply leaves_option |].
  { intros frac rest. unfold number_frac. destruct (peel x2e s2) eqn:E.
    - intros H%some_digits_length. apply peel_length in E. lia.
    - intros [= <- <-]. lia. }
  intros frac s3 H3. apply leaves_then with (length s); [apply leaves_option |].
  { assert (He : forall t e rest, exponent t = Some (e, rest) -> (length rest < length t)%nat).
    { intros t e rest. unfold exponent. destruct (peel x2d t) eqn:E; intros H; simplify_option_eq; case_match; simplify_eq.
      - apply peel_length in E. match goal with H : some_digits _ = _ |- _ => apply some_digits_length in H end. lia.
      - match goal with H : some_digits _ = _ |- _ => apply some_digits_length in H end.
        pose proof (default_peel_length x2b t). lia. }
    intros e rest. unfold number_exp. destruct (peel x65 s3) eqn:E.
    - intros H%He. apply peel_length in E. lia.
    - destruct (peel x45 s3) eqn:E'; [intros H%He; apply peel_length in E'; lia | intros [= <- <-]; lia]. }
  intros e s4 H4. destruct (floats && _); simpl; lia || done.
Qed.

Lemma scan_string_length st s raw rest : scan_string st s = Some (raw, rest) -> (length rest < length s)%nat.
Proof.
  revert st raw rest. induction s as [| b s IH]; intros st raw rest; simpl; [done |].
  assert (G : forall st', ('(raw, rest) ← scan_string st' s; Some (b :: raw, rest)) = Some (raw, rest) -> (length rest < S (length s))%nat).
  { intros st'. destruct (scan_string st' s) as [[raw' rest'] |] eqn:E; simpl; [| done]. intros [= <- <-]. apply IH in E. lia. }
  destruct st as [| | [| [| n]]]; repeat case_match; intros; first [done | solve [eauto] | simplify_eq; lia].
Qed.

Lemma parse_string_leaves s : leaves (parse_string s) (length s).
Proof.
  unfold parse_string. destruct (peel x22 s) eqn:E; [| done]. apply peel_length in E.
  apply leaves_then with (length s); [apply leaves_option | simpl; intros; lia].
  intros raw rest H%scan_string_length. lia.
Qed.

Lemma expect_leaves word v s : word <> [] -> s <> [] -> leaves (expect word v s) (length s).
Proof.
  intros Hw Hs. unfold expect. destruct (HasPrefix s word) eqn:E; simpl; [| done]. rewrite length_drop.
  destruct word, s; simpl; done || lia.
Qed.

Lemma parse_scalar_leaves floats b s : leaves (parse_scalar floats b (b :: s)) (length (b :: s)).
Proof.
  unfold parse_scalar. repeat case_match; try (apply expect_leaves; done); [| apply parse_number_leaves].
  eapply leaves_then; [apply parse_string_leaves | done].
Qed.

Lemma parse_leaves floats fuel :
  (forall depth s, (2 * length s + 1 <= fuel)%nat -> leaves (parse_value floats fuel depth s) (length s)) /\
  (forall depth s, (2 * length s + 2 <= fuel)%nat -> leaves (parse_elements floats fuel depth s) (length s)) /\
  (forall depth m s, (2 * length s + 2 <= fuel)%nat -> leaves (parse_members floats fuel depth m s) (length s)).
Proof.
  induction fuel as [| fuel (IHv & IHe & IHm)]; [repeat split; lia |]. repeat split.
  - intros depth s Hf. simpl. pose proof (skip_space_length s) as Hs. destruct (skip_space s) as [| b t]; [done |]. simpl in Hs.
    pose proof (skip_space_length t) as Ht. pose proof (parse_scalar_leaves floats b t) as Hp.
    repeat case_bool_decide; try done.
    + destruct (peel x7d _) eqn:E; [apply peel_length in E; simpl; lia |].
      eapply leaves_then; [apply IHm; lia | simpl; lia].
    + destruct (peel x5d _) eqn:E; [apply peel_length in E; simpl; lia |].
      eapply leaves_then; [apply IHe; lia | simpl; lia].
    + eapply leaves_mono; [exact Hp | simpl; lia].
  - intros depth s Hf. simpl. eapply leaves_then; [apply IHv; lia |]. intros v t Ht.
    pose proof (skip_space_length t). destruct (peel x2c _) eqn:E; [apply peel_length in E | destruct (peel x5d _) eqn:E'].
    + eapply leaves_then; [apply IHe; lia | simpl; lia].
    + apply peel_length in E'. simpl. lia.
    + done.
  - intros depth m s Hf. simpl. pose proof (skip_space_length s) as Hs.
    eapply leaves_then; [apply parse_string_leaves |]. intros k t Ht.
    pose proof (skip_space_length t). destruct (peel x3a _) as [u |] eqn:E; [| done]. apply peel_length in E.
    eapply leaves_then; [apply IHv; lia |]. intros v w Hw. pose proof (skip_space_length w).
    destruct (peel x2c _) eqn:E1; [apply peel_length in E1 | destruct (peel x7d _) eqn:E2].
    + eapply leaves_mono; [apply IHm; lia | lia].
    + apply peel_length in E2. simpl. lia.
    + done.
Qed.

(** Every text is accepted or refused. *)
Lemma unmarshal_total floats data : parse floats data <> OutOfFuel.
Proof.
  unfold parse. pose proof (proj1 (parse_leaves floats (2 * length data + 1)) 0%nat data ltac:(lia)) as H.
  destruct (parse_value _ _ _ _); simpl in *; [case_match | |]; done.
Qed.

(** ** Checks *)

(** JSON text with single quotes in the place of double quotes. *)
Definition quoted (s : string) : bytes := (fun b => if bool_decide (b = x27) then x22 else b) <$> String.list_byte_of_string s.


Example unmarshal_check :
  Unmarshal (quoted " { 'a' : [ 1 , -2.5e+3, true,null ] , 'b':{} , 'a':'\u0041\ud83d\ude00\n\ud800'} ")
  = Some (JObject [([x61], JString [x41; xf0; x9f; x98; x80; x0a; xef; xbf; xbd]); ([x62], JObject [])])
  /\ match Unmarshal (quoted "0.000179769313486231580000000000000000000e312") with Some (JNumber _) => true | _ => false end = true
  /\ forallb (fun s => match Unmarshal (quoted s) with None => true | Some _ => false end)
       ["1.7976931348623159e308"; "179769313486231590000000000000000000000e270"; "01"; "-"; "1."; "[1,]"; "{'a':1,}"; "{a:1}"; "nul"; "null x"; "'\x'"; ""]%string = true
  /\ Unmarshal_Number (quoted "1e999") = true /\ Unmarshal_Number (quoted "'-1e5'") = true /\ Unmarshal_Number (quoted "true") = false.
Proof. repeat split; vm_compute; reflexivity. Qed.

Example sha256_check :
  EncodeToString (Sum256 []) = String.list_byte_of_string "e3b0c44298fc1c149afbf4c8996fb92427ae41e4649b934ca495991b7852b855"
  /\ EncodeToString (Sum256 (String.list_byte_of_string "abcdbcdecdefdefgefghfghighijhijkijkljklmklmnlmnomnopnopq"))
     = String.list_byte_of_string "248d6a61d20638b8e5c026930c3e6039a33ce45964ff2167f6ecedd419db06c1".
Proof. vm_compute. done. Qed.

Example strings_check :
  TrimSpace ([x20; xe3; x80; x80; x61; x20; x62; xc2; xa0; x0a]) = [x61; x20; x62]
  /\ Split [x61; x0a; x0a; x62] x0a = [[x61]; []; [x62]].
Proof. vm_compute. done. Qed.
