(* ===== verification/Schema.v ===== *)
(** * The schema registry and the schema handler (pkg/schema, pkg/server/schema_handler.go)

    Subjects with their numbered versions, the validator of schema definitions with its rules of
    compatibility, the validator of message data, and the handler that checks the messages of a
    produce request before it hands the request on.  JSON and SHA-256 are those of GoJson.v.

    The orders in which Go ranges over maps are parameters.  Errors are values of [schema_error];
    their texts are a parameter of the handler, which copies them into its answer.  [None] where
    an [option] is not an error is a run-time panic (a nil schema, a failed type assertion).  A
    produce request is checked in one step; in the code every call of the registry takes its lock
    anew. *)

From S2P Require Import Prelude GoBytes GoMatch GoJson Record Wire Payloads Protocol Handlers.
From stdpp Require Import prelude list gmap.
From Stdlib Require Import ZArith Lia Strings.Byte Strings.String.

Open Scope Z_scope.
#[local] Notation length := Datatypes.length.

Module Schema.

(** ** Types (types.go) *)

Definition FormatJSON : bytes := text "JSON".
Definition FormatAvro : bytes := text "AVRO".
Definition FormatProtobuf : bytes := text "PROTOBUF".

Definition CompatibilityNone : bytes := text "NONE".
Definition CompatibilityBackward : bytes := text "BACKWARD".
Definition CompatibilityForward : bytes := text "FORWARD".
Definition CompatibilityFull : bytes := text "FULL".
Definition CompatibilityBackwardTransitive : bytes := text "BACKWARD_TRANSITIVE".
Definition CompatibilityForwardTransitive : bytes := text "FORWARD_TRANSITIVE".
Definition CompatibilityFullTransitive : bytes := text "FULL_TRANSITIVE".

Record Schema := mkSchema {
  sc_ID : Z;
  sc_Subject : bytes;
  sc_Version : Z;
  sc_Format : bytes;
  sc_Definition : bytes;
  sc_CreatedAt : Z;
  sc_UpdatedAt : Z
}.

Inductive ErrorCode :=
| ErrorNone
| ErrorSchemaNotFound
| ErrorSubjectNotFound
| ErrorVersionNotFound
| ErrorInvalidSchema
| ErrorIncompatibleSchema
| ErrorSubjectAlreadyExists
| ErrorVersionAlreadyExists
| ErrorInvalidCompatibilityMode
| ErrorInvalidSubject
| ErrorInvalidVersion
| ErrorSchemaRegistryError.

Record RegisterSchemaRequest := mkRegister { rr_Subject : bytes; rr_Format : bytes; rr_Definition : bytes }.
Record RegisterSchemaResponse := mkRegistered { rsp_ID : Z; rsp_ErrorCode : ErrorCode }.
(** Also [GetSchemaBySubjectVersionResponse] and [GetLatestSchemaResponse]. *)
Record GetSchemaResponse := mkGot { gr_Schema : option Schema; gr_ErrorCode : ErrorCode }.
Record ListVersionsResponse := mkVersions { lv_Versions : list Z; lv_ErrorCode : ErrorCode }.
Record DeleteSubjectResponse := mkDeleted { dr_Versions : list Z; dr_ErrorCode : ErrorCode }.

(** The errors of the validators, with what their texts name. *)
Inductive schema_error :=
| EmptyDefinition
| UnsupportedFormat (format : bytes)
| InvalidJSON
| NoType
| InvalidAvroType (t : bytes)
| RecordWithoutName
| RecordWithoutFields
| NoMessageOrEnum
| OldSchemaInvalid (e : schema_error)
| NewSchemaInvalid (e : schema_error)
| UnsupportedMode (mode : bytes)
| RequiredFieldRemoved (field : bytes)
| RequiredFieldNoDefault (field : bytes)
| TypeChanged (from to : bytes)
| AvroFieldRemoved (field : bytes)
| EmptyData
| MessageNotJSON
| WrongType (expected : bytes) (value : json)
| MissingField (field : bytes)
| InField (field : bytes) (e : schema_error)
| InValue (index : nat) (e : schema_error)
| InKey (index : nat) (e : schema_error).

(** The [SchemaValidator] interface (registry.go). *)
Record SchemaValidator := mkValidator {
  Validate : bytes -> bytes -> option schema_error;
  CheckCompatibility : bytes -> bytes -> bytes -> bytes -> result schema_error bool
}.

(** ** Type assertions on [interface{}] *)

Definition as_string (v : option json) : option bytes := match v with Some (JString s) => Some s | _ => None end.
Definition as_array (v : option json) : option (list json) := match v with Some (JArray l) => Some l | _ => None end.
Definition as_object (v : option json) : option object := match v with Some (JObject m) => Some m | _ => None end.

(** ** The default validator (validator.go) *)

Definition validateJSON (definition : bytes) : option schema_error :=
  match Unmarshal_map definition with None => Some InvalidJSON | Some _ => None end.

Definition validTypes : list bytes :=
  [text "null"; text "boolean"; text "int"; text "long"; text "float"; text "double";
   text "bytes"; text "string"; text "record"; text "enum"; text "array"; text "map";
   text "fixed"; text "union"].

Definition validateAvro (definition : bytes) : option schema_error :=
  match Unmarshal_map definition with
  | None => Some InvalidJSON
  | Some schema =>
      match member schema (text "type") with
      | None => Some NoType
      | Some (JString typeStr) =>
          if negb (existsb (fun t => bool_decide (typeStr = t)) validTypes) then Some (InvalidAvroType typeStr)
          else if bool_decide (typeStr = text "record") then
            match member schema (text "name"), member schema (text "fields") with
            | None, _ => Some RecordWithoutName
            | Some _, None => Some RecordWithoutFields
            | Some _, Some _ => None
            end
          else None
      | Some _ => None
      end
  end.

Definition validateProtobuf (definition : bytes) : option schema_error :=
  let hasMessage := existsb (fun line => HasPrefix (TrimSpace line) (text "message")) (Split definition x0a) in
  if negb hasMessage && negb (Contains definition (text "enum")) then Some NoMessageOrEnum else None.

Definition default_Validate (format definition : bytes) : option schema_error :=
  if bool_decide (definition = []) then Some EmptyDefinition
  else if bool_decide (format = FormatJSON) then validateJSON definition
  else if bool_decide (format = FormatAvro) then validateAvro definition
  else if bool_decide (format = FormatProtobuf) then validateProtobuf definition
  else Some (UnsupportedFormat format).

Definition getRequiredFields (schema : object) : list bytes :=
  match as_array (member schema (text "required")) with
  | None => []
  | Some required => omap (fun field => as_string (Some field)) required
  end.

Definition getProperties (schema : object) : object :=
  default [] (as_object (member schema (text "properties"))).

Definition one_of (x : bytes) (l : list bytes) : bool := existsb (fun y => bool_decide (x = y)) l.

(** The first old required field that is neither required nor a property in the new schema. *)
Definition checkBackwardCompatibleJSON (oldDef newDef : object) : result schema_error bool :=
  let newRequired := getRequiredFields newDef in
  match find (fun field => negb (one_of field newRequired) && bool_decide (member (getProperties newDef) field = None))
             (getRequiredFields oldDef) with
  | Some field => Err (RequiredFieldRemoved field)
  | None => Ok true
  end.

(** The first new required field that the old properties lack and whose property has no default; a
    property that is missing or not an object passes. *)
Definition checkForwardCompatibleJSON (oldDef newDef : object) : result schema_error bool :=
  match find (fun field =>
                bool_decide (member (getProperties oldDef) field = None)
                && match as_object (member (getProperties newDef) field) with
                   | Some prop => bool_decide (member prop (text "default") = None)
                   | None => false
                   end)
             (getRequiredFields newDef) with
  | Some field => Err (RequiredFieldNoDefault field)
  | None => Ok true
  end.

(** The switch over the modes, for the two checks of a format. *)
Definition by_mode (mode : bytes) (backward forward : result schema_error bool) : result schema_error bool :=
  if one_of mode [CompatibilityBackward; CompatibilityBackwardTransitive] then backward
  else if one_of mode [CompatibilityForward; CompatibilityForwardTransitive] then forward
  else if one_of mode [CompatibilityFull; CompatibilityFullTransitive] then
    match backward, forward with
    | Err e, _ => Err e
    | Ok _, Err e => Err e
    | Ok b, Ok f => Ok (b && f)
    end
  else Err (UnsupportedMode mode).

Definition checkJSONCompatibility (oldSchema newSchema mode : bytes) : result schema_error bool :=
  match Unmarshal_map oldSchema, Unmarshal_map newSchema with
  | Some oldDef, Some newDef => by_mode mode (checkBackwardCompatibleJSON oldDef newDef) (checkForwardCompatibleJSON oldDef newDef)
  | _, _ => Err InvalidJSON
  end.

Definition getAvroFields (schema : object) : list bytes :=
  match as_array (member schema (text "fields")) with
  | None => []
  | Some fields => omap (fun field => m ← as_object (Some field); as_string (member m (text "name"))) fields
  end.

Definition checkAvroBackwardCompatible (oldDef newDef : object) : result schema_error bool :=
  let oldType := default [] (as_string (member oldDef (text "type"))) in
  let newType := default [] (as_string (member newDef (text "type"))) in
  if negb (bool_decide (oldType = newType)) then Err (TypeChanged oldType newType)
  else if bool_decide (oldType = text "record") then
    match find (fun field => negb (one_of field (getAvroFields newDef))) (getAvroFields oldDef) with
    | Some field => Err (AvroFieldRemoved field)
    | None => Ok true
    end
  else Ok true.

(** The loop over the new fields computes a variable that nothing reads. *)
Definition checkAvroForwardCompatible (oldDef newDef : object) : result schema_error bool := Ok true.

Definition checkAvroCompatibility (oldSchema newSchema mode : bytes) : result schema_error bool :=
  match Unmarshal_map oldSchema, Unmarshal_map newSchema with
  | Some oldDef, Some newDef => by_mode mode (checkAvroBackwardCompatible oldDef newDef) (checkAvroForwardCompatible oldDef newDef)
  | _, _ => Err InvalidJSON
  end.

Definition checkProtobufCompatibility (mode : bytes) : result schema_error bool := by_mode mode (Ok true) (Ok true).

Definition default_CheckCompatibility (format oldSchema newSchema mode : bytes) : result schema_error bool :=
  match default_Validate format oldSchema, default_Validate format newSchema with
  | Some e, _ => Err (OldSchemaInvalid e)
  | None, Some e => Err (NewSchemaInvalid e)
  | None, None =>
      if bool_decide (mode = CompatibilityNone) then Ok true
      else if bool_decide (format = FormatJSON) then checkJSONCompatibility oldSchema newSchema mode
      else if bool_decide (format = FormatAvro) then checkAvroCompatibility oldSchema newSchema mode
      else if bool_decide (format = FormatProtobuf) then checkProtobufCompatibility mode
      else Err (UnsupportedFormat format)
  end.

Definition DefaultValidator : SchemaValidator := mkValidator default_Validate default_CheckCompatibility.

(** ** The data validator (data_validator.go) *)

Definition matchJSONType (expectedType : bytes) (value : json) : option schema_error :=
  let unless (ok : bool) := if ok then None else Some (WrongType expectedType value) in
  if bool_decide (expectedType = text "object") then unless (match value with JObject _ => true | _ => false end)
  else if bool_decide (expectedType = text "array") then unless (match value with JArray _ => true | _ => false end)
  else if bool_decide (expectedType = text "string") then unless (match value with JString _ => true | _ => false end)
  else if bool_decide (expectedType = text "number") || bool_decide (expectedType = text "integer")
  then unless (match value with JNumber _ => true | _ => false end)
  else if bool_decide (expectedType = text "boolean") then unless (match value with JBool _ => true | _ => false end)
  else if bool_decide (expectedType = text "null") then unless (match value with JNull => true | _ => false end)
  else None.

Definition checkJSONType (schemaDef : object) (value : json) : option schema_error :=
  match as_string (member schemaDef (text "type")) with
  | Some expectedType => matchJSONType expectedType value
  | None => None
  end.

(** The first required field that the object lacks. *)
Fixpoint missing_required (required : list json) (obj : object) : option schema_error :=
  match required with
  | JString fieldName :: required =>
      match member obj fieldName with Some _ => missing_required required obj | None => Some (MissingField fieldName) end
  | _ :: required => missing_required required obj
  | [] => None
  end.

(** The first field, in the order given, that its property refuses; with each field comes the
    validation of its value against a definition. *)
Fixpoint first_refused (properties : object) (fields : list (bytes * (object -> option schema_error))) : option schema_error :=
  match fields with
  | [] => None
  | (fieldName, validate) :: fields =>
      match as_object (member properties fieldName) with
      | Some propDef =>
          match validate propDef with
          | Some e => Some (InField fieldName e)
          | None => first_refused properties fields
          end
      | None => first_refused properties fields
      end
  end.

Section data.
(** The order of a range over an object. *)
Context (range_members : forall A : Type, list (bytes * A) -> list (bytes * A)).

Definition checkJSONObjectFields (schemaDef obj : object) (fields : list (bytes * (object -> option schema_error))) : option schema_error :=
  match missing_required (default [] (as_array (member schemaDef (text "required")))) obj with
  | Some e => Some e
  | None =>
      match as_object (member schemaDef (text "properties")) with
      | None => None
      | Some properties => first_refused properties (range_members _ fields)
      end
  end.

Fixpoint validateJSONValue (schemaDef : object) (value : json) {struct value} : option schema_error :=
  match checkJSONType schemaDef value with
  | Some e => Some e
  | None =>
      match value with
      | JObject obj => checkJSONObjectFields schemaDef obj (map (fun '(k, v) => (k, fun propDef => validateJSONValue propDef v)) obj)
      | _ => None
      end
  end.

Definition validateJSONData (definition data : bytes) : option schema_error :=
  match Unmarshal_map definition with
  | None => Some InvalidJSON
  | Some schemaDef =>
      match Unmarshal data with
      | None => Some MessageNotJSON
      | Some messageData => validateJSONValue schemaDef messageData
      end
  end.

(** The first field without default that the record lacks. *)
Fixpoint missing_avro (fields : list json) (record : object) : option schema_error :=
  match fields with
  | [] => None
  | JObject field :: fields =>
      let fieldName := default [] (as_string (member field (text "name"))) in
      if bool_decide (fieldName = []) then missing_avro fields record
      else
        match member record fieldName, member field (text "default") with
        | None, None => Some (MissingField fieldName)
        | _, _ => missing_avro fields record
        end
  | _ :: fields => missing_avro fields record
  end.

Definition validateAvroRecord (schemaDef : object) (data : bytes) : option schema_error :=
  match Unmarshal_map data with
  | None => Some MessageNotJSON
  | Some record => missing_avro (default [] (as_array (member schemaDef (text "fields")))) record
  end.

Definition validateAvroPrimitive (schemaType data : bytes) : option schema_error :=
  let trimmed := TrimSpace data in
  let unless (ok : bool) := if ok then None else Some (WrongType schemaType (JString data)) in
  if bool_decide (schemaType = text "string")
  then unless (bool_decide (2 <= length trimmed)%nat && bool_decide (head trimmed = Some x22) && bool_decide (last trimmed = Some x22))
  else if one_of schemaType [text "int"; text "long"; text "float"; text "double"] then unless (Unmarshal_Number data)
  else if bool_decide (schemaType = text "boolean") then unless (one_of trimmed [text "true"; text "false"])
  else if bool_decide (schemaType = text "null") then unless (bool_decide (trimmed = text "null"))
  else None.

Definition validateAvroData (definition data : bytes) : option schema_error :=
  match Unmarshal_map definition with
  | None => Some InvalidJSON
  | Some schemaDef =>
      let schemaType := default [] (as_string (member schemaDef (text "type"))) in
      if bool_decide (schemaType = text "record") then validateAvroRecord schemaDef data
      else validateAvroPrimitive schemaType data
  end.

Definition ValidateData (format definition data : bytes) : option schema_error :=
  if bool_decide (data = []) then Some EmptyData
  else if bool_decide (format = FormatJSON) then validateJSONData definition data
  else if bool_decide (format = FormatAvro) then validateAvroData definition data
  else if bool_decide (format = FormatProtobuf) then None
  else Some (UnsupportedFormat format).
End data.

(** ** The registry (registry.go) *)

Record SchemaRegistry := mkRegistry {
  schemas : gmap Z Schema;
  subjectSchemas : gmap bytes (gmap Z Schema);
  subjectLatest : gmap bytes Z;
  fingerprints : gmap bytes (gmap bytes Z);
  globalCompatibility : bytes;
  subjectCompatibility : gmap bytes bytes;
  nextID : Z;
  validator : option SchemaValidator
}.

Definition NewSchemaRegistry (v : option SchemaValidator) : SchemaRegistry :=
  mkRegistry ∅ ∅ ∅ ∅ CompatibilityBackward ∅ 1 v.

Definition calculateFingerprint (definition : bytes) : bytes := EncodeToString (Sum256 definition).

Definition isValidCompatibilityMode (mode : bytes) : bool :=
  one_of mode [CompatibilityNone; CompatibilityBackward; CompatibilityForward; CompatibilityFull;
               CompatibilityBackwardTransitive; CompatibilityForwardTransitive; CompatibilityFullTransitive].

(** [sr.subjectSchemas\[subject\]\[version\]]; [None] is a nil schema. *)
Definition schema_at (sr : SchemaRegistry) (subject : bytes) (version : Z) : option Schema :=
  vs ← subjectSchemas sr !! subject; vs !! version.

Definition compatibility_mode (sr : SchemaRegistry) (subject : bytes) : bytes :=
  default (globalCompatibility sr) (subjectCompatibility sr !! subject).

(** [None] is the use of a nil schema. *)
Definition checkCompatibility (sr : SchemaRegistry) (subject : bytes) (existingSchema : option Schema) (newFormat newDefinition : bytes)
  : option (result schema_error bool) :=
  let mode := compatibility_mode sr subject in
  if bool_decide (mode = CompatibilityNone) then Some (Ok true)
  else
    match validator sr with
    | Some v => existing ← existingSchema; Some (CheckCompatibility v newFormat (sc_Definition existing) newDefinition mode)
    | None => Some (Ok true)
    end.

(** The new schema under the next ID and version. *)
Definition store_schema (now : Z) (sr : SchemaRegistry) (req : RegisterSchemaRequest) : Z * SchemaRegistry :=
  let subject := rr_Subject req in
  let id := wraps 32 (nextID sr + 1) in
  let nextVersion := match subjectLatest sr !! subject with Some latest => wraps 32 (latest + 1) | None => 1 end in
  let schema := mkSchema id subject nextVersion (rr_Format req) (rr_Definition req) now now in
  (id, mkRegistry (<[id := schema]> (schemas sr))
         (<[subject := <[nextVersion := schema]> (default ∅ (subjectSchemas sr !! subject))]> (subjectSchemas sr))
         (<[subject := nextVersion]> (subjectLatest sr))
         (<[subject := <[calculateFingerprint (rr_Definition req) := id]> (default ∅ (fingerprints sr !! subject))]> (fingerprints sr))
         (globalCompatibility sr) (subjectCompatibility sr) id (validator sr)).

(** The answer and the error beside it. *)
Definition RegisterSchema (now : Z) (sr : SchemaRegistry) (req : RegisterSchemaRequest)
  : option (RegisterSchemaResponse * option schema_error * SchemaRegistry) :=
  let subject := rr_Subject req in
  let refuse code err := Some (mkRegistered 0 code, err, sr) in
  let store := let '(id, sr) := store_schema now sr req in Some (mkRegistered id ErrorNone, None, sr) in
  if bool_decide (subject = []) then refuse ErrorInvalidSubject None
  else
    match v ← validator sr; Validate v (rr_Format req) (rr_Definition req) with
    | Some _ => refuse ErrorInvalidSchema None
    | None =>
        match fs ← fingerprints sr !! subject; fs !! calculateFingerprint (rr_Definition req) with
        | Some existingID => Some (mkRegistered existingID ErrorNone, None, sr)
        | None =>
            match subjectLatest sr !! subject with
            | None => store
            | Some latestVersion =>
                compatible ← checkCompatibility sr subject (schema_at sr subject latestVersion) (rr_Format req) (rr_Definition req);
                match compatible with
                | Err e => refuse ErrorSchemaRegistryError (Some e)
                | Ok false => refuse ErrorIncompatibleSchema None
                | Ok true => store
                end
            end
        end
    end.

Definition GetSchema (sr : SchemaRegistry) (id : Z) : GetSchemaResponse :=
  match schemas sr !! id with
  | None => mkGot None ErrorSchemaNotFound
  | Some schema => mkGot (Some schema) ErrorNone
  end.

Definition GetSchemaBySubjectVersion (sr : SchemaRegistry) (subject : bytes) (version : Z) : GetSchemaResponse :=
  match subjectSchemas sr !! subject with
  | None => mkGot None ErrorSubjectNotFound
  | Some versions =>
      match versions !! version with
      | None => mkGot None ErrorVersionNotFound
      | Some schema => mkGot (Some schema) ErrorNone
      end
  end.

Definition GetLatestSchema (sr : SchemaRegistry) (subject : bytes) : option GetSchemaResponse :=
  match subjectLatest sr !! subject with
  | None => Some (mkGot None ErrorSubjectNotFound)
  | Some latestVersion => schema ← schema_at sr subject latestVersion; Some (mkGot (Some schema) ErrorNone)
  end.

(** The largest version of the map; 0 when there is none. *)
Definition maxVersion (versions : gmap Z Schema) : Z := map_fold (fun version _ m => if m <? version then version else m) 0 versions.

Definition DeleteSchema (sr : SchemaRegistry) (subject : bytes) (version : Z) : ErrorCode * SchemaRegistry :=
  match subjectSchemas sr !! subject with
  | None => (ErrorSubjectNotFound, sr)
  | Some versions =>
      match versions !! version with
      | None => (ErrorVersionNotFound, sr)
      | Some schema =>
          let versions := delete version versions in
          let latest :=
            if default 0 (subjectLatest sr !! subject) =? version then
              if 0 <? maxVersion versions then <[subject := maxVersion versions]> (subjectLatest sr)
              else delete subject (subjectLatest sr)
            else subjectLatest sr in
          let empty := bool_decide (versions = ∅) in
          (ErrorNone,
           mkRegistry (delete (sc_ID schema) (schemas sr))
             (if empty then delete subject (subjectSchemas sr) else <[subject := versions]> (subjectSchemas sr))
             latest
             (if empty then delete subject (fingerprints sr) else fingerprints sr)
             (globalCompatibility sr) (subjectCompatibility sr) (nextID sr) (validator sr))
      end
  end.

Definition UpdateCompatibility (sr : SchemaRegistry) (subject mode : bytes) : ErrorCode * SchemaRegistry :=
  if negb (isValidCompatibilityMode mode) then (ErrorInvalidCompatibilityMode, sr)
  else (ErrorNone, mkRegistry (schemas sr) (subjectSchemas sr) (subjectLatest sr) (fingerprints sr) (globalCompatibility sr)
                     (<[subject := mode]> (subjectCompatibility sr)) (nextID sr) (validator sr)).

Definition GetCompatibility (sr : SchemaRegistry) (subject : bytes) : bytes * ErrorCode := (compatibility_mode sr subject, ErrorNone).

Definition SetGlobalCompatibility (sr : SchemaRegistry) (mode : bytes) : option schema_error * SchemaRegistry :=
  if negb (isValidCompatibilityMode mode) then (Some (UnsupportedMode mode), sr)
  else (None, mkRegistry (schemas sr) (subjectSchemas sr) (subjectLatest sr) (fingerprints sr) mode
                (subjectCompatibility sr) (nextID sr) (validator sr)).

(** Compatible or not, the code, and the error whose text is the message. *)
Definition TestCompatibility (sr : SchemaRegistry) (subject : bytes) (version : Z) (format definition : bytes)
  : option (bool * ErrorCode * option schema_error) :=
  match subjectSchemas sr !! subject with
  | None => Some (false, ErrorSubjectNotFound, None)
  | Some versions =>
      match versions !! version with
      | None => Some (false, ErrorVersionNotFound, None)
      | Some existing =>
          r ← checkCompatibility sr subject (Some existing) format definition;
          match r with
          | Err e => Some (false, ErrorSchemaRegistryError, Some e)
          | Ok compatible => Some (compatible, ErrorNone, None)
          end
      end
  end.

Definition HasSchema (sr : SchemaRegistry) (subject : bytes) : bool := bool_decide (is_Some (subjectLatest sr !! subject)).

Section ranges.
Context (range_subjects : gmap bytes (gmap Z Schema) -> list (bytes * gmap Z Schema)).
Context (range_versions : gmap Z Schema -> list (Z * Schema)).

Definition ListSubjects (sr : SchemaRegistry) (prefix : bytes) : list bytes :=
  List.filter (fun subject => if bool_decide (prefix = []) then true
                              else bool_decide (length prefix <= length subject)%nat && bool_decide (take (length prefix) subject = prefix))
    (range_subjects (subjectSchemas sr)).*1.

Definition ListVersions (sr : SchemaRegistry) (subject : bytes) : ListVersionsResponse :=
  match subjectSchemas sr !! subject with
  | None => mkVersions [] ErrorSubjectNotFound
  | Some versions => mkVersions (range_versions versions).*1 ErrorNone
  end.

Definition DeleteSubject (sr : SchemaRegistry) (subject : bytes) : DeleteSubjectResponse * SchemaRegistry :=
  match subjectSchemas sr !! subject with
  | None => (mkDeleted [] ErrorSubjectNotFound, sr)
  | Some versions =>
      let entries := range_versions versions in
      (mkDeleted entries.*1 ErrorNone,
       mkRegistry (foldl (fun m e => delete (sc_ID e.2) m) (schemas sr) entries)
         (delete subject (subjectSchemas sr)) (delete subject (subjectLatest sr)) (delete subject (fingerprints sr))
         (globalCompatibility sr) (delete subject (subjectCompatibility sr)) (nextID sr) (validator sr))
  end.
End ranges.

Record RegistryStats := mkStats { TotalSchemas : Z; TotalSubjects : Z }.
Definition Stats (sr : SchemaRegistry) : RegistryStats :=
  mkStats (Z.of_nat (size (schemas sr))) (Z.of_nat (size (subjectSchemas sr))).

(** ** The handler (schema_handler.go) *)

Section handler.
Context (range_members : forall A : Type, list (bytes * A) -> list (bytes * A)).

Definition ValidateMessage (sr : SchemaRegistry) (subject data : bytes) : option schema_error :=
  match subjectLatest sr !! subject with
  | None => None
  | Some latestVersion =>
      match schema_at sr subject latestVersion with
      | None => None
      | Some schema => ValidateData range_members (sc_Format schema) (sc_Definition schema) data
      end
  end.

Definition validateMessage (sr : SchemaRegistry) (idx : nat) (msg : ProtoMessage) (valueSubject keySubject : bytes)
  (hasValueSchema hasKeySchema : bool) : option schema_error :=
  match (if hasValueSchema then ValidateMessage sr valueSubject (pm_Value msg) else None) with
  | Some e => Some (InValue idx e)
  | None => if hasKeySchema && negb (bool_decide (pm_Key msg = [])) then InKey idx <$> ValidateMessage sr keySubject (pm_Key msg) else None
  end.

(** The loop over the messages, the first of which has the index [i]. *)
Fixpoint validate_messages (sr : SchemaRegistry) (i : nat) (msgs : list ProtoMessage) (valueSubject keySubject : bytes)
  (hasValueSchema hasKeySchema : bool) : option schema_error :=
  match msgs with
  | [] => None
  | msg :: msgs =>
      match validateMessage sr i msg valueSubject keySubject hasValueSchema hasKeySchema with
      | Some e => Some e
      | None => validate_messages sr (S i) msgs valueSubject keySubject hasValueSchema hasKeySchema
      end
  end.

(** [None] is the failed assertion on a payload that is not a produce request. *)
Definition validateProduceRequest (sr : SchemaRegistry) (req : Request) : option (option schema_error) :=
  match rq_Payload req with
  | QProduce payload =>
      let valueSubject := prq_Topic payload ++ text "-value" in
      let keySubject := prq_Topic payload ++ text "-key" in
      let hasValueSchema := HasSchema sr valueSubject in
      let hasKeySchema := HasSchema sr keySubject in
      if negb hasValueSchema && negb hasKeySchema then Some None
      else Some (validate_messages sr 0 (prq_Messages payload) valueSubject keySubject hasValueSchema hasKeySchema)
  | _ => None
  end.

Context (error_text : schema_error -> bytes).

Definition ErrSchemaValidationFailed : Z := 60.

Definition schemaErrorResponse (requestID : Z) (err : schema_error) : Response :=
  mkResponse (mkRespHeader requestID StatusError ErrSchemaValidationFailed)
    (SError (mkErrorResponse ErrSchemaValidationFailed (error_text err))).

Context {B : Type}.
(** The wrapped handler; [None] is a nil response. *)
Context (base : Z -> B -> Request -> option Response * B).

Record SchemaHandler := mkSchemaHandler {
  ch_baseHandler : B;
  ch_schemaRegistry : option SchemaRegistry;
  ch_enabled : bool;
  ch_requestsHandled : Z;
  ch_validationFailures : Z
}.

Definition NewSchemaHandler (b : B) (registry : option SchemaRegistry) (enabled : bool) : SchemaHandler :=
  mkSchemaHandler b registry enabled 0 0.

Definition Schema_Handle (now : Z) (h : SchemaHandler) (req : Request) : option (option Response * SchemaHandler) :=
  let handled := wraps 64 (ch_requestsHandled h + 1) in
  let pass :=
    let '(resp, b) := base now (ch_baseHandler h) req in
    Some (resp, mkSchemaHandler b (ch_schemaRegistry h) (ch_enabled h) handled (ch_validationFailures h)) in
  match ch_enabled h, ch_schemaRegistry h with
  | true, Some sr =>
      if negb (rh_Type (rq_Header req) =? RequestTypeProduce) then pass
      else
        err ← validateProduceRequest sr req;
        match err with
        | Some e =>
            Some (Some (schemaErrorResponse (rh_RequestID (rq_Header req)) e),
                  mkSchemaHandler (ch_baseHandler h) (ch_schemaRegistry h) true handled (wraps 64 (ch_validationFailures h + 1)))
        | None => pass
        end
  | _, _ => pass
  end.
End handler.
Arguments SchemaHandler : clear implicits.
Arguments mkSchemaHandler {B}.
Arguments ch_baseHandler {B}.
Arguments ch_schemaRegistry {B}.
Arguments ch_enabled {B}.
Arguments ch_requestsHandled {B}.
Arguments ch_validationFailures {B}.

End Schema.
