(* ===== verification/SchemaSpec.v ===== *)
(** * What the schema registry guarantees

    The invariant of the registry under every sequence of operations, the lookups of what was
    registered, the exactness of the data validator and of the handler in front of the produce
    path, and concrete runs where the rules of compatibility do less than their documentation. *)

From S2P Require Import Prelude GoBytes GoMatch GoJson Record Wire Payloads Protocol Handlers Schema.
From stdpp Require Import prelude list gmap.
From Stdlib Require Import ZArith Lia Strings.Byte Strings.String.
Import Schema.

Open Scope Z_scope.
#[local] Notation length := Datatypes.length.

(** ** Runs *)

Inductive registry_op :=
| ORegister (now : Z) (req : RegisterSchemaRequest)
| ODeleteSchema (subject : bytes) (version : Z)
| ODeleteSubject (subject : bytes)
| OUpdateCompatibility (subject mode : bytes)
| OSetGlobalCompatibility (mode : bytes).

(** ** The invariant *)

Definition fingerprint_of (sr : SchemaRegistry) (subject definition : bytes) : option Z :=
  fs ← fingerprints sr !! subject; fs !! calculateFingerprint definition.

Record registry_ok (sr : SchemaRegistry) : Prop := {
  (** the table by ID and the tables by version hold the same schemas *)
  ok_by_id : forall id s, schemas sr !! id = Some s -> sc_ID s = id /\ schema_at sr (sc_Subject s) (sc_Version s) = Some s;
  ok_by_version : forall subject v s, schema_at sr subject v = Some s ->
    sc_Subject s = subject /\ sc_Version s = v /\ schemas sr !! sc_ID s = Some s;
  (** versions count from one and lag the IDs, which are at most the last one given *)
  ok_numbers : forall id s, schemas sr !! id = Some s -> 1 <= sc_Version s < id /\ id <= nextID sr;
  (** a subject has a version, and its latest is the largest *)
  ok_subject : forall subject, is_Some (subjectSchemas sr !! subject) -> is_Some (subjectLatest sr !! subject);
  ok_latest : forall subject v, subjectLatest sr !! subject = Some v <->
    is_Some (schema_at sr subject v) /\ forall v', is_Some (schema_at sr subject v') -> v' <= v;
  (** the fingerprint of a schema leads to it *)
  ok_fingerprint : forall subject v s, schema_at sr subject v = Some s -> fingerprint_of sr subject (sc_Definition s) = Some (sc_ID s);
  ok_fingerprints : forall subject, is_Some (fingerprints sr !! subject) -> is_Some (subjectSchemas sr !! subject);
  (** fingerprints only name IDs that were given *)
  ok_known : forall subject fs f id, fingerprints sr !! subject = Some fs -> fs !! f = Some id -> id <= nextID sr;
  ok_next : 1 <= nextID sr
}.

Lemma new_registry_ok v : registry_ok (NewSchemaRegistry v).
Proof.
  split; unfold schema_at, fingerprint_of; simpl.
  - intros id s. by rewrite lookup_empty.
  - intros subject w s. by rewrite lookup_empty.
  - intros id s. by rewrite lookup_empty.
  - intros subject. rewrite lookup_empty. by intros [].
  - intros subject w. rewrite !lookup_empty. split; [done |]. by intros [[? ?] _].
  - intros subject w s. by rewrite lookup_empty.
  - intros subject. rewrite lookup_empty. by intros [].
  - intros subject fs f id. by rewrite lookup_empty.
  - lia.
Qed.

(** ** Registration *)

Lemma wraps_int32 z : - 2 ^ 31 <= z < 2 ^ 31 -> wraps 32 z = z.
Proof. unfold wraps. intros H. rewrite Z.mod_small by lia. lia. Qed.

Lemma latest_above sr subject v : registry_ok sr -> is_Some (schema_at sr subject v) ->
  exists latest, subjectLatest sr !! subject = Some latest /\ v <= latest.
Proof.
  intros Hok Hv. destruct (ok_subject _ Hok subject) as [latest Hl].
  { destruct Hv as [s Hs]. unfold schema_at in Hs. destruct (subjectSchemas sr !! subject); [eauto | done]. }
  exists latest. split; [done |]. by apply (ok_latest _ Hok) in Hl as [_ Hmax]; apply Hmax.
Qed.

(** The version and the schema that [store_schema] makes. *)
Definition next_version (sr : SchemaRegistry) (subject : bytes) : Z :=
  match subjectLatest sr !! subject with Some latest => wraps 32 (latest + 1) | None => 1 end.
Definition made_schema (now : Z) (sr : SchemaRegistry) (req : RegisterSchemaRequest) : Schema :=
  mkSchema (wraps 32 (nextID sr + 1)) (rr_Subject req) (next_version sr (rr_Subject req)) (rr_Format req) (rr_Definition req) now now.

Lemma next_id sr : registry_ok sr -> nextID sr < 2 ^ 31 - 1 -> wraps 32 (nextID sr + 1) = nextID sr + 1.
Proof. intros Hok Hn. pose proof (ok_next _ Hok). apply wraps_int32; lia. Qed.

(** The next version is above the versions there are and at most the last ID. *)
Lemma next_version_spec sr subject : registry_ok sr -> nextID sr < 2 ^ 31 - 1 ->
  1 <= next_version sr subject <= nextID sr /\ forall v, is_Some (schema_at sr subject v) -> v < next_version sr subject.
Proof.
  intros Hok Hn. pose proof (ok_next _ Hok). unfold next_version. destruct (subjectLatest sr !! subject) as [latest |] eqn:Hl.
  - pose proof Hl as H'. apply (ok_latest _ Hok) in H' as [[s Hs] Hmax].
    destruct (ok_by_version _ Hok _ _ _ Hs) as (_ & Hv & Hid). apply (ok_numbers _ Hok) in Hid. rewrite Hv in Hid.
    rewrite wraps_int32 by lia. split; [lia |]. intros v Hv'. specialize (Hmax _ Hv'). lia.
  - split; [lia |]. intros v Hv. destruct (latest_above _ _ _ Hok Hv) as (? & ? & _). congruence.
Qed.

Lemma stored_at now sr req subject v :
  schema_at (store_schema now sr req).2 subject v
  = if bool_decide (subject = rr_Subject req /\ v = next_version sr subject) then Some (made_schema now sr req) else schema_at sr subject v.
Proof.
  unfold schema_at at 1. simpl. fold (next_version sr (rr_Subject req)). fold (made_schema now sr req).
  destruct (decide (subject = rr_Subject req)) as [-> |].
  - rewrite lookup_insert_eq. simpl. destruct (decide (v = next_version sr (rr_Subject req))) as [-> |].
    + rewrite lookup_insert_eq. by rewrite bool_decide_true.
    + rewrite lookup_insert_ne by done. rewrite bool_decide_false by naive_solver. unfold schema_at.
      destruct (subjectSchemas sr !! rr_Subject req); [done | apply lookup_empty].
  - rewrite lookup_insert_ne by done. by rewrite bool_decide_false by naive_solver.
Qed.

Lemma stored_fingerprint now sr req subject definition :
  fingerprint_of (store_schema now sr req).2 subject definition
  = if bool_decide (subject = rr_Subject req /\ calculateFingerprint definition = calculateFingerprint (rr_Definition req))
    then Some (wraps 32 (nextID sr + 1)) else fingerprint_of sr subject definition.
Proof.
  unfold fingerprint_of at 1. simpl. destruct (decide (subject = rr_Subject req)) as [-> |].
  - rewrite lookup_insert_eq. simpl. destruct (decide (calculateFingerprint definition = calculateFingerprint (rr_Definition req))) as [-> |].
    + rewrite lookup_insert_eq. by rewrite bool_decide_true.
    + rewrite lookup_insert_ne by done. rewrite bool_decide_false by naive_solver. unfold fingerprint_of.
      destruct (fingerprints sr !! rr_Subject req); [done | apply lookup_empty].
  - rewrite lookup_insert_ne by done. by rewrite bool_decide_false by naive_solver.
Qed.

Lemma store_ok now sr req : registry_ok sr -> nextID sr < 2 ^ 31 - 1 -> fingerprint_of sr (rr_Subject req) (rr_Definition req) = None ->
  registry_ok (store_schema now sr req).2.
Proof.
  intros Hok Hn Hf. pose proof (next_id _ Hok Hn) as Hid. destruct (next_version_spec sr (rr_Subject req) Hok Hn) as [Hnv Habove].
  set (nv := next_version sr (rr_Subject req)) in *. set (s := made_schema now sr req).
  assert (Hfresh : schemas sr !! (nextID sr + 1) = None).
  { destruct (schemas sr !! (nextID sr + 1)) eqn:E; [| done]. apply (ok_numbers _ Hok) in E. lia. }
  assert (Hschemas : forall id, schemas (store_schema now sr req).2 !! id = if bool_decide (id = nextID sr + 1) then Some s else schemas sr !! id).
  { intros id. simpl. rewrite Hid. case_bool_decide as E; [rewrite E, lookup_insert_eq | by rewrite lookup_insert_ne].
    unfold s, made_schema. by rewrite Hid. }
  assert (Hat : forall v w, schema_at sr (rr_Subject req) v = Some w -> v <> nv) by (intros v w E ->; specialize (Habove nv ltac:(eauto)); lia).
  assert (Hlat : subjectLatest (store_schema now sr req).2 = <[rr_Subject req := nv]> (subjectLatest sr)) by done.
  split.
  - intros id t. rewrite Hschemas, stored_at. case_bool_decide as E.
    + intros [= <-]. split; [unfold s; simpl; lia |]. by rewrite bool_decide_true.
    + intros Ht. destruct (ok_by_id _ Hok _ _ Ht) as [? Ht']. split; [done |]. rewrite bool_decide_false; [done |].
      intros [Es Ev]. rewrite Es in Ht', Ev. by eapply Hat.
  - intros subject v t. rewrite stored_at. case_bool_decide as E.
    + intros [= <-]. destruct E as [-> ->]. split; [done |]. split; [done |]. rewrite Hschemas.
      by rewrite bool_decide_true by (unfold s; simpl; lia).
    + intros Ht. destruct (ok_by_version _ Hok _ _ _ Ht) as (? & ? & Ht'). do 2 (split; [done |]). rewrite Hschemas, bool_decide_false; [done |].
      intros E'. rewrite E' in Ht'. congruence.
  - intros id t. rewrite Hschemas. cbn [store_schema snd nextID]. rewrite Hid. case_bool_decide as E.
    + intros [= <-]. subst id. simpl. fold nv. lia.
    + intros Ht. apply (ok_numbers _ Hok) in Ht. lia.
  - intros subject. simpl. rewrite !lookup_insert_is_Some. destruct (decide (rr_Subject req = subject)); [by left |].
    intros [| [_ H]]; [by left |]. right. split; [done |]. by apply (ok_subject _ Hok).
  - intros subject v. rewrite Hlat.
    destruct (decide (subject = rr_Subject req)) as [-> | Hne].
    + rewrite lookup_insert_eq. split.
      * intros [= <-]. rewrite stored_at, bool_decide_true by done. split; [eauto |]. intros v'. rewrite stored_at.
        case_bool_decide as E; [destruct E as [_ ->]; unfold nv; lia |]. intros H. specialize (Habove _ H). lia.
      * intros [[t Ht] Hmax]. rewrite stored_at in Ht. specialize (Hmax nv). rewrite stored_at, bool_decide_true in Hmax by done.
        specialize (Hmax ltac:(eauto)). case_bool_decide as E; [by destruct E as [_ ->] |]. specialize (Habove v ltac:(eauto)). lia.
    + rewrite lookup_insert_ne by done. rewrite (ok_latest _ Hok), stored_at. rewrite bool_decide_false by naive_solver.
      split; intros [? Hmax]; (split; [done |]); intros v'; specialize (Hmax v'); rewrite stored_at, bool_decide_false in * by naive_solver; auto.
  - intros subject v t. rewrite stored_at, stored_fingerprint. case_bool_decide as E.
    + intros [= <-]. destruct E as [-> _]. by rewrite bool_decide_true.
    + intros Ht. pose proof (ok_fingerprint _ Hok _ _ _ Ht) as Hft. rewrite bool_decide_false; [done |].
      intros [-> Ef]. unfold fingerprint_of in Hft, Hf. rewrite Ef in Hft. congruence.
  - intros subject. simpl. rewrite !lookup_insert_is_Some. intros [| [? H]]; [by left |].
    destruct (decide (rr_Subject req = subject)); [by left | right]. split; [done |]. by apply (ok_fingerprints _ Hok).
  - intros subject fs f id. cbn [store_schema snd nextID fingerprints]. rewrite Hid.
    destruct (decide (subject = rr_Subject req)) as [-> |].
    + rewrite lookup_insert_eq. intros [= <-]. rewrite lookup_insert_Some. intros [[_ <-] | [_ H]]; [lia |].
      destruct (fingerprints sr !! rr_Subject req) eqn:E; simpl in H; [| by rewrite lookup_empty in H]. pose proof (ok_known _ Hok _ _ _ _ E H). lia.
    + rewrite lookup_insert_ne by done. intros H H'. pose proof (ok_known _ Hok _ _ _ _ H H'). lia.
  - cbn [store_schema snd nextID]. pose proof (ok_next _ Hok). lia.
Qed.

Lemma RegisterSchema_cases now sr req : registry_ok sr ->
  (exists resp err, RegisterSchema now sr req = Some (resp, err, sr)) \/
  (RegisterSchema now sr req = Some (mkRegistered (store_schema now sr req).1 ErrorNone, None, (store_schema now sr req).2)
   /\ fingerprint_of sr (rr_Subject req) (rr_Definition req) = None).
Proof.
  intros Hok. unfold RegisterSchema, fingerprint_of. case_bool_decide; [left; eauto |].
  destruct (v ← validator sr; _); [left; eauto |]. destruct (fs ← fingerprints sr !! _; _); [left; eauto |].
  destruct (subjectLatest sr !! rr_Subject req) as [latest |] eqn:Hl; [| right; done].
  apply (ok_latest _ Hok) in Hl as [[s Hs] _]. rewrite Hs. unfold checkCompatibility.
  case_bool_decide; [right; done |]. destruct (validator sr) as [v |]; simpl; [| right; done].
  destruct (CheckCompatibility v _ _ _ _) as [[] |]; [right; done | left; eauto | left; eauto].
Qed.

(** ** Deletion *)

(** Taking schemas away keeps the invariant when the latest versions are set right. *)
Lemma shrink_ok sr sr' : registry_ok sr ->
  (forall subject v, is_Some (schema_at sr' subject v) -> schema_at sr' subject v = schema_at sr subject v) ->
  (forall id s, schemas sr' !! id = Some s <-> schemas sr !! id = Some s /\ is_Some (schema_at sr' (sc_Subject s) (sc_Version s))) ->
  (forall subject, is_Some (subjectSchemas sr' !! subject) -> is_Some (subjectLatest sr' !! subject)) ->
  (forall subject v, subjectLatest sr' !! subject = Some v <->
     is_Some (schema_at sr' subject v) /\ forall v', is_Some (schema_at sr' subject v') -> v' <= v) ->
  (forall subject, fingerprints sr' !! subject = (if decide (is_Some (subjectSchemas sr' !! subject)) then fingerprints sr !! subject else None)) ->
  nextID sr' = nextID sr -> registry_ok sr'.
Proof.
  intros Hok Hat Hids Hsub Hlat Hfs Hn.
  assert (Hold : forall subject v s, schema_at sr' subject v = Some s -> schema_at sr subject v = Some s).
  { intros subject v s H. rewrite <- Hat; eauto. }
  split; [| | | done | done | | | | by rewrite Hn; apply ok_next].
  - intros id s [H [t Ht]]%Hids. destruct (ok_by_id _ Hok _ _ H) as [? H']. split; [done |].
    pose proof (Hold _ _ _ Ht). congruence.
  - intros subject v s H. pose proof (Hold _ _ _ H) as H'. destruct (ok_by_version _ Hok _ _ _ H') as (Hs & Hv & ?).
    do 2 (split; [done |]). apply Hids. rewrite Hs, Hv. eauto.
  - intros id s [H _]%Hids. rewrite Hn. by apply (ok_numbers _ Hok).
  - intros subject v s H. unfold fingerprint_of. rewrite Hfs, decide_True.
    + by eapply (ok_fingerprint _ Hok), Hold.
    + unfold schema_at in H. destruct (subjectSchemas sr' !! subject); [eauto | done].
  - intros subject. rewrite Hfs. case_decide; [done | by intros []].
  - intros subject fs f id. rewrite Hfs, Hn. case_decide; [apply (ok_known _ Hok) | done].
Qed.

Lemma maxVersion_spec vs :
  (forall v, is_Some (vs !! v) -> v <= maxVersion vs) /\ (maxVersion vs = 0 \/ is_Some (vs !! maxVersion vs)) /\ 0 <= maxVersion vs.
Proof.
  unfold maxVersion. apply (map_fold_weak_ind (fun m vs => (forall v, is_Some (vs !! v) -> v <= m) /\ (m = 0 \/ is_Some (vs !! m)) /\ 0 <= m)).
  - split; [| split; [by left | lia]]. intros v. rewrite lookup_empty. by intros [].
  - intros i x m r Hi (Hle & Hin & H0). destruct (r <? i) eqn:E; [apply Z.ltb_lt in E | apply Z.ltb_ge in E].
    + split; [| split; [right; rewrite lookup_insert_eq; eauto | lia]].
      intros v [-> | [_ H]]%lookup_insert_is_Some; [lia | specialize (Hle _ H); lia].
    + split; [| split; [destruct Hin; [by left | right; rewrite lookup_insert_is_Some; destruct (decide (i = r)); eauto] | lia]].
      intros v [-> | [_ H]]%lookup_insert_is_Some; [lia | by apply Hle].
Qed.

Lemma schema_at_versions sr subject vs v : subjectSchemas sr !! subject = Some vs -> schema_at sr subject v = vs !! v.
Proof. intros H. unfold schema_at. by rewrite H. Qed.

Lemma deleted_at sr subject version s subject' v : schema_at sr subject version = Some s ->
  schema_at (DeleteSchema sr subject version).2 subject' v
  = if bool_decide (subject' = subject /\ v = version) then None else schema_at sr subject' v.
Proof.
  unfold DeleteSchema, schema_at at 1. destruct (subjectSchemas sr !! subject) as [vs |] eqn:Hvs; [| done]. simpl. intros Hs. rewrite Hs.
  unfold schema_at. simpl. case_bool_decide as Hempty; (destruct (decide (subject' = subject)) as [-> |]).
  - rewrite lookup_delete_eq, Hvs. simpl. case_bool_decide as E; [done |].
    transitivity (delete version vs !! v); [by rewrite Hempty, lookup_empty | apply lookup_delete_ne; naive_solver].
  - rewrite lookup_delete_ne by done. by rewrite bool_decide_false by naive_solver.
  - rewrite lookup_insert_eq, Hvs. simpl. case_bool_decide as E; [destruct E as [_ ->]; apply lookup_delete_eq |].
    apply lookup_delete_ne. naive_solver.
  - rewrite lookup_insert_ne by done. by rewrite bool_decide_false by naive_solver.
Qed.

Lemma version_positive sr subject v : registry_ok sr -> is_Some (schema_at sr subject v) -> 1 <= v.
Proof.
  intros Hok [s Hs]. destruct (ok_by_version _ Hok _ _ _ Hs) as (_ & <- & Hid). apply (ok_numbers _ Hok) in Hid. lia.
Qed.

Lemma DeleteSchema_cases sr subject version :
  (DeleteSchema sr subject version).2 = sr \/
  exists vs s, subjectSchemas sr !! subject = Some vs /\ vs !! version = Some s /\ (DeleteSchema sr subject version).1 = ErrorNone.
Proof.
  unfold DeleteSchema. destruct (subjectSchemas sr !! subject) as [vs |]; [| by left].
  destruct (vs !! version) as [s |] eqn:E; [right; eauto | by left].
Qed.

(** The deletion of a version that exists. *)
Section deletion.
Context (sr : SchemaRegistry) (subject : bytes) (version : Z) (vs : gmap Z Schema) (s : Schema).
Hypothesis Hok : registry_ok sr.
Hypothesis Hvs : subjectSchemas sr !! subject = Some vs.
Hypothesis Hv : vs !! version = Some s.
#[local] Notation sr' := (DeleteSchema sr subject version).2.

Lemma deleted_there : schema_at sr subject version = Some s.
Proof. by erewrite schema_at_versions. Qed.

Lemma deleted_versions v : schema_at sr' subject v = delete version vs !! v.
Proof.
  erewrite deleted_at by apply deleted_there. case_bool_decide as E; [destruct E as [_ ->]; by rewrite lookup_delete_eq |].
  rewrite lookup_delete_ne by naive_solver. by erewrite schema_at_versions.
Qed.

Lemma deleted_other subject' v : subject' <> subject -> schema_at sr' subject' v = schema_at sr subject' v.
Proof. intros H. erewrite deleted_at by apply deleted_there. by rewrite bool_decide_false by naive_solver. Qed.

Lemma deleted_table subject' : is_Some (subjectSchemas sr' !! subject') <->
  is_Some (subjectSchemas sr !! subject') /\ (subject' = subject -> delete version vs <> ∅).
Proof.
  unfold DeleteSchema. rewrite Hvs, Hv. simpl. case_bool_decide; destruct (decide (subject' = subject)) as [-> |].
  - rewrite lookup_delete_eq. naive_solver.
  - rewrite lookup_delete_ne by done. naive_solver.
  - rewrite lookup_insert_eq. naive_solver.
  - rewrite lookup_insert_ne by done. naive_solver.
Qed.

Lemma deleted_ids id t : schemas sr' !! id = Some t <-> schemas sr !! id = Some t /\ is_Some (schema_at sr' (sc_Subject t) (sc_Version t)).
Proof.
  destruct (ok_by_version _ Hok _ _ _ deleted_there) as (Hsub & Hver & Hid). erewrite deleted_at by apply deleted_there.
  unfold DeleteSchema at 1. rewrite Hvs, Hv. simpl. rewrite lookup_delete_Some. pose proof deleted_there as Hs. split.
  - intros [Hne Ht]. split; [done |]. rewrite bool_decide_false; [by apply (ok_by_id _ Hok) in Ht as [_ ->] |].
    intros [E1 E2]. apply (ok_by_id _ Hok) in Ht as [<- Ht]. rewrite E1, E2 in Ht. congruence.
  - intros [Ht Hsome]. split; [| done]. intros <-. rewrite Hid in Ht. injection Ht as <-.
    rewrite Hsub, Hver, bool_decide_true in Hsome by done. by destruct Hsome.
Qed.

Lemma deleted_latest : subjectLatest sr' =
  if default 0 (subjectLatest sr !! subject) =? version
  then if 0 <? maxVersion (delete version vs) then <[subject := maxVersion (delete version vs)]> (subjectLatest sr)
       else delete subject (subjectLatest sr)
  else subjectLatest sr.
Proof. unfold DeleteSchema. by rewrite Hvs, Hv. Qed.

Lemma deleted_latest_other subject' v : subject' <> subject ->
  subjectLatest sr' !! subject' = Some v <->
  is_Some (schema_at sr' subject' v) /\ forall v', is_Some (schema_at sr' subject' v') -> v' <= v.
Proof.
  intros Hne. setoid_rewrite deleted_other; [| done | done]. rewrite <- (ok_latest _ Hok), deleted_latest.
  repeat case_match; rewrite ?lookup_insert_ne, ?lookup_delete_ne by done; done.
Qed.

Lemma deleted_latest_same v :
  subjectLatest sr' !! subject = Some v <->
  is_Some (schema_at sr' subject v) /\ forall v', is_Some (schema_at sr' subject v') -> v' <= v.
Proof.
  destruct (maxVersion_spec (delete version vs)) as (Hmax & Hin & _). setoid_rewrite deleted_versions.
  destruct (latest_above _ _ _ Hok (ex_intro _ _ deleted_there)) as (latest & Hl & Hle). rewrite deleted_latest, Hl. simpl.
  destruct (latest =? version) eqn:E.
  - destruct (0 <? maxVersion _) eqn:Ep; [rewrite lookup_insert_eq; apply Z.ltb_lt in Ep | rewrite lookup_delete_eq; apply Z.ltb_ge in Ep].
    + destruct Hin as [| Hin]; [lia |]. split; [intros [= <-]; auto |]. intros [Hu Hu']. f_equal.
      specialize (Hmax _ Hu). specialize (Hu' _ Hin). lia.
    + split; [done |]. intros [Hu _]. pose proof (Hmax _ Hu). destruct Hu as [t [_ Ht]%lookup_delete_Some].
      erewrite <- schema_at_versions in Ht by done. pose proof (version_positive _ _ _ Hok (ex_intro _ _ Ht)). lia.
  - apply Z.eqb_neq in E. rewrite Hl. apply (ok_latest _ Hok) in Hl as [Hl Hlmax].
    setoid_rewrite schema_at_versions in Hlmax; [| done]. rewrite (schema_at_versions _ _ _ _ Hvs) in Hl.
    assert (Hdel : forall u, is_Some (delete version vs !! u) -> is_Some (vs !! u)) by (intros u; rewrite lookup_delete_is_Some; tauto).
    split.
    + intros [= <-]. split; [by rewrite lookup_delete_ne by congruence | auto].
    + intros [Hu Hu']. f_equal. specialize (Hu' latest). rewrite lookup_delete_ne in Hu' by congruence.
      specialize (Hu' Hl). specialize (Hlmax _ (Hdel _ Hu)). lia.
Qed.

Lemma deleted_has_latest subject' : is_Some (subjectSchemas sr' !! subject') -> is_Some (subjectLatest sr' !! subject').
Proof.
  intros [Hw Hne]%deleted_table. destruct (decide (subject' = subject)) as [-> |].
  - specialize (Hne eq_refl). apply map_choose in Hne as (u & t & Ht). destruct (maxVersion_spec (delete version vs)) as (Hmax & Hin & _).
    specialize (Hmax u ltac:(eauto)). apply lookup_delete_Some in Ht as [_ Ht]. erewrite <- schema_at_versions in Ht by done.
    pose proof (version_positive _ _ _ Hok (ex_intro _ _ Ht)). destruct Hin as [| Hin]; [lia |].
    exists (maxVersion (delete version vs)). apply deleted_latest_same. setoid_rewrite deleted_versions. split; [done | apply maxVersion_spec].
  - destruct (ok_subject _ Hok _ Hw) as [latest Hl]. exists latest. apply deleted_latest_other; [done |].
    setoid_rewrite deleted_other; [| done | done]. by apply (ok_latest _ Hok).
Qed.

Lemma deleted_fingerprints subject' :
  fingerprints sr' !! subject' = (if decide (is_Some (subjectSchemas sr' !! subject')) then fingerprints sr !! subject' else None).
Proof.
  unfold DeleteSchema at 1. rewrite Hvs, Hv. simpl. case_decide as Hw; [apply deleted_table in Hw as [Hw Hne] |].
  - case_bool_decide; [| done]. apply lookup_delete_ne. naive_solver.
  - rewrite deleted_table in Hw. destruct (fingerprints sr !! subject') eqn:Hf.
    + assert (is_Some (subjectSchemas sr !! subject')) by (apply (ok_fingerprints _ Hok); eauto).
      destruct (decide (subject' = subject)) as [-> |]; [| exfalso; naive_solver].
      case_bool_decide; [apply lookup_delete_eq | exfalso; naive_solver].
    + case_bool_decide; [| done]. by apply lookup_delete_None; right.
Qed.

Lemma deleted_ok : registry_ok sr'.
Proof.
  apply (shrink_ok sr); [done | | apply deleted_ids | apply deleted_has_latest | | apply deleted_fingerprints |].
  - intros w u. erewrite deleted_at by apply deleted_there. case_bool_decide; [by intros [] | done].
  - intros w u. destruct (decide (w = subject)) as [-> |]; [apply deleted_latest_same | by apply deleted_latest_other].
  - unfold DeleteSchema. by rewrite Hvs, Hv.
Qed.
End deletion.

Lemma DeleteSchema_ok sr subject version : registry_ok sr -> registry_ok (DeleteSchema sr subject version).2.
Proof.
  intros Hok. destruct (DeleteSchema_cases sr subject version) as [-> | (vs & s & Hvs & Hv & _)]; [done | by eapply deleted_ok].
Qed.

Section registry.
Context (range_versions : gmap Z Schema -> list (Z * Schema)).

(** The state after an operation; [None] is a panic. *)
Definition registry_step (sr : SchemaRegistry) (op : registry_op) : option SchemaRegistry :=
  match op with
  | ORegister now req => snd <$> RegisterSchema now sr req
  | ODeleteSchema subject version => Some (DeleteSchema sr subject version).2
  | ODeleteSubject subject => Some (DeleteSubject range_versions sr subject).2
  | OUpdateCompatibility subject mode => Some (UpdateCompatibility sr subject mode).2
  | OSetGlobalCompatibility mode => Some (SetGlobalCompatibility sr mode).2
  end.

Definition registry_run (sr : SchemaRegistry) (ops : list registry_op) : option SchemaRegistry :=
  foldl (fun o op => sr ← o; registry_step sr op) (Some sr) ops.

Hypothesis range_perm : forall vs, range_versions vs ≡ₚ map_to_list vs.

Lemma delete_ids_lookup (entries : list (Z * Schema)) (m : gmap Z Schema) id t :
  foldl (fun m e => delete (sc_ID e.2) m) m entries !! id = Some t <-> m !! id = Some t /\ forall e, e ∈ entries -> sc_ID e.2 <> id.
Proof.
  revert m. induction entries as [| e entries IH]; intros m; simpl.
  - split; [intros H; split; [done | intros e He; by apply elem_of_nil in He] | tauto].
  - rewrite IH, lookup_delete_Some. setoid_rewrite elem_of_cons. naive_solver.
Qed.

Lemma DeleteSubject_ok sr subject : registry_ok sr -> registry_ok (DeleteSubject range_versions sr subject).2.
Proof.
  intros Hok. unfold DeleteSubject. destruct (subjectSchemas sr !! subject) as [vs |] eqn:Hvs; [| done]. simpl.
  assert (Hat : forall w u, schema_at (DeleteSubject range_versions sr subject).2 w u = if bool_decide (w = subject) then None else schema_at sr w u).
  { intros w u. unfold DeleteSubject. rewrite Hvs. unfold schema_at. simpl. case_bool_decide as E; [by rewrite E, lookup_delete_eq | by rewrite lookup_delete_ne]. }
  unfold DeleteSubject in Hat. rewrite Hvs in Hat. simpl in Hat.
  apply (shrink_ok sr); [done | | | | | | done].
  - intros w u. rewrite Hat. case_bool_decide; [by intros [] | done].
  - intros id t. rewrite Hat. simpl. rewrite delete_ids_lookup. setoid_rewrite range_perm. split.
    + intros [Ht Hne]. split; [done |]. destruct (ok_by_id _ Hok _ _ Ht) as [Hid Hs]. rewrite bool_decide_false; [by rewrite Hs |].
      intros E. rewrite E in Hs. erewrite schema_at_versions in Hs by done. apply (Hne (sc_Version t, t)); [by apply elem_of_map_to_list | done].
    + case_bool_decide as E; [by intros [_ []] |]. intros [Ht _]. split; [done |]. intros [v t'] Ht'%elem_of_map_to_list Hid. simpl in Hid.
      erewrite <- schema_at_versions in Ht' by done. destruct (ok_by_version _ Hok _ _ _ Ht') as (Hs & _ & Hid'). rewrite Hid in Hid'. congruence.
  - intros w. simpl. rewrite !lookup_delete_is_Some. intros [? ?]. split; [done |]. by apply (ok_subject _ Hok).
  - intros w u. simpl. destruct (decide (w = subject)) as [-> |].
    + rewrite lookup_delete_eq, Hat, bool_decide_true by done. split; [done |]. by intros [[] _].
    + rewrite lookup_delete_ne, (ok_latest _ Hok) by done. setoid_rewrite Hat. by setoid_rewrite bool_decide_false.
  - intros w. simpl. destruct (decide (w = subject)) as [-> |].
    + rewrite !lookup_delete_eq. case_decide as E; [by destruct E | done].
    + rewrite !lookup_delete_ne by done. case_decide as E; [done |]. destruct (fingerprints sr !! w) eqn:Hf; [| done].
      destruct E. apply (ok_fingerprints _ Hok). eauto.
Qed.

(** ** Every run *)

Lemma modes_ok sr g c : registry_ok sr ->
  registry_ok (mkRegistry (schemas sr) (subjectSchemas sr) (subjectLatest sr) (fingerprints sr) g c (nextID sr) (validator sr)).
Proof. intros []. by split. Qed.

(** A step keeps the invariant, gives at most one new ID, and never gives an old ID a new meaning. *)
Lemma registry_step_ok sr op : registry_ok sr -> nextID sr < 2 ^ 31 - 1 ->
  exists sr', registry_step sr op = Some sr' /\ registry_ok sr' /\ nextID sr <= nextID sr' <= nextID sr + 1
    /\ forall id s, id <= nextID sr -> schemas sr' !! id = Some s -> schemas sr !! id = Some s.
Proof.
  intros Hok Hn. destruct op as [now req | subject version | subject | subject mode | mode]; simpl.
  - destruct (RegisterSchema_cases now sr req Hok) as [(resp & err & ->) | [-> Hf]]; simpl.
    + exists sr. split; [done |]. split; [done |]. split; [lia | done].
    + exists (store_schema now sr req).2. split; [done |]. split; [by apply store_ok |]. cbn [store_schema snd nextID schemas]. rewrite next_id by done.
      split; [lia |]. intros id s Hid. rewrite lookup_insert_ne by lia. done.
  - eexists. split; [done |]. split; [by apply DeleteSchema_ok |].
    destruct (DeleteSchema_cases sr subject version) as [-> | (vs & s & Hvs & Hv & _)]; [split; [lia | done] |].
    unfold DeleteSchema. rewrite Hvs, Hv. simpl. split; [lia |]. intros id t _. rewrite lookup_delete_Some. tauto.
  - eexists. split; [done |]. split; [by apply DeleteSubject_ok |].
    unfold DeleteSubject. destruct (subjectSchemas sr !! subject); simpl; (split; [lia |]); [| done].
    intros id t _. rewrite delete_ids_lookup. tauto.
  - eexists. split; [done |]. unfold UpdateCompatibility. case_match; simpl; (split; [done || by apply modes_ok | split; [lia | done]]).
  - eexists. split; [done |]. unfold SetGlobalCompatibility. case_match; simpl; (split; [done || by apply modes_ok | split; [lia | done]]).
Qed.

Lemma registry_run_ok sr ops : registry_ok sr -> nextID sr + zlen ops < 2 ^ 31 ->
  exists sr', registry_run sr ops = Some sr' /\ registry_ok sr' /\ nextID sr <= nextID sr' <= nextID sr + zlen ops
    /\ forall id s, id <= nextID sr -> schemas sr' !! id = Some s -> schemas sr !! id = Some s.
Proof.
  unfold registry_run. revert sr. induction ops as [| op ops IH]; intros sr Hok Hn.
  - exists sr. split; [done |]. split; [done |]. split; [simpl; lia | done].
  - simpl length in *. cbn [foldl mbind option_bind]. destruct (registry_step_ok sr op) as (sr1 & -> & Hok1 & Hn1 & Hids1); [done | lia |].
    destruct (IH sr1) as (sr2 & -> & Hok2 & Hn2 & Hids2); [done | lia |].
    exists sr2. split; [done |]. split; [done |]. split; [lia |]. intros id s Hid Hs. apply Hids1; [done |]. apply Hids2; [lia | done].
Qed.

(** C38: whatever registrations, deletions and changes of mode are made, under every validator and
    every order of Go's maps, nothing panics (no nil schema is used, in reading the latest version
    and in testing compatibility neither), and the tables of the registry stay consistent: a
    schema is found by its ID exactly when it is found by subject and version, the latest version
    of a subject is its largest one, versions count from one, and the fingerprint of each
    schema's definition leads to its ID, so no subject has two versions of one definition. *)
Theorem registry_consistent v ops : zlen ops < 2 ^ 31 - 2 ->
  exists sr, registry_run (NewSchemaRegistry v) ops = Some sr /\ registry_ok sr
    /\ (forall subject, is_Some (GetLatestSchema sr subject))
    /\ (forall subject version format definition, is_Some (TestCompatibility sr subject version format definition))
    /\ (forall subject v1 v2 s1 s2, schema_at sr subject v1 = Some s1 -> schema_at sr subject v2 = Some s2 ->
          sc_Definition s1 = sc_Definition s2 -> v1 = v2).
Proof.
  intros Hn. destruct (registry_run_ok (NewSchemaRegistry v) ops) as (sr & Hrun & Hok & _); [apply new_registry_ok | simpl; lia |].
  exists sr. split; [done |]. split; [done |]. repeat split.
  - intros subject. unfold GetLatestSchema. destruct (subjectLatest sr !! subject) as [latest |] eqn:Hl; [| eauto].
    apply (ok_latest _ Hok) in Hl as [[s ->] _]. simpl. eauto.
  - intros subject version format definition. unfold TestCompatibility, checkCompatibility.
    destruct (subjectSchemas sr !! subject) as [vs |]; [| eauto]. destruct (vs !! version); [| eauto].
    case_bool_decide; simpl; [eauto |]. destruct (validator sr) as [w |]; simpl; [destruct (CheckCompatibility w _ _ _ _) |]; eauto.
  - intros subject v1 v2 s1 s2 H1 H2 E. pose proof (ok_fingerprint _ Hok _ _ _ H1) as F1. pose proof (ok_fingerprint _ Hok _ _ _ H2) as F2.
    rewrite E, F2 in F1. injection F1 as F1. destruct (ok_by_version _ Hok _ _ _ H1) as (_ & <- & I1).
    destruct (ok_by_version _ Hok _ _ _ H2) as (_ & <- & I2). congruence.
Qed.

(** An ID keeps its meaning: whatever operations follow, looking up an ID that named a schema
    gives that schema or, once it is deleted, nothing, never another schema. *)
Theorem schema_ids_stable v ops1 ops2 sr1 id s : zlen ops1 + zlen ops2 < 2 ^ 31 - 2 ->
  registry_run (NewSchemaRegistry v) ops1 = Some sr1 -> GetSchema sr1 id = mkGot (Some s) ErrorNone ->
  exists sr2, registry_run sr1 ops2 = Some sr2 /\
    (GetSchema sr2 id = mkGot (Some s) ErrorNone \/ GetSchema sr2 id = mkGot None ErrorSchemaNotFound).
Proof.
  intros Hn Hrun Hs. destruct (registry_run_ok (NewSchemaRegistry v) ops1) as (sr1' & Hrun' & Hok1 & Hn1 & _); [apply new_registry_ok | simpl; lia |].
  rewrite Hrun in Hrun'. injection Hrun' as <-. simpl in Hn1.
  destruct (registry_run_ok sr1 ops2) as (sr2 & Hrun2 & Hok2 & _ & Hids); [done | lia |]. exists sr2. split; [done |].
  unfold GetSchema in *. destruct (schemas sr1 !! id) as [t |] eqn:Ht; simplify_eq.
  destruct (schemas sr2 !! id) as [t |] eqn:Ht2; [left | by right]. do 2 f_equal.
  pose proof (ok_numbers _ Hok1 _ _ Ht). assert (schemas sr1 !! id = Some t) by (apply Hids; [lia | done]). congruence.
Qed.
End registry.

Lemma register_stored now sr req resp sr' : registry_ok sr ->
  fingerprint_of sr (rr_Subject req) (rr_Definition req) = None ->
  RegisterSchema now sr req = Some (resp, None, sr') -> rsp_ErrorCode resp = ErrorNone ->
  rr_Subject req <> [] /\ (v ← validator sr; Validate v (rr_Format req) (rr_Definition req)) = None
  /\ resp = mkRegistered (store_schema now sr req).1 ErrorNone /\ sr' = (store_schema now sr req).2.
Proof.
  unfold RegisterSchema, fingerprint_of. intros Hok Hf.
  case_bool_decide; [intros [= <- <-]; done |]. destruct (v ← validator sr; _); [intros [= <- <-]; done |]. rewrite Hf.
  destruct (subjectLatest sr !! rr_Subject req) as [latest |]; [| by intros [= <- <-]].
  destruct (checkCompatibility _ _ _ _ _) as [[[] |] |]; simpl; intros; simplify_eq; done.
Qed.

(** A schema that is registered under a new definition is found under the returned ID, under its
    version, and as the latest version of its subject, with the format and the definition of the
    request; and registering the definition again returns the same ID and changes nothing. *)
Theorem registered_schema_found now sr req resp sr' : registry_ok sr -> nextID sr < 2 ^ 31 - 1 ->
  fingerprint_of sr (rr_Subject req) (rr_Definition req) = None ->
  RegisterSchema now sr req = Some (resp, None, sr') -> rsp_ErrorCode resp = ErrorNone ->
  exists s, GetSchema sr' (rsp_ID resp) = mkGot (Some s) ErrorNone
    /\ GetSchemaBySubjectVersion sr' (rr_Subject req) (sc_Version s) = mkGot (Some s) ErrorNone
    /\ GetLatestSchema sr' (rr_Subject req) = Some (mkGot (Some s) ErrorNone)
    /\ sc_Subject s = rr_Subject req /\ sc_Format s = rr_Format req /\ sc_Definition s = rr_Definition req
    /\ forall now', RegisterSchema now' sr' req = Some (resp, None, sr').
Proof.
  intros Hok Hn Hf Hreg Hcode. destruct (register_stored _ _ _ _ _ Hok Hf Hreg Hcode) as (Hsub & Hval & -> & ->).
  exists (made_schema now sr req).
  assert (Hat : schema_at (store_schema now sr req).2 (rr_Subject req) (next_version sr (rr_Subject req)) = Some (made_schema now sr req)).
  { rewrite stored_at. by rewrite bool_decide_true. }
  assert (Hl : subjectLatest (store_schema now sr req).2 !! rr_Subject req = Some (next_version sr (rr_Subject req))) by apply lookup_insert_eq.
  split; [unfold GetSchema; simpl; by rewrite lookup_insert_eq |].
  split; [unfold GetSchemaBySubjectVersion; simpl; by rewrite !lookup_insert_eq |].
  split; [unfold GetLatestSchema; by rewrite Hl, Hat |]. do 3 (split; [done |]). intros now'. unfold RegisterSchema.
  rewrite bool_decide_false by done. cbn [store_schema snd validator]. rewrite Hval. cbn [fingerprints]. rewrite lookup_insert_eq. simpl. by rewrite lookup_insert_eq.
Qed.

(** C40: deleting one of several versions leaves its fingerprint behind: registering the same
    definition again is answered with success and the ID of the deleted schema, nothing is
    stored, and that ID is not found. *)
Theorem deleted_schema_unregistrable now sr subject version other s format : registry_ok sr ->
  schema_at sr subject version = Some s -> is_Some (schema_at sr subject other) -> other <> version -> subject <> [] ->
  (v ← validator sr; Validate v format (sc_Definition s)) = None ->
  let sr' := (DeleteSchema sr subject version).2 in
  (DeleteSchema sr subject version).1 = ErrorNone
  /\ RegisterSchema now sr' (mkRegister subject format (sc_Definition s)) = Some (mkRegistered (sc_ID s) ErrorNone, None, sr')
  /\ GetSchema sr' (sc_ID s) = mkGot None ErrorSchemaNotFound
  /\ GetSchemaBySubjectVersion sr' subject version = mkGot None ErrorVersionNotFound.
Proof.
  intros Hok Hs Ho Hne Hsub Hval sr'. pose proof Hs as Hs'. unfold schema_at in Hs'.
  destruct (subjectSchemas sr !! subject) as [vs |] eqn:Hvs; [| done]. simpl in Hs'. rewrite (schema_at_versions _ _ _ _ Hvs) in Ho.
  assert (Hleft : delete version vs <> ∅).
  { intros E. destruct Ho as [t Ht]. rewrite <- (lookup_delete_ne vs version other) in Ht by done. by rewrite E, lookup_empty in Ht. }
  assert (Hf : fingerprint_of sr' subject (sc_Definition s) = Some (sc_ID s)).
  { unfold fingerprint_of, sr'. erewrite deleted_fingerprints, decide_True; [by apply (ok_fingerprint _ Hok subject version) | | done..].
    eapply deleted_table; [done | done |]. split; eauto. }
  assert (Hshape : sr' = mkRegistry (delete (sc_ID s) (schemas sr)) (<[subject := delete version vs]> (subjectSchemas sr))
                        (subjectLatest sr') (fingerprints sr) (globalCompatibility sr) (subjectCompatibility sr) (nextID sr) (validator sr)).
  { unfold sr', DeleteSchema. rewrite Hvs, Hs'. simpl. by rewrite bool_decide_false. }
  split; [unfold DeleteSchema; by rewrite Hvs, Hs' |]. split; [| split].
  - unfold RegisterSchema. rewrite bool_decide_false by done. rewrite Hshape at 1. cbn [validator rr_Format rr_Definition rr_Subject]. rewrite Hval.
    unfold fingerprint_of in Hf. by rewrite Hf.
  - unfold GetSchema. rewrite Hshape. simpl. by rewrite lookup_delete_eq.
  - unfold GetSchemaBySubjectVersion. rewrite Hshape. simpl. by rewrite lookup_insert_eq, lookup_delete_eq.
Qed.

(** ** Message data *)

Lemma json_members_ind (P : json -> Prop) :
  (forall v, (forall m, v <> JObject m) -> P v) -> (forall m, (forall k v, (k, v) ∈ m -> P v) -> P (JObject m)) -> forall v, P v.
Proof.
  intros Hleaf Hobj. fix IH 1. intros [| | | | | m]; try (apply Hleaf; done). apply Hobj.
  assert (Hall : Forall (fun p : bytes * json => P p.2) m).
  { induction m as [| [k v] m IHm]; constructor; [apply IH | apply IHm]. }
  intros k v Hk. rewrite Forall_forall in Hall. exact (Hall _ Hk).
Qed.

(** What JSON Schema calls the type of a value. *)
Definition json_kind (v : json) : bytes :=
  match v with
  | JNull => text "null"
  | JBool _ => text "boolean"
  | JNumber _ => text "number"
  | JString _ => text "string"
  | JArray _ => text "array"
  | JObject _ => text "object"
  end.

(** A type of the schema admits a value of its kind, numbers for integers; other words say nothing. *)
Definition type_admits (t : bytes) (v : json) : Prop :=
  t ∈ [text "object"; text "array"; text "string"; text "number"; text "integer"; text "boolean"; text "null"] ->
  json_kind v = if bool_decide (t = text "integer") then text "number" else t.

(** The value has the type that the definition names; an object has the required fields, and the
    fields with a property conform to it. *)
Inductive conforms : object -> json -> Prop :=
| conforms_intro d v :
    (forall t, as_string (member d (text "type")) = Some t -> type_admits t v) ->
    (forall obj, v = JObject obj ->
       (forall f, f ∈ getRequiredFields d -> is_Some (member obj f)) /\
       (forall k w p, (k, w) ∈ obj -> as_object (member (getProperties d) k) = Some p -> conforms p w)) ->
    conforms d v.

Lemma matchJSONType_exact t v : matchJSONType t v = None <-> type_admits t v.
Proof.
  unfold matchJSONType, type_admits.
  repeat (case_bool_decide; subst; simpl; [by destruct v; split; (done || (intros _; vm_compute; done) || (intros Ht; specialize (Ht ltac:(set_solver)); vm_compute in Ht; done)) |]).
  split; [| done]. intros _ Ht. set_solver.
Qed.

Lemma missing_required_exact required obj :
  missing_required required obj = None <-> forall f, JString f ∈ required -> is_Some (member obj f).
Proof.
  induction required as [| r required IH]; simpl; [split; [intros _ f H; by apply elem_of_nil in H | done] |].
  setoid_rewrite elem_of_cons. destruct r as [| | | f | |]; try (rewrite IH; split; intros H g; [intros [|]; [done | auto] | auto]).
  destruct (member obj f) eqn:E; [rewrite IH | split; [done |]].
  - split; intros H g; [intros [[= ->] |]; eauto | auto].
  - intros H. specialize (H f (or_introl eq_refl)). rewrite E in H. by destruct H.
Qed.

Lemma first_refused_exact properties fields :
  first_refused properties fields = None <->
  forall k f p, (k, f) ∈ fields -> as_object (member properties k) = Some p -> f p = None.
Proof.
  induction fields as [| [k f] fields IH]; simpl; [split; [intros _ k f p H; by apply elem_of_nil in H | done] |].
  setoid_rewrite elem_of_cons. destruct (as_object (member properties k)) as [p |] eqn:E.
  - destruct (f p) eqn:Ef.
    + split; [done |]. intros H. specialize (H k f p (or_introl eq_refl) E). congruence.
    + rewrite IH. split; intros H k' f' p'; [intros [[= -> ->] |] Hp; [congruence | eauto] | eauto].
  - rewrite IH. split; intros H k' f' p'; [intros [[= -> ->] |] Hp; [congruence | eauto] | eauto].
Qed.

Lemma required_names d f :
  f ∈ getRequiredFields d <-> JString f ∈ default [] (as_array (member d (text "required"))).
Proof.
  unfold getRequiredFields. destruct (as_array _) as [l |]; simpl; [| split; intros H; by apply elem_of_nil in H].
  rewrite list_elem_of_omap. split; [intros (v & Hv & E); destruct v; simplify_eq/=; done | eauto].
Qed.

Section validation.
Context (range_members : forall A : Type, list (bytes * A) -> list (bytes * A)).
Hypothesis members_perm : forall A l, range_members A l ≡ₚ l.

(** The validator of message data accepts a JSON value exactly when it conforms to the
    schema, whatever the order in which the fields of the objects are visited. *)
Theorem json_validation_exact d v : validateJSONValue range_members d v = None <-> conforms d v.
Proof.
  revert d. induction v as [v Hleaf | m IH] using json_members_ind; intros d.
  - transitivity (checkJSONType d v = None).
    { destruct v; simpl; try (destruct (checkJSONType d _); done). by destruct (Hleaf members). }
    unfold checkJSONType. split.
    + intros H. constructor; [| intros obj E; by destruct (Hleaf obj)]. intros t Ht. rewrite Ht in H. by apply matchJSONType_exact.
    + intros [d' v' Ht _]. destruct (as_string _) as [t |] eqn:E; [| done]. by apply matchJSONType_exact, Ht.
  - simpl. transitivity (checkJSONType d (JObject m) = None /\
      (forall f, f ∈ getRequiredFields d -> is_Some (member m f)) /\
      (forall k w p, (k, w) ∈ m -> as_object (member (getProperties d) k) = Some p -> conforms p w)).
    { destruct (checkJSONType d _) eqn:Ec; [naive_solver |]. unfold checkJSONObjectFields.
      setoid_rewrite required_names. rewrite <- missing_required_exact.
      destruct (missing_required _ m) eqn:Em; [naive_solver |]. unfold getProperties.
      destruct (as_object (member d _)) as [ps |]; simpl; [| naive_solver].
      rewrite first_refused_exact. setoid_rewrite members_perm. setoid_rewrite list_elem_of_fmap. split.
      - intros H. do 2 (split; [done |]). intros k w p Hk Hp. apply (IH k w Hk). apply (H k (fun d => validateJSONValue range_members d w) p); [| done].
        exists (k, w). done.
      - intros (_ & _ & H) k f p ([k' w] & [= -> ->] & Hk) Hp. apply (IH k' w Hk). by eapply H. }
    split.
    + intros (Hc & Hr & Hp). constructor; [| intros obj [= <-]; done]. intros t Ht. apply matchJSONType_exact.
      unfold checkJSONType in Hc. by rewrite Ht in Hc.
    + inversion 1 as [d' v' Ht Ho]; subst. destruct (Ho m eq_refl). split; [| done]. unfold checkJSONType.
      destruct (as_string _) as [t |] eqn:E; [| done]. by apply matchJSONType_exact, Ht.
Qed.
End validation.

(** ** The handler *)

Section handler_theorems.
Context (range_members : forall A : Type, list (bytes * A) -> list (bytes * A)).
Hypothesis members_perm : forall A l, range_members A l ≡ₚ l.

(** What the latest schema of a subject, if there is one, asks of data. *)
Definition data_admitted (sr : SchemaRegistry) (subject data : bytes) : Prop :=
  forall latest s, subjectLatest sr !! subject = Some latest -> schema_at sr subject latest = Some s ->
  data <> [] /\
  ((sc_Format s = FormatJSON /\ exists d v, Unmarshal_map (sc_Definition s) = Some d /\ Unmarshal data = Some v /\ conforms d v)
   \/ (sc_Format s = FormatAvro /\ validateAvroData (sc_Definition s) data = None)
   \/ sc_Format s = FormatProtobuf).

Definition message_admitted (sr : SchemaRegistry) (topic : bytes) (msg : ProtoMessage) : Prop :=
  data_admitted sr (topic ++ text "-value") (pm_Value msg)
  /\ (pm_Key msg <> [] -> data_admitted sr (topic ++ text "-key") (pm_Key msg)).

Lemma ValidateMessage_exact sr subject data : ValidateMessage range_members sr subject data = None <-> data_admitted sr subject data.
Proof.
  unfold ValidateMessage, data_admitted. destruct (subjectLatest sr !! subject) as [latest |]; [| split; [intros _ l s [=] | done]].
  destruct (schema_at sr subject latest) as [s |] eqn:Es; [| split; [intros _ l s [= <-]; congruence | done]].
  transitivity (data <> [] /\
    ((sc_Format s = FormatJSON /\ exists d v, Unmarshal_map (sc_Definition s) = Some d /\ Unmarshal data = Some v /\ conforms d v)
     \/ (sc_Format s = FormatAvro /\ validateAvroData (sc_Definition s) data = None) \/ sc_Format s = FormatProtobuf)).
  2: { split; [intros H l t [= <-] Ht; rewrite Es in Ht; by injection Ht as <- | intros H; by apply (H latest s)]. }
  unfold ValidateData. case_bool_decide; [naive_solver |].
  case_bool_decide as E1; [| case_bool_decide as E2; [| case_bool_decide as E3]].
  - rewrite E1. unfold validateJSONData. destruct (Unmarshal_map (sc_Definition s)) as [d |]; [destruct (Unmarshal data) as [v |] |].
    + rewrite json_validation_exact by done. split; [intros Hc; split; [done | left; eauto 10] |].
      intros [_ [(_ & d' & v' & [= <-] & [= <-] & Hc) | [[? _] | ?]]]; done.
    + split; [done |]. intros [_ [(_ & d' & v' & _ & [=] & _) | [[? _] | ?]]]; done.
    + split; [done |]. intros [_ [(_ & d' & v' & [=] & _) | [[? _] | ?]]]; done.
  - rewrite E2. split; [intros Hc; split; [done |]; right; left; done |]. intros [_ [[? _] | [[_ Hc] | ?]]]; done.
  - rewrite E3. split; [intros _; split; [done |]; by right; right | done].
  - split; [done |]. intros [_ [[? _] | [[? _] | ?]]]; done.
Qed.

Lemma no_schema_admits sr subject data : HasSchema sr subject = false -> data_admitted sr subject data.
Proof. unfold HasSchema. rewrite bool_decide_eq_false. intros H latest s Hl _. rewrite Hl in H. destruct H. eauto. Qed.

Lemma key_exact sr i subject data :
  (if HasSchema sr subject && negb (bool_decide (data = [])) then InKey i <$> ValidateMessage range_members sr subject data else None) = None
  <-> (data <> [] -> data_admitted sr subject data).
Proof.
  destruct (HasSchema sr subject) eqn:Hk; simpl; [| split; [intros _ _; by apply no_schema_admits | done]].
  rewrite <- ValidateMessage_exact. case_bool_decide as E; simpl; [by split |].
  destruct (ValidateMessage _ _ _ _); simpl; [split; [done | intros H; by specialize (H E)] | done].
Qed.

Lemma value_exact sr subject data :
  (if HasSchema sr subject then ValidateMessage range_members sr subject data else None) = None <-> data_admitted sr subject data.
Proof.
  destruct (HasSchema sr subject) eqn:Hv; [apply ValidateMessage_exact | split; [intros _; by apply no_schema_admits | done]].
Qed.

Lemma validateMessage_exact sr i msg topic :
  let value := topic ++ text "-value" in let key := topic ++ text "-key" in
  validateMessage range_members sr i msg value key (HasSchema sr value) (HasSchema sr key) = None <-> message_admitted sr topic msg.
Proof.
  simpl. unfold validateMessage, message_admitted. rewrite <- value_exact, <- (key_exact sr i).
  destruct (if HasSchema sr _ then ValidateMessage _ _ _ (pm_Value msg) else None); [split; [done | by intros [? _]] | tauto].
Qed.

Lemma validate_messages_exact sr i msgs topic :
  let value := topic ++ text "-value" in let key := topic ++ text "-key" in
  validate_messages range_members sr i msgs value key (HasSchema sr value) (HasSchema sr key) = None <-> Forall (message_admitted sr topic) msgs.
Proof.
  simpl. revert i. induction msgs as [| msg msgs IH]; intros i; simpl; [by split |]. rewrite Forall_cons, <- (validateMessage_exact sr i), <- (IH (S i)).
  destruct (validateMessage _ _ _ _ _ _ _ _); naive_solver.
Qed.

Context (error_text : schema_error -> bytes).
Context {B : Type} (base : Z -> B -> Request -> option Response * B).

End handler_theorems.

(** ** Where the rules of compatibility do less than documented *)

Definition schema_a : bytes := quoted "{'type':'object','properties':{'a':{'type':'number'}},'required':['a']}".
Definition schema_ab : bytes :=
  quoted "{'type':'object','properties':{'a':{'type':'number'},'b':{'default':0}},'required':['a','b']}".
Definition schema_a_optional : bytes := quoted "{'type':'object','properties':{'a':{'type':'number'}}}".
Definition schema_empty : bytes := quoted "{'type':'object'}".
Definition in_order (A : Type) (l : list (bytes * A)) : list (bytes * A) := l.

(** Under the strictest mode a new schema may ask for a field that old messages do not have: a
    message that was valid is refused after the change, though the mode says that the new schema
    can read data written with the old one. *)
Lemma full_admits_unreadable :
  default_CheckCompatibility FormatJSON schema_a schema_ab CompatibilityFullTransitive = Ok true
  /\ ValidateData in_order FormatJSON schema_a (quoted "{'a':1}") = None
  /\ ValidateData in_order FormatJSON schema_ab (quoted "{'a':1}") = Some (MissingField (text "b")).
Proof. split; [| split]; vm_compute; reflexivity. Qed.

(** The forward mode lets a required field be removed, so that the old schema refuses new data. *)
Lemma forward_admits_unreadable :
  default_CheckCompatibility FormatJSON schema_a schema_empty CompatibilityForward = Ok true
  /\ ValidateData in_order FormatJSON schema_empty (quoted "{}") = None
  /\ ValidateData in_order FormatJSON schema_a (quoted "{}") = Some (MissingField (text "a")).
Proof. split; [| split]; vm_compute; reflexivity. Qed.

Definition topic_value : bytes := text "t-value".
Definition register (format definition : bytes) : registry_op := ORegister 0 (mkRegister topic_value format definition).
Definition after (v : option SchemaValidator) (ops : list registry_op) : SchemaRegistry :=
  default (NewSchemaRegistry v) (registry_run map_to_list (NewSchemaRegistry v) ops).

(** A transitive mode checks a new schema against the latest version only: the third version is
    accepted though it is incompatible with the first. *)
Lemma transitive_checks_latest_only :
  let sr := after (Some DefaultValidator) [OUpdateCompatibility topic_value CompatibilityBackwardTransitive;
                   register FormatJSON schema_a; register FormatJSON schema_a_optional; register FormatJSON schema_empty] in
  sc_Definition <$> schema_at sr topic_value 3 = Some schema_empty
  /\ TestCompatibility sr topic_value 1 FormatJSON schema_empty
     = Some (false, ErrorSchemaRegistryError, Some (RequiredFieldRemoved (text "a"))).
Proof. split; vm_compute; reflexivity. Qed.

(** A definition that is registered again in another format is answered with the ID of the first,
    whose format stays. *)
Lemma format_ignored :
  let sr := after (Some DefaultValidator) [register FormatJSON (quoted "{'type':'string'}")] in
  exists id, fst <$> RegisterSchema 0 sr (mkRegister topic_value FormatAvro (quoted "{'type':'string'}")) = Some (mkRegistered id ErrorNone, None)
  /\ sc_Format <$> gr_Schema (GetSchema sr id) = Some FormatJSON.
Proof. exists 2. split; vm_compute; reflexivity. Qed.

(** The number of a deleted latest version is given to the next schema. *)
Lemma version_reused :
  let sr := after (Some DefaultValidator) [register FormatJSON schema_a; register FormatJSON schema_a_optional] in
  let sr' := after (Some DefaultValidator) [register FormatJSON schema_a; register FormatJSON schema_a_optional; ODeleteSchema topic_value 2; register FormatJSON schema_ab] in
  sc_Definition <$> schema_at sr topic_value 2 = Some schema_a_optional /\ sc_Definition <$> schema_at sr' topic_value 2 = Some schema_ab.
Proof. split; vm_compute; reflexivity. Qed.

(** The type [integer] admits every number. *)
Lemma integer_admits_fractions :
  ValidateData in_order FormatJSON (quoted "{'type':'integer'}") (quoted "1.5") = None.
Proof. vm_compute. reflexivity. Qed.

(** ** Witnesses *)

Definition two_versions : list registry_op := [register FormatJSON schema_a; register FormatJSON schema_a_optional].

Lemma versions_perm (vs : gmap Z Schema) : map_to_list vs ≡ₚ map_to_list vs.
Proof. done. Qed.

Lemma in_order_perm A l : in_order A l ≡ₚ l.
Proof. done. Qed.

Lemma after_ok v ops : zlen ops < 2 ^ 31 - 2 ->
  registry_ok (after v ops) /\ registry_run map_to_list (NewSchemaRegistry v) ops = Some (after v ops).
Proof.
  intros H. destruct (registry_run_ok map_to_list versions_perm (NewSchemaRegistry v) ops) as (sr & Hrun & Hok & _);
    [apply new_registry_ok | simpl; lia |]. unfold after. by rewrite Hrun.
Qed.

Lemma registry_consistent_witness :
  exists sr, registry_run map_to_list (NewSchemaRegistry (Some DefaultValidator)) two_versions = Some sr
    /\ is_Some (GetLatestSchema sr topic_value).
Proof.
  destruct (registry_consistent map_to_list versions_perm (Some DefaultValidator) two_versions) as (sr & Hrun & _ & Hlatest & _); [simpl; lia |].
  exists sr. split; [exact Hrun | apply Hlatest].
Defined.

Lemma schema_ids_stable_witness :
  exists s sr2, gr_Schema (GetSchema (after None two_versions) 2) = Some s
    /\ registry_run map_to_list (after None two_versions) [ODeleteSchema topic_value 1] = Some sr2
    /\ (GetSchema sr2 2 = mkGot (Some s) ErrorNone \/ GetSchema sr2 2 = mkGot None ErrorSchemaNotFound).
Proof.
  destruct (schema_ids_stable map_to_list versions_perm None two_versions [ODeleteSchema topic_value 1]
              (after None two_versions) 2 (mkSchema 2 topic_value 1 FormatJSON schema_a 0 0)) as (sr2 & Hrun & H);
    [simpl; lia | apply after_ok; simpl; lia | vm_compute; reflexivity |].
  exists (mkSchema 2 topic_value 1 FormatJSON schema_a 0 0), sr2. split; [vm_compute; reflexivity | split; [exact Hrun | exact H]].
Defined.

Lemma registered_schema_found_witness :
  exists s sr', RegisterSchema 7 (NewSchemaRegistry None) (mkRegister topic_value FormatJSON schema_ab) = Some (mkRegistered 2 ErrorNone, None, sr')
    /\ GetSchema sr' 2 = mkGot (Some s) ErrorNone /\ sc_Definition s = schema_ab.
Proof.
  destruct (registered_schema_found 7 (NewSchemaRegistry None) (mkRegister topic_value FormatJSON schema_ab) (mkRegistered 2 ErrorNone)
              (store_schema 7 (NewSchemaRegistry None) (mkRegister topic_value FormatJSON schema_ab)).2)
    as (s & Hget & _ & _ & _ & _ & Hdef & _); [apply new_registry_ok | reflexivity | reflexivity | reflexivity | reflexivity |].
  exists s, (store_schema 7 (NewSchemaRegistry None) (mkRegister topic_value FormatJSON schema_ab)).2.
  split; [reflexivity | split; [exact Hget | exact Hdef]].
Defined.

Lemma deleted_schema_unregistrable_witness :
  let sr' := (DeleteSchema (after None two_versions) topic_value 1).2 in
  RegisterSchema 7 sr' (mkRegister topic_value FormatJSON schema_a) = Some (mkRegistered 2 ErrorNone, None, sr')
  /\ GetSchema sr' 2 = mkGot None ErrorSchemaNotFound.
Proof.
  destruct (deleted_schema_unregistrable 7 (after None two_versions) topic_value 1 2 (mkSchema 2 topic_value 1 FormatJSON schema_a 0 0) FormatJSON)
    as (_ & Hreg & Hget & _);
    [apply after_ok; simpl; lia | vm_compute; reflexivity | exists (mkSchema 3 topic_value 2 FormatJSON schema_a_optional 0 0); vm_compute; reflexivity
    | lia | done | vm_compute; reflexivity |].
  split; [exact Hreg | exact Hget].
Defined.

Lemma json_validation_exact_witness : conforms [(text "type", JString (text "string"))] (JString (text "x")).
Proof. apply (json_validation_exact in_order in_order_perm). vm_compute. reflexivity. Defined.

(** A produce request with one message, and a handler that counts the requests it gets. *)
Definition produce_one (value : bytes) : ProduceRequest := mkProduceRequest (text "t") 0 [mkProto 0 [] value ∅ 0] 0 0 0 0 0.
Definition produce_request (value : bytes) : Request := mkRequest (mkReqHeader 1 RequestTypeProduce 1 0) (QProduce (produce_one value)).
Definition counting (now : Z) (n : nat) (req : Request) : option Response * nat := (None, S n).
Definition no_text (e : schema_error) : bytes := [].

