(* ===== verification/Topics.v ===== *)
(** * Topics and the request handler of a broker (pkg/server/topics.go, handler.go)

    The topic manager keeps the partitions of every topic in memory and each partition's log in a
    directory of its own, [storageDir/topic/partition-n]; a restart reads the directories back.
    The handler serves produce, fetch, offset, topic and health requests on it.

    A path is the list of its components from the root, cleaned as [filepath.Join] does, and the
    disk maps the path of a log's directory to the files of that log ([LogStore]).  The data
    directory is an absolute path.  What the operating system may refuse is a parameter
    ([mkdir_ok], [remove_ok]), as are the texts of its errors and of those of the log.  Two
    directories with one log each are independent; topics whose names are cleaned to one and the
    same directory share files in the code, which the model does not follow. *)

From S2P Require Import Prelude GoBytes GoMatch GoJson Record MemTable Wal WalSpec Compaction Log LogSpec LogIface Wire Payloads Protocol Txn Partition Handlers.
From stdpp Require Import prelude list sorting gmap.
From Stdlib Require Import ZArith Lia Strings.Byte Strings.String.

Open Scope Z_scope.
#[local] Notation length := Datatypes.length.

Module Topics.

(** ** Paths *)

Notation path := (list bytes).

Definition slash : byte := x2f.

(** [filepath.Clean] of an absolute path: empty components and [.] go, [..] takes the one before
    it along. *)
Definition clean_step (acc : path) (c : bytes) : path :=
  if bool_decide (c = []) || bool_decide (c = text ".") then acc
  else if bool_decide (c = text "..") then removelast acc
  else acc ++ [c].

Definition Clean (p : path) : path := fold_left clean_step p [].

(** [filepath.Join]: the names may hold separators. *)
Definition Join (base : path) (names : list bytes) : path := Clean (base ++ flat_map (fun name => Split name slash) names).

(** The first component of a path below a directory. *)
Definition below (dir p : path) : option bytes :=
  if bool_decide (take (length dir) p = dir) then head (drop (length dir) p) else None.

Definition under (dir p : path) : bool := bool_decide (take (length dir) p = dir).

(** [fmt.Sprintf("partition-%d")] and the [Sscanf] that reads it: leading blanks are skipped, what
    follows the number is ignored. *)
Definition partition_name (id : Z) : bytes := text "partition-" ++ FormatInt id.

Definition skip_blanks (s : bytes) : bytes :=
  trim_left (length s) (List.filter (fun e => negb (bool_decide (e = [x0a]))) space_encodings) s.

Definition scan_partition (name : bytes) : option Z :=
  if HasPrefix name (text "partition-") then
    match digits_prefix (skip_blanks (drop 10 name)) with
    | ([], _) => None
    | (ds, _) => if decimal ds <? 2 ^ 32 then Some (decimal ds) else None
    end
  else None.

(** ** Durations *)

Definition round_half_even (n d : Z) : Z :=
  let q := n / d in
  let r := n mod d in
  if 2 * r <? d then q else if d <? 2 * r then q + 1 else if Z.even q then q else q + 1.

(** The [float64] nearest to a ratio that is not negative, again as a ratio. *)
Definition float64_of (n d : Z) : Z * Z :=
  if n =? 0 then (0, 1)
  else
    let scaled e := (n * 2 ^ Z.max 0 e, d * 2 ^ Z.max 0 (- e)) in
    let e := 52 - (Z.log2 n - Z.log2 d) in
    let e := if (scaled e).1 / (scaled e).2 <? 2 ^ 52 then e + 1 else e in
    (round_half_even (scaled e).1 (scaled e).2 * 2 ^ Z.max 0 (- e), 2 ^ Z.max 0 e).

(** [int64(d.Seconds())] of a duration in nanoseconds: the seconds and the rest, which is divided
    as a [float64], are added as [float64]s, and the sum is truncated. *)
Definition whole_seconds (d : Z) : Z :=
  let '(n, m) := float64_of (Z.abs d mod 1000000000) 1000000000 in
  let '(n, m) := float64_of (Z.abs d / 1000000000 * m + n) m in
  Z.sgn d * (n / m).

(** ** Logs in directories *)

(** What the topic manager asks of storage besides [LogOps]: opening a directory with a format
    version, the files of a log, closing it, and reading a range. *)
Class LogStore (L D : Type) := {
  ls_empty : D;
  ls_open : Z -> D -> option (result storage_error L);
  ls_files : L -> D;
  ls_Close : L -> option L;
  ls_ReadRange : L -> Z -> Z -> option (result storage_error (list Message) * L);
  ls_size : D -> Z
}.

(** [storage.DefaultConfig] with the format version of the manager. *)
Definition storage_config (version : Z) : Config :=
  mkConfig (mkWALConfig (1024 * 1024 * 1024) FsyncInterval) (mkMTConfig (64 * 1024 * 1024) 3) (mkCConfig CompactionLeveled 10) version.

Definition sum_files (files : gmap Z bytes) : Z := map_fold (fun _ content n => zlen content + n) 0 files.

#[export] Instance log_store {T} {MT : MemTableOps T} : LogStore (logImpl walImpl T) walDir := {|
  ls_empty := mkDir ∅ ∅;
  ls_open version d := NewLog d (storage_config version);
  ls_files l := w_dir (l_wal l);
  ls_Close l := Log_Close l;
  ls_ReadRange l lo hi := ReadRange l lo hi;
  ls_size d := sum_files (d_wal d) + sum_files (d_index d)
|}.

(** ** The topic manager *)

Inductive topic_error :=
| TopicMissing (name : bytes)
| PartitionMissing (id : Z) (name : bytes)
| CountMismatch (name : bytes) (existing requested : Z)
| InvalidCount (count : Z)
| PartitionFailed (id : Z) (e : topic_error)
| MkdirFailed
| LogFailed (e : storage_error)
| RemoveFailed
| ReadFailed (name : bytes) (id : Z) (e : storage_error).

Section topics.
Context {L D : Type} {LO : LogOps L} {LS : LogStore L D}.
Context (mkdir_ok remove_ok : path -> bool).

(** A topic is the map of its partitions. *)
Notation Topic := (gmap Z (Partition L)).

Record TopicManager := mkTM {
  tm_topics : gmap bytes Topic;
  tm_storageDir : path;
  tm_messageFormatVersion : Z;
  tm_disk : gmap path D
}.

Definition set_topics (tm : TopicManager) (topics : gmap bytes Topic) (disk : gmap path D) : TopicManager :=
  mkTM topics (tm_storageDir tm) (tm_messageFormatVersion tm) disk.

Definition topic_dir (tm : TopicManager) (topic : bytes) : path := Join (tm_storageDir tm) [topic].
Definition partition_dir (tm : TopicManager) (topic : bytes) (id : Z) : path := Join (tm_storageDir tm) [topic; partition_name id].

(** The files of a log after it was written to, when its directory is still there. *)
Definition write_files (disk : gmap path D) (dir : path) (l : L) : gmap path D :=
  match disk !! dir with Some _ => <[dir := ls_files l]> disk | None => disk end.

(** *** Loading *)

(** [os.ReadDir]: the names in a directory, sorted. *)
Definition ReadDir (disk : gmap path D) (dir : path) : list bytes :=
  merge_sort bytes_le (elements (list_to_set (omap (below dir) (map_to_list disk).*1) : gset bytes)).

(** A log in its directory, which is created when it is missing. *)
Definition open_at (version : Z) (disk : gmap path D) (dir : path) : option (result storage_error (Partition L * gmap path D)) :=
  r ← ls_open version (default ls_empty (disk !! dir));
  match r with
  | Err e => Some (Err e)
  | Ok l => p ← newRecoveredPartition l; Some (Ok (p, <[dir := ls_files (pt_log p)]> disk))
  end.

Definition load_partition (version : Z) (topicDir : path) (acc : Topic * gmap path D) (entry : bytes) : option (Topic * gmap path D) :=
  match scan_partition entry with
  | None => Some acc
  | Some id =>
      r ← open_at version acc.2 (topicDir ++ [entry]);
      match r with
      | Err _ => Some acc
      | Ok (p, disk) => Some (<[id := p]> acc.1, disk)
      end
  end.

Fixpoint load_partitions (version : Z) (topicDir : path) (acc : Topic * gmap path D) (entries : list bytes) : option (Topic * gmap path D) :=
  match entries with
  | [] => Some acc
  | entry :: entries => acc ← load_partition version topicDir acc entry; load_partitions version topicDir acc entries
  end.

Fixpoint load_topics (tm : TopicManager) (names : list bytes) : option TopicManager :=
  match names with
  | [] => Some tm
  | name :: names =>
      let dir := tm_storageDir tm ++ [name] in
      '(topic, disk) ← load_partitions (tm_messageFormatVersion tm) dir (∅, tm_disk tm) (ReadDir (tm_disk tm) dir);
      load_topics (set_topics tm (if bool_decide (topic = ∅) then tm_topics tm else <[name := topic]> (tm_topics tm)) disk) names
  end.

Definition loadExistingTopics (tm : TopicManager) : option TopicManager := load_topics tm (ReadDir (tm_disk tm) (tm_storageDir tm)).

(** On the disk a previous process left. *)
Definition NewTopicManagerWithMessageFormatVersion (dataDir : path) (version : Z) (disk : gmap path D) : option TopicManager :=
  loadExistingTopics (mkTM ∅ (Join dataDir [text "topics"]) version disk).

Definition NewTopicManager (dataDir : path) (disk : gmap path D) : option TopicManager :=
  NewTopicManagerWithMessageFormatVersion dataDir MessageFormatUnset disk.

(** *** Topics *)

Definition createPartition (version : Z) (disk : gmap path D) (dir : path) : option (result topic_error (Partition L * gmap path D)) :=
  if negb (mkdir_ok dir) then Some (Err MkdirFailed)
  else
    r ← open_at version disk dir;
    match r with Err e => Some (Err (LogFailed e)) | Ok r => Some (Ok r) end.

(** Closing the logs of the partitions in a list, their last bytes written. *)
Fixpoint close_partitions (tm : TopicManager) (name : bytes) (ps : list (Z * Partition L)) (topic : Topic) (disk : gmap path D)
  : option (Topic * gmap path D) :=
  match ps with
  | [] => Some (topic, disk)
  | (id, p) :: ps =>
      l ← ls_Close (pt_log p);
      close_partitions tm name ps (<[id := with_log p l]> topic) (write_files disk (partition_dir tm name id) l)
  end.

(** Partitions [i], [i + 1], ... until [n] more are made; the topic so far and the disk. *)
Fixpoint create_loop (tm : TopicManager) (name : bytes) (n : nat) (i : Z) (topic : Topic) (disk : gmap path D)
  : option (result topic_error Topic * gmap path D) :=
  match n with
  | O => Some (Ok topic, disk)
  | S n =>
      r ← createPartition (tm_messageFormatVersion tm) disk (partition_dir tm name i);
      match r with
      | Ok (p, disk) => create_loop tm name n (i + 1) (<[i := p]> topic) disk
      | Err e =>
          '(_, disk) ← close_partitions tm name (map_to_list topic) topic disk;
          Some (Err (PartitionFailed i e), disk)
      end
  end.

Definition CreateTopic (tm : TopicManager) (name : bytes) (numPartitions : Z) : option (option topic_error * TopicManager) :=
  match tm_topics tm !! name with
  | Some existing =>
      let partitionCount := Z.of_nat (size existing) in
      if 2 ^ 32 - 1 <? partitionCount then Some (Some (InvalidCount partitionCount), tm)
      else if partitionCount =? numPartitions then Some (None, tm)
      else Some (Some (CountMismatch name partitionCount numPartitions), tm)
  | None =>
      '(r, disk) ← create_loop tm name (Z.to_nat numPartitions) 0 ∅ (tm_disk tm);
      match r with
      | Err e => Some (Some e, set_topics tm (tm_topics tm) disk)
      | Ok topic => Some (None, set_topics tm (<[name := topic]> (tm_topics tm)) disk)
      end
  end.

Definition DeleteTopic (tm : TopicManager) (name : bytes) : option (option topic_error * TopicManager) :=
  match tm_topics tm !! name with
  | None => Some (Some (TopicMissing name), tm)
  | Some topic =>
      '(closed, disk) ← close_partitions tm name (map_to_list topic) topic (tm_disk tm);
      let topicDir := topic_dir tm name in
      if negb (remove_ok topicDir) then Some (Some RemoveFailed, set_topics tm (<[name := closed]> (tm_topics tm)) disk)
      else Some (None, set_topics tm (delete name (tm_topics tm)) (filter (fun e => under topicDir e.1 = false) disk))
  end.

Definition GetPartition (tm : TopicManager) (topic : bytes) (partitionID : Z) : result topic_error (Partition L) :=
  match tm_topics tm !! topic with
  | None => Err (TopicMissing topic)
  | Some t => match t !! partitionID with Some p => Ok p | None => Err (PartitionMissing partitionID topic) end
  end.

(** The partition after an operation on it: the topic refers to it, its files are written. *)
Definition put_partition (tm : TopicManager) (topic : bytes) (id : Z) (p : Partition L) : TopicManager :=
  set_topics tm (alter (insert id p) topic (tm_topics tm)) (write_files (tm_disk tm) (partition_dir tm topic id) (pt_log p)).

Definition TopicExists (tm : TopicManager) (name : bytes) : bool := bool_decide (is_Some (tm_topics tm !! name)).

Definition ListTopics (range : gmap bytes Topic -> list (bytes * Topic)) (tm : TopicManager) : list TopicInfo :=
  map (fun '(name, t) => mkTopicInfo name (Z.min (Z.of_nat (size t)) (2 ^ 32 - 1))) (range (tm_topics tm)).

(** [Close]; the topics stay. *)
Fixpoint close_topics (tm : TopicManager) (topics : list (bytes * Topic)) : option TopicManager :=
  match topics with
  | [] => Some tm
  | (name, t) :: topics =>
      '(closed, disk) ← close_partitions tm name (map_to_list t) t (tm_disk tm);
      close_topics (set_topics tm (<[name := closed]> (tm_topics tm)) disk) topics
  end.

Definition TopicManager_Close (tm : TopicManager) : option TopicManager := close_topics tm (map_to_list (tm_topics tm)).

Definition PartitionOffsets (tm : TopicManager) (topic : bytes) (id : Z) : result topic_error (Z * Z * Z) :=
  match GetPartition tm topic id with
  | Err e => Err e
  | Ok p => Ok (lg_StartOffset (pt_log p), lg_EndOffset (pt_log p), lg_HighWaterMark (pt_log p))
  end.

Definition ReadMessages (tm : TopicManager) (topic : bytes) (id offset limit : Z)
  : option (result topic_error (list Message) * TopicManager) :=
  if limit <=? 0 then Some (Ok [], tm)
  else
    match GetPartition tm topic id with
    | Err e => Some (Err e, tm)
    | Ok p =>
        let endOffset := lg_EndOffset (pt_log p) in
        let offset := Z.max offset (lg_StartOffset (pt_log p)) in
        if endOffset <=? offset then Some (Ok [], tm)
        else
          let rangeEnd := wraps 64 (offset + limit) in
          let rangeEnd := if endOffset <? rangeEnd then endOffset else rangeEnd in
          '(r, l) ← ls_ReadRange (pt_log p) offset rangeEnd;
          let tm := put_partition tm topic id (with_log p l) in
          match r with
          | Err e => Some (Err (ReadFailed topic id e), tm)
          | Ok messages => Some (Ok (take (Z.to_nat limit) messages), tm)
          end
    end.

(** [dirSize]: the bytes of the files below a directory. *)
Definition dirSize (disk : gmap path D) (root : path) : Z :=
  map_fold (fun p d n => (if under root p then ls_size d else 0) + n) 0 disk.

Definition TopicDiskUsage (tm : TopicManager) (topic : bytes) : result topic_error Z :=
  if TopicExists tm topic then Ok (dirSize (tm_disk tm) (topic_dir tm topic)) else Err (TopicMissing topic).

Definition DiskUsageByTopic (tm : TopicManager) : gmap bytes Z :=
  map_imap (fun name _ => Some (dirSize (tm_disk tm) (topic_dir tm name))) (tm_topics tm).

(** ** The handler (handler.go) *)

(** The texts of the errors of the operating system and of the log.  Produce and fetch know the
    error of the log by its code in the protocol only, so errors with one code get one text. *)
Context (os_text : bytes) (storage_text : storage_error -> bytes) (read_text : Z -> bytes).
Context (range : gmap bytes Topic -> list (bytes * Topic)).

Fixpoint error_text (e : topic_error) : bytes :=
  match e with
  | TopicMissing name => text "topic " ++ name ++ text " does not exist"
  | PartitionMissing id name => text "partition " ++ FormatInt id ++ text " does not exist in topic " ++ name
  | CountMismatch name existing requested =>
      text "topic " ++ name ++ text " already exists with " ++ FormatInt existing ++ text " partitions, cannot recreate with "
      ++ FormatInt requested ++ text " partitions"
  | InvalidCount count => text "invalid partition count: " ++ FormatInt count
  | PartitionFailed id e => text "failed to create partition " ++ FormatInt id ++ text ": " ++ error_text e
  | MkdirFailed => text "failed to create partition directory: " ++ os_text
  | LogFailed e => text "failed to create log: " ++ storage_text e
  | RemoveFailed => text "failed to remove topic directory: " ++ os_text
  | ReadFailed name id e => text "failed to read messages from " ++ name ++ text ":" ++ FormatInt id ++ text ": " ++ storage_text e
  end.

Record Handler := mkHandler {
  hd_topicManager : TopicManager;
  hd_requestsHandled : Z;
  hd_errorsHandled : Z;
  hd_startTime : Z
}.

Definition NewHandlerWithTopicManager (now : Z) (tm : TopicManager) : Handler := mkHandler tm 0 0 now.

Definition with_topics (h : Handler) (tm : TopicManager) : Handler :=
  mkHandler tm (hd_requestsHandled h) (hd_errorsHandled h) (hd_startTime h).

(** The response and the handler with the error counted. *)
Definition errorResponse (h : Handler) (req : Request) (code : Z) (message : bytes) : Response * Handler :=
  (mkResponse (mkRespHeader (rh_RequestID (rq_Header req)) StatusError code) (SError (mkErrorResponse code message)),
   mkHandler (hd_topicManager h) (hd_requestsHandled h) (wraps 64 (hd_errorsHandled h + 1)) (hd_startTime h)).

Definition okResponse (h : Handler) (req : Request) (p : ResponsePayload) : Response * Handler :=
  (mkResponse (mkRespHeader (rh_RequestID (rq_Header req)) StatusOK Proto.ErrNone) p, h).

(** The topic created with one partition when it is missing. *)
Definition auto_create (h : Handler) (topic : bytes) : option (option topic_error * Handler) :=
  if TopicExists (hd_topicManager h) topic then Some (None, h)
  else '(err, tm) ← CreateTopic (hd_topicManager h) topic 1; Some (err, with_topics h tm).

(** What produce and fetch share: the topic, created when it is missing, and the partition. *)
Definition on_partition (h : Handler) (req : Request) (topic : bytes) (id : Z)
  (serve : Handler -> Partition L -> option (Response * Handler)) : option (Response * Handler) :=
  '(err, h) ← auto_create h topic;
  match err with
  | Some e => Some (errorResponse h req Proto.ErrTopicExists (text "failed to auto-create topic: " ++ error_text e))
  | None =>
      match GetPartition (hd_topicManager h) topic id with
      | Err e => Some (errorResponse h req Proto.ErrTopicNotFound (error_text e))
      | Ok p => serve h p
      end
  end.

(** [None] is a panic: a payload of another type, a request without messages. *)
Definition handleProduce (h : Handler) (req : Request) : option (Response * Handler) :=
  match rq_Payload req with
  | QProduce payload =>
      on_partition h req (prq_Topic payload) (prq_PartitionID payload) (fun h p =>
        '(r, p) ← produce_on p (prq_ProducerID payload) (prq_ProducerEpoch payload) (prq_Messages payload);
        let h := with_topics h (put_partition (hd_topicManager h) (prq_Topic payload) (prq_PartitionID payload) p) in
        match r with
        | Err code => Some (errorResponse h req code (text "failed to write messages: " ++ read_text code))
        | Ok d =>
            Some (okResponse h req (SProduce (mkProduceResponse (prq_Topic payload) (prq_PartitionID payload)
                    (pd_BaseOffset d) (pd_NumMessages d) (pd_HighWaterMark d) 0)))
        end)
  | _ => None
  end.

Definition handleFetch (h : Handler) (req : Request) : option (Response * Handler) :=
  match rq_Payload req with
  | QFetch payload =>
      on_partition h req (frq_Topic payload) (frq_PartitionID payload) (fun h p =>
        '(r, p) ← fetch_on p (frq_Offset payload) (frq_MaxBytes payload) (frq_IsolationLevel payload);
        let h := with_topics h (put_partition (hd_topicManager h) (frq_Topic payload) (frq_PartitionID payload) p) in
        match r with
        | Err code => Some (errorResponse h req code (read_text code))
        | Ok f =>
            Some (okResponse h req (SFetch (mkFetchResponse (frq_Topic payload) (frq_PartitionID payload)
                    (fr_HighWaterMark f) (fr_Messages f) (fr_LastStableOffset f) (fr_NextOffset f))))
        end)
  | _ => None
  end.

Definition OffsetMaxTimestamp : Z := -3.

(** The offset, the timestamp and the partition for the timestamp of a request. *)
Definition resolve_offset (p : Partition L) (timestamp : Z) : option (result storage_error (Z * Z) * Partition L) :=
  let startOffset := lg_StartOffset (pt_log p) in
  let endOffset := lg_EndOffset (pt_log p) in
  if (timestamp =? OffsetLatest) || (timestamp =? 0) then
    Some (Ok (if (timestamp =? 0) && (startOffset <? endOffset) then startOffset else endOffset, 0), p)
  else if timestamp =? OffsetEarliest then Some (Ok (startOffset, 0), p)
  else if timestamp =? OffsetMaxTimestamp then Some (Ok (endOffset, 0), p)
  else if 0 <? timestamp then '(r, l) ← lg_Find (pt_log p) timestamp; Some (r, with_log p l)
  else Some (Ok (startOffset, 0), p).

Definition handleGetOffset (h : Handler) (req : Request) : option (Response * Handler) :=
  match rq_Payload req with
  | QGetOffset payload =>
      match GetPartition (hd_topicManager h) (grq_Topic payload) (grq_PartitionID payload) with
      | Err e => Some (errorResponse h req Proto.ErrTopicNotFound (error_text e))
      | Ok p =>
          '(r, p') ← resolve_offset p (grq_Timestamp payload);
          let h := with_topics h (put_partition (hd_topicManager h) (grq_Topic payload) (grq_PartitionID payload) p') in
          match r with
          | Err e => Some (errorResponse h req Proto.ErrStorageError (text "failed to find offset by timestamp: " ++ storage_text e))
          | Ok (offset, timestamp) =>
              Some (okResponse h req (SGetOffset (mkGetOffsetResponse (grq_Topic payload) (grq_PartitionID payload)
                      (lg_StartOffset (pt_log p)) (lg_EndOffset (pt_log p)) (lg_HighWaterMark (pt_log p)) offset timestamp 0)))
          end
      end
  | _ => None
  end.

Definition handleCreateTopic (h : Handler) (req : Request) : option (Response * Handler) :=
  match rq_Payload req with
  | QCreateTopic payload =>
      '(err, tm) ← CreateTopic (hd_topicManager h) (crq_Topic payload) (crq_NumPartitions payload);
      let h := with_topics h tm in
      match err with
      | Some e => Some (errorResponse h req Proto.ErrTopicExists (text "failed to create topic: " ++ error_text e))
      | None => Some (okResponse h req (SCreateTopic (mkTopicResponse (crq_Topic payload) true Proto.ErrNone)))
      end
  | _ => None
  end.

Definition handleDeleteTopic (h : Handler) (req : Request) : option (Response * Handler) :=
  match rq_Payload req with
  | QDeleteTopic topic =>
      '(err, tm) ← DeleteTopic (hd_topicManager h) topic;
      let h := with_topics h tm in
      match err with
      | Some e => Some (errorResponse h req Proto.ErrTopicNotFound (text "failed to delete topic: " ++ error_text e))
      | None => Some (okResponse h req (SDeleteTopic (mkTopicResponse topic true Proto.ErrNone)))
      end
  | _ => None
  end.

Definition handleListTopics (h : Handler) (req : Request) : Response * Handler :=
  okResponse h req (SListTopics (ListTopics range (hd_topicManager h))).

Definition handleHealthCheck (now : Z) (h : Handler) (req : Request) : Response * Handler :=
  okResponse h req (SHealthCheck (mkHealthCheckResponse (text "healthy") (whole_seconds (now - hd_startTime h)))).

Definition Handle (now : Z) (h : Handler) (req : Request) : option (Response * Handler) :=
  let h := mkHandler (hd_topicManager h) (wraps 64 (hd_requestsHandled h + 1)) (hd_errorsHandled h) (hd_startTime h) in
  let t := rh_Type (rq_Header req) in
  if t =? RequestTypeProduce then handleProduce h req
  else if t =? RequestTypeFetch then handleFetch h req
  else if t =? RequestTypeGetOffset then handleGetOffset h req
  else if t =? RequestTypeCreateTopic then handleCreateTopic h req
  else if t =? RequestTypeDeleteTopic then handleDeleteTopic h req
  else if t =? RequestTypeListTopics then Some (handleListTopics h req)
  else if t =? RequestTypeHealthCheck then Some (handleHealthCheck now h req)
  else Some (errorResponse h req Proto.ErrUnknownRequest (text "unknown request type")).

Definition Handler_Close (h : Handler) : option Handler := tm ← TopicManager_Close (hd_topicManager h); Some (with_topics h tm).
End topics.
Arguments TopicManager : clear implicits.
Arguments Handler : clear implicits.
End Topics.
