(* ===== verification/TopicsSpec.v ===== *)
(** * What the topic manager and the request handler guarantee

    Requests touch only the partition they address, a restart brings back every partition from
    its directory, and what names that are not checked and creations that fail leave behind. *)

From S2P Require Import Prelude GoBytes GoMatch GoJson Record MemTable Wal WalSpec Compaction Log LogSpec LogIface Wire Payloads Protocol Txn Partition Handlers Topics.
From stdpp Require Import prelude list sorting gmap.
From Stdlib Require Import ZArith Lia Strings.Byte Strings.String.
Import Topics.

Open Scope Z_scope.
#[local] Notation length := Datatypes.length.

(** ** Names and paths *)

(** A name that is one component of a path and stays one. *)
Definition good_name (name : bytes) : Prop :=
  name <> [] /\ slash ∉ name /\ name <> text "." /\ name <> text "..".

#[export] Instance good_name_dec name : Decision (good_name name).
Proof. unfold good_name. apply _. Defined.

Lemma Split_one name sep : sep ∉ name -> Split name sep = [name].
Proof.
  induction name as [| b name IH]; intros H; [done |]. simpl. apply not_elem_of_cons in H as [Hb H].
  rewrite bool_decide_false by done. by rewrite (IH H).
Qed.

Lemma clean_good p acc : Forall good_name p -> fold_left clean_step p acc = acc ++ p.
Proof.
  intros H. revert acc. induction H as [| c p (H1 & _ & H2 & H3) _ IH]; intros acc; simpl; [by rewrite app_nil_r |].
  rewrite IH. unfold clean_step. rewrite !bool_decide_false by done. simpl. by rewrite <- app_assoc.
Qed.

Lemma Join_good base names : Forall good_name base -> Forall good_name names -> Join base names = base ++ names.
Proof.
  intros Hb Hn. unfold Join, Clean. assert (flat_map (fun name => Split name slash) names = names) as ->.
  { induction Hn as [| n names (_ & Hs & _) _ IH]; simpl; [done |]. by rewrite Split_one, IH. }
  by rewrite clean_good by (by apply Forall_app).
Qed.

Lemma digits_all fuel n : Forall (fun b => is_digit b = true) (digits fuel n).
Proof.
  revert n. induction fuel as [| fuel IH]; intros n; simpl; [constructor |]. apply Forall_app. split; [case_match; [constructor | apply IH] |].
  repeat constructor. unfold is_digit, GoMatch.in_range. rewrite digit_value. pose proof (Z.mod_pos_bound n 10). lia.
Qed.

Lemma digits_nonempty k n : digits (S k) n <> [].
Proof. simpl. intros H. apply app_nil in H as [_ H]. discriminate H. Qed.

Lemma FormatInt_digits id : 0 <= id -> FormatInt id = digits 20 id.
Proof. intros H. unfold FormatInt. destruct (Z.ltb_spec id 0); [lia | done]. Qed.

Lemma partition_name_good id : 0 <= id -> good_name (partition_name id).
Proof.
  intros H. unfold partition_name. rewrite FormatInt_digits by done. repeat split; try done.
  rewrite not_elem_of_app. split; [apply (bool_decide_unpack _); vm_compute; done |]. intros Hs.
  pose proof (digits_all 20 id) as Hd. rewrite Forall_forall in Hd. specialize (Hd _ Hs). by vm_compute in Hd.
Qed.

Lemma digits_prefix_all ds : Forall (fun b => is_digit b = true) ds -> digits_prefix ds = (ds, []).
Proof. induction 1 as [| b ds Hb _ IH]; simpl; [done |]. by rewrite Hb, IH. Qed.

Lemma decimal_parse ds acc n : parse_digits ds acc = Some n -> fold_left (fun n b => n * 10 + (b2Z b - 48)) ds acc = n.
Proof.
  revert acc. induction ds as [| b ds IH]; intros acc; simpl; [by intros [= ->] |]. case_match; [| done].
  intros H'. rewrite <- (IH _ H'). f_equal. lia.
Qed.

Lemma skip_blanks_digits b ds : is_digit b = true -> skip_blanks (b :: ds) = b :: ds.
Proof.
  intros Hb. unfold skip_blanks. simpl length. cbn [trim_left].
  destruct (find _ _) as [e |] eqn:E; [| done]. exfalso. apply find_some in E as [He Hp].
  destruct b; try discriminate Hb; vm_compute in He; repeat (destruct He as [<- | He]; [by vm_compute in Hp |]); done.
Qed.

Lemma scan_partition_name id : 0 <= id < 2 ^ 32 -> scan_partition (partition_name id) = Some id.
Proof.
  intros H. unfold scan_partition, partition_name. rewrite FormatInt_digits by lia.
  assert (Hp : parse_digits (digits 20 id) 0 = Some id).
  { apply parse_digits_digits. change (10 ^ Z.of_nat 20) with 100000000000000000000. lia. }
  pose proof (digits_all 20 id) as Hall. assert (HasPrefix (text "partition-" ++ digits 20 id) (text "partition-") = true) as ->.
  { apply HasPrefix_spec. by exists (digits 20 id). }
  change (drop 10 (text "partition-" ++ digits 20 id)) with (digits 20 id).
  destruct (digits 20 id) as [| b ds] eqn:E.
  { by apply digits_nonempty in E. }
  inversion Hall; subst. rewrite skip_blanks_digits by done. rewrite digits_prefix_all by done.
  apply decimal_parse in Hp. unfold decimal. rewrite Hp. destruct (Z.ltb_spec id (2 ^ 32)); [done | lia].
Qed.

Lemma partition_name_inj id id' : 0 <= id < 2 ^ 32 -> 0 <= id' < 2 ^ 32 -> partition_name id = partition_name id' -> id = id'.
Proof. intros H H' E. apply (f_equal scan_partition) in E. rewrite !scan_partition_name in E by done. by injection E. Qed.

(** ** Directories *)

Section disks.
Context {D : Type}.

Lemma below_app (dir : path) c p : below dir (dir ++ c :: p) = Some c.
Proof. unfold below. rewrite take_app_length, drop_app_length. by rewrite bool_decide_true. Qed.

Lemma below_Some (dir p : path) c : below dir p = Some c -> exists rest, p = dir ++ c :: rest.
Proof.
  unfold below. case_bool_decide as E; [| done]. intros H. exists (tail (drop (length dir) p)).
  rewrite <- (take_drop (length dir) p) at 1. rewrite E. f_equal. by destruct (drop (length dir) p); simplify_eq/=.
Qed.

Lemma ReadDir_elem (disk : gmap path D) dir x : x ∈ ReadDir disk dir <-> exists p d, disk !! p = Some d /\ below dir p = Some x.
Proof.
  unfold ReadDir. rewrite merge_sort_Permutation, elem_of_elements, elem_of_list_to_set, list_elem_of_omap. split.
  - intros (p & Hp & Hb). apply list_elem_of_fmap in Hp as ([p' d] & -> & Hp). apply elem_of_map_to_list in Hp. eauto.
  - intros (p & d & Hp & Hb). exists p. split; [| done]. apply list_elem_of_fmap. exists (p, d). split; [done |]. by apply elem_of_map_to_list.
Qed.

Lemma ReadDir_NoDup (disk : gmap path D) dir : NoDup (ReadDir disk dir).
Proof. unfold ReadDir. rewrite merge_sort_Permutation. apply NoDup_elements. Qed.
End disks.

Section restart.
Context {L D : Type} {LO : LogOps L} {LS : LogStore L D}.

(** The partition that a process finds in a directory. *)
Definition reopened (version : Z) (d : D) : option (result storage_error (Partition L)) :=
  r ← ls_open version d;
  match r with Err e => Some (Err e) | Ok l => p ← newRecoveredPartition l; Some (Ok p) end.

Definition reopens (version : Z) (d : D) (p : Partition L) : Prop := reopened version d = Some (Ok p).

Lemma open_at_reopens version disk (dir : path) d (p : Partition L) : disk !! dir = Some d -> reopens version d p ->
  open_at version disk dir = Some (Ok (p, <[dir := ls_files (pt_log p)]> disk)).
Proof.
  unfold reopens, reopened, open_at. intros -> H. simpl. destruct (ls_open version d) as [[l |] |]; simplify_eq/=.
  destruct (newRecoveredPartition l); by simplify_eq/=.
Qed.

(** Every directory of the entries is opened, and nothing else on the disk changes. *)
Lemma load_partitions_spec version (dir : path) entries : forall (acc : gmap Z (Partition L) * gmap path D), NoDup entries ->
  (forall e, e ∈ entries -> exists id d p, e = partition_name id /\ 0 <= id < 2 ^ 32 /\ acc.2 !! (dir ++ [e]) = Some d /\ reopens version d p) ->
  exists topic disk, load_partitions version dir acc entries = Some (topic, disk)
    /\ (forall id p, 0 <= id < 2 ^ 32 -> partition_name id ∈ entries ->
          (topic !! id = Some p <-> exists d, acc.2 !! (dir ++ [partition_name id]) = Some d /\ reopens version d p))
    /\ (forall id, (0 <= id < 2 ^ 32 -> forall e, e ∈ entries -> e <> partition_name id) -> topic !! id = acc.1 !! id)
    /\ (forall q, (forall e, e ∈ entries -> q <> dir ++ [e]) -> disk !! q = acc.2 !! q)
    /\ dom disk = dom acc.2.
Proof.
  induction entries as [| e entries IH]; intros acc Hnd Hall.
  { exists acc.1, acc.2. destruct acc. repeat split; try done; intros; exfalso; by eapply not_elem_of_nil. }
  apply NoDup_cons in Hnd as [He Hnd]. destruct (Hall e) as (id0 & d0 & p0 & -> & Hid0 & Hd0 & Hr0); [by left |].
  simpl. unfold load_partition. rewrite scan_partition_name by done. rewrite (open_at_reopens _ _ _ _ _ Hd0 Hr0). simpl.
  assert (Hother : forall e, e ∈ entries -> dir ++ [partition_name id0] <> dir ++ [e]).
  { intros e He' E. apply app_inv_head in E. assert (e = partition_name id0) as -> by congruence. done. }
  destruct (IH (<[id0 := p0]> acc.1, <[dir ++ [partition_name id0] := ls_files (pt_log p0)]> acc.2)) as (topic & disk & Hl & Hin & Hout & Hq & Hdom).
  { done. }
  { intros e He'. destruct (Hall e) as (id & d & p & -> & ? & Hd & ?); [by right |]. exists id, d, p. simpl.
    rewrite lookup_insert_ne by (by apply Hother). done. }
  simpl in *. exists topic, disk. split; [done |]. split; [| split; [| split]].
  - intros id p Hid [E | Hen]%elem_of_cons.
    + apply partition_name_inj in E as ->; [| done | done]. rewrite Hout, lookup_insert_eq.
      * split; [intros [= <-]; eauto | intros (d & Hd & Hr)]. rewrite Hd0 in Hd. injection Hd as <-. unfold reopens in *. congruence.
      * intros _ e He' ->. done.
    + rewrite Hin by done. rewrite lookup_insert_ne by (by apply Hother). done.
  - intros id Hne. rewrite Hout by (intros Hid e He'; apply Hne; [done | by right]). apply lookup_insert_ne. intros ->. by eapply Hne; [| left |].
  - intros q Hne. rewrite Hq by (intros e He'; apply Hne; by right). apply lookup_insert_ne. intros <-. by eapply Hne; [left |].
  - rewrite Hdom. rewrite dom_insert_L. apply subseteq_union_1_L, singleton_subseteq_l. by eapply elem_of_dom_2.
Qed.

(** The partition that a topic manager holds. *)
Definition partition_at (tm : TopicManager L D) (name : bytes) (id : Z) : option (Partition L) := t ← tm_topics tm !! name; t !! id.

(** A disk that holds only directories of partitions, which open for the topics named. *)
Definition loadable (version : Z) (sd : path) (names : list bytes) (disk : gmap path D) : Prop :=
  forall q d, disk !! q = Some d -> exists name id, q = sd ++ [name; partition_name id] /\ 0 <= id < 2 ^ 32
    /\ (name ∈ names -> exists p, reopens version d p).

(** The partition that the directory of a topic's partition opens to. *)
Definition stored_at (version : Z) (sd : path) (disk : gmap path D) (name : bytes) (id : Z) (p : Partition L) : Prop :=
  0 <= id < 2 ^ 32 /\ exists d, disk !! (sd ++ [name; partition_name id]) = Some d /\ reopens version d p.

Lemma sub_dir (sd : path) name x : (sd ++ [name]) ++ [x] = sd ++ [name; x].
Proof. by rewrite <- app_assoc. Qed.

Lemma topic_entries version sd names disk name e : loadable version sd names disk -> name ∈ names -> e ∈ ReadDir disk (sd ++ [name]) ->
  exists id d p, e = partition_name id /\ 0 <= id < 2 ^ 32 /\ disk !! (sd ++ [name; e]) = Some d /\ reopens version d p.
Proof.
  intros Hload Hn (q & d & Hq & [rest Hb]%below_Some)%ReadDir_elem. destruct (Hload _ _ Hq) as (name' & id & E & Hid & Hr).
  rewrite E, <- app_assoc in Hb. apply app_inv_head in Hb. simpl in Hb.
  assert (name' = name /\ partition_name id = e) as [-> <-] by (split; congruence). destruct (Hr Hn) as [p Hp].
  exists id, d, p. rewrite <- E. done.
Qed.

Lemma stored_entry version sd disk name id (p : Partition L) : stored_at version sd disk name id p -> partition_name id ∈ ReadDir disk (sd ++ [name]).
Proof.
  intros (_ & d & Hd & _). apply ReadDir_elem. eexists _, d. split; [done |]. rewrite <- sub_dir. apply (below_app _ _ []).
Qed.

(** One topic is loaded: its partitions are those of its directories. *)
Lemma load_topic_spec version sd names disk name : loadable version sd names disk -> name ∈ names ->
  exists topic disk', load_partitions version (sd ++ [name]) (∅, disk) (ReadDir disk (sd ++ [name])) = Some (topic, disk')
    /\ (forall id p, topic !! id = Some p <-> stored_at version sd disk name id p)
    /\ (forall name' x, name' <> name -> disk' !! (sd ++ [name'; x]) = disk !! (sd ++ [name'; x])) /\ dom disk' = dom disk.
Proof.
  intros Hload Hn.
  destruct (load_partitions_spec version (sd ++ [name]) (ReadDir disk (sd ++ [name])) (∅, disk))
    as (topic & disk' & Hl & Hin & Hout & Hq & Hdom); [apply ReadDir_NoDup | |].
  { intros e He. simpl. rewrite sub_dir. by eapply topic_entries. }
  simpl in *. exists topic, disk'. split; [done |]. split; [| split; [| done]].
  - intros id p. destruct (decide (0 <= id < 2 ^ 32 /\ partition_name id ∈ ReadDir disk (sd ++ [name]))) as [[Hid He] | Hno].
    + rewrite (Hin id p Hid He), sub_dir. unfold stored_at. naive_solver.
    + rewrite Hout, lookup_empty.
      * split; [done |]. intros Hs. destruct Hno. split; [apply Hs | by eapply stored_entry].
      * intros Hid e He ->. destruct Hno. done.
  - intros name' x Hne. apply Hq. intros e _ E. rewrite sub_dir in E. apply app_inv_head in E. congruence.
Qed.

Lemma load_topics_spec version (sd : path) names : forall tm : TopicManager L D, NoDup names ->
  tm_storageDir tm = sd -> tm_messageFormatVersion tm = version -> loadable version sd names (tm_disk tm) ->
  (forall name, name ∈ names -> tm_topics tm !! name = None) ->
  exists tm', load_topics tm names = Some tm' /\ tm_storageDir tm' = sd /\ tm_messageFormatVersion tm' = version
    /\ forall name id p, partition_at tm' name id = Some p <->
         (name ∉ names /\ partition_at tm name id = Some p) \/ (name ∈ names /\ stored_at version sd (tm_disk tm) name id p).
Proof.
  induction names as [| name names IH]; intros tm Hnd Hsd Hver Hload Hfresh.
  { exists tm. do 3 (split; [done |]). intros. rewrite elem_of_nil. naive_solver. }
  apply NoDup_cons in Hnd as [Hname Hnd]. simpl. rewrite Hsd, Hver.
  destruct (load_topic_spec version sd (name :: names) (tm_disk tm) name Hload) as (topic & disk & -> & Htopic & Hother & Hdom); [by left |].
  set (tm1 := set_topics tm (if bool_decide (topic = ∅) then tm_topics tm else <[name := topic]> (tm_topics tm)) disk).
  assert (Hat : forall name' id p, partition_at tm1 name' id = Some p <->
    if bool_decide (name' = name) then stored_at version sd (tm_disk tm) name id p else partition_at tm name' id = Some p).
  { intros name' id p. unfold partition_at at 1, tm1. simpl. destruct (decide (name' = name)) as [En | En].
    - rewrite (bool_decide_true (name' = name)) by done. subst name'. rewrite <- Htopic. case_bool_decide as Et; [| by rewrite lookup_insert_eq].
      rewrite Et, lookup_empty, Hfresh by (by left). done.
    - rewrite (bool_decide_false (name' = name)) by done. case_bool_decide as Et; [done | by rewrite lookup_insert_ne]. }
  destruct (IH tm1) as (tm' & Hl & Hsd' & Hver' & Hspec); [done | done | done | | |].
  - intros q d Hq. simpl in Hq. assert (is_Some (tm_disk tm !! q)) as [d' Hd'] by (apply elem_of_dom; rewrite <- Hdom; by eapply elem_of_dom_2).
    destruct (Hload _ _ Hd') as (name' & id & -> & Hid & Hr). exists name', id. do 2 (split; [done |]). intros Hn.
    rewrite Hother in Hq by (intros ->; done). rewrite Hq in Hd'. injection Hd' as <-. apply Hr. by right.
  - intros name' Hn. unfold tm1. simpl. case_bool_decide; [apply Hfresh; by right |].
    rewrite lookup_insert_ne by (intros ->; done). apply Hfresh. by right.
  - exists tm'. do 3 (split; [done |]). intros name' id p. rewrite Hspec, Hat, elem_of_cons. simpl. case_bool_decide as En.
    + subst name'. naive_solver.
    + assert (stored_at version sd disk name' id p <-> stored_at version sd (tm_disk tm) name' id p) as ->; [| naive_solver].
      unfold stored_at. by rewrite Hother.
Qed.

(** A restart opens the directory of every partition and finds nothing else. *)
Lemma restart_spec version (dataDir : path) disk : Forall good_name dataDir ->
  let sd := dataDir ++ [text "topics"] in
  (forall q d, disk !! q = Some d -> exists name id p, q = sd ++ [name; partition_name id] /\ 0 <= id < 2 ^ 32 /\ reopens version d p) ->
  exists tm', NewTopicManagerWithMessageFormatVersion dataDir version disk = Some tm'
    /\ forall name id p, partition_at tm' name id = Some p <-> stored_at version sd disk name id p.
Proof.
  intros Hgood sd Hdisk. unfold NewTopicManagerWithMessageFormatVersion, loadExistingTopics.
  assert (Forall good_name [text "topics"]) as Htopics by (repeat constructor; apply (bool_decide_unpack _); vm_compute; done).
  rewrite Join_good by done. fold sd. cbn [tm_storageDir tm_disk].
  destruct (load_topics_spec version sd (ReadDir disk sd) (mkTM ∅ sd version disk)) as (tm' & Hl & _ & _ & Hspec); [apply ReadDir_NoDup | done | done | | |].
  - intros q d Hq. destruct (Hdisk _ _ Hq) as (name & id & p & ? & ? & ?). exists name, id. eauto.
  - intros name _. apply lookup_empty.
  - exists tm'. split; [done |]. intros name id p. rewrite Hspec. simpl. unfold partition_at at 1. simpl. rewrite lookup_empty. simpl.
    split; [naive_solver |]. intros Hs. right. split; [| done]. destruct Hs as (_ & d & Hd & _). apply ReadDir_elem.
    eexists _, d. split; [exact Hd | apply below_app].
Qed.
End restart.

(** ** Requests *)

Section requests.
Context {L D : Type} {LO : LogOps L} {LS : LogStore L D}.
Context (mkdir_ok remove_ok : path -> bool).
Context (os_text : bytes) (storage_text : storage_error -> bytes) (read_text : Z -> bytes).
Context (range : gmap bytes (gmap Z (Partition L)) -> list (bytes * gmap Z (Partition L))).
#[local] Notation Handle := (Handle mkdir_ok remove_ok os_text storage_text read_text range).
#[local] Notation TM := (TopicManager L D).

(** Whether a request is addressed to the partition, or deletes its topic. *)
Definition addresses (req : Request) (topic : bytes) (id : Z) : bool :=
  match rq_Payload req with
  | QProduce q => bool_decide (prq_Topic q = topic) && (prq_PartitionID q =? id)
  | QFetch q => bool_decide (frq_Topic q = topic) && (frq_PartitionID q =? id)
  | QGetOffset q => bool_decide (grq_Topic q = topic) && (grq_PartitionID q =? id)
  | QDeleteTopic name => bool_decide (name = topic)
  | _ => false
  end.

Lemma put_at (tm : TM) name id p name' id' : is_Some (partition_at tm name id) ->
  partition_at (put_partition tm name id p) name' id' = if bool_decide (name' = name /\ id' = id) then Some p else partition_at tm name' id'.
Proof.
  unfold partition_at at 2. simpl. intros [p0 H]. unfold partition_at in H. destruct (tm_topics tm !! name) as [t |] eqn:Et; [| done].
  destruct (decide (name' = name)) as [-> | Hn].
  - rewrite lookup_alter_eq, Et. simpl. destruct (decide (id' = id)) as [-> | Hi].
    + rewrite lookup_insert_eq. by rewrite bool_decide_true.
    + rewrite lookup_insert_ne by done. rewrite bool_decide_false by naive_solver. unfold partition_at. by rewrite Et.
  - rewrite lookup_alter_ne by done. by rewrite bool_decide_false by naive_solver.
Qed.

Lemma GetPartition_at (tm : TM) name id p : GetPartition tm name id = Ok p -> partition_at tm name id = Some p.
Proof.
  unfold GetPartition, partition_at. destruct (tm_topics tm !! name) as [t |]; [| done]. simpl.
  destruct (t !! id); [by intros [= ->] | done].
Qed.

Lemma CreateTopic_keeps (tm : TM) name n err tm' topic id p : CreateTopic mkdir_ok tm name n = Some (err, tm') ->
  partition_at tm topic id = Some p -> partition_at tm' topic id = Some p.
Proof.
  unfold CreateTopic. destruct (tm_topics tm !! name) as [t |] eqn:Et; [repeat case_match; by intros [= <- <-] |].
  destruct (create_loop _ _ _ _ _ _ _) as [[[t | e] disk] |]; simpl; intros; simplify_eq; [| done].
  unfold partition_at in *. simpl. rewrite lookup_insert_ne; [done |]. intros ->. by rewrite Et in *.
Qed.

Lemma DeleteTopic_keeps (tm : TM) name err tm' topic id p : DeleteTopic remove_ok tm name = Some (err, tm') -> topic <> name ->
  partition_at tm topic id = Some p -> partition_at tm' topic id = Some p.
Proof.
  unfold DeleteTopic. destruct (tm_topics tm !! name) as [t |] eqn:Et; [| by intros [= <- <-]].
  destruct (close_partitions _ _ _ _ _) as [[closed disk] |]; simpl; [| done]. intros H Hne. unfold partition_at.
  case_match; simplify_eq; simpl; [by rewrite lookup_insert_ne | by rewrite lookup_delete_ne].
Qed.

Lemma on_partition_keeps (h : Handler L D) req name pid serve resp h' topic id p :
  on_partition mkdir_ok os_text storage_text h req name pid serve = Some (resp, h') ->
  (forall h0 p0, partition_at (hd_topicManager h0) name pid = Some p0 -> serve h0 p0 = Some (resp, h') ->
     partition_at (hd_topicManager h0) topic id = Some p -> partition_at (hd_topicManager h') topic id = Some p) ->
  partition_at (hd_topicManager h) topic id = Some p -> partition_at (hd_topicManager h') topic id = Some p.
Proof.
  unfold on_partition, auto_create. intros H Hserve Hp.
  assert (exists err h0, partition_at (hd_topicManager h0) topic id = Some p /\
    match err with
    | Some e => Some (errorResponse h0 req Proto.ErrTopicExists (text "failed to auto-create topic: " ++ error_text os_text storage_text e))
    | None => match GetPartition (hd_topicManager h0) name pid with
              | Err e => Some (errorResponse h0 req Proto.ErrTopicNotFound (error_text os_text storage_text e))
              | Ok p0 => serve h0 p0
              end
    end = Some (resp, h')) as (err & h0 & Hp0 & H0).
  { destruct (TopicExists _ _); simpl in H; [by exists None, h |].
    destruct (CreateTopic _ _ _ _) as [[err tm] |] eqn:Ec; simpl in H; [| done]. exists err, (with_topics h tm). split; [| done].
    by eapply CreateTopic_keeps. }
  destruct err as [e |]; [by injection H0 as <- <- |].
  destruct (GetPartition _ _ _) as [p0 | e] eqn:Eg; [| by injection H0 as <- <-]. apply GetPartition_at in Eg. by eapply Hserve.
Qed.

Lemma put_keeps (tm : TM) name pid q topic id p : is_Some (partition_at tm name pid) ->
  bool_decide (name = topic) && (pid =? id) = false -> partition_at tm topic id = Some p ->
  partition_at (put_partition tm name pid q) topic id = Some p.
Proof.
  intros Hs Hne Hp. rewrite put_at by done. rewrite bool_decide_false; [done |]. intros [-> ->].
  rewrite bool_decide_true, Z.eqb_refl in Hne; done.
Qed.

Lemma handleProduce_keeps (h : Handler L D) req resp h' topic id p :
  handleProduce mkdir_ok os_text storage_text read_text h req = Some (resp, h') -> addresses req topic id = false ->
  partition_at (hd_topicManager h) topic id = Some p -> partition_at (hd_topicManager h') topic id = Some p.
Proof.
  unfold handleProduce, addresses. intros H Ha. destruct (rq_Payload req) as [q | | | | | | |]; try done. eapply on_partition_keeps; [exact H |].
  intros h0 p0 H0 Hs Hp. cbv beta in Hs. destruct (produce_on p0 (prq_ProducerID q) (prq_ProducerEpoch q) (prq_Messages q)) as [[r p1] |]; simpl in Hs; [| done].
  destruct r; injection Hs as <- <-; apply put_keeps; eauto.
Qed.

Lemma handleFetch_keeps (h : Handler L D) req resp h' topic id p :
  handleFetch mkdir_ok os_text storage_text read_text h req = Some (resp, h') -> addresses req topic id = false ->
  partition_at (hd_topicManager h) topic id = Some p -> partition_at (hd_topicManager h') topic id = Some p.
Proof.
  unfold handleFetch, addresses. intros H Ha. destruct (rq_Payload req) as [| q | | | | | |]; try done. eapply on_partition_keeps; [exact H |].
  intros h0 p0 H0 Hs Hp. cbv beta in Hs. destruct (fetch_on p0 (frq_Offset q) (frq_MaxBytes q) (frq_IsolationLevel q)) as [[r p1] |]; simpl in Hs; [| done].
  destruct r; injection Hs as <- <-; apply put_keeps; eauto.
Qed.

Lemma handleGetOffset_keeps (h : Handler L D) req resp h' topic id p :
  handleGetOffset os_text storage_text h req = Some (resp, h') -> addresses req topic id = false ->
  partition_at (hd_topicManager h) topic id = Some p -> partition_at (hd_topicManager h') topic id = Some p.
Proof.
  unfold handleGetOffset, addresses. intros H Ha Hp. destruct (rq_Payload req) as [| | q | | | | |]; try done.
  destruct (GetPartition _ _ _) as [p0 | e] eqn:Eg; [| by injection H as <- <-]. apply GetPartition_at in Eg.
  destruct (resolve_offset p0 (grq_Timestamp q)) as [[r p1] |]; simpl in H; [| done].
  destruct r as [[o t] | e]; injection H as <- <-; apply put_keeps; eauto.
Qed.

Lemma handleCreateTopic_keeps (h : Handler L D) req resp h' topic id p :
  handleCreateTopic mkdir_ok os_text storage_text h req = Some (resp, h') ->
  partition_at (hd_topicManager h) topic id = Some p -> partition_at (hd_topicManager h') topic id = Some p.
Proof.
  unfold handleCreateTopic. intros H Hp. destruct (rq_Payload req) as [| | | q | | | |]; try done.
  destruct (CreateTopic _ _ _ _) as [[err tm] |] eqn:Ec; simpl in H; [| done].
  destruct err; injection H as <- <-; by eapply CreateTopic_keeps.
Qed.

Lemma handleDeleteTopic_keeps (h : Handler L D) req resp h' topic id p :
  handleDeleteTopic remove_ok os_text storage_text h req = Some (resp, h') -> addresses req topic id = false ->
  partition_at (hd_topicManager h) topic id = Some p -> partition_at (hd_topicManager h') topic id = Some p.
Proof.
  unfold handleDeleteTopic, addresses. intros H Ha Hp. destruct (rq_Payload req) as [| | | | name | | |]; try done.
  destruct (DeleteTopic _ _ _) as [[err tm] |] eqn:Ed; simpl in H; [| done]. apply bool_decide_eq_false in Ha.
  destruct err; injection H as <- <-; eapply DeleteTopic_keeps; eauto.
Qed.

(** In memory a request leaves every partition alone that it is not addressed to. *)
Lemma others_kept now (h : Handler L D) req resp h' topic id p : Handle now h req = Some (resp, h') ->
  addresses req topic id = false -> partition_at (hd_topicManager h) topic id = Some p -> partition_at (hd_topicManager h') topic id = Some p.
Proof.
  intros H Ha Hp.
  unfold Topics.Handle in H. set (h1 := mkHandler _ _ _ _) in H. change (hd_topicManager h) with (hd_topicManager h1) in Hp. clearbody h1.
  destruct (_ =? RequestTypeProduce); [by eapply handleProduce_keeps |]. destruct (_ =? RequestTypeFetch); [by eapply handleFetch_keeps |].
  destruct (_ =? RequestTypeGetOffset); [by eapply handleGetOffset_keeps |].
  destruct (_ =? RequestTypeCreateTopic); [by eapply handleCreateTopic_keeps |].
  destruct (_ =? RequestTypeDeleteTopic); [by eapply handleDeleteTopic_keeps |].
  destruct (_ =? RequestTypeListTopics); [by injection H as <- <- |]. destruct (_ =? RequestTypeHealthCheck); by injection H as <- <-.
Qed.

(** ** What is on the disk *)

(** The directories are those of the partitions, and hold the files of their logs. *)
Record disk_ok (version : Z) (sd : path) (tm : TM) : Prop := {
  dk_dir : tm_storageDir tm = sd;
  dk_version : tm_messageFormatVersion tm = version;
  dk_good : Forall good_name sd;
  dk_part : forall name id p, partition_at tm name id = Some p ->
    good_name name /\ 0 <= id < 2 ^ 32 /\ tm_disk tm !! (sd ++ [name; partition_name id]) = Some (ls_files (pt_log p));
  dk_only : forall q d, tm_disk tm !! q = Some d -> exists name id p, q = sd ++ [name; partition_name id] /\ partition_at tm name id = Some p
}.

Lemma partition_dir_good (tm : TM) name id : Forall good_name (tm_storageDir tm) -> good_name name -> 0 <= id ->
  partition_dir tm name id = tm_storageDir tm ++ [name; partition_name id].
Proof. intros H Hn Hid. apply Join_good; [done |]. constructor; [done |]. constructor; [by apply partition_name_good | constructor]. Qed.

Lemma dir_inj (sd : path) name name' id id' : 0 <= id < 2 ^ 32 -> 0 <= id' < 2 ^ 32 ->
  sd ++ [name; partition_name id] = sd ++ [name'; partition_name id'] -> name = name' /\ id = id'.
Proof.
  intros H H' E. apply app_inv_head in E. assert (name = name' /\ partition_name id = partition_name id') as [-> Hp] by (split; congruence).
  split; [done | by apply partition_name_inj].
Qed.

Lemma put_ok version sd (tm : TM) name id p0 p : disk_ok version sd tm -> partition_at tm name id = Some p0 ->
  disk_ok version sd (put_partition tm name id p).
Proof.
  intros Hok Hp0. destruct (dk_part _ _ _ Hok _ _ _ Hp0) as (Hn & Hid & Hd).
  assert (Hdisk : tm_disk (put_partition tm name id p) = <[sd ++ [name; partition_name id] := ls_files (pt_log p)]> (tm_disk tm)).
  { simpl. rewrite partition_dir_good; [| rewrite (dk_dir _ _ _ Hok); apply Hok | done | lia]. rewrite (dk_dir _ _ _ Hok). unfold write_files. by rewrite Hd. }
  split; [apply Hok | apply Hok | apply Hok | |]; rewrite Hdisk.
  - intros name' id' p'. rewrite put_at by eauto. case_bool_decide as E.
    + intros [= <-]. destruct E as [-> ->]. rewrite lookup_insert_eq. done.
    + intros Hp'. destruct (dk_part _ _ _ Hok _ _ _ Hp') as (? & ? & ?). do 2 (split; [done |]). rewrite lookup_insert_ne; [done |].
      intros E'. apply dir_inj in E'; naive_solver.
  - intros q d. rewrite lookup_insert_Some. intros [[<- <-] | [Hne Hq]].
    + exists name, id, p. split; [done |]. rewrite put_at by eauto. by rewrite bool_decide_true.
    + destruct (dk_only _ _ _ Hok _ _ Hq) as (name' & id' & p' & -> & Hp'). exists name', id'.
      rewrite put_at by eauto. case_bool_decide; eauto.
Qed.

Hypothesis mkdir_succeeds : forall dir, mkdir_ok dir = true.

Lemma createPartition_fresh (version : Z) (disk : gmap path D) (dir : path) (p0 : Partition L) : disk !! dir = None -> reopens version ls_empty p0 ->
  createPartition mkdir_ok version disk dir = Some (Ok (p0, <[dir := ls_files (pt_log p0)]> disk)).
Proof.
  unfold createPartition, open_at, reopens, reopened. rewrite mkdir_succeeds. simpl. intros -> H. simpl.
  destruct (ls_open version ls_empty) as [[l |] |]; simplify_eq/=. destruct (newRecoveredPartition l); by simplify_eq/=.
Qed.

(** The partitions made are the numbers from [i] on, each over an empty log in its directory. *)
Lemma create_loop_spec (tm : TM) name p0 n : forall i topic disk, Forall good_name (tm_storageDir tm) -> good_name name ->
  0 <= i -> i + Z.of_nat n <= 2 ^ 32 -> reopens (tm_messageFormatVersion tm) ls_empty p0 ->
  (forall id, i <= id < 2 ^ 32 -> disk !! (tm_storageDir tm ++ [name; partition_name id]) = None) ->
  exists topic' disk', create_loop mkdir_ok tm name n i topic disk = Some (Ok topic', disk')
    /\ (forall id, topic' !! id = if bool_decide (i <= id < i + Z.of_nat n) then Some p0 else topic !! id)
    /\ (forall q d, disk' !! q = Some d <->
          (exists id, i <= id < i + Z.of_nat n /\ q = tm_storageDir tm ++ [name; partition_name id] /\ d = ls_files (pt_log p0))
          \/ ((forall id, i <= id < i + Z.of_nat n -> q <> tm_storageDir tm ++ [name; partition_name id]) /\ disk !! q = Some d)).
Proof.
  induction n as [| n IH]; intros i topic disk Hsd Hn Hi Hmax Hr Hfresh.
  - exists topic, disk. split; [done |]. split; [intros id; by rewrite bool_decide_false by lia |].
    intros q d. split; [intros H; right; split; [intros id Hid; lia | done] |]. intros [(id & ? & _) | [_ ?]]; [lia | done].
  - cbn [create_loop]. rewrite partition_dir_good by done. rewrite (createPartition_fresh _ _ _ p0) by (done || (apply Hfresh; lia)). cbn [mbind option_bind].
    destruct (IH (i + 1) (<[i := p0]> topic) (<[tm_storageDir tm ++ [name; partition_name i] := ls_files (pt_log p0)]> disk))
      as (topic' & disk' & -> & Ht & Hd); try done; try lia.
    { intros id Hid. rewrite lookup_insert_ne; [apply Hfresh; lia |]. intros E. apply dir_inj in E; lia. }
    exists topic', disk'. split; [done |]. split.
    + intros id. rewrite Ht. destruct (decide (id = i)) as [-> | Hne].
      * rewrite bool_decide_false by lia. rewrite lookup_insert_eq. by rewrite bool_decide_true by lia.
      * rewrite lookup_insert_ne by done. by rewrite (bool_decide_ext (i + 1 <= id < i + 1 + Z.of_nat n) (i <= id < i + Z.of_nat (S n))) by lia.
    + intros q d. rewrite Hd, lookup_insert_Some. split.
      * intros [(id & Hid & -> & ->) | [Hq [[<- <-] | [Hne H]]]].
        -- left. exists id. split; [lia | done].
        -- left. exists i. split; [lia | done].
        -- right. split; [| done]. intros id Hid. destruct (decide (id = i)) as [-> |]; [congruence | apply Hq; lia].
      * intros [(id & Hid & -> & ->) | [Hq H]].
        -- destruct (decide (id = i)) as [-> | Hne]; [right | left; exists id; split; [lia | done]].
           split; [| by left]. intros id' Hid' E. apply dir_inj in E; lia.
        -- right. split; [intros id Hid; apply Hq; lia |]. right. split; [| done]. intros E. symmetry in E. revert E. apply Hq. lia.
Qed.

Lemma CreateTopic_ok version sd (tm : TM) name n err tm' p0 : disk_ok version sd tm -> good_name name -> 0 <= n < 2 ^ 32 ->
  reopens version ls_empty p0 -> CreateTopic mkdir_ok tm name n = Some (err, tm') -> disk_ok version sd tm'.
Proof.
  intros Hok Hn Hnum Hr. unfold CreateTopic. destruct (tm_topics tm !! name) as [t |] eqn:Et; [repeat case_match; by intros [= <- <-] |].
  assert (Hnone : forall id, partition_at tm name id = None) by (intros id; unfold partition_at; by rewrite Et).
  destruct (create_loop_spec tm name p0 (Z.to_nat n) 0 ∅ (tm_disk tm)) as (topic & disk & -> & Ht & Hd);
    [rewrite (dk_dir _ _ _ Hok); apply Hok | done | lia | lia | by rewrite (dk_version _ _ _ Hok) | |].
  { intros id Hid. rewrite (dk_dir _ _ _ Hok). destruct (tm_disk tm !! _) eqn:E; [| done].
    destruct (dk_only _ _ _ Hok _ _ E) as (name' & id' & p & Eq & Hp). destruct (dk_part _ _ _ Hok _ _ _ Hp) as (_ & Hid' & _).
    apply dir_inj in Eq as [<- <-]; [| lia | lia]. by rewrite Hnone in Hp. }
  rewrite (dk_dir _ _ _ Hok) in Hd. simpl. intros [= <- <-].
  assert (Hat : forall name' id p, partition_at (set_topics tm (<[name := topic]> (tm_topics tm)) disk) name' id = Some p <->
    (name' = name /\ 0 <= id < n /\ p = p0) \/ (name' <> name /\ partition_at tm name' id = Some p)).
  { intros name' id p. unfold partition_at. simpl. destruct (decide (name' = name)) as [-> | Hne].
    - rewrite lookup_insert_eq. simpl. rewrite Ht, lookup_empty. case_bool_decide; naive_solver lia.
    - rewrite lookup_insert_ne by done. naive_solver. }
  split; [apply Hok | apply Hok | apply Hok | |].
  - intros name' id p [(-> & Hid & ->) | [Hne Hp]]%Hat.
    + split; [done |]. split; [lia |]. simpl. apply Hd. left. exists id. split; [lia | done].
    + destruct (dk_part _ _ _ Hok _ _ _ Hp) as (? & ? & ?). do 2 (split; [done |]). simpl. apply Hd. right. split; [| done].
      intros id' Hid' E. apply dir_inj in E as [-> _]; [done | done | lia].
  - intros q d [(id & Hid & -> & ->) | [_ Hq]]%Hd.
    + exists name, id, p0. split; [done |]. apply Hat. left. split; [done | lia || (split; [lia | done])].
    + destruct (dk_only _ _ _ Hok _ _ Hq) as (name' & id & p & -> & Hp). exists name', id, p. split; [done |]. apply Hat. right.
      split; [| done]. intros ->. by rewrite Hnone in Hp.
Qed.

(** The files of the logs of one topic are in their directories. *)
Definition topic_stored (sd : path) (name : bytes) (topic : gmap Z (Partition L)) (disk : gmap path D) : Prop :=
  forall id p, topic !! id = Some p -> 0 <= id < 2 ^ 32 /\ disk !! (sd ++ [name; partition_name id]) = Some (ls_files (pt_log p)).

Lemma close_partitions_spec (tm : TM) name ps : forall topic disk closed disk', Forall good_name (tm_storageDir tm) -> good_name name ->
  (forall id p, (id, p) ∈ ps -> is_Some (topic !! id)) -> topic_stored (tm_storageDir tm) name topic disk ->
  close_partitions tm name ps topic disk = Some (closed, disk') ->
  topic_stored (tm_storageDir tm) name closed disk' /\ dom closed = dom topic /\ dom disk' = dom disk
  /\ forall q, (forall id, q <> tm_storageDir tm ++ [name; partition_name id]) -> disk' !! q = disk !! q.
Proof.
  induction ps as [| [id p] ps IH]; intros topic disk closed disk' Hsd Hn Hps Hst; simpl; [by intros [= <- <-] |].
  destruct (ls_Close (pt_log p)) as [l |]; simpl; [| done]. destruct (Hps id p) as [p1 Hp1]; [by left |]. destruct (Hst _ _ Hp1) as [Hid Hd].
  rewrite partition_dir_good by (done || lia). unfold write_files. rewrite Hd. intros Hc.
  apply IH in Hc as (Hst' & Hdom & Hdomd & Hq); [| done | done | |].
  - split; [done |]. split; [| split].
    + rewrite Hdom, dom_insert_L. apply subseteq_union_1_L, singleton_subseteq_l. by eapply elem_of_dom_2.
    + rewrite Hdomd, dom_insert_L. apply subseteq_union_1_L, singleton_subseteq_l. by eapply elem_of_dom_2.
    + intros q Hne. rewrite Hq by done. apply lookup_insert_ne. intros E. by eapply Hne.
  - intros id' p' Hin. apply lookup_insert_is_Some. destruct (decide (id = id')); [by left | right; split; [done |]]. eapply Hps. by right.
  - intros id' p'. rewrite lookup_insert_Some. intros [[<- <-] | [Hne Hp']].
    + split; [done |]. by rewrite lookup_insert_eq.
    + destruct (Hst _ _ Hp') as [Hid' Hd']. split; [done |]. rewrite lookup_insert_ne; [done |]. intros E. apply dir_inj in E; naive_solver.
Qed.

Lemma under_dir (sd : path) name name' x : under (sd ++ [name]) (sd ++ [name'; x]) = bool_decide (name = name').
Proof.
  unfold under. rewrite <- sub_dir. rewrite take_app_le by (rewrite !length_app; simpl; lia).
  rewrite take_ge by (rewrite !length_app; simpl; lia). apply bool_decide_ext. split; [intros E; apply app_inv_head in E; congruence | by intros ->].
Qed.

Lemma DeleteTopic_ok version sd (tm : TM) name err tm' : disk_ok version sd tm -> good_name name ->
  DeleteTopic remove_ok tm name = Some (err, tm') -> disk_ok version sd tm'.
Proof.
  intros Hok Hn. unfold DeleteTopic. destruct (tm_topics tm !! name) as [t |] eqn:Et; [| by intros [= <- <-]].
  assert (Hat : forall id, partition_at tm name id = t !! id) by (intros id; unfold partition_at; by rewrite Et).
  destruct (close_partitions tm name (map_to_list t) t (tm_disk tm)) as [[closed disk] |] eqn:Ec; simpl; [| done].
  apply close_partitions_spec in Ec as (Hst & Hdom & Hdomd & Hq); [| rewrite (dk_dir _ _ _ Hok); apply Hok | done | |].
  2: { intros id p Hin%elem_of_map_to_list. eauto. }
  2: { intros id p Hp. rewrite <- Hat in Hp. destruct (dk_part _ _ _ Hok _ _ _ Hp) as (_ & ? & ?). by rewrite (dk_dir _ _ _ Hok). }
  rewrite (dk_dir _ _ _ Hok) in *.
  assert (Hother : forall name' id, name' <> name -> disk !! (sd ++ [name'; partition_name id]) = tm_disk tm !! (sd ++ [name'; partition_name id])).
  { intros name' id Hne. apply Hq. intros id' E. apply app_inv_head in E. congruence. }
  assert (Hkeys : forall q d, disk !! q = Some d -> exists name' id p, q = sd ++ [name'; partition_name id] /\ partition_at tm name' id = Some p).
  { intros q d Hd. assert (is_Some (tm_disk tm !! q)) as [d' Hd'] by (apply elem_of_dom; rewrite <- Hdomd; by eapply elem_of_dom_2).
    by eapply (dk_only _ _ _ Hok). }
  destruct (remove_ok _); simpl; intros [= <- <-]; (split; [apply Hok | apply Hok | apply Hok | |]).
  - intros name' id p Hp. unfold partition_at in Hp. simpl in Hp. rewrite lookup_delete in Hp. case_decide as E; [done |].
    destruct (dk_part _ _ _ Hok _ _ _ Hp) as (? & ? & ?). do 2 (split; [done |]). simpl. apply map_lookup_filter_Some. split; [by rewrite Hother |].
    simpl. unfold topic_dir. rewrite Join_good, (dk_dir _ _ _ Hok), under_dir, bool_decide_false; [done | done | rewrite (dk_dir _ _ _ Hok); apply Hok | by repeat constructor; apply Hn].
  - intros q d. simpl. rewrite map_lookup_filter_Some. intros [Hd Hu]. destruct (Hkeys _ _ Hd) as (name' & id & p & -> & Hp). exists name', id, p.
    split; [done |]. unfold partition_at. simpl. rewrite lookup_delete_ne; [done |]. intros <-. simpl in Hu. unfold topic_dir in Hu.
    rewrite Join_good, (dk_dir _ _ _ Hok), under_dir, bool_decide_true in Hu; [done | done | rewrite (dk_dir _ _ _ Hok); apply Hok | by repeat constructor; apply Hn].
  - intros name' id p Hp. unfold partition_at in Hp. simpl in Hp. destruct (decide (name' = name)) as [-> | Hne].
    + rewrite lookup_insert_eq in Hp. simpl in Hp. destruct (Hst _ _ Hp). done.
    + rewrite lookup_insert_ne in Hp by done. destruct (dk_part _ _ _ Hok _ _ _ Hp) as (? & ? & ?). do 2 (split; [done |]). simpl. by rewrite Hother.
  - intros q d Hd. destruct (Hkeys _ _ Hd) as (name' & id & p & -> & Hp). unfold partition_at. simpl. exists name', id. destruct (decide (name' = name)) as [-> | Hne].
    + rewrite lookup_insert_eq. simpl. rewrite Hat in Hp. assert (is_Some (closed !! id)) as [p' Hp'] by (apply elem_of_dom; rewrite Hdom; by eapply elem_of_dom_2). eauto.
    + rewrite lookup_insert_ne by done. eauto.
Qed.

(** ** Every run of requests *)

(** The topic names of a request are single components of a path, and the number of partitions fits its width. *)
Definition request_ok (req : Request) : Prop :=
  match rq_Payload req with
  | QProduce q => good_name (prq_Topic q)
  | QFetch q => good_name (frq_Topic q)
  | QCreateTopic q => good_name (crq_Topic q) /\ 0 <= crq_NumPartitions q < 2 ^ 32
  | QDeleteTopic name => good_name name
  | _ => True
  end.

Lemma on_partition_ok version sd (h : Handler L D) req name pid serve resp h' p0 :
  disk_ok version sd (hd_topicManager h) -> good_name name -> reopens version ls_empty p0 ->
  on_partition mkdir_ok os_text storage_text h req name pid serve = Some (resp, h') ->
  (forall h0 p, disk_ok version sd (hd_topicManager h0) -> partition_at (hd_topicManager h0) name pid = Some p ->
     serve h0 p = Some (resp, h') -> disk_ok version sd (hd_topicManager h')) ->
  disk_ok version sd (hd_topicManager h').
Proof.
  unfold on_partition, auto_create. intros Hok Hn Hr H Hserve.
  assert (exists err h0, disk_ok version sd (hd_topicManager h0) /\
    match err with
    | Some e => Some (errorResponse h0 req Proto.ErrTopicExists (text "failed to auto-create topic: " ++ error_text os_text storage_text e))
    | None => match GetPartition (hd_topicManager h0) name pid with
              | Err e => Some (errorResponse h0 req Proto.ErrTopicNotFound (error_text os_text storage_text e))
              | Ok p => serve h0 p
              end
    end = Some (resp, h')) as (err & h0 & Hok0 & H0).
  { destruct (TopicExists _ _); simpl in H; [by exists None, h |].
    destruct (CreateTopic _ _ _ _) as [[err tm] |] eqn:Ec; simpl in H; [| done]. exists err, (with_topics h tm). split; [| done].
    eapply CreateTopic_ok; [done | done | | done | done]. lia. }
  destruct err as [e |]; [by injection H0 as <- <- |].
  destruct (GetPartition _ _ _) as [p | e] eqn:Eg; [| by injection H0 as <- <-]. apply GetPartition_at in Eg. by eapply Hserve.
Qed.

Lemma Handle_ok version sd now (h : Handler L D) req resp h' p0 : disk_ok version sd (hd_topicManager h) -> request_ok req ->
  reopens version ls_empty p0 -> Handle now h req = Some (resp, h') -> disk_ok version sd (hd_topicManager h').
Proof.
  intros Hok Hreq Hr H. unfold Topics.Handle in H. set (h1 := mkHandler _ _ _ _) in H.
  change (hd_topicManager h) with (hd_topicManager h1) in Hok. clearbody h1. unfold request_ok in Hreq.
  destruct (_ =? RequestTypeProduce).
  { unfold handleProduce in H. destruct (rq_Payload req) as [q | | | | | | |]; try done. eapply on_partition_ok; [exact Hok | done | exact Hr | exact H |].
    intros h0 p Hok0 Hp Hs. cbv beta in Hs. destruct (produce_on p _ _ _) as [[r p1] |]; simpl in Hs; [| done].
    destruct r; injection Hs as <- <-; by eapply put_ok. }
  destruct (_ =? RequestTypeFetch).
  { unfold handleFetch in H. destruct (rq_Payload req) as [| q | | | | | |]; try done. eapply on_partition_ok; [exact Hok | done | exact Hr | exact H |].
    intros h0 p Hok0 Hp Hs. cbv beta in Hs. destruct (fetch_on p _ _ _) as [[r p1] |]; simpl in Hs; [| done].
    destruct r; injection Hs as <- <-; by eapply put_ok. }
  destruct (_ =? RequestTypeGetOffset).
  { unfold handleGetOffset in H. destruct (rq_Payload req) as [| | q | | | | |]; try done.
    destruct (GetPartition _ _ _) as [p | e] eqn:Eg; [| by injection H as <- <-]. apply GetPartition_at in Eg.
    destruct (resolve_offset p _) as [[r p1] |]; simpl in H; [| done]. destruct r as [[o t] | e]; injection H as <- <-; by eapply put_ok. }
  destruct (_ =? RequestTypeCreateTopic).
  { unfold handleCreateTopic in H. destruct (rq_Payload req) as [| | | q | | | |]; try done. destruct Hreq.
    destruct (CreateTopic _ _ _ _) as [[err tm] |] eqn:Ec; simpl in H; [| done]. destruct err; injection H as <- <-; by eapply CreateTopic_ok. }
  destruct (_ =? RequestTypeDeleteTopic).
  { unfold handleDeleteTopic in H. destruct (rq_Payload req) as [| | | | name | | |]; try done.
    destruct (DeleteTopic _ _ _) as [[err tm] |] eqn:Ed; simpl in H; [| done]. destruct err; injection H as <- <-; by eapply DeleteTopic_ok. }
  destruct (_ =? RequestTypeListTopics); [by injection H as <- <- |]. destruct (_ =? RequestTypeHealthCheck); by injection H as <- <-.
Qed.

(** The state after requests, each with the time it arrives; [None] is a panic. *)
Fixpoint handler_run (h : Handler L D) (reqs : list (Z * Request)) : option (Handler L D) :=
  match reqs with
  | [] => Some h
  | (now, req) :: reqs => '(_, h) ← Handle now h req; handler_run h reqs
  end.

Lemma handler_run_ok version sd reqs p0 : forall h h' : Handler L D, disk_ok version sd (hd_topicManager h) ->
  Forall (fun r => request_ok r.2) reqs -> reopens version ls_empty p0 -> handler_run h reqs = Some h' -> disk_ok version sd (hd_topicManager h').
Proof.
  induction reqs as [| [now req] reqs IH]; intros h h' Hok Hreqs Hr; simpl; [by intros [= <-] |].
  inversion Hreqs; subst. destruct (Handle now h req) as [[resp h1] |] eqn:E; simpl; [| done]. apply IH; [| done | done]. by eapply Handle_ok.
Qed.

(** The manager of a new broker. *)
Definition empty_manager (version : Z) (dataDir : path) : TM := mkTM ∅ (dataDir ++ [text "topics"]) version ∅.

Lemma topics_good : Forall good_name [text "topics"].
Proof. repeat constructor; apply (bool_decide_unpack _); vm_compute; done. Qed.

Lemma NewTopicManager_empty version dataDir : Forall good_name dataDir ->
  NewTopicManagerWithMessageFormatVersion dataDir version ∅ = Some (empty_manager version dataDir)
  /\ disk_ok version (dataDir ++ [text "topics"]) (empty_manager version dataDir).
Proof.
  intros Hd. unfold NewTopicManagerWithMessageFormatVersion, loadExistingTopics. rewrite Join_good by (done || apply topics_good). split.
  - cbn [tm_disk tm_storageDir]. destruct (ReadDir ∅ _) as [| x l] eqn:E; [done |]. exfalso.
    assert (x ∈ ReadDir (∅ : gmap path D) (dataDir ++ [text "topics"])) as Hx by (rewrite E; by left).
    apply ReadDir_elem in Hx as (q & d & Hq & _). by rewrite lookup_empty in Hq.
  - split; [done | done | apply Forall_app; split; [done | apply topics_good] | |].
    + intros name id p. unfold partition_at. simpl. by rewrite lookup_empty.
    + intros q d. simpl. by rewrite lookup_empty.
Qed.

Lemma run_disk version dataDir reqs start (h : Handler L D) p0 : Forall good_name dataDir -> reopens version ls_empty p0 ->
  Forall (fun r => request_ok r.2) reqs -> handler_run (NewHandlerWithTopicManager start (empty_manager version dataDir)) reqs = Some h ->
  disk_ok version (dataDir ++ [text "topics"]) (hd_topicManager h).
Proof.
  intros Hd Hr Hreqs Hrun. destruct (NewTopicManager_empty version dataDir Hd) as [_ Hok0].
  exact (handler_run_ok _ _ reqs p0 (NewHandlerWithTopicManager start (empty_manager version dataDir)) h Hok0 Hreqs Hr Hrun).
Qed.

(** C16: partitions are isolated when topic names are proper, that is, single components of a path
    other than [.] and [..].  After any requests with proper names on a new broker, one more such
    request leaves every partition alone that it is not addressed to, whether it succeeds or fails,
    creates a topic on the way or deletes another one: the log, the open and the aborted
    transactions stay exactly what they were, its directory holds exactly the files of its log
    before and after, and no other partition has that directory.  (The operating system creates the
    directories it is asked for, and an empty directory opens as a log.) *)
Theorem partitions_isolated version dataDir reqs start now (h h' : Handler L D) req resp topic id p p0 : Forall good_name dataDir ->
  reopens version ls_empty p0 -> Forall (fun r => request_ok r.2) reqs ->
  handler_run (NewHandlerWithTopicManager start (empty_manager version dataDir)) reqs = Some h ->
  request_ok req -> Handle now h req = Some (resp, h') ->
  addresses req topic id = false -> partition_at (hd_topicManager h) topic id = Some p ->
  let dir := partition_dir (hd_topicManager h) topic id in
  partition_at (hd_topicManager h') topic id = Some p
  /\ tm_disk (hd_topicManager h) !! dir = Some (ls_files (pt_log p)) /\ tm_disk (hd_topicManager h') !! dir = Some (ls_files (pt_log p))
  /\ forall topic' id' p', partition_at (hd_topicManager h') topic' id' = Some p' ->
       partition_dir (hd_topicManager h') topic' id' = dir -> topic' = topic /\ id' = id.
Proof.
  intros Hd Hr Hreqs Hrun Hreq Hh Ha Hp dir. pose proof (run_disk version dataDir reqs start h p0 Hd Hr Hreqs Hrun) as Hok.
  pose proof (Handle_ok _ _ now h req resp h' p0 Hok Hreq Hr Hh) as Hok'. pose proof (others_kept _ _ _ _ _ _ _ _ Hh Ha Hp) as Hp'.
  assert (Hdir : forall tm : TM, disk_ok version (dataDir ++ [text "topics"]) tm -> forall name i q, partition_at tm name i = Some q ->
            partition_dir tm name i = (dataDir ++ [text "topics"]) ++ [name; partition_name i]).
  { intros tm Htm name i q Hq. destruct (dk_part _ _ _ Htm _ _ _ Hq) as (Hn & Hi & _).
    rewrite partition_dir_good; [by rewrite (dk_dir _ _ _ Htm) | rewrite (dk_dir _ _ _ Htm); apply Htm | done | lia]. }
  unfold dir. rewrite (Hdir _ Hok _ _ _ Hp). destruct (dk_part _ _ _ Hok _ _ _ Hp) as (_ & Hid & Hf).
  destruct (dk_part _ _ _ Hok' _ _ _ Hp') as (_ & _ & Hf'). do 3 (split; [done |]). intros topic' id' p' Hq. rewrite (Hdir _ Hok' _ _ _ Hq).
  destruct (dk_part _ _ _ Hok' _ _ _ Hq) as (_ & Hid' & _). by apply dir_inj.
Qed.

(** C17: a restart brings the partitions back.  After any requests with proper topic names (single
    components of a path), produce, fetch and delete included, on a new broker whose operating
    system creates every directory it is asked for, and provided that the log of every partition
    can be opened from the files it has written, a process that finds the disk as it is has
    exactly the partitions that the broker had, each opened from the files of its log, and no
    others.  (Where a directory was refused or a log does not open, a partition is missing.) *)
Theorem topics_survive_restart version dataDir reqs start (h : Handler L D) p0 : Forall good_name dataDir ->
  reopens version ls_empty p0 -> Forall (fun r => request_ok r.2) reqs ->
  handler_run (NewHandlerWithTopicManager start (empty_manager version dataDir)) reqs = Some h ->
  (forall name id p, partition_at (hd_topicManager h) name id = Some p -> exists p', reopens version (ls_files (pt_log p)) p') ->
  exists tm, NewTopicManagerWithMessageFormatVersion dataDir version (tm_disk (hd_topicManager h)) = Some tm
    /\ forall name id p', partition_at tm name id = Some p' <->
         exists p, partition_at (hd_topicManager h) name id = Some p /\ reopens version (ls_files (pt_log p)) p'.
Proof.
  intros Hd Hr Hreqs Hrun Hopen. pose proof (run_disk version dataDir reqs start h p0 Hd Hr Hreqs Hrun) as Hok.
  destruct (restart_spec version dataDir (tm_disk (hd_topicManager h)) Hd) as (tm & Hnew & Hat).
  { intros q d Hq. destruct (dk_only _ _ _ Hok _ _ Hq) as (name & id & p & -> & Hp). destruct (dk_part _ _ _ Hok _ _ _ Hp) as (_ & Hid & Hf).
    rewrite Hf in Hq. injection Hq as <-. destruct (Hopen _ _ _ Hp) as [p' Hp']. exists name, id, p'. done. }
  exists tm. split; [done |]. intros name id p'. rewrite Hat. unfold stored_at. split.
  - intros (Hid & d & Hq & Hp'). destruct (dk_only _ _ _ Hok _ _ Hq) as (name' & id' & p & E & Hp).
    destruct (dk_part _ _ _ Hok _ _ _ Hp) as (_ & Hid' & Hf). apply dir_inj in E as [<- <-]; [| done | done].
    rewrite Hf in Hq. injection Hq as <-. eauto.
  - intros (p & Hp & Hp'). destruct (dk_part _ _ _ Hok _ _ _ Hp) as (_ & Hid & Hf). eauto.
Qed.

(** C18: topic names are not checked.  A request that creates a topic of the empty name without
    partitions, and one that deletes it, both answered with success, remove the directory of all
    topics: the broker goes on with the partitions in memory, nothing is left on the disk, and a
    restart finds no topic. *)
Theorem empty_topic_name_deletes_all version dataDir now (h : Handler L D) id1 id2 v f :
  disk_ok version (dataDir ++ [text "topics"]) (hd_topicManager h) -> Forall good_name dataDir ->
  tm_topics (hd_topicManager h) !! [] = None -> remove_ok (dataDir ++ [text "topics"]) = true ->
  exists r1 r2 h1 h2,
    Handle now h (mkRequest (mkReqHeader id1 RequestTypeCreateTopic v f) (QCreateTopic (mkCreateTopicRequest [] 0 1))) = Some (r1, h1)
    /\ Handle now h1 (mkRequest (mkReqHeader id2 RequestTypeDeleteTopic v f) (QDeleteTopic [])) = Some (r2, h2)
    /\ sh_Status (rs_Header r1) = StatusOK /\ sh_Status (rs_Header r2) = StatusOK
    /\ tm_topics (hd_topicManager h2) = tm_topics (hd_topicManager h) /\ tm_disk (hd_topicManager h2) = ∅
    /\ exists tm, NewTopicManagerWithMessageFormatVersion dataDir version (tm_disk (hd_topicManager h2)) = Some tm /\ tm_topics tm = ∅.
Proof.
  intros Hok Hd Hnone Hrm. destruct h as [[topics sd ver disk] a b c]. simpl in *.
  pose proof (dk_dir _ _ _ Hok) as Hsd. simpl in Hsd. subst sd. pose proof (dk_good _ _ _ Hok) as Hgood.
  assert (Hdir : Join (dataDir ++ [text "topics"]) [[]] = dataDir ++ [text "topics"]).
  { unfold Join, Clean. rewrite fold_left_app. rewrite (clean_good (dataDir ++ [text "topics"])) by done. reflexivity. }
  assert (Hempty : filter (fun e : path * D => under (dataDir ++ [text "topics"]) e.1 = false) disk = ∅).
  { apply map_empty. intros q. apply map_lookup_filter_None. right. intros d Hq Hu. destruct (dk_only _ _ _ Hok _ _ Hq) as (name & id & p & -> & _).
    simpl in Hu. unfold under in Hu. rewrite take_app_length, bool_decide_true in Hu by done. done. }
  assert (Hc : CreateTopic mkdir_ok (mkTM topics (dataDir ++ [text "topics"]) ver disk) [] 0
               = Some (None, mkTM (<[[] := ∅]> topics) (dataDir ++ [text "topics"]) ver disk)).
  { unfold CreateTopic. cbn [tm_topics]. by rewrite Hnone. }
  assert (Hdel : DeleteTopic remove_ok (mkTM (<[[] := ∅]> topics) (dataDir ++ [text "topics"]) ver disk) []
                 = Some (None, mkTM topics (dataDir ++ [text "topics"]) ver ∅)).
  { unfold DeleteTopic, topic_dir. cbn [tm_topics tm_storageDir]. rewrite lookup_insert_eq, map_to_list_empty, Hdir. cbn [close_partitions mbind option_bind].
    rewrite Hrm. unfold set_topics. cbn [negb tm_topics tm_storageDir tm_messageFormatVersion tm_disk]. by rewrite Hempty, delete_insert_id. }
  remember (dataDir ++ [text "topics"]) as sd eqn:Hsd.
  unfold Topics.Handle. cbn -[CreateTopic DeleteTopic]. unfold handleCreateTopic, handleDeleteTopic. cbn -[CreateTopic DeleteTopic]. rewrite Hc. cbn -[DeleteTopic].
  eexists _, _, _, _. split; [done |]. cbn -[DeleteTopic]. rewrite Hdel. split; [done |]. do 3 (split; [done |]). split; [done |].
  exists (empty_manager version dataDir). split; [| done]. by apply NewTopicManager_empty.
Qed.
End requests.

(** ** Witnesses *)

#[local] Instance coinless_ops : MemTableOps memTableImpl := skip_ops (fun _ => false).

Definition some_log : Type := logImpl walImpl memTableImpl.
Definition any_dir (dir : path) : bool := true.
Definition no_storage_text (e : storage_error) : bytes := [].
Definition no_code_text (code : Z) : bytes := [].
Definition root_dir : path := [text "data"].

Lemma root_dir_good : Forall good_name root_dir.
Proof. repeat constructor; apply (bool_decide_unpack _); vm_compute; done. Qed.

#[local] Notation handle := (Handle (L := some_log) (D := walDir) any_dir any_dir [] no_storage_text no_code_text map_to_list).
#[local] Notation run := (handler_run (L := some_log) (D := walDir) any_dir any_dir [] no_storage_text no_code_text map_to_list).

Definition one_message (v : byte) : list ProtoMessage := [mkProto 0 [] [v] ∅ 5].
Definition produce_to (topic : string) (id : Z) (v : byte) : Request :=
  mkRequest (mkReqHeader 1 RequestTypeProduce 1 0) (QProduce (mkProduceRequest (text topic) id (one_message v) 0 0 0 0 0)).
Definition create_topic (topic : string) (n : Z) : Request :=
  mkRequest (mkReqHeader 2 RequestTypeCreateTopic 1 0) (QCreateTopic (mkCreateTopicRequest (text topic) n 1)).

Definition first_handler : Handler some_log walDir := NewHandlerWithTopicManager 0 (empty_manager 0 root_dir).
Definition after_requests (reqs : list Request) : Handler some_log walDir :=
  default first_handler (run first_handler (map (pair 0) reqs)).
Definition sample_requests : list Request := [create_topic "a" 2; produce_to "a" 1 x41; produce_to "b" 0 x42].

Lemma sample_run : run first_handler (map (pair 0) sample_requests) = Some (after_requests sample_requests).
Proof.
  assert (bool_decide (is_Some (run first_handler (map (pair 0) sample_requests))) = true) as H%bool_decide_eq_true by (vm_compute; reflexivity).
  unfold after_requests. by destruct H as [h ->].
Qed.

Definition is_ok {A} (o : option A) : bool := match o with Some _ => true | None => false end.
Definition reopens_some (d : walDir) : bool := match reopened (L := some_log) 0 d with Some (Ok _) => true | _ => false end.

Lemma reopens_some_spec d : reopens_some d = true -> exists p : Partition some_log, reopens 0 d p.
Proof. unfold reopens_some, reopens. destruct (reopened 0 d) as [[p |] |]; [eauto | done | done]. Qed.

Lemma sample_reopens name id (p : Partition some_log) :
  partition_at (hd_topicManager (after_requests sample_requests)) name id = Some p -> exists p' : Partition some_log, reopens 0 (ls_files (pt_log p)) p'.
Proof.
  assert (Hall : map_Forall (fun _ t => map_Forall (fun _ p => reopens_some (ls_files (pt_log p)) = true) t)
                   (tm_topics (hd_topicManager (after_requests sample_requests)))).
  { apply (bool_decide_unpack _). vm_compute. exact I. }
  unfold partition_at. intros H. destruct (tm_topics _ !! name) as [t |] eqn:Et; [| done]. simpl in H.
  apply reopens_some_spec. exact (Hall _ _ Et _ _ H).
Qed.

Lemma sample_ok : Forall (fun r => request_ok r.2) (map (pair 0) sample_requests).
Proof. repeat constructor; try lia; apply (bool_decide_unpack _); vm_compute; done. Qed.

Lemma partitions_isolated_witness :
  exists resp h' p, handle 0 (after_requests sample_requests) (produce_to "a" 0 x43) = Some (resp, h')
    /\ partition_at (hd_topicManager h') (text "a") 1 = Some p
    /\ tm_disk (hd_topicManager h') !! (root_dir ++ [text "topics"; text "a"; text "partition-1"]) = Some (ls_files (pt_log p)).
Proof.
  destruct (reopens_some_spec ls_empty) as [p0 Hp0]; [vm_compute; reflexivity |].
  assert (H1 : is_ok (handle 0 (after_requests sample_requests) (produce_to "a" 0 x43)) = true) by (vm_compute; reflexivity).
  assert (H2 : is_ok (partition_at (hd_topicManager (after_requests sample_requests)) (text "a") 1) = true) by (vm_compute; reflexivity).
  destruct (handle 0 (after_requests sample_requests) (produce_to "a" 0 x43)) as [[resp h'] |] eqn:E; [| discriminate H1].
  destruct (partition_at (hd_topicManager (after_requests sample_requests)) (text "a") 1) as [p |] eqn:Ep; [| discriminate H2].
  destruct (partitions_isolated any_dir any_dir [] no_storage_text no_code_text map_to_list (fun _ => eq_refl) 0 root_dir (map (pair 0) sample_requests) 0 0
              (after_requests sample_requests) h' (produce_to "a" 0 x43) resp (text "a") 1 p p0 root_dir_good Hp0 sample_ok sample_run)
    as (Hp & _ & Hf & _); [apply (bool_decide_unpack _); vm_compute; exact I | exact E | vm_compute; reflexivity | exact Ep |].
  exists resp, h', p. split; [reflexivity |]. split; [exact Hp | exact Hf].
Defined.

Lemma topics_survive_restart_witness :
  exists tm p', NewTopicManagerWithMessageFormatVersion (L := some_log) root_dir 0 (tm_disk (hd_topicManager (after_requests sample_requests))) = Some tm
    /\ partition_at tm (text "a") 1 = Some p'.
Proof.
  destruct (reopens_some_spec ls_empty) as [p0 Hp0]; [vm_compute; reflexivity |].
  destruct (topics_survive_restart any_dir any_dir [] no_storage_text no_code_text map_to_list (fun _ => eq_refl) 0 root_dir
              (map (pair 0) sample_requests) 0 (after_requests sample_requests) p0 root_dir_good Hp0 sample_ok sample_run sample_reopens)
    as (tm & Hnew & Hat).
  assert (H : is_ok (partition_at (hd_topicManager (after_requests sample_requests)) (text "a") 1) = true) by (vm_compute; reflexivity).
  destruct (partition_at (hd_topicManager (after_requests sample_requests)) (text "a") 1) as [p |] eqn:Ep; [| discriminate H].
  destruct (sample_reopens _ _ _ Ep) as [p' Hp']. exists tm, p'. split; [exact Hnew |]. apply Hat. exists p. split; [exact Ep | exact Hp'].
Defined.

Lemma empty_topic_name_deletes_all_witness :
  exists r2 h2 h1, handle 0 h1 (mkRequest (mkReqHeader 2 RequestTypeDeleteTopic 1 0) (QDeleteTopic [])) = Some (r2, h2)
    /\ tm_topics (hd_topicManager h2) = tm_topics (hd_topicManager (after_requests sample_requests)) /\ tm_disk (hd_topicManager h2) = ∅.
Proof.
  destruct (reopens_some_spec ls_empty) as [p0 Hp0]; [vm_compute; reflexivity |].
  destruct (empty_topic_name_deletes_all any_dir any_dir [] no_storage_text no_code_text map_to_list 0 root_dir 0
              (after_requests sample_requests) 1 2 1 0) as (r1 & r2 & h1 & h2 & _ & Hdel & _ & _ & Htopics & Hdisk & _);
    [| exact root_dir_good | vm_compute; reflexivity | reflexivity |].
  - apply (handler_run_ok any_dir any_dir [] no_storage_text no_code_text map_to_list (fun _ => eq_refl) 0 (root_dir ++ [text "topics"])
             (map (pair 0) sample_requests) p0 first_handler); [apply NewTopicManager_empty; exact root_dir_good | exact sample_ok | exact Hp0 | exact sample_run].
  - exists r2, h2, h1. split; [exact Hdel | split; [exact Htopics | exact Hdisk]].
Defined.

(** ** A creation that fails half-way *)

(** An operating system that refuses the directory of the second partition. *)
Definition second_refused (dir : path) : bool := negb (bool_decide (last dir = Some (text "partition-1"))).

Definition failed_creation : option (option topic_error * TopicManager some_log walDir) :=
  CreateTopic second_refused (empty_manager 0 root_dir) (text "a") 2.
Definition after_restart : option (TopicManager some_log walDir) :=
  '(_, tm) ← failed_creation; NewTopicManagerWithMessageFormatVersion root_dir 0 (tm_disk tm).

(** A creation that fails at the second partition leaves the directory of the first: after a
    restart the topic is there with one partition, and creating it with the two that were asked
    for is refused, although nothing stands in the way of the directory any more. *)
Lemma failed_creation_blocks :
  option_map fst failed_creation = Some (Some (PartitionFailed 1 MkdirFailed))
  /\ option_map (fun tm => ListTopics map_to_list tm) after_restart = Some [mkTopicInfo (text "a") 1]
  /\ option_map fst (tm ← after_restart; CreateTopic any_dir tm (text "a") 2) = Some (Some (CountMismatch (text "a") 1 2)).
Proof. split; [| split]; vm_compute; reflexivity. Qed.
