(* ===== verification/Broker.v ===== *)
(** * The request path of a broker (initServer of pkg/broker/broker.go)

    The handlers of pkg/server around one another, as the broker builds them: the base handler on
    the topic manager, the coordinators of consumer groups and transactions, tenancy, schemas,
    security.  A request enters at the security handler.

    A panic anywhere ends the process: [crashing] turns a handler that may panic into one whose
    state is lost then.  A wrapper that the broker leaves out when it is not configured passes
    every request on, like one that is not enabled. *)

From S2P Require Import Prelude GoBytes GoMatch GoJson Record Log LogIface Wire Payloads Protocol Txn Partition Assignor Offsets Group Handlers Cluster Tenancy Security Schema Topics.
From stdpp Require Import prelude list sorting gmap.
From Stdlib Require Import ZArith Lia Strings.Byte Strings.String.
Import Topics.

Open Scope Z_scope.
#[local] Notation length := Datatypes.length.

Module Broker.

(** ** Which broker coordinates a key (coordinator_locator.go) *)

(** FNV-1a of 32 bits. *)
Definition hashKey (key : bytes) : Z := fold_left (fun h b => wrapu 32 (Z.lxor h (b2Z b) * 16777619)) key 2166136261.

Definition id_le (a b : BrokerMetadata) : Prop := bm_ID a <= bm_ID b.
#[export] Instance id_le_dec : RelDecision id_le.
Proof. intros a b. unfold id_le. apply _. Defined.

(** The answer of the locator when the registry is as given; its slice is in the order of ranging
    over the brokers until it is sorted by IDs, which are distinct. *)
Definition FindCoordinator {R} (range_ids : forall V : Type, gmap Z V -> list (Z * V)) (registry : option (BrokerRegistry R))
  (keyType : Z) (key : bytes) : Z * bytes * Z * Z :=
  match registry with
  | None => (0, [], 0, Proto.ErrNotCoordinator)
  | Some br =>
      let brokers := ListActiveBrokers range_ids br in
      let unavailable := (0, [], 0, Proto.ErrNotCoordinator) in
      if zlen brokers =? 0 then unavailable
      else
        match merge_sort id_le brokers !! Z.to_nat (hashKey key mod wrapu 32 (zlen brokers)) with
        | Some chosen => (bm_ID chosen, bm_Host chosen, wraps 32 (bm_Port chosen), Proto.ErrNone)
        | None => unavailable (* not reached with fewer than 2^32 brokers *)
        end
  end.

(** ** The managers of the handlers (initTenancy, initSecurity, initSchemaRegistry) *)

(** The default tenant is made with the default quotas. *)
Definition initTenancy (now : Z) (enableMultiTenancy : bool) : option Tenancy.Manager :=
  if enableMultiTenancy
  then Some (Tenancy.CreateTenant now Tenancy.NewManager (text "default") (text "Default Tenant") (Some Tenancy.DefaultQuotas)).2
  else None.

Definition initSecurity (now t1 t2 t3 : Z) (config : option Security.SecurityConfig) : Security.Manager :=
  Security.NewManager now t1 t2 t3 (Some (default Security.DefaultSecurityConfig config)).

Definition initSchemaRegistry : Schema.SchemaRegistry := Schema.NewSchemaRegistry (Some Schema.DefaultValidator).

(** ** The request path (initServer) *)

(** A handler as the one around it calls it; [None] is the state after a panic. *)
Definition crashing {X} (handle : Z -> X -> Request -> option (option Response * X)) (now : Z) (x : option X) (req : Request)
  : option Response * option X :=
  match x ≫= fun x => handle now x req with
  | Some (resp, x) => (resp, Some x)
  | None => (None, None)
  end.

Section broker.
Context {L D : Type} {LO : LogOps L} {LS : LogStore L D}.
Context {S E : Type} `{OffsetStorage S E}.
Context (mkdir_ok remove_ok : path -> bool).
Context (os_text : bytes) (storage_text : storage_error -> bytes) (read_text : Z -> bytes).
Context (range_topics : gmap bytes (gmap Z (Partition L)) -> list (bytes * gmap Z (Partition L))).
Context (range : forall V : Type, gmap bytes V -> list (bytes * V)).
Context (rangeP : forall V : Type, gmap Z V -> list (Z * V)).
Context (group_text : E -> bytes).
Context (order : list Z -> list Z) (call_ok : nat -> bool).
Context (range_members : forall A : Type, list (bytes * A) -> list (bytes * A)).
Context (schema_text : Schema.schema_error -> bytes).

(** The base handler and the two coordinators, which always answer. *)
Notation storage_state := (option (Handler L D)).
Notation group_state := (@CoordinationHandler S storage_state).
Notation core_state := (@TransactionHandler group_state).

Definition nil_response (req : Request) : Response := mkResponse (mkRespHeader (rh_RequestID (rq_Header req)) StatusError 0) SNil.

Definition storage_handle (now : Z) (h : storage_state) (req : Request) : Response * storage_state :=
  match h ≫= fun h => Handle mkdir_ok remove_ok os_text storage_text read_text range_topics now h req with
  | Some (resp, h) => (resp, Some h)
  | None => (nil_response req, None)
  end.

Definition core_handle (now : Z) (c : core_state) (req : Request) : option Response * core_state :=
  let '(resp, c) := Transaction_Handle order call_ok (Coordination_Handle range rangeP group_text storage_handle) now c req in (Some resp, c).

Notation tenancy_state := (Tenancy.TenancyHandler core_state).
Notation schema_state := (Schema.SchemaHandler (option tenancy_state)).
Notation broker_state := (Security.SecurityHandler (option schema_state)).

Definition tenancy_handle : Z -> tenancy_state -> Request -> option (option Response * tenancy_state) := Tenancy.Tenancy_Handle core_handle.

Definition schema_handle : Z -> schema_state -> Request -> option (option Response * schema_state) :=
  Schema.Schema_Handle range_members schema_text (crashing tenancy_handle).

(** What the server calls. *)
Definition broker_handle : Z -> broker_state -> Request -> option (option Response * broker_state) :=
  Security.Security_Handle range (crashing schema_handle).

(** The handlers of a new server. *)
Definition initServer (now : Z) (tm : TopicManager L D) (gc : option (GroupCoordinator S)) (locate : option (Z -> bytes -> Z * bytes * Z * Z))
  (txn : option TransactionCoordinator) (enableMultiTenancy : bool) (tenants : option Tenancy.Manager)
  (registry : option Schema.SchemaRegistry) (security : option Security.Manager) : broker_state :=
  let base := Some (NewHandlerWithTopicManager now tm) in
  let core := mkTransactionHandler (mkCoordinationHandler base gc locate) txn in
  let tenancy := Tenancy.NewTenancyHandler core tenants (enableMultiTenancy && bool_decide (is_Some tenants)) in
  let schema := Schema.NewSchemaHandler (Some tenancy) registry true in
  let securityEnabled := match security with Some m => Security.sm_authEnabled m || Security.sm_authzEnabled m | None => false end in
  Security.NewSecurityHandler (Some schema) security securityEnabled.

(** The base handler's state, unless the process has crashed. *)
Definition storage_of (st : broker_state) : storage_state :=
  schema ← Security.sh_baseHandler st;
  tenancy ← Schema.ch_baseHandler schema;
  Handlers.ch_baseHandler (Handlers.th_baseHandler (Tenancy.th_baseHandler tenancy)).
End broker.
End Broker.
