(* ===== verification/BrokerSpec.v ===== *)
(** * What the request path of a broker guarantees

    Brokers with the same members agree on the coordinator of every key.  The checks of the
    wrappers together decide which requests reach the topics: each of them that refuses leaves
    everything behind it untouched, and a request that passes all of them is served by the base
    handler as if there were none.  Requests of the coordinators, and the markers that the
    transaction coordinator writes into partitions, are the subject of HandlersSpec.v and
    PartitionSpec.v. *)

From S2P Require Import Prelude GoBytes GoMatch GoJson Record MemTable Wal WalSpec Compaction Log LogSpec LogIface Wire Payloads Protocol Txn Partition Assignor Offsets Group Handlers Cluster ClusterSpec Tenancy Security SecuritySpec Schema SchemaSpec Topics TopicsSpec Broker.
From stdpp Require Import prelude list sorting gmap.
From Stdlib Require Import ZArith Lia Strings.Byte Strings.String.
Import Topics Broker.

Open Scope Z_scope.
#[local] Notation length := Datatypes.length.

(** ** The coordinator of a key *)

Example fnv_test : hashKey (text "a") = 0xe40c292c /\ hashKey (text "foobar") = 0xbf9cf968.
Proof. split; vm_compute; reflexivity. Qed.

#[export] Instance id_le_trans : Transitive id_le.
Proof. intros a b c. unfold id_le. lia. Qed.
#[export] Instance id_le_total : Total id_le.
Proof. intros a b. unfold id_le. lia. Qed.

Lemma distinct_ids (l : list BrokerMetadata) b1 b2 : NoDup (bm_ID <$> l) -> b1 ∈ l -> b2 ∈ l -> bm_ID b1 = bm_ID b2 -> b1 = b2.
Proof.
  intros Hnd [i Hi]%list_elem_of_lookup [j Hj]%list_elem_of_lookup E.
  assert (i = j) as ->; [| congruence]. eapply NoDup_lookup; [exact Hnd | |]; rewrite list_lookup_fmap_Some; eauto.
Qed.

(** Brokers sorted by distinct IDs have one order. *)
Lemma sorted_unique (l1 l2 : list BrokerMetadata) : NoDup (bm_ID <$> l1) -> l1 ≡ₚ l2 -> merge_sort id_le l1 = merge_sort id_le l2.
Proof.
  intros Hnd Hp. apply (Sorted_unique_strong id_le); try apply Sorted_merge_sort; try apply _.
  - intros b1 b2. rewrite !merge_sort_Permutation, <- Hp. unfold id_le. intros H1 H2 L1 L2. apply (distinct_ids l1); [done.. | lia].
  - by rewrite !merge_sort_Permutation.
Qed.

Section coordinator.
Context {R : Type} (range1 range2 : forall V : Type, gmap Z V -> list (Z * V)).
Hypothesis range1_perm : forall V (m : gmap Z V), range1 V m ≡ₚ map_to_list m.
Hypothesis range2_perm : forall V (m : gmap Z V), range2 V m ≡ₚ map_to_list m.

Lemma active_perm (br : BrokerRegistry R) : ListActiveBrokers range1 br ≡ₚ ListActiveBrokers range2 br.
Proof. unfold ListActiveBrokers. by rewrite range1_perm, range2_perm. Qed.

Lemma active_ids_distinct (br : BrokerRegistry R) : keyed br -> NoDup (bm_ID <$> ListActiveBrokers range1 br).
Proof.
  intros Hk. pose proof (active_nodup range1 range1_perm br Hk) as H. unfold getActiveBrokersForAssignment in H. by rewrite <- list_fmap_compose in H.
Qed.

(** Two brokers that see the same members name the same coordinator for a key, in whatever order
    each of them ranges over its registry, and while some broker is active the coordinator is one
    of the active brokers. *)
Theorem coordinator_agreed (br : BrokerRegistry R) keyType key : keyed br -> zlen (ListActiveBrokers range1 br) < 2 ^ 32 ->
  FindCoordinator range1 (Some br) keyType key = FindCoordinator range2 (Some br) keyType key
  /\ (ListActiveBrokers range1 br <> [] -> exists id b, br_brokers br !! id = Some b /\ IsActive b = true
        /\ FindCoordinator range1 (Some br) keyType key = (id, bm_Host b, wraps 32 (bm_Port b), Proto.ErrNone)).
Proof.
  intros Hk Hlen. pose proof (active_ids_distinct br Hk) as Hnd. unfold FindCoordinator. cbv zeta. split.
  - rewrite (sorted_unique _ _ Hnd (active_perm br)). by rewrite (Permutation_length (active_perm br)).
  - intros Hne. assert (0 < zlen (ListActiveBrokers range1 br)) as Hpos by (destruct (ListActiveBrokers range1 br); [done | simpl; lia]).
    destruct (Z.eqb_spec (zlen (ListActiveBrokers range1 br)) 0) as [E | _]; [lia |]. unfold wrapu. rewrite (Z.mod_small (zlen _)) by lia.
    pose proof (Z.mod_pos_bound (hashKey key) _ Hpos) as Hb.
    destruct (lookup_lt_is_Some_2 (merge_sort id_le (ListActiveBrokers range1 br)) (Z.to_nat (hashKey key mod zlen (ListActiveBrokers range1 br)))) as [b Eb].
    { rewrite merge_sort_Permutation. lia. }
    rewrite Eb. apply list_elem_of_lookup_2 in Eb. rewrite merge_sort_Permutation in Eb. apply list_elem_of_filter in Eb as [Ha Eb].
    rewrite range1_perm, list_elem_of_fmap in Eb. destruct Eb as ([id b'] & -> & Hin%elem_of_map_to_list). exists id, b'.
    simpl in *. rewrite (Hk _ _ Hin). done.
Qed.
End coordinator.

Section broker.
Context {L D : Type} {LO : LogOps L} {LS : LogStore L D}.
Context {S E : Type} `{OffsetStorage S E}.
Context (mkdir_ok remove_ok : path -> bool).
Context (os_text : bytes) (storage_text : storage_error -> bytes) (read_text : Z -> bytes).
Context (range_topics : gmap bytes (gmap Z (Partition L)) -> list (bytes * gmap Z (Partition L))).
Context (range : forall V : Type, gmap bytes V -> list (bytes * V)).
Context (rangeP : forall V : Type, gmap Z V -> list (Z * V)).
Context (group_text : E -> bytes).
Context (order : list Z -> list Z) (call_ok : nat -> bool).
Context (range_members : forall A : Type, list (bytes * A) -> list (bytes * A)).
Context (schema_text : Schema.schema_error -> bytes).
Hypothesis members_perm : forall A l, range_members A l ≡ₚ l.

#[local] Notation storage_state := (option (Handler L D)).
#[local] Notation core_state := (@TransactionHandler (@CoordinationHandler S storage_state)).
#[local] Notation tenancy_state := (Tenancy.TenancyHandler core_state).
#[local] Notation schema_state := (Schema.SchemaHandler (option tenancy_state)).
#[local] Notation broker_state := (Security.SecurityHandler (option schema_state)).
#[local] Notation Handle := (Handle mkdir_ok remove_ok os_text storage_text read_text range_topics).
#[local] Notation core_handle := (core_handle mkdir_ok remove_ok os_text storage_text read_text range_topics range rangeP group_text order call_ok).
#[local] Notation tenancy_handle := (tenancy_handle mkdir_ok remove_ok os_text storage_text read_text range_topics range rangeP group_text order call_ok).
#[local] Notation schema_handle := (schema_handle mkdir_ok remove_ok os_text storage_text read_text range_topics range rangeP group_text order call_ok range_members schema_text).
#[local] Notation broker_handle := (broker_handle mkdir_ok remove_ok os_text storage_text read_text range_topics range rangeP group_text order call_ok range_members schema_text).

(** The requests of the base handler: produce, fetch, offsets, topics and health. *)
Definition storage_request (req : Request) : Prop := 1 <= rh_Type (rq_Header req) <= 7.

(** A request whose payload is of the type that its header names. *)
Definition well_typed (req : Request) : Prop :=
  let t := rh_Type (rq_Header req) in
  (t = RequestTypeProduce -> exists p, rq_Payload req = QProduce p) /\ (t = RequestTypeFetch -> exists p, rq_Payload req = QFetch p)
  /\ (t = RequestTypeGetOffset -> exists p, rq_Payload req = QGetOffset p) /\ (t = RequestTypeCreateTopic -> exists p, rq_Payload req = QCreateTopic p)
  /\ (t = RequestTypeDeleteTopic -> exists p, rq_Payload req = QDeleteTopic p).

(** The answer to a request that is refused: an error status and the identifier of the request. *)
Definition refusal (req : Request) (resp : option Response) : Prop :=
  exists e, resp = Some e /\ sh_Status (rs_Header e) = StatusError /\ sh_RequestID (rs_Header e) = rh_RequestID (rq_Header req).

(** ** The layers *)

(** What the wrappers check. *)
Definition authorized {B} (h : Security.SecurityHandler B) (req : Request) : Prop :=
  forall m a action resource, Security.sh_enabled h = true -> Security.sh_securityManager h = Some m -> Security.HasACLEntries m = true ->
  Security.sm_authorizer m = Some a -> Security.getActionAndResource req = Some (action, resource) ->
  Security.ACL_Authorize range a Security.anonymous action resource = true.

Definition schemas_hold {B} (h : Schema.SchemaHandler B) (req : Request) : Prop :=
  forall sr p, Schema.ch_enabled h = true -> Schema.ch_schemaRegistry h = Some sr ->
  rh_Type (rq_Header req) = RequestTypeProduce -> rq_Payload req = QProduce p -> Forall (message_admitted sr (prq_Topic p)) (prq_Messages p).

Definition within_quotas {B} (now : Z) (h : Tenancy.TenancyHandler B) (req : Request) : Prop :=
  forall m err m', Tenancy.th_enabled h = true -> Tenancy.th_tenancyManager h = Some m ->
  Tenancy.enforceQuotas now m (Tenancy.extractTenantID req) req = Some (err, m') -> err = None.

Section layer.
Context {B : Type} (base : Z -> B -> Request -> option Response * B).

Lemma action_total req : well_typed req -> exists action resource, Security.getActionAndResource req = Some (action, resource).
Proof.
  intros (Hp & Hf & Hg & Hc & Hd). unfold Security.getActionAndResource. cbv zeta.
  destruct (Z.eqb_spec (rh_Type (rq_Header req)) RequestTypeProduce) as [Ht | _]; [destruct (Hp Ht) as [p ->]; eauto |].
  destruct (Z.eqb_spec (rh_Type (rq_Header req)) RequestTypeFetch) as [Ht | _]; [destruct (Hf Ht) as [p ->]; eauto |].
  destruct (Z.eqb_spec (rh_Type (rq_Header req)) RequestTypeGetOffset) as [Ht | _]; [destruct (Hg Ht) as [p ->]; eauto |].
  destruct (Z.eqb_spec (rh_Type (rq_Header req)) RequestTypeCreateTopic) as [Ht | _]; [destruct (Hc Ht) as [p ->]; eauto |].
  destruct (Z.eqb_spec (rh_Type (rq_Header req)) RequestTypeDeleteTopic) as [Ht | _]; [destruct (Hd Ht) as [p ->]; eauto |].
  repeat case_match; eauto.
Qed.

Lemma check_exact m req action resource : Security.getActionAndResource req = Some (action, resource) ->
  exists denied m', Security.checkAuthorization range m req (Security.authenticate m req) action resource = Some (denied, m')
    /\ (denied = None <-> forall a, Security.HasACLEntries m = true -> Security.sm_authorizer m = Some a ->
          Security.ACL_Authorize range a Security.anonymous action resource = true)
    /\ (denied = None \/ refusal req denied).
Proof.
  intros Ha. unfold Security.checkAuthorization, Security.Authorize, Security.HasACLEntries.
  assert (Security.authenticate m req = Security.anonymous) as -> by (unfold Security.authenticate; by destruct (Security.sm_authEnabled m)).
  destruct (Security.sm_authzEnabled m); simpl; [| by eexists _, _; split; [done |]; split; [split; done | left]]. destruct (Security.sm_authorizer m) as [a |]; simpl; [| by eexists _, _; split; [done |]; split; [split; done | left]].
  destruct (Security.ACL_HasACLEntries a); simpl; [| by eexists _, _; split; [done |]; split; [split; done | left]].
  destruct (Security.ACL_Authorize range a Security.anonymous action resource) eqn:Ez; eexists _, _; (split; [reflexivity |]); [naive_solver |].
  split; [split; [done | intros Hall; specialize (Hall a eq_refl eq_refl); congruence] |]. right. by eexists.
Qed.

Lemma security_layer now (h : Security.SecurityHandler B) req : well_typed req ->
  exists resp h', Security.Security_Handle range base now h req = Some (resp, h')
    /\ ((authorized h req /\ (resp, Security.sh_baseHandler h') = base now (Security.sh_baseHandler h) req)
        \/ (~ authorized h req /\ refusal req resp /\ Security.sh_baseHandler h' = Security.sh_baseHandler h)).
Proof.
  intros Ht. unfold Security.Security_Handle, authorized. cbv zeta. destruct (base now (Security.sh_baseHandler h) req) as [resp b] eqn:Eb.
  destruct (Security.sh_enabled h); [| by eexists _, _; split; [done |]; left].
  destruct (Security.sh_securityManager h) as [m |]; [| by eexists _, _; split; [done |]; left].
  destruct (action_total req Ht) as (action & resource & Ea). destruct (check_exact m req action resource Ea) as (denied & m' & Ec & Hd & Hrf).
  rewrite Ea. cbn [mbind option_bind]. rewrite Ec. cbn [mbind option_bind].
  destruct denied as [d |]; eexists _, _; (split; [reflexivity |]).
  - right. split; [| by destruct Hrf]. intros Hok. enough (Some d = None) by done. apply Hd. naive_solver.
  - left. split; [| done]. pose proof (proj1 Hd eq_refl). naive_solver.
Qed.

Lemma validate_exact sr req p : rq_Payload req = QProduce p ->
  exists err, Schema.validateProduceRequest range_members sr req = Some err
    /\ (err = None <-> Forall (message_admitted sr (prq_Topic p)) (prq_Messages p)).
Proof.
  intros Hp. unfold Schema.validateProduceRequest. rewrite Hp. cbv zeta. destruct (negb _ && negb _) eqn:Eh.
  - apply andb_true_iff in Eh as [Hv%negb_true_iff Hk%negb_true_iff]. eexists. split; [done |]. split; [intros _ | done].
    apply Forall_forall. intros msg _. split; [by apply no_schema_admits | intros _; by apply no_schema_admits].
  - eexists. split; [done |]. by apply validate_messages_exact.
Qed.

Lemma schema_layer now (h : Schema.SchemaHandler B) req : well_typed req ->
  exists resp h', Schema.Schema_Handle range_members schema_text base now h req = Some (resp, h')
    /\ ((schemas_hold h req /\ (resp, Schema.ch_baseHandler h') = base now (Schema.ch_baseHandler h) req)
        \/ (~ schemas_hold h req /\ refusal req resp /\ Schema.ch_baseHandler h' = Schema.ch_baseHandler h)).
Proof.
  intros (Hp & _). unfold Schema.Schema_Handle, schemas_hold. cbv zeta. destruct (base now (Schema.ch_baseHandler h) req) as [resp b] eqn:Eb.
  destruct (Schema.ch_enabled h); [| by eexists _, _; split; [done |]; left].
  destruct (Schema.ch_schemaRegistry h) as [sr |]; [| by eexists _, _; split; [done |]; left].
  destruct (Z.eqb_spec (rh_Type (rq_Header req)) RequestTypeProduce) as [Ht | Ht]; simpl;
    [| by eexists _, _; split; [done |]; left].
  destruct (Hp Ht) as [p Ep]. destruct (validate_exact sr req p Ep) as (err & Ev & Hv). rewrite Ev. cbn [mbind option_bind].
  destruct err as [e |]; eexists _, _; (split; [reflexivity |]).
  - right. split; [| by split; [eexists |]]. intros Hok. enough (Some e = None) by done. apply Hv. by apply (Hok sr p).
  - left. split; [| done]. intros sr' p' _ [= <-] _ Ep'. rewrite Ep in Ep'. injection Ep' as <-. by apply Hv.
Qed.

Lemma quotas_total now m id req : well_typed req -> exists err m', Tenancy.enforceQuotas now m id req = Some (err, m').
Proof.
  intros (Hp & Hf & _ & Hc & _). unfold Tenancy.enforceQuotas. cbv zeta.
  destruct (Z.eqb_spec (rh_Type (rq_Header req)) RequestTypeProduce) as [Ht | _].
  { destruct (Hp Ht) as [p Ep]. unfold Tenancy.enforceProduceQuota. rewrite Ep. destruct (Tenancy.EnforceProduceQuota _ _ _ _ _); eauto. }
  destruct (Z.eqb_spec (rh_Type (rq_Header req)) RequestTypeFetch) as [Ht | _].
  { destruct (Hf Ht) as [p Ep]. unfold Tenancy.enforceFetchQuota. rewrite Ep. destruct (Tenancy.EnforceConsumeQuota _ _ _ _ _); eauto. }
  destruct (Z.eqb_spec (rh_Type (rq_Header req)) RequestTypeCreateTopic) as [Ht | _]; [| by eauto].
  destruct (Hc Ht) as [p Ep]. unfold Tenancy.enforceTopicQuota. rewrite Ep. destruct (Tenancy.EnforceTopicQuota _ _ _); eauto.
Qed.

Lemma tenancy_layer now (h : Tenancy.TenancyHandler B) req : well_typed req ->
  exists resp h', Tenancy.Tenancy_Handle base now h req = Some (resp, h')
    /\ ((within_quotas now h req /\ (resp, Tenancy.th_baseHandler h') = base now (Tenancy.th_baseHandler h) req)
        \/ (~ within_quotas now h req /\ refusal req resp /\ Tenancy.th_baseHandler h' = Tenancy.th_baseHandler h)).
Proof.
  intros Ht. unfold Tenancy.Tenancy_Handle, within_quotas. cbv zeta. destruct (base now (Tenancy.th_baseHandler h) req) as [resp b] eqn:Eb.
  destruct (Tenancy.th_enabled h); [| by eexists _, _; split; [done |]; left].
  destruct (Tenancy.th_tenancyManager h) as [m |]; [| by eexists _, _; split; [done |]; left].
  destruct (quotas_total now m (Tenancy.extractTenantID req) req Ht) as (err & m' & Eq). rewrite Eq. cbn [mbind option_bind].
  destruct err as [e |]; eexists _, _; (split; [reflexivity |]).
  - right. split; [| by split; [eexists; split; [done |]; destruct e |]]. intros Hok. by specialize (Hok _ _ _ eq_refl eq_refl Eq).
  - left. split; [naive_solver | done].
Qed.
End layer.

Lemma type_eqb req c : storage_request req -> c < 1 \/ 7 < c -> (rh_Type (rq_Header req) =? c) = false.
Proof. unfold storage_request. intros. apply Z.eqb_neq. lia. Qed.

Lemma core_serves now (c : core_state) req h : storage_request req -> Handlers.ch_baseHandler (Handlers.th_baseHandler c) = Some h ->
  exists resp c', core_handle now c req = (resp, c')
    /\ match Handle now h req with
       | Some (r, h1) => resp = Some r /\ Handlers.ch_baseHandler (Handlers.th_baseHandler c') = Some h1
       | None => Handlers.ch_baseHandler (Handlers.th_baseHandler c') = None
       end.
Proof.
  intros Ht Hb. unfold Broker.core_handle, Transaction_Handle, Coordination_Handle. cbv zeta.
  rewrite !(type_eqb req _ Ht) by (vm_compute; naive_solver). unfold Broker.storage_handle. rewrite Hb. cbn [mbind option_bind].
  destruct (Handle now h req) as [[r h1] |]; by eexists _, _.
Qed.

(** ** The whole path *)

(** A request that every wrapper lets through. *)
Definition admitted (now : Z) (st : broker_state) (req : Request) : Prop :=
  authorized st req
  /\ (forall c, Security.sh_baseHandler st = Some c -> schemas_hold c req
       /\ forall t, Schema.ch_baseHandler c = Some t -> within_quotas now t req).

Lemma admitted_iff now (st : broker_state) req c t : Security.sh_baseHandler st = Some c -> Schema.ch_baseHandler c = Some t ->
  admitted now st req <-> authorized st req /\ schemas_hold c req /\ within_quotas now t req.
Proof. intros Ec Et. unfold admitted. rewrite Ec. naive_solver. Qed.

(** C15: a broker serves exactly the requests that its wrappers admit.  Take a request for the
    base handler whose payload is of the type that its header names.  When the access rules allow
    it, its messages satisfy the schemas of their topic and its tenant is within its quotas, the
    answer is the base handler's and the topics become what that handler makes of them, as if it
    stood alone; in particular, where that handler panics so does the broker.  When one of the
    checks refuses the request, its answer has an error status and the identifier of the request,
    and the topics are untouched.  (Whether the answer can be encoded is another matter: the one
    for a tenant that is not active cannot.) *)
Theorem broker_serves_exactly_admitted now (st : broker_state) req h :
  storage_request req -> well_typed req -> storage_of st = Some h ->
  exists resp st', broker_handle now st req = Some (resp, st')
    /\ (admitted now st req ->
        match Handle now h req with
        | Some (r, h1) => resp = Some r /\ storage_of st' = Some h1
        | None => storage_of st' = None
        end)
    /\ (~ admitted now st req -> refusal req resp /\ storage_of st' = Some h).
Proof.
  intros Hr Ht Hst. unfold storage_of in Hst.
  destruct (Security.sh_baseHandler st) as [c |] eqn:Ec; [| done]. simpl in Hst. destruct (Schema.ch_baseHandler c) as [t |] eqn:Et; [| done].
  simpl in Hst. destruct (core_serves now _ req h Hr Hst) as (r & k & Hk & Hk1).
  destruct (tenancy_layer core_handle now t req Ht) as (rt & t' & Eq & Htn).
  destruct (schema_layer (crashing tenancy_handle) now c req Ht) as (rc & c' & Es & Hsc).
  destruct (security_layer (crashing schema_handle) now st req Ht) as (rs & st' & Ez & Hse).
  rewrite Et in Hsc. unfold crashing at 1 in Hsc. simpl in Hsc. unfold Broker.tenancy_handle in Hsc. rewrite Eq in Hsc.
  rewrite Ec in Hse. unfold crashing at 1 in Hse. simpl in Hse. unfold Broker.schema_handle in Hse. rewrite Es in Hse. rewrite Hk in Htn.
  exists rs, st'. split; [exact Ez |]. rewrite (admitted_iff now st req c t Ec Et). unfold storage_of.
  destruct Hse as [[Hse [= -> ->]] | (Hse & Hrf & ->)]; simpl; [| by rewrite Et; naive_solver].
  destruct Hsc as [[Hsc [= -> ->]] | (Hsc & Hrf & ->)]; simpl; [| naive_solver].
  destruct Htn as [[Htn [= -> ->]] | (Htn & Hrf & ->)]; [| naive_solver].
  split; [done | naive_solver].
Qed.
End broker.

(** ** Witnesses *)

#[local] Instance coinless : MemTableOps memTableImpl := skip_ops (fun _ => false).

Definition no_group_text (e : unit) : bytes := [].
Definition no_schema_text (e : Schema.schema_error) : bytes := [].
Definition partition_order (V : Type) (m : gmap Z V) : list (Z * V) := map_to_list m.

(** A broker with the two access rules of [two_entries] in front of an empty store. *)
Definition guarded_broker : Security.SecurityHandler (option (Schema.SchemaHandler (option (Tenancy.TenancyHandler
    (@TransactionHandler (@CoordinationHandler MemoryOffsetStorage (option (Handler some_log walDir)))))))) :=
  initServer 0 (empty_manager 0 root_dir) None None None false None None
    (Some (Security.mkManager true false ∅ [] None ∅ true (Some two_entries) true [])).

#[local] Notation serve := (broker_handle (L := some_log) (D := walDir) (S := MemoryOffsetStorage) any_dir any_dir [] no_storage_text no_code_text
  map_to_list map_order partition_order no_group_text id (fun _ => true) in_order no_schema_text).

#[local] Notation base_handle := (Handle (L := some_log) (D := walDir) any_dir any_dir [] no_storage_text no_code_text map_to_list).

Lemma guarded_allows topic : Security.ACL_Authorize map_order two_entries Security.anonymous Security.ActionTopicRead (Security.topic_resource (text topic)) = true ->
  admitted map_order 0 guarded_broker (fetch_of topic).
Proof.
  intros Ha. split; [intros m a action resource _ [= <-] _ [= <-] [= <- <-]; exact Ha |]. intros c [= <-]. split; [done |]. intros t [= <-] m err m' [=].
Qed.

Lemma guarded_refuses topic : Security.ACL_Authorize map_order two_entries Security.anonymous Security.ActionTopicRead (Security.topic_resource (text topic)) = false ->
  ~ admitted map_order 0 guarded_broker (fetch_of topic).
Proof. intros Ha [Hz _]. pose proof (Hz _ two_entries _ _ eq_refl eq_refl eq_refl eq_refl eq_refl) as H. simpl in H. congruence. Qed.

Lemma fetch_typed topic : well_typed (fetch_of topic).
Proof. repeat split; intros H; vm_compute in H; try discriminate H. by eexists. Qed.

Lemma broker_serves_exactly_admitted_witness :
  (exists resp st' h1, serve 0 guarded_broker (fetch_of "public-news") = Some (resp, st') /\ storage_of st' = Some h1
     /\ TopicExists (hd_topicManager h1) (text "public-news") = true)
  /\ exists resp st', serve 0 guarded_broker (fetch_of "public-secret") = Some (resp, st')
     /\ refusal (fetch_of "public-secret") resp /\ storage_of st' = Some first_handler.
Proof.
  split.
  - destruct (broker_serves_exactly_admitted any_dir any_dir [] no_storage_text no_code_text map_to_list map_order partition_order no_group_text
                id (fun _ => true) in_order no_schema_text in_order_perm 0 guarded_broker (fetch_of "public-news") first_handler)
      as (resp & st' & Hs & Hyes & _); [vm_compute; split; discriminate | apply fetch_typed | reflexivity |].
    specialize (Hyes (guarded_allows "public-news" ltac:(vm_compute; reflexivity))).
    assert (H : match base_handle 0 first_handler (fetch_of "public-news") with
                | Some (_, h) => TopicExists (hd_topicManager h) (text "public-news") | None => false end = true) by (vm_compute; reflexivity).
    destruct (base_handle 0 first_handler (fetch_of "public-news")) as [[r h1] |]; [| discriminate H].
    exists resp, st', h1. split; [exact Hs |]. split; [apply Hyes | exact H].
  - destruct (broker_serves_exactly_admitted any_dir any_dir [] no_storage_text no_code_text map_to_list map_order partition_order no_group_text
                id (fun _ => true) in_order no_schema_text in_order_perm 0 guarded_broker (fetch_of "public-secret") first_handler)
      as (resp & st' & Hs & _ & Hno); [vm_compute; split; discriminate | apply fetch_typed | reflexivity |].
    exists resp, st'. split; [exact Hs |]. apply Hno, guarded_refuses. vm_compute. reflexivity.
Defined.
